(* ===== verification/_CoqProject ===== *)
-Q . S2P
Prelude.v
Vaddr.v
KList.v
KSort.v
KState.v
Thread.v
Synch.v
ThreadInv.v
SynchInv.v
Donation.v
Scheduler.v
Liveness.v
Hash.v
Bitmap.v
Block.v
Partition.v
Cache.v
Inode.v
InodeSpec.v
Directory.v
DirectorySpec.v
Arith64.v
FixedPoint.v
Sorting.v
Str.v
Random.v
Palloc.v
Malloc.v
MallocSpec.v
MallocClaims.v
Pagedir.v
PagedirLife.v
Paging.v
Stdio.v
Ustar.v
Boot.v
Fsutil.v
FsutilRun.v
Interrupt.v
Timer.v
Pit.v
Vga.v
Intq.v
Serial.v
Kbd.v
Console.v
Syscall.v
SyscallSpec.v
Process.v
Tokenizer.v
WordCount.v
WordCountP.v
WorkQueue.v
MmAlloc.v
Http.v
