(* ===== verification/Prelude.v ===== *)
(** * Verification of the CS 162 Pintos kernel

    This library models the instructional kernel of the repository
    (src/group/pintos/src, the group's Pintos with its changes) and the homework
    programs of the course (src/personal) as executable Rocq definitions and proves
    theorems about them.  The definitions are
    translated from the C sources, function by function; their names are those
    of the source wherever Rocq allows it.

    ** The program and its parts

    - [lib/kernel]: intrusive doubly linked lists, bitmaps and hash tables,
      used by everything else;
    - [lib]: 64-bit arithmetic, strings and memory blocks, formatted output,
      sorting and searching, fixed point numbers;
    - [threads]: the scheduler (ready, sleep and all lists, priorities and
      priority donation), semaphores, locks and condition variables, the
      interrupt level; [devices/timer.c] drives the sleep list; the page
      allocator and [malloc] on top of it; the tables of interrupt gates;
    - [userprog]: loading of programs and their arguments, system calls with
      the access to user memory, processes that wait for each other;
    - [devices/block.c] and [filesys]: block devices, a buffer cache in front
      of them, inodes and open files, the free map, directories and paths.

    ** How the code is modelled

    A C function is a computation of the monad [M] below: explicit state
    passing with the outcomes of a C program (a value, a failed [ASSERT] or
    [PANIC], an access to memory that is not there, a trapped division, or no
    end).  Integers are [Z] with the wrap-around of their width written out
    ([u8], [u32], [s32], ...).  Structures are records; pointers to shared
    structures are addresses into finite maps, so that aliasing and dangling
    pointers are visible; 0 is the null pointer.  Loops that are not
    structural have fuel, computed from the state so that it is enough, and
    the theorems that say that a function returns show it.  [wp] and [pwp] are
    the total and partial correctness triples the proofs use.

    ** Files

    - Prelude: faults, the monad, its triples and tactics, machine integers,
      generic lemmas on lists.
    - KList (lib/kernel/list.c): the linked lists on a heap of cells, every
      function, with the proof that each implements the operation on Rocq
      lists.  KSort: the merge sort of [list_sort].
    - KState, Thread, Synch (threads/thread.c, threads/synch.c,
      threads/interrupt.c, devices/timer.c, userprog/process.c): the state of
      the threading system and its operations.  A function that can suspend
      its thread is split at the suspension points; what is left to do is a
      list of statements [stmt] on the stack of the thread, and [run] is one
      step of the machine: the running thread resumes, calls the kernel, or
      the timer ticks.
    - ThreadInv, SynchInv, Donation, Scheduler: the invariant [kinv] of all
      reachable states, preserved by every step, and the theorems on the
      scheduler, locks, donation and alarms.  Liveness: sleeping threads wake
      up on time in every run of the machine.
    - Hash (lib/kernel/hash.c): chained hash tables, refined to finite maps
      against the interface [Keyed] of the client's hash and less functions.
    - Bitmap (lib/kernel/bitmap.c): bitmaps over 32-bit words, refined to
      arrays of bits.
    - Block, Cache (devices/block.c, filesys/cache.c): sectors of a device and
      the buffer cache, refined to a map from sectors to contents ([view]).
    - Inode, InodeSpec (filesys/inode.c, free-map.c, file.c): inodes over the
      cache, and the exactness of reads and writes of directly addressed
      files.
    - Directory, DirectorySpec (filesys/directory.c, filesys.c): entries,
      lookup, paths, creation and removal, and runs of the whole file system
      from formatting on, by evaluation.
    - Syscall, SyscallSpec (userprog/syscall.c, threads/vaddr.h): the system
      call handler and all calls, with the memory of the user process and the
      table of file descriptors, over the file system of Directory; starting and
      awaiting processes and reading a key are parameters.
    - Process (userprog/process.c): loading an executable, the checks and the
      layout of its segments, and the arguments on the first user stack.
    - Stdio (lib/stdio.c, lib/ctype.h, lib/user/console.c): the printf engine
      with its three clients vsnprintf, vhprintf and the kernel's printf.
    - Sorting (lib/stdlib.c): heap sort and binary search against the
      interface [Ordering] of the comparison function.
    - Vaddr (threads/vaddr.h, lib/round.h): pages of virtual addresses.
    - Palloc (threads/palloc.c): the two pools of pages over bitmaps and memory.
    - Malloc, MallocSpec, MallocClaims (threads/malloc.c): descriptors, arenas
      and blocks; the invariant that relates headers, free lists and pages; the
      properties for clients.
    - Pagedir, PagedirLife (userprog/pagedir.c, threads/pte.h): two-level page
      tables in the memory of the page allocator, refined to a map from user
      pages to frames; creation and destruction, and the processor's cache.
    - Paging, Boot (threads/init.c): the initial page directory, as the processor
      walks through it; the words, options and actions of the command line, and
      the devices that get a role.
    - Ustar, Fsutil, FsutilRun (lib/ustar.c, filesys/fsutil.c): headers of tar
      archives, composed and parsed; copying files into an archive on the scratch
      device and back, over the operations of a file system, and a run on the
      modelled one.
    - Partition (devices/partition.c): the scan of the partition tables and the
      devices it registers on top of a disk.
    - Interrupt (threads/interrupt.c, userprog/gdt.c, userprog/exception.c): the
      tables of gates and handlers as start-up fills them, segment descriptors,
      and what a fault does.  Timer, Pit (devices/timer.c, pit.c, speaker.c,
      rtc.c): calibration, delays, the timer chip and the clock.
    - Intq, Serial, Kbd, Vga, Console (devices/intq.c, serial.c, kbd.c, input.c,
      vga.c, lib/kernel/console.c): the devices a user sees.  The interrupt queue
      and the console lock are step relations of threads and interrupts; the serial
      port has two such queues, and the keyboard uses the input queue through the
      interface [InputBuffer].
    - Random (lib/random.c): the generator, as a stream cut into pieces.
    - Tokenizer (src/personal/hw3/tokenizer.c): the words of a shell command.
    - WordCount, WordCountP (src/personal/hw1): the programs words and pwords, the
      second as a step relation of threads that share a list.
    - WorkQueue, Http (src/personal/hw4): the queue between the threads of the web
      server, parsing of requests and the answers of the files handler.
    - MmAlloc (src/personal/hw5/mm_alloc.c): the allocator over sbrk.
    - Arith64, FixedPoint, Str (lib/arithmetic.c, threads/fixed-point.h,
      lib/string.c).

    ** What the theorems show

    Invariants: in every state the threading system can reach by calls that
    keep to the rules below, a lock has one
    holder and a thread is on one queue.  Liveness: in every such run, a sleeping
    thread is woken by the timer interrupt it waits for, and not before.  With
    threads and interrupts interleaved, the interrupt queue loses no byte and no
    wake-up, the serial line sends what it is given in order, and the lines of two
    threads are not mixed on the console.  Refinements: the lists, the hash
    table, the bitmap and the buffer cache implement lists, finite maps, arrays
    of bits and a plain disk; page tables implement a map from user pages to
    frames; the page allocator hands out the first group of free pages; the screen shows the end of an endless roll of paper; [vsnprintf] and [vhprintf] implement the output
    of the formatting engine, cut to the buffer or split in blocks; [malloc] and
    [free] implement a set of disjoint blocks, for every client whose requests
    do not wrap around with their header, and give all pages back in the end.  Safety of
    system calls: a user pointer is read from user space or its process is
    killed, and every call keeps the descriptor table well formed; a partition
    cannot reach sectors of another, and user code can invoke only vectors that
    have a handler.  Start-up: the first page directory maps all of the memory for
    the kernel and nothing for users, and the command line is obeyed as its
    reference interpretation says.  Round trips: tar headers, typed text, quoted commands, printed integers.  The
    homework programs: one thread counts words right, and several threads lose no
    count, though they list a word twice when two of them miss it; the work queue of the web server is
    first in, first out and loses no socket; the allocator never hands out memory
    twice; requests are parsed by their grammar and answered.  Functional
    theorems: both sorts, binary search against linear search, division of
    64-bit numbers, the string functions, printing and reading back integers,
    the layout of program arguments, priority donation, the choice of the next
    thread, alarms, file reads and writes, directory lookup.  A group of
    theorems states where the code departs from what its comments promise: they
    are theorems about the model as well, most of them by evaluation of the
    definitions from a concrete state.

    ** Fuel and bounds

    Loops over linked cells have one more unit of fuel than there are cells;
    loops over numbers or entries have the number of iterations; a loop that polls
    a device has the number of answers the device still gives, and the loops of an
    interrupt handler the size of its queue.  [nlz],
    [to_power_of_2] and the like have the width of the word.  The recursion of
    a file write through the free map has depth [write_depth] = 3: the free
    map's file never grows, so that two levels are used.  In the file system, heap memory is
    a counter of the structures it still has room for, and every theorem that an
    operation returns says how much room it needs; [malloc] itself is modelled in
    Malloc.

    ** Rules for callers, and abstractions

    - The theorems on reachable states of the threading system are about calls
      that [allowed] (SynchInv) admits: a lock is initialised once, its
      semaphore is used only through it, the page of a new thread is free, and a
      thread releases its locks before it exits.  The code checks none of this; a
      thread that exits with a lock held leaves it held
      ([thread_die_keeps_locks]).
    - A call of the kernel runs to its next suspension point in one step: the
      code disables interrupts around what it shares, and a tick inside of the
      rest is taken before or after the call.  Thread identifiers and the tick
      counters are unbounded in Synch, except where a theorem bounds them.
    - The free lists of Malloc and the buckets of Hash are lists of addresses
      or elements, not links inside of the blocks; the list operations they use are
      those verified in KList.  The locks around the descriptors, the pools
      and the cache are left out, these components being modelled for one caller at
      a time.  Sorting exchanges whole elements, where the code exchanges
      them byte by byte.
    - In Syscall the exit status of the process node is a field of the process,
      and the end of [thread_exit] is the part that closes the files; the rest is
      in Synch.  The loader is a parameter of [start_process] in Process that
      leaves the kernel's memory as it is, as far as [start_process] uses it.
    - The lock of the console is its holder and depth; its implementation is
      the one of Synch.  The input buffer of Kbd does not notify the serial port,
      which Serial models.
    - Of the homework programs: [dprintf] sends its whole text; in WordCountP and
      WorkQueue memory is sequentially consistent and an append to the shared list
      is one step; addresses that [malloc] returns are new.
    - Fsutil calls the file system through a class of operations, which
      FsutilRun instantiates with Directory and Inode; its theorem on archives is
      about file systems that keep the laws of [FileSystem], and is not proved
      for the one of Inode.

    ** Not modelled

    The loader and assembly (the entry of an interrupt, the switch of stacks),
    and the function [main] of the kernel, which calls the other parts in turn; the protocols of the disk and the power supply behind
    their ports.  Of the interrupts, those of the timer, the keyboard
    and the serial port are steps of the models; the others are only registered.  The
    buffer cache is modelled for one caller at a time.
    src/personal holds the unmodified starter of the same kernel and homework
    programs; of these the shell around the tokenizer and the proxy handler of the
    web server, which are sequences of system calls of the host, are left out.  The
    user library and the example programs of Pintos only call the kernel. *)

From Stdlib Require Import ZArith Lia.
From stdpp Require Export strings gmap sorting list.

Set Default Goal Selector "!".

(** ** Faults and outcomes

    A C function of the kernel returns, or an [ASSERT] or [PANIC] stops the
    kernel, or it dereferences memory that is not there (undefined behaviour),
    or the processor traps on a division, or it runs for ever.  The last four
    are the values of [fault]; [OutOfFuel] stands for the last one, and a
    theorem that a function returns shows that the fuel of its loops is
    enough. *)
Inductive fault := AssertFail | BadAccess | DivideError | OutOfFuel.

Inductive outcome (A : Type) :=
| Ret (a : A)
| Fail (f : fault).
Arguments Ret {A} a.
Arguments Fail {A} f.

#[export] Instance fault_eq_dec : EqDecision fault.
Proof. solve_decision. Defined.

(** ** The state-and-fault monad *)

(** A computation over a state [S]: the explicit state passing of the C code. *)
Definition M (S A : Type) : Type := S → outcome (A * S).

Definition ret {S A} (a : A) : M S A := λ s, Ret (a, s).
Definition bind {S A B} (c : M S A) (k : A → M S B) : M S B :=
  λ s, match c s with Ret (a, s') => k a s' | Fail f => Fail f end.

Declare Scope m_scope.
Delimit Scope m_scope with M.
Notation "x ← c ; k" := (bind c (λ x, k))
  (at level 20, c at level 100, k at level 200, only parsing) : m_scope.
Notation "' x ← c ; k" := (bind c (λ z, match z with x => k end))
  (at level 20, x pattern, c at level 100, k at level 200, only parsing) : m_scope.
Notation "c ;; k" := (bind c (λ _, k))
  (at level 100, k at level 200, only parsing, right associativity) : m_scope.
Open Scope m_scope.

Section Primitives.
Context {S : Type}.

Definition fail {A} (f : fault) : M S A := λ _, Fail f.
Definition get_state : M S S := λ s, Ret (s, s).
Definition put_state (s : S) : M S unit := λ _, Ret (tt, s).
Definition modify (f : S → S) : M S unit := λ s, Ret (tt, f s).
Definition gets {A} (f : S → A) : M S A := λ s, Ret (f s, s).

(** [ASSERT (b)] of lib/debug.h. *)
Definition ASSERT (b : bool) : M S unit := if b then ret tt else fail AssertFail.

(** The value of an option, or undefined behaviour. *)
Definition deref {A} (o : option A) : M S A :=
  match o with Some a => ret a | None => fail BadAccess end.

End Primitives.

(** ** Total-correctness triples

    [wp c s Q]: run from [s], the computation [c] returns (no assertion
    fires, no bad access, no divergence) with a value and a state in [Q]. *)
Definition wp {S A} (c : M S A) (s : S) (Q : A → S → Prop) : Prop :=
  match c s with Ret (a, s') => Q a s' | Fail _ => False end.

Section WpRules.
Context {S : Type}.
Implicit Types s : S.

Lemma wp_ret {A} (a : A) s (Q : A → S → Prop) : Q a s → wp (ret a) s Q.
Proof. done. Qed.

Lemma wp_bind {A B} (c : M S A) (k : A → M S B) s Q :
  wp c s (λ a s', wp (k a) s' Q) → wp (bind c k) s Q.
Proof. unfold wp, bind. by destruct (c s) as [[a s']|]. Qed.

Lemma wp_bind_inv {A B} (c : M S A) (k : A → M S B) s Q :
  wp (bind c k) s Q → wp c s (λ a s', wp (k a) s' Q).
Proof. unfold wp, bind. by destruct (c s) as [[a s']|]. Qed.

Lemma wp_bind_assoc {A B C} (c : M S A) (k : A → M S B) (k' : B → M S C) s Q :
  wp (bind (bind c k) k') s Q → wp (bind c (λ a, bind (k a) k')) s Q.
Proof. unfold wp, bind. by destruct (c s) as [[a s']|]. Qed.

Lemma wp_seq_assoc {A B} (c : M S unit) (d : M S A) (k : M S B) s Q :
  wp ((c;; d);; k) s Q → wp (c;; d;; k) s Q.
Proof. intros H. apply wp_bind_assoc in H. exact H. Qed.

(** What a triple says of a run that is known. *)
Lemma wp_result {A} (c : M S A) s (Q : A → S → Prop) a s' : wp c s Q → c s = Ret (a, s') → Q a s'.
Proof. unfold wp. intros H E. by rewrite E in H. Qed.

Lemma wp_mono {A} (c : M S A) s (P Q : A → S → Prop) :
  wp c s P → (∀ a s', P a s' → Q a s') → wp c s Q.
Proof. unfold wp. destruct (c s) as [[a s']|]; eauto. Qed.

Lemma wp_conj {A} (c : M S A) s (P Q : A → S → Prop) :
  wp c s P → wp c s Q → wp c s (λ a s', P a s' ∧ Q a s').
Proof. unfold wp. destruct (c s) as [[a s']|]; eauto. Qed.

Lemma wp_ASSERT b s (Q : unit → S → Prop) : b = true → Q tt s → wp (ASSERT b) s Q.
Proof. by intros ->. Qed.

Lemma wp_deref {A} (o : option A) a s (Q : A → S → Prop) :
  o = Some a → Q a s → wp (deref o) s Q.
Proof. by intros ->. Qed.

Lemma wp_get_state s (Q : S → S → Prop) : Q s s → wp get_state s Q.
Proof. done. Qed.

Lemma wp_put_state s s' (Q : unit → S → Prop) : Q tt s' → wp (put_state s') s Q.
Proof. done. Qed.

Lemma wp_modify f s (Q : unit → S → Prop) : Q tt (f s) → wp (modify f) s Q.
Proof. done. Qed.

Lemma wp_gets {A} (f : S → A) s (Q : A → S → Prop) : Q (f s) s → wp (gets f) s Q.
Proof. done. Qed.

(** The outcome of a computation that satisfies a triple. *)
Lemma wp_outcome {A} (c : M S A) s Q :
  wp c s Q ↔ ∃ a s', c s = Ret (a, s') ∧ Q a s'.
Proof.
  unfold wp. destruct (c s) as [[a s']|]; [|naive_solver].
  split; [by eauto|]. by intros (?&?&[= <- <-]&?).
Qed.

(** A run known by its result. *)
Lemma wp_run {A} (c : M S A) s a s' (Q : A → S → Prop) : c s = Ret (a, s') → Q a s' → wp c s Q.
Proof. intros H HQ. unfold wp. by rewrite H. Qed.

End WpRules.

(** ** Partial-correctness triples, for invariants of the steps that succeed *)
Definition pwp {S A} (c : M S A) (s : S) (Q : A → S → Prop) : Prop :=
  match c s with Ret (a, s') => Q a s' | Fail _ => True end.

Section PwpRules.
Context {S : Type}.
Implicit Types s : S.

Lemma pwp_ret {A} (a : A) s (Q : A → S → Prop) : Q a s → pwp (ret a) s Q.
Proof. done. Qed.
Lemma pwp_bind {A B} (c : M S A) (k : A → M S B) s Q :
  pwp c s (λ a s', pwp (k a) s' Q) → pwp (bind c k) s Q.
Proof. unfold pwp, bind. by destruct (c s) as [[a s']|]. Qed.
Lemma pwp_mono {A} (c : M S A) s (P Q : A → S → Prop) :
  pwp c s P → (∀ a s', P a s' → Q a s') → pwp c s Q.
Proof. unfold pwp. destruct (c s) as [[a s']|]; eauto. Qed.
Lemma pwp_and {A} (c : M S A) s P Q : pwp c s P → pwp c s Q → pwp c s (λ a s', P a s' ∧ Q a s').
Proof. unfold pwp. by destruct (c s) as [[a s']|]. Qed.
Lemma pwp_ASSERT b s (Q : unit → S → Prop) : (b = true → Q tt s) → pwp (ASSERT b) s Q.
Proof. destruct b; unfold pwp; simpl; auto. Qed.
Lemma pwp_deref {A} (o : option A) s (Q : A → S → Prop) :
  (∀ a, o = Some a → Q a s) → pwp (deref o) s Q.
Proof. destruct o; unfold pwp; simpl; auto. Qed.
Lemma pwp_get_state s (Q : S → S → Prop) : Q s s → pwp get_state s Q.
Proof. done. Qed.
Lemma pwp_put_state s s' (Q : unit → S → Prop) : Q tt s' → pwp (put_state s') s Q.
Proof. done. Qed.
Lemma pwp_modify f s (Q : unit → S → Prop) : Q tt (f s) → pwp (modify f) s Q.
Proof. done. Qed.
Lemma pwp_gets {A} (f : S → A) s (Q : A → S → Prop) : Q (f s) s → pwp (gets f) s Q.
Proof. done. Qed.
Lemma pwp_fail {A} f s (Q : A → S → Prop) : pwp (fail f) s Q.
Proof. done. Qed.

End PwpRules.

Create HintDb wp.

(** One symbolic-execution step on a [wp] goal. *)
Ltac wp_step :=
  lazymatch goal with
  | |- wp (bind _ _) _ _ => apply wp_bind
  | |- wp (ret _) _ _ => apply wp_ret
  | |- wp get_state _ _ => apply wp_get_state
  | |- wp (put_state _) _ _ => apply wp_put_state
  | |- wp (modify _) _ _ => apply wp_modify
  | |- wp (gets _) _ _ => apply wp_gets
  | |- wp (ASSERT _) _ _ => apply wp_ASSERT; [reflexivity|]
  | |- wp (deref (Some _)) _ _ => eapply wp_deref; [reflexivity|]
  end; cbv beta.
Ltac wp_steps := repeat wp_step.

(** The same for [pwp]; what an assertion or a load shows is introduced. *)
Ltac pwp_step :=
  lazymatch goal with
  | |- pwp (bind _ _) _ _ => apply pwp_bind
  | |- pwp (ret _) _ _ => apply pwp_ret
  | |- pwp get_state _ _ => apply pwp_get_state
  | |- pwp (put_state _) _ _ => apply pwp_put_state
  | |- pwp (modify _) _ _ => apply pwp_modify
  | |- pwp (gets _) _ _ => apply pwp_gets
  | |- pwp (fail _) _ _ => apply pwp_fail
  | |- pwp (ASSERT _) _ _ => apply pwp_ASSERT; intros ?
  | |- pwp (deref _) _ _ => apply pwp_deref; intros ? ?
  end; cbv beta.
Ltac pwp_steps := repeat pwp_step.

(** ** Generic lemmas *)
Section Lists.
Context {A : Type}.
Implicit Types (l : list A) (x : A).

Lemma filter_none (P : A → Prop) `{!∀ x, Decision (P x)} l :
  (∀ x, x ∈ l → ¬ P x) → filter P l = [].
Proof.
  induction l as [|x l IH]; intros Hl; [done|].
  rewrite filter_cons_False by (apply Hl; set_solver). apply IH. set_solver.
Qed.

Lemma filter_all (P : A → Prop) `{!∀ x, Decision (P x)} l : (∀ x, x ∈ l → P x) → filter P l = l.
Proof.
  induction l as [|x l IH]; intros Hl; [done|]. rewrite filter_cons_True by (apply Hl; set_solver).
  f_equal. apply IH. set_solver.
Qed.

Lemma filter_ext_in (P Q : A → Prop) `{!∀ x, Decision (P x), !∀ x, Decision (Q x)} l :
  (∀ x, x ∈ l → P x ↔ Q x) → filter P l = filter Q l.
Proof.
  induction l as [|x l IH]; intros Hl; [done|]. rewrite !filter_cons.
  assert (filter P l = filter Q l) as -> by (apply IH; set_solver). specialize (Hl x ltac:(set_solver)).
  repeat case_decide; tauto.
Qed.

(** [list_remove]: the element is unlinked from the list it is on. *)
Fixpoint remove_elem `{EqDecision A} (x : A) (l : list A) : list A :=
  match l with
  | [] => []
  | y :: r => if decide (x = y) then r else y :: remove_elem x r
  end.

Lemma remove_elem_Permutation `{EqDecision A} x l : x ∈ l → l ≡ₚ x :: remove_elem x l.
Proof.
  induction l as [|y r IH]; simpl; [by intros ?%elem_of_nil|]. intros Hx.
  destruct (decide (x = y)) as [->|]; [done|]. rewrite IH at 1 by set_solver. apply Permutation_swap.
Qed.

Lemma remove_elem_notin `{EqDecision A} x l : x ∉ l → remove_elem x l = l.
Proof.
  induction l as [|y r IH]; simpl; [done|]. intros Hx. rewrite decide_False by set_solver.
  f_equal. apply IH. set_solver.
Qed.

Lemma elem_of_remove_elem `{EqDecision A} x y l : NoDup l → y ∈ remove_elem x l ↔ y ∈ l ∧ y ≠ x.
Proof.
  intros Hl. destruct (decide (x ∈ l)) as [Hx|Hx].
  - pose proof (remove_elem_Permutation x l Hx) as HP. rewrite HP in Hl. apply NoDup_cons in Hl as [Hx' _].
    rewrite HP at 2. rewrite elem_of_cons. split; [|naive_solver]. intros Hy. split; [by right|]. by intros ->.
  - rewrite remove_elem_notin by done. naive_solver.
Qed.

Lemma remove_elem_sub `{EqDecision A} x y l : y ∈ remove_elem x l → y ∈ l.
Proof. induction l as [|z r IH]; simpl; [done|]. case_decide; set_solver. Qed.

Lemma remove_elem_NoDup `{EqDecision A} x l : NoDup l → NoDup (remove_elem x l).
Proof.
  intros Hl. destruct (decide (x ∈ l)) as [Hx|Hx]; [|by rewrite remove_elem_notin].
  rewrite (remove_elem_Permutation x l Hx) in Hl. by apply NoDup_cons in Hl as [_ ?].
Qed.

End Lists.

Open Scope Z_scope.

(** ** Machine integers

    Values of C's integer types are kept as [Z]; these are the wrap-around of
    the unsigned types and the conversion to the signed ones. *)
Definition u8 (x : Z) : Z := x mod 2 ^ 8.
Definition u32 (x : Z) : Z := x mod 2 ^ 32.
Definition u64 (x : Z) : Z := x mod 2 ^ 64.
Definition s32 (x : Z) : Z := let y := u32 x in if 2 ^ 31 <=? y then y - 2 ^ 32 else y.
Definition s64 (x : Z) : Z := let y := u64 x in if 2 ^ 63 <=? y then y - 2 ^ 64 else y.
Definition is_u8 (x : Z) : Prop := 0 ≤ x < 2 ^ 8.
Definition is_u32 (x : Z) : Prop := 0 ≤ x < 2 ^ 32.
Definition is_u64 (x : Z) : Prop := 0 ≤ x < 2 ^ 64.
Definition is_s32 (x : Z) : Prop := - 2 ^ 31 ≤ x < 2 ^ 31.
Definition is_s64 (x : Z) : Prop := - 2 ^ 63 ≤ x < 2 ^ 63.

Section MachineIntegers.
Implicit Types x : Z.

Lemma u8_small x : is_u8 x → u8 x = x.
Proof. intros H. by apply Z.mod_small. Qed.
Lemma u32_small x : is_u32 x → u32 x = x.
Proof. intros H. by apply Z.mod_small. Qed.
Lemma u64_small x : is_u64 x → u64 x = x.
Proof. intros H. by apply Z.mod_small. Qed.
Lemma u8_range x : is_u8 (u8 x).
Proof. by apply Z.mod_pos_bound. Qed.
Lemma u32_range x : is_u32 (u32 x).
Proof. by apply Z.mod_pos_bound. Qed.
Lemma u64_range x : is_u64 (u64 x).
Proof. by apply Z.mod_pos_bound. Qed.

Lemma s32_small x : is_s32 x → s32 x = x.
Proof.
  unfold is_s32, s32, u32. intros H. destruct (decide (0 ≤ x)).
  - rewrite Z.mod_small by lia. case_match; lia.
  - replace (x mod 2 ^ 32) with (x + 2 ^ 32); [case_match; lia|].
    symmetry. rewrite <- (Z_mod_plus_full x 1). apply Z.mod_small. lia.
Qed.

Lemma s64_small x : is_s64 x → s64 x = x.
Proof.
  unfold is_s64, s64, u64. intros H. destruct (decide (0 ≤ x)).
  - rewrite Z.mod_small by lia. case_match; lia.
  - replace (x mod 2 ^ 64) with (x + 2 ^ 64); [case_match; lia|].
    symmetry. rewrite <- (Z_mod_plus_full x 1). apply Z.mod_small. lia.
Qed.

Lemma s32_range x : is_s32 (s32 x).
Proof. pose proof (u32_range x). unfold is_s32, s32, is_u32 in *. case_match; lia. Qed.
Lemma s64_range x : is_s64 (s64 x).
Proof. pose proof (u64_range x). unfold is_s64, s64, is_u64 in *. case_match; lia. Qed.

(** 32-bit words by their bits. *)
Lemma u32_testbit x j : 0 ≤ j → Z.testbit (u32 x) j = bool_decide (j < 32) && Z.testbit x j.
Proof.
  intros Hj. unfold u32. case_bool_decide; simpl.
  - by apply Z.mod_pow2_bits_low.
  - apply Z.mod_pow2_bits_high. lia.
Qed.

Lemma is_u32_testbit x j : is_u32 x → 32 ≤ j → Z.testbit x j = false.
Proof.
  intros Hx Hj. rewrite <- (u32_small x) by done. rewrite u32_testbit by lia.
  by rewrite bool_decide_false by lia.
Qed.

Lemma is_u32_bits x : 0 ≤ x → (∀ j, 32 ≤ j → Z.testbit x j = false) → is_u32 x.
Proof.
  intros Hx Hb. split; [done|]. destruct (decide (x < 2 ^ 32)) as [|Hge]; [done|].
  assert (32 ≤ Z.log2 x) by (apply Z.log2_le_pow2; lia).
  pose proof (Z.bit_log2 x ltac:(lia)) as Ht. rewrite Hb in Ht; done.
Qed.

Lemma is_u32_lor x y : is_u32 x → is_u32 y → is_u32 (Z.lor x y).
Proof.
  intros Hx Hy. apply is_u32_bits; [apply Z.lor_nonneg; unfold is_u32 in *; lia|].
  intros j Hj. by rewrite Z.lor_spec, !is_u32_testbit.
Qed.
Lemma is_u32_land x y : is_u32 x → is_u32 y → is_u32 (Z.land x y).
Proof.
  intros Hx Hy. apply is_u32_bits; [apply Z.land_nonneg; unfold is_u32 in *; lia|].
  intros j Hj. by rewrite Z.land_spec, !is_u32_testbit.
Qed.
Lemma is_u32_lxor x y : is_u32 x → is_u32 y → is_u32 (Z.lxor x y).
Proof.
  intros Hx Hy. apply is_u32_bits; [apply Z.lxor_nonneg; unfold is_u32 in *; lia|].
  intros j Hj. by rewrite Z.lxor_spec, !is_u32_testbit.
Qed.

End MachineIntegers.

(** Unfolds the range predicates before [lia]. *)
Ltac word_lia := unfold is_u8, is_u32, is_u64, is_s32, is_s64 in *; lia.
Close Scope Z_scope.
