(* ===== verification/Vaddr.v ===== *)
(** * Virtual addresses (threads/vaddr.h, lib/round.h)

    Addresses are 32-bit words; the kernel has the physical memory at
    [PHYS_BASE]. *)

From S2P Require Import Prelude.
Local Open Scope Z_scope.

(** [lia] with division by constants. *)
Local Ltac Zify.zify_post_hook ::= Z.to_euclidean_division_equations.

Definition BITMASK (shift cnt : Z) : Z := Z.shiftl (Z.shiftl 1 cnt - 1) shift.
Definition PGSHIFT : Z := 0.
Definition PGBITS : Z := 12.
Definition PGSIZE : Z := 4096.         (* [1 << PGBITS] *)
Definition PGMASK : Z := BITMASK PGSHIFT PGBITS.

Definition pg_ofs (va : Z) : Z := Z.land va PGMASK.
Definition pg_no (va : Z) : Z := Z.shiftr va PGBITS.
Definition pg_round_up (va : Z) : Z := Z.ldiff (u32 (va + PGSIZE - 1)) PGMASK.
Definition pg_round_down (va : Z) : Z := Z.ldiff va PGMASK.

Definition PHYS_BASE : Z := 0xc0000000.
Definition is_user_vaddr (vaddr : Z) : bool := bool_decide (vaddr < PHYS_BASE).
Definition is_kernel_vaddr (vaddr : Z) : bool := bool_decide (vaddr >= PHYS_BASE).

Definition ptov {S} (paddr : Z) : M S Z :=
  ASSERT (bool_decide (paddr < PHYS_BASE));; ret (u32 (paddr + PHYS_BASE)).
Definition vtop {S} (vaddr : Z) : M S Z :=
  ASSERT (is_kernel_vaddr vaddr);; ret (u32 (vaddr - PHYS_BASE)).

Definition ROUND_UP (x step : Z) : Z := u32 (u32 (x + (step - 1)) / step * step).
Definition DIV_ROUND_UP (x step : Z) : Z := u32 (x + (step - 1)) / step.
Definition ROUND_DOWN (x step : Z) : Z := u32 (x / step * step).

(** ** Arithmetic *)
Lemma PGSIZE_eq : PGSIZE = 4096.
Proof. reflexivity. Qed.

Lemma land_PGMASK x : Z.land x PGMASK = x mod PGSIZE.
Proof. change PGMASK with (Z.ones 12). by rewrite Z.land_ones. Qed.
Lemma ldiff_PGMASK x : Z.ldiff x PGMASK = x - x mod PGSIZE.
Proof.
  change PGMASK with (Z.ones 12). rewrite Z.ldiff_ones_r, Z.shiftl_mul_pow2, Z.shiftr_div_pow2 by lia.
  change PGSIZE with (2 ^ 12). pose proof (Z.div_mod x (2 ^ 12)). lia.
Qed.

Lemma pg_ofs_mod va : pg_ofs va = va mod PGSIZE.
Proof. apply land_PGMASK. Qed.
Lemma pg_no_div va : pg_no va = va / PGSIZE.
Proof. unfold pg_no. by rewrite Z.shiftr_div_pow2. Qed.
Lemma pg_round_down_sub va : pg_round_down va = va - va mod PGSIZE.
Proof. apply ldiff_PGMASK. Qed.

(** The page of an address inside of an aligned page. *)
Lemma pg_round_down_in a va : a mod PGSIZE = 0 → a ≤ va < a + PGSIZE → pg_round_down va = a.
Proof. intros Ha Hv. rewrite pg_round_down_sub. rewrite PGSIZE_eq in *. lia. Qed.
Lemma pg_ofs_in a va : a mod PGSIZE = 0 → a ≤ va < a + PGSIZE → pg_ofs va = va - a.
Proof. intros Ha Hv. rewrite pg_ofs_mod. rewrite PGSIZE_eq in *. lia. Qed.

(** The physical and the virtual address of a page of memory are inverse. *)
Lemma vtop_ptov {S} pa (s : S) :
  0 ≤ pa < 2 ^ 32 - PHYS_BASE → (v ← ptov pa; vtop v) s = Ret (pa, s).
Proof.
  intros H. unfold ptov, vtop, bind, ASSERT, ret, PHYS_BASE in *. rewrite bool_decide_true by lia.
  rewrite u32_small by word_lia. unfold is_kernel_vaddr, PHYS_BASE. rewrite bool_decide_true by lia.
  f_equal. rewrite u32_small by word_lia. f_equal. lia.
Qed.
