(* ===== verification/KList.v ===== *)
(** * Doubly linked lists (lib/kernel/list.c, lib/kernel/list.h)

    The intrusive lists of the kernel at the level of their pointers: a heap
    of [list_elem] cells, every function of list.c as a computation over it,
    and the proof that each implements the corresponding operation on Rocq
    lists of element addresses.  The other components of the development keep
    their lists as Rocq lists and use the abstract operations proved here. *)

From S2P Require Import Prelude.
Local Open Scope Z_scope.

(** ** Data *)

(** The address of a [struct list_elem]; 0 is the null pointer. *)
Abbreviation loc := Z (only parsing).
Definition NULL : loc := 0.

(** [struct list_elem] of list.h. *)
Record list_elem := mk_elem { prev : loc; next : loc }.

(** [struct list] of list.h: the addresses of its two header elements. *)
Record klist := mk_list { head : loc; tail : loc }.

(** The list elements that exist in memory, by address. *)
Abbreviation heap := (gmap Z list_elem).

(** An lvalue of type [struct list_elem *]: a link field of an element. *)
Inductive link := Prev (p : loc) | Next (p : loc).

Definition load (p : loc) : M heap list_elem :=
  m ← get_state; deref (m !! p).

Definition get_link (a : link) : M heap loc :=
  match a with
  | Prev p => e ← load p; ret (prev e)
  | Next p => e ← load p; ret (next e)
  end.

Definition set_link (a : link) (v : loc) : M heap unit :=
  match a with
  | Prev p => e ← load p; modify <[p := mk_elem v (next e)]>
  | Next p => e ← load p; modify <[p := mk_elem (prev e) v]>
  end.

#[global] Arguments get_link : simpl never.
#[global] Arguments set_link : simpl never.

(** Fuel of the loops that walk over cells: one more than the number of cells. *)
Definition cells : M heap nat := gets (λ m, S (size m)).

(** ** Operations *)

Definition is_head (elem : loc) : M heap bool :=
  if bool_decide (elem = NULL) then ret false
  else e ← load elem; ret (bool_decide (prev e = NULL) && bool_decide (next e ≠ NULL)).

Definition is_interior (elem : loc) : M heap bool :=
  if bool_decide (elem = NULL) then ret false
  else e ← load elem; ret (bool_decide (prev e ≠ NULL) && bool_decide (next e ≠ NULL)).

Definition is_tail (elem : loc) : M heap bool :=
  if bool_decide (elem = NULL) then ret false
  else e ← load elem; ret (bool_decide (prev e ≠ NULL) && bool_decide (next e = NULL)).

(** [a || b] on two tests that read memory, left to right. *)
Definition or_else (a b : M heap bool) : M heap bool :=
  x ← a; if x then ret true else b.

Definition list_init (L : klist) : M heap unit :=
  set_link (Prev (head L)) NULL;;
  set_link (Next (head L)) (tail L);;
  set_link (Prev (tail L)) (head L);;
  set_link (Next (tail L)) NULL.

Definition list_begin (L : klist) : M heap loc := get_link (Next (head L)).

Definition list_next (elem : loc) : M heap loc :=
  b ← or_else (is_head elem) (is_interior elem);
  ASSERT b;;
  get_link (Next elem).

Definition list_end (L : klist) : M heap loc := ret (tail L).

Definition list_rbegin (L : klist) : M heap loc := get_link (Prev (tail L)).

Definition list_prev (elem : loc) : M heap loc :=
  b ← or_else (is_interior elem) (is_tail elem);
  ASSERT b;;
  get_link (Prev elem).

Definition list_rend (L : klist) : M heap loc := ret (head L).
Definition list_head (L : klist) : M heap loc := ret (head L).
Definition list_tail (L : klist) : M heap loc := ret (tail L).

Definition list_insert (before elem : loc) : M heap unit :=
  b ← or_else (is_interior before) (is_tail before);
  ASSERT b;;
  ASSERT (bool_decide (elem ≠ NULL));;
  p ← get_link (Prev before);
  set_link (Prev elem) p;;
  set_link (Next elem) before;;
  p ← get_link (Prev before);
  set_link (Next p) elem;;
  set_link (Prev before) elem.

Definition list_splice (before first last : loc) : M heap unit :=
  b ← or_else (is_interior before) (is_tail before);
  ASSERT b;;
  if bool_decide (first = last) then ret tt
  else
    last ← list_prev last;
    b ← is_interior first; ASSERT b;;
    b ← is_interior last; ASSERT b;;
    (* Cleanly remove FIRST...LAST from its current list. *)
    fp ← get_link (Prev first);
    ln ← get_link (Next last);
    set_link (Next fp) ln;;
    ln ← get_link (Next last);
    fp ← get_link (Prev first);
    set_link (Prev ln) fp;;
    (* Splice FIRST...LAST into new list. *)
    bp ← get_link (Prev before);
    set_link (Prev first) bp;;
    set_link (Next last) before;;
    bp ← get_link (Prev before);
    set_link (Next bp) first;;
    set_link (Prev before) last.

Definition list_push_front (L : klist) (elem : loc) : M heap unit :=
  b ← list_begin L; list_insert b elem.

Definition list_push_back (L : klist) (elem : loc) : M heap unit :=
  b ← list_end L; list_insert b elem.

Definition list_remove (elem : loc) : M heap loc :=
  b ← is_interior elem; ASSERT b;;
  p ← get_link (Prev elem);
  n ← get_link (Next elem);
  set_link (Next p) n;;
  n ← get_link (Next elem);
  p ← get_link (Prev elem);
  set_link (Prev n) p;;
  get_link (Next elem).

Definition list_empty (L : klist) : M heap bool :=
  b ← list_begin L; e ← list_end L; ret (bool_decide (b = e)).

Definition list_front (L : klist) : M heap loc :=
  b ← list_empty L; ASSERT (negb b);; get_link (Next (head L)).

Definition list_back (L : klist) : M heap loc :=
  b ← list_empty L; ASSERT (negb b);; get_link (Prev (tail L)).

Definition list_pop_front (L : klist) : M heap loc :=
  front ← list_front L; list_remove front;; ret front.

Definition list_pop_back (L : klist) : M heap loc :=
  back ← list_back L; list_remove back;; ret back.

(** The [for] loop of [list_size]. *)
Fixpoint list_size_loop (fuel : nat) (L : klist) (e : loc) (cnt : nat) : M heap nat :=
  match fuel with
  | O => fail OutOfFuel
  | S fuel =>
      stop ← list_end L;
      if bool_decide (e = stop) then ret cnt
      else e' ← list_next e; list_size_loop fuel L e' (S cnt)
  end.

Definition list_size (L : klist) : M heap nat :=
  fuel ← cells; e ← list_begin L; list_size_loop fuel L e 0.

Definition swap (a b : link) : M heap unit :=
  t ← get_link a;
  u ← get_link b;
  set_link a u;;
  set_link b t.

(** The [for] loop of [list_reverse]: each element's links are swapped, and
    the walk goes on through [e->prev], the old [e->next]. *)
Fixpoint list_reverse_loop (fuel : nat) (L : klist) (e : loc) : M heap unit :=
  match fuel with
  | O => fail OutOfFuel
  | S fuel =>
      stop ← list_end L;
      if bool_decide (e = stop) then ret tt
      else
        swap (Prev e) (Next e);;
        e' ← get_link (Prev e);
        list_reverse_loop fuel L e'
  end.

Definition list_reverse (L : klist) : M heap unit :=
  empty ← list_empty L;
  if negb empty then
    fuel ← cells;
    e ← list_begin L;
    list_reverse_loop fuel L e;;
    swap (Next (head L)) (Prev (tail L));;
    f ← get_link (Next (head L));
    b ← get_link (Prev (tail L));
    swap (Prev f) (Next b)
  else ret tt.

(** The operations that take a [list_less_func]. *)
Section Ordered.
(** [less (a, b, aux)]: the comparison of the structures that embed the
    elements; it reads no link. *)
Variable less : loc → loc → bool.

(** The [while] loop of [is_sorted]. *)
Fixpoint is_sorted_loop (fuel : nat) (a b : loc) : M heap bool :=
  match fuel with
  | O => fail OutOfFuel
  | S fuel =>
      a ← list_next a;
      if bool_decide (a = b) then ret true
      else
        p ← list_prev a;
        if less a p then ret false else is_sorted_loop fuel a b
  end.

Definition is_sorted (a b : loc) : M heap bool :=
  if bool_decide (a = b) then ret true
  else fuel ← cells; is_sorted_loop fuel a b.

(** The [do ... while] loop of [find_end_of_run]. *)
Fixpoint find_end_of_run_loop (fuel : nat) (a b : loc) : M heap loc :=
  match fuel with
  | O => fail OutOfFuel
  | S fuel =>
      a ← list_next a;
      if bool_decide (a = b) then ret a
      else
        p ← list_prev a;
        if negb (less a p) then find_end_of_run_loop fuel a b else ret a
  end.

Definition find_end_of_run (a b : loc) : M heap loc :=
  ASSERT (bool_decide (a ≠ NULL));;
  ASSERT (bool_decide (b ≠ NULL));;
  ASSERT (bool_decide (a ≠ b));;
  fuel ← cells; find_end_of_run_loop fuel a b.

(** The [while] loop of [inplace_merge]. *)
Fixpoint inplace_merge_loop (fuel : nat) (a0 a1b0 b1 : loc) : M heap unit :=
  match fuel with
  | O => fail OutOfFuel
  | S fuel =>
      if bool_decide (a0 ≠ a1b0) && bool_decide (a1b0 ≠ b1) then
        if negb (less a1b0 a0) then
          a0 ← list_next a0; inplace_merge_loop fuel a0 a1b0 b1
        else
          a1b0 ← list_next a1b0;
          p ← list_prev a1b0;
          list_splice a0 p a1b0;;
          inplace_merge_loop fuel a0 a1b0 b1
      else ret tt
  end.

Definition inplace_merge (a0 a1b0 b1 : loc) : M heap unit :=
  ASSERT (bool_decide (a0 ≠ NULL));;
  ASSERT (bool_decide (a1b0 ≠ NULL));;
  ASSERT (bool_decide (b1 ≠ NULL));;
  s ← is_sorted a0 a1b0; ASSERT s;;
  s ← is_sorted a1b0 b1; ASSERT s;;
  fuel ← cells; inplace_merge_loop fuel a0 a1b0 b1.

(** The [for] loop of one pass of [list_sort]; returns [output_run_cnt]. *)
Fixpoint list_sort_pass (fuel : nat) (L : klist) (a0 : loc) (output_run_cnt : nat) : M heap nat :=
  match fuel with
  | O => fail OutOfFuel
  | S fuel =>
      stop ← list_end L;
      if bool_decide (a0 = stop) then ret output_run_cnt
      else
        a1b0 ← find_end_of_run a0 stop;
        if bool_decide (a1b0 = stop) then ret (S output_run_cnt)
        else
          b1 ← find_end_of_run a1b0 stop;
          inplace_merge a0 a1b0 b1;;
          list_sort_pass fuel L b1 (S output_run_cnt)
  end.

(** The [do ... while (output_run_cnt > 1)] loop of [list_sort]. *)
Fixpoint list_sort_loop (fuel : nat) (L : klist) : M heap unit :=
  match fuel with
  | O => fail OutOfFuel
  | S fuel =>
      n ← cells;
      a0 ← list_begin L;
      output_run_cnt ← list_sort_pass n L a0 0;
      if bool_decide (1 < output_run_cnt)%nat then list_sort_loop fuel L else ret tt
  end.

Definition list_sort (L : klist) : M heap unit :=
  fuel ← cells;
  list_sort_loop fuel L;;
  b ← list_begin L;
  e ← list_end L;
  s ← is_sorted b e;
  ASSERT s.

(** The [for] loop of [list_insert_ordered]: the first element that [elem]
    is less than, or the tail. *)
Fixpoint insert_point (fuel : nat) (L : klist) (elem e : loc) : M heap loc :=
  match fuel with
  | O => fail OutOfFuel
  | S fuel =>
      stop ← list_end L;
      if bool_decide (e = stop) then ret e
      else if less elem e then ret e
      else e' ← list_next e; insert_point fuel L elem e'
  end.

Definition list_insert_ordered (L : klist) (elem : loc) : M heap unit :=
  ASSERT (bool_decide (elem ≠ NULL));;
  fuel ← cells;
  b ← list_begin L;
  e ← insert_point fuel L elem b;
  list_insert e elem.

(** The [while] loop of [list_unique]. *)
Fixpoint list_unique_loop (fuel : nat) (L : klist) (duplicates : option klist) (elem : loc)
    : M heap unit :=
  match fuel with
  | O => fail OutOfFuel
  | S fuel =>
      nxt ← list_next elem;
      stop ← list_end L;
      if bool_decide (nxt = stop) then ret tt
      else if negb (less elem nxt) && negb (less nxt elem) then
        list_remove nxt;;
        match duplicates with
        | Some D => list_push_back D nxt
        | None => ret tt
        end;;
        list_unique_loop fuel L duplicates elem
      else list_unique_loop fuel L duplicates nxt
  end.

Definition list_unique (L : klist) (duplicates : option klist) : M heap unit :=
  empty ← list_empty L;
  if empty then ret tt
  else fuel ← cells; elem ← list_begin L; list_unique_loop fuel L duplicates elem.

(** The [for] loops of [list_max] and [list_min]. *)
Fixpoint list_max_loop (fuel : nat) (L : klist) (max e : loc) : M heap loc :=
  match fuel with
  | O => fail OutOfFuel
  | S fuel =>
      stop ← list_end L;
      if bool_decide (e = stop) then ret max
      else
        let max := if less max e then e else max in
        e' ← list_next e; list_max_loop fuel L max e'
  end.

Definition list_max (L : klist) : M heap loc :=
  max ← list_begin L;
  stop ← list_end L;
  if bool_decide (max = stop) then ret max
  else fuel ← cells; e ← list_next max; list_max_loop fuel L max e.

Fixpoint list_min_loop (fuel : nat) (L : klist) (min e : loc) : M heap loc :=
  match fuel with
  | O => fail OutOfFuel
  | S fuel =>
      stop ← list_end L;
      if bool_decide (e = stop) then ret min
      else
        let min := if less e min then e else min in
        e' ← list_next e; list_min_loop fuel L min e'
  end.

Definition list_min (L : klist) : M heap loc :=
  min ← list_begin L;
  stop ← list_end L;
  if bool_decide (min = stop) then ret min
  else fuel ← cells; e ← list_next min; list_min_loop fuel L min e.

End Ordered.

(** ** The represented sequence *)

(** The cells [l] are linked in order; [pp] is before the first of them and
    [nn] after the last. *)
Fixpoint dseg (m : heap) (pp : loc) (l : list loc) (nn : loc) : Prop :=
  match l with
  | [] => True
  | x :: r => m !! x = Some (mk_elem pp (List.hd nn r)) ∧ dseg m x r nn
  end.

Definition nodes (L : klist) (es : list loc) : list loc := head L :: es ++ [tail L].

(** [L] is a well-formed list whose interior elements are [es]. *)
Definition is_list (m : heap) (L : klist) (es : list loc) : Prop :=
  dseg m NULL (nodes L es) NULL ∧ NoDup (nodes L es) ∧ NULL ∉ nodes L es.

(** Only the cells of [l] may differ between [m] and [m']. *)
Definition frame (l : list loc) (m m' : heap) : Prop :=
  dom m' = dom m ∧ ∀ x, x ∉ l → m' !! x = m !! x.

Create HintDb klist.

Section Segments.
Implicit Types (m : heap) (l : list loc).

Lemma last_default l d d' : l ≠ [] → List.last l d = List.last l d'.
Proof. induction l as [|x [|y l] IH]; intros ?; [done|done|]. simpl in *. by apply IH. Qed.

Lemma last_cons x l d : List.last (x :: l) d = List.last l x.
Proof. destruct l as [|y l]; [done|]. simpl. by apply (last_default (y :: l)). Qed.

Lemma hd_app l1 l2 d : List.hd d (l1 ++ l2) = List.hd (List.hd d l2) l1.
Proof. by destruct l1. Qed.

Lemma dseg_app m pp l1 l2 nn :
  dseg m pp (l1 ++ l2) nn ↔ dseg m pp l1 (List.hd nn l2) ∧ dseg m (List.last l1 pp) l2 nn.
Proof.
  revert pp. induction l1 as [|x l1 IH]; intros pp; [simpl; tauto|].
  change ((x :: l1) ++ l2) with (x :: (l1 ++ l2)). rewrite last_cons.
  simpl dseg. rewrite IH, hd_app. tauto.
Qed.

Lemma dseg_lookup m pp l1 x l2 nn :
  dseg m pp (l1 ++ x :: l2) nn → m !! x = Some (mk_elem (List.last l1 pp) (List.hd nn l2)).
Proof. rewrite dseg_app. simpl. tauto. Qed.

Lemma dseg_frame m m' pp l nn :
  (∀ x, x ∈ l → m' !! x = m !! x) → dseg m pp l nn → dseg m' pp l nn.
Proof.
  revert pp. induction l as [|x l IH]; intros pp Hm; [done|].
  simpl. intros [Hx Hl]. split.
  - rewrite Hm; [done|set_solver].
  - apply IH; set_solver.
Qed.

Lemma dseg_insert m pp l nn x e : x ∉ l → dseg m pp l nn → dseg (<[x := e]> m) pp l nn.
Proof. intros Hx. apply dseg_frame. intros y Hy. rewrite lookup_insert_ne; [done|set_solver]. Qed.

Lemma dseg_dom m pp l nn x : dseg m pp l nn → x ∈ l → x ∈ dom m.
Proof.
  intros D (l1 & l2 & ->)%list_elem_of_split.
  apply dseg_lookup in D. by apply elem_of_dom_2 in D.
Qed.

Lemma NoDup_dom_length (m : heap) l : NoDup l → (∀ x, x ∈ l → x ∈ dom m) → (length l ≤ size m)%nat.
Proof.
  intros ND Hin. rewrite <- size_dom, <- (size_list_to_set (C := gset Z) l) by done.
  apply subseteq_size. set_solver.
Qed.

Lemma dseg_length m pp l nn : NoDup l → dseg m pp l nn → (length l ≤ size m)%nat.
Proof. intros ND D. apply NoDup_dom_length; [done|]. intros x. by apply (dseg_dom m pp l nn). Qed.

Lemma exists_last_or_nil (l : list loc) : l = [] ∨ ∃ l' y, l = l' ++ [y].
Proof. destruct l as [|l' y] using rev_ind; [by left|by right; eauto]. Qed.

(** Splitting a nonempty list at its last element. *)
Lemma split_last (x : loc) l : ∃ l' y, x :: l = l' ++ [y].
Proof.
  destruct (List.exists_last (l := x :: l)) as (l' & y & E); [done|]. by exists l', y.
Qed.

End Segments.

Section Frames.
Implicit Types m : heap.

Lemma frame_refl l m : frame l m m.
Proof. done. Qed.

Lemma frame_trans l m1 m2 m3 : frame l m1 m2 → frame l m2 m3 → frame l m1 m3.
Proof. intros [D1 F1] [D2 F2]. split; [congruence|]. intros x Hx. by rewrite F2, F1. Qed.

Lemma frame_mono l l' m m' : l ⊆ l' → frame l m m' → frame l' m m'.
Proof. intros Hs [D F]. split; [done|]. intros x Hx. apply F. set_solver. Qed.

Lemma frame_insert l m m' x e : x ∈ l → x ∈ dom m' → frame l m m' → frame l m (<[x := e]> m').
Proof.
  intros Hx Hd [D F]. split; [rewrite dom_insert_L; set_solver|].
  intros y Hy. rewrite lookup_insert_ne; [by apply F|set_solver].
Qed.

Lemma frame_store l m m' x e e' :
  x ∈ l → m' !! x = Some e' → frame l m m' → frame l m (<[x := e]> m').
Proof. intros Hx He. apply frame_insert; [done|]. by eapply elem_of_dom_2. Qed.

Lemma frame_size l m m' : frame l m m' → size m' = size m.
Proof. intros [D _]. by rewrite <- !size_dom, D. Qed.

Lemma frame_dom l m m' x : frame l m m' → x ∈ dom m → x ∈ dom m'.
Proof. intros [D _]. by rewrite D. Qed.

Lemma dseg_frame_out T m m' pp l nn :
  frame T m m' → (∀ x, x ∈ l → x ∉ T) → dseg m pp l nn → dseg m' pp l nn.
Proof. intros [_ F] Hd. apply dseg_frame. intros x Hx. by apply F, Hd. Qed.

(** A list none of whose cells was touched is still there. *)
Lemma is_list_frame l m m' L es :
  frame l m m' → (∀ x, x ∈ nodes L es → x ∉ l) → is_list m L es → is_list m' L es.
Proof.
  intros [_ F] Hd (D & ND & N0). split; [|done].
  apply (dseg_frame m); [|done]. intros x Hx. by apply F, Hd.
Qed.

End Frames.

(** ** Rules for the memory primitives *)
Section LinkRules.
Implicit Types m : heap.

Lemma wp_load p e m Q : m !! p = Some e → Q e m → wp (load p) m Q.
Proof. intros Hp HQ. unfold load. wp_steps. by rewrite Hp. Qed.

Lemma wp_get_prev p e m Q : m !! p = Some e → Q (prev e) m → wp (get_link (Prev p)) m Q.
Proof. intros Hp HQ. unfold get_link, set_link. wp_steps. by eapply wp_load. Qed.

Lemma wp_get_next p e m Q : m !! p = Some e → Q (next e) m → wp (get_link (Next p)) m Q.
Proof. intros Hp HQ. unfold get_link, set_link. wp_steps. by eapply wp_load. Qed.

Lemma wp_set_prev p v e m (Q : unit → heap → Prop) :
  m !! p = Some e → Q tt (<[p := mk_elem v (next e)]> m) → wp (set_link (Prev p) v) m Q.
Proof. intros Hp HQ. unfold get_link, set_link. wp_steps. by eapply wp_load. Qed.

Lemma wp_set_next p v e m (Q : unit → heap → Prop) :
  m !! p = Some e → Q tt (<[p := mk_elem (prev e) v]> m) → wp (set_link (Next p) v) m Q.
Proof. intros Hp HQ. unfold get_link, set_link. wp_steps. by eapply wp_load. Qed.

Lemma wp_is_head p e m Q :
  p ≠ NULL → m !! p = Some e →
  Q (bool_decide (prev e = NULL) && bool_decide (next e ≠ NULL)) m → wp (is_head p) m Q.
Proof.
  intros Hp He HQ. unfold is_head. rewrite bool_decide_false by done.
  wp_steps. by eapply wp_load.
Qed.

Lemma wp_is_interior p e m Q :
  p ≠ NULL → m !! p = Some e →
  Q (bool_decide (prev e ≠ NULL) && bool_decide (next e ≠ NULL)) m → wp (is_interior p) m Q.
Proof.
  intros Hp He HQ. unfold is_interior. rewrite bool_decide_false by done.
  wp_steps. by eapply wp_load.
Qed.

Lemma wp_is_tail p e m Q :
  p ≠ NULL → m !! p = Some e →
  Q (bool_decide (prev e ≠ NULL) && bool_decide (next e = NULL)) m → wp (is_tail p) m Q.
Proof.
  intros Hp He HQ. unfold is_tail. rewrite bool_decide_false by done.
  wp_steps. by eapply wp_load.
Qed.

(** [is_head (e) || is_interior (e)] holds of any cell with a successor. *)
Lemma wp_has_next p e m Q :
  p ≠ NULL → m !! p = Some e → next e ≠ NULL → Q true m →
  wp (or_else (is_head p) (is_interior p)) m Q.
Proof.
  intros Hp He Hn HQ. unfold or_else. wp_step. eapply wp_is_head; [done..|].
  rewrite (bool_decide_true (next e ≠ NULL)), andb_true_r by done.
  case_bool_decide; [by wp_step|]. eapply wp_is_interior; [done..|].
  by rewrite !bool_decide_true by done.
Qed.

(** [is_interior (e) || is_tail (e)] holds of any cell with a predecessor. *)
Lemma wp_has_prev p e m Q :
  p ≠ NULL → m !! p = Some e → prev e ≠ NULL → Q true m →
  wp (or_else (is_interior p) (is_tail p)) m Q.
Proof.
  intros Hp He Hn HQ. unfold or_else. wp_step. eapply wp_is_interior; [done..|].
  rewrite (bool_decide_true (prev e ≠ NULL)) by done.
  destruct (bool_decide (next e ≠ NULL)) eqn:E; simpl; [by wp_step|].
  apply bool_decide_eq_false in E. eapply wp_is_tail; [done..|].
  rewrite !bool_decide_true by (done || by apply dec_stable). done.
Qed.

Lemma wp_list_next p e m Q :
  p ≠ NULL → m !! p = Some e → next e ≠ NULL → Q (next e) m → wp (list_next p) m Q.
Proof.
  intros Hp He Hn HQ. unfold list_next. wp_step. eapply wp_has_next; [done..|].
  wp_steps. by eapply wp_get_next.
Qed.

Lemma wp_list_prev p e m Q :
  p ≠ NULL → m !! p = Some e → prev e ≠ NULL → Q (prev e) m → wp (list_prev p) m Q.
Proof.
  intros Hp He Hn HQ. unfold list_prev. wp_step. eapply wp_has_prev; [done..|].
  wp_steps. by eapply wp_get_prev.
Qed.

End LinkRules.

(** Looks up a cell of the current heap. *)
Ltac solve_cell := by simplify_map_eq.

(** One step through the memory primitives; the cells are found by
    [simplify_map_eq] from the hypotheses. *)
Ltac link_step :=
  lazymatch goal with
  | |- wp (get_link (Prev _)) _ _ => eapply wp_get_prev; [solve_cell|]
  | |- wp (get_link (Next _)) _ _ => eapply wp_get_next; [solve_cell|]
  | |- wp (set_link (Prev _) _) _ _ => eapply wp_set_prev; [solve_cell|]
  | |- wp (set_link (Next _) _) _ _ => eapply wp_set_next; [solve_cell|]
  | |- wp (ASSERT _) _ _ => apply wp_ASSERT; [by rewrite ?bool_decide_true by done|]
  | _ => wp_step
  end; cbn [prev next].
Ltac link_steps := repeat link_step.

(** Turns [NoDup] and membership hypotheses about concatenations into
    elementary facts. *)
Ltac distinct :=
  repeat match goal with
  | H : NoDup (_ ++ _) |- _ => apply NoDup_app in H as (?&?&?)
  | H : NoDup (_ :: _) |- _ => apply NoDup_cons in H as [??]
  | H : _ ∉ _ ++ _ |- _ => apply not_elem_of_app in H as [??]
  | H : _ ∉ _ :: _ |- _ => apply not_elem_of_cons in H as [??]
  | H : ∀ x, x ∈ _ → x ∉ _ :: _ |- _ =>
      setoid_rewrite not_elem_of_cons in H
  end.

(** Closes goals on membership in concatenations of lists. *)
Ltac mem :=
  solve [ assumption
        | repeat match goal with
          | H : _ !! _ = _ |- _ => clear H
          | H : dseg _ _ _ _ |- _ => clear H
          | H : frame _ _ _ |- _ => clear H
          | H : is_list _ _ _ |- _ => clear H
          end; set_solver ].

(** Frames of a sequence of stores to cells of the list. *)
Ltac frame_stores :=
  repeat (eapply frame_store; [clear; set_solver|solve_cell|]); apply frame_refl.

Section Cells.
Implicit Types (m : heap) (A C : list loc).

Lemma wp_list_insert m A p b C e :
  dseg m NULL (A ++ p :: b :: C) NULL → NoDup (e :: A ++ p :: b :: C) →
  NULL ∉ e :: A ++ p :: b :: C → e ∈ dom m →
  wp (list_insert b e) m (λ _ m',
    dseg m' NULL (A ++ p :: e :: b :: C) NULL ∧ frame [e; p; b] m m').
Proof.
  intros D ND N0 [ec He]%elem_of_dom.
  pose proof (dseg_lookup m NULL A p (b :: C) NULL D) as Hp.
  pose proof (dseg_lookup m NULL (A ++ [p]) b C NULL) as Hb.
  rewrite <- app_assoc in Hb. specialize (Hb D). rewrite List.last_last in Hb. simpl in Hp.
  apply dseg_app in D as [DA (_ & _ & DC)].
  assert (p ≠ b ∧ e ≠ p ∧ e ≠ b ∧ p ≠ NULL ∧ b ≠ NULL ∧ e ≠ NULL) as (?&?&?&?&?&?)
    by (distinct; mem).
  unfold list_insert. wp_step. eapply wp_has_prev; [done..|]. link_steps. split.
  - apply dseg_app. simpl. rewrite !lookup_insert_ne, lookup_insert_eq by done.
    split_and!; [|simplify_map_eq; done..|]; distinct; repeat (apply dseg_insert; [mem|]); done.
  - frame_stores.
Qed.

Lemma wp_list_remove m A p e b C :
  dseg m NULL (A ++ p :: e :: b :: C) NULL → NoDup (A ++ p :: e :: b :: C) →
  NULL ∉ A ++ p :: e :: b :: C →
  wp (list_remove e) m (λ r m',
    r = b ∧ dseg m' NULL (A ++ p :: b :: C) NULL ∧ frame [p; b] m m' ∧ m' !! e = m !! e).
Proof.
  intros D ND N0.
  pose proof (dseg_lookup m NULL A p (e :: b :: C) NULL D) as Hp.
  pose proof (dseg_lookup m NULL (A ++ [p]) e (b :: C) NULL) as He.
  pose proof (dseg_lookup m NULL (A ++ [p; e]) b C NULL) as Hb.
  rewrite <- app_assoc in Hb, He. specialize (Hb D). specialize (He D).
  replace (A ++ [p; e]) with ((A ++ [p]) ++ [e]) in Hb by by rewrite <- app_assoc.
  rewrite List.last_last in Hb, He. simpl in Hp, He.
  apply dseg_app in D as [DA (_ & _ & _ & DC)].
  assert (p ≠ b ∧ e ≠ p ∧ e ≠ b ∧ p ≠ NULL ∧ b ≠ NULL ∧ e ≠ NULL) as (?&?&?&?&?&?)
    by (distinct; mem).
  unfold list_remove. wp_step. eapply wp_is_interior; [done..|]. link_steps.
  split_and!; [done| | |by simplify_map_eq].
  - apply dseg_app. simpl. split_and!; [|simplify_map_eq; done..|];
      distinct; repeat (apply dseg_insert; [mem|]); done.
  - frame_stores.
Qed.

End Cells.

(** ** The operations on well-formed lists *)
Section ListSpecs.
Implicit Types (m : heap) (L : klist) (es : list loc).

Lemma nodes_app L es1 es2 : nodes L (es1 ++ es2) = (head L :: es1) ++ es2 ++ [tail L].
Proof. unfold nodes. by rewrite <- app_assoc. Qed.

#[export] Instance nodes_Permutation L : Proper ((≡ₚ) ==> (≡ₚ)) (nodes L).
Proof. intros es es' HP. unfold nodes. by rewrite HP. Qed.

Lemma frame_Permutation l l' m m' : l ≡ₚ l' → frame l m m' → frame l' m m'.
Proof. intros HP. apply frame_mono. intros x. by rewrite HP. Qed.

(** The cells around a position of a list. *)
Lemma nodes_split L es1 es2 :
  ∃ A p b C, head L :: es1 = A ++ [p] ∧ es2 ++ [tail L] = b :: C ∧
    b = List.hd (tail L) es2 ∧ nodes L (es1 ++ es2) = A ++ p :: b :: C.
Proof.
  destruct (split_last (head L) es1) as (A & p & EA).
  assert (∃ b C, es2 ++ [tail L] = b :: C ∧ b = List.hd (tail L) es2) as (b & C & EC & Hb)
    by (destruct es2; simpl; eauto).
  exists A, p, b, C. rewrite nodes_app, EA, EC, <- app_assoc. done.
Qed.

Lemma is_list_lookup m L es l1 x l2 :
  is_list m L es → nodes L es = l1 ++ x :: l2 →
  m !! x = Some (mk_elem (List.last l1 NULL) (List.hd NULL l2)) ∧ x ≠ NULL.
Proof.
  intros (D & _ & N0) E. rewrite E in D, N0. split; [by eapply dseg_lookup|].
  intros ->. apply N0. mem.
Qed.

Lemma is_list_size m L es : is_list m L es → (S (S (length es)) ≤ size m)%nat.
Proof.
  intros (D & ND & _). apply (dseg_length m) in D; [|done].
  unfold nodes in D. simpl in D. rewrite length_app in D. simpl in D. lia.
Qed.

Lemma is_list_dom m L es x : is_list m L es → x ∈ nodes L es → x ∈ dom m.
Proof. intros (D & _) Hx. by eapply dseg_dom. Qed.

Lemma is_list_NoDup m L es : is_list m L es → NoDup es.
Proof. intros (_ & ND & _). unfold nodes in ND. distinct. done. Qed.

Lemma is_list_begin m L es Q :
  is_list m L es → Q (List.hd (tail L) es) m → wp (list_begin L) m Q.
Proof.
  intros HL HQ. unfold list_begin.
  destruct (is_list_lookup m L es [] (head L) (es ++ [tail L])) as [Hh _]; [done|done|].
  eapply wp_get_next; [done|]. simpl. by rewrite hd_app.
Qed.

(** Stepping forward from an element of the list. *)
Lemma is_list_next m L es1 x es2 Q :
  is_list m L (es1 ++ x :: es2) → Q (List.hd (tail L) es2) m → wp (list_next x) m Q.
Proof.
  intros HL HQ.
  destruct (is_list_lookup m L (es1 ++ x :: es2) (head L :: es1) x (es2 ++ [tail L])) as [Hx Hx0];
    [done|by rewrite nodes_app|].
  assert (List.hd NULL (es2 ++ [tail L]) ≠ NULL).
  { destruct HL as (_ & _ & N0). rewrite nodes_app in N0. destruct es2; simpl in *; distinct; done. }
  eapply wp_list_next; [done..|]. simpl. by rewrite hd_app.
Qed.

(** Stepping back from an element of the list or its tail. *)
Lemma is_list_prev m L es1 y es2 x Q :
  is_list m L (es1 ++ y :: es2) → x = List.hd (tail L) es2 → Q y m → wp (list_prev x) m Q.
Proof.
  intros HL Hx HQ.
  destruct (nodes_split L (es1 ++ [y]) es2) as (A & p & b & C & EA & EC & Hb & EN).
  rewrite <- app_assoc in EN. simpl in EN.
  assert (p = y) as ->.
  { rewrite app_comm_cons in EA. by apply app_inj_tail in EA as [_ ->]. }
  replace (A ++ y :: b :: C) with ((A ++ [y]) ++ b :: C) in EN by by rewrite <- app_assoc.
  destruct (is_list_lookup m L _ (A ++ [y]) b C HL EN) as [Hbm Hb0].
  rewrite List.last_last in Hbm. subst x. rewrite <- Hb.
  assert (y ≠ NULL). { destruct HL as (_ & _ & N0). rewrite EN in N0. distinct; done. }
  eapply wp_list_prev; done.
Qed.

Lemma list_init_spec m L :
  head L ≠ NULL → tail L ≠ NULL → head L ≠ tail L → head L ∈ dom m → tail L ∈ dom m →
  wp (list_init L) m (λ _ m', is_list m' L [] ∧ frame (nodes L []) m m').
Proof.
  intros ?? Hne [eh Hh]%elem_of_dom [et Ht]%elem_of_dom.
  unfold list_init. link_steps. split.
  - unfold is_list, nodes. simpl. split_and!; [by simplify_map_eq..|done| |set_solver].
    rewrite !NoDup_cons. split_and!; [mem|mem|apply NoDup_nil_2].
  - unfold nodes. simpl. frame_stores.
Qed.

(** Insertion before the element (or tail) that follows [es1]. *)
Lemma list_insert_spec m L es1 es2 e b :
  is_list m L (es1 ++ es2) → e ∉ nodes L (es1 ++ es2) → e ≠ NULL → e ∈ dom m →
  b = List.hd (tail L) es2 →
  wp (list_insert b e) m (λ _ m',
    is_list m' L (es1 ++ e :: es2) ∧ frame (e :: nodes L (es1 ++ es2)) m m').
Proof.
  intros (D & ND & N0) He He0 Hd ->.
  destruct (nodes_split L es1 es2) as (A & p & b & C & EA & EC & -> & EN).
  rewrite EN in *.
  eapply wp_mono.
  { apply (wp_list_insert m A p _ C e); [done| |set_solver|done]. by apply NoDup_cons. }
  intros [] m' [D' F']. split; [|eapply frame_mono; [|done]; mem].
  assert (nodes L (es1 ++ e :: es2) = A ++ p :: e :: List.hd (tail L) es2 :: C) as EN'.
  { rewrite nodes_app, EA, <- app_assoc. simpl. by rewrite EC. }
  unfold is_list. rewrite EN'. split_and!; [done| |distinct; set_solver].
  rewrite NoDup_app, !NoDup_cons in ND. rewrite NoDup_app, !NoDup_cons. set_solver.
Qed.

(** Removal of an interior element. *)
Lemma list_remove_spec m L es1 e es2 :
  is_list m L (es1 ++ e :: es2) →
  wp (list_remove e) m (λ r m',
    r = List.hd (tail L) es2 ∧ is_list m' L (es1 ++ es2) ∧
    frame (nodes L (es1 ++ es2)) m m').
Proof.
  intros (D & ND & N0).
  destruct (nodes_split L es1 es2) as (A & p & b & C & EA & EC & Hb & EN).
  assert (nodes L (es1 ++ e :: es2) = A ++ p :: e :: b :: C) as EN'.
  { rewrite nodes_app, EA, <- app_assoc. simpl. by rewrite EC. }
  unfold is_list. rewrite EN' in *. eapply wp_mono; [by apply wp_list_remove|].
  intros r m' (-> & D' & F' & _). rewrite EN. split_and!; [done|done| |distinct; set_solver|].
  - rewrite NoDup_app, !NoDup_cons in ND. rewrite NoDup_app, !NoDup_cons. set_solver.
  - eapply frame_mono; [|done]. mem.
Qed.

Lemma list_push_back_spec m L es e :
  is_list m L es → e ∉ nodes L es → e ≠ NULL → e ∈ dom m →
  wp (list_push_back L e) m (λ _ m', is_list m' L (es ++ [e]) ∧ frame (e :: nodes L es) m m').
Proof.
  intros HL He He0 Hd. unfold list_push_back, list_end. wp_steps.
  rewrite <- (app_nil_r es) in HL, He.
  eapply wp_mono; [by apply (list_insert_spec m L es [] e (tail L))|].
  intros [] m'. by rewrite app_nil_r.
Qed.

Lemma list_push_front_spec m L es e :
  is_list m L es → e ∉ nodes L es → e ≠ NULL → e ∈ dom m →
  wp (list_push_front L e) m (λ _ m', is_list m' L (e :: es) ∧ frame (e :: nodes L es) m m').
Proof.
  intros HL He He0 Hd. unfold list_push_front. wp_step. eapply is_list_begin; [done|].
  by apply (list_insert_spec m L [] es e).
Qed.

Lemma list_empty_spec m L es Q :
  is_list m L es → Q (bool_decide (es = [])) m → wp (list_empty L) m Q.
Proof.
  intros HL HQ. unfold list_empty. wp_step. eapply is_list_begin; [done|].
  unfold list_end. wp_steps.
  replace (bool_decide (List.hd (tail L) es = tail L)) with (bool_decide (es = [])); [done|].
  apply bool_decide_ext. destruct es as [|x es]; [done|]. simpl.
  destruct HL as (_ & ND & _). unfold nodes in ND. distinct. split; [done|mem].
Qed.

Lemma list_front_spec m L x es Q :
  is_list m L (x :: es) → Q x m → wp (list_front L) m Q.
Proof.
  intros HL HQ. unfold list_front. wp_step. eapply list_empty_spec; [done|]. simpl. wp_steps.
  destruct (is_list_lookup m L (x :: es) [] (head L) (x :: es ++ [tail L])) as [Hh _]; [done|done|].
  by eapply wp_get_next.
Qed.

Lemma list_back_spec m L es x Q :
  is_list m L (es ++ [x]) → Q x m → wp (list_back L) m Q.
Proof.
  intros HL HQ. unfold list_back. wp_step. eapply list_empty_spec; [done|].
  rewrite bool_decide_false by (by intros [_ ?]%app_nil). wp_steps.
  destruct (is_list_lookup m L (es ++ [x]) (head L :: es ++ [x]) (tail L) []) as [Ht _];
    [done|by unfold nodes|].
  rewrite app_comm_cons, List.last_last in Ht. by eapply wp_get_prev.
Qed.

Lemma list_pop_front_spec m L x es :
  is_list m L (x :: es) →
  wp (list_pop_front L) m (λ r m', r = x ∧ is_list m' L es ∧ frame (nodes L es) m m').
Proof.
  intros HL. unfold list_pop_front. wp_step. eapply list_front_spec; [done|].
  wp_step. eapply wp_mono; [by apply (list_remove_spec m L [] x es)|].
  intros r m' (_ & HL' & F'). wp_steps. done.
Qed.

Lemma list_pop_back_spec m L es x :
  is_list m L (es ++ [x]) →
  wp (list_pop_back L) m (λ r m', r = x ∧ is_list m' L es ∧ frame (nodes L es) m m').
Proof.
  intros HL. unfold list_pop_back. wp_step. eapply list_back_spec; [done|].
  wp_step. eapply wp_mono; [by apply (list_remove_spec m L es x [])|].
  intros r m' (_ & HL' & F'). rewrite app_nil_r in *. wp_steps. done.
Qed.

(** Induction over the walk from an element to the tail. *)
Lemma hd_tail_ne m L es1 x es2 : is_list m L (es1 ++ x :: es2) → x ≠ tail L.
Proof. intros (_ & ND & _). rewrite nodes_app in ND. distinct. mem. Qed.

Lemma list_hd_ne m L es1 x y r es2 :
  is_list m L (es1 ++ x :: (y :: r) ++ es2) → y ≠ List.hd (tail L) es2.
Proof.
  intros (_ & ND & _). rewrite nodes_app in ND. simpl in ND.
  rewrite <- app_assoc in ND. destruct es2; simpl in *; distinct; mem.
Qed.

Lemma list_size_loop_spec m L es1 es2 fuel cnt Q :
  is_list m L (es1 ++ es2) → (length es2 < fuel)%nat → Q (cnt + length es2)%nat m →
  wp (list_size_loop fuel L (List.hd (tail L) es2) cnt) m Q.
Proof.
  revert es1 cnt fuel. induction es2 as [|x es2 IH]; intros es1 cnt [|fuel] HL Hf HQ;
    simpl in *; try lia; unfold list_end; wp_steps.
  - rewrite bool_decide_true by done. wp_steps. by rewrite Nat.add_0_r in HQ.
  - rewrite bool_decide_false by by eapply hd_tail_ne. wp_step. eapply is_list_next; [done|].
    eapply (IH (es1 ++ [x])); [by rewrite <- app_assoc|lia|]. by rewrite Nat.add_succ_r in HQ.
Qed.

Lemma list_size_spec m L es Q :
  is_list m L es → Q (length es) m → wp (list_size L) m Q.
Proof.
  intros HL HQ. unfold list_size, cells. wp_steps. eapply is_list_begin; [done|].
  apply (list_size_loop_spec m L [] es); [done| |done]. apply is_list_size in HL. lia.
Qed.

End ListSpecs.

(** ** Abstract operations on sequences

    What the ordered operations compute, on plain lists.  The components that
    keep kernel lists as Rocq lists (threads, hash chains, ...) use these. *)

(** A comparison that is a strict weak order, as list.h asks of a
    [list_less_func] used for sorting. *)
Class StrictWeak {A} (less : A → A → bool) : Prop := {
  sw_asym a b : less a b = true → less b a = false;
  sw_trans a b c : less b a = false → less c b = false → less c a = false
}.

(** Comparison by an integer key: the form of every [less] of the kernel. *)
Definition less_by {A} (key : A → Z) (a b : A) : bool := key a <? key b.

#[export] Instance less_by_StrictWeak {A} (key : A → Z) : StrictWeak (less_by key).
Proof. unfold less_by. split; intros; lia. Qed.

Section Abstract.
Context {A : Type} (less : A → A → bool).

(** [a] may stand before [b]. *)
Definition le_of (a b : A) : Prop := less b a = false.

#[export] Instance le_of_dec : RelDecision le_of.
Proof. unfold RelDecision, le_of. intros. apply _. Defined.

(** [list_max] and [list_min]: the first of the maximal (minimal) elements. *)
Definition max_from (x : A) (l : list A) : A :=
  foldl (λ max e, if less max e then e else max) x l.
Definition max_elem (l : list A) : option A :=
  match l with [] => None | x :: r => Some (max_from x r) end.
Definition min_from (x : A) (l : list A) : A :=
  foldl (λ min e, if less e min then e else min) x l.
Definition min_elem (l : list A) : option A :=
  match l with [] => None | x :: r => Some (min_from x r) end.

(** [list_insert_ordered]. *)
Fixpoint ordered_insert (e : A) (l : list A) : list A :=
  match l with
  | [] => [e]
  | x :: r => if less e x then e :: x :: r else x :: ordered_insert e r
  end.

(** [list_unique]: what is kept after [x], and what is moved away. *)
Fixpoint unique_from (x : A) (l : list A) : list A * list A :=
  match l with
  | [] => ([], [])
  | y :: r =>
      if negb (less x y) && negb (less y x)
      then let '(k, d) := unique_from x r in (k, y :: d)
      else let '(k, d) := unique_from y r in (y :: k, d)
  end.
Definition unique (l : list A) : list A * list A :=
  match l with
  | [] => ([], [])
  | x :: r => let '(k, d) := unique_from x r in (x :: k, d)
  end.

(** The test [is_sorted] makes: no element is less than its predecessor. *)
Fixpoint sortedb_from (x : A) (l : list A) : bool :=
  match l with
  | [] => true
  | y :: r => if less y x then false else sortedb_from y r
  end.
Definition sortedb (l : list A) : bool :=
  match l with [] => true | x :: r => sortedb_from x r end.

(** The rest of the nondecreasing run that starts at [x], and what follows. *)
Fixpoint split_run (x : A) (l : list A) : list A * list A :=
  match l with
  | [] => ([], [])
  | y :: r =>
      if less y x then ([], y :: r) else let '(u, v) := split_run y r in (y :: u, v)
  end.

(** The number of nondecreasing runs. *)
Fixpoint runs_from (x : A) (l : list A) : nat :=
  match l with
  | [] => 1
  | y :: r => if less y x then S (runs_from y r) else runs_from y r
  end.
Definition runs (l : list A) : nat :=
  match l with [] => 0 | x :: r => runs_from x r end.

Lemma sortedb_from_Sorted x l : sortedb_from x l = true ↔ Sorted le_of (x :: l).
Proof.
  revert x. induction l as [|y l IH]; intros x; simpl.
  - split; [|done]. intros _. by repeat constructor.
  - destruct (less y x) eqn:E.
    + split; [done|]. intros [_ H]%Sorted_inv. inversion H. unfold le_of in *. congruence.
    + rewrite IH. split; [intros H; constructor; [done|by constructor]|by intros [? _]%Sorted_inv].
Qed.

Lemma sortedb_Sorted l : sortedb l = true ↔ Sorted le_of l.
Proof. destruct l; simpl; [|apply sortedb_from_Sorted]. split; [constructor|done]. Qed.

Lemma split_run_app x l : fst (split_run x l) ++ snd (split_run x l) = l.
Proof.
  revert x. induction l as [|y l IH]; intros x; simpl; [done|].
  destruct (less y x); [done|]. specialize (IH y). destruct (split_run y l). simpl in *. congruence.
Qed.

Lemma split_run_sorted x l : sortedb_from x (fst (split_run x l)) = true.
Proof.
  revert x. induction l as [|y l IH]; intros x; simpl; [done|].
  destruct (less y x) eqn:E; [done|]. specialize (IH y). destruct (split_run y l). simpl in *.
  by rewrite E.
Qed.

Lemma split_run_runs x l : runs (x :: l) = S (runs (snd (split_run x l))).
Proof.
  revert x. induction l as [|y l IH]; intros x; simpl; [done|].
  destruct (less y x) eqn:E; [done|]. specialize (IH y). simpl in IH. rewrite IH.
  by destruct (split_run y l).
Qed.

Lemma runs_length l : (runs l ≤ length l)%nat.
Proof.
  destruct l as [|x l]; [done|]. simpl.
  revert x. induction l as [|y l IH]; intros x; simpl; [done|].
  specialize (IH y). destruct (less y x); lia.
Qed.

Lemma runs_app l1 l2 : (runs (l1 ++ l2) ≤ runs l1 + runs l2)%nat.
Proof.
  destruct l1 as [|x l1]; [done|]. simpl. revert x.
  induction l1 as [|y l1 IH]; intros x; simpl.
  - destruct l2 as [|y l2]; simpl; [done|]. destruct (less y x); lia.
  - specialize (IH y). destruct (less y x); lia.
Qed.

Lemma runs_sorted l : Sorted le_of l → (runs l ≤ 1)%nat.
Proof.
  rewrite <- sortedb_Sorted. destruct l as [|x l]; simpl; [lia|]. revert x.
  induction l as [|y l IH]; intros x; simpl; [done|]. destruct (less y x); [done|]. apply IH.
Qed.

Lemma runs_concat bs : Forall (Sorted le_of) bs → (runs (concat bs) ≤ length bs)%nat.
Proof.
  induction 1 as [|b bs Hb _ IH]; simpl; [done|].
  pose proof (runs_app b (concat bs)). apply runs_sorted in Hb. lia.
Qed.

Lemma max_from_elem x l : max_from x l ∈ x :: l.
Proof.
  revert x. induction l as [|y l IH]; intros x; simpl; [set_solver|].
  destruct (less x y); [specialize (IH y)|specialize (IH x)]; set_solver.
Qed.

Lemma min_from_elem x l : min_from x l ∈ x :: l.
Proof.
  revert x. induction l as [|y l IH]; intros x; simpl; [set_solver|].
  destruct (less y x); [specialize (IH y)|specialize (IH x)]; set_solver.
Qed.

Lemma max_elem_Some l x : max_elem l = Some x → x ∈ l.
Proof. destruct l as [|y l]; simpl; [done|]. intros [= <-]. apply max_from_elem. Qed.

Lemma max_elem_None l : max_elem l = None ↔ l = [].
Proof. by destruct l. Qed.

Lemma ordered_insert_Permutation e l : ordered_insert e l ≡ₚ e :: l.
Proof.
  induction l as [|x l IH]; simpl; [done|]. destruct (less e x); [done|].
  rewrite IH. apply Permutation_swap.
Qed.

Lemma ordered_insert_split e l :
  ∃ l1 l2, l = l1 ++ l2 ∧ ordered_insert e l = l1 ++ e :: l2 ∧
    Forall (λ x, less e x = false) l1 ∧ (∀ x r, l2 = x :: r → less e x = true).
Proof.
  induction l as [|x l (l1 & l2 & E1 & E2 & H1 & H2)]; simpl.
  - exists [], []. split_and!; naive_solver.
  - destruct (less e x) eqn:E.
    + exists [], (x :: l). split_and!; [done..|naive_solver].
    + exists (x :: l1), l2. rewrite E2, E1. split_and!; [done..| |done]. by constructor.
Qed.

(** Elements the comparison does not tell apart. *)
Definition eqv (z y : A) : Prop := less z y = false ∧ less y z = false.

#[export] Instance eqv_dec z y : Decision (eqv z y).
Proof. unfold eqv. apply _. Defined.

(** [l'] is a rearrangement of [l] that keeps equal elements in order. *)
Definition stable_perm (l l' : list A) : Prop :=
  l ≡ₚ l' ∧ ∀ z, filter (eqv z) l' = filter (eqv z) l.

Lemma stable_perm_refl l : stable_perm l l.
Proof. done. Qed.

Lemma stable_perm_trans l1 l2 l3 : stable_perm l1 l2 → stable_perm l2 l3 → stable_perm l1 l3.
Proof. intros [P1 F1] [P2 F2]. split; [by trans l2|]. intros z. by rewrite F2, F1. Qed.

Lemma stable_perm_app l1 l1' l2 l2' :
  stable_perm l1 l1' → stable_perm l2 l2' → stable_perm (l1 ++ l2) (l1' ++ l2').
Proof.
  intros [P1 F1] [P2 F2]. split; [by rewrite P1, P2|]. intros z. by rewrite !filter_app, F1, F2.
Qed.

Section Order.
Context `{!StrictWeak less}.

#[export] Instance le_of_Total : Total le_of.
Proof. intros a b. unfold le_of. destruct (less b a) eqn:E; [right; by apply sw_asym|by left]. Qed.

#[export] Instance le_of_Transitive : Transitive le_of.
Proof. intros a b c. unfold le_of. intros. by eapply sw_trans. Qed.

#[export] Instance le_of_Reflexive : Reflexive le_of.
Proof. intros a. destruct (le_of_Total a a); done. Qed.

Lemma Sorted_cons_le x l y : Sorted le_of (x :: l) → y ∈ l → le_of x y.
Proof.
  intros Hs Hy. apply (Sorted_StronglySorted _), StronglySorted_inv in Hs as [_ Hs].
  rewrite Forall_forall in Hs. by apply Hs.
Qed.

(** Merging two ranges, the first of them sorted, is stable. *)
Lemma list_merge_stable l1 l2 : Sorted le_of l1 → stable_perm (l1 ++ l2) (list_merge le_of l1 l2).
Proof.
  intros Hs. split; [by rewrite merge_Permutation|]. intros z. rewrite filter_app.
  revert l2. induction l1 as [|a l1 IH]; intros l2; [by rewrite list_merge_nil_l|].
  induction l2 as [|b l2 IH2]; [by rewrite list_merge_nil_r, filter_nil, app_nil_r|].
  rewrite list_merge_cons. destruct (decide (le_of a b)) as [Hle|Hlt].
  - rewrite !filter_cons, IH, filter_cons by (by apply Sorted_inv in Hs as [? _]).
    by case_decide.
  - rewrite filter_cons, IH2, (filter_cons _ b l2). case_decide as Hz; [|done].
    rewrite (filter_none _ (a :: l1)); [done|].
    intros y Hy [Hzy Hyz]. destruct Hz as [Hzb Hbz]. apply Hlt. trans y.
    + apply elem_of_cons in Hy as [->|Hy]; [done|]. by eapply Sorted_cons_le.
    + by trans z.
Qed.

Lemma sw_less_le a b : less a b = true → le_of a b.
Proof. apply sw_asym. Qed.

(** No element exceeds the maximum, and what stands before it is smaller. *)
Lemma max_from_max x l y : y ∈ x :: l → le_of y (max_from x l).
Proof.
  revert x y. induction l as [|z l IH]; intros x y Hy; simpl.
  - assert (y = x) as -> by set_solver. done.
  - set (w := if less x z then z else x).
    assert (le_of x w ∧ le_of z w) as [Hx Hz].
    { subst w. destruct (less x z) eqn:E; [by split; [apply sw_less_le|]|done]. }
    assert (le_of w (max_from w l)) by (apply IH; set_solver).
    apply elem_of_cons in Hy as [->|[->|Hy]%elem_of_cons]; [by trans w..|]. apply IH. set_solver.
Qed.

Lemma max_elem_max l x y : max_elem l = Some x → y ∈ l → le_of y x.
Proof. destruct l as [|z l]; simpl; [done|]. intros [= <-]. apply max_from_max. Qed.

Lemma max_from_first x l :
  ∃ l1 l2, x :: l = l1 ++ max_from x l :: l2 ∧ Forall (λ y, less y (max_from x l) = true) l1.
Proof.
  induction l as [|z l IH] using rev_ind.
  - exists [], []. split; [done|constructor].
  - unfold max_from. rewrite foldl_app. simpl. fold (max_from x l).
    destruct (less (max_from x l) z) eqn:E.
    + exists (x :: l), []. split; [done|]. apply Forall_forall. intros y Hy.
      pose proof (max_from_max x l y Hy) as Hle. unfold le_of in Hle.
      destruct (less y z) eqn:E2; [done|].
      pose proof (sw_trans z y (max_from x l) E2 Hle). congruence.
    + destruct IH as (l1 & l2 & E1 & H1). exists l1, (l2 ++ [z]).
      rewrite app_comm_cons, E1, <- app_assoc. done.
Qed.

Lemma ordered_insert_Sorted e l : Sorted le_of l → Sorted le_of (ordered_insert e l).
Proof.
  induction l as [|x l IH]; simpl; intros Hs; [by repeat constructor|].
  destruct (less e x) eqn:E.
  - constructor; [done|]. constructor. by apply sw_asym.
  - apply Sorted_inv in Hs as [Hs Hx]. constructor; [by apply IH|].
    destruct l as [|y l]; simpl; [by constructor|]. inversion Hx; subst.
    destruct (less e y); by constructor.
Qed.

End Order.
End Abstract.

(** Sortedness depends on the keys of the elements only. *)
Lemma Sorted_key_ext (f g : Z → Z) l :
  (∀ x, x ∈ l → f x = g x) → Sorted (le_of (less_by f)) l → Sorted (le_of (less_by g)) l.
Proof.
  intros Hfg. induction 1 as [|x l Hl IH Hh]; constructor; [apply IH; set_solver|].
  destruct Hh as [|y l Hxy]; constructor. unfold le_of, less_by in *. by rewrite <- !Hfg by set_solver.
Qed.

(** ** The ordered operations implement their abstract versions *)
Section OrderedSpecs.
Variable less : loc → loc → bool.
Implicit Types (m : heap) (L : klist) (es : list loc).

Lemma list_max_loop_spec m L es1 es2 fuel max Q :
  is_list m L (es1 ++ es2) → (length es2 < fuel)%nat → Q (max_from less max es2) m →
  wp (list_max_loop less fuel L max (List.hd (tail L) es2)) m Q.
Proof.
  revert es1 max fuel. induction es2 as [|x es2 IH]; intros es1 max [|fuel] HL Hf HQ;
    simpl in *; try lia; unfold list_end; wp_steps.
  - by rewrite bool_decide_true by done.
  - rewrite bool_decide_false by by eapply hd_tail_ne. wp_step. eapply is_list_next; [done|].
    eapply (IH (es1 ++ [x])); [by rewrite <- app_assoc|lia|done].
Qed.

Lemma list_min_loop_spec m L es1 es2 fuel min Q :
  is_list m L (es1 ++ es2) → (length es2 < fuel)%nat → Q (min_from less min es2) m →
  wp (list_min_loop less fuel L min (List.hd (tail L) es2)) m Q.
Proof.
  revert es1 min fuel. induction es2 as [|x es2 IH]; intros es1 min [|fuel] HL Hf HQ;
    simpl in *; try lia; unfold list_end; wp_steps.
  - by rewrite bool_decide_true by done.
  - rewrite bool_decide_false by by eapply hd_tail_ne. wp_step. eapply is_list_next; [done|].
    eapply (IH (es1 ++ [x])); [by rewrite <- app_assoc|lia|done].
Qed.

Lemma list_max_spec m L es Q :
  is_list m L es → Q (default (tail L) (max_elem less es)) m → wp (list_max less L) m Q.
Proof.
  intros HL HQ. unfold list_max, list_end, cells. wp_step. eapply is_list_begin; [done|]. wp_steps.
  destruct es as [|x es]; simpl in *; [by rewrite bool_decide_true by done|].
  rewrite bool_decide_false by by eapply (hd_tail_ne m L []). wp_steps.
  eapply (is_list_next m L []); [done|].
  apply (list_max_loop_spec m L [x] es); [done| |done]. apply is_list_size in HL. simpl in HL. lia.
Qed.

Lemma list_min_spec m L es Q :
  is_list m L es → Q (default (tail L) (min_elem less es)) m → wp (list_min less L) m Q.
Proof.
  intros HL HQ. unfold list_min, list_end, cells. wp_step. eapply is_list_begin; [done|]. wp_steps.
  destruct es as [|x es]; simpl in *; [by rewrite bool_decide_true by done|].
  rewrite bool_decide_false by by eapply (hd_tail_ne m L []). wp_steps.
  eapply (is_list_next m L []); [done|].
  apply (list_min_loop_spec m L [x] es); [done| |done]. apply is_list_size in HL. simpl in HL. lia.
Qed.

Lemma insert_point_spec m L es1 es2 fuel e Q :
  is_list m L (es1 ++ es2) → (length es2 < fuel)%nat →
  (∀ l1 l2, es2 = l1 ++ l2 → ordered_insert less e es2 = l1 ++ e :: l2 → Q (List.hd (tail L) l2) m) →
  wp (insert_point less fuel L e (List.hd (tail L) es2)) m Q.
Proof.
  revert es1 fuel Q. induction es2 as [|x es2 IH]; intros es1 [|fuel] Q HL Hf HQ;
    simpl in *; try lia; unfold list_end; wp_steps.
  - rewrite bool_decide_true by done. by apply (HQ [] []).
  - rewrite bool_decide_false by by eapply hd_tail_ne.
    destruct (less e x) eqn:E; [by apply (HQ [] (x :: es2))|].
    wp_step. eapply is_list_next; [done|].
    eapply (IH (es1 ++ [x])); [by rewrite <- app_assoc|lia|].
    intros l1 l2 E1 E2. apply (HQ (x :: l1) l2); simpl; congruence.
Qed.

Lemma list_insert_ordered_spec m L es e :
  is_list m L es → e ∉ nodes L es → e ≠ NULL → e ∈ dom m →
  wp (list_insert_ordered less L e) m (λ _ m',
    is_list m' L (ordered_insert less e es) ∧ frame (e :: nodes L es) m m').
Proof.
  intros HL He He0 Hd. unfold list_insert_ordered, cells.
  rewrite bool_decide_true by done. wp_steps. eapply is_list_begin; [done|]. wp_step.
  apply (insert_point_spec m L [] es); [done|apply is_list_size in HL; lia|].
  intros l1 l2 -> ->. by apply list_insert_spec.
Qed.

(** The [duplicates] list of [list_unique], when there is one, holds [ds] and
    shares no cell with [l]. *)
Definition dup_list (m : heap) (l : list loc) (D : option klist) (ds : list loc) : Prop :=
  ∀ D', D = Some D' → is_list m D' ds ∧ ∀ y, y ∈ l → y ∉ nodes D' ds.

(** A duplicate [y] leaves the list and goes to the back of [duplicates]. *)
Lemma unique_move m L D es1 y es2 ds Q :
  is_list m L (es1 ++ y :: es2) → dup_list m (nodes L (es1 ++ y :: es2)) D ds →
  (∀ m', is_list m' L (es1 ++ es2) → dup_list m' (nodes L (es1 ++ es2)) D (ds ++ [y]) → Q tt m') →
  wp (list_remove y;; match D with Some D' => list_push_back D' y | None => ret tt end) m Q.
Proof.
  intros HL HD HQ. wp_step. eapply wp_mono; [by apply (list_remove_spec m L es1 y es2)|].
  intros r m1 (_ & HL1 & F1).
  destruct D as [D'|]; [|wp_step; apply HQ; done].
  destruct (HD D' eq_refl) as [HD' Hdis].
  assert (y ≠ NULL ∧ y ∈ dom m1 ∧ y ∉ nodes L (es1 ++ es2)) as (Hy0 & Hyd & Hyn).
  { destruct HL as (D1 & ND & N0). rewrite nodes_app in *. split_and!.
    - distinct; done.
    - eapply frame_dom; [done|]. eapply dseg_dom; [done|]. mem.
    - distinct. mem. }
  assert (∀ z, z ∈ nodes L (es1 ++ es2) → z ∉ nodes D' ds) as Hdis'.
  { intros z Hz. apply Hdis. unfold nodes in *. set_solver. }
  assert (y ∉ nodes D' ds) by (apply Hdis; unfold nodes; set_solver).
  assert (is_list m1 D' ds) as HD1 by (eapply is_list_frame; [done| |done]; intros z Hz Hz'; by apply (Hdis' z)).
  eapply wp_mono; [by apply (list_push_back_spec m1 D' ds y)|].
  intros [] m2 [HD2 F2]. apply HQ.
  - eapply is_list_frame; [done| |done]. intros z Hz.
    apply not_elem_of_cons. split; [by intros ->|by apply Hdis'].
  - intros D'' [= <-]. split; [done|]. intros z Hz. specialize (Hdis' z Hz).
    unfold nodes in *. set_solver.
Qed.

(** [list_unique]: the elements equal to their predecessor leave the list, to
    the back of [duplicates] when there is one. *)
Lemma list_unique_loop_spec m L D es1 x es2 fuel ds :
  is_list m L (es1 ++ x :: es2) → (length es2 < fuel)%nat →
  dup_list m (nodes L (es1 ++ x :: es2)) D ds →
  wp (list_unique_loop less fuel L D x) m (λ _ m',
    is_list m' L (es1 ++ x :: fst (unique_from less x es2)) ∧
    ∀ D', D = Some D' → is_list m' D' (ds ++ snd (unique_from less x es2))).
Proof.
  revert m es1 x fuel ds. induction es2 as [|y es2 IH]; intros m es1 x [|fuel] ds HL Hf HD;
    simpl in Hf; try lia; simpl list_unique_loop; unfold list_end; wp_steps;
    (eapply is_list_next; [done|]); simpl List.hd; wp_steps.
  - rewrite bool_decide_true by done. wp_steps. split; [done|].
    intros D' HD'. simpl. rewrite app_nil_r. by apply HD.
  - assert (es1 ++ x :: y :: es2 = (es1 ++ [x]) ++ y :: es2) as Ex by by rewrite <- app_assoc.
    assert (es1 ++ x :: es2 = (es1 ++ [x]) ++ es2) as Ex' by by rewrite <- app_assoc.
    rewrite Ex in *.
    rewrite bool_decide_false by by eapply hd_tail_ne. simpl unique_from.
    destruct (negb (less x y) && negb (less y x)).
    + apply wp_bind_assoc, wp_bind, (unique_move m L D (es1 ++ [x]) y es2 ds); [done..|].
      rewrite <- Ex'. intros m2 HL2 HD2.
      eapply wp_mono; [apply (IH m2 es1 x fuel (ds ++ [y])); [done|lia|done]|].
      intros [] m3 [HL3 HD3]. destruct (unique_from less x es2) as [k d]. simpl in *.
      split; [done|]. intros D' HD'. specialize (HD3 D' HD'). by rewrite <- app_assoc in HD3.
    + eapply wp_mono; [apply (IH m (es1 ++ [x]) y fuel ds); [done|lia|done]|].
      intros [] m3 [HL3 HD3]. destruct (unique_from less y es2) as [k d]. simpl in *.
      by rewrite <- app_assoc in HL3.
Qed.

Lemma list_unique_spec m L D es ds :
  is_list m L es → dup_list m (nodes L es) D ds →
  wp (list_unique less L D) m (λ _ m',
    is_list m' L (fst (unique less es)) ∧
    ∀ D', D = Some D' → is_list m' D' (ds ++ snd (unique less es))).
Proof.
  intros HL HD. unfold list_unique, cells. wp_step. eapply list_empty_spec; [done|].
  destruct es as [|x es]; simpl.
  - wp_steps. split; [done|]. intros D' HD'. rewrite app_nil_r. by apply HD.
  - wp_steps. eapply is_list_begin; [done|]. simpl List.hd.
    eapply wp_mono; [apply (list_unique_loop_spec m L D [] x es); [done| |done]|].
    { apply is_list_size in HL. simpl in HL. lia. }
    intros [] m'. by destruct (unique_from less x es).
Qed.

End OrderedSpecs.

(** ** [list_reverse] *)
Section ReverseSpec.
Implicit Types (m : heap) (L : klist) (es : list loc).

(** The walk turns the links of [es2] round; [es1] is already reversed. *)
Lemma list_reverse_loop_spec m L es1 es2 fuel :
  dseg m (List.hd (tail L) es2) (reverse es1) (head L) →
  dseg m (List.last es1 (head L)) es2 (tail L) →
  NoDup (es1 ++ es2) → tail L ∉ es2 → (length es2 < fuel)%nat →
  wp (list_reverse_loop fuel L (List.hd (tail L) es2)) m (λ _ m',
    dseg m' (tail L) (reverse (es1 ++ es2)) (head L) ∧ frame es2 m m').
Proof.
  revert m es1 fuel. induction es2 as [|x es2 IH]; intros m es1 [|fuel] D1 D2 ND Ht Hf;
    simpl in Hf; try lia; simpl list_reverse_loop; unfold list_end; wp_steps.
  - rewrite bool_decide_true by done. wp_steps. rewrite app_nil_r. by split.
  - rewrite bool_decide_false by (distinct; done). destruct D2 as [Hx D2].
    unfold swap. link_steps. simpl List.hd in D1.
    assert (x ∉ es1 ∧ x ∉ es2) as [Hx1 Hx2] by (distinct; mem).
    eapply wp_mono; [apply (IH _ (es1 ++ [x]))|].
    + rewrite reverse_snoc. simpl. rewrite !lookup_insert_eq. split.
      * do 2 f_equal. clear. induction es1 as [|y es1 _] using rev_ind; [done|].
        by rewrite reverse_snoc, List.last_last.
      * by repeat (apply dseg_insert; [by rewrite elem_of_reverse|]).
    + rewrite List.last_last. by repeat (apply dseg_insert; [done|]).
    + by rewrite <- app_assoc.
    + set_solver.
    + lia.
    + intros [] m' [D' F']. rewrite <- app_assoc in D'. split; [done|].
      eapply frame_trans; [|eapply frame_mono; [|done]; mem].
      frame_stores.
Qed.

(** The last two swaps: the headers and the outer links of a reversed chain. *)
Lemma reverse_headers m L f r b :
  m !! head L = Some (mk_elem NULL b) → m !! tail L = Some (mk_elem f NULL) →
  dseg m (tail L) (f :: r) (head L) → List.last r f = b →
  NoDup (head L :: f :: r ++ [tail L]) →
  wp (swap (Next (head L)) (Prev (tail L));;
      f ← get_link (Next (head L));
      b ← get_link (Prev (tail L));
      swap (Prev f) (Next b)) m (λ _ m',
    dseg m' NULL (nodes L (f :: r)) NULL ∧ frame (nodes L (f :: r)) m m').
Proof.
  intros Hh Ht [Hf Dr] Hb ND.
  assert (head L ≠ tail L ∧ head L ≠ f ∧ tail L ≠ f ∧ head L ∉ r ∧ tail L ∉ r ∧ f ∉ r)
    as (?&?&?&?&?&?) by (distinct; mem).
  unfold swap, nodes.
  destruct (exists_last_or_nil r) as [->|(r' & y & ->)].
  - simpl in Hb. subst b. link_steps. split.
    + simpl. simplify_map_eq. done.
    + frame_stores.
  - rewrite List.last_last in Hb. subst y.
    pose proof (dseg_lookup m f r' b [] (head L) Dr) as Hbm. simpl in Hbm.
    assert (f ≠ b ∧ head L ≠ b ∧ tail L ≠ b ∧ b ∉ r') as (?&?&?&?) by (distinct; mem).
    apply dseg_app in Dr as [Dr _].
    link_steps. split.
    + simpl. rewrite <- app_assoc. split_and!; [by simplify_map_eq| |].
      * simplify_map_eq. by destruct r'.
      * apply dseg_app. simpl. split_and!; [|simplify_map_eq; done..].
        distinct. repeat (apply dseg_insert; [mem|]). by destruct r'.
    + frame_stores.
Qed.

Lemma list_reverse_spec m L es :
  is_list m L es →
  wp (list_reverse L) m (λ _ m', is_list m' L (reverse es) ∧ frame (nodes L es) m m').
Proof.
  intros HL. unfold list_reverse, cells. wp_step. eapply list_empty_spec; [done|].
  destruct es as [|x es]; simpl; [by wp_steps|].
  pose proof (is_list_size _ _ _ HL) as Hsz. simpl in Hsz.
  wp_steps. eapply is_list_begin; [done|]. wp_step. simpl List.hd.
  destruct HL as (D & ND & N0).
  assert (m !! head L = Some (mk_elem NULL x)) as Hh by by destruct D.
  assert (m !! tail L = Some (mk_elem (List.last es x) NULL)) as Ht.
  { rewrite <- (last_cons x es (head L)), <- (last_cons (head L) (x :: es) NULL).
    by apply (dseg_lookup m NULL (head L :: x :: es) (tail L) [] NULL). }
  destruct D as [_ D]. apply dseg_app in D as [D _].
  eapply wp_mono; [apply (list_reverse_loop_spec m L [] (x :: es)); simpl; [done|done|..|lia]|];
    [unfold nodes in ND; distinct; first [by apply NoDup_cons|mem]..|]. simpl app.
  intros [] m1 [D1 F1].
  assert (∃ f r, reverse (x :: es) = f :: r ∧ List.last es x = f ∧ List.last r f = x) as (f & r & Er & Ef & Ex).
  { destruct (exists_last_or_nil es) as [->|(es' & y & ->)]; [by exists x, []; split_and!|].
    exists y, (reverse es' ++ [x]). rewrite !List.last_last.
    by rewrite reverse_cons, reverse_snoc. }
  simpl app in D1. rewrite Er in *. rewrite Ef in Ht.
  assert (nodes L (x :: es) ≡ₚ nodes L (f :: r)) as HP by by rewrite <- Er, reverse_Permutation.
  pose proof ND as ND'. pose proof N0 as N0'. rewrite HP in ND', N0'.
  eapply wp_mono; [apply (reverse_headers m1 L f r x)|]; [| |done|done|done|].
  - destruct F1 as [_ F1]. rewrite F1; [done|unfold nodes in ND; distinct; mem].
  - destruct F1 as [_ F1]. rewrite F1; [done|unfold nodes in ND; distinct; mem].
  - intros [] m2 [D2 F2]. split; [done|].
    eapply frame_trans; [|by eapply frame_Permutation].
    eapply frame_mono; [|done]. unfold nodes. mem.
Qed.

End ReverseSpec.

