(* ===== verification/KSort.v ===== *)
(** * Splicing and sorting of doubly linked lists (lib/kernel/list.c)

    The pointer-level natural merge sort of [list_sort]: that it terminates,
    that no assertion fires, and that it leaves a sorted, stable permutation
    of the elements. *)

From S2P Require Import Prelude KList.
Local Open Scope Z_scope.

(** ** [list_splice] and [list_sort] *)
Section SpliceSpec.
Implicit Types (m : heap) (L : klist) (es A X C : list loc).

Lemma dseg_lookup3 m A p b C :
  dseg m NULL (A ++ p :: b :: C) NULL →
  m !! p = Some (mk_elem (List.last A NULL) b) ∧ m !! b = Some (mk_elem p (List.hd NULL C)).
Proof. rewrite dseg_app. simpl. tauto. Qed.

(** The cell [x] before [r] moves to a place further to the front, before [b]. *)
Lemma wp_list_splice m A p b X x r C :
  dseg m NULL (A ++ p :: b :: X ++ x :: r :: C) NULL →
  NoDup (A ++ p :: b :: X ++ x :: r :: C) → NULL ∉ A ++ p :: b :: X ++ x :: r :: C →
  wp (list_splice b x r) m (λ _ m',
    dseg m' NULL (A ++ p :: x :: b :: X ++ r :: C) NULL ∧
    frame (A ++ p :: b :: X ++ x :: r :: C) m m').
Proof.
  intros D ND N0.
  destruct (dseg_lookup3 m A p b (X ++ x :: r :: C) D) as [Hp Hb].
  destruct (dseg_lookup3 m (A ++ p :: b :: X) x r C) as [Hx Hr].
  { by rewrite <- app_assoc. }
  assert (p ≠ b ∧ p ≠ x ∧ p ≠ r ∧ b ≠ x ∧ b ≠ r ∧ x ≠ r) as (?&?&?&?&?&?) by (distinct; mem).
  assert (p ≠ NULL ∧ b ≠ NULL ∧ x ≠ NULL ∧ r ≠ NULL) as (?&?&?&?) by (distinct; mem).
  assert (List.last (A ++ p :: b :: X) NULL = List.last X b) as Elast.
  { replace (A ++ p :: b :: X) with ((A ++ [p; b]) ++ X) by by rewrite <- app_assoc.
    destruct (exists_last_or_nil X) as [->|(X' & q & ->)].
    - rewrite app_nil_r. replace (A ++ [p; b]) with ((A ++ [p]) ++ [b]) by by rewrite <- app_assoc.
      by rewrite List.last_last.
    - by rewrite app_assoc, !List.last_last. }
  rewrite Elast in Hx.
  assert (List.last X b ≠ NULL).
  { destruct (exists_last_or_nil X) as [->|(X' & q & ->)]; [done|].
    rewrite List.last_last. distinct. mem. }
  apply dseg_app in D as [DA (_ & _ & D)]. apply dseg_app in D as [DX (_ & _ & DC)].
  unfold list_splice. wp_step. eapply wp_has_prev; [done..|]. wp_steps.
  rewrite bool_decide_false by done. wp_step. eapply wp_list_prev; [done..|]. cbn [prev].
  wp_step. eapply wp_is_interior; [done..|]. link_steps.
  eapply wp_is_interior; [done..|]. link_steps.
  destruct (exists_last_or_nil X) as [->|(X' & q & ->)].
  - simpl in *. link_steps. split.
    + apply dseg_app. simpl. split_and!; [|simplify_map_eq; done..|];
        (eapply (dseg_frame_out [p; b; x; r]); [frame_stores|distinct; mem|done]).
    + frame_stores.
  - rewrite List.last_last in *.
    pose proof (dseg_lookup _ _ X' q [] _ DX) as Hq. simpl in Hq.
    assert (q ≠ p ∧ q ≠ b ∧ q ≠ x ∧ q ≠ r ∧ q ∉ X') as (?&?&?&?&?) by (distinct; mem).
    apply dseg_app in DX as [DX _]. rewrite <- app_assoc in *. simpl in *.
    assert (List.hd NULL (X' ++ q :: x :: r :: C) = List.hd NULL (X' ++ q :: r :: C)) as EX by by destruct X'.
    rewrite EX in Hb.
    link_steps. split.
    + apply dseg_app. simpl. split_and!; [|simplify_map_eq; done..|].
      { eapply (dseg_frame_out [p; b; q; x; r]); [frame_stores|distinct; mem|done]. }
      apply dseg_app. simpl. split_and!; [|simplify_map_eq; done..|];
        (eapply (dseg_frame_out [p; b; q; x; r]); [frame_stores|distinct; mem|done]).
    + frame_stores.
Qed.

Lemma list_splice_spec m L es1 b X x es2 :
  is_list m L (es1 ++ b :: X ++ x :: es2) →
  wp (list_splice b x (List.hd (tail L) es2)) m (λ _ m',
    is_list m' L (es1 ++ x :: b :: X ++ es2) ∧
    frame (nodes L (es1 ++ b :: X ++ x :: es2)) m m').
Proof.
  intros (D & ND & N0).
  destruct (split_last (head L) es1) as (A & p & EA).
  assert (∃ C, es2 ++ [tail L] = List.hd (tail L) es2 :: C) as [C EC] by (destruct es2; simpl; eauto).
  assert (nodes L (es1 ++ b :: X ++ x :: es2) = A ++ p :: b :: X ++ x :: List.hd (tail L) es2 :: C) as EN.
  { rewrite nodes_app, EA, <- app_assoc. simpl. rewrite <- app_assoc. simpl. by rewrite EC. }
  assert (nodes L (es1 ++ x :: b :: X ++ es2) = A ++ p :: x :: b :: X ++ List.hd (tail L) es2 :: C) as EN'.
  { rewrite nodes_app, EA, <- app_assoc. simpl. rewrite <- app_assoc. simpl. by rewrite EC. }
  assert (nodes L (es1 ++ b :: X ++ x :: es2) ≡ₚ nodes L (es1 ++ x :: b :: X ++ es2)) as HP.
  { apply nodes_Permutation, Permutation_app_head. by rewrite <- Permutation_middle, Permutation_swap. }
  pose proof ND as ND'. pose proof N0 as N0'. rewrite HP in ND', N0'.
  rewrite EN in *. eapply wp_mono; [by apply wp_list_splice|].
  intros [] m' [D' F']. unfold is_list. rewrite EN' in *. done.
Qed.

End SpliceSpec.

Section SortSpec.
Variable less : loc → loc → bool.
Implicit Types (m : heap) (L : klist) (es : list loc).

(** [is_sorted] on the range from [x] up to the element that follows [r]. *)
Lemma is_sorted_loop_spec m L es1 x r es2 b fuel Q :
  is_list m L (es1 ++ x :: r ++ es2) → b = List.hd (tail L) es2 → (length r < fuel)%nat →
  Q (sortedb_from less x r) m → wp (is_sorted_loop less fuel x b) m Q.
Proof.
  revert es1 x fuel. induction r as [|y r IH]; intros es1 x [|fuel] HL -> Hf HQ;
    simpl in Hf; try lia; simpl is_sorted_loop; wp_step; (eapply is_list_next; [done|]); simpl List.hd.
  - rewrite bool_decide_true by done. by wp_steps.
  - rewrite bool_decide_false by (by eapply list_hd_ne).
    wp_step. eapply (is_list_prev m L es1 x (y :: r ++ es2)); [done..|].
    simpl in HQ. destruct (less y x); [by wp_steps|].
    apply (IH (es1 ++ [x])); [by rewrite <- app_assoc|done|lia|done].
Qed.


Lemma is_sorted_spec m L es1 r es2 a b Q :
  is_list m L (es1 ++ r ++ es2) → b = List.hd (tail L) es2 → a = List.hd b r →
  Q (sortedb less r) m → wp (is_sorted less a b) m Q.
Proof.
  intros HL Hb -> HQ. unfold is_sorted, cells. destruct r as [|x r]; simpl in *.
  - by rewrite bool_decide_true by done.
  - rewrite bool_decide_false.
    + wp_steps. eapply is_sorted_loop_spec; [done..| |done].
      apply is_list_size in HL. rewrite length_app in HL. simpl in HL. rewrite length_app in HL. lia.
    + subst b. destruct HL as (_ & ND & _). rewrite nodes_app in ND. simpl in ND.
      rewrite <- app_assoc in ND. destruct es2; simpl in *; distinct; mem.
Qed.

(** [find_end_of_run] returns the element after the run that starts at [x]. *)
Lemma find_end_of_run_loop_spec m L es1 x r fuel Q :
  is_list m L (es1 ++ x :: r) → (length r < fuel)%nat →
  Q (List.hd (tail L) (snd (split_run less x r))) m →
  wp (find_end_of_run_loop less fuel x (tail L)) m Q.
Proof.
  revert es1 x fuel. induction r as [|y r IH]; intros es1 x [|fuel] HL Hf HQ;
    simpl in Hf; try lia; simpl find_end_of_run_loop; wp_step; (eapply is_list_next; [done|]); simpl List.hd.
  - rewrite bool_decide_true by done. by wp_steps.
  - assert (is_list m L ((es1 ++ [x]) ++ y :: r)) as HL' by by rewrite <- app_assoc.
    rewrite bool_decide_false by (by eapply hd_tail_ne).
    wp_step. eapply (is_list_prev m L es1 x (y :: r)); [done..|].
    simpl in HQ. destruct (less y x); simpl; [by wp_steps|].
    eapply IH; [done|lia|]. by destruct (split_run less y r).
Qed.

Lemma find_end_of_run_spec m L es1 x r Q :
  is_list m L (es1 ++ x :: r) →
  Q (List.hd (tail L) (snd (split_run less x r))) m →
  wp (find_end_of_run less x (tail L)) m Q.
Proof.
  intros HL HQ. unfold find_end_of_run, cells.
  assert (x ≠ NULL ∧ tail L ≠ NULL) as [??].
  { destruct HL as (_ & _ & N0). rewrite nodes_app in N0. distinct; done. }
  rewrite !bool_decide_true by (done || by eapply hd_tail_ne). wp_steps.
  eapply find_end_of_run_loop_spec; [done| |done].
  apply is_list_size in HL. rewrite length_app in HL. simpl in HL. lia.
Qed.

Lemma merge_ne m L P a A b B S :
  is_list m L (P ++ (a :: A) ++ (b :: B) ++ S) → a ≠ b ∧ b ≠ List.hd (tail L) S.
Proof.
  intros (_ & ND & _). rewrite nodes_app in ND. simpl in ND.
  rewrite <- !app_assoc in ND. simpl in ND. rewrite <- app_assoc in ND.
  destruct S; simpl in *; distinct; mem.
Qed.

(** [inplace_merge] merges the adjacent ranges [A] and [B] in place. *)
Lemma inplace_merge_loop_spec m L P A B S fuel :
  is_list m L (P ++ A ++ B ++ S) → (length A + length B < fuel)%nat →
  wp (inplace_merge_loop less fuel (List.hd (List.hd (List.hd (tail L) S) B) A)
        (List.hd (List.hd (tail L) S) B) (List.hd (tail L) S)) m (λ _ m',
    is_list m' L (P ++ list_merge (le_of less) A B ++ S) ∧
    frame (nodes L (P ++ A ++ B ++ S)) m m').
Proof.
  revert m P A B. induction fuel as [|fuel IH]; intros m P A B HL Hf; [lia|].
  simpl inplace_merge_loop.
  destruct A as [|a A]; simpl List.hd.
  { rewrite bool_decide_false by naive_solver. wp_steps. rewrite list_merge_nil_l. by split. }
  destruct B as [|b B]; simpl List.hd.
  { rewrite (bool_decide_false (List.hd (tail L) S ≠ List.hd (tail L) S)) by naive_solver.
    rewrite andb_false_r. wp_steps. rewrite list_merge_nil_r. by split. }
  destruct (merge_ne m L P a A b B S HL) as [Hab HbS].
  rewrite !bool_decide_true by done. simpl andb. cbv iota.
  rewrite list_merge_cons. simpl in Hf.
  destruct (less b a) eqn:E; simpl negb; cbv iota.
  - rewrite decide_False by (unfold le_of; congruence).
    wp_step. eapply (is_list_next m L (P ++ a :: A) b (B ++ S)); [by rewrite <- app_assoc|].
    rewrite hd_app. wp_step.
    eapply (is_list_prev m L (P ++ a :: A) b (B ++ S)); [by rewrite <- app_assoc|by rewrite hd_app|].
    wp_step. rewrite <- hd_app.
    eapply wp_mono; [apply (list_splice_spec m L P a A b (B ++ S)); done|].
    intros [] m1 [HL1 F1]. rewrite hd_app.
    eapply wp_mono; [apply (IH m1 (P ++ [b]) (a :: A) B)|].
    + by rewrite <- app_assoc.
    + simpl. lia.
    + intros [] m2 [HL2 F2]. rewrite <- app_assoc in HL2. split; [done|].
      eapply frame_trans; [done|]. eapply frame_Permutation; [|done].
      apply nodes_Permutation. rewrite <- app_assoc. apply Permutation_app_head. simpl.
      by rewrite <- Permutation_middle, Permutation_swap.
  - rewrite decide_True by done.
    wp_step. eapply (is_list_next m L P a (A ++ b :: B ++ S)); [done|].
    rewrite hd_app. simpl List.hd.
    eapply wp_mono; [apply (IH m (P ++ [a]) A (b :: B))|].
    + by rewrite <- app_assoc.
    + simpl. lia.
    + intros [] m2 [HL2 F2]. rewrite <- app_assoc in HL2, F2. done.
Qed.

Lemma is_list_nonnull m L es x : is_list m L es → x ∈ nodes L es → x ≠ NULL.
Proof. intros (_ & _ & N0) Hx ->. done. Qed.

Lemma hd_in_nodes L P S : List.hd (tail L) S ∈ nodes L (P ++ S).
Proof. unfold nodes. destruct S; simpl; set_solver. Qed.

Lemma inplace_merge_spec m L P A B S :
  is_list m L (P ++ A ++ B ++ S) →
  Sorted (le_of less) A → Sorted (le_of less) B →
  wp (inplace_merge less (List.hd (List.hd (List.hd (tail L) S) B) A)
        (List.hd (List.hd (tail L) S) B) (List.hd (tail L) S)) m (λ _ m',
    is_list m' L (P ++ list_merge (le_of less) A B ++ S) ∧
    frame (nodes L (P ++ A ++ B ++ S)) m m').
Proof.
  intros HL HA HB. unfold inplace_merge, cells.
  rewrite !bool_decide_true.
  - wp_steps. eapply (is_sorted_spec m L P A (B ++ S)); [done|by rewrite hd_app|done|].
    wp_step. apply wp_ASSERT; [by apply sortedb_Sorted|].
    wp_step. eapply (is_sorted_spec m L (P ++ A) B S); [by rewrite <- app_assoc|done|done|].
    wp_step. apply wp_ASSERT; [by apply sortedb_Sorted|]. wp_steps.
    apply inplace_merge_loop_spec; [done|].
    apply is_list_size in HL. rewrite !length_app in HL. lia.
  - eapply is_list_nonnull; [done|]. rewrite !app_assoc. apply hd_in_nodes.
  - eapply is_list_nonnull; [done|]. rewrite <- hd_app, app_assoc. apply hd_in_nodes.
  - eapply is_list_nonnull; [done|]. rewrite <- !hd_app, <- app_assoc. apply hd_in_nodes.
Qed.

Context `{!StrictWeak less}.

(** One pass: the rest [R] of the list becomes a sequence of sorted blocks,
    each of which takes up two of the runs of [R] (the last perhaps one). *)
Lemma list_sort_pass_spec m L D R fuel cnt :
  is_list m L (D ++ R) → (length R < fuel)%nat →
  wp (list_sort_pass less fuel L (List.hd (tail L) R) cnt) m (λ k m',
    ∃ bs, is_list m' L (D ++ concat bs) ∧ Forall (Sorted (le_of less)) bs ∧
      stable_perm less R (concat bs) ∧ k = (cnt + length bs)%nat ∧
      (2 * length bs ≤ S (runs less R))%nat ∧ frame (nodes L (D ++ R)) m m').
Proof.
  revert m D R cnt. induction fuel as [|fuel IH]; intros m D R cnt HL Hf; [lia|].
  simpl list_sort_pass. unfold list_end. wp_steps.
  destruct R as [|x R]; simpl List.hd.
  { rewrite bool_decide_true by done. wp_steps. exists []. simpl. rewrite Nat.add_0_r.
    split_and!; [done|constructor|apply stable_perm_refl|done|lia|done]. }
  rewrite bool_decide_false by (by eapply hd_tail_ne).
  wp_step. eapply find_end_of_run_spec; [done|].
  pose proof (split_run_app less x R) as ER. pose proof (split_run_sorted less x R) as SR.
  pose proof (split_run_runs less x R) as RR.
  destruct (split_run less x R) as [u v]. simpl fst in *. simpl snd in *. subst R.
  apply sortedb_from_Sorted in SR.
  destruct v as [|y v]; simpl List.hd.
  { rewrite bool_decide_true by done. wp_steps. exists [x :: u]. rewrite RR. simpl.
    rewrite !app_nil_r in *. split_and!; [done|by apply Forall_singleton|apply stable_perm_refl|lia|lia|done]. }
  assert (is_list m L ((D ++ x :: u) ++ y :: v)) as HL' by by rewrite <- app_assoc.
  rewrite bool_decide_false by (by eapply hd_tail_ne).
  wp_step. eapply find_end_of_run_spec; [done|].
  pose proof (split_run_app less y v) as EV. pose proof (split_run_sorted less y v) as SV.
  pose proof (split_run_runs less y v) as RV.
  destruct (split_run less y v) as [w z]. simpl fst in *. simpl snd in *. subst v.
  apply sortedb_from_Sorted in SV. wp_step.
  eapply wp_mono; [by apply (inplace_merge_spec m L D (x :: u) (y :: w) z)|].
  intros [] m1 [HL1 F1].
  eapply wp_mono; [apply (IH m1 (D ++ list_merge (le_of less) (x :: u) (y :: w)) z)|].
  - by rewrite <- app_assoc.
  - simpl in Hf. rewrite length_app in Hf. simpl in Hf. rewrite length_app in Hf. lia.
  - intros k m2 (bs & HL2 & HS & HP & -> & Hr & F2).
    exists (list_merge (le_of less) (x :: u) (y :: w) :: bs). rewrite concat_cons.
    rewrite <- app_assoc in HL2, F2. split_and!.
    + done.
    + constructor; [by apply (Sorted_list_merge _)|done].
    + change (x :: u ++ y :: w ++ z) with ((x :: u) ++ (y :: w) ++ z). rewrite app_assoc.
      apply stable_perm_app; [by apply list_merge_stable|done].
    + simpl. lia.
    + rewrite RR, RV. simpl. lia.
    + eapply frame_trans; [done|]. eapply frame_Permutation; [|done].
      apply nodes_Permutation, Permutation_app_head. rewrite merge_Permutation.
      by rewrite <- app_assoc.
Qed.

(** The passes go on while the number of runs shrinks. *)
Lemma list_sort_loop_spec m L es fuel :
  is_list m L es → (runs less es < fuel)%nat →
  wp (list_sort_loop less fuel L) m (λ _ m',
    ∃ es', is_list m' L es' ∧ Sorted (le_of less) es' ∧ stable_perm less es es' ∧
      frame (nodes L es) m m').
Proof.
  revert m es. induction fuel as [|fuel IH]; intros m es HL Hf; [lia|].
  simpl. unfold cells. wp_steps. eapply is_list_begin; [done|]. wp_step.
  eapply wp_mono; [apply (list_sort_pass_spec m L [] es); [done|]|].
  { apply is_list_size in HL. lia. }
  simpl. intros k m1 (bs & HL1 & HS & HP & -> & Hr & F1). case_bool_decide as Hk.
  - eapply wp_mono; [apply (IH m1 (concat bs)); [done|]|].
    { pose proof (runs_concat less bs HS). lia. }
    intros [] m2 (es' & HL2 & HS2 & HP2 & F2). exists es'. split_and!; [done|done| |].
    + by eapply stable_perm_trans.
    + eapply frame_trans; [done|]. eapply frame_Permutation; [|done].
      apply nodes_Permutation. symmetry. apply HP.
  - wp_steps. exists (concat bs). split_and!; [done| |done|done].
    destruct bs as [|b [|b' bs]]; simpl in *; [constructor| |lia].
    rewrite app_nil_r. by apply Forall_inv in HS.
Qed.

End SortSpec.

(** ** Claims about the kernel lists *)

(** C4: [list_sort], the in-place natural merge sort on linked cells, always
    terminates with no assertion failure and leaves a well-formed list that is
    sorted by [less], is a permutation of the old one, and keeps the order of
    equal elements; it touches no cell outside the list. *)
Theorem list_sort_correct (less : Z → Z → bool) `{!StrictWeak less} (m : heap) (L : klist) (es : list Z) :
  is_list m L es →
  wp (list_sort less L) m (λ _ m',
    ∃ es', is_list m' L es' ∧ Sorted (le_of less) es' ∧ stable_perm less es es' ∧
      frame (nodes L es) m m').
Proof.
  intros HL. unfold list_sort, cells. wp_steps.
  eapply wp_mono; [apply (list_sort_loop_spec less m L es); [done|]|].
  { pose proof (runs_length less es). apply is_list_size in HL. lia. }
  intros [] m1 (es' & HL1 & HS & HP & F). wp_step. eapply is_list_begin; [done|].
  unfold list_end. wp_steps.
  eapply (is_sorted_spec less m1 L [] es' []); [by rewrite app_nil_r|done|done|].
  apply wp_ASSERT; [by apply sortedb_Sorted|]. eauto.
Qed.

(** Three linked cells with the keys 30, 10, 20. *)
Definition sample_heap : heap :=
  {[1 := mk_elem NULL 30; 30 := mk_elem 1 10; 10 := mk_elem 30 20; 20 := mk_elem 10 2;
    2 := mk_elem 20 NULL]}.

Lemma list_sort_correct_witness :
  wp (list_sort (less_by id) (mk_list 1 2)) sample_heap (λ _ m',
    ∃ es', is_list m' (mk_list 1 2) es' ∧ Sorted (le_of (less_by id)) es' ∧
      stable_perm (less_by id) [30; 10; 20] es' ∧ frame (nodes (mk_list 1 2) [30; 10; 20]) sample_heap m').
Proof.
  apply (list_sort_correct (less_by id) sample_heap (mk_list 1 2) [30; 10; 20]).
  split_and!; [by repeat (split || econstructor)|by apply (bool_decide_unpack _)|by apply (bool_decide_unpack _)].
Defined.
