(* ===== verification/KState.v ===== *)
(** * The state of the threading system (threads/thread.h, synch.h, process.h)

    The records of the C structures, their field updates, and the state of
    thread.c, synch.c and timer.c.  Pointers are integers and 0 is [NULL].  A
    list threaded through the [elem], [allelem] or [lock_list] members is the
    list of the structures it links: what list.c does to such a list is proved
    in [KList].

    A blocking call leaves something to do after the switch.  [pending] is
    what the kernel stack of a thread holds when it does not run: the
    statements that follow the calls of [schedule] in progress, innermost
    first. *)

From S2P Require Import Prelude Vaddr.
Local Open Scope Z_scope.

(** [enum thread_status] *)
Inductive thread_status := THREAD_RUNNING | THREAD_READY | THREAD_BLOCKED | THREAD_DYING.

#[export] Instance thread_status_eq_dec : EqDecision thread_status.
Proof. solve_decision. Defined.

Definition PRI_MIN : Z := 0.
Definition PRI_DEFAULT : Z := 31.
Definition PRI_MAX : Z := 63.
Definition THREAD_MAGIC : Z := 0xcd6abf4b.
Definition TIME_SLICE : Z := 4.
Definition TID_ERROR : Z := -1.
Definition ROOT_DIR_SECTOR : Z := 1.

(** What follows [sema_down] in its caller, with interrupts still off. *)
Inductive after :=
| Return                               (* the caller is not [lock_acquire] *)
| LockTail (l : Z) (old_level : bool). (* the rest of [lock_acquire] *)

(** The statements a thread can have pending. *)
Inductive stmt :=
| IntrSetLevel (level : bool)               (* [intr_set_level (old_level)] *)
| SemaLoop (s : Z) (old_level : bool) (k : after) (* the loop of [sema_down] *)
| SemaDown (s : Z)
| LockAcquire (l : Z)
| LockRelease (l : Z)
| ThreadYield
| FlushLock (l : Z)                         (* [flush_lock_priority (lock)] *)
| CondBroadcast (c l : Z)
| TidNext                                   (* [tid = next_tid++] *)
| CreateTail (t pn : Z) (function : list stmt) (* [thread_create] after [allocate_tid] *)
| KernelThread                              (* [kernel_thread] up to [function (aux)] *)
| IdleStart (s : Z)                         (* [idle] up to its loop *)
| IdleLoop
| StiHlt                                    (* [sti; hlt] *)
| IntrReturn                                (* the return from an interrupt *)
| InitTail                                  (* [thread_init] after [allocate_tid] *)
| WaitTail (pn : Z)                         (* [process_wait] after [sema_down] *)
| ThreadDie.                                (* [thread_exit] after [process_exit] *)

(** [struct thread].  [result] stands for the return value of the last call. *)
Record thread := mk_thread {
  tid : Z;
  status : thread_status;
  name : string;
  stack : Z;
  priority : Z;
  wakeup_time : Z;
  lock_list : list Z;
  instrinsic_priority : Z;
  waiting_lock : Z;
  pagedir : Z;
  pn : Z;
  child_list : list Z;
  next_fd : Z;
  cwd : Z;
  magic : Z;
  result : Z;
  pending : list stmt
}.
Definition set_tid (v : Z) (r : thread) : thread :=
  mk_thread
    v (status r) (name r) (stack r) (priority r) (wakeup_time r) (lock_list r)
    (instrinsic_priority r) (waiting_lock r) (pagedir r) (pn r) (child_list r) (next_fd r) (cwd r)
    (magic r) (result r) (pending r).
Definition set_status (v : thread_status) (r : thread) : thread :=
  mk_thread
    (tid r) v (name r) (stack r) (priority r) (wakeup_time r) (lock_list r)
    (instrinsic_priority r) (waiting_lock r) (pagedir r) (pn r) (child_list r) (next_fd r) (cwd r)
    (magic r) (result r) (pending r).
Definition set_stack (v : Z) (r : thread) : thread :=
  mk_thread
    (tid r) (status r) (name r) v (priority r) (wakeup_time r) (lock_list r)
    (instrinsic_priority r) (waiting_lock r) (pagedir r) (pn r) (child_list r) (next_fd r) (cwd r)
    (magic r) (result r) (pending r).
Definition set_priority (v : Z) (r : thread) : thread :=
  mk_thread
    (tid r) (status r) (name r) (stack r) v (wakeup_time r) (lock_list r) (instrinsic_priority r)
    (waiting_lock r) (pagedir r) (pn r) (child_list r) (next_fd r) (cwd r) (magic r) (result r)
    (pending r).
Definition set_wakeup_time (v : Z) (r : thread) : thread :=
  mk_thread
    (tid r) (status r) (name r) (stack r) (priority r) v (lock_list r) (instrinsic_priority r)
    (waiting_lock r) (pagedir r) (pn r) (child_list r) (next_fd r) (cwd r) (magic r) (result r)
    (pending r).
Definition set_lock_list (v : list Z) (r : thread) : thread :=
  mk_thread
    (tid r) (status r) (name r) (stack r) (priority r) (wakeup_time r) v (instrinsic_priority r)
    (waiting_lock r) (pagedir r) (pn r) (child_list r) (next_fd r) (cwd r) (magic r) (result r)
    (pending r).
Definition set_instrinsic_priority (v : Z) (r : thread) : thread :=
  mk_thread
    (tid r) (status r) (name r) (stack r) (priority r) (wakeup_time r) (lock_list r) v
    (waiting_lock r) (pagedir r) (pn r) (child_list r) (next_fd r) (cwd r) (magic r) (result r)
    (pending r).
Definition set_waiting_lock (v : Z) (r : thread) : thread :=
  mk_thread
    (tid r) (status r) (name r) (stack r) (priority r) (wakeup_time r) (lock_list r)
    (instrinsic_priority r) v (pagedir r) (pn r) (child_list r) (next_fd r) (cwd r) (magic r)
    (result r) (pending r).
Definition set_pagedir (v : Z) (r : thread) : thread :=
  mk_thread
    (tid r) (status r) (name r) (stack r) (priority r) (wakeup_time r) (lock_list r)
    (instrinsic_priority r) (waiting_lock r) v (pn r) (child_list r) (next_fd r) (cwd r) (magic r)
    (result r) (pending r).
Definition set_pn (v : Z) (r : thread) : thread :=
  mk_thread
    (tid r) (status r) (name r) (stack r) (priority r) (wakeup_time r) (lock_list r)
    (instrinsic_priority r) (waiting_lock r) (pagedir r) v (child_list r) (next_fd r) (cwd r)
    (magic r) (result r) (pending r).
Definition set_child_list (v : list Z) (r : thread) : thread :=
  mk_thread
    (tid r) (status r) (name r) (stack r) (priority r) (wakeup_time r) (lock_list r)
    (instrinsic_priority r) (waiting_lock r) (pagedir r) (pn r) v (next_fd r) (cwd r) (magic r)
    (result r) (pending r).
Definition set_cwd (v : Z) (r : thread) : thread :=
  mk_thread
    (tid r) (status r) (name r) (stack r) (priority r) (wakeup_time r) (lock_list r)
    (instrinsic_priority r) (waiting_lock r) (pagedir r) (pn r) (child_list r) (next_fd r) v
    (magic r) (result r) (pending r).
Definition set_result (v : Z) (r : thread) : thread :=
  mk_thread
    (tid r) (status r) (name r) (stack r) (priority r) (wakeup_time r) (lock_list r)
    (instrinsic_priority r) (waiting_lock r) (pagedir r) (pn r) (child_list r) (next_fd r) (cwd r)
    (magic r) v (pending r).
Definition set_pending (v : list stmt) (r : thread) : thread :=
  mk_thread
    (tid r) (status r) (name r) (stack r) (priority r) (wakeup_time r) (lock_list r)
    (instrinsic_priority r) (waiting_lock r) (pagedir r) (pn r) (child_list r) (next_fd r) (cwd r)
    (magic r) (result r) v.

(** [struct semaphore] *)
Record semaphore := mk_semaphore {
  value : Z;
  waiters : list Z
}.
Definition set_value (v : Z) (r : semaphore) : semaphore :=
  mk_semaphore
    v (waiters r).
Definition set_waiters (v : list Z) (r : semaphore) : semaphore :=
  mk_semaphore
    (value r) v.

(** [struct lock]; its semaphore is at the address [lock_semaphore] of the lock. *)
Record lock := mk_lock {
  holder : Z;
  max_priority : Z
}.
Definition set_holder (v : Z) (r : lock) : lock :=
  mk_lock
    v (max_priority r).
Definition set_max_priority (v : Z) (r : lock) : lock :=
  mk_lock
    (holder r) v.

(** [struct pnode]; its semaphore is at [pnode_sema]. *)
Record pnode := mk_pnode {
  pid : Z;
  exit_status : Z
}.

(** Addresses of embedded semaphores, with the offsets of the i386 layout. *)
Definition lock_semaphore (l : Z) : Z := l + 4.
Definition elem_semaphore (w : Z) : Z := w + 8.
Definition pnode_sema (p : Z) : Z := p + 12.
#[global] Arguments lock_semaphore : simpl never.
#[global] Arguments elem_semaphore : simpl never.
#[global] Arguments pnode_sema : simpl never.

(** The static [tid_lock] of thread.c is at a fixed address. *)
Definition tid_lock : Z := 0xc0030000.

(** The memory the threading system works on, and its static variables.
    [cur] is the thread whose stack page the stack pointer is in. *)
Record kstate := mk_kstate {
  threads : gmap Z thread;
  locks : gmap Z lock;
  semas : gmap Z semaphore;
  sema_elems : gmap Z Z;
  conds : gmap Z (list Z);
  pnodes : gmap Z pnode;
  ready_list : list Z;
  sleep_list : list Z;
  all_list : list Z;
  cur : Z;
  idle_thread : Z;
  initial_thread : Z;
  next_tid : Z;
  intr_on : bool;
  in_external_intr : bool;
  yield_on_return : bool;
  enable_yield : bool;
  thread_ticks : Z;
  idle_ticks : Z;
  kernel_ticks : Z;
  user_ticks : Z;
  ticks : Z
}.
Definition set_threads (v : gmap Z thread) (r : kstate) : kstate :=
  mk_kstate
    v (locks r) (semas r) (sema_elems r) (conds r) (pnodes r) (ready_list r) (sleep_list r)
    (all_list r) (cur r) (idle_thread r) (initial_thread r) (next_tid r) (intr_on r)
    (in_external_intr r) (yield_on_return r) (enable_yield r) (thread_ticks r) (idle_ticks r)
    (kernel_ticks r) (user_ticks r) (ticks r).
Definition set_locks (v : gmap Z lock) (r : kstate) : kstate :=
  mk_kstate
    (threads r) v (semas r) (sema_elems r) (conds r) (pnodes r) (ready_list r) (sleep_list r)
    (all_list r) (cur r) (idle_thread r) (initial_thread r) (next_tid r) (intr_on r)
    (in_external_intr r) (yield_on_return r) (enable_yield r) (thread_ticks r) (idle_ticks r)
    (kernel_ticks r) (user_ticks r) (ticks r).
Definition set_semas (v : gmap Z semaphore) (r : kstate) : kstate :=
  mk_kstate
    (threads r) (locks r) v (sema_elems r) (conds r) (pnodes r) (ready_list r) (sleep_list r)
    (all_list r) (cur r) (idle_thread r) (initial_thread r) (next_tid r) (intr_on r)
    (in_external_intr r) (yield_on_return r) (enable_yield r) (thread_ticks r) (idle_ticks r)
    (kernel_ticks r) (user_ticks r) (ticks r).
Definition set_sema_elems (v : gmap Z Z) (r : kstate) : kstate :=
  mk_kstate
    (threads r) (locks r) (semas r) v (conds r) (pnodes r) (ready_list r) (sleep_list r)
    (all_list r) (cur r) (idle_thread r) (initial_thread r) (next_tid r) (intr_on r)
    (in_external_intr r) (yield_on_return r) (enable_yield r) (thread_ticks r) (idle_ticks r)
    (kernel_ticks r) (user_ticks r) (ticks r).
Definition set_conds (v : gmap Z (list Z)) (r : kstate) : kstate :=
  mk_kstate
    (threads r) (locks r) (semas r) (sema_elems r) v (pnodes r) (ready_list r) (sleep_list r)
    (all_list r) (cur r) (idle_thread r) (initial_thread r) (next_tid r) (intr_on r)
    (in_external_intr r) (yield_on_return r) (enable_yield r) (thread_ticks r) (idle_ticks r)
    (kernel_ticks r) (user_ticks r) (ticks r).
Definition set_pnodes (v : gmap Z pnode) (r : kstate) : kstate :=
  mk_kstate
    (threads r) (locks r) (semas r) (sema_elems r) (conds r) v (ready_list r) (sleep_list r)
    (all_list r) (cur r) (idle_thread r) (initial_thread r) (next_tid r) (intr_on r)
    (in_external_intr r) (yield_on_return r) (enable_yield r) (thread_ticks r) (idle_ticks r)
    (kernel_ticks r) (user_ticks r) (ticks r).
Definition set_ready_list (v : list Z) (r : kstate) : kstate :=
  mk_kstate
    (threads r) (locks r) (semas r) (sema_elems r) (conds r) (pnodes r) v (sleep_list r)
    (all_list r) (cur r) (idle_thread r) (initial_thread r) (next_tid r) (intr_on r)
    (in_external_intr r) (yield_on_return r) (enable_yield r) (thread_ticks r) (idle_ticks r)
    (kernel_ticks r) (user_ticks r) (ticks r).
Definition set_sleep_list (v : list Z) (r : kstate) : kstate :=
  mk_kstate
    (threads r) (locks r) (semas r) (sema_elems r) (conds r) (pnodes r) (ready_list r) v
    (all_list r) (cur r) (idle_thread r) (initial_thread r) (next_tid r) (intr_on r)
    (in_external_intr r) (yield_on_return r) (enable_yield r) (thread_ticks r) (idle_ticks r)
    (kernel_ticks r) (user_ticks r) (ticks r).
Definition set_all_list (v : list Z) (r : kstate) : kstate :=
  mk_kstate
    (threads r) (locks r) (semas r) (sema_elems r) (conds r) (pnodes r) (ready_list r)
    (sleep_list r) v (cur r) (idle_thread r) (initial_thread r) (next_tid r) (intr_on r)
    (in_external_intr r) (yield_on_return r) (enable_yield r) (thread_ticks r) (idle_ticks r)
    (kernel_ticks r) (user_ticks r) (ticks r).
Definition set_cur (v : Z) (r : kstate) : kstate :=
  mk_kstate
    (threads r) (locks r) (semas r) (sema_elems r) (conds r) (pnodes r) (ready_list r)
    (sleep_list r) (all_list r) v (idle_thread r) (initial_thread r) (next_tid r) (intr_on r)
    (in_external_intr r) (yield_on_return r) (enable_yield r) (thread_ticks r) (idle_ticks r)
    (kernel_ticks r) (user_ticks r) (ticks r).
Definition set_idle_thread (v : Z) (r : kstate) : kstate :=
  mk_kstate
    (threads r) (locks r) (semas r) (sema_elems r) (conds r) (pnodes r) (ready_list r)
    (sleep_list r) (all_list r) (cur r) v (initial_thread r) (next_tid r) (intr_on r)
    (in_external_intr r) (yield_on_return r) (enable_yield r) (thread_ticks r) (idle_ticks r)
    (kernel_ticks r) (user_ticks r) (ticks r).
Definition set_initial_thread (v : Z) (r : kstate) : kstate :=
  mk_kstate
    (threads r) (locks r) (semas r) (sema_elems r) (conds r) (pnodes r) (ready_list r)
    (sleep_list r) (all_list r) (cur r) (idle_thread r) v (next_tid r) (intr_on r)
    (in_external_intr r) (yield_on_return r) (enable_yield r) (thread_ticks r) (idle_ticks r)
    (kernel_ticks r) (user_ticks r) (ticks r).
Definition set_next_tid (v : Z) (r : kstate) : kstate :=
  mk_kstate
    (threads r) (locks r) (semas r) (sema_elems r) (conds r) (pnodes r) (ready_list r)
    (sleep_list r) (all_list r) (cur r) (idle_thread r) (initial_thread r) v (intr_on r)
    (in_external_intr r) (yield_on_return r) (enable_yield r) (thread_ticks r) (idle_ticks r)
    (kernel_ticks r) (user_ticks r) (ticks r).
Definition set_intr_on (v : bool) (r : kstate) : kstate :=
  mk_kstate
    (threads r) (locks r) (semas r) (sema_elems r) (conds r) (pnodes r) (ready_list r)
    (sleep_list r) (all_list r) (cur r) (idle_thread r) (initial_thread r) (next_tid r) v
    (in_external_intr r) (yield_on_return r) (enable_yield r) (thread_ticks r) (idle_ticks r)
    (kernel_ticks r) (user_ticks r) (ticks r).
Definition set_in_external_intr (v : bool) (r : kstate) : kstate :=
  mk_kstate
    (threads r) (locks r) (semas r) (sema_elems r) (conds r) (pnodes r) (ready_list r)
    (sleep_list r) (all_list r) (cur r) (idle_thread r) (initial_thread r) (next_tid r)
    (intr_on r) v (yield_on_return r) (enable_yield r) (thread_ticks r) (idle_ticks r)
    (kernel_ticks r) (user_ticks r) (ticks r).
Definition set_yield_on_return (v : bool) (r : kstate) : kstate :=
  mk_kstate
    (threads r) (locks r) (semas r) (sema_elems r) (conds r) (pnodes r) (ready_list r)
    (sleep_list r) (all_list r) (cur r) (idle_thread r) (initial_thread r) (next_tid r)
    (intr_on r) (in_external_intr r) v (enable_yield r) (thread_ticks r) (idle_ticks r)
    (kernel_ticks r) (user_ticks r) (ticks r).
Definition set_enable_yield (v : bool) (r : kstate) : kstate :=
  mk_kstate
    (threads r) (locks r) (semas r) (sema_elems r) (conds r) (pnodes r) (ready_list r)
    (sleep_list r) (all_list r) (cur r) (idle_thread r) (initial_thread r) (next_tid r)
    (intr_on r) (in_external_intr r) (yield_on_return r) v (thread_ticks r) (idle_ticks r)
    (kernel_ticks r) (user_ticks r) (ticks r).
Definition set_thread_ticks (v : Z) (r : kstate) : kstate :=
  mk_kstate
    (threads r) (locks r) (semas r) (sema_elems r) (conds r) (pnodes r) (ready_list r)
    (sleep_list r) (all_list r) (cur r) (idle_thread r) (initial_thread r) (next_tid r)
    (intr_on r) (in_external_intr r) (yield_on_return r) (enable_yield r) v (idle_ticks r)
    (kernel_ticks r) (user_ticks r) (ticks r).
Definition set_idle_ticks (v : Z) (r : kstate) : kstate :=
  mk_kstate
    (threads r) (locks r) (semas r) (sema_elems r) (conds r) (pnodes r) (ready_list r)
    (sleep_list r) (all_list r) (cur r) (idle_thread r) (initial_thread r) (next_tid r)
    (intr_on r) (in_external_intr r) (yield_on_return r) (enable_yield r) (thread_ticks r) v
    (kernel_ticks r) (user_ticks r) (ticks r).
Definition set_kernel_ticks (v : Z) (r : kstate) : kstate :=
  mk_kstate
    (threads r) (locks r) (semas r) (sema_elems r) (conds r) (pnodes r) (ready_list r)
    (sleep_list r) (all_list r) (cur r) (idle_thread r) (initial_thread r) (next_tid r)
    (intr_on r) (in_external_intr r) (yield_on_return r) (enable_yield r) (thread_ticks r)
    (idle_ticks r) v (user_ticks r) (ticks r).
Definition set_user_ticks (v : Z) (r : kstate) : kstate :=
  mk_kstate
    (threads r) (locks r) (semas r) (sema_elems r) (conds r) (pnodes r) (ready_list r)
    (sleep_list r) (all_list r) (cur r) (idle_thread r) (initial_thread r) (next_tid r)
    (intr_on r) (in_external_intr r) (yield_on_return r) (enable_yield r) (thread_ticks r)
    (idle_ticks r) (kernel_ticks r) v (ticks r).
Definition set_ticks (v : Z) (r : kstate) : kstate :=
  mk_kstate
    (threads r) (locks r) (semas r) (sema_elems r) (conds r) (pnodes r) (ready_list r)
    (sleep_list r) (all_list r) (cur r) (idle_thread r) (initial_thread r) (next_tid r)
    (intr_on r) (in_external_intr r) (yield_on_return r) (enable_yield r) (thread_ticks r)
    (idle_ticks r) (kernel_ticks r) (user_ticks r) v.
