(* ===== verification/Thread.v ===== *)
(** * Threads (threads/thread.c)

    The operations of thread.c on [kstate].  A function that can switch to
    another thread returns the statements its caller's stack is left with. *)

From S2P Require Import Prelude Vaddr KList KState.
Local Open Scope Z_scope.

(** ** Access to memory *)
Definition get_thread (t : Z) : M kstate thread := s ← get_state; deref (threads s !! t).
Definition upd_thread (t : Z) (f : thread → thread) : M kstate unit :=
  th ← get_thread t; modify (λ s, set_threads (<[t := f th]> (threads s)) s).
Definition get_lock (l : Z) : M kstate lock := s ← get_state; deref (locks s !! l).
Definition upd_lock (l : Z) (f : lock → lock) : M kstate unit :=
  lk ← get_lock l; modify (λ s, set_locks (<[l := f lk]> (locks s)) s).
Definition get_sema (a : Z) : M kstate semaphore := s ← get_state; deref (semas s !! a).
Definition upd_sema (a : Z) (f : semaphore → semaphore) : M kstate unit :=
  sm ← get_sema a; modify (λ s, set_semas (<[a := f sm]> (semas s)) s).

(** ** Interrupts (threads/interrupt.c) *)
Definition intr_get_level : M kstate bool := gets intr_on.
Definition intr_context : M kstate bool := gets in_external_intr.

Definition intr_enable : M kstate bool :=
  old_level ← intr_get_level;
  c ← intr_context; ASSERT (negb c);;
  modify (set_intr_on true);;
  ret old_level.
Definition intr_disable : M kstate bool :=
  old_level ← intr_get_level;
  modify (set_intr_on false);;
  ret old_level.
Definition intr_set_level (level : bool) : M kstate bool :=
  if level then intr_enable else intr_disable.
Definition intr_yield_on_return : M kstate unit :=
  c ← intr_context; ASSERT c;; modify (set_yield_on_return true).

(** ** The running thread *)
Definition is_thread (t : Z) : M kstate bool :=
  if bool_decide (t = NULL) then ret false
  else th ← get_thread t; ret (bool_decide (magic th = THREAD_MAGIC)).

Definition running_thread : M kstate Z := gets cur.

Definition thread_current : M kstate Z :=
  t ← running_thread;
  b ← is_thread t; ASSERT b;;
  th ← get_thread t; ASSERT (bool_decide (status th = THREAD_RUNNING));;
  ret t.

Definition thread_tid : M kstate Z := t ← thread_current; th ← get_thread t; ret (tid th).
Definition thread_name : M kstate string := t ← thread_current; th ← get_thread t; ret (name th).
Definition thread_get_priority : M kstate Z :=
  t ← thread_current; th ← get_thread t; ret (priority th).

(** ** Comparison functions *)
Definition thread_priority (s : kstate) (t : Z) : Z :=
  match threads s !! t with Some th => priority th | None => 0 end.
Definition thread_wakeup (s : kstate) (t : Z) : Z :=
  match threads s !! t with Some th => wakeup_time th | None => 0 end.
Definition lock_priority (s : kstate) (l : Z) : Z :=
  match locks s !! l with Some lk => max_priority lk | None => 0 end.

Definition less_thread_priority (s : kstate) : Z → Z → bool := less_by (thread_priority s).
Definition less_sleep (s : kstate) : Z → Z → bool := less_by (thread_wakeup s).
Definition less_lock_priority (s : kstate) : Z → Z → bool := less_by (lock_priority s).

(** ** The scheduler *)
Definition next_thread_to_run : M kstate Z :=
  s ← get_state;
  match max_elem (less_thread_priority s) (ready_list s) with
  | None => ret (idle_thread s)
  | Some t => put_state (set_ready_list (remove_elem t (ready_list s)) s);; ret t
  end.

Definition palloc_free_page (t : Z) : M kstate unit :=
  modify (λ s, set_threads (delete t (threads s)) s).

(** [process_activate] only loads hardware registers. *)
Definition thread_schedule_tail (prev : Z) : M kstate unit :=
  t ← running_thread;
  l ← intr_get_level; ASSERT (negb l);;
  upd_thread t (set_status THREAD_RUNNING);;
  modify (set_thread_ticks 0);;
  if bool_decide (prev ≠ NULL) then
    p ← get_thread prev;
    i ← gets initial_thread;
    if bool_decide (status p = THREAD_DYING) && bool_decide (prev ≠ i) then
      ASSERT (bool_decide (prev ≠ t));; palloc_free_page prev
    else ret tt
  else ret tt.

(** [switch_threads] makes [next] the running thread; what follows it in
    [schedule] is then run on the stack of [next], with the previous thread. *)
Definition schedule : M kstate unit :=
  c ← running_thread;
  next ← next_thread_to_run;
  l ← intr_get_level; ASSERT (negb l);;
  th ← get_thread c; ASSERT (bool_decide (status th ≠ THREAD_RUNNING));;
  b ← is_thread next; ASSERT b;;
  if bool_decide (c ≠ next) then
    modify (set_cur next);; thread_schedule_tail c
  else thread_schedule_tail NULL.

Definition thread_block : M kstate unit :=
  c ← intr_context; ASSERT (negb c);;
  l ← intr_get_level; ASSERT (negb l);;
  t ← thread_current;
  upd_thread t (set_status THREAD_BLOCKED);;
  schedule.

Definition thread_unblock (t : Z) : M kstate unit :=
  b ← is_thread t; ASSERT b;;
  old_level ← intr_disable;
  th ← get_thread t; ASSERT (bool_decide (status th = THREAD_BLOCKED));;
  modify (λ s, set_ready_list (ready_list s ++ [t]) s);;
  upd_thread t (set_status THREAD_READY);;
  _ ← intr_set_level old_level;
  ret tt.

Definition thread_yield : M kstate (list stmt) :=
  e ← gets enable_yield;
  if negb e then ret []
  else
    t ← thread_current;
    c ← intr_context; ASSERT (negb c);;
    old_level ← intr_disable;
    i ← gets idle_thread;
    (if bool_decide (t ≠ i) then modify (λ s, set_ready_list (ready_list s ++ [t]) s) else ret tt);;
    upd_thread t (set_status THREAD_READY);;
    schedule;;
    ret [IntrSetLevel old_level].

Definition switch_yield (tag : bool) : M kstate unit := modify (set_enable_yield tag).

(** ** Sleeping *)
Definition thread_sleep (wakeup : Z) : M kstate (list stmt) :=
  old_level ← intr_disable;
  t ← thread_current;
  upd_thread t (set_wakeup_time wakeup);;
  modify (λ s, set_sleep_list (ordered_insert (less_sleep s) t (sleep_list s)) s);;
  thread_block;;
  ret [IntrSetLevel old_level].

(** The loop runs at most once per sleeping thread. *)
Fixpoint thread_alarm_loop (fuel : nat) (cur_ticks : Z) : M kstate unit :=
  match fuel with
  | O => fail OutOfFuel
  | S fuel =>
      s ← get_state;
      match sleep_list s with
      | [] => ret tt
      | t :: rest =>
          th ← get_thread t;
          if bool_decide (cur_ticks >= wakeup_time th) then
            modify (set_sleep_list rest);; thread_unblock t;; thread_alarm_loop fuel cur_ticks
          else ret tt
      end
  end.
Definition thread_alarm (cur_ticks : Z) : M kstate unit :=
  s ← get_state; thread_alarm_loop (S (length (sleep_list s))) cur_ticks.

(** ** Priority donation *)
Definition adjust_priority (t : Z) : M kstate unit :=
  s ← get_state;
  th ← get_thread t;
  match max_elem (less_lock_priority s) (lock_list th) with
  | Some max_lock =>
      lk ← get_lock max_lock;
      if bool_decide (instrinsic_priority th < max_priority lk)
      then upd_thread t (set_priority (max_priority lk))
      else ret tt
  | None => upd_thread t (set_priority (instrinsic_priority th))
  end.

Fixpoint flush_priority_loop (fuel : nat) (t : Z) : M kstate unit :=
  match fuel with
  | O => fail OutOfFuel
  | S fuel =>
      th ← get_thread t;
      if bool_decide (waiting_lock th ≠ NULL) then
        lk ← get_lock (waiting_lock th);
        if bool_decide (priority th > max_priority lk) then
          upd_lock (waiting_lock th) (set_max_priority (priority th));;
          let lock_holder := holder lk in
          if bool_decide (lock_holder ≠ NULL) then
            adjust_priority lock_holder;; flush_priority_loop fuel lock_holder
          else ret tt
        else ret tt
      else ret tt
  end.

(** A bound on the priorities of the system, and on the recursion: every call
    raises the priority of one lock, and none above [top_priority]. *)
Definition top_priority (s : kstate) : Z :=
  map_fold (λ _ th b, Z.max b (Z.max (priority th) (instrinsic_priority th)))
    (map_fold (λ _ lk b, Z.max b (max_priority lk)) 0 (locks s)) (threads s).
Definition flush_fuel (s : kstate) : nat :=
  S (map_fold (λ _ lk n, Z.to_nat (top_priority s - max_priority lk) + n)%nat 0%nat (locks s)).
Definition flush_priority (t : Z) : M kstate unit :=
  s ← get_state; flush_priority_loop (flush_fuel s) t.

Definition thread_set_priority (new_priority : Z) : M kstate (list stmt) :=
  old_level ← intr_disable;
  t ← thread_current;
  upd_thread t (set_instrinsic_priority new_priority);;
  adjust_priority t;;
  _ ← intr_set_level old_level;
  thread_yield.

(** ** Creation *)

(** The first word of the name. *)
Fixpoint get_name_length (nm : string) : nat :=
  match nm with
  | EmptyString => O
  | String c r => if Ascii.eqb c (Ascii.ascii_of_nat 32) then O else S (get_name_length r)
  end.

Definition init_thread (t : Z) (nm : string) (prio : Z) : M kstate unit :=
  ASSERT (bool_decide (t ≠ NULL));;
  ASSERT (bool_decide (PRI_MIN ≤ prio) && bool_decide (prio ≤ PRI_MAX));;
  let th := {| tid := 0; status := THREAD_BLOCKED;
               name := String.substring 0 (get_name_length nm) nm;
               stack := t + PGSIZE; priority := prio; wakeup_time := 0; lock_list := [];
               instrinsic_priority := prio; waiting_lock := NULL; pagedir := NULL; pn := NULL;
               child_list := []; next_fd := 2; cwd := 0; magic := THREAD_MAGIC;
               result := 0; pending := [] |} in
  modify (λ s, set_threads (<[t := th]> (threads s)) s);;
  old_level ← intr_disable;
  modify (λ s, set_all_list (all_list s ++ [t]) s);;
  _ ← intr_set_level old_level;
  ret tt.

Definition alloc_frame (t : Z) (size : Z) : M kstate Z :=
  b ← is_thread t; ASSERT b;;
  ASSERT (bool_decide (size mod 4 = 0));;
  upd_thread t (λ th, set_stack (stack th - size) th);;
  th ← get_thread t; ret (stack th).

(** ** Ticks *)
Definition thread_tick : M kstate unit :=
  t ← thread_current;
  s ← get_state;
  th ← get_thread t;
  (if bool_decide (t = idle_thread s) then modify (set_idle_ticks (idle_ticks s + 1))
   else if bool_decide (pagedir th ≠ NULL) then modify (set_user_ticks (user_ticks s + 1))
   else modify (set_kernel_ticks (kernel_ticks s + 1)));;
  modify (set_thread_ticks (u32 (thread_ticks s + 1)));;
  if bool_decide (u32 (thread_ticks s + 1) >= TIME_SLICE) then intr_yield_on_return else ret tt.

(** ** All threads *)
Fixpoint foreach_loop (func : Z → M kstate unit) (l : list Z) : M kstate unit :=
  match l with [] => ret tt | t :: r => func t;; foreach_loop func r end.
Definition thread_foreach (func : Z → M kstate unit) : M kstate unit :=
  l ← intr_get_level; ASSERT (negb l);;
  s ← get_state; foreach_loop func (all_list s).

(** The condition of the loop is the assignment [t->cwd = sector]. *)
Fixpoint contain_cwd_loop (sector : Z) (l : list Z) : M kstate bool :=
  match l with
  | [] => ret false
  | t :: r =>
      upd_thread t (set_cwd sector);;
      if bool_decide (sector ≠ 0) then ret true else contain_cwd_loop sector r
  end.
Definition thread_contain_cwd (sector : Z) : M kstate bool :=
  old_level ← intr_disable;
  s ← get_state;
  contain ← contain_cwd_loop sector (all_list s);
  _ ← intr_set_level old_level;
  ret contain.
