(* ===== verification/Synch.v ===== *)
(** * Synchronization (threads/synch.c), thread life cycle and the machine

    Semaphores, locks and condition variables, then the functions of thread.c,
    process.c and timer.c that are built on them, and the machine: the running
    thread executes what it has pending or calls the kernel, and timer
    interrupts arrive when interrupts are on.  A call runs in one step up to
    its next suspension point.  Thread identifiers and the tick counter are
    unbounded numbers. *)

From S2P Require Import Prelude KList KState Thread.
Local Open Scope Z_scope.

(** ** Semaphores *)
Definition sema_init (a : Z) (v : Z) : M kstate unit :=
  ASSERT (bool_decide (a ≠ NULL));;
  modify (λ s, set_semas (<[a := mk_semaphore v []]> (semas s)) s).

(** [lock_acquire] after [sema_down]. *)
Definition lock_acquire_tail (l : Z) (old_level : bool) : M kstate (list stmt) :=
  t ← running_thread;
  upd_lock l (set_holder t);;
  upd_thread t (λ th, set_lock_list (lock_list th ++ [l]) th);;
  adjust_priority t;;
  upd_thread t (set_waiting_lock NULL);;
  _ ← intr_set_level old_level;
  ret [].

Definition run_after (k : after) : M kstate (list stmt) :=
  match k with Return => ret [] | LockTail l old_level => lock_acquire_tail l old_level end.

(** One turn of [while (sema->value == 0)], and what follows the loop. *)
Definition sema_down_loop (a : Z) (old_level : bool) (k : after) : M kstate (list stmt) :=
  sm ← get_sema a;
  if bool_decide (value sm = 0) then
    t ← thread_current;
    upd_sema a (λ sm, set_waiters (waiters sm ++ [t]) sm);;
    thread_block;;
    ret [SemaLoop a old_level k]
  else
    upd_sema a (λ sm, set_value (u32 (value sm - 1)) sm);;
    _ ← intr_set_level old_level;
    run_after k.

Definition sema_down (a : Z) (k : after) : M kstate (list stmt) :=
  ASSERT (bool_decide (a ≠ NULL));;
  c ← intr_context; ASSERT (negb c);;
  old_level ← intr_disable;
  sema_down_loop a old_level k.

Definition sema_try_down (a : Z) : M kstate bool :=
  ASSERT (bool_decide (a ≠ NULL));;
  old_level ← intr_disable;
  sm ← get_sema a;
  success ← (if bool_decide (value sm > 0)
             then upd_sema a (set_value (value sm - 1));; ret true
             else ret false);
  _ ← intr_set_level old_level;
  ret success.

Definition sema_up (a : Z) : M kstate (list stmt) :=
  ASSERT (bool_decide (a ≠ NULL));;
  old_level ← intr_disable;
  s ← get_state;
  sm ← get_sema a;
  (match max_elem (less_thread_priority s) (waiters sm) with
   | Some t =>
       upd_sema a (λ sm, set_waiters (remove_elem t (waiters sm)) sm);;
       thread_unblock t
   | None => ret tt
   end);;
  upd_sema a (λ sm, set_value (u32 (value sm + 1)) sm);;
  _ ← intr_set_level old_level;
  c ← intr_context;
  if negb c then thread_yield else ret [].

(** ** Locks *)
Definition lock_init (l : Z) : M kstate unit :=
  ASSERT (bool_decide (l ≠ NULL));;
  modify (λ s, set_locks (<[l := mk_lock NULL PRI_MIN]> (locks s)) s);;
  sema_init (lock_semaphore l) 1.

Definition lock_held_by_current_thread (l : Z) : M kstate bool :=
  ASSERT (bool_decide (l ≠ NULL));;
  lk ← get_lock l;
  t ← thread_current;
  ret (bool_decide (holder lk = t)).

Definition lock_acquire (l : Z) : M kstate (list stmt) :=
  ASSERT (bool_decide (l ≠ NULL));;
  c ← intr_context; ASSERT (negb c);;
  h ← lock_held_by_current_thread l; ASSERT (negb h);;
  old_level ← intr_disable;
  t ← thread_current;
  upd_thread t (set_waiting_lock l);;
  flush_priority t;;
  sema_down (lock_semaphore l) (LockTail l old_level).

Definition lock_try_acquire (l : Z) : M kstate bool :=
  ASSERT (bool_decide (l ≠ NULL));;
  h ← lock_held_by_current_thread l; ASSERT (negb h);;
  old_level ← intr_disable;
  t ← thread_current;
  success ← sema_try_down (lock_semaphore l);
  (if success : bool then
     upd_lock l (set_holder t);;
     upd_thread t (λ th, set_lock_list (lock_list th ++ [l]) th);;
     adjust_priority t
   else ret tt);;
  _ ← intr_set_level old_level;
  ret success.

Definition flush_lock_priority (l : Z) : M kstate unit :=
  s ← get_state;
  sm ← get_sema (lock_semaphore l);
  match max_elem (less_thread_priority s) (waiters sm) with
  | None => upd_lock l (set_max_priority PRI_MIN)
  | Some t => th ← get_thread t; upd_lock l (set_max_priority (priority th))
  end.

(** [sema_up] may switch to another thread: the rest is pending. *)
Definition lock_release (l : Z) : M kstate (list stmt) :=
  ASSERT (bool_decide (l ≠ NULL));;
  h ← lock_held_by_current_thread l; ASSERT h;;
  old_level ← intr_disable;
  lk ← get_lock l;
  let t := holder lk in
  upd_lock l (set_holder NULL);;
  upd_thread t (λ th, set_lock_list (remove_elem l (lock_list th)) th);;
  adjust_priority t;;
  k ← sema_up (lock_semaphore l);
  ret (k ++ [FlushLock l; IntrSetLevel old_level; ThreadYield]).

(** ** Condition variables *)
Definition get_cond (c : Z) : M kstate (list Z) := s ← get_state; deref (conds s !! c).
Definition set_cond (c : Z) (ws : list Z) : M kstate unit :=
  modify (λ s, set_conds (<[c := ws]> (conds s)) s).

Definition cond_init (c : Z) : M kstate unit := ASSERT (bool_decide (c ≠ NULL));; set_cond c [].

(** [w] is the address of the local variable [waiter]. *)
Definition cond_wait (c l w : Z) : M kstate (list stmt) :=
  ASSERT (bool_decide (c ≠ NULL));;
  ASSERT (bool_decide (l ≠ NULL));;
  i ← intr_context; ASSERT (negb i);;
  h ← lock_held_by_current_thread l; ASSERT h;;
  sema_init (elem_semaphore w) 0;;
  lk ← get_lock l;
  modify (λ s, set_sema_elems (<[w := max_priority lk]> (sema_elems s)) s);;
  ws ← get_cond c;
  set_cond c (ws ++ [w]);;
  k ← lock_release l;
  ret (k ++ [SemaDown (elem_semaphore w); LockAcquire l]).

Definition sema_priority (s : kstate) (w : Z) : Z := default 0 (sema_elems s !! w).
Definition less_sema_priority (s : kstate) : Z → Z → bool := less_by (sema_priority s).

Definition cond_signal (c l : Z) : M kstate (list stmt) :=
  ASSERT (bool_decide (c ≠ NULL));;
  ASSERT (bool_decide (l ≠ NULL));;
  i ← intr_context; ASSERT (negb i);;
  h ← lock_held_by_current_thread l; ASSERT h;;
  s ← get_state;
  ws ← get_cond c;
  match max_elem (less_sema_priority s) ws with
  | Some w => set_cond c (remove_elem w ws);; sema_up (elem_semaphore w)
  | None => ret []
  end.

(** One turn of [while (!list_empty (&cond->waiters))]. *)
Definition cond_broadcast (c l : Z) : M kstate (list stmt) :=
  ASSERT (bool_decide (c ≠ NULL));;
  ASSERT (bool_decide (l ≠ NULL));;
  ws ← get_cond c;
  match ws with
  | [] => ret []
  | _ => k ← cond_signal c l; ret (k ++ [CondBroadcast c l])
  end.

(** ** Life of a thread (thread.c, process.c) *)
Definition set_result (v : Z) : M kstate unit := t ← running_thread; upd_thread t (KState.set_result v).
Definition get_result : M kstate Z := t ← running_thread; th ← get_thread t; ret (result th).

Definition allocate_tid : list stmt := [LockAcquire tid_lock; TidNext; LockRelease tid_lock].
(** [tid = next_tid++] *)
Definition tid_next : M kstate unit :=
  s ← get_state; put_state (set_next_tid (next_tid s + 1) s);; set_result (next_tid s).

(** [t] is what [palloc_get_page] returns and [pn] what [malloc] returns. *)
Definition thread_create (t pn : Z) (nm : string) (prio : Z) (function : list stmt)
    : M kstate (list stmt) :=
  if bool_decide (t = NULL) then set_result TID_ERROR;; ret []
  else init_thread t nm prio;; ret (allocate_tid ++ [CreateTail t pn function]).

(** [thread_create] after [allocate_tid]; the frames are those of
    [kernel_thread], [switch_entry] and [switch_threads]. *)
Definition thread_create_tail (t p : Z) (function : list stmt) : M kstate (list stmt) :=
  new_tid ← get_result;
  upd_thread t (set_tid new_tid);;
  (if bool_decide (p = NULL) then fail BadAccess else ret tt);;
  modify (λ s, set_pnodes (<[p := mk_pnode new_tid (-1)]> (pnodes s)) s);;
  sema_init (pnode_sema p) 0;;
  r ← running_thread;
  upd_thread r (λ th, set_child_list (child_list th ++ [p]) th);;
  upd_thread t (set_pn p);;
  c ← thread_current;
  cth ← get_thread c;
  upd_thread t (set_cwd (cwd cth));;
  _ ← alloc_frame t 12; _ ← alloc_frame t 4; _ ← alloc_frame t 28;
  upd_thread t (set_pending (KernelThread :: function));;
  thread_unblock t;;
  thread_yield.

Definition kernel_thread : M kstate unit := _ ← intr_enable; ret tt.

Definition thread_init : M kstate (list stmt) :=
  l ← intr_get_level; ASSERT (negb l);;
  lock_init tid_lock;;
  modify (set_ready_list []);;
  modify (set_sleep_list []);;
  modify (set_all_list []);;
  t ← running_thread;
  modify (set_initial_thread t);;
  init_thread t "main" PRI_DEFAULT;;
  upd_thread t (set_status THREAD_RUNNING);;
  ret (allocate_tid ++ [InitTail]).
Definition thread_init_tail : M kstate unit :=
  v ← get_result;
  t ← gets initial_thread;
  upd_thread t (set_tid v);;
  upd_thread t (set_cwd ROOT_DIR_SECTOR).

(** [idle_started] is the address of the local semaphore. *)
Definition thread_start (t pn idle_started : Z) : M kstate (list stmt) :=
  sema_init idle_started 0;;
  k ← thread_create t pn "idle" PRI_MIN [IdleStart idle_started];
  ret (k ++ [IntrSetLevel true; SemaDown idle_started]).

Definition idle_start (idle_started : Z) : M kstate (list stmt) :=
  t ← thread_current;
  modify (set_idle_thread t);;
  k ← sema_up idle_started;
  ret (k ++ [IdleLoop]).
Definition idle_loop : M kstate (list stmt) :=
  _ ← intr_disable;
  thread_block;;
  ret [StiHlt; IdleLoop].

(** [free (pn)] *)
Definition free_pnode (p : Z) : M kstate unit :=
  modify (λ s, set_semas (delete (pnode_sema p) (semas s)) (set_pnodes (delete p (pnodes s)) s)).

Fixpoint free_child_loop (l : list Z) : M kstate unit :=
  match l with [] => ret tt | p :: r => free_pnode p;; free_child_loop r end.
Definition free_child_list : M kstate unit :=
  t ← thread_current;
  th ← get_thread t;
  free_child_loop (child_list th);;
  upd_thread t (set_child_list []).

(** The first child with the process id. *)
Definition find_child_pnode (child : Z) : M kstate Z :=
  t ← thread_current;
  th ← get_thread t;
  s ← get_state;
  ret (List.hd NULL (filter (λ p, pid <$> pnodes s !! p = Some child) (child_list th))).

Definition process_wait (child_tid : Z) : M kstate (list stmt) :=
  p ← find_child_pnode child_tid;
  if bool_decide (p ≠ NULL) then
    k ← sema_down (pnode_sema p) Return;
    ret (k ++ [WaitTail p])
  else set_result (-1);; ret [].
Definition process_wait_tail (p : Z) : M kstate unit :=
  s ← get_state;
  n ← deref (pnodes s !! p);
  set_result (exit_status n);;
  t ← running_thread;
  upd_thread t (λ th, set_child_list (remove_elem p (child_list th)) th);;
  free_pnode p.

(** [process_exit] up to the page directory and the file table, which other
    components own. *)
Definition process_exit : M kstate (list stmt) :=
  t ← thread_current;
  upd_thread t (set_pagedir NULL);;
  free_child_list;;
  th ← get_thread t;
  (if bool_decide (pn th = NULL) then fail BadAccess else ret tt);;
  sema_up (pnode_sema (pn th)).

Definition thread_exit : M kstate (list stmt) :=
  c ← intr_context; ASSERT (negb c);;
  k ← process_exit;
  ret (k ++ [ThreadDie]).
Definition thread_die : M kstate unit :=
  _ ← intr_disable;
  t ← thread_current;
  modify (λ s, set_all_list (remove_elem t (all_list s)) s);;
  upd_thread t (set_status THREAD_DYING);;
  schedule.

(** ** The timer (devices/timer.c) *)
Definition timer_ticks : M kstate Z :=
  old_level ← intr_disable;
  t ← gets ticks;
  _ ← intr_set_level old_level;
  ret t.
Definition timer_elapsed (then_ : Z) : M kstate Z := t ← timer_ticks; ret (s64 (t - then_)).
Definition timer_sleep (n : Z) : M kstate (list stmt) :=
  l ← intr_get_level; ASSERT l;;
  t ← timer_ticks;
  thread_sleep (s64 (t + n)).

Definition timer_interrupt : M kstate unit :=
  modify (λ s, set_ticks (s64 (ticks s + 1)) s);;
  s ← get_state;
  thread_alarm (ticks s);;
  thread_tick.

(** [intr_handler] for the timer interrupt: the processor turns interrupts off
    before it and on when it returns. *)
Definition intr_handler : M kstate (list stmt) :=
  modify (set_intr_on false);;
  c ← intr_context; ASSERT (negb c);;
  modify (set_in_external_intr true);;
  modify (set_yield_on_return false);;
  timer_interrupt;;
  l ← intr_get_level; ASSERT (negb l);;
  modify (set_in_external_intr false);;
  y ← gets yield_on_return;
  k ← (if y : bool then thread_yield else ret []);
  ret (k ++ [IntrReturn]).

(** ** The machine *)

(** A pending statement is executed; the result is what it leaves to do. *)
Definition exec (st : stmt) : M kstate (list stmt) :=
  match st with
  | IntrSetLevel level => _ ← intr_set_level level; ret []
  | SemaLoop a old_level k => sema_down_loop a old_level k
  | SemaDown a => sema_down a Return
  | LockAcquire l => lock_acquire l
  | LockRelease l => lock_release l
  | ThreadYield => thread_yield
  | FlushLock l => flush_lock_priority l;; ret []
  | CondBroadcast c l => cond_broadcast c l
  | TidNext => tid_next;; ret []
  | CreateTail t p function => thread_create_tail t p function
  | KernelThread => kernel_thread;; ret []
  | IdleStart a => idle_start a
  | IdleLoop => idle_loop
  | StiHlt => modify (set_intr_on true);; ret []
  | IntrReturn => modify (set_intr_on true);; ret []
  | InitTail => thread_init_tail;; ret []
  | WaitTail p => process_wait_tail p;; ret []
  | ThreadDie => thread_die;; ret []
  end.

(** What the code of a thread can ask of the kernel. *)
Inductive call :=
| CallSemaInit (a v : Z) | CallSemaDown (a : Z) | CallSemaTryDown (a : Z) | CallSemaUp (a : Z)
| CallLockInit (l : Z) | CallLockAcquire (l : Z) | CallLockTryAcquire (l : Z) | CallLockRelease (l : Z)
| CallCondInit (c : Z) | CallCondWait (c l w : Z) | CallCondSignal (c l : Z) | CallCondBroadcast (c l : Z)
| CallYield | CallSetPriority (p : Z) | CallTimerSleep (n : Z)
| CallThreadCreate (t pn : Z) (nm : string) (prio : Z)
| CallWait (child : Z) | CallExit | CallSwitchYield (b : bool).

Definition exec_call (c : call) : M kstate (list stmt) :=
  match c with
  | CallSemaInit a v => sema_init a v;; ret []
  | CallSemaDown a => sema_down a Return
  | CallSemaTryDown a => b ← sema_try_down a; set_result (Z.b2z b);; ret []
  | CallSemaUp a => sema_up a
  | CallLockInit l => lock_init l;; ret []
  | CallLockAcquire l => lock_acquire l
  | CallLockTryAcquire l => b ← lock_try_acquire l; set_result (Z.b2z b);; ret []
  | CallLockRelease l => lock_release l
  | CallCondInit c => cond_init c;; ret []
  | CallCondWait c l w => cond_wait c l w
  | CallCondSignal c l => cond_signal c l
  | CallCondBroadcast c l => cond_broadcast c l
  | CallYield => thread_yield
  | CallSetPriority p => thread_set_priority p
  | CallTimerSleep n => timer_sleep n
  | CallThreadCreate t p nm prio => thread_create t p nm prio []
  | CallWait child => process_wait child
  | CallExit => thread_exit
  | CallSwitchYield b => switch_yield b;; ret []
  end.

(** The stack of thread [t] gets [k] on top, unless the thread is gone. *)
Definition push_pending (t : Z) (k : list stmt) : M kstate unit :=
  modify (λ s, set_threads (alter (λ th, set_pending (k ++ pending th) th) t (threads s)) s).

Inductive action := Resume | Call (c : call) | Tick.

(** One step of the machine. *)
Definition run (a : action) : M kstate unit :=
  t ← running_thread;
  th ← get_thread t;
  match a with
  | Resume =>
      match pending th with
      | [] => fail BadAccess
      | st :: rest =>
          upd_thread t (set_pending rest);;
          k ← exec st;
          push_pending t k
      end
  | Call c =>
      match pending th with
      | [] => k ← exec_call c; push_pending t k
      | _ => fail BadAccess
      end
  | Tick =>
      l ← intr_get_level;
      if l : bool then k ← intr_handler; push_pending t k else fail BadAccess
  end.
