(* ===== verification/ThreadInv.v ===== *)
(** * The invariant of the threading system

    The invariant is stated on three views of the state, so that an operation
    that does not change a view keeps its part of the invariant:
    - [Qinv], the queues: a thread is on at most one of the ready list, the
      sleep list and the waiters of a semaphore, and its status says which;
    - [Linv], the locks: a lock's semaphore is 1 exactly when it has no
      holder, and the locks a thread holds are those of its [lock_list];
    - [Pinv], the stacks: what the threads have pending is well formed. *)

From S2P Require Import Prelude KList KState Thread Synch.
Local Open Scope Z_scope.

(** ** Views *)

(** The queues a thread's [elem] can be on. *)
Inductive queue := Ready | Sleep | Wait (a : Z).
#[export] Instance queue_eq_dec : EqDecision queue.
Proof. solve_decision. Defined.

Record qview := mk_qview {
  v_st : gmap Z thread_status; v_wake : gmap Z Z;
  v_ready : list Z; v_sleep : list Z; v_wait : gmap Z (list Z);
  v_idle : Z; v_cur : Z
}.
Definition qv (s : kstate) : qview :=
  mk_qview (status <$> threads s) (wakeup_time <$> threads s) (ready_list s) (sleep_list s)
    (waiters <$> semas s) (idle_thread s) (cur s).

Record lview := mk_lview {
  v_held : gmap Z (list Z); v_holder : gmap Z Z; v_value : gmap Z Z
}.
Definition lv (s : kstate) : lview :=
  mk_lview (lock_list <$> threads s) (holder <$> locks s) (value <$> semas s).

(** What the invariant says of the rest of a thread. *)
Record pthread := mk_pthread { p_pending : list stmt; p_nodes : list Z; p_magic : Z }.
Definition pthread_of (th : thread) : pthread :=
  mk_pthread (pending th) ((if decide (pn th = NULL) then [] else [pn th]) ++ child_list th) (magic th).
Record pview := mk_pview { v_pt : gmap Z pthread; v_conds : gmap Z (list Z) }.
Definition pv (s : kstate) : pview := mk_pview (pthread_of <$> threads s) (conds s).

(** ** The invariant *)
Definition queue_of (v : qview) (q : queue) : list Z :=
  match q with
  | Ready => v_ready v
  | Sleep => v_sleep v
  | Wait a => default [] (v_wait v !! a)
  end.
Definition queue_status (q : queue) : thread_status :=
  match q with Ready => THREAD_READY | _ => THREAD_BLOCKED end.

Definition no_queue (v : qview) (t : Z) : Prop := ∀ q, t ∉ queue_of v q.

Definition wake_of (v : qview) (t : Z) : Z := default 0 (v_wake v !! t).

Record Qinv (v : qview) : Prop := {
  q_nodup q : NoDup (queue_of v q);
  q_status q t : t ∈ queue_of v q → v_st v !! t = Some (queue_status q);
  q_excl q q' t : t ∈ queue_of v q → t ∈ queue_of v q' → q = q';
  q_ready t : v_st v !! t = Some THREAD_READY → t ∈ v_ready v ∨ t = v_idle v;
  q_running t : v_st v !! t = Some THREAD_RUNNING → t = v_cur v;
  q_idle : no_queue v (v_idle v);
  q_sleep : Sorted (le_of (less_by (wake_of v))) (v_sleep v)
}.

Section Invariant.
(** Memory is typed: these are the addresses of the locks. *)
Context (lock_addr : Z → bool).

(** A semaphore that is not part of a lock. *)
Definition plain (a : Z) : Prop := lock_addr (a - 4) = false.

Record Linv (v : lview) : Prop := {
  l_value l h : v_holder v !! l = Some h →
    lock_addr l = true ∧ v_value v !! lock_semaphore l = Some (if decide (h = NULL) then 1 else 0);
  l_holder l h : v_holder v !! l = Some h → h ≠ NULL → ∃ ls, v_held v !! h = Some ls ∧ l ∈ ls;
  l_held t ls l : v_held v !! t = Some ls → l ∈ ls → v_holder v !! l = Some t;
  l_nodup t ls : v_held v !! t = Some ls → NoDup ls;
  l_null : v_held v !! NULL = None
}.

(** The statements a thread of a booted system can have pending. *)
Definition stmt_ok (st : stmt) : Prop :=
  match st with
  | SemaLoop a _ Return => plain a
  | SemaLoop a _ (LockTail l _) => a = lock_semaphore l
  | SemaDown a => plain a
  | CreateTail _ p function => plain (pnode_sema p) ∧ function = []
  | WaitTail p => plain (pnode_sema p)
  | IdleStart _ | InitTail => False
  | _ => True
  end.

(** The idle thread is always in its loop and never waits for anything. *)
Definition idle_stmt (st : stmt) : Prop :=
  match st with IntrSetLevel _ | StiHlt | IntrReturn | IdleLoop => True | _ => False end.

(** The threads that are being created by what is pending. *)
Definition targets (k : list stmt) : list Z :=
  omap (λ st, match st with CreateTail t _ _ => Some t | _ => None end) k.

Record Pinv (v : pview) (idle : Z) : Prop := {
  p_stmts t p : v_pt v !! t = Some p → Forall stmt_ok (p_pending p);
  p_plain t p n : v_pt v !! t = Some p → n ∈ p_nodes p → plain (pnode_sema n);
  p_thread t p : v_pt v !! t = Some p → t ≠ NULL ∧ p_magic p = THREAD_MAGIC;
  p_idle p : v_pt v !! idle = Some p → Forall idle_stmt (p_pending p);
  p_conds c ws w : v_conds v !! c = Some ws → w ∈ ws → plain (elem_semaphore w);
  p_once t p : v_pt v !! t = Some p → NoDup (targets (p_pending p));
  p_disj t t' p p' x : v_pt v !! t = Some p → v_pt v !! t' = Some p' →
    x ∈ targets (p_pending p) → x ∈ targets (p_pending p') → t = t'
}.

(** A thread that is being created is blocked and on no queue. *)
Definition Tinv (qw : qview) (pw : pview) : Prop :=
  ∀ t p x, v_pt pw !! t = Some p → x ∈ targets (p_pending p) →
    v_st qw !! x = Some THREAD_BLOCKED ∧ no_queue qw x ∧ x ≠ v_idle qw.

Definition running (v : qview) : Prop := v_st v !! v_cur v = Some THREAD_RUNNING.

Record kinv (s : kstate) : Prop := {
  k_q : Qinv (qv s);
  k_l : Linv (lv s);
  k_p : Pinv (pv s) (idle_thread s);
  k_t : Tinv (qv s) (pv s);
  k_run : running (qv s)
}.

(** Between two steps the idle thread has its loop at the bottom of its stack. *)
Definition idle_last (s : kstate) : Prop :=
  ∀ th, threads s !! idle_thread s = Some th → last (pending th) = Some IdleLoop.

(** ** States with the same views *)
Definition same (s s' : kstate) : Prop := qv s' = qv s ∧ lv s' = lv s ∧ pv s' = pv s.

Lemma same_refl s : same s s.
Proof. done. Qed.
Lemma same_trans s1 s2 s3 : same s1 s2 → same s2 s3 → same s1 s3.
Proof. unfold same. intros (->&->&->) (->&->&->). done. Qed.

Lemma same_kinv s s' : same s s' → kinv s → kinv s'.
Proof.
  intros (Hq & Hl & Hp) [? ? HP ? ?]. split; rewrite ?Hq, ?Hl, ?Hp; try done.
  replace (idle_thread s') with (idle_thread s) by (change (v_idle (qv s) = v_idle (qv s')); by rewrite Hq).
  done.
Qed.

Lemma fmap_insert_same {A B} (g : A → B) (m : gmap Z A) i x y :
  m !! i = Some x → g y = g x → g <$> <[i := y]> m = g <$> m.
Proof. intros Hi Hg. rewrite fmap_insert, Hg. apply insert_id. by rewrite lookup_fmap, Hi. Qed.

Lemma same_upd_thread s t th th' :
  threads s !! t = Some th → status th' = status th → wakeup_time th' = wakeup_time th →
  lock_list th' = lock_list th → pthread_of th' = pthread_of th →
  same s (set_threads (<[t := th']> (threads s)) s).
Proof.
  intros Ht ????. unfold same, qv, lv, pv. simpl.
  by rewrite !(fmap_insert_same _ _ _ _ _ Ht).
Qed.

Lemma same_upd_lock s l lk lk' :
  locks s !! l = Some lk → holder lk' = holder lk → same s (set_locks (<[l := lk']> (locks s)) s).
Proof. intros Hl ?. unfold same, qv, lv, pv. simpl. by rewrite (fmap_insert_same _ _ _ _ _ Hl). Qed.

Lemma pwp_get_thread t s Q :
  (∀ th, threads s !! t = Some th → Q th s) → pwp (get_thread t) s Q.
Proof. intros H. unfold get_thread. pwp_steps. auto. Qed.
Lemma pwp_upd_thread t f s (Q : unit → kstate → Prop) :
  (∀ th, threads s !! t = Some th → Q tt (set_threads (<[t := f th]> (threads s)) s)) →
  pwp (upd_thread t f) s Q.
Proof. intros H. unfold upd_thread. pwp_step. apply pwp_get_thread. intros. pwp_step. auto. Qed.
Lemma pwp_get_lock l s Q : (∀ lk, locks s !! l = Some lk → Q lk s) → pwp (get_lock l) s Q.
Proof. intros H. unfold get_lock. pwp_steps. auto. Qed.
Lemma pwp_upd_lock l f s (Q : unit → kstate → Prop) :
  (∀ lk, locks s !! l = Some lk → Q tt (set_locks (<[l := f lk]> (locks s)) s)) →
  pwp (upd_lock l f) s Q.
Proof. intros H. unfold upd_lock. pwp_step. apply pwp_get_lock. intros. pwp_step. auto. Qed.
Lemma pwp_get_sema a s Q : (∀ sm, semas s !! a = Some sm → Q sm s) → pwp (get_sema a) s Q.
Proof. intros H. unfold get_sema. pwp_steps. auto. Qed.
Lemma pwp_upd_sema a f s (Q : unit → kstate → Prop) :
  (∀ sm, semas s !! a = Some sm → Q tt (set_semas (<[a := f sm]> (semas s)) s)) →
  pwp (upd_sema a f) s Q.
Proof. intros H. unfold upd_sema. pwp_step. apply pwp_get_sema. intros. pwp_step. auto. Qed.

(** Chains a specification that keeps the views. *)
Definition keeps {A} (c : M kstate A) : Prop := ∀ s, pwp c s (λ _ s', same s s').

Lemma pwp_keeps {A} (c : M kstate A) s (Q : A → kstate → Prop) :
  keeps c → (∀ a s', same s s' → Q a s') → pwp c s Q.
Proof. intros Hc HQ. eapply pwp_mono; [apply Hc|]. auto. Qed.

Lemma keeps_bind {A B} (c : M kstate A) (k : A → M kstate B) :
  keeps c → (∀ a, keeps (k a)) → keeps (bind c k).
Proof.
  intros Hc Hk s. apply pwp_bind. apply (pwp_keeps c); [done|]. intros a s1 H1.
  eapply pwp_mono; [apply Hk|]. intros b s2 H2. by eapply same_trans.
Qed.
Lemma keeps_ret {A} (a : A) : keeps (ret a).
Proof. intros s. apply same_refl. Qed.
Lemma keeps_fail {A} f : keeps (fail (A := A) f).
Proof. done. Qed.
Lemma keeps_gets {A} (f : kstate → A) : keeps (gets f).
Proof. intros s. apply same_refl. Qed.
Lemma keeps_get_state : keeps get_state.
Proof. intros s. apply same_refl. Qed.
Lemma keeps_ASSERT b : keeps (ASSERT b).
Proof. by destruct b. Qed.
Lemma keeps_deref {A} (o : option A) : keeps (deref o).
Proof. by destruct o. Qed.
Lemma keeps_modify f : (∀ s, same s (f s)) → keeps (modify f).
Proof. intros Hf s. apply Hf. Qed.
Lemma keeps_get_thread t : keeps (get_thread t).
Proof. intros s. apply pwp_get_thread. done. Qed.
Lemma keeps_get_lock l : keeps (get_lock l).
Proof. intros s. apply pwp_get_lock. done. Qed.
Lemma keeps_get_sema a : keeps (get_sema a).
Proof. intros s. apply pwp_get_sema. done. Qed.
Lemma keeps_upd_thread t f :
  (∀ th, status (f th) = status th ∧ wakeup_time (f th) = wakeup_time th ∧
         lock_list (f th) = lock_list th ∧ pthread_of (f th) = pthread_of th) →
  keeps (upd_thread t f).
Proof.
  intros Hf s. apply pwp_upd_thread. intros th Ht. destruct (Hf th) as (?&?&?&?).
  by eapply same_upd_thread.
Qed.
Lemma keeps_upd_lock l f : (∀ lk, holder (f lk) = holder lk) → keeps (upd_lock l f).
Proof. intros Hf s. apply pwp_upd_lock. intros lk Hl. by eapply same_upd_lock. Qed.

End Invariant.

(** Computations that keep the views, by their structure. *)
#[export] Hint Resolve keeps_ret keeps_fail keeps_gets keeps_get_state keeps_ASSERT keeps_deref
  keeps_get_thread keeps_get_lock keeps_get_sema : keeps.
Ltac solve_keeps :=
  repeat first
    [ progress (intros; cbv beta)
    | solve [auto with keeps nocore]
    | lazymatch goal with
      | |- keeps (bind _ _) => apply keeps_bind
      | |- keeps (modify _) => apply keeps_modify; done
      | |- keeps (upd_thread _ _) => apply keeps_upd_thread; done
      | |- keeps (upd_lock _ _) => apply keeps_upd_lock; done
      end
    | case_match ].

Section Keeps.

Lemma keeps_intr_disable : keeps intr_disable.
Proof. unfold intr_disable, intr_get_level. solve_keeps. Qed.
Lemma keeps_intr_enable : keeps intr_enable.
Proof. unfold intr_enable, intr_get_level, intr_context. solve_keeps. Qed.
Lemma keeps_intr_set_level b : keeps (intr_set_level b).
Proof. destruct b; [apply keeps_intr_enable|apply keeps_intr_disable]. Qed.
Lemma keeps_is_thread t : keeps (is_thread t).
Proof. unfold is_thread. solve_keeps. Qed.
#[local] Hint Resolve keeps_intr_disable keeps_intr_enable keeps_intr_set_level keeps_is_thread : keeps.
Lemma keeps_thread_current : keeps thread_current.
Proof. unfold thread_current, running_thread. solve_keeps. Qed.
Lemma keeps_adjust_priority t : keeps (adjust_priority t).
Proof. unfold adjust_priority. solve_keeps. Qed.
#[local] Hint Resolve keeps_thread_current keeps_adjust_priority : keeps.
Lemma keeps_flush_priority_loop n t : keeps (flush_priority_loop n t).
Proof. revert t. induction n as [|n IH]; intros t; simpl; solve_keeps. Qed.
Lemma keeps_flush_priority t : keeps (flush_priority t).
Proof. unfold flush_priority. solve_keeps. apply keeps_flush_priority_loop. Qed.
Lemma keeps_flush_lock_priority l : keeps (flush_lock_priority l).
Proof. unfold flush_lock_priority. solve_keeps. Qed.
Lemma keeps_set_result v : keeps (set_result v).
Proof. unfold set_result, running_thread. solve_keeps. Qed.
Lemma keeps_get_result : keeps get_result.
Proof. unfold get_result, running_thread. solve_keeps. Qed.
Lemma keeps_thread_tick : keeps thread_tick.
Proof. unfold thread_tick, intr_yield_on_return, intr_context. solve_keeps. Qed.
Lemma keeps_timer_ticks : keeps timer_ticks.
Proof. unfold timer_ticks. solve_keeps. Qed.
Lemma keeps_alloc_frame t n : keeps (alloc_frame t n).
Proof. unfold alloc_frame. solve_keeps. Qed.
Lemma keeps_held l : keeps (lock_held_by_current_thread l).
Proof. unfold lock_held_by_current_thread. solve_keeps. Qed.
Lemma keeps_put_next_tid s v : same s (set_next_tid v s).
Proof. done. Qed.
Lemma keeps_tid_next : keeps tid_next.
Proof.
  intros s. unfold tid_next. pwp_steps. apply pwp_keeps; [apply keeps_set_result|].
  intros _ s' H. eapply same_trans; [apply keeps_put_next_tid|done].
Qed.

End Keeps.
#[export] Hint Resolve keeps_intr_disable keeps_intr_enable keeps_intr_set_level keeps_is_thread
  keeps_thread_current keeps_adjust_priority keeps_flush_priority keeps_flush_lock_priority
  keeps_set_result keeps_get_result keeps_thread_tick keeps_timer_ticks keeps_alloc_frame keeps_held
  keeps_tid_next : keeps.

(** The result of [thread_current]. *)
Lemma pwp_thread_current s (Q : Z → kstate → Prop) :
  (running (qv s) → Q (cur s) s) → pwp thread_current s Q.
Proof.
  intros HQ. unfold thread_current, running_thread. pwp_steps. unfold is_thread.
  case_bool_decide; pwp_steps; [done|]. apply pwp_get_thread. intros th Hth. pwp_steps.
  apply pwp_get_thread. intros th' Hth'. pwp_steps. apply HQ. simplify_eq.
  unfold running, qv. simpl. rewrite lookup_fmap, Hth. simpl. f_equal. by eapply bool_decide_eq_true_1.
Qed.

(** ** The queues *)
Section Queues.
Implicit Types v : qview.

Definition vset_st (t : Z) (st : thread_status) v : qview :=
  mk_qview (<[t := st]> (v_st v)) (v_wake v) (v_ready v) (v_sleep v) (v_wait v) (v_idle v) (v_cur v).
Definition vset_ready (l : list Z) v : qview :=
  mk_qview (v_st v) (v_wake v) l (v_sleep v) (v_wait v) (v_idle v) (v_cur v).
Definition vset_sleep (l : list Z) v : qview :=
  mk_qview (v_st v) (v_wake v) (v_ready v) l (v_wait v) (v_idle v) (v_cur v).
Definition vset_wait (a : Z) (l : list Z) v : qview :=
  mk_qview (v_st v) (v_wake v) (v_ready v) (v_sleep v) (<[a := l]> (v_wait v)) (v_idle v) (v_cur v).
Definition vset_cur (t : Z) v : qview :=
  mk_qview (v_st v) (v_wake v) (v_ready v) (v_sleep v) (v_wait v) (v_idle v) t.

(** The view with queue [q] replaced. *)
Definition vset_queue (q : queue) (l : list Z) v : qview :=
  match q with Ready => vset_ready l v | Sleep => vset_sleep l v | Wait a => vset_wait a l v end.

Lemma queue_of_vset_queue q l v q' :
  queue_of (vset_queue q l v) q' = if decide (q = q') then l else queue_of v q'.
Proof.
  destruct q as [| |a], q' as [| |a']; simpl; try done.
  destruct (decide (a = a')) as [->|].
  - by rewrite decide_True, lookup_insert_eq.
  - rewrite decide_False by congruence. by rewrite lookup_insert_ne.
Qed.

Lemma no_queue_vset_queue q l v t :
  no_queue v t → t ∉ l → no_queue (vset_queue q l v) t.
Proof. intros H Hl q'. rewrite queue_of_vset_queue. by case_decide. Qed.

Lemma no_queue_vset_queue_inv q l v t :
  no_queue v t → (∀ x, x ∈ l → x ∈ queue_of v q) → no_queue (vset_queue q l v) t.
Proof. intros H Hl. apply no_queue_vset_queue; [done|]. intros ?%Hl. by eapply H. Qed.

(** A thread with another status than those of the queues is on none. *)
Lemma running_no_queue v t st :
  Qinv v → v_st v !! t = Some st → st ≠ THREAD_READY → st ≠ THREAD_BLOCKED → no_queue v t.
Proof. intros Hv Hst Hr Hb q Hq. apply (q_status v Hv) in Hq. destruct q; simpl in *; congruence. Qed.

(** A thread on no queue changes its status. *)
Lemma Q_status v t st :
  Qinv v → no_queue v t → (st = THREAD_READY → t = v_idle v) → (st = THREAD_RUNNING → t = v_cur v) →
  Qinv (vset_st t st v).
Proof.
  intros [Hn Hs He Hr Hc Hi Hw] Ht H1 H2. split; try done; simpl.
  - intros q x Hx. rewrite lookup_insert_ne; [by apply Hs|]. intros ->. by eapply Ht.
  - intros x. destruct (decide (x = t)) as [->|].
    + rewrite lookup_insert_eq. intros [= ->]. right. auto.
    + rewrite lookup_insert_ne by done. apply Hr.
  - intros x. destruct (decide (x = t)) as [->|].
    + rewrite lookup_insert_eq. intros [= ->]. auto.
    + rewrite lookup_insert_ne by done. apply Hc.
Qed.

(** A thread on no queue is put on one. *)
Lemma Q_add v t q l :
  Qinv v → no_queue v t → t ≠ v_idle v → l ≡ₚ t :: queue_of v q →
  (q = Sleep → Sorted (le_of (less_by (wake_of v))) l) →
  Qinv (vset_st t (queue_status q) (vset_queue q l v)).
Proof.
  intros [Hn Hs He Hr Hc Hi Hw] Ht Hti Hl Hsort.
  assert (∀ q', queue_of (vset_st t (queue_status q) (vset_queue q l v)) q' =
    if decide (q = q') then l else queue_of v q') as Hq by apply queue_of_vset_queue.
  assert (∀ q' x, x ∈ queue_of (vset_st t (queue_status q) (vset_queue q l v)) q' →
    x ∈ queue_of v q' ∨ x = t ∧ q' = q) as Hin.
  { intros q' x. rewrite Hq. case_decide; [subst q'|by left]. rewrite Hl. set_solver. }
  split.
  - intros q'. rewrite Hq. case_decide; [|done]. rewrite Hl. apply NoDup_cons. split; [apply Ht|done].
  - intros q' x [Hx|[-> ->]]%Hin; simpl.
    + rewrite lookup_insert_ne; [destruct q; by apply Hs|]. intros ->. by eapply Ht.
    + destruct q; apply lookup_insert_eq.
  - intros q' q'' x [Hx|[-> ->]]%Hin [Hx'|[Ex ->]]%Hin; try done; [by eapply He|subst; by edestruct Ht..].
  - intros x Hx. destruct (decide (x = t)) as [->|].
    + left. destruct q; simpl in *; rewrite lookup_insert_eq in Hx; try done. rewrite Hl. set_solver.
    + assert (x ∈ v_ready v ∨ x = v_idle v) as [Hx'|Hx']
        by (destruct q; simpl in Hx; rewrite lookup_insert_ne in Hx by done; by apply Hr).
      * left. destruct q; simpl in *; try done. rewrite Hl. set_solver.
      * right. by destruct q.
  - intros x Hx. destruct (decide (x = t)) as [->|].
    + destruct q; simpl in *; rewrite lookup_insert_eq in Hx; done.
    + destruct q; simpl in *; rewrite lookup_insert_ne in Hx by done; by apply Hc.
  - intros q' Hx. apply Hin in Hx as [Hx|[Hx _]]; [|destruct q; done]. destruct q; by eapply Hi.
  - destruct q; simpl; try done. by apply Hsort.
Qed.

(** A blocked thread leaves its queue. *)
Lemma Q_remove v t q :
  Qinv v → q ≠ Ready → t ∈ queue_of v q →
  Qinv (vset_queue q (remove_elem t (queue_of v q)) v) ∧
  no_queue (vset_queue q (remove_elem t (queue_of v q)) v) t.
Proof.
  intros [Hn Hs He Hr Hc Hi Hw] Hq Ht.
  assert (∀ q' x, x ∈ queue_of (vset_queue q (remove_elem t (queue_of v q)) v) q' →
    x ∈ queue_of v q' ∧ (q' = q → x ≠ t)) as Hin.
  { intros q' x. rewrite queue_of_vset_queue. case_decide; [subst q'|done].
    rewrite elem_of_remove_elem by done. naive_solver. }
  split; [split|].
  - intros q'. rewrite queue_of_vset_queue. case_decide; [by apply remove_elem_NoDup|done].
  - intros q' x [Hx _]%Hin. destruct q; by apply Hs.
  - intros q' q'' x [Hx _]%Hin [Hx' _]%Hin. by eapply He.
  - destruct q; simpl; try done; naive_solver.
  - by destruct q.
  - intros q' [Hx _]%Hin. destruct q; by eapply Hi.
  - destruct q; simpl; try done. clear -Hw.
    change (Sorted (le_of (less_by (wake_of v))) (remove_elem t (v_sleep v))).
    induction (v_sleep v) as [|x l IH]; simpl; [done|]. case_decide; [by apply Sorted_inv in Hw as [? _]|].
    apply Sorted_inv in Hw as [Hl Hh]. constructor; [by apply IH|]. destruct l as [|y l]; simpl; [done|].
    apply HdRel_inv in Hh. case_decide; [|by constructor]. destruct l as [|z l]; constructor.
    apply Sorted_inv in Hl as [_ Hz%HdRel_inv]. unfold le_of, less_by in *. lia.
  - intros q' [Hx Hne]%Hin. by apply Hne; [eapply He|].
Qed.

(** The scheduler takes a thread from the ready list. *)
Lemma Q_dispatch v t :
  Qinv v → (∀ x, v_st v !! x ≠ Some THREAD_RUNNING) → t ∈ v_ready v →
  Qinv (vset_st t THREAD_RUNNING (vset_cur t (vset_ready (remove_elem t (v_ready v)) v))).
Proof.
  intros [Hn Hs He Hr Hc Hi Hw] Hrun Ht.
  set (v' := vset_st _ _ _).
  assert (∀ q x, x ∈ queue_of v' q → x ∈ queue_of v q ∧ x ≠ t) as Hin.
  { intros [| |a] x; simpl.
    - rewrite elem_of_remove_elem by apply (Hn Ready). done.
    - intros Hx. split; [done|]. intros ->. by specialize (He Sleep Ready t Hx Ht).
    - intros Hx. split; [done|]. intros ->. by specialize (He (Wait a) Ready t Hx Ht). }
  split; simpl.
  - intros [| |a]; [apply remove_elem_NoDup, (Hn Ready)|apply (Hn Sleep)|apply (Hn (Wait a))].
  - intros q x [Hx Hne]%Hin. rewrite lookup_insert_ne by done. by apply Hs.
  - intros q q' x [Hx _]%Hin [Hx' _]%Hin. by eapply He.
  - intros x Hx. destruct (decide (x = t)) as [->|]; [by rewrite lookup_insert_eq in Hx|].
    rewrite lookup_insert_ne in Hx by done. rewrite elem_of_remove_elem by apply (Hn Ready).
    destruct (Hr x Hx); auto.
  - intros x Hx. destruct (decide (x = t)) as [->|]; [done|]. rewrite lookup_insert_ne in Hx by done.
    by destruct (Hrun x).
  - intros q [Hx _]%Hin. by eapply Hi.
  - done.
Qed.

(** A thread on no queue disappears. *)
Lemma Q_delete v t :
  Qinv v → no_queue v t →
  Qinv (mk_qview (delete t (v_st v)) (delete t (v_wake v)) (v_ready v) (v_sleep v) (v_wait v) (v_idle v) (v_cur v)).
Proof.
  intros [Hn Hs He Hr Hc Hi Hw] Ht. set (v' := mk_qview _ _ _ _ _ _ _).
  split; try done; simpl.
  - intros q x Hx. rewrite lookup_delete_ne; [by apply Hs|]. intros ->. by eapply (Ht q).
  - intros x [_ Hx]%lookup_delete_Some. by apply Hr.
  - intros x [_ Hx]%lookup_delete_Some. by apply Hc.
  - assert (∀ x, x ∈ v_sleep v → wake_of v' x = wake_of v x) as Hwk.
    { intros x Hx. unfold wake_of. simpl. rewrite lookup_delete_ne; [done|]. intros ->. by eapply (Ht Sleep). }
    clear -Hw Hwk. induction (v_sleep v) as [|x l IH]; [done|]. apply Sorted_inv in Hw as [Hl Hh].
    constructor; [apply IH; set_solver|]. destruct l as [|y l]; constructor. apply HdRel_inv in Hh.
    unfold le_of, less_by in *. rewrite !Hwk by set_solver. done.
Qed.

End Queues.

(** ** The scheduler *)
Section Scheduler.

Lemma thread_wakeup_view s x : thread_wakeup s x = wake_of (qv s) x.
Proof. unfold thread_wakeup, wake_of. simpl. rewrite lookup_fmap. by destruct (threads s !! x). Qed.

(** Blocked and on no queue: what [Tinv] says of a thread that is being created. *)
Definition parked (v : qview) (x : Z) : Prop :=
  v_st v !! x = Some THREAD_BLOCKED ∧ no_queue v x ∧ x ≠ v_idle v.

Lemma qv_set_status s t th st :
  threads s !! t = Some th →
  qv (set_threads (<[t := set_status st th]> (threads s)) s) = vset_st t st (qv s).
Proof.
  intros Ht. unfold qv, vset_st. simpl. rewrite fmap_insert.
  by rewrite (fmap_insert_same wakeup_time _ _ _ _ Ht).
Qed.
Lemma lv_set_status s t th st :
  threads s !! t = Some th → lv (set_threads (<[t := set_status st th]> (threads s)) s) = lv s.
Proof. intros Ht. unfold lv. simpl. by rewrite (fmap_insert_same lock_list _ _ _ _ Ht). Qed.
Lemma pv_set_status s t th st :
  threads s !! t = Some th → pv (set_threads (<[t := set_status st th]> (threads s)) s) = pv s.
Proof. intros Ht. unfold pv. simpl. by rewrite (fmap_insert_same pthread_of _ _ _ _ Ht). Qed.

Lemma st_lookup s t th : threads s !! t = Some th → v_st (qv s) !! t = Some (status th).
Proof. intros Ht. simpl. by rewrite lookup_fmap, Ht. Qed.

Definition lv_del (t : Z) (v : lview) : lview := mk_lview (delete t (v_held v)) (v_holder v) (v_value v).
Definition pv_del (t : Z) (v : pview) : pview := mk_pview (delete t (v_pt v)) (v_conds v).

(** What a switch away from [c] keeps: everything, except that a dying thread is freed. *)
Definition switched (c : Z) (s s' : kstate) : Prop :=
  Qinv (qv s') ∧ running (qv s') ∧ idle_thread s' = idle_thread s ∧
  (∀ x, parked (qv s) x → parked (qv s') x) ∧
  ((lv s' = lv s ∧ pv s' = pv s) ∨
   (v_st (qv s) !! c = Some THREAD_DYING ∧ lv s' = lv_del c (lv s) ∧ pv s' = pv_del c (pv s))).

Lemma schedule_tail_inv s prev :
  Qinv (vset_st (cur s) THREAD_RUNNING (qv s)) → prev ≠ cur s →
  (v_st (qv s) !! cur s = Some THREAD_BLOCKED → cur s = idle_thread s) →
  pwp (thread_schedule_tail prev) s (λ _ s', switched prev s s').
Proof.
  intros HQ Hprev Hnb. unfold thread_schedule_tail, running_thread, intr_get_level. pwp_steps.
  apply pwp_upd_thread. intros th Hth. pwp_steps. set (s1 := set_threads _ s).
  assert (qv s1 = vset_st (cur s) THREAD_RUNNING (qv s)) as Hq1 by by apply qv_set_status.
  assert (lv s1 = lv s) as Hl1 by by apply lv_set_status.
  assert (pv s1 = pv s) as Hp1 by by apply pv_set_status.
  assert (∀ x, parked (qv s) x → x ≠ cur s) as Hpc.
  { intros x (Hx & _ & Hxi) ->. by apply Hxi, Hnb. }
  assert (∀ x, parked (qv s) x → parked (qv s1) x) as Hpk.
  { intros x Hx. pose proof (Hpc x Hx). rewrite Hq1. destruct Hx as (Hx & Hx' & Hxi).
    split_and!; [simpl; by rewrite lookup_insert_ne|by intros q Hq; apply (Hx' q)|done]. }
  assert (running (qv s1)) as Hrun1 by (rewrite Hq1; apply lookup_insert_eq).
  assert (switched prev s (set_thread_ticks 0 s1)) as Hno.
  { split_and!; [by change (Qinv (qv s1)); rewrite Hq1|done|done|done|left; done]. }
  case_bool_decide as Hpn; [|by pwp_step]. pwp_step. apply pwp_get_thread. intros p Hp. pwp_steps.
  case_match eqn:Hdy; [|by pwp_step].
  apply andb_true_iff in Hdy as [Hdy%bool_decide_eq_true_1 _]. pwp_steps. unfold palloc_free_page. pwp_steps.
  assert (threads s !! prev = Some p) as Hp' by (simpl in Hp; by rewrite lookup_insert_ne in Hp).
  split_and!.
  - pose proof (Q_delete (qv s1) prev) as HD. unfold qv in *. simpl in *. rewrite !fmap_delete.
    apply HD; [by rewrite Hq1|]. intros q Hq. rewrite Hq1 in Hq.
    apply (q_status _ HQ) in Hq. simpl in Hq. rewrite lookup_insert_ne, lookup_fmap, Hp' in Hq by done.
    simpl in Hq. destruct q; simpl in Hq; congruence.
  - unfold running, qv in *. simpl in *. rewrite fmap_delete, lookup_delete_ne by done. done.
  - done.
  - intros x Hx. pose proof (Hpk x Hx) as (Hx1 & Hx2 & Hx3). unfold parked, qv in *. simpl in *.
    split_and!; [|done|done]. rewrite fmap_delete, lookup_delete_ne; [done|].
    intros ->. destruct Hx as [Hx _]. rewrite lookup_fmap, Hp' in Hx. simpl in Hx. congruence.
  - right. split_and!; [simpl; rewrite lookup_fmap, Hp'; simpl; congruence| |].
    + unfold lv, lv_del in *. simpl in *. rewrite fmap_delete. by injection Hl1 as ->.
    + unfold pv, pv_del in *. simpl in *. rewrite fmap_delete. by injection Hp1 as ->.
Qed.

Lemma Qinv_not_running s :
  Qinv (qv s) → v_st (qv s) !! cur s ≠ Some THREAD_RUNNING → ∀ x, v_st (qv s) !! x ≠ Some THREAD_RUNNING.
Proof. intros HQ Hc x Hx. pose proof (q_running _ HQ x Hx) as ->. by apply Hc. Qed.

Lemma switched_trans c s s1 s2 :
  idle_thread s1 = idle_thread s → lv s1 = lv s → pv s1 = pv s →
  (v_st (qv s1) !! c = Some THREAD_DYING → v_st (qv s) !! c = Some THREAD_DYING) →
  (∀ x, parked (qv s) x → parked (qv s1) x) → switched c s1 s2 → switched c s s2.
Proof.
  intros Hi Hl Hp Hd Hpk (HQ & Hr & Hi' & Hpk' & Hc). split_and!; [done|done|congruence|by auto|].
  destruct Hc as [[-> ->]|(? & -> & ->)]; [left|right]; rewrite ?Hl, ?Hp; auto.
Qed.

Lemma pwp_is_thread t s (Q : bool → kstate → Prop) :
  (∀ b, (b = true → t ≠ NULL ∧ ∃ th, threads s !! t = Some th) → Q b s) → pwp (is_thread t) s Q.
Proof.
  intros HQ. unfold is_thread. case_bool_decide; [pwp_step; by apply HQ|].
  pwp_step. apply pwp_get_thread. intros th Hth. pwp_step. apply HQ. eauto.
Qed.

(** From the choice of the next thread on. *)
Lemma schedule_switch_inv s next :
  Qinv (vset_st next THREAD_RUNNING (vset_cur next (qv s))) → threads s !! NULL = None →
  (v_st (qv s) !! next = Some THREAD_BLOCKED → next = idle_thread s) →
  pwp (l ← intr_get_level; ASSERT (negb l);;
       th ← get_thread (cur s); ASSERT (bool_decide (status th ≠ THREAD_RUNNING));;
       b ← is_thread next; ASSERT b;;
       if bool_decide (cur s ≠ next)
       then modify (set_cur next);; thread_schedule_tail (cur s)
       else thread_schedule_tail NULL) s (λ _ s', switched (cur s) s s').
Proof.
  intros HQ H0 Hb. unfold intr_get_level. pwp_steps. apply pwp_get_thread. intros c Hc. pwp_steps.
  apply pwp_is_thread. intros b Hth. pwp_steps. destruct (Hth ltac:(done)) as [Hn _].
  destruct (decide (cur s = next)) as [Hne|Hne].
  2: { rewrite bool_decide_true by done. pwp_steps. by apply (schedule_tail_inv (set_cur next s)). }
  - rewrite bool_decide_false by auto. subst next. eapply pwp_mono; [apply schedule_tail_inv|].
    + replace (qv s) with (vset_cur (cur s) (qv s)) by done. done.
    + done.
    + done.
    + intros _ s' (? & ? & ? & ? & Hc'). split_and!; [done..|]. left.
      destruct Hc' as [?|[Hd _]]; [done|]. simpl in Hd. by rewrite lookup_fmap, H0 in Hd.
Qed.

(** [schedule] runs a ready thread, or the idle thread. *)
Lemma schedule_inv s :
  Qinv (qv s) → threads s !! NULL = None → v_st (qv s) !! cur s ≠ Some THREAD_RUNNING →
  pwp schedule s (λ _ s', switched (cur s) s s').
Proof.
  intros HQ H0 Hnr. pose proof (Qinv_not_running s HQ Hnr) as Hnr'.
  unfold schedule, running_thread, next_thread_to_run. do 5 pwp_step.
  destruct (max_elem _ _) as [t|] eqn:Hmax.
  - apply max_elem_Some in Hmax. do 3 pwp_step. set (s1 := set_ready_list _ s).
    eapply pwp_mono; [apply (schedule_switch_inv s1)|].
    + by apply (Q_dispatch (qv s)).
    + done.
    + intros Hb. pose proof (q_status _ HQ Ready _ Hmax) as Hst. simpl in *. congruence.
    + intros [] s' Hs'. eapply switched_trans; [..|exact Hs']; try done.
      intros x (Hx1 & Hx2 & Hx3). split_and!; [done| |done].
      change (qv s1) with (vset_queue Ready (remove_elem t (ready_list s)) (qv s)).
      apply no_queue_vset_queue_inv; [done|]. intros y.
      rewrite elem_of_remove_elem by apply (q_nodup _ HQ Ready). by intros [? _].
  - pwp_step. apply schedule_switch_inv; [|done|done].
    apply Q_status; [|apply (q_idle _ HQ)|done|done]. destruct HQ. split; try done. simpl.
    intros x Hx. by destruct (Hnr' x).
Qed.

(** What an operation of a running thread that may switch keeps. *)
Definition moved (s s' : kstate) : Prop :=
  Qinv (qv s') ∧ running (qv s') ∧ idle_thread s' = idle_thread s ∧
  (∀ x, parked (qv s) x → parked (qv s') x) ∧ pv s' = pv s.

Lemma same_moved s s' : same s s' → Qinv (qv s) → running (qv s) → moved s s'.
Proof.
  intros (Hq & Hl & Hp) HQ Hr. unfold moved. rewrite Hq. split_and!; try done.
  change (v_idle (qv s') = v_idle (qv s)). by rewrite Hq.
Qed.

Lemma moved_trans s1 s2 s3 : moved s1 s2 → moved s2 s3 → moved s1 s3.
Proof.
  intros (? & ? & ? & ? & ?) (? & ? & ? & ? & ?). split_and!; [done|done|congruence|auto|congruence].
Qed.

Lemma same_moved_trans s1 s2 s3 : qv s2 = qv s1 → pv s2 = pv s1 → moved s2 s3 → moved s1 s3.
Proof.
  intros Hq Hp (HQ & Hr & Hi & Hk & Hp'). unfold moved. rewrite <- Hp, <- Hq. split_and!; try done.
  rewrite Hi. change (v_idle (qv s2) = v_idle (qv s1)). by rewrite Hq.
Qed.
Lemma moved_same_trans s1 s2 s3 : moved s1 s2 → same s2 s3 → moved s1 s3.
Proof.
  intros Hm Hs. eapply moved_trans; [done|]. destruct Hm as (?&?&_). by apply same_moved.
Qed.

(** The switch of a thread that is not dying. *)
Lemma switched_moved s s1 s' c :
  switched c s1 s' → v_st (qv s1) !! c ≠ Some THREAD_DYING → idle_thread s1 = idle_thread s →
  lv s1 = lv s → pv s1 = pv s → (∀ x, parked (qv s) x → parked (qv s1) x) → moved s s' ∧ lv s' = lv s.
Proof.
  intros (HQ & Hr & Hi & Hk & Hc) Hd Hi1 Hl1 Hp1 Hk1.
  destruct Hc as [[Hl Hp]|[? _]]; [|done]. split; [|congruence]. split_and!; [done|done|congruence|auto|congruence].
Qed.

Lemma parked_not_running v x : parked v x → running v → x ≠ v_cur v.
Proof. intros [Hx _] Hr ->. unfold running in Hr. congruence. Qed.

Lemma parked_vset_st v t st x : parked v x → x ≠ t → parked (vset_st t st v) x.
Proof. intros (Hx & Hq & Hi) Hne. split_and!; [simpl; by rewrite lookup_insert_ne|done|done]. Qed.

Lemma thread_block_inv s :
  Qinv (vset_st (cur s) THREAD_BLOCKED (qv s)) → threads s !! NULL = None →
  pwp thread_block s (λ _ s', moved s s' ∧ lv s' = lv s).
Proof.
  intros HQ H0. unfold thread_block, intr_context, intr_get_level. pwp_steps.
  apply pwp_thread_current. intros Hr. pwp_steps. apply pwp_upd_thread. intros th Hth.
  set (s1 := set_threads _ s).
  assert (qv s1 = vset_st (cur s) THREAD_BLOCKED (qv s)) as Hq1 by by apply qv_set_status.
  eapply pwp_mono; [apply schedule_inv|].
  - by rewrite Hq1.
  - simpl. rewrite lookup_insert_ne; [done|]. intros E. by rewrite E, H0 in Hth.
  - rewrite Hq1. simpl. by rewrite lookup_insert_eq.
  - intros [] s' Hs'. eapply switched_moved; [exact Hs'| |done|by apply lv_set_status|by apply pv_set_status|].
    + rewrite Hq1. simpl. by rewrite lookup_insert_eq.
    + intros x Hx. rewrite Hq1. apply parked_vset_st; [done|]. by apply (parked_not_running _ _ Hx).
Qed.

(** The thread that [thread_unblock] makes ready. *)
Definition readied (t : Z) (v : qview) : qview :=
  vset_st t THREAD_READY (vset_ready (v_ready v ++ [t]) v).

Lemma Q_readied v t : Qinv v → no_queue v t → t ≠ v_idle v → Qinv (readied t v).
Proof.
  intros HQ Ht Hi. apply (Q_add v t Ready); [done..| |done]. simpl. by rewrite Permutation_app_comm.
Qed.
Lemma parked_readied v t x : parked v x → x ≠ t → parked (readied t v) x.
Proof.
  intros (Hx & Hq & Hi) Hne. apply parked_vset_st; [|done]. split_and!; [done| |done].
  apply (no_queue_vset_queue Ready); [done|]. pose proof (Hq Ready). simpl in *. set_solver.
Qed.

Lemma thread_unblock_inv s t :
  pwp (thread_unblock t) s (λ _ s', v_st (qv s) !! t = Some THREAD_BLOCKED ∧
    qv s' = readied t (qv s) ∧ lv s' = lv s ∧ pv s' = pv s).
Proof.
  unfold thread_unblock. pwp_steps. apply pwp_keeps; [apply keeps_is_thread|]. intros b s1 H1. pwp_steps.
  apply pwp_keeps; [apply keeps_intr_disable|]. intros l s2 H2. pwp_steps.
  apply pwp_get_thread. intros th Hth. pwp_steps. apply pwp_upd_thread. intros th' Hth'. pwp_steps.
  apply pwp_keeps; [apply keeps_intr_set_level|]. intros _ s3 (Hq3 & Hl3 & Hp3). pwp_steps.
  pose proof (same_trans _ _ _ H1 H2) as (Hq & Hl & Hp).
  assert (th' = th) as -> by (simpl in Hth'; congruence).
  rewrite <- Hq, <- Hl, <- Hp. split_and!.
  - rewrite (st_lookup _ _ _ Hth). f_equal. by eapply bool_decide_eq_true_1.
  - rewrite Hq3. by apply (qv_set_status (set_ready_list _ s2)).
  - rewrite Hl3. by apply (lv_set_status (set_ready_list _ s2)).
  - rewrite Hp3. by apply (pv_set_status (set_ready_list _ s2)).
Qed.

(** The pending statements a yield leaves. *)
Definition quiet (k : list stmt) : Prop := Forall (λ st, ∃ b, st = IntrSetLevel b) k.

Lemma thread_yield_inv s :
  Qinv (qv s) → running (qv s) → threads s !! NULL = None →
  pwp thread_yield s (λ k s', moved s s' ∧ lv s' = lv s ∧ quiet k).
Proof.
  intros HQ Hr H0. unfold thread_yield. pwp_steps. case_match.
  { pwp_step. split_and!; [by apply same_moved|done|by constructor]. }
  pwp_step. apply pwp_thread_current. intros _. unfold intr_context, intr_disable, intr_get_level. pwp_steps.
  assert (no_queue (qv s) (cur s)) as Hnq by by eapply running_no_queue.
  set (s2 := set_intr_on false s). change (idle_thread s2) with (idle_thread s).
  set (s3 := if bool_decide (cur s ≠ idle_thread s) then set_ready_list (ready_list s ++ [cur s]) s2 else s2).
  apply (pwp_mono _ _ (λ _ s', s' = s3)); [by subst s3; case_bool_decide|]. intros [] ? ->. pwp_step.
  assert (threads s3 = threads s ∧ cur s3 = cur s ∧ idle_thread s3 = idle_thread s ∧ lv s3 = lv s ∧ pv s3 = pv s)
    as (Ht3 & Hc3 & Hi3 & Hl3 & Hp3) by (subst s3; by case_bool_decide).
  apply pwp_upd_thread. intros th Hth. set (s4 := set_threads _ s3). pwp_step.
  assert (Qinv (qv s4) ∧ ∀ x, parked (qv s) x → parked (qv s4) x) as [HQ4 Hk4].
  { subst s4. rewrite qv_set_status by done. subst s3. case_bool_decide as Hi.
    - split; [by apply (Q_readied (qv s) (cur s))|].
      intros x Hx. apply (parked_readied (qv s)); [done|]. by apply (parked_not_running _ _ Hx).
    - split; [by apply (Q_status (qv s))|].
      intros x Hx. apply (parked_vset_st (qv s)); [done|]. by apply (parked_not_running _ _ Hx). }
  assert (v_st (qv s4) !! cur s4 = Some THREAD_READY) as Hc4.
  { subst s4. rewrite qv_set_status by done. simpl. rewrite Hc3. apply lookup_insert_eq. }
  eapply pwp_mono; [apply schedule_inv; [done| |by rewrite Hc4]|].
  - simpl. rewrite Ht3 in *. rewrite lookup_insert_ne; [done|]. intros E. by rewrite E, H0 in Hth.
  - intros [] s' Hs'. pwp_step. destruct (switched_moved s s4 s' (cur s4)) as [Hm Hl]; [done|by rewrite Hc4|done|..].
    + subst s4. by rewrite lv_set_status.
    + subst s4. by rewrite pv_set_status.
    + done.
    + split_and!; [done..|]. repeat constructor. by eexists.
Qed.

End Scheduler.

(** ** Semaphores and locks *)
Section Locks.
Context (lock_addr : Z → bool).
Notation plain := (plain lock_addr).
Notation Linv := (Linv lock_addr).
Notation stmt_ok := (stmt_ok lock_addr).

Definition lv_value (a x : Z) (v : lview) : lview := mk_lview (v_held v) (v_holder v) (<[a := x]> (v_value v)).

Lemma L_plain v a x : Linv v → plain a → Linv (lv_value a x v).
Proof.
  intros [H1 H2 H3 H4 H5] Ha. split; simpl; try done. intros l h Hl. destruct (H1 l h Hl) as [Hla Hv].
  split; [done|]. rewrite lookup_insert_ne; [done|]. intros ->. unfold ThreadInv.plain, lock_semaphore in Ha.
  replace (l + 4 - 4) with l in Ha by lia. congruence.
Qed.

Lemma lock_semaphore_inj l l' : lock_semaphore l = lock_semaphore l' ↔ l = l'.
Proof. unfold lock_semaphore. lia. Qed.

(** The lock [l] changes its holder from [h] to [h'], and the lists follow. *)
Lemma L_change v held' l h h' :
  Linv v → v_holder v !! l = Some h → held' !! NULL = None →
  (∀ t ls, held' !! t = Some ls → NoDup ls ∧ ∃ ls0, v_held v !! t = Some ls0 ∧
     ∀ l', l' ∈ ls ↔ (l' ≠ l ∧ l' ∈ ls0) ∨ (l' = l ∧ t = h')) →
  (∀ t, is_Some (v_held v !! t) → is_Some (held' !! t)) → (h' ≠ NULL → is_Some (v_held v !! h')) →
  Linv (mk_lview held' (<[l := h']> (v_holder v))
          (<[lock_semaphore l := if decide (h' = NULL) then 1 else 0]> (v_value v))).
Proof.
  intros [H1 H2 H3 H4 H5] Hl H0 Hls Hdom Hh'. split; simpl; [| | | |done].
  - intros l1 h1. destruct (decide (l1 = l)) as [->|Hne].
    + rewrite !lookup_insert_eq. intros [= <-]. split; [by eapply H1|done].
    + rewrite !lookup_insert_ne by (rewrite ?lock_semaphore_inj; done). apply H1.
  - intros l1 h1. destruct (decide (l1 = l)) as [->|Hne].
    + rewrite lookup_insert_eq. intros [= <-] Hn. destruct (Hdom h') as [ls Hls']; [by auto|].
      exists ls. split; [done|]. destruct (Hls _ _ Hls') as (_ & ls0 & _ & Hin). apply Hin. auto.
    + rewrite lookup_insert_ne by done. intros Hl1 Hn. destruct (H2 _ _ Hl1 Hn) as (ls0 & Hls0 & Hin0).
      destruct (Hdom h1) as [ls Hls']; [by eauto|]. exists ls. split; [done|].
      destruct (Hls _ _ Hls') as (_ & ls1 & Hls1 & Hin). simplify_eq. apply Hin. auto.
  - intros t ls l1 Ht Hin. destruct (Hls _ _ Ht) as (_ & ls0 & Hls0 & Hin0).
    rewrite Hin0 in Hin. destruct Hin as [[Hne Hin]|[El Et]]; [|subst; by rewrite lookup_insert_eq].
    rewrite lookup_insert_ne by done. by eapply H3.
  - intros t ls Ht. by apply (Hls t ls Ht).
Qed.

Lemma L_acquire v l t ls :
  Linv v → v_holder v !! l = Some NULL → v_held v !! t = Some ls →
  Linv (mk_lview (<[t := ls ++ [l]]> (v_held v)) (<[l := t]> (v_holder v)) (<[lock_semaphore l := 0]> (v_value v))).
Proof.
  intros HL Hl Hls. assert (t ≠ NULL) as Ht by (intros ->; by rewrite (l_null _ _ HL) in Hls).
  assert (∀ t' ls', v_held v !! t' = Some ls' → l ∉ ls') as Hnl.
  { intros t' ls' Hls' Hin. pose proof (l_held _ _ HL _ _ _ Hls' Hin) as E. rewrite Hl in E. simplify_eq.
    by rewrite (l_null _ _ HL) in Hls'. }
  pose proof (L_change v (<[t := ls ++ [l]]> (v_held v)) l NULL t HL Hl) as HC.
  rewrite decide_False in HC by done. apply HC.
  - rewrite lookup_insert_ne by done. by apply HL.
  - intros t' ls'. destruct (decide (t' = t)) as [->|].
    + rewrite lookup_insert_eq. intros [= <-]. split.
      * apply NoDup_app. split_and!; [by eapply l_nodup|intros x Hx ?%list_elem_of_singleton; subst; by eapply Hnl|].
        apply NoDup_singleton.
      * exists ls. split; [done|]. intros l'. specialize (Hnl _ _ Hls). set_solver.
    + rewrite lookup_insert_ne by done. intros Hls'. split; [by eapply l_nodup|]. exists ls'.
      split; [done|]. specialize (Hnl _ _ Hls'). set_solver.
  - intros t' Ht'. destruct (decide (t' = t)) as [->|]; [rewrite lookup_insert_eq; eauto|by rewrite lookup_insert_ne].
  - eauto.
Qed.

Lemma L_release v l t ls :
  Linv v → v_holder v !! l = Some t → v_held v !! t = Some ls →
  Linv (mk_lview (<[t := remove_elem l ls]> (v_held v)) (<[l := NULL]> (v_holder v)) (<[lock_semaphore l := 1]> (v_value v))).
Proof.
  intros HL Hl Hls. assert (t ≠ NULL) as Ht by (intros ->; by rewrite (l_null _ _ HL) in Hls).
  apply (L_change v (<[t := remove_elem l ls]> (v_held v)) l t NULL HL Hl); [| | |done].
  - rewrite lookup_insert_ne by done. by apply HL.
  - intros t' ls'. destruct (decide (t' = t)) as [->|].
    + rewrite lookup_insert_eq. intros [= <-]. pose proof (l_nodup _ _ HL _ _ Hls). split; [by apply remove_elem_NoDup|].
      exists ls. split; [done|]. intros l'. rewrite elem_of_remove_elem by done. naive_solver.
    + rewrite lookup_insert_ne by done. intros Hls'. split; [by eapply l_nodup|]. exists ls'. split; [done|].
      intros l'. split; [|intros [[_ ?]|[_ ->]]; [done|by rewrite (l_null _ _ HL) in Hls']].
      intros Hin. left. split; [|done]. intros ->.
      pose proof (l_held _ _ HL _ _ _ Hls' Hin). congruence.
  - intros t' Ht'. destruct (decide (t' = t)) as [->|]; [rewrite lookup_insert_eq; eauto|by rewrite lookup_insert_ne].
Qed.

(** A lock comes into being. *)
Lemma L_init v l :
  Linv v → v_holder v !! l = None → lock_addr l = true →
  Linv (mk_lview (v_held v) (<[l := NULL]> (v_holder v)) (<[lock_semaphore l := 1]> (v_value v))).
Proof.
  intros [H1 H2 H3 H4 H5] Hl Ha. split; simpl; [| | |done|done].
  - intros l1 h1. destruct (decide (l1 = l)) as [->|Hne].
    + rewrite !lookup_insert_eq. by intros [= <-].
    + rewrite !lookup_insert_ne by (rewrite ?lock_semaphore_inj; done). apply H1.
  - intros l1 h1 [[<- <-]|[_ ?]]%lookup_insert_Some ?; [done|by eapply H2].
  - intros t ls l1 Ht Hin. rewrite lookup_insert_ne; [by eapply H3|]. intros ->. by rewrite (H3 _ _ _ Ht Hin) in Hl.
Qed.

(** A thread that holds no lock comes and goes. *)
Lemma L_new v t : Linv v → v_held v !! t = None → t ≠ NULL → Linv (mk_lview (<[t := []]> (v_held v)) (v_holder v) (v_value v)).
Proof.
  intros [H1 H2 H3 H4 H5] Ht Hn. split; simpl; [done| | | |by rewrite lookup_insert_ne].
  - intros l h Hl Hh. destruct (H2 l h Hl Hh) as (ls & Hls & Hin). exists ls. split; [|done].
    rewrite lookup_insert_ne; [done|]. intros ->. congruence.
  - intros t' ls l [[<- <-]|[_ ?]]%lookup_insert_Some; [by intros ?%elem_of_nil|by eapply H3].
  - intros t' ls [[<- <-]|[_ ?]]%lookup_insert_Some; [constructor|by eapply H4].
Qed.
Lemma L_delete v t : Linv v → v_held v !! t = Some [] → Linv (lv_del t v).
Proof.
  intros [H1 H2 H3 H4 H5] Ht. split; simpl; [done| | | |].
  - intros l h Hl Hh. destruct (H2 l h Hl Hh) as (ls & Hls & Hin). exists ls. split; [|done].
    rewrite lookup_delete_ne; [done|]. intros ->. simplify_eq. by apply elem_of_nil in Hin.
  - intros t' ls l [_ ?]%lookup_delete_Some; by eapply H3.
  - intros t' ls [_ ?]%lookup_delete_Some; by eapply H4.
  - destruct (decide (t = NULL)) as [->|]; [by rewrite lookup_delete_eq|by rewrite lookup_delete_ne].
Qed.

End Locks.
