(* ===== verification/SynchInv.v ===== *)
(** * The operations keep the invariant of the threading system

    Semaphores, locks, condition variables, the life of a thread, the timer,
    and at the end the steps of the machine. *)

From S2P Require Import Prelude KList KState Thread Synch ThreadInv.
Local Open Scope Z_scope.

Section Operations.
Context (lock_addr : Z → bool).
Notation plain := (plain lock_addr).
Notation Linv := (Linv lock_addr).
Notation Pinv := (Pinv lock_addr).
Notation stmt_ok := (stmt_ok lock_addr).
Notation kinv := (kinv lock_addr).

(** The part of the invariant that concerns the running thread's operations. *)
Definition core (s : kstate) : Prop := Qinv (qv s) ∧ running (qv s) ∧ Linv (lv s).

(** What an operation establishes, with the statements it leaves pending. *)
Definition good (s s' : kstate) (k : list stmt) : Prop :=
  moved s s' ∧ Linv (lv s') ∧ Forall stmt_ok k ∧ targets k = [].

Lemma core_null s : core s → threads s !! NULL = None.
Proof. intros (_ & _ & HL). pose proof (l_null _ _ HL) as H. simpl in H. rewrite lookup_fmap in H. by destruct (threads s !! NULL). Qed.

Lemma core_same s s' : same s s' → core s → core s'.
Proof. intros (Hq & Hl & _). unfold core. by rewrite Hq, Hl. Qed.

Lemma moved_core s s' : moved s s' → Linv (lv s') → core s'.
Proof. intros (HQ & Hr & _) HL. done. Qed.

Lemma good_pre s s1 s2 k : qv s1 = qv s → pv s1 = pv s → good s1 s2 k → good s s2 k.
Proof. intros Hq Hp (Hm & HL & Hk & Ht). split_and!; [by eapply same_moved_trans|done..]. Qed.
Lemma good_post s s1 s2 k : good s s1 k → same s1 s2 → good s s2 k.
Proof.
  intros (Hm & HL & Hk & Ht) Hs. split_and!; [by eapply moved_same_trans| |done..].
  destruct Hs as (_ & -> & _). done.
Qed.
Lemma good_app s s' k k' :
  good s s' k → Forall stmt_ok k' → targets k' = [] → good s s' (k ++ k').
Proof.
  intros (Hm & HL & Hk & Ht) Hk' Ht'. split_and!; [done..|by apply Forall_app|].
  unfold targets in *. by rewrite omap_app, Ht, Ht'.
Qed.
Lemma good_nil s s' : same s s' → core s → good s s' [].
Proof.
  intros Hs (HQ & Hr & HL). split_and!; [by apply same_moved| |constructor|done].
  by destruct Hs as (_ & -> & _).
Qed.
Lemma quiet_ok k : quiet k → Forall stmt_ok k ∧ targets k = [].
Proof.
  induction 1 as [|st k [b ->] Hk [IH1 IH2]]; [split; [constructor|done]|].
  split; [by constructor|done].
Qed.

(** The views after an update of a semaphore. *)
Lemma qv_set_waiters s a sm w :
  qv (set_semas (<[a := set_waiters w sm]> (semas s)) s) = vset_wait a w (qv s).
Proof. unfold qv, vset_wait. simpl. by rewrite fmap_insert. Qed.
Lemma lv_set_waiters s a sm w :
  semas s !! a = Some sm → lv (set_semas (<[a := set_waiters w sm]> (semas s)) s) = lv s.
Proof. intros Ha. unfold lv. simpl. by rewrite (fmap_insert_same value _ _ _ _ Ha). Qed.
Lemma qv_set_value s a sm x :
  semas s !! a = Some sm → qv (set_semas (<[a := set_value x sm]> (semas s)) s) = qv s.
Proof. intros Ha. unfold qv. simpl. by rewrite (fmap_insert_same waiters _ _ _ _ Ha). Qed.
Lemma lv_set_value s a sm x :
  lv (set_semas (<[a := set_value x sm]> (semas s)) s) = lv_value a x (lv s).
Proof. unfold lv, lv_value. simpl. by rewrite fmap_insert. Qed.

Lemma core_cur s : core s → ∃ th, threads s !! cur s = Some th ∧ no_queue (qv s) (cur s).
Proof.
  intros (HQ & Hr & _). pose proof Hr as Hr'. unfold running in Hr'. simpl in Hr'. rewrite lookup_fmap in Hr'.
  destruct (threads s !! cur s) as [th|]; [|done]. exists th. split; [done|]. by eapply running_no_queue.
Qed.

(** ** Semaphores *)

(** The running thread waits: it goes on the queue and blocks. *)
Lemma wait_inv s a sm :
  core s → cur s ≠ idle_thread s → semas s !! a = Some sm →
  pwp thread_block (set_semas (<[a := set_waiters (waiters sm ++ [cur s]) sm]> (semas s)) s)
    (λ _ s', moved s s' ∧ lv s' = lv s).
Proof.
  intros Hcore Hi Ha. set (s1 := set_semas _ s). destruct (core_cur s Hcore) as (th & Hth & Hnq).
  pose proof Hcore as (HQ & Hr & HL).
  assert (qv s1 = vset_queue (Wait a) (waiters sm ++ [cur s]) (qv s)) as Hq1 by apply qv_set_waiters.
  assert (queue_of (qv s) (Wait a) = waiters sm) as Hw by (simpl; by rewrite lookup_fmap, Ha).
  eapply pwp_mono; [apply thread_block_inv|].
  - rewrite Hq1. apply (Q_add (qv s) (cur s) (Wait a)); [done..| |done].
    by rewrite Hw, Permutation_app_comm.
  - exact (core_null s Hcore).
  - intros [] s' [Hm Hl]. split; [|rewrite Hl; by apply lv_set_waiters].
    destruct Hm as (HQ' & Hr' & Hi' & Hk' & Hp'). split_and!; [done..| |done].
    intros x Hx. apply Hk'. rewrite Hq1. pose proof (parked_not_running _ _ Hx Hr).
    destruct Hx as (? & Hx & ?). split_and!; [done| |done]. apply no_queue_vset_queue; [done|].
    pose proof (Hx (Wait a)) as Hx'. rewrite Hw in Hx'. simpl in *. set_solver.
Qed.

Lemma sema_wait_inv s a old k :
  core s → cur s ≠ idle_thread s → stmt_ok (SemaLoop a old k) → ∀ sm, semas s !! a = Some sm →
  pwp (t ← thread_current;
       upd_sema a (λ sm, set_waiters (waiters sm ++ [t]) sm);;
       thread_block;;
       ret [SemaLoop a old k]) s (λ r s', good s s' r).
Proof.
  intros Hcore Hi Hok sm Ha. pwp_step. apply pwp_thread_current. intros _. pwp_step. apply pwp_upd_sema.
  intros sm' Ha'. pwp_step. eapply pwp_mono; [by apply wait_inv|]. intros [] s' [Hm Hl]. pwp_step.
  split_and!; [done|rewrite Hl; by destruct Hcore as (_&_&?)|by repeat constructor|done].
Qed.

Lemma sema_down_plain_inv s a old :
  core s → cur s ≠ idle_thread s → plain a →
  pwp (sema_down_loop a old Return) s (λ r s', good s s' r).
Proof.
  intros Hcore Hi Hp. unfold sema_down_loop. pwp_step. apply pwp_get_sema. intros sm Ha. case_bool_decide.
  - by eapply sema_wait_inv.
  - pwp_step. apply pwp_upd_sema. intros sm' Ha'. pwp_step. set (s1 := set_semas _ s).
    apply pwp_keeps; [apply keeps_intr_set_level|]. intros _ s2 H2. simpl. pwp_step.
    eapply good_post; [|exact H2].
    assert (qv s1 = qv s) as Hq by by apply qv_set_value. destruct Hcore as (HQ & Hr & HL).
    apply (good_pre s s1); [done|done|]. apply good_nil; [done|]. split_and!; [by rewrite Hq..|].
    subst s1. rewrite lv_set_value. by apply L_plain.
Qed.

(** The lock passes to the thread whose [sema_down] succeeds. *)
Lemma lock_acquire_tail_inv s l old :
  Qinv (qv s) → running (qv s) →
  (∀ ls, v_held (lv s) !! cur s = Some ls →
     Linv (mk_lview (<[cur s := ls ++ [l]]> (v_held (lv s))) (<[l := cur s]> (v_holder (lv s))) (v_value (lv s)))) →
  pwp (lock_acquire_tail l old) s (λ r s', good s s' r).
Proof.
  intros HQ Hr HL. unfold lock_acquire_tail, running_thread. do 3 pwp_step. apply pwp_upd_lock. intros lk Hl.
  pwp_step. apply pwp_upd_thread. intros th Hth. set (s1 := set_threads _ _). simpl in Hth.
  assert (qv s1 = qv s) as Hq1.
  { unfold qv. simpl. by rewrite (fmap_insert_same status _ _ _ _ Hth), (fmap_insert_same wakeup_time _ _ _ _ Hth). }
  assert (pv s1 = pv s) as Hp1 by (unfold pv; simpl; by rewrite (fmap_insert_same pthread_of _ _ _ _ Hth)).
  assert (core s1) as Hcore1.
  { split_and!; [by rewrite Hq1..|]. specialize (HL (lock_list th)). simpl in HL. rewrite lookup_fmap, Hth in HL.
    specialize (HL eq_refl). unfold lv. simpl. by rewrite !fmap_insert. }
  pwp_step. apply pwp_keeps; [apply keeps_adjust_priority|]. intros _ s2 H2. pwp_step.
  apply pwp_keeps; [by apply keeps_upd_thread|]. intros _ s3 H3. pwp_step.
  apply pwp_keeps; [apply keeps_intr_set_level|]. intros _ s4 H4. pwp_step.
  apply (good_pre s s1); [done|done|]. apply good_nil; [|done]. repeat (eapply same_trans; [eassumption|]). done.
Qed.

Lemma sema_down_lock_inv s l old old' :
  core s → cur s ≠ idle_thread s →
  pwp (sema_down_loop (lock_semaphore l) old (LockTail l old')) s (λ r s', good s s' r).
Proof.
  intros Hcore Hi. unfold sema_down_loop. pwp_step. apply pwp_get_sema. intros sm Ha. case_bool_decide as Hv.
  - by eapply sema_wait_inv.
  - pwp_step. apply pwp_upd_sema. intros sm' Ha'. assert (sm' = sm) as -> by congruence.
    pwp_step. set (s1 := set_semas _ s). apply pwp_keeps; [apply keeps_intr_set_level|].
    intros _ s2 (Hq2 & Hl2 & Hp2). simpl.
    assert (qv s1 = qv s) as Hq1 by by apply qv_set_value. destruct Hcore as (HQ & Hr & HL).
    assert (cur s2 = cur s) as Hc by (change (v_cur (qv s2) = v_cur (qv s)); by rewrite Hq2, Hq1).
    apply (pwp_mono _ _ (λ r s', good s2 s' r)); [|intros r s' Hg; apply (good_pre s s2); [congruence|done|done]].
    destruct (locks s !! l) as [lk|] eqn:Hl.
    2: { unfold lock_acquire_tail, running_thread. do 3 pwp_step. apply pwp_upd_lock. intros lk Hlk.
         exfalso. assert (v_holder (lv s2) !! l = Some (holder lk)) as E by (simpl; by rewrite lookup_fmap, Hlk).
         rewrite Hl2 in E. simpl in E. by rewrite lookup_fmap, Hl in E. }
    assert (v_holder (lv s) !! l = Some (holder lk)) as Hh by (simpl; by rewrite lookup_fmap, Hl).
    destruct (l_value _ _ HL _ _ Hh) as [_ Hval]. simpl in Hval. rewrite lookup_fmap, Ha in Hval. simpl in Hval.
    destruct (decide (holder lk = NULL)) as [Hn|]; [|congruence]. injection Hval as Hval. rewrite Hn in Hh.
    apply lock_acquire_tail_inv; [by rewrite Hq2, Hq1..|]. rewrite Hc, Hl2. subst s1. rewrite lv_set_value, Hval.
    intros ls Hls. by apply (L_acquire lock_addr (lv s)).
Qed.

(** A waiting thread is made ready. *)
Lemma Q_wake v t q :
  Qinv v → q ≠ Ready → t ∈ queue_of v q →
  let v' := readied t (vset_queue q (remove_elem t (queue_of v q)) v) in
  Qinv v' ∧ (running v → running v') ∧ (∀ x, parked v x → parked v' x) ∧ v_idle v' = v_idle v.
Proof.
  intros HQ Hq Ht v'. destruct (Q_remove v t q HQ Hq Ht) as [HQ1 Hnq].
  assert (t ≠ v_idle v) as Hi by (intros ->; by eapply (q_idle _ HQ)).
  split_and!.
  - apply Q_readied; [done|done|by destruct q].
  - intros Hr. pose proof (q_status _ HQ _ _ Ht) as Hst. unfold running in *.
    assert (v_cur v ≠ t) by (intros E; rewrite E, Hst in Hr; by destruct q).
    subst v'. destruct q; simpl in *; by rewrite lookup_insert_ne.
  - intros x Hx. assert (x ≠ t) by (intros ->; by apply Hx in Ht). apply parked_readied; [|done].
    destruct Hx as (Hx1 & Hx2 & Hx3). split_and!; [by destruct q| |by destruct q].
    apply no_queue_vset_queue_inv; [done|]. intros y.
    rewrite elem_of_remove_elem by by apply q_nodup. by intros [? _].
  - by destruct q.
Qed.

(** Readying the waiter of highest priority, if there is one. *)
Lemma wake_waiter_inv s a sm :
  Qinv (qv s) → running (qv s) → semas s !! a = Some sm →
  pwp (match max_elem (less_thread_priority s) (waiters sm) with
       | Some t =>
           upd_sema a (λ sm, set_waiters (remove_elem t (waiters sm)) sm);;
           thread_unblock t
       | None => ret tt
       end) s (λ _ s', moved s s' ∧ lv s' = lv s).
Proof.
  intros HQ Hr Ha. destruct (max_elem _ _) as [t|] eqn:Hmax; [|pwp_step; split; [by apply same_moved|done]].
  apply max_elem_Some in Hmax. pwp_step. apply pwp_upd_sema. intros sm' Ha'.
  assert (sm' = sm) as -> by congruence. set (s1 := set_semas _ s).
  eapply pwp_mono; [apply thread_unblock_inv|]. intros [] s' (_ & Hq & Hl & Hp).
  assert (queue_of (qv s) (Wait a) = waiters sm) as Hw by (simpl; by rewrite lookup_fmap, Ha).
  destruct (Q_wake (qv s) t (Wait a)) as (HQ' & Hr' & Hk' & Hi'); [done|done|by rewrite Hw|].
  rewrite Hw in *. subst s1. rewrite qv_set_waiters in Hq. rewrite lv_set_waiters in Hl by done.
  change (vset_wait _ _ _) with (vset_queue (Wait a) (remove_elem t (waiters sm)) (qv s)) in Hq.
  split; [|done]. unfold moved. rewrite Hq. split_and!; [done|by apply Hr'| |done|done].
  change (v_idle (qv s') = v_idle (qv s)). by rewrite Hq.
Qed.

Lemma sema_up_inv s a :
  Qinv (qv s) → running (qv s) → threads s !! NULL = None →
  pwp (sema_up a) s (λ k s', moved s s' ∧ quiet k ∧
    ∃ x, v_value (lv s) !! a = Some x ∧ lv s' = lv_value a (u32 (x + 1)) (lv s)).
Proof.
  intros HQ Hr H0. unfold sema_up, intr_disable, intr_get_level. do 7 pwp_step.
  set (s0 := set_intr_on false s). pwp_steps. apply pwp_get_sema. intros sm Ha. pwp_step.
  eapply pwp_mono; [by apply (wake_waiter_inv s0)|]. intros [] s1 [Hm1 Hl1].
  pwp_step. apply pwp_upd_sema. intros sm1 Ha1. set (s2 := set_semas _ s1). pwp_step.
  assert (qv s2 = qv s1) as Hq2 by by apply qv_set_value.
  apply pwp_keeps; [apply keeps_intr_set_level|]. intros _ s3 (Hq3 & Hl3 & Hp3). unfold intr_context. pwp_steps.
  assert (moved s s3) as Hm3.
  { destruct Hm1 as (? & ? & Hi & ? & ?). unfold moved. rewrite Hq3, Hq2. split_and!; [done..| |done|by rewrite Hp3].
    change (idle_thread s) with (idle_thread s0). rewrite <- Hi. change (v_idle (qv s3) = v_idle (qv s1)). congruence. }
  assert (∃ x, v_value (lv s) !! a = Some x ∧ lv s3 = lv_value a (u32 (x + 1)) (lv s)) as (x & Hx & Hl).
  { exists (value sm1). split; [|rewrite Hl3; subst s2; rewrite lv_set_value, Hl1; done].
    change (lv s) with (lv s0). rewrite <- Hl1. simpl. by rewrite lookup_fmap, Ha1. }
  case_match; [|pwp_step; split_and!; [done|constructor|eauto]].
  eapply pwp_mono; [apply thread_yield_inv|].
  - apply Hm3.
  - apply Hm3.
  - assert (v_held (lv s3) !! NULL = None) as E by (rewrite Hl; simpl; by rewrite lookup_fmap, H0).
    simpl in E. rewrite lookup_fmap in E. by destruct (threads s3 !! NULL).
  - intros k s4 (Hm4 & Hl4 & Hk). split_and!; [by eapply moved_trans|done|]. exists x. by rewrite Hl4.
Qed.

Lemma same_cur s s' : same s s' → cur s' = cur s ∧ idle_thread s' = idle_thread s.
Proof.
  intros (Hq & _). split; [change (v_cur (qv s') = v_cur (qv s))|change (v_idle (qv s') = v_idle (qv s))];
    by rewrite Hq.
Qed.

(** An operation that starts by keeping the views. *)
Lemma good_start s s1 s2 k : same s s1 → good s1 s2 k → good s s2 k.
Proof. intros (? & _ & ?). by apply good_pre. Qed.

Lemma sema_down_inv s a :
  core s → cur s ≠ idle_thread s → plain a → pwp (sema_down a Return) s (λ k s', good s s' k).
Proof.
  intros Hcore Hi Ha. unfold sema_down, intr_context. pwp_steps.
  apply pwp_keeps; [apply keeps_intr_disable|]. intros old s1 H1. pose proof (same_cur _ _ H1) as [Hc1 Hi1].
  eapply pwp_mono; [apply sema_down_plain_inv; [by eapply core_same|congruence|done]|].
  intros k s2 Hg. by eapply good_start.
Qed.

Lemma sema_up_plain_inv s a : core s → plain a → pwp (sema_up a) s (λ k s', good s s' k).
Proof.
  intros Hcore Ha. pose proof Hcore as (HQ & Hr & HL). eapply pwp_mono; [apply sema_up_inv; [done..|by apply core_null]|].
  intros k s' (Hm & Hk & x & _ & Hl). destruct (quiet_ok k Hk). split_and!; [done| |done..].
  rewrite Hl. by apply L_plain.
Qed.

(** The effect of [sema_try_down] on the views. *)
Lemma sema_try_down_inv s a :
  pwp (sema_try_down a) s (λ b s', qv s' = qv s ∧ pv s' = pv s ∧
    if b then ∃ x, v_value (lv s) !! a = Some x ∧ 0 < x ∧ lv s' = lv_value a (x - 1) (lv s) else lv s' = lv s).
Proof.
  unfold sema_try_down, intr_disable, intr_get_level. do 7 pwp_step. set (s0 := set_intr_on false s). pwp_steps.
  apply pwp_get_sema. intros sm Ha. clear H. pwp_step. case_bool_decide; pwp_step.
  - apply pwp_upd_sema. intros sm' Ha'. assert (sm' = sm) as -> by congruence. pwp_steps.
    set (s1 := set_semas _ s0). assert (qv s1 = qv s) as Hq1 by by apply (qv_set_value s0).
    assert (lv s1 = lv_value a (value sm - 1) (lv s)) as Hl1 by apply (lv_set_value s0).
    apply pwp_keeps; [apply keeps_intr_set_level|]. intros _ s3 (Hq3 & Hl3 & Hp3). pwp_step.
    split_and!; [congruence|done|]. exists (value sm). split_and!; [|lia|congruence].
    simpl in Ha. simpl. by rewrite lookup_fmap, Ha.
  - pwp_step. apply pwp_keeps; [apply keeps_intr_set_level|]. intros _ s3 (Hq3 & Hl3 & Hp3). by pwp_step.
Qed.

Lemma sema_try_down_plain_inv s a : core s → plain a → pwp (sema_try_down a) s (λ _ s', good s s' []).
Proof.
  intros (HQ & Hr & HL) Ha. eapply pwp_mono; [apply sema_try_down_inv|]. intros b s' (Hq & Hp & Hl).
  apply (good_pre s s'); [done|done|]. apply good_nil; [done|]. split_and!; [by rewrite Hq..|].
  destruct b; [destruct Hl as (x & _ & _ & ->); by apply L_plain|by rewrite Hl].
Qed.

Lemma pwp_held l s (Q : bool → kstate → Prop) :
  (∀ lk, locks s !! l = Some lk → running (qv s) → Q (bool_decide (holder lk = cur s)) s) →
  pwp (lock_held_by_current_thread l) s Q.
Proof.
  intros HQ. unfold lock_held_by_current_thread. pwp_steps. apply pwp_get_lock. intros lk Hl. pwp_step.
  apply pwp_thread_current. intros Hr. pwp_step. by apply HQ.
Qed.

Lemma lock_acquire_inv s l :
  core s → cur s ≠ idle_thread s → pwp (lock_acquire l) s (λ k s', good s s' k).
Proof.
  intros Hcore Hi. unfold lock_acquire, intr_context. pwp_steps. apply pwp_keeps; [apply keeps_held|].
  intros h s1 E1. pwp_steps. apply pwp_keeps; [apply keeps_intr_disable|]. intros old s2 E2. pwp_step.
  apply pwp_keeps; [apply keeps_thread_current|]. intros t s3 E3. pwp_step.
  apply pwp_keeps; [by apply keeps_upd_thread|]. intros _ s4 E4. pwp_step.
  apply pwp_keeps; [apply keeps_flush_priority|]. intros _ s5 E5. unfold sema_down, intr_context. pwp_steps.
  apply pwp_keeps; [apply keeps_intr_disable|]. intros old' s6 E6.
  assert (same s s6) as E06 by (repeat (eapply same_trans; [eassumption|]); done).
  pose proof (same_cur _ _ E06) as [Hc6 Hi6].
  eapply pwp_mono; [apply sema_down_lock_inv; [by eapply core_same|congruence]|].
  intros k s7 Hg. by eapply good_start.
Qed.

(** Updates of the holder of a lock and of the list of held locks. *)
Lemma lock_update_views s l h t th ls :
  threads s !! t = Some th →
  let s' := set_threads (<[t := set_lock_list ls th]> (threads s)) (set_locks (<[l := h]> (locks s)) s) in
  qv s' = qv s ∧ pv s' = pv s ∧
  lv s' = mk_lview (<[t := ls]> (v_held (lv s))) (<[l := holder h]> (v_holder (lv s))) (v_value (lv s)).
Proof.
  intros Ht. unfold qv, pv, lv. simpl. split_and!.
  - by rewrite (fmap_insert_same status _ _ _ _ Ht), (fmap_insert_same wakeup_time _ _ _ _ Ht).
  - by rewrite (fmap_insert_same pthread_of _ _ _ _ Ht).
  - by rewrite !fmap_insert.
Qed.

Lemma lock_try_acquire_inv s l : core s → pwp (lock_try_acquire l) s (λ _ s', good s s' []).
Proof.
  intros Hcore. unfold lock_try_acquire. pwp_steps. apply pwp_keeps; [apply keeps_held|].
  intros h s1 E1. pwp_steps. apply pwp_keeps; [apply keeps_intr_disable|]. intros old s2 E2. pwp_step.
  apply pwp_thread_current. intros _. pwp_step.
  pose proof (same_trans _ _ _ E1 E2) as E02. pose proof (core_same _ _ E02 Hcore) as Hcore2.
  eapply pwp_mono; [apply sema_try_down_inv|]. intros b s3 (Hq3 & Hp3 & Hl3). pwp_step.
  apply (pwp_mono _ _ (λ _ s', good s2 s' [])).
  - destruct b; [|pwp_step; apply (good_pre s2 s3); [done|done|apply good_nil; [done|]];
                  unfold core; by rewrite Hq3, Hl3].
    destruct Hl3 as (x & Hx & Hpos & Hl3). pwp_step. apply pwp_upd_lock. intros lk Hl. pwp_step.
    apply pwp_upd_thread. intros th Hth. simpl in Hth. set (s4 := set_threads _ _).
    destruct (lock_update_views s3 l (set_holder (cur s2) lk) (cur s2) th (lock_list th ++ [l]) Hth)
      as (Hq4 & Hp4 & Hl4).
    destruct Hcore2 as (HQ & Hr & HL).
    assert (v_holder (lv s2) !! l = Some (holder lk)) as Hh.
    { replace (v_holder (lv s2)) with (v_holder (lv s3)) by by rewrite Hl3. simpl. by rewrite lookup_fmap, Hl. }
    destruct (l_value _ _ HL _ _ Hh) as [_ Hval]. rewrite Hx in Hval.
    destruct (decide (holder lk = NULL)) as [Hn|]; [|injection Hval; lia]. injection Hval as ->. rewrite Hn in Hh.
    assert (v_held (lv s2) !! cur s2 = Some (lock_list th)) as Hls.
    { replace (v_held (lv s2)) with (v_held (lv s3)) by by rewrite Hl3. simpl. by rewrite lookup_fmap, Hth. }
    apply pwp_keeps; [apply keeps_adjust_priority|]. intros _ s5 E5. eapply good_post; [|exact E5].
    change (qv s4 = qv s3) in Hq4. change (pv s4 = pv s3) in Hp4.
    apply (good_pre s2 s4); [congruence..|]. apply good_nil; [done|].
    split_and!; [by rewrite Hq4, Hq3..|].
    change (lv s4 = mk_lview (<[cur s2 := lock_list th ++ [l]]> (v_held (lv s3)))
      (<[l := cur s2]> (v_holder (lv s3))) (v_value (lv s3))) in Hl4. rewrite Hl4, Hl3.
    by apply (L_acquire lock_addr (lv s2)).
  - intros [] s5 Hg. pwp_step. apply pwp_keeps; [apply keeps_intr_set_level|]. intros _ s6 E6. pwp_step.
    eapply good_start; [exact E02|]. by eapply good_post.
Qed.

Lemma lock_release_inv s l : core s → pwp (lock_release l) s (λ k s', good s s' k).
Proof.
  intros Hcore. unfold lock_release. pwp_steps. apply pwp_held. intros lk Hl Hr. pwp_steps.
  assert (holder lk = cur s) as Hh by by eapply bool_decide_eq_true_1.
  unfold intr_disable, intr_get_level. pwp_steps. set (s1 := set_intr_on false s).
  apply pwp_get_lock. intros lk' Hl'. assert (lk' = lk) as -> by (simpl in Hl'; congruence). pwp_step.
  apply pwp_upd_lock. intros lk' Hl2. assert (lk' = lk) as -> by (simpl in Hl2; congruence). pwp_step.
  apply pwp_upd_thread. intros th Hth. simpl in Hth. rewrite Hh in Hth. pwp_step.
  destruct Hcore as (HQ & _ & HL).
  destruct (lock_update_views s1 l (set_holder NULL lk) (cur s) th (remove_elem l (lock_list th)) Hth)
    as (Hq2 & Hp2 & Hl2v). rewrite Hh. set (s2 := set_threads _ (set_locks _ s1)).
  change (qv s2 = qv s) in Hq2. change (pv s2 = pv s) in Hp2.
  change (lv s2 = mk_lview (<[cur s := remove_elem l (lock_list th)]> (v_held (lv s)))
    (<[l := NULL]> (v_holder (lv s))) (v_value (lv s))) in Hl2v.
  apply pwp_keeps; [apply keeps_adjust_priority|]. intros _ s3 (Hq3 & Hl3 & Hp3). pwp_step.
  assert (v_holder (lv s) !! l = Some (cur s)) as Hholder by (simpl; by rewrite lookup_fmap, Hl, <- Hh).
  assert (v_held (lv s) !! cur s = Some (lock_list th)) as Hheld by (simpl; by rewrite lookup_fmap, Hth).
  assert (cur s ≠ NULL) as Hn by (intros E; by rewrite E, (l_null _ _ HL) in Hheld).
  eapply pwp_mono; [apply sema_up_inv|].
  - rewrite Hq3, Hq2. done.
  - rewrite Hq3, Hq2. done.
  - assert (v_held (lv s3) !! NULL = None) as E
      by (rewrite Hl3, Hl2v; simpl; rewrite lookup_insert_ne by done; by apply (l_null _ _ HL)).
    simpl in E. rewrite lookup_fmap in E. by destruct (threads s3 !! NULL).
  - intros k s4 (Hm & Hk & x & Hx & Hl4). pwp_step. destruct (quiet_ok k Hk).
    apply good_app; [|by repeat constructor|done].
    apply (good_pre s s3); [by rewrite Hq3, Hq2|by rewrite Hp3, Hp2|]. split_and!; [done| |done..].
    destruct (l_value _ _ HL _ _ Hholder) as [_ Hval]. rewrite decide_False in Hval by done.
    rewrite Hl3, Hl2v in Hx. simpl in Hx. simpl in Hval. rewrite Hval in Hx. injection Hx as <-.
    rewrite Hl4, Hl3, Hl2v. by apply (L_release lock_addr (lv s)).
Qed.

Lemma moved_good s s' k : core s → moved s s' → lv s' = lv s → quiet k → good s s' k.
Proof. intros (_ & _ & HL) Hm Hl Hk. destruct (quiet_ok k Hk). split_and!; [done|by rewrite Hl|done|done]. Qed.

Lemma yield_inv s : core s → pwp thread_yield s (λ k s', good s s' k).
Proof.
  intros Hcore. pose proof Hcore as (HQ & Hr & _).
  eapply pwp_mono; [apply thread_yield_inv; [done..|by apply core_null]|].
  intros k s' (? & ? & ?). by apply moved_good.
Qed.

Lemma set_priority_inv s p : core s → pwp (thread_set_priority p) s (λ k s', good s s' k).
Proof.
  intros Hcore. unfold thread_set_priority. pwp_step.
  apply pwp_keeps; [apply keeps_intr_disable|]. intros old s1 E1. pwp_step.
  apply pwp_keeps; [apply keeps_thread_current|]. intros t s2 E2. pwp_step.
  apply pwp_keeps; [by apply keeps_upd_thread|]. intros _ s3 E3. pwp_step.
  apply pwp_keeps; [apply keeps_adjust_priority|]. intros _ s4 E4. pwp_step.
  apply pwp_keeps; [apply keeps_intr_set_level|]. intros _ s5 E5.
  assert (same s s5) as E05 by (repeat (eapply same_trans; [eassumption|]); done).
  eapply pwp_mono; [apply yield_inv; by eapply core_same|]. intros k s6 Hg. by eapply good_start.
Qed.

(** ** Sleeping *)
Lemma Q_wakeup v t w :
  Qinv v → no_queue v t →
  Qinv (mk_qview (v_st v) (<[t := w]> (v_wake v)) (v_ready v) (v_sleep v) (v_wait v) (v_idle v) (v_cur v)).
Proof.
  intros [Hn Hs He Hr Hc Hi Hw] Ht. split; try done. simpl.
  eapply Sorted_key_ext; [|exact Hw]. intros x Hx. unfold wake_of. simpl. rewrite lookup_insert_ne; [done|].
  intros ->. by eapply (Ht Sleep).
Qed.

(** The running thread goes on the sleep list and blocks. *)
Lemma go_to_sleep_inv s w th :
  core s → cur s ≠ idle_thread s → threads s !! cur s = Some th →
  let s1 := set_threads (<[cur s := set_wakeup_time w th]> (threads s)) s in
  pwp thread_block (set_sleep_list (ordered_insert (less_sleep s1) (cur s) (sleep_list s)) s1)
    (λ _ s', moved s s' ∧ lv s' = lv s).
Proof.
  intros Hcore Hi Hth s1. set (s2 := set_sleep_list _ s1). destruct (core_cur s Hcore) as (_ & _ & Hnq).
  destruct Hcore as (HQ & Hr & HL). pose proof (core_null s ltac:(done)) as H0.
  pose proof (Q_wakeup (qv s) (cur s) w HQ Hnq) as HQ1.
  assert (qv s1 = mk_qview (v_st (qv s)) (<[cur s := w]> (v_wake (qv s))) (v_ready (qv s)) (v_sleep (qv s))
    (v_wait (qv s)) (v_idle (qv s)) (v_cur (qv s))) as Hq1.
  { unfold qv. simpl. rewrite (fmap_insert_same status _ _ _ _ Hth) by done. by rewrite fmap_insert. }
  rewrite <- Hq1 in HQ1. assert (no_queue (qv s1) (cur s)) as Hnq1 by by rewrite Hq1.
  assert (qv s2 = vset_queue Sleep (ordered_insert (less_sleep s1) (cur s) (sleep_list s)) (qv s1)) as Hq2 by done.
  eapply pwp_mono; [apply thread_block_inv|].
  - rewrite Hq2. apply (Q_add (qv s1) (cur s) Sleep); [done..|apply ordered_insert_Permutation|].
    intros _. eapply Sorted_key_ext; [intros x _; apply thread_wakeup_view|]. apply ordered_insert_Sorted; [apply _|].
    eapply Sorted_key_ext; [intros x _; symmetry; apply thread_wakeup_view|]. apply (q_sleep _ HQ1).
  - simpl. rewrite lookup_insert_ne; [done|]. intros E. by rewrite E, H0 in Hth.
  - assert (lv s2 = lv s ∧ pv s2 = pv s) as [Hl2 Hp2].
    { unfold lv, pv. simpl. by rewrite (fmap_insert_same lock_list _ _ _ _ Hth), (fmap_insert_same pthread_of _ _ _ _ Hth). }
    intros [] s' [(HQ' & Hr' & Hi' & Hk' & Hp') Hl]. split; [|congruence].
    split_and!; [done..| |congruence]. intros x Hx. apply Hk'. rewrite Hq2.
    pose proof (parked_not_running _ _ Hx Hr). destruct Hx as (Hx1 & Hx2 & Hx3).
    split_and!; [by simpl; rewrite (fmap_insert_same status _ _ _ _ Hth)| |done].
    apply no_queue_vset_queue; [by rewrite Hq1|]. rewrite ordered_insert_Permutation.
    pose proof (Hx2 Sleep) as Hx'. simpl in *. set_solver.
Qed.

Lemma thread_sleep_inv s w :
  core s → cur s ≠ idle_thread s → pwp (thread_sleep w) s (λ k s', good s s' k).
Proof.
  intros Hcore Hi. unfold thread_sleep. pwp_step.
  apply pwp_keeps; [apply keeps_intr_disable|]. intros old s1 E1. pose proof (same_cur _ _ E1) as [Hc1 Hi1].
  pwp_step. apply pwp_thread_current. intros _. pwp_step. apply pwp_upd_thread. intros th Hth. pwp_steps.
  eapply pwp_mono; [apply (go_to_sleep_inv s1); [by eapply core_same|congruence|done]|].
  intros [] s2 [Hm Hl]. pwp_step. eapply good_start; [exact E1|].
  apply moved_good; [by eapply core_same|done|done|]. repeat constructor. by eexists.
Qed.

Lemma timer_sleep_inv s n :
  core s → cur s ≠ idle_thread s → pwp (timer_sleep n) s (λ k s', good s s' k).
Proof.
  intros Hcore Hi. unfold timer_sleep, intr_get_level. pwp_steps. apply pwp_keeps; [apply keeps_timer_ticks|].
  intros t s1 E1. pose proof (same_cur _ _ E1) as [Hc1 Hi1].
  eapply pwp_mono; [apply thread_sleep_inv; [by eapply core_same|congruence]|].
  intros k s2 Hg. by eapply good_start.
Qed.

Lemma thread_alarm_loop_inv n s now :
  Qinv (qv s) → running (qv s) → pwp (thread_alarm_loop n now) s (λ _ s', moved s s' ∧ lv s' = lv s).
Proof.
  revert s. induction n as [|n IH]; intros s HQ Hr; simpl; [pwp_step|]. pwp_steps.
  assert (moved s s) by by apply same_moved. destruct (sleep_list s) as [|t rest] eqn:Hsl; [by pwp_step|].
  pwp_step. apply pwp_get_thread. intros th Hth. case_bool_decide; [|by pwp_step]. pwp_steps.
  eapply pwp_mono; [apply thread_unblock_inv|]. intros [] s2 (_ & Hq & Hl & Hp).
  assert (queue_of (qv s) Sleep = t :: rest) as Hqs by done.
  destruct (Q_wake (qv s) t Sleep) as (HQ' & Hr' & Hk' & Hi'); [done|done|rewrite Hqs; set_solver|].
  rewrite Hqs in *. simpl in HQ', Hr', Hk', Hi'. rewrite decide_True in HQ', Hr', Hk' by done.
  change (qv (set_sleep_list rest s)) with (vset_sleep rest (qv s)) in Hq.
  eapply pwp_mono; [apply IH; rewrite Hq; auto|]. intros [] s3 [Hm3 Hl3]. split; [|by rewrite Hl3].
  eapply moved_trans; [|exact Hm3]. unfold moved. rewrite Hq. split_and!; auto.
  change (v_idle (qv s2) = v_idle (qv s)). by rewrite Hq.
Qed.

(** ** The timer interrupt *)
Lemma intr_handler_inv s :
  core s → pwp intr_handler s (λ k s', good s s' k ∧ Forall idle_stmt k).
Proof.
  intros Hcore. unfold intr_handler, intr_context, timer_interrupt, thread_alarm, intr_get_level. pwp_steps.
  set (s1 := set_ticks _ _). destruct Hcore as (HQ & Hr & HL).
  eapply pwp_mono; [apply (thread_alarm_loop_inv _ s1); done|]. intros [] s2 [Hm2 Hl2].
  apply pwp_keeps; [apply keeps_thread_tick|]. intros _ s3 E3. pwp_steps.
  assert (good s s3 []) as Hg3.
  { eapply good_post; [|exact E3]. apply moved_good; [done|done|done|constructor]. }
  apply (pwp_mono _ _ (λ k s', good s s' k ∧ quiet k)).
  - case_match; [|pwp_step; split; [done|constructor]]. destruct Hg3 as (Hm3 & HL3 & _).
    assert (core s3) as Hc3 by by apply (moved_core s s3). set (s4 := set_in_external_intr false s3).
    eapply pwp_mono; [apply (thread_yield_inv s4); [apply Hc3|apply Hc3|by apply (core_null s3)]|].
    intros k s5 (Hm5 & Hl5 & Hk). split; [|done]. destruct (quiet_ok k Hk).
    split_and!; [by apply (moved_trans s s3)|by rewrite Hl5|done|done].
  - intros k s4 [Hg Hk]. pwp_step. split; [apply good_app; [done|by repeat constructor|done]|].
    apply Forall_app. split; [|by repeat constructor]. eapply Forall_impl; [exact Hk|]. by intros ? [b ->].
Qed.

(** The idle thread blocks without going on a queue. *)
Lemma idle_loop_inv s : core s → pwp idle_loop s (λ k s', moved s s' ∧ lv s' = lv s ∧ k = [StiHlt; IdleLoop]).
Proof.
  intros Hcore. unfold idle_loop, intr_disable, intr_get_level. pwp_steps. set (s1 := set_intr_on false s).
  destruct (core_cur s Hcore) as (th & Hth & Hnq).
  eapply pwp_mono; [apply (thread_block_inv s1)|].
  - apply (Q_status (qv s)); try done. apply Hcore.
  - exact (core_null s Hcore).
  - intros [] s2 [Hm Hl]. by pwp_step.
Qed.

(** ** Operations that change the stacks and the memory *)

(** The state keeps the invariant and the stack of the idle thread. *)
Definition steady (s s' : kstate) : Prop :=
  kinv s' ∧ idle_thread s' = idle_thread s ∧
  (∀ p, v_pt (pv s') !! idle_thread s = Some p →
     ∃ p0, v_pt (pv s) !! idle_thread s = Some p0 ∧ p_pending p = p_pending p0).

Lemma steady_trans s1 s2 s3 : steady s1 s2 → steady s2 s3 → steady s1 s3.
Proof.
  intros (_ & Hi & Hp) (HK & Hi' & Hp'). split_and!; [done|congruence|]. rewrite Hi in Hp'.
  intros p (p1 & Hp1 & ->)%Hp'. by apply Hp.
Qed.
Lemma kinv_core s : kinv s → core s.
Proof. intros []. by split_and!. Qed.

Lemma moved_steady s s' : kinv s → moved s s' → Linv (lv s') → steady s s'.
Proof.
  intros [HQ HL HP HT Hr] (HQ' & Hr' & Hi & Hk & Hp) HL'. split_and!; [split|done|].
  - done.
  - done.
  - by rewrite Hp, Hi.
  - rewrite Hp. intros t p x Ht Hx. apply Hk. by eapply HT.
  - done.
  - rewrite Hp. eauto.
Qed.
Lemma good_steady s s' k : kinv s → good s s' k → steady s s'.
Proof. intros HK (Hm & HL & _). by apply moved_steady. Qed.
Lemma same_steady s s' : kinv s → same s s' → steady s s'.
Proof. intros HK Hs. eapply good_steady; [done|]. apply good_nil; [done|by apply kinv_core]. Qed.

(** A computation that keeps the invariant. *)
Definition safe {A} (c : M kstate A) (s : kstate) (Q : A → kstate → Prop) : Prop :=
  pwp c s (λ a s', steady s s' ∧ Q a s').

Lemma safe_bind {A B} (c : M kstate A) (f : A → M kstate B) s P Q :
  safe c s P → (∀ a s', steady s s' → P a s' → safe (f a) s' Q) → safe (bind c f) s Q.
Proof.
  intros Hc Hf. apply pwp_bind. eapply pwp_mono; [exact Hc|]. intros a s1 [H1 HP].
  eapply pwp_mono; [by apply Hf|]. intros b s2 [H2 HQ]. split; [by eapply steady_trans|done].
Qed.
Lemma safe_keeps {A} (c : M kstate A) s : kinv s → keeps c → safe c s (λ _ s', same s s').
Proof. intros HK Hc. apply pwp_keeps; [done|]. intros a s' Hs. split; [by apply same_steady|done]. Qed.
Lemma safe_good s (c : M kstate (list stmt)) :
  kinv s → pwp c s (λ k s', good s s' k) → safe c s (λ k _, Forall stmt_ok k ∧ targets k = []).
Proof.
  intros HK Hc. eapply pwp_mono; [exact Hc|]. intros k s' Hg. split; [exact (good_steady s s' k HK Hg)|]. by destruct Hg as (_ & _ & ?).
Qed.

(** Emptying the queue of a semaphore. *)
Lemma Q_clear v w a :
  Qinv v → (∀ a', default [] (w !! a') = if decide (a' = a) then [] else default [] (v_wait v !! a')) →
  let v' := mk_qview (v_st v) (v_wake v) (v_ready v) (v_sleep v) w (v_idle v) (v_cur v) in
  Qinv v' ∧ ∀ x, parked v x → parked v' x.
Proof.
  intros [Hn Hs He Hr Hc Hi Hw] Hwt v'.
  assert (∀ q x, x ∈ queue_of v' q → x ∈ queue_of v q) as Hin.
  { intros [| |a'] x; simpl; try done. rewrite Hwt. case_decide; [by intros ?%elem_of_nil|done]. }
  split; [split; try done|].
  - intros [| |a']; [apply (Hn Ready)|apply (Hn Sleep)|]. simpl. rewrite Hwt.
    case_decide; [constructor|apply (Hn (Wait a'))].
  - intros q x Hx%Hin. by apply Hs.
  - intros q q' x Hx%Hin Hx'%Hin. by eapply He.
  - intros q Hx%Hin. by eapply Hi.
  - intros x (Hx1 & Hx2 & Hx3). split_and!; [done| |done]. intros q Hx%Hin. by eapply Hx2.
Qed.

(** A semaphore that is not part of a lock is initialised or freed. *)
Lemma semas_steady s m a :
  kinv s → plain a → (∀ a', a' ≠ a → m !! a' = semas s !! a') →
  default [] (waiters <$> m !! a) = [] → steady s (set_semas m s).
Proof.
  intros [HQ HL HP HT Hr] Ha Hm Hwa.
  destruct (Q_clear (qv s) (waiters <$> m) a HQ) as [HQ' Hk].
  { intros a'. simpl. rewrite !lookup_fmap. case_decide; [by subst|by rewrite Hm]. }
  split_and!; [split|done|eauto]; [done| |done| |done].
  - destruct HL as [H1 H2 H3 H4 H5]. split; simpl in *; try done. intros l h Hl.
    destruct (H1 l h Hl) as [Hla Hv]. split; [done|]. rewrite lookup_fmap, Hm, <- lookup_fmap; [done|].
    intros E. unfold ThreadInv.plain in Ha. rewrite <- E in Ha. unfold lock_semaphore in Ha.
    replace (l + 4 - 4) with l in Ha by lia. congruence.
  - intros t p x Ht Hx. apply Hk. by eapply HT.
Qed.

Lemma sema_init_safe s a v :
  kinv s → plain a →
  safe (sema_init a v) s (λ _ s', pv s' = pv s ∧ ∀ x, parked (qv s) x → parked (qv s') x).
Proof.
  intros HK Ha. unfold safe, sema_init. pwp_steps. split; [|split; [done|]].
  2: { apply (Q_clear (qv s) (waiters <$> <[a := mk_semaphore v []]> (semas s)) a); [apply HK|].
       intros a'. simpl. rewrite fmap_insert.
       destruct (decide (a' = a)) as [->|]; [by rewrite lookup_insert_eq|by rewrite lookup_insert_ne]. }
  apply (semas_steady s _ a); [done..| |].
  - intros a' Hne. by rewrite lookup_insert_ne.
  - by rewrite lookup_insert_eq.
Qed.

Lemma free_pnode_safe s p : kinv s → plain (pnode_sema p) → safe (free_pnode p) s (λ _ s', threads s' = threads s ∧ cur s' = cur s).
Proof.
  intros HK Ha. unfold safe, free_pnode. pwp_steps. split; [|done].
  apply (semas_steady (set_pnodes _ s) _ (pnode_sema p)); [by destruct HK|done| |].
  - intros a' Hne. by rewrite lookup_delete_ne.
  - by rewrite lookup_delete_eq.
Qed.

Lemma lock_init_safe s l :
  kinv s → locks s !! l = None → lock_addr l = true → safe (lock_init l) s (λ _ _, True).
Proof.
  intros HK Hl Ha. unfold safe, lock_init, sema_init. pwp_steps. split; [|done]. set (s' := set_semas _ _).
  destruct HK as [HQ HL HP HT Hr].
  destruct (Q_clear (qv s) (waiters <$> semas s') (lock_semaphore l) HQ) as [HQ' Hk].
  { intros a'. subst s'. simpl. rewrite fmap_insert.
    destruct (decide (a' = lock_semaphore l)) as [->|]; [by rewrite lookup_insert_eq|by rewrite lookup_insert_ne]. }
  split_and!; [split|done|eauto]; [done| |done| |done].
  - unfold lv. subst s'. simpl. rewrite !fmap_insert. apply (L_init lock_addr (lv s)); [done| |done].
    simpl. by rewrite lookup_fmap, Hl.
  - intros t p x Ht Hx. apply Hk. by eapply HT.
Qed.

(** The stack part of a thread is replaced. *)
Definition pthread_ok (v : pview) (idle t : Z) (p : pthread) : Prop :=
  Forall stmt_ok (p_pending p) ∧ (∀ n, n ∈ p_nodes p → plain (pnode_sema n)) ∧
  (t ≠ NULL ∧ p_magic p = THREAD_MAGIC) ∧ (t = idle → Forall idle_stmt (p_pending p)) ∧
  NoDup (targets (p_pending p)) ∧
  (∀ x t' p', t' ≠ t → v_pt v !! t' = Some p' → x ∈ targets (p_pending p) → x ∉ targets (p_pending p')).

Lemma P_update v idle t p :
  Pinv v idle → pthread_ok v idle t p → Pinv (mk_pview (<[t := p]> (v_pt v)) (v_conds v)) idle.
Proof.
  intros [H1 H2 H3 H4 H5 H6 H7] (K1 & K2 & K3 & K4 & K5 & K6). split; simpl.
  - intros t' p' [[<- <-]|[_ ?]]%lookup_insert_Some; [done|by eapply H1].
  - intros t' p' n [[<- <-]|[_ ?]]%lookup_insert_Some; [by apply K2|by eapply H2].
  - intros t' p' [[<- <-]|[_ ?]]%lookup_insert_Some; [done|by eapply H3].
  - intros p' [[E <-]|[_ ?]]%lookup_insert_Some; [by apply K4|by apply H4].
  - done.
  - intros t' p' [[<- <-]|[_ ?]]%lookup_insert_Some; [done|by eapply H6].
  - intros t1 t2 p1 p2 x [[<- <-]|[? ?]]%lookup_insert_Some [[<- <-]|[? ?]]%lookup_insert_Some Hx1 Hx2; try done.
    + exfalso. by eapply (K6 x t2 p2).
    + exfalso. by eapply (K6 x t1 p1).
    + by eapply H7.
Qed.

Lemma thread_update_steady s t th' :
  kinv s → Qinv (qv (set_threads (<[t := th']> (threads s)) s)) →
  running (qv (set_threads (<[t := th']> (threads s)) s)) →
  Linv (lv (set_threads (<[t := th']> (threads s)) s)) →
  pthread_ok (pv s) (idle_thread s) t (pthread_of th') →
  (∀ x, parked (qv s) x → parked (qv (set_threads (<[t := th']> (threads s)) s)) x) →
  (∀ x, x ∈ targets (pending th') → parked (qv (set_threads (<[t := th']> (threads s)) s)) x) →
  (t = idle_thread s → ∃ th, threads s !! t = Some th ∧ pending th' = pending th) →
  steady s (set_threads (<[t := th']> (threads s)) s).
Proof.
  intros [HQ HL HP HT Hr] HQ' Hr' HL' Hok Hk Hx Hi. set (s' := set_threads _ s) in *.
  assert (pv s' = mk_pview (<[t := pthread_of th']> (v_pt (pv s))) (v_conds (pv s))) as Hpv.
  { unfold pv. simpl. by rewrite fmap_insert. }
  split_and!; [split|done|].
  - done.
  - done.
  - rewrite Hpv. by apply P_update.
  - rewrite Hpv. intros t' p x. simpl. intros [[<- <-]|[_ Ht']]%lookup_insert_Some Hx'; [by apply Hx|].
    apply Hk. by eapply HT.
  - done.
  - rewrite Hpv. intros p. simpl. intros [[E <-]|[_ ?]]%lookup_insert_Some; [|by eauto].
    destruct (Hi E) as (th & Hth & Hpe). exists (pthread_of th). rewrite <- E, lookup_fmap, Hth. by split.
Qed.

(** Updates that change only the nodes of the process tree. *)
Lemma nodes_steady s t th th' :
  kinv s → threads s !! t = Some th → status th' = status th → wakeup_time th' = wakeup_time th →
  lock_list th' = lock_list th → pending th' = pending th → magic th' = magic th →
  (∀ n, n ∈ p_nodes (pthread_of th') → plain (pnode_sema n)) →
  steady s (set_threads (<[t := th']> (threads s)) s).
Proof.
  intros HK Ht E1 E2 E3 E4 E5 Hn. pose proof HK as [HQ HL HP HT Hr].
  assert (qv (set_threads (<[t := th']> (threads s)) s) = qv s) as Hq.
  { unfold qv. simpl. by rewrite (fmap_insert_same status _ _ _ _ Ht), (fmap_insert_same wakeup_time _ _ _ _ Ht). }
  assert (lv (set_threads (<[t := th']> (threads s)) s) = lv s) as Hl.
  { unfold lv. simpl. by rewrite (fmap_insert_same lock_list _ _ _ _ Ht). }
  assert (v_pt (pv s) !! t = Some (pthread_of th)) as Hp by (simpl; by rewrite lookup_fmap, Ht).
  apply thread_update_steady; rewrite ?Hq, ?Hl; try done.
  - unfold pthread_ok. simpl. rewrite E4, E5. split_and!; [by apply (p_stmts _ _ _ HP t (pthread_of th))|done|..].
    + by destruct (p_thread _ _ _ HP _ _ Hp).
    + by destruct (p_thread _ _ _ HP _ _ Hp).
    + intros ->. by apply (p_idle _ _ _ HP) in Hp.
    + by apply (p_once _ _ _ HP) in Hp.
    + intros x t' p' Hne Hp' Hx Hx'. apply Hne. by eapply (p_disj _ _ _ HP).
  - intros x Hx. rewrite E4 in Hx. by eapply HT.
  - intros _. eauto.
Qed.

(** ** Condition variables *)
Definition kgood (k : list stmt) : Prop := Forall stmt_ok k ∧ targets k = [].

Lemma kgood_app k k' : kgood k → kgood k' → kgood (k ++ k').
Proof.
  intros [H1 H2] [H3 H4]. split; [by apply Forall_app|]. unfold targets in *. by rewrite omap_app, H2, H4.
Qed.

Lemma steady_kinv s s' : steady s s' → kinv s'.
Proof. by intros [? _]. Qed.

Lemma safe_ret {A} (a : A) s (Q : A → kstate → Prop) : kinv s → Q a s → safe (ret a) s Q.
Proof. intros HK HQ. split; [by apply same_steady|done]. Qed.
Lemma safe_mono {A} (c : M kstate A) s (P Q : A → kstate → Prop) :
  safe c s P → (∀ a s', steady s s' → P a s' → Q a s') → safe c s Q.
Proof. intros Hc HPQ. eapply pwp_mono; [exact Hc|]. intros a s' [Hs HP]. split; [done|by apply HPQ]. Qed.
Lemma safe_keeps_bind {A B} (c : M kstate A) (f : A → M kstate B) s Q :
  kinv s → keeps c → (∀ a s', kinv s' → same s s' → safe (f a) s' Q) → safe (bind c f) s Q.
Proof.
  intros HK Hc Hf. eapply safe_bind; [by apply safe_keeps|]. intros a s' Hst Hs. apply Hf; [by eapply steady_kinv|done].
Qed.
Lemma safe_fail {A} f s (Q : A → kstate → Prop) : safe (fail f) s Q.
Proof. done. Qed.

Lemma conds_steady s c ws :
  kinv s → (∀ w, w ∈ ws → plain (elem_semaphore w)) → steady s (set_conds (<[c := ws]> (conds s)) s).
Proof.
  intros [HQ HL HP HT Hr] Hws. split_and!; [split; try done|done|eauto].
  destruct HP as [H1 H2 H3 H4 H5 H6 H7]. split; try done. simpl.
  intros c' ws' w [[<- <-]|[_ ?]]%lookup_insert_Some; [by apply Hws|by eapply H5].
Qed.

Lemma get_cond_safe s c :
  kinv s → safe (get_cond c) s (λ ws s', s' = s ∧ ∀ w, w ∈ ws → plain (elem_semaphore w)).
Proof.
  intros HK. unfold safe, get_cond. pwp_steps. split_and!; [by apply same_steady|done|].
  intros w Hw. destruct HK as [_ _ HP _ _]. by eapply (p_conds _ _ _ HP).
Qed.
Lemma set_cond_safe s c ws :
  kinv s → (∀ w, w ∈ ws → plain (elem_semaphore w)) → safe (set_cond c ws) s (λ _ _, True).
Proof. intros HK Hws. unfold safe, set_cond. pwp_steps. split; [|done]. by apply conds_steady. Qed.

Lemma keeps_intr_context : keeps intr_context.
Proof. unfold intr_context. auto with keeps. Qed.

(** Runs an operation that keeps the views. *)
Ltac safe_keep :=
  lazymatch goal with
  | HK : ThreadInv.kinv _ ?s |- safe (bind _ _) ?s _ =>
      apply safe_keeps_bind;
      [ exact HK
      | first [ apply keeps_intr_context | solve [auto with keeps nocore]
              | by apply keeps_modify | by apply keeps_upd_thread ]
      | clear HK; intros ? ? HK ? ]
  end.

Lemma cond_wait_safe s c l w :
  kinv s → plain (elem_semaphore w) → safe (cond_wait c l w) s (λ k _, kgood k).
Proof.
  intros HK Hw. unfold cond_wait. do 6 safe_keep.
  eapply safe_bind; [by apply sema_init_safe|]. clear HK. intros [] s5 HK%steady_kinv _. do 2 safe_keep.
  eapply safe_bind; [by apply get_cond_safe|]. clear HK. intros ws s8 HK%steady_kinv [_ Hws].
  eapply safe_bind; [apply set_cond_safe; [done|set_solver]|]. clear HK. intros [] s9 HK%steady_kinv _.
  eapply safe_bind; [apply safe_good; [done|apply lock_release_inv, kinv_core; done]|].
  intros k s10 HK10%steady_kinv Hk. apply safe_ret; [done|]. apply kgood_app; [done|].
  split; [by repeat constructor|done].
Qed.

Lemma cond_signal_safe s c l : kinv s → safe (cond_signal c l) s (λ k _, kgood k).
Proof.
  intros HK. unfold cond_signal. do 7 safe_keep.
  eapply safe_bind; [by apply get_cond_safe|]. clear HK. intros ws s8 HK%steady_kinv [_ Hws].
  destruct (max_elem _ _) as [w|] eqn:Hmax; [|by apply safe_ret; [|split; [constructor|]]].
  apply max_elem_Some in Hmax.
  eapply safe_bind; [apply set_cond_safe; [done|]|].
  - intros w' Hw'. apply Hws. rewrite (remove_elem_Permutation w ws) by done. set_solver.
  - intros [] s9 HK9%steady_kinv _. apply safe_good; [done|].
    apply sema_up_plain_inv; [by apply kinv_core|by apply Hws].
Qed.

Lemma cond_broadcast_safe s c l : kinv s → safe (cond_broadcast c l) s (λ k _, kgood k).
Proof.
  intros HK. unfold cond_broadcast. do 2 safe_keep.
  eapply safe_bind; [by apply get_cond_safe|]. intros ws s3 HK3%steady_kinv [_ Hws].
  destruct ws; [by apply safe_ret; [|split; [constructor|]]|].
  eapply safe_bind; [by apply cond_signal_safe|]. intros k s4 HK4%steady_kinv Hk. apply safe_ret; [done|].
  apply kgood_app; [done|]. split; [by repeat constructor|done].
Qed.

(** ** Creation *)

(** Nobody is creating [t]. *)
Definition untargeted (v : pview) (t : Z) : Prop :=
  ∀ u p, v_pt v !! u = Some p → t ∉ targets (p_pending p).

Lemma init_thread_safe s t nm prio :
  kinv s → threads s !! t = None → t ≠ idle_thread s →
  safe (init_thread t nm prio) s (λ _ s', parked (qv s') t ∧ untargeted (pv s') t).
Proof.
  intros HK Ht Hi. unfold init_thread, safe. pwp_steps. set (th := {| tid := 0 |}).
  assert (t ≠ NULL) as Hn by by eapply bool_decide_eq_true_1.
  set (s1 := set_threads _ s). pose proof HK as [HQ HL HP HT Hr].
  assert (v_st (qv s) !! t = None) as Hst by (simpl; by rewrite lookup_fmap, Ht).
  assert (no_queue (qv s) t) as Hnq by (intros q Hq%(q_status _ HQ); congruence).
  assert (qv s1 = vset_st t THREAD_BLOCKED (mk_qview (v_st (qv s)) (<[t := 0]> (v_wake (qv s))) (v_ready (qv s))
    (v_sleep (qv s)) (v_wait (qv s)) (v_idle (qv s)) (v_cur (qv s)))) as Hq1.
  { unfold qv, vset_st. simpl. by rewrite !fmap_insert. }
  assert (parked (qv s1) t) as Hpk by (rewrite Hq1; split_and!; [apply lookup_insert_eq|done|done]).
  assert (untargeted (pv s) t) as Hunt.
  { intros u p Hu Hx. destruct (HT u p t Hu Hx) as [? _]. congruence. }
  assert (steady s s1) as Hs1.
  { apply thread_update_steady; try done; fold s1.
    - rewrite Hq1. apply Q_status; [by apply Q_wakeup|done|done|done].
    - rewrite Hq1. unfold running in *. simpl in *. rewrite lookup_insert_ne; [done|]. intros ->. congruence.
    - assert (lv s1 = mk_lview (<[t := []]> (v_held (lv s))) (v_holder (lv s)) (v_value (lv s))) as ->
        by (unfold lv; simpl; by rewrite fmap_insert).
      apply L_new; [done| |done]. simpl. by rewrite lookup_fmap, Ht.
    - split_and!; simpl; try first [done|by constructor|set_solver].
    - intros x Hx. rewrite Hq1. apply parked_vset_st; [done|]. intros ->. destruct Hx as [? _]. congruence.
    - by intros x ?%elem_of_nil. }
  unfold intr_disable, intr_get_level. pwp_steps. set (s2 := set_all_list _ _).
  apply pwp_keeps; [apply keeps_intr_set_level|]. intros _ s3 E3. pwp_step.
  assert (same s1 s3) as E13 by exact E3. pose proof E13 as (Hq3 & _ & Hp3). split; [|rewrite Hq3, Hp3; split; [done|]].
  - eapply steady_trans; [exact Hs1|]. by apply same_steady; [eapply steady_kinv|].
  - intros u p. unfold pv, s1. simpl. rewrite fmap_insert.
    intros [[<- <-]|[_ Hu]]%lookup_insert_Some; [by intros ?%elem_of_nil|by eapply Hunt].
Qed.

(** A thread on its way to its first run. *)
Definition newborn (s : kstate) (t : Z) : Prop := parked (qv s) t ∧ untargeted (pv s) t.

Lemma newborn_same s s' t : same s s' → newborn s t → newborn s' t.
Proof. intros (Hq & _ & Hp). unfold newborn. by rewrite Hq, Hp. Qed.

(** An update of [nodes_steady] keeps the newborn threads. *)
Lemma nodes_newborn s u th th' t :
  threads s !! u = Some th → status th' = status th → wakeup_time th' = wakeup_time th →
  pending th' = pending th → newborn s t → newborn (set_threads (<[u := th']> (threads s)) s) t.
Proof.
  intros Ht E1 E2 E3 [Hpk Hun]. split.
  - assert (qv (set_threads (<[u := th']> (threads s)) s) = qv s) as ->; [|done].
    unfold qv. simpl. by rewrite (fmap_insert_same status _ _ _ _ Ht), (fmap_insert_same wakeup_time _ _ _ _ Ht).
  - intros u' p. unfold pv. simpl. rewrite fmap_insert. intros [[<- <-]|[_ Hu]]%lookup_insert_Some; [|by eapply Hun].
    simpl. rewrite E3. change (pending th) with (p_pending (pthread_of th)). apply (Hun u).
    simpl. by rewrite lookup_fmap, Ht.
Qed.

Lemma elem_of_nodes th n :
  n ∈ p_nodes (pthread_of th) ↔ (n = pn th ∧ pn th ≠ NULL) ∨ n ∈ child_list th.
Proof. unfold pthread_of. cbn -[decide]. destruct (decide (pn th = NULL)); set_solver. Qed.

Lemma child_nodes_ok s u th n :
  kinv s → threads s !! u = Some th → n ∈ p_nodes (pthread_of th) → plain (pnode_sema n).
Proof.
  intros [_ _ HP _ _] Hu Hn. eapply (p_plain _ _ _ HP u (pthread_of th)); [|done]. simpl. by rewrite lookup_fmap, Hu.
Qed.

(** The new thread gets its stack and becomes ready. *)
Lemma publish_safe s t :
  kinv s → newborn s t →
  safe (upd_thread t (set_pending [KernelThread]);; thread_unblock t;; thread_yield) s (λ k _, kgood k).
Proof.
  intros HK [Hpk Hun]. eapply (safe_bind _ _ _ (λ _ s', newborn s' t)).
  - unfold safe. apply pwp_upd_thread. intros th Ht. set (th' := set_pending _ th).
    assert (qv (set_threads (<[t := th']> (threads s)) s) = qv s) as Hq'.
    { unfold qv. simpl. by rewrite (fmap_insert_same status _ _ _ _ Ht), (fmap_insert_same wakeup_time _ _ _ _ Ht). }
    assert (lv (set_threads (<[t := th']> (threads s)) s) = lv s) as Hl'.
    { unfold lv. simpl. by rewrite (fmap_insert_same lock_list _ _ _ _ Ht). }
    pose proof HK as [HQ HL HP HT Hr]. split; [apply thread_update_steady; rewrite ?Hq', ?Hl'; try done|].
    + assert (v_pt (pv s) !! t = Some (pthread_of th)) as Hp by (simpl; by rewrite lookup_fmap, Ht).
      destruct (p_thread _ _ _ HP _ _ Hp) as [? ?].
      split_and!; simpl; try first [done|by repeat constructor|set_solver].
      * intros n Hn. by eapply child_nodes_ok.
      * intros ->. by destruct Hpk as (_ & _ & []).
    + set_solver.
    + intros ->. by destruct Hpk as (_ & _ & []).
    + split; [by rewrite Hq'|]. intros u p. unfold pv. simpl. rewrite fmap_insert.
      intros [[<- <-]|[_ Hu]]%lookup_insert_Some; [set_solver|by eapply Hun].
  - clear HK Hpk Hun. intros [] s1 HK%steady_kinv [Hpk Hun]. pose proof HK as [HQ HL HP HT Hr].
    eapply (safe_bind _ _ _ (λ _ _, True)).
    + unfold safe. eapply pwp_mono; [apply thread_unblock_inv|]. intros [] s2 (Hb & Hq & Hl & Hp).
      destruct Hpk as (Hst & Hnq & Hi).
      assert (idle_thread s2 = idle_thread s1) as Hi2 by (change (v_idle (qv s2) = v_idle (qv s1)); by rewrite Hq).
      split; [|done]. split_and!; [split|done|rewrite Hp; by eauto].
      * rewrite Hq. by apply Q_readied.
      * by rewrite Hl.
      * by rewrite Hp, Hi2.
      * rewrite Hq, Hp. intros u p x Hu Hx. apply parked_readied; [by eapply HT|]. intros ->. by eapply Hun.
      * rewrite Hq. unfold running in *. simpl in *. rewrite lookup_insert_ne; [done|]. intros ->. congruence.
    + intros [] s2 HK2%steady_kinv _. apply safe_good; [done|]. by apply yield_inv, kinv_core.
Qed.

Lemma safe_newborn_keeps {A B} (c : M kstate A) (f : A → M kstate B) s t Q :
  kinv s → newborn s t → keeps c →
  (∀ a s', kinv s' → newborn s' t → safe (f a) s' Q) → safe (bind c f) s Q.
Proof.
  intros HK Hn Hc Hf. apply safe_keeps_bind; [done..|]. intros a s' HK' Hs. apply Hf; [done|]. by eapply newborn_same.
Qed.
Lemma safe_newborn_nodes {B} u g (f : unit → M kstate B) s t Q :
  kinv s → newborn s t →
  (∀ th, status (g th) = status th ∧ wakeup_time (g th) = wakeup_time th ∧ lock_list (g th) = lock_list th ∧
         pending (g th) = pending th ∧ magic (g th) = magic th) →
  (∀ th n, threads s !! u = Some th → n ∈ p_nodes (pthread_of (g th)) → plain (pnode_sema n)) →
  (∀ s', kinv s' → newborn s' t → safe (f tt) s' Q) → safe (bind (upd_thread u g) f) s Q.
Proof.
  intros HK Hn Hg Hpl Hf. eapply (safe_bind _ _ _ (λ _ s', newborn s' t)).
  - unfold safe. apply pwp_upd_thread. intros th Ht. destruct (Hg th) as (?&?&?&?&?).
    split; [|by eapply nodes_newborn]. eapply nodes_steady; eauto.
  - intros [] s' Hs Hn'. apply Hf; [by eapply steady_kinv|done].
Qed.

Lemma thread_create_tail_safe s t p :
  kinv s → newborn s t → plain (pnode_sema p) → safe (thread_create_tail t p []) s (λ k _, kgood k).
Proof.
  intros HK Hn Hp. unfold thread_create_tail.
  eapply safe_newborn_keeps; [done|done|auto with keeps|]. clear HK Hn. intros v s1 HK Hn.
  eapply safe_newborn_keeps; [done|done|by apply keeps_upd_thread|]. clear HK Hn. intros _ s2 HK Hn.
  destruct (bool_decide (p = NULL)) eqn:Hp0; [done|].
  eapply safe_newborn_keeps; [done|done|auto with keeps|]. clear HK Hn. intros _ s3 HK Hn.
  eapply safe_newborn_keeps; [done|done|by apply keeps_modify|]. clear HK Hn. intros _ s4 HK Hn.
  eapply safe_bind; [by apply sema_init_safe|]. intros [] s5 HK5%steady_kinv [Hpv Hpk].
  assert (newborn s5 t) as Hn5 by (destruct Hn; split; [by apply Hpk|by rewrite Hpv]). clear HK Hn.
  eapply safe_newborn_keeps; [done|done|apply keeps_gets|]. clear HK5 Hn5. intros r s6 HK Hn.
  eapply safe_newborn_nodes; [done|done|done| |].
  { intros th n Ht Hin. pose proof (child_nodes_ok s6 r th n HK Ht) as Hc. rewrite !elem_of_nodes in *. simpl in *. set_solver. }
  clear HK Hn. intros s7 HK Hn. eapply safe_newborn_nodes; [done|done|done| |].
  { intros th n Ht Hin. pose proof (child_nodes_ok s7 t th n HK Ht) as Hc. rewrite !elem_of_nodes in *. simpl in *. naive_solver. }
  clear HK Hn. intros s8 HK Hn.
  eapply safe_newborn_keeps; [done|done|auto with keeps|]. clear HK Hn. intros c s9 HK Hn.
  eapply safe_newborn_keeps; [done|done|auto with keeps|]. clear HK Hn. intros cth s10 HK Hn.
  eapply safe_newborn_keeps; [done|done|by apply keeps_upd_thread|]. clear HK Hn. intros _ s11 HK Hn.
  do 3 (eapply safe_newborn_keeps; [done|done|auto with keeps|]; clear HK Hn; intros ? ? HK Hn).
  by apply publish_safe.
Qed.

(** ** Processes *)
Lemma upd_nodes_safe s u g :
  kinv s →
  (∀ th, status (g th) = status th ∧ wakeup_time (g th) = wakeup_time th ∧ lock_list (g th) = lock_list th ∧
         pending (g th) = pending th ∧ magic (g th) = magic th) →
  (∀ th n, threads s !! u = Some th → n ∈ p_nodes (pthread_of (g th)) → plain (pnode_sema n)) →
  safe (upd_thread u g) s (λ _ _, True).
Proof.
  intros HK Hg Hpl. unfold safe. apply pwp_upd_thread. intros th Ht. destruct (Hg th) as (?&?&?&?&?).
  split; [|done]. eapply nodes_steady; eauto.
Qed.

Lemma free_child_loop_safe s l :
  kinv s → (∀ p, p ∈ l → plain (pnode_sema p)) → safe (free_child_loop l) s (λ _ s', threads s' = threads s).
Proof.
  revert s. induction l as [|p l IH]; intros s HK Hl; simpl; [by apply safe_ret|].
  eapply safe_bind; [apply free_pnode_safe; [done|apply Hl; set_solver]|]. intros [] s1 HK1%steady_kinv [Ht _].
  eapply safe_mono; [apply IH; [done|set_solver]|]. intros [] s2 _ Ht2. by rewrite Ht2.
Qed.

Lemma free_child_list_safe s : kinv s → safe free_child_list s (λ _ _, True).
Proof.
  intros HK. unfold free_child_list. safe_keep.
  eapply (safe_bind _ _ _ (λ th s', s' = s' ∧ ∀ p, p ∈ child_list th → plain (pnode_sema p))).
  - unfold safe. apply pwp_get_thread. intros th Ht. split_and!; [by apply same_steady|done|].
    intros p Hp. eapply child_nodes_ok; [done..|]. apply elem_of_nodes. by right.
  - clear HK. intros th s1 HK%steady_kinv [_ Hch]. eapply safe_bind; [by apply free_child_loop_safe|].
    intros [] s2 HK2%steady_kinv _. apply upd_nodes_safe; [done|done|].
    intros th' n Ht Hn. eapply (child_nodes_ok s2); [done|done|]. rewrite elem_of_nodes in *. simpl in *. set_solver.
Qed.

Lemma process_exit_safe s : kinv s → safe process_exit s (λ k _, kgood k).
Proof.
  intros HK. unfold process_exit. do 2 safe_keep.
  eapply safe_bind; [by apply free_child_list_safe|]. clear HK. intros [] s1 HK%steady_kinv _.
  eapply (safe_bind _ _ _ (λ th _, pn th ≠ NULL → plain (pnode_sema (pn th)))).
  - unfold safe. apply pwp_get_thread. intros th Ht. split; [by apply same_steady|].
    intros Hn. eapply child_nodes_ok; [done|done|]. apply elem_of_nodes. auto.
  - clear HK. intros th s2 HK%steady_kinv Hpl. destruct (bool_decide (pn th = NULL)) eqn:Hn; [done|].
    apply bool_decide_eq_false_1 in Hn. safe_keep. apply safe_good; [done|].
    apply sema_up_plain_inv; [by apply kinv_core|by apply Hpl].
Qed.

Lemma thread_exit_safe s : kinv s → safe thread_exit s (λ k _, kgood k).
Proof.
  intros HK. unfold thread_exit. do 2 safe_keep. eapply safe_bind; [by apply process_exit_safe|].
  intros k s1 HK1%steady_kinv Hk. apply safe_ret; [done|]. apply kgood_app; [done|]. split; [by repeat constructor|done].
Qed.

Lemma process_wait_safe s child :
  kinv s → cur s ≠ idle_thread s → safe (process_wait child) s (λ k _, kgood k).
Proof.
  intros HK Hi. unfold process_wait.
  eapply (safe_bind _ _ _ (λ p s', same s s' ∧ (p ≠ NULL → plain (pnode_sema p)))).
  - unfold safe, find_child_pnode. pwp_step. apply pwp_thread_current. intros _. pwp_step.
    apply pwp_get_thread. intros th Ht. pwp_steps. split_and!; [by apply same_steady|apply same_refl|].
    destruct (filter _ _) as [|p l] eqn:Hf; [done|]. intros _. simpl.
    assert (p ∈ filter (λ p, pid <$> pnodes s !! p = Some child) (child_list th)) as Hp by (rewrite Hf; set_solver).
    apply list_elem_of_filter in Hp as [_ Hp]. eapply child_nodes_ok; [done|done|]. apply elem_of_nodes. by right.
  - intros p s1 HK1%steady_kinv [Hs Hp]. pose proof (same_cur _ _ Hs) as [Hc1 Hi1]. clear HK.
    case_bool_decide as Hn.
    + eapply safe_bind; [apply safe_good; [done|]; apply sema_down_inv; [by apply kinv_core|congruence|by apply Hp]|].
      intros k s2 HK2%steady_kinv Hk. apply safe_ret; [done|]. apply kgood_app; [done|].
      split; [repeat constructor; by apply Hp|done].
    + safe_keep. apply safe_ret; [done|]. split; [constructor|done].
Qed.

Lemma process_wait_tail_safe s p :
  kinv s → plain (pnode_sema p) → safe (process_wait_tail p) s (λ _ _, True).
Proof.
  intros HK Hp. unfold process_wait_tail. do 4 safe_keep.
  eapply safe_bind; [apply upd_nodes_safe; [done|done|]|].
  - intros th n Ht. rewrite elem_of_nodes. intros Hn. eapply child_nodes_ok; [done|done|]. rewrite elem_of_nodes.
    destruct Hn as [?|Hn]; [by left|right]. simpl in Hn. by apply remove_elem_sub in Hn.
  - clear HK. intros [] s1 HK%steady_kinv _. eapply safe_mono; [by apply free_pnode_safe|]. done.
Qed.

Lemma P_delete v idle t : Pinv v idle → Pinv (pv_del t v) idle.
Proof.
  intros [H1 H2 H3 H4 H5 H6 H7]. split; simpl.
  - intros t' p [_ ?]%lookup_delete_Some. by eapply H1.
  - intros t' p n [_ ?]%lookup_delete_Some. by eapply H2.
  - intros t' p [_ ?]%lookup_delete_Some. by eapply H3.
  - intros p [_ ?]%lookup_delete_Some. by eapply H4.
  - done.
  - intros t' p [_ ?]%lookup_delete_Some. by eapply H6.
  - intros t1 t2 p1 p2 x [_ ?]%lookup_delete_Some [_ ?]%lookup_delete_Some. by eapply H7.
Qed.

Lemma thread_die_safe s :
  kinv s → v_held (lv s) !! cur s = Some [] → safe thread_die s (λ _ _, True).
Proof.
  intros HK Hls. unfold thread_die, intr_disable, intr_get_level, safe. pwp_steps. apply pwp_thread_current.
  intros _. pwp_steps. set (s1 := set_all_list _ _). apply pwp_upd_thread. intros th Ht. simpl in Ht.
  change (cur (set_intr_on false s)) with (cur s) in *. set (s2 := set_threads _ s1).
  assert (qv s2 = vset_st (cur s) THREAD_DYING (qv s)) as Hq2 by by apply (qv_set_status s1).
  assert (lv s2 = lv s) as Hl2 by by apply (lv_set_status s1).
  assert (pv s2 = pv s) as Hp2 by by apply (pv_set_status s1).
  pose proof (kinv_core s HK) as Hcore. destruct (core_cur s Hcore) as (_ & _ & Hnq). destruct HK as [HQ HL HP HT Hr].
  eapply pwp_mono; [apply schedule_inv|].
  - rewrite Hq2. by apply Q_status.
  - simpl. rewrite lookup_insert_ne; [by apply core_null|]. intros E. by rewrite E, (core_null s Hcore) in Ht.
  - rewrite Hq2. simpl. by rewrite lookup_insert_eq.
  - intros [] s3 (HQ3 & Hr3 & Hi3 & Hk3 & Hv3). split; [|done].
    assert (∀ x, parked (qv s) x → parked (qv s3) x) as Hk.
    { intros x Hx. apply Hk3. rewrite Hq2. apply parked_vset_st; [done|]. by apply (parked_not_running _ _ Hx). }
    change (idle_thread s2) with (idle_thread s) in Hi3. change (cur s2) with (cur s) in Hv3. rewrite Hl2, Hp2 in Hv3.
    destruct Hv3 as [[Hl3 Hp3]|(_ & Hl3 & Hp3)]; (split_and!; [split|done|]); try done; rewrite ?Hl3, ?Hp3, ?Hi3; try done.
    + intros t p x Hp Hx. apply Hk. by eapply HT.
    + eauto.
    + by apply L_delete.
    + by apply P_delete.
    + intros t p x. simpl. intros [_ Hp]%lookup_delete_Some Hx. apply Hk. by eapply HT.
    + intros p. simpl. intros [_ Hp]%lookup_delete_Some. eauto.
Qed.

(** ** The machine *)

(** What the code of the threads is trusted with: semaphores and locks do not
    overlap in memory, locks are initialised once, and a page that is handed
    out for a new thread is not in use. *)
Definition call_ok (s : kstate) (c : call) : Prop :=
  match c with
  | CallSemaInit a _ | CallSemaDown a | CallSemaTryDown a | CallSemaUp a => plain a
  | CallLockInit l => locks s !! l = None ∧ lock_addr l = true
  | CallCondWait _ _ w => plain (elem_semaphore w)
  | CallThreadCreate t p _ _ =>
      t = NULL ∨ (threads s !! t = None ∧ t ≠ idle_thread s ∧ plain (pnode_sema p))
  | _ => True
  end.

(** A thread does not exit with a lock held. *)
Definition allowed (s : kstate) (a : action) : Prop :=
  match a with
  | Call c => call_ok s c
  | Resume => ∀ th rest, threads s !! cur s = Some th → pending th = ThreadDie :: rest → lock_list th = []
  | Tick => True
  end.

Lemma exec_idle_safe s st :
  kinv s → idle_stmt st →
  safe (exec st) s (λ k _, Forall idle_stmt k ∧ targets k = [] ∧ (st = IdleLoop → last k = Some IdleLoop)).
Proof.
  intros HK Hst. destruct st; try done; simpl.
  - safe_keep. apply safe_ret; [done|]. split_and!; [constructor|done|done].
  - unfold safe. eapply pwp_mono; [apply idle_loop_inv; by apply kinv_core|]. intros k s' (Hm & Hl & ->).
    split; [apply moved_steady; [done|done|rewrite Hl; apply HK]|]. split_and!; [by repeat constructor|done|done].
  - safe_keep. apply safe_ret; [done|]. split_and!; [constructor|done|done].
  - safe_keep. apply safe_ret; [done|]. split_and!; [constructor|done|done].
Qed.

Lemma kgood_nil : kgood [].
Proof. split; [constructor|done]. Qed.

Lemma exec_safe s st :
  kinv s → cur s ≠ idle_thread s → stmt_ok st →
  (∀ t p f, st = CreateTail t p f → newborn s t) →
  (st = ThreadDie → v_held (lv s) !! cur s = Some []) →
  safe (exec st) s (λ k _, kgood k).
Proof.
  intros HK Hi Hst Hnew Hdie. pose proof (kinv_core s HK) as Hcore. destruct st; simpl in *; try done.
  - safe_keep. by apply safe_ret, kgood_nil.
  - apply safe_good; [done|]. destruct k; [by apply sema_down_plain_inv|subst s0; by apply sema_down_lock_inv].
  - apply safe_good; [done|]. by apply sema_down_inv.
  - apply safe_good; [done|]. by apply lock_acquire_inv.
  - apply safe_good; [done|]. by apply lock_release_inv.
  - apply safe_good; [done|]. by apply yield_inv.
  - safe_keep. by apply safe_ret, kgood_nil.
  - by apply cond_broadcast_safe.
  - safe_keep. by apply safe_ret, kgood_nil.
  - destruct Hst as [Hp ->]. apply thread_create_tail_safe; [done|by eapply Hnew|done].
  - eapply safe_bind; [apply safe_keeps; [done|unfold kernel_thread; solve_keeps]|].
    intros _ s1 HK1%steady_kinv _. by apply safe_ret, kgood_nil.
  - unfold safe. eapply pwp_mono; [by apply idle_loop_inv|]. intros k s' (Hm & Hl & ->).
    split; [apply moved_steady; [done|done|rewrite Hl; apply HK]|]. split; [by repeat constructor|done].
  - safe_keep. by apply safe_ret, kgood_nil.
  - safe_keep. by apply safe_ret, kgood_nil.
  - eapply safe_bind; [by apply process_wait_tail_safe|]. intros _ s1 HK1%steady_kinv _. by apply safe_ret, kgood_nil.
  - eapply safe_bind; [apply thread_die_safe; by auto|]. intros _ s1 HK1%steady_kinv _. by apply safe_ret, kgood_nil.
Qed.

(** What a call leaves pending: only [thread_create] names a thread. *)
Definition leaves (k : list stmt) (s : kstate) : Prop :=
  Forall stmt_ok k ∧ NoDup (targets k) ∧ ∀ x, x ∈ targets k → newborn s x.

Lemma kgood_leaves k s : kgood k → leaves k s.
Proof. intros [Hk Ht]. unfold leaves. rewrite Ht. split_and!; [done|constructor|set_solver]. Qed.

Lemma thread_create_safe s t p nm prio :
  kinv s → t = NULL ∨ (threads s !! t = None ∧ t ≠ idle_thread s ∧ plain (pnode_sema p)) →
  safe (thread_create t p nm prio []) s leaves.
Proof.
  intros HK Hok. unfold thread_create. case_bool_decide as Hn.
  - safe_keep. apply safe_ret; [done|]. by apply kgood_leaves, kgood_nil.
  - destruct Hok as [|(Ht & Hti & Hp)]; [done|]. eapply safe_bind; [by apply init_thread_safe|].
    intros [] s1 HK1%steady_kinv Hnew. apply safe_ret; [done|]. split_and!.
    + unfold allocate_tid. simpl. repeat constructor. done.
    + apply NoDup_singleton.
    + intros x Hx%list_elem_of_singleton. by subst.
Qed.

Lemma exec_call_safe s c :
  kinv s → cur s ≠ idle_thread s → call_ok s c → safe (exec_call c) s leaves.
Proof.
  intros HK Hi Hok. pose proof (kinv_core s HK) as Hcore.
  assert (∀ d, safe d s (λ k _, kgood k) → safe d s leaves) as Hout.
  { intros d Hd. eapply safe_mono; [exact Hd|]. intros. by apply kgood_leaves. }
  assert (∀ d, pwp d s (λ k s', good s s' k) → safe d s leaves) as Hgd.
  { intros d Hd. apply Hout. by apply safe_good. }
  assert (∀ s' : kstate, kinv s' → safe (ret []) s' leaves) as Hnil.
  { intros s' HK'. by apply safe_ret, kgood_leaves, kgood_nil. }
  destruct c; simpl in *.
  - eapply safe_bind; [by apply sema_init_safe|]. intros _ s1 HK1%steady_kinv _. by apply Hnil.
  - apply Hgd. by apply sema_down_inv.
  - eapply (safe_bind _ _ _ (λ _ _, True)).
    + unfold safe. eapply pwp_mono; [by apply sema_try_down_plain_inv|]. intros b s1 Hg. split; [exact (good_steady s s1 [] HK Hg)|done].
    + clear HK. intros b s1 HK%steady_kinv _. safe_keep. by apply Hnil.
  - apply Hgd. by apply sema_up_plain_inv.
  - destruct Hok. eapply safe_bind; [by apply lock_init_safe|]. intros _ s1 HK1%steady_kinv _. by apply Hnil.
  - apply Hgd. by apply lock_acquire_inv.
  - eapply (safe_bind _ _ _ (λ _ _, True)).
    + unfold safe. eapply pwp_mono; [by apply lock_try_acquire_inv|]. intros b s1 Hg. split; [exact (good_steady s s1 [] HK Hg)|done].
    + clear HK. intros b s1 HK%steady_kinv _. safe_keep. by apply Hnil.
  - apply Hgd. by apply lock_release_inv.
  - unfold cond_init. eapply (safe_bind _ _ _ (λ _ _, True)); [|intros _ s1 HK1%steady_kinv _; by apply Hnil].
    safe_keep. apply set_cond_safe; [done|set_solver].
  - apply Hout. by apply cond_wait_safe.
  - apply Hout. by apply cond_signal_safe.
  - apply Hout. by apply cond_broadcast_safe.
  - apply Hgd. by apply yield_inv.
  - apply Hgd. by apply set_priority_inv.
  - apply Hgd. by apply timer_sleep_inv.
  - by apply thread_create_safe.
  - apply Hout. by apply process_wait_safe.
  - apply Hout. by apply thread_exit_safe.
  - unfold switch_yield. safe_keep. by apply Hnil.
Qed.

(** Popping a statement from the stack of the running thread. *)
Lemma pop_kinv s th st rest :
  kinv s → threads s !! cur s = Some th → pending th = st :: rest →
  let s1 := set_threads (<[cur s := set_pending rest th]> (threads s)) s in
  kinv s1 ∧ qv s1 = qv s ∧ lv s1 = lv s ∧ (∀ t p f, st = CreateTail t p f → newborn s1 t) ∧ stmt_ok st ∧
  (cur s = idle_thread s → idle_stmt st).
Proof.
  intros HK Ht Hpe s1. pose proof HK as [HQ HL HP HT Hr].
  assert (qv s1 = qv s) as Hq.
  { unfold qv. simpl. by rewrite (fmap_insert_same status _ _ _ _ Ht), (fmap_insert_same wakeup_time _ _ _ _ Ht). }
  assert (lv s1 = lv s) as Hl by (unfold lv; simpl; by rewrite (fmap_insert_same lock_list _ _ _ _ Ht)).
  assert (v_pt (pv s) !! cur s = Some (pthread_of th)) as Hp by (simpl; by rewrite lookup_fmap, Ht).
  assert (pv s1 = mk_pview (<[cur s := pthread_of (set_pending rest th)]> (v_pt (pv s))) (v_conds (pv s))) as Hpv.
  { unfold pv. simpl. by rewrite fmap_insert. }
  pose proof (p_stmts _ _ _ HP _ _ Hp) as Hok. simpl in Hok. rewrite Hpe in Hok. apply Forall_cons in Hok as [Hst Hok].
  pose proof (p_once _ _ _ HP _ _ Hp) as Hon. simpl in Hon. rewrite Hpe in Hon.
  assert (∀ x, x ∈ targets rest → x ∈ targets (pending th)) as Hsub.
  { intros x. rewrite Hpe. unfold targets. simpl. case_match; set_solver. }
  split_and!; [split|done|done| |done|].
  - by rewrite Hq.
  - by rewrite Hl.
  - rewrite Hpv. apply P_update; [done|]. destruct (p_thread _ _ _ HP _ _ Hp) as [? ?]. split_and!; simpl; try done.
    + intros n Hn. by eapply (p_plain _ _ _ HP _ _ n Hp).
    + intros E. rewrite E in Hp. pose proof (p_idle _ _ _ HP _ Hp) as Hid. simpl in Hid. rewrite Hpe in Hid.
      by apply Forall_cons in Hid as [_ ?].
    + unfold targets in *. simpl in Hon. case_match; [by apply NoDup_cons in Hon as [_ ?]|done].
    + intros x t' p' Hne Hp' Hx Hx'. apply Hne. eapply (p_disj _ _ _ HP); [done|done|exact Hx'|]. simpl. by apply Hsub.
  - rewrite Hq, Hpv. intros u p x. simpl. intros [[<- <-]|[_ Hu]]%lookup_insert_Some Hx; [|by eapply HT].
    eapply (HT _ _ x Hp). simpl. by apply Hsub.
  - by rewrite Hq.
  - intros t p f ->. assert (t ∈ targets (pending th)) as Hin by (rewrite Hpe; unfold targets; simpl; set_solver).
    split; [rewrite Hq; by eapply (HT _ _ t Hp)|]. rewrite Hpv. intros u p'. simpl.
    intros [[<- <-]|[Hne Hu]]%lookup_insert_Some Hx.
    + simpl in Hx. unfold targets in *. simpl in Hon. by apply NoDup_cons in Hon as [? _].
    + apply Hne. eapply (p_disj _ _ _ HP); [exact Hp|exact Hu|exact Hin|done].
  - intros E. rewrite E in Hp. pose proof (p_idle _ _ _ HP _ Hp) as Hid. simpl in Hid. rewrite Hpe in Hid.
    by apply Forall_cons in Hid as [? _].
Qed.

(** Pushing what an operation leaves. *)
Lemma push_kinv s u k :
  kinv s → leaves k s → (u = idle_thread s → Forall idle_stmt k) →
  kinv (set_threads (alter (λ th, set_pending (k ++ pending th) th) u (threads s)) s).
Proof.
  intros HK (Hk & Hnd & Hnew) Hi. destruct (threads s !! u) as [th|] eqn:Ht.
  2: { assert (alter (λ th, set_pending (k ++ pending th) th) u (threads s) = threads s) as E
         by (apply map_eq; intros j; rewrite lookup_alter; case_decide; [subst; by rewrite Ht|done]).
       rewrite E. by destruct s. }
  assert (alter (λ th, set_pending (k ++ pending th) th) u (threads s) =
          <[u := set_pending (k ++ pending th) th]> (threads s)) as E.
  { apply map_eq. intros j. rewrite lookup_alter. case_decide; [subst; by rewrite Ht, lookup_insert_eq|by rewrite lookup_insert_ne]. }
  rewrite E. set (th' := set_pending _ th). set (s1 := set_threads _ s). pose proof HK as [HQ HL HP HT Hr].
  assert (qv s1 = qv s) as Hq.
  { unfold qv. simpl. by rewrite (fmap_insert_same status _ _ _ _ Ht), (fmap_insert_same wakeup_time _ _ _ _ Ht). }
  assert (lv s1 = lv s) as Hl by (unfold lv; simpl; by rewrite (fmap_insert_same lock_list _ _ _ _ Ht)).
  assert (v_pt (pv s) !! u = Some (pthread_of th)) as Hp by (simpl; by rewrite lookup_fmap, Ht).
  assert (targets (pending th') = targets k ++ targets (pending th)) as Htg by (unfold targets; simpl; apply omap_app).
  assert (pv s1 = mk_pview (<[u := pthread_of th']> (v_pt (pv s))) (v_conds (pv s))) as Hpv.
  { unfold pv. simpl. by rewrite fmap_insert. }
  split; rewrite ?Hq, ?Hl; try done.
  - rewrite Hpv. apply P_update; [done|]. destruct (p_thread _ _ _ HP _ _ Hp) as [? ?].
    split_and!; [|by intros n; apply (p_plain _ _ _ HP _ _ n Hp)|done|done| | |].
    + simpl. apply Forall_app. split; [done|]. by apply (p_stmts _ _ _ HP _ _ Hp).
    + intros Eu. simpl. apply Forall_app. split; [by apply Hi|]. rewrite Eu in Hp. by apply (p_idle _ _ _ HP _ Hp).
    + change (p_pending (pthread_of th')) with (pending th'). rewrite Htg. apply NoDup_app. split_and!; [done| |].
      * intros x Hx. destruct (Hnew x Hx) as [_ Hun]. by apply (Hun u (pthread_of th)).
      * by apply (p_once _ _ _ HP _ _ Hp).
    + intros x t' p' Hne Hp'. change (p_pending (pthread_of th')) with (pending th'). rewrite Htg, elem_of_app.
      intros [Hx|Hx] Hx'; [destruct (Hnew x Hx) as [_ Hun]; by eapply Hun|].
      apply Hne. by eapply (p_disj _ _ _ HP t' u p' (pthread_of th) x).
  - rewrite Hpv. intros t p x. simpl. intros [[<- <-]|[_ Hu]]%lookup_insert_Some; [|exact (HT t p x Hu)].
    change (p_pending (pthread_of th')) with (pending th'). rewrite Htg, elem_of_app.
    intros [Hx|Hx]; [by destruct (Hnew x Hx)|by eapply (HT _ _ x Hp)].
Qed.

Lemma idle_pending s s' th :
  steady s s' → threads s' !! idle_thread s' = Some th →
  ∃ th0, threads s !! idle_thread s = Some th0 ∧ pending th = pending th0.
Proof.
  intros (_ & Hi & Hp) Ht. rewrite Hi in Ht. destruct (Hp (pthread_of th)) as (p0 & Hp0 & E).
  - simpl. by rewrite lookup_fmap, Ht.
  - simpl in Hp0. rewrite lookup_fmap in Hp0. destruct (threads s !! idle_thread s) as [th0|]; [|done].
    simplify_eq/=. eauto.
Qed.

(** The end of a step: what is left is pushed on the stack of [u]. *)
Lemma push_step s u k s' (Q : unit → kstate → Prop) :
  steady s s' → leaves k s' → (u = idle_thread s → Forall idle_stmt k) →
  (∀ th, u ≠ idle_thread s → threads s !! idle_thread s = Some th → last (pending th) = Some IdleLoop) →
  (∀ th, u = idle_thread s → threads s !! idle_thread s = Some th → last (k ++ pending th) = Some IdleLoop) →
  (∀ s'', kinv s'' → idle_last s'' → Q tt s'') →
  pwp (push_pending u k) s' Q.
Proof.
  intros Hst Hk Hi Hl1 Hl2 HQ. unfold push_pending. pwp_step. pose proof Hst as (HK & Hi' & _). apply HQ.
  - apply push_kinv; [done|done|by rewrite Hi'].
  - intros th. simpl. rewrite lookup_alter. case_decide as Hu.
    + intros (th1 & Ht1 & ->)%fmap_Some. simpl.
      destruct (idle_pending s s' th1) as (th0 & Ht0 & ->); [done|congruence|]. apply Hl2; congruence.
    + intros Ht. destruct (idle_pending s s' th) as (th0 & Ht0 & ->); [done|done|]. apply Hl1; [congruence|done].
Qed.

Lemma run_inv s a :
  kinv s → idle_last s → allowed s a → pwp (run a) s (λ _ s', kinv s' ∧ idle_last s').
Proof.
  intros HK Hil Ha. unfold run, running_thread. pwp_steps. apply pwp_get_thread. intros th Ht. destruct a as [|c|].
  - destruct (pending th) as [|st rest] eqn:Hpe; [pwp_step|]. pwp_step.
    apply pwp_upd_thread. intros th' Ht'. assert (th' = th) as -> by congruence. pwp_step.
    destruct (pop_kinv s th st rest HK Ht Hpe) as (HK1 & Hq1 & Hl1 & Hnew & Hok & Hid). set (s1 := set_threads _ s) in *.
    destruct (decide (cur s = idle_thread s)) as [E|E].
    + eapply pwp_mono; [apply exec_idle_safe; [done|by apply Hid]|]. intros k s2 (Hst & Hk & Htg & Hlast).
      eapply push_step; [exact Hst| |done|done| |done].
      * split_and!; [|rewrite Htg; constructor|rewrite Htg; set_solver].
        eapply Forall_impl; [exact Hk|]. by intros [].
      * intros th1 _. simpl. rewrite <- E, lookup_insert_eq. intros [= <-]. simpl.
        rewrite E in Ht. specialize (Hil th Ht). rewrite Hpe in Hil. rewrite last_app.
        destruct rest as [|x r]; [|change (last (x :: r) = Some IdleLoop) in Hil; by rewrite Hil].
        simpl in Hil. injection Hil as ->. by apply Hlast.
    + eapply pwp_mono; [apply exec_safe; [done|done|done|done|]|].
      * intros ->. rewrite Hl1. simpl. rewrite lookup_fmap, Ht. simpl. f_equal. by eapply Ha.
      * intros k s2 [Hst Hk]. eapply push_step; [exact Hst|by apply kgood_leaves|done| |done|done].
        intros th1 _. simpl. rewrite lookup_insert_ne by done. apply Hil.
  - destruct (pending th) as [|st rest] eqn:Hpe; [|pwp_step]. pwp_step.
    assert (cur s ≠ idle_thread s) as E.
    { intros E. rewrite E in Ht. specialize (Hil th Ht). by rewrite Hpe in Hil. }
    eapply pwp_mono; [by apply exec_call_safe|]. intros k s2 [Hst Hk].
    eapply push_step; [exact Hst|done|done| |done|done]. intros th1 _. apply Hil.
  - unfold intr_get_level. pwp_steps. case_match; [|pwp_step]. pwp_step.
    eapply pwp_mono; [apply intr_handler_inv; by apply kinv_core|]. intros k s2 [Hg Hk].
    eapply push_step; [by eapply good_steady|by apply kgood_leaves, Hg|done|by intros th1 _; apply Hil| |done].
    intros th1 _ Ht1. rewrite last_app. by rewrite (Hil th1 Ht1).
Qed.

End Operations.
