(* ===== verification/Donation.v ===== *)
(** * Priority donation (thread.c, synch.c)

    [flush_priority] is called when a thread starts to wait for a lock.  It
    walks the chain from a waiter to the holder of the lock it waits for, for
    as long as it raises priorities, and it is proved to end, also when the
    chain is a cycle, with the donation invariant restored. *)

From S2P Require Import Prelude KList KState Thread Synch ThreadInv.
Local Open Scope Z_scope.

(** ** The donation invariant *)

(** [ok] holds of the threads whose donation is up to date. *)
Record donation (s : kstate) (ok : Z → Prop) : Prop := {
  d_waiter u th lk : threads s !! u = Some th → ok u → waiting_lock th ≠ NULL →
    locks s !! waiting_lock th = Some lk → priority th ≤ max_priority lk;
  d_holder l lk th : locks s !! l = Some lk → threads s !! holder lk = Some th →
    max_priority lk ≤ priority th;
  d_intrinsic u th : threads s !! u = Some th → instrinsic_priority th ≤ priority th
}.

(** What the walk reads is there. *)
Record chain_ok (s : kstate) : Prop := {
  c_wait u th : threads s !! u = Some th → waiting_lock th ≠ NULL → is_Some (locks s !! waiting_lock th);
  c_holder l lk : locks s !! l = Some lk → holder lk ≠ NULL →
    ∃ th, threads s !! holder lk = Some th ∧ l ∈ lock_list th;
  c_held u th l : threads s !! u = Some th → l ∈ lock_list th → ∃ lk, locks s !! l = Some lk ∧ holder lk = u;
  c_null : threads s !! NULL = None
}.

Record bounded (s : kstate) (B : Z) : Prop := {
  b_thread u th : threads s !! u = Some th → priority th ≤ B ∧ instrinsic_priority th ≤ B;
  b_lock l lk : locks s !! l = Some lk → max_priority lk ≤ B
}.

(** The measure of the walk. *)
Definition slack (B : Z) (m : gmap Z lock) : nat :=
  map_fold (λ _ lk n, Z.to_nat (B - max_priority lk) + n)%nat 0%nat m.

Lemma slack_insert B m l lk : m !! l = None →
  slack B (<[l := lk]> m) = (Z.to_nat (B - max_priority lk) + slack B m)%nat.
Proof. intros Hl. unfold slack. rewrite map_fold_insert_L; [done|intros; lia|done]. Qed.

Lemma slack_raise B m l lk p :
  m !! l = Some lk → max_priority lk < p → p ≤ B → (slack B (<[l := set_max_priority p lk]> m) < slack B m)%nat.
Proof.
  intros Hl Hp HB. rewrite <- (insert_delete_id m l lk) at 2 by done. rewrite <- insert_delete_eq.
  rewrite !slack_insert by apply lookup_delete_eq. simpl. lia.
Qed.

Lemma top_priority_locks (m : gmap Z lock) l lk :
  m !! l = Some lk → max_priority lk ≤ map_fold (λ _ lk b, Z.max b (max_priority lk)) 0 m.
Proof.
  revert l lk. apply (map_fold_weak_ind (λ r m, ∀ l lk, m !! l = Some lk → max_priority lk ≤ r)).
  - intros l lk Hl. by rewrite lookup_empty in Hl.
  - intros i x m' r Hi IH l lk [[<- <-]|[_ Hl]]%lookup_insert_Some; [lia|]. specialize (IH l lk Hl). lia.
Qed.

Lemma top_priority_threads (m : gmap Z thread) b :
  let r := map_fold (λ _ th b, Z.max b (Z.max (priority th) (instrinsic_priority th))) b m in
  b ≤ r ∧ ∀ u th, m !! u = Some th → priority th ≤ r ∧ instrinsic_priority th ≤ r.
Proof.
  apply (map_fold_weak_ind (λ r m, b ≤ r ∧ ∀ u th, m !! u = Some th → priority th ≤ r ∧ instrinsic_priority th ≤ r)).
  - split; [lia|]. intros u th Hu. by rewrite lookup_empty in Hu.
  - intros i x m' r Hi [IH1 IH2]. split; [lia|].
    intros u th [[<- <-]|[_ Hu]]%lookup_insert_Some; [lia|]. specialize (IH2 u th Hu). lia.
Qed.

Lemma top_priority_bounded s : bounded s (top_priority s).
Proof.
  unfold top_priority. destruct (top_priority_threads (threads s) (map_fold (λ _ lk b, Z.max b (max_priority lk)) 0 (locks s)))
    as [Hb Hth]. split; [done|]. intros l lk Hl. pose proof (top_priority_locks _ _ _ Hl). simpl in *. lia.
Qed.

(** ** One donation *)
Lemma wp_get_thread t th s Q : threads s !! t = Some th → Q th s → wp (get_thread t) s Q.
Proof. intros Ht HQ. unfold get_thread. wp_steps. by rewrite Ht. Qed.
Lemma wp_upd_thread t f th s (Q : unit → kstate → Prop) :
  threads s !! t = Some th → Q tt (set_threads (<[t := f th]> (threads s)) s) → wp (upd_thread t f) s Q.
Proof. intros Ht HQ. unfold upd_thread. wp_step. eapply wp_get_thread; [done|]. by wp_step. Qed.
Lemma wp_get_lock l lk s Q : locks s !! l = Some lk → Q lk s → wp (get_lock l) s Q.
Proof. intros Hl HQ. unfold get_lock. wp_steps. by rewrite Hl. Qed.
Lemma wp_upd_lock l f lk s (Q : unit → kstate → Prop) :
  locks s !! l = Some lk → Q tt (set_locks (<[l := f lk]> (locks s)) s) → wp (upd_lock l f) s Q.
Proof. intros Hl HQ. unfold upd_lock. wp_step. eapply wp_get_lock; [done|]. by wp_step. Qed.

(** The priority [adjust_priority] gives a thread with the locks [ls]. *)
Definition adjusted (s : kstate) (th : thread) : Z :=
  match max_elem (less_lock_priority s) (lock_list th) with
  | Some l => if bool_decide (instrinsic_priority th < lock_priority s l) then lock_priority s l else priority th
  | None => instrinsic_priority th
  end.

Lemma adjust_priority_wp s t th Q :
  threads s !! t = Some th → (∀ l, l ∈ lock_list th → is_Some (locks s !! l)) →
  Q tt (set_threads (<[t := set_priority (adjusted s th) th]> (threads s)) s) →
  wp (adjust_priority t) s Q.
Proof.
  intros Ht Hl HQ. unfold adjust_priority. wp_steps. eapply wp_get_thread; [done|]. unfold adjusted in HQ.
  destruct (max_elem _ _) as [l|] eqn:Hmax; [|by eapply wp_upd_thread].
  apply max_elem_Some in Hmax. destruct (Hl l Hmax) as [lk Hlk]. wp_step. eapply wp_get_lock; [done|].
  unfold lock_priority in HQ. rewrite Hlk in HQ. case_bool_decide; [by eapply wp_upd_thread|]. wp_step.
  replace (set_priority (priority th) th) with th in HQ by by destruct th. rewrite insert_id in HQ by done. by destruct s.
Qed.

Lemma adjusted_spec s th :
  instrinsic_priority th ≤ priority th →
  instrinsic_priority th ≤ adjusted s th ∧ ∀ l, l ∈ lock_list th → lock_priority s l ≤ adjusted s th.
Proof.
  intros Hi. unfold adjusted. destruct (max_elem _ _) as [l|] eqn:Hmax.
  - assert (∀ l', l' ∈ lock_list th → lock_priority s l' ≤ lock_priority s l) as Hle.
    { intros l' Hl'. pose proof (max_elem_max _ _ _ _ Hmax Hl') as H. unfold le_of, less_lock_priority, less_by in H. lia. }
    case_bool_decide; (split; [lia|]); intros l' Hl'%Hle; lia.
  - apply max_elem_None in Hmax. rewrite Hmax. split; [lia|]. set_solver.
Qed.

Lemma adjusted_bounded s th u B : bounded s B → threads s !! u = Some th →
  (∀ l, l ∈ lock_list th → is_Some (locks s !! l)) → adjusted s th ≤ B.
Proof.
  intros HB Ht Hl. destruct (b_thread _ _ HB _ _ Ht). unfold adjusted. destruct (max_elem _ _) as [l|] eqn:Hmax; [|done].
  apply max_elem_Some in Hmax. destruct (Hl l Hmax) as [lk Hlk]. unfold lock_priority. rewrite Hlk.
  pose proof (b_lock _ _ HB _ _ Hlk). case_bool_decide; lia.
Qed.

(** The states of the walk: the locks and threads change only in priority. *)
Lemma chain_raise s l lk p :
  chain_ok s → locks s !! l = Some lk →
  chain_ok (set_locks (<[l := set_max_priority p lk]> (locks s)) s).
Proof.
  intros [H1 H2 H3 H4] Hl. split; simpl; [| | |done].
  - intros u th Hu Hw. destruct (decide (waiting_lock th = l)) as [->|];
      [rewrite lookup_insert_eq|rewrite lookup_insert_ne by done]; eauto.
  - intros l' lk' [[<- <-]|[_ Hl']]%lookup_insert_Some; simpl; [by apply (H2 l)|by apply H2].
  - intros u th l' Hu Hin. destruct (H3 _ _ _ Hu Hin) as (lk' & Hl' & Hh).
    destruct (decide (l' = l)) as [->|]; [rewrite lookup_insert_eq|rewrite lookup_insert_ne by done]; [|by eauto].
    eexists. split; [done|]. simpl. congruence.
Qed.

Lemma chain_adjust s t th p :
  chain_ok s → threads s !! t = Some th →
  chain_ok (set_threads (<[t := set_priority p th]> (threads s)) s).
Proof.
  intros [H1 H2 H3 H4] Ht. split; simpl.
  - intros u th' [[<- <-]|[_ Hu]]%lookup_insert_Some; simpl; [by apply (H1 t)|by eapply H1].
  - intros l lk Hl Hn. destruct (H2 l lk Hl Hn) as (th' & Hh & Hin).
    destruct (decide (holder lk = t)) as [E|]; [|rewrite lookup_insert_ne by done; eauto].
    rewrite E, lookup_insert_eq. eexists. split; [done|]. simpl. rewrite E, Ht in Hh. by simplify_eq.
  - intros u th' l [[<- <-]|[_ Hu]]%lookup_insert_Some; simpl; [by apply (H3 t)|by apply H3].
  - rewrite lookup_insert_ne; [done|]. intros E. by rewrite E, H4 in Ht.
Qed.

(** Raising the lock a thread waits for settles the thread. *)
Lemma donation_raise s t th lk :
  donation s (λ u, u ≠ t) → threads s !! t = Some th → locks s !! waiting_lock th = Some lk →
  max_priority lk < priority th →
  let s1 := set_locks (<[waiting_lock th := set_max_priority (priority th) lk]> (locks s)) s in
  (∀ u th' lk', threads s1 !! u = Some th' → waiting_lock th' ≠ NULL →
     locks s1 !! waiting_lock th' = Some lk' → priority th' ≤ max_priority lk') ∧
  (∀ l lk' th', locks s1 !! l = Some lk' → threads s1 !! holder lk' = Some th' → holder lk' ≠ holder lk →
     max_priority lk' ≤ priority th').
Proof.
  intros [H1 H2 H3] Ht Hl Hlt s1. split; simpl.
  - intros u th' lk' Hu Hn. intros [[E <-]|[Hne Hl']]%lookup_insert_Some; simpl.
    + destruct (decide (u = t)) as [->|]; [simplify_eq; lia|].
      rewrite E in Hl. pose proof (H1 u th' lk Hu ltac:(done) Hn Hl). lia.
    + destruct (decide (u = t)) as [->|]; [by simplify_eq|]. by eapply (H1 u).
  - intros l lk' th' [[<- <-]|[_ Hl']]%lookup_insert_Some Hh Hne; [done|]. by eapply H2.
Qed.

(** Adjusting the holder restores the invariant but for what it waits for. *)
Lemma donation_adjust s h th :
  chain_ok s → threads s !! h = Some th → instrinsic_priority th ≤ priority th →
  (∀ u th', threads s !! u = Some th' → instrinsic_priority th' ≤ priority th') →
  (∀ u th' lk', threads s !! u = Some th' → waiting_lock th' ≠ NULL →
     locks s !! waiting_lock th' = Some lk' → priority th' ≤ max_priority lk') →
  (∀ l lk' th', locks s !! l = Some lk' → threads s !! holder lk' = Some th' → holder lk' ≠ h →
     max_priority lk' ≤ priority th') →
  donation (set_threads (<[h := set_priority (adjusted s th) th]> (threads s)) s) (λ u, u ≠ h).
Proof.
  intros HC Ht Hi Hin Hw Hh. destruct (adjusted_spec s th Hi) as [A1 A2]. split; simpl.
  - intros u th' lk [[<- _]|[_ Hu]]%lookup_insert_Some Hne; [done|]. by eapply Hw.
  - intros l lk th' Hl [[E <-]|[Hne Hu]]%lookup_insert_Some; simpl; [|by eapply Hh].
    assert (holder lk ≠ NULL) as Hn by (intros E'; rewrite E, E', (c_null _ HC) in Ht; done).
    destruct (c_holder _ HC _ _ Hl Hn) as (th' & Hth' & Hin'). rewrite <- E, Ht in Hth'. simplify_eq.
    specialize (A2 l Hin'). unfold lock_priority in A2. by rewrite Hl in A2.
  - intros u th' [[<- <-]|[_ Hu]]%lookup_insert_Some; simpl; [done|by eapply Hin].
Qed.

(** The walk returns whatever the priorities are, and completes the donation. *)
Lemma flush_priority_loop_wp n s t th B :
  chain_ok s → bounded s B → threads s !! t = Some th → (slack B (locks s) < n)%nat →
  wp (flush_priority_loop n t) s (λ _ s', donation s (λ u, u ≠ t) → donation s' (λ _, True)).
Proof.
  revert s t th. induction n as [|n IH]; intros s t th HC HB Ht Hn; simpl; [lia|].
  wp_step. eapply wp_get_thread; [done|].
  assert ((waiting_lock th ≠ NULL → ∀ lk, locks s !! waiting_lock th = Some lk → priority th ≤ max_priority lk) →
    donation s (λ u, u ≠ t) → donation s (λ _, True)) as Hdone.
  { intros Hw [H1 H2 H3]. split; [|done|done]. intros u th' lk Hu _ Hn' Hl.
    destruct (decide (u = t)) as [->|]; [simplify_eq; by apply Hw|by eapply (H1 u)]. }
  case_bool_decide as Hw; [|wp_step; by apply Hdone].
  destruct (c_wait _ HC _ _ Ht Hw) as [lk Hlk]. wp_step. eapply wp_get_lock; [done|].
  case_bool_decide as Hgt; [|wp_step; apply Hdone; intros _ lk'; rewrite Hlk; intros [= <-]; lia].
  wp_step. eapply wp_upd_lock; [done|]. set (s1 := set_locks _ s).
  pose proof (chain_raise s _ _ (priority th) HC Hlk) as HC1. fold s1 in HC1.
  case_bool_decide as Hhn.
  2: { wp_step. intros HD. destruct (donation_raise s t th lk HD Ht Hlk ltac:(lia)) as [Hw1 Hh1]. fold s1 in Hw1, Hh1.
       split; [by intros u th' lk' ? _; apply (Hw1 u)| |by apply HD].
       intros l lk' th' Hl' Hu. eapply Hh1; [done|done|]. intros E. by rewrite E, Hhn, (c_null _ HC1) in Hu. }
  destruct (c_holder _ HC _ _ Hlk Hhn) as (hth & Hhth & Hin).
  assert (bounded s1 B) as HB1.
  { split; [apply HB|]. simpl. intros l' lk' [[<- <-]|[_ ?]]%lookup_insert_Some; [by apply (b_thread _ _ HB t)|by eapply HB]. }
  assert (∀ l, l ∈ lock_list hth → is_Some (locks s1 !! l)) as Hls.
  { intros l Hl. destruct (c_held _ HC1 (holder lk) hth l Hhth Hl) as (? & ? & _). eauto. }
  wp_step. eapply adjust_priority_wp; [exact Hhth|done|]. set (s2 := set_threads _ s1).
  eapply wp_mono; [apply (IH s2 (holder lk) (set_priority (adjusted s1 hth) hth))|].
  - by apply chain_adjust.
  - split; [|apply HB1]. simpl. intros u th' [[<- <-]|[_ ?]]%lookup_insert_Some; simpl; [|by eapply HB].
    split; [by eapply (adjusted_bounded s1)|by apply (b_thread _ _ HB (holder lk))].
  - apply lookup_insert_eq.
  - subst s2 s1. simpl. pose proof (slack_raise B (locks s) _ lk (priority th) Hlk ltac:(lia) ltac:(by apply (b_thread _ _ HB t))). lia.
  - intros [] s' Hs' HD. apply Hs'. destruct (donation_raise s t th lk HD Ht Hlk ltac:(lia)) as [Hw1 Hh1].
    apply donation_adjust; [done|done|by eapply HD|by apply HD|done|done].
Qed.
