(* ===== verification/Scheduler.v ===== *)
(** * Theorems of the threading system

    The machine from the booted system on, the scheduler, the alarm clock,
    priority donation, and the places where the code departs from them. *)

From S2P Require Import Prelude KList KState Thread Synch ThreadInv SynchInv Donation.
Local Open Scope Z_scope.

(** ** The booted system *)

(** Addresses: the page of the initial thread, and what [palloc_get_page],
    [malloc] and the stack give to [thread_start]. *)
Definition main_page : Z := 0xc000e000.
Definition idle_page : Z := 0xc0104000.
Definition idle_pnode : Z := 0xc0105000.
Definition idle_started : Z := 0xc000ef00.

Definition power_on : kstate :=
  mk_kstate ∅ ∅ ∅ ∅ ∅ ∅ [] [] [] main_page NULL NULL 1 false false false false 0 0 0 0 0.

(** A function of the boot sequence runs on the stack of the initial thread. *)
Definition on_stack (c : M kstate (list stmt)) : M kstate unit :=
  t ← running_thread; k ← c; push_pending t k.
Fixpoint resume (n : nat) : M kstate unit :=
  match n with O => ret tt | S n => run Resume;; resume n end.

(** [thread_init] and [thread_start] of [main], run to their end. *)
Definition boot : M kstate unit :=
  on_stack thread_init;; resume 7;; on_stack (thread_start idle_page idle_pnode idle_started);; resume 13.
Definition booted : kstate :=
  Eval vm_compute in match boot power_on with Ret (_, s) => s | Fail _ => power_on end.

Lemma boot_booted : boot power_on = Ret (tt, booted).
Proof. vm_compute. reflexivity. Qed.

(** The memory typing the boot sequence needs. *)
Definition typing (lock_addr : Z → bool) : Prop :=
  lock_addr tid_lock = true ∧ lock_addr (idle_started - 4) = false ∧ lock_addr (pnode_sema idle_pnode - 4) = false.

(** Case analysis on a lookup in a concrete map. *)
Ltac concrete H :=
  apply elem_of_map_to_list in H; vm_compute in H;
  repeat (apply elem_of_cons in H as [H|H]; [first [discriminate H | injection H as; subst] |]);
  try (by apply elem_of_nil in H).

Lemma booted_queues q : queue_of (qv booted) q = [].
Proof.
  destruct q as [| |a]; [done|done|]. simpl. destruct (_ !! a) as [l|] eqn:E; [|done]. by concrete E.
Qed.

Lemma booted_kinv lock_addr : typing lock_addr → kinv lock_addr booted ∧ idle_last booted.
Proof.
  intros (H1 & H2 & H3). split; [split|].
  - split; [| | | | | |by vm_compute; constructor]; try (intros q; rewrite booted_queues; set_solver).
    + intros q. rewrite booted_queues. constructor.
    + intros t Ht. by concrete Ht.
    + intros t Ht. by concrete Ht.
  - split.
    + intros l h Hl. by concrete Hl.
    + intros l h Hl Hh. by concrete Hl.
    + intros t ls l Ht Hl. concrete Ht; set_solver.
    + intros t ls Ht. concrete Ht; by constructor.
    + by vm_compute.
  - split.
    + intros t p Ht. concrete Ht; by repeat constructor.
    + intros t p n Ht Hn. concrete Ht; vm_compute in Hn; set_solver.
    + intros t p Ht. by concrete Ht.
    + intros p Hp. concrete Hp; simpl; by repeat constructor.
    + intros c ws w Hc. by concrete Hc.
    + intros t p Ht. concrete Ht; by constructor.
    + intros t t' p p' x Ht Ht' Hx. concrete Ht; set_solver.
  - intros t p x Ht Hx. concrete Ht; set_solver.
  - by vm_compute.
  - intros th Ht. by concrete Ht.
Qed.

(** A step of the machine, and the states it reaches from the booted system. *)
Inductive step (lock_addr : Z → bool) (s s' : kstate) : Prop :=
| step_run a : allowed lock_addr s a → run a s = Ret (tt, s') → step lock_addr s s'.
Definition reachable (lock_addr : Z → bool) (s : kstate) : Prop := rtc (step lock_addr) booted s.

Lemma reachable_kinv lock_addr s :
  typing lock_addr → reachable lock_addr s → kinv lock_addr s ∧ idle_last s.
Proof.
  intros Ht Hr. pose proof (booted_kinv lock_addr Ht) as H0. unfold reachable in Hr. revert H0.
  induction Hr as [|s1 s2 s3 [a Ha Hrun] _ IH]; [done|]. intros [HK Hi]. apply IH.
  pose proof (run_inv lock_addr s1 a HK Hi Ha) as Hp. unfold pwp in Hp. by rewrite Hrun in Hp.
Qed.

(** A sequence of actions from the booted system. *)
Fixpoint allowed_trace (lock_addr : Z → bool) (l : list action) (s : kstate) : Prop :=
  match l with
  | [] => True
  | a :: r => allowed lock_addr s a ∧
      match run a s with Ret (_, s') => allowed_trace lock_addr r s' | Fail _ => False end
  end.
Fixpoint run_trace (l : list action) (s : kstate) : kstate :=
  match l with
  | [] => s
  | a :: r => match run a s with Ret (_, s') => run_trace r s' | Fail _ => s end
  end.
Lemma trace_reachable lock_addr l s :
  reachable lock_addr s → allowed_trace lock_addr l s → reachable lock_addr (run_trace l s).
Proof.
  revert s. induction l as [|a l IH]; intros s Hs; simpl; [done|]. intros [Ha Hl].
  destruct (run a s) as [[[] s1]|] eqn:Hrun; [|done]. apply IH; [|done].
  eapply rtc_r; [exact Hs|]. by econstructor.
Qed.

(** C1: Locks are mutually exclusive in every state the booted system reaches
    by calls of the threads, their yields and timer interrupts, as long as the
    threads keep to the rules of [allowed]: a lock is initialised once, at an
    address set aside for locks ([lock_addr]; [typing] says that the objects of
    the boot sequence are where it says), the semaphore inside a lock is used only through the lock, the page
    of a new thread is not in use, and no thread exits with a lock held.  Then
    a lock is on the [lock_list] of a thread exactly when that thread is its
    [holder], hence of at most one thread, and its semaphore is 1 when it has
    no holder and 0 when it has one.  The code does not check these rules: see
    [thread_die_keeps_locks] for a thread that exits with a lock held. *)
Theorem lock_mutual_exclusion lock_addr s l lk :
  typing lock_addr → reachable lock_addr s → locks s !! l = Some lk →
  (∀ t th, threads s !! t = Some th → l ∈ lock_list th ↔ holder lk = t) ∧
  value <$> semas s !! lock_semaphore l = Some (if decide (holder lk = NULL) then 1 else 0).
Proof.
  intros Ht Hr Hl. destruct (reachable_kinv _ _ Ht Hr) as [[_ HL _ _ _] _].
  assert (v_holder (lv s) !! l = Some (holder lk)) as Hh by (simpl; by rewrite lookup_fmap, Hl). split.
  - intros t th Hth. assert (v_held (lv s) !! t = Some (lock_list th)) as Hls by (simpl; by rewrite lookup_fmap, Hth).
    split; intros Hin.
    + pose proof (l_held _ _ HL _ _ _ Hls Hin) as E. congruence.
    + subst t. destruct (decide (holder lk = NULL)) as [E|E]; [by rewrite E, (l_null _ _ HL) in Hls|].
      destruct (l_holder _ _ HL _ _ Hh E) as (ls & Hls' & Hin). congruence.
  - destruct (l_value _ _ HL _ _ Hh) as [_ Hv]. simpl in Hv. by rewrite lookup_fmap in Hv.
Qed.

(** Why the rules of [allowed] ask a thread to release its locks before it
    exits: the end of [thread_exit] changes no lock and no semaphore, so that a
    lock that the thread holds stays held, with a [holder] that is gone. *)
Lemma thread_die_keeps_locks s :
  pwp thread_die s (λ _ s', locks s' = locks s ∧ semas s' = semas s).
Proof.
  assert (∀ t s1, pwp (thread_schedule_tail t) s1 (λ _ s', locks s' = locks s1 ∧ semas s' = semas s1)) as Htail.
  { intros t s1. unfold thread_schedule_tail, running_thread, intr_get_level, palloc_free_page. pwp_steps.
    apply pwp_upd_thread. intros th _. pwp_steps. case_bool_decide; pwp_steps; [|done].
    apply pwp_get_thread. intros p _. pwp_steps. case_match; pwp_steps; done. }
  unfold thread_die, schedule, intr_disable, intr_get_level, running_thread, next_thread_to_run. pwp_steps.
  apply pwp_thread_current. intros _. pwp_steps. apply pwp_upd_thread. intros th _. pwp_steps.
  case_match; pwp_steps; (apply pwp_get_thread; intros th1 _); pwp_steps; (apply pwp_is_thread; intros b _);
    pwp_steps; (lazymatch goal with |- pwp (if ?b then _ else _) _ _ => destruct b end); pwp_steps;
    (eapply pwp_mono; [apply Htail|by intros [] s1 [-> ->]]).
Qed.

(** C6: In every reachable state (calls restricted by [allowed], as for
    [lock_mutual_exclusion]) the [elem] of a thread is linked into at most
    one of the ready list, the sleep list and the waiters of a semaphore, at
    most once, and its status agrees: ready threads are [THREAD_READY],
    sleepers and waiters are [THREAD_BLOCKED].  Conversely a ready thread
    other than the idle thread is on the ready list, the running thread is the
    only one with status [THREAD_RUNNING], and the sleep list is in the order
    of the wake-up times. *)
Theorem elem_on_one_queue lock_addr s :
  typing lock_addr → reachable lock_addr s →
  (∀ q, NoDup (queue_of (qv s) q)) ∧
  (∀ q q' t, t ∈ queue_of (qv s) q → t ∈ queue_of (qv s) q' → q = q') ∧
  (∀ q t, t ∈ queue_of (qv s) q → status <$> threads s !! t = Some (queue_status q)) ∧
  (∀ t th, threads s !! t = Some th → status th = THREAD_READY → t ∈ ready_list s ∨ t = idle_thread s) ∧
  (∀ t th, threads s !! t = Some th → status th = THREAD_RUNNING ↔ t = cur s) ∧
  Sorted (le_of (less_sleep s)) (sleep_list s).
Proof.
  intros Ht Hr. destruct (reachable_kinv _ _ Ht Hr) as [[[Hn Hs He Hrd Hc _ Hw] _ _ _ Hrun] _].
  split_and!; [done|done| | | |].
  - intros q t Hq. apply Hs in Hq. simpl in Hq. by rewrite lookup_fmap in Hq.
  - intros t th Hth Hst. apply Hrd. simpl. rewrite lookup_fmap, Hth. simpl. congruence.
  - intros t th Hth. split.
    + intros Hst. apply Hc. simpl. rewrite lookup_fmap, Hth. simpl. congruence.
    + intros ->. unfold running in Hrun. simpl in Hrun. rewrite lookup_fmap, Hth in Hrun. simpl in Hrun. congruence.
  - apply (Sorted_key_ext (wake_of (qv s))); [|exact Hw]. intros x _. by rewrite thread_wakeup_view.
Qed.

(** A run of the booted system: a lock is created, a second thread is
    created and blocks on it. *)
Definition demo_lock : Z := 0xc0200000.
Definition demo_addr (l : Z) : bool := (l =? tid_lock) || (l =? demo_lock).
Definition demo_trace : list action :=
  [Call (CallSwitchYield true); Call (CallLockInit demo_lock); Call (CallLockAcquire demo_lock);
   Call (CallThreadCreate 0xc0106000 0xc0107000 "high" 40); Resume; Resume; Resume; Resume; Resume; Resume; Resume;
   Resume; Resume; Resume; Call (CallLockAcquire demo_lock)].
Definition demo : kstate := Eval vm_compute in run_trace demo_trace booted.

Lemma demo_typing : typing demo_addr.
Proof. by vm_compute. Qed.

Ltac solve_trace :=
  repeat lazymatch goal with
  | |- _ ∧ _ => split
  | |- _ ∨ _ => right
  | |- _ = _ => reflexivity
  | |- True => exact I
  | |- ∀ _ _, _ → _ → _ => intros ? ? [= <-]; first [discriminate | reflexivity]
  | |- _ → False => discriminate
  end.

Lemma demo_reachable : reachable demo_addr demo.
Proof.
  assert (demo = run_trace demo_trace booted) as -> by (vm_compute; reflexivity).
  apply trace_reachable; [apply rtc_refl|]. vm_compute. solve_trace.
Qed.

Lemma lock_mutual_exclusion_witness :
  locks demo !! demo_lock = Some (mk_lock main_page 40) ∧
  value <$> semas demo !! lock_semaphore demo_lock = Some 0.
Proof.
  assert (locks demo !! demo_lock = Some (mk_lock main_page 40)) as Hl by (vm_compute; reflexivity).
  split; [exact Hl|].
  exact (proj2 (lock_mutual_exclusion demo_addr demo demo_lock _ demo_typing demo_reachable Hl)).
Defined.

Lemma elem_on_one_queue_witness :
  0xc0106000 ∈ queue_of (qv demo) (Wait (lock_semaphore demo_lock)) ∧
  status <$> threads demo !! 0xc0106000 = Some THREAD_BLOCKED ∧ 0xc0106000 ∉ ready_list demo.
Proof.
  assert (0xc0106000 ∈ queue_of (qv demo) (Wait (lock_semaphore demo_lock))) as Hq by (vm_compute; left).
  destruct (elem_on_one_queue demo_addr demo demo_typing demo_reachable) as (_ & He & Hs & _).
  split; [exact Hq|]. split; [exact (Hs _ _ Hq)|]. intros Hr. discriminate (He _ Ready _ Hq Hr).
Defined.

(** ** Priority donation *)

(** C9: [flush_priority], the recursive donation of [lock_acquire], returns
    whenever the locks that threads wait for exist and holders and lists of held
    locks agree ([chain_ok]; nothing is asked of the priorities, and the threads
    may wait for each other in a cycle).  It leaves the queues, the statuses, the
    holders and the semaphores as they are ([same]).
    And if before it the donations were up to date but for the thread [t] that
    has just started to wait ([donation]: waiters are at most at the
    [max_priority] of their lock, locks at most at the priority of their holder,
    intrinsic priorities at most at the priorities), then afterwards they are for
    all threads, along the whole chain.  ([thread_set_priority] may leave a
    thread that holds a lock with a priority below its intrinsic one; for such
    states only the return is claimed.) *)
Theorem flush_priority_restores_donation s t th :
  chain_ok s → threads s !! t = Some th →
  ∃ s', flush_priority t s = Ret (tt, s') ∧ same s s' ∧ (donation s (λ u, u ≠ t) → donation s' (λ _, True)).
Proof.
  intros HC Ht. unfold flush_priority.
  assert (wp (flush_priority_loop (flush_fuel s) t) s (λ _ s', donation s (λ u, u ≠ t) → donation s' (λ _, True))) as Hw.
  { eapply flush_priority_loop_wp; [done|apply top_priority_bounded|done|]. unfold flush_fuel, slack. lia. }
  pose proof (keeps_flush_priority_loop (flush_fuel s) t s) as Hk.
  apply wp_outcome in Hw as ([] & s' & Hrun & HD'). unfold pwp in Hk. rewrite Hrun in Hk.
  exists s'. split_and!; [|done|done]. unfold bind, get_state. done.
Qed.

(** Three threads and two locks: 1 holds 100, 2 holds 200 and waits for 100,
    and 3 starts to wait for 200. *)
Definition chain_thread (intrinsic prio : Z) (held : list Z) (wait : Z) : thread :=
  mk_thread 0 THREAD_BLOCKED "t" 0 prio 0 held intrinsic wait 0 0 [] 2 0 THREAD_MAGIC 0 [].
Definition chain : kstate :=
  mk_kstate {[1 := chain_thread 10 20 [100] NULL; 2 := chain_thread 20 20 [200] 100;
              3 := chain_thread 50 50 [] 200]}
    {[100 := mk_lock 1 20; 200 := mk_lock 2 0]} ∅ ∅ ∅ ∅ [] [] [] 3 0 0 1 false false false false 0 0 0 0 0.

Lemma chain_chain_ok : chain_ok chain.
Proof.
  split.
  - intros u th Hu Hw. concrete Hu; try done; vm_compute; eauto.
  - intros l lk Hl Hh. concrete Hl; eexists; (split; [vm_compute; reflexivity|set_solver]).
  - intros u th l Hu Hl. concrete Hu; simpl in Hl; rewrite ?list_elem_of_singleton in Hl;
      try (by apply elem_of_nil in Hl); subst; eexists; (split; [vm_compute; reflexivity|reflexivity]).
  - by vm_compute.
Qed.

Lemma chain_donation : donation chain (λ u, u ≠ 3).
Proof.
  split.
  - intros u th lk Hu Hok Hw Hl. concrete Hu; try done. concrete Hl; done.
  - intros l lk th Hl Hu. concrete Hl; concrete Hu; done.
  - intros u th Hu. concrete Hu; done.
Qed.

Lemma flush_priority_restores_donation_witness :
  ∃ s', flush_priority 3 chain = Ret (tt, s') ∧ donation s' (λ _, True).
Proof.
  destruct (flush_priority_restores_donation chain 3 (chain_thread 50 50 [] 200) chain_chain_ok eq_refl)
    as (s' & Hrun & _ & HD).
  exists s'. split; [exact Hrun|exact (HD chain_donation)].
Defined.

(** ** Choosing the next thread *)

Lemma max_elem_split (f : Z → Z) l t :
  max_elem (less_by f) l = Some t →
  ∃ l1 l2, l = l1 ++ t :: l2 ∧ remove_elem t l = l1 ++ l2 ∧
    (∀ u, u ∈ l → f u ≤ f t) ∧ (∀ u, u ∈ l1 → f u < f t).
Proof.
  intros Hmax. assert (∀ u, u ∈ l → f u ≤ f t) as Hle.
  { intros u Hu. pose proof (max_elem_max _ _ _ _ Hmax Hu) as H. unfold le_of, less_by in H. lia. }
  destruct l as [|x l]; [done|]. simpl in Hmax. injection Hmax as Hmax.
  destruct (max_from_first (less_by f) x l) as (l1 & l2 & E & Hl1). rewrite Hmax in E, Hl1.
  assert (∀ u, u ∈ l1 → f u < f t) as Hlt.
  { intros u Hu. rewrite Forall_forall in Hl1. specialize (Hl1 u Hu). unfold less_by in Hl1. lia. }
  exists l1, l2. split_and!; [done| |done|done]. rewrite E.
  assert (t ∉ l1) as Hn by (intros Hin%Hlt; lia). clear -Hn.
  induction l1 as [|y l1 IH]; simpl; [by rewrite decide_True|]. rewrite decide_False by set_solver.
  f_equal. apply IH. set_solver.
Qed.

Lemma schedule_tail_wp s prev th :
  intr_on s = false → threads s !! cur s = Some th →
  (prev = NULL ∨ prev ≠ cur s ∧ is_Some (threads s !! prev)) →
  wp (thread_schedule_tail prev) s (λ _ s',
    cur s' = cur s ∧ ready_list s' = ready_list s ∧ status <$> threads s' !! cur s = Some THREAD_RUNNING).
Proof.
  intros Hio Ht Hp. unfold thread_schedule_tail, running_thread, intr_get_level. wp_steps. rewrite Hio. wp_steps.
  eapply wp_upd_thread; [exact Ht|]. wp_steps. set (s1 := set_threads _ s).
  assert (status <$> threads s1 !! cur s = Some THREAD_RUNNING) as Hr by (simpl; by rewrite lookup_insert_eq).
  destruct (decide (prev = NULL)) as [->|Hn]; [by wp_steps|]. destruct Hp as [|[Hne [p Hp]]]; [done|].
  rewrite bool_decide_true by done. wp_step.
  eapply wp_get_thread; [simpl; rewrite lookup_insert_ne by done; exact Hp|]. wp_steps. case_match; [|by wp_steps].
  rewrite bool_decide_true by done. wp_steps. unfold palloc_free_page. wp_steps. split_and!; [done|done|].
  simpl. by rewrite lookup_delete_ne.
Qed.

(** C30: [schedule] switches to the ready thread of highest priority, the
    longest waiting one among equals, takes it off the ready list, and it runs:
    no assertion of the scheduler fails. *)
Theorem schedule_runs_highest_priority s c :
  intr_on s = false → threads s !! cur s = Some c → status c ≠ THREAD_RUNNING → ready_list s ≠ [] →
  (∀ t, t ∈ ready_list s → t ≠ NULL ∧ magic <$> threads s !! t = Some THREAD_MAGIC) →
  ∃ s' t l1 l2, schedule s = Ret (tt, s') ∧ cur s' = t ∧ status <$> threads s' !! t = Some THREAD_RUNNING ∧
    ready_list s = l1 ++ t :: l2 ∧ ready_list s' = l1 ++ l2 ∧
    (∀ u, u ∈ ready_list s → thread_priority s u ≤ thread_priority s t) ∧
    (∀ u, u ∈ l1 → thread_priority s u < thread_priority s t).
Proof.
  intros Hio Hc Hst Hne Hrd. destruct (max_elem (less_thread_priority s) (ready_list s)) as [t|] eqn:Hmax.
  2: { by apply max_elem_None in Hmax. }
  destruct (max_elem_split _ _ _ Hmax) as (l1 & l2 & E & Er & Hle & Hlt).
  destruct (Hrd t) as [Htn Hmg]; [rewrite E; set_solver|].
  destruct (threads s !! t) as [th|] eqn:Hth; [|done]. simpl in Hmg. injection Hmg as Hmg.
  cut (wp schedule s (λ _ s', cur s' = t ∧ status <$> threads s' !! t = Some THREAD_RUNNING ∧ ready_list s' = l1 ++ l2)).
  { intros ([] & s' & Hrun & Hcur & Hrs & Hrl)%wp_outcome. exists s', t, l1, l2. by split_and!. }
  unfold schedule, running_thread, next_thread_to_run. do 5 wp_step. rewrite Hmax. do 3 wp_step. rewrite Er.
  set (s1 := set_ready_list _ s). unfold intr_get_level. wp_steps. simpl. rewrite Hio. wp_steps.
  eapply wp_get_thread; [exact Hc|]. rewrite (bool_decide_true (status c ≠ _)) by done. wp_steps.
  unfold is_thread. rewrite (bool_decide_false (t = NULL)) by done. wp_step. eapply wp_get_thread; [exact Hth|].
  wp_steps. rewrite Hmg, (bool_decide_true (THREAD_MAGIC = THREAD_MAGIC)) by done. wp_steps.
  destruct (decide (cur s = t)) as [Ect|Ect].
  - rewrite bool_decide_false by auto. subst t.
    eapply wp_mono; [by apply (schedule_tail_wp s1 NULL th); [..|left]|]. intros _ s' (H1 & H2 & H3). by split_and!.
  - rewrite bool_decide_true by done. wp_steps.
    eapply wp_mono; [apply (schedule_tail_wp (set_cur t s1) (cur s) th); [done|done|right; simpl; eauto]|].
    intros _ s' (H1 & H2 & H3). by split_and!.
Qed.

Lemma schedule_runs_highest_priority_witness :
  ∃ s' t l1 l2, schedule (set_ready_list [1; 2; 3] chain) = Ret (tt, s') ∧ cur s' = t ∧
    [1; 2; 3] = l1 ++ t :: l2.
Proof.
  destruct (schedule_runs_highest_priority (set_ready_list [1; 2; 3] chain) (chain_thread 50 50 [] 200))
    as (s' & t & l1 & l2 & H1 & H2 & _ & H3 & _); [reflexivity|reflexivity|discriminate|discriminate| |].
  - intros t Ht. repeat (apply elem_of_cons in Ht as [->|Ht]; [split; [discriminate|reflexivity]|]).
    by apply elem_of_nil in Ht.
  - exists s', t, l1, l2. split; [exact H1|]. split; [exact H2|exact H3].
Defined.

(** ** The alarm clock *)

(** A sleeping thread that [thread_unblock] accepts. *)
Definition sleeper (s : kstate) (t : Z) : Prop :=
  t ≠ NULL ∧ ∃ th, threads s !! t = Some th ∧ magic th = THREAD_MAGIC ∧ status th = THREAD_BLOCKED.

Lemma thread_unblock_wp s t th Q :
  intr_on s = false → t ≠ NULL → threads s !! t = Some th → magic th = THREAD_MAGIC → status th = THREAD_BLOCKED →
  Q tt (set_intr_on false (set_threads (<[t := set_status THREAD_READY th]> (threads s))
          (set_ready_list (ready_list s ++ [t]) (set_intr_on false s)))) →
  wp (thread_unblock t) s Q.
Proof.
  intros Hio Hn Ht Hm Hst HQ. unfold thread_unblock, is_thread. wp_step.
  rewrite bool_decide_false by done. wp_step. eapply wp_get_thread; [exact Ht|]. wp_steps.
  rewrite bool_decide_true by done. wp_steps. unfold intr_disable, intr_get_level. wp_steps. rewrite Hio.
  eapply wp_get_thread; [exact Ht|]. rewrite bool_decide_true by done. wp_steps.
  eapply wp_upd_thread; [exact Ht|]. unfold intr_set_level, intr_disable, intr_get_level. by wp_steps.
Qed.

Definition due (s : kstate) (now t : Z) : Prop := thread_wakeup s t ≤ now.
#[local] Instance due_dec s now t : Decision (due s now t).
Proof. unfold due. apply _. Defined.

Lemma sorted_not_due s now x l :
  Sorted (le_of (less_sleep s)) (x :: l) → ¬ due s now x → ∀ y, y ∈ x :: l → ¬ due s now y.
Proof.
  intros Hs Hx y [->|Hy]%elem_of_cons; [done|]. pose proof (Sorted_cons_le (less_sleep s) x l y Hs Hy) as H.
  unfold due, le_of, less_sleep, less_by in *. lia.
Qed.

Lemma thread_alarm_loop_wp n s now :
  intr_on s = false → NoDup (sleep_list s) → Forall (sleeper s) (sleep_list s) →
  Sorted (le_of (less_sleep s)) (sleep_list s) → (length (sleep_list s) < n)%nat →
  wp (thread_alarm_loop n now) s (λ _ s',
    sleep_list s' = filter (λ t, ¬ due s now t) (sleep_list s) ∧
    ready_list s' = ready_list s ++ filter (due s now) (sleep_list s) ∧
    ∀ t, threads s' !! t = if decide (t ∈ filter (due s now) (sleep_list s))
                           then set_status THREAD_READY <$> threads s !! t else threads s !! t).
Proof.
  revert s. induction n as [|n IH]; intros s Hio Hnd Hsl Hso Hn; [lia|]. simpl. wp_steps.
  destruct (sleep_list s) as [|t l] eqn:El.
  { wp_step. rewrite El. split_and!; [done|by rewrite app_nil_r|]. intros t. by rewrite decide_False by set_solver. }
  apply Forall_cons in Hsl as [(Htn & th & Ht & Hm & Hst) Hsl]. apply NoDup_cons in Hnd as [Htl Hnd].
  assert (thread_wakeup s t = wakeup_time th) as Hwk by (unfold thread_wakeup; by rewrite Ht).
  wp_step. eapply wp_get_thread; [exact Ht|]. case_bool_decide as Hd.
  - wp_steps. eapply thread_unblock_wp; [done|done|exact Ht|done|done|]. set (s1 := set_intr_on false _).
    assert (∀ u, u ∈ l → threads s1 !! u = threads s !! u) as Hsame.
    { intros u Hu. simpl. rewrite lookup_insert_ne; [done|]. by intros ->. }
    assert (∀ u, u ∈ l → thread_wakeup s1 u = thread_wakeup s u) as Hsame'.
    { intros u Hu. unfold thread_wakeup. by rewrite Hsame. }
    assert (due s now t) as Hdt by (unfold due; lia).
    eapply wp_mono; [apply (IH s1); [done|done| | |simpl in *; lia]|].
    + rewrite Forall_forall in *. intros u Hu. destruct (Hsl u Hu) as (Hun & thu & Hthu & ?).
      split; [done|]. exists thu. by rewrite Hsame.
    + apply Sorted_inv in Hso as [Hso _].
      apply (Sorted_key_ext (thread_wakeup s)); [|exact Hso]. intros u Hu. by rewrite Hsame'.
    + intros _ s2 (H1 & H2 & H3). simpl in H1, H2, H3.
      rewrite (filter_ext_in (due s1 now) (due s now)) in H2, H3 by (intros u Hu; unfold due; by rewrite Hsame').
      rewrite (filter_ext_in (λ u, ¬ due s1 now u) (λ u, ¬ due s now u)) in H1
        by (intros u Hu; unfold due; by rewrite Hsame').
      rewrite (filter_cons_True (due s now)) by done. rewrite filter_cons_False by tauto. rewrite <- app_assoc in H2.
      split_and!; [done|done|]. intros u. rewrite H3. destruct (decide (u = t)) as [->|Hut].
      * rewrite decide_False by (rewrite list_elem_of_filter; tauto). rewrite decide_True by set_solver.
        by rewrite lookup_insert_eq, Ht.
      * rewrite lookup_insert_ne by done. repeat case_decide; try done; set_solver.
  - assert (¬ due s now t) as Hdt by (unfold due; lia). wp_step. rewrite El.
    assert (filter (due s now) (t :: l) = []) as F1 by (apply filter_none; by eapply sorted_not_due).
    assert (filter (λ t, ¬ due s now t) (t :: l) = t :: l) as F2 by (apply filter_all; by eapply sorted_not_due).
    rewrite F1, F2, app_nil_r. split_and!; [done|done|]. intros u. by rewrite decide_False by set_solver.
Qed.

(** The alarm clock: at a timer tick [thread_alarm] wakes exactly the
    sleeping threads whose time has come.  They become ready, in the order of
    their wake-up times, behind those that are ready already; the others stay
    asleep and no other thread changes. *)
Theorem thread_alarm_wakes_due s now :
  intr_on s = false → NoDup (sleep_list s) → Forall (sleeper s) (sleep_list s) →
  Sorted (le_of (less_sleep s)) (sleep_list s) →
  ∃ s', thread_alarm now s = Ret (tt, s') ∧
    sleep_list s' = filter (λ t, ¬ due s now t) (sleep_list s) ∧
    ready_list s' = ready_list s ++ filter (due s now) (sleep_list s) ∧
    ∀ t, threads s' !! t = if decide (t ∈ filter (due s now) (sleep_list s))
                           then set_status THREAD_READY <$> threads s !! t else threads s !! t.
Proof.
  intros Hio Hnd Hsl Hso. assert (wp (thread_alarm now) s (λ _ s',
    sleep_list s' = filter (λ t, ¬ due s now t) (sleep_list s) ∧
    ready_list s' = ready_list s ++ filter (due s now) (sleep_list s) ∧
    ∀ t, threads s' !! t = if decide (t ∈ filter (due s now) (sleep_list s))
                           then set_status THREAD_READY <$> threads s !! t else threads s !! t)) as Hw.
  { unfold thread_alarm. wp_steps. apply thread_alarm_loop_wp; [done..|lia]. }
  apply wp_outcome in Hw as ([] & s' & Hrun & Hs'). eauto.
Qed.

(** Three sleepers, two of them due at tick 7. *)
Definition sleep_thread (w : Z) : thread :=
  mk_thread 0 THREAD_BLOCKED "t" 0 31 w [] 31 0 0 0 [] 2 0 THREAD_MAGIC 0 [].
Definition bedroom : kstate :=
  mk_kstate {[1 := sleep_thread 5; 2 := sleep_thread 9; 3 := sleep_thread 7]}
    ∅ ∅ ∅ ∅ ∅ [4] [1; 3; 2] [] 4 0 0 1 false true false true 0 0 0 0 7.

Lemma thread_alarm_wakes_due_witness :
  ∃ s', thread_alarm 7 bedroom = Ret (tt, s') ∧ sleep_list s' = [2] ∧ ready_list s' = [4; 1; 3].
Proof.
  destruct (thread_alarm_wakes_due bedroom 7) as (s' & H1 & H2 & H3 & _).
  - reflexivity.
  - apply NoDup_ListNoDup. repeat constructor; simpl; intuition discriminate.
  - repeat constructor; try discriminate; eexists; repeat split.
  - repeat constructor.
  - exists s'. split; [exact H1|]. split; [rewrite H2; reflexivity|rewrite H3; reflexivity].
Defined.

(** ** Where the code departs from its specification *)

Lemma thread_current_wp s th Q :
  cur s ≠ NULL → threads s !! cur s = Some th → magic th = THREAD_MAGIC → status th = THREAD_RUNNING →
  Q (cur s) s → wp thread_current s Q.
Proof.
  intros Hn Ht Hm Hst HQ. unfold thread_current, running_thread, is_thread. wp_steps.
  rewrite bool_decide_false by done. wp_step. eapply wp_get_thread; [exact Ht|]. wp_steps.
  rewrite bool_decide_true by done. wp_steps. eapply wp_get_thread; [exact Ht|]. by rewrite bool_decide_true.
Qed.

(** A thread that holds a lock cannot raise its priority: [adjust_priority]
    does nothing when the new intrinsic priority is not below the donations, so
    after [thread_set_priority] the thread still runs at its old priority. *)
Theorem set_priority_raise_lost s th new :
  cur s ≠ NULL → threads s !! cur s = Some th → magic th = THREAD_MAGIC → status th = THREAD_RUNNING →
  enable_yield s = false → in_external_intr s = false → lock_list th ≠ [] →
  (∀ l, l ∈ lock_list th → ∃ lk, locks s !! l = Some lk ∧ max_priority lk ≤ new) →
  ∃ s', thread_set_priority new s = Ret ([], s') ∧
    priority <$> threads s' !! cur s = Some (priority th) ∧
    instrinsic_priority <$> threads s' !! cur s = Some new.
Proof.
  intros Hn Ht Hm Hst Hy Hx Hne Hl.
  assert (wp (thread_set_priority new) s (λ k s', k = [] ∧
    priority <$> threads s' !! cur s = Some (priority th) ∧
    instrinsic_priority <$> threads s' !! cur s = Some new)) as Hw.
  { unfold thread_set_priority, intr_disable, intr_get_level. wp_steps.
    eapply (thread_current_wp (set_intr_on false s)); [done|exact Ht|done|done|]. wp_steps.
    eapply wp_upd_thread; [exact Ht|]. wp_step. set (s1 := set_threads _ _).
    assert (threads s1 !! cur s = Some (set_instrinsic_priority new th)) as Ht1 by apply lookup_insert_eq.
    assert (adjusted s1 (set_instrinsic_priority new th) = priority th) as Ha.
    { unfold adjusted. simpl lock_list. destruct (max_elem _ _) as [l|] eqn:Hmax; [|by apply max_elem_None in Hmax].
      apply max_elem_Some in Hmax. destruct (Hl l Hmax) as (lk & Hlk & Hle). unfold lock_priority. simpl.
      rewrite Hlk, bool_decide_false by lia. done. }
    eapply adjust_priority_wp; [exact Ht1|intros l Hin; destruct (Hl l Hin) as (lk & ? & _); by exists lk|].
    rewrite Ha. wp_steps. set (s2 := set_threads _ s1).
    assert (threads s2 !! cur s = Some (set_priority (priority th) (set_instrinsic_priority new th))) as Ht2
      by apply lookup_insert_eq.
    unfold intr_set_level, intr_enable, intr_disable, intr_get_level, intr_context, thread_yield.
    destruct (intr_on s); wp_steps; simpl; rewrite ?Hx, ?Hy; wp_steps; simpl; rewrite ?Hy; wp_steps;
      (split_and!; [done|exact (f_equal (fmap priority) Ht2)|exact (f_equal (fmap instrinsic_priority) Ht2)]). }
  apply wp_outcome in Hw as (k & s' & Hrun & -> & Hs'). eauto.
Qed.

Definition raise_state : kstate := set_cur 1 (set_threads
  {[1 := set_status THREAD_RUNNING (chain_thread 20 20 [100] NULL)]} chain).
Lemma set_priority_raise_lost_witness :
  ∃ s', thread_set_priority 63 raise_state = Ret ([], s') ∧ priority <$> threads s' !! 1 = Some 20.
Proof.
  destruct (set_priority_raise_lost raise_state (set_status THREAD_RUNNING (chain_thread 20 20 [100] NULL)) 63)
    as (s' & H1 & H2 & _); try reflexivity; try discriminate.
  - intros l Hl%list_elem_of_singleton. subst. eexists. split; [reflexivity|discriminate].
  - exists s'. split; [exact H1|exact H2].
Defined.

(** [thread_contain_cwd] assigns where it should compare: for every sector
    but 0 it answers true, whatever the working directories are, and it moves
    the first thread of the system into that directory. *)
Theorem contain_cwd_always_true s t r th sector :
  in_external_intr s = false → all_list s = t :: r → threads s !! t = Some th → sector ≠ 0 →
  ∃ s', thread_contain_cwd sector s = Ret (true, s') ∧ cwd <$> threads s' !! t = Some sector.
Proof.
  intros Hx Ha Ht Hs.
  assert (wp (thread_contain_cwd sector) s (λ b s', b = true ∧ cwd <$> threads s' !! t = Some sector)) as Hw.
  { unfold thread_contain_cwd, intr_disable, intr_get_level. wp_steps. simpl. rewrite Ha. simpl. wp_step.
    eapply wp_upd_thread; [exact Ht|]. rewrite bool_decide_true by done. set (s1 := set_threads _ _). wp_steps.
    assert (cwd <$> threads s1 !! t = Some sector) as Hc by (simpl; by rewrite lookup_insert_eq).
    unfold intr_set_level, intr_enable, intr_disable, intr_get_level, intr_context.
    destruct (intr_on s); wp_steps; simpl; rewrite ?Hx; wp_steps; (split; [done|exact Hc]). }
  apply wp_outcome in Hw as (b & s' & Hrun & -> & Hs'). eauto.
Qed.

Lemma contain_cwd_always_true_witness :
  ∃ s', thread_contain_cwd 77 booted = Ret (true, s') ∧ cwd <$> threads s' !! main_page = Some 77.
Proof.
  destruct (threads booted !! main_page) as [th|] eqn:Ht; [|discriminate Ht].
  exact (contain_cwd_always_true booted main_page [idle_page] th 77 eq_refl eq_refl Ht ltac:(discriminate)).
Defined.

(** A thread creates a child and exits; then the child runs. *)
Definition orphan_trace : list action :=
  Call (CallThreadCreate 0xc0106000 0xc0107000 "parent" 40) :: replicate 7 Resume ++
  Call (CallSwitchYield true) :: Call CallYield :: Resume ::
  Call (CallThreadCreate 0xc0108000 0xc0109000 "child" 35) :: replicate 10 Resume ++
  [Call CallExit; Resume; Resume; Resume].
Definition orphan : kstate := Eval vm_compute in run_trace orphan_trace booted.

Lemma orphan_reachable : reachable demo_addr orphan.
Proof.
  assert (orphan = run_trace orphan_trace booted) as -> by (vm_compute; reflexivity).
  apply trace_reachable; [apply rtc_refl|]. vm_compute. solve_trace.
Qed.

(** The initial thread has no process node: when it exits, as [main] makes
    it do, [process_exit] follows a null pointer.  And a child that exits after
    its parent follows a dangling one: [free_child_list] of the parent has
    freed the process node whose semaphore the child ups. *)
Theorem exit_follows_bad_pointers :
  run (Call CallExit) booted = Fail BadAccess ∧
  ∃ s th, reachable demo_addr s ∧ threads s !! cur s = Some th ∧ pn th ≠ NULL ∧ pnodes s !! pn th = None ∧
    run (Call CallExit) s = Fail BadAccess.
Proof.
  split; [vm_compute; reflexivity|]. exists orphan. destruct (threads orphan !! cur orphan) as [th|] eqn:Ht.
  - exists th. split; [exact orphan_reachable|]. vm_compute in Ht. injection Ht as <-.
    split_and!; [reflexivity|discriminate|reflexivity|vm_compute; reflexivity].
  - vm_compute in Ht. discriminate Ht.
Qed.
