(* ===== verification/Liveness.v ===== *)
(** * Sleeping threads wake up (threads/thread.c, devices/timer.c)

    A thread that called [timer_sleep] stays asleep, whatever the other threads
    do, until its tick comes, and is awake then: no call of the kernel other than the
    timer interrupt takes it off the sleep list, and the timer interrupt does at
    the tick it asked for. *)

From S2P Require Import Prelude KList KState Thread Synch ThreadInv SynchInv Scheduler.
Local Open Scope Z_scope.

(** ** Properties of the queues that a computation keeps *)
Definition stable (P : qview → Prop) {A} (c : M kstate A) : Prop := ∀ s, P (qv s) → pwp c s (λ _ s', P (qv s')).

Section Stable.
Context (P : qview → Prop).
Notation stable := (stable P).

Lemma qstable_bind {A B} (c : M kstate A) (k : A → M kstate B) : stable c → (∀ a, stable (k a)) → stable (bind c k).
Proof. intros Hc Hk s HP. apply pwp_bind. eapply pwp_mono; [by apply Hc|]. intros a s' HP'. by apply Hk. Qed.
Lemma qstable_keeps {A} (c : M kstate A) : keeps c → stable c.
Proof. intros Hc s HP. apply pwp_keeps; [done|]. intros a s' (Hq&_). by rewrite Hq. Qed.
Lemma qstable_modify f : (∀ s, qv (f s) = qv s) → stable (modify f).
Proof. intros Hf s HP. pwp_step. by rewrite Hf. Qed.
Lemma qstable_upd_lock l f : stable (upd_lock l f).
Proof. intros s HP. by apply pwp_upd_lock. Qed.
Lemma qstable_upd_thread u f :
  (∀ th, status (f th) = status th ∧ wakeup_time (f th) = wakeup_time th) → stable (upd_thread u f).
Proof.
  intros Hf s HP. apply pwp_upd_thread. intros th Ht. destruct (Hf th) as [Hs Hw]. unfold qv. cbn.
  by rewrite !(fmap_insert_same _ _ _ _ _ Ht).
Qed.
Lemma qstable_upd_sema a f : (∀ sm, waiters (f sm) = waiters sm) → stable (upd_sema a f).
Proof. intros Hf s HP. apply pwp_upd_sema. intros sm Hs. unfold qv. cbn. by rewrite (fmap_insert_same _ _ _ _ _ Hs). Qed.
Lemma qstable_put_next_tid v : stable (s ← get_state; put_state (set_next_tid (v s) s)).
Proof. intros s HP. by pwp_steps. Qed.

End Stable.

Ltac solve_stable :=
  repeat first
    [ progress (intros; cbv beta)
    | solve [apply qstable_keeps; auto with keeps nocore]
    | solve [auto with stable nocore]
    | lazymatch goal with
      | |- stable _ (bind _ _) => apply qstable_bind
      | |- stable _ (modify _) => apply qstable_modify; done
      | |- stable _ (upd_thread _ _) => apply qstable_upd_thread; done
      | |- stable _ (upd_lock _ _) => apply qstable_upd_lock
      | |- stable _ (upd_sema _ _) => apply qstable_upd_sema; done
      end
    | case_match ].
Create HintDb stable.

(** ** A thread that sleeps *)
Definition asleep (t w : Z) (v : qview) : Prop :=
  t ∈ v_sleep v ∧ v_st v !! t = Some THREAD_BLOCKED ∧ v_wake v !! t = Some w ∧
  t ∉ v_ready v ∧ t ≠ v_idle v ∧ ∀ a l, v_wait v !! a = Some l → t ∉ l.
Definition awake (t : Z) (v : qview) : Prop :=
  v_st v !! t = Some THREAD_READY ∨ v_st v !! t = Some THREAD_RUNNING.

Section Asleep.
Context (t w : Z).
Notation stable := (stable (asleep t w)).
Implicit Types (s : kstate) (v : qview).

Lemma asleep_not_cur v : asleep t w v → running v → v_cur v ≠ t.
Proof. unfold running. intros (_&Hb&_) Hr E. by rewrite E, Hb in Hr. Qed.
Lemma asleep_set_st v u st : asleep t w v → u ≠ t → asleep t w (vset_st u st v).
Proof. intros (?&?&?&?&?&?) Hne. split_and!; [done|cbn; by rewrite lookup_insert_ne|done|done|done|done]. Qed.
Lemma asleep_readied v u : asleep t w v → u ≠ t → asleep t w (readied u v).
Proof.
  intros Ha Hne. apply asleep_set_st; [|done]. destruct Ha as (?&?&?&?&?&?). split_and!; [done|done|done|cbn; set_solver|done|done].
Qed.

Lemma thread_unblock_asleep s u : asleep t w (qv s) → u ≠ t → pwp (thread_unblock u) s (λ _ s', asleep t w (qv s')).
Proof. intros Ha Hne. eapply pwp_mono; [apply thread_unblock_inv|]. intros [] s' (_&->&_). by apply asleep_readied. Qed.

Lemma schedule_tail_asleep s prev :
  asleep t w (qv s) → cur s ≠ t → pwp (thread_schedule_tail prev) s (λ _ s', asleep t w (qv s')).
Proof.
  intros Ha Hne. unfold thread_schedule_tail, running_thread, intr_get_level. pwp_steps. apply pwp_upd_thread. intros th Hth.
  pose proof (asleep_set_st _ _ THREAD_RUNNING Ha Hne) as Ha'. rewrite <- (qv_set_status _ _ _ _ Hth) in Ha'. pwp_steps.
  case_bool_decide; [|by pwp_step]. pwp_step. apply pwp_get_thread. intros p Hp. pwp_steps.
  case_match eqn:Hdy; [|by pwp_step]. apply andb_true_iff in Hdy as [Hdy%bool_decide_eq_true_1 _]. pwp_steps.
  unfold palloc_free_page. pwp_steps. cbn in Hp.
  assert (prev ≠ t) as Hpt.
  { intros ->. destruct Ha' as (_&Hb&_). cbn in Hb. rewrite lookup_fmap, Hp in Hb. cbn in Hb. congruence. }
  destruct Ha' as (?&?&?&?&?&?). unfold asleep, qv in *. cbn in *. rewrite !fmap_delete, !lookup_delete_ne by done. by split_and!.
Qed.
Lemma schedule_asleep : stable schedule.
Proof.
  intros s Ha. unfold schedule, running_thread, next_thread_to_run. do 5 pwp_step.
  assert (∀ s1 next, asleep t w (qv s1) → next ≠ t → cur s1 = cur s →
    pwp (l ← intr_get_level; ASSERT (negb l);;
         th ← get_thread (cur s); ASSERT (bool_decide (status th ≠ THREAD_RUNNING));;
         b ← is_thread next; ASSERT b;;
         if bool_decide (cur s ≠ next)
         then modify (set_cur next);; thread_schedule_tail (cur s)
         else thread_schedule_tail NULL) s1 (λ _ s', asleep t w (qv s'))) as Hgo.
  { intros s1 next Ha1 Hne Hc. unfold intr_get_level. pwp_steps. apply pwp_get_thread. intros c _. pwp_steps.
    apply pwp_is_thread. intros b _. pwp_steps. case (bool_decide_reflect (cur s ≠ next)) as [Hcn|Hcn].
    - pwp_steps. by apply (schedule_tail_asleep (set_cur next s1)).
    - apply schedule_tail_asleep; [done|]. rewrite Hc. apply dec_stable in Hcn. congruence. }
  destruct Ha as (?&?&?&Hr&Hi&?). destruct (max_elem _ _) as [x|] eqn:Hmax.
  - apply max_elem_Some in Hmax. do 3 pwp_step. apply Hgo; [|by intros ->|done].
    split_and!; [done|done|done| |done|done]. cbn. intros Hin. apply Hr. by eapply remove_elem_sub.
  - pwp_step. apply Hgo; [by split_and!|by apply not_eq_sym|done].
Qed.

(** The running thread changes its own status. *)
Lemma upd_current_asleep s st (Q : unit → kstate → Prop) :
  asleep t w (qv s) → running (qv s) → (∀ s', asleep t w (qv s') → Q tt s') → pwp (upd_thread (cur s) (set_status st)) s Q.
Proof.
  intros Ha Hr HQ. apply pwp_upd_thread. intros th Hth. apply HQ. rewrite (qv_set_status _ _ _ _ Hth).
  apply asleep_set_st; [done|]. exact (asleep_not_cur _ Ha Hr).
Qed.
Lemma thread_block_asleep : stable thread_block.
Proof.
  intros s Ha. unfold thread_block, intr_context, intr_get_level. pwp_steps. apply pwp_thread_current. intros Hr.
  pwp_step. apply upd_current_asleep; [done|done|]. intros s' Ha'. by apply schedule_asleep.
Qed.
Lemma thread_yield_asleep : stable thread_yield.
Proof.
  intros s Ha. unfold thread_yield. pwp_steps. case_match; [by pwp_step|]. pwp_step. apply pwp_thread_current. intros Hr.
  unfold intr_context, intr_disable, intr_get_level. pwp_steps. pose proof (asleep_not_cur _ Ha Hr) as Hc. cbn in Hc.
  eapply (pwp_mono _ _ (λ _ s', asleep t w (qv s') ∧ running (qv s') ∧ cur s' = cur s)).
  - case_bool_decide; pwp_step; [|done]. split_and!; [|done|done]. destruct Ha as (?&?&?&?&?&?).
    split_and!; [done|done|done|cbn; set_solver|done|done].
  - intros [] s1 (Ha1&Hr1&<-). pwp_step. apply upd_current_asleep; [done|done|]. intros s2 Ha2.
    pwp_step. eapply pwp_mono; [by apply schedule_asleep|]. intros [] s3 Ha3. by pwp_step.
Qed.
Hint Resolve schedule_asleep thread_block_asleep thread_yield_asleep : stable.

Lemma thread_sleep_asleep w' : stable (thread_sleep w').
Proof.
  intros s Ha. unfold thread_sleep, intr_disable, intr_get_level. pwp_steps. apply pwp_thread_current. intros Hr.
  pose proof (asleep_not_cur _ Ha Hr) as Hc. cbn in Hc. pwp_step. apply pwp_upd_thread. intros th Hth. pwp_steps.
  eapply pwp_mono; [apply thread_block_asleep|intros [] s' Ha'; by pwp_step].
  destruct Ha as (?&?&?&?&?&?). cbn in *. unfold asleep, qv. cbn. split_and!; try done.
  - rewrite ordered_insert_Permutation. by right.
  - rewrite fmap_insert, lookup_insert_ne; done.
  - rewrite fmap_insert, lookup_insert_ne; done.
Qed.

(** *** Semaphores and locks *)
Lemma run_after_asleep k : stable (run_after k).
Proof. destruct k; unfold run_after, lock_acquire_tail, running_thread; solve_stable. Qed.
Hint Resolve run_after_asleep : stable.
Lemma set_waiters_asleep s a sm l :
  asleep t w (qv s) → t ∉ l → asleep t w (qv (set_semas (<[a := set_waiters l sm]> (semas s)) s)).
Proof.
  intros (?&?&?&?&?&Hw) Hl. unfold asleep, qv. cbn. split_and!; try done. intros b l'.
  rewrite fmap_insert. intros [[<- <-]|[Hne Hb]]%lookup_insert_Some; [done|by eapply Hw].
Qed.
Lemma sema_down_loop_asleep a old k : stable (sema_down_loop a old k).
Proof.
  intros s Ha. unfold sema_down_loop. pwp_step. apply pwp_get_sema. intros sm Hsm.
  case_bool_decide; [|revert s Ha Hsm; intros s Ha _; revert s Ha; change (stable (upd_sema a (λ sm, set_value (u32 (value sm - 1)) sm);; _ ← intr_set_level old; run_after k)); solve_stable].
  pwp_step. apply pwp_thread_current. intros Hr. pose proof (asleep_not_cur _ Ha Hr) as Hc. cbn in Hc. pwp_step.
  apply pwp_upd_sema. intros sm' Hsm'. assert (sm' = sm) as -> by congruence. pwp_step.
  eapply pwp_mono; [apply thread_block_asleep|intros [] s' Ha'; by pwp_step].
  apply set_waiters_asleep; [done|]. destruct Ha as (_&_&_&_&_&Hw). specialize (Hw a (waiters sm)). cbn in Hw.
  rewrite lookup_fmap, Hsm in Hw. specialize (Hw eq_refl). set_solver.
Qed.
Hint Resolve sema_down_loop_asleep : stable.
Lemma sema_down_asleep a k : stable (sema_down a k).
Proof. unfold sema_down, intr_context. solve_stable. Qed.
Lemma sema_try_down_asleep a : stable (sema_try_down a).
Proof. unfold sema_try_down. solve_stable. Qed.
Lemma sema_up_asleep a : stable (sema_up a).
Proof.
  intros s Ha. unfold sema_up. pwp_steps. apply pwp_keeps; [apply keeps_intr_disable|]. intros old s1 (Hq&_). rewrite <- Hq in Ha.
  pwp_steps. apply pwp_get_sema. intros sm Hsm. pwp_step.
  apply (pwp_mono _ _ (λ _ s', asleep t w (qv s'))).
  - destruct (max_elem _ _) as [u|] eqn:Hmax; [|by pwp_step]. apply max_elem_Some in Hmax.
    assert (t ∉ waiters sm) as Hn.
    { destruct Ha as (_&_&_&_&_&Hw). apply (Hw a). cbn. by rewrite lookup_fmap, Hsm. }
    pwp_step. apply pwp_upd_sema. intros sm' Hsm'. assert (sm' = sm) as -> by congruence.
    apply thread_unblock_asleep; [|by intros ->]. apply set_waiters_asleep; [done|]. intros Hin. by apply Hn, (remove_elem_sub u).
  - intros [] s2 Ha2. revert s2 Ha2. change (stable (upd_sema a (λ sm, set_value (u32 (value sm + 1)) sm);;
      _ ← intr_set_level old; c ← intr_context; if negb c then thread_yield else ret [])). unfold intr_context. solve_stable.
Qed.
Hint Resolve sema_down_asleep sema_try_down_asleep sema_up_asleep : stable.
Lemma sema_init_asleep a x : stable (sema_init a x).
Proof.
  intros s Ha. unfold sema_init. pwp_steps. destruct Ha as (?&?&?&?&?&Hw). unfold asleep, qv. cbn. split_and!; try done.
  intros b l. rewrite fmap_insert. intros [[<- <-]|[_ Hb]]%lookup_insert_Some; [set_solver|by eapply Hw].
Qed.
Hint Resolve sema_init_asleep : stable.
Lemma free_pnode_asleep p : stable (free_pnode p).
Proof.
  intros s Ha. unfold free_pnode. pwp_steps. destruct Ha as (?&?&?&?&?&Hw). unfold asleep, qv. cbn. split_and!; try done.
  intros b l. rewrite fmap_delete. intros [_ Hb]%lookup_delete_Some. by eapply Hw.
Qed.
Hint Resolve free_pnode_asleep : stable.


Lemma lock_init_asleep l : stable (lock_init l).
Proof. unfold lock_init. solve_stable. Qed.
Lemma lock_acquire_asleep l : stable (lock_acquire l).
Proof. unfold lock_acquire, intr_context. solve_stable. Qed.
Lemma lock_try_acquire_asleep l : stable (lock_try_acquire l).
Proof. unfold lock_try_acquire. solve_stable. Qed.
Lemma lock_release_asleep l : stable (lock_release l).
Proof. unfold lock_release. solve_stable. Qed.
Hint Resolve lock_init_asleep lock_acquire_asleep lock_try_acquire_asleep lock_release_asleep : stable.

(** *** Condition variables *)
Lemma cond_init_asleep c : stable (cond_init c).
Proof. unfold cond_init, set_cond. solve_stable. Qed.
Lemma cond_wait_asleep c l x : stable (cond_wait c l x).
Proof. unfold cond_wait, intr_context, get_cond, set_cond. solve_stable. Qed.
Lemma cond_signal_asleep c l : stable (cond_signal c l).
Proof. unfold cond_signal, intr_context, get_cond, set_cond. solve_stable. Qed.
Hint Resolve cond_init_asleep cond_wait_asleep cond_signal_asleep : stable.
Lemma cond_broadcast_asleep c l : stable (cond_broadcast c l).
Proof. unfold cond_broadcast, get_cond. solve_stable. Qed.

(** *** Life of a thread *)
Lemma new_thread_asleep u th : u ≠ t → stable (modify (λ s, set_threads (<[u := th]> (threads s)) s)).
Proof.
  intros Hne s (?&?&?&?&?&?). pwp_step. unfold asleep, qv. cbn. rewrite !fmap_insert, !lookup_insert_ne by done. by split_and!.
Qed.
Lemma thread_create_asleep u p nm prio f : u ≠ t → stable (thread_create u p nm prio f).
Proof.
  intros Hne. unfold thread_create, init_thread. case_bool_decide; [solve_stable|].
  pose proof (new_thread_asleep u) as Hnew. specialize (λ th, Hnew th Hne). solve_stable.
Qed.
Lemma thread_create_tail_asleep u p f : u ≠ t → stable (thread_create_tail u p f).
Proof.
  intros Hne. assert (stable (thread_unblock u)) by (intros s Ha; by apply thread_unblock_asleep).
  unfold thread_create_tail, running_thread. solve_stable.
Qed.

Lemma free_child_list_asleep : stable free_child_list.
Proof.
  unfold free_child_list. assert (∀ l, stable (free_child_loop l)) as Hl by (induction l; cbn; solve_stable).
  solve_stable.
Qed.
Hint Resolve free_child_list_asleep : stable.
Lemma process_exit_asleep : stable process_exit.
Proof. unfold process_exit. solve_stable. Qed.
Hint Resolve process_exit_asleep : stable.
Lemma thread_die_asleep : stable thread_die.
Proof.
  intros s Ha. unfold thread_die. pwp_step. apply pwp_keeps; [apply keeps_intr_disable|]. intros _ s1 (Hq&_). rewrite <- Hq in Ha.
  pwp_step. apply pwp_thread_current. intros Hr. pwp_steps.
  apply (upd_current_asleep (set_all_list _ s1)); [done|done|]. intros s2 Ha2. by apply schedule_asleep.
Qed.
Lemma process_wait_asleep child : stable (process_wait child).
Proof. unfold process_wait, find_child_pnode. solve_stable. Qed.
Lemma process_wait_tail_asleep p : stable (process_wait_tail p).
Proof. unfold process_wait_tail, running_thread. solve_stable. Qed.
Lemma thread_set_priority_asleep p : stable (thread_set_priority p).
Proof. unfold thread_set_priority. solve_stable. Qed.
Lemma thread_exit_asleep : stable thread_exit.
Proof. unfold thread_exit, intr_context. solve_stable. Qed.
Lemma timer_sleep_asleep n : stable (timer_sleep n).
Proof. unfold timer_sleep, intr_get_level. pose proof thread_sleep_asleep. solve_stable. Qed.
Lemma idle_loop_asleep : stable idle_loop.
Proof. unfold idle_loop. solve_stable. Qed.
Hint Resolve cond_broadcast_asleep thread_die_asleep process_wait_asleep process_wait_tail_asleep thread_set_priority_asleep
  thread_exit_asleep timer_sleep_asleep idle_loop_asleep : stable.


(** *** Steps of the machine *)
Lemma exec_asleep st :
  (∀ u p f, st = CreateTail u p f → u ≠ t) → (∀ a, st ≠ IdleStart a) → stable (exec st).
Proof.
  intros Hc Hi. destruct st; cbn [exec]; try (unfold kernel_thread, thread_init_tail; solve_stable; fail).
  - apply thread_create_tail_asleep. by eapply Hc.
  - by edestruct Hi.
Qed.
Lemma exec_call_asleep c : (∀ u p nm prio, c = CallThreadCreate u p nm prio → u ≠ t) → stable (exec_call c).
Proof.
  intros Hc. destruct c; cbn [exec_call]; try (unfold switch_yield; solve_stable; fail).
  apply thread_create_asleep. by eapply Hc.
Qed.
Lemma push_pending_asleep u k : stable (push_pending u k).
Proof.
  intros s Ha. unfold push_pending. pwp_step. unfold qv. cbn.
  replace (status <$> alter _ u (threads s)) with (status <$> threads s).
  1: replace (wakeup_time <$> alter _ u (threads s)) with (wakeup_time <$> threads s); [exact Ha|].
  all: apply map_eq; intros x; rewrite !lookup_fmap, lookup_alter; case_decide; [subst x|done]; by destruct (threads s !! u).
Qed.

End Asleep.

(** ** The clock

    Only the timer interrupt changes [ticks]. *)
Definition clockless {A} (c : M kstate A) : Prop := ∀ s, pwp c s (λ _ s', ticks s' = ticks s).

Section Clockless.

Lemma clockless_bind {A B} (c : M kstate A) (k : A → M kstate B) : clockless c → (∀ a, clockless (k a)) → clockless (bind c k).
Proof.
  intros Hc Hk s. apply pwp_bind. eapply pwp_mono; [apply Hc|]. intros a s1 H1. eapply pwp_mono; [apply Hk|].
  intros b s2 H2. congruence.
Qed.
Lemma clockless_ret {A} (a : A) : clockless (ret a).
Proof. done. Qed.
Lemma clockless_fail {A} f : clockless (fail (A := A) f).
Proof. done. Qed.
Lemma clockless_gets {A} (f : kstate → A) : clockless (gets f).
Proof. done. Qed.
Lemma clockless_get_state : clockless get_state.
Proof. done. Qed.
Lemma clockless_modify f : (∀ s, ticks (f s) = ticks s) → clockless (modify f).
Proof. done. Qed.
Lemma clockless_deref {A} (o : option A) : clockless (deref o).
Proof. by destruct o. Qed.
Lemma clockless_ASSERT b : clockless (ASSERT b).
Proof. by destruct b. Qed.

End Clockless.

Ltac head_of c := lazymatch c with ?f _ => head_of f | _ => c end.
Ltac solve_clockless :=
  repeat first
    [ progress (intros; cbv beta)
    | solve [auto using clockless_ret, clockless_fail, clockless_gets, clockless_get_state, clockless_deref, clockless_ASSERT with clockless nocore]
    | lazymatch goal with
      | |- clockless (bind _ _) => apply clockless_bind
      | |- clockless (modify _) => apply clockless_modify; done
      | |- clockless ?c => first [case_match | let h := head_of c in progress unfold h]
      end ].
Create HintDb clockless.

Section Clock.

Lemma next_thread_clockless : clockless next_thread_to_run.
Proof. intros s. unfold next_thread_to_run. pwp_steps. case_match; by pwp_steps. Qed.
Lemma put_next_tid_clockless : clockless (s ← get_state; put_state (set_next_tid (next_tid s + 1) s)).
Proof. intros s. by pwp_steps. Qed.
Hint Resolve next_thread_clockless : clockless.
Lemma flush_loop_clockless n u : clockless (flush_priority_loop n u).
Proof. revert u. induction n as [|n IH]; intros u; cbn [flush_priority_loop]; solve_clockless. Qed.
Lemma free_child_loop_clockless l : clockless (free_child_loop l).
Proof. induction l; cbn [free_child_loop]; solve_clockless. Qed.
Hint Resolve flush_loop_clockless free_child_loop_clockless : clockless.
Lemma thread_yield_clockless : clockless thread_yield.
Proof. solve_clockless. Qed.
Lemma sema_up_clockless a : clockless (sema_up a).
Proof. pose proof thread_yield_clockless. solve_clockless. Qed.
Hint Resolve thread_yield_clockless sema_up_clockless : clockless.
Lemma tid_next_clockless : clockless tid_next.
Proof. intros s. unfold tid_next. pwp_steps. change (ticks s) with (ticks (set_next_tid (next_tid s + 1) s)).
  generalize (set_next_tid (next_tid s + 1) s). change (clockless (set_result (next_tid s))). solve_clockless. Qed.
Hint Resolve tid_next_clockless : clockless.
Lemma thread_alarm_loop_clockless n now : clockless (thread_alarm_loop n now).
Proof. induction n as [|n IH]; cbn [thread_alarm_loop]; solve_clockless. Qed.
Lemma exec_clockless st : clockless (exec st).
Proof. destruct st; cbn [exec]; solve_clockless. Qed.
Lemma exec_call_clockless c : clockless (exec_call c).
Proof. destruct c; cbn [exec_call]; solve_clockless. Qed.

End Clock.

(** ** A thread that is awake, at the end of the timer interrupt *)
Section Awake.
Context (t : Z).
Notation stable := (stable (awake t)).

Lemma awake_set_st v u st : awake t v → st = THREAD_READY ∨ st = THREAD_RUNNING → awake t (vset_st u st v).
Proof.
  unfold awake. cbn. intros Ha Hst. destruct (decide (u = t)) as [->|Hne].
  - rewrite lookup_insert_eq. destruct Hst as [->| ->]; auto.
  - by rewrite lookup_insert_ne.
Qed.
Lemma upd_status_awake u st : st = THREAD_READY ∨ st = THREAD_RUNNING → stable (upd_thread u (set_status st)).
Proof.
  intros Hst s Ha. apply pwp_upd_thread. intros th Hth. rewrite (qv_set_status _ _ _ _ Hth). by apply awake_set_st.
Qed.
Lemma schedule_tail_awake prev : stable (thread_schedule_tail prev).
Proof.
  unfold thread_schedule_tail, running_thread, intr_get_level.
  apply qstable_bind; [solve_stable|intros u]. apply qstable_bind; [solve_stable|intros l]. apply qstable_bind; [solve_stable|intros _].
  apply qstable_bind; [apply upd_status_awake; auto|intros _]. apply qstable_bind; [solve_stable|intros _].
  case_bool_decide; [|solve_stable]. intros s Ha. pwp_step. apply pwp_get_thread. intros p Hp. pwp_steps.
  case_match eqn:Hdy; [|by pwp_step]. apply andb_true_iff in Hdy as [Hdy%bool_decide_eq_true_1 _]. pwp_steps.
  unfold palloc_free_page. pwp_steps. unfold awake, qv in *. cbn in *. rewrite fmap_delete, lookup_delete_ne; [done|].
  intros ->. rewrite lookup_fmap, Hp in Ha. cbn in Ha. destruct Ha; congruence.
Qed.
Lemma next_thread_awake : stable next_thread_to_run.
Proof. intros s Ha. unfold next_thread_to_run. pwp_steps. case_match; by pwp_steps. Qed.
Lemma set_list_awake f : (∀ s, threads (f s) = threads s) → stable (modify f).
Proof. intros Hf s Ha. pwp_step. unfold awake, qv in *. cbn in *. by rewrite Hf. Qed.
Lemma schedule_awake : stable schedule.
Proof.
  pose proof schedule_tail_awake. pose proof next_thread_awake. unfold schedule, running_thread, intr_get_level.
  repeat (apply qstable_bind; [solve_stable|intros ?]). case_bool_decide; [|solve_stable].
  apply qstable_bind; [by apply set_list_awake|solve_stable].
Qed.
Lemma thread_yield_awake : stable thread_yield.
Proof.
  pose proof schedule_awake. unfold thread_yield, intr_context. apply qstable_bind; [solve_stable|intros e]. case_match; [solve_stable|].
  repeat (apply qstable_bind; [first [solve [solve_stable]|apply upd_status_awake; auto|case_bool_decide; [by apply set_list_awake|solve_stable]]|intros ?]).
  solve_stable.
Qed.
Lemma push_pending_awake u k : stable (push_pending u k).
Proof.
  intros s Ha. unfold push_pending. pwp_step. unfold awake, qv in *. cbn in *. rewrite lookup_fmap, lookup_alter in *.
  case_decide; [|done]. subst. by destruct (threads s !! t).
Qed.

End Awake.

(** ** The timer interrupt *)
Section Timer.
Context (t w : Z).

(** What the alarm does to a sleeper at time [now]. *)
Definition alarmed (now : Z) (v : qview) : Prop := (asleep t w v ∧ now < w) ∨ (awake t v ∧ w ≤ now).
Definition sleep_sorted (v : qview) : Prop := NoDup (v_sleep v) ∧ Sorted (le_of (less_by (wake_of v))) (v_sleep v).

Lemma alarm_loop_alarmed n s now :
  (asleep t w (qv s) ∧ sleep_sorted (qv s)) ∨ (awake t (qv s) ∧ w ≤ now) →
  pwp (thread_alarm_loop n now) s (λ _ s', alarmed now (qv s')).
Proof.
  revert s. induction n as [|n IH]; intros s Hs; cbn [thread_alarm_loop]; [by pwp_step|]. pwp_steps.
  destruct (sleep_list s) as [|u rest] eqn:Hsl.
  { pwp_step. destruct Hs as [[(Hin&_) _]|Hs]; [|by right]. cbn in Hin. rewrite Hsl in Hin. by apply elem_of_nil in Hin. }
  pwp_step. apply pwp_get_thread. intros th Hth. case_bool_decide as Hdue.
  - pwp_steps. eapply pwp_mono; [apply thread_unblock_inv|]. intros [] s2 (Hb&Hq&_). apply IH. rewrite Hq.
    change (qv (set_sleep_list rest s)) with (vset_sleep rest (qv s)) in *. destruct Hs as [[Ha [Hnd Hso]]|[Ha Hle]].
    2: { right. split; [|done]. apply awake_set_st; [exact Ha|by left]. }
    pose proof Ha as (Hin&_&Hw&_). cbn in Hin, Hnd, Hso. rewrite Hsl in Hin, Hnd, Hso. apply NoDup_cons in Hnd as [Hnu Hnd].
    destruct (decide (u = t)) as [->|Hne].
    + right. split; [left; apply lookup_insert_eq|]. cbn in Hw. rewrite lookup_fmap, Hth in Hw. injection Hw as <-. lia.
    + left. split; [apply asleep_readied; [|done]|].
      * destruct Ha as (_&?&?&?&?&?). split_and!; try done. cbn. set_solver.
      * split; [done|]. cbn. by apply Sorted_inv in Hso as [Hso _].
  - pwp_step. destruct Hs as [[Ha [Hnd Hso]]|Hs]; [|by right]. left. split; [done|]. pose proof Ha as (Hin&_&Hw&_).
    cbn in Hin, Hso. rewrite Hsl in Hin, Hso.
    assert (wake_of (qv s) t = w ∧ wake_of (qv s) u = wakeup_time th) as [Ht Hu].
    { unfold wake_of. rewrite Hw. cbn. by rewrite lookup_fmap, Hth. }
    apply elem_of_cons in Hin as [->|Hin]; [lia|].
    pose proof (Sorted_cons_le _ u rest t Hso Hin) as Hle. unfold le_of, less_by in Hle. lia.
Qed.

Lemma thread_yield_alarmed now : stable (alarmed now) thread_yield.
Proof.
  intros s [[Ha Hw]|[Ha Hw]].
  - eapply pwp_mono; [by apply (thread_yield_asleep t w)|]. intros k s' Ha'. by left.
  - eapply pwp_mono; [by apply (thread_yield_awake t)|]. intros k s' Ha'. by right.
Qed.
Lemma push_pending_alarmed now u k : stable (alarmed now) (push_pending u k).
Proof.
  intros s [[Ha Hw]|[Ha Hw]].
  - eapply pwp_mono; [by apply (push_pending_asleep t w)|]. intros [] s' Ha'. by left.
  - eapply pwp_mono; [by apply (push_pending_awake t)|]. intros [] s' Ha'. by right.
Qed.


Lemma intr_handler_alarmed s :
  asleep t w (qv s) → sleep_sorted (qv s) → 0 ≤ ticks s < 2 ^ 63 - 1 →
  pwp intr_handler s (λ _ s', alarmed (ticks s + 1) (qv s') ∧ ticks s' = ticks s + 1).
Proof.
  intros Ha Hso Ht. unfold intr_handler, intr_context, timer_interrupt, thread_alarm, intr_get_level. pwp_steps.
  set (s1 := set_ticks _ _). assert (ticks s1 = ticks s + 1) as Ht1 by (cbn; apply s64_small; word_lia). rewrite <- Ht1.
  eapply pwp_mono; [apply pwp_and; [apply (alarm_loop_alarmed _ s1); by left|apply thread_alarm_loop_clockless]|].
  intros [] s2 [Ha2 Ht2]. eapply pwp_mono; [apply pwp_and; [apply keeps_thread_tick|]|].
  { assert (clockless thread_tick) as Htt by solve_clockless. apply Htt. }
  intros [] s3 [(Hq3&_) Ht3]. rewrite <- Hq3 in Ha2. pwp_steps.
  apply (pwp_mono _ _ (λ _ s', alarmed (ticks s1) (qv s') ∧ ticks s' = ticks s3)).
  - case_match; [|by pwp_step]. apply pwp_and; [by apply (thread_yield_alarmed (ticks s1) (set_in_external_intr false s3))|].
    apply (thread_yield_clockless (set_in_external_intr false s3)).
  - intros k s4 [Ha4 Ht4]. pwp_step. split; [done|congruence].
Qed.

Context (lock_addr : Z → bool).

Lemma asleep_step s a :
  kinv lock_addr s → allowed lock_addr s a → a ≠ Tick → asleep t w (qv s) →
  pwp (run a) s (λ _ s', asleep t w (qv s') ∧ ticks s' = ticks s).
Proof.
  intros HK Hal Hnt Ha. pose proof Ha as (Hin&Hst&_).
  assert (∃ tht, threads s !! t = Some tht) as [tht Htht].
  { cbn in Hst. rewrite lookup_fmap in Hst. destruct (threads s !! t); [eauto|done]. }
  unfold run, running_thread. pwp_steps. apply pwp_get_thread. intros th Hth.
  assert (∀ k s1, asleep t w (qv s1) → ticks s1 = ticks s →
    pwp (push_pending (cur s) k) s1 (λ _ s', asleep t w (qv s') ∧ ticks s' = ticks s)) as Hpush.
  { intros k s1 Ha1 Ht1. apply pwp_and; [by apply push_pending_asleep|]. unfold push_pending. by pwp_step. }
  destruct a as [|c|]; [| |done].
  - destruct (pending th) as [|st rest] eqn:Hpe; [pwp_step|]. pwp_step. apply pwp_upd_thread. intros th' Hth'.
    assert (th' = th) as -> by congruence. pwp_step.
    eapply pwp_mono; [apply pwp_and; [apply (exec_asleep t w)|apply exec_clockless]|].
    + intros u p f ->. intros ->. destruct HK as [_ _ _ HT _]. destruct (HT (cur s) (pthread_of th) t) as (_&Hno&_).
      * cbn. by rewrite lookup_fmap, Hth.
      * cbn. rewrite Hpe. by left.
      * by apply (Hno Sleep).
    + intros a ->. destruct HK as [_ _ HP _ _]. pose proof (p_stmts _ _ _ HP (cur s) (pthread_of th)) as Hok.
      cbn in Hok. rewrite lookup_fmap, Hth in Hok. specialize (Hok eq_refl). rewrite Hpe in Hok. by apply Forall_cons in Hok as [[] _].
    + unfold qv. cbn. by rewrite !(fmap_insert_same _ _ _ _ _ Hth).
    + intros k s2 [Ha2 Ht2]. by apply Hpush.
  - destruct (pending th) as [|st rest] eqn:Hpe; [|pwp_step]. pwp_step.
    eapply pwp_mono; [apply pwp_and; [apply (exec_call_asleep t w)|apply exec_call_clockless]|].
    + intros u p nm prio ->. intros ->. destruct Hal as [->|[Hn _]]; [|congruence].
      destruct HK as [_ _ HP _ _]. destruct (p_thread _ _ _ HP NULL (pthread_of tht)) as [? _]; [|done]. cbn. by rewrite lookup_fmap, Htht.
    + done.
    + intros k s2 [Ha2 Ht2]. by apply Hpush.
Qed.

Lemma tick_step s :
  kinv lock_addr s → asleep t w (qv s) → 0 ≤ ticks s < 2 ^ 63 - 1 →
  pwp (run Tick) s (λ _ s', alarmed (ticks s') (qv s') ∧ ticks s' = ticks s + 1).
Proof.
  intros [HQ _ _ _ _] Ha Ht. unfold run, running_thread, intr_get_level. pwp_steps. apply pwp_get_thread. intros th Hth. pwp_steps.
  case_match; [|pwp_step]. pwp_step. eapply pwp_mono; [apply intr_handler_alarmed; [done| |done]|].
  { split; [apply (q_nodup _ HQ Sleep)|apply HQ]. }
  intros k s1 [Ha1 Ht1]. rewrite <- Ht1 in Ha1 |- *. eapply pwp_mono; [apply pwp_and; [by apply (push_pending_alarmed (ticks s1))|]|].
  { instantiate (1 := λ _ s', ticks s' = ticks s1). unfold push_pending. by pwp_step. }
  intros [] s2 [Ha2 Ht2]. by rewrite Ht2.
Qed.

End Timer.

(** ** Claims *)
Definition is_tick (a : action) : bool := match a with Tick => true | _ => false end.
Fixpoint ticks_in (l : list action) : Z := match l with [] => 0 | a :: r => (if is_tick a then 1 else 0) + ticks_in r end.
(** The ticks a sleeper is still to wait for: the interrupt looks at the sleepers
    only when the clock has advanced. *)
Definition delay (s : kstate) (w : Z) : Z := Z.max 1 (w - ticks s).

Lemma sleeper_trace lock_addr t w l s :
  kinv lock_addr s → idle_last s → allowed_trace lock_addr l s → asleep t w (qv s) →
  0 ≤ ticks s → ticks s + Z.of_nat (length l) < 2 ^ 63 →
  (ticks_in l < delay s w → asleep t w (qv (run_trace l s))) ∧
  (delay s w ≤ ticks_in l → ∃ k, ticks_in (take k l) = delay s w ∧ awake t (qv (run_trace (take k l) s))).
Proof.
  revert s. induction l as [|a l IH]; intros s HK Hil Hal Ha H0 Ht; cbn [ticks_in].
  { split; [done|unfold delay; lia]. }
  cbn [allowed_trace] in Hal. destruct Hal as [Hok Hal]. cbn [length] in Ht.
  pose proof (run_inv lock_addr s a HK Hil Hok) as Hinv. cbn [run_trace]. unfold pwp in Hinv.
  assert (pwp (run a) s (λ _ s', if is_tick a then alarmed t w (ticks s') (qv s') ∧ ticks s' = ticks s + 1
    else asleep t w (qv s') ∧ ticks s' = ticks s)) as Hstep.
  { destruct a; cbn [is_tick]; [by apply (asleep_step t w lock_addr)..|apply (tick_step t w lock_addr); [done|done|lia]]. }
  unfold pwp in Hstep. destruct (run a s) as [[[] s1]|] eqn:Hrun; [|done]. destruct Hinv as [HK1 Hil1].
  assert (∀ k, run_trace (take (S k) (a :: l)) s = run_trace (take k l) s1) as Htake by (intros k; cbn [take run_trace]; by rewrite Hrun).
  destruct (is_tick a) eqn:Htick.
  - destruct Hstep as [[[Ha1 Hw]|[Ha1 Hw]] Ht1].
    + destruct (IH s1) as [IH1 IH2]; [done|done|done|done|lia|lia|]. assert (delay s1 w + 1 = delay s w) as Hd by (unfold delay; lia).
      split; [intros Hlt; apply IH1; lia|]. intros Hle. destruct IH2 as (k&Hk&Hk'); [lia|]. exists (S k).
      rewrite Htake. split; [|done]. cbn [take ticks_in]. rewrite Htick. lia.
    + assert (delay s w = 1) as Hd by (unfold delay; lia). rewrite Hd.
      assert (∀ l, 0 ≤ ticks_in l) as Hpos by (intros l'; induction l'; cbn [ticks_in]; [lia|case_match; lia]).
      specialize (Hpos l). split; [lia|]. intros _. exists 1%nat. rewrite Htake. split; [|done]. cbn [take ticks_in]. rewrite Htick. done.
  - destruct Hstep as [Ha1 Ht1]. destruct (IH s1) as [IH1 IH2]; [done|done|done|done|lia|lia|].
    assert (delay s1 w = delay s w) as Hd by (unfold delay; by rewrite Ht1). rewrite Hd in *.
    split; [intros Hlt; apply IH1; lia|]. intros Hle. destruct IH2 as (k&Hk&Hk'); [lia|]. exists (S k).
    rewrite Htake. split; [|done]. cbn [take ticks_in]. rewrite Htick. lia.
Qed.

(** C5: A sleeping thread wakes up on time.  Take any reachable state of the booted
    system in which thread [t] is on the sleep list, and any run from it, the timer
    interrupting at any point, in which the threads keep to the rules of [allowed]
    (locks are initialised once and at addresses of their own, the semaphore of a
    lock is used only through the lock, the page of a new thread is not in use, no
    thread exits with a lock held) and the tick counter does not reach 2^63.  As
    long as fewer timer
    interrupts have come than the thread asked to sleep, it is still asleep; and
    if that many come in the run, then right after the one that makes up the number the
    thread is ready or running.  (The clock is checked only when it advances,
    so that a thread whose time has passed already waits for one interrupt.) *)
Theorem sleeper_wakes_on_time lock_addr s l t th :
  typing lock_addr → reachable lock_addr s → t ∈ sleep_list s → threads s !! t = Some th →
  allowed_trace lock_addr l s → 0 ≤ ticks s → ticks s + Z.of_nat (length l) < 2 ^ 63 →
  (ticks_in l < delay s (wakeup_time th) → t ∈ sleep_list (run_trace l s)) ∧
  (delay s (wakeup_time th) ≤ ticks_in l →
   ∃ k th', ticks_in (take k l) = delay s (wakeup_time th) ∧ threads (run_trace (take k l) s) !! t = Some th' ∧
     (status th' = THREAD_READY ∨ status th' = THREAD_RUNNING)).
Proof.
  intros Hty Hre Hin Hth Hal H0 Hov. destruct (reachable_kinv _ _ Hty Hre) as [HK Hil]. pose proof (k_q _ _ HK) as HQ.
  assert (asleep t (wakeup_time th) (qv s)) as Ha.
  { split_and!; [done|by apply (q_status _ HQ Sleep)|cbn; by rewrite lookup_fmap, Hth| | |].
    - intros Hr. by discriminate (q_excl _ HQ Sleep Ready t).
    - intros ->. by apply (q_idle _ HQ Sleep).
    - intros a q Hq Htq. discriminate (q_excl _ HQ Sleep (Wait a) t); [done|]. cbn in *. by rewrite Hq. }
  destruct (sleeper_trace lock_addr t (wakeup_time th) l s) as [H1 H2]; [done..|]. split.
  - intros Hlt. by apply H1.
  - intros Hle. destruct (H2 Hle) as (k&Hk&Haw). exists k. unfold awake in Haw. cbn in Haw. rewrite lookup_fmap in Haw.
    destruct (threads (run_trace (take k l) s) !! t) as [th'|] eqn:E; [|by destruct Haw]. exists th'. cbn in Haw. split; [exact Hk|]. split; [done|].
    destruct Haw as [[= ?]|[= ?]]; auto.
Qed.

(** The first thread sleeps for two ticks; the idle thread runs. *)
Definition nap_trace : list action := [Call (CallTimerSleep 2)].
Definition napping : kstate := Eval vm_compute in run_trace nap_trace booted.
Definition idle_trace : list action := [Resume; Tick; Resume; Resume; Resume; Tick].

Lemma napping_reachable : reachable demo_addr napping.
Proof.
  assert (napping = run_trace nap_trace booted) as -> by (vm_compute; reflexivity).
  apply trace_reachable; [apply rtc_refl|]. vm_compute. solve_trace.
Qed.

Lemma sleeper_wakes_on_time_witness :
  main_page ∈ sleep_list (run_trace (take 5 idle_trace) napping) ∧
  ∃ k th', ticks_in (take k idle_trace) = 2 ∧ threads (run_trace (take k idle_trace) napping) !! main_page = Some th' ∧
    (status th' = THREAD_READY ∨ status th' = THREAD_RUNNING).
Proof.
  assert (main_page ∈ sleep_list napping) as Hin by (vm_compute; left).
  destruct (threads napping !! main_page) as [th|] eqn:Hth; [|discriminate Hth].
  assert (delay napping (wakeup_time th) = 2) as Hd by (revert Hth; intros [= <-]; reflexivity).
  split.
  - destruct (sleeper_wakes_on_time demo_addr napping (take 5 idle_trace) main_page th demo_typing napping_reachable Hin Hth) as [H _].
    + vm_compute. solve_trace.
    + vm_compute. discriminate.
    + reflexivity.
    + apply H. rewrite Hd. reflexivity.
  - destruct (sleeper_wakes_on_time demo_addr napping idle_trace main_page th demo_typing napping_reachable Hin Hth) as [_ H].
    + vm_compute. solve_trace.
    + vm_compute. discriminate.
    + reflexivity.
    + rewrite Hd in H. apply H. vm_compute. discriminate.
Defined.
