(* ===== verification/Hash.v ===== *)
(** * Hash tables (lib/kernel/hash.c, lib/kernel/hash.h)

    The chained hash table of the kernel: an array of buckets, each a list of
    elements, that grows and shrinks by powers of two.  The buckets are Rocq
    lists with the operations KList proves of the linked ones
    ([list_push_front], [list_remove], iteration).  An element is identified
    by its address; [hash] and [less] read the structure it is embedded in.
    The table is proved to implement a finite map from keys to elements. *)

From S2P Require Import Prelude.
Local Open Scope Z_scope.

(** ** Data *)

(** [struct hash] without its function pointers. *)
Record table (elem : Type) := mk_table {
  elem_cnt : Z;
  bucket_cnt : Z;
  buckets : list (list elem)
}.
Arguments mk_table {elem}.
Arguments elem_cnt {elem}.
Arguments bucket_cnt {elem}.
Arguments buckets {elem}.

(** [i->elem] of [struct hash_iterator]: the head of the bucket's list, the
    element at a position of it, or the null pointer. *)
Inductive iter_elem := IterHead | IterAt (n : nat) | IterNull.
(** [struct hash_iterator]; [i->bucket] is an index into the array. *)
Record hash_iterator := mk_iterator { iter_bucket : nat; iter_pos : iter_elem }.

Definition MIN_ELEMS_PER_BUCKET : Z := 1.
Definition BEST_ELEMS_PER_BUCKET : Z := 2.
Definition MAX_ELEMS_PER_BUCKET : Z := 4.
Definition FNV_32_PRIME : Z := 16777619.
Definition FNV_32_BASIS : Z := 2166136261.

(** ** Hash functions *)

(** [while (size-- > 0) hash = (hash * FNV_32_PRIME) ^ *buf++;] *)
Definition hash_bytes (buf : list Z) : Z :=
  foldl (λ h b, Z.lxor (u32 (h * FNV_32_PRIME)) b) FNV_32_BASIS buf.
(** The bytes of the string before its terminator. *)
Definition hash_string (s : list Z) : Z :=
  foldl (λ h b, Z.lxor (u32 (h * FNV_32_PRIME)) b) FNV_32_BASIS s.
(** The four bytes of [i], the low one first. *)
Definition hash_int (i : Z) : Z :=
  hash_bytes ((λ k, Z.land (Z.shiftr (u32 i) (8 * k)) 255) <$> [0; 1; 2; 3]).

Definition turn_off_least_1bit (x : Z) : Z := Z.land x (u32 (x - 1)).
Definition is_power_of_2 (x : Z) : bool :=
  bool_decide (x ≠ 0) && bool_decide (turn_off_least_1bit x = 0).

(** [while (!is_power_of_2 (x)) x = turn_off_least_1bit (x)]: each iteration
    clears one of the 32 bits. *)
Fixpoint to_power_of_2 (fuel : nat) (x : Z) : outcome Z :=
  match fuel with
  | O => Fail OutOfFuel
  | S fuel => if is_power_of_2 x then Ret x else to_power_of_2 fuel (turn_off_least_1bit x)
  end.

(** ** Operations *)
Section Operations.
Context {elem : Type} `{EqDecision elem} (hash : elem → Z) (less : elem → elem → bool).
Implicit Types (h : table elem) (e : elem).

Definition hash_init (malloc_ok : bool) : option (table elem) :=
  if malloc_ok then Some (mk_table 0 4 (replicate 4 [])) else None.

(** The table after [hash_clear], and the elements the destructor is called
    on, in order. *)
Definition hash_clear (destructor : bool) h : table elem * list elem :=
  (mk_table 0 (bucket_cnt h) (replicate (length (buckets h)) []),
   if destructor then concat (buckets h) else []).

(** The elements the destructor is called on; the buckets are freed. *)
Definition hash_destroy (destructor : bool) h : list elem :=
  if destructor then snd (hash_clear true h) else [].

Definition find_bucket h e : nat := Z.to_nat (Z.land (hash e) (u32 (bucket_cnt h - 1))).

Fixpoint find_elem_loop (l : list elem) e : option elem :=
  match l with
  | [] => None
  | hi :: r => if negb (less hi e) && negb (less e hi) then Some hi else find_elem_loop r e
  end.
Definition find_elem h (bucket : nat) e : M (table elem) (option elem) :=
  b ← deref (buckets h !! bucket); ret (find_elem_loop b e).

Definition insert_elem (bucket : nat) e : M (table elem) unit :=
  h ← get_state;
  b ← deref (buckets h !! bucket);
  put_state (mk_table (u32 (elem_cnt h + 1)) (bucket_cnt h) (<[bucket := e :: b]> (buckets h))).

(** [list_remove] unlinks the element from the bucket it is in. *)
Definition remove_hash_elem e : M (table elem) unit :=
  modify (λ h, mk_table (u32 (elem_cnt h - 1)) (bucket_cnt h) (remove_elem e <$> buckets h)).

(** The inner loop of [rehash]: the elements of an old bucket are pushed on
    the front of their new buckets. *)
Fixpoint move_bucket (l : list elem) : M (table elem) unit :=
  match l with
  | [] => ret tt
  | e :: r =>
      h ← get_state;
      let i := find_bucket h e in
      b ← deref (buckets h !! i);
      put_state (mk_table (elem_cnt h) (bucket_cnt h) (<[i := e :: b]> (buckets h)));;
      move_bucket r
  end.
Fixpoint move_buckets (old : list (list elem)) : M (table elem) unit :=
  match old with
  | [] => ret tt
  | l :: r => move_bucket l;; move_buckets r
  end.

(** [malloc_ok] tells whether [malloc] finds room for the new buckets. *)
Definition rehash (malloc_ok : bool) : M (table elem) unit :=
  h ← get_state;
  let old_buckets := buckets h in
  let old_bucket_cnt := bucket_cnt h in
  let wanted := elem_cnt h / BEST_ELEMS_PER_BUCKET in
  let wanted := if wanted <? 4 then 4 else wanted in
  match to_power_of_2 33 wanted with
  | Fail f => fail f
  | Ret new_bucket_cnt =>
      if bool_decide (new_bucket_cnt = old_bucket_cnt) then ret tt
      else if negb malloc_ok then ret tt
      else
        put_state (mk_table (elem_cnt h) new_bucket_cnt (replicate (Z.to_nat new_bucket_cnt) []));;
        move_buckets old_buckets
  end.

Definition hash_insert (malloc_ok : bool) (new : elem) : M (table elem) (option elem) :=
  h ← get_state;
  let bucket := find_bucket h new in
  old ← find_elem h bucket new;
  (if old is None then insert_elem bucket new else ret tt);;
  rehash malloc_ok;;
  ret old.

Definition hash_replace (malloc_ok : bool) (new : elem) : M (table elem) (option elem) :=
  h ← get_state;
  let bucket := find_bucket h new in
  old ← find_elem h bucket new;
  (if old is Some o then remove_hash_elem o else ret tt);;
  insert_elem bucket new;;
  rehash malloc_ok;;
  ret old.

Definition hash_find e : M (table elem) (option elem) :=
  h ← get_state; find_elem h (find_bucket h e) e.

Definition hash_delete (malloc_ok : bool) e : M (table elem) (option elem) :=
  h ← get_state;
  found ← find_elem h (find_bucket h e) e;
  (if found is Some o then remove_hash_elem o;; rehash malloc_ok else ret tt);;
  ret found.

(** The elements [action] is called on, in order. *)
Definition hash_apply h : list elem := concat (buckets h).

Definition hash_first : hash_iterator := mk_iterator 0 IterHead.

(** The loop of [hash_next]: the iterator is at the end of the bucket's list,
    and goes on to the first element of a later bucket; [rest] are the
    buckets after the current one. *)
Fixpoint next_bucket (rest : list (list elem)) (i : nat) : hash_iterator * option elem :=
  match rest with
  | [] => (mk_iterator (S i) IterNull, None)
  | [] :: rest => next_bucket rest (S i)
  | (e :: _) :: _ => (mk_iterator (S i) (IterAt 0), Some e)
  end.
Definition hash_next h (i : hash_iterator) : outcome (hash_iterator * option elem) :=
  match buckets h !! iter_bucket i, iter_pos i with
  | Some b, IterHead | Some b, IterAt _ =>
      let n := match iter_pos i with IterAt n => S n | _ => O end in
      match b !! n with
      | Some e => Ret (mk_iterator (iter_bucket i) (IterAt n), Some e)
      | None => Ret (next_bucket (drop (S (iter_bucket i)) (buckets h)) (iter_bucket i))
      end
  | _, _ => Fail BadAccess (* [list_next] of a null pointer *)
  end.

Definition hash_cur h (i : hash_iterator) : option elem :=
  match iter_pos i with IterAt n => buckets h !! iter_bucket i ≫= (.!! n) | _ => None end.

Definition hash_size h : Z := elem_cnt h.
Definition hash_empty h : bool := bool_decide (elem_cnt h = 0).

(** [while (hash_next (&i))], the iteration idiom of the comment. *)
Fixpoint hash_iterate (fuel : nat) h (i : hash_iterator) : outcome (list elem) :=
  match fuel with
  | O => Fail OutOfFuel
  | S fuel =>
      match hash_next h i with
      | Fail f => Fail f
      | Ret (i', None) => Ret []
      | Ret (i', Some e) =>
          match hash_iterate fuel h i' with Ret l => Ret (e :: l) | Fail f => Fail f end
      end
  end.

End Operations.

(** ** The power-of-two computation *)
Section PowerOfTwo.
Implicit Types x c z : Z.

Lemma testbit_high a r c j : 0 ≤ c → 0 ≤ r < 2 ^ c → c ≤ j → Z.testbit (2 ^ c * a + r) j = Z.testbit a (j - c).
Proof.
  intros Hc Hr Hj. replace j with (j - c + c) at 1 by lia.
  rewrite <- Z.div_pow2_bits by lia. f_equal.
  rewrite Z.mul_comm, Z.add_comm, Z.div_add, Z.div_small by lia. lia.
Qed.

Lemma testbit_low a c j : 0 ≤ j < c → Z.testbit (2 ^ c * a) j = false.
Proof. intros Hj. rewrite Z.mul_comm. apply Z.mul_pow2_bits_low. lia. Qed.

(** Clearing the lowest set bit. *)
Lemma turn_off_odd c z :
  0 ≤ c → 0 ≤ z → 2 ^ c * (2 * z + 1) < 2 ^ 32 →
  turn_off_least_1bit (2 ^ c * (2 * z + 1)) = 2 ^ (c + 1) * z.
Proof.
  intros Hc Hz Hx. pose proof (Z.pow_pos_nonneg 2 c ltac:(lia) Hc) as Hp.
  unfold turn_off_least_1bit. rewrite u32_small by word_lia.
  apply Z.bits_inj'. intros j Hj. rewrite Z.land_spec.
  replace (2 ^ c * (2 * z + 1) - 1) with (2 ^ c * (2 * z) + (2 ^ c - 1)) by lia.
  replace (2 ^ (c + 1) * z) with (2 ^ c * (2 * z)) by (rewrite Z.pow_add_r; lia).
  destruct (decide (j < c)) as [Hjc|Hjc]; [by rewrite !testbit_low by lia|].
  rewrite (testbit_high (2 * z)) by lia.
  rewrite <- (Z.add_0_r (2 ^ c * (2 * z + 1))), testbit_high by lia.
  rewrite <- (Z.add_0_r (2 ^ c * (2 * z))), testbit_high by lia.
  destruct (decide (j = c)) as [->|].
  - rewrite Z.sub_diag, Z.testbit_even_0. apply andb_false_r.
  - replace (j - c) with (Z.succ (j - c - 1)) by lia.
    rewrite Z.testbit_odd_succ, Z.testbit_even_succ by lia. apply andb_diag.
Qed.

Lemma odd_part x : 0 < x → ∃ c z, 0 ≤ c ∧ 0 ≤ z ∧ x = 2 ^ c * (2 * z + 1).
Proof.
  intros Hx. assert (∀ n : nat, x < Z.of_nat n → ∃ c z, 0 ≤ c ∧ 0 ≤ z ∧ x = 2 ^ c * (2 * z + 1)) as H.
  { intros n. revert x Hx. induction n as [|n IH]; intros x Hx Hn; [lia|].
    destruct (Z.Even_or_Odd x) as [[y ->]|[y ->]].
    - destruct (IH y) as (c & z & Hc & Hz & ->); [lia..|]. exists (c + 1), z.
      rewrite Z.pow_add_r by lia. lia.
    - exists 0, y. lia. }
  apply (H (Z.to_nat (x + 1))). lia.
Qed.

Lemma log2_odd_part c z : 0 ≤ c → 0 < z → Z.log2 (2 ^ (c + 1) * z) = Z.log2 (2 ^ c * (2 * z + 1)).
Proof.
  intros Hc Hz. rewrite !(Z.mul_comm (2 ^ _)), !Z.log2_mul_pow2 by lia.
  rewrite Z.add_1_r, (Z.log2_succ_double z) by lia. lia.
Qed.

Lemma is_power_of_2_odd_part c z :
  0 ≤ c → 0 ≤ z → 2 ^ c * (2 * z + 1) < 2 ^ 32 →
  is_power_of_2 (2 ^ c * (2 * z + 1)) = bool_decide (z = 0).
Proof.
  intros Hc Hz Hx. pose proof (Z.pow_pos_nonneg 2 c ltac:(lia) Hc).
  pose proof (Z.pow_pos_nonneg 2 (c + 1) ltac:(lia) ltac:(lia)).
  unfold is_power_of_2. rewrite turn_off_odd by lia. rewrite bool_decide_true by nia. simpl.
  apply bool_decide_ext. nia.
Qed.

(** The loop ends, with the largest power of two that is at most [x]. *)
Lemma to_power_of_2_from k fuel x :
  0 ≤ k → 0 < x < 2 ^ 32 → (2 ^ k | x) → 33 ≤ Z.of_nat fuel + k →
  to_power_of_2 fuel x = Ret (2 ^ Z.log2 x).
Proof.
  revert k x. induction fuel as [|fuel IH]; intros k x Hk Hx Hd Hf.
  { apply Z.divide_pos_le in Hd; [|lia]. pose proof (Z.pow_le_mono_r 2 33 k ltac:(lia) ltac:(lia)). lia. }
  destruct (odd_part x) as (c & z & Hc & Hz & ->); [lia|].
  assert (k ≤ c) as Hkc.
  { destruct (decide (k ≤ c)) as [|Hlt]; [done|]. destruct Hd as [q Hq].
    replace k with (c + 1 + (k - c - 1)) in Hq by lia. rewrite !Z.pow_add_r in Hq by lia.
    pose proof (Z.pow_pos_nonneg 2 c ltac:(lia) Hc).
    assert (2 * z + 1 = 2 * (q * 2 ^ (k - c - 1))) by (apply (Z.mul_reg_l _ _ (2 ^ c)); lia). lia. }
  simpl. rewrite is_power_of_2_odd_part by lia. case_bool_decide as Hz0.
  - subst. replace (2 ^ c * (2 * 0 + 1)) with (2 ^ c) by lia. by rewrite Z.log2_pow2 by lia.
  - rewrite turn_off_odd by lia. rewrite <- log2_odd_part by lia.
    pose proof (Z.pow_pos_nonneg 2 (c + 1) ltac:(lia) ltac:(lia)).
    apply (IH (c + 1)); [lia| |by apply Z.divide_factor_l|lia].
    rewrite Z.pow_add_r in * by lia. nia.
Qed.

Lemma to_power_of_2_spec x : 0 < x < 2 ^ 32 → to_power_of_2 33 x = Ret (2 ^ Z.log2 x).
Proof. intros Hx. apply (to_power_of_2_from 0); [lia|done|apply Z.divide_1_l|lia]. Qed.

End PowerOfTwo.

(** ** Well-formed tables and the map they stand for *)

(** What a client promises of its [hash] and [less]: they depend on a key, and
    two elements that are not [less] either way have the same key. *)
Class Keyed {elem K : Type} (key : elem → K) (hash : elem → Z) (less : elem → elem → bool) : Prop := {
  keyed_less a b : negb (less a b) && negb (less b a) = true ↔ key a = key b;
  keyed_hash a b : key a = key b → hash a = hash b;
  keyed_range a : is_u32 (hash a)
}.

Section Buckets.
Context {A : Type} `{EqDecision A}.
Implicit Types (bs : list (list A)) (e : A).

Lemma elem_of_concat e bs : e ∈ concat bs ↔ ∃ i b, bs !! i = Some b ∧ e ∈ b.
Proof.
  rewrite list_elem_of_In, in_concat. setoid_rewrite <- list_elem_of_In. split.
  - intros (b & Hb & He). apply list_elem_of_lookup in Hb as [i Hi]. eauto.
  - intros (i & b & Hi & He). exists b. split; [by eapply list_elem_of_lookup_2|done].
Qed.

Lemma concat_push bs i b e : bs !! i = Some b → concat (<[i := e :: b]> bs) ≡ₚ e :: concat bs.
Proof.
  revert i. induction bs as [|b' bs IH]; intros [|i] Hi; simplify_eq/=; [done|].
  rewrite (IH i Hi). by rewrite Permutation_middle.
Qed.

Lemma concat_remove bs e : e ∈ concat bs → NoDup (concat bs) → concat bs ≡ₚ e :: concat (remove_elem e <$> bs).
Proof.
  induction bs as [|b bs IH]; csimpl; [by intros ?%elem_of_nil|].
  intros [Hb|Hbs]%elem_of_app (_ & Hd & Hn)%NoDup_app.
  - rewrite (remove_elem_Permutation e b Hb) at 1. csimpl.
    assert (remove_elem e <$> bs = bs) as ->; [|done]. rewrite <- (list_fmap_id bs) at 2.
    apply list_fmap_ext. intros i b' Hi. simpl. apply remove_elem_notin.
    intros He. apply (Hd e Hb), elem_of_concat. eauto.
  - rewrite (remove_elem_notin e b) by (intros Hb; by apply (Hd e)).
    rewrite (IH Hbs Hn) at 1. by rewrite Permutation_middle.
Qed.

End Buckets.

Section Refinement.
Context {elem : Type} `{EqDecision elem} {K : Type} `{Countable K}.
Context (key : elem → K) (hash : elem → Z) (less : elem → elem → bool) `{!Keyed key hash less}.
Implicit Types (h : table elem) (e : elem).

(** The elements of the table. *)
Definition elems h : list elem := concat (buckets h).

(** The finite map the table stands for. *)
Definition entry e : K * elem := (key e, e).
Definition tab_map h : gmap K elem := list_to_map (entry <$> elems h).

(** The buckets are a power of two, each element is in the bucket of its
    hash value, the count is right and the keys are distinct. *)
Record table_wf h : Prop := {
  twf_cnt : ∃ j, 2 ≤ j < 32 ∧ bucket_cnt h = 2 ^ j;
  twf_len : Z.of_nat (length (buckets h)) = bucket_cnt h;
  twf_placed i b e : buckets h !! i = Some b → e ∈ b → find_bucket hash h e = i;
  twf_elems : elem_cnt h = Z.of_nat (length (elems h));
  twf_nodup : NoDup (key <$> elems h)
}.

Lemma find_bucket_mod h j e :
  0 ≤ j < 32 → bucket_cnt h = 2 ^ j → find_bucket hash h e = Z.to_nat (hash e mod 2 ^ j).
Proof.
  intros Hj E. unfold find_bucket. rewrite E. pose proof (Z.pow_pos_nonneg 2 j ltac:(lia) ltac:(lia)).
  pose proof (Z.pow_lt_mono_r 2 j 32 ltac:(lia) ltac:(lia) ltac:(lia)).
  rewrite u32_small by word_lia. replace (2 ^ j - 1) with (Z.ones j) by (rewrite Z.ones_equiv; lia).
  by rewrite Z.land_ones by lia.
Qed.

Lemma find_bucket_lookup h j e :
  0 ≤ j < 32 → bucket_cnt h = 2 ^ j → Z.of_nat (length (buckets h)) = bucket_cnt h →
  ∃ b, buckets h !! find_bucket hash h e = Some b.
Proof.
  intros Hj E L. apply lookup_lt_is_Some. rewrite (find_bucket_mod h j) by done.
  pose proof (Z.mod_pos_bound (hash e) (2 ^ j) ltac:(apply Z.pow_pos_nonneg; lia)). lia.
Qed.

Lemma find_elem_loop_spec l e :
  match find_elem_loop less l e with
  | Some x => x ∈ l ∧ key x = key e
  | None => ∀ x, x ∈ l → key x ≠ key e
  end.
Proof.
  induction l as [|x l IH]; simpl; [by intros x ?%elem_of_nil|].
  destruct (negb (less x e) && negb (less e x)) eqn:E.
  - apply (keyed_less (hash := hash)) in E. split; [set_solver|done].
  - destruct (find_elem_loop less l e); [set_solver|]. intros y [->|Hy]%elem_of_cons; [|by apply IH].
    intros Hk. apply (keyed_less (hash := hash) (less := less)) in Hk. congruence.
Qed.

Lemma tab_map_lookup h k e : table_wf h → tab_map h !! k = Some e ↔ e ∈ elems h ∧ key e = k.
Proof.
  intros Hwf. unfold tab_map. rewrite <- elem_of_list_to_map.
  - rewrite list_elem_of_fmap. unfold entry. naive_solver.
  - rewrite <- list_fmap_compose. apply Hwf.
Qed.

Lemma tab_map_lookup_None h k : table_wf h → tab_map h !! k = None ↔ ∀ e, e ∈ elems h → key e ≠ k.
Proof.
  intros Hwf. rewrite eq_None_not_Some. split.
  - intros Hn e He Hk. apply Hn. exists e. by apply tab_map_lookup.
  - intros Hn [e (He & Hk)%tab_map_lookup]; [by eapply Hn|done].
Qed.

(** The elements of the key of [e] are in its bucket. *)
Lemma same_bucket h b e x :
  table_wf h → buckets h !! find_bucket hash h e = Some b → x ∈ elems h → key x = key e → x ∈ b.
Proof.
  intros Hwf Hb (i' & b' & Hi & Hx)%elem_of_concat Hk.
  pose proof (twf_placed h Hwf i' b' x Hi Hx) as Hp.
  assert (find_bucket hash h x = find_bucket hash h e) as E
    by (unfold find_bucket; by rewrite (keyed_hash (less := less) x e Hk)).
  congruence.
Qed.

Lemma find_elem_spec h e Q h' :
  table_wf h → Q (tab_map h !! key e) h' → wp (find_elem less h (find_bucket hash h e) e) h' Q.
Proof.
  intros Hwf HQ. pose proof Hwf as [(j & Hj & Ej) L _ _ _].
  destruct (find_bucket_lookup h j e ltac:(lia) Ej L) as [b Hb].
  unfold find_elem. wp_step. eapply wp_deref; [done|]. wp_step.
  enough (tab_map h !! key e = find_elem_loop less b e) as <- by done.
  pose proof (find_elem_loop_spec b e) as Hf. destruct (find_elem_loop less b e) as [x|].
  - destruct Hf as [Hx Hk]. apply tab_map_lookup; [done|]. split; [|done].
    apply elem_of_concat. eauto.
  - apply tab_map_lookup_None; [done|]. intros x Hx Hk. eapply Hf; [|done]. by eapply same_bucket.
Qed.

(** Two tables with the same elements stand for the same map. *)
Lemma tab_map_perm h l : NoDup (key <$> elems h) → elems h ≡ₚ l → tab_map h = list_to_map (entry <$> l).
Proof.
  intros Hn Hp. unfold tab_map. apply list_to_map_proper; [|by rewrite Hp].
  by rewrite <- list_fmap_compose.
Qed.

Lemma key_NoDup h : NoDup (key <$> elems h) → NoDup (elems h).
Proof. apply NoDup_fmap_1. Qed.

(** [h] with the elements [l]; everything of [table_wf] but the count. *)
Record placed h (l : list elem) : Prop := {
  pl_cnt : ∃ j, 2 ≤ j < 32 ∧ bucket_cnt h = 2 ^ j;
  pl_len : Z.of_nat (length (buckets h)) = bucket_cnt h;
  pl_placed i b e : buckets h !! i = Some b → e ∈ b → find_bucket hash h e = i;
  pl_elems : elems h ≡ₚ l
}.

#[global] Instance placed_Proper h : Proper ((≡ₚ) ==> iff) (placed h).
Proof. intros l1 l2 Hl. split; intros [? ? ? E]; (split; [done..|]); by rewrite E, Hl. Qed.

Lemma placed_push h l e b :
  placed h l → buckets h !! find_bucket hash h e = Some b → ∀ n,
  placed (mk_table n (bucket_cnt h) (<[find_bucket hash h e := e :: b]> (buckets h))) (e :: l).
Proof.
  intros [Hj L Hp El] Hb n. split; simpl; [done|by rewrite length_insert| |].
  - intros i b' x Hi Hx. change (find_bucket hash h x = i). apply list_lookup_insert_Some in Hi as [(<- & <- & _)|[_ Hi]].
    + apply elem_of_cons in Hx as [->|Hx]; [done|]. by eapply Hp.
    + by eapply Hp.
  - unfold elems in *. simpl. by rewrite (concat_push _ _ _ _ Hb), El.
Qed.

Lemma move_bucket_spec l h l0 :
  placed h l0 →
  wp (move_bucket hash l) h (λ _ h', placed h' (l ++ l0) ∧ elem_cnt h' = elem_cnt h ∧ bucket_cnt h' = bucket_cnt h).
Proof.
  revert h l0. induction l as [|e l IH]; intros h l0 Hp; simpl move_bucket; wp_steps; [done|].
  pose proof Hp as [(j & Hj & Ej) L _ _]. destruct (find_bucket_lookup h j e ltac:(lia) Ej L) as [b Hb].
  eapply wp_deref; [done|]. wp_steps.
  eapply wp_mono; [apply IH, (placed_push h l0 e b Hp Hb)|]. simpl. intros _ h' (Hp' & ? & ?).
  split_and!; [|done..]. destruct Hp' as [? ? ? El]. split; [done..|]. rewrite El. by rewrite Permutation_middle.
Qed.

Lemma move_buckets_spec bs h l0 :
  placed h l0 →
  wp (move_buckets hash bs) h (λ _ h',
    placed h' (concat bs ++ l0) ∧ elem_cnt h' = elem_cnt h ∧ bucket_cnt h' = bucket_cnt h).
Proof.
  revert h l0. induction bs as [|b bs IH]; intros h l0 Hp; simpl; wp_steps; [done|].
  eapply wp_mono; [by apply move_bucket_spec|]. intros [] h1 (Hp1 & E1 & E2).
  eapply wp_mono; [by apply IH|]. intros [] h2 (Hp2 & E3 & E4). split_and!; [|congruence..].
  destruct Hp2 as [? ? ? El]. split; [done..|]. rewrite El. by rewrite !app_assoc, (Permutation_app_comm b).
Qed.

(** The ideal number of buckets. *)
Definition ideal (n : Z) : Z := 2 ^ Z.log2 ((n / 2) `max` 4).

Lemma ideal_range n : n < 2 ^ 32 → ∃ j, 2 ≤ j < 32 ∧ ideal n = 2 ^ j.
Proof.
  intros Hn. exists (Z.log2 ((n / 2) `max` 4)). split; [|done].
  assert (4 ≤ (n / 2) `max` 4 < 2 ^ 32) by (pose proof (Z.div_lt_upper_bound n 2 (2 ^ 31) ltac:(lia) ltac:(lia)); lia).
  split; [by apply Z.log2_le_pow2; lia|]. apply Z.log2_lt_pow2; lia.
Qed.

(** [rehash] keeps the elements, and gives the ideal number of buckets when
    there is room for them. *)
Lemma rehash_spec ok h l :
  placed h l → 0 ≤ elem_cnt h < 2 ^ 32 →
  wp (rehash hash ok) h (λ _ h', placed h' l ∧ elem_cnt h' = elem_cnt h ∧
    (ok = true → bucket_cnt h' = ideal (elem_cnt h))).
Proof.
  intros Hp Hn. unfold rehash. wp_steps. unfold BEST_ELEMS_PER_BUCKET.
  replace (if elem_cnt h / 2 <? 4 then 4 else elem_cnt h / 2) with ((elem_cnt h / 2) `max` 4) by (case_match; lia).
  assert (4 ≤ (elem_cnt h / 2) `max` 4 < 2 ^ 32) by (pose proof (Z.div_lt_upper_bound (elem_cnt h) 2 (2 ^ 31) ltac:(lia) ltac:(lia)); lia).
  rewrite to_power_of_2_spec by lia. fold (ideal (elem_cnt h)). case_bool_decide as E; [by wp_step|].
  destruct ok; simpl; [|by wp_step]. wp_steps. destruct (ideal_range (elem_cnt h) ltac:(lia)) as (j & Hj & Ej).
  eapply wp_mono; [apply (move_buckets_spec (buckets h) _ [])|].
  - split; simpl; [eauto|rewrite length_replicate; pose proof (Z.pow_pos_nonneg 2 j ltac:(lia) ltac:(lia)); lia| |].
    + intros i b e [-> _]%lookup_replicate. by intros ?%elem_of_nil.
    + unfold elems. simpl. by rewrite concat_nil_Forall || (induction (Z.to_nat _); simpl; done).
  - simpl. intros _ h' ([? ? ? El] & E1 & E2). split_and!; [|done..]. split; [done..|].
    rewrite El, app_nil_r. apply Hp.
Qed.

Lemma wf_placed h : table_wf h → placed h (elems h).
Proof. intros [? ? ? ? ?]. by split. Qed.

(** A placed table with the right count and distinct keys is well formed. *)
Lemma placed_wf h l :
  placed h l → elem_cnt h = Z.of_nat (length l) → NoDup (key <$> l) →
  table_wf h ∧ tab_map h = list_to_map (entry <$> l).
Proof.
  intros [? ? ? El] Hn Hk. assert (NoDup (key <$> elems h)) by by rewrite El.
  split; [split; [done..|by rewrite El|done]|by apply tab_map_perm].
Qed.

Lemma rehash_wf ok h l :
  placed h l → elem_cnt h = Z.of_nat (length l) → elem_cnt h < 2 ^ 32 → NoDup (key <$> l) →
  wp (rehash hash ok) h (λ _ h', table_wf h' ∧ tab_map h' = list_to_map (entry <$> l) ∧
    elem_cnt h' = elem_cnt h ∧ (ok = true → bucket_cnt h' = ideal (elem_cnt h))).
Proof.
  intros Hp Hn Hb Hk. eapply wp_mono; [apply rehash_spec; [done|lia]|].
  intros [] h' (Hp' & E & Hi). destruct (placed_wf h' l Hp') as [??]; [congruence|done|]. done.
Qed.

Lemma hash_find_spec h e : table_wf h → wp (hash_find hash less e) h (λ r h', h' = h ∧ r = tab_map h !! key e).
Proof. intros Hwf. unfold hash_find. wp_steps. by apply find_elem_spec. Qed.

Lemma insert_elem_spec h l e Q :
  placed h l →
  (∀ h', placed h' (e :: l) → elem_cnt h' = u32 (elem_cnt h + 1) → bucket_cnt h' = bucket_cnt h → Q tt h') →
  wp (insert_elem (find_bucket hash h e) e) h Q.
Proof.
  intros Hp HQ. pose proof Hp as [(j & Hj & Ej) L _ _]. destruct (find_bucket_lookup h j e ltac:(lia) Ej L) as [b Hb].
  unfold insert_elem. wp_steps. eapply wp_deref; [done|]. wp_steps.
  apply HQ; [by apply placed_push|done..].
Qed.

Lemma elems_split h k o : table_wf h → tab_map h !! k = Some o →
  ∃ l, elems h ≡ₚ o :: l ∧ key o = k ∧ k ∉ key <$> l ∧ NoDup (key <$> l).
Proof.
  intros Hwf (Ho & <-)%tab_map_lookup; [|done]. apply elem_of_Permutation in Ho as [l Hl]. exists l.
  pose proof (twf_nodup h Hwf) as Hn. rewrite Hl in Hn. by apply NoDup_cons in Hn as [??].
Qed.

Lemma placed_remove h l e : placed h (e :: l) → NoDup (e :: l) → ∀ n,
  placed (mk_table n (bucket_cnt h) (remove_elem e <$> buckets h)) l.
Proof.
  intros [? L Hp El] Hn n. split; simpl; [done|by rewrite length_fmap| |].
  - intros i b x Hi Hx. apply list_lookup_fmap_Some in Hi as (b0 & -> & Hi).
    change (find_bucket hash h x = i). eapply Hp; [done|]. by eapply remove_elem_sub.
  - unfold elems in *. simpl. rewrite <- El in Hn. apply (Permutation_cons_inv (a := e)). rewrite <- El. symmetry.
    apply concat_remove; [|done]. rewrite El. set_solver.
Qed.

(** The map after an operation, from the elements left. *)
Lemma list_to_map_rest h k o l : table_wf h → elems h ≡ₚ o :: l → key o = k → k ∉ key <$> l →
  list_to_map (entry <$> l) = delete k (tab_map h).
Proof.
  intros Hwf Hl <- Hk. rewrite (tab_map_perm h (o :: l)) by (apply Hwf || done). csimpl.
  rewrite delete_insert_id; [done|]. apply not_elem_of_list_to_map. by rewrite <- list_fmap_compose.
Qed.

Lemma hash_insert_spec ok h new :
  table_wf h → elem_cnt h < 2 ^ 32 - 1 →
  wp (hash_insert hash less ok new) h (λ old h', old = tab_map h !! key new ∧ table_wf h' ∧
    tab_map h' = (if old is Some _ then tab_map h else <[key new := new]> (tab_map h)) ∧
    (ok = true → bucket_cnt h' = ideal (elem_cnt h'))).
Proof.
  intros Hwf Hc. pose proof (twf_elems h Hwf) as En. unfold hash_insert. wp_steps. apply find_elem_spec; [done|].
  destruct (tab_map h !! key new) as [o|] eqn:E; wp_steps.
  - eapply wp_mono; [apply rehash_wf; [by apply wf_placed|done|lia|apply Hwf]|].
    intros [] h' (Hwf' & Hm & Hn & Hi). wp_step. rewrite Hn. done.
  - eapply insert_elem_spec; [by apply wf_placed|]. intros h1 Hp1 Hn1 _.
    rewrite u32_small in Hn1 by word_lia.
    rewrite tab_map_lookup_None in E by done.
    wp_step. eapply wp_mono; [apply (rehash_wf ok h1 _ Hp1); simpl; [lia|lia|]|].
    { apply NoDup_cons. split; [|apply Hwf]. rewrite list_elem_of_fmap. naive_solver. }
    intros [] h' (Hwf' & Hm & Hn & Hi). wp_step. rewrite Hn. done.
Qed.

Lemma hash_replace_spec ok h new :
  table_wf h → elem_cnt h < 2 ^ 32 - 1 →
  wp (hash_replace hash less ok new) h (λ old h', old = tab_map h !! key new ∧ table_wf h' ∧
    tab_map h' = <[key new := new]> (tab_map h) ∧ (ok = true → bucket_cnt h' = ideal (elem_cnt h'))).
Proof.
  intros Hwf Hc. pose proof (twf_elems h Hwf) as En. unfold hash_replace. wp_steps. apply find_elem_spec; [done|].
  assert (∃ l h1, (if tab_map h !! key new is Some o then remove_hash_elem o else ret tt) h = Ret (tt, h1) ∧
    placed h1 l ∧ bucket_cnt h1 = bucket_cnt h ∧ elem_cnt h1 = Z.of_nat (length l) ∧ (length l ≤ length (elems h))%nat ∧
    NoDup (key <$> new :: l) ∧ list_to_map (entry <$> l) = delete (key new) (tab_map h)) as (l & h1 & E1 & Hp1 & Eb & En1 & Hl1 & Hk1 & Hm1).
  { destruct (tab_map h !! key new) as [o|] eqn:E.
    - destruct (elems_split h _ _ Hwf E) as (l & Hl & Ho & Hk & Hn).
      assert (length (elems h) = S (length l)) as Hlen by by rewrite Hl.
      exists l. eexists. split; [reflexivity|]. split_and!; simpl; [|done|rewrite u32_small by word_lia; lia|lia|by apply NoDup_cons|by eapply list_to_map_rest].
      apply placed_remove; [rewrite <- Hl; by apply wf_placed|]. rewrite <- Hl. by apply key_NoDup, Hwf.
    - exists (elems h), h. pose proof E as E'. rewrite tab_map_lookup_None in E by done.
      split_and!; [done|by apply wf_placed|done|done|done| |by rewrite delete_id].
      rewrite fmap_cons. apply NoDup_cons. split; [|apply Hwf]. rewrite list_elem_of_fmap. naive_solver. }
  wp_step. unfold wp at 1. rewrite E1. wp_step.
  replace (find_bucket hash h new) with (find_bucket hash h1 new) by (unfold find_bucket; by rewrite Eb).
  eapply insert_elem_spec; [done|]. intros h2 Hp2 Hn2 _. rewrite u32_small in Hn2 by word_lia. wp_step.
  eapply wp_mono; [apply (rehash_wf ok h2 _ Hp2); simpl; [lia|lia|done]|].
  intros [] h' (Hwf' & Hm & Hn & Hi). wp_step. rewrite Hn. split_and!; [done..| |done].
  rewrite Hm. csimpl. by rewrite Hm1, insert_delete_eq.
Qed.

Lemma hash_delete_spec ok h e :
  table_wf h → elem_cnt h < 2 ^ 32 - 1 →
  wp (hash_delete hash less ok e) h (λ found h', found = tab_map h !! key e ∧ table_wf h' ∧
    tab_map h' = delete (key e) (tab_map h) ∧
    (if found is Some _ then ok = true → bucket_cnt h' = ideal (elem_cnt h') else h' = h)).
Proof.
  intros Hwf Hc. pose proof (twf_elems h Hwf) as En. unfold hash_delete. wp_steps. apply find_elem_spec; [done|].
  destruct (tab_map h !! key e) as [o|] eqn:E; wp_steps; [|by rewrite delete_id].
  destruct (elems_split h _ _ Hwf E) as (l & Hl & Ho & Hk & Hn).
  assert (length (elems h) = S (length l)) as Hlen by by rewrite Hl. unfold remove_hash_elem. wp_step.
  eapply wp_mono; [apply (rehash_wf ok _ l); simpl; [|rewrite u32_small by word_lia; lia..|done]|].
  { apply placed_remove; [rewrite <- Hl; by apply wf_placed|]. rewrite <- Hl. by apply key_NoDup, Hwf. }
  intros [] h' (Hwf' & Hm & Hcnt & Hi). wp_step. rewrite Hcnt. split_and!; [done..| |done]. rewrite Hm. by eapply list_to_map_rest.
Qed.

End Refinement.

(** ** Iteration *)
Section Iteration.
Context {elem : Type}.
Implicit Types (h : table elem) (e : elem).

(** What is left to visit after the iterator's element. *)
Definition remaining h (i : nat) (n : nat) : list elem :=
  match buckets h !! i with Some b => drop n b ++ concat (drop (S i) (buckets h)) | None => [] end.

Lemma next_bucket_spec (rest : list (list elem)) i :
  match next_bucket rest i with
  | (_, None) => concat rest = []
  | (it, Some e) => ∃ k r, it = mk_iterator (S (i + k)) (IterAt 0) ∧ rest !! k = Some (e :: r) ∧
                      concat rest = e :: r ++ concat (drop (S k) rest)
  end.
Proof.
  revert i. induction rest as [|[|e r] rest IH]; intros i; simpl; [done| |].
  - specialize (IH (S i)). destruct (next_bucket rest (S i)) as [it [e|]]; [|done].
    destruct IH as (k & r & -> & Hk & E). exists (S k), r. rewrite Nat.add_succ_r. done.
  - exists O, r. rewrite Nat.add_0_r. done.
Qed.

Lemma hash_next_spec h i b p n :
  buckets h !! i = Some b → (p = IterHead ∧ n = O ∨ ∃ m, p = IterAt m ∧ n = S m) →
  match remaining h i n with
  | [] => ∃ it, hash_next h (mk_iterator i p) = Ret (it, None)
  | e :: l => ∃ i' n' b', hash_next h (mk_iterator i p) = Ret (mk_iterator i' (IterAt n'), Some e) ∧
                buckets h !! i' = Some b' ∧ remaining h i' (S n') = l
  end.
Proof.
  intros Hi Hp. unfold remaining. rewrite Hi. destruct (b !! n) as [e|] eqn:E.
  - rewrite (drop_S b e n E). simpl. exists i, n, b. rewrite Hi. unfold hash_next. simpl. rewrite Hi.
    destruct Hp as [[-> ->]|(m & -> & ->)]; rewrite E; done.
  - rewrite drop_ge by (by apply lookup_ge_None). rewrite app_nil_l.
    assert (hash_next h (mk_iterator i p) = Ret (next_bucket (drop (S i) (buckets h)) i)) as ->.
    { unfold hash_next. simpl. rewrite Hi. destruct Hp as [[-> ->]|(m & -> & ->)]; by rewrite E. }
    pose proof (next_bucket_spec (drop (S i) (buckets h)) i) as Hn.
    destruct (next_bucket _ i) as [it [e|]]; [|rewrite Hn; eauto].
    destruct Hn as (k & r & -> & Hk & ->). rewrite lookup_drop in Hk. change (S i + k)%nat with (S (i + k)) in Hk.
    exists (S (i + k)), O, (e :: r). rewrite Hk. split_and!; [done..|].
    simpl. rewrite drop_0, drop_drop. do 3 f_equal. lia.
Qed.

Lemma hash_iterate_from h fuel i b p n :
  buckets h !! i = Some b → (p = IterHead ∧ n = O ∨ ∃ m, p = IterAt m ∧ n = S m) →
  (length (remaining h i n) < fuel)%nat →
  hash_iterate fuel h (mk_iterator i p) = Ret (remaining h i n).
Proof.
  revert i b p n. induction fuel as [|fuel IH]; intros i b p n Hi Hp Hf; [lia|].
  pose proof (hash_next_spec h i b p n Hi Hp) as Hn. simpl. destruct (remaining h i n) as [|e l].
  - by destruct Hn as [it ->].
  - destruct Hn as (i' & n' & b' & -> & Hi' & <-). simpl in Hf.
    rewrite (IH i' b' (IterAt n') (S n')); [done|done|by eauto|lia].
Qed.

End Iteration.

(** ** Claims *)

(** C3: the hash table implements a finite map from keys to elements.  On a
    well-formed table [hash_find], [hash_insert], [hash_replace] and
    [hash_delete] return what the map holds for the key and leave a
    well-formed table that stands for the updated map, whether or not the
    memory for a larger or smaller array of buckets can be had.  When it can,
    the number of buckets after [hash_insert], [hash_replace] and a
    [hash_delete] that found its element is the ideal one for the number of
    elements; [hash_delete] of an absent key leaves the table as it is.  The
    table holds fewer than 2^32 - 1 elements, so that [elem_cnt] does not wrap,
    and [hash] and [less] agree with the key (the class [Keyed]). *)
Theorem hash_table_is_map {elem : Type} `{EqDecision elem} {K : Type} `{Countable K}
    (key : elem → K) (hash : elem → Z) (less : elem → elem → bool) `{!Keyed key hash less}
    (h : table elem) (e : elem) (ok : bool) :
  table_wf key hash h → elem_cnt h < 2 ^ 32 - 1 →
  let m := tab_map key h in
  hash_find hash less e h = Ret (m !! key e, h) ∧
  (∃ h', hash_insert hash less ok e h = Ret (m !! key e, h') ∧ table_wf key hash h' ∧
     tab_map key h' = (if m !! key e is Some _ then m else <[key e := e]> m) ∧
     (ok = true → bucket_cnt h' = ideal (elem_cnt h'))) ∧
  (∃ h', hash_replace hash less ok e h = Ret (m !! key e, h') ∧ table_wf key hash h' ∧
     tab_map key h' = <[key e := e]> m ∧ (ok = true → bucket_cnt h' = ideal (elem_cnt h'))) ∧
  (∃ h', hash_delete hash less ok e h = Ret (m !! key e, h') ∧ table_wf key hash h' ∧
     tab_map key h' = delete (key e) m ∧
     (if m !! key e is Some _ then ok = true → bucket_cnt h' = ideal (elem_cnt h') else h' = h)).
Proof.
  intros Hwf Hc m. split_and!.
  - destruct (proj1 (wp_outcome _ _ _) (hash_find_spec key hash less h e Hwf)) as (? & ? & E & -> & ->). done.
  - destruct (proj1 (wp_outcome _ _ _) (hash_insert_spec key hash less ok h e Hwf Hc))
      as (? & ? & E & -> & ? & ? & ?). eauto.
  - destruct (proj1 (wp_outcome _ _ _) (hash_replace_spec key hash less ok h e Hwf Hc))
      as (? & ? & E & -> & ? & ? & ?). eauto.
  - destruct (proj1 (wp_outcome _ _ _) (hash_delete_spec key hash less ok h e Hwf Hc))
      as (? & ? & E & -> & ? & ? & ?). eauto.
Qed.

(** iterating with [hash_first] and [hash_next] visits every element of a
    table exactly once, in bucket order, and ends. *)
Theorem hash_iteration_complete {elem : Type} (h : table elem) :
  buckets h ≠ [] →
  hash_iterate (S (length (hash_apply h))) h hash_first = Ret (hash_apply h).
Proof.
  intros Hne. destruct (buckets h) as [|b bs] eqn:E; [done|].
  assert (remaining h 0 0 = hash_apply h) as <- by (unfold remaining, hash_apply; by rewrite E).
  eapply (hash_iterate_from h _ 0 b); [by rewrite E|by left|lia].
Qed.

(** A table of three integers, hashed by their value. *)
Definition sample_table : table Z := mk_table 3 4 [[8; 4]; []; [6]; []].

#[export] Instance int_Keyed : Keyed u32 u32 (λ a b, u32 a <? u32 b).
Proof. split; [intros; lia|done|apply u32_range]. Qed.

Lemma hash_table_is_map_witness :
  hash_find u32 (λ a b, u32 a <? u32 b) 4 sample_table = Ret (Some 4, sample_table) ∧
  ∃ h', hash_delete u32 (λ a b, u32 a <? u32 b) true 4 sample_table = Ret (Some 4, h') ∧
    tab_map u32 h' = delete 4 (tab_map u32 sample_table) ∧ bucket_cnt h' = ideal (elem_cnt h').
Proof.
  destruct (hash_table_is_map u32 u32 (λ a b, u32 a <? u32 b) sample_table 4 true) as (Hf & _ & _ & h' & Hd & _ & Hm & Hi).
  - split; [by exists 2|done| |done|by apply (bool_decide_unpack _)].
    intros i b e Hi He. destruct i as [|[|[|[|i]]]]; simplify_eq/=;
      repeat (apply elem_of_cons in He as [->|He]; [done|]); by apply elem_of_nil in He.
  - done.
  - split; [exact Hf|]. exists h'. split; [exact Hd|]. split; [exact Hm|]. exact (Hi eq_refl).
Defined.

Lemma hash_iteration_complete_witness : hash_iterate 4 sample_table hash_first = Ret [8; 4; 6].
Proof. by apply (hash_iteration_complete sample_table). Defined.
