(* ===== verification/Bitmap.v ===== *)
(** * Bitmaps (lib/kernel/bitmap.c)

    A bitmap is an array of 32-bit elements.  The page allocator, the free map
    of the file system and the reference bits of the buffer cache are bitmaps.
    The operations are proved against the abstract view [bit], an array of
    booleans. *)

From S2P Require Import Prelude.
Local Open Scope Z_scope.

(** ** Data *)

(** [sizeof (elem_type) * CHAR_BIT] for the 32-bit [unsigned long] of i386. *)
Definition ELEM_BITS : Z := 32.
(** [SIZE_MAX] *)
Definition BITMAP_ERROR : Z := 2 ^ 32 - 1.

(** [struct bitmap], with the array it points to. *)
Record bitmap := mk_bitmap { bit_cnt : Z; bits : list Z }.

(** ** Operations *)

Definition elem_idx (bit_idx : Z) : Z := bit_idx / ELEM_BITS.
Definition bit_mask (bit_idx : Z) : Z := u32 (Z.shiftl 1 (bit_idx mod ELEM_BITS)).
Definition elem_cnt (bit_cnt : Z) : Z := u32 (bit_cnt + ELEM_BITS - 1) / ELEM_BITS.
Definition byte_cnt (bit_cnt : Z) : Z := u32 (4 * elem_cnt bit_cnt).
Definition last_mask (b : bitmap) : Z :=
  let last_bits := bit_cnt b mod ELEM_BITS in
  if bool_decide (last_bits ≠ 0) then u32 (Z.shiftl 1 last_bits - 1) else u32 (-1).

(** [b->bits[idx]] read and written. *)
Definition get_elem (idx : Z) : M bitmap Z :=
  b ← get_state; deref (bits b !! Z.to_nat idx).
Definition set_elem (idx : Z) (v : Z) : M bitmap unit :=
  modify (λ b, mk_bitmap (bit_cnt b) (<[Z.to_nat idx := v]> (bits b))).

Definition bitmap_size (b : bitmap) : Z := bit_cnt b.

(** The OR, AND and XOR instructions on [b->bits[idx]]. *)
Definition bitmap_mark (bit_idx : Z) : M bitmap unit :=
  let idx := elem_idx bit_idx in
  let mask := bit_mask bit_idx in
  v ← get_elem idx; set_elem idx (Z.lor v mask).

Definition bitmap_reset (bit_idx : Z) : M bitmap unit :=
  let idx := elem_idx bit_idx in
  let mask := bit_mask bit_idx in
  v ← get_elem idx; set_elem idx (Z.land v (u32 (Z.lnot mask))).

Definition bitmap_flip (bit_idx : Z) : M bitmap unit :=
  let idx := elem_idx bit_idx in
  let mask := bit_mask bit_idx in
  v ← get_elem idx; set_elem idx (Z.lxor v mask).

Definition bitmap_set (idx : Z) (value : bool) : M bitmap unit :=
  b ← get_state;
  ASSERT (bool_decide (idx < bit_cnt b));;
  if value then bitmap_mark idx else bitmap_reset idx.

Definition bitmap_test (idx : Z) : M bitmap bool :=
  b ← get_state;
  ASSERT (bool_decide (idx < bit_cnt b));;
  v ← get_elem (elem_idx idx);
  ret (bool_decide (Z.land v (bit_mask idx) ≠ 0)).

(** The assertions every range operation starts with. *)
Definition check_range (start cnt : Z) : M bitmap unit :=
  b ← get_state;
  ASSERT (bool_decide (start ≤ bit_cnt b));;
  ASSERT (bool_decide (u32 (start + cnt) ≤ bit_cnt b)).

(** [for (i = 0; i < cnt; i++)]: [n] iterations are left. *)
Fixpoint set_multiple_loop (n : nat) (i start : Z) (value : bool) : M bitmap unit :=
  match n with
  | O => ret tt
  | S n => bitmap_set (u32 (start + i)) value;; set_multiple_loop n (i + 1) start value
  end.

Definition bitmap_set_multiple (start cnt : Z) (value : bool) : M bitmap unit :=
  check_range start cnt;; set_multiple_loop (Z.to_nat cnt) 0 start value.

Definition bitmap_set_all (value : bool) : M bitmap unit :=
  b ← get_state; bitmap_set_multiple 0 (bitmap_size b) value.

Fixpoint count_loop (n : nat) (i start : Z) (value : bool) (value_cnt : Z) : M bitmap Z :=
  match n with
  | O => ret value_cnt
  | S n =>
      t ← bitmap_test (u32 (start + i));
      count_loop n (i + 1) start value (if Bool.eqb t value then value_cnt + 1 else value_cnt)
  end.

Definition bitmap_count (start cnt : Z) (value : bool) : M bitmap Z :=
  check_range start cnt;; count_loop (Z.to_nat cnt) 0 start value 0.

Fixpoint contains_loop (n : nat) (i start : Z) (value : bool) : M bitmap bool :=
  match n with
  | O => ret false
  | S n =>
      t ← bitmap_test (u32 (start + i));
      if Bool.eqb t value then ret true else contains_loop n (i + 1) start value
  end.

Definition bitmap_contains (start cnt : Z) (value : bool) : M bitmap bool :=
  check_range start cnt;; contains_loop (Z.to_nat cnt) 0 start value.

Definition bitmap_any (start cnt : Z) : M bitmap bool := bitmap_contains start cnt true.
Definition bitmap_none (start cnt : Z) : M bitmap bool :=
  c ← bitmap_contains start cnt true; ret (negb c).
Definition bitmap_all (start cnt : Z) : M bitmap bool :=
  c ← bitmap_contains start cnt false; ret (negb c).

(** [for (i = start; i <= last; i++)] *)
Fixpoint scan_loop (n : nat) (i cnt : Z) (value : bool) : M bitmap Z :=
  match n with
  | O => ret BITMAP_ERROR
  | S n =>
      c ← bitmap_contains i cnt (negb value);
      if negb c then ret i else scan_loop n (i + 1) cnt value
  end.

Definition bitmap_scan (start cnt : Z) (value : bool) : M bitmap Z :=
  b ← get_state;
  ASSERT (bool_decide (start ≤ bit_cnt b));;
  if bool_decide (cnt ≤ bit_cnt b) then
    let last := bit_cnt b - cnt in
    scan_loop (Z.to_nat (last - start + 1)) start cnt value
  else ret BITMAP_ERROR.

Definition bitmap_scan_and_flip (start cnt : Z) (value : bool) : M bitmap Z :=
  idx ← bitmap_scan start cnt value;
  (if bool_decide (idx ≠ BITMAP_ERROR) then bitmap_set_multiple idx cnt (negb value) else ret tt);;
  ret idx.

(** [bitmap_create]: [b_block] tells whether the first [malloc] succeeds, and
    [bits_block] is the uninitialised array the second one returns. *)
Definition bitmap_create (b_block : bool) (bits_block : option (list Z)) (bit_cnt : Z)
    : outcome (option bitmap) :=
  if b_block then
    match bits_block with
    | Some junk =>
        match bitmap_set_all false (mk_bitmap bit_cnt junk) with
        | Ret (_, b) => Ret (Some b)
        | Fail f => Fail f
        end
    | None =>
        if bool_decide (bit_cnt = 0)
        then match bitmap_set_all false (mk_bitmap bit_cnt []) with
             | Ret (_, b) => Ret (Some b)
             | Fail f => Fail f
             end
        else Ret None
    end
  else Ret None.

(** [sizeof (struct bitmap)] is 8. *)
Definition bitmap_buf_size (bit_cnt : Z) : Z := u32 (8 + byte_cnt bit_cnt).

(** [bitmap_create_in_buf]: [junk] is what the rest of the block holds. *)
Definition bitmap_create_in_buf (bit_cnt : Z) (junk : list Z) (block_size : Z) : outcome bitmap :=
  if bool_decide (bitmap_buf_size bit_cnt ≤ block_size) then
    match bitmap_set_all false (mk_bitmap bit_cnt junk) with
    | Ret (_, b) => Ret b
    | Fail f => Fail f
    end
  else Fail AssertFail.

Definition bitmap_file_size (b : bitmap) : Z := byte_cnt (bit_cnt b).

(** ** The abstract view *)

(** The bit numbered [i]. *)
Definition bit (b : bitmap) (i : Z) : bool :=
  match bits b !! Z.to_nat (i / ELEM_BITS) with
  | Some w => Z.testbit w (i mod ELEM_BITS)
  | None => false
  end.

(** The array covers the bits, and its elements are 32-bit words. *)
Record bitmap_wf (b : bitmap) : Prop := {
  wf_cnt : 0 ≤ bit_cnt b < 2 ^ 32 - 32;
  wf_room : bit_cnt b ≤ 32 * Z.of_nat (length (bits b));
  wf_words : Forall is_u32 (bits b)
}.

(** [b'] is a well-formed bitmap of the size of [b] that holds [f]. *)
Definition holds (b b' : bitmap) (f : Z → bool) : Prop :=
  bitmap_wf b' ∧ bit_cnt b' = bit_cnt b ∧ ∀ j, 0 ≤ j → bit b' j = f j.

Section BitRules.
Implicit Types b : bitmap.

Lemma bit_mask_testbit i k : 0 ≤ k → Z.testbit (bit_mask i) k = bool_decide (k = i mod ELEM_BITS).
Proof.
  intros Hk. unfold bit_mask, ELEM_BITS. pose proof (Z.mod_pos_bound i 32 ltac:(lia)).
  rewrite u32_testbit, Z.shiftl_1_l, Z.pow2_bits_eqb by lia.
  repeat case_bool_decide; simpl; lia.
Qed.

Lemma bit_mask_u32 i : is_u32 (bit_mask i).
Proof. apply u32_range. Qed.

(** The element that holds a bit of the bitmap. *)
Lemma elem_lookup b i :
  bitmap_wf b → 0 ≤ i < bit_cnt b → ∃ w, bits b !! Z.to_nat (elem_idx i) = Some w ∧ is_u32 w.
Proof.
  intros [Hc Hr Hw] Hi. unfold elem_idx, ELEM_BITS.
  destruct (lookup_lt_is_Some_2 (bits b) (Z.to_nat (i / 32))) as [w Hw'].
  { assert (i / 32 < Z.of_nat (length (bits b))) by (apply Z.div_lt_upper_bound; lia).
    assert (0 ≤ i / 32) by (apply Z.div_pos; lia). lia. }
  exists w. split; [done|]. by eapply Forall_lookup_1.
Qed.

(** Replacing one element by a word that differs in one bit. *)
Lemma set_elem_holds b i w w' v :
  bitmap_wf b → 0 ≤ i < bit_cnt b → bits b !! Z.to_nat (elem_idx i) = Some w → is_u32 w' →
  (∀ k, 0 ≤ k < 32 → Z.testbit w' k = if bool_decide (k = i mod 32) then v else Z.testbit w k) →
  holds b (mk_bitmap (bit_cnt b) (<[Z.to_nat (elem_idx i) := w']> (bits b)))
    (λ j, if bool_decide (j = i) then v else bit b j).
Proof.
  intros [Hc Hr Hw] Hi Hl Hw' Hb. split_and!; [split; simpl| done|].
  - done.
  - by rewrite length_insert.
  - by apply Forall_insert.
  - intros j Hj. unfold bit, elem_idx, ELEM_BITS in *. simpl.
    pose proof (Z.div_mod i 32 ltac:(lia)). pose proof (Z.div_mod j 32 ltac:(lia)).
    pose proof (Z.mod_pos_bound j 32 ltac:(lia)). pose proof (Z.mod_pos_bound i 32 ltac:(lia)).
    pose proof (Z.div_pos i 32). pose proof (Z.div_pos j 32).
    destruct (decide (j / 32 = i / 32)) as [E|E].
    + rewrite E, list_lookup_insert_eq by by eapply lookup_lt_Some. rewrite Hb, Hl by lia.
      repeat case_bool_decide; try done; lia.
    + rewrite list_lookup_insert_ne by lia. rewrite bool_decide_false by congruence. done.
Qed.

Lemma wp_get_elem b i w Q : bits b !! Z.to_nat i = Some w → Q w b → wp (get_elem i) b Q.
Proof. intros Hw HQ. unfold get_elem. wp_steps. by rewrite Hw. Qed.

Lemma bitmap_mark_spec b i :
  bitmap_wf b → 0 ≤ i < bit_cnt b →
  wp (bitmap_mark i) b (λ _ b', holds b b' (λ j, if bool_decide (j = i) then true else bit b j)).
Proof.
  intros Hwf Hi. destruct (elem_lookup b i Hwf Hi) as (w & Hw & Hu). unfold bitmap_mark.
  wp_step. eapply wp_get_elem; [done|]. unfold set_elem. wp_step.
  eapply set_elem_holds; [done..| |].
  - apply is_u32_lor; [done|apply bit_mask_u32].
  - intros k Hk. rewrite Z.lor_spec, bit_mask_testbit by lia. unfold ELEM_BITS.
    case_bool_decide; [by rewrite orb_true_r|by rewrite orb_false_r].
Qed.

Lemma bitmap_reset_spec b i :
  bitmap_wf b → 0 ≤ i < bit_cnt b →
  wp (bitmap_reset i) b (λ _ b', holds b b' (λ j, if bool_decide (j = i) then false else bit b j)).
Proof.
  intros Hwf Hi. destruct (elem_lookup b i Hwf Hi) as (w & Hw & Hu). unfold bitmap_reset.
  wp_step. eapply wp_get_elem; [done|]. unfold set_elem. wp_step.
  eapply set_elem_holds; [done..| |].
  - apply is_u32_land; [done|apply u32_range].
  - intros k Hk. rewrite Z.land_spec, u32_testbit, Z.lnot_spec, bit_mask_testbit by lia.
    rewrite (bool_decide_true (k < 32)) by lia. unfold ELEM_BITS.
    case_bool_decide; simpl; [by rewrite andb_false_r|by rewrite andb_true_r].
Qed.

Lemma bitmap_flip_spec b i :
  bitmap_wf b → 0 ≤ i < bit_cnt b →
  wp (bitmap_flip i) b (λ _ b', holds b b' (λ j, if bool_decide (j = i) then negb (bit b i) else bit b j)).
Proof.
  intros Hwf Hi. destruct (elem_lookup b i Hwf Hi) as (w & Hw & Hu). unfold bitmap_flip.
  wp_step. eapply wp_get_elem; [done|]. unfold set_elem. wp_step.
  eapply set_elem_holds; [done..| |].
  - apply is_u32_lxor; [done|apply bit_mask_u32].
  - intros k Hk. rewrite Z.lxor_spec, bit_mask_testbit by lia. unfold bit, elem_idx, ELEM_BITS in *.
    rewrite Hw. case_bool_decide; [subst; by rewrite xorb_true_r|by rewrite xorb_false_r].
Qed.

Lemma bitmap_set_spec b i v :
  bitmap_wf b → 0 ≤ i < bit_cnt b →
  wp (bitmap_set i v) b (λ _ b', holds b b' (λ j, if bool_decide (j = i) then v else bit b j)).
Proof.
  intros Hwf Hi. unfold bitmap_set. wp_steps. rewrite bool_decide_true by lia. wp_steps.
  destruct v; [by apply bitmap_mark_spec|by apply bitmap_reset_spec].
Qed.

Lemma land_mask_testbit w i : 0 ≤ w →
  bool_decide (Z.land w (bit_mask i) ≠ 0) = Z.testbit w (i mod ELEM_BITS).
Proof.
  intros Hw. pose proof (Z.mod_pos_bound i ELEM_BITS ltac:(done)).
  assert (Z.testbit (Z.land w (bit_mask i)) (i mod ELEM_BITS) = Z.testbit w (i mod ELEM_BITS)) as Et.
  { rewrite Z.land_spec, bit_mask_testbit, bool_decide_true by (done || lia). by rewrite andb_true_r. }
  case_bool_decide as Hz.
  - symmetry. rewrite <- Et. destruct (Z.testbit (Z.land _ _) _) eqn:E; [done|]. exfalso. apply Hz.
    apply Z.bits_inj'. intros k Hk. rewrite Z.bits_0. rewrite Z.land_spec, bit_mask_testbit by done.
    case_bool_decide as Hki; [|by rewrite andb_false_r]. rewrite Hki, andb_true_r. congruence.
  - by rewrite <- Et, Hz, Z.bits_0.
Qed.

Lemma bitmap_test_spec b i Q :
  bitmap_wf b → 0 ≤ i < bit_cnt b → Q (bit b i) b → wp (bitmap_test i) b Q.
Proof.
  intros Hwf Hi HQ. destruct (elem_lookup b i Hwf Hi) as (w & Hw & Hu). unfold bitmap_test.
  wp_steps. rewrite bool_decide_true by lia. wp_steps. eapply wp_get_elem; [done|]. wp_step.
  rewrite land_mask_testbit by word_lia. unfold bit in HQ. unfold elem_idx in Hw. by rewrite Hw in HQ.
Qed.

Lemma wp_check_range b start cnt Q :
  bitmap_wf b → 0 ≤ start → 0 ≤ cnt → start + cnt ≤ bit_cnt b → Q tt b → wp (check_range start cnt) b Q.
Proof.
  intros [Hc _ _] Hs Hn Hr HQ. unfold check_range. wp_steps. rewrite bool_decide_true by lia.
  wp_steps. rewrite u32_small by word_lia. by rewrite bool_decide_true by lia.
Qed.

Lemma set_multiple_loop_spec b n i start v :
  bitmap_wf b → 0 ≤ start → 0 ≤ i → start + i + Z.of_nat n ≤ bit_cnt b →
  wp (set_multiple_loop n i start v) b (λ _ b',
    holds b b' (λ j, if bool_decide (start + i ≤ j < start + i + Z.of_nat n) then v else bit b j)).
Proof.
  revert b i. induction n as [|n IH]; intros b i Hwf Hs Hi Hr; simpl set_multiple_loop.
  - wp_step. split_and!; [done|done|]. intros j Hj. by rewrite bool_decide_false by lia.
  - rewrite u32_small by (destruct Hwf; word_lia). wp_step.
    eapply wp_mono; [apply bitmap_set_spec; [done|lia]|]. intros [] b1 (Hwf1 & Hc1 & Hb1).
    eapply wp_mono; [apply IH; [done|lia..]|]. intros [] b2 (Hwf2 & Hc2 & Hb2).
    split_and!; [done|congruence|]. intros j Hj. rewrite Hb2, Hb1 by done.
    repeat case_bool_decide; try done; lia.
Qed.

Lemma bitmap_set_multiple_spec b start cnt v :
  bitmap_wf b → 0 ≤ start → 0 ≤ cnt → start + cnt ≤ bit_cnt b →
  wp (bitmap_set_multiple start cnt v) b (λ _ b',
    holds b b' (λ j, if bool_decide (start ≤ j < start + cnt) then v else bit b j)).
Proof.
  intros Hwf Hs Hn Hr. unfold bitmap_set_multiple. wp_step. apply wp_check_range; [done..|].
  eapply wp_mono; [apply set_multiple_loop_spec; [done|lia..]|].
  intros [] b' (Hwf' & Hc' & Hb'). split_and!; [done..|]. intros j Hj. rewrite Hb' by done.
  rewrite Z.add_0_r, Z2Nat.id by lia. done.
Qed.

Lemma bitmap_set_all_spec b v :
  bitmap_wf b →
  wp (bitmap_set_all v) b (λ _ b', holds b b' (λ j, if bool_decide (j < bit_cnt b) then v else bit b j)).
Proof.
  intros Hwf. unfold bitmap_set_all, bitmap_size. wp_steps.
  eapply wp_mono; [apply bitmap_set_multiple_spec; [done|destruct Hwf; lia..]|].
  intros [] b' (Hwf' & Hc' & Hb'). split_and!; [done..|]. intros j Hj. rewrite Hb' by done.
  repeat case_bool_decide; try done; lia.
Qed.

(** Some bit of the range equals [v]. *)
Definition range_has (b : bitmap) (start cnt : Z) (v : bool) : Prop :=
  ∃ j, start ≤ j < start + cnt ∧ bit b j = v.

Lemma contains_loop_spec b n i start v Q :
  bitmap_wf b → 0 ≤ start → 0 ≤ i → start + i + Z.of_nat n ≤ bit_cnt b →
  (∀ r : bool, (r = true ↔ range_has b (start + i) (Z.of_nat n) v) → Q r b) →
  wp (contains_loop n i start v) b Q.
Proof.
  revert i Q. induction n as [|n IH]; intros i Q Hwf Hs Hi Hr HQ; simpl contains_loop.
  - wp_step. apply HQ. split; [done|]. intros (j & ? & _). lia.
  - rewrite u32_small by (destruct Hwf; word_lia). wp_step.
    apply bitmap_test_spec; [done|lia|]. destruct (Bool.eqb _ v) eqn:E.
    + apply eqb_prop in E. wp_step. apply HQ. split; [|done]. intros _.
      exists (start + i). split; [lia|done].
    + apply eqb_false_iff in E. apply IH; [done|lia..|]. intros r Hr'. apply HQ. rewrite Hr'.
      split; intros (j & Hj & Hv); exists j; (split; [|done]); [lia|].
      destruct (decide (j = start + i)); [congruence|lia].
Qed.

Lemma bitmap_contains_spec b start cnt v Q :
  bitmap_wf b → 0 ≤ start → 0 ≤ cnt → start + cnt ≤ bit_cnt b →
  (∀ r : bool, (r = true ↔ range_has b start cnt v) → Q r b) →
  wp (bitmap_contains start cnt v) b Q.
Proof.
  intros Hwf Hs Hn Hr HQ. unfold bitmap_contains. wp_step. apply wp_check_range; [done..|].
  apply contains_loop_spec; [done|lia..|]. by rewrite Z.add_0_r, Z2Nat.id.
Qed.

Lemma range_has_Exists b start cnt v : Exists (λ j, bit b j = v) (seqZ start cnt) ↔ range_has b start cnt v.
Proof. rewrite Exists_exists. unfold range_has. by setoid_rewrite elem_of_seqZ. Qed.

#[export] Instance range_has_dec b start cnt v : Decision (range_has b start cnt v).
Proof. refine (cast_if (decide (Exists (λ j, bit b j = v) (seqZ start cnt)))); by rewrite <- range_has_Exists. Defined.

(** All bits of the range equal [v]. *)
Definition range_all (b : bitmap) (start cnt : Z) (v : bool) : Prop :=
  ∀ j, start ≤ j < start + cnt → bit b j = v.

Lemma range_all_not_has b start cnt v : range_all b start cnt v ↔ ¬ range_has b start cnt (negb v).
Proof.
  unfold range_all, range_has. split.
  - intros H (j & Hj & Hv). rewrite H in Hv by done. by destruct v.
  - intros H j Hj. destruct (bit b j) eqn:E, v; try done; destruct H; by exists j.
Qed.

Lemma bitmap_all_spec b start cnt Q :
  bitmap_wf b → 0 ≤ start → 0 ≤ cnt → start + cnt ≤ bit_cnt b →
  (∀ r : bool, (r = true ↔ range_all b start cnt true) → Q r b) →
  wp (bitmap_all start cnt) b Q.
Proof.
  intros Hwf Hs Hn Hr HQ. unfold bitmap_all. wp_step. apply bitmap_contains_spec; [done..|].
  intros c Hc. wp_step. apply HQ. rewrite range_all_not_has. simpl. rewrite <- Hc. by destruct c.
Qed.

(** [r] is the answer of [bitmap_scan]: the first group, or none. *)
Definition scan_result (b : bitmap) (start cnt : Z) (v : bool) (r : Z) : Prop :=
  (r ≠ BITMAP_ERROR ∧ start ≤ r ∧ r + cnt ≤ bit_cnt b ∧ range_all b r cnt v ∧
     ∀ k, start ≤ k < r → ¬ range_all b k cnt v) ∨
  (r = BITMAP_ERROR ∧ ∀ k, start ≤ k → k + cnt ≤ bit_cnt b → ¬ range_all b k cnt v).

Lemma scan_loop_spec b n i start cnt v Q :
  bitmap_wf b → 0 ≤ start ≤ i → 0 ≤ cnt → i + Z.of_nat n + cnt = bit_cnt b + 1 →
  (∀ k, start ≤ k < i → ¬ range_all b k cnt v) →
  (∀ r, scan_result b start cnt v r → Q r b) →
  wp (scan_loop n i cnt v) b Q.
Proof.
  revert i. induction n as [|n IH]; intros i Hwf Hi Hn Hr Hbefore HQ; simpl scan_loop.
  - wp_step. apply HQ. right. split; [done|]. intros k Hk Hk'. apply Hbefore. lia.
  - wp_step. apply bitmap_contains_spec; [done|lia..|]. intros c Hc.
    destruct c; simpl.
    + apply IH; [done|lia..| |done]. intros k Hk. destruct (decide (k = i)) as [->|]; [|apply Hbefore; lia].
      rewrite range_all_not_has. tauto.
    + wp_step. apply HQ. left. split_and!; [|lia|lia| |done].
      * unfold BITMAP_ERROR. destruct Hwf. lia.
      * rewrite range_all_not_has, <- Hc. done.
Qed.

Lemma bitmap_scan_spec b start cnt v Q :
  bitmap_wf b → 0 ≤ start ≤ bit_cnt b → 0 ≤ cnt →
  (∀ r, scan_result b start cnt v r → Q r b) →
  wp (bitmap_scan start cnt v) b Q.
Proof.
  intros Hwf Hs Hn HQ. unfold bitmap_scan. wp_steps. rewrite bool_decide_true by lia. wp_steps.
  case_bool_decide as Hc.
  - destruct (decide (start + cnt ≤ bit_cnt b)).
    + eapply (scan_loop_spec b _ start start); [done|lia|lia|lia| |done]. lia.
    + replace (Z.to_nat (bit_cnt b - cnt - start + 1)) with 0%nat by lia. simpl. wp_step.
      apply HQ. right. split; [done|]. intros k ??. lia.
  - wp_step. apply HQ. right. split; [done|]. intros k ??. lia.
Qed.

Lemma bitmap_scan_and_flip_spec b start cnt v :
  bitmap_wf b → 0 ≤ start ≤ bit_cnt b → 0 ≤ cnt →
  wp (bitmap_scan_and_flip start cnt v) b (λ r b',
    scan_result b start cnt v r ∧
    holds b b' (λ j, if bool_decide (r ≠ BITMAP_ERROR ∧ r ≤ j < r + cnt) then negb v else bit b j)).
Proof.
  intros Hwf Hs Hn. unfold bitmap_scan_and_flip. wp_step. apply bitmap_scan_spec; [done..|].
  intros r Hr. wp_step. pose proof Hr as [(Hr0 & Hr1 & Hr2 & _)|[-> _]].
  - rewrite bool_decide_true by done.
    eapply wp_mono; [apply bitmap_set_multiple_spec; [done|lia..]|].
    intros [] b' (Hwf' & Hc' & Hb'). wp_step. split; [done|]. split_and!; [done..|].
    intros j Hj. rewrite Hb' by done. repeat case_bool_decide; try done; naive_solver.
  - rewrite bool_decide_false by naive_solver. wp_steps. split; [done|]. split_and!; [done..|].
    intros j Hj. by rewrite bool_decide_false by naive_solver.
Qed.

(** The number of the [n] bits from [start] that equal [v]. *)
Fixpoint count_bits (b : bitmap) (start : Z) (n : nat) (v : bool) : Z :=
  match n with
  | O => 0
  | S n => (if Bool.eqb (bit b start) v then 1 else 0) + count_bits b (start + 1) n v
  end.

Lemma count_loop_spec b n i start v c Q :
  bitmap_wf b → 0 ≤ start → 0 ≤ i → start + i + Z.of_nat n ≤ bit_cnt b →
  Q (c + count_bits b (start + i) n v) b → wp (count_loop n i start v c) b Q.
Proof.
  revert i c. induction n as [|n IH]; intros i c Hwf Hs Hi Hr HQ; simpl count_loop.
  - wp_step. simpl in HQ. by rewrite Z.add_0_r in HQ.
  - rewrite u32_small by (destruct Hwf; word_lia). wp_step.
    apply bitmap_test_spec; [done|lia|]. apply IH; [done|lia..|]. simpl in HQ.
    replace (start + (i + 1)) with (start + i + 1) by lia. destruct (Bool.eqb _ v); [|done].
    by replace (c + 1 + _) with (c + (1 + count_bits b (start + i + 1) n v)) by lia.
Qed.

Lemma bitmap_count_spec b start cnt v Q :
  bitmap_wf b → 0 ≤ start → 0 ≤ cnt → start + cnt ≤ bit_cnt b →
  Q (count_bits b start (Z.to_nat cnt) v) b → wp (bitmap_count start cnt v) b Q.
Proof.
  intros Hwf Hs Hn Hr HQ. unfold bitmap_count. wp_step. apply wp_check_range; [done..|].
  apply count_loop_spec; [done|lia..|]. by rewrite Z.add_0_r.
Qed.

End BitRules.

(** ** Claims *)

(** [bitmap_scan_and_flip], the allocator of pages and of disk sectors, is
    first fit: on a well-formed bitmap it returns the least index at or after
    [start] from which [cnt] consecutive bits equal [value], and exactly those
    bits are flipped; when no such group exists it returns [BITMAP_ERROR] and
    no bit changes.  No assertion fires. *)
Theorem scan_and_flip_first_fit b start cnt v :
  bitmap_wf b → 0 ≤ start ≤ bit_cnt b → 0 ≤ cnt →
  ∃ r b', bitmap_scan_and_flip start cnt v b = Ret (r, b') ∧
    bitmap_wf b' ∧ bit_cnt b' = bit_cnt b ∧
    ((r ≠ BITMAP_ERROR ∧ start ≤ r ∧ r + cnt ≤ bit_cnt b ∧
        (∀ j, r ≤ j < r + cnt → bit b j = v) ∧
        (∀ k, start ≤ k < r → ∃ j, k ≤ j < k + cnt ∧ bit b j ≠ v) ∧
        (∀ j, 0 ≤ j → bit b' j = if bool_decide (r ≤ j < r + cnt) then negb v else bit b j)) ∨
     (r = BITMAP_ERROR ∧
        (∀ k, start ≤ k → k + cnt ≤ bit_cnt b → ∃ j, k ≤ j < k + cnt ∧ bit b j ≠ v) ∧
        (∀ j, 0 ≤ j → bit b' j = bit b j))).
Proof.
  intros Hwf Hs Hn. destruct (proj1 (wp_outcome _ _ _) (bitmap_scan_and_flip_spec b start cnt v Hwf Hs Hn))
    as (r & b' & E & Hr & Hwf' & Hc' & Hb').
  assert (∀ k, ¬ range_all b k cnt v → ∃ j, k ≤ j < k + cnt ∧ bit b j ≠ v) as Hex.
  { intros k Hk. rewrite range_all_not_has in Hk. apply dec_stable in Hk as (j & Hj & Hv).
    exists j. split; [done|]. rewrite Hv. by destruct v. }
  exists r, b'. split_and!; [done..|]. destruct Hr as [(H0 & H1 & H2 & H3 & H4)|[-> H1]]; [left|right].
  - split_and!; [done..|naive_solver|]. intros j Hj. rewrite Hb' by done.
    repeat case_bool_decide; try done; naive_solver.
  - split_and!; [done|naive_solver|]. intros j Hj. rewrite Hb' by done. by rewrite bool_decide_false by naive_solver.
Qed.

Lemma scan_and_flip_first_fit_witness :
  ∃ r b', bitmap_scan_and_flip 1 2 false (mk_bitmap 8 [5]) = Ret (r, b') ∧
    bitmap_wf b' ∧ r ≠ BITMAP_ERROR ∧ bit b' 3 = true.
Proof.
  destruct (scan_and_flip_first_fit (mk_bitmap 8 [5]) 1 2 false) as (r & b' & E & Hwf & _ & _).
  { by split; [..|repeat constructor]. }
  { done. } { done. }
  exists r, b'. split_and!; [done..| |]; vm_compute in E; by injection E as <- <-.
Defined.
