(* ===== verification/Block.v ===== *)
(** * Block devices (devices/block.c, devices/block.h)

    The registry of block devices and the sector-level reads and writes of
    the file system's device.  The drivers behind [ops->read] and
    [ops->write] talk to hardware; what the medium holds is the map
    [contents] of a device, and a sector never written reads as zeros. *)

From S2P Require Import Prelude.
Local Open Scope Z_scope.

(** ** Data *)

Definition BLOCK_SECTOR_SIZE : Z := 512.

Inductive block_type := BLOCK_KERNEL | BLOCK_FILESYS | BLOCK_SCRATCH | BLOCK_SWAP | BLOCK_RAW | BLOCK_FOREIGN.

#[export] Instance block_type_eq_dec : EqDecision block_type.
Proof. solve_decision. Defined.

(** The number of a type in the [enum]; the roles are those below [BLOCK_ROLE_CNT]. *)
Definition type_number (t : block_type) : Z :=
  match t with
  | BLOCK_KERNEL => 0 | BLOCK_FILESYS => 1 | BLOCK_SCRATCH => 2 | BLOCK_SWAP => 3
  | BLOCK_RAW => 4 | BLOCK_FOREIGN => 5
  end.
Definition BLOCK_ROLE_CNT : Z := 4.

Definition sector_zero : list Z := replicate 512 0.

(** [struct block], with the medium its driver gives access to. *)
Record block := mk_block {
  block_nm : string;
  block_ty : block_type;
  block_sz : Z;
  read_cnt : Z;
  write_cnt : Z;
  contents : gmap Z (list Z)
}.

(** What the medium holds at a sector. *)
Definition sector_at (b : block) (sector : Z) : list Z := default sector_zero (contents b !! sector).

(** ** Operations on one device *)

(** [PANIC] stops the kernel as a failed assertion does. *)
Definition check_sector (sector : Z) : M block unit :=
  b ← get_state; if block_sz b <=? sector then fail AssertFail else ret tt.

Definition block_read (sector : Z) : M block (list Z) :=
  check_sector sector;;
  b ← get_state;
  put_state (mk_block (block_nm b) (block_ty b) (block_sz b) (u64 (read_cnt b + 1)) (write_cnt b) (contents b));;
  ret (sector_at b sector).

Definition block_write (sector : Z) (buffer : list Z) : M block unit :=
  check_sector sector;;
  b ← get_state;
  ASSERT (bool_decide (block_ty b ≠ BLOCK_FOREIGN));;
  put_state (mk_block (block_nm b) (block_ty b) (block_sz b) (read_cnt b) (u64 (write_cnt b + 1))
               (<[sector := buffer]> (contents b))).

Definition block_size (b : block) : Z := block_sz b.
Definition block_name (b : block) : string := block_nm b.
Definition block_type_of (b : block) : block_type := block_ty b.

Definition block_type_name (t : block_type) : string :=
  match t with
  | BLOCK_KERNEL => "kernel" | BLOCK_FILESYS => "filesys" | BLOCK_SCRATCH => "scratch"
  | BLOCK_SWAP => "swap" | BLOCK_RAW => "raw" | BLOCK_FOREIGN => "foreign"
  end.

(** ** The registry *)

(** The static variables of block.c: the devices by address, [all_blocks] in
    probe order, and [block_by_role] (0 is the null pointer). *)
Record registry := mk_registry {
  devices : gmap Z block;
  all_blocks : list Z;
  block_by_role : list Z
}.

Definition block_get_role (role : block_type) : M registry Z :=
  ASSERT (bool_decide (type_number role < BLOCK_ROLE_CNT));;
  r ← get_state; deref (block_by_role r !! Z.to_nat (type_number role)).

Definition block_set_role (role : block_type) (b : Z) : M registry unit :=
  ASSERT (bool_decide (type_number role < BLOCK_ROLE_CNT));;
  modify (λ r, mk_registry (devices r) (all_blocks r) (<[Z.to_nat (type_number role) := b]> (block_by_role r))).

Definition block_first : M registry Z := gets (λ r, List.hd 0 (all_blocks r)).

(** The device after [b] in the list. *)
Fixpoint after_block (b : Z) (l : list Z) : option Z :=
  match l with
  | [] => None
  | a :: r => if bool_decide (a = b) then Some (List.hd 0 r) else after_block b r
  end.
Definition block_next (b : Z) : M registry Z :=
  r ← get_state; deref (after_block b (all_blocks r)).

Fixpoint by_name_loop (l : list Z) (name : string) : M registry Z :=
  match l with
  | [] => ret 0
  | a :: l =>
      r ← get_state;
      b ← deref (devices r !! a);
      if String.eqb name (block_nm b) then ret a else by_name_loop l name
  end.
Definition block_get_by_name (name : string) : M registry Z :=
  r ← get_state; by_name_loop (all_blocks r) name.

(** [b] is what [malloc] returns and [medium] what the driver's device holds;
    [strlcpy] cuts the name to 15 characters. *)
Definition block_register (b : Z) (name : string) (type : block_type) (size : Z) (medium : gmap Z (list Z))
    : M registry Z :=
  if bool_decide (b = 0) then fail AssertFail
  else
    modify (λ r, mk_registry
      (<[b := mk_block (String.substring 0 15 name) type size 0 0 medium]> (devices r))
      (all_blocks r ++ [b]) (block_by_role r));;
    ret b.

(** ** Lemmas *)

(** The device holds whole sectors. *)
Definition block_wf (b : block) : Prop :=
  block_ty b ≠ BLOCK_FOREIGN ∧ ∀ n l, contents b !! n = Some l → length l = 512%nat.

Lemma sector_at_length b n : block_wf b → length (sector_at b n) = 512%nat.
Proof.
  intros [_ Hb]. unfold sector_at. destruct (contents b !! n) eqn:E; simpl; [by eapply Hb|done].
Qed.

Lemma block_read_spec b n : n < block_sz b → 
  wp (block_read n) b (λ l b', l = sector_at b n ∧ block_sz b' = block_sz b ∧ block_ty b' = block_ty b ∧
    contents b' = contents b).
Proof.
  intros Hn. unfold block_read, check_sector. wp_steps.
  assert ((block_sz b <=? n) = false) as -> by lia. by wp_steps.
Qed.

Lemma block_write_spec b n l : n < block_sz b → block_ty b ≠ BLOCK_FOREIGN →
  wp (block_write n l) b (λ _ b', block_sz b' = block_sz b ∧ block_ty b' = block_ty b ∧
    contents b' = <[n := l]> (contents b)).
Proof.
  intros Hn Ht. unfold block_write, check_sector. wp_steps.
  assert ((block_sz b <=? n) = false) as -> by lia. wp_steps.
  apply wp_ASSERT; [by apply bool_decide_eq_true_2|]. by wp_steps.
Qed.

Lemma block_wf_write b b' n l :
  block_wf b → block_ty b' = block_ty b → contents b' = <[n := l]> (contents b) → length l = 512%nat → block_wf b'.
Proof.
  intros [Ht Hb] E1 E2 Hl. split; [congruence|]. intros n' l'. rewrite E2, lookup_insert_Some.
  intros [[_ <-]|[_ H]]; [done|by eapply Hb].
Qed.
