(* ===== verification/Partition.v ===== *)
(** * Partitions (devices/partition.c)

    Scanning a disk for partitions, and reading and writing through a
    partition, which is a block device of its own on a part of another.  The
    devices are those of the registry of block.c; the messages that are
    printed are kept as data. *)

From stdpp Require Import pretty.
From S2P Require Import Prelude Block.
Local Open Scope Z_scope.

(** ** Data *)

(** [struct partition]: the device below and the first sector on it. *)
Record partition := mk_partition { part_block : Z; part_start : Z }.

Inductive message :=
| PastEnd (sector : Z)
| InvalidSignature
| InvalidExtended (sector : Z)
| ExtendedIn (sector : Z)
| StartsPast (part_nr start : Z)
| EndsPast (part_nr finish size : Z)
| Registered (name extra_info : string) (part_type size : Z)
| NoPartitions.

(** The registry; the [aux] of the devices whose operations are
    [partition_operations] (the others have the operations of a driver); what
    was printed; and the heap: the number of structures it has room for and
    the address of the next one. *)
Record disks := mk_disks {
  reg : registry;
  aux : gmap Z partition;
  console : list message;
  room : nat;
  next : Z
}.

Definition say (m : message) : M disks unit :=
  modify (λ d, mk_disks (reg d) (aux d) (console d ++ [m]) (room d) (next d)).

Definition malloc : M disks Z :=
  d ← get_state;
  match room d with
  | O => ret 0
  | S n => put_state (mk_disks (reg d) (aux d) (console d) n (next d + 1));; ret (next d)
  end.
Definition free : M disks unit :=
  modify (λ d, mk_disks (reg d) (aux d) (console d) (S (room d)) (next d)).

(** An operation of block.c on the device at [b]. *)
Definition on_device {A} (b : Z) (c : M block A) : M disks A :=
  λ d, match devices (reg d) !! b with
       | None => Fail BadAccess
       | Some k =>
           match c k with
           | Ret (a, k') =>
               Ret (a, mk_disks (mk_registry (<[b := k']> (devices (reg d))) (all_blocks (reg d)) (block_by_role (reg d)))
                         (aux d) (console d) (room d) (next d))
           | Fail f => Fail f
           end
       end.

(** ** Reading and writing through a partition *)

Definition partition_read (block_read : Z → Z → M disks (list Z)) (p : partition) (sector : Z) : M disks (list Z) :=
  block_read (part_block p) (u32 (part_start p + sector)).
Definition partition_write (block_write : Z → Z → list Z → M disks unit) (p : partition) (sector : Z)
    (buffer : list Z) : M disks unit :=
  block_write (part_block p) (u32 (part_start p + sector)) buffer.

Definition count_read (k : block) : block :=
  mk_block (block_nm k) (block_ty k) (block_sz k) (u64 (read_cnt k + 1)) (write_cnt k) (contents k).
Definition count_write (k : block) : block :=
  mk_block (block_nm k) (block_ty k) (block_sz k) (read_cnt k) (u64 (write_cnt k + 1)) (contents k).

(** [block_read] and [block_write] with the operations of the device: those of
    a partition call them again, on the device below. *)
Fixpoint dev_read (depth : nat) (b sector : Z) : M disks (list Z) :=
  match depth with
  | O => fail OutOfFuel
  | S depth =>
      on_device b (check_sector sector);;
      d ← get_state;
      data ← match aux d !! b with
             | Some p => partition_read (dev_read depth) p sector
             | None => on_device b (gets (λ k, sector_at k sector))
             end;
      on_device b (modify count_read);;
      ret data
  end.

Fixpoint dev_write (depth : nat) (b sector : Z) (buffer : list Z) : M disks unit :=
  match depth with
  | O => fail OutOfFuel
  | S depth =>
      on_device b (check_sector sector);;
      on_device b (k ← get_state; ASSERT (bool_decide (block_ty k ≠ BLOCK_FOREIGN)));;
      d ← get_state;
      match aux d !! b with
      | Some p => partition_write (dev_write depth) p sector buffer
      | None => on_device b (modify (λ k, mk_block (block_nm k) (block_ty k) (block_sz k) (read_cnt k) (write_cnt k)
                                            (<[sector := buffer]> (contents k))))
      end;;
      on_device b (modify count_write)
  end.

(** Partitions are looked for on raw disks only: one device below another. *)
Definition DEPTH : nat := 2.

(** ** The partition table *)

Definition type_names : list (Z * string) :=
  [(0x00, "Empty"); (0x01, "FAT12"); (0x02, "XENIX root");
   (0x03, "XENIX usr"); (0x04, "FAT16 <32M"); (0x05, "Extended");
   (0x06, "FAT16"); (0x07, "HPFS/NTFS"); (0x08, "AIX");
   (0x09, "AIX bootable"); (0x0a, "OS/2 Boot Manager"); (0x0b, "W95 FAT32");
   (0x0c, "W95 FAT32 (LBA)"); (0x0e, "W95 FAT16 (LBA)"); (0x0f, "W95 Ext'd (LBA)");
   (0x10, "OPUS"); (0x11, "Hidden FAT12"); (0x12, "Compaq diagnostics");
   (0x14, "Hidden FAT16 <32M"); (0x16, "Hidden FAT16"); (0x17, "Hidden HPFS/NTFS");
   (0x18, "AST SmartSleep"); (0x1b, "Hidden W95 FAT32"); (0x1c, "Hidden W95 FAT32 (LBA)");
   (0x1e, "Hidden W95 FAT16 (LBA)"); (0x20, "Pintos OS kernel"); (0x21, "Pintos file system");
   (0x22, "Pintos scratch"); (0x23, "Pintos swap"); (0x24, "NEC DOS");
   (0x39, "Plan 9"); (0x3c, "PartitionMagic recovery"); (0x40, "Venix 80286");
   (0x41, "PPC PReP Boot"); (0x42, "SFS"); (0x4d, "QNX4.x");
   (0x4e, "QNX4.x 2nd part"); (0x4f, "QNX4.x 3rd part"); (0x50, "OnTrack DM");
   (0x51, "OnTrack DM6 Aux1"); (0x52, "CP/M"); (0x53, "OnTrack DM6 Aux3");
   (0x54, "OnTrackDM6"); (0x55, "EZ-Drive"); (0x56, "Golden Bow");
   (0x5c, "Priam Edisk"); (0x61, "SpeedStor"); (0x63, "GNU HURD or SysV");
   (0x64, "Novell Netware 286"); (0x65, "Novell Netware 386"); (0x70, "DiskSecure Multi-Boot");
   (0x75, "PC/IX"); (0x80, "Old Minix"); (0x81, "Minix / old Linux");
   (0x82, "Linux swap / Solaris"); (0x83, "Linux"); (0x84, "OS/2 hidden C: drive");
   (0x85, "Linux extended"); (0x86, "NTFS volume set"); (0x87, "NTFS volume set");
   (0x88, "Linux plaintext"); (0x8e, "Linux LVM"); (0x93, "Amoeba");
   (0x94, "Amoeba BBT"); (0x9f, "BSD/OS"); (0xa0, "IBM Thinkpad hibernation");
   (0xa5, "FreeBSD"); (0xa6, "OpenBSD"); (0xa7, "NeXTSTEP");
   (0xa8, "Darwin UFS"); (0xa9, "NetBSD"); (0xab, "Darwin boot");
   (0xb7, "BSDI fs"); (0xb8, "BSDI swap"); (0xbb, "Boot Wizard hidden");
   (0xbe, "Solaris boot"); (0xbf, "Solaris"); (0xc1, "DRDOS/sec (FAT-12)");
   (0xc4, "DRDOS/sec (FAT-16 < 32M)"); (0xc6, "DRDOS/sec (FAT-16)"); (0xc7, "Syrinx");
   (0xda, "Non-FS data"); (0xdb, "CP/M / CTOS / ..."); (0xde, "Dell Utility");
   (0xdf, "BootIt"); (0xe1, "DOS access"); (0xe3, "DOS R/O");
   (0xe4, "SpeedStor"); (0xeb, "BeOS fs"); (0xee, "EFI GPT");
   (0xef, "EFI (FAT-12/16/32)"); (0xf0, "Linux/PA-RISC boot"); (0xf1, "SpeedStor");
   (0xf4, "SpeedStor"); (0xf2, "DOS secondary"); (0xfd, "Linux raid autodetect");
   (0xfe, "LANstep"); (0xff, "BBT")].

Definition partition_type_name (type : Z) : string :=
  match list_find (λ e, e.1 = type) type_names with
  | Some (_, (_, name)) => name
  | None => "Unknown"
  end.

(** The fields of an entry the code reads, at their offsets in the packed
    structure, little endian. *)
Record entry := mk_entry { e_type : Z; e_offset : Z; e_size : Z }.
Definition byte (l : list Z) (i : nat) : Z := nth i l 0.
Definition le32 (l : list Z) (i : nat) : Z :=
  byte l i + byte l (i + 1) * 2 ^ 8 + byte l (i + 2) * 2 ^ 16 + byte l (i + 3) * 2 ^ 24.
Definition entry_at (pt : list Z) (i : nat) : entry :=
  let e := (446 + 16 * i)%nat in mk_entry (byte pt (e + 4)) (le32 pt (e + 8)) (le32 pt (e + 12)).
Definition partitions (pt : list Z) : list entry := map (entry_at pt) (seq 0 4).
Definition signature (pt : list Z) : Z := byte pt 510 + byte pt 511 * 2 ^ 8.

Definition is_empty (e : entry) : bool := (e_size e =? 0) || (e_type e =? 0).
Definition is_extended (e : entry) : bool :=
  (e_type e =? 0x05) || (e_type e =? 0x0f) || (e_type e =? 0x85) || (e_type e =? 0xc5).

Definition type_of (part_type : Z) : block_type :=
  if part_type =? 0x20 then BLOCK_KERNEL else if part_type =? 0x21 then BLOCK_FILESYS
  else if part_type =? 0x22 then BLOCK_SCRATCH else if part_type =? 0x23 then BLOCK_SWAP else BLOCK_FOREIGN.

(** [snprintf (name, sizeof name, "%s%d", ...)] *)
Definition part_name (k : block) (part_nr : Z) : string :=
  String.substring 0 15 (block_nm k +:+ pretty part_nr).

Definition found_partition (b part_type start size part_nr : Z) : M disks unit :=
  k ← on_device b get_state;
  if block_size k <=? start then say (StartsPast part_nr start)
  else if (u32 (start + size) <? start) || (block_size k <? u32 (start + size))
  then say (EndsPast part_nr (u32 (start + size)) (block_size k))
  else
    p ← malloc;
    if p =? 0 then fail AssertFail
    else
      dev ← malloc;
      modify (λ d, mk_disks (reg d) (<[dev := mk_partition b start]> (aux d)) (console d) (room d) (next d));;
      (λ d, match block_register dev (part_name k part_nr) (type_of part_type) size ∅ (reg d) with
            | Ret (_, r) => Ret (tt, mk_disks r (aux d) (console d) (room d) (next d))
            | Fail f => Fail f
            end);;
      say (Registered (part_name k part_nr) (partition_type_name part_type) part_type size).

Section Table.
Variable read_table : Z → Z → Z → M disks Z.   (* the recursive call *)

(** The loop over the four entries; [part_nr] is passed on and returned. *)
Fixpoint parse_partitions (b sector primary : Z) (es : list entry) (part_nr : Z) : M disks Z :=
  match es with
  | [] => ret part_nr
  | e :: es =>
      nr ← if is_empty e then ret part_nr
           else if is_extended e then
             say (ExtendedIn sector);;
             if sector =? 0 then read_table (e_offset e) (e_offset e) part_nr
             else read_table (u32 (e_offset e + primary)) primary part_nr
           else
             let nr := s32 (part_nr + 1) in
             found_partition b (e_type e) (u32 (e_offset e + sector)) (e_size e) nr;;
             ret nr;
      parse_partitions b sector primary es nr
  end.
End Table.

Fixpoint read_partition_table (fuel : nat) (b sector primary part_nr : Z) : M disks Z :=
  match fuel with
  | O => fail OutOfFuel
  | S fuel =>
      k ← on_device b get_state;
      if block_size k <=? sector then say (PastEnd sector);; ret part_nr
      else
        pt ← malloc;
        if pt =? 0 then fail AssertFail
        else
          data ← dev_read DEPTH b 0;
          if negb (signature data =? 0xaa55)
          then say (if primary =? 0 then InvalidSignature else InvalidExtended sector);; free;; ret part_nr
          else
            nr ← parse_partitions (read_partition_table fuel b) b sector primary (partitions data) part_nr;
            free;; ret nr
  end.

Definition partition_scan (fuel : nat) (b : Z) : M disks unit :=
  part_nr ← read_partition_table fuel b 0 0 0;
  if part_nr =? 0 then say NoPartitions else ret tt.

(** ** Lemmas *)

Notation devs d := (devices (reg d)).

Definition with_dev (d : disks) (b : Z) (k : block) : disks :=
  mk_disks (mk_registry (<[b := k]> (devs d)) (all_blocks (reg d)) (block_by_role (reg d)))
    (aux d) (console d) (room d) (next d).

Lemma on_device_run {A} b (c : M block A) d k a k' : devs d !! b = Some k → c k = Ret (a, k') →
  on_device b c d = Ret (a, with_dev d b k').
Proof. intros Hk Hc. unfold on_device. by rewrite Hk, Hc. Qed.

Lemma with_dev_same d b k : devs d !! b = Some k → with_dev d b k = d.
Proof. intros Hk. unfold with_dev. rewrite insert_id by done. by destruct d as [[] ????]. Qed.

Lemma on_device_read {A} b (c : M block A) d k a : devs d !! b = Some k → c k = Ret (a, k) →
  on_device b c d = Ret (a, d).
Proof. intros Hk Hc. by rewrite (on_device_run b c d k a k), with_dev_same. Qed.

Lemma check_sector_ok k n : n < block_sz k → check_sector n k = Ret (tt, k).
Proof. intros Hn. unfold check_sector, bind, get_state. by assert ((block_sz k <=? n) = false) as -> by lia. Qed.

Lemma check_sector_past k n : block_sz k ≤ n → check_sector n k = Fail AssertFail.
Proof. intros Hn. unfold check_sector, bind, get_state. by assert ((block_sz k <=? n) = true) as -> by lia. Qed.

(** On a device with a driver of its own these are [block_read] and
    [block_write] of block.c. *)
Lemma dev_read_driver n b sector d : aux d !! b = None →
  dev_read (S n) b sector d = on_device b (block_read sector) d.
Proof.
  intros Ha. cbn [dev_read]. unfold on_device, block_read, bind, get_state, put_state, check_sector, gets, modify, fail, ret.
  destruct (devs d !! b) as [k|] eqn:Hk; [|done].
  cbn. destruct (block_sz k <=? sector); [done|]. cbn. rewrite Ha. by repeat (cbn; rewrite ?lookup_insert_eq, ?insert_insert_eq).
Qed.

Lemma dev_write_driver n b sector buffer d : aux d !! b = None →
  dev_write (S n) b sector buffer d = on_device b (block_write sector buffer) d.
Proof.
  intros Ha. cbn [dev_write]. unfold on_device, block_write, bind, get_state, put_state, check_sector, modify, fail, ret.
  destruct (devs d !! b) as [k|] eqn:Hk; [|done].
  cbn. destruct (block_sz k <=? sector); [done|]. cbn. rewrite lookup_insert_eq. unfold ASSERT, ret, fail.
  destruct (bool_decide _) eqn:Et; [|done]. cbn. rewrite Ha. by repeat (cbn; rewrite ?lookup_insert_eq, ?insert_insert_eq).
Qed.

(** ** A partition is a slice of the device below *)

(** The device at [a] is a partition of [ka] sectors, on the driver's device [kb]. *)
Definition slice (d : disks) (a : Z) (p : partition) (ka kb : block) : Prop :=
  aux d !! a = Some p ∧ devs d !! a = Some ka ∧ devs d !! part_block p = Some kb ∧ aux d !! part_block p = None ∧
  0 ≤ part_start p ∧ part_start p + block_sz ka ≤ block_sz kb < 2 ^ 32.

(** What the device at [b] holds in a sector. *)
Definition medium (d : disks) (b n : Z) : list Z :=
  match devs d !! b with Some k => sector_at k n | None => [] end.

Lemma medium_with_dev d b k b' n :
  medium (with_dev d b k) b' n = if decide (b' = b) then sector_at k n else medium d b' n.
Proof.
  unfold medium, with_dev. cbn. destruct (decide (b' = b)) as [->|]; [by rewrite lookup_insert_eq|].
  by rewrite lookup_insert_ne.
Qed.

Lemma slice_ne d a p ka kb : slice d a p ka kb → a ≠ part_block p.
Proof. intros (Ha&_&_&Hb&_) ->. by rewrite Ha in Hb. Qed.

Lemma slice_update d a p ka kb ka' kb' : slice d a p ka kb → block_sz ka' = block_sz ka → block_sz kb' = block_sz kb →
  slice (with_dev (with_dev d (part_block p) kb') a ka') a p ka' kb'.
Proof.
  intros Hs Ea Eb. pose proof (slice_ne _ _ _ _ _ Hs) as Hne. destruct Hs as (Ha&Hka&Hkb&Hb&H0&Hfit).
  unfold slice, with_dev. cbn. rewrite lookup_insert_eq, lookup_insert_ne, lookup_insert_eq by done. by rewrite Ea, Eb.
Qed.

(** The media after both devices of a slice were accessed; the partition's own
    descriptor holds nothing. *)
Lemma slice_media d a p ka kb ka' kb' b n : slice d a p ka kb → contents ka' = contents ka →
  medium (with_dev (with_dev d (part_block p) kb') a ka') b n
  = if decide (b = part_block p) then sector_at kb' n else medium d b n.
Proof.
  intros Hs Ec. pose proof (slice_ne _ _ _ _ _ Hs) as Hne. destruct Hs as (Ha&Hka&Hkb&_).
  rewrite !medium_with_dev. destruct (decide (b = a)) as [->|]; [|done]. rewrite decide_False by done.
  unfold medium, sector_at. by rewrite Hka, Ec.
Qed.

Lemma slice_read d a p ka kb i : slice d a p ka kb → 0 ≤ i < block_sz ka →
  dev_read DEPTH a i d = Ret (sector_at kb (part_start p + i),
    with_dev (with_dev d (part_block p) (count_read kb)) a (count_read ka)).
Proof.
  intros Hs Hi. pose proof (slice_ne _ _ _ _ _ Hs) as Hne. destruct Hs as (Ha&Hka&Hkb&Hb&H0&Hfit).
  unfold DEPTH. remember 1%nat as n1 eqn:En. cbn [dev_read]. unfold bind at 1.
  rewrite (on_device_read a _ d ka tt) by (done || apply check_sector_ok; lia).
  unfold bind at 1, get_state at 1. rewrite Ha. unfold partition_read, bind at 1.
  rewrite u32_small by word_lia. subst n1. rewrite dev_read_driver by done.
  rewrite (on_device_run _ _ d kb (sector_at kb (part_start p + i)) (count_read kb)); [|done|].
  2:{ unfold block_read, bind. rewrite check_sector_ok by lia. done. }
  unfold bind at 1. rewrite (on_device_run a _ _ ka tt (count_read ka)); [done| |done].
  cbn. by rewrite lookup_insert_ne.
Qed.

Definition stored (k : block) (n : Z) (buffer : list Z) : block :=
  mk_block (block_nm k) (block_ty k) (block_sz k) (read_cnt k) (u64 (write_cnt k + 1)) (<[n := buffer]> (contents k)).

Lemma slice_write d a p ka kb i buffer : slice d a p ka kb → 0 ≤ i < block_sz ka →
  block_ty ka ≠ BLOCK_FOREIGN → block_ty kb ≠ BLOCK_FOREIGN →
  dev_write DEPTH a i buffer d = Ret (tt,
    with_dev (with_dev d (part_block p) (stored kb (part_start p + i) buffer)) a (count_write ka)).
Proof.
  intros Hs Hi Hta Htb. pose proof (slice_ne _ _ _ _ _ Hs) as Hne. destruct Hs as (Ha&Hka&Hkb&Hb&H0&Hfit).
  unfold DEPTH. remember 1%nat as n1 eqn:En. cbn [dev_write]. unfold bind at 1.
  rewrite (on_device_read a _ d ka tt) by (done || apply check_sector_ok; lia).
  unfold bind at 1. rewrite (on_device_read a _ d ka tt); [|done|].
  2:{ unfold bind, get_state. by rewrite bool_decide_true. }
  unfold bind at 1, get_state at 1. rewrite Ha. unfold partition_write, bind at 1.
  rewrite u32_small by word_lia. subst n1. rewrite dev_write_driver by done.
  erewrite (on_device_run _ _ d kb tt); [|done|].
  2:{ unfold block_write, bind. rewrite check_sector_ok by lia. unfold get_state. by rewrite bool_decide_true. }
  rewrite (on_device_run a _ _ ka tt (count_write ka)); [done| |done].
  cbn. by rewrite lookup_insert_ne.
Qed.

Lemma slice_past d a p ka kb i buffer : slice d a p ka kb → block_sz ka ≤ i →
  dev_read DEPTH a i d = Fail AssertFail ∧ dev_write DEPTH a i buffer d = Fail AssertFail.
Proof.
  intros (_&Hka&_) Hge. assert (on_device a (check_sector i) d = Fail AssertFail) as E.
  { unfold on_device. by rewrite Hka, check_sector_past. }
  split; unfold DEPTH; [cbn [dev_read]|cbn [dev_write]]; unfold bind at 1; by rewrite E.
Qed.

(** The assertion of [block_write], in the partition or in the device below. *)
Lemma slice_write_foreign d a p ka kb i buffer : slice d a p ka kb → 0 ≤ i < block_sz ka →
  block_ty ka = BLOCK_FOREIGN ∨ block_ty kb = BLOCK_FOREIGN → dev_write DEPTH a i buffer d = Fail AssertFail.
Proof.
  intros Hs Hi Hty. pose proof (slice_ne _ _ _ _ _ Hs) as Hne. destruct Hs as (Ha&Hka&Hkb&Hb&H0&Hfit).
  unfold DEPTH. remember 1%nat as n1 eqn:En. cbn [dev_write]. unfold bind at 1.
  rewrite (on_device_read a _ d ka tt) by (done || apply check_sector_ok; lia).
  destruct (decide (block_ty ka = BLOCK_FOREIGN)) as [E|E].
  - unfold bind at 1, on_device. rewrite Hka. unfold bind, get_state, ASSERT. by rewrite bool_decide_false by tauto.
  - destruct Hty as [?|Hty]; [done|]. unfold bind at 1. rewrite (on_device_read a _ d ka tt); [|done|].
    2:{ unfold bind, get_state. by rewrite bool_decide_true. }
    unfold bind at 1, get_state at 1. rewrite Ha. unfold partition_write, bind at 1.
    rewrite u32_small by word_lia. subst n1. rewrite dev_write_driver by done.
    unfold on_device. rewrite Hkb. unfold block_write, bind. rewrite check_sector_ok by lia. unfold get_state, ASSERT.
    by rewrite bool_decide_false by tauto.
Qed.

(** C23: input and output through a partition stay in its slice of the disk.
    A read of sector [i] of the partition, of whatever type, gives sector
    [start + i] of the device below and changes no medium.  A write to a
    partition, when neither it nor the device below is of type
    [BLOCK_FOREIGN], changes that sector of that device and no other
    sector of any device, and is read back; if one of them is foreign, the
    assertion of [block_write] stops the kernel.  An access at or past the end of
    the partition stops the kernel before anything is read or written. *)
Theorem partition_io_confined d a p ka kb i buffer : slice d a p ka kb → 0 ≤ i →
  (i < block_sz ka →
    wp (dev_read DEPTH a i) d (λ data d', data = medium d (part_block p) (part_start p + i) ∧
      (∀ b n, medium d' b n = medium d b n) ∧ ∃ ka' kb', slice d' a p ka' kb') ∧
    (block_ty ka ≠ BLOCK_FOREIGN → block_ty kb ≠ BLOCK_FOREIGN →
      wp (dev_write DEPTH a i buffer;; dev_read DEPTH a i) d (λ data d', data = buffer ∧
      (∀ b n, medium d' b n = if decide (b = part_block p ∧ n = part_start p + i) then buffer else medium d b n) ∧
      ∃ ka' kb', slice d' a p ka' kb')) ∧
    (block_ty ka = BLOCK_FOREIGN ∨ block_ty kb = BLOCK_FOREIGN → dev_write DEPTH a i buffer d = Fail AssertFail)) ∧
  (block_sz ka ≤ i →
    dev_read DEPTH a i d = Fail AssertFail ∧ dev_write DEPTH a i buffer d = Fail AssertFail).
Proof.
  intros Hs Hi. pose proof Hs as (Ha&Hka&Hkb&_). split; [|by intros Hge; eapply slice_past].
  intros Hlt. split; [|split; [intros Hta Htb|by apply (slice_write_foreign d a p ka kb)]].
  - eapply wp_run; [by apply slice_read|]. cbv beta. split; [by unfold medium; rewrite Hkb|]. split.
    + intros b n. erewrite slice_media by done. case_decide; [subst|done]. unfold medium. by rewrite Hkb.
    + do 2 eexists. by eapply slice_update.
  - wp_step. eapply wp_run; [by apply slice_write|]. cbv beta.
    epose proof (slice_update _ _ _ _ _ (count_write ka) (stored kb (part_start p + i) buffer) Hs) as Hs'.
    specialize (Hs' eq_refl eq_refl). eapply wp_run; [by apply (slice_read _ _ _ _ _ i Hs')|]. cbv beta.
    split; [unfold sector_at; cbn; by rewrite lookup_insert_eq|]. split; [|do 2 eexists; by eapply slice_update].
    intros b n. erewrite slice_media by done. erewrite slice_media by done.
    destruct (decide (b = part_block p)) as [->|]; [|by rewrite decide_False by tauto].
    destruct (decide (n = part_start p + i)) as [->|].
    + rewrite decide_True by done. unfold sector_at. cbn. by rewrite lookup_insert_eq.
    + rewrite decide_False by tauto. unfold sector_at, medium. cbn. by rewrite lookup_insert_ne, Hkb by done.
Qed.

(** ** Scanning *)

(** A driver's device whose medium can be scanned; addresses from [next] on
    are free. *)
Definition ready (d : disks) (b : Z) (k : block) : Prop :=
  devs d !! b = Some k ∧ aux d !! b = None ∧ 0 < b < next d ∧ 0 < block_sz k < 2 ^ 32 ∧
  ∀ a, next d ≤ a → devs d !! a = None ∧ aux d !! a = None.

(** The conditions of [found_partition]. *)
Definition fits (k : block) (start size : Z) : bool :=
  negb ((block_sz k <=? start) || ((u32 (start + size) <? start) || (block_sz k <? u32 (start + size)))).

Lemma fits_spec k start size : block_sz k < 2 ^ 32 → is_u32 start → is_u32 size →
  fits k start size = true ↔ start + size ≤ block_sz k ∧ start < block_sz k.
Proof.
  intros Hk Hs Hz. unfold fits. rewrite negb_true_iff, !orb_false_iff, Z.leb_gt, !Z.ltb_ge.
  destruct (decide (start + size < 2 ^ 32)) as [Hlt|Hge].
  - rewrite u32_small by word_lia. word_lia.
  - assert (u32 (start + size) = start + size - 2 ^ 32) as ->; [|word_lia].
    unfold u32. symmetry. apply Z.mod_unique with 1; word_lia.
Qed.

(** The descriptor of a partition, as [block_register] fills it in. *)
Definition part_dev (k : block) (part_type size nr : Z) : block :=
  mk_block (String.substring 0 15 (part_name k nr)) (type_of part_type) size 0 0 ∅.

(** A partition has been added at the address [a]. *)
Definition added (d d' : disks) (b : Z) (k : block) (part_type start size nr : Z) : Prop :=
  let a := next d + 1 in
  devs d' = <[a := part_dev k part_type size nr]> (devs d) ∧
  all_blocks (reg d') = all_blocks (reg d) ++ [a] ∧
  block_by_role (reg d') = block_by_role (reg d) ∧
  aux d' = <[a := mk_partition b start]> (aux d) ∧ room d = S (S (room d')) ∧ next d' = next d + 2.

(** Only what was printed differs. *)
Definition quiet (d d' : disks) : Prop :=
  reg d' = reg d ∧ aux d' = aux d ∧ room d' = room d ∧ next d' = next d.

Lemma say_quiet m d : say m d = Ret (tt, mk_disks (reg d) (aux d) (console d ++ [m]) (room d) (next d)).
Proof. done. Qed.

Lemma found_partition_spec d b k part_type start size nr : ready d b k →
  match found_partition b part_type start size nr d with
  | Ret (_, d') => if fits k start size then added d d' b k part_type start size nr else quiet d d'
  | Fail _ => fits k start size = true ∧ (room d < 2)%nat
  end.
Proof.
  intros (Hk&Ha&Hb&_). unfold found_partition, bind at 1. rewrite (on_device_read b _ d k k) by done.
  unfold fits, block_size. destruct (block_sz k <=? start); [done|].
  destruct ((u32 (start + size) <? start) || _); [done|]. cbn [negb orb].
  unfold bind, malloc, get_state, put_state, fail, ret, modify. cbn. destruct (room d) as [|n] eqn:En; [cbn; auto with lia|]. cbn.
  assert ((next d =? 0) = false) as -> by lia. cbn. unfold block_register. destruct n as [|n]; cbn; [rewrite bool_decide_true by done; cbn; auto with lia|].
  rewrite bool_decide_false by lia. cbn. unfold added. cbn.
  rewrite En. repeat split; try done. lia.
Qed.

Lemma added_ready d d' b k t s z nr : ready d b k → added d d' b k t s z nr → ready d' b k.
Proof.
  intros (Hk&Ha&Hb&Hz&Hf) (Ed&_&_&Ea&_&En). unfold ready. rewrite Ed, Ea, En.
  rewrite !lookup_insert_ne by lia. repeat split; try done; try lia; rewrite lookup_insert_ne by lia; by apply Hf; lia.
Qed.

Lemma quiet_ready d d' b k : ready d b k → quiet d d' → ready d' b k.
Proof. intros (Hk&Ha&Hb&Hz&Hf) (Er&Ea&Eo&En). unfold ready. rewrite Er, Ea, En. done. Qed.

Lemma found_partition_ready d b k t s z nr : ready d b k →
  pwp (found_partition b t s z nr) d (λ _ d', ready d' b k).
Proof.
  intros Hr. pose proof (found_partition_spec d b k t s z nr Hr) as H. unfold pwp.
  destruct (found_partition _ _ _ _ _ d) as [[[] d']|]; [|done].
  destruct (fits k s z); [by eapply added_ready|by eapply quiet_ready].
Qed.

(** The partitions of a table, numbered from 1, that lie on the device. *)
Fixpoint found (k : block) (nr : Z) (es : list entry) : list (Z * entry) :=
  match es with
  | [] => []
  | e :: es =>
      if is_empty e then found k nr es
      else (if fits k (e_offset e) (e_size e) then [(nr + 1, e)] else []) ++ found k (nr + 1) es
  end.

Definition plain (e : entry) : Prop := is_empty e = false → is_extended e = false.

(** A found partition is registered at the address [a]. *)
Definition registered (d : disks) (b : Z) (k : block) (f : Z * entry) (a : Z) : Prop :=
  devs d !! a = Some (part_dev k (e_type f.2) (e_size f.2) f.1) ∧ aux d !! a = Some (mk_partition b (e_offset f.2)).

(** What a scan of plain entries leaves behind. *)
Definition scanned (d d' : disks) (b : Z) (k : block) (fs : list (Z * entry)) : Prop :=
  (∃ addrs, all_blocks (reg d') = all_blocks (reg d) ++ addrs ∧ Forall2 (registered d' b k) fs addrs ∧
    Forall (λ a, next d ≤ a) addrs ∧ NoDup addrs) ∧
  (∀ a, a < next d → devs d' !! a = devs d !! a ∧ aux d' !! a = aux d !! a) ∧
  next d ≤ next d' ∧ (room d = room d' + 2 * length fs)%nat.

Lemma scanned_quiet d d1 d' b k fs : quiet d d1 → scanned d1 d' b k fs → scanned d d' b k fs.
Proof. intros (Er&Ea&Eo&En). unfold scanned. by rewrite Er, Ea, Eo, En. Qed.

Lemma scanned_added d d1 d' b k nr e fs : ready d b k → added d d1 b k (e_type e) (e_offset e) (e_size e) nr →
  scanned d1 d' b k fs → scanned d d' b k ((nr, e) :: fs).
Proof.
  intros (_&_&_&_&Hf) (Ed&El&_&Ea&Er&En) ((addrs&E&Hreg&Hge&Hnd)&Hold&Hn&Hroom). split; [|split; [|split]].
  - exists (next d + 1 :: addrs). split; [by rewrite E, El, <- app_assoc|]. split; [|split].
    + constructor; [|done]. destruct (Hold (next d + 1)) as [E1 E2]; [lia|]. unfold registered. cbn.
      by rewrite E1, E2, Ed, Ea, !lookup_insert_eq.
    + constructor; [lia|]. eapply Forall_impl; [done|]. cbn. lia.
    + constructor; [|done]. intros Hin. rewrite Forall_forall in Hge. specialize (Hge _ Hin). cbn in Hge. lia.
  - intros a Hlt. destruct (Hold a) as [E1 E2]; [lia|]. by rewrite E1, E2, Ed, Ea, !lookup_insert_ne by lia.
  - lia.
  - cbn [length]. lia.
Qed.

Lemma scanned_nil d b k : scanned d d b k [].
Proof.
  split; [exists []; rewrite app_nil_r; repeat split; constructor|]. repeat split; try done; cbn; lia.
Qed.

(** The numbering never wraps: the table has four entries. *)
Lemma parse_plain rt b k es : ∀ d nr, ready d b k → Forall plain es → Forall (λ e, is_u32 (e_offset e)) es →
  (2 * length (found k nr es) ≤ room d)%nat → 0 ≤ nr → nr + Z.of_nat (length es) < 2 ^ 31 →
  wp (parse_partitions rt b 0 0 es nr) d (λ nr' d', scanned d d' b k (found k nr es) ∧ 
    nr' = nr + Z.of_nat (length (filter (λ e, is_empty e = false) es))).
Proof.
  induction es as [|e es IH]; intros d nr Hr Hp Ho Hroom H0 Hnr.
  { cbn. split; [apply scanned_nil|]. cbn. lia. }
  inversion Hp as [|?? Hpe Hp']; inversion Ho as [|?? Hoe Ho']; subst. cbn [parse_partitions found length] in *.
  destruct (is_empty e) eqn:Ee.
  - wp_steps. rewrite filter_cons_False by congruence. apply IH; try done. lia.
  - rewrite (Hpe Ee). rewrite Z.add_0_r, u32_small by done. rewrite s32_small by word_lia. cbv zeta.
    apply wp_bind, wp_bind. pose proof (found_partition_spec d b k (e_type e) (e_offset e) (e_size e) (nr + 1) Hr) as Hf.
    rewrite filter_cons_True by done. cbn [length]. eapply (wp_mono _ _ (λ _ d1, ready d1 b k ∧
      (2 * length (found k (nr + 1) es) ≤ room d1)%nat ∧ ∀ d', scanned d1 d' b k (found k (nr + 1) es) →
      scanned d d' b k ((if fits k (e_offset e) (e_size e) then [(nr + 1, e)] else []) ++ found k (nr + 1) es))).
    { unfold wp. destruct (found_partition _ _ _ _ _ d) as [[[] d1]|]; destruct (fits _ _ _); cbn [app length] in *;
        try (destruct Hf; done || lia).
      - split; [by eapply added_ready|]. split; [destruct Hf as (_&_&_&_&Er&_); lia|].
        intros d'. by apply scanned_added.
      - split; [by eapply quiet_ready|]. split; [destruct Hf as (_&_&Er&_); lia|]. intros d'. by apply scanned_quiet. }
    intros [] d1 (Hr1&Hroom1&Hs1). wp_steps. eapply wp_mono; [apply IH; try done; lia|].
    cbv beta. intros nr' d' [Hs ->]. split; [by apply Hs1|lia].
Qed.

Lemma byte_le32 l i : Forall is_u8 l → is_u32 (le32 l i).
Proof.
  intros Hl. assert (∀ j, is_u8 (byte l j)) as Hb.
  { intros j. unfold byte. destruct (decide (j < length l)%nat) as [Hj|].
    - by apply (proj1 (List.Forall_nth is_u8 l) Hl).
    - rewrite nth_overflow by lia. word_lia. }
  unfold le32. pose proof (Hb i). pose proof (Hb (i + 1)%nat). pose proof (Hb (i + 2)%nat). pose proof (Hb (i + 3)%nat).
  word_lia.
Qed.

Lemma partitions_u32 pt : Forall is_u8 pt → Forall (λ e, is_u32 (e_offset e) ∧ is_u32 (e_size e)) (partitions pt).
Proof.
  intros Hl. apply Forall_forall. intros e (i&->&_)%list_elem_of_fmap. split; by apply byte_le32.
Qed.

Lemma found_sub k es : ∀ nr f, f ∈ found k nr es → f.2 ∈ es ∧ fits k (e_offset f.2) (e_size f.2) = true.
Proof.
  induction es as [|e es IH]; intros nr f; cbn; [by intros ?%elem_of_nil|].
  destruct (is_empty e); [intros [? ?]%IH; split; [by right|done]|].
  rewrite elem_of_app. intros [Hf|Hf].
  - destruct (fits k (e_offset e) (e_size e)) eqn:E; [|by apply elem_of_nil in Hf].
    apply list_elem_of_singleton in Hf as ->. split; [by left|done].
  - destruct (IH _ _ Hf). split; [by right|done].
Qed.

Lemma found_count_read k es : ∀ nr, found (count_read k) nr es = found k nr es.
Proof. induction es as [|e es IH]; intros nr; [done|]. cbn [found]. by rewrite !IH. Qed.

Lemma dev_read_ready d b k n : ready d b k → n < block_sz k →
  dev_read DEPTH b n d = Ret (sector_at k n, with_dev d b (count_read k)).
Proof.
  intros (Hk&Ha&_) Hn. unfold DEPTH. rewrite dev_read_driver by done.
  erewrite on_device_run; [reflexivity|done|]. unfold block_read, bind. rewrite check_sector_ok by done. done.
Qed.

Lemma ready_with_dev d b k k' : ready d b k → block_sz k' = block_sz k → ready (with_dev d b k') b k'.
Proof.
  intros (Hk&Ha&Hb&Hz&Hf) E. unfold ready, with_dev. cbn. rewrite lookup_insert_eq, E.
  repeat split; try done; try lia; rewrite ?lookup_insert_ne by lia; by apply Hf.
Qed.

Lemma ready_more d b k n m : ready d b k → next d ≤ m → ready (mk_disks (reg d) (aux d) (console d) n m) b k.
Proof.
  intros (Hk&Ha&Hb&Hz&Hf) Hm. unfold ready. cbn. split; [done|]. split; [done|]. split; [lia|]. split; [done|].
  intros a ?. apply Hf. lia.
Qed.

(** The head of [read_partition_table] on a device that can be scanned: the
    table in memory, from sector 0, whatever [sector] is. *)
Lemma read_table_head fuel d b k sector primary nr n : ready d b k → sector < block_sz k → room d = S n →
  read_partition_table (S fuel) b sector primary nr d
  = (if negb (signature (sector_at k 0) =? 0xaa55)
     then say (if primary =? 0 then InvalidSignature else InvalidExtended sector);; free;; ret nr
     else nr ← parse_partitions (read_partition_table fuel b) b sector primary (partitions (sector_at k 0)) nr; free;; ret nr)
    (with_dev (mk_disks (reg d) (aux d) (console d) n (next d + 1)) b (count_read k)).
Proof.
  intros Hr Hs Hn. pose proof Hr as (Hk&Ha&Hb&Hz&Hf). cbn [read_partition_table].
  unfold bind at 1. rewrite (on_device_read b _ d k k) by done. unfold block_size.
  assert ((block_sz k <=? sector) = false) as -> by lia.
  unfold bind at 1, malloc, bind at 1, get_state. rewrite Hn. unfold bind at 1, put_state, ret at 1.
  assert ((next d =? 0) = false) as -> by lia. unfold bind at 1.
  rewrite (dev_read_ready _ b k); [done| |lia].
  apply ready_more; [done|lia].
Qed.

Lemma wp_head {A} {S : Type} (c c' : M S A) s s' Q : c s = c' s' → wp c' s' Q → wp c s Q.
Proof. unfold wp. by intros ->. Qed.

(** The registered partitions as slices of the disk. *)
Definition slices (d d' : disks) (b : Z) (k : block) : Prop :=
  let fs := found k 0 (partitions (sector_at k 0)) in
  (∃ addrs, all_blocks (reg d') = all_blocks (reg d) ++ addrs ∧ NoDup addrs ∧
    Forall (λ a, devs d !! a = None) addrs ∧
    Forall2 (λ f a, slice d' a (mk_partition b (e_offset f.2)) (part_dev k (e_type f.2) (e_size f.2) f.1) (count_read k))
      fs addrs) ∧
  (∀ a, a ≠ b → is_Some (devs d !! a) → devs d' !! a = devs d !! a ∧ aux d' !! a = aux d !! a) ∧
  devs d' !! b = Some (count_read k) ∧ (room d = room d' + 2 * length fs)%nat.

Lemma scanned_slices d d1 d2 d' b k : ready d b k → Forall is_u8 (sector_at k 0) →
  d1 = with_dev (mk_disks (reg d) (aux d) (console d) (pred (room d)) (next d + 1)) b (count_read k) → (0 < room d)%nat →
  scanned d1 d2 b (count_read k) (found k 0 (partitions (sector_at k 0))) →
  reg d' = reg d2 → aux d' = aux d2 → room d' = S (room d2) → slices d d' b k.
Proof.
  intros (Hk&Ha&Hb&Hz&Hf) Hu -> Hroom ((addrs&E&Hreg&Hge&Hnd)&Hold&Hn&Hr2) Er Ea Eo. cbn [room with_dev next] in *.
  assert (devs d' !! b = Some (count_read k)) as Hkb'.
  { destruct (Hold b) as [E1 _]; [lia|]. rewrite Er, E1. cbn. by rewrite lookup_insert_eq. }
  split; [|split; [|split]].
  - exists addrs. rewrite Er. split; [done|]. split; [done|]. split.
    { eapply Forall_impl; [done|]. cbn. intros a ?. apply Hf. lia. }
    apply Forall2_same_length_lookup in Hreg as [Hl Hreg]. apply Forall2_same_length_lookup_2; [done|].
    intros i f a Hfi Hai. destruct (Hreg i f a Hfi Hai) as [H1 H2].
    apply list_elem_of_lookup_2 in Hfi. destruct (found_sub _ _ _ _ Hfi) as [Hin Hfit].
    pose proof (partitions_u32 _ Hu) as H32. rewrite Forall_forall in H32. destruct (H32 _ Hin) as [Ho Hs].
    apply fits_spec in Hfit as [Hfit _]; [|lia|done|done].
    refine (conj _ (conj _ (conj Hkb' (conj _ (conj _ _))))); cbn [part_block part_start part_dev block_sz count_read].
    + by rewrite Ea.
    + by rewrite Er.
    + destruct (Hold b) as [_ E2]; [lia|]. rewrite Ea, E2. done.
    + word_lia.
    + lia.
  - intros a Hne [x Hx]. destruct (decide (a < next d)) as [Hlt|Hge']; [|destruct (Hf a); [lia|congruence]].
    destruct (Hold a) as [E1 E2]; [lia|]. rewrite Er, Ea, E1, E2. cbn. by rewrite lookup_insert_ne.
  - done.
  - lia.
Qed.

(** C22: a disk with a valid partition table and no extended partitions is
    scanned to its end: [partition_scan] returns, and registers exactly the
    non-empty entries that lie on the disk, in the order of the table and with
    their numbers, each as a new device that is the slice of the disk the entry
    describes.  The other devices stay as they were, the table's memory is
    given back, and two structures per partition are kept. *)
Theorem scan_registers_slices fuel d b k : ready d b k → Forall is_u8 (sector_at k 0) →
  signature (sector_at k 0) = 0xaa55 → Forall plain (partitions (sector_at k 0)) →
  (1 + 2 * length (found k 0 (partitions (sector_at k 0))) ≤ room d)%nat →
  wp (partition_scan (S fuel) b) d (λ _ d', slices d d' b k).
Proof.
  intros Hr Hu Hsig Hp Hroom. pose proof Hr as (_&_&Hb&Hz&_). unfold partition_scan. wp_step.
  eapply wp_head; [apply (read_table_head fuel d b k 0 0 0 (pred (room d))); [done|lia|lia]|].
  rewrite Hsig. cbn [negb Z.eqb Pos.eqb]. set (d1 := with_dev _ b (count_read k)).
  assert (ready d1 b (count_read k)) as Hr1.
  { apply (ready_with_dev _ b k); [|done]. apply ready_more; [done|lia]. }
  wp_step. eapply wp_mono; [apply (parse_plain _ b (count_read k))|].
  - done.
  - done.
  - eapply Forall_impl; [by apply partitions_u32|]. by intros e [].
  - rewrite found_count_read. cbn [room d1 with_dev]. lia.
  - lia.
  - unfold partitions. rewrite length_map, length_seq. lia.
  - intros nr d2 [Hs _]. rewrite found_count_read in Hs. unfold free. wp_steps.
    destruct (nr =? 0); [unfold say|]; wp_steps; eapply (scanned_slices d d1 d2); try done; lia.
Qed.

(** ** Extended partitions *)

(** The sectors a table that contains an extended partition at [off] is
    looked for in: the disk's own, then the extended partition's. *)
Definition visits (off sector primary : Z) : Prop :=
  sector = 0 ∨ primary = off ∧ (sector = off ∨ sector = 2 * off).

(** Plain entries before the extended one are registered, if they fit. *)
Lemma parse_prefix rt b k sector primary es es' : Forall plain es → ∀ d nr Q, ready d b k →
  (∀ d' nr', ready d' b k → pwp (parse_partitions rt b sector primary es' nr') d' Q) →
  pwp (parse_partitions rt b sector primary (es ++ es') nr) d Q.
Proof.
  induction 1 as [|e es He _ IH]; intros d nr Q Hr HQ; [by apply HQ|]. cbn [app parse_partitions].
  apply pwp_bind. destruct (is_empty e) eqn:Ee; [pwp_steps; by apply IH|]. rewrite (He Ee). cbv zeta.
  pwp_step. eapply pwp_mono; [by apply found_partition_ready|]. intros [] d' Hr'. cbv beta. pwp_steps. by apply IH.
Qed.

Lemma extended_diverges fuel b : ∀ k d sector primary nr es e es', ready d b k →
  partitions (sector_at k 0) = es ++ e :: es' → Forall plain es → is_empty e = false → is_extended e = true →
  signature (sector_at k 0) = 0xaa55 → 0 < e_offset e → 2 * e_offset e < block_sz k →
  visits (e_offset e) sector primary →
  pwp (read_partition_table fuel b sector primary nr) d (λ _ _, False).
Proof.
  induction fuel as [|fuel IH]; intros k d sector primary nr es e es' Hr Ht Hes Hne Hext Hsig Hoff Hlt Hv; [done|].
  pose proof Hr as (_&_&Hb&Hz&_). assert (sector < block_sz k) as Hs by (unfold visits in Hv; lia).
  destruct (room d) as [|n] eqn:En.
  { unfold pwp. cbn [read_partition_table]. unfold bind at 1.
    rewrite (on_device_read b _ d k k) by (done || apply Hr). unfold block_size.
    assert ((block_sz k <=? sector) = false) as -> by lia.
    unfold bind at 1, malloc, bind at 1, get_state. by rewrite En. }
  unfold pwp. rewrite (read_table_head fuel d b k sector primary nr n) by done. rewrite Hsig, Ht.
  cbn [negb Z.eqb Pos.eqb]. fold (@pwp disks Z
    (nr ← parse_partitions (read_partition_table fuel b) b sector primary (es ++ e :: es') nr; free;; ret nr)
    (with_dev (mk_disks (reg d) (aux d) (console d) n (next d + 1)) b (count_read k)) (λ _ _, False)).
  pwp_step. eapply (parse_prefix _ b (count_read k)); [done| |].
  { apply (ready_with_dev _ b k); [|done]. apply ready_more; [done|lia]. }
  intros d' nr' Hr'. cbn [parse_partitions]. rewrite Hne, Hext. pwp_step. unfold say. do 2 pwp_step.
  assert (ready (mk_disks (reg d') (aux d') (console d' ++ [ExtendedIn sector]) (room d') (next d')) b (count_read k)) as Hr2
    by done.
  destruct (sector =? 0) eqn:E0.
  - eapply pwp_mono; [eapply (IH (count_read k)); try done; unfold visits; lia|]. done.
  - destruct Hv as [->|[-> Hv]]; [done|]. rewrite u32_small by word_lia.
    eapply pwp_mono; [eapply (IH (count_read k)); try done; unfold visits; lia|]. done.
Qed.

(** the scan of a disk with an extended partition never ends well.  The
    table of the extended partition is read from sector 0 again instead of
    from its own sector, so that the extended entry is found in it once more:
    with however much stack ([fuel]) and memory ([room]) it is called,
    [partition_scan] does not return, until it runs out of one of them. *)
Theorem extended_partition_never_scanned fuel d b k es e es' : ready d b k →
  partitions (sector_at k 0) = es ++ e :: es' → Forall plain es → is_empty e = false → is_extended e = true →
  signature (sector_at k 0) = 0xaa55 → 0 < e_offset e → 2 * e_offset e < block_sz k →
  ∃ f, partition_scan fuel b d = Fail f.
Proof.
  intros Hr Ht Hes Hne Hext Hsig Hoff Hlt.
  epose proof (extended_diverges fuel b k d 0 0 0 es e es' Hr Ht Hes Hne Hext Hsig Hoff Hlt (or_introl eq_refl)) as H.
  unfold partition_scan, bind, pwp in *. destruct (read_partition_table fuel b 0 0 0 d) as [[]|f]; [done|by exists f].
Qed.

(** ** A disk with two partitions *)

Definition entry_bytes (type offset size : Z) : list Z :=
  [0; 0; 0; 0; type; 0; 0; 0; offset mod 256; offset / 256; 0; 0; size mod 256; size / 256; 0; 0].
(** A table of four entries after an empty loader. *)
Definition table (e1 e2 e3 e4 : list Z) : list Z := replicate 446 0 ++ e1 ++ e2 ++ e3 ++ e4 ++ [0x55; 0xaa].
Definition no_entry : list Z := replicate 16 0.

Definition disk_with (pt : list Z) : block := mk_block "hda" BLOCK_RAW 1000 0 0 {[ 0 := pt ]}.
Definition disks_with (pt : list Z) : disks :=
  mk_disks (mk_registry {[ 8 := disk_with pt ]} [8] [0; 0; 0; 0]) ∅ [] 20 16.

Definition two_parts : list Z :=
  table (entry_bytes 0x20 1 255) no_entry (entry_bytes 0x21 256 744) (entry_bytes 0x23 990 20).

Lemma disks_with_ready pt : ready (disks_with pt) 8 (disk_with pt).
Proof.
  unfold ready. cbn. split; [done|]. split; [done|]. split; [lia|]. split; [lia|]. intros a Ha.
  split; [|done]. by rewrite lookup_singleton_ne by lia.
Qed.

Lemma scan_registers_slices_witness :
  ready (disks_with two_parts) 8 (disk_with two_parts) ∧
  wp (partition_scan 1 8) (disks_with two_parts) (λ _ d', slices (disks_with two_parts) d' 8 (disk_with two_parts)).
Proof.
  split; [apply disks_with_ready|]. apply (scan_registers_slices 0 (disks_with two_parts) 8 (disk_with two_parts)).
  - apply disks_with_ready.
  - apply (bool_decide_unpack _). by vm_compute.
  - by vm_compute.
  - repeat (constructor; [by vm_compute|]). constructor.
  - apply (bool_decide_unpack _). by vm_compute.
Defined.

(** The fourth entry ends past the disk and is not registered. *)
Example two_parts_found :
  found (disk_with two_parts) 0 (partitions two_parts)
  = [(1, mk_entry 0x20 1 255); (2, mk_entry 0x21 256 744)].
Proof. by vm_compute. Qed.

Definition extended_part : list Z :=
  table (entry_bytes 0x20 1 99) (entry_bytes 0x05 100 200) no_entry no_entry.

Lemma extended_partition_never_scanned_witness :
  ready (disks_with extended_part) 8 (disk_with extended_part) ∧
  ∃ f, partition_scan 1000 8 (disks_with extended_part) = Fail f.
Proof.
  split; [apply disks_with_ready|].
  apply (extended_partition_never_scanned 1000 (disks_with extended_part) 8 (disk_with extended_part)
    [mk_entry 0x20 1 99] (mk_entry 0x05 100 200) [mk_entry 0 0 0; mk_entry 0 0 0]).
  - apply disks_with_ready.
  - by vm_compute.
  - repeat (constructor; [by vm_compute|]). constructor.
  - by vm_compute.
  - by vm_compute.
  - by vm_compute.
  - by vm_compute.
  - by vm_compute.
Defined.

(** A disk whose second device is the partition from sector 100 on. *)
Definition one_slice : disks :=
  mk_disks (mk_registry {[ 8 := disk_with two_parts; 9 := mk_block "hda1" BLOCK_FILESYS 50 0 0 ∅ ]} [8; 9] [0; 9; 0; 0])
    {[ 9 := mk_partition 8 100 ]} [] 20 16.

Lemma partition_io_confined_witness :
  slice one_slice 9 (mk_partition 8 100) (mk_block "hda1" BLOCK_FILESYS 50 0 0 ∅) (disk_with two_parts) ∧
  (dev_read DEPTH 9 50 one_slice = Fail AssertFail ∧ dev_write DEPTH 9 50 [1] one_slice = Fail AssertFail) ∧
  wp (dev_write DEPTH 9 3 [1];; dev_read DEPTH 9 3) one_slice (λ data d', data = [1] ∧ medium d' 8 103 = [1] ∧ medium d' 8 3 = medium one_slice 8 3).
Proof.
  assert (slice one_slice 9 (mk_partition 8 100) (mk_block "hda1" BLOCK_FILESYS 50 0 0 ∅) (disk_with two_parts)) as H.
  { split; [done|]. split; [done|]. split; [done|]. split; [done|]. cbn. lia. }
  split; [exact H|]. split.
  - refine (proj2 (partition_io_confined one_slice 9 _ _ _ 50 [1] H _) _); cbn; lia.
  - destruct (partition_io_confined one_slice 9 _ _ _ 3 [1] H ltac:(lia)) as [Hin _].
    destruct (Hin ltac:(cbn; lia)) as (_&Hw&_). eapply wp_mono; [apply Hw; discriminate|].
    intros data d' (Hd&Hm&_). split; [exact Hd|]. split; rewrite Hm; reflexivity.
Defined.
