(* ===== verification/Cache.v ===== *)
(** * The buffer cache (filesys/cache.c)

    64 sectors of the file system's device cached in memory, replaced by a
    clock.  The hash table [buffer_cache] is the finite map Hash proves it to
    be, from sector numbers to the addresses of [struct cache_sector]s; those
    are shared between the table and the array [cache_sectors].  The functions
    are modelled for one caller at a time: the locks of the slots are kept, so
    that a double acquisition or a missing release would show, but no other
    thread runs in between.  An access outside the 512 bytes of a slot is a
    [BadAccess].  The cache is proved to be transparent: what it shows of every
    sector is what a device without a cache would hold. *)

From S2P Require Import Prelude Bitmap Block.
Local Open Scope Z_scope.

(** ** Data *)

Definition MAX_CACHE_SECTORS : Z := 64.
Definition NULL : Z := 0.

(** [struct cache_sector] *)
Record cache_sector := mk_cache_sector { sector_idx : Z; cs_clock_idx : Z; dirty : bool }.

(** The static variables of cache.c and the memory they point to.  [mem] is
    the number of [struct cache_sector]s the kernel heap still has room for,
    and [next_block] the address of the next one. *)
Record cache := mk_cache {
  device : block;
  mem : nat;
  next_block : Z;
  entries : gmap Z cache_sector;
  buffer_cache : gmap Z Z;
  buffer_base : list (list Z);
  clock_idx : Z;
  refbits : bitmap;
  cache_sectors : list Z;
  sector_locks : list bool
}.

Definition set_device v s := mk_cache v (mem s) (next_block s) (entries s) (buffer_cache s) (buffer_base s) (clock_idx s) (refbits s) (cache_sectors s) (sector_locks s).
Definition set_heap m n v s := mk_cache (device s) m n v (buffer_cache s) (buffer_base s) (clock_idx s) (refbits s) (cache_sectors s) (sector_locks s).
Definition set_buffer_cache v s := mk_cache (device s) (mem s) (next_block s) (entries s) v (buffer_base s) (clock_idx s) (refbits s) (cache_sectors s) (sector_locks s).
Definition set_buffer_base v s := mk_cache (device s) (mem s) (next_block s) (entries s) (buffer_cache s) v (clock_idx s) (refbits s) (cache_sectors s) (sector_locks s).
Definition set_clock_idx v s := mk_cache (device s) (mem s) (next_block s) (entries s) (buffer_cache s) (buffer_base s) v (refbits s) (cache_sectors s) (sector_locks s).
Definition set_refbits v s := mk_cache (device s) (mem s) (next_block s) (entries s) (buffer_cache s) (buffer_base s) (clock_idx s) v (cache_sectors s) (sector_locks s).
Definition set_cache_sectors v s := mk_cache (device s) (mem s) (next_block s) (entries s) (buffer_cache s) (buffer_base s) (clock_idx s) (refbits s) v (sector_locks s).
Definition set_sector_locks v s := mk_cache (device s) (mem s) (next_block s) (entries s) (buffer_cache s) (buffer_base s) (clock_idx s) (refbits s) (cache_sectors s) v.

(** ** Access to the parts of the state *)

Definition on_device {A} (c : M block A) : M cache A :=
  λ s, match c (device s) with Ret (a, b) => Ret (a, set_device b s) | Fail f => Fail f end.
Definition on_refbits {A} (c : M bitmap A) : M cache A :=
  λ s, match c (refbits s) with Ret (a, b) => Ret (a, set_refbits b s) | Fail f => Fail f end.

(** [malloc (sizeof (struct cache_sector))]: the block is not initialised. *)
Definition malloc_sector : M cache Z :=
  s ← get_state;
  match mem s with
  | O => ret NULL
  | S m => put_state (set_heap m (next_block s + 32) (<[next_block s := mk_cache_sector 0 0 false]> (entries s)) s);;
           ret (next_block s)
  end.
Definition free_sector (a : Z) : M cache unit :=
  if bool_decide (a = NULL) then ret tt
  else modify (λ s, set_heap (S (mem s)) (next_block s) (delete a (entries s)) s).

Definition get_entry (a : Z) : M cache cache_sector := s ← get_state; deref (entries s !! a).
Definition set_entry (a : Z) (e : cache_sector) : M cache unit :=
  _ ← get_entry a; modify (λ s, set_heap (mem s) (next_block s) (<[a := e]> (entries s)) s).

Definition get_cache_sector (i : Z) : M cache Z := s ← get_state; deref (cache_sectors s !! Z.to_nat i).
Definition set_cache_sector (i a : Z) : M cache unit :=
  _ ← get_cache_sector i; modify (λ s, set_cache_sectors (<[Z.to_nat i := a]> (cache_sectors s)) s).

(** [memcpy] from and to the slot, at an offset; [fill_slot] is the whole slot. *)
Definition read_slot (i size offset : Z) : M cache (list Z) :=
  s ← get_state;
  l ← deref (buffer_base s !! Z.to_nat i);
  if bool_decide (offset + size ≤ BLOCK_SECTOR_SIZE)
  then ret (take (Z.to_nat size) (drop (Z.to_nat offset) l)) else fail BadAccess.
Definition splice (offset : Z) (data l : list Z) : list Z :=
  take (Z.to_nat offset) l ++ data ++ drop (Z.to_nat offset + length data) l.
Definition write_slot (i : Z) (data : list Z) (offset : Z) : M cache unit :=
  s ← get_state;
  l ← deref (buffer_base s !! Z.to_nat i);
  if bool_decide (offset + Z.of_nat (length data) ≤ BLOCK_SECTOR_SIZE)
  then put_state (set_buffer_base (<[Z.to_nat i := splice offset data l]> (buffer_base s)) s) else fail BadAccess.
Definition fill_slot (i : Z) (l : list Z) : M cache unit := write_slot i l 0.

Definition lock_acquire (i : Z) : M cache unit :=
  s ← get_state;
  held ← deref (sector_locks s !! Z.to_nat i);
  ASSERT (negb held);;
  put_state (set_sector_locks (<[Z.to_nat i := true]> (sector_locks s)) s).
Definition lock_release (i : Z) : M cache unit :=
  s ← get_state;
  held ← deref (sector_locks s !! Z.to_nat i);
  ASSERT held;;
  put_state (set_sector_locks (<[Z.to_nat i := false]> (sector_locks s)) s).

(** ** Operations *)

(** [buffer] is the memory [malloc] returns for [buffer_base], uninitialised. *)
Definition buffer_cache_init (dev : block) (heap_room : nat) (buffer : list (list Z)) : outcome cache :=
  match bitmap_create true (Some [0; 0]) MAX_CACHE_SECTORS with
  | Ret (Some refs) =>
      Ret (mk_cache dev heap_room 32 ∅ ∅ buffer 0 refs (replicate 64 NULL) (replicate 64 false))
  | Ret None => Fail BadAccess
  | Fail f => Fail f
  end.

(** The memory the entry is built in is never freed. *)
Definition buffer_cache_find (sector : Z) : M cache Z :=
  entry ← malloc_sector;
  e ← get_entry entry;
  set_entry entry (mk_cache_sector sector (cs_clock_idx e) (dirty e));;
  s ← get_state;
  ret (default NULL (buffer_cache s !! sector)).

Definition buffer_cache_insert (entry : Z) : M cache unit :=
  e ← get_entry entry;
  modify (λ s, set_buffer_cache (<[sector_idx e := entry]> (buffer_cache s)) s);;
  on_refbits (bitmap_set (cs_clock_idx e) true);;
  set_cache_sector (cs_clock_idx e) entry.

Definition buffer_cache_evict (entry : Z) : M cache unit :=
  if bool_decide (entry = NULL) then ret tt
  else
    e ← get_entry entry;
    let cache_idx := cs_clock_idx e in
    (if dirty e then
       l ← read_slot cache_idx BLOCK_SECTOR_SIZE 0;
       on_device (block_write (sector_idx e) l)
     else ret tt);;
    modify (λ s, set_buffer_cache (delete (sector_idx e) (buffer_cache s)) s);;
    p ← get_cache_sector cache_idx;
    free_sector p;;
    set_cache_sector cache_idx NULL;;
    fill_slot cache_idx sector_zero.

(** The [while] of the second part returns in its first iteration. *)
Definition update_clock_idx : M cache unit :=
  all ← on_refbits (bitmap_all 0 MAX_CACHE_SECTORS);
  if all : bool then
    on_refbits (bitmap_set_all false);;
    modify (set_clock_idx 0)
  else
    s ← get_state;
    t ← on_refbits (bitmap_test (clock_idx s));
    if t : bool then modify (λ s, set_clock_idx ((clock_idx s + 1) mod MAX_CACHE_SECTORS) s) else ret tt.

Definition read_from_buffer (sector size offset : Z) : M cache (list Z) :=
  a ← buffer_cache_find sector;
  e ← get_entry a;
  on_refbits (bitmap_set (cs_clock_idx e) true);;
  read_slot (cs_clock_idx e) size offset.

Definition read_from_disk (sector clock_hand size offset : Z) : M cache (list Z) :=
  a ← malloc_sector;
  set_entry a (mk_cache_sector sector clock_hand false);;
  to_evict ← get_cache_sector clock_hand;
  buffer_cache_evict to_evict;;
  buffer_cache_insert a;;
  l ← on_device (block_read sector);
  fill_slot clock_hand l;;
  read_slot clock_hand size offset.

Definition write_exist_buffer (sector : Z) (buffer : list Z) (offset : Z) : M cache unit :=
  a ← buffer_cache_find sector;
  e ← get_entry a;
  set_entry a (mk_cache_sector (sector_idx e) (cs_clock_idx e) true);;
  on_refbits (bitmap_set (cs_clock_idx e) true);;
  write_slot (cs_clock_idx e) buffer offset.

Definition write_new_buffer (sector : Z) (buffer : list Z) (clock_hand offset : Z) : M cache unit :=
  a ← malloc_sector;
  set_entry a (mk_cache_sector sector clock_hand true);;
  to_evict ← get_cache_sector clock_hand;
  buffer_cache_evict to_evict;;
  buffer_cache_insert a;;
  write_slot clock_hand buffer offset.

Definition buffer_cache_read (sector size offset : Z) : M cache (list Z) :=
  a ← buffer_cache_find sector;
  if bool_decide (a ≠ NULL) then
    e ← get_entry a;
    lock_acquire (cs_clock_idx e);;
    a' ← buffer_cache_find sector;
    l ← (if bool_decide (a' = NULL) then read_from_disk sector (cs_clock_idx e) size offset
         else read_from_buffer sector size offset);
    e ← get_entry a;
    lock_release (cs_clock_idx e);;
    ret l
  else
    update_clock_idx;;
    s ← get_state;
    let clock_hand := clock_idx s in
    lock_acquire clock_hand;;
    a' ← buffer_cache_find sector;
    l ← (if bool_decide (a' = NULL) then read_from_disk sector clock_hand size offset
         else read_from_buffer sector size offset);
    lock_release clock_hand;;
    ret l.

Definition buffer_cache_write (sector : Z) (buffer : list Z) (offset : Z) : M cache unit :=
  a ← buffer_cache_find sector;
  if bool_decide (a ≠ NULL) then
    e ← get_entry a;
    lock_acquire (cs_clock_idx e);;
    a' ← buffer_cache_find sector;
    (if bool_decide (a' = NULL) then write_new_buffer sector buffer (cs_clock_idx e) offset
     else write_exist_buffer sector buffer offset);;
    e ← get_entry a;
    lock_release (cs_clock_idx e)
  else
    update_clock_idx;;
    s ← get_state;
    let clock_hand := clock_idx s in
    lock_acquire clock_hand;;
    a' ← buffer_cache_find sector;
    (if bool_decide (a' = NULL) then write_new_buffer sector buffer clock_hand offset
     else write_exist_buffer sector buffer offset);;
    lock_release clock_hand.

(** [for (i = 0; i != MAX_CACHE_SECTORS; ++i)], [n] iterations left. *)
Fixpoint for_slots (body : Z → M cache unit) (n : nat) (i : Z) : M cache unit :=
  match n with O => ret tt | S n => body i;; for_slots body n (i + 1) end.

Definition flush_slot (i : Z) : M cache unit :=
  a ← get_cache_sector i;
  if bool_decide (a ≠ NULL) then
    e ← get_entry a;
    if dirty e then
      l ← read_slot i BLOCK_SECTOR_SIZE 0;
      on_device (block_write (sector_idx e) l)
    else ret tt
  else ret tt.

Definition buffer_cache_flush : M cache unit :=
  for_slots lock_acquire 64 0;;
  for_slots flush_slot 64 0;;
  for_slots lock_release 64 0.

(** The table, the bitmap and the buffer are freed, then the entries. *)
Definition buffer_cache_destroy : M cache unit :=
  modify (set_buffer_cache ∅);;
  modify (set_refbits (mk_bitmap 0 []));;
  modify (set_buffer_base []);;
  for_slots (λ i, a ← get_cache_sector i; free_sector a) 64 0.

(** ** The abstract view and the invariant *)

(** What the cache and the device together hold at a sector. *)
Definition view (s : cache) (n : Z) : list Z :=
  match buffer_cache s !! n with
  | Some a => match entries s !! a with
              | Some e => default [] (buffer_base s !! Z.to_nat (cs_clock_idx e))
              | None => []
              end
  | None => sector_at (device s) n
  end.

(** The entry at [a] is the one of sector [n], in the slot [cs_clock_idx e];
    the slot of a clean entry holds what the device holds. *)
Record cached (s : cache) (n a : Z) (e : cache_sector) : Prop := {
  cd_entry : entries s !! a = Some e;
  cd_sector : sector_idx e = n;
  cd_slot : 0 ≤ cs_clock_idx e < 64;
  cd_array : cache_sectors s !! Z.to_nat (cs_clock_idx e) = Some a;
  cd_size : n < block_sz (device s);
  cd_clean : dirty e = false → buffer_base s !! Z.to_nat (cs_clock_idx e) = Some (sector_at (device s) n)
}.

Record cache_wf (s : cache) : Prop := {
  cw_dev : block_wf (device s);
  cw_buf : length (buffer_base s) = 64%nat;
  cw_buf_sectors i l : buffer_base s !! i = Some l → length l = 512%nat;
  cw_sectors : length (cache_sectors s) = 64%nat;
  cw_refs : bitmap_wf (refbits s) ∧ bit_cnt (refbits s) = 64;
  cw_clock : 0 ≤ clock_idx s < 64;
  cw_locks : length (sector_locks s) = 64%nat;
  cw_addr a e : entries s !! a = Some e → 0 < a < next_block s;
  cw_next : 0 < next_block s;
  cw_table n a : buffer_cache s !! n = Some a → ∃ e, cached s n a e;
  cw_slots i a : cache_sectors s !! i = Some a → a ≠ NULL →
    ∃ e, entries s !! a = Some e ∧ cs_clock_idx e = Z.of_nat i ∧ buffer_cache s !! sector_idx e = Some a
}.

(** [s'] is a well-formed cache that shows the same sectors as [s]. *)
Record same_view (s s' : cache) : Prop := {
  sv_wf : cache_wf s';
  sv_view n : view s' n = view s n;
  sv_locks : sector_locks s' = sector_locks s;
  sv_size : block_sz (device s') = block_sz (device s)
}.

(** [s'] is [s] up to entries nobody refers to, reference bits and the clock. *)
Record extends (s s' : cache) : Prop := {
  ex_same : same_view s s';
  ex_table : buffer_cache s' = buffer_cache s;
  ex_sectors : cache_sectors s' = cache_sectors s;
  ex_buf : buffer_base s' = buffer_base s;
  ex_dev : device s' = device s;
  ex_entries a e : entries s !! a = Some e → entries s' !! a = Some e
}.

#[export] Instance same_view_trans : Transitive same_view.
Proof. intros s1 s2 s3 [? V1 L1 S1] [? V2 L2 S2]. split; [done| |congruence..]. intros n. by rewrite V2. Qed.

#[export] Instance extends_trans : Transitive extends.
Proof.
  intros s1 s2 s3 [V1 ? ? ? ? E1] [V2 ? ? ? ? E2]. split; [by trans s2|congruence..|]. eauto.
Qed.

Section CacheRules.
Implicit Types s : cache.

(** *** Small steps *)

Lemma view_ext s s' n :
  buffer_cache s' = buffer_cache s → buffer_base s' = buffer_base s → device s' = device s →
  cache_wf s → (∀ a e, entries s !! a = Some e → entries s' !! a = Some e) → view s' n = view s n.
Proof.
  intros Et Eb Ed Hwf He. unfold view. rewrite Et, Eb, Ed. destruct (buffer_cache s !! n) as [a|] eqn:E; [|done].
  destruct (cw_table s Hwf n a E) as [e [Ha _ _ _ _ _]]. by rewrite Ha, (He a e Ha).
Qed.

(** Entries nobody refers to may be added, bits and the clock may change. *)
Lemma extends_intro s s' :
  cache_wf s → buffer_cache s' = buffer_cache s → cache_sectors s' = cache_sectors s →
  buffer_base s' = buffer_base s → device s' = device s → sector_locks s' = sector_locks s →
  (∀ a e, entries s !! a = Some e → entries s' !! a = Some e) →
  (∀ a e, entries s' !! a = Some e → 0 < a < next_block s') → 0 < next_block s' →
  bitmap_wf (refbits s') ∧ bit_cnt (refbits s') = 64 → 0 ≤ clock_idx s' < 64 →
  extends s s'.
Proof.
  intros Hwf Et Es Eb Ed El He Ha Hn Hr Hc. split; [|done..]. split; [| |done|by rewrite Ed].
  - destruct Hwf as [Hd Hb Hb' Hs _ _ Hl _ _ Ht Hsl]. split; [congruence..|rewrite Eb; done|congruence|done|done|congruence|done|done| |].
    + intros n a. rewrite Et. intros (e & [? ? ? ? ? ?])%Ht. exists e.
      split; [by apply He|done|done|by rewrite Es|by rewrite Ed|by rewrite Eb, Ed].
    + intros i a. rewrite Es. intros Hi Hne. destruct (Hsl i a Hi Hne) as (e & ? & ? & ?). exists e.
      split_and!; [by apply He|done|by rewrite Et].
  - intros n. by apply view_ext.
Qed.

Lemma malloc_sector_spec s m Q :
  cache_wf s → mem s = S m →
  (∀ a s', extends s s' → mem s' = m → a = next_block s → (∃ e, entries s' !! a = Some e) →
    (∀ n, buffer_cache s !! n ≠ Some a) → a ≠ NULL → entries s !! a = None → Q a s') →
  wp malloc_sector s Q.
Proof.
  intros Hwf Hm HQ. unfold malloc_sector. wp_steps. rewrite Hm. wp_steps. pose proof (cw_next s Hwf).
  assert (entries s !! next_block s = None) as Hfresh.
  { apply eq_None_not_Some. intros [e He]. apply (cw_addr s Hwf) in He. lia. }
  apply HQ; simpl; [|done|done|by rewrite lookup_insert_eq; eauto| |unfold NULL; lia|done].
  - apply extends_intro; simpl; [done..| | |lia|apply Hwf|apply Hwf].
    + intros a e Ha. rewrite lookup_insert_ne by congruence. done.
    + intros a e [[<- _]|[_ Ha]]%lookup_insert_Some; [lia|]. apply (cw_addr s Hwf) in Ha. lia.
  - intros n Hn. apply (cw_table s Hwf) in Hn as [e [He _ _ _ _ _]]. congruence.
Qed.

Lemma wp_get_entry s a e Q : entries s !! a = Some e → Q e s → wp (get_entry a) s Q.
Proof. intros Ha HQ. unfold get_entry. wp_steps. by eapply wp_deref. Qed.

(** Setting the fields of an entry nobody refers to. *)
Lemma set_entry_spec s a e e' Q :
  cache_wf s → entries s !! a = Some e → (∀ n, buffer_cache s !! n ≠ Some a) → 
  (∀ s', same_view s s' → mem s' = mem s → buffer_cache s' = buffer_cache s → cache_sectors s' = cache_sectors s →
    clock_idx s' = clock_idx s → entries s' = <[a := e']> (entries s) → device s' = device s → buffer_base s' = buffer_base s → Q tt s') →
  wp (set_entry a e') s Q.
Proof.
  intros Hwf Ha Hn HQ. unfold set_entry. wp_step. eapply wp_get_entry; [done|]. wp_step.
  assert (∀ n b e0, buffer_cache s !! n = Some b → entries s !! b = Some e0 → <[a := e']> (entries s) !! b = Some e0) as He.
  { intros n b e0 Hb He0. rewrite lookup_insert_ne; [done|]. intros ->. by eapply Hn. }
  apply HQ; simpl; try done. split; [| |done..].
  - destruct Hwf as [Hd Hb Hb' Hs Hr Hc Hl Had Hnx Ht Hsl]. split; simpl; try done.
    + intros b e0 [[<- _]|[_ Hb0]]%lookup_insert_Some; [by eapply Had|by eapply Had].
    + intros n b Hb0. destruct (Ht n b Hb0) as (e0 & [? ? ? ? ? ?]). exists e0. split; simpl; try done. by eapply He.
    + intros i b Hi Hne. destruct (Hsl i b Hi Hne) as (e0 & H1 & H2 & H3). exists e0. split_and!; [by eapply He|done|done].
  - intros n. unfold view. simpl. destruct (buffer_cache s !! n) as [b|] eqn:Eb; [|done].
    destruct (cw_table s Hwf n b Eb) as [e0 [He0 _ _ _ _ _]]. by rewrite He0, (He n b e0 Eb He0).
Qed.

Lemma buffer_cache_find_spec s m n Q :
  cache_wf s → mem s = S m →
  (∀ s', extends s s' → mem s' = m → clock_idx s' = clock_idx s → Q (default NULL (buffer_cache s !! n)) s') →
  wp (buffer_cache_find n) s Q.
Proof.
  intros Hwf Hm HQ. unfold buffer_cache_find, malloc_sector. wp_steps. rewrite Hm. wp_steps.
  eapply wp_get_entry; [apply lookup_insert_eq|]. simpl. wp_step. unfold set_entry. wp_step.
  eapply wp_get_entry; [apply lookup_insert_eq|]. wp_steps. simpl. rewrite insert_insert_eq.
  pose proof (cw_next s Hwf). apply HQ; [|done..].
  apply extends_intro; simpl; [done..| | |lia|apply Hwf|apply Hwf].
  - intros a e Ha. rewrite lookup_insert_ne; [done|]. intros <-. apply (cw_addr s Hwf) in Ha. lia.
  - intros a e [[<- _]|[_ Ha]]%lookup_insert_Some; [lia|]. apply (cw_addr s Hwf) in Ha. lia.
Qed.

Lemma wp_on_refbits {A} (c : M bitmap A) s Q :
  wp c (refbits s) (λ a b, Q a (set_refbits b s)) → wp (on_refbits c) s Q.
Proof. unfold wp, on_refbits. by destruct (c (refbits s)) as [[a b]|]. Qed.

Lemma wp_on_device {A} (c : M block A) s Q :
  wp c (device s) (λ a b, Q a (set_device b s)) → wp (on_device c) s Q.
Proof. unfold wp, on_device. by destruct (c (device s)) as [[a b]|]. Qed.

Lemma set_refbits_extends s b : cache_wf s → bitmap_wf b → bit_cnt b = 64 → extends s (set_refbits b s).
Proof. intros Hwf ??. apply extends_intro; simpl; try done; apply Hwf. Qed.

Lemma set_refbit_spec s i Q :
  cache_wf s → 0 ≤ i < 64 →
  (∀ b, bitmap_wf b → bit_cnt b = 64 → Q tt (set_refbits b s)) →
  wp (on_refbits (bitmap_set i true)) s Q.
Proof.
  intros Hwf Hi HQ. apply wp_on_refbits. destruct (cw_refs s Hwf) as [Hr Hc].
  eapply wp_mono; [apply bitmap_set_spec; [done|lia]|]. intros [] b (Hb & Hc' & _). apply HQ; [done|congruence].
Qed.

Lemma update_clock_idx_spec s Q :
  cache_wf s → (∀ s', extends s s' → mem s' = mem s → Q tt s') → wp update_clock_idx s Q.
Proof.
  intros Hwf HQ. destruct (cw_refs s Hwf) as [Hr Hc]. pose proof (cw_clock s Hwf).
  unfold update_clock_idx. wp_step. apply wp_on_refbits. apply bitmap_all_spec; [done|lia|done|unfold MAX_CACHE_SECTORS; lia|].
  intros all _. replace (set_refbits (refbits s) s) with s by by destruct s.
  destruct all; wp_step.
  - apply wp_on_refbits. eapply wp_mono; [by apply bitmap_set_all_spec|]. intros [] b (Hb & Hb' & _). wp_step.
    apply HQ; [|done]. apply extends_intro; simpl; try done; [apply Hwf..|]. split; [done|congruence].
  - wp_steps. apply wp_on_refbits. apply bitmap_test_spec; [done|lia|].
    replace (set_refbits (refbits s) s) with s by by destruct s.
    destruct (bit (refbits s) (clock_idx s)); wp_step; apply HQ; try done;
      apply extends_intro; simpl; try done; try apply Hwf. apply Z.mod_pos_bound. done.
Qed.

Lemma wp_lock_acquire s i Q :
  sector_locks s !! Z.to_nat i = Some false →
  Q tt (set_sector_locks (<[Z.to_nat i := true]> (sector_locks s)) s) → wp (lock_acquire i) s Q.
Proof. intros Hi HQ. unfold lock_acquire. wp_steps. eapply wp_deref; [done|]. by wp_steps. Qed.

Lemma wp_lock_release s i Q :
  sector_locks s !! Z.to_nat i = Some true →
  Q tt (set_sector_locks (<[Z.to_nat i := false]> (sector_locks s)) s) → wp (lock_release i) s Q.
Proof. intros Hi HQ. unfold lock_release. wp_steps. eapply wp_deref; [done|]. by wp_steps. Qed.

Lemma set_locks_wf s l : cache_wf s → length l = 64%nat → cache_wf (set_sector_locks l s).
Proof.
  intros [Hd Hb Hb' Hs Hr Hc Hl Had Hnx Ht Hsl] Hlen. split; simpl; try done.
  intros n a Hn. destruct (Ht n a Hn) as [e [? ? ? ? ? ?]]. exists e. by split.
Qed.

Lemma wp_get_cache_sector s i a Q :
  cache_sectors s !! Z.to_nat i = Some a → Q a s → wp (get_cache_sector i) s Q.
Proof. intros Hi HQ. unfold get_cache_sector. wp_steps. by eapply wp_deref. Qed.

Lemma slot_lookup s i : cache_wf s → 0 ≤ i < 64 →
  ∃ l, buffer_base s !! Z.to_nat i = Some l ∧ length l = 512%nat.
Proof.
  intros Hwf Hi. destruct (lookup_lt_is_Some_2 (buffer_base s) (Z.to_nat i)) as [l Hl];
    [rewrite (cw_buf s Hwf); lia|]. exists l. split; [done|]. by eapply cw_buf_sectors.
Qed.

Lemma wp_read_slot s i size offset l Q :
  buffer_base s !! Z.to_nat i = Some l → offset + size ≤ 512 →
  Q (take (Z.to_nat size) (drop (Z.to_nat offset) l)) s → wp (read_slot i size offset) s Q.
Proof.
  intros Hi Ho HQ. unfold read_slot. wp_steps. eapply wp_deref; [done|].
  rewrite bool_decide_true by (unfold BLOCK_SECTOR_SIZE; lia). by wp_steps.
Qed.

Lemma wp_write_slot s i data offset l Q :
  buffer_base s !! Z.to_nat i = Some l → offset + Z.of_nat (length data) ≤ 512 →
  Q tt (set_buffer_base (<[Z.to_nat i := splice offset data l]> (buffer_base s)) s) →
  wp (write_slot i data offset) s Q.
Proof.
  intros Hi Ho HQ. unfold write_slot. wp_steps. eapply wp_deref; [done|].
  rewrite bool_decide_true by (unfold BLOCK_SECTOR_SIZE; lia). by wp_steps.
Qed.

Lemma splice_length offset data l :
  0 ≤ offset → (Z.to_nat offset + length data ≤ length l)%nat → length (splice offset data l) = length l.
Proof. intros ? ?. unfold splice. rewrite !length_app, length_take, length_drop. lia. Qed.

Lemma splice_full data l : length data = length l → splice 0 data l = data.
Proof. intros E. unfold splice. simpl. by rewrite drop_ge, app_nil_r by lia. Qed.

(** *** Eviction *)

(** The state after the entry [a] of sector [n] is evicted from slot [i],
    with the device [d'] that now holds the sector. *)
Definition evicted (s : cache) (d' : block) (n a i : Z) : cache :=
  mk_cache d' (S (mem s)) (next_block s) (delete a (entries s)) (delete n (buffer_cache s))
    (<[Z.to_nat i := sector_zero]> (buffer_base s)) (clock_idx s) (refbits s)
    (<[Z.to_nat i := NULL]> (cache_sectors s)) (sector_locks s).

(** The other sectors of the table are in other slots. *)
Lemma cached_inj s n a e m b e' :
  cached s n a e → cached s m b e' → m ≠ n → b ≠ a ∧ cs_clock_idx e' ≠ cs_clock_idx e.
Proof.
  intros [He Hn _ Ha _ _] [He' Hm _ Hb _ _] Hne. assert (b ≠ a) by congruence. split; [done|]. congruence.
Qed.

Section Evicted.
Context (s : cache) (d' : block) (n a i : Z) (e : cache_sector) (l : list Z).
Context (Hwf : cache_wf s) (Hc : cached s n a e) (Hi : cs_clock_idx e = i).
Context (Hn : buffer_cache s !! n = Some a) (Hl : buffer_base s !! Z.to_nat i = Some l).
Context (Hd : block_wf d') (Hsz : block_sz d' = block_sz (device s)).
Context (Hd' : ∀ k, sector_at d' k = if bool_decide (k = n) then l else sector_at (device s) k).

Lemma evicted_cached m b e' : cached s m b e' → m ≠ n → cached (evicted s d' n a i) m b e'.
Proof.
  intros Hc' Hne. destruct (cached_inj s n a e m b e' Hc Hc' Hne) as [Hba Hcl].
  destruct Hc as [_ _ Hs _ _ _], Hc' as [? ? ? ? ? ?]. assert (Z.to_nat i ≠ Z.to_nat (cs_clock_idx e')) by lia.
  split; simpl; [by rewrite lookup_delete_ne|done|done|by rewrite list_lookup_insert_ne|by rewrite Hsz|].
  intros Hdt. rewrite list_lookup_insert_ne by done. rewrite Hd', bool_decide_false by done. auto.
Qed.

Lemma evicted_wf : cache_wf (evicted s d' n a i).
Proof.
  pose proof Hwf as [? Hb Hb' Hs Hr Hcl Hlk Had Hnx Ht Hsl].
  split; simpl; [done|by rewrite length_insert| |by rewrite length_insert|done|done|done| |done| |].
  - intros j l' [(_ & <- & _)|[_ Hj]]%list_lookup_insert_Some; [done|by eapply Hb'].
  - intros b e' [_ He]%lookup_delete_Some. by eapply Had.
  - intros m b [Hm Hb0]%lookup_delete_Some. destruct (Ht m b Hb0) as [e' He']. exists e'. by apply evicted_cached.
  - intros j b Hj Hne. apply list_lookup_insert_Some in Hj as [(_ & <- & _)|[Hj Hb0]]; [done|].
    destruct (Hsl j b Hb0 Hne) as (e' & He' & Hcl' & Hbc). exists e'. destruct Hc as [He _ Hr' _ _ _].
    assert (b ≠ a) by (intros ->; assert (e' = e) by congruence; subst; lia).
    rewrite lookup_delete_ne by done. rewrite lookup_delete_ne by congruence. done.
Qed.

Lemma evicted_same_view : same_view s (evicted s d' n a i).
Proof.
  split; [apply evicted_wf| |done|done]. intros m. unfold view. simpl.
  destruct (decide (m = n)) as [->|Hne].
  - rewrite lookup_delete_eq, Hn. destruct Hc as [-> _ _ _ _ _]. by rewrite Hi, Hl, Hd', bool_decide_true.
  - rewrite lookup_delete_ne by done. destruct (buffer_cache s !! m) as [b|] eqn:Eb.
    + destruct (cw_table s Hwf m b Eb) as [e' He']. pose proof (evicted_cached m b e' He' Hne) as [E _ _ _ _ _].
      simpl in E. rewrite E. pose proof He' as [-> _ Hs' _ _ _].
      destruct (cached_inj s n a e m b e' Hc He' Hne). destruct Hc as [_ _ Hs _ _ _].
      rewrite list_lookup_insert_ne by lia. done.
    + by rewrite Hd', bool_decide_false.
Qed.

End Evicted.

(** A dirty slot is written to the device before it is reused. *)
Lemma write_back_spec s n a e i l :
  cache_wf s → cached s n a e → cs_clock_idx e = i → buffer_base s !! Z.to_nat i = Some l → length l = 512%nat →
  wp (if dirty e then (l ← read_slot i BLOCK_SECTOR_SIZE 0; on_device (block_write (sector_idx e) l)) else ret tt) s
    (λ _ s1, ∃ d', s1 = set_device d' s ∧ block_wf d' ∧ block_sz d' = block_sz (device s) ∧
      ∀ k, sector_at d' k = if bool_decide (k = n) then l else sector_at (device s) k).
Proof.
  intros Hwf Hc Hi Hl Hlen. pose proof (cd_sector s n a e Hc) as <-. destruct (dirty e) eqn:Hdt.
  - wp_step. eapply wp_read_slot; [done|unfold BLOCK_SECTOR_SIZE; lia|].
    rewrite drop_0, take_ge by (unfold BLOCK_SECTOR_SIZE; lia).
    apply wp_on_device. eapply wp_mono; [apply block_write_spec; [apply Hc|apply Hwf]|].
    intros [] b (E1 & E2 & E3). exists b. split_and!; [done|by eapply block_wf_write; [apply Hwf|..]|done|].
    intros k. unfold sector_at. rewrite E3.
    case_bool_decide as Hk; [subst k; by rewrite lookup_insert_eq|by rewrite lookup_insert_ne].
  - wp_step. exists (device s). split_and!; [by destruct s|apply Hwf|done|]. intros k. case_bool_decide as Hk; [|done].
    subst k. pose proof (cd_clean s _ a e Hc Hdt) as Hcl. rewrite Hi in Hcl. congruence.
Qed.

Lemma evict_spec s i Q :
  cache_wf s → 0 ≤ i < 64 →
  (∀ s' a, cache_sectors s !! Z.to_nat i = Some a → same_view s s' → cache_sectors s' !! Z.to_nat i = Some NULL →
    (∀ m, buffer_cache s !! m = None → buffer_cache s' !! m = None) →
    (∀ b, (∀ m, buffer_cache s !! m ≠ Some b) → entries s' !! b = entries s !! b ∧ ∀ m, buffer_cache s' !! m ≠ Some b) →
    buffer_base s' !! Z.to_nat i = (if bool_decide (a = NULL) then buffer_base s !! Z.to_nat i else Some sector_zero) →
    clock_idx s' = clock_idx s → (mem s ≤ mem s')%nat → Q tt s') →
  wp (a ← get_cache_sector i; buffer_cache_evict a) s Q.
Proof.
  intros Hwf Hi HQ. destruct (lookup_lt_is_Some_2 (cache_sectors s) (Z.to_nat i)) as [a Ha]; [rewrite (cw_sectors s Hwf); lia|].
  wp_step. eapply wp_get_cache_sector; [done|]. unfold buffer_cache_evict. case_bool_decide as Hnull.
  { wp_step. apply (HQ s a); [done|by split|by subst|done|by auto|by rewrite bool_decide_true|done|lia]. }
  destruct (cw_slots s Hwf _ a Ha Hnull) as (e & He & Hci & Hn).
  destruct (cw_table s Hwf _ a Hn) as [e' Hc]. assert (e' = e) as -> by (destruct Hc; congruence).
  rewrite Z2Nat.id in Hci by lia. destruct (slot_lookup s i Hwf Hi) as (l & Hl & Hlen).
  wp_step. eapply wp_get_entry; [done|]. rewrite Hci. wp_step.
  eapply wp_mono; [by eapply (write_back_spec s (sector_idx e) a e i l)|]. intros [] s1 (d' & -> & Hd & Hsz & Hd'). unfold set_device.
  wp_steps. eapply wp_get_cache_sector; [done|]. wp_step. unfold free_sector. rewrite bool_decide_false by done. wp_step.
  wp_step. unfold set_cache_sector. wp_step. eapply wp_get_cache_sector; [done|]. wp_step.
  unfold fill_slot. eapply wp_write_slot; [done|done|]. simpl. rewrite (splice_full sector_zero l) by done.
  apply (HQ (evicted s d' (sector_idx e) a i) a); simpl; [done|by eapply evicted_same_view| | | | |done|lia].
  - apply list_lookup_insert_eq. rewrite (cw_sectors s Hwf). lia.
  - intros m Hm. by apply lookup_delete_None; right.
  - intros b Hb. split; [apply lookup_delete_ne; intros ->; by eapply Hb|]. intros m [_ Hm]%lookup_delete_Some. by eapply Hb.
  - rewrite bool_decide_false by done. apply list_lookup_insert_eq. rewrite (cw_buf s Hwf). lia.
Qed.

(** *** Installation of a sector in a free slot *)

(** [s'] shows what [s] shows, with [l] at sector [n]. *)
Record updates (s : cache) (n : Z) (l : list Z) (s' : cache) : Prop := {
  up_wf : cache_wf s';
  up_view m : view s' m = if bool_decide (m = n) then l else view s m;
  up_locks : sector_locks s' = sector_locks s;
  up_size : block_sz (device s') = block_sz (device s)
}.

Lemma updates_from s0 s n l s' : same_view s0 s → updates s n l s' → updates s0 n l s'.
Proof. intros [_ V L S] [? V' L' S']. split; [done| |congruence..]. intros m. rewrite V'. by case_bool_decide. Qed.

Lemma updates_same s n s' : updates s n (view s n) s' → same_view s s'.
Proof. intros [? V ? ?]. split; [done| |done..]. intros m. rewrite V. by case_bool_decide; subst. Qed.

Definition installed (s : cache) (d' : block) (b : bitmap) (n a i : Z) (l : list Z) : cache :=
  mk_cache d' (mem s) (next_block s) (entries s) (<[n := a]> (buffer_cache s))
    (<[Z.to_nat i := l]> (buffer_base s)) (clock_idx s) b (<[Z.to_nat i := a]> (cache_sectors s)) (sector_locks s).

Section Installed.
Context (s : cache) (d' : block) (b : bitmap) (n a i : Z) (dt : bool) (l : list Z).
Context (Hwf : cache_wf s) (Ha : entries s !! a = Some (mk_cache_sector n i dt)) (Hfree : ∀ m, buffer_cache s !! m ≠ Some a).
Context (Hi : 0 ≤ i < 64) (Hslot : cache_sectors s !! Z.to_nat i = Some NULL) (Hn : buffer_cache s !! n = None).
Context (Hsz : n < block_sz (device s)) (Hlen : length l = 512%nat) (Hcl : dt = false → l = sector_at (device s) n).
Context (Hb : bitmap_wf b) (Hb' : bit_cnt b = 64).
Context (Hd1 : block_sz d' = block_sz (device s)) (Hd2 : block_ty d' = block_ty (device s)) (Hd3 : contents d' = contents (device s)).

Lemma installed_cached_new : cached (installed s d' b n a i l) n a (mk_cache_sector n i dt).
Proof.
  split; simpl; [done|done|done|apply list_lookup_insert_eq; rewrite (cw_sectors s Hwf); lia|by rewrite Hd1|].
  intros Hdt. rewrite list_lookup_insert_eq by (rewrite (cw_buf s Hwf); lia).
  rewrite (Hcl Hdt). unfold sector_at. by rewrite Hd3.
Qed.

Lemma installed_cached_old m b' e : buffer_cache s !! m = Some b' → cached s m b' e →
  Z.to_nat (cs_clock_idx e) ≠ Z.to_nat i ∧ cached (installed s d' b n a i l) m b' e.
Proof.
  intros Hm [He Hs Hr Hcs Hz Hc].
  assert (Z.to_nat (cs_clock_idx e) ≠ Z.to_nat i) as Hne.
  { intros E. rewrite E in Hcs. assert (b' = NULL) as -> by congruence. apply (cw_addr s Hwf) in He. unfold NULL in He. lia. }
  split; [done|]. split; simpl; [done|done|done|by rewrite list_lookup_insert_ne|by rewrite Hd1|].
  intros Hdt. rewrite list_lookup_insert_ne by done. rewrite (Hc Hdt). unfold sector_at. by rewrite Hd3.
Qed.

Lemma installed_updates : updates s n l (installed s d' b n a i l).
Proof.
  pose proof Hwf as [Hdv Hbf Hbs Hs Hr Hck Hlk Had Hnx Ht Hsl]. split; [|intros m|done|done].
  - split; simpl; [|by rewrite length_insert| |by rewrite length_insert|done|done|done|done|done| |].
    + split; [rewrite Hd2; apply Hdv|]. rewrite Hd3. apply Hdv.
    + intros j l' [(_ & <- & _)|[_ Hj]]%list_lookup_insert_Some; [done|by eapply Hbs].
    + intros m b' [[<- <-]|[Hne Hm]]%lookup_insert_Some; [eexists; by apply installed_cached_new|].
      destruct (Ht m b' Hm) as [e He]. exists e. by apply installed_cached_old.
    + intros j b' Hj Hne. apply list_lookup_insert_Some in Hj as [(<- & <- & _)|[Hj Hj']].
      * eexists. split; [done|]. simpl. split; [lia|by rewrite lookup_insert_eq].
      * destruct (Hsl j b' Hj' Hne) as (e & ? & ? & Hbc). exists e. split_and!; [done..|].
        rewrite lookup_insert_ne; [done|]. intros E. rewrite <- E in Hbc. congruence.
  - unfold view. simpl. case_bool_decide as Hm.
    + subst m. rewrite lookup_insert_eq, Ha. simpl. by rewrite list_lookup_insert_eq by (rewrite Hbf; lia).
    + rewrite lookup_insert_ne by done. destruct (buffer_cache s !! m) as [b'|] eqn:E; [|unfold sector_at; by rewrite Hd3].
      destruct (Ht m b' E) as [e He]. destruct (installed_cached_old m b' e E He) as [Hne _].
      destruct He as [-> _ _ _ _ _]. by rewrite list_lookup_insert_ne.
Qed.

End Installed.

(** Allocation of an entry for sector [n] in slot [i], and eviction of what
    the slot held: the common part of [read_from_disk] and [write_new_buffer]. *)
Lemma make_room_spec {A} (k : Z → M cache A) s m n i dt Q :
  cache_wf s → mem s = S m → 0 ≤ i < 64 → buffer_cache s !! n = None →
  (∀ a s' old, same_view s s' → entries s' !! a = Some (mk_cache_sector n i dt) → (∀ k, buffer_cache s' !! k ≠ Some a) →
    cache_sectors s' !! Z.to_nat i = Some NULL → buffer_cache s' !! n = None → (m ≤ mem s')%nat →
    buffer_base s' !! Z.to_nat i = Some old → length old = 512%nat → wp (k a) s' Q) →
  wp (a ← malloc_sector; set_entry a (mk_cache_sector n i dt);; to_evict ← get_cache_sector i; buffer_cache_evict to_evict;; k a) s Q.
Proof.
  intros Hwf Hm Hi Hn HQ. wp_step. eapply malloc_sector_spec; [done..|].
  intros a s1 [V1 T1 _ _ _ _] M1 _ [e1 He1] Hf1 _ _. wp_step.
  eapply set_entry_spec; [apply V1|exact He1|by rewrite T1|].
  intros s2 V2 M2 T2 _ _ E2 _ _. pose proof (sv_wf _ _ V2) as Hwf2.
  apply (wp_bind_assoc (get_cache_sector i)), wp_bind, (evict_spec s2 i); [done|done|].
  intros s3 b Hb V3 S3 T3 E3 B3 _ M3.
  destruct (slot_lookup s3 i (sv_wf _ _ V3) Hi) as (old & Hold & Hlen).
  destruct (E3 a) as [E3a F3]; [rewrite T2, T1; done|].
  apply (HQ a s3 old); [etrans; [exact V1|]; etrans; [exact V2|exact V3]| |done|done|apply T3; by rewrite T2, T1|lia|done|done].
  rewrite E3a, E2. apply lookup_insert_eq.
Qed.

Lemma buffer_cache_insert_spec s a n i dt Q :
  cache_wf s → entries s !! a = Some (mk_cache_sector n i dt) → 0 ≤ i < 64 →
  (∀ b, bitmap_wf b → bit_cnt b = 64 →
    Q tt (mk_cache (device s) (mem s) (next_block s) (entries s) (<[n := a]> (buffer_cache s)) (buffer_base s)
            (clock_idx s) b (<[Z.to_nat i := a]> (cache_sectors s)) (sector_locks s))) →
  wp (buffer_cache_insert a) s Q.
Proof.
  intros Hwf Ha Hi HQ. unfold buffer_cache_insert. wp_step. eapply wp_get_entry; [done|]. simpl. wp_steps.
  apply wp_on_refbits. simpl. destruct (cw_refs s Hwf) as [Hr Hc].
  eapply wp_mono; [apply bitmap_set_spec; [done|lia]|]. intros [] b (Hb & Hc' & _). wp_steps.
  destruct (lookup_lt_is_Some_2 (cache_sectors s) (Z.to_nat i)) as [x Hx]; [rewrite (cw_sectors s Hwf); lia|].
  unfold set_cache_sector. wp_step. eapply wp_get_cache_sector; [done|]. wp_steps. apply (HQ b); [done|congruence].
Qed.

Lemma read_from_disk_spec s m n i size offset :
  cache_wf s → mem s = S m → 0 ≤ i < 64 → buffer_cache s !! n = None → n < block_sz (device s) →
  offset + size ≤ 512 →
  wp (read_from_disk n i size offset) s (λ l s', l = take (Z.to_nat size) (drop (Z.to_nat offset) (view s n)) ∧
    same_view s s' ∧ (m ≤ mem s')%nat).
Proof.
  intros Hwf Hm Hi Hn Hsz Ho. unfold read_from_disk. eapply make_room_spec; [done..|].
  intros a s1 old V1 Ha Hf Hs1 Hn1 Hm1 Hold Hlen. pose proof (sv_wf _ _ V1) as Hwf1. wp_step.
  eapply buffer_cache_insert_spec; [done..|]. intros b Hb Hb'. wp_steps. apply wp_on_device. simpl.
  eapply wp_mono; [apply block_read_spec; by rewrite (sv_size _ _ V1)|]. intros l d' (-> & E1 & E2 & E3). wp_step.
  pose proof (sector_at_length (device s1) n (cw_dev s1 Hwf1)) as Hln.
  unfold fill_slot. eapply wp_write_slot; [simpl; exact Hold|lia|]. rewrite splice_full by lia. simpl.
  eapply wp_read_slot; [simpl; apply list_lookup_insert_eq; rewrite (cw_buf s1 Hwf1); lia|done|]. simpl.
  assert (sector_at (device s1) n = view s n) as Ev by (rewrite <- (sv_view _ _ V1 n); unfold view; by rewrite Hn1).
  split; [by rewrite Ev|]. split; [|done]. apply (updates_same s n), (updates_from s s1); [done|]. rewrite <- Ev.
  apply (installed_updates s1 d' b n a i false); auto. by rewrite (sv_size _ _ V1).
Qed.

Lemma write_new_buffer_spec s m n i data offset :
  cache_wf s → mem s = S m → 0 ≤ i < 64 → buffer_cache s !! n = None → n < block_sz (device s) →
  0 ≤ offset → offset + Z.of_nat (length data) ≤ 512 →
  wp (write_new_buffer n data i offset) s (λ _ s', (m ≤ mem s')%nat ∧
    ∃ old, length old = 512%nat ∧ updates s n (splice offset data old) s').
Proof.
  intros Hwf Hm Hi Hn Hsz Ho0 Ho. unfold write_new_buffer. eapply make_room_spec; [done..|].
  intros a s1 old V1 Ha Hf Hs1 Hn1 Hm1 Hold Hlen. pose proof (sv_wf _ _ V1) as Hwf1. wp_step.
  eapply buffer_cache_insert_spec; [done..|]. intros b Hb Hb'.
  eapply wp_write_slot; [simpl; exact Hold|lia|]. simpl. split; [done|]. exists old. split; [done|].
  apply (updates_from s s1); [done|].
  apply (installed_updates s1 (device s1) b n a i true); auto; [by rewrite (sv_size _ _ V1)| |done].
  rewrite splice_length by lia. done.
Qed.

(** A cached sector. *)
Lemma find_cached s m n a e Q :
  cache_wf s → mem s = S m → buffer_cache s !! n = Some a → cached s n a e →
  (∀ s', extends s s' → mem s' = m → cached s' n a e → Q a s') → wp (buffer_cache_find n) s Q.
Proof.
  intros Hwf Hm Hn Hc HQ. eapply buffer_cache_find_spec; [done..|]. intros s' X M _. rewrite Hn. simpl.
  apply HQ; [done..|]. destruct X as [_ T S B D E], Hc as [? ? ? ? ? ?].
  split; [by apply E|done|done|by rewrite S|by rewrite D|by rewrite B, D].
Qed.

Lemma view_cached s n a e l :
  buffer_cache s !! n = Some a → cached s n a e → buffer_base s !! Z.to_nat (cs_clock_idx e) = Some l → view s n = l.
Proof. intros Hn [He _ _ _ _ _] Hl. unfold view. by rewrite Hn, He, Hl. Qed.

Lemma read_from_buffer_spec s m n a e size offset :
  cache_wf s → mem s = S m → buffer_cache s !! n = Some a → cached s n a e → offset + size ≤ 512 →
  wp (read_from_buffer n size offset) s (λ l s', l = take (Z.to_nat size) (drop (Z.to_nat offset) (view s n)) ∧
    extends s s' ∧ mem s' = m).
Proof.
  intros Hwf Hm Hn Hc Ho. unfold read_from_buffer. wp_step. eapply find_cached; [done..|]. intros s1 X1 M1 Hc1.
  pose proof (sv_wf _ _ (ex_same _ _ X1)) as Hwf1. wp_step. eapply wp_get_entry; [apply Hc1|]. wp_step.
  pose proof (cd_slot _ _ _ _ Hc) as Hi. eapply set_refbit_spec; [done..|]. intros b Hb Hb'.
  destruct (slot_lookup s1 (cs_clock_idx e) Hwf1 Hi) as (l & Hl & Hlen).
  eapply wp_read_slot; [exact Hl|done|]. rewrite (ex_buf _ _ X1) in Hl. rewrite (view_cached s n a e l) by done.
  split; [done|]. split; [|done]. etrans; [exact X1|]. by apply set_refbits_extends.
Qed.

(** A cached sector is overwritten: its entry becomes dirty, its slot changes. *)
Lemma overwrite_updates s n a e l b :
  cache_wf s → buffer_cache s !! n = Some a → cached s n a e → length l = 512%nat → bitmap_wf b → bit_cnt b = 64 →
  updates s n l (mk_cache (device s) (mem s) (next_block s)
    (<[a := mk_cache_sector n (cs_clock_idx e) true]> (entries s)) (buffer_cache s)
    (<[Z.to_nat (cs_clock_idx e) := l]> (buffer_base s)) (clock_idx s) b (cache_sectors s) (sector_locks s)).
Proof.
  intros Hwf Hn Hc Hlen Hb Hb'. pose proof Hc as [He Hs Hr Hcs Hsz _].
  pose proof Hwf as [Hdv Hbf Hbs Hcl Hrf Hck Hlk Had Hnx Ht Hsl].
  assert (Z.to_nat (cs_clock_idx e) < length (buffer_base s))%nat as Hlt by (rewrite Hbf; lia).
  split; [|intros m|done|done].
  - split; simpl; [done|by rewrite length_insert| |done|done|done|done| |done| |].
    + intros j l' [(_ & <- & _)|[_ Hj]]%list_lookup_insert_Some; [done|by eapply Hbs].
    + intros x y [[<- _]|[_ Hx]]%lookup_insert_Some; by eapply Had.
    + intros m x Hm. destruct (decide (m = n)) as [->|Hne].
      * assert (x = a) as -> by congruence. eexists. split; simpl; [by rewrite lookup_insert_eq|done..].
      * destruct (Ht m x Hm) as [e' Hc']. destruct (cached_inj s n a e m x e' Hc Hc' Hne) as [Hxa Hcle].
        destruct Hc' as [? ? ? ? ? ?]. exists e'.
        split; simpl; [by rewrite lookup_insert_ne|done|done|done|done|]. rewrite list_lookup_insert_ne by lia. done.
    + intros j x Hj Hne. destruct (Hsl j x Hj Hne) as (e' & He' & Hcl' & Hbc). destruct (decide (x = a)) as [->|Hxa].
      * eexists. rewrite lookup_insert_eq. split; [done|]. simpl. assert (e' = e) as -> by congruence. done.
      * exists e'. by rewrite lookup_insert_ne.
  - unfold view. simpl. case_bool_decide as Hm.
    + subst m. rewrite Hn, lookup_insert_eq. simpl. by rewrite list_lookup_insert_eq.
    + destruct (buffer_cache s !! m) as [x|] eqn:Em; [|done]. destruct (Ht m x Em) as [e' Hc'].
      destruct (cached_inj s n a e m x e' Hc Hc' Hm) as [Hxa Hcle]. destruct Hc' as [He' _ ? _ _ _].
      rewrite lookup_insert_ne by done. rewrite He'. by rewrite list_lookup_insert_ne by lia.
Qed.

Lemma write_exist_buffer_spec s m n a e data offset :
  cache_wf s → mem s = S m → buffer_cache s !! n = Some a → cached s n a e →
  0 ≤ offset → offset + Z.of_nat (length data) ≤ 512 →
  wp (write_exist_buffer n data offset) s (λ _ s', mem s' = m ∧ updates s n (splice offset data (view s n)) s' ∧
    ∃ e', entries s' !! a = Some e' ∧ cs_clock_idx e' = cs_clock_idx e).
Proof.
  intros Hwf Hm Hn Hc Ho0 Ho. unfold write_exist_buffer. wp_step. eapply find_cached; [done..|]. intros s1 X1 M1 Hc1.
  pose proof (sv_wf _ _ (ex_same _ _ X1)) as Hwf1. wp_step. eapply wp_get_entry; [apply Hc1|]. wp_step.
  unfold set_entry. wp_step. eapply wp_get_entry; [apply Hc1|]. wp_steps. apply wp_on_refbits. simpl.
  pose proof (cd_slot _ _ _ _ Hc) as Hi. destruct (cw_refs s1 Hwf1) as [Hr Hcn].
  eapply wp_mono; [apply bitmap_set_spec; [done|lia]|]. intros [] b (Hb & Hb' & _).
  destruct (slot_lookup s1 (cs_clock_idx e) Hwf1 Hi) as (l & Hl & Hlen).
  eapply wp_write_slot; [exact Hl|done|]. pose proof Hl as Hl'. rewrite (ex_buf _ _ X1) in Hl'.
  rewrite (view_cached s n a e l) by done. simpl. split; [done|].
  pose proof (cd_sector _ _ _ _ Hc) as ->. split.
  - apply (updates_from s s1); [apply X1|]. apply (overwrite_updates s1 n a e (splice offset data l) b); [done|by rewrite (ex_table _ _ X1)|done| |done|congruence].
    rewrite splice_length by lia. done.
  - eexists. rewrite lookup_insert_eq. done.
Qed.

(** *** The lock of a slot around an operation *)
Lemma relocked s s' i :
  cache_wf s → sector_locks s' = <[Z.to_nat i := true]> (sector_locks s) → sector_locks s !! Z.to_nat i = Some false →
  sector_locks s' !! Z.to_nat i = Some true ∧ <[Z.to_nat i := false]> (sector_locks s') = sector_locks s.
Proof.
  intros Hwf -> Hi. rewrite list_lookup_insert_eq by (by eapply lookup_lt_Some). split; [done|].
  rewrite list_insert_insert_eq. by apply list_insert_id.
Qed.

Lemma same_view_unlock s s' l :
  same_view (set_sector_locks l s) s' → ∀ l', l' = sector_locks s → length l' = 64%nat → same_view s (set_sector_locks l' s').
Proof. intros [Hwf V L Sz] l' -> Hl. split; [by apply set_locks_wf|done|done|done]. Qed.

Lemma updates_unlock s s' l n x :
  updates (set_sector_locks l s) n x s' → ∀ l', l' = sector_locks s → length l' = 64%nat → updates s n x (set_sector_locks l' s').
Proof. intros [Hwf V L Sz] l' -> Hl. split; [by apply set_locks_wf|done|done|done]. Qed.

(** No operation is under way. *)
Definition cache_ready (s : cache) : Prop := cache_wf s ∧ sector_locks s = replicate 64 false.

Lemma ready_lock s i : sector_locks s = replicate 64 false → 0 ≤ i < 64 → sector_locks s !! Z.to_nat i = Some false.
Proof. intros -> Hi. apply lookup_replicate. split; [done|lia]. Qed.

Lemma cached_locks s l n a e : cached s n a e → cached (set_sector_locks l s) n a e.
Proof. intros [? ? ? ? ? ?]. by split. Qed.

Lemma cached_not_null s n a e : cache_wf s → cached s n a e → a ≠ NULL.
Proof. intros Hwf [He _ _ _ _ _]. apply (cw_addr s Hwf) in He. unfold NULL. lia. Qed.

(** [s'] is [s] with the lock of slot [i] held. *)
Record entered (s : cache) (i : Z) (s' : cache) : Prop := {
  en_wf : cache_wf s';
  en_slot : 0 ≤ i < 64;
  en_view n : view s' n = view s n;
  en_locks : sector_locks s' = <[Z.to_nat i := true]> (sector_locks s);
  en_size : block_sz (device s') = block_sz (device s)
}.

Lemma lock_enter s s1 i Q :
  cache_ready s → same_view s s1 → 0 ≤ i < 64 →
  (∀ l, sector_locks s1 = sector_locks s → entered s i (set_sector_locks l s1) → Q tt (set_sector_locks l s1)) →
  wp (lock_acquire i) s1 Q.
Proof.
  intros [Hwf Hlk] [Hwf1 V L Z] Hi HQ. apply wp_lock_acquire; [rewrite L; by apply ready_lock|]. apply HQ; [done|].
  split; [|done|done|by rewrite L|done]. apply set_locks_wf; [done|]. by rewrite length_insert, (cw_locks s1 Hwf1).
Qed.

Lemma entered_extends s i s' s'' : entered s i s' → extends s' s'' → entered s i s''.
Proof.
  intros [? ? V L Z] [[? V' L' Z'] _ _ _ _ _]. split; [done|done| |congruence..]. intros n. by rewrite V'.
Qed.

(** The lock is released again. *)
Lemma unlock_spec s i s1 s2 n l Q :
  cache_ready s → entered s i s1 → updates s1 n l s2 →
  (∀ s', updates s n l s' → mem s' = mem s2 → Q tt s') → wp (lock_release i) s2 Q.
Proof.
  intros [Hwf Hlk] [Hwf1 Hi V L Z] [Hwf2 V2 L2 Z2] HQ.
  destruct (relocked s s2 i Hwf) as [H1 H2]; [congruence|by apply ready_lock|].
  apply wp_lock_release; [done|]. rewrite H2. apply HQ; [|done].
  split; [by apply set_locks_wf; [|apply Hwf]| |done|simpl; congruence].
  intros m. transitivity (view s2 m); [done|]. rewrite V2. by case_bool_decide.
Qed.

Lemma same_updates s s' n : same_view s s' → updates s n (view s n) s'.
Proof. intros [? V ? ?]. split; [done| |done|done]. intros m. rewrite V. by case_bool_decide; subst. Qed.

(** The first steps of a read or a write on a cached sector: the lock is taken
    and the sector is still there. *)
Lemma enter_hit {A} (k : Z → cache_sector → Z → M cache A) (k2 : M cache A) s m n a e Q :
  cache_ready s → mem s = S (S m) → buffer_cache s !! n = Some a → cached s n a e →
  (∀ s', entered s (cs_clock_idx e) s' → mem s' = m → buffer_cache s' !! n = Some a → cached s' n a e → wp (k a e a) s' Q) →
  wp (a ← buffer_cache_find n;
      if bool_decide (a ≠ NULL) then
        e ← get_entry a; lock_acquire (cs_clock_idx e);; a' ← buffer_cache_find n; k a e a'
      else k2) s Q.
Proof.
  intros Hr Hm Hn Hc HQ. destruct Hr as [Hwf Hlk] eqn:Er. wp_step. eapply find_cached; [done..|]. intros s1 X1 M1 Hc1.
  rewrite bool_decide_true by (by eapply cached_not_null). wp_step. eapply wp_get_entry; [apply Hc1|]. wp_step.
  eapply (lock_enter s); [done|apply X1|apply Hc|]. intros l Hl E. wp_step.
  eapply (find_cached _ m n a e); [apply E|done|simpl; by rewrite (ex_table _ _ X1)|by apply cached_locks|].
  intros s3 X3 M3 Hc3. apply HQ; [by eapply entered_extends|done| |done].
  by rewrite (ex_table _ _ X3), <- Hn, <- (ex_table _ _ X1).
Qed.

(** The same on a sector that is not cached. *)
Lemma enter_miss {A} (k1 : Z → M cache A) (k : Z → Z → M cache A) s m n Q :
  cache_ready s → mem s = S (S m) → buffer_cache s !! n = None →
  (∀ s' i, entered s i s' → mem s' = m → buffer_cache s' !! n = None → wp (k i NULL) s' Q) →
  wp (a ← buffer_cache_find n;
      if bool_decide (a ≠ NULL) then k1 a
      else update_clock_idx;; s ← get_state; lock_acquire (clock_idx s);; a' ← buffer_cache_find n; k (clock_idx s) a') s Q.
Proof.
  intros Hr Hm Hn HQ. destruct Hr as [Hwf Hlk] eqn:Er. wp_step. eapply buffer_cache_find_spec; [done..|]. intros s1 X1 M1 _.
  rewrite Hn. simpl. wp_step.
  eapply update_clock_idx_spec; [apply X1|]. intros s2 X2 M2. wp_steps.
  assert (extends s s2) as X by by trans s1. pose proof (cw_clock s2 (sv_wf _ _ (ex_same _ _ X))) as Hi.
  eapply (lock_enter s); [done|apply X|done|]. intros l Hl E. wp_step.
  eapply (buffer_cache_find_spec _ m); [apply E|simpl; congruence|]. intros s3 X3 M3 _. simpl. rewrite (ex_table _ _ X), Hn. simpl.
  apply HQ; [by eapply entered_extends|done|]. rewrite (ex_table _ _ X3). simpl. by rewrite (ex_table _ _ X).
Qed.

Lemma view_length s n : cache_wf s → length (view s n) = 512%nat.
Proof.
  intros Hwf. unfold view. destruct (buffer_cache s !! n) as [a|] eqn:Ea; [|apply sector_at_length, Hwf].
  destruct (cw_table s Hwf n a Ea) as [e [-> _ Hi _ _ _]]. by destruct (slot_lookup s (cs_clock_idx e) Hwf Hi) as (l & -> & ?).
Qed.

Lemma buffer_cache_read_spec s m n size offset :
  cache_ready s → mem s = S (S (S m)) → n < block_sz (device s) → offset + size ≤ 512 →
  wp (buffer_cache_read n size offset) s (λ l s', l = take (Z.to_nat size) (drop (Z.to_nat offset) (view s n)) ∧
    same_view s s' ∧ (m ≤ mem s')%nat).
Proof.
  intros Hr Hm Hsz Ho. unfold buffer_cache_read. destruct (buffer_cache s !! n) as [a|] eqn:Hn.
  - destruct (cw_table s (proj1 Hr) n a Hn) as [e Hc]. eapply enter_hit; [done..|]. intros s1 E1 M1 Hn1 Hc1.
    rewrite bool_decide_false by (eapply cached_not_null; [apply E1|done]). wp_step.
    eapply wp_mono; [by eapply read_from_buffer_spec; [apply E1|..]|]. intros l s2 (-> & X2 & M2). wp_steps.
    eapply wp_get_entry; [apply X2, Hc1|]. wp_step.
    eapply (unlock_spec s _ s1 s2 n); [done|done|apply same_updates, X2|].
    intros s' U M'. wp_step. rewrite (en_view _ _ _ E1) in *. split; [done|]. split; [by apply updates_same in U|lia].
  - eapply (enter_miss _ (λ i a', l ← (if bool_decide (a' = NULL) then read_from_disk n i size offset
         else read_from_buffer n size offset); lock_release i;; ret l)); [done..|].
    intros s1 i E1 M1 Hn1. rewrite bool_decide_true by done. wp_step.
    eapply wp_mono; [eapply read_from_disk_spec; [apply E1|done|apply E1|done|by rewrite (en_size _ _ _ E1)|done]|].
    intros l s2 (-> & V2 & M2). wp_step.
    eapply (unlock_spec s _ s1 s2 n); [done|done|by apply same_updates|].
    intros s' U M'. wp_step. rewrite (en_view _ _ _ E1) in *. split; [done|]. split; [by apply updates_same in U|lia].
Qed.

Lemma buffer_cache_write_spec s m n data offset :
  cache_ready s → mem s = S (S (S m)) → n < block_sz (device s) →
  0 ≤ offset → offset + Z.of_nat (length data) ≤ 512 →
  wp (buffer_cache_write n data offset) s (λ _ s', (m ≤ mem s')%nat ∧
    ∃ old, length old = 512%nat ∧ (buffer_cache s !! n ≠ None → old = view s n) ∧ updates s n (splice offset data old) s').
Proof.
  intros Hr Hm Hsz Ho0 Ho. unfold buffer_cache_write. destruct (buffer_cache s !! n) as [a|] eqn:Hn.
  - destruct (cw_table s (proj1 Hr) n a Hn) as [e Hc]. eapply enter_hit; [done..|]. intros s1 E1 M1 Hn1 Hc1.
    rewrite bool_decide_false by (eapply cached_not_null; [apply E1|done]). wp_step.
    eapply wp_mono; [by eapply write_exist_buffer_spec; [apply E1|..]|]. intros [] s2 (M2 & U2 & e' & He' & Hi'). wp_steps.
    eapply wp_get_entry; [done|]. rewrite Hi'. rewrite (en_view _ _ _ E1) in U2.
    eapply (unlock_spec s _ s1 s2 n); [done|done|done|]. intros s' U M'. split; [lia|].
    exists (view s n). split_and!; [by apply view_length, Hr|done|done].
  - eapply (enter_miss _ (λ i a', (if bool_decide (a' = NULL) then write_new_buffer n data i offset
         else write_exist_buffer n data offset);; lock_release i)); [done..|].
    intros s1 i E1 M1 Hn1. rewrite bool_decide_true by done. wp_step.
    eapply wp_mono; [eapply write_new_buffer_spec; [apply E1|done|apply E1|done|by rewrite (en_size _ _ _ E1)|done|done]|].
    intros [] s2 (M2 & old & Hlen & U2).
    eapply (unlock_spec s _ s1 s2 n); [done|done|done|]. intros s' U M'. split; [lia|]. by exists old.
Qed.

(** *** Flushing *)

Lemma cached_in_table s n a e : cache_wf s → cached s n a e → buffer_cache s !! n = Some a.
Proof.
  intros Hwf Hc. pose proof (cached_not_null s n a e Hwf Hc). destruct Hc as [He Hn _ Hs _ _].
  destruct (cw_slots s Hwf _ a Hs) as (e' & He' & _ & Ht); [done|]. congruence.
Qed.

Lemma cached_unique s n a e b e' : cache_wf s → cached s n a e → cached s n b e' → b = a ∧ e' = e.
Proof.
  intros Hwf H1 H2. pose proof (cached_in_table s n a e Hwf H1). pose proof (cached_in_table s n b e' Hwf H2).
  assert (b = a) as -> by congruence. split; [done|]. destruct H1, H2. congruence.
Qed.

(** [s'] is [s] with another device, which holds the sectors in the slots below [i]. *)
Record flushed (s : cache) (i : Z) (s' : cache) : Prop := {
  fl_wf : cache_wf s';
  fl_dev : s' = set_device (device s') s;
  fl_size : block_sz (device s') = block_sz (device s);
  fl_view n : view s' n = view s n;
  fl_done n a e : buffer_cache s !! n = Some a → cached s' n a e → cs_clock_idx e < i → sector_at (device s') n = view s n
}.

(** The device after the dirty slot of a cached sector is written. *)
Lemma set_device_flushed s s' n a e l d i :
  flushed s i s' → buffer_cache s !! n = Some a → cached s' n a e → cs_clock_idx e = i →
  buffer_base s' !! Z.to_nat i = Some l → block_wf d → block_sz d = block_sz (device s') →
  (∀ k, sector_at d k = if bool_decide (k = n) then l else sector_at (device s') k) →
  flushed s (i + 1) (set_device d s').
Proof.
  intros [Hwf Hs Hsz V Hd] Hn Hc Hi Hl Hdw Hdsz Hdk.
  assert (buffer_cache s' = buffer_cache s) as Et by by rewrite Hs.
  assert (view s' n = l) as Evl by (eapply view_cached; [by rewrite Et|done|by rewrite Hi]).
  assert (∀ m, view (set_device d s') m = view s' m) as Ev.
  { intros m. unfold view. simpl. destruct (buffer_cache s' !! m) as [b|] eqn:Em; [done|].
    rewrite Hdk, bool_decide_false; [done|]. intros ->. congruence. }
  assert (∀ m b e', cached s' m b e' → cached (set_device d s') m b e') as Hcd.
  { intros m b e' Hc'. pose proof Hc' as [? ? ? ? ? Hcl]. split; simpl; [done..|by rewrite Hdsz|].
    intros Hdt. rewrite (Hcl Hdt), Hdk. case_bool_decide as Hm; [|done]. rewrite Hm in Hc'.
    destruct (cached_unique s' n a e b e' Hwf Hc Hc') as [-> ->]. rewrite <- (Hcl Hdt), Hi. done. }
  split; [|by rewrite Hs|simpl; congruence|intros m; by rewrite Ev|].
  - destruct Hwf as [? ? ? ? ? ? ? ? ? Ht ?]. split; simpl; try done. intros m b Hm. destruct (Ht m b Hm) as [e' He']. eauto.
  - intros m b e' Hm Hc' Hlt. simpl. rewrite Hdk. case_bool_decide as Hmn; [subst m; by rewrite <- V|].
    destruct (cw_table s' Hwf m b) as [e0 Hc0]; [by rewrite Et|].
    assert (e0 = e') as -> by (destruct Hc0 as [H0 _ _ _ _ _], Hc' as [H1 _ _ _ _ _]; simpl in H1; congruence).
    destruct (cached_inj s' n a e m b e' Hc Hc0 Hmn) as [_ Hne]. apply (Hd m b e'); [done|done|]. lia.
Qed.

Lemma flush_slot_spec s i s' :
  0 ≤ i < 64 → flushed s i s' → wp (flush_slot i) s' (λ _ s'', flushed s (i + 1) s'').
Proof.
  intros Hi Hf. pose proof Hf as [Hwf Hs Hsz V Hd]. unfold flush_slot. wp_step.
  destruct (lookup_lt_is_Some_2 (cache_sectors s') (Z.to_nat i)) as [a Ha]; [rewrite (cw_sectors s' Hwf); lia|].
  eapply wp_get_cache_sector; [done|]. assert (buffer_cache s' = buffer_cache s) as Et by by rewrite Hs.
  case_bool_decide as Hnull.
  - destruct (cw_slots s' Hwf _ a Ha Hnull) as (e & He & Hci & Hn). rewrite Z2Nat.id in Hci by lia.
    destruct (cw_table s' Hwf _ a Hn) as [e' Hc]. assert (e' = e) as -> by (destruct Hc; congruence).
    wp_step. eapply wp_get_entry; [done|]. destruct (slot_lookup s' i Hwf Hi) as (l & Hl & Hlen).
    eapply wp_mono; [by eapply (write_back_spec s' (sector_idx e) a e i l)|]. intros [] s1 (d & -> & Hdw & Hdsz & Hdk).
    eapply set_device_flushed; [done|by rewrite <- Et|done|done|done|done|done|done].
  - wp_step. split; [done..|]. intros n b e Hn Hc Hlt. apply (Hd n b e); [done|done|].
    assert (cs_clock_idx e ≠ i); [|lia]. intros E. pose proof (cached_not_null s' n b e Hwf Hc).
    destruct Hc as [_ _ _ Hcs _ _]. rewrite E in Hcs. congruence.
Qed.

Lemma flush_loop_spec s n i s' :
  0 ≤ i → i + Z.of_nat n ≤ 64 → flushed s i s' →
  wp (for_slots flush_slot n i) s' (λ _ s'', flushed s (i + Z.of_nat n) s'').
Proof.
  revert i s'. induction n as [|n IH]; intros i s' Hi Hn Hf; simpl for_slots; wp_step; [by rewrite Z.add_0_r|].
  eapply wp_mono; [apply flush_slot_spec; [lia|done]|]. intros [] s1 Hf1.
  replace (i + Z.of_nat (S n)) with (i + 1 + Z.of_nat n) by lia. apply IH; [lia..|done].
Qed.

(** The loops over the locks. *)
Lemma lock_loop_spec (body : Z → M cache unit) (v : bool) s n i Q :
  (∀ s' j Q', sector_locks s' !! Z.to_nat j = Some (negb v) →
     Q' tt (set_sector_locks (<[Z.to_nat j := v]> (sector_locks s')) s') → wp (body j) s' Q') →
  0 ≤ i → sector_locks s = replicate (Z.to_nat i) v ++ replicate n (negb v) →
  Q tt (set_sector_locks (replicate (Z.to_nat i + n) v) s) → wp (for_slots body n i) s Q.
Proof.
  intros Hb. revert s i Q. induction n as [|n IH]; intros s i Q Hi Hl HQ; simpl for_slots; wp_step.
  - simpl in Hl. rewrite app_nil_r in Hl. rewrite Nat.add_0_r, <- Hl in HQ. by destruct s.
  - apply Hb; [rewrite Hl, lookup_app_r, length_replicate, Nat.sub_diag by (rewrite length_replicate; lia); done|].
    apply IH; [lia| |]; simpl; replace (Z.to_nat (i + 1)) with (S (Z.to_nat i)) by lia.
    + rewrite Hl, insert_app_r_alt, length_replicate, Nat.sub_diag by (rewrite length_replicate; lia). simpl.
      rewrite (cons_middle v), app_assoc. f_equal. rewrite <- replicate_cons_app. done.
    + by rewrite Nat.add_succ_r in HQ.
Qed.

Lemma buffer_cache_flush_spec s :
  cache_ready s →
  wp buffer_cache_flush s (λ _ s', cache_ready s' ∧ (∀ n, view s' n = view s n) ∧ (∀ n, sector_at (device s') n = view s n) ∧
    mem s' = mem s ∧ block_sz (device s') = block_sz (device s)).
Proof.
  intros [Hwf Hl]. unfold buffer_cache_flush. wp_step.
  apply (lock_loop_spec lock_acquire true); [intros; by apply wp_lock_acquire|done|by rewrite Hl|].
  simpl Z.to_nat. set (s1 := set_sector_locks _ s). wp_step.
  assert (cache_wf s1) as Hwf1 by by apply set_locks_wf.
  eapply wp_mono; [apply (flush_loop_spec s1 64 0); [done|done|]|].
  { split; [done|by destruct s|done|done|]. intros n a e _ Hc. pose proof (cd_slot _ _ _ _ Hc). lia. }
  intros [] s2 [Hwf2 Hs Hsz V Hd]. apply (lock_loop_spec lock_release false); [intros; by apply wp_lock_release|done|by rewrite Hs|].
  simpl Z.to_nat. split_and!; [split; [by apply set_locks_wf|done]|exact V| |by rewrite Hs|done].
  intros n. simpl. destruct (buffer_cache s2 !! n) as [a|] eqn:Hn.
  - destruct (cw_table s2 Hwf2 n a Hn) as [e Hc]. apply (Hd n a e); [by rewrite Hs in Hn|done|].
    pose proof (cd_slot _ _ _ _ Hc). lia.
  - change (view s n) with (view s1 n). rewrite <- V. unfold view. by rewrite Hn.
Qed.

End CacheRules.

(** ** Memory use

    Every lookup allocates a [struct cache_sector] it does not free. *)
Section Leak.
Implicit Types s : cache.

(** No structure is at the null pointer. *)
Definition null_free s : Prop := entries s !! NULL = None ∧ 0 < next_block s.

(** At least [k] blocks were used up on the way from [s] to [s']. *)
Definition used (k : Z) s s' : Prop := null_free s' ∧ Z.of_nat (mem s') + k ≤ Z.of_nat (mem s).

Lemma used_refl s : null_free s → used 0 s s.
Proof. intros ?. split; [done|lia]. Qed.

Lemma used_trans k1 k2 s1 s2 s3 : used k1 s1 s2 → used k2 s2 s3 → used (k1 + k2) s1 s3.
Proof. intros [_ ?] [? ?]. split; [done|lia]. Qed.

(** A computation that uses at least [k] blocks when it returns. *)
Definition uses {A} (k : Z) (c : M cache A) : Prop := ∀ s, null_free s → pwp c s (λ _ s', used k s s').

Lemma uses_bind {A B} k1 k2 (c : M cache A) (f : A → M cache B) :
  uses k1 c → (∀ a, uses k2 (f a)) → uses (k1 + k2) (bind c f).
Proof.
  intros Hc Hf s Hs. apply pwp_bind. eapply pwp_mono; [by apply Hc|]. intros a s1 U1.
  eapply pwp_mono; [apply Hf, U1|]. intros b s2 U2. exact (used_trans k1 k2 s s1 s2 U1 U2).
Qed.

Lemma uses_bind0 {A B} k (c : M cache A) (f : A → M cache B) :
  uses 0 c → (∀ a, uses k (f a)) → uses k (bind c f).
Proof. intros Hc Hf. by apply (uses_bind 0 k). Qed.

Lemma uses_weaken {A} k k' (c : M cache A) : uses k c → k' ≤ k → uses k' c.
Proof. intros Hc Hk s Hs. eapply pwp_mono; [by apply Hc|]. intros a s' [? ?]. split; [done|lia]. Qed.

Lemma uses_same {A} (c : M cache A) :
  (∀ s, pwp c s (λ _ s', mem s' = mem s ∧ entries s' = entries s ∧ next_block s' = next_block s)) → uses 0 c.
Proof.
  intros Hc s [H1 H2]. eapply pwp_mono; [apply Hc|]. intros a s' (E1 & E2 & E3).
  unfold used, null_free. rewrite E2, E3. split; [done|lia].
Qed.

Ltac uses_tac := apply uses_same; intros s; repeat pwp_step; try case_match; repeat pwp_step; done.

Lemma uses_ret {A} (a : A) : uses 0 (ret a).
Proof. uses_tac. Qed.
Lemma uses_get_state : uses 0 get_state.
Proof. uses_tac. Qed.
Lemma uses_get_entry a : uses 0 (get_entry a).
Proof. unfold get_entry. uses_tac. Qed.
Lemma uses_get_cache_sector i : uses 0 (get_cache_sector i).
Proof. unfold get_cache_sector. uses_tac. Qed.
Lemma uses_set_cache_sector i a : uses 0 (set_cache_sector i a).
Proof. unfold set_cache_sector, get_cache_sector. uses_tac. Qed.
Lemma uses_lock_acquire i : uses 0 (lock_acquire i).
Proof. unfold lock_acquire. uses_tac. Qed.
Lemma uses_lock_release i : uses 0 (lock_release i).
Proof. unfold lock_release. uses_tac. Qed.
Lemma uses_read_slot i size offset : uses 0 (read_slot i size offset).
Proof. unfold read_slot. uses_tac. Qed.
Lemma uses_write_slot i data offset : uses 0 (write_slot i data offset).
Proof. unfold write_slot. uses_tac. Qed.
Lemma uses_set_table f : uses 0 (modify (λ s, set_buffer_cache (f (buffer_cache s)) s)).
Proof. uses_tac. Qed.
Lemma uses_set_clock f : uses 0 (modify (λ s, set_clock_idx (f s) s)).
Proof. uses_tac. Qed.
Lemma uses_on_refbits {A} (c : M bitmap A) : uses 0 (on_refbits c).
Proof. apply uses_same. intros s. unfold pwp, on_refbits. by destruct (c (refbits s)) as [[a b]|]. Qed.
Lemma uses_on_device {A} (c : M block A) : uses 0 (on_device c).
Proof. apply uses_same. intros s. unfold pwp, on_device. by destruct (c (device s)) as [[a b]|]. Qed.

Lemma uses_set_entry a e : uses 0 (set_entry a e).
Proof.
  intros s [H1 H2]. unfold set_entry, get_entry. repeat pwp_step. split; [|simpl; lia].
  split; [|done]. simpl. rewrite lookup_insert_ne; [done|]. intros ->. congruence.
Qed.

Lemma uses_free_sector a : uses (-1) (free_sector a).
Proof.
  intros s [H1 H2]. unfold free_sector. case_bool_decide; pwp_step; (split; [|simpl; lia]); [done|].
  split; [|done]. simpl. rewrite lookup_delete_ne by done. done.
Qed.

(** A block that is written to was really allocated. *)
Lemma uses_malloc {A} k (f : Z → M cache A) :
  (∀ s, null_free s → pwp (f NULL) s (λ _ _, False)) → (∀ a, uses k (f a)) → uses (1 + k) (bind malloc_sector f).
Proof.
  intros Hnull Hf s [H1 H2]. unfold malloc_sector. repeat pwp_step. destruct (mem s) as [|m] eqn:Hm; repeat pwp_step.
  - eapply pwp_mono; [by apply Hnull|]. done.
  - set (s1 := set_heap _ _ _ s). assert (null_free s1) as Hs1.
    { split; simpl; [|lia]. rewrite lookup_insert_ne by (unfold NULL; lia). done. }
    eapply pwp_mono; [by apply Hf|]. intros a s' [? ?]. split; [done|]. simpl in *. lia.
Qed.

Lemma get_entry_null {A} (f : cache_sector → M cache A) s : null_free s → pwp (bind (get_entry NULL) f) s (λ _ _, False).
Proof. intros [H _]. unfold get_entry, pwp, bind. simpl. by rewrite H. Qed.

Hint Resolve uses_ret uses_get_state uses_get_entry uses_get_cache_sector uses_set_cache_sector uses_lock_acquire
  uses_lock_release uses_read_slot uses_write_slot uses_set_table uses_set_clock uses_on_refbits uses_on_device
  uses_set_entry : core.
Hint Extern 5 (uses _ (bind _ _)) => apply uses_bind0; [|intros ?] : core.

Lemma uses_find n : uses 1 (buffer_cache_find n).
Proof. unfold buffer_cache_find. apply (uses_malloc 0); [intros s Hs; by apply get_entry_null|auto]. Qed.

Lemma uses_evict a : uses (-1) (buffer_cache_evict a).
Proof.
  unfold buffer_cache_evict. case_bool_decide; [by apply (uses_weaken 0); [auto|]|].
  apply uses_bind0; [auto|]. intros e. apply uses_bind0; [destruct (dirty e); auto|]. intros _.
  apply uses_bind0; [auto|]. intros _. apply uses_bind0; [auto|]. intros p.
  apply (uses_bind (-1) 0); [apply uses_free_sector|]. unfold fill_slot. auto.
Qed.

Lemma uses_insert a : uses 0 (buffer_cache_insert a).
Proof. unfold buffer_cache_insert. apply uses_bind0; [auto|]. intros e. apply uses_bind0; [|auto]. apply uses_set_table. Qed.

Lemma uses_update_clock : uses 0 update_clock_idx.
Proof.
  unfold update_clock_idx. apply uses_bind0; [auto|]. intros [].
  - apply uses_bind0; [auto|]. intros _. apply (uses_set_clock (λ _, 0)).
  - apply uses_bind0; [auto|]. intros s. apply uses_bind0; [auto|]. intros []; [|auto].
    apply (uses_set_clock (λ s, (clock_idx s + 1) mod MAX_CACHE_SECTORS)).
Qed.

Lemma set_entry_null {A} e (f : unit → M cache A) s : null_free s → pwp (bind (set_entry NULL e) f) s (λ _ _, False).
Proof. intros [H _]. unfold set_entry, get_entry, pwp, bind. simpl. by rewrite H. Qed.

Lemma uses_read_from_disk n i size offset : uses 0 (read_from_disk n i size offset).
Proof.
  unfold read_from_disk. apply (uses_malloc (-1)); [intros s Hs; by apply set_entry_null|]. intros a.
  apply uses_bind0; [auto|]. intros _. apply uses_bind0; [auto|]. intros p.
  apply (uses_bind (-1) 0); [apply uses_evict|]. intros _. apply uses_bind0; [apply uses_insert|]. unfold fill_slot. auto.
Qed.

Lemma uses_write_new n data i offset : uses 0 (write_new_buffer n data i offset).
Proof.
  unfold write_new_buffer. apply (uses_malloc (-1)); [intros s Hs; by apply set_entry_null|]. intros a.
  apply uses_bind0; [auto|]. intros _. apply uses_bind0; [auto|]. intros p.
  apply (uses_bind (-1) 0); [apply uses_evict|]. intros _. apply uses_bind0; [apply uses_insert|]. auto.
Qed.

Lemma uses_read_from_buffer n size offset : uses 0 (read_from_buffer n size offset).
Proof.
  unfold read_from_buffer. apply (uses_weaken (1 + 0)); [|lia]. apply uses_bind; [apply uses_find|auto].
Qed.

Lemma uses_write_exist n data offset : uses 0 (write_exist_buffer n data offset).
Proof.
  unfold write_exist_buffer. apply (uses_weaken (1 + 0)); [|lia]. apply uses_bind; [apply uses_find|auto].
Qed.

Lemma uses_cache_read n size offset : uses 2 (buffer_cache_read n size offset).
Proof.
  unfold buffer_cache_read. apply (uses_bind 1 1); [apply uses_find|]. intros a. case_bool_decide.
  - apply uses_bind0; [auto|]. intros e. apply uses_bind0; [auto|]. intros _.
    apply (uses_bind 1 0); [apply uses_find|]. intros a'. apply uses_bind0; [|auto].
    case_bool_decide; [apply uses_read_from_disk|apply uses_read_from_buffer].
  - apply uses_bind0; [apply uses_update_clock|]. intros _. apply uses_bind0; [auto|]. intros s. apply uses_bind0; [auto|].
    intros _. apply (uses_bind 1 0); [apply uses_find|]. intros a'. apply uses_bind0; [|auto].
    case_bool_decide; [apply uses_read_from_disk|apply uses_read_from_buffer].
Qed.

Lemma uses_cache_write n data offset : uses 2 (buffer_cache_write n data offset).
Proof.
  unfold buffer_cache_write. apply (uses_bind 1 1); [apply uses_find|]. intros a. case_bool_decide.
  - apply uses_bind0; [auto|]. intros e. apply uses_bind0; [auto|]. intros _.
    apply (uses_bind 1 0); [apply uses_find|]. intros a'. apply uses_bind0; [|auto].
    case_bool_decide; [apply uses_write_new|apply uses_write_exist].
  - apply uses_bind0; [apply uses_update_clock|]. intros _. apply uses_bind0; [auto|]. intros s. apply uses_bind0; [auto|].
    intros _. apply (uses_bind 1 0); [apply uses_find|]. intros a'. apply uses_bind0; [|auto].
    case_bool_decide; [apply uses_write_new|apply uses_write_exist].
Qed.

End Leak.

(** ** The initial state *)

(** What [buffer_cache_init] returns. *)
Definition fresh_cache (dev : block) (room : nat) (buffer : list (list Z)) : cache :=
  mk_cache dev room 32 ∅ ∅ buffer 0 (mk_bitmap 64 [0; 0]) (replicate 64 NULL) (replicate 64 false).

Lemma buffer_cache_init_fresh dev room buffer : buffer_cache_init dev room buffer = Ret (fresh_cache dev room buffer).
Proof. reflexivity. Qed.

Lemma fresh_cache_ready dev room buffer :
  block_wf dev → length buffer = 64%nat → Forall (λ l, length l = 512%nat) buffer → cache_ready (fresh_cache dev room buffer).
Proof.
  intros Hd Hl Hb. split; [|done]. split; cbn [fresh_cache device buffer_base cache_sectors refbits clock_idx sector_locks entries next_block buffer_cache];
    [done|done| |done| |done|done|done|done|done|].
  - intros i l Hi. by eapply (Forall_lookup_1 _ _ _ _ Hb).
  - split; [|done]. split; simpl; [done|done|by repeat constructor].
  - intros i a [-> _]%lookup_replicate. done.
Qed.

(** ** Claims *)

(** A request to the cache. *)
Inductive request := CacheRead (sector size offset : Z) | CacheWrite (sector : Z) (data : list Z) (offset : Z).
Definition serve (r : request) : M cache unit :=
  match r with
  | CacheRead n size offset => _ ← buffer_cache_read n size offset; ret tt
  | CacheWrite n data offset => buffer_cache_write n data offset
  end.
Fixpoint serve_all (l : list request) : M cache unit :=
  match l with [] => ret tt | r :: l => serve r;; serve_all l end.

(** C2: the buffer cache is transparent.  In a state between operations, with
    room for three entries in the heap: [buffer_cache_read] returns the bytes
    of the sector and changes no sector; [buffer_cache_write] of a whole
    sector, or to a sector that is cached, replaces exactly the bytes written
    and changes no other sector, although both may evict a sector;
    [buffer_cache_flush] makes the device hold every sector.  All of them
    return, and leave the cache well formed and its locks released. *)
Theorem cache_transparent s m n size offset data :
  cache_ready s → mem s = S (S (S m)) → n < block_sz (device s) → 0 ≤ offset →
  (offset + size ≤ 512 →
     ∃ s', buffer_cache_read n size offset s = Ret (take (Z.to_nat size) (drop (Z.to_nat offset) (view s n)), s') ∧
       cache_ready s' ∧ ∀ k, view s' k = view s k) ∧
  (offset + Z.of_nat (length data) ≤ 512 → buffer_cache s !! n ≠ None ∨ length data = 512%nat →
     ∃ s', buffer_cache_write n data offset s = Ret (tt, s') ∧ cache_ready s' ∧
       ∀ k, view s' k = if bool_decide (k = n) then splice offset data (view s n) else view s k) ∧
  (∃ s', buffer_cache_flush s = Ret (tt, s') ∧ cache_ready s' ∧ (∀ k, view s' k = view s k) ∧
     ∀ k, sector_at (device s') k = view s k).
Proof.
  intros Hr Hm Hn Ho. split_and!.
  - intros Hs. destruct (proj1 (wp_outcome _ _ _) (buffer_cache_read_spec s m n size offset Hr Hm Hn Hs))
      as (? & s' & E & -> & [Hwf V L _] & _). exists s'. split_and!; [done| |done]. split; [done|]. rewrite L. apply Hr.
  - intros Hs Hd. destruct (proj1 (wp_outcome _ _ _) (buffer_cache_write_spec s m n data offset Hr Hm Hn Ho Hs))
      as ([] & s' & E & _ & old & Hlen & Hold & [Hwf V L _]). exists s'. split_and!; [done|split; [done|rewrite L; apply Hr]|].
    intros k. rewrite V. case_bool_decide; [|done]. destruct Hd as [Hd|Hd]; [by rewrite Hold|].
    assert (offset = 0) as -> by lia. rewrite splice_full by lia.
    pose proof (view_length s n (proj1 Hr)). by rewrite splice_full by lia.
  - destruct (proj1 (wp_outcome _ _ _) (buffer_cache_flush_spec s Hr)) as ([] & s' & E & ? & ? & ? & _). eauto.
Qed.

(** every read and write of the cache uses up at least two blocks of the
    kernel heap for good ([buffer_cache_find] never frees the entry it
    searches with), so that a kernel whose heap has room for [mem s] entries
    cannot serve more than [mem s / 2] requests: any longer sequence of reads
    and writes makes the kernel fault. *)
Theorem cache_lookups_leak l s :
  entries s !! NULL = None → 0 < next_block s → Z.of_nat (mem s) < 2 * Z.of_nat (length l) →
  ∃ f, serve_all l s = Fail f.
Proof.
  intros H1 H2 Hl. assert (∀ l s, null_free s → pwp (serve_all l) s (λ _ s', used (2 * Z.of_nat (length l)) s s')) as H.
  { clear. induction l as [|r l IH]; intros s Hs; simpl serve_all; pwp_step; [by apply used_refl|].
    eapply (pwp_mono _ _ (λ _ s', used 2 s s')); [|intros [] s1 U1; eapply pwp_mono; [apply IH, U1|]].
    - destruct r; simpl; [apply (uses_bind 2 0); [apply uses_cache_read|intros; apply uses_ret|done]|by apply uses_cache_write].
    - intros [] s2 U2. replace (2 * Z.of_nat (length (r :: l))) with (2 + 2 * Z.of_nat (length l)) by (simpl; lia).
      exact (used_trans 2 _ s s1 s2 U1 U2). }
  specialize (H l s (conj H1 H2)). unfold pwp in H. destruct (serve_all l s) as [[[] s']|f]; [|eauto].
  destruct H as [_ H]. lia.
Qed.

(** A device of 100 sectors whose sector 5 holds sevens, and a fresh cache. *)
Definition sample_device : block := mk_block "hda1" BLOCK_FILESYS 100 0 0 {[5 := replicate 512 7]}.
Definition sample_cache : cache := fresh_cache sample_device 1000 (replicate 64 (replicate 512 0)).

(** a partial write to a sector that is not cached destroys the rest of
    the sector, since [write_new_buffer] does not read it from the disk: after
    the byte 9 is written at offset 0 of a sector that holds sevens, the byte
    at offset 1 reads as 0, and a flush writes that loss to the disk. *)
Theorem partial_write_loses_sector :
  view sample_cache 5 = replicate 512 7 ∧
  ∃ s1 s2 s3, buffer_cache_write 5 [9] 0 sample_cache = Ret (tt, s1) ∧
    buffer_cache_read 5 2 0 s1 = Ret ([9; 0], s2) ∧
    buffer_cache_flush s2 = Ret (tt, s3) ∧ sector_at (device s3) 5 = 9 :: replicate 511 0.
Proof.
  split; [by vm_compute|]. do 3 eexists. split; [by vm_compute|]. split; [by vm_compute|]. split; by vm_compute.
Qed.

(** [update_clock_idx] advances the clock by at most one slot, although its
    comment says that it finds the first slot whose reference bit is clear:
    when the bits of the slot under the hand and of the next one are set and
    some other bit is clear, the slot chosen for eviction is a referenced one. *)
Theorem clock_stops_on_referenced s :
  cache_wf s → bit (refbits s) (clock_idx s) = true → bit (refbits s) ((clock_idx s + 1) mod 64) = true →
  (∃ j, 0 ≤ j < 64 ∧ bit (refbits s) j = false) →
  ∃ s', update_clock_idx s = Ret (tt, s') ∧ refbits s' = refbits s ∧ bit (refbits s') (clock_idx s') = true.
Proof.
  intros Hwf H1 H2 (j & Hj & Hz). destruct (cw_refs s Hwf) as [Hr Hc]. pose proof (cw_clock s Hwf).
  assert (wp update_clock_idx s (λ _ s', refbits s' = refbits s ∧ bit (refbits s') (clock_idx s') = true)) as Hw;
    [|by apply wp_outcome in Hw as ([] & s' & ? & ?); eauto].
  unfold update_clock_idx. wp_step. apply wp_on_refbits. apply bitmap_all_spec; [done|lia|done|unfold MAX_CACHE_SECTORS; lia|].
  intros all Hall. replace (set_refbits (refbits s) s) with s by by destruct s.
  destruct all.
  { destruct Hall as [Hall _]. rewrite (Hall eq_refl j) in Hz; [done|]. unfold MAX_CACHE_SECTORS. lia. }
  wp_steps. apply wp_on_refbits. apply bitmap_test_spec; [done|lia|]. rewrite H1. wp_step. by split.
Qed.

Lemma sample_cache_ready : cache_ready sample_cache.
Proof.
  apply fresh_cache_ready; [|done|by apply Forall_replicate].
  split; [done|]. intros n l Hl. unfold sample_device in Hl. cbn [contents] in Hl.
  by apply lookup_singleton_Some in Hl as [<- <-].
Qed.

Lemma cache_transparent_witness :
  ∃ s', buffer_cache_read 5 2 0 sample_cache = Ret ([7; 7], s') ∧ ∀ k, view s' k = view sample_cache k.
Proof.
  destruct (cache_transparent sample_cache 997 5 2 0 [] sample_cache_ready eq_refl eq_refl ltac:(done)) as (Hr & _ & _).
  destruct Hr as (s' & E & _ & V); [done|]. exists s'. split; [exact E|exact V].
Defined.

Lemma cache_lookups_leak_witness : ∃ f, serve_all (replicate 501 (CacheRead 5 1 0)) sample_cache = Fail f.
Proof. by apply (cache_lookups_leak (replicate 501 (CacheRead 5 1 0)) sample_cache). Defined.

Lemma clock_stops_on_referenced_witness :
  ∃ s', update_clock_idx (set_refbits (mk_bitmap 64 [3; 0]) sample_cache) = Ret (tt, s') ∧
    bit (refbits s') (clock_idx s') = true.
Proof.
  destruct (clock_stops_on_referenced (set_refbits (mk_bitmap 64 [3; 0]) sample_cache)) as (s' & E & _ & B); [|done|done|by exists 5|eauto].
  apply set_refbits_extends; [apply sample_cache_ready| |done]. split; simpl; [done|done|by repeat constructor].
Defined.
