(* ===== verification/Inode.v ===== *)
(** * Inodes, the free map and open files
      (filesys/inode.c, filesys/free-map.c, filesys/file.c, lib/kernel/bitmap.c)

    The file layer over the buffer cache.  The three files call each other:
    extending an inode allocates sectors, allocation writes the free map to
    its file, and that is a write to an inode; the recursion has fuel.  An
    on-disk inode is its 512 bytes, as the code copies it between disk and
    memory.  In-memory structures are shared and referred to by address. *)

From S2P Require Import Prelude Bitmap Block Cache.
Local Open Scope Z_scope.

(** ** Data *)

Definition INODE_MAGIC : Z := 0x494e4f44.
Definition DIRECT_SIZE : Z := 122.
Definition INDIRECT_SIZE : Z := 128.
Definition FS_LIMIT : Z := 2 ^ 23.
Definition FREE_MAP_SECTOR : Z := 0.
Definition ROOT_DIR_SECTOR : Z := 1.

Inductive sector_level := DIRECT | SINGLY_INDIRECT | DOUBLY_INDIRECT.

(** [struct inode] without its list element. *)
Record inode := mk_inode { sector : Z; open_cnt : Z; removed : bool; deny_write_cnt : Z }.
(** [struct file] *)
Record file := mk_file { file_inode : Z; pos : Z; deny_write : bool }.
(** [struct dir] *)
Record dir := mk_dir { dir_inode : Z; dir_pos : Z }.

(** The state of the file system: the cache, the static variables of
    free-map.c and inode.c, and the structures in the heap by address.
    [room] is the number of structures the heap still has room for. *)
Record fs := mk_fs {
  fcache : cache;
  free_map : bitmap;
  free_map_file : Z;
  inodes : gmap Z inode;
  open_inodes : list Z;
  files : gmap Z file;
  dirs : gmap Z dir;
  next_obj : Z;
  room : nat
}.

Definition set_fcache v s := mk_fs v (free_map s) (free_map_file s) (inodes s) (open_inodes s) (files s) (dirs s) (next_obj s) (room s).
Definition set_free_map v s := mk_fs (fcache s) v (free_map_file s) (inodes s) (open_inodes s) (files s) (dirs s) (next_obj s) (room s).
Definition set_free_map_file v s := mk_fs (fcache s) (free_map s) v (inodes s) (open_inodes s) (files s) (dirs s) (next_obj s) (room s).
Definition set_inodes v s := mk_fs (fcache s) (free_map s) (free_map_file s) v (open_inodes s) (files s) (dirs s) (next_obj s) (room s).
Definition set_open_inodes v s := mk_fs (fcache s) (free_map s) (free_map_file s) (inodes s) v (files s) (dirs s) (next_obj s) (room s).
Definition set_files v s := mk_fs (fcache s) (free_map s) (free_map_file s) (inodes s) (open_inodes s) v (dirs s) (next_obj s) (room s).
Definition set_dirs v s := mk_fs (fcache s) (free_map s) (free_map_file s) (inodes s) (open_inodes s) (files s) v (next_obj s) (room s).
Definition set_alloc n r s := mk_fs (fcache s) (free_map s) (free_map_file s) (inodes s) (open_inodes s) (files s) (dirs s) n r.

Definition on_cache {A} (c : M cache A) : M fs A :=
  λ s, match c (fcache s) with Ret (a, b) => Ret (a, set_fcache b s) | Fail f => Fail f end.
Definition on_free_map {A} (c : M bitmap A) : M fs A :=
  λ s, match c (free_map s) with Ret (a, b) => Ret (a, set_free_map b s) | Fail f => Fail f end.

(** [malloc] or [calloc] of a structure: its address, or the null pointer. *)
Definition alloc_obj : M fs Z :=
  s ← get_state;
  match room s with
  | O => ret NULL
  | S r => put_state (set_alloc (next_obj s + 64) r s);; ret (next_obj s)
  end.
Definition free_obj : M fs unit := modify (λ s, set_alloc (next_obj s) (S (room s)) s).

(** A buffer from [malloc] that is used without a check and freed on return. *)
Definition with_buffer {A} (c : M fs A) : M fs A :=
  s ← get_state; match room s with O => fail BadAccess | S _ => c end.

Definition get_inode (i : Z) : M fs inode := s ← get_state; deref (inodes s !! i).
Definition put_inode (i : Z) (n : inode) : M fs unit := modify (λ s, set_inodes (<[i := n]> (inodes s)) s).
Definition get_file (f : Z) : M fs file := s ← get_state; deref (files s !! f).
Definition put_file (f : Z) (v : file) : M fs unit := modify (λ s, set_files (<[f := v]> (files s)) s).

(** ** Bytes of the on-disk structures *)

(** Little-endian numbers. *)
Fixpoint le (l : list Z) : Z := match l with [] => 0 | b :: r => b + 256 * le r end.
Fixpoint le_bytes (n : nat) (x : Z) : list Z :=
  match n with O => [] | S n => x mod 256 :: le_bytes n (x / 256) end.

Definition get_word (l : list Z) (off : Z) : Z := le (take 4 (drop (Z.to_nat off) l)).
Definition set_word (off v : Z) (l : list Z) : list Z := splice off (le_bytes 4 v) l.

(** The fields of [struct inode_disk] in its 512 bytes. *)
Definition direct (d : list Z) (i : Z) : Z := get_word d (4 * i).
Definition singly_indirect (d : list Z) : Z := get_word d 488.
Definition doubly_indirect (d : list Z) : Z := get_word d 492.
Definition length_ (d : list Z) : Z := s32 (get_word d 496).
Definition is_dir (d : list Z) : bool := bool_decide (d !! 500%nat ≠ Some 0).
Definition set_direct (i v : Z) (d : list Z) : list Z := set_word (4 * i) v d.
Definition set_singly (v : Z) (d : list Z) : list Z := set_word 488 v d.
Definition set_doubly (v : Z) (d : list Z) : list Z := set_word 492 v d.
Definition set_length (v : Z) (d : list Z) : list Z := set_word 496 v d.
Definition set_is_dir (d : list Z) : list Z := <[500%nat := 1]> d.
Definition set_magic (v : Z) (d : list Z) : list Z := set_word 508 v d.

(** [block_sector_t] -1 *)
Definition NO_SECTOR : Z := 2 ^ 32 - 1.

(** ** Sector arithmetic *)

(** [DIV_ROUND_UP (size, BLOCK_SECTOR_SIZE)] on [int]s, as a [size_t]. *)
Definition bytes_to_sectors (size : Z) : Z := u32 (Z.quot (s32 (size + 511)) 512).

Definition determine_level (sector_idx : Z) : sector_level :=
  if bool_decide (sector_idx < DIRECT_SIZE) then DIRECT
  else if bool_decide (sector_idx < DIRECT_SIZE + INDIRECT_SIZE) then SINGLY_INDIRECT
  else DOUBLY_INDIRECT.

(** [buffer_cache_read] and [buffer_cache_write] on [fs_device]; the size and
    the offset are [size_t]s. *)
Definition cache_read (n size offset : Z) : M fs (list Z) := on_cache (buffer_cache_read n (u32 size) (u32 offset)).
Definition cache_write (n : Z) (data : list Z) (offset : Z) : M fs unit :=
  on_cache (buffer_cache_write n data (u32 offset)).

(** [sizeof (block_sector_t)] bytes of a sector, from a byte offset. *)
Definition read_ptr (n offset : Z) : M fs Z := l ← cache_read n 4 offset; ret (le l).

(** The on-disk inode of an in-memory one. *)
Definition read_inode_disk (i : Z) : M fs (list Z) :=
  with_buffer (n ← get_inode i; cache_read (sector n) BLOCK_SECTOR_SIZE 0).

Definition inode_length (i : Z) : M fs Z := d ← read_inode_disk i; ret (length_ d).

Definition byte_to_sector (i : Z) (pos : Z) : M fs Z :=
  ASSERT (bool_decide (i ≠ NULL));;
  d ← read_inode_disk i;
  if bool_decide (length_ d ≤ pos) then ret NO_SECTOR
  else
    let sector_idx := u32 (Z.quot pos BLOCK_SECTOR_SIZE) in
    match determine_level sector_idx with
    | DIRECT => ret (direct d sector_idx)
    | SINGLY_INDIRECT => read_ptr (singly_indirect d) (sector_idx - DIRECT_SIZE)
    | DOUBLY_INDIRECT =>
        let doubly_indirect_idx := sector_idx - DIRECT_SIZE - INDIRECT_SIZE in
        let singly_indirect_idx := doubly_indirect_idx / INDIRECT_SIZE in
        let doubly_indirect_idx := doubly_indirect_idx mod INDIRECT_SIZE in
        block_ptr ← read_ptr (doubly_indirect d) singly_indirect_idx;
        read_ptr block_ptr doubly_indirect_idx
    end.

(** ** Reading *)

(** The chunk of a transfer at [offset], from what is left in the sector, in
    the inode and of the request. *)
Definition chunk (len size offset : Z) : Z :=
  let inode_left := s32 (len - offset) in
  let sector_left := BLOCK_SECTOR_SIZE - Z.rem offset BLOCK_SECTOR_SIZE in
  let min_left := if inode_left <? sector_left then inode_left else sector_left in
  if size <? min_left then size else min_left.

(** [while (size > 0)]: the bytes read, and their number. *)
Fixpoint read_loop (fuel : nat) (i size offset bytes_read : Z) (buffer : list Z) : M fs (Z * list Z) :=
  match fuel with
  | O => fail OutOfFuel
  | S fuel =>
      if bool_decide (0 < size) then
        sector_idx ← byte_to_sector i offset;
        len ← inode_length i;
        let chunk_size := chunk len size offset in
        if bool_decide (chunk_size ≤ 0) then ret (bytes_read, buffer)
        else
          data ← cache_read sector_idx chunk_size (Z.rem offset BLOCK_SECTOR_SIZE);
          read_loop fuel i (size - chunk_size) (s32 (offset + chunk_size)) (bytes_read + chunk_size) (buffer ++ data)
      else ret (bytes_read, buffer)
  end.

Definition inode_read_at (i size offset : Z) : M fs (Z * list Z) :=
  let necessary_offset := u32 (offset + size) in
  last ← byte_to_sector i (s32 (necessary_offset - 1));
  if bool_decide (last = NO_SECTOR) then ret (0, [])
  else read_loop (S (Z.to_nat size)) i size offset 0 [].

(** ** Writing, allocation and growth *)

(** The array of words of a bitmap, as bytes. *)
Definition bitmap_bytes (b : bitmap) : list Z := concat (le_bytes 4 <$> bits b).

Section Recursion.
(** [inode_write_at] of one level of recursion less. *)
Context (write_at : Z → list Z → Z → Z → M fs Z).

Definition file_write_at_with (f : Z) (buffer : list Z) (size file_ofs : Z) : M fs Z :=
  fl ← get_file f; write_at (file_inode fl) buffer size file_ofs.

Definition bitmap_write (f : Z) : M fs bool :=
  b ← gets free_map;
  let size := s32 (byte_cnt (bit_cnt b)) in
  r ← file_write_at_with f (bitmap_bytes b) size 0;
  ret (bool_decide (r = size)).

(** The sector allocated; [None] is the return value false. *)
Definition free_map_allocate (cnt : Z) : M fs (option Z) :=
  sec ← on_free_map (bitmap_scan_and_flip 0 cnt false);
  f ← gets free_map_file;
  sec ← (if bool_decide (sec ≠ BITMAP_ERROR) && bool_decide (f ≠ NULL) then
           ok ← bitmap_write f;
           if ok : bool then ret sec
           else on_free_map (bitmap_set_multiple sec cnt false);; ret BITMAP_ERROR
         else ret sec);
  ret (if bool_decide (sec ≠ BITMAP_ERROR) then Some sec else None).

Definition free_map_release (sec cnt : Z) : M fs unit :=
  all ← on_free_map (bitmap_all sec cnt);
  ASSERT all;;
  on_free_map (bitmap_set_multiple sec cnt false);;
  f ← gets free_map_file;
  _ ← bitmap_write f;
  ret tt.

(** [inode_d] is changed in memory: the flag is the return value. *)
Definition inode_allocate (d : list Z) : M fs (bool * list Z) :=
  r ← free_map_allocate 1;
  match r with
  | None => ret (false, d)
  | Some sec =>
      let d := set_singly sec d in
      cache_write sec sector_zero 0;;
      r ← free_map_allocate 1;
      match r with
      | None => ret (false, d)
      | Some sec =>
          let d := set_doubly sec d in
          cache_write sec sector_zero 0;;
          ret (true, d)
      end
  end.

(** [for (sector_idx = cur_sectors; sector_idx < new_sectors; ++sector_idx)] *)
Fixpoint extend_loop (n : nat) (sector_idx : Z) (d : list Z) : M fs (bool * list Z) :=
  match n with
  | O => ret (true, d)
  | S n =>
      match determine_level sector_idx with
      | DIRECT =>
          r ← free_map_allocate 1;
          match r with
          | None => ret (false, d)
          | Some sec => extend_loop n (sector_idx + 1) (set_direct sector_idx sec d)
          end
      | SINGLY_INDIRECT =>
          _ ← read_ptr (singly_indirect d) (sector_idx - DIRECT_SIZE);
          r ← free_map_allocate 1;
          match r with
          | None => ret (false, d)
          | Some block_ptr => cache_write block_ptr sector_zero 0;; extend_loop n (sector_idx + 1) d
          end
      | DOUBLY_INDIRECT =>
          let doubly_sector_idx := sector_idx - DIRECT_SIZE - INDIRECT_SIZE in
          let singly_sector_idx := doubly_sector_idx / INDIRECT_SIZE in
          let doubly_sector_idx := doubly_sector_idx mod INDIRECT_SIZE in
          block_ptr ← read_ptr (doubly_indirect d) singly_sector_idx;
          r ← (if bool_decide (doubly_sector_idx = 0) then
                 r ← free_map_allocate 1;
                 match r with
                 | None => ret None
                 | Some block_ptr => cache_write block_ptr sector_zero 0;; ret (Some block_ptr)
                 end
               else ret (Some block_ptr));
          match r with
          | None => ret (false, d)
          | Some block_ptr =>
              _ ← read_ptr block_ptr doubly_sector_idx;
              r ← free_map_allocate 1;
              match r with
              | None => ret (false, d)
              | Some block_ptr => cache_write block_ptr sector_zero 0;; extend_loop n (sector_idx + 1) d
              end
          end
      end
  end.

(** [length] is a [size_t], and so is the comparison with [inode_d->length]. *)
Definition inode_extend (d : list Z) (length : Z) : M fs (bool * list Z) :=
  if bool_decide (length < u32 (length_ d)) then ret (false, d)
  else if bool_decide (FS_LIMIT - 512 < length) then ret (false, d)
  else
    let cur_sectors := bytes_to_sectors (length_ d) in
    let new_sectors := bytes_to_sectors (s32 length) in
    '(ok, d) ← extend_loop (Z.to_nat (new_sectors - cur_sectors)) cur_sectors d;
    if ok : bool then ret (true, set_length length d) else ret (false, d).

Fixpoint deallocate_loop (n : nat) (sector_idx : Z) (d : list Z) : M fs unit :=
  match n with
  | O => ret tt
  | S n =>
      match determine_level sector_idx with
      | DIRECT => free_map_release (direct d sector_idx) 1
      | SINGLY_INDIRECT =>
          block_ptr ← read_ptr (singly_indirect d) (sector_idx - DIRECT_SIZE);
          free_map_release block_ptr 1
      | DOUBLY_INDIRECT =>
          let doubly_sector_idx := sector_idx - DIRECT_SIZE - INDIRECT_SIZE in
          let singly_sector_idx := doubly_sector_idx / INDIRECT_SIZE in
          let doubly_sector_idx := doubly_sector_idx mod INDIRECT_SIZE in
          block_ptr ← read_ptr (doubly_indirect d) singly_sector_idx;
          block_ptr ← read_ptr block_ptr doubly_sector_idx;
          free_map_release block_ptr 1;;
          if bool_decide (doubly_sector_idx = INDIRECT_SIZE - 1) then
            block_ptr ← read_ptr (doubly_indirect d) singly_sector_idx;
            free_map_release block_ptr 1
          else ret tt
      end;;
      deallocate_loop n (sector_idx + 1) d
  end.

Definition inode_deallocate (d : list Z) : M fs unit :=
  deallocate_loop (Z.to_nat (bytes_to_sectors (length_ d))) 0 d.

(** [while (size > 0)] of [inode_write_at]. *)
Fixpoint write_loop (fuel : nat) (i : Z) (buffer : list Z) (size offset bytes_written : Z) : M fs Z :=
  match fuel with
  | O => fail OutOfFuel
  | S fuel =>
      if bool_decide (0 < size) then
        sector_idx ← byte_to_sector i offset;
        len ← inode_length i;
        let chunk_size := chunk len size offset in
        if bool_decide (chunk_size ≤ 0) then ret bytes_written
        else
          cache_write sector_idx (take (Z.to_nat chunk_size) (drop (Z.to_nat bytes_written) buffer))
            (Z.rem offset BLOCK_SECTOR_SIZE);;
          write_loop fuel i buffer (size - chunk_size) (s32 (offset + chunk_size)) (bytes_written + chunk_size)
      else ret bytes_written
  end.

(** The inode that is extended is a copy, which is freed. *)
Definition inode_write_at_with (i : Z) (buffer : list Z) (size offset : Z) : M fs Z :=
  n ← get_inode i;
  if bool_decide (deny_write_cnt n ≠ 0) then ret 0
  else
    let necessary_offset := u32 (offset + size) in
    last ← byte_to_sector i (s32 necessary_offset);
    ok ← (if bool_decide (last = NO_SECTOR) then
            d ← read_inode_disk i;
            '(ok, _) ← inode_extend d necessary_offset;
            ret ok
          else ret true);
    if ok : bool then write_loop (S (Z.to_nat size)) i buffer size offset 0 else ret 0.

End Recursion.

(** A write of a file can write the free map, whose file never grows. *)
Definition write_depth : nat := 3.

Fixpoint write_at_fuel (fuel : nat) (i : Z) (buffer : list Z) (size offset : Z) : M fs Z :=
  match fuel with
  | O => fail OutOfFuel
  | S fuel => inode_write_at_with (write_at_fuel fuel) i buffer size offset
  end.

Definition inode_write_at : Z → list Z → Z → Z → M fs Z := write_at_fuel write_depth.

(** ** Life cycle of inodes *)

Definition inode_init : M fs unit := modify (set_open_inodes []).

Definition inode_create (sec length : Z) : M fs bool :=
  ASSERT (bool_decide (0 ≤ length));;
  ASSERT (bool_decide (length ≤ FS_LIMIT - 512));;
  s ← get_state;
  match room s with
  | O => ret false
  | S _ =>
      let d := set_magic INODE_MAGIC (set_length 0 sector_zero) in
      '(success, d) ← inode_allocate inode_write_at d;
      '(ok, d) ← inode_extend inode_write_at d length;
      cache_write sec d 0;;
      ret (ok && success)
  end.

Definition inode_reopen (i : Z) : M fs Z :=
  if bool_decide (i ≠ NULL) then
    n ← get_inode i;
    put_inode i (mk_inode (sector n) (open_cnt n + 1) (removed n) (deny_write_cnt n));;
    ret i
  else ret i.

(** The open inode of the sector. *)
Fixpoint find_open (l : list Z) (sec : Z) : M fs (option Z) :=
  match l with
  | [] => ret None
  | i :: l => n ← get_inode i; if bool_decide (sector n = sec) then ret (Some i) else find_open l sec
  end.

Definition inode_open (sec : Z) : M fs Z :=
  l ← gets open_inodes;
  found ← find_open l sec;
  match found with
  | Some i => inode_reopen i
  | None =>
      i ← alloc_obj;
      if bool_decide (i = NULL) then ret NULL
      else
        modify (λ s, set_open_inodes (i :: open_inodes s) s);;
        put_inode i (mk_inode sec 1 false 0);;
        ret i
  end.

Definition inode_get_inumber (i : Z) : M fs Z := n ← get_inode i; ret (sector n).

Definition inode_close (i : Z) : M fs unit :=
  if bool_decide (i = NULL) then ret tt
  else
    n ← get_inode i;
    put_inode i (mk_inode (sector n) (open_cnt n - 1) (removed n) (deny_write_cnt n));;
    if bool_decide (open_cnt n - 1 = 0) then
      modify (λ s, set_open_inodes (remove_elem i (open_inodes s)) s);;
      (if removed n then d ← read_inode_disk i; inode_deallocate inode_write_at d else ret tt);;
      modify (λ s, set_inodes (delete i (inodes s)) s);;
      free_obj
    else ret tt.

Definition inode_remove (i : Z) : M fs unit :=
  ASSERT (bool_decide (i ≠ NULL));;
  n ← get_inode i;
  put_inode i (mk_inode (sector n) (open_cnt n) true (deny_write_cnt n)).

Definition inode_deny_write (i : Z) : M fs unit :=
  n ← get_inode i;
  put_inode i (mk_inode (sector n) (open_cnt n) (removed n) (deny_write_cnt n + 1));;
  ASSERT (bool_decide (deny_write_cnt n + 1 ≤ open_cnt n)).

Definition inode_allow_write (i : Z) : M fs unit :=
  n ← get_inode i;
  ASSERT (bool_decide (0 < deny_write_cnt n));;
  ASSERT (bool_decide (deny_write_cnt n ≤ open_cnt n));;
  put_inode i (mk_inode (sector n) (open_cnt n) (removed n) (deny_write_cnt n - 1)).

Definition inode_isdir (i : Z) : M fs bool := d ← read_inode_disk i; ret (is_dir d).

Definition inode_setdir (i : Z) : M fs unit :=
  with_buffer (
    n ← get_inode i;
    d ← cache_read (sector n) BLOCK_SECTOR_SIZE 0;
    cache_write (sector n) (set_is_dir d) 0).

(** [contain] is what [thread_contain_cwd] returns for the inode's sector. *)
Definition inode_isdepend (contain : bool) (i : Z) : M fs bool :=
  n ← get_inode i;
  ret (bool_decide (0 < open_cnt n) || contain).

(** ** The free map's file *)

Definition free_map_init (map : option bitmap) : M fs unit :=
  match map with
  | None => fail AssertFail
  | Some b => modify (set_free_map b);; on_free_map (bitmap_mark FREE_MAP_SECTOR);; on_free_map (bitmap_mark ROOT_DIR_SECTOR)
  end.

(** ** Open files *)

Definition file_open (i : Z) : M fs Z :=
  f ← alloc_obj;
  if bool_decide (i ≠ NULL) && bool_decide (f ≠ NULL) then put_file f (mk_file i 0 false);; ret f
  else
    inode_close i;;
    (if bool_decide (f ≠ NULL) then free_obj else ret tt);;
    ret NULL.

Definition file_reopen (f : Z) : M fs Z :=
  fl ← get_file f; i ← inode_reopen (file_inode fl); file_open i.

Definition file_deny_write (f : Z) : M fs unit :=
  ASSERT (bool_decide (f ≠ NULL));;
  fl ← get_file f;
  if deny_write fl then ret tt
  else put_file f (mk_file (file_inode fl) (pos fl) true);; inode_deny_write (file_inode fl).

Definition file_allow_write (f : Z) : M fs unit :=
  ASSERT (bool_decide (f ≠ NULL));;
  fl ← get_file f;
  if deny_write fl then put_file f (mk_file (file_inode fl) (pos fl) false);; inode_allow_write (file_inode fl)
  else ret tt.

Definition file_close (f : Z) : M fs unit :=
  if bool_decide (f ≠ NULL) then
    file_allow_write f;;
    fl ← get_file f;
    inode_close (file_inode fl);;
    modify (λ s, set_files (delete f (files s)) s);;
    free_obj
  else ret tt.

Definition file_get_inode (f : Z) : M fs Z := fl ← get_file f; ret (file_inode fl).

Definition file_read (f size : Z) : M fs (Z * list Z) :=
  fl ← get_file f;
  r ← inode_read_at (file_inode fl) size (pos fl);
  put_file f (mk_file (file_inode fl) (s32 (pos fl + fst r)) (deny_write fl));;
  ret r.

Definition file_read_at (f size file_ofs : Z) : M fs (Z * list Z) :=
  fl ← get_file f; inode_read_at (file_inode fl) size file_ofs.

Definition file_write (f : Z) (buffer : list Z) (size : Z) : M fs Z :=
  fl ← get_file f;
  n ← inode_write_at (file_inode fl) buffer size (pos fl);
  put_file f (mk_file (file_inode fl) (s32 (pos fl + n)) (deny_write fl));;
  ret n.

Definition file_write_at (f : Z) (buffer : list Z) (size file_ofs : Z) : M fs Z :=
  file_write_at_with inode_write_at f buffer size file_ofs.

Definition file_length (f : Z) : M fs Z :=
  ASSERT (bool_decide (f ≠ NULL));; fl ← get_file f; inode_length (file_inode fl).

Definition file_seek (f new_pos : Z) : M fs unit :=
  ASSERT (bool_decide (f ≠ NULL));;
  ASSERT (bool_decide (0 ≤ new_pos));;
  fl ← get_file f;
  put_file f (mk_file (file_inode fl) new_pos (deny_write fl)).

Definition file_tell (f : Z) : M fs Z :=
  ASSERT (bool_decide (f ≠ NULL));; fl ← get_file f; ret (pos fl).

(** ** The free map and its file *)

(** The words of the bytes read, over the old ones. *)
Fixpoint words_of_bytes (n : nat) (l : list Z) : list Z :=
  match n with O => [] | S n => le (take 4 l) :: words_of_bytes n (drop 4 l) end.

Definition bitmap_read (f : Z) : M fs bool :=
  b ← gets free_map;
  if bool_decide (0 < bit_cnt b) then
    let size := s32 (byte_cnt (bit_cnt b)) in
    '(n, data) ← file_read_at f size 0;
    let bytes := splice 0 data (bitmap_bytes b) in
    let b' := mk_bitmap (bit_cnt b) (words_of_bytes (length (bits b)) bytes) in
    modify (set_free_map b');;
    on_free_map (w ← get_elem (elem_cnt (bit_cnt b) - 1);
                 set_elem (elem_cnt (bit_cnt b) - 1) (Z.land w (last_mask b)));;
    ret (bool_decide (n = size))
  else ret true.

Definition free_map_open : M fs unit :=
  i ← inode_open FREE_MAP_SECTOR;
  f ← file_open i;
  modify (set_free_map_file f);;
  (if bool_decide (f = NULL) then fail AssertFail else ret tt);;
  ok ← bitmap_read f;
  ASSERT ok.

Definition free_map_close : M fs unit := f ← gets free_map_file; file_close f.

Definition free_map_create : M fs unit :=
  b ← gets free_map;
  ok ← inode_create FREE_MAP_SECTOR (s32 (bitmap_file_size b));
  ASSERT ok;;
  i ← inode_open FREE_MAP_SECTOR;
  f ← file_open i;
  modify (set_free_map_file f);;
  (if bool_decide (f = NULL) then fail AssertFail else ret tt);;
  ok ← bitmap_write inode_write_at f;
  ASSERT ok.
