(* ===== verification/InodeSpec.v ===== *)
(** * What the file layer guarantees

    Specifications of the reads and writes of inode.c over the abstract view
    of the buffer cache: transfers inside a file of directly addressed
    sectors are exact, and where the code departs from its comments. *)

From S2P Require Import Prelude Bitmap Block Cache Inode.
Local Open Scope Z_scope.

(** ** The cache seen from the file layer *)

(** What a sector holds. *)
Definition fview (s : fs) (n : Z) : list Z := view (fcache s) n.
Definition dev_size (s : fs) : Z := block_sz (device (fcache s)).

(** No cache operation is under way, and the heap has room for [k] of them. *)
Definition fs_ready (s : fs) (k : Z) : Prop :=
  cache_ready (fcache s) ∧ 3 * k ≤ Z.of_nat (mem (fcache s)) ∧ dev_size s < 2 ^ 32.

(** [s'] is [s] up to the state of the cache, and shows the same sectors. *)
Record reads (s s' : fs) : Prop := {
  rd_rest : s' = set_fcache (fcache s') s;
  rd_view n : fview s' n = fview s n;
  rd_size : dev_size s' = dev_size s
}.

(** The same, with [f] as the new sectors. *)
Record writes (s : fs) (f : Z → list Z) (s' : fs) : Prop := {
  wr_rest : s' = set_fcache (fcache s') s;
  wr_view n : fview s' n = f n;
  wr_size : dev_size s' = dev_size s
}.

#[export] Instance reads_refl : Reflexive reads.
Proof. intros s. split; [by destruct s|done|done]. Qed.
#[export] Instance reads_trans : Transitive reads.
Proof.
  intros s1 s2 s3 [R1 V1 Z1] [R2 V2 Z2]. split; [by rewrite R2, R1|intros n; by rewrite V2|congruence].
Qed.

Lemma reads_writes s s1 f s2 : reads s s1 → writes s1 f s2 → writes s f s2.
Proof. intros [R1 V1 Z1] [R2 V2 Z2]. split; [by rewrite R2, R1|done|congruence]. Qed.

Lemma writes_reads s s1 f s2 : writes s f s1 → reads s1 s2 → writes s f s2.
Proof. intros [R1 V1 Z1] [R2 V2 Z2]. split; [by rewrite R2, R1|intros n; by rewrite V2|congruence]. Qed.

Lemma writes_trans s f s1 g s2 : writes s f s1 → writes s1 g s2 → writes s g s2.
Proof. intros [R1 V1 Z1] [R2 V2 Z2]. split; [by rewrite R2, R1|done|congruence]. Qed.

Lemma fs_ready_le s k k' : fs_ready s k → k' ≤ k → fs_ready s k'.
Proof. intros (? & ? & ?) ?. split_and!; [done|lia|done]. Qed.

Section FileRules.
Implicit Types s : fs.

Lemma wp_on_cache {A} (c : M cache A) s Q :
  wp c (fcache s) (λ a b, Q a (set_fcache b s)) → wp (on_cache c) s Q.
Proof. unfold wp, on_cache. by destruct (c (fcache s)) as [[a b]|]. Qed.

Lemma fview_length s k n : fs_ready s k → length (fview s n) = 512%nat.
Proof. intros ((Hwf & _) & _). by apply view_length. Qed.

Lemma ready_mem s k : fs_ready s k → 0 < k → ∃ m, mem (fcache s) = S (S (S m)) ∧ 3 * (k - 1) ≤ Z.of_nat m.
Proof.
  intros (_ & Hm & _) Hk. destruct (mem (fcache s)) as [|[|[|m]]]; try lia. exists m. split; [done|lia].
Qed.

Lemma cache_read_spec s k n size offset Q :
  fs_ready s k → 0 < k → n < dev_size s → 0 ≤ offset → 0 ≤ size → offset + size ≤ 512 →
  (∀ s', reads s s' → fs_ready s' (k - 1) → Q (take (Z.to_nat size) (drop (Z.to_nat offset) (fview s n))) s') →
  wp (cache_read n size offset) s Q.
Proof.
  intros Hr Hk Hn Ho Hsz Hos HQ. destruct (ready_mem s k Hr Hk) as (m & Hm & Hmk). pose proof Hr as (Hc & _ & Hd).
  unfold cache_read. rewrite !u32_small by word_lia. apply wp_on_cache.
  eapply wp_mono; [by apply (buffer_cache_read_spec _ m)|]. intros l c (-> & [Hwf V L Hz] & Hm').
  apply HQ; [by split|]. split_and!; [split; [done|simpl; rewrite L; apply Hc]|simpl; lia|].
  unfold dev_size in *. simpl. by rewrite Hz.
Qed.

Lemma cache_write_spec s k n data offset Q :
  fs_ready s k → 0 < k → n < dev_size s → 0 ≤ offset → offset + Z.of_nat (length data) ≤ 512 →
  (∀ s' old, length old = 512%nat →
     writes s (λ m, if bool_decide (m = n) then splice offset data old else fview s m) s' → fs_ready s' (k - 1) → Q tt s') →
  wp (cache_write n data offset) s Q.
Proof.
  intros Hr Hk Hn Ho Hos HQ. destruct (ready_mem s k Hr Hk) as (m & Hm & Hmk). pose proof Hr as (Hc & _ & Hd).
  unfold cache_write. rewrite !u32_small by word_lia. apply wp_on_cache.
  eapply wp_mono; [by apply (buffer_cache_write_spec _ m)|]. intros [] c (Hm' & old & Hlen & _ & [Hwf V L Hz]).
  apply (HQ _ old); [done|by split|]. split_and!; [split; [done|simpl; rewrite L; apply Hc]|simpl; lia|].
  unfold dev_size in *. simpl. by rewrite Hz.
Qed.

(** *** Files whose sectors are all addressed directly *)

(** [d] is the on-disk inode of the open inode at [i]. *)
Record small_file s (i : Z) (d : list Z) : Prop := {
  sf_null : i ≠ NULL;
  sf_room : room s ≠ O;
  sf_inode : ∃ n, inodes s !! i = Some n ∧ sector n < dev_size s ∧ d = fview s (sector n) ∧
               (∀ j, 0 ≤ j → 512 * j < length_ d → direct d j ≠ sector n);
  sf_size : length d = 512%nat;
  sf_len : 0 ≤ length_ d ≤ 512 * DIRECT_SIZE;
  sf_sectors j : 0 ≤ j → 512 * j < length_ d → direct d j < dev_size s;
  sf_inj j j' : 0 ≤ j → 512 * j < length_ d → 0 ≤ j' → 512 * j' < length_ d → direct d j = direct d j' → j = j'
}.

Lemma small_file_reads s s' i d : reads s s' → small_file s i d → small_file s' i d.
Proof.
  intros [R V Z] [? ? (n & Hn & Hs & -> & Hd) ? ? ? ?].
  split; [done|by rewrite R|exists n; rewrite V, Z; split_and!; [by rewrite R|done..]|done..|rewrite Z; done|done].
Qed.

(** A data sector is written: the inode stays. *)
Lemma small_file_writes s s' i d j l :
  0 ≤ j → 512 * j < length_ d → small_file s i d →
  writes s (λ m, if bool_decide (m = direct d j) then l else fview s m) s' → small_file s' i d.
Proof.
  intros Hj Hjl [? ? (n & Hn & Hs & Ed & Hd) ? ? ? ?] [R V Z].
  split; [done|by rewrite R| |done..|rewrite Z; done|done].
  exists n. rewrite Z, V. split_and!; [by rewrite R|done| |done].
  rewrite bool_decide_false; [done|]. intros E. by apply (Hd j Hj Hjl).
Qed.

Lemma read_inode_disk_spec s k i d Q :
  small_file s i d → fs_ready s k → 0 < k →
  (∀ s', reads s s' → fs_ready s' (k - 1) → Q d s') → wp (read_inode_disk i) s Q.
Proof.
  intros [_ Hr (n & Hn & Hs & Ed & _) Hlen _ _ _] Hf Hk HQ. unfold read_inode_disk, with_buffer. wp_steps.
  destruct (room s); [done|]. unfold get_inode. wp_steps. eapply wp_deref; [done|].
  eapply cache_read_spec; [done..|]. intros s' R F. rewrite drop_0, <- Ed, take_ge by (unfold BLOCK_SECTOR_SIZE; lia). by apply HQ.
Qed.

Lemma inode_length_spec s k i d Q :
  small_file s i d → fs_ready s k → 0 < k →
  (∀ s', reads s s' → fs_ready s' (k - 1) → Q (length_ d) s') → wp (inode_length i) s Q.
Proof.
  intros Hd Hf Hk HQ. unfold inode_length. wp_step. eapply read_inode_disk_spec; [done..|].
  intros s' R F. wp_step. by apply HQ.
Qed.

Lemma level_direct j : j < DIRECT_SIZE → determine_level j = DIRECT.
Proof. intros ?. unfold determine_level. by rewrite bool_decide_true. Qed.

Lemma byte_to_sector_spec s k i d p Q :
  small_file s i d → fs_ready s k → 0 < k → 0 ≤ p →
  (∀ s', reads s s' → fs_ready s' (k - 1) →
    Q (if bool_decide (length_ d ≤ p) then NO_SECTOR else direct d (p / 512)) s') →
  wp (byte_to_sector i p) s Q.
Proof.
  intros Hd Hf Hk Hp HQ. unfold byte_to_sector. wp_step. apply wp_ASSERT; [by apply bool_decide_eq_true_2, Hd|].
  wp_step. eapply read_inode_disk_spec; [done..|]. intros s' R F. specialize (HQ s' R F).
  case_bool_decide as Hl; [by wp_step|]. pose proof (sf_len s i d Hd).
  rewrite Z.quot_div_nonneg by (unfold BLOCK_SECTOR_SIZE; lia). unfold BLOCK_SECTOR_SIZE, DIRECT_SIZE in *.
  assert (0 ≤ p / 512 < 122) by (split; [apply Z.div_pos|apply Z.div_lt_upper_bound]; lia).
  rewrite u32_small by word_lia. rewrite level_direct by (unfold DIRECT_SIZE; lia). by wp_step.
Qed.

(** The sectors a transfer touches. *)
Definition touched (offset size : Z) : Z :=
  if bool_decide (size = 0) then 0 else (offset + size - 1) / 512 - offset / 512 + 1.

Lemma touched_nonneg offset size : 0 ≤ offset → 0 ≤ size → 0 ≤ touched offset size.
Proof.
  intros Ho Hs. unfold touched. case_bool_decide; [done|].
  pose proof (Z.div_le_mono offset (offset + size - 1) 512). lia.
Qed.

Lemma chunk_inside len size offset :
  0 ≤ offset → 0 < size → offset + size ≤ len → len < 2 ^ 31 →
  chunk len size offset = size `min` (512 - offset mod 512) ∧ 0 < chunk len size offset.
Proof.
  intros Ho Hs Hl Hlen. unfold chunk, BLOCK_SECTOR_SIZE. rewrite s32_small by word_lia.
  rewrite Z.rem_mod_nonneg by lia. pose proof (Z.mod_pos_bound offset 512). repeat case_match; lia.
Qed.

(** The arithmetic of one iteration. *)
Lemma chunk_step offset size c :
  0 ≤ offset → 0 < size → c = size `min` (512 - offset mod 512) →
  0 ≤ touched (offset + c) (size - c) ∧ touched (offset + c) (size - c) + 1 ≤ touched offset size ∧
  ∀ p, offset ≤ p < offset + c → p / 512 = offset / 512 ∧ p mod 512 = offset mod 512 + (p - offset).
Proof.
  intros Ho Hs ->. unfold touched. rewrite (bool_decide_false (size = 0)) by lia.
  pose proof (Z.mod_pos_bound offset 512 ltac:(lia)). pose proof (Z.div_mod offset 512 ltac:(lia)).
  pose proof (Z.div_mod (offset + size - 1) 512 ltac:(lia)). pose proof (Z.mod_pos_bound (offset + size - 1) 512 ltac:(lia)).
  set (c := size `min` (512 - offset mod 512)).
  pose proof (Z.div_mod (offset + c) 512 ltac:(lia)). pose proof (Z.mod_pos_bound (offset + c) 512 ltac:(lia)).
  split_and!.
  - case_bool_decide; [done|]. replace (offset + c + (size - c) - 1) with (offset + size - 1) by lia. lia.
  - case_bool_decide; [lia|]. replace (offset + c + (size - c) - 1) with (offset + size - 1) by lia. lia.
  - intros p Hp. pose proof (Z.div_mod p 512 ltac:(lia)). pose proof (Z.mod_pos_bound p 512 ltac:(lia)). lia.
Qed.

(** The byte at position [p] of the file. *)
Definition file_byte s (d : list Z) (p : Z) : option Z := fview s (direct d (p / 512)) !! Z.to_nat (p mod 512).

Lemma file_byte_reads s s' d p : reads s s' → file_byte s' d p = file_byte s d p.
Proof. intros R. unfold file_byte. by rewrite (rd_view _ _ R). Qed.

(** The bytes of one chunk. *)
Lemma take_drop_lookup (l : list Z) (o c j : nat) : (j < c)%nat → take c (drop o l) !! j = l !! (o + j)%nat.
Proof. intros Hj. by rewrite lookup_take_lt, lookup_drop by lia. Qed.

Lemma read_loop_spec fuel s k i d size offset n buf Q :
  small_file s i d → fs_ready s k → 3 * touched offset size ≤ k →
  0 ≤ offset → 0 ≤ size → offset + size ≤ length_ d → size < Z.of_nat fuel →
  (∀ data s', reads s s' → fs_ready s' (k - 3 * touched offset size) → Z.of_nat (length data) = size →
     (∀ j, 0 ≤ j < size → data !! Z.to_nat j = file_byte s d (offset + j)) → Q (n + size, buf ++ data) s') →
  wp (read_loop fuel i size offset n buf) s Q.
Proof.
  revert s k size offset n buf Q. induction fuel as [|fuel IH]; intros s k size offset n buf Q Hd Hf Hk Ho Hs Hl Hfu HQ; [lia|].
  simpl read_loop. pose proof (sf_len s i d Hd). unfold DIRECT_SIZE in *. case_bool_decide as H0.
  2: { assert (size = 0) as -> by lia. wp_step. specialize (HQ [] s). rewrite app_nil_r, Z.add_0_r in HQ.
       apply HQ; [done| |done|lia]. unfold touched. by rewrite bool_decide_true, Z.sub_0_r. }
  destruct (chunk_inside (length_ d) size offset) as [Ec Hc]; [lia..|].
  destruct (chunk_step offset size (chunk (length_ d) size offset)) as (Ht0 & Ht & Hp); [lia..|].
  set (c := chunk (length_ d) size offset) in *. pose proof (Z.mod_pos_bound offset 512 ltac:(lia)).
  wp_step. eapply byte_to_sector_spec; [done|done|lia|lia|]. intros s1 R1 F1. rewrite bool_decide_false by lia.
  wp_step. eapply inode_length_spec; [by eapply small_file_reads|done|lia|]. intros s2 R2 F2. fold c.
  rewrite bool_decide_false by lia. wp_step. assert (reads s s2) as R by by trans s1.
  pose proof (Z.mul_div_le offset 512 ltac:(lia)).
  eapply cache_read_spec; [exact F2|lia| |rewrite Z.rem_mod_nonneg by (unfold BLOCK_SECTOR_SIZE; lia); unfold BLOCK_SECTOR_SIZE; lia|lia|
    rewrite Z.rem_mod_nonneg by (unfold BLOCK_SECTOR_SIZE; lia); unfold BLOCK_SECTOR_SIZE; lia|].
  { rewrite (rd_size _ _ R). apply (sf_sectors s i d Hd); [apply Z.div_pos; lia|lia]. }
  intros s3 R3 F3. rewrite s32_small by word_lia. rewrite Z.rem_mod_nonneg by (unfold BLOCK_SECTOR_SIZE; lia). unfold BLOCK_SECTOR_SIZE.
  assert (reads s s3) as R' by by trans s2. rewrite (rd_view _ _ R).
  set (l := take (Z.to_nat c) (drop (Z.to_nat (offset mod 512)) (fview s (direct d (offset / 512))))).
  assert (Z.of_nat (length l) = c) as Hlen.
  { unfold l. rewrite length_take, length_drop, (fview_length s k) by done. lia. }
  eapply (IH s3 (k - 1 - 1 - 1)); [by eapply small_file_reads|done|lia|lia|lia|lia|lia|].
  intros data s4 R4 F4 Hdl Hdata. rewrite <- app_assoc. replace (n + c + (size - c)) with (n + size) by lia.
  apply HQ; [by trans s3|eapply fs_ready_le; [exact F4|lia]|rewrite length_app; lia|].
  intros j Hj. destruct (decide (j < c)) as [Hjc|Hjc].
  - rewrite lookup_app_l by lia. unfold l. rewrite take_drop_lookup by lia. destruct (Hp (offset + j)) as [E1 E2]; [lia|].
    unfold file_byte. rewrite E1, E2. f_equal. lia.
  - rewrite lookup_app_r by lia. replace (Z.to_nat j - length l)%nat with (Z.to_nat (j - c)) by lia.
    rewrite Hdata by lia. rewrite (file_byte_reads s s3) by done. f_equal. lia.
Qed.

(** *** Writes *)

Lemma splice_lookup_mid (o : Z) (data l : list Z) (j : nat) :
  0 ≤ o → (Z.to_nat o ≤ length l)%nat → (j < length data)%nat → splice o data l !! (Z.to_nat o + j)%nat = data !! j.
Proof.
  intros Ho Hl Hj. unfold splice. rewrite lookup_app_r by (rewrite length_take; lia).
  rewrite length_take, lookup_app_l by lia. f_equal. lia.
Qed.

(** [s'] is [s] after the bytes of [buffer] from [n] on were written to the
    positions from [offset] on: they are there, and no other sector changed. *)
Record transferred s (d buffer : list Z) (n offset size : Z) (s' : fs) : Prop := {
  tr_rest : s' = set_fcache (fcache s') s;
  tr_size : dev_size s' = dev_size s;
  tr_bytes p : offset ≤ p < offset + size → file_byte s' d p = buffer !! Z.to_nat (n + (p - offset));
  tr_frame m : (∀ p, offset ≤ p < offset + size → direct d (p / 512) ≠ m) → fview s' m = fview s m
}.

Lemma transferred_nil s d buffer n offset : transferred s d buffer n offset 0 s.
Proof. split; [by destruct s|done|lia|done]. Qed.

(** One chunk written, then the rest. *)
Lemma transferred_step s s1 s2 i d buffer n offset size c old :
  small_file s i d → 0 ≤ offset → 0 < size → offset + size ≤ length_ d → length old = 512%nat → 0 ≤ n →
  n + size ≤ Z.of_nat (length buffer) → c = size `min` (512 - offset mod 512) →
  writes s (λ m, if bool_decide (m = direct d (offset / 512))
                 then splice (offset mod 512) (take (Z.to_nat c) (drop (Z.to_nat n) buffer)) old else fview s m) s1 →
  transferred s1 d buffer (n + c) (offset + c) (size - c) s2 →
  transferred s d buffer n offset size s2.
Proof.
  intros Hd Ho Hs Hl Hold Hn Hbuf Hc [R1 V1 Z1] [R2 Z2 B2 F2].
  destruct (chunk_step offset size c Ho Hs Hc) as (_ & _ & Hp).
  pose proof (Z.mod_pos_bound offset 512 ltac:(lia)). pose proof (Z.div_mod offset 512 ltac:(lia)).
  split; [by rewrite R2, R1|congruence| |].
  - intros p Hr. destruct (decide (p < offset + c)) as [Hpc|Hpc].
    + destruct (Hp p ltac:(lia)) as [E1 E2]. unfold file_byte. rewrite E1, E2, F2.
      * rewrite V1, bool_decide_true by done. rewrite Z2Nat.inj_add by lia.
        rewrite splice_lookup_mid; [|lia|lia|rewrite length_take, length_drop; lia].
        rewrite take_drop_lookup by lia. f_equal. lia.
      * intros q Hq E. pose proof (Z.div_mod q 512 ltac:(lia)). pose proof (Z.mod_pos_bound q 512 ltac:(lia)).
        apply (sf_inj s i d Hd) in E; [|apply Z.div_pos; lia|lia|apply Z.div_pos; lia|lia]. lia.
    + rewrite B2 by lia. f_equal. lia.
  - intros m Hm. rewrite F2 by (intros p Hr; apply Hm; lia). rewrite V1. rewrite bool_decide_false; [done|].
    intros ->. apply (Hm offset); [lia|done].
Qed.

Lemma write_loop_spec fuel s k i d buffer size offset n Q :
  small_file s i d → fs_ready s k → 3 * touched offset size ≤ k →
  0 ≤ offset → 0 ≤ size → offset + size ≤ length_ d → size < Z.of_nat fuel → 0 ≤ n → n + size ≤ Z.of_nat (length buffer) →
  (∀ s', transferred s d buffer n offset size s' → small_file s' i d → fs_ready s' (k - 3 * touched offset size) → Q (n + size) s') →
  wp (write_loop fuel i buffer size offset n) s Q.
Proof.
  revert s k size offset n Q. induction fuel as [|fuel IH]; intros s k size offset n Q Hd Hf Hk Ho Hs Hl Hfu Hn Hbuf HQ; [lia|].
  simpl write_loop. pose proof (sf_len s i d Hd). unfold DIRECT_SIZE in *. case_bool_decide as H0.
  2: { assert (size = 0) as -> by lia. wp_step. rewrite Z.add_0_r in HQ. apply HQ; [apply transferred_nil|done|].
       unfold touched. by rewrite bool_decide_true, Z.sub_0_r. }
  destruct (chunk_inside (length_ d) size offset) as [Ec Hc]; [lia..|].
  destruct (chunk_step offset size (chunk (length_ d) size offset)) as (Ht0 & Ht & Hp); [lia..|].
  set (c := chunk (length_ d) size offset) in *. pose proof (Z.mod_pos_bound offset 512 ltac:(lia)).
  wp_step. eapply byte_to_sector_spec; [done|done|lia|lia|]. intros s1 R1 F1. rewrite bool_decide_false by lia.
  wp_step. eapply inode_length_spec; [by eapply small_file_reads|done|lia|]. intros s2 R2 F2. fold c.
  rewrite bool_decide_false by lia. wp_step. assert (reads s s2) as R by by trans s1.
  pose proof (Z.mul_div_le offset 512 ltac:(lia)). pose proof (Z.div_pos offset 512 ltac:(lia) ltac:(lia)).
  rewrite Z.rem_mod_nonneg by (unfold BLOCK_SECTOR_SIZE; lia). unfold BLOCK_SECTOR_SIZE.
  eapply cache_write_spec; [exact F2|lia| |lia|rewrite length_take, length_drop; lia|].
  { rewrite (rd_size _ _ R). by apply (sf_sectors s i d Hd); [|lia]. }
  intros s3 old Hold W3 F3. rewrite s32_small by word_lia.
  assert (writes s (λ m, if bool_decide (m = direct d (offset / 512))
    then splice (offset mod 512) (take (Z.to_nat c) (drop (Z.to_nat n) buffer)) old else fview s m) s3) as W.
  { destruct (reads_writes _ _ _ _ R W3) as [? V ?]. split; [done| |done]. intros m. rewrite V. by rewrite (rd_view _ _ R). }
  eapply (IH s3 (k - 1 - 1 - 1)); [by eapply (small_file_writes s s3 i d (offset / 512)); [lia|lia|..]|done|lia|lia|lia|lia|lia|lia|lia|].
  intros s4 T4 D4 F4. replace (n + c + (size - c)) with (n + size) by lia.
  apply HQ; [by eapply (transferred_step s s3 s4 i d buffer n offset size c old)|done|eapply fs_ready_le; [exact F4|lia]].
Qed.

(** *** The entry points *)

Lemma direct_valid s k i d j :
  small_file s i d → fs_ready s k → 0 ≤ j → 512 * j < length_ d → direct d j ≠ NO_SECTOR.
Proof. intros Hd (_ & _ & Hz) H0 Hj. pose proof (sf_sectors s i d Hd j H0 Hj). unfold NO_SECTOR. lia. Qed.

Lemma inode_read_at_spec s k i d size offset Q :
  small_file s i d → fs_ready s k → 1 + 3 * touched offset size ≤ k → 0 ≤ offset → 0 < size → offset + size ≤ length_ d →
  (∀ data s', reads s s' → fs_ready s' (k - 1 - 3 * touched offset size) → Z.of_nat (length data) = size →
     (∀ j, 0 ≤ j < size → data !! Z.to_nat j = file_byte s d (offset + j)) → Q (size, data) s') →
  wp (inode_read_at i size offset) s Q.
Proof.
  intros Hd Hf Hk Ho Hs Hl HQ. pose proof (sf_len s i d Hd). unfold DIRECT_SIZE in *. unfold inode_read_at.
  rewrite u32_small, s32_small by word_lia. wp_step.
  pose proof (touched_nonneg offset size Ho ltac:(lia)).
  eapply byte_to_sector_spec; [done|done|lia|lia|]. intros s1 R1 F1. rewrite (bool_decide_false (_ ≤ _)) by lia.
  pose proof (Z.mul_div_le (offset + size - 1) 512 ltac:(lia)).
  rewrite bool_decide_false by (eapply (direct_valid s); [done|done|apply Z.div_pos; lia|lia]).
  eapply (read_loop_spec _ s1 (k - 1)); [by eapply small_file_reads|done|lia|lia|lia|lia|lia|].
  intros data s' R F Hlen Hdata. apply HQ; [by trans s1|done|done|]. intros j Hj. rewrite Hdata by done. by apply file_byte_reads.
Qed.

(** A request that passes the end of the file reads nothing. *)
Lemma inode_read_at_eof s k i d size offset Q :
  small_file s i d → fs_ready s k → 0 < k → 0 ≤ offset → 0 < size → length_ d < offset + size < 2 ^ 31 →
  (∀ s', reads s s' → fs_ready s' (k - 1) → Q (0, []) s') → wp (inode_read_at i size offset) s Q.
Proof.
  intros Hd Hf Hk Ho Hs Hl HQ. unfold inode_read_at. rewrite u32_small, s32_small by word_lia. wp_step.
  eapply byte_to_sector_spec; [done|done|lia|lia|]. intros s1 R1 F1. rewrite (bool_decide_true (_ ≤ _)) by lia.
  rewrite bool_decide_true by done. wp_step. by apply HQ.
Qed.

(** Extending to the present length allocates nothing. *)
Lemma inode_extend_same write_at s d Q :
  0 ≤ length_ d ≤ 512 * DIRECT_SIZE → Q (true, set_length (length_ d) d) s → wp (inode_extend write_at d (length_ d)) s Q.
Proof.
  intros Hl HQ. unfold DIRECT_SIZE in *. unfold inode_extend, FS_LIMIT. rewrite u32_small, s32_small by word_lia.
  rewrite !bool_decide_false by lia. rewrite Z.sub_diag. simpl. by wp_steps.
Qed.

Lemma inode_write_at_spec s k i n d buffer size offset Q :
  small_file s i d → inodes s !! i = Some n → deny_write_cnt n = 0 → fs_ready s k → 2 + 3 * touched offset size ≤ k →
  0 ≤ offset → 0 < size → offset + size ≤ length_ d → size ≤ Z.of_nat (length buffer) →
  (∀ s', transferred s d buffer 0 offset size s' → small_file s' i d → fs_ready s' (k - 2 - 3 * touched offset size) → Q size s') →
  wp (inode_write_at i buffer size offset) s Q.
Proof.
  intros Hd Hn Hdeny Hf Hk Ho Hs Hl Hbuf HQ. pose proof (sf_len s i d Hd). unfold DIRECT_SIZE in *.
  pose proof (touched_nonneg offset size Ho ltac:(lia)).
  unfold inode_write_at, write_depth. simpl write_at_fuel. unfold inode_write_at_with at 1, get_inode. wp_steps.
  eapply wp_deref; [done|]. rewrite Hdeny. simpl. rewrite u32_small, s32_small by word_lia. wp_step.
  eapply byte_to_sector_spec; [done|done|lia|lia|]. intros s1 R1 F1.
  assert (∀ s2, reads s s2 → fs_ready s2 (k - 2) → wp (write_loop (S (Z.to_nat size)) i buffer size offset 0) s2 Q) as Hloop.
  { intros s2 R2 F2. eapply (write_loop_spec _ s2 (k - 2)); [by eapply small_file_reads|done|lia..|].
    intros s' [R Z B F] D' F'. apply HQ; [|done|done].
    split; [by rewrite R, (rd_rest _ _ R2)|by rewrite Z, (rd_size _ _ R2)|done|]. intros m Hm. by rewrite F, (rd_view _ _ R2). }
  wp_step. destruct (decide (offset + size = length_ d)) as [E|E].
  - rewrite (bool_decide_true (_ ≤ _)) by lia. rewrite bool_decide_true by done. wp_step.
    eapply read_inode_disk_spec; [by eapply small_file_reads|done|lia|]. intros s2 R2 F2. wp_step. rewrite E.
    apply inode_extend_same; [done|]. wp_step. apply Hloop; [by trans s1|eapply fs_ready_le; [exact F2|lia]].
  - rewrite (bool_decide_false (_ ≤ _)) by lia. pose proof (Z.mul_div_le (offset + size) 512 ltac:(lia)).
    rewrite bool_decide_false by (eapply (direct_valid s); [done|done|apply Z.div_pos; lia|lia]). wp_step.
    apply Hloop; [done|eapply fs_ready_le; [exact F1|lia]].
Qed.

End FileRules.

Lemma le_zeros c : le (replicate c 0) = 0.
Proof. induction c as [|c IH]; simpl; [done|]. by rewrite IH. Qed.

(** ** Claims *)

(** reads inside a file are exact.  On an open file of directly addressed
    sectors, [inode_read_at] of a range inside the file returns as many bytes
    as asked for, each the byte the file holds at that position, and changes
    no sector.  A request that passes the end of the file by even one byte
    returns 0 bytes, although the comment of the function promises the bytes
    up to the end. *)
Theorem inode_read_exact s k i d size offset :
  small_file s i d → fs_ready s k → 1 + 3 * touched offset size ≤ k → 0 < k → 0 ≤ offset → 0 < size →
  offset + size < 2 ^ 31 →
  ∃ n data s', inode_read_at i size offset s = Ret ((n, data), s') ∧ (∀ m, fview s' m = fview s m) ∧
    (offset + size ≤ length_ d →
       n = size ∧ Z.of_nat (length data) = size ∧
       ∀ j, 0 ≤ j < size → data !! Z.to_nat j = file_byte s d (offset + j)) ∧
    (length_ d < offset + size → n = 0).
Proof.
  intros Hd Hf Hk Hk0 Ho Hs Hb.
  assert (wp (inode_read_at i size offset) s (λ r s', (∀ m, fview s' m = fview s m) ∧
    (offset + size ≤ length_ d → fst r = size ∧ Z.of_nat (length (snd r)) = size ∧
       ∀ j, 0 ≤ j < size → snd r !! Z.to_nat j = file_byte s d (offset + j)) ∧
    (length_ d < offset + size → fst r = 0))) as Hw.
  { destruct (decide (offset + size ≤ length_ d)) as [Hl|Hl].
    - eapply (inode_read_at_spec s k i d size offset); [done..|]. intros data s' R F Hlen Hdata.
      split_and!; [apply R|done|simpl; lia].
    - eapply (inode_read_at_eof s k i d size offset); [done..|lia|]. intros s' R F. split_and!; [apply R|lia|done]. }
  apply wp_outcome in Hw as ([n data] & s' & E & Hv & H1 & H2). by exists n, data, s'.
Qed.

(** C10: what is written to a file can be read back.  On an open, writable file
    of directly addressed sectors, [inode_write_at] of a range inside the file
    writes all of it, changes no sector but the data sectors of the range, and
    a following [inode_read_at] of the range returns exactly the data. *)
Theorem inode_write_read s k i n d data offset :
  small_file s i d → inodes s !! i = Some n → deny_write_cnt n = 0 →
  let size := Z.of_nat (length data) in
  fs_ready s k → 3 + 6 * touched offset size ≤ k → 0 ≤ offset → 0 < size → offset + size ≤ length_ d →
  ∃ s' s'', inode_write_at i data size offset s = Ret (size, s') ∧
    (∀ m, (∀ p, offset ≤ p < offset + size → direct d (p / 512) ≠ m) → fview s' m = fview s m) ∧
    inode_read_at i size offset s' = Ret ((size, data), s'').
Proof.
  intros Hd Hn Hdeny size Hf Hk Ho Hs Hl.
  assert (wp (inode_write_at i data size offset) s (λ r s', r = size ∧ transferred s d data 0 offset size s' ∧
    small_file s' i d ∧ fs_ready s' (k - 2 - 3 * touched offset size))) as Hw.
  { pose proof (touched_nonneg offset size Ho ltac:(lia)).
    eapply (inode_write_at_spec s k i n d); [done|done|done|done|lia|done|done|done|done|]. done. }
  apply wp_outcome in Hw as (r & s' & E & -> & T & D' & F').
  assert (wp (inode_read_at i size offset) s' (λ r _, r = (size, data))) as Hw.
  { eapply (inode_read_at_spec s' _ i d size offset); [done|exact F'|lia|done|done|done|].
    intros l s'' _ _ Hlen Hl'. f_equal. apply list_eq_same_length with (length data); [done|lia|].
    intros j x y Hj Hx Hy. specialize (Hl' (Z.of_nat j) ltac:(lia)). rewrite Nat2Z.id in Hl'.
    rewrite (tr_bytes _ _ _ _ _ _ _ T) in Hl' by lia.
    replace (Z.to_nat (0 + (offset + Z.of_nat j - offset))) with j in Hl' by lia. congruence. }
  apply wp_outcome in Hw as (r & s'' & E' & ->). exists s', s''. split_and!; [done|apply T|done].
Qed.

(** the sectors beyond the 122 direct ones are not addressed correctly.
    For sector [122 + j] of a file, [byte_to_sector] reads the pointer at byte
    offset [j] of the indirect block, where the [j]-th pointer is at [4 * j],
    and [inode_extend] never stores a pointer there: with the block zeroed, as
    [inode_allocate] leaves it, every such sector is sector 0, the inode of
    the free map. *)
Theorem indirect_sectors_alias_free_map s k i n d j :
  i ≠ NULL → room s ≠ O → inodes s !! i = Some n → d = fview s (sector n) → sector n < dev_size s →
  0 ≤ j < INDIRECT_SIZE → 512 * (DIRECT_SIZE + j) < length_ d → 0 ≤ singly_indirect d < dev_size s →
  fs_ready s k → 1 < k →
  ∃ s', byte_to_sector i (512 * (DIRECT_SIZE + j)) s =
      Ret (le (take 4 (drop (Z.to_nat j) (fview s (singly_indirect d)))), s') ∧
    (fview s (singly_indirect d) = sector_zero →
       le (take 4 (drop (Z.to_nat j) (fview s (singly_indirect d)))) = FREE_MAP_SECTOR).
Proof.
  intros Hi Hr Hn Ed Hs Hj Hl Hd Hf Hk. unfold INDIRECT_SIZE, DIRECT_SIZE in *.
  assert (wp (byte_to_sector i (512 * (122 + j))) s
    (λ r _, r = le (take 4 (drop (Z.to_nat j) (fview s (singly_indirect d)))))) as Hw.
  { unfold byte_to_sector. wp_step. apply wp_ASSERT; [by apply bool_decide_eq_true_2|]. wp_step.
    unfold read_inode_disk, with_buffer. wp_steps. destruct (room s); [done|]. unfold get_inode. wp_steps. eapply wp_deref; [done|].
    eapply cache_read_spec; [done|lia|done|done|done|done|]. intros s1 R1 F1. pose proof (fview_length s k (sector n) Hf).
    rewrite drop_0, take_ge, <- Ed by (unfold BLOCK_SECTOR_SIZE; lia). rewrite bool_decide_false by lia.
    unfold BLOCK_SECTOR_SIZE. rewrite Z.quot_div_nonneg, Z.mul_comm, Z.div_mul by lia. rewrite u32_small by word_lia.
    unfold determine_level, DIRECT_SIZE, INDIRECT_SIZE. rewrite bool_decide_false, bool_decide_true by lia.
    unfold read_ptr. wp_step. eapply cache_read_spec; [exact F1|lia|rewrite (rd_size _ _ R1); lia|lia|done|lia|].
    intros s2 R2 F2. wp_step. rewrite (rd_view _ _ R1). by replace (122 + j - 122) with j by lia. }
  apply wp_outcome in Hw as (r & s' & E & ->). exists s'. split; [done|]. intros ->.
  unfold sector_zero. rewrite drop_replicate, take_replicate. apply le_zeros.
Qed.

(** ** A concrete file *)

(** A device whose sector 2 is the inode of a file of 600 bytes in the sectors
    10 and 11, and the same with a length of 70000 and an indirect block at 12. *)
Definition sample_inode_disk (len : Z) : list Z :=
  set_magic INODE_MAGIC (set_length len (set_singly 12 (set_direct 1 11 (set_direct 0 10 sector_zero)))).
Definition sample_fs (len : Z) : fs :=
  mk_fs (fresh_cache (mk_block "hda1" BLOCK_FILESYS 100 0 0
           {[2 := sample_inode_disk len; 10 := replicate 512 1; 11 := replicate 512 2]})
          10000 (replicate 64 (replicate 512 0)))
    (mk_bitmap 100 [0; 0; 0; 0]) NULL {[64 := mk_inode 2 1 false 0]} [64] ∅ ∅ 128 100.

Lemma sample_fs_ready len k : length (sample_inode_disk len) = 512%nat → 3 * k ≤ 10000 → fs_ready (sample_fs len) k.
Proof.
  intros Hl Hk. split_and!; [|exact Hk|done]. apply fresh_cache_ready; [|done|by apply Forall_replicate].
  split; [done|]. intros n l. cbn [contents]. rewrite !lookup_insert_Some, lookup_singleton_Some. naive_solver.
Qed.

Lemma sample_small_file : small_file (sample_fs 600) 64 (sample_inode_disk 600).
Proof.
  assert (length_ (sample_inode_disk 600) = 600) as El by by vm_compute.
  assert (direct (sample_inode_disk 600) 0 = 10 ∧ direct (sample_inode_disk 600) 1 = 11) as [E0 E1] by by vm_compute.
  assert (∀ j, 0 ≤ j → 512 * j < 600 → j = 0 ∨ j = 1) as Hj by lia.
  split; rewrite ?El; [done|done| |by vm_compute|done| |].
  - eexists. split_and!; [done|done|by vm_compute|]. intros j H0 H1. destruct (Hj j H0 H1) as [->| ->]; rewrite ?E0, ?E1; done.
  - intros j H0 H1. destruct (Hj j H0 H1) as [->| ->]; rewrite ?E0, ?E1; done.
  - intros j j' H0 H1 H0' H1'. destruct (Hj j H0 H1) as [->| ->], (Hj j' H0' H1') as [->| ->]; rewrite ?E0, ?E1; done.
Qed.

Lemma inode_read_exact_witness :
  ∃ data s', inode_read_at 64 4 510 (sample_fs 600) = Ret ((4, data), s') ∧ Z.of_nat (length data) = 4.
Proof.
  destruct (inode_read_exact (sample_fs 600) 20 64 (sample_inode_disk 600) 4 510) as (n & data & s' & E & _ & H & _).
  - exact sample_small_file.
  - by apply sample_fs_ready; [vm_compute|].
  - by vm_compute.
  - done.
  - done.
  - done.
  - done.
  - destruct H as (-> & Hl & _); [by vm_compute|]. exists data, s'. split; [exact E|exact Hl].
Defined.

Lemma inode_write_read_witness :
  ∃ s' s'', inode_write_at 64 [7; 8; 9] 3 511 (sample_fs 600) = Ret (3, s') ∧
    inode_read_at 64 3 511 s' = Ret ((3, [7; 8; 9]), s'').
Proof.
  destruct (inode_write_read (sample_fs 600) 30 64 (mk_inode 2 1 false 0) (sample_inode_disk 600) [7; 8; 9] 511)
    as (s' & s'' & E1 & _ & E2).
  - exact sample_small_file.
  - done.
  - done.
  - by apply sample_fs_ready; [vm_compute|].
  - by vm_compute.
  - done.
  - done.
  - by vm_compute.
  - exists s', s''. split; [exact E1|exact E2].
Defined.

Lemma indirect_sectors_alias_free_map_witness :
  ∃ s', byte_to_sector 64 (512 * 127) (sample_fs 70000) = Ret (FREE_MAP_SECTOR, s').
Proof.
  destruct (indirect_sectors_alias_free_map (sample_fs 70000) 20 64 (mk_inode 2 1 false 0) (sample_inode_disk 70000) 5)
    as (s' & E & H).
  - done.
  - done.
  - done.
  - by vm_compute.
  - done.
  - done.
  - by vm_compute.
  - by vm_compute.
  - by apply sample_fs_ready; [vm_compute|].
  - done.
  - exists s'. rewrite H in E by (by vm_compute). exact E.
Defined.
