(* ===== verification/Directory.v ===== *)
(** * Directories and the file system's entry points
      (filesys/directory.c, filesys/filesys.c)

    A directory is a file of 20-byte entries.  Names and paths are lists of
    character codes without their terminator; an entry is its 20 bytes, and a
    read that comes back short leaves the rest of the entry in memory as it
    was.  The loops over the entries have fuel; where a loop of the source
    does not end, its model runs out of every fuel. *)

From S2P Require Import Prelude Bitmap Block Cache Inode.
Local Open Scope Z_scope.

(** ** Data *)

Definition NAME_MAX : Z := 14.

(** [struct dir_entry]: [inode_sector], [name[15]] and [in_use] in 20 bytes. *)
Definition entry_size : Z := 20.
Definition inode_sector (e : list Z) : Z := get_word e 0.
(** The characters of an array up to the first null. *)
Fixpoint cstring (l : list Z) : list Z :=
  match l with [] => [] | c :: r => if bool_decide (c = 0) then [] else c :: cstring r end.
Definition entry_name (e : list Z) : list Z := cstring (drop 4 e).
Definition in_use (e : list Z) : bool := bool_decide (e !! 19%nat ≠ Some 0).

Definition set_in_use (b : bool) (e : list Z) : list Z := <[19%nat := if b then 1 else 0]> e.
Definition set_inode_sector (n : Z) (e : list Z) : list Z := set_word 0 n e.
(** [strlcpy (e.name, name, sizeof e.name)] *)
Definition set_name (name : list Z) (e : list Z) : list Z := splice 4 (take 14 name ++ [0]) e.
(** An entry on the stack before it is read. *)
Definition fresh_entry : list Z := replicate 20 0.

Definition get_dir (d : Z) : M fs dir := s ← get_state; deref (dirs s !! d).
Definition put_dir (d : Z) (v : dir) : M fs unit := modify (λ s, set_dirs (<[d := v]> (dirs s)) s).

(** [inode_read_at (inode, &e, sizeof e, ofs)]: the count and the new entry. *)
Definition read_entry (i : Z) (e : list Z) (ofs : Z) : M fs (Z * list Z) :=
  '(n, data) ← inode_read_at i entry_size ofs; ret (n, splice 0 data e).

(** Iterations that are enough for the entries of the directory. *)
Definition dir_fuel (i : Z) : M fs nat :=
  gets (λ s, match inodes s !! i with
             | Some n => S (Z.to_nat (length_ (view (fcache s) (sector n)) / entry_size))
             | None => O
             end).

(** ** directory.c *)

Definition dir_open (i : Z) : M fs Z :=
  d ← alloc_obj;
  if bool_decide (i ≠ NULL) && bool_decide (d ≠ NULL) then put_dir d (mk_dir i 0);; ret d
  else
    inode_close i;;
    (if bool_decide (d ≠ NULL) then free_obj else ret tt);;
    ret NULL.

Definition dir_open_root : M fs Z := i ← inode_open ROOT_DIR_SECTOR; dir_open i.

Definition dir_reopen (d : Z) : M fs Z := v ← get_dir d; i ← inode_reopen (dir_inode v); dir_open i.

Definition dir_close (d : Z) : M fs unit :=
  if bool_decide (d ≠ NULL) then
    v ← get_dir d;
    inode_close (dir_inode v);;
    modify (λ s, set_dirs (delete d (dirs s)) s);;
    free_obj
  else ret tt.

Definition dir_get_inode (d : Z) : M fs Z := v ← get_dir d; ret (dir_inode v).

(** The loop of [lookup]: the entry found and its offset. *)
Fixpoint lookup_loop (fuel : nat) (i : Z) (name e : list Z) (ofs : Z) : M fs (option (list Z * Z)) :=
  match fuel with
  | O => fail OutOfFuel
  | S fuel =>
      '(n, e) ← read_entry i e ofs;
      if bool_decide (n = entry_size) then
        if in_use e && bool_decide (name = entry_name e) then ret (Some (e, ofs))
        else lookup_loop fuel i name e (ofs + entry_size)
      else ret None
  end.
Definition lookup (d : Z) (name : list Z) : M fs (option (list Z * Z)) :=
  ASSERT (bool_decide (d ≠ NULL));;
  v ← get_dir d;
  fuel ← dir_fuel (dir_inode v);
  lookup_loop fuel (dir_inode v) name fresh_entry 0.

(** [*inode] after the call; the return value tells whether it is not null. *)
Definition dir_lookup (d : Z) (name : list Z) : M fs Z :=
  r ← lookup d name;
  match r with Some (e, _) => inode_open (inode_sector e) | None => ret NULL end.

(** The search for a free slot: its offset, and the entry in memory. *)
Fixpoint free_slot_loop (fuel : nat) (i : Z) (e : list Z) (ofs : Z) : M fs (list Z * Z) :=
  match fuel with
  | O => fail OutOfFuel
  | S fuel =>
      '(n, e) ← read_entry i e ofs;
      if bool_decide (n = entry_size) then
        if negb (in_use e) then ret (e, ofs) else free_slot_loop fuel i e (ofs + entry_size)
      else ret (e, ofs)
  end.
Definition dir_add (d : Z) (name : list Z) (sec : Z) : M fs bool :=
  ASSERT (bool_decide (d ≠ NULL));;
  if bool_decide (name = []) || bool_decide (NAME_MAX < Z.of_nat (length name)) then ret false
  else
    r ← lookup d name;
    match r with
    | Some _ => ret false
    | None =>
        v ← get_dir d;
        fuel ← dir_fuel (dir_inode v);
        '(e, ofs) ← free_slot_loop fuel (dir_inode v) fresh_entry 0;
        let e := set_inode_sector sec (set_name name (set_in_use true e)) in
        n ← inode_write_at (dir_inode v) e entry_size ofs;
        ret (bool_decide (n = entry_size))
    end.

Definition dir_remove (d : Z) (name : list Z) : M fs bool :=
  ASSERT (bool_decide (d ≠ NULL));;
  r ← lookup d name;
  match r with
  | None => ret false
  | Some (e, ofs) =>
      i ← inode_open (inode_sector e);
      if bool_decide (i = NULL) then ret false
      else
        v ← get_dir d;
        n ← inode_write_at (dir_inode v) (set_in_use false e) entry_size ofs;
        if bool_decide (n = entry_size) then inode_remove i;; inode_close i;; ret true
        else inode_close i;; ret false
  end.

(** [strcmp (e.name, ".") || strcmp (e.name, "..")] *)
Definition skip_entry (e : list Z) : bool :=
  bool_decide (entry_name e ≠ [46]) || bool_decide (entry_name e ≠ [46; 46]).

(** The flag and the name [dir_readdir] stores. *)
Fixpoint readdir_loop (fuel : nat) (d : Z) (e : list Z) : M fs (bool * list Z) :=
  match fuel with
  | O => fail OutOfFuel
  | S fuel =>
      v ← get_dir d;
      '(n, e) ← read_entry (dir_inode v) e (dir_pos v);
      if bool_decide (n = entry_size) then
        if skip_entry e then readdir_loop fuel d e
        else
          put_dir d (mk_dir (dir_inode v) (dir_pos v + entry_size));;
          if in_use e then put_dir d (mk_dir (dir_inode v) 0);; ret (true, entry_name e)
          else readdir_loop fuel d e
      else put_dir d (mk_dir (dir_inode v) 0);; ret (false, [])
  end.
Definition dir_readdir (fuel : nat) (d : Z) : M fs (bool * list Z) := readdir_loop fuel d fresh_entry.

Definition dir_create (sec entry_cnt parent : Z) : M fs bool :=
  success ← inode_create sec (s32 (u32 (entry_cnt * entry_size)));
  (if success : bool then
     node ← inode_open sec;
     ASSERT (bool_decide (node ≠ NULL));;
     d ← dir_open node;
     ASSERT (bool_decide (d ≠ NULL));;
     b ← dir_add d [46; 46] parent;
     ASSERT b;;
     b ← dir_add d [46] sec;
     ASSERT b;;
     dir_close d
   else ret tt);;
  ret success.

(** ** filesys.c *)

(** [get_next_part]: 1 with the part and the rest of the path, 0 at the end,
    -1 when the part is too long. *)
Inductive next_part := PartEnd | PartTooLong | Part (name rest : list Z).
Fixpoint skip_slashes (src : list Z) : list Z :=
  match src with c :: r => if bool_decide (c = 47) then skip_slashes r else src | [] => [] end.
(** The second loop: [n] characters are in [part] already. *)
Fixpoint copy_part (src part : list Z) : next_part :=
  match src with
  | [] => Part part []
  | c :: r =>
      if bool_decide (c = 47) then Part part src
      else if bool_decide (Z.of_nat (length part) < NAME_MAX) then copy_part r (part ++ [c]) else PartTooLong
  end.
Definition get_next_part (src : list Z) : next_part :=
  match skip_slashes src with [] => PartEnd | src => copy_part src [] end.

(** The loop of [parse_path]: the rest of the path, [name], [curr], [next]. *)
Fixpoint parse_loop (fuel : nat) (path name : list Z) (curr next : Z) : M fs (list Z * list Z * Z * Z) :=
  match fuel with
  | O => fail OutOfFuel
  | S fuel =>
      match get_next_part path with
      | Part part rest =>
          d ← dir_open curr;
          next ← dir_lookup d part;
          stop ← (if bool_decide (next = NULL) then ret true else b ← inode_isdir next; ret (negb b));
          if stop : bool then ret (rest, part, curr, next)
          else dir_close d;; parse_loop fuel rest part next next
      | _ => ret (path, name, curr, next)
      end
  end.

(** [cwd] is the sector of the current directory of the running thread. *)
Definition parse_path (cwd : Z) (path : list Z) : M fs (option (Z * list Z)) :=
  match path with
  | [] => ret None
  | c :: _ =>
      curr ← (if bool_decide (c = 47) then inode_open ROOT_DIR_SECTOR else inode_open cwd);
      '(rest, name, curr, next) ← parse_loop (S (length path)) path [] curr curr;
      match get_next_part rest with
      | PartEnd =>
          name ← (if bool_decide (curr = next) then ret [46] else inode_close next;; ret name);
          d ← dir_open curr;
          ret (if bool_decide (d ≠ NULL) then Some (d, name) else None)
      | _ => ret None
      end
  end.

Definition filesys_create (cwd : Z) (name : list Z) (initial_size : Z) : M fs bool :=
  r ← parse_path cwd name;
  match r with
  | None => ret false
  | Some (d, basename) =>
      sec ← free_map_allocate inode_write_at 1;
      success ← (match sec with
                 | None => ret false
                 | Some sec =>
                     ok ← inode_create sec initial_size;
                     if ok : bool then dir_add d basename sec else ret false
                 end);
      (match sec with
       | Some sec => if negb success && bool_decide (sec ≠ 0) then free_map_release inode_write_at sec 1 else ret tt
       | None => ret tt
       end);;
      dir_close d;;
      ret success
  end.

Definition filesys_open (cwd : Z) (name : list Z) : M fs Z :=
  r ← parse_path cwd name;
  match r with
  | None => ret NULL
  | Some (d, basename) =>
      i ← dir_lookup d basename;
      dir_close d;;
      file_open i
  end.

(** [junk] is the value of the uninitialised [success] that is read, [contain]
    what [thread_contain_cwd] returns. *)
Definition filesys_remove (fuel : nat) (junk contain : bool) (cwd : Z) (name : list Z) : M fs bool :=
  r ← parse_path cwd name;
  match r with
  | None => ret false
  | Some (d, basename) =>
      i ← dir_lookup d basename;
      if bool_decide (i = NULL) then dir_close d;; ret false
      else
        isdir ← inode_isdir i;
        blocked ← (if isdir : bool then
                     node_dir ← dir_open i;
                     '(some, _) ← dir_readdir fuel node_dir;
                     if some : bool then dir_close node_dir;; dir_close d;; ret true
                     else
                       dep ← inode_isdepend contain i;
                       if dep : bool then dir_close node_dir;; dir_close d;; ret true
                       else dir_close node_dir;; ret false
                   else ret false);
        if blocked : bool then ret false
        else
          removed ← dir_remove d basename;
          dir_close d;;
          ret (removed && junk)
  end.

Definition do_format : M fs unit :=
  free_map_create;;
  ok ← dir_create ROOT_DIR_SECTOR 16 ROOT_DIR_SECTOR;
  ASSERT ok;;
  free_map_close.

(** [map] is what [bitmap_create] returns; the device and the cache are set up. *)
Definition filesys_init (format : bool) (map : option bitmap) : M fs unit :=
  inode_init;;
  free_map_init map;;
  (if format then do_format else ret tt);;
  free_map_open.

Definition filesys_done : M fs unit := free_map_close;; on_cache buffer_cache_flush.
