(* ===== verification/DirectorySpec.v ===== *)
(** * What directories and the file system's entry points guarantee

    Lookup in a directory, the splitting of paths, and the behaviour of the
    whole file system on concrete runs from formatting on. *)

From S2P Require Import Prelude Bitmap Block Cache Inode InodeSpec Directory.
Local Open Scope Z_scope.

(** ** Lookup *)
Section Lookup.
Implicit Types s : fs.

(** The 20 bytes of the directory file at an offset. *)
Definition entry_at s (d : list Z) (ofs : Z) : list Z := (λ j, default 0 (file_byte s d (ofs + j))) <$> seqZ 0 20.

(** An entry in use with the name. *)
Definition matches s (d name : list Z) (ofs : Z) : bool :=
  in_use (entry_at s d ofs) && bool_decide (name = entry_name (entry_at s d ofs)).

Lemma entry_at_reads s s' d ofs : reads s s' → entry_at s' d ofs = entry_at s d ofs.
Proof. intros R. unfold entry_at. apply list_fmap_ext. intros j x _. by rewrite (file_byte_reads s s'). Qed.

Lemma touched_entry ofs : 0 ≤ ofs → touched ofs 20 ≤ 2.
Proof. intros Ho. unfold touched. rewrite bool_decide_false by lia. Z.to_euclidean_division_equations. lia. Qed.

Lemma read_entry_spec s k i d e ofs Q :
  small_file s i d → fs_ready s k → 7 ≤ k → 0 ≤ ofs → ofs + 20 < 2 ^ 31 → length e = 20%nat →
  (∀ s' n e', reads s s' → fs_ready s' (k - 7) → length e' = 20%nat →
     n = (if bool_decide (ofs + 20 ≤ length_ d) then 20 else 0) →
     (ofs + 20 ≤ length_ d → e' = entry_at s d ofs) → Q (n, e') s') →
  wp (read_entry i e ofs) s Q.
Proof.
  intros Hd Hf Hk Ho Hb He HQ. pose proof (touched_entry ofs Ho). unfold read_entry, entry_size. wp_step.
  destruct (decide (ofs + 20 ≤ length_ d)) as [Hl|Hl].
  - eapply inode_read_at_spec; [done|done|lia|done|done|done|]. intros data s' R F Hlen Hdata. wp_step.
    rewrite splice_full by lia.
    apply HQ; [done|eapply fs_ready_le; [exact F|lia]|lia|by rewrite bool_decide_true|]. intros _.
    apply list_eq. intros j. unfold entry_at. rewrite list_lookup_fmap.
    destruct (decide (j < 20)%nat).
    + rewrite lookup_seqZ_lt by lia. rewrite Z.add_0_l. specialize (Hdata (Z.of_nat j) ltac:(lia)). rewrite Nat2Z.id in Hdata.
      destruct (lookup_lt_is_Some_2 data j) as [x Hx]; [lia|]. rewrite Hx in *. cbn [fmap option_fmap option_map]. by rewrite <- Hdata.
    + rewrite lookup_seqZ_ge by lia. apply lookup_ge_None. lia.
  - eapply inode_read_at_eof; [done|done|lia|done|done|lia|]. intros s' R F. wp_step.
    apply HQ; [done|eapply fs_ready_le; [exact F|lia]|done|by rewrite bool_decide_false|lia].
Qed.

(** The answer of [lookup]: the first entry in use with the name, or none. *)
Definition lookup_result s (d name : list Z) (ofs : Z) (r : option (list Z * Z)) : Prop :=
  match r with
  | Some (e, o) => ∃ t, 0 ≤ t ∧ o = ofs + 20 * t ∧ o + 20 ≤ length_ d ∧ e = entry_at s d o ∧ matches s d name o = true ∧
                     ∀ t', 0 ≤ t' < t → matches s d name (ofs + 20 * t') = false
  | None => ∀ t, 0 ≤ t → ofs + 20 * t + 20 ≤ length_ d → matches s d name (ofs + 20 * t) = false
  end.

Lemma matches_reads s s' d name ofs : reads s s' → matches s' d name ofs = matches s d name ofs.
Proof. intros R. unfold matches. by rewrite (entry_at_reads s s'). Qed.

(** An entry that does not match is skipped. *)
Lemma lookup_result_step s s1 d name ofs r :
  reads s s1 → matches s d name ofs = false → lookup_result s1 d name (ofs + 20) r → lookup_result s d name ofs r.
Proof.
  intros R Hm. assert (∀ t, ofs + 20 + 20 * (t - 1) = ofs + 20 * t) as E by lia. unfold lookup_result.
  assert (∀ t t', (∀ t0, 0 ≤ t0 < t' - 1 → matches s1 d name (ofs + 20 + 20 * t0) = false) → 0 ≤ t < t' →
            matches s d name (ofs + 20 * t) = false) as Hs.
  { intros t t' H Ht. destruct (decide (t = 0)) as [->|]; [by rewrite Z.mul_0_r, Z.add_0_r|].
    rewrite <- E, <- (matches_reads s s1) by done. apply H. lia. }
  destruct r as [[e o]|].
  - intros (t & Ht & -> & Hl & -> & Hmt & Hb). exists (t + 1). rewrite (entry_at_reads s s1), (matches_reads s s1) in * by done.
    replace (ofs + 20 + 20 * t) with (ofs + 20 * (t + 1)) in * by lia. split_and!; [lia|done|done|done|done|].
    intros t' Ht'. apply (Hs t' (t + 1)); [|lia]. intros t0 Ht0. apply Hb. lia.
  - intros H t Ht Hl. apply (Hs t (t + 1)); [|lia]. intros t0 Ht0. apply H; lia.
Qed.

Lemma lookup_loop_spec fuel s k i d name e ofs :
  small_file s i d → fs_ready s k → 7 * Z.of_nat fuel ≤ k → 0 ≤ ofs ≤ length_ d → length e = 20%nat →
  (0 < fuel)%nat → length_ d < ofs + 20 * Z.of_nat fuel →
  wp (lookup_loop fuel i name e ofs) s (λ r s', reads s s' ∧ fs_ready s' (k - 7 * Z.of_nat fuel) ∧ lookup_result s d name ofs r).
Proof.
  revert s k e ofs. induction fuel as [|fuel IH]; intros s k e ofs Hd Hf Hk Ho He H0 Hl; [lia|].
  pose proof (sf_len s i d Hd) as Hlen. unfold DIRECT_SIZE in Hlen. simpl lookup_loop. wp_step.
  eapply read_entry_spec; [done|done|lia|lia|lia|done|]. intros s1 n e1 R1 F1 He1 -> Hent. unfold entry_size.
  destruct (decide (ofs + 20 ≤ length_ d)) as [Hin|Hin].
  - rewrite (bool_decide_true (_ ≤ _)) by done. rewrite bool_decide_true by done. rewrite (Hent Hin).
    fold (matches s d name ofs). destruct (matches s d name ofs) eqn:Em.
    + wp_step. split_and!; [done|eapply fs_ready_le; [exact F1|lia]|]. exists 0. rewrite Z.mul_0_r, Z.add_0_r.
      split_and!; [done..|lia].
    + eapply wp_mono; [apply (IH s1 (k - 7)); [by eapply small_file_reads|done|lia|lia|by rewrite <- (Hent Hin)|lia|lia]|].
      intros r s' (R & F & Hr). split_and!; [by trans s1|eapply fs_ready_le; [exact F|lia]|].
      by eapply lookup_result_step.
  - rewrite (bool_decide_false (_ ≤ _)) by done. rewrite bool_decide_false by done. wp_step.
    split_and!; [done|eapply fs_ready_le; [exact F1|lia]|]. intros t Ht. lia.
Qed.

Lemma lookup_spec s k i d dd v name :
  dd ≠ NULL → dirs s !! dd = Some v → dir_inode v = i → small_file s i d → fs_ready s k →
  7 * (length_ d / 20 + 1) ≤ k →
  wp (lookup dd name) s (λ r s', reads s s' ∧ lookup_result s d name 0 r).
Proof.
  intros Hn Hv <- Hd Hf Hk. unfold lookup, get_dir, dir_fuel, entry_size. wp_step.
  apply wp_ASSERT; [by apply bool_decide_eq_true_2|]. wp_steps. eapply wp_deref; [done|]. wp_steps.
  destruct (sf_inode s _ d Hd) as (n & Hi & _ & Ed & _). rewrite Hi. change (view (fcache s) (sector n)) with (fview s (sector n)).
  rewrite <- Ed. pose proof (sf_len s _ d Hd). pose proof (Z.div_pos (length_ d) 20 ltac:(lia) ltac:(lia)).
  pose proof (Z.mul_succ_div_gt (length_ d) 20 ltac:(lia)).
  eapply wp_mono; [apply (lookup_loop_spec _ s k); [done|done|lia|lia|done|lia|lia]|]. by intros r s' (R & _ & Hr).
Qed.

End Lookup.

(** ** Reading directories *)

(** No name is both [.] and [..], so every entry is skipped. *)
Lemma skip_every_entry e : skip_entry e = true.
Proof.
  unfold skip_entry. apply orb_true_iff. destruct (decide (entry_name e = [46])) as [->|H]; [right|left];
    by apply bool_decide_eq_true_2.
Qed.

Lemma readdir_loop_never_true fuel dd e s b name s' : readdir_loop fuel dd e s = Ret ((b, name), s') → b = false.
Proof.
  revert e s. induction fuel as [|fuel IH]; intros e s; simpl readdir_loop; [done|].
  unfold bind at 1. destruct (get_dir dd s) as [[v s1]|]; [|done].
  unfold bind at 1. destruct (read_entry _ e _ s1) as [[[n e1] s2]|]; [|done].
  case_bool_decide; [rewrite skip_every_entry; apply IH|].
  unfold bind, put_dir, modify, ret. by intros [= <- <- <-].
Qed.

(** The loop is still running after any number of iterations the heap allows. *)
Lemma readdir_loop_spins fuel dd v e s k d :
  dirs s !! dd = Some v → small_file s (dir_inode v) d → fs_ready s k → 7 * Z.of_nat fuel ≤ k →
  0 ≤ dir_pos v → dir_pos v + 20 ≤ length_ d → length e = 20%nat → readdir_loop fuel dd e s = Fail OutOfFuel.
Proof.
  revert e s k. induction fuel as [|fuel IH]; intros e s k Hv Hd Hf Hk Hp Hl He; simpl readdir_loop; [done|].
  pose proof (sf_len s _ d Hd). unfold DIRECT_SIZE in *.
  assert (wp (read_entry (dir_inode v) e (dir_pos v)) s
    (λ r s', fst r = 20 ∧ length (snd r) = 20%nat ∧ reads s s' ∧ fs_ready s' (k - 7))) as Hw.
  { eapply read_entry_spec; [done|done|lia|done|lia|done|]. intros s' n e' R F He' -> _. rewrite bool_decide_true by done. done. }
  apply wp_outcome in Hw as ([n e'] & s' & E & Hn & He' & R & F). simpl in Hn, He'. subst n.
  unfold bind at 1, get_dir, bind at 1, get_state, deref at 1. rewrite Hv. simpl ret.
  unfold bind at 1, ret at 1. rewrite E. rewrite bool_decide_true by done. rewrite skip_every_entry.
  apply (IH e' s' (k - 7)); [by rewrite (rd_rest _ _ R)|by eapply small_file_reads|done|lia|done|done|done].
Qed.

(** ** Paths *)

(** The parts [parse_path] takes from a path. *)
Fixpoint path_parts (fuel : nat) (path : list Z) : option (list (list Z)) :=
  match fuel with
  | O => None
  | S fuel =>
      match get_next_part path with
      | PartEnd => Some []
      | PartTooLong => None
      | Part p rest => (p ::.) <$> path_parts fuel rest
      end
  end.

(** A name without slashes and of legal length. *)
Definition legal_name (n : list Z) : Prop := n ≠ [] ∧ 47 ∉ n ∧ (length n ≤ 14)%nat.

Lemma copy_part_legal n part rest :
  47 ∉ n → (length part + length n ≤ 14)%nat → (rest = [] ∨ ∃ r, rest = 47 :: r) →
  copy_part (n ++ rest) part = Part (part ++ n) rest.
Proof.
  revert part. induction n as [|c n IH]; intros part Hn Hl Hr; simpl.
  - rewrite app_nil_r. by destruct Hr as [->|[r ->]].
  - rewrite bool_decide_false by set_solver. simpl in Hl. rewrite bool_decide_true by (unfold NAME_MAX; lia).
    rewrite IH; [by rewrite <- app_assoc|set_solver|rewrite length_app; simpl; lia|done].
Qed.

Lemma skip_slashes_app k l : (∀ r, l ≠ 47 :: r) → skip_slashes (replicate k 47 ++ l) = l.
Proof.
  intros Hl. induction k as [|k IH]; simpl; [|done]. destruct l as [|c r]; [done|]. simpl.
  rewrite bool_decide_false; [done|]. intros ->. by eapply Hl.
Qed.

(** A path written with at least one slash before each name and any number at
    the end. *)
Fixpoint render (names : list (nat * list Z)) (trailing : nat) : list Z :=
  match names with
  | [] => replicate trailing 47
  | (k, n) :: r => replicate (S k) 47 ++ n ++ render r trailing
  end.

Lemma render_head names t : render names t = [] ∨ ∃ r, render names t = 47 :: r.
Proof. destruct names as [|[k n] names]; simpl; [destruct t; simpl; eauto|eauto]. Qed.

Lemma path_parts_render names t fuel :
  Forall (λ p, legal_name (p.2)) names → (length names < fuel)%nat → path_parts fuel (render names t) = Some (names.*2).
Proof.
  intros Hn. revert fuel. induction Hn as [|[k n] names (Hne & H47 & Hlen) _ IH]; intros [|fuel] Hf; simpl in *; try lia.
  - unfold get_next_part. rewrite <- (app_nil_r (replicate t 47)). by rewrite skip_slashes_app.
  - unfold get_next_part. change (47 :: replicate k 47 ++ n ++ render names t) with (replicate (S k) 47 ++ n ++ render names t).
    rewrite skip_slashes_app; [|destruct n; [done|]; intros r [= -> _]; set_solver].
    destruct (n ++ render names t) eqn:E; [by destruct n|]. rewrite <- E.
    rewrite copy_part_legal; [|done|simpl; lia|apply render_head]. simpl. by rewrite IH by lia.
Qed.

(** ** Concrete runs *)

(** A blank device of 200 sectors and the state before [filesys_init]. *)
Definition blank_fs : fs :=
  mk_fs (fresh_cache (mk_block "hda1" BLOCK_FILESYS 200 0 0 ∅) 20000 (replicate 64 (replicate 512 0)))
    (mk_bitmap 0 []) NULL ∅ [] ∅ ∅ 64 100.
Definition format_disk : M fs unit := filesys_init true (Some (mk_bitmap 200 (replicate 7 0))).

(** The result of a run from the blank device. *)
Definition result_of {A} (c : M fs A) : option A :=
  match (format_disk;; c) blank_fs with Ret (a, _) => Some a | Fail _ => None end.

(** The number of sectors in use, from the free map. *)
Definition used_sectors : M fs Z := on_free_map (bitmap_count 0 200 true).

(** ** Claims *)

(** lookup in a directory is exact: on an open directory [lookup] returns
    the first entry in use with the name asked for and its offset, or nothing
    when no entry in use has the name; it changes no sector. *)
Theorem lookup_finds_first s k i d dd v name :
  dd ≠ NULL → dirs s !! dd = Some v → dir_inode v = i → small_file s i d → fs_ready s k →
  7 * (length_ d / 20 + 1) ≤ k →
  ∃ r s', lookup dd name s = Ret (r, s') ∧ (∀ m, fview s' m = fview s m) ∧
    match r with
    | Some (e, o) => ∃ t, 0 ≤ t ∧ o = 20 * t ∧ o + 20 ≤ length_ d ∧ e = entry_at s d o ∧
        in_use e = true ∧ entry_name e = name ∧
        ∀ t', 0 ≤ t' < t → ¬ (in_use (entry_at s d (20 * t')) = true ∧ entry_name (entry_at s d (20 * t')) = name)
    | None => ∀ t, 0 ≤ t → 20 * t + 20 ≤ length_ d →
        ¬ (in_use (entry_at s d (20 * t)) = true ∧ entry_name (entry_at s d (20 * t)) = name)
    end.
Proof.
  intros Hn Hv Hi Hd Hf Hk. destruct (proj1 (wp_outcome _ _ _) (lookup_spec s k i d dd v name Hn Hv Hi Hd Hf Hk))
    as (r & s' & E & R & Hr). exists r, s'. split_and!; [done|apply R|].
  assert (∀ o, matches s d name o = false → ¬ (in_use (entry_at s d o) = true ∧ entry_name (entry_at s d o) = name)) as Hm.
  { unfold matches. intros o Ho [H1 H2]. rewrite H1, bool_decide_true in Ho by done. done. }
  destruct r as [[e o]|]; simpl in Hr.
  - destruct Hr as (t & Ht & -> & Hl & -> & Hmt & Hb). exists t. unfold matches in Hmt.
    apply andb_true_iff in Hmt as [H1 H2%bool_decide_eq_true]. split_and!; [done|done|done|done|done|done|].
    intros t' Ht'. apply Hm, (Hb t' Ht').
  - intros t Ht Hl. apply Hm, (Hr t Ht Hl).
Qed.

(** [dir_readdir] is broken.  Its test for the entries [.] and [..] holds
    of every entry and skips it without advancing: whatever the directory
    holds, [dir_readdir] never returns a name, and on a directory that has an
    entry at its position it is still running after any number [fuel] of
    iterations that the kernel heap has room for. *)
Theorem dir_readdir_never_succeeds fuel dd v s k d :
  dirs s !! dd = Some v → small_file s (dir_inode v) d → fs_ready s k → 7 * Z.of_nat fuel ≤ k →
  0 ≤ dir_pos v → dir_pos v + 20 ≤ length_ d →
  (∀ n s0 b name s', dir_readdir n dd s0 = Ret ((b, name), s') → b = false) ∧
  dir_readdir fuel dd s = Fail OutOfFuel.
Proof.
  intros Hv Hd Hf Hk Hp Hl. split; [intros n s0 b name s'; apply readdir_loop_never_true|].
  by eapply readdir_loop_spins.
Qed.

(** paths are split correctly: for any list of legal names (not empty, at
    most 14 characters, no slash), written with one or more slashes before
    each and any number of slashes at the end, [get_next_part] yields exactly
    these names, one after the other, and then the end of the path. *)
Theorem path_splitting names t :
  Forall (λ p, legal_name (p.2)) names →
  path_parts (S (length names)) (render names t) = Some (names.*2).
Proof. intros Hn. apply path_parts_render; [done|lia]. Qed.

(** files do not grow.  On a freshly formatted file system a file is created
    empty and opened; writing 3 bytes to it returns 0 and leaves its length 0,
    although a sector was taken from the free map for the growth.  On a file
    created with 100 bytes the same write succeeds and is read back. *)
Theorem files_do_not_grow :
  result_of (b ← filesys_create 1 [97] 0; f ← filesys_open 1 [97]; u ← used_sectors;
             n ← file_write f [1; 2; 3] 3; l ← file_length f; u' ← used_sectors; ret (b, n, l, u' - u)) =
    Some (true, 0, 0, 1) ∧
  result_of (b ← filesys_create 1 [97] 100; f ← filesys_open 1 [97]; u ← used_sectors;
             n ← file_write f [1; 2; 3] 3; l ← file_length f; u' ← used_sectors; r ← file_read_at f 3 0;
             ret (b, n, l, u' - u, r)) =
    Some (true, 3, 100, 0, (3, [1; 2; 3])).
Proof. split; by vm_compute. Qed.

(** removal.  The return value of [filesys_remove] contains an
    uninitialised variable: with the value false in it, the call never reports
    success.  And the inode it looks up is never closed: after a file of one
    data sector is created and removed, the file cannot be opened any more but
    its four sectors are still in use, and they stay so. *)
Theorem filesys_remove_defects :
  (∀ fuel contain cwd name s r s', filesys_remove fuel false contain cwd name s = Ret (r, s') → r = false) ∧
  result_of (u ← used_sectors; b ← filesys_create 1 [97] 100; r ← filesys_remove 10 true true 1 [97];
             f ← filesys_open 1 [97]; u' ← used_sectors; ret (b, r, f, u' - u)) = Some (true, true, 0, 4).
Proof.
  split; [|by vm_compute]. intros fuel contain cwd name s r s'. unfold filesys_remove.
  unfold bind at 1. destruct (parse_path cwd name s) as [[[[d bn]|] s1]|]; [|by intros [= <- <-]|done].
  unfold bind at 1. destruct (dir_lookup d bn s1) as [[i s2]|]; [|done].
  case_bool_decide; [unfold bind, ret; destruct (dir_close d s2) as [[? ?]|]; [by intros [= <- <-]|done]|].
  unfold bind at 1. destruct (inode_isdir i s2) as [[isdir s3]|]; [|done].
  unfold bind at 1. match goal with |- context [match ?c s3 with _ => _ end] => destruct (c s3) as [[[] s4]|] end;
    [by intros [= <- <-]| |done].
  unfold bind at 1. destruct (dir_remove d bn s4) as [[rm s5]|]; [|done].
  unfold bind at 1. destruct (dir_close d s5) as [[? s6]|]; [|done]. rewrite andb_false_r. by intros [= <- <-].
Qed.

(** The file of [sample_fs], opened as a directory. *)
Definition sample_dir_fs : fs := set_dirs {[128 := mk_dir 64 0]} (sample_fs 600).

Lemma sample_dir_small : small_file sample_dir_fs 64 (sample_inode_disk 600).
Proof. destruct sample_small_file. by split. Qed.

Lemma lookup_finds_first_witness : ∃ r s', lookup 128 [97] sample_dir_fs = Ret (r, s') ∧ ∀ m, fview s' m = fview sample_dir_fs m.
Proof.
  destruct (lookup_finds_first sample_dir_fs 300 64 (sample_inode_disk 600) 128 (mk_dir 64 0) [97]) as (r & s' & E & V & _).
  - done.
  - done.
  - done.
  - exact sample_dir_small.
  - by apply (sample_fs_ready 600); [vm_compute|].
  - by vm_compute.
  - exists r, s'. split; [exact E|exact V].
Defined.

Lemma dir_readdir_never_succeeds_witness : dir_readdir 100 128 sample_dir_fs = Fail OutOfFuel.
Proof.
  refine (proj2 (dir_readdir_never_succeeds 100 128 (mk_dir 64 0) sample_dir_fs 1000 (sample_inode_disk 600) _ _ _ _ _ _)).
  - done.
  - exact sample_dir_small.
  - by apply (sample_fs_ready 600); [vm_compute|].
  - done.
  - done.
  - by vm_compute.
Defined.

Lemma path_splitting_witness : path_parts 3 [47; 47; 97; 47; 98; 47] = Some [[97]; [98]].
Proof.
  apply (path_splitting [(1%nat, [97]); (0%nat, [98])] 1).
  repeat constructor; simpl; try done; try lia; by apply (bool_decide_unpack _).
Defined.
