(* ===== verification/Arith64.v ===== *)
(** * 64-bit division (lib/arithmetic.c)

    The routines GCC calls for 64-bit division on a 32-bit processor, from the
    [divl] instruction.  [None] is the divide error trap. *)

From S2P Require Import Prelude.
Local Close Scope m_scope.
Local Open Scope Z_scope.

(** ** Operations *)
Definition divl (n d : Z) : option Z :=
  let n1 := u32 (Z.shiftr n 32) in
  let n0 := u32 n in
  if bool_decide (d = 0) then None
  else let q := (n1 * 2 ^ 32 + n0) / d in
       if bool_decide (q < 2 ^ 32) then Some q else None.

Definition nlz (x : Z) : Z :=
  let n := 0 in
  let '(n, x) := if x <=? 0x0000FFFF then (n + 16, u32 (Z.shiftl x 16)) else (n, x) in
  let '(n, x) := if x <=? 0x00FFFFFF then (n + 8, u32 (Z.shiftl x 8)) else (n, x) in
  let '(n, x) := if x <=? 0x0FFFFFFF then (n + 4, u32 (Z.shiftl x 4)) else (n, x) in
  let '(n, x) := if x <=? 0x3FFFFFFF then (n + 2, u32 (Z.shiftl x 2)) else (n, x) in
  if x <=? 0x7FFFFFFF then n + 1 else n.

Definition udiv64 (n d : Z) : option Z :=
  if bool_decide (Z.shiftr d 32 = 0) then
    let b := u64 (Z.shiftl 1 32) in
    let n1 := u32 (Z.shiftr n 32) in
    let n0 := u32 n in
    let d0 := u32 d in
    if bool_decide (d0 = 0) then None
    else q ← divl (u64 (u64 (b * (n1 mod d0)) + n0)) d0;
         Some (u64 (q + u64 (b * (n1 / d0))))
  else if bool_decide (n < d) then Some 0
  else
    let d1 := u32 (Z.shiftr d 32) in
    let s := nlz d1 in
    q ← divl (Z.shiftr n 1) (u32 (Z.shiftr (u64 (Z.shiftl d s)) 32));
    let q := Z.shiftr q (31 - s) in
    Some (if bool_decide (u64 (n - u64 (u64 (q - 1) * d)) < d) then u64 (q - 1) else q).

(** The result type of [umod64] is [uint32_t]. *)
Definition umod64 (n d : Z) : option Z := q ← udiv64 n d; Some (u32 (u64 (n - u64 (d * q)))).

Definition sdiv64 (n d : Z) : option Z :=
  let n_abs := if bool_decide (n >= 0) then n else u64 (- n) in
  let d_abs := if bool_decide (d >= 0) then d else u64 (- d) in
  q_abs ← udiv64 n_abs d_abs;
  Some (if Bool.eqb (bool_decide (n < 0)) (bool_decide (d < 0)) then s64 q_abs else s64 (- s64 q_abs)).

(** The result type of [smod64] is [int32_t]. *)
Definition smod64 (n d : Z) : option Z := q ← sdiv64 n d; Some (s32 (n - d * q)).

Definition __divdi3 (n d : Z) : option Z := sdiv64 n d.
Definition __moddi3 (n d : Z) : option Z := r ← smod64 n d; Some (s64 r).
Definition __udivdi3 (n d : Z) : option Z := udiv64 n d.
Definition __umoddi3 (n d : Z) : option Z := r ← umod64 n d; Some (u64 r).

(** ** Correctness *)
Lemma shl_u32 x k : 0 ≤ k → 0 ≤ x * 2 ^ k < 2 ^ 32 → u32 (Z.shiftl x k) = x * 2 ^ k.
Proof. intros Hk Hx. rewrite Z.shiftl_mul_pow2 by done. by apply u32_small. Qed.

(** One stage of [nlz]: a shift by [k] if the top [k] bits are zero. *)
Lemma nlz_stage x n k :
  0 < k → 2 * k ≤ 32 → 2 ^ (32 - 2 * k) ≤ x < 2 ^ 32 →
  ∃ n' x', (if x <=? 2 ^ (32 - k) - 1 then (n + k, u32 (Z.shiftl x k)) else (n, x)) = (n', x') ∧
    n ≤ n' ≤ n + k ∧ x' = x * 2 ^ (n' - n) ∧ 2 ^ (32 - k) ≤ x' < 2 ^ 32.
Proof.
  intros Hk1 Hk2 Hx. destruct (Z.leb_spec x (2 ^ (32 - k) - 1)); eexists _, _; (split; [done|]).
  - assert (2 ^ (32 - k) * 2 ^ k = 2 ^ 32) by (rewrite <- Z.pow_add_r by lia; f_equal; lia).
    assert (2 ^ (32 - 2 * k) * 2 ^ k = 2 ^ (32 - k)) by (rewrite <- Z.pow_add_r by lia; f_equal; lia).
    assert (0 < 2 ^ k) by lia. rewrite shl_u32 by nia. replace (n + k - n) with k by lia. split_and!; [lia..|nia|nia].
  - replace (n - n) with 0 by lia. split_and!; lia.
Qed.

(** [nlz] normalises: its shift makes the top bit 1. *)
Lemma nlz_spec x : 1 ≤ x < 2 ^ 32 → 0 ≤ nlz x ≤ 31 ∧ 2 ^ 31 ≤ x * 2 ^ nlz x < 2 ^ 32.
Proof.
  intros Hx. unfold nlz. change 0x0000FFFF with (2 ^ (32 - 16) - 1). change 0x00FFFFFF with (2 ^ (32 - 8) - 1).
  change 0x0FFFFFFF with (2 ^ (32 - 4) - 1). change 0x3FFFFFFF with (2 ^ (32 - 2) - 1).
  destruct (nlz_stage x 0 16) as (n1 & x1 & -> & Hn1 & Hx1 & Hr1); [lia..|].
  destruct (nlz_stage x1 n1 8) as (n2 & x2 & -> & Hn2 & Hx2 & Hr2); [lia..|].
  destruct (nlz_stage x2 n2 4) as (n3 & x3 & -> & Hn3 & Hx3 & Hr3); [lia..|].
  destruct (nlz_stage x3 n3 2) as (n4 & x4 & -> & Hn4 & Hx4 & Hr4); [lia..|].
  assert (x4 = x * 2 ^ n4) as Hx4'.
  { rewrite Hx4, Hx3, Hx2, Hx1, <- !Z.mul_assoc, <- !Z.pow_add_r by lia. do 2 f_equal. lia. }
  clear Hx1 Hx2 Hx3 Hx4 Hr1 Hr2 Hr3. destruct (Z.leb_spec x4 0x7FFFFFFF).
  - rewrite Z.pow_add_r by lia. change (2 ^ 1) with 2. rewrite Z.mul_assoc, <- Hx4'. lia.
  - rewrite <- Hx4'. lia.
Qed.

Lemma divl_spec n d : is_u64 n → 0 < d → n / d < 2 ^ 32 → divl n d = Some (n / d).
Proof.
  intros Hn Hd Hq. unfold divl. rewrite Z.shiftr_div_pow2 by lia.
  assert (u32 (n / 2 ^ 32) * 2 ^ 32 + u32 n = n) as ->.
  { rewrite u32_small; [unfold u32; pose proof (Z.div_mod n (2 ^ 32)); lia|].
    unfold is_u32, is_u64 in *. split; [apply Z.div_pos; lia|apply Z.div_lt_upper_bound; lia]. }
  by rewrite bool_decide_false, bool_decide_true by lia.
Qed.

(** The quotient of the normalised leading parts is at most one too large. *)
Lemma quotient_estimate n d v1 P T e :
  is_u64 n → is_u64 d → 2 ^ 31 ≤ v1 < 2 ^ 32 → 0 < P → P * T = 2 ^ 31 → 0 < T → 2 ^ 63 ≤ d * T →
  d = 2 * (v1 * P) + e → 0 ≤ e ≤ 2 * P - 1 →
  n / d ≤ n / 2 / (v1 * P) ≤ n / d + 1.
Proof.
  intros Hn Hd Hv HP HPT HT HdT He Her. unfold is_u64 in *. set (X := v1 * P) in *.
  assert (0 < X) by nia. assert (0 < d) by lia. set (Q := n / d).
  assert (Q * d ≤ n < (Q + 1) * d) as HQ
    by (pose proof (Z.div_mod n d ltac:(lia)); pose proof (Z.mod_pos_bound n d ltac:(lia)); unfold Q; nia).
  pose proof (Z.div_mod n 2 ltac:(lia)). pose proof (Z.mod_pos_bound n 2 ltac:(lia)).
  assert (0 ≤ Q) by (apply Z.div_pos; lia). split.
  - apply Z.div_le_lower_bound; [done|]. nia.
  - assert (Q < 2 * T) by nia. assert ((Q + 1) * (2 * P - 1) ≤ 2 * X).
    { assert ((Q + 1) * (2 * P - 1) ≤ 2 * T * (2 * P - 1)) by nia.
      assert (2 ^ 32 * P ≤ 2 * X) by nia. destruct (decide (P = 1)) as [->|]; [lia|]. nia. }
    enough (n / 2 / X < Q + 2) by lia. apply Z.div_lt_upper_bound; [done|]. nia.
Qed.

(** The normalised divisor. *)
Lemma normalise d (s := nlz (d / 2 ^ 32)) (T := 2 ^ s) (P := 2 ^ (31 - s)) (v1 := d * T / 2 ^ 32) :
  2 ^ 32 ≤ d < 2 ^ 64 →
  0 ≤ s ≤ 31 ∧ 0 < T ∧ 0 < P ∧ P * T = 2 ^ 31 ∧ 2 ^ 63 ≤ d * T < 2 ^ 64 ∧ 2 ^ 31 ≤ v1 < 2 ^ 32 ∧
  0 ≤ d - 2 * (v1 * P) ≤ 2 * P - 1.
Proof.
  intros Hd. set (d1 := d / 2 ^ 32) in *.
  pose proof (Z.div_mod d (2 ^ 32) ltac:(lia)) as Hdm. pose proof (Z.mod_pos_bound d (2 ^ 32) ltac:(lia)).
  fold d1 in Hdm. assert (1 ≤ d1 < 2 ^ 32) as Hd1 by lia.
  destruct (nlz_spec d1 Hd1) as [Hs Hn]. fold s in Hs, Hn. fold T in Hn.
  assert (0 < T) by (apply Z.pow_pos_nonneg; lia). assert (0 < P) by (apply Z.pow_pos_nonneg; lia).
  assert (P * T = 2 ^ 31) as HPT by (unfold P, T; rewrite <- Z.pow_add_r by lia; f_equal; lia).
  assert (d1 + 1 ≤ 2 * P) by nia. assert ((d1 + 1) * T ≤ 2 ^ 32) by nia.
  assert (2 ^ 63 ≤ d * T < 2 ^ 64) by nia.
  pose proof (Z.div_mod (d * T) (2 ^ 32) ltac:(lia)) as Hv. pose proof (Z.mod_pos_bound (d * T) (2 ^ 32) ltac:(lia)).
  fold v1 in Hv. split_and!; try lia; nia.
Qed.

Lemma udiv64_large n d :
  is_u64 n → 2 ^ 32 ≤ d < 2 ^ 64 → d ≤ n → udiv64 n d = Some (n / d).
Proof.
  intros Hn Hd Hle. unfold udiv64, is_u64 in *. rewrite !Z.shiftr_div_pow2 by lia.
  assert (1 ≤ d / 2 ^ 32 < 2 ^ 32) as Hd1
    by (split; [apply Z.div_le_lower_bound; lia|apply Z.div_lt_upper_bound; lia]).
  rewrite bool_decide_false, bool_decide_false by lia. rewrite (u32_small (d / 2 ^ 32)) by word_lia.
  destruct (normalise d Hd) as (Hs & HT & HP & HPT & HdT & Hv & He).
  set (s := nlz (d / 2 ^ 32)) in *. rewrite Z.shiftl_mul_pow2 by lia. rewrite (u64_small (d * 2 ^ s)) by (unfold is_u64; lia).
  set (v1 := d * 2 ^ s / 2 ^ 32) in *. rewrite (u32_small v1) by word_lia. change (2 ^ 1) with 2.
  assert (n / 2 / v1 < 2 ^ 32) by (apply Z.div_lt_upper_bound; [lia|]; apply Z.div_lt_upper_bound; lia).
  assert (0 ≤ n / 2 < 2 ^ 63) by (split; [apply Z.div_pos; lia|apply Z.div_lt_upper_bound; lia]).
  rewrite divl_spec; [|unfold is_u64; lia|lia|done]. cbn [mbind option_bind].
  rewrite Z.shiftr_div_pow2 by lia. rewrite Z.div_div by lia.
  destruct (quotient_estimate n d v1 (2 ^ (31 - s)) (2 ^ s) (d - 2 * (v1 * 2 ^ (31 - s)))) as [Hq1 Hq2];
    [done|unfold is_u64; lia|lia..|].
  set (q := n / 2 / (v1 * 2 ^ (31 - s))) in *. set (Q := n / d) in *.
  assert (Q * d ≤ n < (Q + 1) * d) as HQ
    by (pose proof (Z.div_mod n d ltac:(lia)); pose proof (Z.mod_pos_bound n d ltac:(lia)); unfold Q; nia).
  assert (1 ≤ Q) by (apply Z.div_le_lower_bound; lia). assert ((q - 1) * d ≤ n) by nia. assert (Q < 2 ^ 64) by nia.
  rewrite (u64_small (q - 1)) by (unfold is_u64; lia). rewrite (u64_small ((q - 1) * d)) by (unfold is_u64; nia).
  rewrite u64_small by (unfold is_u64; nia). f_equal. case_bool_decide; nia.
Qed.

Lemma udiv64_spec n d : is_u64 n → is_u64 d → d ≠ 0 → udiv64 n d = Some (n / d).
Proof.
  intros Hn Hd Hd0. unfold udiv64. rewrite Z.shiftr_div_pow2 by lia. unfold is_u64 in *. case_bool_decide as Hhi.
  - assert (0 < d < 2 ^ 32) as Hd32 by (apply Z.div_small_iff in Hhi; lia).
    rewrite (u32_small d), bool_decide_false by word_lia. change (u64 (Z.shiftl 1 32)) with (2 ^ 32).
    rewrite Z.shiftr_div_pow2 by lia. set (n1 := n / 2 ^ 32).
    assert (0 ≤ n1 < 2 ^ 32) by (split; [apply Z.div_pos; lia|apply Z.div_lt_upper_bound; lia]).
    rewrite (u32_small n1) by done. assert (n = n1 * 2 ^ 32 + u32 n) as Hn'
      by (pose proof (Z.div_mod n (2 ^ 32)); unfold u32, n1; lia).
    pose proof (u32_range n) as Hr. unfold is_u32 in Hr. pose proof (Z.mod_pos_bound n1 d ltac:(lia)).
    pose proof (Z.div_mod n1 d ltac:(lia)). assert (0 ≤ n1 / d) by (apply Z.div_pos; lia).
    assert (n1 / d ≤ n1) by (apply Z.div_le_upper_bound; nia).
    rewrite (u64_small (2 ^ 32 * (n1 mod d))) by (unfold is_u64; lia).
    rewrite (u64_small (2 ^ 32 * (n1 mod d) + u32 n)) by (unfold is_u64; lia).
    rewrite (u64_small (2 ^ 32 * (n1 / d))) by (unfold is_u64; lia).
    assert (n / d = (2 ^ 32 * (n1 mod d) + u32 n) / d + 2 ^ 32 * (n1 / d)) as Hq.
    { rewrite <- Z.div_add by lia. f_equal. rewrite Hn' at 1. nia. }
    assert ((2 ^ 32 * (n1 mod d) + u32 n) / d < 2 ^ 32) by (apply Z.div_lt_upper_bound; nia).
    assert (0 ≤ (2 ^ 32 * (n1 mod d) + u32 n) / d) by (apply Z.div_pos; nia).
    rewrite divl_spec; [|unfold is_u64; lia|lia|done]. cbn [mbind option_bind].
    rewrite <- Hq. f_equal. apply u64_small. unfold is_u64. split; [apply Z.div_pos; lia|apply Z.div_lt_upper_bound; nia].
  - assert (2 ^ 32 ≤ d) as Hbig.
    { destruct (decide (d < 2 ^ 32)); [|lia]. by rewrite Z.div_small in Hhi by lia. }
    case_bool_decide as Hlt; [by rewrite Z.div_small by lia|].
    pose proof (udiv64_large n d Hn ltac:(lia) ltac:(lia)) as HL. unfold udiv64 in HL.
    rewrite Z.shiftr_div_pow2 in HL by lia. by rewrite !bool_decide_false in HL by lia.
Qed.

Lemma u64_neg n : is_s64 n → n < 0 → u64 (- n) = - n.
Proof. intros Hn Hneg. apply u64_small. word_lia. Qed.

(** Reading an unsigned value as signed, then negating, at 64 bits. *)
Lemma s64_mod x y : u64 x = u64 y → s64 x = s64 y.
Proof. unfold s64. by intros ->. Qed.
Lemma u64_s64 x : u64 (s64 x) = u64 x.
Proof.
  unfold s64. pose proof (u64_range x) as Hr. case_match; [|by apply u64_small].
  unfold u64. rewrite Zminus_mod, Z_mod_same_full, Z.sub_0_r. by rewrite !Zmod_mod.
Qed.
Lemma s64_opp_s64 x : s64 (- s64 x) = s64 (- x).
Proof.
  apply s64_mod. unfold u64. rewrite <- Z.sub_0_l, Zminus_mod. change (s64 x mod 2 ^ 64) with (u64 (s64 x)).
  rewrite u64_s64. unfold u64. by rewrite <- Zminus_mod, Z.sub_0_l.
Qed.

Lemma quot_abs n d : d ≠ 0 →
  Z.quot n d = if Bool.eqb (bool_decide (n < 0)) (bool_decide (d < 0)) then Z.abs n / Z.abs d else - (Z.abs n / Z.abs d).
Proof.
  intros Hd. rewrite <- Z.quot_div_nonneg by lia. repeat case_bool_decide; simpl.
  - rewrite !Z.abs_neq by lia. by rewrite Z.quot_opp_opp.
  - rewrite Z.abs_neq, Z.abs_eq by lia. rewrite Z.quot_opp_l by lia. lia.
  - rewrite Z.abs_eq, Z.abs_neq by lia. rewrite Z.quot_opp_r by lia. lia.
  - by rewrite !Z.abs_eq by lia.
Qed.

Lemma sdiv64_spec n d : is_s64 n → is_s64 d → d ≠ 0 → sdiv64 n d = Some (s64 (Z.quot n d)).
Proof.
  intros Hn Hd Hd0. unfold sdiv64.
  assert ((if bool_decide (n >= 0) then n else u64 (- n)) = Z.abs n) as ->
    by (case_bool_decide; [lia|rewrite u64_neg; [lia|done|lia]]).
  assert ((if bool_decide (d >= 0) then d else u64 (- d)) = Z.abs d) as ->
    by (case_bool_decide; [lia|rewrite u64_neg; [lia|done|lia]]).
  rewrite udiv64_spec by word_lia. cbn [mbind option_bind]. rewrite quot_abs by done.
  f_equal. case_match; [done|]. apply s64_opp_s64.
Qed.

Lemma umod64_spec n d : is_u64 n → is_u64 d → d ≠ 0 → __umoddi3 n d = Some (u32 (n mod d)).
Proof.
  intros Hn Hd Hd0. unfold __umoddi3, umod64. rewrite udiv64_spec by done. cbn [mbind option_bind]. f_equal.
  pose proof (Z.div_mod n d ltac:(lia)). unfold is_u64 in *. pose proof (Z.mod_pos_bound n d ltac:(lia)).
  rewrite (u64_small (d * (n / d))) by (unfold is_u64; assert (0 ≤ n / d) by (apply Z.div_pos; lia); nia).
  replace (n - d * (n / d)) with (n mod d) by lia. rewrite (u64_small (n mod d)) by (unfold is_u64; lia).
  apply u64_small. pose proof (u32_range (n mod d)). word_lia.
Qed.

Lemma s32_u64 x : s32 (u64 x) = s32 x.
Proof.
  unfold s32, u32, u64. assert ((x mod 2 ^ 64) mod 2 ^ 32 = x mod 2 ^ 32) as ->; [|done].
  change (2 ^ 64) with (2 ^ 32 * 2 ^ 32). rewrite Z.rem_mul_r by lia. rewrite Z.mul_comm, Z.mod_add by lia. apply Zmod_mod.
Qed.

Lemma smod64_spec n d : is_s64 n → is_s64 d → d ≠ 0 → __moddi3 n d = Some (s32 (Z.rem n d)).
Proof.
  intros Hn Hd Hd0. unfold __moddi3, smod64. rewrite sdiv64_spec by done. cbn [mbind option_bind]. f_equal.
  rewrite s64_small by (pose proof (s32_range (n - d * s64 (Z.quot n d))); word_lia).
  rewrite <- (s32_u64 (n - _)), <- (s32_u64 (Z.rem n d)). f_equal.
  pose proof (Z.quot_rem n d Hd0). replace (Z.rem n d) with (n - d * Z.quot n d) by lia.
  unfold u64. rewrite Zminus_mod, (Zminus_mod n (d * Z.quot n d)), Zmult_mod, (Zmult_mod d (Z.quot n d)).
  change (s64 (Z.quot n d) mod 2 ^ 64) with (u64 (s64 (Z.quot n d))). by rewrite u64_s64.
Qed.

(** The 64-bit division of arithmetic.c is correct for every pair of
    operands with a nonzero divisor: [udiv64] returns the quotient, without a
    divide error and in spite of all the wrap-around of its intermediate
    results; [sdiv64] returns the quotient truncated toward zero (as a 64-bit
    value, so [INT64_MIN / -1] wraps). *)
Theorem division_correct :
  (∀ n d, is_u64 n → is_u64 d → d ≠ 0 → __udivdi3 n d = Some (n / d)) ∧
  (∀ n d, is_s64 n → is_s64 d → d ≠ 0 → __divdi3 n d = Some (s64 (Z.quot n d))).
Proof.
  split; [apply udiv64_spec|]. intros n d Hn Hd Hd0. apply sdiv64_spec; done.
Qed.

(** The remainders are returned through 32-bit types: [__umoddi3] and
    [__moddi3] give the low 32 bits of the remainder only, so they are wrong as
    soon as the remainder needs more than that; for instance
    [2^40 mod 2^41] is computed as 0. *)
Theorem remainder_truncated :
  (∀ n d, is_u64 n → is_u64 d → d ≠ 0 → __umoddi3 n d = Some (u32 (n mod d))) ∧
  (∀ n d, is_s64 n → is_s64 d → d ≠ 0 → __moddi3 n d = Some (s32 (Z.rem n d))) ∧
  __umoddi3 (2 ^ 40) (2 ^ 41) = Some 0.
Proof. split_and!; [apply umod64_spec|apply smod64_spec|vm_compute; reflexivity]. Qed.

Lemma division_correct_witness :
  __udivdi3 (2 ^ 63 + 5) (2 ^ 33 + 1) = Some ((2 ^ 63 + 5) / (2 ^ 33 + 1)) ∧
  __divdi3 (- 2 ^ 63) (-1) = Some (s64 (Z.quot (- 2 ^ 63) (-1))).
Proof.
  split; [apply (proj1 division_correct)|apply (proj2 division_correct)];
    unfold is_u64, is_s64; lia.
Defined.

Lemma remainder_truncated_witness : __umoddi3 (2 ^ 40 + 7) (2 ^ 41) = Some (u32 ((2 ^ 40 + 7) mod 2 ^ 41)).
Proof. apply (proj1 remainder_truncated); unfold is_u64; lia. Defined.
