(* ===== verification/FixedPoint.v ===== *)
(** * Fixed-point numbers (threads/fixed-point.h)

    16.16 fixed-point numbers in a C [int].  C division truncates toward zero;
    a result that does not fit in an [int] wraps. *)

From S2P Require Import Prelude.
Local Open Scope Z_scope.

(** ** Data and operations *)
Record fixed_point_t := mk_fix { f : Z }.

Definition FIX_P : Z := 16.
Definition FIX_Q : Z := 16.
Definition FIX_F : Z := Z.shiftl 1 FIX_Q.
Definition FIX_MAX_INT : Z := Z.shiftl 1 FIX_P - 1.
Definition FIX_MIN_INT : Z := - FIX_MAX_INT.

Definition in_fix_range (n : Z) : bool := bool_decide (n >= FIX_MIN_INT) && bool_decide (n ≤ FIX_MAX_INT).

Definition fix_int (n : Z) : outcome fixed_point_t :=
  if in_fix_range n then Ret (mk_fix (s32 (n * FIX_F))) else Fail AssertFail.
Definition fix_frac (n d : Z) : outcome fixed_point_t :=
  if bool_decide (d = 0) then Fail AssertFail
  else if in_fix_range (Z.quot n d) then Ret (mk_fix (s32 (Z.quot (n * FIX_F) d))) else Fail AssertFail.
Definition fix_round (x : fixed_point_t) : Z := Z.quot (s32 (f x + Z.quot FIX_F 2)) FIX_F.
Definition fix_trunc (x : fixed_point_t) : Z := Z.quot (f x) FIX_F.
Definition fix_add (x y : fixed_point_t) : fixed_point_t := mk_fix (s32 (f x + f y)).
Definition fix_sub (x y : fixed_point_t) : fixed_point_t := mk_fix (s32 (f x - f y)).
Definition fix_mul (x y : fixed_point_t) : fixed_point_t := mk_fix (s32 (Z.quot (f x * f y) FIX_F)).
Definition fix_scale (x : fixed_point_t) (n : Z) : outcome fixed_point_t :=
  if bool_decide (n >= 0) then Ret (mk_fix (s32 (f x * n))) else Fail AssertFail.
Definition fix_div (x y : fixed_point_t) : outcome fixed_point_t :=
  if bool_decide (f y = 0) then Fail DivideError else Ret (mk_fix (s32 (Z.quot (f x * FIX_F) (f y)))).
Definition fix_unscale (x : fixed_point_t) (n : Z) : outcome fixed_point_t :=
  if bool_decide (n > 0) then Ret (mk_fix (Z.quot (f x) n)) else Fail AssertFail.
Definition fix_inv (x : fixed_point_t) : outcome fixed_point_t :=
  match fix_int 1 with Ret one => fix_div one x | Fail e => Fail e end.
Definition fix_compare (x y : fixed_point_t) : Z :=
  if bool_decide (f x < f y) then -1 else if bool_decide (f x > f y) then 1 else 0.

(** ** Properties *)

(** An integer that the representation can hold. *)
Lemma fix_int_small n : -32768 ≤ n ≤ 32767 → fix_int n = Ret (mk_fix (n * 65536)).
Proof.
  intros Hn. unfold fix_int, in_fix_range, FIX_MIN_INT, FIX_MAX_INT, FIX_F, FIX_Q, FIX_P.
  change (Z.shiftl 1 16) with 65536. rewrite !bool_decide_true by lia. simpl.
  by rewrite s32_small by (unfold is_s32; lia).
Qed.

(** Arithmetic on integers: for operands and results of at most 15 bits
    and a sign, the operations on converted integers are those of the
    integers, and [fix_round] and [fix_trunc] convert back exactly the
    non-negative ones. *)
Theorem fix_integers a b x y :
  -32768 ≤ a ≤ 32767 → -32768 ≤ b ≤ 32767 → fix_int a = Ret x → fix_int b = Ret y →
  fix_trunc x = a ∧
  (0 ≤ a < 32767 → fix_round x = a) ∧
  (-32768 ≤ a + b ≤ 32767 → Ret (fix_add x y) = fix_int (a + b)) ∧
  (-32768 ≤ a - b ≤ 32767 → Ret (fix_sub x y) = fix_int (a - b)) ∧
  (-32768 ≤ a * b ≤ 32767 → Ret (fix_mul x y) = fix_int (a * b)) ∧
  (fix_compare x y = -1 ↔ a < b) ∧ (fix_compare x y = 0 ↔ a = b).
Proof.
  intros Ha Hb. rewrite !fix_int_small by done. intros [= <-] [= <-].
  unfold fix_trunc, fix_round, fix_add, fix_sub, fix_mul, fix_compare, FIX_F, FIX_Q. simpl f.
  change (Z.shiftl 1 16) with 65536. split_and!.
  - by rewrite Z.quot_mul by lia.
  - intros Hr. change (Z.quot 65536 2) with 32768. rewrite s32_small by (unfold is_s32; lia).
    rewrite Z.quot_div_nonneg by lia. rewrite Z.div_add_l by lia. change (32768 / 65536) with 0. lia.
  - intros Hr. rewrite fix_int_small by done. rewrite s32_small by (unfold is_s32; lia). do 2 f_equal. lia.
  - intros Hr. rewrite fix_int_small by done. rewrite s32_small by (unfold is_s32; lia). do 2 f_equal. lia.
  - intros Hr. rewrite fix_int_small by done.
    replace (a * 65536 * (b * 65536)) with (a * b * 65536 * 65536) by lia. rewrite Z.quot_mul by lia.
    by rewrite s32_small by (unfold is_s32; lia).
  - repeat case_bool_decide; lia.
  - repeat case_bool_decide; lia.
Qed.

Lemma fix_integers_witness :
  fix_int 59 = Ret (mk_fix 3866624) ∧ fix_trunc (mk_fix 3866624) = 59.
Proof.
  split; [reflexivity|].
  exact (proj1 (fix_integers 59 60 (mk_fix 3866624) (mk_fix 3932160) ltac:(lia) ltac:(lia) eq_refl eq_refl)).
Defined.

(** Three comments of the header do not hold: [FIX_MAX_INT] is not
    representable (from 32768 on [fix_int] overflows and the sign is lost),
    [fix_round] does not round negative numbers to the nearest integer
    (-1.0 becomes 0), and [fix_trunc] does not truncate down (-0.5 becomes 0). *)
Theorem fixed_point_comments_fail :
  (∃ x, fix_int 32768 = Ret x ∧ fix_trunc x = -32768) ∧
  (∃ x, fix_int FIX_MAX_INT = Ret x ∧ fix_trunc x = -1) ∧
  (∃ x, fix_int (-1) = Ret x ∧ fix_round x = 0) ∧
  (∃ x, fix_frac (-1) 2 = Ret x ∧ fix_trunc x = 0).
Proof. split_and!; eexists; (split; [reflexivity|vm_compute; reflexivity]). Qed.
