(* ===== verification/Sorting.v ===== *)
(** * Sorting and searching (lib/stdlib.c)

    The heap sort and the binary search of the C library over arrays of
    elements.  An array of [cnt] elements of [size] bytes is the
    list of its elements; the element with the 1-based index [i] is at byte
    offset [(i - 1) * size], and exchanging two elements exchanges all of
    their bytes.  [compare] is the caller's function; that it is not null, that
    [size > 0] and that the array is there is what the assertions check. *)

From S2P Require Import Prelude.
Local Open Scope Z_scope.

(** [lia] with division by constants. *)
Local Ltac Zify.zify_post_hook ::= Z.to_euclidean_division_equations.

(** ** Operations *)
Section Operations.
Context {A : Type} (compare : A → A → Z).

Definition get_nth (i : Z) : M (list A) A :=
  l ← get_state; if bool_decide (1 ≤ i) then deref (l !! Z.to_nat (i - 1)) else fail BadAccess.

Definition do_swap (a_idx b_idx : Z) : M (list A) unit :=
  a ← get_nth a_idx;
  b ← get_nth b_idx;
  modify (λ l, <[Z.to_nat (b_idx - 1) := a]> (<[Z.to_nat (a_idx - 1) := b]> l)).

Definition do_compare (a_idx b_idx : Z) : M (list A) Z :=
  a ← get_nth a_idx; b ← get_nth b_idx; ret (compare a b).

(** [max = idx] if the element is there and greater. *)
Definition larger (idx max cnt : Z) : M (list A) Z :=
  if bool_decide (idx ≤ cnt) then
    c ← do_compare idx max; ret (if bool_decide (c > 0) then idx else max)
  else ret max.

Fixpoint heapify_loop (fuel : nat) (i cnt : Z) : M (list A) unit :=
  match fuel with
  | O => fail OutOfFuel
  | S fuel =>
      let left := u32 (2 * i) in
      let right := u32 (2 * i + 1) in
      max ← larger left i cnt;
      max ← larger right max cnt;
      if bool_decide (max = i) then ret tt
      else do_swap i max;; heapify_loop fuel max cnt
  end.
(** The index at least doubles in every iteration. *)
Definition heapify (i cnt : Z) : M (list A) unit := heapify_loop (S (Z.to_nat cnt)) i cnt.

(** [for (i = cnt / 2; i > 0; i--)] *)
Fixpoint build_loop (i : nat) (cnt : Z) : M (list A) unit :=
  match i with O => ret tt | S j => heapify (Z.of_nat i) cnt;; build_loop j cnt end.
(** [for (i = cnt; i > 1; i--)], from [i = S n] on. *)
Fixpoint sort_loop (n : nat) : M (list A) unit :=
  match n with
  | O => ret tt
  | S m => do_swap 1 (Z.of_nat n + 1);; heapify 1 (Z.of_nat n);; sort_loop m
  end.

Definition sort (cnt : Z) : M (list A) unit :=
  build_loop (Z.to_nat (cnt / 2)) cnt;; sort_loop (Z.to_nat (cnt - 1)).
Definition qsort (cnt : Z) : M (list A) unit := sort cnt.

(** [while (first < last)]: indexes of elements stand for the pointers, and
    the index found for the pointer returned. *)
Fixpoint search_loop (fuel : nat) (key : A) (array : list A) (first last : Z) : outcome (option Z) :=
  match fuel with
  | O => Fail OutOfFuel
  | S fuel =>
      if bool_decide (first < last) then
        let range := last - first in
        let middle := first + range / 2 in
        match array !! Z.to_nat middle with
        | None => Fail BadAccess
        | Some m =>
            let cmp := compare key m in
            if bool_decide (cmp < 0) then search_loop fuel key array first middle
            else if bool_decide (cmp > 0) then search_loop fuel key array (middle + 1) last
            else Ret (Some middle)
        end
      else Ret None
  end.
Definition binary_search (key : A) (array : list A) (cnt : Z) : outcome (option Z) :=
  search_loop (S (Z.to_nat cnt)) key array 0 cnt.
Definition bsearch (key : A) (array : list A) (cnt : Z) : outcome (option Z) := binary_search key array cnt.

End Operations.

(** ** Heap sort *)

(** What the caller promises of [compare]: a total preorder. *)
Class Ordering {A} (compare : A → A → Z) : Prop := {
  ord_sym a b : compare a b > 0 ↔ compare b a < 0;
  ord_trans a b c : compare a b ≤ 0 → compare b c ≤ 0 → compare a c ≤ 0
}.

Section HeapSort.
Context {A : Type} (compare : A → A → Z) `{!Ordering compare}.
Implicit Types l : list A.

(** The element with a 1-based index. *)
Definition at_ l (i : Z) : option A := if bool_decide (1 ≤ i) then l !! Z.to_nat (i - 1) else None.

(** The elements at the two indexes are in order. *)
Definition le_at l (i j : Z) : Prop :=
  match at_ l i, at_ l j with Some a, Some b => compare a b ≤ 0 | _, _ => False end.

Lemma at_Some l i : 1 ≤ i ≤ Z.of_nat (length l) → ∃ a, at_ l i = Some a.
Proof.
  intros Hi. unfold at_. rewrite bool_decide_true by lia. apply lookup_lt_is_Some. lia.
Qed.

Lemma at_range l i a : at_ l i = Some a → 1 ≤ i ≤ Z.of_nat (length l).
Proof.
  unfold at_. case_bool_decide; [|done]. intros Hl%lookup_lt_Some. lia.
Qed.

Lemma le_at_refl l i : 1 ≤ i ≤ Z.of_nat (length l) → le_at l i i.
Proof.
  intros Hi. destruct (at_Some l i Hi) as [a Ha]. unfold le_at. rewrite Ha.
  pose proof (ord_sym a a). lia.
Qed.

Lemma le_at_trans l i j k : le_at l i j → le_at l j k → le_at l i k.
Proof.
  unfold le_at. destruct (at_ l i), (at_ l j), (at_ l k); try done. apply ord_trans.
Qed.

(** *** Exchanging two elements *)
Definition swapped l (i j : Z) l' : Prop :=
  length l' = length l ∧ l' ≡ₚ l ∧
  ∀ k, at_ l' k = if bool_decide (k = i) then at_ l j else if bool_decide (k = j) then at_ l i else at_ l k.

Lemma do_swap_spec l i j :
  1 ≤ i ≤ Z.of_nat (length l) → 1 ≤ j ≤ Z.of_nat (length l) → wp (do_swap i j) l (λ _ l', swapped l i j l').
Proof.
  intros Hi Hj. destruct (at_Some l i Hi) as [a Ha], (at_Some l j Hj) as [b Hb].
  pose proof Ha as Ha'. pose proof Hb as Hb'. unfold at_ in Ha', Hb'. rewrite bool_decide_true in Ha', Hb' by lia.
  unfold do_swap, get_nth. wp_steps. rewrite bool_decide_true by lia. eapply wp_deref; [done|]. wp_steps.
  rewrite bool_decide_true by lia. eapply wp_deref; [done|]. wp_steps. split_and!; [by rewrite !length_insert| |].
  - by apply Permutation_insert_swap.
  - intros k. unfold at_. rewrite (bool_decide_true (1 ≤ i)), (bool_decide_true (1 ≤ j)) by lia.
    destruct (decide (1 ≤ k)) as [Hk|Hk].
    + rewrite (bool_decide_true (1 ≤ k)) by done. destruct (decide (k = j)) as [->|].
      { rewrite list_lookup_insert_eq by (rewrite length_insert; lia). case_bool_decide; [subst; congruence|].
        by rewrite bool_decide_true. }
      rewrite list_lookup_insert_ne by lia. case_bool_decide.
      { subst. rewrite list_lookup_insert_eq by lia. done. }
      rewrite list_lookup_insert_ne by lia. by rewrite bool_decide_false.
    + rewrite (bool_decide_false (1 ≤ k)) by done. rewrite !bool_decide_false by lia. done.
Qed.

(** Where the element at [k] was before the exchange. *)
Definition transposed (i j k : Z) : Z := if bool_decide (k = i) then j else if bool_decide (k = j) then i else k.

Lemma swapped_at l i j l' k : swapped l i j l' → at_ l' k = at_ l (transposed i j k).
Proof. intros (_&_&->). unfold transposed. by repeat case_bool_decide. Qed.

Lemma swapped_le_at l i j l' a b :
  swapped l i j l' → le_at l' a b ↔ le_at l (transposed i j a) (transposed i j b).
Proof. intros Hs. unfold le_at. by rewrite !(swapped_at l i j l'). Qed.

(** Only elements in a range of indexes move, inside of the range. *)
Record rearranged (lo hi : Z) l l' : Prop := Rearranged {
  rearr_length : length l' = length l;
  rearr_perm : l' ≡ₚ l;
  rearr_out k : ¬ (lo ≤ k ≤ hi) → at_ l' k = at_ l k;
  rearr_in k : lo ≤ k ≤ hi → ∃ k', lo ≤ k' ≤ hi ∧ at_ l' k = at_ l k'
}.

Lemma rearranged_refl lo hi l : rearranged lo hi l l.
Proof. split; eauto. Qed.

Lemma rearranged_trans lo hi l1 l2 l3 : rearranged lo hi l1 l2 → rearranged lo hi l2 l3 → rearranged lo hi l1 l3.
Proof.
  intros [L1 P1 O1 I1] [L2 P2 O2 I2]. split; [congruence|by etrans| |].
  - intros k Hk. by rewrite O2, O1.
  - intros k (k2&Hk2&->)%I2. apply I1 in Hk2 as (k1&Hk1&->). eauto.
Qed.

Lemma swapped_rearranged lo hi l i j l' :
  swapped l i j l' → lo ≤ i ≤ hi → lo ≤ j ≤ hi → rearranged lo hi l l'.
Proof.
  intros Hs Hi Hj. pose proof Hs as (?&?&_). split; [done|done|..]; intros k Hk.
  - rewrite (swapped_at l i j l') by done. f_equal. unfold transposed. repeat case_bool_decide; lia.
  - exists (transposed i j k). split; [|by apply swapped_at]. unfold transposed. repeat case_bool_decide; lia.
Qed.

(** *** Floating an element down *)
Definition heap_from l (k cnt : Z) : Prop := ∀ j, 2 ≤ j ≤ cnt → k ≤ j / 2 → le_at l j (j / 2).

(** A heap from [i0] on, but for the element [i] that is on its way down. *)
Record floating l (i0 i cnt : Z) : Prop := Floating {
  fl_range : 1 ≤ i0 ≤ i;
  fl_heap j : 2 ≤ j ≤ cnt → i0 ≤ j / 2 → j / 2 ≠ i → le_at l j (j / 2);
  fl_up : i0 < i → i0 ≤ i / 2;
  fl_skip j : i0 < i → 2 ≤ j ≤ cnt → j / 2 = i → le_at l j (i / 2)
}.

Lemma larger_spec l idx m cnt (Q : Z → list A → Prop) :
  1 ≤ idx → 1 ≤ m ≤ Z.of_nat (length l) → cnt ≤ Z.of_nat (length l) →
  (∀ m', m' = m ∨ (m' = idx ∧ idx ≤ cnt) → le_at l m m' → (idx ≤ cnt → le_at l idx m') → Q m' l) →
  wp (larger compare idx m cnt) l Q.
Proof.
  intros Hi Hm Hc HQ. unfold larger. destruct (decide (idx ≤ cnt)) as [Hle|Hle].
  2:{ rewrite bool_decide_false by done. wp_steps. apply HQ; [by left|by apply le_at_refl|lia]. }
  rewrite bool_decide_true by done.
  destruct (at_Some l idx ltac:(lia)) as [a Ha], (at_Some l m ltac:(lia)) as [b Hb].
  pose proof Ha as Ha'. pose proof Hb as Hb'. unfold at_ in Ha', Hb'. rewrite bool_decide_true in Ha', Hb' by lia.
  unfold do_compare, get_nth. wp_steps. rewrite bool_decide_true by lia. eapply wp_deref; [done|]. wp_steps.
  rewrite bool_decide_true by lia. eapply wp_deref; [done|]. wp_steps. case_bool_decide as Hcmp.
  - apply HQ; [by right| |intros _; apply le_at_refl; lia]. unfold le_at. rewrite Ha, Hb. apply ord_sym in Hcmp. lia.
  - apply HQ; [by left|apply le_at_refl; lia|]. intros _. unfold le_at. rewrite Ha, Hb. lia.
Qed.

(** The exchange with the greatest child moves the element down. *)
Lemma floating_step l i0 i m cnt l' :
  floating l i0 i cnt → swapped l i m l' → m / 2 = i → m ≤ cnt → le_at l i m →
  (∀ j, 2 ≤ j ≤ cnt → j / 2 = i → le_at l j m) → floating l' i0 m cnt.
Proof.
  intros [Hr Hh Hu Hs] Hsw Hm Hc Him Hch. assert (2 ≤ m) by lia. split.
  - lia.
  - intros j Hj Hj2 Hne. rewrite (swapped_le_at l i m l') by done. unfold transposed.
    rewrite (bool_decide_false (j / 2 = m)) by done. destruct (decide (j / 2 = i)) as [He|He].
    + rewrite (bool_decide_true (j / 2 = i)) by done. rewrite (bool_decide_false (j = i)) by lia.
      case_bool_decide; [done|]. by apply Hch.
    + rewrite (bool_decide_false (j / 2 = i)) by done. destruct (decide (j = i)) as [->|].
      * rewrite bool_decide_true by done. apply Hs; lia.
      * rewrite (bool_decide_false (j = i)) by done. rewrite bool_decide_false by congruence. by apply Hh.
  - lia.
  - intros j Hlt Hj Hj2. rewrite (swapped_le_at l i m l') by done. unfold transposed.
    rewrite (bool_decide_false (j = i)), (bool_decide_false (j = m)) by lia.
    rewrite Hm, bool_decide_true by done. rewrite <- Hj2. apply Hh; lia.
Qed.

Lemma heapify_loop_spec fuel l i0 i cnt :
  floating l i0 i cnt → i ≤ cnt → cnt ≤ Z.of_nat (length l) < 2 ^ 31 → cnt - i < Z.of_nat fuel →
  wp (heapify_loop compare fuel i cnt) l (λ _ l', heap_from l' i0 cnt ∧ rearranged i0 cnt l l').
Proof.
  revert l i. induction fuel as [|fuel IH]; intros l i Hf Hi Hc Hfu; [lia|].
  pose proof Hf as [Hr Hh _ _]. simpl. rewrite !u32_small by word_lia. wp_step.
  apply larger_spec; [lia..|]. intros m1 Hm1 Hle1 Hl1. wp_step.
  apply larger_spec; [lia..|]. intros m2 Hm2 Hle2 Hl2.
  assert (∀ j, 2 ≤ j ≤ cnt → j / 2 = i → le_at l j m2) as Hch.
  { intros j Hj Hj2. assert (j = 2 * i ∨ j = 2 * i + 1) as [->| ->] by lia; [|apply Hl2; lia].
    eapply le_at_trans; [apply Hl1; lia|done]. }
  case_bool_decide as Hmi.
  - apply wp_ret. split; [|apply rearranged_refl]. intros j Hj Hj2.
    destruct (decide (j / 2 = i)) as [<-|]; [|by apply Hh]. rewrite <- Hmi. by apply Hch.
  - assert (m2 / 2 = i ∧ m2 ≤ cnt) as [Hm Hmc] by lia. apply wp_bind.
    eapply wp_mono; [apply do_swap_spec; lia|]. intros [] l' Hsw. pose proof Hsw as (Hlen&_&_).
    eapply wp_mono; [apply IH|].
    + eapply floating_step; eauto. by eapply le_at_trans.
    + lia.
    + lia.
    + lia.
    + intros [] l2 [Hh2 Hr2]. split; [done|]. eapply rearranged_trans; [|done].
      eapply swapped_rearranged; [done|lia..].
Qed.

Lemma heapify_spec l i cnt :
  heap_from l (i + 1) cnt → 1 ≤ i ≤ cnt → cnt ≤ Z.of_nat (length l) < 2 ^ 31 →
  wp (heapify compare i cnt) l (λ _ l', heap_from l' i cnt ∧ rearranged i cnt l l').
Proof.
  intros Hh Hi Hc. apply heapify_loop_spec; [|lia..]. split; [lia| |lia|lia]. intros j Hj Hj2 Hne.
  apply Hh; lia.
Qed.

(** *** Building the heap and taking it apart *)
Lemma build_loop_spec n l cnt :
  heap_from l (Z.of_nat n + 1) cnt → Z.of_nat n ≤ cnt ≤ Z.of_nat (length l) → Z.of_nat (length l) < 2 ^ 31 →
  wp (build_loop compare n cnt) l (λ _ l', heap_from l' 1 cnt ∧ length l' = length l ∧ l' ≡ₚ l).
Proof.
  revert l. induction n as [|n IH]; intros l Hh Hc Hl; [by apply wp_ret|].
  cbn [build_loop]. apply wp_bind. eapply wp_mono; [apply heapify_spec; [done|lia..]|].
  intros [] l1 [H1 [Hlen Hp _ _]]. eapply wp_mono; [apply IH|].
  - replace (Z.of_nat n + 1) with (Z.of_nat (S n)) by lia. done.
  - lia.
  - lia.
  - intros [] l2 (?&?&?). split_and!; [done|congruence|by etrans].
Qed.

Lemma heap_root l cnt j : heap_from l 1 cnt → 1 ≤ j ≤ cnt → cnt ≤ Z.of_nat (length l) → le_at l j 1.
Proof.
  intros Hh Hj Hc. revert Hj. induction (Z.lt_wf 0 j) as [j _ IH]. intros Hj.
  destruct (decide (j = 1)) as [->|]; [apply le_at_refl; lia|].
  eapply le_at_trans; [apply Hh; lia|]. apply IH; lia.
Qed.

(** The elements behind index [i] are in their places. *)
Definition settled l (i : Z) : Prop := ∀ a b, i < b → 1 ≤ a ≤ b → b ≤ Z.of_nat (length l) → le_at l a b.

Lemma settled_step l l1 l2 n :
  heap_from l 1 (n + 1) → settled l (n + 1) → 1 ≤ n → n + 1 ≤ Z.of_nat (length l) →
  swapped l 1 (n + 1) l1 → rearranged 1 n l1 l2 → settled l2 n.
Proof.
  intros Hh Hs Hn Hl Hsw [Hlen _ Hout Hin] a b Hb Hab Hbl. pose proof Hsw as (Hlen1&_&_).
  assert (∃ k, 1 ≤ k ≤ b ∧ (a ≤ n + 1 → k ≤ n + 1) ∧ at_ l2 a = at_ l k) as (k&Hk&Hkn&Ha).
  { destruct (decide (a ≤ n)).
    - destruct (Hin a ltac:(lia)) as (k&Hk&->). rewrite (swapped_at l 1 (n + 1) l1) by done.
      eexists; split_and!; [..|done]; unfold transposed; repeat case_bool_decide; lia.
    - rewrite (Hout a), (swapped_at l 1 (n + 1) l1) by (done || lia).
      eexists; split_and!; [..|done]; unfold transposed; repeat case_bool_decide; lia. }
  assert (at_ l2 b = at_ l (if bool_decide (b = n + 1) then 1 else b)) as Hb2.
  { rewrite (Hout b), (swapped_at l 1 (n + 1) l1) by (done || lia). f_equal. unfold transposed.
    repeat case_bool_decide; lia. }
  unfold le_at. rewrite Ha, Hb2. case_bool_decide as Hbn.
  - apply (heap_root l (n + 1) k); [done|lia..].
  - apply (Hs k b); lia.
Qed.

Lemma sort_loop_spec n l :
  heap_from l 1 (Z.of_nat n + 1) → settled l (Z.of_nat n + 1) →
  (Z.of_nat n + 1 ≤ Z.of_nat (length l) ∨ n = O) → Z.of_nat (length l) < 2 ^ 31 →
  wp (sort_loop compare n) l (λ _ l', settled l' 1 ∧ l' ≡ₚ l).
Proof.
  revert l. induction n as [|n IH]; intros l Hh Hs Hn Hl; [by apply wp_ret|]. cbn [sort_loop]. apply wp_bind.
  eapply wp_mono; [apply do_swap_spec; lia|]. intros [] l1 Hsw. pose proof Hsw as (Hlen1&Hp1&_).
  apply wp_bind. eapply wp_mono; [apply heapify_spec|].
  - intros j Hj Hj2. rewrite swapped_le_at by done. unfold transposed. rewrite !bool_decide_false by lia.
    apply Hh; lia.
  - lia.
  - lia.
  - intros [] l2 [Hh2 Hr2]. pose proof Hr2 as [Hlen2 Hp2 _ _].
    replace (Z.of_nat n + 1) with (Z.of_nat (S n)) in * by lia. eapply wp_mono; [apply IH|].
    + done.
    + eapply settled_step; [done|done|lia|lia|done|done].
    + lia.
    + lia.
    + intros [] l3 [Hs3 Hp3]. split; [done|]. by rewrite Hp3, Hp2.
Qed.

Lemma settled_sorted l : settled l 1 → StronglySorted (λ a b, compare a b ≤ 0) l.
Proof.
  intros Hs. assert (∀ i j x y, (i < j)%nat → l !! i = Some x → l !! j = Some y → compare x y ≤ 0) as H.
  { intros i j x y Hij Hx Hy. pose proof (lookup_lt_Some _ _ _ Hy).
    specialize (Hs (Z.of_nat i + 1) (Z.of_nat j + 1) ltac:(lia) ltac:(lia) ltac:(lia)). unfold le_at, at_ in Hs.
    rewrite !bool_decide_true in Hs by lia. rewrite !Z.add_simpl_r, !Nat2Z.id, Hx, Hy in Hs. done. }
  clear Hs. induction l as [|x l IH]; constructor.
  - apply IH. intros i j a b Hij Ha Hb. by apply (H (S i) (S j)); [lia|..].
  - apply Forall_lookup. intros i y Hy. by apply (H O (S i)); [lia|..].
Qed.

Lemma sort_spec l :
  Z.of_nat (length l) < 2 ^ 31 →
  wp (sort compare (Z.of_nat (length l))) l (λ _ l', StronglySorted (λ a b, compare a b ≤ 0) l' ∧ l' ≡ₚ l).
Proof.
  intros Hl. unfold sort. apply wp_bind. eapply wp_mono; [apply build_loop_spec|].
  - intros j Hj Hj2. lia.
  - lia.
  - done.
  - intros [] l1 (Hh&Hlen&Hp). eapply wp_mono; [apply sort_loop_spec|].
    + intros j Hj Hj2. apply Hh; lia.
    + intros a b Hb Hab Hbl. lia.
    + lia.
    + lia.
    + intros [] l2 [Hs Hp2]. split; [by apply settled_sorted|]. by etrans.
Qed.

End HeapSort.

(** ** Binary search *)

(** The reference: the first element that compares equal, by a scan. *)
Fixpoint linear_search {A} (compare : A → A → Z) (key : A) (l : list A) (i : Z) : option Z :=
  match l with
  | [] => None
  | m :: r => if bool_decide (compare key m = 0) then Some i else linear_search compare key r (i + 1)
  end.

Section Search.
Context {A : Type} (compare : A → A → Z) `{!Ordering compare}.
Implicit Types l : list A.

Lemma linear_search_None key l i : linear_search compare key l i = None ↔ ∀ m, m ∈ l → compare key m ≠ 0.
Proof.
  revert i. induction l as [|x l IH]; intros i; simpl; [split; [by intros _ m ?%elem_of_nil|done]|].
  setoid_rewrite elem_of_cons. case_bool_decide as Hx; [split; [done|]|rewrite IH; naive_solver].
  intros H. exfalso. by apply (H x); [left|].
Qed.

Lemma sorted_lookup l (i j : nat) x y :
  StronglySorted (λ a b, compare a b ≤ 0) l → l !! i = Some x → l !! j = Some y → (i < j)%nat → compare x y ≤ 0.
Proof.
  intros Hs. revert i j. induction Hs as [|z l Hs IH Hz]; intros i j Hi Hj Hij; [done|].
  destruct j as [|j]; [lia|]. destruct i as [|i]; simpl in *.
  - simplify_eq. rewrite Forall_lookup in Hz. by eapply Hz.
  - by apply (IH i j); [..|lia].
Qed.

(** The part of the array behind a greater element has no match... *)
Lemma no_match_above key m x : compare key m < 0 → compare m x ≤ 0 → compare key x ≠ 0.
Proof.
  intros Hk Hm He. pose proof (ord_sym m key). pose proof (ord_sym x key). pose proof (ord_sym key x).
  assert (compare m key ≤ 0) by (apply (ord_trans m x key); lia). lia.
Qed.
(** ... nor has the part before a smaller one. *)
Lemma no_match_below key m x : compare key m > 0 → compare x m ≤ 0 → compare key x ≠ 0.
Proof.
  intros Hk Hm He. assert (compare key m ≤ 0) by (apply (ord_trans key x m); lia). lia.
Qed.

Lemma search_loop_spec fuel key l first last :
  StronglySorted (λ a b, compare a b ≤ 0) l →
  0 ≤ first ≤ last → last ≤ Z.of_nat (length l) → last - first < Z.of_nat fuel →
  (∀ i x, l !! i = Some x → Z.of_nat i < first ∨ last ≤ Z.of_nat i → compare key x ≠ 0) →
  ∃ r, search_loop compare fuel key l first last = Ret r ∧
    match r with
    | Some i => ∃ m, 0 ≤ i ∧ l !! Z.to_nat i = Some m ∧ compare key m = 0
    | None => ∀ m, m ∈ l → compare key m ≠ 0
    end.
Proof.
  intros Hs. revert first last. induction fuel as [|fuel IH]; intros first last Hf Hl Hfu Hout; simpl.
  { exists None. exfalso. lia. }
  case_bool_decide as Hlt.
  2:{ eexists; split; [done|]. intros m [i Hi]%list_elem_of_lookup_1. apply (Hout i); [done|lia]. }
  destruct (lookup_lt_is_Some_2 l (Z.to_nat (first + (last - first) / 2))) as [m Hm]; [lia|]. rewrite Hm.
  repeat case_bool_decide.
  - apply IH; [lia..|]. intros i x Hi [Hi1|Hi1]; [apply (Hout i); [done|lia]|].
    destruct (decide (i = Z.to_nat (first + (last - first) / 2))) as [->|]; [simplify_eq; lia|].
    eapply no_match_above; [done|]. eapply sorted_lookup; [done..|lia].
  - apply IH; [lia..|]. intros i x Hi [Hi1|Hi1]; [|apply (Hout i); [done|lia]].
    destruct (decide (i = Z.to_nat (first + (last - first) / 2))) as [->|]; [simplify_eq; lia|].
    eapply no_match_below; [done|]. eapply sorted_lookup; [done..|lia].
  - eexists; split; [done|]. exists m. split_and!; [lia|done|lia].
Qed.

End Search.

(** ** Properties *)

(** C29: [sort] (and so [qsort]) terminates on every array of fewer than 2^31
    elements without touching memory outside of it, leaves the elements in
    order for any strcmp-like total preorder, and only permutes them. *)
Theorem sort_sorts {A} (compare : A → A → Z) (HO : Ordering compare) (array : list A) :
  Z.of_nat (length array) < 2 ^ 31 →
  ∃ array', sort compare (Z.of_nat (length array)) array = Ret (tt, array') ∧
    StronglySorted (λ a b, compare a b ≤ 0) array' ∧ array' ≡ₚ array.
Proof.
  intros Hl. pose proof (sort_spec compare array Hl) as H. apply wp_outcome in H as ([]&l'&?&?&?). eauto.
Qed.

#[export] Instance Z_Ordering : Ordering Z.sub.
Proof. split; intros; lia. Qed.

Lemma sort_sorts_witness : ∃ l, sort Z.sub 5 [5; 1; 4; 1; 3] = Ret (tt, l) ∧ StronglySorted (λ a b, a - b ≤ 0) l.
Proof.
  destruct (sort_sorts Z.sub Z_Ordering [5; 1; 4; 1; 3]) as (l&?&?&_); [simpl; lia|]. by exists l.
Defined.

(** [binary_search] (and so [bsearch]) on a sorted array terminates
    inside of the array, returns only an element that compares equal to the
    key, and returns none exactly when a scan of the whole array finds none. *)
Theorem binary_search_linear {A} (compare : A → A → Z) (HO : Ordering compare) (key : A) (array : list A) :
  StronglySorted (λ a b, compare a b ≤ 0) array →
  ∃ r, binary_search compare key array (Z.of_nat (length array)) = Ret r ∧
    (r = None ↔ linear_search compare key array 0 = None) ∧
    ∀ i, r = Some i → ∃ m, 0 ≤ i ∧ array !! Z.to_nat i = Some m ∧ compare key m = 0.
Proof.
  intros Hs. destruct (search_loop_spec compare (S (length array)) key array 0 (Z.of_nat (length array)))
    as (r&Hr&Hm); [done|lia..| |].
  { intros i x Hi%lookup_lt_Some. lia. }
  exists r. unfold binary_search. rewrite Nat2Z.id. split; [done|]. rewrite linear_search_None.
  destruct r as [i|]; [|naive_solver]. destruct Hm as (m&Hi&Hm&He). split; [|naive_solver].
  split; [done|]. intros Hn. by destruct (Hn m); [apply list_elem_of_lookup_2 in Hm|].
Qed.

Lemma binary_search_linear_witness :
  ∃ r, binary_search Z.sub 4 [1; 3; 4; 7] 4 = Ret r ∧ (r = None ↔ linear_search Z.sub 4 [1; 3; 4; 7] 0 = None).
Proof.
  destruct (binary_search_linear Z.sub Z_Ordering 4 [1; 3; 4; 7]) as (r&?&?&_); [repeat constructor; lia|].
  by exists r.
Defined.

(** On examples. *)
Example sort_example : sort Z.sub 5 [5; 1; 4; 1; 3] = Ret (tt, [1; 1; 3; 4; 5]).
Proof. reflexivity. Qed.
Example binary_search_hit : binary_search Z.sub 4 [1; 3; 4; 7] 4 = Ret (Some 2).
Proof. reflexivity. Qed.
Example binary_search_miss : binary_search Z.sub 5 [1; 3; 4; 7] 4 = Ret None.
Proof. reflexivity. Qed.
