(* ===== verification/Str.v ===== *)
(** * Strings and blocks of memory (lib/string.c)

    Byte-addressed memory is a finite map; an access outside of it is
    undefined behaviour.  A loop over a string is given as fuel the number of
    mapped bytes: it reads another address in every turn. *)

From S2P Require Import Prelude.
Local Open Scope Z_scope.

(** ** Memory *)
Notation mem := (gmap Z Z).
Definition NULL : Z := 0.

Definition load (p : Z) : M mem Z := m ← get_state; deref (m !! p).
Definition store (p v : Z) : M mem unit :=
  m ← get_state; _ ← deref (m !! p); put_state (<[p := v]> m).
Definition bytes_mapped : M mem nat := gets (λ m, S (size m)).

(** [ASSERT (p != NULL || size == 0)] *)
Definition assert_block (p size : Z) : M mem unit :=
  ASSERT (bool_decide (p ≠ NULL) || bool_decide (size = 0)).
Definition assert_nonnull (p : Z) : M mem unit := ASSERT (bool_decide (p ≠ NULL)).

(** ** Blocks *)
Fixpoint copy_forward (size : nat) (dst src : Z) : M mem unit :=
  match size with
  | O => ret tt
  | S size => v ← load src; store dst v;; copy_forward size (dst + 1) (src + 1)
  end.
(** [dst] and [src] point behind what is left to copy. *)
Fixpoint copy_backward (size : nat) (dst src : Z) : M mem unit :=
  match size with
  | O => ret tt
  | S size => v ← load (src - 1); store (dst - 1) v;; copy_backward size (dst - 1) (src - 1)
  end.

Definition memcpy (dst src size : Z) : M mem Z :=
  assert_block dst size;;
  assert_block src size;;
  copy_forward (Z.to_nat size) dst src;;
  ret dst.

(** The local [dst] is what is returned, not the argument. *)
Definition memmove (dst src size : Z) : M mem Z :=
  assert_block dst size;;
  assert_block src size;;
  if bool_decide (dst < src) then
    copy_forward (Z.to_nat size) dst src;; ret (dst + size)
  else
    copy_backward (Z.to_nat size) (dst + size) (src + size);; ret dst.

Fixpoint memcmp_loop (size : nat) (a b : Z) : M mem Z :=
  match size with
  | O => ret 0
  | S size =>
      x ← load a; y ← load b;
      if bool_decide (x ≠ y) then ret (if bool_decide (x > y) then 1 else -1)
      else memcmp_loop size (a + 1) (b + 1)
  end.
Definition memcmp (a b size : Z) : M mem Z :=
  assert_block a size;; assert_block b size;; memcmp_loop (Z.to_nat size) a b.

Fixpoint memchr_loop (size : nat) (block ch : Z) : M mem Z :=
  match size with
  | O => ret NULL
  | S size =>
      x ← load block;
      if bool_decide (x = ch) then ret block else memchr_loop size (block + 1) ch
  end.
Definition memchr (block ch size : Z) : M mem Z :=
  assert_block block size;; memchr_loop (Z.to_nat size) block (u8 ch).

Fixpoint memset_loop (size : nat) (dst value : Z) : M mem unit :=
  match size with
  | O => ret tt
  | S size => store dst value;; memset_loop size (dst + 1) value
  end.
Definition memset (dst value size : Z) : M mem Z :=
  assert_block dst size;; memset_loop (Z.to_nat size) dst (u8 value);; ret dst.

(** ** Strings *)
Fixpoint strcmp_loop (fuel : nat) (a b : Z) : M mem Z :=
  match fuel with
  | O => fail OutOfFuel
  | S fuel =>
      x ← load a; y ← load b;
      if bool_decide (x ≠ 0) && bool_decide (x = y) then strcmp_loop fuel (a + 1) (b + 1)
      else ret (if bool_decide (x < y) then -1 else if bool_decide (x > y) then 1 else 0)
  end.
Definition strcmp (a b : Z) : M mem Z :=
  assert_nonnull a;; assert_nonnull b;; n ← bytes_mapped; strcmp_loop n a b.

Fixpoint strlen_loop (fuel : nat) (string p : Z) : M mem Z :=
  match fuel with
  | O => fail OutOfFuel
  | S fuel =>
      x ← load p;
      if bool_decide (x ≠ 0) then strlen_loop fuel string (p + 1) else ret (p - string)
  end.
Definition strlen (string : Z) : M mem Z :=
  assert_nonnull string;; n ← bytes_mapped; strlen_loop n string string.

(** [string[length]] is read before [length] is compared. *)
Fixpoint strnlen_loop (fuel : nat) (string maxlen length : Z) : M mem Z :=
  match fuel with
  | O => fail OutOfFuel
  | S fuel =>
      x ← load (string + length);
      if bool_decide (x ≠ 0) && bool_decide (length < maxlen)
      then strnlen_loop fuel string maxlen (length + 1) else ret length
  end.
Definition strnlen (string maxlen : Z) : M mem Z :=
  n ← bytes_mapped; strnlen_loop n string maxlen 0.

Fixpoint strchr_loop (fuel : nat) (string c : Z) : M mem Z :=
  match fuel with
  | O => fail OutOfFuel
  | S fuel =>
      x ← load string;
      if bool_decide (x = c) then ret string
      else if bool_decide (x = 0) then ret NULL
      else strchr_loop fuel (string + 1) c
  end.
Definition strchr (string c : Z) : M mem Z :=
  assert_nonnull string;; n ← bytes_mapped; strchr_loop n string (u8 c).

(** The loops of [strcspn] ([stop_if] is true) and [strspn] (false). *)
Fixpoint span_loop (fuel : nat) (stop_if : bool) (string set length : Z) : M mem Z :=
  match fuel with
  | O => fail OutOfFuel
  | S fuel =>
      x ← load (string + length);
      if bool_decide (x ≠ 0) then
        q ← strchr set x;
        if Bool.eqb (bool_decide (q ≠ NULL)) stop_if then ret length
        else span_loop fuel stop_if string set (length + 1)
      else ret length
  end.
Definition strcspn (string stop : Z) : M mem Z := n ← bytes_mapped; span_loop n true string stop 0.
Definition strspn (string skip : Z) : M mem Z := n ← bytes_mapped; span_loop n false string skip 0.

Fixpoint strpbrk_loop (fuel : nat) (string stop : Z) : M mem Z :=
  match fuel with
  | O => fail OutOfFuel
  | S fuel =>
      x ← load string;
      if bool_decide (x ≠ 0) then
        q ← strchr stop x;
        if bool_decide (q ≠ NULL) then ret string else strpbrk_loop fuel (string + 1) stop
      else ret NULL
  end.
Definition strpbrk (string stop : Z) : M mem Z := n ← bytes_mapped; strpbrk_loop n string stop.

Fixpoint strrchr_loop (fuel : nat) (string c p : Z) : M mem Z :=
  match fuel with
  | O => fail OutOfFuel
  | S fuel =>
      x ← load string;
      if bool_decide (x ≠ 0)
      then strrchr_loop fuel (string + 1) c (if bool_decide (x = c) then string else p)
      else ret p
  end.
Definition strrchr (string c : Z) : M mem Z := n ← bytes_mapped; strrchr_loop n string (u8 c) NULL.

(** [n] values of [i] are left. *)
Fixpoint strstr_loop (n : nat) (haystack needle needle_len i : Z) : M mem Z :=
  match n with
  | O => ret NULL
  | S n =>
      c ← memcmp (haystack + i) needle needle_len;
      if bool_decide (c = 0) then ret (haystack + i)
      else strstr_loop n haystack needle needle_len (i + 1)
  end.
Definition strstr (haystack needle : Z) : M mem Z :=
  haystack_len ← strlen haystack;
  needle_len ← strlen needle;
  if bool_decide (haystack_len >= needle_len)
  then strstr_loop (Z.to_nat (haystack_len - needle_len + 1)) haystack needle needle_len 0
  else ret NULL.

(** [strtok_r] with the value of [*save_ptr] as an argument and a result. *)
Fixpoint skip_delimiters (fuel : nat) (s delimiters : Z) : M mem (option Z * Z) :=
  match fuel with
  | O => fail OutOfFuel
  | S fuel =>
      x ← load s;
      q ← strchr delimiters x;
      if bool_decide (q ≠ NULL) then
        if bool_decide (x = 0) then ret (None, s) else skip_delimiters fuel (s + 1) delimiters
      else ret (Some s, s)
  end.
Fixpoint skip_token (fuel : nat) (s delimiters : Z) : M mem Z :=
  match fuel with
  | O => fail OutOfFuel
  | S fuel =>
      x ← load s;
      q ← strchr delimiters x;
      if bool_decide (q = NULL) then skip_token fuel (s + 1) delimiters else ret s
  end.
Definition strtok_r (s delimiters save : Z) : M mem (Z * Z) :=
  assert_nonnull delimiters;;
  let s := if bool_decide (s = NULL) then save else s in
  assert_nonnull s;;
  n ← bytes_mapped;
  ' (start, s) ← skip_delimiters n s delimiters;
  match start with
  | None => ret (NULL, s)
  | Some token =>
      s ← skip_token n token delimiters;
      x ← load s;
      if bool_decide (x ≠ 0) then store s 0;; ret (token, s + 1) else ret (token, s)
  end.

Definition strlcpy (dst src size : Z) : M mem Z :=
  assert_nonnull dst;; assert_nonnull src;;
  src_len ← strlen src;
  (if bool_decide (size > 0) then
     let dst_len := size - 1 in
     let dst_len := if bool_decide (src_len < dst_len) then src_len else dst_len in
     _ ← memcpy dst src dst_len;
     store (dst + dst_len) 0
   else ret tt);;
  ret src_len.

Definition strlcat (dst src size : Z) : M mem Z :=
  assert_nonnull dst;; assert_nonnull src;;
  src_len ← strlen src;
  dst_len ← strlen dst;
  (if bool_decide (size > 0) && bool_decide (dst_len < size) then
     let copy_cnt := size - dst_len - 1 in
     let copy_cnt := if bool_decide (src_len < copy_cnt) then src_len else copy_cnt in
     _ ← memcpy (dst + dst_len) src copy_cnt;
     store (dst + dst_len + copy_cnt) 0
   else ret tt);;
  ret (src_len + dst_len).

(** ** What memory holds *)

(** The bytes [l] are at [p]. *)
Fixpoint bytes_at (m : mem) (p : Z) (l : list Z) : Prop :=
  match l with [] => True | x :: r => m !! p = Some x ∧ bytes_at m (p + 1) r end.

(** The string [l], with its terminator, is at [p]. *)
Definition str_at (m : mem) (p : Z) (l : list Z) : Prop := bytes_at m p (l ++ [0]) ∧ 0 ∉ l.

(** The [n] bytes from [p] on are mapped. *)
Definition mapped (m : mem) (p n : Z) : Prop := ∀ a, p ≤ a < p + n → a ∈ dom m.

(** [m'] is [m] with the bytes [l] written at [p]. *)
Definition writes (m : mem) (p : Z) (l : list Z) (m' : mem) : Prop :=
  bytes_at m' p l ∧ (∀ a, a < p ∨ p + Z.of_nat (length l) ≤ a → m' !! a = m !! a) ∧ dom m' = dom m.

Section Memory.
Implicit Types (m : mem) (l : list Z).

Lemma bytes_at_app m p l1 l2 :
  bytes_at m p (l1 ++ l2) ↔ bytes_at m p l1 ∧ bytes_at m (p + Z.of_nat (length l1)) l2.
Proof.
  revert p. induction l1 as [|x l1 IH]; intros p; cbn [length app bytes_at].
  - rewrite Z.add_0_r. tauto.
  - rewrite IH. replace (p + 1 + Z.of_nat (length l1)) with (p + Z.of_nat (S (length l1))) by lia. tauto.
Qed.

Lemma bytes_at_lookup m p l i x :
  bytes_at m p l → l !! i = Some x → m !! (p + Z.of_nat i) = Some x.
Proof.
  revert p i. induction l as [|y l IH]; intros p i Hb Hi; [done|]. destruct Hb as [Hy Hb].
  destruct i as [|i]; simpl in Hi.
  - simplify_eq. by replace (p + Z.of_nat 0) with p by lia.
  - replace (p + Z.of_nat (S i)) with (p + 1 + Z.of_nat i) by lia. by apply IH.
Qed.

Lemma bytes_at_frame m m' p l :
  (∀ a, p ≤ a < p + Z.of_nat (length l) → m' !! a = m !! a) → bytes_at m p l → bytes_at m' p l.
Proof.
  revert p. induction l as [|x l IH]; intros p Hf; [done|]. intros [Hx Hb]. simpl in Hf. split.
  - rewrite Hf by lia. done.
  - apply IH; [|done]. intros a Ha. apply Hf. lia.
Qed.

Lemma bytes_at_size m p l : bytes_at m p l → (length l ≤ size m)%nat.
Proof.
  revert m p. induction l as [|x l IH]; intros m p; simpl; [lia|]. intros [Hx Hb].
  assert (length l ≤ size (delete p m))%nat.
  { apply (IH _ (p + 1)). eapply bytes_at_frame; [|exact Hb]. intros a Ha. by rewrite lookup_delete_ne by lia. }
  rewrite map_size_delete, Hx in H. assert (size m ≠ 0%nat) by (intros ?%map_size_empty_inv; set_solver). lia.
Qed.

Lemma bytes_at_mapped m p l : bytes_at m p l → mapped m p (Z.of_nat (length l)).
Proof.
  intros Hb a Ha. destruct (lookup_lt_is_Some_2 l (Z.to_nat (a - p))) as [x Hx]; [lia|].
  pose proof (bytes_at_lookup _ _ _ _ _ Hb Hx) as E. replace (p + Z.of_nat (Z.to_nat (a - p))) with a in E by lia.
  by apply elem_of_dom_2 in E.
Qed.

Lemma mapped_sub m p n p' n' : mapped m p n → p ≤ p' → p' + n' ≤ p + n → mapped m p' n'.
Proof. intros H Hp Hn a Ha. apply H. lia. Qed.
Lemma mapped_dom m m' p n : dom m' = dom m → mapped m p n → mapped m' p n.
Proof. unfold mapped. by intros ->. Qed.

Lemma wp_load_byte p x m Q : m !! p = Some x → Q x m → wp (load p) m Q.
Proof. intros Hx HQ. unfold load. wp_steps. by rewrite Hx. Qed.
Lemma wp_store p v m (Q : unit → mem → Prop) : p ∈ dom m → Q tt (<[p := v]> m) → wp (store p v) m Q.
Proof. intros [x Hx]%elem_of_dom HQ. unfold store. wp_steps. by rewrite Hx. Qed.

Lemma dom_insert_same m p v : p ∈ dom m → dom (<[p := v]> m) = dom m.
Proof. intros Hp. rewrite dom_insert_L. set_solver. Qed.

Lemma writes_nil m p : writes m p [] m.
Proof. done. Qed.

(** A block is written from the front, or from the back. *)
Lemma writes_cons m m' p x l : p ∈ dom m → writes (<[p := x]> m) (p + 1) l m' → writes m p (x :: l) m'.
Proof.
  intros Hp (Hb & Hf & Hd). rewrite dom_insert_same in Hd by done. split_and!; [|intros a Ha|done].
  - split; [|done]. rewrite Hf by lia. apply lookup_insert_eq.
  - simpl in Ha. rewrite Hf by lia. rewrite lookup_insert_ne by lia. done.
Qed.
Lemma writes_snoc m m' p l x :
  p + Z.of_nat (length l) ∈ dom m → writes (<[p + Z.of_nat (length l) := x]> m) p l m' → writes m p (l ++ [x]) m'.
Proof.
  intros Hp (Hb & Hf & Hd). rewrite dom_insert_same in Hd by done. split_and!; [|intros a Ha|done].
  - apply bytes_at_app. split; [done|]. simpl. split; [|done]. rewrite Hf by lia. apply lookup_insert_eq.
  - rewrite length_app in Ha. simpl in Ha. rewrite Hf by lia. rewrite lookup_insert_ne by lia. done.
Qed.

(** ** Blocks *)

(** Copying forward is right when [dst] is not inside the rest of [src]. *)
Lemma copy_forward_spec m dst src l :
  bytes_at m src l → mapped m dst (Z.of_nat (length l)) →
  (dst ≤ src ∨ src + Z.of_nat (length l) ≤ dst) →
  wp (copy_forward (length l) dst src) m (λ _ m', writes m dst l m').
Proof.
  revert m dst src. induction l as [|x l IH]; intros m dst src Hb Hm Hd; simpl; [by wp_step|].
  destruct Hb as [Hx Hb]. simpl in Hm, Hd. wp_step. eapply wp_load_byte; [exact Hx|]. wp_step.
  assert (dst ∈ dom m) as Hdst by (apply Hm; lia). apply wp_store; [done|].
  eapply wp_mono; [apply IH|].
  - eapply bytes_at_frame; [|exact Hb]. intros a Ha. rewrite lookup_insert_ne by lia. done.
  - apply (mapped_dom m); [by apply dom_insert_same|]. eapply mapped_sub; [exact Hm|lia|lia].
  - lia.
  - intros [] m' Hw. by apply writes_cons.
Qed.

(** Copying backward is right when [dst] is not below [src]. *)
Lemma copy_backward_spec m dst src l :
  bytes_at m src l → mapped m dst (Z.of_nat (length l)) → src ≤ dst →
  wp (copy_backward (length l) (dst + Z.of_nat (length l)) (src + Z.of_nat (length l))) m
    (λ _ m', writes m dst l m').
Proof.
  revert m. induction l as [|x l IH] using rev_ind; intros m Hb Hm Hd; simpl; [by wp_step|].
  rewrite length_app, Nat.add_comm in *. simpl in Hm |- *. apply bytes_at_app in Hb as [Hb [Hx _]]. wp_step.
  replace (src + Z.of_nat (S (length l)) - 1) with (src + Z.of_nat (length l)) by lia.
  replace (dst + Z.of_nat (S (length l)) - 1) with (dst + Z.of_nat (length l)) by lia.
  eapply wp_load_byte; [exact Hx|]. wp_step.
  assert (dst + Z.of_nat (length l) ∈ dom m) as Hdst by (apply Hm; lia). apply wp_store; [done|].
  eapply wp_mono; [apply IH|].
  - eapply bytes_at_frame; [|exact Hb]. intros a Ha. rewrite lookup_insert_ne by lia. done.
  - apply (mapped_dom m); [by apply dom_insert_same|]. eapply mapped_sub; [exact Hm|lia|lia].
  - lia.
  - intros [] m' Hw. by apply writes_snoc.
Qed.

Lemma wp_assert_block p n m (Q : unit → mem → Prop) :
  p ≠ NULL ∨ n = 0 → Q tt m → wp (assert_block p n) m Q.
Proof.
  intros Hp HQ. apply wp_ASSERT; [|done]. apply orb_true_iff. rewrite !bool_decide_eq_true. tauto.
Qed.
Lemma wp_assert_nonnull p m (Q : unit → mem → Prop) : p ≠ NULL → Q tt m → wp (assert_nonnull p) m Q.
Proof. intros Hp HQ. apply wp_ASSERT; [|done]. by apply bool_decide_eq_true. Qed.

Lemma memcpy_spec m dst src l n :
  n = Z.of_nat (length l) → dst ≠ NULL ∨ n = 0 → src ≠ NULL ∨ n = 0 →
  bytes_at m src l → mapped m dst n → (dst ≤ src ∨ src + n ≤ dst) →
  wp (memcpy dst src n) m (λ r m', r = dst ∧ writes m dst l m').
Proof.
  intros -> Hd Hs Hb Hm Ho. unfold memcpy. wp_step. apply wp_assert_block; [done|]. wp_step.
  apply wp_assert_block; [done|]. rewrite Nat2Z.id. wp_step.
  eapply wp_mono; [by apply copy_forward_spec|]. intros [] m' Hw. by wp_step.
Qed.

End Memory.

(** [memmove] copies a block correctly whether or not source and
    destination overlap, and touches nothing else; but when it copies forward
    it returns a pointer to the end of the destination, against its comment. *)
Theorem memmove_correct m dst src l :
  dst ≠ NULL → src ≠ NULL → bytes_at m src l → mapped m dst (Z.of_nat (length l)) →
  ∃ r m', memmove dst src (Z.of_nat (length l)) m = Ret (r, m') ∧ writes m dst l m' ∧
    r = if bool_decide (dst < src) then dst + Z.of_nat (length l) else dst.
Proof.
  intros Hd Hs Hb Hm.
  assert (wp (memmove dst src (Z.of_nat (length l))) m (λ r m', writes m dst l m' ∧
    r = if bool_decide (dst < src) then dst + Z.of_nat (length l) else dst)) as Hw.
  { unfold memmove. wp_step. apply wp_assert_block; [by left|]. wp_step. apply wp_assert_block; [by left|].
    rewrite Nat2Z.id. case_bool_decide; wp_step.
    - eapply wp_mono; [by apply copy_forward_spec; [..|lia]|]. intros [] m' Hw. by wp_step.
    - eapply wp_mono; [by apply copy_backward_spec; [..|lia]|]. intros [] m' Hw. by wp_step. }
  apply wp_outcome in Hw as (r & m' & Hrun & Hw). eauto.
Qed.

(** The bytes [l] at [p], and nothing else. *)
Fixpoint mem_of (p : Z) (l : list Z) : mem :=
  match l with [] => ∅ | x :: r => <[p := x]> (mem_of (p + 1) r) end.

Lemma memmove_correct_witness :
  ∃ r m', memmove 99 100 4 (mem_of 99 [9; 1; 2; 3; 4]) = Ret (r, m') ∧ bytes_at m' 99 [1; 2; 3; 4] ∧ r = 103.
Proof.
  destruct (memmove_correct (mem_of 99 [9; 1; 2; 3; 4]) 99 100 [1; 2; 3; 4]) as (r & m' & H1 & (H2 & _) & H3).
  - discriminate.
  - discriminate.
  - repeat split.
  - intros a Ha. assert (a = 99 ∨ a = 100 ∨ a = 101 ∨ a = 102) as Hc by (simpl in Ha; lia).
    apply elem_of_dom. destruct Hc as [->|[->|[->| ->]]]; eexists; reflexivity.
  - exists r, m'. split; [exact H1|]. split; [exact H2|]. rewrite H3. reflexivity.
Defined.

(** ** Strings *)
Section Strings.
Implicit Types (m : mem) (l d : list Z).

Lemma str_at_nil m p : str_at m p [] ↔ m !! p = Some 0.
Proof. unfold str_at. simpl. set_solver. Qed.
Lemma str_at_cons m p x l : str_at m p (x :: l) ↔ m !! p = Some x ∧ x ≠ 0 ∧ str_at m (p + 1) l.
Proof. unfold str_at. simpl. rewrite not_elem_of_cons. naive_solver. Qed.
Lemma str_at_app m p l1 l2 :
  str_at m p (l1 ++ l2) ↔ bytes_at m p l1 ∧ 0 ∉ l1 ∧ str_at m (p + Z.of_nat (length l1)) l2.
Proof. unfold str_at. rewrite <- app_assoc, bytes_at_app, not_elem_of_app. tauto. Qed.
Lemma str_at_size m p l : str_at m p l → (length l < size m)%nat.
Proof. intros [Hb _]. apply bytes_at_size in Hb. rewrite length_app in Hb. simpl in Hb. lia. Qed.
Lemma str_at_frame m m' p l :
  (∀ a, p ≤ a ≤ p + Z.of_nat (length l) → m' !! a = m !! a) → str_at m p l → str_at m' p l.
Proof.
  intros Hf [Hb Hn]. split; [|done]. eapply bytes_at_frame; [|exact Hb]. rewrite length_app. simpl.
  intros a Ha. apply Hf. lia.
Qed.

Lemma wp_bytes_mapped m (Q : nat → mem → Prop) : Q (S (size m)) m → wp bytes_mapped m Q.
Proof. done. Qed.

Lemma strlen_loop_spec m base p l fuel Q :
  str_at m p l → (length l < fuel)%nat → Q (p + Z.of_nat (length l) - base) m →
  wp (strlen_loop fuel base p) m Q.
Proof.
  revert p fuel. induction l as [|x l IH]; intros p fuel Hs Hf HQ; (destruct fuel as [|fuel]; simpl in *; [lia|]); wp_step.
  - apply str_at_nil in Hs. eapply wp_load_byte; [exact Hs|]. rewrite bool_decide_false by tauto. wp_step. by rewrite Z.add_0_r in HQ.
  - apply str_at_cons in Hs as (Hx & Hn & Hs). eapply wp_load_byte; [exact Hx|]. rewrite bool_decide_true by done.
    apply IH; [done|lia|]. by replace (p + 1 + Z.of_nat (length l) - base) with (p + Z.of_nat (S (length l)) - base) by lia.
Qed.
Lemma strlen_spec m p l (Q : Z → mem → Prop) :
  p ≠ NULL → str_at m p l → Q (Z.of_nat (length l)) m → wp (strlen p) m Q.
Proof.
  intros Hp Hs HQ. unfold strlen. wp_step. apply wp_assert_nonnull; [done|]. wp_step. apply wp_bytes_mapped.
  eapply strlen_loop_spec; [exact Hs|pose proof (str_at_size _ _ _ Hs); lia|].
  by replace (p + Z.of_nat (length l) - p) with (Z.of_nat (length l)) by lia.
Qed.

(** [strchr] says whether the character occurs; the terminator counts. *)
Lemma strchr_loop_spec m p l c fuel (Q : Z → mem → Prop) :
  0 < p → str_at m p l → (length l < fuel)%nat → (∀ r, r = NULL ↔ c ≠ 0 ∧ c ∉ l → Q r m) →
  wp (strchr_loop fuel p c) m Q.
Proof.
  revert p fuel Q. induction l as [|x l IH]; intros p fuel Q Hp Hs Hf HQ; (destruct fuel as [|fuel]; simpl in *; [lia|]); wp_step.
  - apply str_at_nil in Hs. eapply wp_load_byte; [exact Hs|]. case_bool_decide as Hc; [|rewrite (bool_decide_true (0 = 0)) by done]; wp_step; apply HQ; unfold NULL.
    + split; [lia|]. intros [? _]. congruence.
    + split; [|done]. intros _. split; [congruence|set_solver].
  - apply str_at_cons in Hs as (Hx & Hn & Hs). eapply wp_load_byte; [exact Hx|]. case_bool_decide as Hc.
    + wp_step. apply HQ. unfold NULL. split; [lia|]. intros [_ Hc']. set_solver.
    + rewrite bool_decide_false by done. apply IH; [lia|done|lia|]. intros r Hr. apply HQ. rewrite Hr. set_solver.
Qed.
Lemma strchr_spec m p l c (Q : Z → mem → Prop) :
  0 < p → is_u8 c → str_at m p l → (∀ r, r = NULL ↔ c ≠ 0 ∧ c ∉ l → Q r m) → wp (strchr p c) m Q.
Proof.
  intros Hp Hc Hs HQ. unfold strchr. wp_step. apply wp_assert_nonnull; [unfold NULL; lia|]. wp_step. apply wp_bytes_mapped.
  rewrite u8_small by done. eapply strchr_loop_spec; [done|exact Hs|pose proof (str_at_size _ _ _ Hs); lia|done].
Qed.

(** ** Tokens *)

(** The words of [l]: its maximal parts without characters of [d]. *)
Fixpoint words (d w l : list Z) : list (list Z) :=
  match l with
  | [] => match w with [] => [] | _ => [w] end
  | x :: r => if decide (x ∈ d) then match w with [] => words d [] r | _ => w :: words d [] r end
              else words d (w ++ [x]) r
  end.

Lemma words_skip d l1 l2 : Forall (λ x, x ∈ d) l1 → words d [] (l1 ++ l2) = words d [] l2.
Proof. induction 1; simpl; [done|]. by rewrite decide_True. Qed.
Lemma words_token d w l1 l2 : Forall (λ x, x ∉ d) l1 → words d w (l1 ++ l2) = words d (w ++ l1) l2.
Proof.
  intros Hl. revert w. induction Hl as [|x l1 Hx Hl IH]; intros w; simpl; [by rewrite app_nil_r|].
  rewrite decide_False by done. rewrite IH, <- app_assoc. done.
Qed.

Lemma skip_delimiters_spec m p l dp d fuel (Q : option Z * Z → mem → Prop) :
  0 < dp → str_at m dp d → Forall is_u8 l → str_at m p l → (length l < fuel)%nat →
  (Forall (λ x, x ∈ d) l → Q (None, p + Z.of_nat (length l)) m) →
  (∀ l1 x l2, l = l1 ++ x :: l2 → Forall (λ x, x ∈ d) l1 → x ∉ d →
     Q (Some (p + Z.of_nat (length l1)), p + Z.of_nat (length l1)) m) →
  wp (skip_delimiters fuel p dp) m Q.
Proof.
  revert p fuel Q. induction l as [|x l IH]; intros p fuel Q Hdp Hd Hu Hs Hf HQ1 HQ2;
    (destruct fuel as [|fuel]; simpl in *; [lia|]); wp_step.
  - apply str_at_nil in Hs. eapply wp_load_byte; [exact Hs|]. wp_step. eapply strchr_spec; [done|done|exact Hd|].
    intros r Hr. rewrite bool_decide_true by (rewrite Hr; naive_solver).
    rewrite (bool_decide_true (0 = 0)) by done. wp_step. specialize (HQ1 ltac:(constructor)).
    by rewrite Z.add_0_r in HQ1.
  - apply str_at_cons in Hs as (Hx & Hn & Hs). apply Forall_cons in Hu as [Hux Hu].
    eapply wp_load_byte; [exact Hx|]. wp_step. eapply strchr_spec; [done|done|exact Hd|].
    intros r Hr. destruct (decide (x ∈ d)) as [Hin|Hin].
    + rewrite bool_decide_true by (rewrite Hr; naive_solver). rewrite bool_decide_false by done.
      apply IH; [done|done|done|done|lia| |].
      * intros Hall. replace (p + 1 + Z.of_nat (length l)) with (p + Z.of_nat (S (length l))) by lia. apply HQ1. by constructor.
      * intros l1 y l2 -> Hall Hy. replace (p + 1 + Z.of_nat (length l1)) with (p + Z.of_nat (length (x :: l1))) by (simpl; lia).
        by apply (HQ2 (x :: l1) y l2); [|constructor|].
    + rewrite bool_decide_false by (rewrite Hr; naive_solver). wp_step.
      pose proof (HQ2 [] x l eq_refl ltac:(constructor) Hin) as HQ. simpl in HQ. by rewrite Z.add_0_r in HQ.
Qed.

Lemma skip_token_spec m p l dp d fuel (Q : Z → mem → Prop) :
  0 < dp → str_at m dp d → Forall is_u8 l → str_at m p l → (length l < fuel)%nat →
  (∀ l1 l2, l = l1 ++ l2 → Forall (λ x, x ∉ d) l1 → (∀ x r, l2 = x :: r → x ∈ d) → Q (p + Z.of_nat (length l1)) m) →
  wp (skip_token fuel p dp) m Q.
Proof.
  revert p fuel Q. induction l as [|x l IH]; intros p fuel Q Hdp Hd Hu Hs Hf HQ;
    (destruct fuel as [|fuel]; simpl in *; [lia|]); wp_step.
  - apply str_at_nil in Hs. eapply wp_load_byte; [exact Hs|]. wp_step. eapply strchr_spec; [done|done|exact Hd|].
    intros r Hr. rewrite bool_decide_false by (rewrite Hr; naive_solver). wp_step.
    pose proof (HQ [] [] eq_refl ltac:(constructor) ltac:(done)) as H. simpl in H. by rewrite Z.add_0_r in H.
  - apply str_at_cons in Hs as (Hx & Hn & Hs). apply Forall_cons in Hu as [Hux Hu].
    eapply wp_load_byte; [exact Hx|]. wp_step. eapply strchr_spec; [done|done|exact Hd|].
    intros r Hr. destruct (decide (x ∈ d)) as [Hin|Hin].
    + rewrite bool_decide_false by (rewrite Hr; naive_solver). wp_step.
      pose proof (HQ [] (x :: l) eq_refl ltac:(constructor)) as H. simpl in H. rewrite Z.add_0_r in H.
      apply H. by intros ? ? [= <- <-].
    + rewrite bool_decide_true by (rewrite Hr; naive_solver). apply IH; [done|done|done|done|lia|].
      intros l1 l2 -> Hall Hl2. replace (p + 1 + Z.of_nat (length l1)) with (p + Z.of_nat (length (x :: l1))) by (simpl; lia).
      by apply (HQ (x :: l1) l2); [|constructor|].
Qed.

(** [m'] differs from [m] at most at the addresses from [p] to below [q]. *)
Definition only_between (p q : Z) (m m' : mem) : Prop := ∀ a, a < p ∨ q ≤ a → m' !! a = m !! a.

Lemma strtok_r_spec m s save l dp d (p := if bool_decide (s = NULL) then save else s) :
  0 < dp → 0 < p → str_at m dp d → Forall is_u8 l → str_at m p l →
  wp (strtok_r s dp save) m (λ '(token, save') m',
    (token = NULL ∧ words d [] l = [] ∧ m' = m) ∨
    (∃ w l' , words d [] l = w :: words d [] l' ∧ p ≤ token ∧ str_at m' token w ∧ str_at m' save' l' ∧
       (token + Z.of_nat (length w) < save' ∨ token + Z.of_nat (length w) = save' ∧ l' = []) ∧ save' + Z.of_nat (length l') = p + Z.of_nat (length l) ∧
       Forall is_u8 l' ∧ (length l' < length l)%nat ∧ w ≠ [] ∧ 0 < token ∧
       (∀ a, a < p ∨ save' ≤ a → m' !! a = m !! a) ∧ dom m' = dom m)).
Proof.
  intros Hdp Hp Hd Hu Hs. unfold strtok_r. wp_step. apply wp_assert_nonnull; [unfold NULL; lia|]. fold p. wp_step.
  apply wp_assert_nonnull; [unfold NULL; lia|]. wp_step. apply wp_bytes_mapped. wp_step.
  pose proof (str_at_size _ _ _ Hs). eapply (skip_delimiters_spec m p l dp d); [done|done|done|done|lia| |].
  { intros Hall. wp_step. left. split_and!; [done| |done]. rewrite <- (app_nil_r l). by rewrite words_skip. }
  intros l1 x l2 -> Hl1 Hx. apply str_at_app in Hs as (Hb1 & Hn1 & Hs). set (t := p + Z.of_nat (length l1)) in *.
  apply Forall_app in Hu as [Hu1 Hu]. rewrite length_app in *. wp_step.
  eapply (skip_token_spec m t (x :: l2) dp d); [done|done|done|done|lia|].
  intros w l3 E Hw Hl3. assert (w ≠ []) as Hwn.
  { intros ->. simpl in E. apply Hx. by apply (Hl3 x l2). }
  rewrite E in Hs, Hu. rewrite E in *. apply str_at_app in Hs as (Hbw & Hnw & Hs). apply Forall_app in Hu as [_ Hu3]. wp_step.
  rewrite length_app in *. destruct l3 as [|y l3].
  - apply str_at_nil in Hs as Hs0. eapply wp_load_byte; [exact Hs0|]. rewrite bool_decide_false by tauto. wp_step. right.
    exists w, []. assert (str_at m t w) as Hsw by (rewrite <- (app_nil_r w); apply str_at_app; by split_and!).
    assert (words d [] (l1 ++ w ++ []) = [w]) as Hwd
      by (rewrite words_skip, words_token by done; by destruct w).
    assert (0 < length w)%nat by (destruct w; simpl; [done|lia]). simpl.
    split_and!; [exact Hwd|lia|done|done|by right|lia|constructor|lia|done|lia|done|done].
  - apply str_at_cons in Hs as (Hy & Hyn & Hs). eapply wp_load_byte; [exact Hy|]. rewrite bool_decide_true by done. wp_step.
    apply wp_store; [by apply elem_of_dom_2 in Hy|]. wp_step. right. exists w, l3. apply Forall_cons in Hu3 as [_ Hu3].
    assert (y ∈ d) as Hyd by by apply (Hl3 y l3).
    rewrite words_skip, words_token by done. simpl. rewrite decide_True by done. simpl in *.
    split_and!; try done; try lia.
    + by destruct w.
    + split; [|done]. apply bytes_at_app. split; [|by split; [apply lookup_insert_eq|]].
      eapply bytes_at_frame; [|exact Hbw]. intros a Ha. by rewrite lookup_insert_ne by lia.
    + eapply str_at_frame; [|exact Hs]. intros a Ha. by rewrite lookup_insert_ne by lia.
    + intros a Ha. by rewrite lookup_insert_ne by lia.
    + apply dom_insert_same. by apply elem_of_dom_2 in Hy.
Qed.

(** The loop of the comment of [strtok_r] and of [start_process]: the tokens
    of the string at [s], in order. *)
Fixpoint strtok_loop (fuel : nat) (s dp save : Z) : M mem (list Z) :=
  match fuel with
  | O => fail OutOfFuel
  | S fuel =>
      ' (token, save) ← strtok_r s dp save;
      if bool_decide (token = NULL) then ret []
      else ts ← strtok_loop fuel NULL dp save; ret (token :: ts)
  end.

Lemma strtok_loop_spec m s save l dp d fuel (p := if bool_decide (s = NULL) then save else s) :
  0 < dp → 0 < p → str_at m dp d → Forall is_u8 l → str_at m p l →
  (dp + Z.of_nat (length d) < p ∨ p + Z.of_nat (length l) < dp) → (length l < fuel)%nat →
  wp (strtok_loop fuel s dp save) m (λ ts m',
    Forall2 (str_at m') ts (words d [] l) ∧ only_between p (p + Z.of_nat (length l)) m m' ∧
    Forall2 (λ t w, p ≤ t ∧ t + Z.of_nat (length w) ≤ p + Z.of_nat (length l)) ts (words d [] l) ∧ dom m' = dom m).
Proof.
  revert m s save l p. induction fuel as [|fuel IH]; intros m s save l p Hdp Hp Hd Hu Hs Hdis Hf; simpl; [lia|].
  wp_step. eapply wp_mono; [by apply (strtok_r_spec m s save l dp d)|]. fold p. intros [token save'] m1 Hres.
  destruct Hres as [(-> & Hw & ->)|(w & l' & Hw & Ht & Htw & Hs' & Hle & Hend & Hu' & Hlen & Hwn & Htp & Hfr & Hdom)].
  - rewrite bool_decide_true by done. wp_step. rewrite Hw. split_and!; [constructor|done|constructor|done].
  - rewrite bool_decide_false by (unfold NULL; lia). wp_step.
    assert (str_at m1 dp d) as Hd1.
    { eapply str_at_frame; [|exact Hd]. intros a Ha. apply Hfr. lia. }
    specialize (IH m1 NULL save' l'). cbv zeta in IH. rewrite (bool_decide_true (NULL = NULL)) in IH by done.
    eapply wp_mono; [apply IH; [done|lia|done|done|done|lia|lia]|].
    intros ts m2 (HF & Hb & Hr & Hdom2). wp_step. rewrite Hw.
    split_and!; [|intros a Ha; rewrite Hb, Hfr by lia; done| |congruence].
    2:{ constructor; [destruct Hle as [?|[? ->]]; simpl in *; lia|]. eapply Forall2_impl; [exact Hr|].
        intros t w' [? ?]. lia. }
    constructor; [|done]. eapply str_at_frame; [|exact Htw]. intros a Ha. apply Hb.
    destruct Hle as [?|[? ->]]; simpl in *; lia.
Qed.

End Strings.

(** [strtok_r], called until it returns a null pointer as its comment
    shows, yields the words of the string: pointers to its maximal parts
    without delimiters, in order, each terminated; only bytes of the string
    are changed, and the terminator is not. *)
Theorem strtok_r_words m s l dp d :
  0 < dp → 0 < s → str_at m dp d → Forall is_u8 l → str_at m s l →
  (dp + Z.of_nat (length d) < s ∨ s + Z.of_nat (length l) < dp) →
  ∃ ts m', strtok_loop (S (length l)) s dp NULL m = Ret (ts, m') ∧
    Forall2 (str_at m') ts (words d [] l) ∧ only_between s (s + Z.of_nat (length l)) m m'.
Proof.
  intros Hdp Hs Hd Hu Hl Hdis. pose proof (strtok_loop_spec m s NULL l dp d (S (length l))) as HL. cbv zeta in HL.
  rewrite (bool_decide_false (s = NULL)) in HL by (unfold NULL; lia).
  apply wp_outcome in HL as (ts & m' & Hrun & HF & Hb & _); [|done..|lia]. eauto.
Qed.

(** [" String to  tokenize. "] of the comment, shortened: ["  ab c  "]. *)
Definition tok_mem : mem := mem_of 100 [32; 32; 97; 98; 32; 99; 32; 32; 0] ∪ mem_of 10 [32; 0].

Lemma strtok_r_words_witness :
  ∃ ts m', strtok_loop 9 100 10 NULL tok_mem = Ret (ts, m') ∧ Forall2 (str_at m') ts [[97; 98]; [99]].
Proof.
  destruct (strtok_r_words tok_mem 100 [32; 32; 97; 98; 32; 99; 32; 32] 10 [32]) as (ts & m' & H1 & H2 & _).
  - lia.
  - lia.
  - split; [repeat split|]. rewrite list_elem_of_singleton. discriminate.
  - repeat constructor; unfold is_u8; lia.
  - split; [repeat split|]. rewrite !not_elem_of_cons. repeat split; try discriminate. apply not_elem_of_nil.
  - left. simpl. lia.
  - exists ts, m'. split; [exact H1|exact H2].
Defined.

(** ** Copying strings *)
Section Copying.
Implicit Types (m : mem) (l : list Z).

Lemma writes_then_store m m1 p l x :
  writes m p l m1 → p + Z.of_nat (length l) ∈ dom m →
  writes m p (l ++ [x]) (<[p + Z.of_nat (length l) := x]> m1).
Proof.
  intros (Hb & Hf & Hd) Hp. split_and!.
  - apply bytes_at_app. split; [|by split; [apply lookup_insert_eq|]]. eapply bytes_at_frame; [|exact Hb].
    intros a Ha. by rewrite lookup_insert_ne by lia.
  - intros a Ha. rewrite length_app in Ha. simpl in Ha. rewrite lookup_insert_ne by lia. apply Hf. lia.
  - rewrite dom_insert_same; [done|]. by rewrite Hd.
Qed.

Lemma bytes_at_take m p l n : bytes_at m p l → bytes_at m p (take n l).
Proof. intros Hb. rewrite <- (take_drop n l) in Hb. by apply bytes_at_app in Hb as [? _]. Qed.

(** [memcpy] of the first characters of a string, then a terminator. *)
Lemma copy_string_spec m dst src l n :
  dst ≠ NULL → src ≠ NULL → str_at m src l → 0 ≤ n ≤ Z.of_nat (length l) → mapped m dst (n + 1) →
  (dst ≤ src ∨ src + n ≤ dst) →
  wp (_ ← memcpy dst src n; store (dst + n) 0) m (λ _ m', writes m dst (take (Z.to_nat n) l ++ [0]) m').
Proof.
  intros Hd Hs [Hb _] Hn Hm Hov. apply bytes_at_app in Hb as [Hb _].
  assert (Z.of_nat (length (take (Z.to_nat n) l)) = n) as Hlen by (rewrite length_take; lia). wp_step.
  eapply wp_mono; [apply (memcpy_spec m dst src (take (Z.to_nat n) l)); [done|by left|by left|by apply bytes_at_take| |done]|].
  - eapply mapped_sub; [exact Hm|lia|lia].
  - intros r m1 [_ Hw]. assert (dst + n ∈ dom m) as Hin by (apply Hm; lia). apply wp_store.
    + by destruct Hw as (_ & _ & ->).
    + rewrite <- Hlen at 2. apply writes_then_store; [done|]. by rewrite Hlen.
Qed.

Lemma strlcat_spec m dst src l l0 size :
  0 < dst → 0 < src → str_at m src l → str_at m dst l0 → mapped m dst size →
  (dst + size ≤ src ∨ src + Z.of_nat (length l) < dst) →
  wp (strlcat dst src size) m (λ r m', r = Z.of_nat (length l) + Z.of_nat (length l0) ∧
    if decide (Z.of_nat (length l0) < size)
    then writes m (dst + Z.of_nat (length l0)) (take (Z.to_nat (size - Z.of_nat (length l0) - 1)) l ++ [0]) m'
    else m' = m).
Proof.
  intros Hd Hs Hl Hl0 Hm Hov. assert (dst ≠ NULL) by (unfold NULL; lia). assert (src ≠ NULL) by (unfold NULL; lia).
  unfold strlcat. wp_step. apply wp_assert_nonnull; [done|]. wp_step.
  apply wp_assert_nonnull; [done|]. wp_step. eapply strlen_spec; [done|exact Hl|]. wp_step.
  eapply strlen_spec; [done|exact Hl0|]. wp_step. case_decide as Hsz.
  - rewrite !bool_decide_true by lia. simpl. set (n0 := Z.of_nat (length l0)) in *. set (n := Z.of_nat (length l)).
    set (c := if bool_decide (n < size - n0 - 1) then n else size - n0 - 1).
    assert (c = Z.min n (size - n0 - 1)) as Hc by (subst c; case_bool_decide; lia).
    assert (take (Z.to_nat (size - n0 - 1)) l = take (Z.to_nat c) l) as ->.
    { rewrite Hc. destruct (decide (n ≤ size - n0 - 1)).
      - rewrite !take_ge by lia. done.
      - by rewrite Z.min_r by lia. }
    eapply wp_mono; [apply (copy_string_spec m (dst + n0) src l c); [unfold NULL; lia|done|done|lia| |lia]|].
    + eapply mapped_sub; [exact Hm|lia|lia].
    + intros [] m' Hw. by wp_step.
  - rewrite (bool_decide_false (_ < size)) by lia. rewrite andb_false_r. wp_steps. done.
Qed.

Lemma strlcpy_spec m dst src l size :
  0 < dst → 0 < src → str_at m src l → mapped m dst size →
  (dst + size ≤ src ∨ src + Z.of_nat (length l) < dst) →
  wp (strlcpy dst src size) m (λ r m', r = Z.of_nat (length l) ∧
    if decide (0 < size) then writes m dst (take (Z.to_nat (size - 1)) l ++ [0]) m' else m' = m).
Proof.
  intros Hd Hs Hl Hm Hov. assert (dst ≠ NULL) by (unfold NULL; lia). assert (src ≠ NULL) by (unfold NULL; lia).
  unfold strlcpy. wp_step. apply wp_assert_nonnull; [done|]. wp_step.
  apply wp_assert_nonnull; [done|]. wp_step. eapply strlen_spec; [done|exact Hl|]. wp_step. case_decide as Hsz.
  - rewrite bool_decide_true by lia. set (n := Z.of_nat (length l)).
    set (c := if bool_decide (n < size - 1) then n else size - 1).
    assert (c = Z.min n (size - 1)) as Hc by (subst c; case_bool_decide; lia).
    assert (take (Z.to_nat (size - 1)) l = take (Z.to_nat c) l) as ->.
    { rewrite Hc. destruct (decide (n ≤ size - 1)); [rewrite !take_ge by lia; done|by rewrite Z.min_r by lia]. }
    eapply wp_mono; [apply (copy_string_spec m dst src l c); [done|done|done|lia| |lia]|].
    + eapply mapped_sub; [exact Hm|lia|lia].
    + intros [] m' Hw. by wp_step.
  - rewrite bool_decide_false by lia. by wp_steps.
Qed.

End Copying.

(** [strlcpy] and [strlcat] never write outside of the [size] bytes of
    the destination: the first puts the longest prefix of the source that fits
    there, with a terminator, and returns the length of the source; the second
    appends the longest prefix that still fits, with a terminator, and returns
    the sum of the lengths. *)
Theorem strlcpy_strlcat_correct m dst src l size :
  0 < dst → 0 < src → str_at m src l → mapped m dst size → 0 < size →
  (dst + size ≤ src ∨ src + Z.of_nat (length l) < dst) →
  (∃ m', strlcpy dst src size m = Ret (Z.of_nat (length l), m') ∧
     writes m dst (take (Z.to_nat (size - 1)) l ++ [0]) m') ∧
  (∀ l0, str_at m dst l0 → Z.of_nat (length l0) < size →
     ∃ m', strlcat dst src size m = Ret (Z.of_nat (length l) + Z.of_nat (length l0), m') ∧
       writes m (dst + Z.of_nat (length l0)) (take (Z.to_nat (size - Z.of_nat (length l0) - 1)) l ++ [0]) m').
Proof.
  intros Hd Hs Hl Hm Hsz Hov. split.
  - pose proof (strlcpy_spec m dst src l size Hd Hs Hl Hm Hov) as Hw.
    apply wp_outcome in Hw as (r & m' & Hrun & -> & Hw). rewrite decide_True in Hw by done. eauto.
  - intros l0 Hl0 Hlt. pose proof (strlcat_spec m dst src l l0 size Hd Hs Hl Hl0 Hm Hov) as Hw.
    apply wp_outcome in Hw as (r & m' & Hrun & -> & Hw). rewrite decide_True in Hw by done. eauto.
Qed.

Lemma strlcpy_strlcat_correct_witness :
  ∃ m', strlcpy 10 100 4 (mem_of 100 [97; 98; 99; 100; 0] ∪ mem_of 10 [0; 0; 0; 0]) = Ret (4, m') ∧
    bytes_at m' 10 [97; 98; 99; 0].
Proof.
  destruct (strlcpy_strlcat_correct (mem_of 100 [97; 98; 99; 100; 0] ∪ mem_of 10 [0; 0; 0; 0]) 10 100 [97; 98; 99; 100] 4)
    as [(m' & H1 & H2 & _) _].
  - lia.
  - lia.
  - split; [repeat split|]. rewrite !not_elem_of_cons. repeat split; try discriminate. apply not_elem_of_nil.
  - intros a Ha. assert (a = 10 ∨ a = 11 ∨ a = 12 ∨ a = 13) as Hc by lia.
    apply elem_of_dom. destruct Hc as [->|[->|[->| ->]]]; eexists; reflexivity.
  - lia.
  - left. lia.
  - exists m'. split; [exact H1|exact H2].
Defined.

(** ** Words *)

(** A 32-bit word, little-endian. *)
Definition word_bytes (v : Z) : list Z := [v mod 256; v / 2 ^ 8 mod 256; v / 2 ^ 16 mod 256; v / 2 ^ 24 mod 256].
Fixpoint store_list (p : Z) (l : list Z) : M mem unit :=
  match l with [] => ret tt | b :: r => store p b;; store_list (p + 1) r end.
Definition store_word (p v : Z) : M mem unit := store_list p (word_bytes v).
(** [memcpy (p, argv, n * 4)] of an array of words. *)
Definition store_words (p : Z) (ws : list Z) : M mem unit := store_list p (concat (word_bytes <$> ws)).

Definition load_word (p : Z) : M mem Z :=
  a ← load p; b ← load (p + 1); c ← load (p + 2); d ← load (p + 3);
  ret (a + b * 2 ^ 8 + c * 2 ^ 16 + d * 2 ^ 24).
(** The word [v] is at [p]. *)
Definition word_at (m : mem) (p v : Z) : Prop := is_u32 v ∧ bytes_at m p (word_bytes v).

Section Writing.
Implicit Types (m : mem) (l : list Z).

Lemma store_list_spec m p l : mapped m p (Z.of_nat (length l)) → wp (store_list p l) m (λ _ m', writes m p l m').
Proof.
  revert m p. induction l as [|b l IH]; intros m p Hm; cbn [store_list]; [apply wp_ret, writes_nil|].
  assert (p ∈ dom m) as Hp by (apply Hm; cbn [length]; lia). apply wp_bind, wp_store; [done|].
  eapply wp_mono; [apply IH|].
  - eapply mapped_dom; [by apply dom_insert_same|]. eapply mapped_sub; [exact Hm|lia|cbn [length]; lia].
  - intros [] m' Hw. by apply writes_cons.
Qed.

Lemma memset_loop_spec m p v n : mapped m p (Z.of_nat n) → wp (memset_loop n p v) m (λ _ m', writes m p (replicate n v) m').
Proof.
  revert m p. induction n as [|n IH]; intros m p Hm; cbn [memset_loop replicate]; [apply wp_ret, writes_nil|].
  assert (p ∈ dom m) as Hp by (apply Hm; lia). apply wp_bind, wp_store; [done|].
  eapply wp_mono; [apply IH|].
  - eapply mapped_dom; [by apply dom_insert_same|]. eapply mapped_sub; [exact Hm|lia|lia].
  - intros [] m' Hw. by apply writes_cons.
Qed.
Lemma memset_spec m p v n :
  p ≠ Str.NULL → 0 ≤ n → mapped m p n → wp (memset p v n) m (λ _ m', writes m p (replicate (Z.to_nat n) (u8 v)) m').
Proof.
  intros Hp Hn Hm. unfold memset. wp_step. apply wp_assert_block; [by left|]. wp_step.
  eapply wp_mono; [apply memset_loop_spec; by rewrite Z2Nat.id|]. intros [] m' Hw. by wp_step.
Qed.

(** The bytes at an address are determined. *)
Lemma bytes_at_inj m p l1 l2 : bytes_at m p l1 → bytes_at m p l2 → length l1 = length l2 → l1 = l2.
Proof.
  revert p l2. induction l1 as [|x l1 IH]; intros p [|y l2] H1 H2 Hl; [done|done|done|].
  destruct H1 as [Hx H1], H2 as [Hy H2]. injection Hl as Hl. f_equal; [congruence|]. by eapply IH.
Qed.
Lemma mapped_bytes m p n : mapped m p (Z.of_nat n) → ∃ l, bytes_at m p l ∧ length l = n.
Proof.
  revert p. induction n as [|n IH]; intros p Hm; [by exists []|].
  destruct (IH (p + 1)) as (l&Hb&Hl); [eapply mapped_sub; [exact Hm|lia|lia]|].
  assert (p ∈ dom m) as [x Hx]%elem_of_dom by (apply Hm; lia). exists (x :: l). split; [done|]. simpl. by rewrite Hl.
Qed.
Lemma writes_bytes m m' p l : writes m p l m' → bytes_at m' p l.
Proof. by intros (?&_&_). Qed.
(** What is not written stays. *)
Lemma writes_frame m m' p l q k :
  writes m p l m' → bytes_at m q k → q + Z.of_nat (length k) ≤ p ∨ p + Z.of_nat (length l) ≤ q → bytes_at m' q k.
Proof. intros (_&Hf&_) Hb Hd. eapply bytes_at_frame; [|exact Hb]. intros a Ha. apply Hf. lia. Qed.
Lemma writes_frame_str m m' p l q k :
  writes m p l m' → str_at m q k → q + Z.of_nat (length k) < p ∨ p + Z.of_nat (length l) ≤ q → str_at m' q k.
Proof. intros (_&Hf&_) Hb Hd. eapply str_at_frame; [|exact Hb]. intros a Ha. apply Hf. lia. Qed.
Lemma writes_mapped m m' p l q n : writes m p l m' → mapped m q n → mapped m' q n.
Proof. intros (_&_&Hd). by apply mapped_dom. Qed.

(** A store inside of a mapped region, and what follows. *)
Lemma wp_store_list_in {A} m lo n p l (k : unit → M mem A) Q :
  mapped m lo n → lo ≤ p → p + Z.of_nat (length l) ≤ lo + n →
  (∀ m', writes m p l m' → mapped m' lo n → wp (k tt) m' Q) → wp (bind (store_list p l) k) m Q.
Proof.
  intros Hm Hlo Hhi Hk. apply wp_bind. eapply wp_mono; [apply store_list_spec; eapply mapped_sub; [exact Hm|lia|lia]|].
  intros [] m' Hw. apply Hk; [exact Hw|exact (writes_mapped _ _ _ _ _ _ Hw Hm)].
Qed.
Lemma wp_memset_in {A} m lo n p v c (k : Z → M mem A) Q :
  mapped m lo n → 0 < lo → 0 ≤ c → lo ≤ p → p + c ≤ lo + n →
  (∀ r m', writes m p (replicate (Z.to_nat c) (u8 v)) m' → mapped m' lo n → wp (k r) m' Q) →
  wp (bind (memset p v c) k) m Q.
Proof.
  intros Hm H0 Hc Hlo Hhi Hk. apply wp_bind.
  eapply wp_mono; [apply memset_spec; [unfold Str.NULL; lia|lia|eapply mapped_sub; [exact Hm|lia|lia]]|].
  intros r m' Hw. apply Hk; [exact Hw|exact (writes_mapped _ _ _ _ _ _ Hw Hm)].
Qed.

Lemma length_word_bytes v : length (word_bytes v) = 4%nat.
Proof. done. Qed.
Lemma length_words ws : length (concat (word_bytes <$> ws)) = (4 * length ws)%nat.
Proof. induction ws as [|w ws IH]; csimpl; [done|]. rewrite IH. lia. Qed.

Lemma load_word_spec m p v Q : word_at m p v → Q v m → wp (load_word p) m Q.
Proof.
  intros [Hv (H0&H1&H2&H3&_)] HQ. replace (p + 1 + 1 + 1) with (p + 3) in H3 by lia.
  replace (p + 1 + 1) with (p + 2) in H2 by lia. unfold load_word.
  wp_step. eapply wp_load_byte; [exact H0|]. wp_step. eapply wp_load_byte; [exact H1|].
  wp_step. eapply wp_load_byte; [exact H2|]. wp_step. eapply wp_load_byte; [exact H3|]. wp_step.
  replace (v mod 256 + _ + _ + _) with v; [done|]. unfold is_u32 in Hv.
  pose proof (Z.div_mod v (2 ^ 8)). pose proof (Z.div_mod (v / 2 ^ 8) (2 ^ 8)).
  pose proof (Z.div_mod (v / 2 ^ 16) (2 ^ 8)). rewrite !Zdiv_Zdiv in * by lia.
  assert (v / 2 ^ 24 < 2 ^ 8) by (apply Z.div_lt_upper_bound; lia).
  pose proof (Z.div_pos v (2 ^ 24)). rewrite (Z.mod_small (v / 2 ^ 24)) by lia.
  change (2 ^ 8 * 2 ^ 8) with (2 ^ 16) in *. change (2 ^ 16 * 2 ^ 8) with (2 ^ 24) in *.
  change (2 ^ 8) with 256 in *. change (2 ^ 16) with 65536 in *. change (2 ^ 24) with 16777216 in *. lia.
Qed.

Lemma store_word_spec m p v :
  is_u32 v → mapped m p 4 → wp (store_word p v) m (λ _ m', writes m p (word_bytes v) m' ∧ word_at m' p v).
Proof.
  intros Hv Hm. eapply wp_mono; [by apply store_list_spec|]. intros [] m' Hw.
  split; [done|]. split; [done|]. by apply writes_bytes in Hw.
Qed.

Lemma word_at_frame m m' p v : (∀ a, p ≤ a < p + 4 → m' !! a = m !! a) → word_at m p v → word_at m' p v.
Proof. intros Hf [Hv Hb]. split; [done|]. eapply bytes_at_frame; [|exact Hb]. exact Hf. Qed.

End Writing.

(** *** Concrete memories *)
Lemma mem_of_lookup p l i x : l !! i = Some x → mem_of p l !! (p + Z.of_nat i) = Some x.
Proof.
  revert p i. induction l as [|y l IH]; intros p i Hi; [done|]. destruct i as [|i]; cbn [mem_of].
  - injection Hi as ->. rewrite Z.add_0_r. apply lookup_insert_eq.
  - rewrite lookup_insert_ne by lia. replace (p + Z.of_nat (Datatypes.S i)) with (p + 1 + Z.of_nat i) by lia. by apply IH.
Qed.
Lemma mem_of_mapped p l (m : mem) : mapped (mem_of p l ∪ m) p (Z.of_nat (length l)).
Proof.
  intros a Ha. destruct (lookup_lt_is_Some_2 l (Z.to_nat (a - p))) as [x Hx]; [lia|]. apply elem_of_dom. exists x.
  apply lookup_union_Some_l. replace a with (p + Z.of_nat (Z.to_nat (a - p))) by lia. by apply mem_of_lookup.
Qed.
Lemma mem_of_below p l a : a < p ∨ p + Z.of_nat (length l) ≤ a → mem_of p l !! a = None.
Proof.
  revert p. induction l as [|y l IH]; intros p Ha; [done|]. cbn [mem_of length] in *. rewrite lookup_insert_ne by lia.
  apply IH. lia.
Qed.

Lemma mem_of_bytes p l (m : mem) : bytes_at (mem_of p l ∪ m) p l.
Proof.
  assert (∀ k, (∀ i x, k !! i = Some x → (mem_of p l ∪ m) !! (p + Z.of_nat i) = Some x) → bytes_at (mem_of p l ∪ m) p k) as H.
  { generalize (mem_of p l ∪ m) as m'. intros m' k. revert p. induction k as [|x k IH]; intros p Hk; [done|]. split.
    - rewrite <- (Hk O x eq_refl). f_equal. lia.
    - apply IH. intros i y Hy. rewrite <- (Hk (Datatypes.S i) y Hy). f_equal. lia. }
  apply H. intros i x Hi. by apply lookup_union_Some_l, mem_of_lookup.
Qed.
