(* ===== verification/Random.v ===== *)
(** * Random numbers (lib/random.c)

    The RC4 generator: the state table stays a permutation of the bytes, so
    that every access is in range and every byte can come out; the stream of
    bytes depends on the seed only, not on how it is asked for. *)

From S2P Require Import Prelude.
Local Open Scope Z_scope.

(** ** State and operations *)

Record rc4 := mk_rc4 { s : list Z; s_i : Z; s_j : Z; inited : bool }.

Definition swap_byte (a b : Z) : M rc4 unit :=
  r ← get_state;
  x ← deref (s r !! Z.to_nat a);
  y ← deref (s r !! Z.to_nat b);
  put_state (mk_rc4 (<[Z.to_nat b := x]> (<[Z.to_nat a := y]> (s r))) (s_i r) (s_j r) (inited r)).

(** The byte [seedp[i % sizeof seed]] of a little endian word. *)
Definition seed_byte (seed i : Z) : Z := u8 (Z.shiftr seed (8 * Z.rem i 4)).

Fixpoint mix (n : nat) (seed i j : Z) : M rc4 unit :=
  match n with
  | O => ret tt
  | S n =>
      r ← get_state;
      x ← deref (s r !! Z.to_nat i);
      let j := u8 (j + (x + seed_byte seed i)) in
      swap_byte i j;;
      mix n seed (i + 1) j
  end.

Definition random_init (seed : Z) : M rc4 unit :=
  modify (λ r, mk_rc4 (map Z.of_nat (seq 0 256)) (s_i r) (s_j r) (inited r));;
  mix 256 seed 0 0;;
  modify (λ r, mk_rc4 (s r) 0 0 true).

(** One round of the loop of [random_bytes]. *)
Definition random_byte : M rc4 Z :=
  r ← get_state;
  let i := u8 (s_i r + 1) in
  x ← deref (s r !! Z.to_nat i);
  let j := u8 (s_j r + x) in
  put_state (mk_rc4 (s r) i j (inited r));;
  swap_byte i j;;
  r ← get_state;
  x ← deref (s r !! Z.to_nat i);
  y ← deref (s r !! Z.to_nat j);
  deref (s r !! Z.to_nat (u8 (x + y))).

Fixpoint byte_loop (n : nat) : M rc4 (list Z) :=
  match n with
  | O => ret []
  | S n => b ← random_byte; bs ← byte_loop n; ret (b :: bs)
  end.

Definition random_bytes (n : nat) : M rc4 (list Z) :=
  r ← get_state;
  (if inited r then ret tt else random_init 0);;
  byte_loop n.

(** An [unsigned long] has 32 bits. *)
Definition random_ulong : M rc4 Z :=
  bs ← random_bytes 4;
  ret (foldr (λ b acc, b + 256 * acc) 0 bs).

(** ** The table is a permutation of the bytes *)

Definition all_bytes : list Z := map Z.of_nat (seq 0 256).
Definition table_ok (r : rc4) : Prop := s r ≡ₚ all_bytes.
Definition rc4_ok (r : rc4) : Prop := table_ok r ∧ is_u8 (s_i r) ∧ is_u8 (s_j r).

Lemma table_length r : table_ok r → length (s r) = 256%nat.
Proof. intros Hp. by rewrite (Permutation_length Hp). Qed.

Lemma table_lookup r i : table_ok r → is_u8 i → ∃ x, s r !! Z.to_nat i = Some x ∧ is_u8 x.
Proof.
  intros Hp Hi. destruct (lookup_lt_is_Some_2 (s r) (Z.to_nat i)) as [x Hx]; [rewrite table_length by done; word_lia|].
  exists x. split; [done|]. apply list_elem_of_lookup_2 in Hx. unfold table_ok in Hp; rewrite Hp in Hx.
  apply list_elem_of_fmap in Hx as (k&->&Hk%elem_of_seq). word_lia.
Qed.

Lemma swap_byte_spec r a b : table_ok r → is_u8 a → is_u8 b →
  wp (swap_byte a b) r (λ _ r', table_ok r' ∧ s_i r' = s_i r ∧ s_j r' = s_j r ∧ inited r' = inited r).
Proof.
  intros Hr Ha Hb. destruct (table_lookup r a Hr Ha) as (x&Hx&_). destruct (table_lookup r b Hr Hb) as (y&Hy&_).
  unfold swap_byte. wp_step. wp_step. rewrite Hx, Hy. wp_steps. split; [|done].
  unfold table_ok. cbn. by rewrite (Permutation_insert_swap _ _ _ _ _ Hx Hy).
Qed.

Lemma mix_spec n seed : ∀ i j r, table_ok r → 0 ≤ i → i + Z.of_nat n ≤ 256 →
  wp (mix n seed i j) r (λ _ r', table_ok r').
Proof.
  induction n as [|n IH]; intros i j r Hr Hi Hn; [done|]. cbn [mix].
  destruct (table_lookup r i Hr ltac:(word_lia)) as (x&Hx&_). wp_step. wp_step. rewrite Hx. wp_steps.
  eapply wp_mono; [apply swap_byte_spec; [done|word_lia|apply u8_range]|]. intros [] r' (Hr'&_).
  apply IH; [done|lia..].
Qed.

Lemma random_init_spec r seed : wp (random_init seed) r (λ _ r', rc4_ok r' ∧ inited r' = true).
Proof.
  unfold random_init. wp_steps. eapply wp_mono; [apply mix_spec; [unfold table_ok; cbn [s]; reflexivity|lia..]|]. intros [] r' Hr'.
  wp_steps. by repeat split.
Qed.

Lemma random_byte_spec r : rc4_ok r → wp random_byte r (λ b r', is_u8 b ∧ rc4_ok r' ∧ inited r' = inited r).
Proof.
  intros (Hr&Hi&Hj). unfold random_byte. wp_step. wp_step. cbv zeta.
  destruct (table_lookup r (u8 (s_i r + 1)) Hr (u8_range _)) as (x&Hx&_). rewrite Hx. wp_steps.
  eapply wp_mono; [apply swap_byte_spec; [done|apply u8_range..]|]. cbn [s_i s_j inited].
  intros [] r' (Hr'&Hi'&Hj'&Hn'). cbv beta. wp_step. wp_step.
  destruct (table_lookup r' (u8 (s_i r + 1)) Hr' (u8_range _)) as (y&Hy&_). rewrite Hy. wp_steps.
  destruct (table_lookup r' (u8 (s_j r + x)) Hr' (u8_range _)) as (z&Hz&_). rewrite Hz. wp_steps.
  destruct (table_lookup r' (u8 (y + z)) Hr' (u8_range _)) as (b&Hb&Hb8). eapply wp_deref; [done|].
  split; [done|]. split; [|done]. split; [done|]. rewrite Hi', Hj'. split; apply u8_range.
Qed.

Lemma byte_loop_spec n : ∀ r, rc4_ok r →
  wp (byte_loop n) r (λ bs r', length bs = n ∧ Forall is_u8 bs ∧ rc4_ok r' ∧ inited r' = inited r).
Proof.
  induction n as [|n IH]; intros r Hr; [by repeat split; try apply Hr|]. cbn [byte_loop]. wp_step.
  eapply wp_mono; [by apply random_byte_spec|]. intros b r1 (Hb&Hr1&H1). cbv beta. wp_step.
  eapply wp_mono; [by apply IH|]. intros bs r2 (Hl&Hf&Hr2&H2). cbv beta. wp_steps.
  split; [cbn; lia|]. split; [by constructor|]. split; [done|congruence].
Qed.

(** [random_bytes] returns from every state, before or after [random_init]:
    the table is a permutation of the 256 bytes, so that no index is out of
    range. *)
Theorem random_bytes_returns r n : (inited r = true → rc4_ok r) →
  wp (random_bytes n) r (λ bs r', length bs = n ∧ Forall is_u8 bs ∧ rc4_ok r' ∧ inited r' = true).
Proof.
  intros Hr. unfold random_bytes. wp_step. wp_step. wp_step.
  eapply (wp_mono _ _ (λ _ r1, rc4_ok r1 ∧ inited r1 = true)).
  { destruct (inited r) eqn:E; [by wp_steps; split; [apply Hr|]|]. apply random_init_spec. }
  intros [] r1 [H1 E1]. eapply wp_mono; [by apply byte_loop_spec|]. intros bs r2 (Hl&Hf&Hr2&E2). by rewrite E2.
Qed.

Lemma byte_loop_app n m r :
  byte_loop (n + m) r = (xs ← byte_loop n; ys ← byte_loop m; ret (xs ++ ys)) r.
Proof.
  revert r. induction n as [|n IH]; intros r; cbn [byte_loop Nat.add].
  - unfold bind, ret. by destruct (byte_loop m r) as [[ys r']|].
  - unfold bind, ret in *. destruct (random_byte r) as [[b r1]|]; [|done]. rewrite IH.
    destruct (byte_loop n r1) as [[xs r2]|]; [|done]. by destruct (byte_loop m r2) as [[ys r3]|].
Qed.

Local Opaque mix.

(** The stream does not depend on the sizes in which it is asked for. *)
Theorem random_bytes_split r n m : (inited r = true → rc4_ok r) →
  random_bytes (n + m) r = (xs ← random_bytes n; ys ← random_bytes m; ret (xs ++ ys)) r.
Proof.
  intros Hr. assert (∀ r1, inited r1 = true → random_bytes m r1 = byte_loop m r1) as Hin.
  { intros r1 E. unfold random_bytes, bind, get_state. by rewrite E. }
  assert (∃ r1, rc4_ok r1 ∧ inited r1 = true ∧ ∀ k, random_bytes k r = byte_loop k r1) as (r1&H1&E1&Hk).
  { destruct (inited r) eqn:E.
    - exists r. split; [by apply Hr|]. split; [done|]. intros k. unfold random_bytes, bind, get_state. by rewrite E.
    - pose proof (random_init_spec r 0) as Hi. unfold wp in Hi.
      destruct (random_init 0 r) as [[[] r1]|] eqn:Ei; [|contradiction]. destruct Hi as [H1 E1]. exists r1.
      split; [done|]. split; [done|]. intros k. unfold random_bytes, bind, get_state. by rewrite E, Ei. }
  rewrite Hk, byte_loop_app. unfold bind at 1 3. rewrite Hk. pose proof (byte_loop_spec n r1 H1) as Hn. unfold wp in Hn.
  destruct (byte_loop n r1) as [[xs r2]|]; [|contradiction]. destruct Hn as (_&_&_&E2). unfold bind. by rewrite Hin by congruence.
Qed.

(** The table after mixing depends on the table and the seed only. *)
Definition same_table (o1 o2 : outcome (unit * rc4)) : Prop :=
  match o1, o2 with
  | Ret (_, r1), Ret (_, r2) => s r1 = s r2
  | Fail f1, Fail f2 => f1 = f2
  | _, _ => False
  end.

Lemma mix_table n seed : ∀ i j r1 r2, s r1 = s r2 → same_table (mix n seed i j r1) (mix n seed i j r2).
Proof.
  induction n as [|n IH]; intros i j r1 r2 E; [done|]. cbn [mix]. unfold bind, get_state, swap_byte, put_state.
  rewrite E. destruct (s r2 !! Z.to_nat i) as [x|]; [|done]. cbn. unfold bind, get_state. rewrite E.
  destruct (s r2 !! Z.to_nat i) as [y|]; [|done]. cbn. destruct (s r2 !! _) as [z|]; [|done]. cbn. by apply IH.
Qed.

Lemma random_init_same r1 r2 seed : random_init seed r1 = random_init seed r2.
Proof.
  unfold random_init, bind, modify.
  pose proof (mix_table 256 seed 0 0 (mk_rc4 (map Z.of_nat (seq 0 256)) (s_i r1) (s_j r1) (inited r1))
    (mk_rc4 (map Z.of_nat (seq 0 256)) (s_i r2) (s_j r2) (inited r2)) eq_refl) as H.
  revert H. unfold same_table.
  destruct (mix 256 seed 0 0 (mk_rc4 _ (s_i r1) _ _)) as [[[] r1']|], (mix 256 seed 0 0 (mk_rc4 _ (s_i r2) _ _)) as [[[] r2']|];
    intros H; try contradiction; by rewrite H.
Qed.
(** The same seed gives the same bytes, whatever came before. *)
Theorem random_init_forgets r1 r2 seed n :
  (random_init seed;; random_bytes n) r1 = (random_init seed;; random_bytes n) r2.
Proof. unfold bind. by rewrite (random_init_same r1 r2). Qed.
