(* ===== verification/Palloc.v ===== *)
(** * The page allocator (threads/palloc.c)

    Two pools of pages, each with a bitmap of the pages in use, over the bytes
    of the memory.  The locks of the pools are left out: one caller at a time.
    The bitmap of a pool lies in the pages before [base], which nothing else
    refers to; it is a component of the pool here. *)

From S2P Require Import Prelude Vaddr Str Bitmap.
Local Open Scope Z_scope.

(** [lia] with division by constants. *)
Local Ltac Zify.zify_post_hook ::= Z.to_euclidean_division_equations.

(** ** State *)
Record pool := mk_pool { used_map : bitmap; base : Z }.
Record ram := mk_ram { kernel_pool : pool; user_pool : pool; bytes : mem }.

Definition PAL_ASSERT : Z := 1.
Definition PAL_ZERO : Z := 2.
Definition PAL_USER : Z := 4.
Definition has_flag (flags flag : Z) : bool := bool_decide (Z.land flags flag ≠ 0).

(** [true] is the user pool. *)
Definition pool_of (user : bool) (s : ram) : pool := if user then user_pool s else kernel_pool s.
Definition set_pool (user : bool) (p : pool) (s : ram) : ram :=
  if user then mk_ram (kernel_pool s) p (bytes s) else mk_ram p (user_pool s) (bytes s).
Definition set_bytes (m : mem) (s : ram) : ram := mk_ram (kernel_pool s) (user_pool s) m.

Definition on_map {A} (user : bool) (c : M bitmap A) : M ram A :=
  λ s, match c (used_map (pool_of user s)) with
       | Ret (a, b) => Ret (a, set_pool user (mk_pool b (base (pool_of user s))) s)
       | Fail f => Fail f
       end.
Definition on_bytes {A} (c : M mem A) : M ram A :=
  λ s, match c (bytes s) with Ret (a, m) => Ret (a, set_bytes m s) | Fail f => Fail f end.

(** ** Operations *)
Definition palloc_get_multiple (flags page_cnt : Z) : M ram Z :=
  let user := has_flag flags PAL_USER in
  if bool_decide (page_cnt = 0) then ret NULL
  else
    page_idx ← on_map user (bitmap_scan_and_flip 0 page_cnt false);
    p ← gets (pool_of user);
    let pages := if bool_decide (page_idx ≠ BITMAP_ERROR) then u32 (base p + u32 (PGSIZE * page_idx)) else NULL in
    (if bool_decide (pages ≠ NULL) then
       if has_flag flags PAL_ZERO then _ ← on_bytes (memset pages 0 (u32 (PGSIZE * page_cnt))); ret tt else ret tt
     else if has_flag flags PAL_ASSERT then fail AssertFail else ret tt);;
    ret pages.

Definition palloc_get_page (flags : Z) : M ram Z := palloc_get_multiple flags 1.

Definition page_from_pool (p : pool) (page : Z) : bool :=
  let page_no := pg_no page in
  let start_page := pg_no (base p) in
  let end_page := u32 (start_page + bit_cnt (used_map p)) in
  bool_decide (page_no >= start_page) && bool_decide (page_no < end_page).

(** Which pool a page is from; [NOT_REACHED] stops the kernel. *)
Definition find_pool (pages : Z) : M ram bool :=
  s ← get_state;
  if page_from_pool (kernel_pool s) pages then ret false
  else if page_from_pool (user_pool s) pages then ret true
  else fail AssertFail.

Definition palloc_free_multiple (pages page_cnt : Z) : M ram unit :=
  ASSERT (bool_decide (pg_ofs pages = 0));;
  if bool_decide (pages = NULL) || bool_decide (page_cnt = 0) then ret tt
  else
    user ← find_pool pages;
    p ← gets (pool_of user);
    let page_idx := u32 (pg_no pages - pg_no (base p)) in
    _ ← on_bytes (memset pages 0xcc (u32 (PGSIZE * page_cnt)));
    all ← on_map user (bitmap_all page_idx page_cnt);
    ASSERT all;;
    on_map user (bitmap_set_multiple page_idx page_cnt false).

Definition palloc_free_page (page : Z) : M ram unit := palloc_free_multiple page 1.

(** The words that are in memory where the bitmap is created. *)
Fixpoint load_words (n : nat) (p : Z) : M mem (list Z) :=
  match n with O => ret [] | S n => w ← load_word p; r ← load_words n (p + 4); ret (w :: r) end.

(** [init_pool]; the message on the console is left out. *)
Definition init_pool (user : bool) (start page_cnt : Z) : M ram unit :=
  let bm_pages := DIV_ROUND_UP (bitmap_buf_size page_cnt) PGSIZE in
  (if bool_decide (bm_pages > page_cnt) then fail AssertFail else ret tt);;
  let page_cnt := page_cnt - bm_pages in
  junk ← on_bytes (load_words (Z.to_nat ((bm_pages * PGSIZE - 8) / 4)) (start + 8));
  match bitmap_create_in_buf page_cnt junk (u32 (bm_pages * PGSIZE)) with
  | Ret b => modify (set_pool user (mk_pool b (u32 (start + u32 (bm_pages * PGSIZE)))))
  | Fail f => fail f
  end.

Definition palloc_init (init_ram_pages user_page_limit : Z) : M ram unit :=
  free_start ← ptov (1024 * 1024);
  free_end ← ptov (u32 (init_ram_pages * PGSIZE));
  let free_pages := u32 (Z.quot (s32 (free_end - free_start)) PGSIZE) in
  let user_pages := free_pages / 2 in
  let user_pages := if bool_decide (user_pages > user_page_limit) then user_page_limit else user_pages in
  let kernel_pages := u32 (free_pages - user_pages) in
  init_pool false free_start kernel_pages;;
  init_pool true (u32 (free_start + u32 (kernel_pages * PGSIZE))) user_pages.

(** ** Specification *)

Definition page_cnt (p : pool) : Z := bit_cnt (used_map p).
Definition page_used (p : pool) (i : Z) : bool := bit (used_map p) i.
Definition page_addr (p : pool) (i : Z) : Z := base p + PGSIZE * i.

(** A pool is a range of mapped pages of the kernel's address space. *)
Record pool_ok (m : mem) (p : pool) : Prop := {
  pool_map : bitmap_wf (used_map p);
  pool_aligned : base p mod PGSIZE = 0;
  pool_start : PHYS_BASE ≤ base p;
  pool_end : base p + PGSIZE * page_cnt p < 2 ^ 32;
  pool_mapped : mapped m (base p) (PGSIZE * page_cnt p)
}.
Record ram_ok (s : ram) : Prop := {
  ram_pools : ∀ user, pool_ok (bytes s) (pool_of user s);
  ram_disjoint : base (kernel_pool s) + PGSIZE * page_cnt (kernel_pool s) ≤ base (user_pool s) ∨
    base (user_pool s) + PGSIZE * page_cnt (user_pool s) ≤ base (kernel_pool s)
}.

(** A group of pages that are all in use, or all free. *)
Definition run (p : pool) (i cnt : Z) (used : bool) : Prop :=
  0 ≤ i ∧ i + cnt ≤ page_cnt p ∧ ∀ j, i ≤ j < i + cnt → page_used p j = used.
Definition first_free (p : pool) (i cnt : Z) : Prop :=
  run p i cnt false ∧ ∀ k, 0 ≤ k < i → ¬ run p k cnt false.

(** The group changes its state; nothing else in the bitmaps does. *)
Record pages_set (user : bool) (i cnt : Z) (used : bool) (s s' : ram) : Prop := {
  ps_base : base (pool_of user s') = base (pool_of user s);
  ps_cnt : page_cnt (pool_of user s') = page_cnt (pool_of user s);
  ps_used : ∀ j, 0 ≤ j → page_used (pool_of user s') j =
    if bool_decide (i ≤ j < i + cnt) then used else page_used (pool_of user s) j;
  ps_other : pool_of (negb user) s' = pool_of (negb user) s
}.

Section Spec.
Implicit Types (s : ram) (p : pool).

Lemma pool_of_set user p s : pool_of user (set_pool user p s) = p.
Proof. by destruct user. Qed.
Lemma pool_of_set_other user p s : pool_of (negb user) (set_pool user p s) = pool_of (negb user) s.
Proof. by destruct user. Qed.
Lemma bytes_set_pool user p s : bytes (set_pool user p s) = bytes s.
Proof. by destruct user. Qed.
Lemma pool_of_set_bytes user m s : pool_of user (set_bytes m s) = pool_of user s.
Proof. by destruct user. Qed.

Lemma wp_on_map {A} user (c : M bitmap A) s Q :
  wp c (used_map (pool_of user s)) (λ a b, Q a (set_pool user (mk_pool b (base (pool_of user s))) s)) →
  wp (on_map user c) s Q.
Proof. unfold wp, on_map. by destruct (c _) as [[a b]|]. Qed.
Lemma wp_on_bytes {A} (c : M mem A) s Q :
  wp c (bytes s) (λ a m, Q a (set_bytes m s)) → wp (on_bytes c) s Q.
Proof. unfold wp, on_bytes. by destruct (c _) as [[a b]|]. Qed.

(** The invariant only depends on the shape of the pools and on what is mapped. *)
Lemma ram_ok_same s s' :
  (∀ user, bitmap_wf (used_map (pool_of user s'))) →
  (∀ user, base (pool_of user s') = base (pool_of user s) ∧ page_cnt (pool_of user s') = page_cnt (pool_of user s)) →
  dom (bytes s') = dom (bytes s) → ram_ok s → ram_ok s'.
Proof.
  intros Hwf Hsh Hd [Hp Hdis]. split.
  - intros user. destruct (Hp user) as [_ Ha Hs He Hm], (Hsh user) as [Hb Hc].
    split; [done|by rewrite Hb|by rewrite Hb|by rewrite Hb, Hc|]. rewrite Hb, Hc. by eapply mapped_dom.
  - destruct (Hsh false) as [Hb0 Hc0], (Hsh true) as [Hb1 Hc1]. simpl in *. by rewrite Hb0, Hb1, Hc0, Hc1.
Qed.

(** Updating the bitmap of one pool. *)
Lemma holds_pages_set user s b i cnt used :
  ram_ok s →
  holds (used_map (pool_of user s)) b
    (λ j, if bool_decide (i ≤ j < i + cnt) then used else bit (used_map (pool_of user s)) j) →
  let s' := set_pool user (mk_pool b (base (pool_of user s))) s in
  ram_ok s' ∧ pages_set user i cnt used s s' ∧ bytes s' = bytes s.
Proof.
  intros Hok (Hwf&Hc&Hb) s'. subst s'. split_and!; [|split|apply bytes_set_pool].
  - eapply ram_ok_same; [| |by rewrite bytes_set_pool|exact Hok].
    + intros user'. destruct (Hok.(ram_pools _) user') as [? _ _ _ _]. by destruct user, user'.
    + intros user'. unfold page_cnt. by destruct user, user'; simpl in *.
  - by rewrite pool_of_set.
  - unfold page_cnt. rewrite pool_of_set. exact Hc.
  - intros j Hj. unfold page_used. rewrite pool_of_set. by apply Hb.
  - apply pool_of_set_other.
Qed.

(** Updating the contents of memory. *)
Lemma ram_ok_bytes s m : ram_ok s → dom m = dom (bytes s) → ram_ok (set_bytes m s).
Proof.
  intros Hok Hd. eapply ram_ok_same; [| |exact Hd|exact Hok].
  - intros user. rewrite pool_of_set_bytes. apply Hok.
  - intros user. by rewrite pool_of_set_bytes.
Qed.

Lemma page_addr_range s user i cnt :
  ram_ok s → 0 ≤ i → 0 ≤ cnt → i + cnt ≤ page_cnt (pool_of user s) →
  PHYS_BASE ≤ page_addr (pool_of user s) i ∧ page_addr (pool_of user s) i + PGSIZE * cnt < 2 ^ 32 ∧
  page_addr (pool_of user s) i mod PGSIZE = 0 ∧ mapped (bytes s) (page_addr (pool_of user s) i) (PGSIZE * cnt).
Proof.
  intros Hok Hi Hc Hle. destruct (Hok.(ram_pools _) user) as [_ Ha Hs He Hm]. unfold page_addr, PGSIZE in *.
  split_and!; [lia|lia| |].
  - rewrite Z.mul_comm, Z_mod_plus_full. done.
  - eapply mapped_sub; [exact Hm|lia|lia].
Qed.

(** *** Getting pages *)
Lemma scan_first_free p cnt i :
  0 < cnt → scan_result (used_map p) 0 cnt false i →
  (i ≠ BITMAP_ERROR ∧ first_free p i cnt) ∨ (i = BITMAP_ERROR ∧ ∀ k, ¬ run p k cnt false).
Proof.
  intros Hc [(Hne&H0&Hle&Hall&Hbefore)|[-> Hno]]; [left|right].
  - split; [done|]. split; [done|]. intros k Hk (_&_&Hr). by apply (Hbefore k).
  - split; [done|]. intros k (Hk&Hle&Hr). by apply (Hno k).
Qed.

(** What a caller gets: the first group of free pages, or the answer that there
    is none. *)
Definition got (flags cnt : Z) (s : ram) (r : Z) (s' : ram) : Prop :=
  let user := has_flag flags PAL_USER in
  (∃ i, first_free (pool_of user s) i cnt ∧ r = page_addr (pool_of user s) i ∧ pages_set user i cnt true s s' ∧
     if has_flag flags PAL_ZERO
     then writes (bytes s) r (replicate (Z.to_nat (PGSIZE * cnt)) 0) (bytes s') else bytes s' = bytes s) ∨
  (r = NULL ∧ (∀ i, ¬ run (pool_of user s) i cnt false) ∧ pages_set user 0 0 false s s' ∧ bytes s' = bytes s).

Lemma palloc_get_spec s flags cnt :
  ram_ok s → 0 < cnt →
  has_flag flags PAL_ASSERT = false ∨ (∃ i, run (pool_of (has_flag flags PAL_USER) s) i cnt false) →
  wp (palloc_get_multiple flags cnt) s (λ r s', ram_ok s' ∧ got flags cnt s r s').
Proof.
  intros Hok Hc Hav. unfold palloc_get_multiple, got. set (user := has_flag flags PAL_USER) in *.
  rewrite bool_decide_false by lia. wp_step. apply wp_on_map.
  destruct (Hok.(ram_pools _) user) as [Hwf _ _ _ _].
  eapply wp_mono; [apply bitmap_scan_and_flip_spec; [done|destruct Hwf; lia|lia]|].
  intros i b [Hscan Hb]. wp_step. wp_step. rewrite pool_of_set. cbn [base].
  apply scan_first_free in Hscan as [[Hne Hfirst]|[-> Hno]]; [| |done].
  - destruct Hfirst as [(H0&Hle&Hfree) Hbefore].
    destruct (page_addr_range s user i cnt) as (Hlo&Hhi&_&Hm); [done|done|lia|done|].
    assert (u32 (base (pool_of user s) + u32 (PGSIZE * i)) = page_addr (pool_of user s) i) as Hr.
    { unfold page_addr, PGSIZE, PHYS_BASE in *. rewrite (u32_small (4096 * i)), u32_small; [done|..];
        destruct (Hok.(ram_pools _) user) as [_ _ Hs _ _]; unfold PHYS_BASE in Hs; word_lia. }
    rewrite (bool_decide_true (i ≠ _)) by done. rewrite Hr. set (r := page_addr (pool_of user s) i) in *.
    assert (r ≠ NULL) as Hr0 by (unfold NULL, PHYS_BASE in *; lia). rewrite bool_decide_true by done.
    destruct (holds_pages_set user s b i cnt true) as (Hok'&Hset&Hbytes); [done| |].
    { destruct Hb as (?&?&Hb). split_and!; [done..|]. intros j Hj. rewrite Hb by done.
      repeat case_bool_decide; try done; tauto. }
    wp_step. destruct (has_flag flags PAL_ZERO) eqn:Hz.
    + wp_step. apply wp_on_bytes. rewrite Hbytes.
      rewrite u32_small by (unfold PGSIZE, PHYS_BASE in *; word_lia).
      eapply wp_mono; [apply memset_spec; [done|unfold PGSIZE; lia|done]|]. intros r0 m Hw. cbv beta in Hw. clear r0. wp_steps.
      split; [apply ram_ok_bytes; [done|]; rewrite Hbytes; by destruct Hw as (_&_&?)|].
      left. exists i. split_and!; [done|done| |done]. destruct Hset as [? ? ? ?]. by destruct user.
    + wp_steps. split; [done|]. left. by exists i.
  - rewrite (bool_decide_false (BITMAP_ERROR ≠ _)) by tauto. rewrite bool_decide_false by tauto.
    destruct Hav as [->|[i Hi]]; [|by destruct (Hno i)]. wp_steps.
    destruct (holds_pages_set user s b 0 0 false) as (Hok'&Hset&Hbytes); [done| |].
    { destruct Hb as (?&?&Hb). split_and!; [done..|]. intros j Hj. rewrite Hb by done.
      rewrite bool_decide_false by tauto. by rewrite bool_decide_false by lia. }
    split; [done|]. right. done.
Qed.

Lemma palloc_get_panics s flags cnt :
  ram_ok s → 0 < cnt → has_flag flags PAL_ASSERT = true →
  (∀ i, ¬ run (pool_of (has_flag flags PAL_USER) s) i cnt false) →
  palloc_get_multiple flags cnt s = Fail AssertFail.
Proof.
  intros Hok Hc Ha Hno. unfold palloc_get_multiple. set (user := has_flag flags PAL_USER) in *.
  rewrite bool_decide_false by lia. destruct (Hok.(ram_pools _) user) as [Hwf _ _ _ _].
  assert (wp (on_map user (bitmap_scan_and_flip 0 cnt false)) s (λ i _, i = BITMAP_ERROR)) as Hs.
  { apply wp_on_map. eapply wp_mono; [apply bitmap_scan_and_flip_spec; [done|destruct Hwf; lia|lia]|].
    intros i b [Hscan _]. apply scan_first_free in Hscan as [[_ [Hr _]]|[-> _]]; [|done|done]. by destruct (Hno i). }
  apply wp_outcome in Hs as (i&s1&Hs&->). unfold bind at 1. rewrite Hs. unfold bind at 1, gets.
  rewrite (bool_decide_false (BITMAP_ERROR ≠ _)) by tauto. rewrite bool_decide_false by tauto. by rewrite Ha.
Qed.

(** *** Freeing pages *)
Lemma page_from_pool_spec m p page :
  pool_ok m p → page mod PGSIZE = 0 →
  page_from_pool p page = bool_decide (base p ≤ page < base p + PGSIZE * page_cnt p).
Proof.
  intros [[Hc _ _] Ha Hs He _] Hp. unfold page_from_pool. rewrite !pg_no_div. unfold page_cnt, PGSIZE, PHYS_BASE in *.
  rewrite u32_small by word_lia. rewrite <- bool_decide_and. apply bool_decide_ext. lia.
Qed.

Lemma find_pool_spec s user i cnt Q :
  ram_ok s → 0 ≤ i → 0 < cnt → i + cnt ≤ page_cnt (pool_of user s) →
  Q user s → wp (find_pool (page_addr (pool_of user s) i)) s Q.
Proof.
  intros Hok Hi Hc Hle HQ. destruct (page_addr_range s user i cnt) as (_&_&Hal&_); [done|done|lia|done|].
  pose proof (Hok.(ram_pools _)) as Hp. pose proof (Hok.(ram_disjoint _)) as Hd.
  unfold find_pool. wp_step. wp_step.
  rewrite (page_from_pool_spec _ (kernel_pool s) _ (Hp false) Hal), (page_from_pool_spec _ (user_pool s) _ (Hp true) Hal).
  unfold page_addr, PGSIZE in *. destruct user; simpl in *.
  - rewrite bool_decide_false by lia. rewrite bool_decide_true by lia. by wp_step.
  - rewrite bool_decide_true by lia. by wp_step.
Qed.

(** The rest of [palloc_free_multiple], from the test that all pages are in use. *)
Definition free_tail (user : bool) (i cnt : Z) : M ram unit :=
  all ← on_map user (bitmap_all i cnt); ASSERT all;; on_map user (bitmap_set_multiple i cnt false).

Lemma palloc_free_eq s user i cnt :
  ram_ok s → 0 ≤ i → 0 < cnt → i + cnt ≤ page_cnt (pool_of user s) →
  let pages := page_addr (pool_of user s) i in
  ∃ m, writes (bytes s) pages (replicate (Z.to_nat (PGSIZE * cnt)) 0xcc) m ∧ ram_ok (set_bytes m s) ∧
    palloc_free_multiple pages cnt s = free_tail user i cnt (set_bytes m s).
Proof.
  intros Hok Hi Hc Hle pages. destruct (page_addr_range s user i cnt) as (Hlo&Hhi&Hal&Hm); [done|done|lia|done|].
  fold pages in Hlo, Hhi, Hal, Hm. assert (pages ≠ NULL) as Hne by (unfold NULL, PHYS_BASE in *; lia).
  assert (wp (memset pages 0xcc (PGSIZE * cnt)) (bytes s) (λ _ m,
    writes (bytes s) pages (replicate (Z.to_nat (PGSIZE * cnt)) 0xcc) m)) as Hw
    by (apply memset_spec; [done|unfold PGSIZE; lia|done]).
  apply wp_outcome in Hw as (r&m&Hrun&Hw). exists m. split; [done|].
  split; [apply ram_ok_bytes; [done|]; by destruct Hw as (_&_&?)|].
  unfold palloc_free_multiple. rewrite pg_ofs_mod, Hal. unfold bind at 1.
  rewrite bool_decide_true by done. unfold ASSERT at 1, ret at 1.
  rewrite (bool_decide_false (pages = NULL)) by done. rewrite bool_decide_false by lia. cbn [orb].
  assert (wp (find_pool pages) s (λ u s', u = user ∧ s' = s)) as Hf by (by apply find_pool_spec with (cnt := cnt)).
  apply wp_outcome in Hf as (?&?&Hf&->&->).
  unfold bind at 1. rewrite Hf. unfold bind at 1, gets at 1.
  replace (u32 (pg_no pages - pg_no (base (pool_of user s)))) with i.
  2: { destruct (Hok.(ram_pools _) user) as [[Hbc _ _] Hb _ _ _]. rewrite !pg_no_div.
       unfold pages, page_addr, page_cnt, PGSIZE in *. rewrite u32_small; [lia|word_lia]. }
  rewrite u32_small by (unfold PGSIZE, PHYS_BASE in *; word_lia).
  unfold bind at 1, on_bytes at 1. by rewrite Hrun.
Qed.

Lemma palloc_free_spec s user i cnt :
  ram_ok s → 0 < cnt → run (pool_of user s) i cnt true →
  let pages := page_addr (pool_of user s) i in
  wp (palloc_free_multiple pages cnt) s (λ _ s', ram_ok s' ∧ pages_set user i cnt false s s' ∧
    writes (bytes s) pages (replicate (Z.to_nat (PGSIZE * cnt)) 0xcc) (bytes s')).
Proof.
  intros Hok Hc (H0&Hle&Hused) pages. destruct (palloc_free_eq s user i cnt) as (m&Hw&Hokm&Heq); [done..|].
  unfold wp at 1. fold pages in Heq, Hw. rewrite Heq. change (wp (free_tail user i cnt) (set_bytes m s) (λ _ s',
    ram_ok s' ∧ pages_set user i cnt false s s' ∧
    writes (bytes s) pages (replicate (Z.to_nat (PGSIZE * cnt)) 0xcc) (bytes s'))). unfold free_tail.
  destruct (Hokm.(ram_pools _) user) as [Hwf _ _ _ _]. rewrite pool_of_set_bytes in Hwf.
  wp_step. apply wp_on_map. rewrite pool_of_set_bytes. apply bitmap_all_spec; [done|lia|lia|done|].
  intros r Hr. replace r with true by (symmetry; apply Hr; exact Hused). clear r Hr. wp_step. wp_step.
  apply wp_on_map. rewrite pool_of_set. cbn [used_map base].
  eapply wp_mono; [apply bitmap_set_multiple_spec; [done|lia|lia|done]|]. intros [] b Hb.
  destruct (holds_pages_set user (set_bytes m s) b i cnt false Hokm) as (Hok'&Hset&Hbytes).
  { by rewrite pool_of_set_bytes. }
  rewrite pool_of_set_bytes in Hok', Hset, Hbytes.
  assert (∀ p, set_pool user p (set_pool user (mk_pool (used_map (pool_of user s)) (base (pool_of user s))) (set_bytes m s)) =
    set_pool user p (set_bytes m s)) as -> by (by destruct user).
  split_and!; [done| |by rewrite Hbytes].
  destruct Hset as [H1 H2 H3 H4]. rewrite !pool_of_set_bytes in *. by split.
Qed.

Lemma palloc_free_free s user i cnt :
  ram_ok s → 0 ≤ i → 0 < cnt → i + cnt ≤ page_cnt (pool_of user s) → ¬ run (pool_of user s) i cnt true →
  palloc_free_multiple (page_addr (pool_of user s) i) cnt s = Fail AssertFail.
Proof.
  intros Hok Hi Hc Hle Hnot. destruct (palloc_free_eq s user i cnt) as (m&_&_&->); [done..|].
  assert (wp (on_map user (bitmap_all i cnt)) (set_bytes m s) (λ a _, a = false)) as Ha.
  { apply wp_on_map. rewrite pool_of_set_bytes. apply bitmap_all_spec; [apply Hok|lia|lia|done|].
    intros [] Hr; [|done]. destruct Hnot. split_and!; [done|done|]. by apply Hr. }
  apply wp_outcome in Ha as (a&s2&Ha&->). unfold free_tail, bind at 1. by rewrite Ha.
Qed.

(** *** Creating the pools *)
Definition bytes_u8 (m : mem) : Prop := ∀ a b, m !! a = Some b → is_u8 b.

Lemma load_words_spec m n (p : Z) :
  bytes_u8 m → mapped m p (4 * Z.of_nat n) →
  wp (load_words n p) m (λ ws m', length ws = n ∧ Forall is_u32 ws ∧ m' = m).
Proof.
  intros Hb. revert p. induction n as [|n IH]; intros p Hm; cbn [load_words]; [wp_step; by split_and!|].
  assert (∀ k, 0 ≤ k < 4 → ∃ b, m !! (p + k) = Some b ∧ is_u8 b) as Hk.
  { intros k Hk. assert (p + k ∈ dom m) as [b Hl]%elem_of_dom by (apply Hm; lia). eauto. }
  destruct (Hk 0) as (b0&H0&Hu0), (Hk 1) as (b1&H1&Hu1), (Hk 2) as (b2&H2&Hu2), (Hk 3) as (b3&H3&Hu3); [lia..|].
  rewrite Z.add_0_r in H0. wp_step. unfold load_word. wp_step. eapply wp_load_byte; [exact H0|].
  wp_step. eapply wp_load_byte; [exact H1|]. wp_step. eapply wp_load_byte; [exact H2|].
  wp_step. eapply wp_load_byte; [exact H3|]. wp_step. wp_step.
  eapply wp_mono; [apply IH; eapply mapped_sub; [exact Hm|lia|lia]|]. intros ws m' (Hl&Hw&->). wp_step.
  split_and!; [by rewrite <- Hl|constructor; [word_lia|done]|done].
Qed.

Lemma bitmap_create_in_buf_spec cnt junk size :
  0 ≤ cnt < 2 ^ 31 → bitmap_buf_size cnt ≤ size → cnt ≤ 32 * Z.of_nat (length junk) → Forall is_u32 junk →
  ∃ b, bitmap_create_in_buf cnt junk size = Ret b ∧ bitmap_wf b ∧ bit_cnt b = cnt ∧ ∀ j, 0 ≤ j < cnt → bit b j = false.
Proof.
  intros Hc Hs Hj Hw. unfold bitmap_create_in_buf. rewrite bool_decide_true by done.
  assert (bitmap_wf (mk_bitmap cnt junk)) as Hwf by (split; [cbn; lia|done|done]).
  destruct (proj1 (wp_outcome _ _ _) (bitmap_set_all_spec _ false Hwf)) as (r&b&->&Hwf'&Hc'&Hb).
  exists b. split_and!; [done|done|done|]. intros j Hjr. rewrite Hb by lia. cbn. by rewrite bool_decide_true by lia.
Qed.

(** The pages for the bitmap of a pool of [cnt] pages. *)
Lemma bitmap_pages cnt :
  0 < cnt < 2 ^ 20 →
  let bm := DIV_ROUND_UP (bitmap_buf_size cnt) PGSIZE in
  1 ≤ bm ≤ cnt ∧ cnt ≤ 8 * (bm * PGSIZE - 8) ∧ ∀ c, 0 ≤ c ≤ cnt → bitmap_buf_size c ≤ bm * PGSIZE.
Proof.
  intros Hc bm. assert (∀ c, 0 ≤ c ≤ cnt → bitmap_buf_size c = 8 + 4 * ((c + 31) / 32)) as Hb.
  { intros c Hcc. unfold bitmap_buf_size, byte_cnt, elem_cnt, ELEM_BITS.
    rewrite (u32_small (c + 32 - 1)) by word_lia. rewrite (u32_small (4 * _)) by word_lia.
    rewrite u32_small by word_lia. lia. }
  subst bm. unfold DIV_ROUND_UP, PGSIZE. rewrite (Hb cnt) by lia. rewrite u32_small by word_lia.
  split_and!; [lia|lia|lia|]. intros c Hcc. rewrite Hb by lia. lia.
Qed.

Definition all_free (p : pool) : Prop := ∀ j, 0 ≤ j < page_cnt p → page_used p j = false.

Lemma init_pool_spec s user start cnt :
  bytes_u8 (bytes s) → start mod PGSIZE = 0 → PHYS_BASE ≤ start → 0 < cnt → start + PGSIZE * cnt < 2 ^ 32 →
  mapped (bytes s) start (PGSIZE * cnt) →
  wp (init_pool user start cnt) s (λ _ s',
    bytes s' = bytes s ∧ pool_of (negb user) s' = pool_of (negb user) s ∧
    pool_ok (bytes s) (pool_of user s') ∧ all_free (pool_of user s') ∧ start < base (pool_of user s') ∧
    base (pool_of user s') + PGSIZE * page_cnt (pool_of user s') = start + PGSIZE * cnt).
Proof.
  intros Hb Ha Hs Hc He Hm. unfold init_pool.
  destruct (bitmap_pages cnt) as (Hbm&Hroom&Hbuf); [unfold PGSIZE, PHYS_BASE in *; lia|].
  set (bm := DIV_ROUND_UP (bitmap_buf_size cnt) PGSIZE) in *. clearbody bm.
  rewrite bool_decide_false by lia. wp_steps. apply wp_on_bytes.
  eapply wp_mono; [apply load_words_spec; [done|eapply mapped_sub; [exact Hm|lia|unfold PGSIZE in *; lia]]|].
  intros junk m (Hlen&Hw&->). rewrite (u32_small (bm * PGSIZE)) by (unfold PGSIZE, PHYS_BASE in *; word_lia).
  destruct (bitmap_create_in_buf_spec (cnt - bm) junk (bm * PGSIZE)) as (b&->&Hwf&Hcnt&Hbit);
    [unfold PGSIZE, PHYS_BASE in *; lia|apply Hbuf; lia|rewrite Hlen; unfold PGSIZE in *; lia|done|].
  wp_step. rewrite bytes_set_pool, pool_of_set, pool_of_set_other, pool_of_set_bytes.
  rewrite u32_small by (unfold PGSIZE, PHYS_BASE in *; word_lia).
  split_and!; [done|done| | | |]; unfold page_cnt, page_used, all_free; cbn [base used_map].
  - split; cbn [base used_map]; [done| |unfold PGSIZE in *; lia|unfold page_cnt; cbn; rewrite Hcnt; lia|].
    + rewrite Z_mod_plus_full. done.
    + unfold page_cnt. cbn. rewrite Hcnt. eapply mapped_sub; [exact Hm|unfold PGSIZE in *; lia|lia].
  - intros j Hj. unfold page_cnt in Hj. cbn in Hj. rewrite Hcnt in Hj. by apply Hbit.
  - unfold PGSIZE in *. lia.
  - rewrite Hcnt. lia.
Qed.

(** The memory above the first megabyte is split between two pools of free
    pages. *)
Lemma palloc_init_spec s init_ram_pages user_page_limit :
  bytes_u8 (bytes s) → 258 ≤ init_ram_pages < 2 ^ 18 → 0 < user_page_limit < 2 ^ 32 →
  mapped (bytes s) (PHYS_BASE + 2 ^ 20) (PGSIZE * (init_ram_pages - 256)) →
  wp (palloc_init init_ram_pages user_page_limit) s (λ _ s', ram_ok s' ∧ bytes s' = bytes s ∧
    (∀ user, all_free (pool_of user s')) ∧
    page_cnt (user_pool s') < user_page_limit ∧ base (user_pool s') + PGSIZE * page_cnt (user_pool s') = PHYS_BASE + PGSIZE * init_ram_pages).
Proof.
  intros Hb Hn Hl Hm. unfold palloc_init, ptov. unfold PHYS_BASE in *.
  rewrite bool_decide_true by (by compute). wp_steps. rewrite (u32_small (_ * _)) by (unfold PGSIZE; word_lia).
  rewrite bool_decide_true by (unfold PGSIZE; lia). wp_steps.
  rewrite (u32_small (1024 * 1024 + _)) by word_lia. rewrite (u32_small (_ * PGSIZE + _)) by (unfold PGSIZE; word_lia).
  set (free_pages := u32 (Z.quot _ _)).
  assert (free_pages = init_ram_pages - 256) as Hf.
  { unfold free_pages, PGSIZE. rewrite s32_small by word_lia. rewrite Z.quot_div_nonneg by lia.
    rewrite u32_small; [lia|word_lia]. }
  clearbody free_pages. set (user_pages := if bool_decide _ then _ else _).
  assert (1 ≤ user_pages ≤ user_page_limit ∧ user_pages ≤ free_pages / 2) as Hu.
  { unfold user_pages. case_bool_decide; lia. }
  clearbody user_pages. rewrite (u32_small (free_pages - _)) by word_lia.
  eapply wp_mono; [apply init_pool_spec|]; [done|done|unfold PHYS_BASE; lia|lia|unfold PGSIZE; lia| |].
  { eapply mapped_sub; [exact Hm|lia|unfold PGSIZE; lia]. }
  intros [] s1 (Hb1&_&Hok1&Hfree1&Hst1&He1).
  rewrite (u32_small (_ * PGSIZE)) by (unfold PGSIZE; word_lia). rewrite u32_small by (unfold PGSIZE; word_lia).
  eapply wp_mono; [apply init_pool_spec|]; rewrite ?Hb1;
    [done|unfold PGSIZE; lia|unfold PHYS_BASE, PGSIZE; lia|lia|unfold PGSIZE; lia| |].
  { eapply mapped_sub; [exact Hm|unfold PGSIZE; lia|unfold PGSIZE; lia]. }
  intros [] s2 (Hb2&Hk&Hok2&Hfree2&Hst2&He2). cbn in Hk, Hok1, Hfree1, He1, Hst1, Hok2, Hfree2, He2, Hst2.
  split_and!; [|congruence| | |].
  - split; [|left; rewrite Hk; unfold PGSIZE in *; lia].
    intros []; cbn; rewrite Hb2; [done|by rewrite Hk].
  - intros []; cbn; [done|by rewrite Hk].
  - unfold PGSIZE in *. lia.
  - unfold PGSIZE, PHYS_BASE in *. lia.
Qed.

End Spec.

(** ** Claims *)

(** C14: The page allocator hands out and takes back exactly the pages it says,
    on two pools that are disjoint ranges of mapped pages ([ram_ok]) and for one
    caller at a time.  For a group of [cnt] > 0 pages, [palloc_get_multiple] returns
    the address of the first group of free pages of the pool asked for, marks just
    these pages as used, and clears them if [PAL_ZERO] is given; without such a group
    it returns a null pointer and changes nothing, or stops the kernel if
    [PAL_ASSERT] is given.  [palloc_free_multiple] of pages in use makes just
    them free again and overwrites them with 0xcc; if one of the pages is
    free already the kernel stops.  The other pool does not change. *)
Theorem palloc_get_and_free (s : ram) (cnt : Z) :
  ram_ok s → 0 < cnt →
  (∀ flags, has_flag flags PAL_ASSERT = false ∨ (∃ i, run (pool_of (has_flag flags PAL_USER) s) i cnt false) →
     ∃ r s', palloc_get_multiple flags cnt s = Ret (r, s') ∧ ram_ok s' ∧ got flags cnt s r s') ∧
  (∀ flags, has_flag flags PAL_ASSERT = true → (∀ i, ¬ run (pool_of (has_flag flags PAL_USER) s) i cnt false) →
     palloc_get_multiple flags cnt s = Fail AssertFail) ∧
  (∀ user i, run (pool_of user s) i cnt true →
     ∃ s', palloc_free_multiple (page_addr (pool_of user s) i) cnt s = Ret (tt, s') ∧ ram_ok s' ∧
       pages_set user i cnt false s s' ∧
       writes (bytes s) (page_addr (pool_of user s) i) (replicate (Z.to_nat (PGSIZE * cnt)) 0xcc) (bytes s')) ∧
  (∀ user i j, 0 ≤ i → i + cnt ≤ page_cnt (pool_of user s) → i ≤ j < i + cnt → page_used (pool_of user s) j = false →
     palloc_free_multiple (page_addr (pool_of user s) i) cnt s = Fail AssertFail).
Proof.
  intros Hok Hc. split_and!.
  - intros flags Hav. destruct (proj1 (wp_outcome _ _ _) (palloc_get_spec s flags cnt Hok Hc Hav)) as (r&s'&?&?&?). eauto 6.
  - intros flags. by apply palloc_get_panics.
  - intros user i Hr. destruct (proj1 (wp_outcome _ _ _) (palloc_free_spec s user i cnt Hok Hc Hr)) as ([]&s'&?&?&?&?). eauto 6.
  - intros user i j Hi Hle Hj Hu. apply palloc_free_free; [done..|]. intros (_&_&Hr). rewrite (Hr j Hj) in Hu. done.
Qed.

(** A kernel pool of two pages, the first of them in use, and a user pool of
    one page. *)
Definition sample_ram : ram :=
  mk_ram (mk_pool (mk_bitmap 2 [1]) 0xc0102000) (mk_pool (mk_bitmap 1 [0]) 0xc0105000)
    (mem_of 0xc0102000 (replicate (Z.to_nat (4 * PGSIZE)) 0) ∪ ∅).

Lemma sample_ram_ok : ram_ok sample_ram.
Proof.
  assert (∀ p n, 0xc0102000 ≤ p → p + n ≤ 0xc0106000 → mapped (bytes sample_ram) p n) as Hm.
  { intros p n Hp Hn. eapply (mapped_sub _ 0xc0102000 0x4000); [|lia|lia].
    pose proof (mem_of_mapped 0xc0102000 (replicate (Z.to_nat (4 * PGSIZE)) 0) ∅) as H.
    by rewrite length_replicate, Z2Nat.id in H. }
  split.
  - intros []; (split; [split; [done|done|by repeat constructor]|done|done|done|by apply Hm]).
  - left. by vm_compute.
Qed.

Lemma palloc_get_and_free_witness :
  ∃ s', palloc_get_multiple 0 1 sample_ram = Ret (0xc0103000, s') ∧ page_used (kernel_pool s') 1 = true ∧
    palloc_free_multiple 0xc0103000 1 sample_ram = Fail AssertFail.
Proof.
  destruct (palloc_get_and_free sample_ram 1 sample_ram_ok) as (Hget&_&_&Hfree); [lia|].
  destruct (Hget 0) as (r&s'&Hrun&_&[(i&[(H0&Hle&Hu) _]&->&Hset&_)|(_&Hno&_)]); [by left| |].
  - change (i + 1 ≤ 2) in Hle. assert (i = 1) as ->.
    { destruct (decide (i = 0)) as [->|]; [|lia]. specialize (Hu 0 ltac:(lia)). discriminate Hu. }
    exists s'. split; [exact Hrun|]. split; [exact (ps_used _ _ _ _ _ _ Hset 1 ltac:(lia))|].
    exact (Hfree false 1 1 ltac:(lia) ltac:(vm_compute; discriminate) ltac:(lia) eq_refl).
  - destruct (Hno 1). split; [lia|]. split; [vm_compute; discriminate|]. intros j Hj.
    replace j with 1 by lia. reflexivity.
Defined.
