(* ===== verification/Malloc.v ===== *)
(** * The block allocator (threads/malloc.c)

    Blocks of up to 1 kB come from arenas, pages that are divided into blocks of
    one size; larger ones are groups of pages.  The header of an arena is three
    words in memory, so that a header that was overwritten is seen by the
    assertions.  The free list of a descriptor is the list of its blocks (the
    links in the blocks are those of lib/kernel/list.c, see KList; what a free
    block holds is not looked at).  A pointer to a descriptor is its position in
    [descs] plus 1, and 0 is null.  The locks of the descriptors are left out:
    one caller at a time. *)

From S2P Require Import Prelude Vaddr Str Bitmap Palloc.
Local Open Scope Z_scope.

(** [lia] with division by constants. *)
Local Ltac Zify.zify_post_hook ::= Z.to_euclidean_division_equations.

(** ** State *)
Record desc := mk_desc { d_block_size : Z; blocks_per_arena : Z; free_list : list Z }.
Record kheap := mk_kheap { pages : ram; descs : list desc }.

Definition ARENA_MAGIC : Z := 0x9a548eed.
(** [sizeof (struct arena)]: [magic], [desc] and [free_cnt]. *)
Definition ARENA_SIZE : Z := 12.

Definition on_pages {A} (c : M ram A) : M kheap A :=
  λ s, match c (pages s) with Ret (a, r) => Ret (a, mk_kheap r (descs s)) | Fail f => Fail f end.
Definition on_mem {A} (c : M mem A) : M kheap A := on_pages (on_bytes c).

Definition arena_magic (a : Z) : M kheap Z := on_mem (load_word a).
Definition arena_desc (a : Z) : M kheap Z := on_mem (load_word (a + 4)).
Definition arena_free_cnt (a : Z) : M kheap Z := on_mem (load_word (a + 8)).
Definition set_arena_magic (a v : Z) : M kheap unit := on_mem (store_word a v).
Definition set_arena_desc (a v : Z) : M kheap unit := on_mem (store_word (a + 4) v).
Definition set_arena_free_cnt (a v : Z) : M kheap unit := on_mem (store_word (a + 8) v).

Definition desc_index (d : Z) : nat := Z.to_nat (d - 1).
Definition get_desc (d : Z) : M kheap desc :=
  s ← get_state; if bool_decide (d = NULL) then fail BadAccess else deref (descs s !! desc_index d).
Definition set_free_list (l : list Z) (dd : desc) : desc := mk_desc (d_block_size dd) (blocks_per_arena dd) l.
Definition upd_free_list (d : Z) (f : list Z → list Z) : M kheap unit :=
  modify (λ s, mk_kheap (pages s) (alter (λ dd, set_free_list (f (free_list dd)) dd) (desc_index d) (descs s))).

(** ** Operations *)

(** [for (block_size = 16; block_size < PGSIZE / 2; block_size *= 2)] *)
Fixpoint malloc_init_loop (fuel : nat) (block_size : Z) : M kheap unit :=
  match fuel with
  | O => fail OutOfFuel
  | S fuel =>
      if bool_decide (block_size < PGSIZE / 2) then
        s ← get_state;
        ASSERT (bool_decide (length (descs s) + 1 ≤ 10)%nat);;
        put_state (mk_kheap (pages s) (descs s ++ [mk_desc block_size ((PGSIZE - ARENA_SIZE) / block_size) []]));;
        malloc_init_loop fuel (u32 (block_size * 2))
      else ret tt
  end.
Definition malloc_init : M kheap unit := malloc_init_loop 32 16.

(** Returns the arena that block [b] is inside. *)
Definition block_to_arena (b : Z) : M kheap Z :=
  let a := pg_round_down b in
  ASSERT (bool_decide (a ≠ NULL));;
  magic ← arena_magic a;
  ASSERT (bool_decide (magic = ARENA_MAGIC));;
  d ← arena_desc a;
  (if bool_decide (d = NULL) then ret tt
   else dd ← get_desc d; ASSERT (bool_decide (u32 (pg_ofs b - ARENA_SIZE) mod d_block_size dd = 0)));;
  ASSERT (bool_decide (d ≠ NULL) || bool_decide (pg_ofs b = ARENA_SIZE));;
  ret a.

Definition arena_to_block (a idx : Z) : M kheap Z :=
  ASSERT (bool_decide (a ≠ NULL));;
  magic ← arena_magic a;
  ASSERT (bool_decide (magic = ARENA_MAGIC));;
  d ← arena_desc a;
  dd ← get_desc d;
  ASSERT (bool_decide (idx < blocks_per_arena dd));;
  ret (u32 (a + ARENA_SIZE + u32 (idx * d_block_size dd))).

(** [for (i = 0; i < d->blocks_per_arena; i++) list_push_back (...)] *)
Fixpoint push_blocks (n : nat) (a d i : Z) : M kheap unit :=
  match n with
  | O => ret tt
  | S n => b ← arena_to_block a i; upd_free_list d (λ l, l ++ [b]);; push_blocks n a d (i + 1)
  end.

(** The first descriptor with blocks of at least [size] bytes, as a pointer. *)
Fixpoint find_desc (size d : Z) (ds : list desc) : option Z :=
  match ds with
  | [] => None
  | dd :: r => if bool_decide (d_block_size dd >= size) then Some d else find_desc size (d + 1) r
  end.

(** A new arena for descriptor [d]; [false] if there is no page. *)
Definition new_arena (d : Z) : M kheap bool :=
  a ← on_pages (palloc_get_page 0);
  if bool_decide (a = NULL) then ret false
  else
    set_arena_magic a ARENA_MAGIC;;
    set_arena_desc a d;;
    dd ← get_desc d;
    set_arena_free_cnt a (blocks_per_arena dd);;
    push_blocks (Z.to_nat (blocks_per_arena dd)) a d 0;;
    ret true.

(** [list_pop_front]; [list_front] asserts that the list is not empty. *)
Definition pop_block (d : Z) : M kheap Z :=
  dd ← get_desc d;
  match free_list dd with
  | [] => fail AssertFail
  | b :: _ => upd_free_list d tail;; ret b
  end.

(** A block for a descriptor. *)
Definition malloc_small (d : Z) : M kheap Z :=
  dd ← get_desc d;
  ok ← (if bool_decide (free_list dd = []) then new_arena d else ret true);
  if ok : bool then
    b ← pop_block d;
    a ← block_to_arena b;
    n ← arena_free_cnt a;
    set_arena_free_cnt a (u32 (n - 1));;
    ret b
  else ret NULL.

(** Pages for a block that is too big for any descriptor. *)
Definition malloc_big (size : Z) : M kheap Z :=
  let page_cnt := DIV_ROUND_UP (u32 (size + ARENA_SIZE)) PGSIZE in
  a ← on_pages (palloc_get_multiple 0 page_cnt);
  if bool_decide (a = NULL) then ret NULL
  else
    set_arena_magic a ARENA_MAGIC;;
    set_arena_desc a NULL;;
    set_arena_free_cnt a page_cnt;;
    ret (u32 (a + ARENA_SIZE)).

Definition malloc (size : Z) : M kheap Z :=
  if bool_decide (size = 0) then ret NULL
  else
    s ← get_state;
    match find_desc size 1 (descs s) with
    | Some d => malloc_small d
    | None => malloc_big size
    end.

Definition calloc (a b : Z) : M kheap Z :=
  let size := u32 (a * b) in
  if bool_decide (size < a) || bool_decide (size < b) then ret NULL
  else
    p ← malloc size;
    (if bool_decide (p ≠ NULL) then _ ← on_mem (memset p 0 size); ret tt else ret tt);;
    ret p.

Definition block_size (block : Z) : M kheap Z :=
  a ← block_to_arena block;
  d ← arena_desc a;
  if bool_decide (d ≠ NULL) then dd ← get_desc d; ret (d_block_size dd)
  else n ← arena_free_cnt a; ret (u32 (PGSIZE * n - pg_ofs block)).

(** [list_remove] of each block of an arena; an element that is on no list has
    no links to follow. *)
Fixpoint remove_blocks (n : nat) (a d i : Z) : M kheap unit :=
  match n with
  | O => ret tt
  | S n =>
      b ← arena_to_block a i;
      dd ← get_desc d;
      (if bool_decide (b ∈ free_list dd) then upd_free_list d (remove_elem b) else fail BadAccess);;
      remove_blocks n a d (i + 1)
  end.

(** [if (++a->free_cnt >= d->blocks_per_arena)]: [n] is the new count. *)
Definition release_if_unused (a d per_arena n : Z) : M kheap unit :=
  if bool_decide (n >= per_arena) then
    ASSERT (bool_decide (n = per_arena));;
    remove_blocks (Z.to_nat per_arena) a d 0;;
    on_pages (palloc_free_page a)
  else ret tt.

Definition free (p : Z) : M kheap unit :=
  if bool_decide (p ≠ NULL) then
    a ← block_to_arena p;
    d ← arena_desc a;
    if bool_decide (d ≠ NULL) then
      dd ← get_desc d;
      _ ← on_mem (memset p 0xcc (d_block_size dd));
      upd_free_list d (cons p);;
      n ← arena_free_cnt a;
      set_arena_free_cnt a (u32 (n + 1));;
      release_if_unused a d (blocks_per_arena dd) (u32 (n + 1))
    else n ← arena_free_cnt a; on_pages (palloc_free_multiple a n)
  else ret tt.

Definition realloc (old_block new_size : Z) : M kheap Z :=
  if bool_decide (new_size = 0) then free old_block;; ret NULL
  else
    new_block ← malloc new_size;
    (if bool_decide (old_block ≠ NULL) && bool_decide (new_block ≠ NULL) then
       old_size ← block_size old_block;
       let min_size := if bool_decide (new_size < old_size) then new_size else old_size in
       _ ← on_mem (memcpy new_block old_block min_size);
       free old_block
     else ret tt);;
    ret new_block.
