(* ===== verification/MallocSpec.v ===== *)
(** * Properties of the block allocator

    The arenas of a state are a finite map [R] from addresses to what they hold;
    [heap_inv U s R] says that the memory, the free lists and the page pool agree
    with it, where [U] are the pages of the kernel pool that others have.  The
    blocks a client may use are those of the arenas that are on no free list. *)

From S2P Require Import Prelude Vaddr Str Bitmap Palloc Malloc.
Local Open Scope Z_scope.

(** [lia] with division by constants. *)
Local Ltac Zify.zify_post_hook ::= Z.to_euclidean_division_equations.

(** ** Arenas and blocks *)

(** An arena of descriptor [d], or a big block of [n] pages. *)
Inductive kind := Small (d : nat) | Big (n : Z).
Definition npages (k : kind) : Z := match k with Small _ => 1 | Big n => n end.

Definition bsize (d : nat) : Z := 16 * 2 ^ Z.of_nat d.
Definition bcount (d : nat) : Z := (PGSIZE - ARENA_SIZE) / bsize d.
Definition blk (a : Z) (d : nat) (i : Z) : Z := a + ARENA_SIZE + i * bsize d.
(** The blocks of an arena. *)
Definition blocks (a : Z) (d : nat) : list Z := blk a d <$> seqZ 0 (bcount d).

(** [b] is a block of [sz] bytes of the arena [a], used or not. *)
Definition block_of (R : gmap Z kind) (a b sz : Z) : Prop :=
  match R !! a with
  | Some (Small d) => ∃ i, 0 ≤ i < bcount d ∧ b = blk a d i ∧ sz = bsize d
  | Some (Big n) => b = a + ARENA_SIZE ∧ sz = PGSIZE * n - ARENA_SIZE
  | None => False
  end.
Definition in_use (ds : list desc) (b : Z) : Prop := ∀ d dd, ds !! d = Some dd → b ∉ free_list dd.
Definition live (ds : list desc) (R : gmap Z kind) (b sz : Z) : Prop := (∃ a, block_of R a b sz) ∧ in_use ds b.

(** ** The invariant *)
Definition kpool (s : kheap) : pool := kernel_pool (pages s).
Definition kbytes (s : kheap) : mem := bytes (pages s).

Definition owned (p : pool) (R : gmap Z kind) (j : Z) : Prop :=
  ∃ a k, R !! a = Some k ∧ a ≤ page_addr p j < a + PGSIZE * npages k.

(** The arenas are groups of pages of the pool that nobody else has. *)
Record pool_view (U : Z → Prop) (p : pool) (R : gmap Z kind) : Prop := {
  pv_placed : ∀ a k, R !! a = Some k → ∃ i, a = page_addr p i ∧ 0 ≤ i ∧ 0 < npages k ∧ i + npages k ≤ page_cnt p;
  pv_disjoint : ∀ a k a' k', R !! a = Some k → R !! a' = Some k' → a ≠ a' →
    a + PGSIZE * npages k ≤ a' ∨ a' + PGSIZE * npages k' ≤ a;
  pv_used : ∀ j, 0 ≤ j < page_cnt p → page_used p j = true ↔ U j ∨ owned p R j;
  pv_others : ∀ j, U j → ¬ owned p R j
}.

Definition NDESCS : nat := 7.
(** The free lists hold blocks of the arenas of their descriptor, each once. *)
Record lists_ok (ds : list desc) (R : gmap Z kind) : Prop := {
  lo_length : length ds = NDESCS;
  lo_small : ∀ a d, R !! a = Some (Small d) → (d < NDESCS)%nat;
  lo_sizes : ∀ d dd, ds !! d = Some dd → d_block_size dd = bsize d ∧ blocks_per_arena dd = bcount d;
  lo_nodup : ∀ d dd, ds !! d = Some dd → NoDup (free_list dd);
  lo_blocks : ∀ d dd b, ds !! d = Some dd → b ∈ free_list dd →
    ∃ a i, R !! a = Some (Small d) ∧ 0 ≤ i < bcount d ∧ b = blk a d i
}.

Definition in_page (a b : Z) : Prop := a ≤ b < a + PGSIZE.
Global Instance in_page_dec a b : Decision (in_page a b).
Proof. unfold in_page. apply _. Defined.
Definition free_in (a : Z) (l : list Z) : Z := Z.of_nat (length (filter (in_page a) l)).

Definition header (m : mem) (a d n : Z) : Prop :=
  word_at m a ARENA_MAGIC ∧ word_at m (a + 4) d ∧ word_at m (a + 8) n.
Definition arena_ok (m : mem) (ds : list desc) (a : Z) (k : kind) : Prop :=
  match k with
  | Small d => ∃ dd, ds !! d = Some dd ∧ header m a (Z.of_nat d + 1) (free_in a (free_list dd))
  | Big n => header m a NULL n
  end.

Record heap_inv (U : Z → Prop) (s : kheap) (R : gmap Z kind) : Prop := {
  hi_ram : ram_ok (pages s);
  hi_pool : pool_view U (kpool s) R;
  hi_lists : lists_ok (descs s) R;
  hi_arenas : ∀ a k, R !! a = Some k → arena_ok (kbytes s) (descs s) a k
}.

(** Every arena has a block in use. *)
Definition tight (ds : list desc) (R : gmap Z kind) : Prop :=
  ∀ a d dd, R !! a = Some (Small d) → ds !! d = Some dd → free_in a (free_list dd) < bcount d.

(** ** Arithmetic of blocks *)
Section Blocks.
Implicit Types (R : gmap Z kind) (ds : list desc) (p : pool).

Lemma bsize_range d : (d < NDESCS)%nat → 16 ≤ bsize d ≤ 1024 ∧ 3 ≤ bcount d ≤ 255 ∧ bcount d * bsize d ≤ PGSIZE - ARENA_SIZE.
Proof. unfold NDESCS. intros Hd. do 7 (destruct d as [|d]; [vm_compute; split_and!; congruence|]). lia. Qed.

Lemma blk_range a d i :
  (d < NDESCS)%nat → 0 ≤ i < bcount d → a + ARENA_SIZE ≤ blk a d i ∧ blk a d i + bsize d ≤ a + PGSIZE.
Proof.
  intros Hd Hi. destruct (bsize_range d Hd) as (H1&_&H2). unfold blk.
  assert ((i + 1) * bsize d ≤ bcount d * bsize d) by (apply Z.mul_le_mono_nonneg_r; lia).
  assert (0 ≤ i * bsize d) by (apply Z.mul_nonneg_nonneg; lia). lia.
Qed.
Lemma blk_disjoint a d i i' :
  (d < NDESCS)%nat → i < i' → blk a d i + bsize d ≤ blk a d i'.
Proof.
  intros Hd Hi. destruct (bsize_range d Hd) as (H1&_&_). unfold blk.
  assert ((i + 1) * bsize d ≤ i' * bsize d) by (apply Z.mul_le_mono_nonneg_r; lia). lia.
Qed.
Lemma blk_inj a d i i' : (d < NDESCS)%nat → blk a d i = blk a d i' → i = i'.
Proof.
  intros Hd He. destruct (bsize_range d Hd) as (H1&_&_). unfold blk in He.
  apply (Z.mul_reg_r _ _ (bsize d)); lia.
Qed.
Lemma elem_of_blocks a d b : b ∈ blocks a d ↔ ∃ i, 0 ≤ i < bcount d ∧ b = blk a d i.
Proof.
  unfold blocks. rewrite list_elem_of_fmap. setoid_rewrite elem_of_seqZ. split.
  - intros (i&->&Hi). exists i. split; [lia|done].
  - intros (i&Hi&->). exists i. split; [done|lia].
Qed.
Lemma NoDup_blocks a d : (d < NDESCS)%nat → NoDup (blocks a d).
Proof. intros Hd. apply NoDup_fmap_2_strong; [|apply NoDup_seqZ]. intros i i' _ _. by apply blk_inj. Qed.
Lemma length_blocks a d : (d < NDESCS)%nat → Z.of_nat (length (blocks a d)) = bcount d.
Proof. intros Hd. destruct (bsize_range d Hd). unfold blocks. rewrite length_fmap, length_seqZ. lia. Qed.

(** [free_in] only depends on the members of the list. *)
Lemma free_in_ext a l l' :
  NoDup l → NoDup l' → (∀ b, in_page a b → b ∈ l ↔ b ∈ l') → free_in a l = free_in a l'.
Proof.
  intros Hl Hl' He. unfold free_in. f_equal. apply Permutation_length, NoDup_Permutation.
  - by apply NoDup_filter.
  - by apply NoDup_filter.
  - intros b. rewrite !list_elem_of_filter. naive_solver.
Qed.
Lemma free_in_cons a b l : free_in a (b :: l) = (if bool_decide (in_page a b) then 1 else 0) + free_in a l.
Proof. unfold free_in. rewrite filter_cons. case_decide; case_bool_decide; try done. simpl length. lia. Qed.

End Blocks.

(** ** The place of a block *)
Section Places.
Context (U : Z → Prop) (p : pool) (R : gmap Z kind) (ds : list desc) (m : mem).
Context (Hpool : pool_ok m p) (Hv : pool_view U p R) (Hl : lists_ok ds R).

Lemma arena_range a k :
  R !! a = Some k →
  0 < npages k ∧ a mod PGSIZE = 0 ∧ PHYS_BASE ≤ a ∧ a + PGSIZE * npages k < 2 ^ 32 ∧ mapped m a (PGSIZE * npages k).
Proof.
  intros Ha. destruct (Hv.(pv_placed _ _ _) a k Ha) as (i&->&Hi&Hn&Hle). destruct Hpool as [_ Hal Hs He Hm].
  unfold page_addr, PGSIZE in *. split_and!; [lia|lia|lia|lia|]. eapply mapped_sub; [exact Hm|lia|lia].
Qed.

Lemma block_range a b sz :
  block_of R a b sz → ∃ k, R !! a = Some k ∧ a + ARENA_SIZE ≤ b ∧ 0 < sz ∧ b + sz ≤ a + PGSIZE * npages k ∧ b < a + PGSIZE.
Proof.
  unfold block_of. destruct (R !! a) as [[d|n]|] eqn:Ha; [| |done].
  - intros (i&Hi&->&->). pose proof (Hl.(lo_small _ _) a d Ha) as Hd.
    destruct (blk_range a d i Hd Hi), (bsize_range d Hd). exists (Small d). cbn [npages]. split_and!; try done; lia.
  - intros [-> ->]. destruct (arena_range a _ Ha) as (Hn&_). cbn [npages] in Hn. exists (Big n). cbn [npages].
    unfold ARENA_SIZE, PGSIZE in *. split_and!; try done; lia.
Qed.

(** A block determines its arena and its size. *)
Lemma block_arena a b sz : block_of R a b sz → pg_round_down b = a ∧ pg_ofs b = b - a.
Proof.
  intros Hb. destruct (block_range a b sz Hb) as (k&Ha&H1&_&_&H2). destruct (arena_range a k Ha) as (_&Hal&_).
  unfold ARENA_SIZE in *. split; [apply pg_round_down_in; [done|lia]|apply pg_ofs_in; [done|lia]].
Qed.
Lemma block_inj a a' b sz sz' : block_of R a b sz → block_of R a' b sz' → a = a' ∧ sz = sz'.
Proof.
  intros Hb Hb'. destruct (block_arena _ _ _ Hb) as [<- _], (block_arena _ _ _ Hb') as [<- _]. split; [done|].
  unfold block_of in *. destruct (R !! pg_round_down b) as [[d|n]|]; naive_solver.
Qed.

Lemma block_disjoint a a' b b' sz sz' :
  block_of R a b sz → block_of R a' b' sz' → b ≠ b' → b + sz ≤ b' ∨ b' + sz' ≤ b.
Proof.
  intros Hb Hb' Hne. destruct (decide (a = a')) as [<-|Ha].
  - unfold block_of in *. destruct (R !! a) as [[d|n]|] eqn:Ha; [|lia|done].
    destruct Hb as (i&Hi&->&->), Hb' as (i'&Hi'&->&->). pose proof (Hl.(lo_small _ _) a d Ha) as Hd.
    destruct (Ztrichotomy i i') as [Hlt|[->|Hgt]]; [|done|].
    + left. by apply blk_disjoint.
    + right. apply blk_disjoint; [done|lia].
  - destruct (block_range _ _ _ Hb) as (k&Hk&?&?&?&?), (block_range _ _ _ Hb') as (k'&Hk'&?&?&?&?).
    unfold ARENA_SIZE in *. destruct (Hv.(pv_disjoint _ _ _) a k a' k' Hk Hk' Ha); lia.
Qed.

(** A block is outside of all other arenas. *)
Lemma block_outside a a' k' b sz :
  block_of R a b sz → R !! a' = Some k' → a ≠ a' → b + sz ≤ a' ∨ a' + PGSIZE * npages k' ≤ b.
Proof.
  intros Hb Ha' Hne. destruct (block_range _ _ _ Hb) as (k&Hk&?&?&?&?). unfold ARENA_SIZE in *.
  destruct (Hv.(pv_disjoint _ _ _) a k a' k' Hk Ha' Hne); lia.
Qed.

(** What is on a free list is a block of its descriptor. *)
Lemma free_block d dd b :
  ds !! d = Some dd → b ∈ free_list dd → ∃ a, R !! a = Some (Small d) ∧ block_of R a b (bsize d) ∧ in_page a b.
Proof.
  intros Hd Hb. destruct (Hl.(lo_blocks _ _) d dd b Hd Hb) as (a&i&Ha&Hi&->).
  assert (block_of R a (blk a d i) (bsize d)) as Hbl by (unfold block_of; rewrite Ha; eauto).
  exists a. split_and!; [done|done|]. destruct (block_range _ _ _ Hbl) as (k&_&?&_&_&?).
  unfold in_page, ARENA_SIZE in *. lia.
Qed.

(** A block is on the free list of one descriptor only. *)
Lemma free_desc d d' dd dd' b :
  ds !! d = Some dd → ds !! d' = Some dd' → b ∈ free_list dd → b ∈ free_list dd' → d = d'.
Proof.
  intros Hd Hd' Hb Hb'. destruct (free_block d dd b Hd Hb) as (a&Ha&Hbl&_), (free_block d' dd' b Hd' Hb') as (a'&Ha'&Hbl'&_).
  destruct (block_inj _ _ _ _ _ Hbl Hbl') as [<- _]. congruence.
Qed.

(** A free block inside of the page of an arena is one of its blocks. *)
Lemma free_in_page a d dd d' dd' b :
  R !! a = Some (Small d) → ds !! d' = Some dd' → b ∈ free_list dd' → in_page a b → ds !! d = Some dd →
  d' = d ∧ b ∈ blocks a d.
Proof.
  intros Ha Hd' Hb Hin Hd. destruct (Hl.(lo_blocks _ _) d' dd' b Hd' Hb) as (a'&i&Ha'&Hi&->).
  destruct (decide (a = a')) as [<-|Hne].
  - rewrite Ha in Ha'. injection Ha' as ->. split; [done|]. apply elem_of_blocks. eauto.
  - pose proof (Hl.(lo_small _ _) a' d' Ha') as Hd7. destruct (blk_range a' d' i Hd7 Hi).
    destruct (bsize_range d' Hd7). unfold in_page, ARENA_SIZE in *.
    destruct (Hv.(pv_disjoint _ _ _) _ _ _ _ Ha Ha' Hne); cbn [npages] in *; lia.
Qed.

(** The number of free blocks is at most the number of blocks, and equal to it
    only if all blocks are free. *)
Lemma free_in_le a d dd :
  R !! a = Some (Small d) → ds !! d = Some dd → 0 ≤ free_in a (free_list dd) ≤ bcount d.
Proof.
  intros Ha Hd. pose proof (Hl.(lo_small _ _) a d Ha) as Hd7. split; [unfold free_in; lia|].
  rewrite <- (length_blocks a d Hd7). unfold free_in. apply inj_le, submseteq_length, NoDup_submseteq.
  - apply NoDup_filter. by eapply lo_nodup.
  - intros b [Hin Hb]%list_elem_of_filter. by eapply free_in_page.
Qed.
Lemma free_in_all a d dd :
  R !! a = Some (Small d) → ds !! d = Some dd → free_in a (free_list dd) = bcount d →
  ∀ i, 0 ≤ i < bcount d → blk a d i ∈ free_list dd.
Proof.
  intros Ha Hd Hn i Hi. pose proof (Hl.(lo_small _ _) a d Ha) as Hd7.
  assert (filter (in_page a) (free_list dd) ≡ₚ blocks a d) as HP.
  { apply submseteq_length_Permutation.
    - apply NoDup_submseteq; [apply NoDup_filter; by eapply lo_nodup|].
      intros b [Hin Hb]%list_elem_of_filter. by eapply free_in_page.
    - pose proof (length_blocks a d Hd7). unfold free_in in Hn. lia. }
  assert (blk a d i ∈ filter (in_page a) (free_list dd)) as H by (rewrite HP; apply elem_of_blocks; eauto).
  by apply list_elem_of_filter in H as [_ ?].
Qed.

End Places.

(** ** Changing the pool *)

Lemma page_in_run p i n j :
  page_addr p i ≤ page_addr p j < page_addr p i + PGSIZE * n ↔ i ≤ j < i + n.
Proof. unfold page_addr, PGSIZE. lia. Qed.

Section Pools.
Context (U : Z → Prop) (p p' : pool) (R : gmap Z kind) (m : mem).
Context (Hpool : pool_ok m p) (Hbase : base p' = base p) (Hcnt : page_cnt p' = page_cnt p).

Lemma page_addr_same i : page_addr p' i = page_addr p i.
Proof. unfold page_addr. by rewrite Hbase. Qed.

Lemma owned_insert a k j :
  R !! a = None → owned p' (<[a := k]> R) j ↔ a ≤ page_addr p j < a + PGSIZE * npages k ∨ owned p R j.
Proof.
  intros Ha. unfold owned. setoid_rewrite page_addr_same. split.
  - intros (a'&k'&[[-> ->]|[Hne Hl]]%lookup_insert_Some&Hj); eauto.
  - intros [Hj|(a'&k'&Hl&Hj)].
    + exists a, k. by rewrite lookup_insert_eq.
    + exists a', k'. rewrite lookup_insert_ne; [done|congruence].
Qed.

(** Free pages of the pool are in no arena. *)
Lemma run_not_owned i n j : pool_view U p R → run p i n false → i ≤ j < i + n → ¬ U j ∧ ¬ owned p R j.
Proof.
  intros Hv (H0&Hle&Hf) Hj. pose proof (Hv.(pv_used _ _ _) j ltac:(lia)) as Hu. rewrite (Hf j Hj) in Hu.
  split; intros H; assert (false = true) by (apply Hu; tauto); done.
Qed.

Lemma pool_view_take i k :
  pool_view U p R → run p i (npages k) false → 0 < npages k →
  (∀ j, 0 ≤ j → page_used p' j = if bool_decide (i ≤ j < i + npages k) then true else page_used p j) →
  R !! page_addr p i = None ∧ pool_view U p' (<[page_addr p i := k]> R).
Proof.
  intros Hv Hrun Hn Hset. pose proof Hrun as (H0&Hle&Hf).
  assert (R !! page_addr p i = None) as Ha.
  { destruct (R !! page_addr p i) as [k'|] eqn:E; [|done]. destruct (Hv.(pv_placed _ _ _) _ _ E) as (i'&_&_&Hn'&_).
    destruct (run_not_owned i (npages k) i Hv Hrun) as [_ []]; [lia|]. exists (page_addr p i), k'.
    split; [done|]. unfold PGSIZE. lia. }
  (* the pages of an arena are not in the run *)
  assert (∀ a' k', R !! a' = Some k' → page_addr p i + PGSIZE * npages k ≤ a' ∨ a' + PGSIZE * npages k' ≤ page_addr p i) as Hout.
  { intros a' k' Ha'. destruct (Hv.(pv_placed _ _ _) a' k' Ha') as (i'&->&Hi'&Hn'&Hle').
    assert (¬ (∃ j, i ≤ j < i + npages k ∧ i' ≤ j < i' + npages k')) as Hno.
    { intros (j&Hj&Hj'). destruct (run_not_owned i (npages k) j Hv Hrun Hj) as [_ []].
      exists (page_addr p i'), k'. split; [done|]. by apply page_in_run. }
    unfold page_addr, PGSIZE. destruct (decide (i ≤ i')) as [Hi|Hi].
    - left. destruct (decide (i + npages k ≤ i')); [lia|]. destruct Hno. exists i'. lia.
    - right. destruct (decide (i' + npages k' ≤ i)); [lia|]. destruct Hno. exists i. lia. }
  split; [done|]. split.
  - intros a' k' [[<- <-]|[Hne Hl]]%lookup_insert_Some.
    + exists i. rewrite page_addr_same, Hcnt. done.
    + destruct (Hv.(pv_placed _ _ _) a' k' Hl) as (i'&->&?&?&?). exists i'. rewrite page_addr_same, Hcnt. done.
  - intros a1 k1 a2 k2 [[<- <-]|[H1 L1]]%lookup_insert_Some [[<- <-]|[H2 L2]]%lookup_insert_Some Hne.
    + done.
    + by apply Hout.
    + destruct (Hout a1 k1 L1); tauto.
    + by apply (Hv.(pv_disjoint _ _ _) a1 k1 a2 k2).
  - intros j Hj. rewrite Hcnt in Hj. rewrite Hset, owned_insert, page_in_run by (done || lia).
    case_bool_decide as Hin; [tauto|]. rewrite (Hv.(pv_used _ _ _) j Hj). tauto.
  - intros j Hu. rewrite owned_insert, page_in_run by done. intros [Hin|Ho].
    + by destruct (run_not_owned i (npages k) j Hv Hrun Hin).
    + by apply (Hv.(pv_others _ _ _) j Hu).
Qed.

Lemma owned_delete a j : owned p' (delete a R) j ↔ ∃ a' k', a' ≠ a ∧ R !! a' = Some k' ∧ a' ≤ page_addr p j < a' + PGSIZE * npages k'.
Proof.
  unfold owned. setoid_rewrite page_addr_same. setoid_rewrite lookup_delete_Some. naive_solver.
Qed.

Lemma pool_view_give a i k :
  pool_view U p R → R !! a = Some k → a = page_addr p i →
  (∀ j, 0 ≤ j → page_used p' j = if bool_decide (i ≤ j < i + npages k) then false else page_used p j) →
  pool_view U p' (delete a R).
Proof.
  intros Hv Ha -> Hset. split.
  - intros a' k' [Hne Hl]%lookup_delete_Some. destruct (Hv.(pv_placed _ _ _) a' k' Hl) as (i'&->&?&?&?).
    exists i'. rewrite page_addr_same, Hcnt. done.
  - intros a1 k1 a2 k2 [_ L1]%lookup_delete_Some [_ L2]%lookup_delete_Some. by apply (Hv.(pv_disjoint _ _ _)).
  - intros j Hj. rewrite Hcnt in Hj. rewrite Hset, owned_delete by lia. case_bool_decide as Hin.
    + split; [done|]. apply (page_in_run p) in Hin.
      intros [Hu|(a'&k'&Hne&Ha'&Hj')]; [destruct (Hv.(pv_others _ _ _) j Hu); by exists (page_addr p i), k|].
      destruct (Hv.(pv_disjoint _ _ _) _ _ _ _ Ha Ha' (not_eq_sym Hne)); lia.
    + rewrite (Hv.(pv_used _ _ _) j Hj). unfold owned. split; [|naive_solver].
      intros [?|(a'&k'&Ha'&Hj')]; [by left|right]. exists a', k'. split_and!; [|done|lia|lia].
      intros ->. rewrite Ha in Ha'. injection Ha' as <-. by rewrite page_in_run in Hj'.
  - intros j Hu. rewrite owned_delete. intros (a'&k'&Hne&Ha'&Hj'). apply (Hv.(pv_others _ _ _) j Hu). by exists a', k'.
Qed.

Lemma pool_view_same : pool_view U p R → (∀ j, 0 ≤ j → page_used p' j = page_used p j) → pool_view U p' R.
Proof.
  intros Hv Hset. split.
  - intros a k Ha. setoid_rewrite page_addr_same. rewrite Hcnt. by apply Hv.
  - apply Hv.
  - intros j Hj. rewrite Hcnt in Hj. rewrite Hset by lia. rewrite (Hv.(pv_used _ _ _) j Hj). unfold owned.
    by setoid_rewrite page_addr_same.
  - intros j Hu. unfold owned. setoid_rewrite page_addr_same. by apply (Hv.(pv_others _ _ _)).
Qed.

End Pools.

(** ** Changing a free list *)
Definition set_list (ds : list desc) (d : nat) (l : list Z) : list desc := alter (set_free_list l) d ds.

Section FreeLists.
Context (ds : list desc) (R : gmap Z kind) (d : nat) (dd : desc).
Context (Hl : lists_ok ds R) (Hd : ds !! d = Some dd).

Lemma set_list_eq l : set_list ds d l !! d = Some (set_free_list l dd).
Proof. unfold set_list. by rewrite list_lookup_alter_eq, Hd. Qed.
Lemma set_list_ne l d' : d ≠ d' → set_list ds d l !! d' = ds !! d'.
Proof. intros Hne. unfold set_list. by rewrite list_lookup_alter_ne. Qed.

(** A descriptor after the change. *)
Lemma set_list_lookup l d' dd' :
  set_list ds d l !! d' = Some dd' →
  ∃ dd0, ds !! d' = Some dd0 ∧ d_block_size dd' = d_block_size dd0 ∧ blocks_per_arena dd' = blocks_per_arena dd0 ∧
    free_list dd' = if bool_decide (d = d') then l else free_list dd0.
Proof.
  destruct (decide (d = d')) as [<-|Hne].
  - rewrite set_list_eq. intros [= <-]. exists dd. by rewrite bool_decide_true.
  - rewrite set_list_ne by done. intros Hd'. exists dd'. by rewrite bool_decide_false.
Qed.

Lemma lists_ok_set R' l :
  NoDup l → (∀ a d', R' !! a = Some (Small d') → (d' < NDESCS)%nat) →
  (∀ b, b ∈ l → ∃ a i, R' !! a = Some (Small d) ∧ 0 ≤ i < bcount d ∧ b = blk a d i) →
  (∀ a d', d' ≠ d → R !! a = Some (Small d') → R' !! a = Some (Small d')) →
  lists_ok (set_list ds d l) R'.
Proof.
  intros Hn Hs Hb Ho. split.
  - unfold set_list. rewrite length_alter. apply Hl.
  - exact Hs.
  - intros d' dd' (dd0&Hd0&->&->&_)%set_list_lookup. by apply Hl.
  - intros d' dd' (dd0&Hd0&_&_&->)%set_list_lookup. case_bool_decide; [done|]. by eapply lo_nodup.
  - intros d' dd' b (dd0&Hd0&_&_&->)%set_list_lookup. case_bool_decide as Hdd; [subst; apply Hb|].
    intros Hin. destruct (Hl.(lo_blocks _ _) d' dd0 b Hd0 Hin) as (a&i&Ha&Hi&->). exists a, i.
    split; [apply Ho; [congruence|done]|done].
Qed.

Lemma lists_ok_same l :
  NoDup l → (∀ b, b ∈ l → ∃ a i, R !! a = Some (Small d) ∧ 0 ≤ i < bcount d ∧ b = blk a d i) →
  lists_ok (set_list ds d l) R.
Proof. intros Hn Hb. apply lists_ok_set; [done|apply Hl|done|done]. Qed.

Lemma in_use_set l b : in_use (set_list ds d l) b ↔ b ∉ l ∧ ∀ d' dd', d ≠ d' → ds !! d' = Some dd' → b ∉ free_list dd'.
Proof.
  unfold in_use. split.
  - intros H. split.
    + exact (H d _ (set_list_eq l)).
    + intros d' dd' Hne Hd'. apply (H d'). by rewrite set_list_ne.
  - intros [H1 H2] d' dd' (dd0&Hd0&_&_&->)%set_list_lookup. case_bool_decide; [done|]. by eapply H2.
Qed.

(** The free blocks of an arena of the descriptor, and of another one. *)
Lemma arena_ok_other m m' l a k :
  R !! a = Some k → (∀ x, a ≤ x < a + ARENA_SIZE → m' !! x = m !! x) →
  (k = Small d → free_in a l = free_in a (free_list dd)) →
  arena_ok m ds a k → arena_ok m' (set_list ds d l) a k.
Proof.
  intros Ha Hm Hf Hok.
  assert (∀ v n, header m a v n → header m' a v n) as Hh.
  { unfold ARENA_SIZE in Hm. intros v n (H1&H2&H3). split_and!; (eapply word_at_frame; [|done]); intros x Hx; apply Hm; lia. }
  destruct k as [d'|n]; cbn in *; [|by apply Hh]. destruct Hok as (dd'&Hd'&Hhd). destruct (decide (d = d')) as [<-|Hne].
  - exists (set_free_list l dd). rewrite set_list_eq. split; [done|]. cbn [free_list set_free_list].
    rewrite Hf by done. simplify_eq. by apply Hh.
  - exists dd'. rewrite set_list_ne by done. split; [done|]. by apply Hh.
Qed.

End FreeLists.

(** Big arenas come and go without the lists. *)
Lemma lists_ok_big ds R a n : lists_ok ds R → R !! a = None → lists_ok ds (<[a := Big n]> R).
Proof.
  intros Hl Ha. split; [apply Hl| |apply Hl|apply Hl|].
  - intros a' d [[_ H]|[_ H]]%lookup_insert_Some; [done|by eapply lo_small].
  - intros d dd b Hd Hb. destruct (Hl.(lo_blocks _ _) d dd b Hd Hb) as (a'&i&Ha'&Hi). exists a', i.
    rewrite lookup_insert_ne; [done|congruence].
Qed.
Lemma lists_ok_unbig ds R a n : lists_ok ds R → R !! a = Some (Big n) → lists_ok ds (delete a R).
Proof.
  intros Hl Ha. split; [apply Hl| |apply Hl|apply Hl|].
  - intros a' d [_ H]%lookup_delete_Some. by eapply lo_small.
  - intros d dd b Hd Hb. destruct (Hl.(lo_blocks _ _) d dd b Hd Hb) as (a'&i&Ha'&Hi). exists a', i.
    rewrite lookup_delete_ne; [done|congruence].
Qed.
Lemma arena_ok_frame m m' ds a k :
  (∀ x, a ≤ x < a + ARENA_SIZE → m' !! x = m !! x) → arena_ok m ds a k → arena_ok m' ds a k.
Proof.
  unfold ARENA_SIZE. intros Hm Hok.
  assert (∀ v n, header m a v n → header m' a v n) as Hh.
  { intros v n (H1&H2&H3). split_and!; (eapply word_at_frame; [|done]); intros x Hx; apply Hm; lia. }
  destruct k as [d'|n]; cbn in *; [|by apply Hh]. destruct Hok as (dd'&Hd'&Hhd). eauto.
Qed.

(** ** Steps of the operations *)
Definition with_mem (m : mem) (s : kheap) : kheap := mk_kheap (set_bytes m (pages s)) (descs s).
Definition with_descs (ds : list desc) (s : kheap) : kheap := mk_kheap (pages s) ds.
(** The pointer to a descriptor. *)
Definition dptr (d : nat) : Z := Z.of_nat d + 1.

Section Steps.
Implicit Types (s : kheap) (m : mem).

Lemma with_mem_id s : with_mem (kbytes s) s = s.
Proof. by destruct s as [[]]. Qed.

Lemma wp_on_pages {A} (c : M ram A) s Q :
  wp c (pages s) (λ a r, Q a (mk_kheap r (descs s))) → wp (on_pages c) s Q.
Proof. unfold wp, on_pages. by destruct (c _) as [[a r]|]. Qed.
Lemma wp_on_mem {A} (c : M mem A) s Q : wp c (kbytes s) (λ a m, Q a (with_mem m s)) → wp (on_mem c) s Q.
Proof. intros H. apply wp_on_pages, wp_on_bytes. exact H. Qed.

Lemma wp_read_word s x v Q : word_at (kbytes s) x v → Q v s → wp (on_mem (load_word x)) s Q.
Proof. intros Hw HQ. eapply wp_on_mem, load_word_spec; [exact Hw|]. by rewrite with_mem_id. Qed.

Lemma wp_get_desc s d dd Q : descs s !! d = Some dd → Q dd s → wp (get_desc (dptr d)) s Q.
Proof.
  intros Hd HQ. unfold get_desc, dptr. wp_step. wp_step. rewrite bool_decide_false by (unfold NULL; lia).
  replace (desc_index (Z.of_nat d + 1)) with d by (unfold desc_index; lia). by rewrite Hd.
Qed.
Lemma wp_upd_free_list s d dd f (Q : unit → kheap → Prop) :
  descs s !! d = Some dd → Q tt (with_descs (set_list (descs s) d (f (free_list dd))) s) → wp (upd_free_list (dptr d) f) s Q.
Proof.
  intros Hd HQ. unfold upd_free_list. wp_step. replace (desc_index (dptr d)) with d by (unfold desc_index, dptr; lia).
  replace (alter _ d (descs s)) with (set_list (descs s) d (f (free_list dd))); [done|].
  apply list_eq. intros i. unfold set_list. destruct (decide (d = i)) as [<-|Hne].
  - by rewrite !list_lookup_alter_eq, Hd.
  - by rewrite !list_lookup_alter_ne.
Qed.

(** A page that is an arena of descriptor [d], as far as the functions that
    compute with addresses look. *)
Record arena_page (s : kheap) (a : Z) (d : nat) (dd : desc) : Prop := {
  ap_aligned : a mod PGSIZE = 0;
  ap_range : 0 < a ∧ a + PGSIZE < 2 ^ 32;
  ap_desc : descs s !! d = Some dd;
  ap_index : (d < NDESCS)%nat;
  ap_sizes : d_block_size dd = bsize d ∧ blocks_per_arena dd = bcount d;
  ap_magic : word_at (kbytes s) a ARENA_MAGIC;
  ap_ptr : word_at (kbytes s) (a + 4) (dptr d)
}.

Lemma arena_to_block_spec s a d dd i Q :
  arena_page s a d dd → 0 ≤ i < bcount d → Q (blk a d i) s → wp (arena_to_block a i) s Q.
Proof.
  intros [Hal Hr Hd Hi7 [Hsz Hc] Hm Hp] Hi HQ. unfold arena_to_block.
  rewrite bool_decide_true by (unfold NULL; lia). wp_steps. eapply wp_read_word; [exact Hm|]. wp_steps.
  eapply wp_read_word; [exact Hp|]. wp_steps. eapply wp_get_desc; [exact Hd|]. wp_step. rewrite Hc.
  rewrite bool_decide_true by lia. wp_steps. rewrite Hsz. destruct (blk_range a d i Hi7 Hi). destruct (bsize_range d Hi7).
  unfold blk in *. assert (0 ≤ i * bsize d) by (apply Z.mul_nonneg_nonneg; lia). unfold ARENA_SIZE, PGSIZE in *.
  rewrite (u32_small (i * bsize d)), u32_small by word_lia. done.
Qed.

Lemma block_to_arena_small s a d dd i Q :
  arena_page s a d dd → 0 ≤ i < bcount d → Q a s → wp (block_to_arena (blk a d i)) s Q.
Proof.
  intros [Hal Hr Hd Hi7 [Hsz Hc] Hm Hp] Hi HQ. unfold block_to_arena.
  destruct (blk_range a d i Hi7 Hi). destruct (bsize_range d Hi7) as (Hb&_&_).
  rewrite (pg_round_down_in a) by (done || (unfold ARENA_SIZE in *; lia)).
  rewrite bool_decide_true by (unfold NULL; lia). wp_steps. eapply wp_read_word; [exact Hm|]. wp_steps.
  eapply wp_read_word; [exact Hp|].
  rewrite (bool_decide_false (dptr d = _)) by (unfold dptr, NULL; lia). wp_steps. eapply wp_get_desc; [exact Hd|].
  rewrite (pg_ofs_in a) by (done || (unfold ARENA_SIZE in *; lia)). rewrite Hsz.
  assert (blk a d i - a - ARENA_SIZE = i * bsize d) as He by (unfold blk; lia).
  assert (0 ≤ i * bsize d) by (apply Z.mul_nonneg_nonneg; lia).
  assert (i * bsize d < PGSIZE) by (unfold blk, ARENA_SIZE in *; lia).
  rewrite He, u32_small, Z_mod_mult by (unfold PGSIZE in *; word_lia). wp_steps.
  rewrite bool_decide_true by (unfold dptr, NULL; lia). by wp_steps.
Qed.

Lemma block_to_arena_big s a Q :
  a mod PGSIZE = 0 → 0 < a → word_at (kbytes s) a ARENA_MAGIC → word_at (kbytes s) (a + 4) NULL → Q a s →
  wp (block_to_arena (a + ARENA_SIZE)) s Q.
Proof.
  intros Hal Ha Hm Hp HQ. unfold block_to_arena, ARENA_SIZE. rewrite (pg_round_down_in a) by (done || (unfold PGSIZE; lia)).
  rewrite bool_decide_true by (unfold NULL; lia). wp_steps. eapply wp_read_word; [exact Hm|]. wp_steps.
  eapply wp_read_word; [exact Hp|]. rewrite bool_decide_true by done. wp_steps.
  rewrite (pg_ofs_in a) by (done || (unfold PGSIZE; lia)). rewrite (bool_decide_true (a + 12 - a = 12)) by lia. rewrite orb_true_r. by wp_steps.
Qed.

(** Only the free list of the descriptor is updated. *)
Lemma arena_page_list s a d dd l :
  arena_page s a d dd → arena_page (with_descs (set_list (descs s) d l) s) a d (set_free_list l dd).
Proof.
  intros [Hal Hr Hd Hi7 Hsz Hm Hp]. split; try done. by apply set_list_eq.
Qed.

Lemma set_list_twice ds d l l' : set_list (set_list ds d l) d l' = set_list ds d l'.
Proof.
  unfold set_list. apply list_eq. intros i. destruct (decide (d = i)) as [<-|Hne].
  - rewrite !list_lookup_alter_eq. by destruct (ds !! d).
  - by rewrite !list_lookup_alter_ne.
Qed.
Lemma set_list_id ds d dd : ds !! d = Some dd → set_list ds d (free_list dd) = ds.
Proof.
  intros Hd. unfold set_list. apply list_eq. intros i. destruct (decide (d = i)) as [<-|Hne].
  - rewrite list_lookup_alter_eq, Hd. by destruct dd.
  - by rewrite list_lookup_alter_ne.
Qed.

Lemma push_blocks_spec n s a d dd i :
  arena_page s a d dd → 0 ≤ i → i + Z.of_nat n ≤ bcount d →
  wp (push_blocks n a (dptr d) i) s
    (λ _ s', s' = with_descs (set_list (descs s) d (free_list dd ++ (blk a d <$> seqZ i (Z.of_nat n)))) s).
Proof.
  revert s dd i. induction n as [|n IH]; intros s dd i Hp Hi Hle; cbn [push_blocks].
  - wp_step. rewrite seqZ_nil by lia. csimpl. rewrite app_nil_r. destruct Hp as [_ _ Hd _ _ _ _].
    rewrite set_list_id by done. by destruct s.
  - wp_step. eapply arena_to_block_spec; [exact Hp|lia|]. wp_step.
    eapply wp_upd_free_list; [apply Hp|]. eapply wp_mono; [apply IH; [by apply arena_page_list|lia|lia]|].
    intros [] s' ->. cbn [with_descs descs free_list set_free_list pages]. unfold with_descs. cbn [pages]. f_equal. rewrite set_list_twice.
    f_equal. rewrite (seqZ_cons i) by lia. csimpl. rewrite <- app_assoc.
    replace (Z.pred (Z.of_nat (S n))) with (Z.of_nat n) by lia. by rewrite Z.add_1_r.
Qed.

Lemma remove_blocks_spec n s a d dd i :
  arena_page s a d dd → 0 ≤ i → i + Z.of_nat n ≤ bcount d → NoDup (free_list dd) →
  (∀ j, i ≤ j < i + Z.of_nat n → blk a d j ∈ free_list dd) →
  wp (remove_blocks n a (dptr d) i) s (λ _ s', ∃ l, s' = with_descs (set_list (descs s) d l) s ∧ NoDup l ∧
    ∀ b, b ∈ l ↔ b ∈ free_list dd ∧ ∀ j, i ≤ j < i + Z.of_nat n → b ≠ blk a d j).
Proof.
  revert s dd i. induction n as [|n IH]; intros s dd i Hp Hi Hle Hnd Hall; cbn [remove_blocks].
  - wp_step. exists (free_list dd). destruct Hp as [_ _ Hd _ _ _ _]. rewrite set_list_id by done.
    split_and!; [by destruct s|done|]. intros b. split; [|tauto]. intros Hb. split; [done|]. lia.
  - pose proof (Hp.(ap_desc _ _ _ _)) as Hd. pose proof (Hp.(ap_index _ _ _ _)) as Hi7.
    wp_step. eapply arena_to_block_spec; [exact Hp|lia|]. wp_step. eapply wp_get_desc; [exact Hd|]. wp_step.
    rewrite bool_decide_true by (apply Hall; lia). eapply wp_upd_free_list; [exact Hd|].
    eapply wp_mono; [apply IH|].
    + by apply arena_page_list.
    + lia.
    + lia.
    + cbn. by apply remove_elem_NoDup.
    + intros j Hj. cbn. apply elem_of_remove_elem; [done|]. split; [apply Hall; lia|].
      intros ?%blk_inj; [lia|done].
    + intros [] s' (l&->&Hl&Hb). exists l. cbn [with_descs descs free_list set_free_list pages] in *. unfold with_descs. cbn [pages].
      rewrite set_list_twice. split_and!; [done|done|]. intros b. rewrite Hb, elem_of_remove_elem by done. split.
      * intros [[H1 H2] H3]. split; [done|]. intros j Hj. destruct (decide (j = i)) as [->|]; [done|]. apply H3. lia.
      * intros [H1 H2]. split_and!; [done|apply H2; lia|]. intros j Hj. apply H2. lia.
Qed.

End Steps.

(** ** One arena changes *)
Section Arenas.
Context (U : Z → Prop) (s : kheap) (R : gmap Z kind) (Hi : heap_inv U s R).

Lemma inv_pool_ok : pool_ok (kbytes s) (kpool s).
Proof. exact (Hi.(hi_ram _ _ _).(ram_pools _) false). Qed.

Lemma inv_arena_range a k :
  R !! a = Some k →
  0 < npages k ∧ a mod PGSIZE = 0 ∧ PHYS_BASE ≤ a ∧ a + PGSIZE * npages k < 2 ^ 32 ∧
  mapped (kbytes s) a (PGSIZE * npages k).
Proof. apply (arena_range U (kpool s) R (kbytes s)); [apply inv_pool_ok|apply Hi]. Qed.

Lemma inv_arena_page a d :
  R !! a = Some (Small d) →
  ∃ dd, arena_page s a d dd ∧ word_at (kbytes s) (a + 8) (free_in a (free_list dd)) ∧ mapped (kbytes s) a PGSIZE.
Proof.
  intros Ha. destruct (Hi.(hi_arenas _ _ _) a _ Ha) as (dd&Hd&H1&H2&H3). exists dd.
  destruct (inv_arena_range a _ Ha) as (_&Hal&Hlo&Hhi&Hm). cbn [npages] in *. rewrite Z.mul_1_r in *.
  split_and!; [|done|done]. split; try done; [unfold PHYS_BASE in *; lia| |].
  - by eapply (lo_small _ _ (Hi.(hi_lists _ _ _))).
  - by apply (Hi.(hi_lists _ _ _)).
Qed.

(** The extents of two arenas. *)
Lemma inv_disjoint a k a' k' :
  R !! a = Some k → R !! a' = Some k' → a ≠ a' → a + PGSIZE * npages k ≤ a' ∨ a' + PGSIZE * npages k' ≤ a.
Proof. apply (Hi.(hi_pool _ _ _)). Qed.
Lemma in_page_unique a a' d k b : R !! a = Some (Small d) → R !! a' = Some k → in_page a b → in_page a' b → a = a'.
Proof.
  intros Ha Ha' H1 H2. destruct (decide (a = a')) as [|Hne]; [done|]. unfold in_page in *.
  destruct (inv_arena_range a' k Ha') as (Hn&_). destruct (inv_disjoint _ _ _ _ Ha Ha' Hne); cbn [npages] in *; unfold PGSIZE in *; lia.
Qed.

(** The facts on places, in this state. *)
Lemma inv_block_range a b sz :
  block_of R a b sz → ∃ k, R !! a = Some k ∧ a + ARENA_SIZE ≤ b ∧ 0 < sz ∧ b + sz ≤ a + PGSIZE * npages k ∧ b < a + PGSIZE.
Proof. eapply block_range; [apply inv_pool_ok|apply Hi|apply Hi]. Qed.
Lemma inv_block_arena a b sz : block_of R a b sz → pg_round_down b = a ∧ pg_ofs b = b - a.
Proof. eapply block_arena; [apply inv_pool_ok|apply Hi|apply Hi]. Qed.
Lemma inv_block_inj a a' b sz sz' : block_of R a b sz → block_of R a' b sz' → a = a' ∧ sz = sz'.
Proof. eapply block_inj; [apply inv_pool_ok|apply Hi|apply Hi]. Qed.
Lemma inv_block_disjoint a a' b b' sz sz' :
  block_of R a b sz → block_of R a' b' sz' → b ≠ b' → b + sz ≤ b' ∨ b' + sz' ≤ b.
Proof. eapply block_disjoint; [apply inv_pool_ok|apply Hi|apply Hi]. Qed.
Lemma inv_block_outside a a' k' b sz :
  block_of R a b sz → R !! a' = Some k' → a ≠ a' → b + sz ≤ a' ∨ a' + PGSIZE * npages k' ≤ b.
Proof. eapply block_outside; [apply inv_pool_ok|apply Hi|apply Hi]. Qed.
Lemma inv_free_block d dd b :
  descs s !! d = Some dd → b ∈ free_list dd → ∃ a, R !! a = Some (Small d) ∧ block_of R a b (bsize d) ∧ in_page a b.
Proof. eapply free_block; [apply inv_pool_ok|apply Hi|apply Hi]. Qed.
Lemma inv_free_desc d d' dd dd' b :
  descs s !! d = Some dd → descs s !! d' = Some dd' → b ∈ free_list dd → b ∈ free_list dd' → d = d'.
Proof. eapply free_desc; [apply inv_pool_ok|apply Hi|apply Hi]. Qed.

(** No block reaches into the header of an arena. *)
Lemma header_not_block a k a' b sz x :
  R !! a = Some k → block_of R a' b sz → b ≤ x < b + sz → x < a ∨ a + ARENA_SIZE ≤ x.
Proof.
  intros Ha Hb Hx. destruct (decide (a' = a)) as [->|Hne].
  - destruct (inv_block_range _ _ _ Hb)
      as (k'&_&H&_). right. lia.
  - destruct (inv_block_outside _ _ _ _ _ Hb Ha Hne);
      [lia|]. destruct (inv_arena_range a k Ha) as (Hn&_). unfold ARENA_SIZE, PGSIZE in *. lia.
Qed.

(** The list of one descriptor changes by blocks of the arena [a], the count of
    [a] follows, and memory changes in [a] only. *)
Lemma update_arena a d dd l m :
  R !! a = Some (Small d) → descs s !! d = Some dd → lists_ok (set_list (descs s) d l) R →
  (∀ a', a' ≠ a → R !! a' = Some (Small d) → free_in a' l = free_in a' (free_list dd)) →
  dom m = dom (kbytes s) → (∀ x, x < a + 8 ∨ a + PGSIZE ≤ x → m !! x = kbytes s !! x) → word_at m (a + 8) (free_in a l) →
  heap_inv U (with_mem m (with_descs (set_list (descs s) d l) s)) R.
Proof.
  intros Ha Hd Hl Hother Hdom Hm Hw. split.
  - by apply ram_ok_bytes; [apply Hi|].
  - apply Hi.
  - exact Hl.
  - intros a' k Ha'. change (arena_ok m (set_list (descs s) d l) a' k). pose proof (Hi.(hi_arenas _ _ _) a' k Ha') as Hok.
    destruct (decide (a' = a)) as [->|Hne].
    + rewrite Ha in Ha'. injection Ha' as <-. destruct Hok as (dd'&Hd'&H1&H2&H3). rewrite Hd in Hd'. injection Hd' as <-.
      exists (set_free_list l dd). split; [by apply set_list_eq|]. unfold PGSIZE in *.
      split_and!; [| |exact Hw]; (eapply word_at_frame; [|done]); intros x Hx; apply Hm; lia.
    + apply (arena_ok_other (descs s) R d dd Hd (kbytes s)); [done| | |done].
      * intros x Hx. apply Hm. destruct (inv_disjoint _ _ _ _ Ha Ha' (not_eq_sym Hne)); cbn [npages] in *.
        -- unfold ARENA_SIZE, PGSIZE in *. lia.
        -- destruct (inv_arena_range a' k Ha') as (Hn&_). unfold ARENA_SIZE, PGSIZE in *. lia.
      * intros ->. by apply Hother.
Qed.

End Arenas.

(** ** Taking a block off its list *)
Definition take_block (d : Z) : M kheap Z :=
  b ← pop_block d; a ← block_to_arena b; n ← arena_free_cnt a; set_arena_free_cnt a (u32 (n - 1));; ret b.

Lemma take_block_spec U s R d dd b l :
  heap_inv U s R → descs s !! d = Some dd → free_list dd = b :: l →
  wp (take_block (dptr d)) s (λ r s', r = b ∧ ∃ a m, R !! a = Some (Small d) ∧ in_page a b ∧
    s' = with_mem m (with_descs (set_list (descs s) d l) s) ∧ heap_inv U s' R ∧
    free_in a l < bcount d ∧ (∀ a', a' ≠ a → R !! a' = Some (Small d) → free_in a' l = free_in a' (free_list dd)) ∧
    (∀ x, x < a ∨ a + ARENA_SIZE ≤ x → m !! x = kbytes s !! x)).
Proof.
  intros Hi Hd Hf. pose proof (hi_lists _ _ _ Hi) as Hl.
  destruct (lo_blocks _ _ Hl d dd b Hd) as (a&i&Ha&Hib&Hb); [rewrite Hf; by left|].
  destruct (inv_arena_page U s R Hi a d Ha) as (dd'&Hp&Hw&Hm). assert (dd' = dd) as ->.
  { pose proof (ap_desc _ _ _ _ Hp). congruence. }
  assert (in_page a b) as Hin.
  { destruct (blk_range a d i (ap_index _ _ _ _ Hp) Hib), (bsize_range d (ap_index _ _ _ _ Hp)).
    subst b. unfold in_page, ARENA_SIZE in *. lia. }
  pose proof (lo_nodup _ _ Hl d dd Hd) as Hnd. rewrite Hf in Hnd. apply NoDup_cons in Hnd as [Hbl Hnd].
  destruct (free_in_le U (kpool s) R (descs s) (hi_pool _ _ _ Hi) Hl a d dd Ha Hd) as [_ Hle].
  assert (free_in a (free_list dd) = 1 + free_in a l) as Hcount by (rewrite Hf, free_in_cons, bool_decide_true by done; done).
  unfold take_block, pop_block. wp_step. wp_step. eapply wp_get_desc; [exact Hd|]. rewrite Hf. wp_step.
  eapply wp_upd_free_list; [exact Hd|]. rewrite Hf. cbn [tail]. wp_step. subst b.
  set (s1 := with_descs _ s). assert (arena_page s1 a d (set_free_list l dd)) as Hp1 by (by apply arena_page_list).
  wp_step. eapply block_to_arena_small; [exact Hp1|exact Hib|]. wp_step. eapply wp_read_word; [exact Hw|].
  rewrite Hcount. destruct (bsize_range d (ap_index _ _ _ _ Hp)) as (_&Hcnt&_).
  assert (0 ≤ free_in a l) as H0 by (unfold free_in; lia). rewrite u32_small by word_lia. replace (1 + free_in a l - 1) with (free_in a l) by lia.
  wp_step. apply wp_on_mem. eapply wp_mono; [apply store_word_spec|].
  { word_lia. } { eapply mapped_sub; [exact Hm|lia|unfold PGSIZE; lia]. }
  intros [] m [Hwr Hw']. wp_step. split; [done|]. exists a, m.
  assert (∀ x, x < a + 8 ∨ a + 12 ≤ x → m !! x = kbytes s !! x) as Hfr.
  { destruct Hwr as (_&Hfr&_). intros x Hx. apply Hfr. rewrite length_word_bytes. lia. }
  assert (∀ a', a' ≠ a → R !! a' = Some (Small d) → free_in a' l = free_in a' (free_list dd)) as Hoth.
  { intros a' Hne Ha'. rewrite Hf, free_in_cons, bool_decide_false; [done|]. intros Hin'. destruct Hne.
    by apply (in_page_unique U s R Hi a' a d (Small d) (blk a d i)). }
  split_and!; [done|exact Hin|done| |lia|by rewrite <- Hf|].
  - apply (update_arena U s R Hi a d dd l m); [done|done| |done|by destruct Hwr as (_&_&?)| |done].
    + apply (lists_ok_same _ _ d dd); [done|done|done|]. intros b' Hb'. apply (lo_blocks _ _ Hl d dd b' Hd). rewrite Hf. by right.
    + intros x Hx. apply Hfr. unfold PGSIZE in Hx. lia.
  - intros x Hx. apply Hfr. unfold ARENA_SIZE in Hx. lia.
Qed.

(** ** New arenas *)
Lemma wp_store_field s x v (Q : unit → kheap → Prop) :
  is_u32 v → mapped (kbytes s) x 4 →
  (∀ m, writes (kbytes s) x (word_bytes v) m → Q tt (with_mem m s)) → wp (on_mem (store_word x v)) s Q.
Proof.
  intros Hv Hm HQ. apply wp_on_mem. eapply wp_mono; [by apply store_word_spec|]. intros [] m [Hw _]. by apply HQ.
Qed.

Lemma header_written m0 m1 m2 m3 a v n :
  is_u32 v → is_u32 n →
  writes m0 a (word_bytes ARENA_MAGIC) m1 → writes m1 (a + 4) (word_bytes v) m2 → writes m2 (a + 8) (word_bytes n) m3 →
  header m3 a v n ∧ dom m3 = dom m0 ∧ ∀ x, x < a ∨ a + ARENA_SIZE ≤ x → m3 !! x = m0 !! x.
Proof.
  intros Hv Hn H1 H2 H3. split; [split_and!|split].
  - split; [done|]. eapply writes_frame; [exact H3| |rewrite length_word_bytes; lia].
    eapply writes_frame; [exact H2|by eapply writes_bytes|rewrite length_word_bytes; lia].
  - split; [done|]. eapply writes_frame; [exact H3|by eapply writes_bytes|rewrite length_word_bytes; lia].
  - split; [done|]. by eapply writes_bytes.
  - destruct H1 as (_&_&D1), H2 as (_&_&D2), H3 as (_&_&D3). congruence.
  - intros x Hx. destruct H1 as (_&F1&_), H2 as (_&F2&_), H3 as (_&F3&_). rewrite !length_word_bytes in *.
    unfold ARENA_SIZE in Hx. rewrite F3, F2, F1 by lia. done.
Qed.

(** What pages from the kernel pool mean for the heap. *)
Section NewPages.
Context (U : Z → Prop) (s : kheap) (R : gmap Z kind) (Hi : heap_inv U s R).

Lemma got_no_pages n r s' :
  ram_ok r → pages_set false 0 0 false (pages s) r → bytes r = kbytes s → s' = mk_kheap r (descs s) →
  n = NULL → heap_inv U s' R ∧ descs s' = descs s ∧ kbytes s' = kbytes s.
Proof.
  intros Hok [Hb Hc Hu _] Hbytes -> ->. split; [|done]. split; [done| |apply Hi|].
  - apply (pool_view_same U (kpool s) _ R); [done|done|apply Hi|]. intros j Hj. unfold kpool. cbn. rewrite Hu by done.
    by rewrite bool_decide_false by lia.
  - intros a k Ha. unfold kbytes. cbn. rewrite Hbytes. by apply Hi.
Qed.

Lemma got_pages r i k :
  ram_ok r → pages_set false i (npages k) true (pages s) r → bytes r = kbytes s → 0 < npages k →
  run (kpool s) i (npages k) false →
  let a := page_addr (kpool s) i in
  R !! a = None ∧ pool_view U (kernel_pool r) (<[a := k]> R) ∧
  (∀ a' k', R !! a' = Some k' → a + PGSIZE * npages k ≤ a' ∨ a' + PGSIZE * npages k' ≤ a) ∧
  PHYS_BASE ≤ a ∧ a + PGSIZE * npages k < 2 ^ 32 ∧ a mod PGSIZE = 0 ∧ mapped (kbytes s) a (PGSIZE * npages k).
Proof.
  intros Hok [Hb Hc Hu _] Hbytes Hn Hrun a. pose proof Hrun as (H0&Hle&_).
  destruct (page_addr_range (pages s) false i (npages k)) as (Hlo&Hhi&Hal&Hm); [apply Hi|done|lia|done|].
  destruct (pool_view_take U (kpool s) (kernel_pool r) R Hb Hc i k) as [Ha Hv]; [apply Hi|done|done|done|].
  split_and!; try done. intros a' k' Ha'. apply (pv_disjoint _ _ _ Hv).
  - by rewrite lookup_insert_eq.
  - rewrite lookup_insert_ne; [done|]. intros E. rewrite E, Ha' in Ha. done.
  - intros E. subst a. rewrite E, Ha' in Ha. done.
Qed.

(** The arenas that were there stay, if memory changes in the new pages only. *)
Lemma old_arenas a k (m : mem) :
  (∀ a' k', R !! a' = Some k' → a + PGSIZE * npages k ≤ a' ∨ a' + PGSIZE * npages k' ≤ a) → 0 < npages k →
  (∀ x, x < a ∨ a + ARENA_SIZE ≤ x → m !! x = kbytes s !! x) →
  ∀ a' k' x, R !! a' = Some k' → a' ≤ x < a' + PGSIZE * npages k' → m !! x = kbytes s !! x.
Proof.
  intros Hd Hn Hm a' k' x Ha' Hx. apply Hm. unfold ARENA_SIZE, PGSIZE in *. destruct (Hd a' k' Ha'); lia.
Qed.

End NewPages.

Lemma block_in_page a d b : (d < NDESCS)%nat → b ∈ blocks a d → in_page a b.
Proof.
  intros Hd (i&Hi&->)%elem_of_blocks. destruct (blk_range a d i Hd Hi), (bsize_range d Hd). unfold in_page, ARENA_SIZE in *. lia.
Qed.
Lemma free_in_blocks a d : (d < NDESCS)%nat → free_in a (blocks a d) = bcount d.
Proof.
  intros Hd. unfold free_in. rewrite filter_all; [by apply length_blocks|]. intros b. by apply block_in_page.
Qed.

Lemma new_arena_spec U s R d dd :
  heap_inv U s R → descs s !! d = Some dd → free_list dd = [] →
  wp (new_arena (dptr d)) s (λ ok s',
    if ok : bool then ∃ a, R !! a = None ∧ heap_inv U s' (<[a := Small d]> R) ∧ descs s' = set_list (descs s) d (blocks a d) ∧
      (∀ a' k x, R !! a' = Some k → a' ≤ x < a' + PGSIZE * npages k → kbytes s' !! x = kbytes s !! x)
    else heap_inv U s' R ∧ descs s' = descs s ∧ kbytes s' = kbytes s ∧ ∀ i, ¬ run (kpool s) i 1 false).
Proof.
  intros Hi Hd Hf. pose proof (hi_lists _ _ _ Hi) as Hl. destruct (lo_sizes _ _ Hl d dd Hd) as [Hsz Hcnt].
  assert (d < NDESCS)%nat as Hd7 by (rewrite <- (lo_length _ _ Hl); by eapply lookup_lt_Some).
  destruct (bsize_range d Hd7) as (_&Hbc&_).
  unfold new_arena. wp_step. apply wp_on_pages.
  eapply wp_mono; [apply palloc_get_spec; [apply Hi|lia|by left]|]. intros a r [Hok Hgot].
  destruct Hgot as [(i&[Hrun _]&->&Hset&Hbytes)|(->&Hno&Hset&Hbytes)]; cbn in Hbytes, Hset.
  2: { rewrite bool_decide_true by done. wp_step.
       by destruct (got_no_pages U s R Hi NULL r (mk_kheap r (descs s))) as (?&?&?). }
  destruct (got_pages U s R Hi r i (Small d)) as (Ha&Hv&Hdis&Hlo&Hhi&Hal&Hm); [done|done|done|done|done|].
  change (pool_of (has_flag 0 PAL_USER) (pages s)) with (kpool s). set (a := page_addr (kpool s) i) in *. cbn [npages] in *.
  rewrite Z.mul_1_r in *. rewrite bool_decide_false by (unfold NULL, PHYS_BASE in *; lia).
  assert (∀ x n (m : mem), a ≤ x → x + n ≤ a + PGSIZE → dom m = dom (kbytes s) → mapped m x n) as Hmap.
  { intros x n m Hx Hn Hdom. eapply mapped_dom; [exact Hdom|]. eapply mapped_sub; [exact Hm|lia|lia]. }
  assert (is_u32 (dptr d)) as Hpd by (unfold dptr, NDESCS in *; word_lia).
  wp_step. apply wp_store_field; [done|unfold kbytes; cbn; rewrite Hbytes; apply Hmap; unfold PGSIZE; lia || done|].
  intros m1 W1. cbn [kbytes pages bytes] in W1. unfold kbytes in W1. cbn in W1. rewrite Hbytes in W1. fold (kbytes s) in W1.
  assert (dom m1 = dom (kbytes s)) as D1 by (by destruct W1 as (_&_&?)).
  wp_step. apply wp_store_field; [done|apply Hmap; unfold PGSIZE; lia || done|]. intros m2 W2.
  assert (dom m2 = dom (kbytes s)) as D2 by (destruct W2 as (_&_&D2); exact (eq_trans D2 D1)).
  wp_step. eapply wp_get_desc; [exact Hd|]. rewrite Hcnt. wp_step.
  apply wp_store_field; [word_lia|apply Hmap; unfold PGSIZE; lia || done|]. intros m3 W3.
  destruct (header_written (kbytes s) m1 m2 m3 a (dptr d) (bcount d)) as (Hh&D3&Hfr); [done|word_lia|done|done|done|].
  wp_step. set (s3 := with_mem m3 _).
  assert (arena_page s3 a d dd) as Hp.
  { destruct Hh as (?&?&_). split; try done. unfold PHYS_BASE in *. lia. }
  eapply wp_mono; [apply (push_blocks_spec _ s3 a d dd 0 Hp); lia|].
  intros [] s' ->. wp_step. exists a. rewrite Hf, Z2Nat.id by lia. cbn [app]. fold (blocks a d).
  assert (∀ a' k x, R !! a' = Some k → a' ≤ x < a' + PGSIZE * npages k → m3 !! x = kbytes s !! x) as Hold.
  { eapply (old_arenas s R a (Small d)); [cbn [npages]; by rewrite Z.mul_1_r|cbn; lia|done]. }
  split_and!; [done| |done|exact Hold]. split.
  - apply (ram_ok_bytes r); [done|by rewrite Hbytes].
  - exact Hv.
  - apply (lists_ok_set _ R d dd); [done|done|by apply NoDup_blocks| | |].
    + intros a' d' [[_ [= <-]]|[_ H]]%lookup_insert_Some; [done|by eapply lo_small].
    + intros b (j&Hj&->)%elem_of_blocks. exists a, j. by rewrite lookup_insert_eq.
    + intros a' d' _ Ha'. rewrite lookup_insert_ne; [done|congruence].
  - intros a' k' [[<- <-]|[Hne Ha']]%lookup_insert_Some.
    + exists (set_free_list (blocks a d) dd). split; [by apply set_list_eq|]. cbn [free_list set_free_list].
      by rewrite free_in_blocks.
    + apply (arena_ok_other (descs s) R d dd Hd (kbytes s)); [done| | |by apply Hi].
      * intros x Hx. eapply Hold; [exact Ha'|]. destruct (inv_arena_range U s R Hi a' k' Ha') as (Hn&_).
        unfold ARENA_SIZE, PGSIZE in *. lia.
      * intros ->. rewrite Hf. unfold free_in. rewrite (filter_none (in_page a')); [done|].
        intros b (j&Hj&->)%elem_of_blocks Hin. destruct (blk_range a d j Hd7 Hj), (bsize_range d Hd7).
        destruct (Hdis a' _ Ha'); cbn [npages] in *; unfold in_page, ARENA_SIZE, PGSIZE in *; lia.
Qed.

(** ** The blocks of the clients *)
Definition heap_rep (U : Z → Prop) (s : kheap) (R : gmap Z kind) : Prop := heap_inv U s R ∧ tight (descs s) R.
(** The contents of the blocks in use stay. *)
Definition keeps (s : kheap) (R : gmap Z kind) (m : mem) : Prop :=
  ∀ b sz x, live (descs s) R b sz → b ≤ x < b + sz → m !! x = kbytes s !! x.

Section Live.
Context (U : Z → Prop) (s : kheap) (R : gmap Z kind) (Hi : heap_inv U s R).
Implicit Types (d : nat) (dd : desc).

Lemma block_of_insert a k a' b sz : a' ≠ a → block_of (<[a := k]> R) a' b sz ↔ block_of R a' b sz.
Proof. intros Hne. unfold block_of. by rewrite lookup_insert_ne. Qed.
Lemma block_of_delete a a' b sz : a' ≠ a → block_of (delete a R) a' b sz ↔ block_of R a' b sz.
Proof. intros Hne. unfold block_of. by rewrite lookup_delete_ne. Qed.
Lemma block_of_arena a b sz : block_of R a b sz → ∃ k, R !! a = Some k.
Proof. unfold block_of. destruct (R !! a); [eauto|done]. Qed.

(** Taking the block at the head of a list. *)
Lemma live_take d dd b l :
  descs s !! d = Some dd → free_list dd = b :: l →
  (∀ x z, live (set_list (descs s) d l) R x z ↔ live (descs s) R x z ∨ (x = b ∧ z = bsize d)) ∧ ∀ z, ¬ live (descs s) R b z.
Proof.
  intros Hd Hf. assert (b ∈ free_list dd) as Hb by (rewrite Hf; by left).
  destruct (inv_free_block U s R Hi d dd b Hd Hb)
    as (a&Ha&Hbl&_).
  pose proof (lo_nodup _ _ (hi_lists _ _ _ Hi) d dd Hd) as Hnd. rewrite Hf in Hnd. apply NoDup_cons in Hnd as [Hbl' _].
  assert (∀ x, in_use (set_list (descs s) d l) x ↔ in_use (descs s) x ∨ x = b) as Huse.
  { intros x. rewrite (in_use_set (descs s) d dd Hd). split.
    - intros [H1 H2]. destruct (decide (x = b)) as [|Hne]; [by right|left]. intros d' dd' Hd'.
      destruct (decide (d = d')) as [<-|]; [|by eapply H2]. rewrite Hd in Hd'. injection Hd' as <-. rewrite Hf. set_solver.
    - intros [H| ->].
      + split; [|intros d' dd' _; apply H]. specialize (H d dd Hd). rewrite Hf in H. set_solver.
      + split; [done|]. intros d' dd' Hne Hd' Hin. apply Hne.
        by apply (inv_free_desc U s R Hi d d' dd dd' b). }
  split.
  - intros x z. unfold live. rewrite Huse. split.
    + intros [[a' Hx] [H| ->]]; [left; eauto|]. right. split; [done|].
      by destruct (inv_block_inj U s R Hi _ _ _ _ _ Hx Hbl).
    + intros [[H1 H2]|[-> ->]]; [tauto|]. split; [by exists a|by right].
  - intros z [_ H]. by apply (H d dd Hd).
Qed.

(** The blocks of a new arena are all free. *)
Lemma live_new a d dd :
  descs s !! d = Some dd → free_list dd = [] → R !! a = None → (d < NDESCS)%nat →
  (∀ a' k', R !! a' = Some k' → a + PGSIZE ≤ a' ∨ a' + PGSIZE * npages k' ≤ a) →
  ∀ x z, live (set_list (descs s) d (blocks a d)) (<[a := Small d]> R) x z ↔ live (descs s) R x z.
Proof.
  intros Hd Hf Ha Hd7 Hdis x z.
  assert (∀ a' b sz, block_of R a' b sz → b ∉ blocks a d) as Hout.
  { intros a' b sz Hb (i&Hib&->)%elem_of_blocks. destruct (blk_range a d i Hd7 Hib), (bsize_range d Hd7).
    destruct (inv_block_range U s R Hi _ _ _ Hb)
      as (k&Hk&?&?&?&?). unfold ARENA_SIZE in *. destruct (Hdis a' k Hk); lia. }
  unfold live. rewrite (in_use_set (descs s) d dd Hd). split.
  - intros [[a' Hx] [H1 H2]]. destruct (decide (a' = a)) as [->|Hne].
    + unfold block_of in Hx. rewrite lookup_insert_eq in Hx. destruct Hx as (i&Hib&->&_). destruct H1. apply elem_of_blocks. eauto.
    + rewrite block_of_insert in Hx by done. split; [eauto|]. intros d' dd' Hd'.
      destruct (decide (d = d')) as [<-|]; [|by eapply H2]. rewrite Hd in Hd'. injection Hd' as <-. rewrite Hf. set_solver.
  - intros [[a' Hx] H]. split.
    + exists a'. rewrite block_of_insert; [done|]. intros ->. destruct (block_of_arena _ _ _ Hx). congruence.
    + split; [by eapply Hout|]. intros d' dd' _. apply H.
Qed.

(** Changes of headers do not touch blocks. *)
Lemma keeps_header a k m :
  R !! a = Some k → (∀ x, x < a ∨ a + ARENA_SIZE ≤ x → m !! x = kbytes s !! x) → keeps s R m.
Proof.
  intros Ha Hm b sz x [[a' Hb] _] Hx. apply Hm. by eapply (header_not_block U s R Hi).
Qed.
Lemma keeps_arenas m :
  (∀ a' k x, R !! a' = Some k → a' ≤ x < a' + PGSIZE * npages k → m !! x = kbytes s !! x) → keeps s R m.
Proof.
  intros Hm b sz x [[a' Hb] _] Hx.
  destruct (inv_block_range U s R Hi _ _ _ Hb)
    as (k&Hk&?&?&?&?). apply (Hm a' k x Hk). unfold ARENA_SIZE in *. lia.
Qed.

End Live.

(** All arenas but one have a block in use, and so has this one afterwards. *)
Lemma tight_set ds R d dd l a :
  ds !! d = Some dd → free_in a l < bcount d →
  (∀ a', a' ≠ a → R !! a' = Some (Small d) → free_in a' l < bcount d) →
  (∀ a' d' dd', d' ≠ d → R !! a' = Some (Small d') → ds !! d' = Some dd' → free_in a' (free_list dd') < bcount d') →
  tight (set_list ds d l) R.
Proof.
  intros Hd Ha Ho Ht a' d' dd' Ha' (dd0&Hd0&_&_&->)%(set_list_lookup ds d dd Hd). case_bool_decide as Hdd.
  - subst d'. destruct (decide (a' = a)) as [->|]; [done|by apply Ho].
  - by eapply Ht.
Qed.

(** ** [malloc] *)

(** The pages a request needs when a new arena has to be made. *)
Definition pages_for (size : Z) : Z := (size + ARENA_SIZE + PGSIZE - 1) / PGSIZE.

(** The answer to a request of [size] bytes: a block of at least this size that
    was not in use, or a null pointer when the pages are missing.  The blocks in
    use are not touched. *)
Definition granted (U : Z → Prop) (s : kheap) (R : gmap Z kind) (size r : Z) (s' : kheap) (R' : gmap Z kind) : Prop :=
  heap_rep U s' R' ∧ keeps s R (kbytes s') ∧
  ((r = NULL ∧ (∀ i, ¬ run (kpool s) i (pages_for size) false) ∧ ∀ b z, live (descs s') R' b z ↔ live (descs s) R b z) ∨
   (r ≠ NULL ∧ (∀ z, ¬ live (descs s) R r z) ∧
    ∃ sz, size ≤ sz ∧ ∀ b z, live (descs s') R' b z ↔ live (descs s) R b z ∨ (b = r ∧ z = sz))).

Lemma in_page_nonnull U s R a d b : heap_inv U s R → R !! a = Some (Small d) → in_page a b → b ≠ NULL.
Proof.
  intros Hi Ha Hin. destruct (inv_arena_range U s R Hi a _ Ha) as (_&_&Hlo&_). unfold in_page, NULL, PHYS_BASE in *. lia.
Qed.

Lemma malloc_small_spec U s R d dd size :
  heap_rep U s R → descs s !! d = Some dd → 0 < size ≤ bsize d →
  wp (malloc_small (dptr d)) s (λ r s', ∃ R', granted U s R size r s' R').
Proof.
  intros [Hi Ht] Hd Hsize. pose proof (hi_lists _ _ _ Hi) as Hl.
  assert (d < NDESCS)%nat as Hd7 by (rewrite <- (lo_length _ _ Hl); by eapply lookup_lt_Some).
  unfold malloc_small. wp_step. eapply wp_get_desc; [exact Hd|]. wp_step. case_bool_decide as Hf.
  - eapply wp_mono; [by apply (new_arena_spec U s R d dd)|]. intros [] s1 Hs1; [|].
    + destruct Hs1 as (a&Ha&Hi1&Hds&Hold). destruct (bsize_range d Hd7) as (_&Hbc&_).
      assert (∃ b l, blocks a d = b :: l) as (b&l&Hbl).
      { destruct (blocks a d) as [|b l] eqn:E; [|eauto]. pose proof (length_blocks a d Hd7) as H. rewrite E in H. cbn in H. lia. }
      assert (descs s1 !! d = Some (set_free_list (blocks a d) dd)) as Hd1 by (rewrite Hds; by apply set_list_eq).
      eapply wp_mono; [by apply (take_block_spec U s1 (<[a := Small d]> R) d (set_free_list (blocks a d) dd) b l)|].
      intros r s2 (->&a1&m&Ha1&Hin&->&Hi2&Hlt&Hoth&Hfr). exists (<[a := Small d]> R).
      pose proof (in_page_nonnull _ _ _ _ _ _ Hi1 Ha1 Hin) as Hne.
      assert (a1 = a) as ->.
      { apply (in_page_unique U s1 _ Hi1 a1 a d (Small d) b); [done|by rewrite lookup_insert_eq|done|].
        apply (block_in_page a d); [done|]. rewrite Hbl. by left. }
      destruct (live_take U s1 _ Hi1 d _ b l Hd1 Hbl) as [Hlive Hnot]. rewrite Hds in Hlive, Hnot.
      assert (∀ a' k', R !! a' = Some k' → a + PGSIZE ≤ a' ∨ a' + PGSIZE * npages k' ≤ a) as Hdis.
      { intros a' k' Ha'. destruct (inv_disjoint U s1 _ Hi1 a (Small d) a' k') as [H|H].
        - by rewrite lookup_insert_eq.
        - rewrite lookup_insert_ne; [done|congruence].
        - congruence.
        - left. cbn in H. lia.
        - right. lia. }
      pose proof (live_new U s R Hi a d dd Hd Hf Ha Hd7 Hdis) as Hnew.
      split_and!; [split; [done|]| |].
      * cbn [descs with_mem with_descs]. rewrite Hds, set_list_twice. apply (tight_set _ _ _ dd _ a); [done|done| |].
        -- intros a' Hne' Ha'. rewrite lookup_insert_ne in Ha' by done. rewrite Hoth by (done || by rewrite lookup_insert_ne).
           cbn [free_list set_free_list]. unfold free_in. rewrite filter_none; [cbn; lia|]. intros b' Hb' Hin'.
           apply Hne'. apply (in_page_unique U s1 _ Hi1 a' a d (Small d) b'); [by rewrite lookup_insert_ne|by rewrite lookup_insert_eq|done|].
           by apply (block_in_page a d).
        -- intros a' d' dd' Hdd Ha' Hd'. destruct (decide (a' = a)) as [->|]; [rewrite lookup_insert_eq in Ha'; congruence|].
           rewrite lookup_insert_ne in Ha' by done. by apply (Ht a' d' dd').
      * cbn. apply (keeps_arenas U s R Hi). intros a' k x Ha' Hx. rewrite Hfr; [by eapply Hold|].
        destruct (Hdis a' k Ha'); unfold ARENA_SIZE, PGSIZE in *; lia.
      * right. split_and!; [done|intros z; rewrite <- Hnew; apply Hnot|]. exists (bsize d). split; [lia|].
        intros x z. cbn [descs with_mem with_descs]. rewrite Hds, Hlive, Hnew. done.
    + destruct Hs1 as (Hi1&Hds&Hb&Hno). wp_step. exists R. split_and!; [split; [done|by rewrite Hds]| |].
      * intros b sz x _ _. by rewrite Hb.
      * left. split; [done|]. split; [|intros b z; by rewrite Hds].
        replace (pages_for size) with 1; [done|]. destruct (bsize_range d Hd7). unfold pages_for, PGSIZE, ARENA_SIZE. lia.
  - wp_step. destruct (free_list dd) as [|b l] eqn:Hfl; [done|].
    eapply wp_mono; [by apply (take_block_spec U s R d dd b l)|]. intros r s2 (->&a&m&Ha&Hin&->&Hi2&Hlt&Hoth&Hfr).
    exists R. destruct (live_take U s R Hi d dd b l Hd Hfl) as [Hlive Hnot]. split_and!; [split; [done|]| |].
    + apply (tight_set _ _ _ dd _ a); [done|done| |].
      * intros a' Hne' Ha'. rewrite Hoth by done. by apply (Ht a' d dd).
      * intros a' d' dd' _. apply Ht.
    + cbn. by eapply (keeps_header U s R Hi).
    + right. split_and!; [by eapply (in_page_nonnull U s R)|done|]. exists (bsize d). split; [lia|done].
Qed.

Section BigBlocks.
Context (U : Z → Prop) (s : kheap) (R : gmap Z kind) (Hi : heap_inv U s R).

(** What is outside of all arenas is on no list. *)
Lemma outside_in_use a n x :
  (∀ a' k', R !! a' = Some k' → a + n ≤ a' ∨ a' + PGSIZE * npages k' ≤ a) → a ≤ x < a + n →
  in_use (descs s) x ∧ ∀ a' z, ¬ block_of R a' x z.
Proof.
  intros Hdis Hx. assert (∀ a' z, ¬ block_of R a' x z) as Hno.
  { intros a' z Hb. destruct (inv_block_range U s R Hi _ _ _ Hb) as (k&Hk&?&?&?&?). unfold ARENA_SIZE in *.
    destruct (Hdis a' k Hk); lia. }
  split; [|done]. intros d dd Hd Hin. destruct (inv_free_block U s R Hi d dd x Hd Hin) as (a'&_&Hb&_). by eapply Hno.
Qed.

Lemma live_big a n :
  R !! a = None → 0 < n → (∀ a' k', R !! a' = Some k' → a + PGSIZE * n ≤ a' ∨ a' + PGSIZE * npages k' ≤ a) →
  (∀ x z, live (descs s) (<[a := Big n]> R) x z ↔ live (descs s) R x z ∨ (x = a + ARENA_SIZE ∧ z = PGSIZE * n - ARENA_SIZE)) ∧
  ∀ z, ¬ live (descs s) R (a + ARENA_SIZE) z.
Proof.
  intros Ha Hn Hdis. destruct (outside_in_use a (PGSIZE * n) (a + ARENA_SIZE)) as [Huse Hno];
    [done|unfold PGSIZE, ARENA_SIZE; lia|]. split; [|by intros z [[a' ?] _]; eapply Hno].
  intros x z. unfold live. split.
  - intros [[a' Hx] Hu]. destruct (decide (a' = a)) as [->|Hne].
    + unfold block_of in Hx. rewrite lookup_insert_eq in Hx. tauto.
    + rewrite block_of_insert in Hx by done. left. eauto.
  - intros [[[a' Hx] Hu]|[-> ->]].
    + split; [|done]. exists a'. rewrite block_of_insert; [done|]. intros ->. destruct (block_of_arena _ _ _ _ Hx). congruence.
    + split; [|done]. exists a. unfold block_of. by rewrite lookup_insert_eq.
Qed.

Lemma tight_big a n : R !! a = None → tight (descs s) R → tight (descs s) (<[a := Big n]> R).
Proof. intros Ha Ht a' d dd [[_ ?]|[_ Ha']]%lookup_insert_Some Hd; [done|by apply (Ht a' d dd)]. Qed.

End BigBlocks.

Lemma malloc_big_spec U s R size :
  heap_rep U s R → 0 < size → size + ARENA_SIZE + PGSIZE ≤ 2 ^ 32 →
  wp (malloc_big size) s (λ r s', ∃ R', granted U s R size r s' R' ∧
    (r ≠ NULL → live (descs s') R' r (PGSIZE * pages_for size - ARENA_SIZE))).
Proof.
  intros [Hi Ht] H0 Hsize. unfold malloc_big. set (n := DIV_ROUND_UP _ _).
  assert (0 < n ∧ size ≤ PGSIZE * n - ARENA_SIZE ∧ n < 2 ^ 20) as (Hn&Hsz&Hn20).
  { unfold n, DIV_ROUND_UP, PGSIZE, ARENA_SIZE in *. rewrite (u32_small (size + 12)), u32_small by word_lia. lia. }
  assert (n = pages_for size) as Hnf.
  { unfold n, pages_for, DIV_ROUND_UP, PGSIZE, ARENA_SIZE in *. rewrite (u32_small (size + 12)), u32_small by word_lia. lia. }
  clearbody n. wp_step. apply wp_on_pages. eapply wp_mono; [apply palloc_get_spec; [apply Hi|lia|by left]|].
  intros a r [Hok Hgot]. destruct Hgot as [(i&[Hrun _]&->&Hset&Hbytes)|(->&Hno&Hset&Hbytes)]; cbn in Hbytes, Hset.
  2: { rewrite bool_decide_true by done. wp_step. exists R.
       destruct (got_no_pages U s R Hi NULL r (mk_kheap r (descs s))) as (Hi'&_&Hb); [done..|]. split; [|done].
       split_and!; [split; done| |left; split; [done|]; split; [by rewrite <- Hnf|done]]. intros b sz x _ _. by rewrite Hb. }
  destruct (got_pages U s R Hi r i (Big n)) as (Ha&Hv&Hdis&Hlo&Hhi&Hal&Hm); [done|done|done|done|done|].
  change (pool_of (has_flag 0 PAL_USER) (pages s)) with (kpool s). set (a := page_addr (kpool s) i) in *. cbn [npages] in *.
  rewrite bool_decide_false by (unfold NULL, PHYS_BASE in *; lia).
  assert (∀ x (m : mem), a ≤ x → x + 4 ≤ a + 12 → dom m = dom (kbytes s) → mapped m x 4) as Hmap.
  { intros x m Hx Hx' Hdom. eapply mapped_dom; [exact Hdom|]. eapply mapped_sub; [exact Hm|lia|unfold PGSIZE; lia]. }
  wp_step. apply wp_store_field; [done|unfold kbytes; cbn; rewrite Hbytes; apply Hmap; lia || done|].
  intros m1 W1. unfold kbytes in W1. cbn in W1. rewrite Hbytes in W1.
  assert (dom m1 = dom (kbytes s)) as D1 by (by destruct W1 as (_&_&?)).
  wp_step. apply wp_store_field; [done|apply Hmap; lia || done|]. intros m2 W2.
  assert (dom m2 = dom (kbytes s)) as D2 by (destruct W2 as (_&_&D2); exact (eq_trans D2 D1)).
  wp_step. apply wp_store_field; [word_lia|apply Hmap; lia || done|]. intros m3 W3.
  destruct (header_written (kbytes s) m1 m2 m3 a NULL n) as (Hh&D3&Hfr); [done|word_lia|done|done|done|].
  wp_step. rewrite u32_small by (unfold ARENA_SIZE, PGSIZE, PHYS_BASE in *; word_lia).
  assert (∀ a' k x, R !! a' = Some k → a' ≤ x < a' + PGSIZE * npages k → m3 !! x = kbytes s !! x) as Hold
    by (by eapply (old_arenas s R a (Big n))).
  exists (<[a := Big n]> R). destruct (live_big U s R Hi a n Ha Hn Hdis) as [Hlive Hnot].
  split; [|intros _; apply Hlive; right; split; [done|by rewrite <- Hnf]].
  split_and!; [split; [split|]| |right].
  - apply (ram_ok_bytes r); [done|by rewrite Hbytes].
  - exact Hv.
  - apply lists_ok_big; [apply Hi|done].
  - intros a' k' [[<- <-]|[Hne Ha']]%lookup_insert_Some; [exact Hh|].
    apply (arena_ok_frame (kbytes s)); [|by apply Hi]. intros x Hx. eapply Hold; [exact Ha'|].
    destruct (inv_arena_range U s R Hi a' k' Ha') as (Hn'&_). unfold ARENA_SIZE, PGSIZE in *. lia.
  - by apply tight_big.
  - by apply (keeps_arenas U s R Hi).
  - split_and!; [unfold ARENA_SIZE, NULL, PHYS_BASE in *; lia|done|]. by exists (PGSIZE * n - ARENA_SIZE).
Qed.

Lemma find_desc_spec size ds p0 p :
  find_desc size p0 ds = Some p → ∃ d dd, ds !! d = Some dd ∧ p = p0 + Z.of_nat d ∧ size ≤ d_block_size dd.
Proof.
  revert p0. induction ds as [|dd ds IH]; intros p0; cbn; [done|]. case_bool_decide.
  - intros [= <-]. exists O, dd. split_and!; [done|lia|lia].
  - intros (d&dd'&Hd&->&Hs)%IH. exists (S d), dd'. split_and!; [done|lia|lia].
Qed.

Lemma malloc_spec U s R size :
  heap_rep U s R → 0 < size → size + ARENA_SIZE + PGSIZE ≤ 2 ^ 32 →
  wp (malloc size) s (λ r s', ∃ R', granted U s R size r s' R').
Proof.
  intros Hr H0 Hsize. unfold malloc. rewrite bool_decide_false by lia. wp_step. wp_step.
  destruct (find_desc size 1 (descs s)) as [p|] eqn:E.
  2: { eapply wp_mono; [by apply malloc_big_spec|]. intros r s' (R'&Hg&_). by exists R'. }
  apply find_desc_spec in E as (d&dd&Hd&->&Hs). destruct Hr as [Hi Ht].
  destruct (lo_sizes _ _ (hi_lists _ _ _ Hi) d dd Hd) as [Hb _].
  replace (1 + Z.of_nat d) with (dptr d) by (unfold dptr; lia). apply malloc_small_spec with (dd := dd); [done|done|lia].
Qed.

(** ** [free] *)

(** An arena whose blocks are all free goes back to the page allocator. *)
Lemma release_spec U s R a d dd :
  heap_inv U s R → R !! a = Some (Small d) → descs s !! d = Some dd → free_in a (free_list dd) = bcount d →
  wp (remove_blocks (Z.to_nat (bcount d)) a (dptr d) 0;; on_pages (palloc_free_page a)) s (λ _ s',
    heap_inv U s' (delete a R) ∧
    (∃ l, descs s' = set_list (descs s) d l ∧ ∀ b, b ∈ l ↔ b ∈ free_list dd ∧ b ∉ blocks a d) ∧
    ∀ x, x < a ∨ a + PGSIZE ≤ x → kbytes s' !! x = kbytes s !! x).
Proof.
  intros Hi Ha Hd Hall. pose proof (hi_lists _ _ _ Hi) as Hl.
  destruct (inv_arena_page U s R Hi a d Ha) as (dd'&Hp&_&_). assert (dd' = dd) as ->.
  { pose proof (ap_desc _ _ _ _ Hp). congruence. }
  pose proof (ap_index _ _ _ _ Hp) as Hd7. destruct (bsize_range d Hd7) as (_&Hbc&_). wp_step.
  eapply wp_mono; [apply (remove_blocks_spec _ s a d dd 0 Hp); [lia|lia|by eapply lo_nodup|]|].
  { intros j Hj. eapply (free_in_all U (kpool s) R (descs s)); [apply Hi|done|done|done|done|lia]. }
  intros [] s1 (l&->&Hnd&Hmem). rewrite Z2Nat.id, Z.add_0_l in Hmem by lia.
  assert (∀ b, b ∈ l ↔ b ∈ free_list dd ∧ b ∉ blocks a d) as Hmem'.
  { intros b. rewrite Hmem, elem_of_blocks. split.
    - intros [H1 H2]. split; [done|]. intros (i&Hii&->). by eapply H2.
    - intros [H1 H2]. split; [done|]. intros j Hj ->. apply H2. eauto. }
  destruct (pv_placed _ _ _ (hi_pool _ _ _ Hi) a _ Ha) as (i&Hai&Hi0&_&Hile). cbn [npages] in Hile.
  apply wp_on_pages. cbn [pages with_descs].
  assert (run (kpool s) i 1 true) as Hrun.
  { split_and!; [done|done|]. intros j Hj. apply (pv_used _ _ _ (hi_pool _ _ _ Hi)); [lia|]. right.
    exists a, (Small d). split; [done|]. rewrite Hai. apply (proj2 (page_in_run _ _ _ _)). cbn [npages]. lia. }
  unfold palloc_free_page. rewrite Hai. eapply wp_mono; [apply (palloc_free_spec (pages s) false i 1); [apply Hi|lia|exact Hrun]|].
  intros [] r (Hok&[Hb Hc Hu _]&Hw). change (page_addr (pool_of false (pages s)) i) with (page_addr (kpool s) i) in Hw.
  rewrite <- Hai in *. rewrite Z.mul_1_r in Hw.
  assert (∀ x, x < a ∨ a + PGSIZE ≤ x → bytes r !! x = kbytes s !! x) as Hfr.
  { destruct Hw as (_&Hfr&_). intros x Hx. apply Hfr. rewrite length_replicate. unfold PGSIZE in *. lia. }
  split_and!; [split| |exact Hfr].
  - done.
  - eapply (pool_view_give U (kpool s) _ R); [exact Hb|exact Hc|apply Hi|exact Ha|exact Hai|exact Hu].
  - apply (lists_ok_set _ R d dd); [done|done|done| | |].
    + intros a' d' [_ Ha']%lookup_delete_Some. by eapply lo_small.
    + intros b [Hb1 Hb2]%Hmem'. destruct (lo_blocks _ _ Hl d dd b Hd Hb1) as (a'&j&Ha'&Hj&->). exists a', j.
      split; [|done]. rewrite lookup_delete_ne; [done|]. intros ->. destruct Hb2. apply elem_of_blocks. eauto.
    + intros a' d' Hne Ha'. rewrite lookup_delete_ne; [done|]. congruence.
  - intros a' k [Hne Ha']%lookup_delete_Some. apply (arena_ok_other (descs s) R d dd Hd (kbytes s)); [done| | |by apply Hi].
    + intros x Hx. apply Hfr. destruct (inv_arena_range U s R Hi a' k Ha') as (Hn&_).
      destruct (inv_disjoint U s R Hi _ _ _ _ Ha Ha' Hne); cbn [npages] in *; unfold ARENA_SIZE, PGSIZE in *; lia.
    + intros ->. apply free_in_ext; [done|by eapply lo_nodup|]. intros b Hin. rewrite Hmem'. split; [tauto|]. intros H.
      split; [done|]. intros Hb'%(block_in_page a d); [|done]. apply Hne. by apply (in_page_unique U s R Hi a a' d (Small d) b).
  - by exists l.
Qed.

(** The block [p] is not in use any more; the others are, with their contents. *)
Definition freed (U : Z → Prop) (s : kheap) (R : gmap Z kind) (p : Z) (s' : kheap) (R' : gmap Z kind) : Prop :=
  heap_rep U s' R' ∧ (∀ b z, live (descs s') R' b z ↔ live (descs s) R b z ∧ b ≠ p) ∧
  ∀ b sz x, live (descs s) R b sz → b ≠ p → b ≤ x < b + sz → kbytes s' !! x = kbytes s !! x.

Lemma live_give ds R d dd p :
  ds !! d = Some dd → ∀ x z, live (set_list ds d (p :: free_list dd)) R x z ↔ live ds R x z ∧ x ≠ p.
Proof.
  intros Hd x z. unfold live. rewrite (in_use_set ds d dd Hd), not_elem_of_cons. split.
  - intros (Hx&[Hne H1]&H2). split_and!; [done| |done]. intros d' dd' Hd'.
    destruct (decide (d = d')) as [<-|]; [congruence|by eapply H2].
  - intros [[Hx Hu] Hne]. split_and!; [done|done|by apply (Hu d dd)|]. intros d' dd' _. apply Hu.
Qed.

(** The last block of an arena that was in use. *)
Lemma live_release U s R a d dd l :
  heap_inv U s R → R !! a = Some (Small d) → descs s !! d = Some dd → free_in a (free_list dd) = bcount d →
  (∀ b, b ∈ l ↔ b ∈ free_list dd ∧ b ∉ blocks a d) →
  (∀ x z, live (set_list (descs s) d l) (delete a R) x z ↔ live (descs s) R x z) ∧
  ∀ x z, live (descs s) R x z → ¬ block_of R a x z.
Proof.
  intros Hi Ha Hd Hall Hl.
  assert (∀ x z, block_of R a x z → x ∈ free_list dd) as Hfree.
  { intros x z. unfold block_of. rewrite Ha. intros (i&Hib&->&_).
    eapply (free_in_all U (kpool s) R (descs s)); [apply Hi|apply Hi|done|done|done|lia]. }
  assert (∀ x z, live (descs s) R x z → ¬ block_of R a x z) as Hno.
  { intros x z [_ Hu] Hb. apply (Hu d dd Hd). by eapply Hfree. }
  assert (∀ a' x z, a' ≠ a → block_of R a' x z → x ∉ blocks a d) as Hout.
  { intros a' x z Hne Hb (i&Hib&->)%elem_of_blocks.
    destruct (inv_block_inj U s R Hi a' a (blk a d i) z (bsize d) Hb) as [? _]; [|done]. unfold block_of. rewrite Ha. eauto. }
  split; [|done]. intros x z. unfold live. rewrite (in_use_set (descs s) d dd Hd). split.
  - intros [[a' Hx] [H1 H2]]. assert (a' ≠ a) as Hne.
    { intros ->. unfold block_of in Hx. by rewrite lookup_delete_eq in Hx. }
    rewrite block_of_delete in Hx by done. split; [by exists a'|]. intros d' dd' Hd'.
    destruct (decide (d = d')) as [<-|]; [|by eapply H2]. rewrite Hd in Hd'. injection Hd' as <-. intros Hin.
    apply H1, Hl. split; [done|by eapply Hout].
  - intros Hlive. destruct Hlive as [[a' Hx] Hu] eqn:E. assert (a' ≠ a) as Hne.
    { intros ->. by apply (Hno x z Hlive). }
    split; [exists a'; by rewrite block_of_delete|]. split; [|intros d' dd' _; apply Hu].
    rewrite Hl. intros [Hin _]. by apply (Hu d dd Hd).
Qed.

(** The block [p] of the arena [a] is on the list, and nothing else changed. *)
Record given (U : Z → Prop) (s : kheap) (R : gmap Z kind) (a : Z) (d : nat) (dd : desc) (p : Z) (s2 : kheap) : Prop := {
  gv_inv : heap_inv U s2 R;
  gv_descs : descs s2 = set_list (descs s) d (p :: free_list dd);
  gv_count : free_in a (p :: free_list dd) ≤ bcount d;
  gv_other : ∀ a', a' ≠ a → R !! a' = Some (Small d) → free_in a' (p :: free_list dd) = free_in a' (free_list dd);
  gv_keeps : ∀ b sz x, live (descs s) R b sz → b ≠ p → b ≤ x < b + sz → kbytes s2 !! x = kbytes s !! x
}.

Lemma give_block_spec U s R a d dd i (k : Z → M kheap unit) Q :
  heap_rep U s R → R !! a = Some (Small d) → descs s !! d = Some dd → 0 ≤ i < bcount d → in_use (descs s) (blk a d i) →
  (∀ s2, given U s R a d dd (blk a d i) s2 → wp (k (free_in a (blk a d i :: free_list dd))) s2 Q) →
  wp (_ ← on_mem (memset (blk a d i) 0xcc (bsize d)); upd_free_list (dptr d) (cons (blk a d i));;
      n ← arena_free_cnt a; set_arena_free_cnt a (u32 (n + 1));; k (u32 (n + 1))) s Q.
Proof.
  intros [Hi Ht] Ha Hd Hib Huse Hk. pose proof (hi_lists _ _ _ Hi) as Hl. set (p := blk a d i) in *.
  destruct (inv_arena_page U s R Hi a d Ha) as (dd'&Hp&Hw&Hm). assert (dd' = dd) as ->.
  { pose proof (ap_desc _ _ _ _ Hp). congruence. }
  pose proof (ap_index _ _ _ _ Hp) as Hd7.
  destruct (blk_range a d i Hd7 Hib) as [Hlo Hhi]. fold p in Hlo, Hhi. destruct (bsize_range d Hd7) as (Hbs&Hbc&_).
  assert (in_page a p) as Hin by (unfold in_page, ARENA_SIZE in *; lia).
  assert (block_of R a p (bsize d)) as Hbl by (unfold block_of; rewrite Ha; eauto).
  pose proof (in_page_nonnull _ _ _ _ _ _ Hi Ha Hin) as Hne. pose proof (Huse d dd Hd) as Hnotin.
  set (l := p :: free_list dd) in *.
  assert (free_in a l = 1 + free_in a (free_list dd)) as Hcount by (unfold l; rewrite free_in_cons, bool_decide_true by done; done).
  pose proof (Ht a d dd Ha Hd) as Hlt. assert (0 ≤ free_in a (free_list dd)) as H0 by (unfold free_in; lia).
  wp_step. apply wp_on_mem.
  eapply wp_mono; [apply memset_spec; [done|lia|eapply mapped_sub; [exact Hm|unfold ARENA_SIZE in *; lia|lia]]|].
  intros r0 m1 W1. cbv beta in W1. clear r0. wp_step. eapply wp_upd_free_list; [exact Hd|]. fold l.
  assert (∀ x, x < p ∨ p + bsize d ≤ x → m1 !! x = kbytes s !! x) as F1.
  { destruct W1 as (_&F1&_). intros x Hx. apply F1. rewrite length_replicate. lia. }
  assert (dom m1 = dom (kbytes s)) as D1 by (by destruct W1 as (_&_&?)).
  wp_step. eapply wp_read_word.
  { eapply word_at_frame; [|exact Hw]. intros x Hx. apply F1. unfold ARENA_SIZE in *. lia. }
  rewrite u32_small by word_lia. replace (free_in a (free_list dd) + 1) with (free_in a l) by lia. wp_step.
  apply wp_store_field; [word_lia| |].
  { eapply mapped_dom; [exact D1|]. eapply mapped_sub; [exact Hm|lia|unfold PGSIZE; lia]. }
  intros m2 W2. apply Hk.
  assert (∀ x, x < a + 8 ∨ (a + 12 ≤ x ∧ x < p) ∨ p + bsize d ≤ x → m2 !! x = kbytes s !! x) as F2.
  { destruct W2 as (_&F2&_). intros x Hx. rewrite F2, <- F1; [done|..]; rewrite ?length_word_bytes; unfold ARENA_SIZE in *; lia. }
  assert (∀ a', a' ≠ a → R !! a' = Some (Small d) → free_in a' l = free_in a' (free_list dd)) as Hoth.
  { intros a' Hne' Ha'. unfold l. rewrite free_in_cons, bool_decide_false; [done|]. intros Hin'. apply Hne'.
    by apply (in_page_unique U s R Hi a' a d (Small d) p). }
  split; [|done|fold l; lia|done|].
  - apply (update_arena U s R Hi a d dd l m2); [done|done| |done| | |].
    + apply (lists_ok_same _ _ d dd); [done|done|by apply NoDup_cons; split; [|eapply lo_nodup]|].
      intros b [->|Hb]%elem_of_cons; [eauto|]. by apply (lo_blocks _ _ Hl d dd).
    + destruct W2 as (_&_&D2). exact (eq_trans D2 D1).
    + intros x Hx. apply F2. unfold PGSIZE, ARENA_SIZE in *. lia.
    + split; [word_lia|]. by eapply writes_bytes.
  - intros b sz x [[a' Hb] _] Hbp Hx. apply F2. pose proof (header_not_block U s R Hi a _ a' b sz x Ha Hb Hx).
    destruct (inv_block_disjoint U s R Hi _ _ _ _ _ _ Hb Hbl Hbp); unfold ARENA_SIZE in *; lia.
Qed.

(** The arena is released when all of its blocks are free. *)
Lemma given_release U s R a d dd p s2 :
  heap_rep U s R → R !! a = Some (Small d) → descs s !! d = Some dd → given U s R a d dd p s2 →
  free_in a (p :: free_list dd) = bcount d → in_page a p →
  wp (remove_blocks (Z.to_nat (bcount d)) a (dptr d) 0;; on_pages (palloc_free_page a)) s2
    (λ _ s', freed U s R p s' (delete a R)).
Proof.
  intros [Hi Ht] Ha Hd [Hi2 Hds2 _ Hoth Hkeep] Hall Hin. pose proof (hi_lists _ _ _ Hi) as Hl. set (l := p :: free_list dd) in *.
  assert (descs s2 !! d = Some (set_free_list l dd)) as Hd2 by (rewrite Hds2; by apply set_list_eq).
  pose proof (lo_small _ _ Hl a d Ha) as Hd7. destruct (bsize_range d Hd7) as (_&Hbc&_).
  eapply wp_mono; [by apply (release_spec U s2 R a d (set_free_list l dd))|].
  intros [] s3 (Hi3&(l'&Hds&Hl')&F3). cbn [free_list set_free_list] in Hl'.
  destruct (live_release U s2 R a d (set_free_list l dd) l' Hi2 Ha Hd2 Hall Hl') as [Hlive Hnone].
  rewrite Hds2 in Hds, Hlive, Hnone. rewrite set_list_twice in Hds, Hlive.
  assert (NoDup l') as Hnd by (eapply (lo_nodup _ _ (hi_lists _ _ _ Hi3) d (set_free_list l' dd)); rewrite Hds; by apply set_list_eq).
  split_and!; [split; [done|]| |].
  - rewrite Hds. apply (tight_set _ _ d dd l' a); [done| | |].
    + unfold free_in. rewrite filter_none; [cbn; lia|]. intros b [Hb Hb']%Hl' Hin'. apply Hb'.
      eapply (free_in_page U (kpool s2) R (descs s2)); [apply Hi2|apply Hi2|done|exact Hd2|exact Hb|exact Hin'|exact Hd2].
    + intros a' Hne' [_ Ha']%lookup_delete_Some.
      rewrite (free_in_ext a' l' (free_list dd)); [by apply (Ht a' d dd)|done|by eapply lo_nodup|].
      intros b Hin'. rewrite Hl'. unfold l. rewrite elem_of_cons. split.
      * intros [[->|?] _]; [|done]. destruct Hne'. by apply (in_page_unique U s R Hi a' a d (Small d) p).
      * intros Hb. split; [by right|]. intros Hb'%(block_in_page a d); [|done]. apply Hne'.
        by apply (in_page_unique U s R Hi a' a d (Small d) b).
    + intros a' d' dd' Hdd [_ Ha']%lookup_delete_Some. by apply (Ht a' d' dd').
  - intros b z. rewrite Hds, Hlive. by apply (live_give (descs s) R d dd p).
  - intros b sz x Hb Hbp Hx. rewrite F3; [by eapply Hkeep|].
    assert (¬ block_of R a b sz) as Hnot by (apply Hnone; by apply (live_give (descs s) R d dd p)).
    destruct Hb as [[a' Hb] _].
    destruct (inv_block_outside U s R Hi a' a (Small d) b sz Hb Ha); [congruence|lia|cbn [npages] in *; lia].
Qed.

Lemma free_small_spec U s R a d i :
  heap_rep U s R → R !! a = Some (Small d) → 0 ≤ i < bcount d → in_use (descs s) (blk a d i) →
  wp (free (blk a d i)) s (λ _ s', ∃ R', freed U s R (blk a d i) s' R').
Proof.
  intros Hr Ha Hib Huse. pose proof Hr as [Hi Ht].
  destruct (inv_arena_page U s R Hi a d Ha) as (dd&Hp&_&_). pose proof (ap_index _ _ _ _ Hp) as Hd7.
  pose proof (ap_desc _ _ _ _ Hp) as Hd. destruct (ap_sizes _ _ _ _ Hp) as [Hsz Hcnt].
  assert (in_page a (blk a d i)) as Hin by (apply (block_in_page a d); [done|]; apply elem_of_blocks; eauto).
  pose proof (in_page_nonnull _ _ _ _ _ _ Hi Ha Hin) as Hne.
  unfold free. rewrite bool_decide_true by done. wp_step. eapply block_to_arena_small; [exact Hp|exact Hib|].
  wp_step. eapply wp_read_word; [apply Hp|]. rewrite bool_decide_true by (unfold dptr, NULL; lia).
  wp_step. eapply wp_get_desc; [exact Hd|]. rewrite Hsz, Hcnt.
  apply (give_block_spec U s R a d dd i (release_if_unused a (dptr d) (bcount d))); [done..|]. intros s2 Hg. pose proof Hg as [Hi2 Hds2 Hle Hoth Hkeep]. unfold release_if_unused.
  case_bool_decide as Hfull.
  - rewrite bool_decide_true by lia. wp_step. wp_step. eapply wp_mono; [apply (given_release U s R a d dd (blk a d i)); try done; lia|].
    intros [] s' Hf. by exists (delete a R).
  - wp_step. exists R. split_and!; [split; [done|]| |done]; rewrite Hds2.
    + apply (tight_set _ _ d dd _ a); [done|lia| |].
      * intros a' Hne' Ha'. rewrite Hoth by done. by apply (Ht a' d dd).
      * intros a' d' dd' _. apply Ht.
    + by apply live_give.
Qed.

Lemma free_big_spec U s R a n :
  heap_rep U s R → R !! a = Some (Big n) →
  wp (free (a + ARENA_SIZE)) s (λ _ s', ∃ R', freed U s R (a + ARENA_SIZE) s' R').
Proof.
  intros [Hi Ht] Ha. destruct (hi_arenas _ _ _ Hi a _ Ha) as (H1&H2&H3).
  destruct (inv_arena_range U s R Hi a _ Ha) as (Hn&Hal&Hlo&Hhi&Hm). cbn [npages] in *.
  unfold free. rewrite bool_decide_true by (unfold NULL, ARENA_SIZE, PHYS_BASE in *; lia).
  wp_step. eapply block_to_arena_big; [done|unfold PHYS_BASE in *; lia|done|done|]. wp_step.
  eapply wp_read_word; [exact H2|]. rewrite (bool_decide_false (NULL ≠ NULL)) by tauto.
  wp_step. eapply wp_read_word; [exact H3|]. apply wp_on_pages.
  destruct (pv_placed _ _ _ (hi_pool _ _ _ Hi) a _ Ha) as (i&Hai&Hi0&_&Hile). cbn [npages] in Hile.
  assert (run (kpool s) i n true) as Hrun.
  { split_and!; [done|done|]. intros j Hj. apply (pv_used _ _ _ (hi_pool _ _ _ Hi)); [lia|]. right.
    exists a, (Big n). split; [done|]. rewrite Hai. by apply (proj2 (page_in_run _ _ _ _)). }
  rewrite Hai at 1. eapply wp_mono; [apply (palloc_free_spec (pages s) false i n); [apply Hi|lia|exact Hrun]|].
  intros [] r (Hok&[Hb Hc Hu _]&Hw). change (page_addr (pool_of false (pages s)) i) with (page_addr (kpool s) i) in Hw.
  rewrite <- Hai in Hw.
  assert (∀ x, x < a ∨ a + PGSIZE * n ≤ x → bytes r !! x = kbytes s !! x) as Hfr.
  { destruct Hw as (_&Hfr&_). intros x Hx. apply Hfr. rewrite length_replicate. unfold PGSIZE in *. lia. }
  exists (delete a R). split_and!; [split; [split|]| |].
  - done.
  - eapply (pool_view_give U (kpool s) _ R); [exact Hb|exact Hc|apply Hi|exact Ha|exact Hai|exact Hu].
  - by eapply lists_ok_unbig; [apply Hi|].
  - intros a' k [Hne Ha']%lookup_delete_Some. apply (arena_ok_frame (kbytes s)); [|by apply Hi]. intros x Hx. apply Hfr.
    destruct (inv_arena_range U s R Hi a' k Ha') as (Hn'&_).
    destruct (inv_disjoint U s R Hi _ _ _ _ Ha Ha' Hne); cbn [npages] in *; unfold ARENA_SIZE, PGSIZE in *; lia.
  - intros a' d' dd' [_ Ha']%lookup_delete_Some. by apply (Ht a' d' dd').
  - intros b z. unfold live. cbn [descs]. split.
    + intros [[a' Hx] Hu']. assert (a' ≠ a) as Hne.
      { intros ->. unfold block_of in Hx. by rewrite lookup_delete_eq in Hx. }
      rewrite block_of_delete in Hx by done. split; [split; [by exists a'|done]|]. intros ->.
      destruct (inv_block_inj U s R Hi a' a (a + ARENA_SIZE) z (PGSIZE * n - ARENA_SIZE) Hx) as [? _]; [|done].
      unfold block_of. by rewrite Ha.
    + intros [[[a' Hx] Hu'] Hne]. split; [|done]. exists a'. rewrite block_of_delete; [done|]. intros ->.
      unfold block_of in Hx. rewrite Ha in Hx. tauto.
  - intros b sz x [[a' Hx] _] Hne Hin. apply Hfr.
    destruct (inv_block_outside U s R Hi a' a (Big n) b sz Hx Ha); [|lia|cbn [npages] in *; lia].
    intros ->. unfold block_of in Hx. rewrite Ha in Hx. tauto.
Qed.

Lemma free_spec U s R p sz :
  heap_rep U s R → live (descs s) R p sz → wp (free p) s (λ _ s', ∃ R', freed U s R p s' R').
Proof.
  intros Hr [[a Hb] Hu]. unfold block_of in Hb. destruct (R !! a) as [[d|n]|] eqn:Ha; [| |done].
  - destruct Hb as (i&Hi&->&_). by apply free_small_spec.
  - destruct Hb as [-> _]. by eapply free_big_spec.
Qed.
