(* ===== verification/MallocClaims.v ===== *)
(** * The block allocator for its clients

    Initialisation, the life of blocks under [malloc], [free], [calloc] and
    [realloc], and what happens to requests that are too large. *)

From S2P Require Import Prelude Vaddr Str Bitmap Palloc Malloc MallocSpec.
Local Open Scope Z_scope.

(** [lia] with division by constants. *)
Local Ltac Zify.zify_post_hook ::= Z.to_euclidean_division_equations.

(** ** Initialisation *)
Definition fresh_descs : list desc :=
  (λ b, mk_desc b ((PGSIZE - ARENA_SIZE) / b) []) <$> [16; 32; 64; 128; 256; 512; 1024].

Lemma malloc_init_eq r : malloc_init (mk_kheap r []) = Ret (tt, mk_kheap r fresh_descs).
Proof. reflexivity. Qed.

Lemma fresh_rep r :
  ram_ok r → heap_rep (λ j, page_used (kernel_pool r) j = true) (mk_kheap r fresh_descs) ∅.
Proof.
  intros Hr. split; [split; [done|split; try done| |done]|done].
  - intros j Hj. split; [by left|]. intros [?|(a&k&?&_)]; [done|set_solver].
  - intros j _ (a&k&?&_). set_solver.
  - assert (∀ d dd, fresh_descs !! d = Some dd →
      d_block_size dd = bsize d ∧ blocks_per_arena dd = bcount d ∧ free_list dd = []) as Hf.
    { intros d dd Hd. do 7 (destruct d as [|d]; [by injection Hd as <-|]). done. }
    split; [done|set_solver| | |].
    + intros d dd Hd. by destruct (Hf d dd Hd) as (?&?&_).
    + intros d dd Hd. destruct (Hf d dd Hd) as (_&_&->). constructor.
    + intros d dd b Hd. destruct (Hf d dd Hd) as (_&_&->). by intros ?%elem_of_nil.
Qed.

(** ** No block in use, no arena *)
Section Leaks.
Context (U : Z → Prop) (s : kheap) (R : gmap Z kind) (Hr : heap_rep U s R).
Let Hi : heap_inv U s R := proj1 Hr.

(** An arena has a block in use. *)
Lemma arena_has_live a k : R !! a = Some k → ∃ b sz, block_of R a b sz ∧ live (descs s) R b sz.
Proof.
  intros Ha. destruct k as [d|n].
  - destruct (hi_arenas _ _ _ Hi a _ Ha) as (dd&Hd&_). pose proof (lo_small _ _ (hi_lists _ _ _ Hi) a d Ha) as Hd7.
    assert (Exists (λ b, b ∉ free_list dd) (blocks a d)) as (b&Hb&Hnot)%list.Exists_exists.
    { apply dec_stable. intros Hno. apply Forall_Exists_neg in Hno.
      pose proof (proj2 Hr a d dd Ha Hd) as Hlt.
      assert (blocks a d ⊆+ filter (in_page a) (free_list dd)) as Hsub%submseteq_length.
      { apply NoDup_submseteq; [by apply NoDup_blocks|]. intros b Hb. apply list_elem_of_filter.
        split; [by apply (block_in_page a d)|]. rewrite Forall_forall in Hno. apply dec_stable. by apply Hno. }
      pose proof (length_blocks a d Hd7). unfold free_in in Hlt. lia. }
    apply elem_of_blocks in Hb as (i&Hib&->). exists (blk a d i), (bsize d).
    assert (block_of R a (blk a d i) (bsize d)) as Hbl by (unfold block_of; rewrite Ha; eauto).
    split_and!; [done|]. split; [by exists a|]. intros d' dd' Hd' Hin.
    destruct (inv_free_block U s R Hi d' dd' _ Hd' Hin) as (a'&Ha'&Hbl'&_).
    destruct (inv_block_inj U s R Hi _ _ _ _ _ Hbl Hbl') as [<- _]. congruence.
  - exists (a + ARENA_SIZE), (PGSIZE * n - ARENA_SIZE).
    assert (block_of R a (a + ARENA_SIZE) (PGSIZE * n - ARENA_SIZE)) as Hbl by (unfold block_of; by rewrite Ha).
    split; [done|]. split; [by exists a|]. intros d' dd' Hd' Hin.
    destruct (inv_free_block U s R Hi d' dd' _ Hd' Hin) as (a'&Ha'&Hbl'&_).
    destruct (inv_block_inj U s R Hi _ _ _ _ _ Hbl Hbl') as [<- _]. congruence.
Qed.

Lemma no_live_no_arena : (∀ b sz, ¬ live (descs s) R b sz) → R = ∅.
Proof.
  intros Hno. apply map_empty. intros a. destruct (R !! a) as [k|] eqn:Ha; [|done].
  destruct (arena_has_live a k Ha) as (b&sz&_&Hl). by apply Hno in Hl.
Qed.

Lemma live_disjoint b b' sz sz' :
  live (descs s) R b sz → live (descs s) R b' sz' → b ≠ b' → b + sz ≤ b' ∨ b' + sz' ≤ b.
Proof. intros [[a Hb] _] [[a' Hb'] _]. by apply (inv_block_disjoint U s R Hi a a'). Qed.

(** A block lies in pages of the kernel pool. *)
Lemma live_in_pool b sz :
  live (descs s) R b sz →
  base (kpool s) < b ∧ 0 < sz ∧ b + sz ≤ base (kpool s) + PGSIZE * page_cnt (kpool s) ∧ mapped (kbytes s) b sz.
Proof.
  intros [[a Hb] _]. destruct (inv_block_range U s R Hi _ _ _ Hb) as (k&Ha&?&?&?&_).
  destruct (inv_arena_range U s R Hi a k Ha) as (_&_&_&_&Hm).
  destruct (pv_placed _ _ _ (hi_pool _ _ _ Hi) a k Ha) as (i&->&Hi0&Hn&Hle). unfold page_addr, ARENA_SIZE, PGSIZE in *.
  split_and!; [lia|lia|lia|]. eapply mapped_sub; [exact Hm|lia|lia].
Qed.

End Leaks.

(** ** Using a block *)
Section Writes.
Context (U : Z → Prop) (s : kheap) (R : gmap Z kind) (Hr : heap_rep U s R).

(** A client writes into a block of its own. *)
Lemma write_block b sz p l m :
  live (descs s) R b sz → b ≤ p → p + Z.of_nat (length l) ≤ b + sz → writes (kbytes s) p l m →
  heap_rep U (with_mem m s) R ∧
  ∀ b' sz' x, live (descs s) R b' sz' → b' ≠ b → b' ≤ x < b' + sz' → m !! x = kbytes s !! x.
Proof.
  intros [[a Hb] Hu] Hlo Hhi (_&Hfr&Hdom). destruct Hr as [Hi Ht]. split; [split; [split|done]|].
  - by apply ram_ok_bytes; [apply Hi|].
  - apply Hi.
  - apply Hi.
  - intros a' k Ha'. apply (arena_ok_frame (kbytes s)); [|by apply Hi]. intros x Hx. apply Hfr.
    destruct (decide (x < p)) as [|Hp]; [by left|right].
    destruct (decide (x < b + sz)) as [Hx'|]; [|lia].
    pose proof (header_not_block U s R Hi a' k a b sz x Ha' Hb). lia.
  - intros b' sz' x [[a' Hb'] _] Hne Hx. apply Hfr.
    destruct (inv_block_disjoint U s R Hi _ _ _ _ _ _ Hb' Hb Hne); lia.
Qed.

Lemma block_size_spec b sz Q : live (descs s) R b sz → Q sz s → wp (block_size b) s Q.
Proof.
  intros [[a Hb] _] HQ. destruct Hr as [Hi _]. unfold block_of in Hb.
  destruct (R !! a) as [[d|n]|] eqn:Ha; [| |done].
  - destruct Hb as (i&Hib&->&->). destruct (inv_arena_page U s R Hi a d Ha) as (dd&Hp&_&_).
    unfold block_size. wp_step. eapply block_to_arena_small; [exact Hp|exact Hib|]. wp_step.
    eapply wp_read_word; [apply Hp|]. rewrite bool_decide_true by (unfold dptr, NULL; lia). wp_step.
    eapply wp_get_desc; [apply Hp|]. wp_step. by rewrite (proj1 (ap_sizes _ _ _ _ Hp)).
  - destruct Hb as [-> ->]. destruct (hi_arenas _ _ _ Hi a _ Ha) as (H1&H2&H3).
    destruct (inv_arena_range U s R Hi a _ Ha) as (Hn&Hal&Hlo&Hhi&_). cbn [npages] in *.
    unfold block_size. wp_step. eapply block_to_arena_big; [done|unfold PHYS_BASE in *; lia|done|done|]. wp_step.
    eapply wp_read_word; [exact H2|]. rewrite bool_decide_false by tauto. wp_step.
    eapply wp_read_word; [exact H3|]. wp_step.
    rewrite (pg_ofs_in a) by (done || unfold ARENA_SIZE, PGSIZE; lia). unfold ARENA_SIZE, PGSIZE, PHYS_BASE in *.
    rewrite u32_small by word_lia. by replace (4096 * n - (a + 12 - a)) with (4096 * n - 12) by lia.
Qed.

End Writes.

(** ** [realloc] *)

(** The block [p] of [sz] bytes has become the block [r] of at least [size]
    bytes, with the same contents as far as both go. *)
Definition moved (U : Z → Prop) (s : kheap) (R : gmap Z kind) (p sz size r : Z) (s' : kheap) (R' : gmap Z kind) : Prop :=
  heap_rep U s' R' ∧ (∀ z, ¬ live (descs s) R r z) ∧
  (∃ sz', size ≤ sz' ∧ ∀ b z, live (descs s') R' b z ↔ (live (descs s) R b z ∧ b ≠ p) ∨ (b = r ∧ z = sz')) ∧
  (∀ k, 0 ≤ k < size → k < sz → kbytes s' !! (r + k) = kbytes s !! (p + k)) ∧
  ∀ b z x, live (descs s) R b z → b ≠ p → b ≤ x < b + z → kbytes s' !! x = kbytes s !! x.

Lemma realloc_spec U s R p sz size :
  heap_rep U s R → live (descs s) R p sz → 0 < size → size + ARENA_SIZE + PGSIZE ≤ 2 ^ 32 →
  wp (realloc p size) s (λ r s', ∃ R',
    (r = NULL ∧ granted U s R size r s' R') ∨ (r ≠ NULL ∧ moved U s R p sz size r s' R')).
Proof.
  intros Hr Hp H0 Hsize. unfold realloc. rewrite bool_decide_false by lia. wp_step.
  eapply wp_mono; [by apply (malloc_spec U s R size)|]. intros r s1 (R1&Hg). wp_step.
  destruct (decide (r = NULL)) as [->|Hne].
  { rewrite andb_false_r. wp_steps. exists R1. by left. }
  destruct Hg as (Hr1&Hk1&[[-> _]|(_&Hnot&sz'&Hsz'&Hlive)]); [done|].
  destruct (live_in_pool U s R Hr p sz Hp) as (Hpb&Hsz0&_&_). pose proof (pool_start _ _ (inv_pool_ok U s R (proj1 Hr))) as Hphys.
  assert (p ≠ NULL) as Hp0 by (unfold NULL, PHYS_BASE in *; lia).
  rewrite !bool_decide_true by done. cbn [andb].
  assert (live (descs s1) R1 p sz) as Hp1 by (apply Hlive; by left).
  assert (live (descs s1) R1 r sz') as Hrl by (apply Hlive; by right).
  assert (p ≠ r) as Hpr by (intros ->; by apply (Hnot sz)).
  wp_step. eapply (block_size_spec U s1 R1 Hr1); [exact Hp1|]. set (n := if bool_decide _ then _ else _).
  assert (0 ≤ n ≤ size ∧ n ≤ sz ∧ (n = size ∨ n = sz)) as Hn by (unfold n; case_bool_decide; lia). clearbody n.
  destruct (live_in_pool U s1 R1 Hr1 p sz Hp1) as (_&_&_&Hmp), (live_in_pool U s1 R1 Hr1 r sz' Hrl) as (_&_&_&Hmr).
  pose proof (live_disjoint U s1 R1 Hr1 p r sz sz' Hp1 Hrl Hpr) as Hdis.
  destruct (mapped_bytes (kbytes s1) p (Z.to_nat n)) as (l&Hl&Hlen); [eapply mapped_sub; [exact Hmp|lia|lia]|].
  wp_step. apply wp_on_mem. eapply wp_mono; [apply (memcpy_spec _ _ _ l n)|]; [lia|by left|by left|done| |lia|].
  { eapply mapped_sub; [exact Hmr|lia|lia]. }
  intros q m [_ Hw]. destruct (write_block U s1 R1 Hr1 r sz' r l m Hrl) as [Hr2 Hk2]; [lia|lia|exact Hw|].
  eapply wp_mono; [apply (free_spec U (with_mem m s1) R1 p sz); [done|exact Hp1]|].
  intros [] s3 (R3&Hr3&Hlive3&Hk3). wp_step. exists R3. right. split; [done|].
  cbn [descs with_mem] in Hlive3, Hk3. change (kbytes (with_mem m s1)) with m in Hk3. split_and!; [done|done| | |].
  - exists sz'. split; [done|]. intros b z. rewrite Hlive3, Hlive. split; [tauto|].
    intros [[? ?]|[-> ->]]; [tauto|]. split; [by right|done].
  - intros k Hk Hks. rewrite (Hk3 r sz'); [|done|done|lia].
    assert (0 ≤ k < n) as Hkn by lia. destruct (lookup_lt_is_Some_2 l (Z.to_nat k)) as [v Hv]; [lia|].
    pose proof (bytes_at_lookup _ _ _ _ _ (writes_bytes _ _ _ _ Hw) Hv) as E1.
    pose proof (bytes_at_lookup _ _ _ _ _ Hl Hv) as E2. rewrite Z2Nat.id in E1, E2 by lia.
    rewrite E1, <- E2. apply (Hk1 p sz); [done|lia].
  - intros b z x Hb Hbp Hx. assert (live (descs s1) R1 b z) as Hb1 by (apply Hlive; by left).
    assert (b ≠ r) as Hbr by (intros ->; by apply (Hnot z)).
    rewrite (Hk3 b z) by done. rewrite (Hk2 b z) by done. by apply (Hk1 b z).
Qed.

(** ** [calloc] *)
Lemma calloc_spec U s R a b :
  heap_rep U s R → 0 < a → 0 < b → a * b + ARENA_SIZE + PGSIZE ≤ 2 ^ 32 →
  wp (calloc a b) s (λ r s', ∃ R', granted U s R (a * b) r s' R' ∧
    (r ≠ NULL → bytes_at (kbytes s') r (replicate (Z.to_nat (a * b)) 0))).
Proof.
  intros Hr Ha Hb Hsize. assert (a ≤ a * b ∧ b ≤ a * b) as [Hab Hba] by nia. unfold calloc.
  rewrite u32_small by (unfold ARENA_SIZE, PGSIZE in *; word_lia). rewrite !bool_decide_false by lia. cbn [orb].
  wp_step. eapply wp_mono; [apply (malloc_spec U s R (a * b) Hr); lia|]. intros r s1 (R1&Hg). wp_step.
  destruct (decide (r = NULL)) as [->|Hne].
  { rewrite bool_decide_false by tauto. wp_steps. by exists R1. }
  rewrite bool_decide_true by done. destruct Hg as (Hr1&Hk1&[[-> _]|(_&Hnot&sz&Hsz&Hlive)]); [done|].
  assert (live (descs s1) R1 r sz) as Hrl by (apply Hlive; by right).
  destruct (live_in_pool U s1 R1 Hr1 r sz Hrl) as (_&_&_&Hm).
  wp_step. apply wp_on_mem. eapply wp_mono; [apply memset_spec; [done|lia|eapply mapped_sub; [exact Hm|lia|lia]]|].
  intros q m Hw. cbv beta in Hw. change (u8 0) with 0 in Hw. wp_steps.
  destruct (write_block U s1 R1 Hr1 r sz r (replicate (Z.to_nat (a * b)) 0) m Hrl ltac:(lia) ltac:(rewrite length_replicate; lia) Hw) as [Hr2 Hk2].
  exists R1. split; [|intros _; by apply writes_bytes in Hw]. split_and!; [done| |right; split_and!; eauto].
  intros b' z x Hb' Hx. assert (b' ≠ r) as Hbr by (intros ->; by apply (Hnot z)).
  change (kbytes (with_mem m s1)) with m. rewrite (Hk2 b' z); [by apply (Hk1 b' z)|apply Hlive; by left|done|done].
Qed.

(** ** Clients

    The states that calls of [malloc], [free] and [realloc] reach from the
    initial one, with the requests [L] that are still outstanding.  A client
    frees or resizes only what it has, and writes only into it.  The contents
    of the outstanding blocks are the same: *)
Definition undisturbed (s : kheap) (L : gmap Z Z) (s' : kheap) : Prop :=
  ∀ b size x, L !! b = Some size → b ≤ x < b + size → kbytes s' !! x = kbytes s !! x.

(** The sizes for which the sum with the header, rounded up to pages, does not
    wrap around. *)
Definition fits (size : Z) : Prop := 0 < size ∧ size + ARENA_SIZE + PGSIZE ≤ 2 ^ 32.

Inductive client (r0 : ram) : kheap → gmap Z Z → Prop :=
| client_init s : malloc_init (mk_kheap r0 []) = Ret (tt, s) → client r0 s ∅
| client_malloc s L size p s' :
    client r0 s L → fits size → malloc size s = Ret (p, s') →
    client r0 s' (if bool_decide (p = NULL) then L else <[p := size]> L)
| client_free s L p size s' :
    client r0 s L → L !! p = Some size → free p s = Ret (tt, s') → client r0 s' (delete p L)
| client_realloc s L p old size q s' :
    client r0 s L → L !! p = Some old → fits size → realloc p size s = Ret (q, s') →
    client r0 s' (if bool_decide (q = NULL) then L else <[q := size]> (delete p L))
| client_write s L p size q v m :
    client r0 s L → L !! p = Some size → p ≤ q < p + size → store q v (kbytes s) = Ret (tt, m) →
    client r0 (with_mem m s) L.

(** The outstanding requests are the blocks in use. *)
Definition tracks (s : kheap) (R : gmap Z kind) (L : gmap Z Z) : Prop :=
  (∀ b size, L !! b = Some size → ∃ sz, live (descs s) R b sz ∧ size ≤ sz) ∧
  (∀ b sz, live (descs s) R b sz → is_Some (L !! b)).

Section Clients.
Context (r0 : ram) (Hr0 : ram_ok r0).
Let U (j : Z) : Prop := page_used (kernel_pool r0) j = true.

Lemma tracks_insert s R L s' R' p size sz :
  tracks s R L → size ≤ sz → (∀ b z, live (descs s') R' b z ↔ live (descs s) R b z ∨ (b = p ∧ z = sz)) →
  tracks s' R' (<[p := size]> L).
Proof.
  intros [H1 H2] Hs Hl. split.
  - intros b size' [[<- <-]|[Hne HL]]%lookup_insert_Some; [exists sz; split; [apply Hl; by right|done]|].
    destruct (H1 b size' HL) as (z&Hz&?). exists z. split; [apply Hl; by left|done].
  - intros b z [Hb|[-> _]]%Hl; [|rewrite lookup_insert_eq; eauto].
    destruct (decide (b = p)) as [->|]; [rewrite lookup_insert_eq; eauto|]. rewrite lookup_insert_ne by done. by eapply H2.
Qed.
Lemma tracks_delete s R L s' R' p :
  tracks s R L → (∀ b z, live (descs s') R' b z ↔ live (descs s) R b z ∧ b ≠ p) → tracks s' R' (delete p L).
Proof.
  intros [H1 H2] Hl. split.
  - intros b size [Hne HL]%lookup_delete_Some. destruct (H1 b size HL) as (z&Hz&?). exists z. split; [by apply Hl|done].
  - intros b z [Hb Hne]%Hl. rewrite lookup_delete_ne by done. by eapply H2.
Qed.
Lemma tracks_same s R L s' R' :
  tracks s R L → (∀ b z, live (descs s') R' b z ↔ live (descs s) R b z) → tracks s' R' L.
Proof.
  intros [H1 H2] Hl. split.
  - intros b size HL. destruct (H1 b size HL) as (z&Hz&?). exists z. split; [by apply Hl|done].
  - intros b z Hb%Hl. by eapply H2.
Qed.

Lemma client_tracks s L : client r0 s L → ∃ R, heap_rep U s R ∧ tracks s R L.
Proof.
  induction 1 as [s Hs|s L size p s' _ (R&Hr&Ht) [Hf Hf'] Hrun|s L p size s' _ (R&Hr&Ht) HL Hrun
    |s L p old size q s' _ (R&Hr&Ht) HL [Hf Hf'] Hrun|s L p size q v m _ (R&Hr&Ht) HL Hq Hrun].
  - rewrite malloc_init_eq in Hs. injection Hs as <-. exists ∅. split; [by apply fresh_rep|]. split; [set_solver|].
    intros b sz [[a Hb] _]. unfold block_of in Hb. by rewrite lookup_empty in Hb.
  - pose proof (malloc_spec U s R size Hr Hf Hf') as Hw. unfold wp in Hw. rewrite Hrun in Hw.
    destruct Hw as (R'&Hr'&_&[(->&_&Hl)|(Hne&_&sz&Hsz&Hl)]); exists R'; (split; [done|]).
    + rewrite bool_decide_true by done. by eapply tracks_same.
    + rewrite bool_decide_false by done. by eapply tracks_insert.
  - destruct (proj1 Ht p size HL) as (sz&Hp&_). pose proof (free_spec U s R p sz Hr Hp) as Hw. unfold wp in Hw.
    rewrite Hrun in Hw. destruct Hw as (R'&Hr'&Hl&_). exists R'. split; [done|]. by eapply tracks_delete.
  - destruct (proj1 Ht p old HL) as (sz&Hp&_). pose proof (realloc_spec U s R p sz size Hr Hp Hf Hf') as Hw. unfold wp in Hw.
    rewrite Hrun in Hw. destruct Hw as (R'&[(->&Hr'&_&[(_&_&Hl)|(?&_)])|(Hne&Hr'&_&(sz'&Hsz'&Hl)&_&_)]); [|done|].
    + exists R'. split; [done|]. rewrite bool_decide_true by done. by eapply tracks_same.
    + exists R'. split; [done|]. rewrite bool_decide_false by done. destruct Ht as [H1 H2]. split.
      * intros b size' [[<- <-]|[Hnq [Hnp HL']%lookup_delete_Some]]%lookup_insert_Some.
        -- exists sz'. split; [apply Hl; by right|done].
        -- destruct (H1 b size' HL') as (z&Hz&?). exists z. split; [apply Hl; by left|done].
      * intros b z [[Hb Hnp]|[-> _]]%Hl; [|rewrite lookup_insert_eq; eauto].
        destruct (decide (b = q)) as [->|]; [rewrite lookup_insert_eq; eauto|].
        rewrite lookup_insert_ne, lookup_delete_ne by done. by eapply H2.
  - destruct (proj1 Ht p size HL) as (sz&Hp&Hsz). exists R. split; [|done].
    destruct (live_in_pool U s R Hr p sz Hp) as (_&_&_&Hm).
    assert (q ∈ dom (kbytes s)) as Hdq by (apply Hm; lia).
    assert (writes (kbytes s) q [v] m) as Hw.
    { pose proof (wp_store q v (kbytes s) (λ _ m', m' = <[q := v]> (kbytes s)) Hdq eq_refl) as Hst.
      unfold wp in Hst. rewrite Hrun in Hst. subst m. apply writes_cons; [done|apply writes_nil]. }
    by apply (write_block U s R Hr p sz q [v] m Hp ltac:(lia) ltac:(cbn; lia) Hw).
Qed.

End Clients.

(** ** Claims *)

(** C8: The heap is safe for every client that asks for sizes that fit
    ([fits]: positive, and with the header and a page below 2^32; larger
    ones wrap around, see [request_sizes_overflow]), frees and resizes only
    blocks it has and writes only into them.  Whatever sequence of such calls of
    [malloc], [free] and [realloc] and of stores was made: the next call
    returns (no assertion fires, no header is corrupted).  [malloc] gives a null
    pointer or a block that is not outstanding; [realloc] of an outstanding block
    gives a null pointer, and the block stays, or another block that is not
    outstanding and begins with the contents of the old one as far as both go;
    and no call changes the contents of the other outstanding blocks.  The outstanding blocks do
    not overlap and lie in mapped pages of the kernel pool; and when all blocks
    are given back, all pages are, too. *)
Theorem heap_client_safe (r0 : ram) (s : kheap) (L : gmap Z Z) :
  ram_ok r0 → client r0 s L →
  (∀ size, fits size → ∃ p s', malloc size s = Ret (p, s') ∧ (p = NULL ∨ L !! p = None) ∧ undisturbed s L s') ∧
  (∀ p size, L !! p = Some size → ∃ s', free p s = Ret (tt, s') ∧ undisturbed s (delete p L) s') ∧
  (∀ p size size', L !! p = Some size → fits size' → ∃ q s', realloc p size' s = Ret (q, s') ∧
     ((q = NULL ∧ undisturbed s L s') ∨
      (q ≠ NULL ∧ L !! q = None ∧ undisturbed s (delete p L) s' ∧
       ∀ k, 0 ≤ k < size → k < size' → kbytes s' !! (q + k) = kbytes s !! (p + k)))) ∧
  (∀ p p' size size', L !! p = Some size → L !! p' = Some size' → p ≠ p' → p + size ≤ p' ∨ p' + size' ≤ p) ∧
  (∀ p size, L !! p = Some size → p ≠ NULL ∧ mapped (kbytes s) p size) ∧
  (L = ∅ → ∀ j, 0 ≤ j < page_cnt (kpool s) → page_used (kpool s) j = page_used (kernel_pool r0) j).
Proof.
  intros Hr0 Hc. destruct (client_tracks r0 Hr0 s L Hc) as (R&Hr&Ht). pose proof Ht as [H1 H2].
  assert (∀ p, (∀ z, ¬ live (descs s) R p z) → L !! p = None) as Hfresh.
  { intros p Hnot. destruct (L !! p) as [z|] eqn:E; [|done]. destruct (H1 p z E) as (sz&Hl&_). by apply Hnot in Hl. }
  assert (∀ s', keeps s R (kbytes s') → undisturbed s L s') as Hkeep.
  { intros s' Hk b z x HL Hx. destruct (H1 b z HL) as (sz&Hl&?). eapply (Hk b sz); [done|lia]. }
  assert (∀ p s', (∀ b z x, live (descs s) R b z → b ≠ p → b ≤ x < b + z → kbytes s' !! x = kbytes s !! x) →
    undisturbed s (delete p L) s') as Hother.
  { intros p s' Hk b z x [Hne HL]%lookup_delete_Some Hx. destruct (H1 b z HL) as (sz&Hl&?). eapply (Hk b sz); [done|done|lia]. }
  split_and!.
  - intros size [Hf Hf']. destruct (proj1 (wp_outcome _ _ _) (malloc_spec _ s R size Hr Hf Hf')) as (p&s'&Hrun&R'&_&Hk&Hg).
    exists p, s'. split; [done|]. split; [|by apply Hkeep]. destruct Hg as [(->&_)|(_&Hnot&_)]; [by left|right; by apply Hfresh].
  - intros p size HL. destruct (H1 p size HL) as (sz&Hl&_).
    destruct (proj1 (wp_outcome _ _ _) (free_spec _ s R p sz Hr Hl)) as ([]&s'&Hrun&R'&_&_&Hk). exists s'. split; [done|by apply Hother].
  - intros p size size' HL [Hf Hf']. destruct (H1 p size HL) as (sz&Hl&?).
    destruct (proj1 (wp_outcome _ _ _) (realloc_spec _ s R p sz size' Hr Hl Hf Hf')) as (q&s'&Hrun&R'&Hq).
    exists q, s'. split; [done|]. destruct Hq as [(->&_&Hk&_)|(Hne&_&Hnot&_&Hcopy&Hk)]; [left; split; [done|by apply Hkeep]|right].
    split_and!; [done|by apply Hfresh|by apply Hother|]. intros k Hk1 Hk2. apply Hcopy; lia.
  - intros p p' size size' HL HL' Hne. destruct (H1 p size HL) as (sz&Hl&?), (H1 p' size' HL') as (sz'&Hl'&?).
    destruct (live_disjoint _ s R Hr p p' sz sz' Hl Hl' Hne); lia.
  - intros p size HL. destruct (H1 p size HL) as (sz&Hl&?). destruct (live_in_pool _ s R Hr p sz Hl) as (Hb&_&_&Hm).
    pose proof (pool_start _ _ (inv_pool_ok _ s R (proj1 Hr))). split; [unfold NULL, PHYS_BASE in *; lia|].
    eapply mapped_sub; [exact Hm|lia|lia].
  - intros -> j Hj. assert (R = ∅) as ->.
    { apply (no_live_no_arena _ s R Hr). intros b sz Hl. destruct (H2 b sz Hl) as [? ?]. set_solver. }
    pose proof (pv_used _ _ _ (hi_pool _ _ _ (proj1 Hr)) j Hj) as Hu.
    assert (¬ owned (kpool s) ∅ j) as Hno by (intros (a&k&?&_); set_solver).
    destruct (page_used (kpool s) j), (page_used (kernel_pool r0) j); try done; destruct Hu as [Hu1 Hu2].
    + destruct (Hu1 eq_refl); [done|tauto].
    + apply Hu2. by left.
Qed.

(** C13: What [malloc], [calloc] and [free] do to the blocks in use.  A request that is not
    too large is answered by a block of at least its size that was not in use,
    and the blocks in use are as before with this one added; or by a null
    pointer, only when the pool has not enough consecutive free pages, and then
    the blocks in use are the same.  A block of [calloc] is cleared.  [free] of a block in use takes exactly this
    block away.  The contents of all other blocks stay. *)
Theorem malloc_and_free (U : Z → Prop) (s : kheap) (R : gmap Z kind) :
  heap_rep U s R →
  (∀ size, fits size → ∃ r s' R', malloc size s = Ret (r, s') ∧ granted U s R size r s' R') ∧
  (∀ a b, 0 < a → 0 < b → fits (a * b) → ∃ r s' R', calloc a b s = Ret (r, s') ∧ granted U s R (a * b) r s' R' ∧
     (r ≠ NULL → bytes_at (kbytes s') r (replicate (Z.to_nat (a * b)) 0))) ∧
  (∀ p sz, live (descs s) R p sz → ∃ s' R', free p s = Ret (tt, s') ∧ freed U s R p s' R').
Proof.
  intros Hr. split_and!.
  - intros size [Hf Hf']. destruct (proj1 (wp_outcome _ _ _) (malloc_spec _ s R size Hr Hf Hf')) as (p&s'&Hrun&R'&Hg). eauto.
  - intros a b Ha Hb [_ Hf]. destruct (proj1 (wp_outcome _ _ _) (calloc_spec _ s R a b Hr Ha Hb Hf)) as (p&s'&Hrun&R'&Hg). eauto.
  - intros p sz Hl. destruct (proj1 (wp_outcome _ _ _) (free_spec _ s R p sz Hr Hl)) as ([]&s'&Hrun&R'&Hg). eauto.
Qed.

(** [realloc] moves a block with its contents: if there is memory the old
    block is gone, the new one has at least the requested size and begins with
    the contents of the old one, as far as both go; if not, it returns a null
    pointer and the old block stays.  No other block changes. *)
Theorem realloc_moves_contents (U : Z → Prop) (s : kheap) (R : gmap Z kind) (p sz size : Z) :
  heap_rep U s R → live (descs s) R p sz → fits size →
  ∃ r s' R', realloc p size s = Ret (r, s') ∧
    ((r = NULL ∧ granted U s R size r s' R') ∨ (r ≠ NULL ∧ moved U s R p sz size r s' R')).
Proof.
  intros Hr Hl [Hf Hf']. destruct (proj1 (wp_outcome _ _ _) (realloc_spec _ s R p sz size Hr Hl Hf Hf')) as (r&s'&Hrun&R'&H). eauto.
Qed.

(** The size of a big block only depends on its number of pages. *)
Lemma malloc_wraps size s :
  2 ^ 32 - 12 < size < 2 ^ 32 → (∀ d dd, descs s !! d = Some dd → d_block_size dd ≤ 1024) → malloc size s = malloc_big 1 s.
Proof.
  intros Hs Hd. unfold malloc. rewrite bool_decide_false by lia. unfold bind at 1, get_state.
  destruct (find_desc size 1 (descs s)) as [p|] eqn:E.
  - apply find_desc_spec in E as (d&dd&Hdd&_&Hle). specialize (Hd d dd Hdd). lia.
  - unfold malloc_big. replace (DIV_ROUND_UP (u32 (size + ARENA_SIZE)) PGSIZE) with 1; [done|].
    unfold DIV_ROUND_UP, ARENA_SIZE, PGSIZE. replace (u32 (size + 12)) with (size + 12 - 2 ^ 32) by (unfold u32; lia).
    rewrite u32_small by word_lia. lia.
Qed.

(** Sizes overflow.  A request of more than 2^32 - 12 bytes wraps around
    when the header is added: with a free page, [malloc] answers it with a block
    of 4084 bytes.  The test of [calloc] for overflow of the product is not
    enough: 65537 elements of 65537 bytes pass it, and the call is the same as
    for 131073 bytes. *)
Theorem request_sizes_overflow (U : Z → Prop) (s : kheap) (R : gmap Z kind) (size i : Z) :
  heap_rep U s R → 2 ^ 32 - 12 < size < 2 ^ 32 → run (kpool s) i 1 false →
  (∃ r s' R', malloc size s = Ret (r, s') ∧ r ≠ NULL ∧ heap_rep U s' R' ∧ live (descs s') R' r 4084) ∧
  calloc 65537 65537 s = calloc 131073 1 s.
Proof.
  intros Hr Hs Hrun. split; [|reflexivity]. rewrite malloc_wraps; [|done|].
  - destruct (proj1 (wp_outcome _ _ _) (malloc_big_spec U s R 1 Hr ltac:(lia) ltac:(done))) as (r&s'&E&R'&(Hr'&_&Hg)&Hlive).
    destruct (decide (r = NULL)) as [->|Hne]; [|by eauto 8].
    destruct Hg as [(_&Hno&_)|[? _]]; [|done]. by destruct (Hno i).
  - intros d dd Hd. destruct (lo_sizes _ _ (hi_lists _ _ _ (proj1 Hr)) d dd Hd) as [-> _].
    apply bsize_range. rewrite <- (lo_length _ _ (hi_lists _ _ _ (proj1 Hr))). by eapply lookup_lt_Some.
Qed.

(** ** Examples *)

(** The heap on a pool of one free page. *)
Definition sample_heap : kheap := mk_kheap sample_ram fresh_descs.
Definition sample_used (j : Z) : Prop := page_used (kernel_pool sample_ram) j = true.

Lemma sample_heap_rep : heap_rep sample_used sample_heap ∅.
Proof. apply fresh_rep, sample_ram_ok. Qed.
Lemma sample_free_page : run (kpool sample_heap) 1 1 false.
Proof. split; [lia|]. split; [by vm_compute|]. intros j Hj. by replace j with 1 by lia. Qed.

(** The same heap with one block in use. *)
Lemma sample_block : ∃ s R p sz, heap_rep sample_used s R ∧ live (descs s) R p sz ∧ 2000 ≤ sz.
Proof.
  destruct (proj1 (wp_outcome _ _ _) (malloc_spec _ _ _ 2000 sample_heap_rep ltac:(lia) ltac:(by vm_compute)))
    as (r&s'&_&R'&Hr'&_&[(_&Hno&_)|(_&_&sz&Hsz&Hl)]).
  - by destruct (Hno 1 sample_free_page).
  - exists s', R', r, sz. split_and!; [done|apply Hl; by right|done].
Qed.

Lemma heap_client_safe_witness :
  ∃ p s1, malloc 100 sample_heap = Ret (p, s1) ∧ p ≠ NULL ∧ ∃ q s2, realloc p 300 s1 = Ret (q, s2) ∧
    (q = NULL ∨ (q ≠ NULL ∧ q ≠ p ∧ ∀ k, 0 ≤ k < 100 → kbytes s2 !! (q + k) = kbytes s1 !! (p + k))).
Proof.
  assert (client sample_ram sample_heap ∅) as Hc by (apply client_init, malloc_init_eq).
  assert (fits 100 ∧ fits 300) as [Hf Hf'] by (split; (split; [lia|by vm_compute])).
  destruct (heap_client_safe sample_ram sample_heap ∅ sample_ram_ok Hc) as (Hm&_).
  destruct (Hm 100 Hf) as (p&s1&Hrun&_&_). exists p, s1. split; [exact Hrun|].
  assert (p ≠ NULL) as Hp.
  { destruct (proj1 (wp_outcome _ _ _) (malloc_spec _ _ _ 100 sample_heap_rep ltac:(lia) ltac:(by vm_compute)))
      as (p'&s'&Hrun'&R'&_&_&[(_&Hno&_)|(Hne&_)]); [by destruct (Hno 1 sample_free_page)|congruence]. }
  split; [exact Hp|]. pose proof (client_malloc _ _ _ _ _ _ Hc Hf Hrun) as Hc1. rewrite bool_decide_false in Hc1 by exact Hp.
  destruct (heap_client_safe sample_ram s1 _ sample_ram_ok Hc1) as (_&_&Hr&_).
  destruct (Hr p 100 300 (lookup_insert_eq _ _ _) Hf') as (q&s2&Hrun2&Hq). exists q, s2. split; [exact Hrun2|].
  destruct Hq as [[Hq _]|(Hq&Hfresh&_&Hk)]; [by left|right]. split; [exact Hq|]. split.
  - intros ->. by rewrite lookup_insert_eq in Hfresh.
  - intros k Hk'. apply Hk; lia.
Defined.

Lemma malloc_and_free_witness :
  ∃ r s' R', malloc 2000 sample_heap = Ret (r, s') ∧ granted sample_used sample_heap ∅ 2000 r s' R'.
Proof.
  destruct (malloc_and_free sample_used sample_heap ∅ sample_heap_rep) as (Hm&_).
  apply (Hm 2000). split; [lia|by vm_compute].
Defined.

Lemma realloc_moves_contents_witness :
  ∃ s p sz r s' R R', realloc p 10 s = Ret (r, s') ∧
    ((r = NULL ∧ granted sample_used s R 10 r s' R') ∨ (r ≠ NULL ∧ moved sample_used s R p sz 10 r s' R')).
Proof.
  destruct sample_block as (s&R&p&sz&Hr&Hl&_).
  destruct (realloc_moves_contents sample_used s R p sz 10 Hr Hl) as (r&s'&R'&Hrun&H).
  - split; [lia|by vm_compute].
  - exists s, p, sz, r, s', R, R'. split; [exact Hrun|exact H].
Defined.

Lemma request_sizes_overflow_witness : ∃ r s', malloc (2 ^ 32 - 1) sample_heap = Ret (r, s') ∧ r ≠ NULL.
Proof.
  destruct (request_sizes_overflow sample_used sample_heap ∅ (2 ^ 32 - 1) 1 sample_heap_rep) as [(r&s'&R'&Hrun&Hne&_) _].
  - lia.
  - exact sample_free_page.
  - exists r, s'. split; [exact Hrun|exact Hne].
Defined.

(** Three blocks from one arena; freed, they give the page back. *)
Definition observe {A} (r : outcome (A * kheap)) : option (A * pool) :=
  match r with Ret (a, s) => Some (a, kpool s) | Fail _ => None end.
Example heap_run :
  observe ((p ← malloc 1000; q ← malloc 600; r ← malloc 1024; free q;; free p;; free r;; ret [p; q; r]) sample_heap) =
    Some ([0xc010300c; 0xc010340c; 0xc010380c], kpool sample_heap).
Proof. vm_compute. reflexivity. Qed.
