(* ===== verification/Pagedir.v ===== *)
(** * Page directories (userprog/pagedir.c, threads/pte.h)

    The two-level page tables of the processor, as words in the memory of the
    page allocator: a page directory is a page of 1024 entries that point to page
    tables, whose 1024 entries point to frames.  [cr3] is the page directory
    base register; [tlb] is the processor's cache of entries, by page number, which
    a load of the register empties. *)

From S2P Require Import Prelude Vaddr Str Bitmap Palloc.
Local Open Scope Z_scope.

(** [lia] with division by constants. *)
Local Ltac Zify.zify_post_hook ::= Z.to_euclidean_division_equations.

(** ** Entries (threads/pte.h) *)
Definition PTSHIFT : Z := PGBITS.
Definition PTBITS : Z := 10.
Definition PTMASK : Z := BITMASK PTSHIFT PTBITS.
Definition PDSHIFT : Z := PTSHIFT + PTBITS.

Definition pt_no (va : Z) : Z := Z.shiftr (Z.land va PTMASK) PTSHIFT.
Definition pd_no (va : Z) : Z := Z.shiftr va PDSHIFT.

Definition PTE_ADDR : Z := 0xfffff000.
Definition PTE_P : Z := 0x1.
Definition PTE_W : Z := 0x2.
Definition PTE_U : Z := 0x4.
Definition PTE_A : Z := 0x20.
Definition PTE_D : Z := 0x40.
(** [(pte & flag) != 0] *)
Definition flag_set (pte flag : Z) : bool := bool_decide (Z.land pte flag ≠ 0).
(** [pte & ~flag], on 32 bits *)
Definition without (pte flag : Z) : Z := Z.land pte (u32 (Z.lnot flag)).

Definition pde_create {S} (pt : Z) : M S Z :=
  ASSERT (bool_decide (pg_ofs pt = 0));;
  p ← vtop pt; ret (Z.lor (Z.lor (Z.lor p PTE_U) PTE_P) PTE_W).
Definition pde_get_pt {S} (pde : Z) : M S Z := ASSERT (flag_set pde PTE_P);; ptov (Z.land pde PTE_ADDR).
Definition pte_create_kernel {S} (page : Z) (writable : bool) : M S Z :=
  ASSERT (bool_decide (pg_ofs page = 0));;
  p ← vtop page; ret (Z.lor (Z.lor p PTE_P) (if writable then PTE_W else 0)).
Definition pte_create_user {S} (page : Z) (writable : bool) : M S Z :=
  e ← pte_create_kernel page writable; ret (Z.lor e PTE_U).
Definition pte_get_page {S} (pte : Z) : M S Z := ptov (Z.land pte PTE_ADDR).

(** ** State *)
Record mmu := mk_mmu { frames : ram; cr3 : Z; tlb : gmap Z Z }.
Definition registers (s : mmu) : Z * gmap Z Z := (cr3 s, tlb s).
Definition on_frames {A} (c : M ram A) : M mmu A :=
  λ s, match c (frames s) with Ret (a, r) => Ret (a, mk_mmu r (cr3 s) (tlb s)) | Fail f => Fail f end.
Definition read_entry (p : Z) : M mmu Z := on_frames (on_bytes (load_word p)).
Definition write_entry (p v : Z) : M mmu unit := on_frames (on_bytes (store_word p v)).

(** ** Operations *)
Section Operations.
(** Globals of threads/init.c. *)
Context (init_page_dir init_ram_pages : Z).

Definition pagedir_create : M mmu Z :=
  pd ← on_frames (palloc_get_page 0);
  (if bool_decide (pd ≠ NULL) then _ ← on_frames (on_bytes (memcpy pd init_page_dir PGSIZE)); ret tt else ret tt);;
  ret pd.

(** The entries of a page table, from [pte] on. *)
Fixpoint free_entries (n : nat) (pte : Z) : M mmu unit :=
  match n with
  | O => ret tt
  | S n =>
      e ← read_entry pte;
      (if flag_set e PTE_P then page ← pte_get_page e; on_frames (palloc_free_page page) else ret tt);;
      free_entries n (pte + 4)
  end.
(** The entries of a page directory, from [pde] on. *)
Fixpoint free_tables (n : nat) (pde : Z) : M mmu unit :=
  match n with
  | O => ret tt
  | S n =>
      e ← read_entry pde;
      (if flag_set e PTE_P then
         pt ← pde_get_pt e;
         free_entries (Z.to_nat (PGSIZE / 4)) pt;;
         on_frames (palloc_free_page pt)
       else ret tt);;
      free_tables n (pde + 4)
  end.
Definition pagedir_destroy (pd : Z) : M mmu unit :=
  if bool_decide (pd = NULL) then ret tt
  else
    ASSERT (bool_decide (pd ≠ init_page_dir));;
    free_tables (Z.to_nat (pd_no PHYS_BASE)) pd;;
    on_frames (palloc_free_page pd).

Definition lookup_page (pd vaddr : Z) (create : bool) : M mmu Z :=
  ASSERT (bool_decide (pd ≠ NULL));;
  ASSERT (negb create || is_user_vaddr vaddr);;
  let pde := pd + 4 * pd_no vaddr in
  e ← read_entry pde;
  ok ← (if bool_decide (e = 0) then
          if create then
            pt ← on_frames (palloc_get_page PAL_ZERO);
            if bool_decide (pt = NULL) then ret false
            else v ← pde_create pt; write_entry pde v;; ret true
          else ret false
        else ret true);
  if ok : bool then
    e ← read_entry pde; pt ← pde_get_pt e; ret (pt + 4 * pt_no vaddr)
  else ret NULL.

Definition pagedir_set_page (pd upage kpage : Z) (writable : bool) : M mmu bool :=
  ASSERT (bool_decide (pg_ofs upage = 0));;
  ASSERT (bool_decide (pg_ofs kpage = 0));;
  ASSERT (is_user_vaddr upage);;
  p ← vtop kpage;
  ASSERT (bool_decide (Z.shiftr p PTSHIFT < init_ram_pages));;
  ASSERT (bool_decide (pd ≠ init_page_dir));;
  pte ← lookup_page pd upage true;
  if bool_decide (pte ≠ NULL) then
    e ← read_entry pte;
    ASSERT (negb (flag_set e PTE_P));;
    v ← pte_create_user kpage writable;
    write_entry pte v;;
    ret true
  else ret false.

Definition pagedir_get_page (pd uaddr : Z) : M mmu Z :=
  ASSERT (is_user_vaddr uaddr);;
  pte ← lookup_page pd uaddr false;
  if bool_decide (pte ≠ NULL) then
    e ← read_entry pte;
    if flag_set e PTE_P then page ← pte_get_page e; ret (u32 (page + pg_ofs uaddr)) else ret NULL
  else ret NULL.

(** Loads the register; null stands for the initial directory. *)
Definition pagedir_activate (pd : Z) : M mmu unit :=
  p ← vtop (if bool_decide (pd = NULL) then init_page_dir else pd);
  modify (λ s, mk_mmu (frames s) p ∅).
Definition active_pd : M mmu Z := p ← gets cr3; ptov p.
Definition invalidate_pagedir (pd : Z) : M mmu unit :=
  a ← active_pd; if bool_decide (a = pd) then pagedir_activate pd else ret tt.

Definition pagedir_clear_page (pd upage : Z) : M mmu unit :=
  ASSERT (bool_decide (pg_ofs upage = 0));;
  ASSERT (is_user_vaddr upage);;
  pte ← lookup_page pd upage false;
  if bool_decide (pte ≠ NULL) then
    e ← read_entry pte;
    if flag_set e PTE_P then write_entry pte (without e PTE_P);; invalidate_pagedir pd else ret tt
  else ret tt.

(** [pagedir_is_dirty] and [pagedir_is_accessed] *)
Definition pagedir_test (flag pd vpage : Z) : M mmu bool :=
  pte ← lookup_page pd vpage false;
  if bool_decide (pte ≠ NULL) then e ← read_entry pte; ret (flag_set e flag) else ret false.
Definition pagedir_is_dirty : Z → Z → M mmu bool := pagedir_test PTE_D.
Definition pagedir_is_accessed : Z → Z → M mmu bool := pagedir_test PTE_A.

(** [pagedir_set_dirty] and [pagedir_set_accessed] *)
Definition pagedir_set (flag pd vpage : Z) (on : bool) : M mmu unit :=
  pte ← lookup_page pd vpage false;
  if bool_decide (pte ≠ NULL) then
    e ← read_entry pte;
    if on then write_entry pte (Z.lor e flag)
    else write_entry pte (without e flag);; invalidate_pagedir pd
  else ret tt.
Definition pagedir_set_dirty : Z → Z → bool → M mmu unit := pagedir_set PTE_D.
Definition pagedir_set_accessed : Z → Z → bool → M mmu unit := pagedir_set PTE_A.

End Operations.

(** ** The abstract page directory

    For each index below that of [PHYS_BASE] that has a table: the address of
    the table and its entries. *)
Notation pagedir := (gmap Z (Z * list Z)).
Definition PDES : Z := pd_no PHYS_BASE.
Definition PTES : Z := PGSIZE / 4.

(** The entry for a user address. *)
Definition entry (D : pagedir) (va : Z) : option Z :=
  match D !! pd_no va with Some (_, ws) => ws !! Z.to_nat (pt_no va) | None => None end.
(** Its address, or null. *)
Definition slot (D : pagedir) (va : Z) : Z :=
  match D !! pd_no va with Some (pt, _) => pt + 4 * pt_no va | None => NULL end.
(** What is mapped at a user address, as a kernel address. *)
Definition frame_of (w : Z) : Z := Z.land w PTE_ADDR + PHYS_BASE.
Definition translate (D : pagedir) (va : Z) : Z :=
  match entry D va with
  | Some w => if flag_set w PTE_P then frame_of w + va mod PGSIZE else NULL
  | None => NULL
  end.

Definition pde_of (pt : Z) : Z := pt - PHYS_BASE + 7.
Definition pte_of (page : Z) (writable : bool) : Z := page - PHYS_BASE + 5 + (if writable then 2 else 0).

(** A page that was allocated from the kernel pool. *)
Definition kernel_page (r : ram) (p : Z) : Prop :=
  ∃ i, p = page_addr (kernel_pool r) i ∧ run (kernel_pool r) i 1 true.
(** The physical address in an entry that is present is in the range that is
    mapped into the kernel. *)
Definition entry_ok (w : Z) : Prop := is_u32 w ∧ (flag_set w PTE_P = true → Z.land w PTE_ADDR < 2 ^ 30).
Definition table_at (m : mem) (pt : Z) (ws : list Z) : Prop :=
  Z.of_nat (length ws) = PTES ∧ ∀ j w, ws !! j = Some w → word_at m (pt + 4 * Z.of_nat j) w ∧ entry_ok w.

Record pd_rep (r : ram) (pd : Z) (D : pagedir) : Prop := {
  pr_ram : ram_ok r;
  pr_pd : kernel_page r pd;
  pr_tables : ∀ k pt ws, D !! k = Some (pt, ws) → 0 ≤ k < PDES ∧ kernel_page r pt ∧ pt ≠ pd ∧ table_at (bytes r) pt ws;
  pr_inj : ∀ k k' pt ws ws', D !! k = Some (pt, ws) → D !! k' = Some (pt, ws') → k = k';
  pr_entries : ∀ k, 0 ≤ k < PDES →
    word_at (bytes r) (pd + 4 * k) (match D !! k with Some (pt, _) => pde_of pt | None => 0 end)
}.

(** Every entry of a user page in the cache of the active directory: the bits it
    has are in the table, and it leads to the same frame. *)
Definition tlb_ok (s : mmu) (pd : Z) (D : pagedir) : Prop :=
  cr3 s = pd - PHYS_BASE → ∀ n w, tlb s !! n = Some w → 0 ≤ n → is_user_vaddr (n * PGSIZE) = true →
  flag_set w PTE_P = true ∧ ∃ w', entry D (n * PGSIZE) = Some w' ∧ Z.land w w' = w ∧ Z.land w PTE_ADDR = Z.land w' PTE_ADDR.

Record mmu_rep (s : mmu) (pd : Z) (D : pagedir) : Prop := {
  mr_rep : pd_rep (frames s) pd D;
  mr_cr3 : 0 ≤ cr3 s < 2 ^ 30;
  mr_tlb : tlb_ok s pd D
}.

(** The arguments of [pagedir_set_page]. *)
Definition user_page (upage : Z) : Prop := 0 ≤ upage ∧ upage mod PGSIZE = 0 ∧ is_user_vaddr upage = true.
Definition ram_frame (init_ram_pages kpage : Z) : Prop :=
  kpage mod PGSIZE = 0 ∧ PHYS_BASE ≤ kpage < 2 ^ 32 ∧ (kpage - PHYS_BASE) / PGSIZE < init_ram_pages.
(** [D'] maps the page of [upage] as [t] says, and the other user pages as [D] does. *)
Definition remaps (D D' : pagedir) (upage : Z) (t : Z → Z) : Prop :=
  ∀ va, 0 ≤ va → is_user_vaddr va = true →
  translate D' va = if bool_decide (va / PGSIZE = upage / PGSIZE) then t va else translate D va.

(** ** Arithmetic *)
Section Arithmetic.

Lemma PDES_eq : PDES = 768.
Proof. reflexivity. Qed.
Lemma PTES_eq : PTES = 1024.
Proof. reflexivity. Qed.
Lemma pd_no_div va : pd_no va = va / 2 ^ 22.
Proof. unfold pd_no. by rewrite Z.shiftr_div_pow2. Qed.
Lemma pt_no_mod va : pt_no va = va / 2 ^ 12 mod 2 ^ 10.
Proof.
  unfold pt_no. rewrite Z.shiftr_land. change (Z.shiftr PTMASK PTSHIFT) with (Z.ones 10). change PTSHIFT with 12.
  by rewrite Z.land_ones, Z.shiftr_div_pow2.
Qed.
Lemma pt_no_nonneg va : 0 ≤ pt_no va.
Proof. rewrite pt_no_mod. lia. Qed.
Lemma user_indices va : 0 ≤ va → is_user_vaddr va = true → 0 ≤ pd_no va < PDES ∧ 0 ≤ pt_no va < PTES.
Proof.
  intros H0 Hu%bool_decide_eq_true_1. rewrite pd_no_div, pt_no_mod, PDES_eq, PTES_eq. unfold PHYS_BASE in Hu. lia.
Qed.
(** Two addresses have the same entry if they are in the same page. *)
Lemma same_indices va va' : pd_no va = pd_no va' → pt_no va = pt_no va' → va / PGSIZE = va' / PGSIZE.
Proof. rewrite !pd_no_div, !pt_no_mod. unfold PGSIZE. lia. Qed.
Lemma indices_of_page va va' : va / PGSIZE = va' / PGSIZE → pd_no va = pd_no va' ∧ pt_no va = pt_no va'.
Proof. rewrite !pd_no_div, !pt_no_mod. unfold PGSIZE. lia. Qed.

(** Flags below the address bits. *)
Lemma lor_flags x f : x mod PGSIZE = 0 → 0 ≤ f < PGSIZE → Z.lor x f = x + f.
Proof.
  intros Hx Hf. cut (Z.land x f = 0); [pose proof (Z.add_lor_land x f); lia|].
  assert (x = Z.shiftl (x / 2 ^ 12) 12) as -> by (rewrite Z.shiftl_mul_pow2 by lia; unfold PGSIZE in *; lia).
  apply Z.bits_inj'. intros n Hn. rewrite Z.land_spec, Z.bits_0. destruct (decide (n < 12)).
  - by rewrite Z.shiftl_spec_low.
  - rewrite (Z.bits_above_log2 f n); [by rewrite andb_false_r|lia|]. destruct (decide (f = 0)) as [->|]; [simpl; lia|].
    apply Z.log2_lt_pow2; [lia|]. apply Z.lt_le_trans with (2 ^ 12); [unfold PGSIZE in *; lia|]. apply Z.pow_le_mono_r; lia.
Qed.
Lemma land_ADDR x : is_u32 x → Z.land x PTE_ADDR = x - x mod PGSIZE.
Proof.
  intros Hx. rewrite <- ldiff_PGMASK. apply Z.bits_inj'. intros n Hn. rewrite Z.land_spec, Z.ldiff_spec.
  change PTE_ADDR with (Z.ldiff (Z.ones 32) PGMASK). rewrite Z.ldiff_spec, Z.testbit_ones_nonneg by lia.
  destruct (decide (n < 32)) as [Hlt|Hge].
  - replace (n <? 32) with true by lia. done.
  - by rewrite (is_u32_testbit x n) by (done || lia).
Qed.
(** A test of low bits does not see the address. *)
Lemma land_low x f c : x mod PGSIZE = 0 → 0 ≤ f < PGSIZE → 0 ≤ c < PGSIZE → Z.land (x + f) c = Z.land f c.
Proof.
  intros Hx Hf Hc. rewrite <- lor_flags by done. rewrite Z.land_lor_distr_l.
  replace (Z.land x c) with 0; [done|].
  pose proof (lor_flags x c Hx Hc) as H. pose proof (Z.add_lor_land x c) as H'. lia.
Qed.

(** Clearing and setting bits. *)
Lemma without_ldiff w f : is_u32 w → without w f = Z.ldiff w f.
Proof.
  intros Hw. unfold without, u32. apply Z.bits_inj'. intros n Hn. rewrite Z.land_spec, Z.ldiff_spec.
  destruct (decide (n < 32)).
  - rewrite Z.mod_pow2_bits_low by lia. by rewrite Z.lnot_spec.
  - by rewrite (is_u32_testbit w n) by (done || lia).
Qed.
Lemma land_without w f g : is_u32 w → Z.land (without w f) g = Z.ldiff (Z.land w g) f.
Proof.
  intros Hw. rewrite without_ldiff by done. apply Z.bits_inj'. intros n Hn. rewrite !Z.land_spec, !Z.ldiff_spec, Z.land_spec.
  by destruct (Z.testbit w n), (Z.testbit f n), (Z.testbit g n).
Qed.
Lemma without_same w f : is_u32 w → flag_set (without w f) f = false.
Proof. intros Hw. apply bool_decide_eq_false_2. rewrite land_without by done. intros H. apply H. apply Z.bits_inj'.
  intros n Hn. rewrite Z.ldiff_spec, Z.land_spec, Z.bits_0. by destruct (Z.testbit w n), (Z.testbit f n).
Qed.
(** A flag set or cleared in an entry. *)
Definition put_flag (f : Z) (on : bool) (w : Z) : Z := if on then Z.lor w f else without w f.
Lemma put_flag_other f on w g : is_u32 w → Z.land f g = 0 → Z.land (put_flag f on w) g = Z.land w g.
Proof.
  intros Hw H0. destruct on; cbn.
  - by rewrite Z.land_lor_distr_l, H0, Z.lor_0_r.
  - rewrite land_without by done. apply Z.bits_inj'. intros n Hn. rewrite Z.ldiff_spec, Z.land_spec.
    assert (Z.testbit (Z.land f g) n = false) as Hb by by rewrite H0, Z.bits_0. rewrite Z.land_spec in Hb.
    by destruct (Z.testbit w n), (Z.testbit f n), (Z.testbit g n).
Qed.
Lemma put_flag_same f on w : is_u32 w → f ≠ 0 → flag_set (put_flag f on w) f = on.
Proof.
  intros Hw H0. destruct on; [|by apply without_same]. apply bool_decide_eq_true_2. cbn.
  replace (Z.land (Z.lor w f) f) with f; [done|]. apply Z.bits_inj'. intros n Hn. rewrite Z.land_spec, Z.lor_spec.
  by destruct (Z.testbit w n), (Z.testbit f n).
Qed.
Lemma put_flag_ok f on w :
  f ∈ [PTE_A; PTE_D] → entry_ok w →
  entry_ok (put_flag f on w) ∧ flag_set (put_flag f on w) PTE_P = flag_set w PTE_P ∧
  Z.land (put_flag f on w) PTE_ADDR = Z.land w PTE_ADDR.
Proof.
  intros Hf [Hw Hok]. assert (Z.land f PTE_P = 0 ∧ Z.land f PTE_ADDR = 0 ∧ is_u32 f) as (HP&HA&Hf32).
  { repeat (apply elem_of_cons in Hf as [->|Hf]; [by split_and!|]). by apply elem_of_nil in Hf. }
  unfold entry_ok, flag_set in *. rewrite !put_flag_other by done. split; [|done]. split; [|done].
  destruct on; [by apply is_u32_lor|]. apply is_u32_land; [done|apply u32_range].
Qed.

End Arithmetic.

(** ** Pages of the tables *)
Section Pages.
Context (r : ram) (Hr : ram_ok r).

Lemma kernel_page_range p :
  kernel_page r p → p mod PGSIZE = 0 ∧ PHYS_BASE ≤ p ∧ p + PGSIZE < 2 ^ 32 ∧ mapped (bytes r) p PGSIZE.
Proof.
  intros (i&->&H0&Hle&_). destruct (page_addr_range r false i 1) as (?&?&?&Hm); [done|done|lia|done|].
  rewrite Z.mul_1_r in *. done.
Qed.
Lemma kernel_pages_apart p p' : kernel_page r p → kernel_page r p' → p ≠ p' → p + PGSIZE ≤ p' ∨ p' + PGSIZE ≤ p.
Proof.
  intros Hp Hp' Hne. destruct (kernel_page_range p Hp) as (H1&_), (kernel_page_range p' Hp') as (H2&_).
  unfold PGSIZE in *. lia.
Qed.
(** The pointer to a page table, from its entry. *)
Lemma pde_of_ok p :
  kernel_page r p →
  is_u32 (pde_of p) ∧ pde_of p ≠ 0 ∧ flag_set (pde_of p) PTE_P = true ∧ Z.land (pde_of p) PTE_ADDR = p - PHYS_BASE.
Proof.
  intros Hp. destruct (kernel_page_range p Hp) as (Hal&Hlo&Hhi&_). unfold pde_of.
  assert ((p - PHYS_BASE) mod PGSIZE = 0) as Ha by (unfold PHYS_BASE, PGSIZE in *; lia).
  assert (is_u32 (p - PHYS_BASE + 7)) as Hu by (unfold PHYS_BASE, PGSIZE in *; word_lia).
  split_and!; [done|unfold PHYS_BASE in *; lia| |].
  - unfold flag_set. rewrite land_low by (done || (unfold PTE_P, PGSIZE; lia)). done.
  - rewrite land_ADDR by done. unfold PHYS_BASE, PGSIZE in *. lia.
Qed.

End Pages.

Section Steps.
Implicit Types (s : mmu) (D : pagedir).

Lemma wp_on_frames {A} (c : M ram A) s Q : wp c (frames s) (λ a r, Q a (mk_mmu r (cr3 s) (tlb s))) → wp (on_frames c) s Q.
Proof. unfold wp, on_frames. by destruct (c _) as [[a r]|]. Qed.
Lemma wp_read_entry s p v Q : word_at (bytes (frames s)) p v → Q v s → wp (read_entry p) s Q.
Proof.
  intros Hw HQ. apply wp_on_frames, wp_on_bytes. eapply load_word_spec; [exact Hw|]. by destruct s as [[]].
Qed.
Lemma wp_write_entry s p v (Q : unit → mmu → Prop) :
  is_u32 v → mapped (bytes (frames s)) p 4 →
  (∀ m, writes (bytes (frames s)) p (word_bytes v) m → word_at m p v → Q tt (mk_mmu (set_bytes m (frames s)) (cr3 s) (tlb s))) →
  wp (write_entry p v) s Q.
Proof.
  intros Hv Hm HQ. apply wp_on_frames, wp_on_bytes. eapply wp_mono; [by apply store_word_spec|].
  intros [] m [Hw Hat]. by apply HQ.
Qed.
Lemma wp_pde_get_pt r s p Q : ram_ok r → kernel_page r p → Q p s → wp (pde_get_pt (pde_of p)) s Q.
Proof.
  intros Hr Hp HQ. destruct (pde_of_ok r Hr p Hp) as (_&_&Hf&Ha), (kernel_page_range r Hr p Hp) as (_&Hlo&Hhi&_).
  unfold pde_get_pt, ptov. rewrite Hf, Ha. wp_steps. unfold PHYS_BASE, PGSIZE in *. rewrite bool_decide_true by lia. wp_steps.
  rewrite u32_small by word_lia. by replace (p - 3221225472 + 3221225472) with p by lia.
Qed.

Lemma wp_pde_create r s p Q : ram_ok r → kernel_page r p → Q (pde_of p) s → wp (pde_create p) s Q.
Proof.
  intros Hr Hp HQ. destruct (kernel_page_range r Hr p Hp) as (Hal&Hlo&Hhi&_).
  unfold pde_create, vtop, is_kernel_vaddr. rewrite pg_ofs_mod, Hal. wp_steps. rewrite bool_decide_true by lia. wp_steps.
  assert (is_u32 (p - PHYS_BASE)) by (unfold PHYS_BASE, PGSIZE in *; word_lia). rewrite u32_small by done.
  rewrite <- !Z.lor_assoc. change (Z.lor PTE_U (Z.lor PTE_P PTE_W)) with 7. by rewrite lor_flags by (unfold PHYS_BASE, PGSIZE in *; lia).
Qed.

(** Pages stay allocated when the memory changes, or more pages are taken. *)
Lemma kernel_page_bytes r m p : kernel_page (set_bytes m r) p ↔ kernel_page r p.
Proof. done. Qed.
Lemma kernel_page_more r r' user i n u p : pages_set user i n u r r' → u = true ∨ n = 0 ∨ user = true → kernel_page r p → kernel_page r' p.
Proof.
  intros [Hb Hc Hu Ho] Hcase (k&->&H0&Hle&Hr). destruct user; cbn in *; [exists k; rewrite Ho; by split_and!|].
  exists k. split; [unfold page_addr; by rewrite Hb|]. split_and!; [done|by rewrite Hc|].
  intros j Hj. rewrite Hu by lia. case_bool_decide as Hin; [|by apply Hr]. destruct Hcase as [->|[->|?]]; [done|lia|done].
Qed.

(** *** Looking up *)
Lemma lookup_page_spec s pd D va :
  pd_rep (frames s) pd D → 0 ≤ va → is_user_vaddr va = true →
  wp (lookup_page pd va false) s (λ p s', p = slot D va ∧ s' = s).
Proof.
  intros Hp Hv0 Hv. destruct (user_indices va Hv0 Hv) as [Hk _]. pose proof (pr_ram _ _ _ Hp) as Hr.
  destruct (kernel_page_range _ Hr pd (pr_pd _ _ _ Hp)) as (_&Hlo&_). pose proof (pr_entries _ _ _ Hp _ Hk) as He.
  unfold lookup_page. rewrite bool_decide_true by (unfold NULL, PHYS_BASE in *; lia). wp_steps.
  eapply wp_read_entry; [exact He|]. unfold slot. destruct (D !! pd_no va) as [[pt ws]|] eqn:E.
  - destruct (pr_tables _ _ _ Hp _ _ _ E) as (_&Hpt&_). destruct (pde_of_ok _ Hr pt Hpt) as (_&Hne&_).
    rewrite bool_decide_false by done. wp_steps. eapply wp_read_entry; [exact He|]. wp_step.
    eapply wp_pde_get_pt; [exact Hr|exact Hpt|]. by wp_step.
  - rewrite bool_decide_true by done. by wp_steps.
Qed.

(** An entry that is there. *)
Lemma slot_entry r pd D va :
  pd_rep r pd D → 0 ≤ va → is_user_vaddr va = true → slot D va ≠ NULL →
  ∃ pt ws w, D !! pd_no va = Some (pt, ws) ∧ slot D va = pt + 4 * pt_no va ∧ ws !! Z.to_nat (pt_no va) = Some w ∧
    entry D va = Some w ∧ word_at (bytes r) (slot D va) w ∧ entry_ok w ∧ mapped (bytes r) (slot D va) 4.
Proof.
  intros Hp Hv0 Hv Hne. destruct (user_indices va Hv0 Hv) as [_ Hj]. unfold slot, entry in *.
  destruct (D !! pd_no va) as [[pt ws]|] eqn:E; [|done]. destruct (pr_tables _ _ _ Hp _ _ _ E) as (_&Hpt&_&Hlen&Hws).
  destruct (lookup_lt_is_Some_2 ws (Z.to_nat (pt_no va))) as [w Hw]; [lia|]. destruct (Hws _ _ Hw) as [Hwa Hok].
  rewrite Z2Nat.id in Hwa by lia. exists pt, ws, w. split_and!; try done.
  destruct (kernel_page_range r (pr_ram _ _ _ Hp) pt Hpt) as (_&_&_&Hm). eapply mapped_sub; [exact Hm|lia|].
  rewrite PTES_eq in Hj. unfold PGSIZE. lia.
Qed.
Lemma slot_null r pd D va : pd_rep r pd D → slot D va = NULL → 0 ≤ va → D !! pd_no va = None.
Proof.
  intros Hp Hs Hv. unfold slot in Hs. destruct (D !! pd_no va) as [[pt ws]|] eqn:E; [|done].
  destruct (pr_tables _ _ _ Hp _ _ _ E) as (_&Hpt&_). destruct (kernel_page_range r (pr_ram _ _ _ Hp) pt Hpt) as (_&Hlo&_).
  rewrite pt_no_mod in Hs. unfold PHYS_BASE, NULL in *. lia.
Qed.

End Steps.

(** ** Changing an entry *)
Definition empty_table : list Z := replicate (Z.to_nat PTES) 0.
Definition upd_entry (D : pagedir) (va v : Z) : pagedir :=
  match D !! pd_no va with
  | Some (pt, ws) => <[pd_no va := (pt, <[Z.to_nat (pt_no va) := v]> ws)]> D
  | None => D
  end.

Section Update.
Context (r : ram) (pd : Z) (D : pagedir) (Hp : pd_rep r pd D).

Lemma entry_upd va v va' :
  0 ≤ va → is_user_vaddr va = true → slot D va ≠ NULL →
  entry (upd_entry D va v) va' = if bool_decide (va' / PGSIZE = va / PGSIZE) then Some v else entry D va'.
Proof.
  intros Hv0 Hv Hne. destruct (slot_entry r pd D va Hp Hv0 Hv Hne) as (pt&ws&w&HD&_&Hw&_).
  unfold upd_entry, entry. rewrite HD. case_bool_decide as Hpage.
  - destruct (indices_of_page va' va Hpage) as [-> ->]. rewrite lookup_insert_eq. apply list_lookup_insert_eq.
    by eapply lookup_lt_Some.
  - destruct (decide (pd_no va' = pd_no va)) as [Heq|Hk]; [|by rewrite lookup_insert_ne].
    rewrite Heq, HD, lookup_insert_eq. apply list_lookup_insert_ne.
    intros Hn. apply Hpage. apply same_indices; [done|]. by apply Z2Nat.inj; [apply pt_no_nonneg..|].
Qed.

Lemma upd_entry_rep va v m :
  0 ≤ va → is_user_vaddr va = true → slot D va ≠ NULL → entry_ok v →
  writes (bytes r) (slot D va) (word_bytes v) m → pd_rep (set_bytes m r) pd (upd_entry D va v).
Proof.
  intros Hv0 Hv Hne Hok Hw. destruct (slot_entry r pd D va Hp Hv0 Hv Hne) as (pt&ws&w&HD&Hs&Hl&_).
  destruct (user_indices va Hv0 Hv) as [_ Hj]. rewrite PTES_eq in Hj. rewrite Hs in Hw. pose proof (pr_ram _ _ _ Hp) as Hr.
  destruct (pr_tables _ _ _ Hp _ _ _ HD) as (_&Hpt&Hptpd&Hlen&Hws). pose proof Hw as (Hbytes&Hfr&Hdom).
  rewrite length_word_bytes in Hfr.
  (* words that do not overlap the slot *)
  assert (∀ p x, p + 4 ≤ pt + 4 * pt_no va ∨ pt + 4 * pt_no va + 4 ≤ p → word_at (bytes r) p x → word_at m p x) as Hkeep.
  { intros p x Hd Hx. eapply word_at_frame; [|exact Hx]. intros a Ha. apply Hfr. lia. }
  unfold upd_entry. rewrite HD. split.
  - by apply ram_ok_bytes.
  - apply Hp.
  - intros k pt' ws' [[<- [= <- <-]]|[Hk HD']]%lookup_insert_Some.
    + destruct (pr_tables _ _ _ Hp _ _ _ HD) as (?&_&?&_). split; [done|]. split; [exact Hpt|]. split; [done|].
      split; [by rewrite length_insert|].
      intros j x [(<-&<-&_)|[Hjne Hx]]%list_lookup_insert_Some.
      * split; [|done]. rewrite Z2Nat.id by lia. split; [apply Hok|exact Hbytes].
      * destruct (Hws j x Hx) as [Hx' ?]. split; [|done]. apply Hkeep; [lia|done].
    + destruct (pr_tables _ _ _ Hp _ _ _ HD') as (?&Hpt'&?&Hlen'&Hws').
      split; [done|]. split; [exact Hpt'|]. split; [done|]. split; [done|]. intros j x Hx. destruct (Hws' j x Hx) as [Hx' ?]. split; [|done]. apply Hkeep; [|done].
      assert (pt' ≠ pt) as Hne' by (intros ->; apply Hk; by eapply (pr_inj _ _ _ Hp)).
      apply lookup_lt_Some in Hx. rewrite PTES_eq in Hlen'.
      destruct (kernel_pages_apart r Hr _ _ Hpt' Hpt Hne'); unfold PGSIZE in *; lia.
  - intros k k' pt' ws1 ws2 H1 H2.
    assert (∀ k ws0, <[pd_no va := (pt, <[Z.to_nat (pt_no va) := v]> ws)]> D !! k = Some (pt', ws0) → ∃ ws1, D !! k = Some (pt', ws1)) as Hback.
    { intros k0 ws0 [[<- [= <- <-]]|[_ ?]]%lookup_insert_Some; eauto. }
    apply Hback in H1 as [? H1], H2 as [? H2]. by eapply (pr_inj _ _ _ Hp).
  - intros k Hk. pose proof (pr_entries _ _ _ Hp k Hk) as He.
    assert (pd + 4 * k + 4 ≤ pt + 4 * pt_no va ∨ pt + 4 * pt_no va + 4 ≤ pd + 4 * k) as Hd.
    { rewrite PDES_eq in Hk. destruct (kernel_pages_apart r Hr _ _ Hpt (pr_pd _ _ _ Hp) Hptpd); unfold PGSIZE in *; lia. }
    destruct (decide (k = pd_no va)) as [->|Hkne].
    + rewrite lookup_insert_eq. rewrite HD in He. by apply Hkeep.
    + rewrite lookup_insert_ne by done. by apply Hkeep.
Qed.

(** A new table, filled with zeros. *)
Lemma new_table_rep k pt r' m :
  0 ≤ k < PDES → D !! k = None → ram_ok r' → (∀ p, kernel_page r p → kernel_page r' p) → kernel_page r' pt →
  ¬ kernel_page r pt → writes (bytes r) pt (replicate (Z.to_nat PGSIZE) 0) (bytes r') →
  writes (bytes r') (pd + 4 * k) (word_bytes (pde_of pt)) m →
  pd_rep (set_bytes m r') pd (<[k := (pt, empty_table)]> D).
Proof.
  intros Hk HD Hr' Hmore Hpt Hnew Hz Hw. pose proof (pr_pd _ _ _ Hp) as Hpd.
  assert (pt ≠ pd) as Hne by (intros ->; done). rewrite PDES_eq in Hk.
  pose proof (kernel_pages_apart r' Hr' _ _ Hpt (Hmore _ Hpd) Hne) as Hap.
  destruct Hz as (Hzb&Hzf&_), Hw as (Hwb&Hwf&Hdom). rewrite length_replicate in Hzf. rewrite length_word_bytes in Hwf.
  (* words in the pages that were there *)
  assert (∀ p q x, kernel_page r q → q ≤ p → p + 4 ≤ q + PGSIZE → p + 4 ≤ pd + 4 * k ∨ pd + 4 * k + 4 ≤ p →
    word_at (bytes r) p x → word_at m p x) as Hkeep.
  { intros p q x Hq Hlo Hhi Hd Hx. eapply word_at_frame; [|exact Hx]. intros a Ha. rewrite Hwf by lia. apply Hzf.
    assert (q ≠ pt) as Hqne by (intros ->; done).
    destruct (kernel_pages_apart r' Hr' _ _ (Hmore _ Hq) Hpt Hqne); unfold PGSIZE in *; lia. }
  split.
  - by apply ram_ok_bytes.
  - by apply Hmore.
  - intros k' pt' ws [[<- [= <- <-]]|[Hkk HD']]%lookup_insert_Some.
    + rewrite PDES_eq. split; [lia|]. split; [exact Hpt|]. split; [done|]. split; [done|].
      intros j x. unfold empty_table. rewrite lookup_replicate. intros [-> Hj]. rewrite PTES_eq in Hj. split; [|done]. split; [done|].
      eapply bytes_at_frame; [intros a Ha; apply Hwf; change (length (word_bytes 0)) with 4%nat in Ha; unfold PGSIZE in *; lia|].
      change (word_bytes 0) with (replicate 4 0).
      replace (Z.to_nat PGSIZE) with (4 * j + (4 + (4092 - 4 * j)))%nat in Hzb by (unfold PGSIZE; lia).
      rewrite !replicate_add in Hzb. apply bytes_at_app in Hzb as [_ [Hzb _]%bytes_at_app].
      rewrite length_replicate in Hzb. by replace (Z.of_nat (4 * j)) with (4 * Z.of_nat j) in Hzb by lia.
    + destruct (pr_tables _ _ _ Hp _ _ _ HD') as (?&Hpt'&Hne'&Hlen&Hws).
      split; [done|]. split; [by apply Hmore|]. split; [done|]. split; [done|]. intros j x Hx. destruct (Hws j x Hx) as [Hx' ?]. split; [|done].
      apply lookup_lt_Some in Hx. rewrite PTES_eq in Hlen.
      apply (Hkeep _ pt'); [done|lia|unfold PGSIZE; lia| |done].
      destruct (kernel_pages_apart r (pr_ram _ _ _ Hp) _ _ Hpt' Hpd Hne'); unfold PGSIZE in *; lia.
  - intros k1 k2 pt' ws1 ws2 [[<- [= <- <-]]|[Hk1 H1]]%lookup_insert_Some [[<- [= <-]]|[Hk2 H2]]%lookup_insert_Some; [done| | |].
    + by destruct (pr_tables _ _ _ Hp _ _ _ H2) as (_&?&_).
    + by destruct (pr_tables _ _ _ Hp _ _ _ H1) as (_&?&_).
    + by eapply (pr_inj _ _ _ Hp).
  - intros k' Hk'. destruct (decide (k' = k)) as [->|Hkne].
    + rewrite lookup_insert_eq. split; [|exact Hwb]. by apply (pde_of_ok r' Hr').
    + rewrite lookup_insert_ne by done. pose proof (pr_entries _ _ _ Hp k' Hk') as He. rewrite PDES_eq in Hk'.
      apply (Hkeep _ pd); [done|lia|unfold PGSIZE; lia|lia|done].
Qed.

End Update.

(** More pages are in use. *)
Lemma pd_rep_same r r' pd D :
  pd_rep r pd D → ram_ok r' → (∀ p, kernel_page r p → kernel_page r' p) → bytes r' = bytes r → pd_rep r' pd D.
Proof.
  intros Hp Hr' Hmore Hb. split; [done|apply Hmore, Hp| |apply Hp|rewrite Hb; apply Hp].
  intros k pt ws HD. destruct (pr_tables _ _ _ Hp _ _ _ HD) as (?&?&?&?). rewrite Hb. eauto.
Qed.

(** ** Operations on the abstract directory *)
Section Operations_spec.
Context (init_page_dir init_ram_pages : Z).
Implicit Types (s : mmu) (D : pagedir).

Lemma lookup_create_spec s pd D va :
  pd_rep (frames s) pd D → 0 ≤ va → is_user_vaddr va = true →
  wp (lookup_page pd va true) s (λ p s', registers s' = registers s ∧
    ((p = NULL ∧ D !! pd_no va = None ∧ (∀ i, ¬ run (kernel_pool (frames s)) i 1 false) ∧ pd_rep (frames s') pd D) ∨
     (p ≠ NULL ∧ ∃ D', p = slot D' va ∧ pd_rep (frames s') pd D' ∧
        (∀ va', 0 ≤ va' → entry D' va' = entry D va' ∨ (D !! pd_no va' = None ∧ entry D' va' = Some 0))))).
Proof.
  intros Hp Hv0 Hv. destruct (user_indices va Hv0 Hv) as [Hk Hj]. pose proof (pr_ram _ _ _ Hp) as Hr.
  destruct (kernel_page_range _ Hr pd (pr_pd _ _ _ Hp)) as (_&Hlo&_&Hmpd). pose proof (pr_entries _ _ _ Hp _ Hk) as He.
  destruct (D !! pd_no va) as [[pt ws]|] eqn:E.
  - destruct (pr_tables _ _ _ Hp _ _ _ E) as (_&Hpt&_). destruct (pde_of_ok _ Hr pt Hpt) as (_&Hne&_).
    unfold lookup_page. rewrite bool_decide_true by (unfold NULL, PHYS_BASE in *; lia). rewrite Hv. wp_steps.
    eapply wp_read_entry; [exact He|]. rewrite bool_decide_false by done. wp_steps. eapply wp_read_entry; [exact He|]. wp_step.
    eapply wp_pde_get_pt; [exact Hr|exact Hpt|]. wp_step. split; [done|]. right.
    destruct (kernel_page_range _ Hr pt Hpt) as (_&Hplo&_). split; [unfold NULL, PHYS_BASE in *; lia|].
    exists D. unfold slot. rewrite E. split_and!; [done|done|]. by left.
  - unfold lookup_page. rewrite bool_decide_true by (unfold NULL, PHYS_BASE in *; lia). rewrite Hv. wp_steps.
    eapply wp_read_entry; [exact He|]. rewrite bool_decide_true by done. wp_step. wp_step. apply wp_on_frames.
    eapply wp_mono; [apply palloc_get_spec; [exact Hr|lia|by left]|]. intros pt r [Hr' Hgot].
    destruct Hgot as [(i&[Hrun _]&->&Hset&Hz)|(->&Hno&Hset&Hb)].
    2: { rewrite bool_decide_true by done. wp_steps. split; [done|]. left. split_and!; [done|done|exact Hno|].
         change (has_flag PAL_ZERO PAL_USER) with false in Hset. apply (pd_rep_same (frames s)); [done|done| |done].
         intros p. by apply (kernel_page_more _ _ _ _ _ _ _ Hset); auto. }
    change (has_flag PAL_ZERO PAL_USER) with false in *. change (has_flag PAL_ZERO PAL_ZERO) with true in *. cbv iota in Hz.
    cbn [pool_of] in *. rewrite Z.mul_1_r in Hz. set (pt := page_addr (kernel_pool (frames s)) i) in *.
    assert (kernel_page r pt) as Hpt.
    { destruct Hset as [Hbase Hcnt Hu _]. cbn in Hbase, Hcnt, Hu. destruct Hrun as (H0&Hle&_). exists i. split.
      { unfold pt, page_addr. by rewrite Hbase. } split_and!; [done|by rewrite Hcnt|]. intros j Hjj. rewrite Hu by lia. by rewrite bool_decide_true by lia. }
    assert (¬ kernel_page (frames s) pt) as Hnew.
    { intros (i'&Hi'&_&_&Hu). destruct Hrun as (_&_&Hf). assert (i' = i) as -> by (unfold pt, page_addr, PGSIZE in Hi'; lia).
      specialize (Hu i ltac:(lia)). rewrite (Hf i ltac:(lia)) in Hu. done. }
    assert (∀ p, kernel_page (frames s) p → kernel_page r p) as Hmore by (intros p; apply (kernel_page_more _ _ _ _ _ _ _ Hset); auto).
    destruct (kernel_page_range r Hr' pt Hpt) as (Hal&Hplo&Hphi&_). destruct (pde_of_ok r Hr' pt Hpt) as (Hu32&Hne0&_).
    rewrite bool_decide_false by (unfold NULL, PHYS_BASE in *; lia).
    wp_steps. apply (wp_pde_create r); [done|done|]. wp_step.
    apply wp_write_entry; [done| |].
    { cbn [frames]. apply (mapped_dom (bytes (frames s))); [by destruct Hz as (_&_&?)|].
      eapply mapped_sub; [exact Hmpd|lia|]. rewrite PDES_eq in Hk. unfold PGSIZE. lia. }
    cbn [frames cr3]. intros m Hw Hat. wp_steps.
    pose proof (new_table_rep (frames s) pd D Hp (pd_no va) pt r m Hk E Hr' Hmore Hpt Hnew Hz Hw) as Hrep.
    eapply wp_read_entry; [exact Hat|]. wp_step. eapply wp_pde_get_pt; [exact Hr'|exact Hpt|]. wp_step. split; [done|].
    right. split; [unfold NULL, PHYS_BASE in *; lia|]. exists (<[pd_no va := (pt, empty_table)]> D).
    split_and!; [unfold slot; by rewrite lookup_insert_eq|done|].
    intros va' Hva'. unfold entry. destruct (decide (pd_no va' = pd_no va)) as [->|Hkne]; [|left; by rewrite lookup_insert_ne].
    right. split; [done|]. rewrite lookup_insert_eq. apply lookup_replicate. split; [done|]. rewrite pt_no_mod, PTES_eq. lia.
Qed.

(** *** The cache of entries *)
Lemma flag_set_sub w w' f : Z.land w w' = w → flag_set w f = true → flag_set w' f = true.
Proof.
  intros Hs Hf%bool_decide_eq_true_1. apply bool_decide_eq_true_2. intros H0. apply Hf.
  by rewrite <- Hs, <- Z.land_assoc, H0, Z.land_0_r.
Qed.
(** The cache stays right when present entries keep their frames and their bits. *)
Lemma tlb_ok_mono s s' pd D D' :
  registers s' = registers s →
  (∀ va w, 0 ≤ va → is_user_vaddr va = true → entry D va = Some w → flag_set w PTE_P = true →
     ∃ w', entry D' va = Some w' ∧ Z.land w w' = w ∧ Z.land w PTE_ADDR = Z.land w' PTE_ADDR) →
  tlb_ok s pd D → tlb_ok s' pd D'.
Proof.
  intros [= Hc Ht] Hmono Hok Hcr n w Hn Hn0 Hu. rewrite Hc in Hcr. rewrite Ht in Hn.
  destruct (Hok Hcr n w Hn Hn0 Hu) as (Hf&w1&He&Hs&Ha). split; [done|].
  destruct (Hmono (n * PGSIZE) w1) as (w2&He2&Hs2&Ha2); [unfold PGSIZE; lia|done|done|by eapply flag_set_sub|].
  exists w2. split_and!; [done| |by rewrite Ha]. by rewrite <- Hs, <- Z.land_assoc, Hs2.
Qed.
Lemma wp_invalidate s pd D (Q : unit → mmu → Prop) :
  pd_rep (frames s) pd D → 0 ≤ cr3 s < 2 ^ 30 →
  (∀ s', frames s' = frames s → cr3 s' = cr3 s → (cr3 s = pd - PHYS_BASE → tlb s' = ∅) → Q tt s') →
  wp (invalidate_pagedir init_page_dir pd) s Q.
Proof.
  intros Hp Hc HQ. destruct (kernel_page_range _ (pr_ram _ _ _ Hp) pd (pr_pd _ _ _ Hp)) as (_&Hlo&Hhi&_).
  unfold invalidate_pagedir, active_pd, ptov. wp_steps. unfold PHYS_BASE, PGSIZE in *. rewrite bool_decide_true by lia. wp_steps.
  rewrite u32_small by word_lia. case_bool_decide as Heq.
  - unfold pagedir_activate, vtop, is_kernel_vaddr. rewrite (bool_decide_false (pd = NULL)) by (unfold NULL; lia). unfold PHYS_BASE.
    rewrite bool_decide_true by lia. wp_steps. apply HQ; [done| |done]. cbn. rewrite u32_small by word_lia. lia.
  - wp_steps. apply HQ; [done|done|]. lia.
Qed.

(** *** The entry of a page *)
Lemma entry_page D va va' : va / PGSIZE = va' / PGSIZE → entry D va = entry D va'.
Proof. intros [Hd Ht]%indices_of_page. unfold entry. by rewrite Hd, Ht. Qed.
Lemma slot_null_entry D va : D !! pd_no va = None → entry D va = None.
Proof. unfold entry. by intros ->. Qed.

Lemma wp_pte_get_page s w Q :
  entry_ok w → flag_set w PTE_P = true → Q (frame_of w) s → wp (pte_get_page w) s Q.
Proof.
  intros [_ Hok] Hf HQ. specialize (Hok Hf). assert (0 ≤ Z.land w PTE_ADDR) as H0 by (apply Z.land_nonneg; right; done).
  unfold pte_get_page, ptov. wp_steps. rewrite bool_decide_true by (unfold PHYS_BASE; lia). wp_steps.
  rewrite u32_small by (unfold PHYS_BASE; word_lia). done.
Qed.
Lemma frame_of_range w :
  entry_ok w → flag_set w PTE_P = true → frame_of w mod PGSIZE = 0 ∧ PHYS_BASE ≤ frame_of w < 2 ^ 32.
Proof.
  intros [Hu Hok] Hf. specialize (Hok Hf). assert (0 ≤ Z.land w PTE_ADDR) as H0 by (apply Z.land_nonneg; right; done).
  pose proof (land_ADDR w Hu) as Ha. unfold frame_of, PHYS_BASE, PGSIZE in *. lia.
Qed.

Lemma pagedir_get_page_spec s pd D va :
  pd_rep (frames s) pd D → 0 ≤ va → is_user_vaddr va = true →
  wp (pagedir_get_page pd va) s (λ p s', p = translate D va ∧ s' = s).
Proof.
  intros Hp Hv0 Hv. unfold pagedir_get_page. rewrite Hv. wp_steps. eapply wp_mono; [by apply lookup_page_spec|].
  intros p s' [-> ->]. unfold translate. case_bool_decide as Hn.
  - destruct (slot_entry _ _ _ _ Hp Hv0 Hv Hn) as (pt&ws&w&_&_&_&->&Hw&Hok&_). wp_step. eapply wp_read_entry; [exact Hw|].
    destruct (flag_set w PTE_P) eqn:Hf; [|by wp_steps]. destruct (frame_of_range w Hok Hf) as [Hal Hr].
    wp_step. apply wp_pte_get_page; [done|done|]. wp_step. split; [|done]. rewrite pg_ofs_mod, u32_small; [done|].
    unfold PHYS_BASE, PGSIZE in *. word_lia.
  - rewrite (slot_null_entry D va) by by eapply slot_null. by wp_steps.
Qed.


(** *** Entries that are made *)
Lemma pte_of_ok page w :
  page mod PGSIZE = 0 → PHYS_BASE ≤ page < 2 ^ 32 →
  entry_ok (pte_of page w) ∧ flag_set (pte_of page w) PTE_P = true ∧ frame_of (pte_of page w) = page.
Proof.
  intros Hal Hr. unfold pte_of. set (f := 5 + if w then 2 else 0).
  assert (0 ≤ f < PGSIZE) as Hf by (unfold f, PGSIZE; destruct w; lia).
  replace (page - PHYS_BASE + 5 + (if w then 2 else 0)) with (page - PHYS_BASE + f) by (unfold f; destruct w; lia).
  assert ((page - PHYS_BASE) mod PGSIZE = 0) as Ha by (unfold PHYS_BASE, PGSIZE in *; lia).
  assert (is_u32 (page - PHYS_BASE + f)) as Hu by (unfold PHYS_BASE, PGSIZE in *; word_lia).
  assert (Z.land (page - PHYS_BASE + f) PTE_ADDR = page - PHYS_BASE) as HA.
  { rewrite land_ADDR by done. unfold PGSIZE in *. lia. }
  split_and!.
  - split; [done|]. rewrite HA. unfold PHYS_BASE in *. lia.
  - unfold flag_set. rewrite land_low by (done || (unfold PTE_P, PGSIZE; lia)). by destruct w.
  - unfold frame_of. rewrite HA. lia.
Qed.
Lemma wp_pte_create_user s page w Q :
  page mod PGSIZE = 0 → PHYS_BASE ≤ page < 2 ^ 32 → Q (pte_of page w) s → wp (pte_create_user page w) s Q.
Proof.
  intros Hal Hr HQ. unfold pte_create_user, pte_create_kernel, vtop, is_kernel_vaddr. rewrite pg_ofs_mod, Hal. wp_steps.
  rewrite bool_decide_true by lia. wp_steps.
  assert (is_u32 (page - PHYS_BASE)) by (unfold PHYS_BASE in *; word_lia). rewrite u32_small by done.
  assert ((page - PHYS_BASE) mod PGSIZE = 0) as Ha by (unfold PHYS_BASE, PGSIZE in *; lia).
  rewrite <- !Z.lor_assoc. rewrite lor_flags; [|done|by destruct w]. unfold pte_of in HQ.
  destruct w; [change (Z.lor PTE_P (Z.lor PTE_W PTE_U)) with 7|change (Z.lor PTE_P (Z.lor 0 PTE_U)) with 5];
    [rewrite <- Z.add_assoc in HQ; exact HQ|rewrite Z.add_0_r in HQ; exact HQ].
Qed.

(** Writing an entry over one that is not present, or with more bits. *)
Lemma wp_set_entry s pd D va w v (Q : unit → mmu → Prop) :
  mmu_rep s pd D → 0 ≤ va → is_user_vaddr va = true → slot D va ≠ NULL → entry D va = Some w → entry_ok v →
  (flag_set w PTE_P = true → Z.land w v = w ∧ Z.land w PTE_ADDR = Z.land v PTE_ADDR) →
  (∀ s', mmu_rep s' pd (upd_entry D va v) → Q tt s') → wp (write_entry (slot D va) v) s Q.
Proof.
  intros [Hp Hc Ht] Hv0 Hv Hn He Hok Hsub HQ. destruct (slot_entry _ _ _ _ Hp Hv0 Hv Hn) as (_&_&_&_&_&_&_&_&_&Hm).
  apply wp_write_entry; [by apply Hok|done|]. intros m Hw _. apply HQ. split; [by apply (upd_entry_rep (frames s))|done|].
  eapply tlb_ok_mono; [done| |exact Ht]. intros va' w' Hv0' Hv' He' Hf'.
  rewrite (entry_upd _ _ _ Hp) by done. case_bool_decide as Hpage; [|exists w'; by rewrite Z.land_diag].
  rewrite (entry_page D va' va Hpage), He in He'. injection He' as <-. eauto.
Qed.
(** Writing an entry and emptying the cache. *)
Lemma wp_reset_entry s pd D va v (Q : unit → mmu → Prop) :
  mmu_rep s pd D → 0 ≤ va → is_user_vaddr va = true → slot D va ≠ NULL → entry_ok v →
  (∀ s', mmu_rep s' pd (upd_entry D va v) → Q tt s') →
  wp (write_entry (slot D va) v;; invalidate_pagedir init_page_dir pd) s Q.
Proof.
  intros [Hp Hc Ht] Hv0 Hv Hn Hok HQ. destruct (slot_entry _ _ _ _ Hp Hv0 Hv Hn) as (_&_&_&_&_&_&_&_&_&Hm).
  wp_step. apply wp_write_entry; [by apply Hok|done|]. intros m Hw _.
  pose proof (upd_entry_rep _ _ _ Hp va v m Hv0 Hv Hn Hok Hw) as Hp'. eapply wp_invalidate; [exact Hp'|done|].
  cbn [frames cr3]. intros s' Hf Hcr Hempty. apply HQ. split; [by rewrite Hf|by rewrite Hcr|].
  intros Heq n x Hn'. rewrite Hcr in Heq. by rewrite (Hempty Heq) in Hn'.
Qed.


(** *** Mapping and unmapping *)
Lemma translate_null s pd D va w :
  pd_rep (frames s) pd D → translate D va = NULL → entry D va = Some w → flag_set w PTE_P = false.
Proof.
  intros Hp Ht He. unfold translate in Ht. rewrite He in Ht. destruct (flag_set w PTE_P); [|done].
  assert (0 ≤ Z.land w PTE_ADDR) by (apply Z.land_nonneg; right; done). unfold frame_of, PHYS_BASE, NULL, PGSIZE in Ht. lia.
Qed.
Lemma upd_remaps r pd D upage v :
  pd_rep r pd D → 0 ≤ upage → is_user_vaddr upage = true → slot D upage ≠ NULL →
  remaps D (upd_entry D upage v) upage (λ va, if flag_set v PTE_P then frame_of v + va mod PGSIZE else NULL).
Proof.
  intros Hp H0 Hu Hn va Hv0 Hv. unfold translate. rewrite (entry_upd _ _ _ Hp) by done. by case_bool_decide.
Qed.

Lemma pagedir_set_page_spec s pd D upage kpage w :
  mmu_rep s pd D → pd ≠ init_page_dir → user_page upage → ram_frame init_ram_pages kpage → translate D upage = NULL →
  wp (pagedir_set_page init_page_dir init_ram_pages pd upage kpage w) s (λ ok s',
    if ok : bool
    then ∃ D', mmu_rep s' pd D' ∧ remaps D D' upage (λ va, kpage + va mod PGSIZE)
    else mmu_rep s' pd D ∧ D !! pd_no upage = None ∧ ∀ i, ¬ run (kernel_pool (frames s)) i 1 false).
Proof.
  intros [Hp Hc Ht] Hpd (Hu0&Hual&Hu) (Hkal&Hk&Hkr) Hnull. destruct (pte_of_ok kpage w Hkal Hk) as (Hok&HP&Hfr).
  unfold pagedir_set_page, vtop, is_kernel_vaddr. rewrite !pg_ofs_mod, Hual, Hkal, Hu.
  rewrite (bool_decide_true (pd ≠ init_page_dir)) by done. wp_steps. rewrite bool_decide_true by lia. wp_steps.
  rewrite u32_small by (unfold PHYS_BASE in *; word_lia).
  rewrite bool_decide_true by (rewrite Z.shiftr_div_pow2 by done; exact Hkr). wp_steps.
  eapply wp_mono; [by apply lookup_create_spec|]. intros p s' [Hreg [(->&HD&Hno&Hp')|(Hne&D1&->&Hp1&Hent)]].
  { rewrite bool_decide_false by auto. wp_steps. split; [|done]. pose proof Hreg as [= Hcr _]. split; [done|by rewrite Hcr|].
    eapply tlb_ok_mono; [exact Hreg| |exact Ht]. intros va x _ _ He _. exists x. by rewrite Z.land_diag. }
  rewrite bool_decide_true by done. destruct (slot_entry _ _ _ _ Hp1 Hu0 Hu Hne) as (_&_&x&_&_&_&Hx&Hat&_).
  assert (flag_set x PTE_P = false) as Hfx.
  { destruct (Hent upage Hu0) as [He|[_ He]]; rewrite Hx in He; [by eapply translate_null; [exact Hp|exact Hnull|symmetry]|by injection He as ->]. }
  assert (mmu_rep s' pd D1) as Hm1.
  { pose proof Hreg as [= Hcr _]. split; [done|by rewrite Hcr|]. eapply tlb_ok_mono; [exact Hreg| |exact Ht].
    intros va y Hv0 _ He Hf. destruct (Hent va Hv0) as [->|[HD%slot_null_entry _]]; [|by rewrite HD in He].
    exists y. by rewrite Z.land_diag. }
  wp_step. eapply wp_read_entry; [exact Hat|]. rewrite Hfx. wp_steps. apply wp_pte_create_user; [done|done|]. wp_step.
  apply (wp_set_entry _ pd _ _ x); [done..|by rewrite Hfx|]. intros s2 Hm2. wp_steps. exists (upd_entry D1 upage (pte_of kpage w)).
  split; [done|]. intros va Hv0 Hv. rewrite (upd_remaps _ _ _ _ _ Hp1) by done. rewrite HP, Hfr. case_bool_decide; [done|].
  unfold translate. destruct (Hent va Hv0) as [->|[HD%slot_null_entry ->]]; [done|by rewrite HD].
Qed.

Lemma pagedir_clear_page_spec s pd D upage :
  mmu_rep s pd D → user_page upage →
  wp (pagedir_clear_page init_page_dir pd upage) s (λ _ s', ∃ D', mmu_rep s' pd D' ∧ remaps D D' upage (λ _, NULL)).
Proof.
  intros Hm (Hu0&Hual&Hu). pose proof (mr_rep _ _ _ Hm) as Hp. unfold pagedir_clear_page. rewrite pg_ofs_mod, Hual, Hu. wp_steps.
  assert (∀ x, entry D upage = x → (∀ w, x = Some w → flag_set w PTE_P = false) → remaps D D upage (λ _, NULL)) as Hid.
  { intros x He Hx va _ _. case_bool_decide as Hpage; [|done]. unfold translate. rewrite (entry_page _ _ _ Hpage), He.
    destruct x as [w|]; [|done]. by rewrite (Hx w eq_refl). }
  eapply wp_mono; [by apply lookup_page_spec|]. intros p s' [-> ->]. case_bool_decide as Hn.
  2: { wp_steps. exists D. split; [done|]. by eapply Hid; [by apply slot_null_entry; eapply slot_null|]. }
  destruct (slot_entry _ _ _ _ Hp Hu0 Hu Hn) as (_&_&w&_&_&_&He&Hat&[Hw32 Hwok]&_). wp_step. eapply wp_read_entry; [exact Hat|].
  destruct (flag_set w PTE_P) eqn:Hf.
  2: { wp_steps. exists D. split; [done|]. eapply Hid; [exact He|]. by intros ? [= <-]. }
  pose proof (without_same w PTE_P Hw32) as Hclear. apply wp_reset_entry; [done..| |].
  { split; [apply is_u32_land; [done|apply u32_range]|]. by rewrite Hclear. }
  intros s' Hm'. exists (upd_entry D upage (without w PTE_P)). split; [done|].
  intros va Hv0 Hv. rewrite (upd_remaps _ _ _ _ _ Hp) by done. by rewrite Hclear.
Qed.

(** *** The accessed and dirty bits *)
Lemma pagedir_test_spec s pd D va f :
  pd_rep (frames s) pd D → 0 ≤ va → is_user_vaddr va = true →
  wp (pagedir_test f pd va) s (λ b s', b = from_option (λ w, flag_set w f) false (entry D va) ∧ s' = s).
Proof.
  intros Hp Hv0 Hv. unfold pagedir_test. wp_step. eapply wp_mono; [by apply lookup_page_spec|]. intros p s' [-> ->].
  case_bool_decide as Hn.
  - destruct (slot_entry _ _ _ _ Hp Hv0 Hv Hn) as (_&_&w&_&_&_&->&Hat&_). wp_step. eapply wp_read_entry; [exact Hat|]. by wp_steps.
  - wp_steps. by rewrite (slot_null_entry D va) by by eapply slot_null.
Qed.
Lemma pagedir_set_spec s pd D va f on :
  f ∈ [PTE_A; PTE_D] → mmu_rep s pd D → 0 ≤ va → is_user_vaddr va = true →
  wp (pagedir_set init_page_dir f pd va on) s (λ _ s', ∃ D', mmu_rep s' pd D' ∧
    (∀ va', 0 ≤ va' → is_user_vaddr va' = true → translate D' va' = translate D va') ∧
    (∀ va', 0 ≤ va' → is_user_vaddr va' = true → entry D' va' =
       (if bool_decide (va' / PGSIZE = va / PGSIZE) then put_flag f on else id) <$> entry D va')).
Proof.
  intros Hf Hm Hv0 Hv. pose proof (mr_rep _ _ _ Hm) as Hp. unfold pagedir_set. wp_step.
  eapply wp_mono; [by apply lookup_page_spec|]. intros p s' [-> ->]. case_bool_decide as Hn.
  2: { wp_steps. exists D. split_and!; [done|done|]. intros va' Hv0' Hv'. case_bool_decide as Hpage; [|by destruct (entry D va')].
       rewrite (entry_page _ _ _ Hpage). by rewrite (slot_null_entry D va) by by eapply slot_null. }
  destruct (slot_entry _ _ _ _ Hp Hv0 Hv Hn) as (_&_&w&_&_&_&He&Hat&Hwok&_). wp_step. eapply wp_read_entry; [exact Hat|].
  set (v := put_flag f on w). destruct (put_flag_ok f on w Hf Hwok) as (Hvok&HvP&HvA). fold v in Hvok, HvP, HvA.
  assert (∀ s', mmu_rep s' pd (upd_entry D va v) → ∃ D', mmu_rep s' pd D' ∧
    (∀ va', 0 ≤ va' → is_user_vaddr va' = true → translate D' va' = translate D va') ∧
    (∀ va', 0 ≤ va' → is_user_vaddr va' = true → entry D' va' =
       (if bool_decide (va' / PGSIZE = va / PGSIZE) then put_flag f on else id) <$> entry D va')) as Hend.
  { intros s' Hm'. exists (upd_entry D va v). split; [done|]. split; intros va' Hv0' Hv'.
    - rewrite (upd_remaps _ _ _ _ _ Hp) by done. case_bool_decide as Hpage; [|done]. unfold translate.
      rewrite (entry_page _ _ _ Hpage), He, HvP. unfold frame_of. by rewrite HvA.
    - rewrite (entry_upd _ _ _ Hp) by done. case_bool_decide as Hpage; [|by destruct (entry D va')].
      rewrite (entry_page _ _ _ Hpage), He. done. }
  subst v. destruct on.
  - apply (wp_set_entry _ pd _ _ w); [done..| |done]. intros _. split; [|done].
    apply Z.bits_inj'. intros n Hn0. rewrite Z.land_spec, Z.lor_spec. by destruct (Z.testbit w n).
  - by apply wp_reset_entry.
Qed.

End Operations_spec.
