(* ===== verification/PagedirLife.v ===== *)
(** * The life of a page directory (userprog/pagedir.c)

    [pagedir_create] and [pagedir_destroy]: which pages of the page allocator a
    page directory has, and that all of them are given back.  The claims on page
    directories are at the end. *)

From S2P Require Import Prelude Vaddr Str Bitmap Palloc Pagedir.
Local Open Scope Z_scope.
Local Ltac Zify.zify_post_hook ::= Z.to_euclidean_division_equations.

(** ** Pages in use *)
Definition in_use (r : ram) (p : Z) : Prop :=
  ∃ user i, p = page_addr (pool_of user r) i ∧ run (pool_of user r) i 1 true.

(** Just the pages [ps] become free; only they are written. *)
Record frees (ps : list Z) (r r' : ram) : Prop := {
  fr_shape : ∀ user, base (pool_of user r') = base (pool_of user r) ∧ page_cnt (pool_of user r') = page_cnt (pool_of user r);
  fr_used : ∀ user i, 0 ≤ i < page_cnt (pool_of user r) → page_used (pool_of user r') i =
    (if bool_decide (page_addr (pool_of user r) i ∈ ps) then false else page_used (pool_of user r) i);
  fr_bytes : ∀ a, (∀ p, p ∈ ps → a < p ∨ p + PGSIZE ≤ a) → bytes r' !! a = bytes r !! a
}.

Section Frees.
Implicit Types r : ram.

Lemma frees_nil r : frees [] r r.
Proof. split; [done|done|done]. Qed.
Lemma frees_app ps qs r r1 r2 : frees ps r r1 → frees qs r1 r2 → frees (ps ++ qs) r r2.
Proof.
  intros [Hs1 Hu1 Hb1] [Hs2 Hu2 Hb2]. split.
  - intros user. destruct (Hs1 user) as [<- <-]. apply Hs2.
  - intros user i Hi. destruct (Hs1 user) as [Hb Hc]. rewrite Hu2 by lia. rewrite Hu1 by done.
    unfold page_addr. rewrite Hb.
    rewrite (bool_decide_ext (_ ∈ ps ++ qs) _ (elem_of_app _ _ _)), bool_decide_or. by repeat case_bool_decide.
  - intros a Ha. rewrite Hb2, Hb1; [done|..]; intros p Hp; apply Ha; rewrite elem_of_app; auto.
Qed.

Lemma page_addr_inj r u i u' i' :
  ram_ok r → 0 ≤ i < page_cnt (pool_of u r) → 0 ≤ i' < page_cnt (pool_of u' r) →
  page_addr (pool_of u r) i = page_addr (pool_of u' r) i' → u = u' ∧ i = i'.
Proof.
  intros [_ Hd] Hi Hi' Heq. unfold page_addr, PGSIZE in *.
  destruct u, u'; cbn in *; [split; [done|lia]|lia|lia|split; [done|lia]].
Qed.
Lemma in_use_range r p : ram_ok r → in_use r p → p mod PGSIZE = 0 ∧ PHYS_BASE ≤ p ∧ p + PGSIZE < 2 ^ 32.
Proof.
  intros Hr (u&i&->&H0&Hle&_). destruct (page_addr_range r u i 1) as (?&?&?&_); [done|done|lia|done|].
  rewrite Z.mul_1_r in *. done.
Qed.
Lemma in_use_apart r p q : ram_ok r → in_use r p → in_use r q → p ≠ q → p + PGSIZE ≤ q ∨ q + PGSIZE ≤ p.
Proof.
  intros Hr Hp Hq Hne. destruct (in_use_range r p Hr Hp) as (H1&_), (in_use_range r q Hr Hq) as (H2&_). unfold PGSIZE in *. lia.
Qed.
Lemma kernel_in_use r p : kernel_page r p → in_use r p.
Proof. intros (i&Hi&Hr). by exists false, i. Qed.

(** A page that was just taken from the kernel pool. *)
Lemma new_kernel_page r r' i :
  ram_ok r → run (kernel_pool r) i 1 false → pages_set false i 1 true r r' →
  kernel_page r' (page_addr (kernel_pool r) i) ∧ ¬ in_use r (page_addr (kernel_pool r) i).
Proof.
  intros Hr (H0&Hle&Hf) [Hb Hc Hu _]. cbn in *. split.
  - exists i. unfold page_addr. rewrite Hb. split; [done|]. split_and!; [done|by rewrite Hc|].
    intros j Hj. rewrite Hu by lia. by rewrite bool_decide_true by lia.
  - intros (u&i'&Heq&H0'&Hle'&Hf'). apply (page_addr_inj r false i u i') in Heq as [<- <-]; [|done|cbn; lia|lia].
    specialize (Hf' i ltac:(lia)). cbn in Hf'. rewrite Hf in Hf' by lia. done.
Qed.

(** What other pages hold. *)
Lemma in_use_keep r r' ps q : frees ps r r' → in_use r q → q ∉ ps → in_use r' q.
Proof.
  intros [Hs Hu _] (u&i&->&H0&Hle&Hrun) Hn. destruct (Hs u) as [Hb Hc]. exists u, i. unfold page_addr. rewrite Hb. split; [done|].
  split_and!; [done|by rewrite Hc|]. intros j Hj. replace j with i by lia. rewrite Hu by lia.
  rewrite bool_decide_false by done. apply Hrun. lia.
Qed.
Lemma word_keep r r' ps q k w :
  ram_ok r → frees ps r r' → Forall (in_use r) ps → in_use r q → q ∉ ps → 0 ≤ k → k + 4 ≤ PGSIZE →
  word_at (bytes r) (q + k) w → word_at (bytes r') (q + k) w.
Proof.
  intros Hr Hf Hps Hq Hn Hk0 Hk. apply word_at_frame. intros a Ha. apply (fr_bytes _ _ _ Hf). intros p Hp.
  rewrite Forall_forall in Hps. destruct (in_use_apart r p q Hr (Hps p Hp) Hq) as [?|?]; [by intros ->|lia|lia].
Qed.

Lemma palloc_free_page_frees r p :
  ram_ok r → in_use r p → wp (palloc_free_page p) r (λ _ r', ram_ok r' ∧ frees [p] r r').
Proof.
  intros Hr (u&i&->&Hrun). eapply wp_mono; [by apply (palloc_free_spec r u i 1)|]. intros [] r' (Hr'&[Hb Hc Hu Ho]&Hw).
  split; [done|]. assert (∀ u', base (pool_of u' r') = base (pool_of u' r) ∧ page_cnt (pool_of u' r') = page_cnt (pool_of u' r)) as Hs.
  { intros u'. destruct (decide (u' = u)) as [->|Hne]; [done|]. assert (u' = negb u) as -> by (by destruct u, u'). by rewrite Ho. }
  split; [done| |].
  - intros u' j Hj. destruct Hrun as (H0&Hle&Hrun). destruct (decide (u' = u)) as [->|Hne].
    + rewrite Hu by lia. case_bool_decide as Hin.
      * rewrite bool_decide_true; [done|]. replace j with i by lia. by left.
      * rewrite bool_decide_false; [done|]. intros [Heq|[]%elem_of_nil]%elem_of_cons.
        apply (page_addr_inj r) in Heq as [_ ->]; [lia|done|done|lia].
    + assert (u' = negb u) as -> by (by destruct u, u'). rewrite Ho. rewrite bool_decide_false; [done|].
      intros [Heq|[]%elem_of_nil]%elem_of_cons.
      apply (page_addr_inj r) in Heq as [? _]; [by destruct u|done|done|lia].
  - intros a Ha. destruct Hw as (_&Hfr&_). rewrite length_replicate in Hfr. apply Hfr.
    destruct (Ha (page_addr (pool_of u r) i)); [by left|lia|unfold PGSIZE in *; lia].
Qed.

End Frees.

(** ** Destroying a directory *)
(** The frames that a table maps. *)
Definition table_frames (ws : list Z) : list Z := frame_of <$> filter (λ w, flag_set w PTE_P = true) ws.
(** The pages below a range of entries of a directory: for each table the frames
    it maps, and the table itself. *)
Definition entry_pages (e : option (Z * list Z)) : list Z :=
  match e with Some (pt, ws) => table_frames ws ++ [pt] | None => [] end.
Definition dir_entries (D : pagedir) : list (option (Z * list Z)) := (λ k, D !! k) <$> seqZ 0 PDES.
Definition dir_pages (D : pagedir) : list Z := concat (entry_pages <$> dir_entries D).

Section Destroy.
Implicit Types (s : mmu) (ws : list Z) (es : list (option (Z * list Z))).

Definition freed (ps : list Z) s s' : Prop :=
  ram_ok (frames s') ∧ registers s' = registers s ∧ frees ps (frames s) (frames s').

Lemma freed_nil s : ram_ok (frames s) → freed [] s s.
Proof. intros Hr. split_and!; [done|done|apply frees_nil]. Qed.
Lemma freed_app ps qs s s1 s2 : freed ps s s1 → freed qs s1 s2 → freed (ps ++ qs) s s2.
Proof. intros (_&Hg1&Hf1) (Hr&Hg2&Hf2). split_and!; [done|congruence|by eapply frees_app]. Qed.

Lemma free_page_freed s p :
  ram_ok (frames s) → in_use (frames s) p → wp (on_frames (palloc_free_page p)) s (λ _ s', freed [p] s s').
Proof.
  intros Hr Hp. apply wp_on_frames. eapply wp_mono; [by apply palloc_free_page_frees|]. intros [] r' [? ?]. by split_and!.
Qed.

(** The words of a page, from index [j] on. *)
Definition words_from (m : mem) (p : Z) (j : nat) (ws : list Z) : Prop :=
  ∀ i w, ws !! i = Some w → word_at m (p + 4 * Z.of_nat (j + i)) w.

Lemma words_from_keep r r' ps p j ws :
  ram_ok r → frees ps r r' → Forall (in_use r) ps → in_use r p → p ∉ ps → 4 * Z.of_nat (j + length ws) ≤ PGSIZE →
  words_from (bytes r) p j ws → words_from (bytes r') p j ws.
Proof.
  intros Hr Hf Hps Hp Hn Hl Hw i w Hi. pose proof (lookup_lt_Some _ _ _ Hi). eapply word_keep; [done..|lia|lia|]. by apply Hw.
Qed.
Lemma words_from_S m p j w ws : words_from m p j (w :: ws) → words_from m p (S j) ws.
Proof. intros H i x Hi. replace (S j + i)%nat with (j + S i)%nat by lia. by apply H. Qed.
Lemma in_use_all_keep r r' ps qs :
  frees ps r r' → Forall (in_use r) qs → (∀ q, q ∈ qs → q ∉ ps) → Forall (in_use r') qs.
Proof. intros Hf. rewrite !Forall_forall. intros Hq Hn q Hqq. eapply in_use_keep; eauto. Qed.

Lemma table_frames_cons w ws :
  table_frames (w :: ws) = if flag_set w PTE_P then frame_of w :: table_frames ws else table_frames ws.
Proof. unfold table_frames. rewrite filter_cons. case_decide as H; [by rewrite H|]. by destruct (flag_set w PTE_P). Qed.

(** A table: its frames are freed in order; the table stays. *)
Lemma free_entries_spec ws s pt j :
  ram_ok (frames s) → in_use (frames s) pt → Forall (in_use (frames s)) (table_frames ws) →
  NoDup (pt :: table_frames ws) → Forall entry_ok ws → 4 * Z.of_nat (j + length ws) ≤ PGSIZE →
  words_from (bytes (frames s)) pt j ws →
  wp (free_entries (length ws) (pt + 4 * Z.of_nat j)) s (λ _ s', freed (table_frames ws) s s').
Proof.
  revert s j. induction ws as [|w ws IH]; intros s j Hr Hpt Hus Hnd Hok Hl Hw; cbn [free_entries length].
  { wp_steps. by apply freed_nil. }
  wp_step. eapply wp_read_entry; [specialize (Hw 0%nat w eq_refl); by rewrite Nat.add_0_r in Hw|].
  apply Forall_cons in Hok as [Hwok Hok]. cbn [length] in Hl. replace (pt + 4 * Z.of_nat j + 4) with (pt + 4 * Z.of_nat (S j)) by lia.
  apply NoDup_cons in Hnd as [Hnpt Hnd]. rewrite table_frames_cons in *.
  destruct (flag_set w PTE_P) eqn:Hf.
  - apply Forall_cons in Hus as [Huw Hus]. apply NoDup_cons in Hnd as [Hnw Hnd].
    apply not_elem_of_cons in Hnpt as [Hnwpt Hnpt].
    wp_step. wp_step. apply wp_pte_get_page; [done|done|]. eapply wp_mono; [by apply free_page_freed|]. intros [] s1 Hs1.
    pose proof Hs1 as (Hr1&_&Hf1). eapply wp_mono; [apply IH|].
    + done.
    + eapply in_use_keep; [exact Hf1|done|]. rewrite list_elem_of_singleton. congruence.
    + eapply in_use_all_keep; [exact Hf1|done|]. intros q Hq. rewrite list_elem_of_singleton. by intros ->.
    + by constructor.
    + done.
    + lia.
    + apply words_from_S in Hw. eapply words_from_keep; [exact Hr|exact Hf1|by constructor|done| |lia|done].
      rewrite list_elem_of_singleton. congruence.
    + intros [] s2 Hs2. eapply (freed_app [_]); [exact Hs1|exact Hs2].
  - wp_steps. apply IH; [done..|by constructor|done|lia|by eapply words_from_S].
Qed.

(** An entry of a directory, as a word and as a table. *)
Definition entry_word (e : option (Z * list Z)) : Z := match e with Some (pt, _) => pde_of pt | None => 0 end.
Definition entry_table (r : ram) (m : mem) (e : option (Z * list Z)) : Prop :=
  ∀ pt ws, e = Some (pt, ws) →
  kernel_page r pt ∧ Z.of_nat (length ws) = PTES ∧ words_from m pt 0 ws ∧ Forall entry_ok ws.
Definition pages_below es : list Z := concat (entry_pages <$> es).

Lemma pages_below_cons e es : pages_below (e :: es) = entry_pages e ++ pages_below es.
Proof. done. Qed.
Lemma entry_page_below pt ws es : Some (pt, ws) ∈ es → pt ∈ pages_below es.
Proof.
  intros Hin. unfold pages_below. rewrite list_elem_of_In, in_concat. exists (entry_pages (Some (pt, ws))).
  rewrite <- !list_elem_of_In. split; [apply list_elem_of_fmap; eauto|]. cbn. rewrite elem_of_app, list_elem_of_singleton. auto.
Qed.

Lemma entry_tables_keep r0 r r' ps es :
  ram_ok r → frees ps r r' → Forall (in_use r) ps → Forall (in_use r) (pages_below es) → (∀ q, q ∈ pages_below es → q ∉ ps) →
  Forall (entry_table r0 (bytes r)) es → Forall (entry_table r0 (bytes r')) es.
Proof.
  intros Hr Hf Hps Hes Hn. rewrite Forall_forall in Hes. rewrite !Forall_forall. intros Hall e He pt ws ->.
  destruct (Hall _ He pt ws eq_refl) as (Hk&Hl&Hw&Hok).
  pose proof (entry_page_below _ _ _ He) as Hin. split_and!; [done|done| |done].
  eapply words_from_keep; [exact Hr|exact Hf|done|by apply Hes|by apply Hn| |done]. rewrite PTES_eq in Hl. unfold PGSIZE. lia.
Qed.

(** One entry of the directory. *)
Lemma free_entry_spec r0 e s :
  ram_ok r0 → ram_ok (frames s) → Forall (in_use (frames s)) (entry_pages e) → NoDup (entry_pages e) →
  entry_table r0 (bytes (frames s)) e →
  wp (if flag_set (entry_word e) PTE_P then
        pt ← pde_get_pt (entry_word e); free_entries (Z.to_nat (PGSIZE / 4)) pt;; on_frames (palloc_free_page pt)
      else ret tt) s (λ _ s', freed (entry_pages e) s s').
Proof.
  intros Hr0 Hr Hus Hnd Ht. destruct e as [[pt ws]|]; cbn [entry_word entry_pages] in *; [|wp_steps; by apply freed_nil].
  destruct (Ht pt ws eq_refl) as (Hk&Hl&Hw&Hok). destruct (pde_of_ok r0 Hr0 pt Hk) as (_&_&->&_).
  apply Forall_app in Hus as [Hus [Hpt _]%Forall_cons]. apply NoDup_app in Hnd as (Hnd&Hnpt&_).
  assert (pt ∉ table_frames ws) as Hn by (intros Hin; apply (Hnpt pt Hin); by left).
  wp_step. eapply wp_pde_get_pt; [exact Hr0|exact Hk|]. wp_step. change (PGSIZE / 4) with PTES. rewrite <- Hl, Nat2Z.id.
  replace pt with (pt + 4 * Z.of_nat 0) at 1 by lia.
  eapply wp_mono; [apply free_entries_spec; [done..|by constructor|done|rewrite PTES_eq in Hl; unfold PGSIZE; lia|done]|].
  intros [] s1 Hs1. pose proof Hs1 as (Hr1&_&Hf1). eapply wp_mono; [apply free_page_freed; [done|by eapply in_use_keep]|].
  intros [] s2 Hs2. by eapply freed_app.
Qed.

Lemma free_tables_spec r0 es s pd k :
  ram_ok r0 → ram_ok (frames s) → in_use (frames s) pd → Forall (in_use (frames s)) (pages_below es) →
  NoDup (pd :: pages_below es) → Forall (entry_table r0 (bytes (frames s))) es →
  4 * Z.of_nat (k + length es) ≤ PGSIZE → words_from (bytes (frames s)) pd k (entry_word <$> es) →
  wp (free_tables (length es) (pd + 4 * Z.of_nat k)) s (λ _ s', freed (pages_below es) s s').
Proof.
  intros Hr0. revert s k. induction es as [|e es IH]; intros s k Hr Hpd Hus Hnd Ht Hl Hw; cbn [free_tables length].
  { wp_steps. by apply freed_nil. }
  wp_step. eapply wp_read_entry; [specialize (Hw 0%nat _ eq_refl); by rewrite Nat.add_0_r in Hw|].
  rewrite pages_below_cons in *. apply Forall_cons in Ht as [Hte Ht]. apply Forall_app in Hus as [Hue Hus].
  apply NoDup_cons in Hnd as [Hnpd (Hnde&Hdis&Hnd)%NoDup_app]. apply not_elem_of_app in Hnpd as [Hnpd Hnpd'].
  cbn [length] in Hl. replace (pd + 4 * Z.of_nat k + 4) with (pd + 4 * Z.of_nat (S k)) by lia.
  wp_step. eapply wp_mono; [by apply (free_entry_spec r0)|]. intros [] s1 Hs1. pose proof Hs1 as (Hr1&_&Hf1).
  eapply wp_mono; [apply IH|].
  - done.
  - by eapply in_use_keep.
  - eapply in_use_all_keep; [exact Hf1|done|]. intros q Hq Hq'. by eapply Hdis.
  - by constructor.
  - eapply entry_tables_keep; [exact Hr|exact Hf1|done|done| |done]. intros q Hq Hq'. by eapply Hdis.
  - lia.
  - apply words_from_S in Hw. eapply words_from_keep; [exact Hr|exact Hf1|done|done|done| |done]. rewrite length_fmap. lia.
  - intros [] s2 Hs2. by eapply freed_app.
Qed.

(** The pages of a directory are in use, and are all different. *)
Definition owns_pages (r : ram) (pd : Z) (D : pagedir) : Prop :=
  Forall (in_use r) (dir_pages D) ∧ NoDup (pd :: dir_pages D).

Lemma pagedir_destroy_spec init_page_dir s pd D :
  pd_rep (frames s) pd D → owns_pages (frames s) pd D → pd ≠ init_page_dir →
  wp (pagedir_destroy init_page_dir pd) s (λ _ s', freed (dir_pages D ++ [pd]) s s').
Proof.
  intros Hp [Hus Hnd] Hne. pose proof (pr_ram _ _ _ Hp) as Hr. pose proof (kernel_in_use _ _ (pr_pd _ _ _ Hp)) as Hpd.
  destruct (in_use_range _ _ Hr Hpd) as (_&Hlo&_). unfold pagedir_destroy.
  rewrite bool_decide_false by (unfold NULL, PHYS_BASE in *; lia). rewrite bool_decide_true by done. wp_steps.
  change (pd_no PHYS_BASE) with PDES. assert (length (dir_entries D) = Z.to_nat PDES) as Hl by by unfold dir_entries; rewrite length_fmap, length_seqZ.
  rewrite <- Hl. replace pd with (pd + 4 * Z.of_nat 0) at 1 by lia.
  assert (∀ i e, dir_entries D !! i = Some e → e = D !! Z.of_nat i ∧ 0 ≤ Z.of_nat i < PDES) as Hent.
  { intros i e. unfold dir_entries. rewrite list_lookup_fmap. intros (k&[Hk Hi]%lookup_seqZ&->)%fmap_Some. rewrite Hk, Z.add_0_l. split; [done|lia]. }
  eapply wp_mono; [apply (free_tables_spec (frames s)); [done..| | |]|].
  - apply Forall_lookup. intros i e [-> Hi]%Hent pt ws HD. destruct (pr_tables _ _ _ Hp _ _ _ HD) as (_&?&_&?&Hws).
    split_and!; [done|done|intros j w Hj; by apply Hws|]. apply Forall_lookup. intros j w Hj. by apply (Hws j w).
  - rewrite Hl, PDES_eq. unfold PGSIZE. lia.
  - intros i w. rewrite list_lookup_fmap. intros (e&[-> Hi]%Hent&->)%fmap_Some. apply (pr_entries _ _ _ Hp _ Hi).
  - intros [] s1 Hs1. pose proof Hs1 as (Hr1&_&Hf1). apply NoDup_cons in Hnd as [Hn _].
    eapply wp_mono; [apply free_page_freed; [done|by eapply in_use_keep]|]. intros [] s2 Hs2. by eapply freed_app.
Qed.

End Destroy.

(** ** Creating a directory *)
Section Create.
Implicit Types (s : mmu).

(** A directory does not see changes outside of the pages in use. *)
Lemma pd_rep_frame r r' pd D :
  pd_rep r pd D → ram_ok r' → (∀ p, kernel_page r p → kernel_page r' p) →
  (∀ p a, kernel_page r p → p ≤ a < p + PGSIZE → bytes r' !! a = bytes r !! a) → pd_rep r' pd D.
Proof.
  intros Hp Hr' Hmore Hb. pose proof (pr_pd _ _ _ Hp) as Hpd.
  assert (∀ p k w, kernel_page r p → 0 ≤ k < 1024 → word_at (bytes r) (p + 4 * k) w → word_at (bytes r') (p + 4 * k) w) as Hkeep.
  { intros p k w Hk Hr. apply word_at_frame. intros a Ha. apply (Hb p); [done|]. unfold PGSIZE. lia. }
  split; [done|by apply Hmore| |apply Hp|].
  - intros k pt ws HD. destruct (pr_tables _ _ _ Hp _ _ _ HD) as (?&Hpt&?&Hl&Hws).
    split; [done|]. split; [by apply Hmore|]. split; [done|]. split; [done|]. intros j w Hj. destruct (Hws j w Hj). split; [|done].
    apply lookup_lt_Some in Hj. rewrite PTES_eq in Hl. apply Hkeep; [done|lia|done].
  - intros k Hk. pose proof (pr_entries _ _ _ Hp k Hk). rewrite PDES_eq in Hk. apply Hkeep; [done|lia|done].
Qed.

Lemma dir_pages_empty : dir_pages ∅ = [].
Proof. reflexivity. Qed.
(** The words of a page that was copied. *)
Lemma copied_words m m' p q l k w :
  bytes_at m p l → bytes_at m' q l → 0 ≤ k → 4 * k + 4 ≤ Z.of_nat (length l) →
  word_at m (p + 4 * k) w → word_at m' (q + 4 * k) w.
Proof.
  intros Hp Hq Hk Hl [Hu Hw]. split; [done|]. set (n := Z.to_nat (4 * k)). replace (4 * k) with (Z.of_nat n) in * by lia.
  assert (∀ m p, bytes_at m p l → bytes_at m (p + Z.of_nat n) (take 4 (drop n l))) as Hpart.
  { intros m0 p0 Hb. rewrite <- (take_drop n l) in Hb. apply bytes_at_app in Hb as [_ Hb].
    rewrite length_take_le in Hb by lia. by apply bytes_at_take. }
  rewrite (bytes_at_inj _ _ _ _ Hw (Hpart _ _ Hp)); [by apply Hpart|].
  rewrite length_word_bytes, length_take, length_drop. lia.
Qed.

Lemma pagedir_create_frame init_page_dir s :
  pd_rep (frames s) init_page_dir ∅ →
  wp (pagedir_create init_page_dir) s (λ pd s', registers s' = registers s ∧
    (∀ pd' D', pd_rep (frames s) pd' D' → pd_rep (frames s') pd' D') ∧
    (∀ p a, kernel_page (frames s) p → p ≤ a < p + PGSIZE → bytes (frames s') !! a = bytes (frames s) !! a) ∧
    ((pd = NULL ∧ ∀ i, ¬ run (kernel_pool (frames s)) i 1 false) ∨
     (¬ in_use (frames s) pd ∧ pd_rep (frames s') pd ∅ ∧ owns_pages (frames s') pd ∅ ∧
      ∀ k w, 0 ≤ k < 1024 → word_at (bytes (frames s)) (init_page_dir + 4 * k) w → word_at (bytes (frames s')) (pd + 4 * k) w))).
Proof.
  intros Hi. pose proof (pr_ram _ _ _ Hi) as Hr. pose proof (pr_pd _ _ _ Hi) as Hik.
  destruct (kernel_page_range _ Hr _ Hik) as (_&Hilo&_&Him). unfold pagedir_create. wp_step. apply wp_on_frames.
  eapply wp_mono; [apply palloc_get_spec; [exact Hr|lia|by left]|]. intros pd r [Hr' Hgot].
  change (has_flag 0 PAL_ZERO) with false in Hgot. unfold got in Hgot. change (has_flag 0 PAL_USER) with false in Hgot. cbn [pool_of] in Hgot.
  assert (∀ p, kernel_page (frames s) p → kernel_page r p) as Hmore.
  { destruct Hgot as [(i&_&_&Hset&_)|(_&_&Hset&_)]; intros p; apply (kernel_page_more _ _ _ _ _ _ _ Hset); auto. }
  destruct Hgot as [(i&[Hrun _]&->&Hset&Hb)|(->&Hno&Hset&Hb)].
  2: { rewrite bool_decide_false by tauto. wp_steps. split; [done|]. split; [|split; [intros p a _ _; cbn; by rewrite Hb|by left]].
       intros pd' D' Hp'. eapply pd_rep_frame; [exact Hp'|done|done|]. cbn. by rewrite Hb. }
  change (has_flag 0 PAL_ZERO) with false in Hb. cbv iota in Hb.
  destruct (new_kernel_page (frames s) r i Hr Hrun Hset) as [Hpd Hnew]. set (pd := page_addr (kernel_pool (frames s)) i) in *.
  destruct (kernel_page_range r Hr' pd Hpd) as (_&Hlo&_&Hm). rewrite bool_decide_true by (unfold NULL, PHYS_BASE in *; lia).
  destruct (mapped_bytes (bytes (frames s)) init_page_dir (Z.to_nat PGSIZE)) as (l&Hl&Hlen); [done|].
  pose proof (kernel_pages_apart r Hr' _ _ Hpd (Hmore _ Hik)) as Hap. assert (pd ≠ init_page_dir) as Hne by (intros ->; by apply Hnew, kernel_in_use).
  specialize (Hap Hne). wp_step. wp_step. apply wp_on_frames. cbn [frames]. apply wp_on_bytes. rewrite Hb in Hm |- *.
  eapply wp_mono; [apply (memcpy_spec _ _ _ l); [by rewrite Hlen|left; unfold NULL, PHYS_BASE in *; lia|left; unfold NULL, PHYS_BASE in *; lia|done|done|lia]|].
  intros dst m [_ Hw]. wp_steps. cbn [frames].
  assert (∀ p a, kernel_page (frames s) p → p ≤ a < p + PGSIZE → m !! a = bytes (frames s) !! a) as Hfr.
  { intros p a Hp Ha. destruct Hw as (_&Hfr&_). apply Hfr. rewrite Hlen. unfold PGSIZE in *.
    destruct (kernel_pages_apart r Hr' p pd (Hmore p Hp) Hpd); [|unfold PGSIZE in *; lia..]. intros ->. by apply Hnew, kernel_in_use. }
  assert (ram_ok (set_bytes m r)) as Hrm by (apply ram_ok_bytes; [done|]; rewrite Hb; by destruct Hw as (_&_&?)).
  assert (∀ k w, 0 ≤ k < 1024 → word_at (bytes (frames s)) (init_page_dir + 4 * k) w → word_at m (pd + 4 * k) w) as Hcopy.
  { intros k w Hk. destruct Hw as (Hw&_). apply (copied_words _ _ _ _ l); [done|done|lia|rewrite Hlen; unfold PGSIZE; lia]. }
  split; [done|]. split; [intros pd' D' Hp'; by eapply pd_rep_frame|]. split; [exact Hfr|]. right. split_and!; [done| | |done].
  - split; [done|done|done|done|]. intros k Hk. rewrite lookup_empty. rewrite PDES_eq in Hk. apply Hcopy; [lia|].
    pose proof (pr_entries _ _ _ Hi k) as He. rewrite lookup_empty, PDES_eq in He. apply He. lia.
  - unfold owns_pages. rewrite dir_pages_empty. split; [constructor|apply NoDup_singleton].
Qed.
Lemma pagedir_create_spec init_page_dir s :
  pd_rep (frames s) init_page_dir ∅ →
  wp (pagedir_create init_page_dir) s (λ pd s', registers s' = registers s ∧
    (∀ pd' D', pd_rep (frames s) pd' D' → pd_rep (frames s') pd' D') ∧
    ((pd = NULL ∧ ∀ i, ¬ run (kernel_pool (frames s)) i 1 false) ∨
     (¬ in_use (frames s) pd ∧ pd_rep (frames s') pd ∅ ∧ owns_pages (frames s') pd ∅ ∧
      ∀ k w, 0 ≤ k < 1024 → word_at (bytes (frames s)) (init_page_dir + 4 * k) w → word_at (bytes (frames s')) (pd + 4 * k) w))).
Proof. intros Hi. eapply wp_mono; [by apply pagedir_create_frame|]. by intros pd s' (?&?&_&?). Qed.

End Create.

Lemma entry_u32 r pd D va w : pd_rep r pd D → 0 ≤ va → is_user_vaddr va = true → entry D va = Some w → is_u32 w.
Proof.
  intros Hp Hv0 Hv He. destruct (decide (slot D va = NULL)) as [Hs|Hs].
  - rewrite (slot_null_entry D va) in He; [done|]. by eapply slot_null.
  - destruct (slot_entry _ _ _ _ Hp Hv0 Hv Hs) as (_&_&w'&_&_&_&He'&_&[? _]&_). congruence.
Qed.

(** ** Claims *)
Section Claims.
Context (init_page_dir init_ram_pages : Z).

(** C18: The page tables hold a map from user pages to frames, and the processor's
    cache of entries agrees with them.  [pagedir_get_page] answers every user address by that
    map and changes nothing.  [pagedir_set_page] of a page that is not mapped
    adds exactly this page, and fails only if the page table it needs
    does not exist and the kernel pool has no page for it, in which case nothing
    changes.  [pagedir_clear_page] removes exactly the page.  After
    each of them no entry of the cache of the active directory is stale. *)
Theorem pagedir_refines_mapping (s : mmu) (pd : Z) (D : pagedir) :
  mmu_rep s pd D → pd ≠ init_page_dir →
  (∀ va, 0 ≤ va → is_user_vaddr va = true → pagedir_get_page pd va s = Ret (translate D va, s)) ∧
  (∀ upage kpage w, user_page upage → ram_frame init_ram_pages kpage → translate D upage = NULL →
     ∃ ok s', pagedir_set_page init_page_dir init_ram_pages pd upage kpage w s = Ret (ok, s') ∧
       if ok then ∃ D', mmu_rep s' pd D' ∧ remaps D D' upage (λ va, kpage + va mod PGSIZE)
       else mmu_rep s' pd D ∧ D !! pd_no upage = None ∧ ∀ i, ¬ run (kernel_pool (frames s)) i 1 false) ∧
  (∀ upage, user_page upage →
     ∃ s' D', pagedir_clear_page init_page_dir pd upage s = Ret (tt, s') ∧ mmu_rep s' pd D' ∧ remaps D D' upage (λ _, NULL)).
Proof.
  intros Hm Hne. split_and!.
  - intros va Hv0 Hv. destruct (proj1 (wp_outcome _ _ _) (pagedir_get_page_spec s pd D va (mr_rep _ _ _ Hm) Hv0 Hv)) as (p&s'&?&->&->). done.
  - intros upage kpage w Hu Hk Ht.
    destruct (proj1 (wp_outcome _ _ _) (pagedir_set_page_spec init_page_dir init_ram_pages s pd D upage kpage w Hm Hne Hu Hk Ht)) as (ok&s'&?&?). eauto.
  - intros upage Hu.
    destruct (proj1 (wp_outcome _ _ _) (pagedir_clear_page_spec init_page_dir s pd D upage Hm Hu)) as ([]&s'&?&D'&?&?). eauto.
Qed.

(** The accessed and dirty bits of a user address. *)
Definition bit_of (f : Z) (D : pagedir) (va : Z) : bool := from_option (λ w, flag_set w f) false (entry D va).

(** Setting or clearing the dirty bit or the accessed bit of a page, then
    reading the bits.  The bit that was written reads back as written for the
    addresses of this page, if there is an entry for it, and as before for all other pages; the other bit
    and the mapping do not change, and no entry of the processor's cache stays
    that has the bit after it was cleared. *)
Theorem pagedir_bits_roundtrip (s : mmu) (pd : Z) (D : pagedir) (vpage : Z) (on : bool) :
  mmu_rep s pd D → 0 ≤ vpage → is_user_vaddr vpage = true →
  ∀ f g, (f, g) ∈ [(PTE_D, PTE_A); (PTE_A, PTE_D)] →
  ∃ s' D', pagedir_set init_page_dir f pd vpage on s = Ret (tt, s') ∧ mmu_rep s' pd D' ∧
    ∀ va, 0 ≤ va → is_user_vaddr va = true →
      translate D' va = translate D va ∧
      pagedir_test g pd va s' = Ret (bit_of g D va, s') ∧
      pagedir_test f pd va s' =
        Ret (if bool_decide (va / PGSIZE = vpage / PGSIZE ∧ is_Some (entry D vpage)) then on else bit_of f D va, s').
Proof.
  intros Hm Hv0 Hv f g Hfg.
  assert (f ∈ [PTE_A; PTE_D] ∧ Z.land f g = 0 ∧ f ≠ 0) as (Hf&Hland&Hf0).
  { repeat (apply elem_of_cons in Hfg as [[= -> ->]|Hfg]; [split_and!; [set_solver|done|done]|]). by apply elem_of_nil in Hfg. }
  destruct (proj1 (wp_outcome _ _ _) (pagedir_set_spec init_page_dir s pd D vpage f on Hf Hm Hv0 Hv)) as ([]&s'&Hrun&D'&Hm'&Htr&He).
  exists s', D'. split_and!; [done|done|]. intros va Hva0 Hva. pose proof (mr_rep _ _ _ Hm') as Hp'.
  assert (∀ h, pagedir_test h pd va s' = Ret (bit_of h D' va, s')) as Htest.
  { intros h. destruct (proj1 (wp_outcome _ _ _) (pagedir_test_spec s' pd D' va h Hp' Hva0 Hva)) as (b&s2&?&->&->). done. }
  assert (∀ w, entry D va = Some w → is_u32 w) as H32 by (intros w Hw; eapply entry_u32; [exact (mr_rep _ _ _ Hm)|done|done|exact Hw]).
  split_and!; [by apply Htr|rewrite Htest..]; unfold bit_of; rewrite He by done.
  - destruct (entry D va) as [w|] eqn:E; [|done]. case_bool_decide; [|done]. cbn. unfold flag_set. by rewrite put_flag_other by auto.
  - do 2 f_equal. case_bool_decide as Hpage.
    + rewrite (entry_page _ _ _ Hpage). rewrite (entry_page _ _ _ Hpage) in H32.
      destruct (entry D vpage) as [w|]; cbn; [|rewrite bool_decide_false; [done|intros [_ []%is_Some_None]]].
      rewrite bool_decide_true by eauto. apply put_flag_same; auto.
    + rewrite bool_decide_false by tauto. by destruct (entry D va).
Qed.

(** C20: Creating and destroying page directories.  [pagedir_create] returns null
    only if the kernel pool has no free page; otherwise it returns a page
    that was not in use before, which holds a directory that maps no user page and has
    all entries of the initial directory, so the kernel stays mapped; no other
    directory changes.  [pagedir_destroy] of a directory that has its pages
    for itself returns exactly these pages to the page allocator, each once: the
    frames it maps, its page tables and the directory; the state of every other page and the
    contents of the pages that are still in use stay as they are. *)
Theorem pagedir_create_and_destroy (s : mmu) (pd : Z) (D : pagedir) :
  pd_rep (frames s) init_page_dir ∅ → pd_rep (frames s) pd D → owns_pages (frames s) pd D → pd ≠ init_page_dir →
  (∃ new s', pagedir_create init_page_dir s = Ret (new, s') ∧ registers s' = registers s ∧
    (∀ pd' D', pd_rep (frames s) pd' D' → pd_rep (frames s') pd' D') ∧
    ((new = NULL ∧ ∀ i, ¬ run (kernel_pool (frames s)) i 1 false) ∨
     (¬ in_use (frames s) new ∧ pd_rep (frames s') new ∅ ∧ owns_pages (frames s') new ∅ ∧
      ∀ k w, 0 ≤ k < 1024 → word_at (bytes (frames s)) (init_page_dir + 4 * k) w → word_at (bytes (frames s')) (new + 4 * k) w))) ∧
  (∃ s', pagedir_destroy init_page_dir pd s = Ret (tt, s') ∧ ram_ok (frames s') ∧ registers s' = registers s ∧
    frees (dir_pages D ++ [pd]) (frames s) (frames s')).
Proof.
  intros Hi Hp Ho Hne. split.
  - by destruct (proj1 (wp_outcome _ _ _) (pagedir_create_spec init_page_dir s Hi)) as (new&s'&?&?); eauto.
  - destruct (proj1 (wp_outcome _ _ _) (pagedir_destroy_spec init_page_dir s pd D Hp Ho Hne)) as ([]&s'&?&?); eauto.
Qed.

End Claims.

(** ** A small machine

    Kernel pool: the initial directory, a directory, its page table, and a free
    page.  User pool: a frame that is mapped at 0x1000, and a free one. *)
Definition zero_page : list Z := replicate 1024 0.
Definition sample_pte : Z := pte_of 0xc0106000 true.
Definition sample_table : list Z := <[1%nat := sample_pte]> empty_table.
Definition sample_words : list Z :=
  zero_page ++ (<[0%nat := pde_of 0xc0104000]> zero_page) ++ sample_table ++ zero_page ++ zero_page ++ zero_page.
Definition sample_mmu : mmu :=
  mk_mmu (mk_ram (mk_pool (mk_bitmap 4 [7]) 0xc0102000) (mk_pool (mk_bitmap 2 [1]) 0xc0106000)
    (mem_of 0xc0102000 (flat_map word_bytes sample_words) ∪ ∅)) 0x103000 {[1 := sample_pte]}.
Definition sample_dir : pagedir := {[0 := (0xc0104000, sample_table)]}.

Lemma sample_words_at j w : sample_words !! j = Some w → word_at (bytes (frames sample_mmu)) (0xc0102000 + 4 * Z.of_nat j) w.
Proof.
  intros Hj. assert (is_u32 w) as Hu.
  { apply (Forall_lookup_1 is_u32 sample_words j w); [|done]. apply (bool_decide_unpack _). vm_compute. exact I. }
  split; [done|].
  assert (∀ l i m p, bytes_at m p (flat_map word_bytes l) → l !! i = Some w → bytes_at m (p + 4 * Z.of_nat i) (word_bytes w)) as H.
  { intros l. induction l as [|x l IH]; intros i m p Hb Hi; [done|]. cbn [flat_map] in Hb. apply bytes_at_app in Hb as [Hx Hb].
    rewrite length_word_bytes in Hb. destruct i as [|i]; [injection Hi as ->; by rewrite Z.mul_0_r, Z.add_0_r|].
    apply (IH i) in Hb; [|done]. by replace (p + 4 * Z.of_nat (S i)) with (p + Z.of_nat 4 + 4 * Z.of_nat i) by lia. }
  apply (H sample_words); [apply mem_of_bytes|done].
Qed.
Lemma sample_words_lookup p j l w :
  (p, l) ∈ [(0, zero_page); (1, <[0%nat := pde_of 0xc0104000]> zero_page); (2, sample_table)] →
  l !! j = Some w → word_at (bytes (frames sample_mmu)) (0xc0102000 + PGSIZE * p + 4 * Z.of_nat j) w.
Proof.
  intros Hp Hj. assert (sample_words !! (1024 * Z.to_nat p + j)%nat = Some w ∧ 0 ≤ p) as [Hl H0].
  { repeat (apply elem_of_cons in Hp as [[= -> ->]|Hp]; [split; [|lia]|]); [| | |by apply elem_of_nil in Hp]; unfold sample_words.
    - by apply lookup_app_l_Some.
    - rewrite lookup_app_r by (change (length zero_page) with 1024%nat; lia). change (length zero_page) with 1024%nat.
      apply lookup_app_l_Some. by replace (1024 * Z.to_nat 1 + j - 1024)%nat with j by lia.
    - rewrite lookup_app_r by (change (length zero_page) with 1024%nat; lia). change (length zero_page) with 1024%nat.
      rewrite lookup_app_r by (rewrite length_insert; change (length zero_page) with 1024%nat; lia).
      rewrite length_insert. change (length zero_page) with 1024%nat.
      apply lookup_app_l_Some. by replace (1024 * Z.to_nat 2 + j - 1024 - 1024)%nat with j by lia. }
  apply sample_words_at in Hl. replace (0xc0102000 + PGSIZE * p + 4 * Z.of_nat j) with (0xc0102000 + 4 * Z.of_nat (1024 * Z.to_nat p + j)) by (unfold PGSIZE; lia).
  done.
Qed.
Lemma sample_ok : ram_ok (frames sample_mmu).
Proof.
  assert (∀ p n, 0xc0102000 ≤ p → p + n ≤ 0xc0108000 → mapped (bytes (frames sample_mmu)) p n) as Hm.
  { intros p n Hp Hn. eapply (mapped_sub _ 0xc0102000 0x6000); [|lia|lia].
    pose proof (mem_of_mapped 0xc0102000 (flat_map word_bytes sample_words) ∅) as H. exact H. }
  split.
  - intros []; (split; [split; [done|done|by repeat constructor]|done|done|done|by apply Hm]).
  - left. by vm_compute.
Qed.
Lemma sample_kernel_page i : 0 ≤ i < 3 → kernel_page (frames sample_mmu) (0xc0102000 + PGSIZE * i).
Proof.
  intros Hi. exists i. split; [done|]. split; [lia|]. split; [change (i + 1 ≤ 4); lia|]. intros j Hj. replace j with i by lia.
  destruct (decide (i = 0)) as [->|]; [done|]. destruct (decide (i = 1)) as [->|]; [done|]. by replace i with 2 by lia.
Qed.
Lemma sample_init_rep : pd_rep (frames sample_mmu) 0xc0102000 ∅.
Proof.
  split; [exact sample_ok|apply (sample_kernel_page 0); lia|done|done|]. intros k Hk. rewrite lookup_empty. rewrite PDES_eq in Hk.
  rewrite <- (Z2Nat.id k) by lia. apply (sample_words_lookup 0 (Z.to_nat k) zero_page 0); [by left|]. apply lookup_replicate. lia.
Qed.
Lemma sample_pd_rep : pd_rep (frames sample_mmu) 0xc0103000 sample_dir.
Proof.
  unfold sample_dir. split; [exact sample_ok|apply (sample_kernel_page 1); lia| | |].
  - intros k pt ws [<- [= <- <-]]%lookup_singleton_Some. rewrite PDES_eq. split; [lia|].
    split; [apply (sample_kernel_page 2); lia|]. split; [done|]. split; [done|].
    intros j w Hj. split; [by apply (sample_words_lookup 2 j sample_table w); [right; right; left|]|].
    destruct (decide (j = 1%nat)) as [->|Hne].
    + unfold sample_table in Hj. rewrite list_lookup_insert_eq in Hj by (unfold empty_table; rewrite length_replicate; vm_compute; lia).
      injection Hj as <-. by apply pte_of_ok.
    + unfold sample_table in Hj. rewrite list_lookup_insert_ne in Hj by auto. apply lookup_replicate in Hj as [-> _]. by vm_compute.
  - intros k k' pt ws ws' [<- _]%lookup_singleton_Some [<- _]%lookup_singleton_Some. done.
  - intros k Hk. rewrite PDES_eq in Hk. rewrite <- (Z2Nat.id k) by lia.
    apply (sample_words_lookup 1 (Z.to_nat k) (<[0%nat := pde_of 0xc0104000]> zero_page)); [right; by left|].
    rewrite Z2Nat.id by lia. destruct (decide (k = 0)) as [->|Hne].
    + rewrite lookup_singleton_eq. apply list_lookup_insert_eq. change (length zero_page) with 1024%nat. lia.
    + rewrite lookup_singleton_ne by done. rewrite list_lookup_insert_ne by lia. apply lookup_replicate. lia.
Qed.
Lemma sample_rep : mmu_rep sample_mmu 0xc0103000 sample_dir.
Proof.
  split; [exact sample_pd_rep|cbn; lia|]. intros _ n w Hn _ _. cbn [tlb sample_mmu] in Hn.
  apply lookup_singleton_Some in Hn as [<- <-]. split; [done|].
  exists sample_pte. split_and!; [by vm_compute|done|done].
Qed.
Lemma sample_owns : owns_pages (frames sample_mmu) 0xc0103000 sample_dir.
Proof.
  unfold owns_pages. replace (dir_pages sample_dir) with [0xc0106000; 0xc0104000] by by vm_compute. split.
  - apply Forall_cons. split; [|apply Forall_singleton; apply kernel_in_use, (sample_kernel_page 2); lia].
    exists true, 0. split; [done|]. split; [lia|]. split; [by vm_compute|]. intros j Hj. by replace j with 0 by lia.
  - apply (bool_decide_unpack _). by vm_compute.
Qed.
Lemma sample_free_kernel_page : run (kernel_pool (frames sample_mmu)) 3 1 false.
Proof. split; [lia|]. split; [vm_compute; discriminate|]. intros j Hj. replace j with 3 by lia. reflexivity. Qed.

Lemma pagedir_refines_mapping_witness :
  pagedir_get_page 0xc0103000 0x1234 sample_mmu = Ret (0xc0106234, sample_mmu) ∧
  (∃ s' D', pagedir_set_page 0xc0102000 0x8000 0xc0103000 0x2000 0xc0107000 true sample_mmu = Ret (true, s') ∧
     mmu_rep s' 0xc0103000 D' ∧ translate D' 0x2004 = 0xc0107004) ∧
  (∃ s' D', pagedir_clear_page 0xc0102000 0xc0103000 0x1000 sample_mmu = Ret (tt, s') ∧
     mmu_rep s' 0xc0103000 D' ∧ translate D' 0x1234 = NULL).
Proof.
  destruct (pagedir_refines_mapping 0xc0102000 0x8000 sample_mmu 0xc0103000 sample_dir sample_rep) as (Hget&Hset&Hclear); [lia|].
  split_and!.
  - rewrite (Hget 0x1234 ltac:(lia) eq_refl). by replace (translate sample_dir 0x1234) with 0xc0106234 by by vm_compute.
  - destruct (Hset 0x2000 0xc0107000 true) as (ok&s'&Hrun&Hok); [by split_and!|by split_and!|by vm_compute|].
    destruct ok; [|destruct Hok as (_&HD&_); discriminate HD]. destruct Hok as (D'&Hm&Hre). exists s', D'. split_and!; [exact Hrun|exact Hm|].
    rewrite (Hre 0x2004 ltac:(lia) eq_refl). by rewrite bool_decide_true by done.
  - destruct (Hclear 0x1000) as (s'&D'&Hrun&Hm&Hre); [by split_and!|]. exists s', D'. split_and!; [exact Hrun|exact Hm|].
    rewrite (Hre 0x1234 ltac:(lia) eq_refl). by rewrite bool_decide_true by done.
Defined.

Lemma pagedir_bits_roundtrip_witness :
  ∃ s', pagedir_set_dirty 0xc0102000 0xc0103000 0x1000 true sample_mmu = Ret (tt, s') ∧
    pagedir_is_dirty 0xc0103000 0x1ffc s' = Ret (true, s') ∧ pagedir_is_accessed 0xc0103000 0x1000 s' = Ret (false, s').
Proof.
  assert (0 ≤ 0x1ffc ∧ 0 ≤ 0x1000) as [Hv1 Hv2] by lia.
  destruct (pagedir_bits_roundtrip 0xc0102000 sample_mmu 0xc0103000 sample_dir 0x1000 true sample_rep Hv2 eq_refl PTE_D PTE_A)
    as (s'&D'&Hrun&_&Hbits); [by left|]. exists s'. split; [exact Hrun|].
  destruct (Hbits 0x1ffc Hv1 eq_refl) as (_&_&Hd), (Hbits 0x1000 Hv2 eq_refl) as (_&Ha&_). split.
  - unfold pagedir_is_dirty. rewrite Hd. rewrite bool_decide_true; [done|]. split; [done|]. exists sample_pte. by vm_compute.
  - unfold pagedir_is_accessed. rewrite Ha. by replace (bit_of PTE_A sample_dir 0x1000) with false by by vm_compute.
Defined.

Lemma pagedir_create_and_destroy_witness :
  (∃ new s', pagedir_create 0xc0102000 sample_mmu = Ret (new, s') ∧ pd_rep (frames s') new ∅) ∧
  (∃ s', pagedir_destroy 0xc0102000 0xc0103000 sample_mmu = Ret (tt, s') ∧
     frees [0xc0106000; 0xc0104000; 0xc0103000] (frames sample_mmu) (frames s')).
Proof.
  destruct (pagedir_create_and_destroy 0xc0102000 sample_mmu 0xc0103000 sample_dir sample_init_rep sample_pd_rep sample_owns) as [Hc Hd]; [lia|].
  split.
  - destruct Hc as (new&s'&Hrun&_&_&[[_ Hno]|(_&Hrep&_)]).
    + destruct (Hno 3 sample_free_kernel_page).
    + exists new, s'. split; [exact Hrun|exact Hrep].
  - destruct Hd as (s'&Hrun&_&_&Hf). exists s'. split; [exact Hrun|].
    by replace (dir_pages sample_dir) with [0xc0106000; 0xc0104000] in Hf by by vm_compute.
Defined.
