(* ===== verification/Paging.v ===== *)
(** * The kernel's page directory (threads/init.c)

    [paging_init]: the page directory that maps all of the physical memory into
    the kernel's part of every address space, with the code of the kernel write
    protected.  The theorem is about the walk of the processor through the
    tables, in the initial directory and in those that [pagedir_create] makes of
    it. *)

From S2P Require Import Prelude Vaddr Str Bitmap Palloc Pagedir PagedirLife.
Local Open Scope Z_scope.
Local Ltac Zify.zify_post_hook ::= Z.to_euclidean_division_equations.

Section Init.
(** [init_ram_pages] is what the loader found; the others are symbols of the
    linker script. *)
Context (init_ram_pages start end_kernel_text : Z).

(** ** Operation *)

Definition in_kernel_text (vaddr : Z) : bool := bool_decide (start ≤ vaddr) && bool_decide (vaddr < end_kernel_text).

(** The loop, for the rest of the pages. *)
Fixpoint paging_loop (k : nat) (pd pt page : Z) : M mmu unit :=
  match k with
  | O => ret tt
  | S k =>
      let paddr := u32 (page * PGSIZE) in
      vaddr ← ptov paddr;
      let pde := pd + 4 * pd_no vaddr in
      e ← read_entry pde;
      pt ← (if bool_decide (e = 0) then
              pt ← on_frames (palloc_get_page (Z.lor PAL_ASSERT PAL_ZERO));
              v ← pde_create pt; write_entry pde v;; ret pt
            else ret pt);
      v ← pte_create_kernel vaddr (negb (in_kernel_text vaddr));
      write_entry (pt + 4 * pt_no vaddr) v;;
      paging_loop k pd pt (page + 1)
  end.

(** The result is the value of [init_page_dir]. *)
Definition paging_init : M mmu Z :=
  pd ← on_frames (palloc_get_page (Z.lor PAL_ASSERT PAL_ZERO));
  paging_loop (Z.to_nat init_ram_pages) pd NULL 0;;
  p ← vtop pd;
  modify (λ s, mk_mmu (frames s) p ∅);;
  ret pd.

(** ** The walk of the processor *)

Definition word_of (m : mem) (p : Z) : option Z := match load_word p m with Ret (w, _) => Some w | Fail _ => None end.

(** The physical address for [va], and whether the page can be written and used
    in user mode; [base] is the physical address of the directory. *)
Definition walk (m : mem) (base va : Z) : option (Z * bool * bool) :=
  match word_of m (base + PHYS_BASE + 4 * pd_no va) with
  | Some pde =>
      if flag_set pde PTE_P then
        match word_of m (Z.land pde PTE_ADDR + PHYS_BASE + 4 * pt_no va) with
        | Some pte =>
            if flag_set pte PTE_P
            then Some (Z.land pte PTE_ADDR + va mod PGSIZE, flag_set pde PTE_W && flag_set pte PTE_W, flag_set pde PTE_U && flag_set pte PTE_U)
            else None
        | None => None
        end
      else None
  | None => None
  end.

(** What the kernel wants: physical memory from [PHYS_BASE] on. *)
Definition kernel_map (va : Z) : option (Z * bool * bool) :=
  if bool_decide (PHYS_BASE ≤ va < PHYS_BASE + PGSIZE * init_ram_pages)
  then Some (va - PHYS_BASE, negb (in_kernel_text (va - va mod PGSIZE)), false) else None.

(** ** The tables during the loop *)

Definition kpte (i : Z) : Z := PGSIZE * i + 1 + (if in_kernel_text (PHYS_BASE + PGSIZE * i) then 0 else 2).
Definition table_page (B j : Z) : Z := B + PGSIZE * (1 + j).

(** [t] tables are there and [n] pages are mapped.  The directory is the first
    page of the pool and the tables follow. *)
Record paging (r0 r : ram) (t n : Z) : Prop := {
  pg_ram : ram_ok r;
  pg_base : base (kernel_pool r) = base (kernel_pool r0);
  pg_cnt : page_cnt (kernel_pool r) = page_cnt (kernel_pool r0);
  pg_user : user_pool r = user_pool r0;
  pg_used : ∀ j, 0 ≤ j < page_cnt (kernel_pool r0) → page_used (kernel_pool r) j = bool_decide (j < 1 + t);
  pg_dir : ∀ k, 0 ≤ k < 1024 → word_at (bytes r) (base (kernel_pool r0) + 4 * k)
    (if bool_decide (768 ≤ k < 768 + t) then pde_of (table_page (base (kernel_pool r0)) (k - 768)) else 0);
  pg_tables : ∀ j i, 0 ≤ j < t → 0 ≤ i < 1024 → word_at (bytes r) (table_page (base (kernel_pool r0)) j + 4 * i)
    (if bool_decide (1024 * j + i < n) then kpte (1024 * j + i) else 0) }.

Lemma zero_words m p n k :
  bytes_at m p (replicate n 0) → 0 ≤ k → 4 * k + 4 ≤ Z.of_nat n → word_at m (p + 4 * k) 0.
Proof.
  intros Hb Hk Hn. split; [done|]. change (word_bytes 0) with (replicate 4 0).
  replace n with (Z.to_nat (4 * k) + (4 + (n - 4 - Z.to_nat (4 * k))))%nat in Hb by lia.
  rewrite !replicate_add in Hb. apply bytes_at_app in Hb as [_ [Hb _]%bytes_at_app].
  rewrite length_replicate in Hb. by replace (Z.of_nat (Z.to_nat (4 * k))) with (4 * k) in Hb by lia.
Qed.

(** The next page of the pool, filled with zeros. *)
Lemma take_page r k :
  ram_ok r → 0 ≤ k < page_cnt (kernel_pool r) → (∀ j, 0 ≤ j < page_cnt (kernel_pool r) → page_used (kernel_pool r) j = bool_decide (j < k)) →
  wp (palloc_get_page (Z.lor PAL_ASSERT PAL_ZERO)) r (λ p r', p = page_addr (kernel_pool r) k ∧ ram_ok r' ∧
    pages_set false k 1 true r r' ∧ writes (bytes r) p (replicate (Z.to_nat PGSIZE) 0) (bytes r')).
Proof.
  intros Hr Hk Hu. change (Z.lor PAL_ASSERT PAL_ZERO) with 3. assert (run (kernel_pool r) k 1 false) as Hrun.
  { split; [lia|]. split; [lia|]. intros j Hj. rewrite Hu by lia. by rewrite bool_decide_false by lia. }
  eapply wp_mono; [apply (palloc_get_spec r 3 1); [done|lia|right; by exists k]|]. intros p r' [Hr' Hgot].
  unfold got in Hgot. change (has_flag 3 PAL_USER) with false in Hgot. change (has_flag 3 PAL_ZERO) with true in Hgot. cbn [pool_of] in Hgot.
  destruct Hgot as [(i&[(H0&Hle&Hf) Hfirst]&->&Hset&Hw)|(_&Hno&_)]; [|by destruct (Hno k)].
  assert (i = k) as ->.
  { destruct (decide (i < k)); [specialize (Hf i ltac:(lia)); rewrite Hu in Hf by lia; by rewrite bool_decide_true in Hf by lia|].
    destruct (decide (k < i)); [by destruct (Hfirst k); [lia|]|lia]. }
  split; [done|]. split; [done|]. split; [done|]. by rewrite Z.mul_1_r in Hw.
Qed.
(** The pages in use after it. *)
Lemma taken r r' k :
  pages_set false k 1 true r r' → (∀ j, 0 ≤ j < page_cnt (kernel_pool r) → page_used (kernel_pool r) j = bool_decide (j < k)) →
  base (kernel_pool r') = base (kernel_pool r) ∧ page_cnt (kernel_pool r') = page_cnt (kernel_pool r) ∧ user_pool r' = user_pool r ∧
  ∀ j, 0 ≤ j < page_cnt (kernel_pool r) → page_used (kernel_pool r') j = bool_decide (j < 1 + k).
Proof.
  intros [Hb Hc Hu Ho] Hold. cbn in *. split; [done|]. split; [done|]. split; [done|]. intros j Hj. rewrite Hu by lia.
  case_bool_decide; [by rewrite bool_decide_true by lia|]. rewrite Hold by done. apply bool_decide_ext. lia.
Qed.

Lemma pool_range r : ram_ok r → PHYS_BASE ≤ base (kernel_pool r) ∧ base (kernel_pool r) mod PGSIZE = 0 ∧
  base (kernel_pool r) + PGSIZE * page_cnt (kernel_pool r) < 2 ^ 32 ∧ mapped (bytes r) (base (kernel_pool r)) (PGSIZE * page_cnt (kernel_pool r)).
Proof. intros [Hp _]. by destruct (Hp false) as [_ ? ? ? ?]. Qed.
Lemma pool_page r k : 0 ≤ k < page_cnt (kernel_pool r) → page_used (kernel_pool r) k = true → kernel_page r (page_addr (kernel_pool r) k).
Proof. intros Hk Hu. exists k. split; [done|]. split; [lia|]. split; [lia|]. intros j Hj. by replace j with k by lia. Qed.

(** The directory alone. *)
Lemma new_directory r0 r' :
  ram_ok r0 → all_free (kernel_pool r0) → 0 < page_cnt (kernel_pool r0) → ram_ok r' → pages_set false 0 1 true r0 r' →
  writes (bytes r0) (base (kernel_pool r0)) (replicate (Z.to_nat PGSIZE) 0) (bytes r') → paging r0 r' 0 0.
Proof.
  intros Hr Hall Hc Hr' Hset [Hw _]. destruct (taken r0 r' 0 Hset) as (?&?&?&?).
  { intros j Hj. rewrite Hall by done. by rewrite bool_decide_false by lia. }
  split; try done.
  - intros k Hk. rewrite bool_decide_false by lia. eapply zero_words; [exact Hw|lia|unfold PGSIZE; lia].
  - intros j i Hj. lia.
Qed.

(** One more table. *)
Lemma new_table r0 r r' m t :
  paging r0 r t (1024 * t) → 0 ≤ t < 256 → 1 + t < page_cnt (kernel_pool r0) → ram_ok r' → pages_set false (1 + t) 1 true r r' →
  writes (bytes r) (table_page (base (kernel_pool r0)) t) (replicate (Z.to_nat PGSIZE) 0) (bytes r') →
  writes (bytes r') (base (kernel_pool r0) + 4 * (768 + t)) (word_bytes (pde_of (table_page (base (kernel_pool r0)) t))) m →
  is_u32 (pde_of (table_page (base (kernel_pool r0)) t)) →
  paging r0 (set_bytes m r') (t + 1) (1024 * t).
Proof.
  intros [Hr Hb Hc Hus Hu Hd Ht] H256 Hcnt Hr' Hset (Hzb&Hzf&_) (Hwb&Hwf&Hdom) H32. set (B := base (kernel_pool r0)) in *.
  destruct (taken r r' (1 + t) Hset) as (Hb'&Hc'&Hu'&Hused). { intros j Hj. apply Hu. by rewrite <- Hc. }
  rewrite length_replicate in Hzf. rewrite length_word_bytes in Hwf. unfold table_page, PGSIZE in *.
  split; cbn [set_bytes kernel_pool user_pool bytes]; [by apply ram_ok_bytes|by etrans|by etrans|by etrans| | |].
  - intros j Hj. rewrite Hused by lia. apply bool_decide_ext. lia.
  - intros k Hk. destruct (decide (k = 768 + t)) as [->|Hne].
    + rewrite bool_decide_true by lia. replace (768 + t - 768) with t by lia. by split.
    + rewrite (bool_decide_ext _ (768 ≤ k < 768 + t)) by lia. eapply word_at_frame; [|by apply Hd].
      intros a Ha. rewrite Hwf by lia. apply Hzf. lia.
  - intros j i Hj Hi. unfold table_page, PGSIZE. destruct (decide (j = t)) as [->|Hne].
    + rewrite bool_decide_false by lia. eapply word_at_frame; [|eapply zero_words; [exact Hzb|lia|lia]].
      intros a Ha. rewrite Hwf by lia. done.
    + eapply word_at_frame; [|apply Ht; lia]. intros a Ha. rewrite Hwf by lia. apply Hzf. lia.
Qed.

(** One more entry. *)
Lemma new_entry r0 r m t n :
  paging r0 r t n → 0 ≤ n → n / 1024 < t → t ≤ 256 →
  writes (bytes r) (table_page (base (kernel_pool r0)) (n / 1024) + 4 * (n mod 1024)) (word_bytes (kpte n)) m →
  is_u32 (kpte n) → paging r0 (set_bytes m r) t (n + 1).
Proof.
  intros [Hr Hb Hc Hus Hu Hd Ht] H0 Hn H256 (Hwb&Hwf&Hdom) H32. rewrite length_word_bytes in Hwf. unfold table_page, PGSIZE in *.
  split; cbn [set_bytes kernel_pool user_pool bytes]; [by apply ram_ok_bytes|done|done|done|done| |].
  - intros k Hk. eapply word_at_frame; [|by apply Hd]. intros a Ha. apply Hwf. lia.
  - intros j i Hj Hi. unfold table_page, PGSIZE. destruct (decide (1024 * j + i = n)) as [<-|Hne].
    + rewrite bool_decide_true by lia. replace ((1024 * j + i) / 1024) with j in * by lia.
      replace ((1024 * j + i) mod 1024) with i in * by lia. by split.
    + rewrite (bool_decide_ext _ (1024 * j + i < n)) by lia. eapply word_at_frame; [|by apply Ht].
      intros a Ha. apply Hwf. lia.
Qed.

(** ** The loop *)

Definition tables (n : Z) : Z := (n + 1023) / 1024.
Definition kernel_va (n : Z) : Z := PHYS_BASE + PGSIZE * n.

Lemma kernel_va_indices n : 0 ≤ n < 2 ^ 18 → pd_no (kernel_va n) = 768 + n / 1024 ∧ pt_no (kernel_va n) = n mod 1024.
Proof. intros Hn. unfold kernel_va, PHYS_BASE, PGSIZE. rewrite pd_no_div, pt_no_mod. lia. Qed.
Lemma kpte_ok n :
  0 ≤ n < 2 ^ 18 → is_u32 (kpte n) ∧ flag_set (kpte n) PTE_P = true ∧ Z.land (kpte n) PTE_ADDR = PGSIZE * n ∧
  flag_set (kpte n) PTE_W = negb (in_kernel_text (kernel_va n)) ∧ flag_set (kpte n) PTE_U = false.
Proof.
  intros Hn. unfold kpte, kernel_va. assert ((PGSIZE * n) mod PGSIZE = 0) as Hal by (unfold PGSIZE; lia).
  assert (∀ f, 0 ≤ f < PGSIZE → is_u32 (PGSIZE * n + f) ∧ Z.land (PGSIZE * n + f) PTE_ADDR = PGSIZE * n ∧
    ∀ c, 0 ≤ c < PGSIZE → Z.land (PGSIZE * n + f) c = Z.land f c) as Hw.
  { intros f Hf. assert (is_u32 (PGSIZE * n + f)) as Hu by (unfold PGSIZE in *; word_lia). split; [done|].
    split; [rewrite land_ADDR by done; unfold PGSIZE in *; lia|]. intros c Hc. by apply land_low. }
  unfold flag_set. destruct (in_kernel_text _); rewrite <- Z.add_assoc;
    [destruct (Hw (1 + 0) ltac:(by compute)) as (Hu&Ha&Hl)|destruct (Hw (1 + 2) ltac:(by compute)) as (Hu&Ha&Hl)];
    rewrite (Hl PTE_P), (Hl PTE_W), (Hl PTE_U) by (by compute); (split; [exact Hu|]); (split; [done|]); (split; [exact Ha|]); done.
Qed.
Lemma wp_pte_create_kernel (s : mmu) n Q :
  0 ≤ n < 2 ^ 18 → Q (kpte n) s → wp (pte_create_kernel (kernel_va n) (negb (in_kernel_text (kernel_va n)))) s Q.
Proof.
  intros Hn HQ. unfold pte_create_kernel, vtop, is_kernel_vaddr. rewrite pg_ofs_mod.
  assert (kernel_va n mod PGSIZE = 0) as -> by (unfold kernel_va, PHYS_BASE, PGSIZE; lia). wp_steps.
  rewrite bool_decide_true by (unfold kernel_va, PHYS_BASE, PGSIZE; lia). wp_steps.
  rewrite u32_small by (unfold kernel_va, PHYS_BASE, PGSIZE; word_lia).
  replace (kernel_va n - PHYS_BASE) with (PGSIZE * n) by (unfold kernel_va; lia).
  rewrite <- Z.lor_assoc. rewrite lor_flags; [|unfold PGSIZE; lia|by destruct (in_kernel_text _)].
  unfold kpte in HQ. fold (kernel_va n) in HQ. rewrite <- Z.add_assoc in HQ. by destruct (in_kernel_text _).
Qed.

Lemma paging_pages r0 r t n j : paging r0 r t n → 0 ≤ j < 1 + t → 1 + t ≤ page_cnt (kernel_pool r0) →
  kernel_page r (base (kernel_pool r0) + PGSIZE * j).
Proof.
  intros [Hr Hb Hc _ Hu _ _] Hj Ht. rewrite <- Hb. apply (pool_page r j); [lia|]. rewrite Hu by lia. by rewrite bool_decide_true by lia.
Qed.
Lemma paging_mapped r0 r t n p : paging r0 r t n → base (kernel_pool r0) ≤ p → p + 4 ≤ base (kernel_pool r0) + PGSIZE * page_cnt (kernel_pool r0) →
  mapped (bytes r) p 4.
Proof.
  intros [Hr Hb Hc _ _ _ _] H1 H2. destruct (pool_range r Hr) as (_&_&_&Hm). rewrite Hb, Hc in Hm. eapply mapped_sub; [exact Hm|lia|lia].
Qed.

(** The table for page [n]: there already, or taken now. *)
Lemma find_table r0 s pt n :
  paging r0 (frames s) (tables n) n → 0 ≤ n < 2 ^ 18 → 1 + tables (n + 1) ≤ page_cnt (kernel_pool r0) →
  (n mod 1024 ≠ 0 → pt = table_page (base (kernel_pool r0)) (n / 1024)) →
  let pde := base (kernel_pool r0) + 4 * pd_no (kernel_va n) in
  wp (e ← read_entry pde;
      if bool_decide (e = 0) then
        pt ← on_frames (palloc_get_page (Z.lor PAL_ASSERT PAL_ZERO)); v ← pde_create pt; write_entry pde v;; ret pt
      else ret pt) s
    (λ pt s', pt = table_page (base (kernel_pool r0)) (n / 1024) ∧ paging r0 (frames s') (tables (n + 1)) n).
Proof.
  intros Hp Hn Hcnt Hpt pde. subst pde. destruct (kernel_va_indices n Hn) as [-> _]. unfold tables in *.
  pose proof (pg_dir _ _ _ _ Hp (768 + n / 1024) ltac:(lia)) as He. wp_step. eapply wp_read_entry; [exact He|].
  destruct (decide (n mod 1024 = 0)) as [Hz|Hz].
  - rewrite (bool_decide_false (_ ≤ _ < _)) by lia. rewrite bool_decide_true by done. wp_step. apply wp_on_frames.
    assert ((n + 1023) / 1024 = n / 1024) as Ht by lia. rewrite Ht in Hp. replace n with (1024 * (n / 1024)) in Hp at 2 by lia.
    assert ((n + 1 + 1023) / 1024 = n / 1024 + 1) as Ht1 by lia. rewrite Ht1 in *. pose proof Hp as [Hr Hb Hc Hus Hu Hd Htb].
    eapply wp_mono; [apply (take_page (frames s) (1 + n / 1024)); [done|lia|by rewrite Hc]|].
    intros p r' (->&Hr'&Hset&Hw). unfold page_addr in *. rewrite Hb in *. fold (table_page (base (kernel_pool r0)) (n / 1024)) in *.
    set (p := table_page (base (kernel_pool r0)) (n / 1024)) in *. destruct (taken _ _ _ Hset) as (Hb'&Hc'&_&Hused); [by rewrite Hc|].
    assert (kernel_page r' p) as Hkp.
    { replace p with (page_addr (kernel_pool r') (1 + n / 1024)) by (unfold page_addr, p, table_page; by rewrite Hb', Hb).
      apply pool_page; [rewrite Hc', Hc; lia|]. rewrite Hused by (rewrite Hc; lia). by rewrite bool_decide_true by lia. }
    destruct (pde_of_ok r' Hr' p Hkp) as (H32&_). wp_step. eapply wp_pde_create; [exact Hr'|exact Hkp|]. wp_step.
    apply wp_write_entry; [done| |].
    { cbn [frames]. apply (mapped_dom (bytes (frames s))); [by destruct Hw as (_&_&?)|].
      eapply paging_mapped; [exact Hp|lia|unfold PGSIZE; lia]. }
    cbn [frames cr3 tlb]. intros m Hwm _. wp_step. split; [done|]. cbn [frames].
    pose proof (new_table r0 (frames s) r' m (n / 1024) Hp ltac:(lia) ltac:(lia) Hr' Hset Hw Hwm H32) as Hnew.
    by replace (1024 * (n / 1024)) with n in Hnew by lia.
  - rewrite (bool_decide_true (_ ≤ _ < _)) by lia. replace (768 + n / 1024 - 768) with (n / 1024) by lia.
    assert ((n + 1 + 1023) / 1024 = (n + 1023) / 1024) as Ht1 by lia. rewrite Ht1 in *.
    destruct (pde_of_ok (frames s) (pg_ram _ _ _ _ Hp) (table_page (base (kernel_pool r0)) (n / 1024))) as (_&Hne&_).
    { eapply paging_pages; [exact Hp|lia|lia]. }
    rewrite bool_decide_false by done. wp_step. split; [by apply Hpt|done].
Qed.

Lemma paging_loop_spec r0 k s pt n :
  paging r0 (frames s) (tables n) n → 0 ≤ n → n + Z.of_nat k < 2 ^ 18 → 1 + tables (n + Z.of_nat k) ≤ page_cnt (kernel_pool r0) →
  (n mod 1024 ≠ 0 → pt = table_page (base (kernel_pool r0)) (n / 1024)) →
  wp (paging_loop k (base (kernel_pool r0)) pt n) s (λ _ s', paging r0 (frames s') (tables (n + Z.of_nat k)) (n + Z.of_nat k)).
Proof.
  revert s pt n. induction k as [|k IH]; intros s pt n Hp Hn Hk Hcnt Hpt; cbn [paging_loop].
  { wp_step. by replace (n + Z.of_nat 0) with n by lia. }
  replace (n + Z.of_nat (S k)) with (n + 1 + Z.of_nat k) in * by lia.
  assert (1 + tables (n + 1) ≤ page_cnt (kernel_pool r0)) as Hcnt1 by (unfold tables in *; lia).
  unfold ptov. rewrite u32_small by (unfold PGSIZE; word_lia). rewrite bool_decide_true by (unfold PGSIZE, PHYS_BASE; lia). wp_step. wp_step.
  rewrite u32_small by (unfold PGSIZE, PHYS_BASE; word_lia). wp_step.
  replace (n * PGSIZE + PHYS_BASE) with (kernel_va n) by (unfold kernel_va; lia). cbv zeta.
  apply wp_bind_assoc. wp_step. eapply wp_mono; [by apply find_table; [..|lia| |]|]. intros p s1 [-> Hp1].
  destruct (kernel_va_indices n ltac:(lia)) as [_ ->]. wp_step. apply wp_pte_create_kernel; [lia|]. wp_step.
  destruct (kpte_ok n ltac:(lia)) as [H32 _].
  apply wp_write_entry; [done|eapply paging_mapped; [exact Hp1|unfold table_page, PGSIZE; lia|unfold table_page, PGSIZE, tables in *; lia]|].
  intros m Hw _. apply IH; cbn [frames]; [|lia|lia|done|].
  - eapply new_entry; [exact Hp1|lia|unfold tables; lia|unfold tables; lia|exact Hw|done].
  - intros Hz. f_equal. lia.
Qed.

(** ** The walk through the finished tables *)
Lemma word_of_at m p w : word_at m p w → word_of m p = Some w.
Proof.
  intros Hw. unfold word_of. destruct (proj1 (wp_outcome _ _ _) (load_word_spec m p w (λ x _, x = w) Hw eq_refl)) as (x&m'&->&->). done.
Qed.

(** A directory [pd] with the entries of the initial one. *)
Lemma paging_walk r0 r t m pd va :
  paging r0 r t init_ram_pages → t = tables init_ram_pages → 0 ≤ init_ram_pages < 2 ^ 18 → 1 + t ≤ page_cnt (kernel_pool r0) →
  (∀ k w, 0 ≤ k < 1024 → word_at (bytes r) (base (kernel_pool r0) + 4 * k) w → word_at m (pd + 4 * k) w) →
  (∀ j i w, 0 ≤ j < t → 0 ≤ i < 1024 → word_at (bytes r) (table_page (base (kernel_pool r0)) j + 4 * i) w →
     word_at m (table_page (base (kernel_pool r0)) j + 4 * i) w) →
  0 ≤ va < 2 ^ 32 → walk m (pd - PHYS_BASE) va = kernel_map va.
Proof.
  intros Hp -> HN Hcnt Hdir Htab Hva. unfold walk, kernel_map. replace (pd - PHYS_BASE + PHYS_BASE) with pd by lia.
  assert (0 ≤ pd_no va < 1024) as Hk by (rewrite pd_no_div; lia). unfold tables in *.
  pose proof (Hdir _ _ Hk (pg_dir _ _ _ _ Hp _ Hk)) as He. rewrite (word_of_at _ _ _ He). clear He.
  case_bool_decide as Hin.
  2: { change (flag_set 0 PTE_P) with false. cbv iota. rewrite bool_decide_false; [done|].
       unfold PHYS_BASE, PGSIZE. rewrite pd_no_div in Hin. lia. }
  set (j := pd_no va - 768) in *. assert (0 ≤ j < (init_ram_pages + 1023) / 1024) as Hj by lia.
  destruct (pde_of_ok r (pg_ram _ _ _ _ Hp) (table_page (base (kernel_pool r0)) j)) as (_&_&Hpres&Haddr).
  { eapply paging_pages; [exact Hp|lia|lia]. }
  rewrite Hpres, Haddr. replace (_ - PHYS_BASE + PHYS_BASE) with (table_page (base (kernel_pool r0)) j) by lia.
  assert (0 ≤ pt_no va < 1024) as Hi by (rewrite pt_no_mod; lia).
  pose proof (Htab _ _ _ Hj Hi (pg_tables _ _ _ _ Hp j _ Hj Hi)) as Hw. rewrite (word_of_at _ _ _ Hw). clear Hw.
  set (n := 1024 * j + pt_no va).
  assert (va = PHYS_BASE + PGSIZE * n + va mod PGSIZE) as Hdec.
  { unfold n, j, PHYS_BASE, PGSIZE in *. rewrite pd_no_div, pt_no_mod in *. lia. }
  assert (0 ≤ va mod PGSIZE < PGSIZE) as Hofs by (unfold PGSIZE; lia).
  case_bool_decide as Hn.
  2: { change (flag_set 0 PTE_P) with false. cbv iota. rewrite bool_decide_false; [done|]. unfold PHYS_BASE, PGSIZE in *. lia. }
  destruct (kpte_ok n ltac:(lia)) as (_&->&->&->&->). rewrite (bool_decide_true (_ ≤ va < _)) by (unfold PHYS_BASE, PGSIZE in *; lia).
  replace (va - va mod PGSIZE) with (kernel_va n) by (unfold kernel_va; lia). rewrite andb_false_r.
  assert (flag_set (pde_of (table_page (base (kernel_pool r0)) j)) PTE_W = true) as ->; [|cbn [andb]; do 3 f_equal; lia].
  destruct (kernel_page_range r (pg_ram _ _ _ _ Hp) (table_page (base (kernel_pool r0)) j)) as (Hal&_); [eapply paging_pages; [exact Hp|lia|lia]|].
  unfold flag_set, pde_of. rewrite land_low; [done|unfold PHYS_BASE, PGSIZE in *; lia|by compute|by compute].
Qed.

(** The finished directory maps no user page. *)
Lemma paging_rep r0 r t n :
  paging r0 r t n → 0 ≤ t → 1 + t ≤ page_cnt (kernel_pool r0) → pd_rep r (base (kernel_pool r0)) ∅.
Proof.
  intros Hp Ht Hcnt. pose proof (paging_pages r0 r t n 0 Hp ltac:(lia) Hcnt) as Hpd. rewrite Z.mul_0_r, Z.add_0_r in Hpd.
  split; [exact (pg_ram _ _ _ _ Hp)|exact Hpd|done|done|]. intros k Hk. rewrite lookup_empty. rewrite PDES_eq in Hk.
  pose proof (pg_dir _ _ _ _ Hp k ltac:(lia)) as He. by rewrite bool_decide_false in He by lia.
Qed.

Lemma paging_init_spec s :
  ram_ok (frames s) → all_free (kernel_pool (frames s)) → 0 ≤ init_ram_pages < 2 ^ 18 →
  1 + tables init_ram_pages ≤ page_cnt (kernel_pool (frames s)) →
  wp paging_init s (λ pd s', pd = base (kernel_pool (frames s)) ∧ cr3 s' = pd - PHYS_BASE ∧ tlb s' = ∅ ∧
    paging (frames s) (frames s') (tables init_ram_pages) init_ram_pages).
Proof.
  intros Hr Hall HN Hcnt. unfold paging_init. wp_step. apply wp_on_frames. destruct (pool_range _ Hr) as (Hlo&_&Hhi&_).
  assert (0 ≤ tables init_ram_pages) as Ht by (unfold tables; lia).
  eapply wp_mono; [apply (take_page (frames s) 0); [done|lia|intros j Hj; rewrite Hall by done; by rewrite bool_decide_false by lia]|].
  intros p r (->&Hr'&Hset&Hw). unfold page_addr in *. rewrite Z.mul_0_r, Z.add_0_r in *.
  pose proof (new_directory _ _ Hr Hall ltac:(lia) Hr' Hset Hw) as Hp. wp_step.
  eapply wp_mono; [apply (paging_loop_spec (frames s) _ (mk_mmu r (cr3 s) (tlb s)) NULL 0 Hp); rewrite ?Z2Nat.id by lia; [lia|lia|exact Hcnt|]|].
  { intros Hz. by destruct Hz. }
  rewrite Z2Nat.id, Z.add_0_l by lia. intros [] s1 Hp1. unfold vtop, is_kernel_vaddr. rewrite bool_decide_true by lia. wp_steps.
  rewrite u32_small by (unfold PHYS_BASE, PGSIZE in *; word_lia). done.
Qed.

(** C19: [paging_init] succeeds whenever the kernel pool has a page for the directory and one for each
    4 MB of memory, and the processor then translates every 32-bit address as the kernel wants:
    physical memory appears from [PHYS_BASE] on, one to one, no user program can use it, its pages can be
    written except those with code of the kernel, and nothing else is mapped.  The
    cache of entries is empty, the user pool is untouched, and the directory is one that
    maps no user page.  A directory that [pagedir_create] makes for a process from it
    translates every address in the same way. *)
Theorem paging_init_maps_memory (s : mmu) :
  ram_ok (frames s) → all_free (kernel_pool (frames s)) → 0 ≤ init_ram_pages < 2 ^ 18 →
  1 + tables init_ram_pages ≤ page_cnt (kernel_pool (frames s)) →
  ∃ pd s', paging_init s = Ret (pd, s') ∧ cr3 s' = pd - PHYS_BASE ∧ tlb s' = ∅ ∧
    ram_ok (frames s') ∧ user_pool (frames s') = user_pool (frames s) ∧ pd_rep (frames s') pd ∅ ∧
    (∀ va, 0 ≤ va < 2 ^ 32 → walk (bytes (frames s')) (cr3 s') va = kernel_map va) ∧
    ∃ new s2, pagedir_create pd s' = Ret (new, s2) ∧
      (new = NULL ∧ (∀ i, ¬ run (kernel_pool (frames s')) i 1 false) ∨
       pd_rep (frames s2) new ∅ ∧ ∀ va, 0 ≤ va < 2 ^ 32 → walk (bytes (frames s2)) (new - PHYS_BASE) va = kernel_map va).
Proof.
  intros Hr Hall HN Hcnt. destruct (proj1 (wp_outcome _ _ _) (paging_init_spec s Hr Hall HN Hcnt)) as (pd&s'&Hrun&->&Hcr&Htlb&Hp).
  exists (base (kernel_pool (frames s))), s'. split; [done|]. split; [done|]. split; [done|].
  split; [exact (pg_ram _ _ _ _ Hp)|]. split; [exact (pg_user _ _ _ _ Hp)|].
  assert (0 ≤ tables init_ram_pages) as Ht by (unfold tables; lia). pose proof (paging_rep _ _ _ _ Hp Ht Hcnt) as Hrep. split; [done|].
  split; [intros va Hva; rewrite Hcr; by eapply (paging_walk _ _ _ _ _ va Hp)|].
  destruct (proj1 (wp_outcome _ _ _) (pagedir_create_frame _ s' Hrep)) as (new&s2&Hcreate&_&_&Hfr&Hnew).
  exists new, s2. split; [done|]. destruct Hnew as [Hnone|(_&Hnrep&_&Hcopy)]; [by left|]. right. split; [done|].
  intros va Hva. eapply (paging_walk _ _ _ _ _ va Hp); [done|done|done|exact Hcopy| |done].
  intros j i w Hj Hi. apply word_at_frame. intros a Ha.
  apply (Hfr (table_page (base (kernel_pool (frames s))) j)); [|unfold PGSIZE; lia]. eapply paging_pages; [exact Hp|lia|lia].
Qed.

End Init.

(** A machine with 262 pages of memory: four free pages in the kernel pool, one in the user pool. *)
Definition boot_mmu : mmu :=
  mk_mmu (mk_ram (mk_pool (mk_bitmap 4 [0]) 0xc0101000) (mk_pool (mk_bitmap 1 [0]) 0xc0105000)
    (mem_of 0xc0101000 (replicate (Z.to_nat (5 * PGSIZE)) 0) ∪ ∅)) 0 ∅.
Lemma boot_mmu_ok : ram_ok (frames boot_mmu).
Proof.
  assert (∀ p n, 0xc0101000 ≤ p → p + n ≤ 0xc0106000 → mapped (bytes (frames boot_mmu)) p n) as Hm.
  { intros p n Hp Hn. eapply (mapped_sub _ 0xc0101000 0x5000); [|lia|lia].
    pose proof (mem_of_mapped 0xc0101000 (replicate (Z.to_nat (5 * PGSIZE)) 0) ∅) as H. by rewrite length_replicate, Z2Nat.id in H. }
  split.
  - intros []; (split; [split; [done|done|by repeat constructor]|done|done|done|by apply Hm]).
  - left. by vm_compute.
Qed.

Lemma paging_init_maps_memory_witness :
  ∃ pd s', paging_init 262 0xc0020000 0xc0030000 boot_mmu = Ret (pd, s') ∧
    walk (bytes (frames s')) (cr3 s') 0xc0020004 = Some (0x20004, false, false) ∧
    walk (bytes (frames s')) (cr3 s') 0xc0105000 = Some (0x105000, true, false) ∧
    walk (bytes (frames s')) (cr3 s') 0x8048000 = None.
Proof.
  destruct (paging_init_maps_memory 262 0xc0020000 0xc0030000 boot_mmu) as (pd&s'&Hrun&_&_&_&_&_&Hwalk&_).
  - exact boot_mmu_ok.
  - intros j Hj. change (0 ≤ j < 4) in Hj. assert (j = 0 ∨ j = 1 ∨ j = 2 ∨ j = 3) as [->|[->|[->| ->]]] by lia; reflexivity.
  - lia.
  - vm_compute. discriminate.
  - exists pd, s'. split; [exact Hrun|]. split; [|split]; (etrans; [apply Hwalk; split; by compute|vm_compute; reflexivity]).
Defined.
