(* ===== verification/Stdio.v ===== *)
(** * Formatted output (lib/stdio.c, lib/ctype.h, [atoi] of lib/stdlib.c, lib/user/console.c)

    The [printf] engine over a caller's [output] function, and its clients
    [vsnprintf] and the buffered [vhprintf] of user programs.  The state is
    the memory, where string arguments live, and the [aux] data of [output].
    A format is the list of its characters before the terminator; reading at
    its end gives the terminator, and stepping over that is undefined
    behaviour.  A [va_list] is the list of the 32-bit words on the stack. *)

From Stdlib Require Import String Ascii.
From S2P Require Import Prelude Str.
Local Open Scope Z_scope.

(** [lia] with division by constants. *)
Local Ltac Zify.zify_post_hook ::= Z.to_euclidean_division_equations.

(** ** Characters *)

(** The characters of a literal. *)
Definition chars (s : string) : list Z := map (λ c, Z.of_N (N_of_ascii c)) (list_ascii_of_string s).

(** [*s], which is the terminator at the end. *)
Definition peek (s : list Z) : Z := default 0 (head s).

Definition islower (c : Z) : bool := bool_decide (97 ≤ c) && bool_decide (c ≤ 122).
Definition isupper (c : Z) : bool := bool_decide (65 ≤ c) && bool_decide (c ≤ 90).
Definition isalpha (c : Z) : bool := islower c || isupper c.
Definition isdigit (c : Z) : bool := bool_decide (48 ≤ c) && bool_decide (c ≤ 57).
Definition isalnum (c : Z) : bool := isalpha c || isdigit c.
Definition isxdigit (c : Z) : bool :=
  isdigit c || (bool_decide (97 ≤ c) && bool_decide (c ≤ 102)) || (bool_decide (65 ≤ c) && bool_decide (c ≤ 70)).
Definition isspace (c : Z) : bool :=
  bool_decide (c = 32) || bool_decide (c = 12) || bool_decide (c = 10) || bool_decide (c = 13) ||
  bool_decide (c = 9) || bool_decide (c = 11).
Definition isblank (c : Z) : bool := bool_decide (c = 32) || bool_decide (c = 9).
Definition isgraph (c : Z) : bool := bool_decide (32 < c) && bool_decide (c < 127).
Definition isprint (c : Z) : bool := bool_decide (32 ≤ c) && bool_decide (c < 127).
Definition iscntrl (c : Z) : bool := (bool_decide (0 ≤ c) && bool_decide (c < 32)) || bool_decide (c = 127).
Definition isascii (c : Z) : bool := bool_decide (0 ≤ c) && bool_decide (c < 128).
Definition ispunct (c : Z) : bool := isprint c && negb (isalnum c) && negb (isspace c).
Definition tolower (c : Z) : Z := if isupper c then c - 65 + 97 else c.
Definition toupper (c : Z) : Z := if islower c then c - 97 + 65 else c.

(** ** [atoi]

    The string is the list of its characters before the terminator.  A number
    that does not fit wraps, as the compiled code does. *)
Fixpoint skip_space (s : list Z) : list Z :=
  match s with c :: r => if isspace c then skip_space r else s | [] => [] end.
(** [for (value = 0; isdigit ( *s); s++) value = value * 10 - ( *s - '0');] *)
Fixpoint atoi_digits (s : list Z) (value : Z) : Z :=
  match s with
  | c :: r => if isdigit c then atoi_digits r (s32 (value * 10 - (c - 48))) else value
  | [] => value
  end.
Definition atoi (s : list Z) : Z :=
  let s := skip_space s in
  let negative := bool_decide (peek s = 45) in
  let s := if bool_decide (peek s = 43) || negative then tail s else s in
  let value := atoi_digits s 0 in
  if negative then value else s32 (- value).

(** ** Conversions *)
Definition MINUS : Z := 1.
Definition PLUS : Z := 2.
Definition SPACE : Z := 4.
Definition POUND : Z := 8.
Definition ZERO : Z := 16.
Definition GROUP : Z := 32.

Inductive arg_type := CHAR | SHORT | INT | INTMAX | LONG | LONGLONG | PTRDIFFT | SIZET.

Record printf_conversion := Conversion {
  flags : Z;
  width : Z;
  precision : Z;
  type : arg_type
}.

Record integer_base := IntegerBase {
  base : Z;
  digits : list Z;
  x : Z;
  group : Z
}.
Definition base_d : integer_base := IntegerBase 10 (chars "0123456789") 0 3.
Definition base_o : integer_base := IntegerBase 8 (chars "01234567") 0 3.
Definition base_x : integer_base := IntegerBase 16 (chars "0123456789abcdef") 120 4.
Definition base_X : integer_base := IntegerBase 16 (chars "0123456789ABCDEF") 88 4.

(** [f & flag] as a condition. *)
Definition has (f flag : Z) : bool := bool_decide (Z.land f flag ≠ 0).
(** [f &= ~flag] *)
Definition clear (f flag : Z) : Z := Z.ldiff f flag.

(** The flag characters: [switch ( *format++)] until something else. *)
Definition flag_of (c : Z) : option Z :=
  if bool_decide (c = 45) then Some MINUS
  else if bool_decide (c = 43) then Some PLUS
  else if bool_decide (c = 32) then Some SPACE
  else if bool_decide (c = 35) then Some POUND
  else if bool_decide (c = 48) then Some ZERO
  else if bool_decide (c = 39) then Some GROUP
  else None.
Fixpoint parse_flags (format : list Z) (f : Z) : Z * list Z :=
  match format with
  | c :: r => match flag_of c with Some b => parse_flags r (Z.lor f b) | None => (f, format) end
  | [] => (f, [])
  end.
(** [for (; isdigit ( *format); format++) n = n * 10 + *format - '0';] *)
Fixpoint parse_number (format : list Z) (n : Z) : Z * list Z :=
  match format with
  | c :: r => if isdigit c then parse_number r (s32 (n * 10 + c - 48)) else (n, format)
  | [] => (n, [])
  end.
Definition parse_type (format : list Z) : arg_type * list Z :=
  let c := peek format in
  let r := tail format in
  if bool_decide (c = 104) then if bool_decide (peek r = 104) then (CHAR, tail r) else (SHORT, r)
  else if bool_decide (c = 106) then (INTMAX, r)
  else if bool_decide (c = 108) then if bool_decide (peek r = 108) then (LONGLONG, tail r) else (LONG, r)
  else if bool_decide (c = 116) then (PTRDIFFT, r)
  else if bool_decide (c = 122) then (SIZET, r)
  else (INT, format).

(** ** The engine *)
Section Engine.
Context {X : Type}.
Notation P := (M (mem * X)).

(** A computation on the memory. *)
Definition on_mem {A} (c : M mem A) : P A :=
  λ s, match c s.1 with Ret (a, m) => Ret (a, (m, s.2)) | Fail f => Fail f end.

(** [va_arg]: one word, or two for a 64-bit type. *)
Definition va_word (args : list Z) : P (Z * list Z) :=
  match args with w :: r => ret (w, r) | [] => fail BadAccess end.
Definition va_int (args : list Z) : P (Z * list Z) := ' (w, args) ← va_word args; ret (s32 w, args).
Definition va_quad (args : list Z) : P (Z * list Z) :=
  ' (lo, args) ← va_word args; ' (hi, args) ← va_word args; ret (lo + 2 ^ 32 * hi, args).

Definition parse_width (f : Z) (format args : list Z) : P (Z * Z * list Z * list Z) :=
  ' (width, format, args) ←
    (if bool_decide (peek format = 42) then ' (w, args) ← va_int args; ret (w, tail format, args)
     else let '(w, r) := parse_number format 0 in ret (w, r, args));
  if bool_decide (width < 0) then ret (Z.lor f MINUS, s32 (- width), format, args)
  else ret (f, width, format, args).

Definition parse_precision (format args : list Z) : P (Z * list Z * list Z) :=
  if bool_decide (peek format = 46) then
    let format := tail format in
    ' (p, format, args) ←
      (if bool_decide (peek format = 42) then ' (p, args) ← va_int args; ret (p, tail format, args)
       else let '(p, r) := parse_number format 0 in ret (p, r, args));
    ret (if bool_decide (p < 0) then -1 else p, format, args)
  else ret (-1, format, args).

Definition parse_conversion (format args : list Z) : P (printf_conversion * list Z * list Z) :=
  let '(f, format) := parse_flags format 0 in
  let f := if has f MINUS then clear f ZERO else f in
  let f := if has f PLUS then clear f SPACE else f in
  ' (f, width, format, args) ← parse_width f format args;
  ' (precision, format, args) ← parse_precision format args;
  let f := if bool_decide (precision >= 0) then clear f ZERO else f in
  let '(type, format) := parse_type format in
  ret (Conversion f width precision type, format, args).

Section Output.
Context (output : Z → P unit).

Fixpoint output_all (l : list Z) : P unit :=
  match l with [] => ret tt | c :: r => output c;; output_all r end.

Fixpoint output_dup (ch : Z) (cnt : nat) : P unit :=
  match cnt with O => ret tt | S cnt => output ch;; output_dup ch cnt end.

(** [buf] holds the characters written so far, the last one first;
    [*cp++ = ch] writes behind its 64 bytes when it is full. *)
Definition buf_size : nat := 64.
Definition push (ch : Z) (buf : list Z) : P (list Z) :=
  if bool_decide (length buf < buf_size)%nat then ret (ch :: buf) else fail BadAccess.

(** [while (value > 0)] *)
Fixpoint digits_loop (fuel : nat) (value : Z) (b : integer_base) (f digit_cnt : Z) (buf : list Z) : P (list Z) :=
  match fuel with
  | O => fail OutOfFuel
  | S fuel =>
      if bool_decide (value > 0) then
        buf ← (if has f GROUP && bool_decide (digit_cnt > 0) && bool_decide (digit_cnt mod group b = 0)
               then push 44 buf else ret buf);
        d ← deref (digits b !! Z.to_nat (value mod base b));
        buf ← push d buf;
        digits_loop fuel (value / base b) b f (digit_cnt + 1) buf
      else ret buf
  end.

(** [while (cp - buf < precision && cp < buf + sizeof buf - 1)] *)
Fixpoint zeros_loop (fuel : nat) (precision : Z) (buf : list Z) : P (list Z) :=
  match fuel with
  | O => fail OutOfFuel
  | S fuel =>
      if bool_decide (Z.of_nat (length buf) < precision) && bool_decide (length buf < buf_size - 1)%nat
      then buf ← push 48 buf; zeros_loop fuel precision buf
      else ret buf
  end.

Definition sign_char (is_signed negative : bool) (f : Z) : Z :=
  if is_signed then
    if has f PLUS then (if negative then 45 else 43)
    else if has f SPACE then (if negative then 45 else 32)
    else if negative then 45 else 0
  else 0.

Definition format_integer (value : Z) (is_signed negative : bool) (b : integer_base) (c : printf_conversion) : P unit :=
  let f := flags c in
  let sign := sign_char is_signed negative f in
  let x := if has f POUND && bool_decide (value ≠ 0) then x b else 0 in
  buf ← digits_loop (S buf_size) value b f 0 [];
  let precision := if bool_decide (precision c < 0) then 1 else precision c in
  buf ← zeros_loop (S buf_size) precision buf;
  buf ← (if has f POUND && bool_decide (base b = 8) &&
            (bool_decide (buf = []) || bool_decide (head buf ≠ Some 48)) then push 48 buf else ret buf);
  let pad_cnt :=
    s32 (width c - Z.of_nat (length buf) - (if bool_decide (x ≠ 0) then 2 else 0)
         - (if bool_decide (sign ≠ 0) then 1 else 0)) in
  let pad_cnt := if bool_decide (pad_cnt < 0) then 0 else pad_cnt in
  (if negb (has f (Z.lor MINUS ZERO)) then output_dup 32 (Z.to_nat pad_cnt) else ret tt);;
  (if bool_decide (sign ≠ 0) then output sign else ret tt);;
  (if bool_decide (x ≠ 0) then output 48;; output x else ret tt);;
  (if has f ZERO then output_dup 48 (Z.to_nat pad_cnt) else ret tt);;
  output_all buf;;
  (if has f MINUS then output_dup 32 (Z.to_nat pad_cnt) else ret tt).

(** The characters of the string are read one by one as they are output:
    [string i] reads the character [i], and [n] of them are left. *)
Fixpoint output_string (n : nat) (string : Z → P Z) (i : Z) : P unit :=
  match n with
  | O => ret tt
  | S n => ch ← string i; output ch;; output_string n string (i + 1)
  end.
Definition format_string (string : Z → P Z) (length : Z) (c : printf_conversion) : P unit :=
  (if bool_decide (width c > length) && negb (has (flags c) MINUS)
   then output_dup 32 (Z.to_nat (width c - length)) else ret tt);;
  output_string (Z.to_nat length) string 0;;
  (if bool_decide (width c > length) && has (flags c) MINUS
   then output_dup 32 (Z.to_nat (width c - length)) else ret tt).

(** The argument of [%d] and [%i], as an [intmax_t]. *)
Definition signed_arg (t : arg_type) (args : list Z) : P (Z * list Z) :=
  match t with
  | CHAR => ' (w, args) ← va_word args;
      ret (let c := u8 w in if bool_decide (2 ^ 7 ≤ c) then c - 2 ^ 8 else c, args)
  | SHORT => ' (w, args) ← va_word args;
      ret (let c := w mod 2 ^ 16 in if bool_decide (2 ^ 15 ≤ c) then c - 2 ^ 16 else c, args)
  | INT | LONG | PTRDIFFT => va_int args
  | INTMAX | LONGLONG => ' (v, args) ← va_quad args; ret (s64 v, args)
  | SIZET => ' (w, args) ← va_word args;
      let value := u32 w in
      ret (if bool_decide (value > (2 ^ 32 - 1) / 2) then value - (2 ^ 32 - 1) - 1 else value, args)
  end.

(** The argument of [%o], [%u], [%x] and [%X], as a [uintmax_t]. *)
Definition unsigned_arg (t : arg_type) (args : list Z) : P (Z * list Z) :=
  match t with
  | CHAR => ' (w, args) ← va_word args; ret (u8 w, args)
  | SHORT => ' (w, args) ← va_word args; ret (w mod 2 ^ 16, args)
  | INT | LONG | SIZET => ' (w, args) ← va_word args; ret (u32 w, args)
  | INTMAX | LONGLONG => ' (v, args) ← va_quad args; ret (u64 v, args)
  | PTRDIFFT => ' (d, args) ← va_int args;
      ret (Z.land (u64 d) (Z.lor (Z.shiftl (2 ^ 31 - 1) 1) 1), args)
  end.

(** [%s]: a null pointer is printed as a literal. *)
Definition convert_string (args : list Z) (c : printf_conversion) : P (list Z) :=
  ' (s, args) ← va_word args;
  (if bool_decide (s = NULL) then
     let lit := chars "(null)" in
     format_string (λ i, deref (lit !! Z.to_nat i)) (Z.min (u32 (precision c)) (Z.of_nat (length lit))) c
   else
     n ← on_mem (strnlen s (u32 (precision c)));
     format_string (λ i, on_mem (load (s + i))) (s32 n) c);;
  ret args.

(** The [switch] on the conversion character; [unknown] prints that there is
    no such conversion. *)
Definition convert (unknown : list Z → P unit) (ch : Z) (c : printf_conversion) (args : list Z) : P (list Z) :=
  if bool_decide (ch = 100) || bool_decide (ch = 105) then
    ' (value, args) ← signed_arg (type c) args;
    format_integer (u64 (if bool_decide (value < 0) then s64 (- value) else value))
                   true (bool_decide (value < 0)) base_d c;;
    ret args
  else if bool_decide (ch = 111) || bool_decide (ch = 117) || bool_decide (ch = 120) || bool_decide (ch = 88) then
    ' (value, args) ← unsigned_arg (type c) args;
    let b := if bool_decide (ch = 111) then base_o else if bool_decide (ch = 117) then base_d
             else if bool_decide (ch = 120) then base_x else base_X in
    format_integer value false false b c;;
    ret args
  else if bool_decide (ch = 99) then
    ' (w, args) ← va_word args;
    format_string (λ _, ret (u8 w)) 1 c;;
    ret args
  else if bool_decide (ch = 115) then convert_string args c
  else if bool_decide (ch = 112) then
    ' (p, args) ← va_word args;
    format_integer (u32 p) false false base_x (Conversion POUND (width c) (precision c) (type c));;
    ret args
  else if bool_decide (ch ∈ chars "feEgGn") then unknown (chars "<<no %%%c in kernel>>");; ret args
  else unknown (chars "<<no %%%c conversion>>");; ret args.

(** [for (; *format != '\0'; format++)].  A conversion that is not known is
    printed by a nested call, which has known conversions only. *)
Fixpoint vprintf_loop (fuel : nat) (format args : list Z) : P unit :=
  match fuel with
  | O => fail OutOfFuel
  | S fuel =>
      match format with
      | [] => ret tt
      | ch :: r =>
          if bool_decide (ch ≠ 37) then output ch;; vprintf_loop fuel r args
          else if bool_decide (peek r = 37) then output 37;; vprintf_loop fuel (tail r) args
          else
            ' (c, format, args) ← parse_conversion r args;
            let ch := peek format in
            args ← convert (λ lit, vprintf_loop fuel lit [ch]) ch c args;
            match format with _ :: r => vprintf_loop fuel r args | [] => fail BadAccess end
      end
  end.
(** Every turn takes a character; the nested formats have fewer than 32. *)
Definition __vprintf (format args : list Z) : P unit := vprintf_loop (32 + length format)%nat format args.
(** With its arguments after [aux]. *)
Definition __printf (format args : list Z) : P unit := __vprintf format args.

(** *** Its clients that only print *)
Fixpoint repeat_printf (n : nat) (format : list Z) : P unit :=
  match n with O => ret tt | S n => __printf format [];; repeat_printf n format end.
(** [for (; i < end; i++)] over the bytes [buf[i - start]], [n] of them. *)
Fixpoint hex_bytes (n : nat) (buf i start : Z) : P unit :=
  match n with
  | O => ret tt
  | S n =>
      v ← on_mem (load (buf + (i - start)));
      __printf (chars "%02hhx%c") [v; if bool_decide (i = 16 / 2 - 1) then 45 else 32];;
      hex_bytes n buf (i + 1) start
  end.
Fixpoint ascii_bytes (n : nat) (buf i start : Z) : P unit :=
  match n with
  | O => ret tt
  | S n =>
      v ← on_mem (load (buf + (i - start)));
      __printf (chars "%c") [if isprint v then v else 46];;
      ascii_bytes n buf (i + 1) start
  end.
Definition hex_line (ofs buf start end_ : Z) (ascii : bool) : P unit :=
  __printf (chars "%08jx  ") [ofs / 16 * 16; 0];;
  repeat_printf (Z.to_nat start) (chars "   ");;
  hex_bytes (Z.to_nat (end_ - start)) buf start start;;
  (if ascii then
     repeat_printf (Z.to_nat (16 - end_)) (chars "   ");;
     __printf (chars "|") [];;
     repeat_printf (Z.to_nat start) (chars " ");;
     ascii_bytes (Z.to_nat (end_ - start)) buf start start;;
     repeat_printf (Z.to_nat (16 - end_)) (chars " ");;
     __printf (chars "|") []
   else ret tt);;
  __printf [10] [].
Fixpoint hex_dump_loop (fuel : nat) (ofs buf size : Z) (ascii : bool) : P unit :=
  match fuel with
  | O => fail OutOfFuel
  | S fuel =>
      if bool_decide (size > 0) then
        let start := ofs mod 16 in
        let end_ := if bool_decide (16 - start > size) then start + size else 16 in
        let n := end_ - start in
        hex_line ofs buf start end_ ascii;;
        hex_dump_loop fuel (u32 (ofs + n)) (buf + n) (size - n) ascii
      else ret tt
  end.
Definition hex_dump (ofs buf size : Z) (ascii : bool) : P unit :=
  hex_dump_loop (S (Z.to_nat size)) ofs buf size ascii.

(** [for (fp = factors; size >= 1024 && fp[1] != NULL; fp++)]; [factors] has
    the addresses of the strings, with the null pointer at its end. *)
Fixpoint scale (factors : list Z) (size : Z) : Z * Z :=
  match factors with
  | f :: r => if bool_decide (1024 ≤ size) && bool_decide (peek r ≠ NULL) then scale r (size / 1024) else (size, f)
  | [] => (size, NULL)
  end.
Definition print_human_readable_size (factors : list Z) (size : Z) : P unit :=
  if bool_decide (size = 1) then __printf (chars "1 byte") []
  else
    let '(size, f) := scale factors size in
    __printf (chars "%llu %s") [u32 size; size / 2 ^ 32; f].

End Output.
End Engine.

(** ** [vsnprintf] *)
Record vsnprintf_aux := VsnprintfAux {
  vs_p : Z;
  vs_length : Z;
  vs_max_length : Z
}.

Definition vsnprintf_helper (ch : Z) : M (mem * vsnprintf_aux) unit :=
  ' (m, aux) ← get_state;
  let aux' := VsnprintfAux (vs_p aux) (s32 (vs_length aux + 1)) (vs_max_length aux) in
  if bool_decide (vs_length aux < vs_max_length aux) then
    put_state (m, aux');;
    on_mem (store (vs_p aux) ch);;
    modify (λ s, (s.1, VsnprintfAux (vs_p aux' + 1) (vs_length aux') (vs_max_length aux')))
  else put_state (m, aux').

Definition vsnprintf (buffer size : Z) (format args : list Z) : M mem Z :=
  λ m,
    let aux := VsnprintfAux buffer 0 (s32 (if bool_decide (size > 0) then size - 1 else 0)) in
    match __vprintf vsnprintf_helper format args (m, aux) with
    | Fail f => Fail f
    | Ret (_, (m, aux)) =>
        ((if bool_decide (size > 0) then store (vs_p aux) 0 else ret tt);; ret (vs_length aux)) m
    end.
Definition snprintf (buffer size : Z) (format args : list Z) : M mem Z := vsnprintf buffer size format args.

(** ** Output of user programs

    The system call [write] is the list of the blocks written. *)
Module UserConsole.

Record vhprintf_aux := VhprintfAux {
  vh_buf : list Z;        (* [buf] up to [p] *)
  vh_char_cnt : Z;
  vh_handle : Z
}.
Notation ustate := (vhprintf_aux * list (Z * list Z))%type.

Definition write (handle : Z) (block : list Z) : M (mem * ustate) unit :=
  modify (λ s, (s.1, (s.2.1, s.2.2 ++ [(handle, block)]))).

Definition flush : M (mem * ustate) unit :=
  ' (_, (aux, _)) ← get_state;
  (if bool_decide (vh_buf aux ≠ []) then write (vh_handle aux) (vh_buf aux) else ret tt);;
  modify (λ s, (s.1, (VhprintfAux [] (vh_char_cnt s.2.1) (vh_handle s.2.1), s.2.2))).

Definition add_char (c : Z) : M (mem * ustate) unit :=
  ' (m, (aux, w)) ← get_state;
  (if bool_decide (length (vh_buf aux) < 64)%nat then ret tt else fail BadAccess);;
  put_state (m, (VhprintfAux (vh_buf aux ++ [c]) (vh_char_cnt aux) (vh_handle aux), w));;
  (if bool_decide (64 ≤ length (vh_buf aux ++ [c]))%nat then flush else ret tt);;
  modify (λ s, (s.1, (VhprintfAux (vh_buf s.2.1) (s32 (vh_char_cnt s.2.1 + 1)) (vh_handle s.2.1), s.2.2))).

(** Returns the number of characters and the blocks written. *)
Definition vhprintf (handle : Z) (format args : list Z) : M mem (Z * list (Z * list Z)) :=
  λ m,
    match (__vprintf add_char format args;; flush) (m, (VhprintfAux [] 0 handle, [])) with
    | Fail f => Fail f
    | Ret (_, (m, (aux, w))) => Ret ((vh_char_cnt aux, w), m)
    end.
Definition hprintf (handle : Z) (format args : list Z) := vhprintf handle format args.
Definition STDOUT_FILENO : Z := 1.
Definition vprintf (format args : list Z) := vhprintf STDOUT_FILENO format args.
Definition printf (format args : list Z) := vprintf format args.

End UserConsole.

(** The characters output, as a trace. *)
Definition trace_output (ch : Z) : M (mem * list Z) unit := modify (λ s, (s.1, s.2 ++ [ch])).
Definition trace_printf (m : mem) (format args : list Z) : outcome (list Z) :=
  match __vprintf trace_output format args (m, []) with Ret (_, (_, out)) => Ret out | Fail f => Fail f end.

(** ** Simulation

    The engine uses the state only through [output] and the memory it reads:
    runs over two kinds of [aux] data correspond step by step. *)
Section Simulation.
Context {X Y : Type} (R : mem * X → mem * Y → Prop) (G : mem * X → Prop).

(** As long as the first run stays in [G], which it cannot enter again. *)
Definition sim {A} (c1 : M (mem * X) A) (c2 : M (mem * Y) A) : Prop :=
  ∀ s1 a s1', c1 s1 = Ret (a, s1') → G s1' →
    G s1 ∧ ∀ s2, R s1 s2 → ∃ s2', c2 s2 = Ret (a, s2') ∧ R s1' s2'.

Lemma sim_ret {A} (a : A) : sim (ret a) (ret a).
Proof. intros s1 ? s1' [= <- <-] HG. split; [done|]. intros s2 HR. eexists; eauto. Qed.
Lemma sim_fail {A} f (c : M (mem * Y) A) : sim (fail f) c.
Proof. intros s1 ? s1' [=]. Qed.
Lemma sim_deref {A} (o : option A) : sim (deref o) (deref o).
Proof. destruct o; [apply sim_ret|apply sim_fail]. Qed.
Lemma sim_bind {A B} (c1 : M (mem * X) A) c2 (k1 : A → M (mem * X) B) k2 :
  sim c1 c2 → (∀ a, sim (k1 a) (k2 a)) → sim (bind c1 k1) (bind c2 k2).
Proof.
  intros Hc Hk s1 b s1''. unfold bind. destruct (c1 s1) as [[a s1']|] eqn:E; [|done]. intros Hk1 HG.
  destruct (Hk a s1' b s1'' Hk1 HG) as [HG' Hk']. destruct (Hc s1 a s1' E HG') as [HG1 Hc'].
  split; [done|]. intros s2 HR. destruct (Hc' s2 HR) as (s2'&->&HR'). by apply Hk'.
Qed.

Context (output1 : Z → M (mem * X) unit) (output2 : Z → M (mem * Y) unit).
Context (sim_output : ∀ ch, sim (output1 ch) (output2 ch)) (R_mem : ∀ s1 s2, R s1 s2 → s1.1 ⊆ s2.1).

Lemma sim_load p : sim (on_mem (load p)) (on_mem (load p)).
Proof.
  intros [m1 x1] a s1'. unfold on_mem, load, bind, get_state; simpl in *.
  destruct (m1 !! p) as [v|] eqn:E; [|done]. simpl. intros [= <- <-] HG. split; [done|].
  intros [m2 x2] HR. pose proof (R_mem _ _ HR) as Hm. simpl in *.
  rewrite (lookup_weaken m1 m2 p v) by done. eexists; eauto.
Qed.

Lemma strnlen_loop_mono f1 f2 (m1 m2 : mem) p maxlen n r m1' :
  m1 ⊆ m2 → (f1 ≤ f2)%nat → strnlen_loop f1 p maxlen n m1 = Ret (r, m1') →
  m1' = m1 ∧ strnlen_loop f2 p maxlen n m2 = Ret (r, m2).
Proof.
  intros Hm. revert f2 n. induction f1 as [|f1 IH]; intros f2 n Hf; [done|]. destruct f2 as [|f2]; [lia|].
  simpl. unfold load, bind, get_state. destruct (m1 !! (p + n)) as [v|] eqn:E; simpl; [|done].
  rewrite (lookup_weaken m1 m2 _ v) by done. simpl. destruct (_ && _); [apply IH; lia|]. by intros [= <- <-].
Qed.

Lemma sim_strnlen p n : sim (on_mem (strnlen p n)) (on_mem (strnlen p n)).
Proof.
  intros [m1 x1] a s1'. unfold on_mem, strnlen, bytes_mapped, gets, bind. cbn [fst snd].
  destruct (strnlen_loop _ p n 0 m1) as [[r m1']|] eqn:E; [|done]. intros [= <- <-] HG.
  assert (m1' = m1) as -> by (eapply (strnlen_loop_mono _ (S (size m1)) m1 m1) in E as [-> _]; done). split; [done|].
  intros [m2 x2] HR. pose proof (R_mem _ _ HR) as Hm. cbn [fst snd] in *.
  assert (size m1 ≤ size m2)%nat by (by apply map_subseteq_size).
  destruct (strnlen_loop_mono _ (S (size m2)) m1 m2 _ _ _ _ _ Hm ltac:(by apply le_n_S) E) as [_ ->]. eexists; eauto.
Qed.

(** Goes through the parts the two runs have in common. *)
Local Ltac sim_step :=
  lazymatch goal with
  | |- sim (bind _ _) (bind _ _) => apply sim_bind; [|intros ?]
  | |- sim (ret _) (ret _) => apply sim_ret
  | |- sim (fail _) _ => apply sim_fail
  | |- sim (deref _) (deref _) => apply sim_deref
  | |- sim (output1 _) (output2 _) => apply sim_output
  | |- sim (on_mem (load _)) _ => apply sim_load
  | |- sim (on_mem (strnlen _ _)) _ => apply sim_strnlen
  | |- sim (let _ := _ in _) _ => cbv zeta
  | |- sim (match ?e with _ => _ end) _ => destruct e
  end.
Local Ltac sim_auto := repeat (sim_step || (progress eauto with sim)).

Create HintDb sim.

Lemma sim_output_all l : sim (output_all output1 l) (output_all output2 l).
Proof. induction l; simpl; sim_auto. Qed.
Lemma sim_output_dup ch n : sim (output_dup output1 ch n) (output_dup output2 ch n).
Proof. induction n; simpl; sim_auto. Qed.
Hint Resolve sim_output_all sim_output_dup : sim.

Lemma sim_push ch buf : sim (push ch buf) (push ch buf).
Proof. unfold push. sim_auto. Qed.
Hint Resolve sim_push : sim.
Lemma sim_digits_loop n v b f k buf : sim (digits_loop n v b f k buf) (digits_loop n v b f k buf).
Proof. revert v k buf. induction n; intros v k buf; simpl; sim_auto. Qed.
Lemma sim_zeros_loop n p buf : sim (zeros_loop n p buf) (zeros_loop n p buf).
Proof. revert buf. induction n; intros buf; simpl; sim_auto. Qed.
Hint Resolve sim_digits_loop sim_zeros_loop : sim.
Lemma sim_format_integer v s n b c : sim (format_integer output1 v s n b c) (format_integer output2 v s n b c).
Proof. unfold format_integer. sim_auto. Qed.

Lemma sim_output_string n str1 str2 i :
  (∀ i, sim (str1 i) (str2 i)) → sim (output_string output1 n str1 i) (output_string output2 n str2 i).
Proof. intros Hs. revert i. induction n; intros i; simpl; sim_auto. Qed.
Lemma sim_format_string str1 str2 n c :
  (∀ i, sim (str1 i) (str2 i)) → sim (format_string output1 str1 n c) (format_string output2 str2 n c).
Proof. intros Hs. unfold format_string. sim_auto. by apply sim_output_string. Qed.
Hint Resolve sim_format_integer sim_format_string : sim.

Lemma sim_va_word args : sim (va_word args) (va_word args).
Proof. unfold va_word. sim_auto. Qed.
Hint Resolve sim_va_word : sim.
Lemma sim_va_int args : sim (va_int args) (va_int args).
Proof. unfold va_int. sim_auto. Qed.
Lemma sim_va_quad args : sim (va_quad args) (va_quad args).
Proof. unfold va_quad. sim_auto. Qed.
Hint Resolve sim_va_int sim_va_quad : sim.
Lemma sim_signed_arg t args : sim (signed_arg t args) (signed_arg t args).
Proof. unfold signed_arg. sim_auto. Qed.
Lemma sim_unsigned_arg t args : sim (unsigned_arg t args) (unsigned_arg t args).
Proof. unfold unsigned_arg. sim_auto. Qed.
Hint Resolve sim_signed_arg sim_unsigned_arg : sim.
Lemma sim_parse_width f format args : sim (parse_width f format args) (parse_width f format args).
Proof. unfold parse_width. sim_auto. Qed.
Lemma sim_parse_precision format args : sim (parse_precision format args) (parse_precision format args).
Proof. unfold parse_precision. sim_auto. Qed.
Hint Resolve sim_parse_width sim_parse_precision : sim.
Lemma sim_parse_conversion format args : sim (parse_conversion format args) (parse_conversion format args).
Proof. unfold parse_conversion. sim_auto. Qed.
Lemma sim_convert_string args c : sim (convert_string output1 args c) (convert_string output2 args c).
Proof.
  unfold convert_string. sim_auto; apply sim_format_string; intros i; [apply sim_deref|apply sim_load].
Qed.
Hint Resolve sim_parse_conversion sim_convert_string : sim.

Lemma sim_convert u1 u2 ch c args :
  (∀ l, sim (u1 l) (u2 l)) → sim (convert output1 u1 ch c args) (convert output2 u2 ch c args).
Proof.
  intros Hu. unfold convert. sim_auto. apply sim_format_string. intros i. apply sim_ret.
Qed.

Lemma sim_vprintf_loop fuel format args :
  sim (vprintf_loop output1 fuel format args) (vprintf_loop output2 fuel format args).
Proof.
  revert format args. induction fuel as [|fuel IH]; intros format args; simpl; [apply sim_fail|].
  sim_auto; apply sim_convert; intros ?; apply IH.
Qed.

Lemma sim_vprintf format args : sim (__vprintf output1 format args) (__vprintf output2 format args).
Proof. apply sim_vprintf_loop. Qed.

End Simulation.

(** ** [vsnprintf] writes a prefix of the output *)
Local Opaque __vprintf.

(** The bytes a buffer of [size] bytes is given. *)
Definition snprintf_bytes (size : Z) (out : list Z) : list Z :=
  if bool_decide (size > 0) then take (Z.to_nat (size - 1)) out ++ [0] else [].

Section Vsnprintf.
Context (m0 strings : mem) (buffer size : Z).
Context (Hsize : 0 ≤ size ≤ 2 ^ 31) (Hbuf : mapped m0 buffer size).
Context (Hsub : strings ⊆ m0) (Hdisj : ∀ a, buffer ≤ a < buffer + size → strings !! a = None).

Definition room : nat := Z.to_nat (size - 1).
Definition vs_rel (s1 : mem * list Z) (s2 : mem * vsnprintf_aux) : Prop :=
  s1.1 = strings ∧ writes m0 buffer (take room s1.2) s2.1 ∧
  s2.2 = VsnprintfAux (buffer + Z.of_nat (length (take room s1.2))) (Z.of_nat (length s1.2)) (Z.of_nat room).
Definition vs_short (s1 : mem * list Z) : Prop := Z.of_nat (length s1.2) < 2 ^ 31.

Lemma vs_store m2 l v :
  writes m0 buffer l m2 → Z.of_nat (length l) < size →
  store (buffer + Z.of_nat (length l)) v m2 = Ret (tt, <[buffer + Z.of_nat (length l) := v]> m2) ∧
  writes m0 buffer (l ++ [v]) (<[buffer + Z.of_nat (length l) := v]> m2).
Proof.
  intros Hw Hl. assert (buffer + Z.of_nat (length l) ∈ dom m0) as Hd by (apply Hbuf; lia).
  split; [|by apply writes_then_store]. destruct Hw as (_&_&Hdom). rewrite <- Hdom in Hd.
  apply elem_of_dom in Hd as [x Hx]. unfold store, bind, get_state. by rewrite Hx.
Qed.

Lemma vs_rel_mem s1 s2 : vs_rel s1 s2 → s1.1 ⊆ s2.1.
Proof.
  intros (->&(_&Hf&_)&_). apply map_subseteq_spec. intros a v Ha.
  destruct (decide (buffer ≤ a < buffer + size)) as [Hin|Hout]; [by rewrite Hdisj in Ha|].
  rewrite Hf; [by eapply lookup_weaken|]. rewrite length_take. unfold room. lia.
Qed.

Lemma vs_rel_output ch : sim vs_rel vs_short (trace_output ch) (vsnprintf_helper ch).
Proof.
  intros [m1 out] [] s1' [= <-] HG. unfold vs_short in *. cbn [fst snd] in *. rewrite length_app in HG. simpl in HG.
  split; [lia|]. intros [m2 aux] (H1&H2&H3). cbn [fst snd] in *. subst m1 aux. unfold vsnprintf_helper, bind, get_state.
  cbn [vs_p vs_length vs_max_length]. rewrite s32_small by word_lia.
  destruct (decide (length out < room)%nat) as [Hlt|Hge].
  - rewrite bool_decide_true by lia. rewrite take_ge in * by lia.
    destruct (vs_store m2 out ch H2) as [Hst Hw]; [unfold room in Hlt; lia|].
    unfold put_state, on_mem. cbn [fst snd]. rewrite Hst. eexists; split; [done|].
    split_and!; cbn [fst snd]; [done|..]; rewrite take_ge by (rewrite length_app; simpl; lia); [done|].
    rewrite length_app. simpl. f_equal; lia.
  - rewrite bool_decide_false by lia. eexists; split; [done|].
    split_and!; cbn [fst snd]; [done|..]; rewrite take_app_le by lia; [done|]. rewrite length_app. simpl. f_equal; lia.
Qed.

Lemma vs_run format args m1 out :
  __vprintf trace_output format args (strings, []) = Ret (tt, (m1, out)) → Z.of_nat (length out) < 2 ^ 31 →
  ∃ s2, __vprintf vsnprintf_helper format args (m0, VsnprintfAux buffer 0 (Z.of_nat room)) = Ret (tt, s2) ∧
    vs_rel (m1, out) s2.
Proof.
  intros E Hlen.
  destruct (sim_vprintf vs_rel vs_short _ _ vs_rel_output vs_rel_mem format args _ _ _ E Hlen) as [_ Hs].
  apply Hs. split_and!; cbn [fst snd]; [done|..]; rewrite take_nil; [apply writes_nil|].
  cbn [length]. f_equal; lia.
Qed.

Lemma vsnprintf_refines format args out :
  trace_printf strings format args = Ret out → Z.of_nat (length out) < 2 ^ 31 →
  ∃ m', vsnprintf buffer size format args m0 = Ret (Z.of_nat (length out), m') ∧
    writes m0 buffer (snprintf_bytes size out) m'.
Proof.
  intros Ht Hlen. unfold trace_printf in Ht.
  destruct (__vprintf trace_output format args (strings, [])) as [[[] [m1 out']]|] eqn:E; [|discriminate].
  injection Ht as ->. unfold vsnprintf.
  replace (s32 _) with (Z.of_nat room).
  2:{ unfold room. rewrite s32_small by (case_bool_decide; word_lia). case_bool_decide; lia. }
  destruct (vs_run _ _ _ _ E Hlen) as ([m2 aux]&->&_&Hw&Haux). cbn [fst snd] in Hw, Haux. subst aux.
  cbn [vs_p vs_length]. unfold snprintf_bytes. case_bool_decide as Hpos.
  - destruct (vs_store m2 (take room out) 0 Hw) as [Hst Hw2]; [rewrite length_take; unfold room; lia|].
    unfold bind. rewrite Hst. by eexists.
  - eexists; split; [reflexivity|]. unfold room in Hw. by replace (Z.to_nat (size - 1)) with O in Hw by lia.
Qed.

End Vsnprintf.

(** ** [vhprintf] writes the output in blocks *)
Module UserConsoleSpec.
Import UserConsole.

Section Vhprintf.
Context (m0 : mem) (handle : Z).

(** A block is never empty and never larger than the buffer. *)
Definition block_ok (b : Z * list Z) : Prop := b.1 = handle ∧ (0 < length b.2 ≤ 64)%nat.

Record vh_rel (s1 : mem * list Z) (s2 : mem * ustate) : Prop := VhRel {
  vh_mem1 : s1.1 = m0;
  vh_mem2 : s2.1 = m0;
  vh_out : concat (s2.2.2.*2) ++ vh_buf s2.2.1 = s1.2;
  vh_blocks : Forall block_ok s2.2.2;
  vh_room : (length (vh_buf s2.2.1) < 64)%nat;
  vh_cnt : vh_char_cnt s2.2.1 = Z.of_nat (length s1.2);
  vh_hnd : vh_handle s2.2.1 = handle
}.

Lemma flush_step m buf cnt w :
  (0 < length buf ≤ 64)%nat → Forall block_ok w →
  flush (m, (VhprintfAux buf cnt handle, w)) = Ret (tt, (m, (VhprintfAux [] cnt handle, w ++ [(handle, buf)]))) ∧
  Forall block_ok (w ++ [(handle, buf)]) ∧ concat ((w ++ [(handle, buf)]).*2) = concat (w.*2) ++ buf.
Proof.
  intros Hb Hw. split_and!.
  - unfold flush, bind, get_state. cbn [vh_buf]. rewrite bool_decide_true by (intros ->; simpl in Hb; lia). done.
  - apply Forall_app. split; [done|]. apply Forall_singleton. split; simpl; [done|lia].
  - rewrite fmap_app, concat_app. simpl. by rewrite app_nil_r.
Qed.

Lemma vh_rel_output ch : sim vh_rel (λ s, Z.of_nat (length s.2) < 2 ^ 31) (trace_output ch) (add_char ch).
Proof.
  intros [m1 out] [] s1' [= <-] HG. cbn [fst snd] in *. rewrite length_app in HG. simpl in HG. split; [lia|].
  intros [m2 [[buf cnt h] w]] [H0 H1 H2 H3 H4 H5 H6]. cbn in H0, H1, H2, H3, H4, H5, H6. subst m1 m2 cnt h.
  unfold add_char, bind at 1, get_state. cbn [vh_buf vh_char_cnt vh_handle]. rewrite bool_decide_true by done.
  unfold ret, bind, put_state, modify. rewrite length_app. cbn [length].
  destruct (decide (64 ≤ length buf + 1)%nat) as [Hfull|Hroom].
  - rewrite bool_decide_true by done.
    destruct (flush_step m0 (buf ++ [ch]) (Z.of_nat (length out)) w) as (->&Hok&Hc); [rewrite length_app; simpl; lia|done|].
    eexists; split; [done|]. cbn [fst snd vh_buf vh_char_cnt vh_handle]. rewrite s32_small by word_lia.
    split; cbn [fst snd vh_buf vh_char_cnt vh_handle]; [done|done| |done|simpl; lia| |done].
    + by rewrite Hc, app_nil_r, app_assoc, H2.
    + rewrite length_app. simpl. lia.
  - rewrite bool_decide_false by done. eexists; split; [done|]. cbn [fst snd vh_buf vh_char_cnt vh_handle].
    rewrite s32_small by word_lia.
    split; cbn [fst snd vh_buf vh_char_cnt vh_handle]; [done|done|by rewrite app_assoc, H2|done|rewrite length_app; simpl; lia| |done].
    rewrite length_app. simpl. lia.
Qed.

Lemma vh_rel_mem s1 s2 : vh_rel s1 s2 → s1.1 ⊆ s2.1.
Proof. by intros [-> -> _ _ _ _ _]. Qed.

Lemma vhprintf_refines format args out :
  trace_printf m0 format args = Ret out → Z.of_nat (length out) < 2 ^ 31 →
  ∃ w, vhprintf handle format args m0 = Ret ((Z.of_nat (length out), w), m0) ∧
    concat (w.*2) = out ∧ Forall block_ok w.
Proof.
  intros Ht Hlen. unfold trace_printf in Ht.
  destruct (__vprintf trace_output format args (m0, [])) as [[[] [m1 out']]|] eqn:E; [|discriminate].
  injection Ht as ->.
  destruct (sim_vprintf vh_rel _ _ _ vh_rel_output vh_rel_mem format args _ _ _ E Hlen) as [_ Hs].
  destruct (Hs (m0, (VhprintfAux [] 0 handle, []))) as ([m2 [[buf cnt h] w]]&Hrun&[H0 H1 H2 H3 H4 H5 H6]).
  { by split; simpl; (done || lia). }
  cbn in H0, H1, H2, H3, H4, H5, H6. subst m1 m2 cnt h. unfold vhprintf, bind. rewrite Hrun.
  destruct (decide (buf = [])) as [->|Hne].
  - exists w. rewrite app_nil_r in H2. done.
  - assert (length buf ≠ O) by (by intros ?%nil_length_inv).
    destruct (flush_step m0 buf (Z.of_nat (length out)) w) as (->&Hok&Hc); [lia|done|].
    eexists; split; [reflexivity|]. by rewrite Hc.
Qed.

End Vhprintf.
End UserConsoleSpec.

(** A test of two flags. *)
Lemma has_lor f a b : has f (Z.lor a b) = has f a || has f b.
Proof.
  unfold has. rewrite Z.land_lor_distr_r. apply eq_bool_prop_intro. rewrite orb_True, !bool_decide_spec, Z.lor_eq_0_iff.
  destruct (decide (Z.land f a = 0)); tauto.
Qed.

(** ** Termination and buffer bounds

    [safe c Q]: run from any state, [c] returns a value in [Q] or touches
    memory it should not; it does not run out of fuel. *)
Section Safety.
Context {X : Type}.
Notation P := (M (mem * X)).

Definition safe {A} (c : P A) (Q : A → Prop) : Prop :=
  ∀ s, match c s with Ret (a, _) => Q a | Fail f => f = BadAccess end.

Lemma conv_safe_ret {A} (a : A) (Q : A → Prop) : Q a → safe (ret a) Q.
Proof. by intros HQ s. Qed.
Lemma safe_bad {A} (Q : A → Prop) : safe (fail BadAccess) Q.
Proof. done. Qed.
Lemma safe_deref {A} (o : option A) (Q : A → Prop) : (∀ a, Q a) → safe (deref o) Q.
Proof. intros HQ s. destruct o; simpl; auto. Qed.
Lemma conv_safe_bind {A B} (c : P A) (k : A → P B) Q' Q :
  safe c Q' → (∀ a, Q' a → safe (k a) Q) → safe (bind c k) Q.
Proof.
  intros Hc Hk s. unfold bind. specialize (Hc s). destruct (c s) as [[a s']|]; [|done]. by apply Hk.
Qed.
Lemma conv_safe_mono {A} (c : P A) (Q Q' : A → Prop) : safe c Q → (∀ a, Q a → Q' a) → safe c Q'.
Proof. intros Hc HQ s. specialize (Hc s). destruct (c s) as [[a s']|]; auto. Qed.

(** What is known of a value does not matter. *)
Notation any := (λ _, True).

Lemma safe_load p : safe (on_mem (load p)) any.
Proof. intros [m x]. unfold on_mem, load, bind, get_state. simpl. by destruct (m !! p). Qed.

Lemma strnlen_loop_safe fuel (m : mem) p maxlen l :
  bytes_at m p l → (size m < fuel + length l)%nat →
  match strnlen_loop fuel p maxlen (Z.of_nat (length l)) m with Ret _ => True | Fail f => f = BadAccess end.
Proof.
  revert l. induction fuel as [|fuel IH]; intros l Hb Hf.
  { apply bytes_at_size in Hb. lia. }
  simpl. unfold load, bind, get_state. destruct (m !! (p + Z.of_nat (length l))) as [v|] eqn:E; simpl; [|done].
  destruct (_ && _); [|done]. specialize (IH (l ++ [v])). rewrite length_app in IH. simpl in IH.
  replace (Z.of_nat (length l + 1)) with (Z.of_nat (length l) + 1) in IH by lia. apply IH; [|lia].
  by apply bytes_at_app.
Qed.
Lemma safe_strnlen p n : safe (on_mem (strnlen p n)) any.
Proof.
  intros [m x]. unfold on_mem, strnlen, bytes_mapped, gets, bind. cbn [fst snd].
  pose proof (strnlen_loop_safe (S (size m)) m p n [] I ltac:(simpl; lia)) as H. simpl (Z.of_nat _) in H.
  by destruct (strnlen_loop _ _ _ _ _) as [[]|].
Qed.

Lemma safe_va_word args : safe (va_word args) any.
Proof. destruct args; done. Qed.
Lemma safe_va_int args : safe (va_int args) any.
Proof. destruct args; done. Qed.
Lemma safe_va_quad args : safe (va_quad args) any.
Proof. destruct args as [|? [|]]; done. Qed.

(** *** The buffer of [format_integer] *)

(** The bases of the conversions. *)
Definition base_ok (b : integer_base) : Prop :=
  8 ≤ base b ∧ (group b = 3 ∨ group b = 4) ∧ Z.of_nat (length (digits b)) = base b.

(** One separator between groups of digits. *)
Definition buf_inv (b : integer_base) (cnt : Z) (buf : list Z) : Prop :=
  0 ≤ cnt ∧ Z.of_nat (length buf) ≤ cnt + (Z.max 1 cnt - 1) / group b.

Lemma push_wp ch (buf : list Z) (s : mem * X) Q :
  (length buf < 64)%nat → Q (ch :: buf) s → wp (push ch buf) s Q.
Proof. intros Hl HQ. unfold push. by rewrite bool_decide_true. Qed.

Lemma digits_loop_wp fuel n v b f cnt buf (s : mem * X) (Q : list Z → mem * X → Prop) :
  (n < fuel)%nat → base_ok b → 0 ≤ v < 8 ^ Z.of_nat n → cnt + Z.of_nat n ≤ 22 → buf_inv b cnt buf →
  (∀ buf' cnt', buf_inv b cnt' buf' → cnt' ≤ 22 → Q buf' s) →
  wp (digits_loop fuel v b f cnt buf) s Q.
Proof.
  intros Hf (Hb&Hg&Hd). revert n Hf v cnt buf. induction fuel as [|fuel IH]; intros [|n] Hf v cnt buf Hv Hc Hi HQ; [lia|lia|..].
  { simpl in Hv. simpl. rewrite bool_decide_false by lia. apply (HQ _ cnt); [done|lia]. }
  simpl. case_bool_decide as Hpos; [|apply (HQ _ cnt); [done|lia]].
  destruct (lookup_lt_is_Some_2 (digits b) (Z.to_nat (v mod base b))) as [d Hdg].
  { pose proof (Z.mod_pos_bound v (base b) ltac:(lia)). lia. }
  assert (0 ≤ v / base b < 8 ^ Z.of_nat n) as Hv'.
  { split; [apply Z.div_pos; lia|]. apply Z.div_lt_upper_bound; [lia|].
    replace (Z.of_nat (S n)) with (Z.of_nat n + 1) in Hv by lia. rewrite Z.pow_add_r, Z.pow_1_r in Hv by lia.
    pose proof (Z.pow_nonneg 8 (Z.of_nat n)). nia. }
  destruct Hi as [Hc0 Hi]. assert (Z.of_nat (length buf) ≤ 30) by (destruct Hg as [Hg|Hg]; rewrite Hg in *; lia).
  apply wp_bind. case_match eqn:Hgrp.
  - apply andb_true_iff in Hgrp as [[_ Hc1%bool_decide_eq_true]%andb_true_iff Hm%bool_decide_eq_true].
    apply push_wp; [lia|]. apply wp_bind.
    eapply wp_deref; [done|]. apply wp_bind. apply push_wp; [simpl; lia|]. apply (IH n); [lia|done|lia| |done].
    split; [lia|]. cbn [length]. destruct Hg as [Hg|Hg]; rewrite Hg in *; lia.
  - apply wp_ret, wp_bind. eapply wp_deref; [done|]. apply wp_bind. apply push_wp; [lia|].
    apply (IH n); [lia|done|lia| |done]. split; [lia|]. cbn [length]. destruct Hg as [Hg|Hg]; rewrite Hg in *; lia.
Qed.

Lemma zeros_loop_wp n p buf (s : mem * X) (Q : list Z → mem * X → Prop) :
  (64 ≤ n + length buf)%nat → (length buf ≤ 63)%nat →
  (∀ buf', (length buf' ≤ 63)%nat → Q buf' s) → wp (zeros_loop n p buf) s Q.
Proof.
  revert buf. induction n as [|n IH]; intros buf Hn Hl HQ; simpl; [lia|].
  destruct (_ && _) eqn:Hc; [|by apply HQ]. apply andb_true_iff in Hc as [_ Hc%bool_decide_eq_true].
  unfold buf_size in Hc. apply wp_bind, push_wp; [lia|]. apply IH; [simpl; lia|simpl; lia|done].
Qed.

(** *** What is output *)
Section Text.
Context (output : Z → P unit).

(** The computation outputs [l]. *)
Definition emits (c : P unit) (l : list Z) : Prop := ∀ s, c s = output_all output l s.

Lemma emits_ret : emits (ret tt) [].
Proof. done. Qed.
Lemma emits_output ch : emits (output ch) [ch].
Proof. intros s. simpl. unfold bind. by destruct (output ch s) as [[[] s']|]. Qed.
Lemma emits_all l : emits (output_all output l) l.
Proof. done. Qed.
Lemma emits_dup ch n : emits (output_dup output ch n) (replicate n ch).
Proof.
  induction n as [|n IH]; [done|]. intros s. simpl. unfold bind. destruct (output ch s) as [[[] s']|]; [|done]. apply IH.
Qed.
Lemma emits_bind c1 c2 l1 l2 : emits c1 l1 → emits c2 l2 → emits (c1;; c2) (l1 ++ l2).
Proof.
  intros H1 H2 s. unfold bind. rewrite H1. clear H1. revert s. induction l1 as [|ch l1 IH]; intros s; [by apply H2|].
  simpl. unfold bind in *. destruct (output ch s) as [[[] s']|]; [|done]. apply IH.
Qed.
Lemma emits_if (b : bool) c l : emits c l → emits (if b then c else ret tt) (if b then l else []).
Proof. by destruct b. Qed.

(** The three loops that fill the buffer stay inside of it. *)
Lemma format_integer_buf v b f p (s : mem * X) :
  base_ok b → is_u64 v →
  wp (buf ← digits_loop (S buf_size) v b f 0 [];
      buf ← zeros_loop (S buf_size) p buf;
      if has f POUND && bool_decide (base b = 8) && (bool_decide (buf = []) || bool_decide (head buf ≠ Some 48))
      then push 48 buf else ret buf) s (λ buf s', s' = s ∧ (length buf ≤ 64)%nat).
Proof.
  intros Hb Hv. apply wp_bind. apply (digits_loop_wp _ 22); [unfold buf_size; lia|done|word_lia|lia| |].
  { split; simpl; [lia|]. destruct Hb as (_&[-> | ->]&_); lia. }
  intros buf cnt [Hc Hi] Hcnt. assert (length buf ≤ 30)%nat by (destruct Hb as (_&[Hg|Hg]&_); rewrite Hg in *; lia).
  apply wp_bind, zeros_loop_wp; [unfold buf_size; lia|lia|]. intros buf' Hl.
  case_match; [apply push_wp|apply wp_ret]; simpl; split || lia; (done || lia).
Qed.

(** The length of the padded text; with both flags it is padded twice. *)
Lemma padded_length f width (bs bx : bool) sign x (buf : list Z) :
  (length buf ≤ 64)%nat → 0 ≤ width < 2 ^ 31 →
  let cnt := s32 (width - Z.of_nat (length buf) - (if bx then 2 else 0) - (if bs then 1 else 0)) in
  let pad ch := replicate (Z.to_nat (if bool_decide (cnt < 0) then 0 else cnt)) ch in
  let l := (if negb (has f (Z.lor MINUS ZERO)) then pad 32 else []) ++ (if bs then [sign] else []) ++
           (if bx then [48] ++ [x] else []) ++ (if has f ZERO then pad 48 else []) ++ buf ++
           (if has f MINUS then pad 32 else []) in
  width ≤ Z.of_nat (length l) ∧ (has f MINUS && has f ZERO = false → Z.of_nat (length l) ≤ Z.max width 67).
Proof.
  intros Hb Hw cnt pad l.
  assert (∀ ch, Z.of_nat (length (pad ch)) = Z.max 0 cnt) as Hpad.
  { intros ch. unfold pad. rewrite length_replicate. case_bool_decide; lia. }
  assert (cnt = width - Z.of_nat (length buf) - (if bx then 2 else 0) - (if bs then 1 else 0)) as Hc
    by (apply s32_small; destruct bx, bs; word_lia).
  unfold l. rewrite !length_app, has_lor. clear l. clearbody pad cnt.
  destruct (has f MINUS), (has f ZERO), bs, bx; simpl; rewrite ?Nat2Z.inj_succ, ?Nat2Z.inj_add, ?Nat2Z.inj_succ,
    ?Nat2Z.inj_add, ?Hpad; simpl (Z.of_nat 0); split; try done; lia.
Qed.

Lemma format_integer_emits v sg neg b c s :
  base_ok b → is_u64 v →
  ∃ l, format_integer output v sg neg b c s = output_all output l s ∧
    (0 ≤ width c < 2 ^ 31 → width c ≤ Z.of_nat (length l) ∧
       (has (flags c) MINUS && has (flags c) ZERO = false → Z.of_nat (length l) ≤ Z.max (width c) 67)).
Proof.
  intros Hb Hv. unfold format_integer.
  pose proof (format_integer_buf v b (flags c) (if bool_decide (precision c < 0) then 1 else precision c) s Hb Hv) as Hw.
  apply wp_outcome in Hw as (buf&s'&Hrun&->&Hl). unfold bind at 1 in Hrun. unfold bind at 1.
  destruct (digits_loop _ _ _ _ _ _ _) as [[buf1 s1]|]; [|done]. unfold bind at 1 in Hrun. unfold bind at 1.
  destruct (zeros_loop _ _ _ _) as [[buf2 s2]|]; [|done]. unfold bind at 1. rewrite Hrun. clear Hrun buf1 s1 buf2 s2.
  generalize (sign_char sg neg (flags c)) as sign. generalize (if has (flags c) POUND && bool_decide (v ≠ 0) then x b else 0) as xx.
  intros xx sign. eexists; split.
  - repeat first [ apply emits_bind | apply emits_if | apply emits_output | apply emits_dup | apply emits_all ].
  - intros Hw. exact (padded_length (flags c) (width c) (bool_decide (sign ≠ 0)) (bool_decide (xx ≠ 0)) sign xx buf Hl Hw).
Qed.

(** *** The engine *)
Context (Hout : ∀ ch, safe (output ch) any).

Lemma safe_output_all l : safe (output_all output l) any.
Proof. induction l; simpl; [by apply conv_safe_ret|]. by eapply conv_safe_bind; [apply Hout|]. Qed.
Lemma safe_emits c l : emits c l → safe c any.
Proof. intros He s. rewrite He. apply safe_output_all. Qed.

Lemma safe_format_integer v sg neg b c : base_ok b → is_u64 v → safe (format_integer output v sg neg b c) any.
Proof. intros Hb Hv s. destruct (format_integer_emits v sg neg b c s Hb Hv) as (l&->&_). apply safe_output_all. Qed.

Lemma safe_output_string n str i : (∀ i, safe (str i) any) → safe (output_string output n str i) any.
Proof.
  intros Hs. revert i. induction n as [|n IH]; intros i; simpl; [by apply conv_safe_ret|].
  eapply conv_safe_bind; [apply Hs|]. intros ch _. by eapply conv_safe_bind; [apply Hout|].
Qed.
Lemma safe_format_string str n c : (∀ i, safe (str i) any) → safe (format_string output str n c) any.
Proof.
  intros Hs. unfold format_string. eapply conv_safe_bind; [eapply safe_emits, emits_if, emits_dup|]. intros _ _.
  eapply conv_safe_bind; [by apply safe_output_string|]. intros _ _. eapply safe_emits, emits_if, emits_dup.
Qed.

Lemma safe_signed_arg t args : safe (signed_arg t args) any.
Proof.
  destruct t; simpl; try apply safe_va_int;
    (eapply conv_safe_bind; [apply safe_va_word || apply safe_va_quad|]); by intros [] _.
Qed.

Lemma safe_unsigned_arg t args : safe (unsigned_arg t args) (λ r, is_u64 r.1).
Proof.
  destruct t; simpl; (eapply conv_safe_bind; [apply safe_va_word || apply safe_va_quad || apply safe_va_int|]);
    intros [w r] _; apply conv_safe_ret; simpl.
  - pose proof (u8_range w). word_lia.
  - pose proof (Z.mod_pos_bound w (2 ^ 16)). word_lia.
  - pose proof (u32_range w). word_lia.
  - apply u64_range.
  - pose proof (u32_range w). word_lia.
  - apply u64_range.
  - change (Z.lor _ 1) with (Z.ones 32). rewrite Z.land_ones by lia. pose proof (Z.mod_pos_bound (u64 w) (2 ^ 32)). word_lia.
  - pose proof (u32_range w). word_lia.
Qed.

Lemma bases_ok : base_ok base_d ∧ base_ok base_o ∧ base_ok base_x ∧ base_ok base_X.
Proof. repeat split; simpl; (lia || by left || by right). Qed.

Lemma safe_convert_string args c : safe (convert_string output args c) any.
Proof.
  unfold convert_string. eapply conv_safe_bind; [apply safe_va_word|]. intros [p args'] _.
  eapply conv_safe_bind; [|intros _ _; by apply conv_safe_ret]. case_bool_decide.
  - apply safe_format_string. intros i. by apply safe_deref.
  - eapply conv_safe_bind; [apply safe_strnlen|]. intros n _. apply safe_format_string. intros i. apply safe_load.
Qed.

Lemma safe_convert unknown ch c args :
  safe (unknown (chars "<<no %%%c in kernel>>")) any → safe (unknown (chars "<<no %%%c conversion>>")) any →
  safe (convert output unknown ch c args) any.
Proof.
  intros H1 H2. destruct bases_ok as (Hd&Ho&Hx&HX). unfold convert.
  repeat match goal with |- safe (if ?b then _ else _) _ => destruct b end.
  - eapply conv_safe_bind; [apply safe_signed_arg|]. intros [v args'] _.
    eapply conv_safe_bind; [|intros _ _; by apply conv_safe_ret]. apply safe_format_integer; [done|apply u64_range].
  - eapply conv_safe_bind; [apply safe_unsigned_arg|]. intros [v args'] Hv.
    eapply conv_safe_bind; [|intros _ _; by apply conv_safe_ret]. apply safe_format_integer; [|done].
    by repeat case_bool_decide.
  - eapply conv_safe_bind; [apply safe_va_word|]. intros [v args'] _.
    eapply conv_safe_bind; [|intros _ _; by apply conv_safe_ret]. apply safe_format_string. intros i. by apply conv_safe_ret.
  - apply safe_convert_string.
  - eapply conv_safe_bind; [apply safe_va_word|]. intros [v args'] _.
    eapply conv_safe_bind; [|intros _ _; by apply conv_safe_ret]. apply safe_format_integer; [done|].
    pose proof (u32_range v). word_lia.
  - eapply conv_safe_bind; [exact H1|]. intros _ _. by apply conv_safe_ret.
  - eapply conv_safe_bind; [exact H2|]. intros _ _. by apply conv_safe_ret.
Qed.

(** Parsing leaves a part of the format. *)
Lemma parse_flags_length format f : (length (parse_flags format f).2 ≤ length format)%nat.
Proof.
  revert f. induction format as [|c r IH]; intros f; simpl; [done|]. destruct (flag_of c) as [b|]; simpl; [|done].
  specialize (IH (Z.lor f b)). lia.
Qed.
Lemma parse_number_length format n : (length (parse_number format n).2 ≤ length format)%nat.
Proof.
  revert n. induction format as [|c r IH]; intros n; simpl; [done|]. destruct (isdigit c); simpl; [|done].
  specialize (IH (s32 (n * 10 + c - 48))). lia.
Qed.
Lemma length_tail {A} (l : list A) : (length (tail l) ≤ length l)%nat.
Proof. destruct l; simpl; lia. Qed.
Lemma parse_type_length format : (length (parse_type format).2 ≤ length format)%nat.
Proof.
  unfold parse_type. pose proof (length_tail format). pose proof (length_tail (tail format)).
  repeat case_bool_decide; simpl; lia.
Qed.

(** A star takes an argument, anything else is a number. *)
Lemma safe_star_or_number format args :
  safe (if bool_decide (peek format = 42) then ' (w, args) ← va_int args; ret (w, tail format, args)
        else let '(w, r) := parse_number format 0 in ret (w, r, args))
       (λ r, (length r.1.2 ≤ length format)%nat).
Proof.
  case_bool_decide.
  - eapply conv_safe_bind; [apply safe_va_int|]. intros [w args'] _. apply conv_safe_ret, length_tail.
  - pose proof (parse_number_length format 0). destruct (parse_number format 0) as [w r]. by apply conv_safe_ret.
Qed.

Lemma safe_parse_conversion format args :
  safe (parse_conversion format args) (λ r, (length r.1.2 ≤ length format)%nat).
Proof.
  unfold parse_conversion. pose proof (parse_flags_length format 0) as Hf.
  destruct (parse_flags format 0) as [f format1]. cbn [snd] in Hf.
  eapply conv_safe_bind with (Q' := λ r, (length r.1.2 ≤ length format)%nat).
  { unfold parse_width. eapply conv_safe_bind; [apply safe_star_or_number|]. intros [[w r] args1] Hr. cbn [fst snd] in Hr.
    case_bool_decide; apply conv_safe_ret; simpl; lia. }
  intros [[[f2 w] format2] args2] H2. cbn [fst snd] in H2.
  eapply conv_safe_bind with (Q' := λ r, (length r.1.2 ≤ length format)%nat).
  { unfold parse_precision. case_bool_decide; [|by apply conv_safe_ret].
    eapply conv_safe_bind; [apply safe_star_or_number|]. intros [[p r] args1] Hr. cbn [fst snd] in Hr.
    pose proof (length_tail format2). apply conv_safe_ret. simpl. lia. }
  intros [[p format3] args3] H3. cbn [fst snd] in H3. pose proof (parse_type_length format3) as H4.
  destruct (parse_type format3) as [t format4]. cbn [snd] in H4. apply conv_safe_ret. simpl. lia.
Qed.

Lemma safe_loop_nil fuel args : safe (vprintf_loop output (S fuel) [] args) any.
Proof. by apply conv_safe_ret. Qed.
Lemma safe_loop_char fuel c r args :
  c ≠ 37 → safe (vprintf_loop output fuel r args) any → safe (vprintf_loop output (S fuel) (c :: r) args) any.
Proof. intros Hc Hr. simpl. rewrite bool_decide_true by done. by eapply conv_safe_bind; [apply Hout|]. Qed.
Lemma safe_loop_percent fuel r args :
  safe (vprintf_loop output fuel r args) any → safe (vprintf_loop output (S fuel) (37 :: 37 :: r) args) any.
Proof. intros Hr. simpl. by eapply conv_safe_bind; [apply Hout|]. Qed.
Lemma parse_conversion_c r args s :
  parse_conversion (X := X) (99 :: r) args s = Ret ((Conversion 0 0 (-1) INT, 99 :: r, args), s).
Proof. reflexivity. Qed.
Lemma safe_loop_c fuel r w :
  safe (vprintf_loop output fuel r []) any → safe (vprintf_loop output (S fuel) (37 :: 99 :: r) [w]) any.
Proof.
  intros Hr s. simpl. unfold bind at 1. rewrite parse_conversion_c. revert s.
  change (safe (args ← convert output (λ lit, vprintf_loop output fuel lit [99]) 99 (Conversion 0 0 (-1) INT) [w];
                vprintf_loop output fuel r args) any).
  eapply conv_safe_bind with (Q' := λ args, args = []); [|by intros ? ->].
  unfold convert. cbn -[format_string]. eapply conv_safe_bind with (Q' := λ r, r = (w, [])); [done|]. intros ? ->.
  eapply conv_safe_bind; [|intros _ _; by apply conv_safe_ret]. apply safe_format_string. intros i. by apply conv_safe_ret.
Qed.

(** The nested calls have enough fuel. *)
Lemma safe_unknown fuel ch :
  (24 ≤ fuel)%nat →
  safe (vprintf_loop output fuel (chars "<<no %%%c in kernel>>") [ch]) any ∧
  safe (vprintf_loop output fuel (chars "<<no %%%c conversion>>") [ch]) any.
Proof.
  intros Hf. replace fuel with (24 + (fuel - 24))%nat by lia. generalize (fuel - 24)%nat as k. intros k.
  cbn [Nat.add]. split; match goal with |- context [chars ?s] => let l := eval vm_compute in (chars s) in change (chars s) with l end;
    repeat lazymatch goal with
    | |- safe (vprintf_loop _ _ [] _) _ => apply safe_loop_nil
    | |- safe (vprintf_loop _ _ (37 :: 37 :: _) _) _ => apply safe_loop_percent
    | |- safe (vprintf_loop _ _ (37 :: _) _) _ => apply safe_loop_c
    | _ => apply safe_loop_char; [discriminate|]
    end.
Qed.

Lemma safe_vprintf_loop fuel format args :
  (32 + length format ≤ fuel)%nat → safe (vprintf_loop output fuel format args) any.
Proof.
  revert format args. induction fuel as [|fuel IH]; intros format args Hf; [lia|].
  destruct format as [|c r]; [apply safe_loop_nil|]. simpl in Hf.
  destruct (decide (c = 37)) as [->|Hc]; [|apply safe_loop_char; [done|apply IH; lia]].
  simpl. case_bool_decide.
  - eapply conv_safe_bind; [apply Hout|]. intros _ _. apply IH. pose proof (length_tail r). lia.
  - eapply conv_safe_bind; [apply safe_parse_conversion|]. intros [[cv format'] args'] Hl. cbn [fst snd] in Hl.
    eapply conv_safe_bind; [apply safe_convert; apply safe_unknown; lia|]. intros args2 _.
    destruct format' as [|d r']; [apply safe_bad|]. apply IH. simpl in Hl. lia.
Qed.

End Text.

End Safety.

(** ** Printing and reading numbers *)

(** [ds] are the decimal digits of [v], as [atoi] reads them. *)
Definition decimal (ds : list Z) (v : Z) : Prop :=
  Forall (λ c, isdigit c = true) ds ∧ ∀ rest, atoi_digits (ds ++ rest) 0 = atoi_digits rest (- v).

Lemma decimal_nil : decimal [] 0.
Proof. split; [constructor|done]. Qed.
Lemma isdigit_digit d : 0 ≤ d < 10 → isdigit (48 + d) = true.
Proof. intros Hd. unfold isdigit. rewrite !bool_decide_true by lia. done. Qed.
Lemma decimal_snoc ds v : decimal ds (v / 10) → 0 ≤ v ≤ 2 ^ 31 → decimal (ds ++ [48 + v mod 10]) v.
Proof.
  intros [Hd Ha] Hv. assert (isdigit (48 + v mod 10) = true) as Hdig by (apply isdigit_digit; lia). split.
  - apply Forall_app. by repeat constructor.
  - intros rest. rewrite <- app_assoc, Ha. cbn [app atoi_digits]. rewrite Hdig. f_equal.
    rewrite s32_small by word_lia. lia.
Qed.

Lemma base_d_digit d : 0 ≤ d < 10 → digits base_d !! Z.to_nat d = Some (48 + d).
Proof.
  intros Hd. assert (d = 0 ∨ d = 1 ∨ d = 2 ∨ d = 3 ∨ d = 4 ∨ d = 5 ∨ d = 6 ∨ d = 7 ∨ d = 8 ∨ d = 9) as H by lia.
  repeat destruct H as [->|H]; try reflexivity. by rewrite H.
Qed.

Section Decimal.
Context {X : Type} (output : Z → M (mem * X) unit).

Lemma digits_loop_decimal fuel n v f cnt buf (s : mem * X) :
  (n < fuel)%nat → has f GROUP = false → 0 ≤ v < 10 ^ Z.of_nat n → v ≤ 2 ^ 31 → (length buf + n ≤ 63)%nat →
  ∃ ds, digits_loop fuel v base_d f cnt buf s = Ret (ds ++ buf, s) ∧ decimal ds v ∧ (length ds ≤ n)%nat ∧
    (v = 0 ↔ ds = []).
Proof.
  revert n v cnt buf. induction fuel as [|fuel IH]; intros n v cnt buf Hn Hg Hv Hv2 Hb; [lia|]. simpl. rewrite Hg. simpl.
  case_bool_decide as Hpos.
  2:{ replace v with 0 by lia. exists []. split_and!; [done|apply decimal_nil|simpl; lia|done]. }
  destruct n as [|n]; [simpl in Hv; lia|].
  replace (Z.of_nat (S n)) with (Z.of_nat n + 1) in Hv by lia. rewrite Z.pow_add_r, Z.pow_1_r in Hv by lia.
  destruct (IH n (v / 10) (cnt + 1) (48 + v mod 10 :: buf)) as (ds&Hr&Hd&Hl&_); [lia|done|lia|lia|simpl; lia|].
  exists (ds ++ [48 + v mod 10]). unfold bind, ret at 1. rewrite base_d_digit by lia. simpl.
  unfold push. rewrite bool_decide_true by (unfold buf_size; lia). simpl. rewrite Hr, <- app_assoc. split_and!; [done|..].
  - apply decimal_snoc; [done|lia].
  - rewrite length_app. simpl. lia.
  - split; [lia|]. by intros [_ ?]%app_nil.
Qed.

(** Printed with only a width, in the field's left or right part. *)
Lemma format_decimal v neg c s :
  flags c = 0 ∨ flags c = MINUS → 0 ≤ width c < 2 ^ 31 → precision c = -1 → 0 ≤ v ≤ 2 ^ 31 →
  ∃ ds a b, format_integer output v true neg base_d c s =
      output_all output (replicate a 32 ++ (if neg then [45] else []) ++ ds ++ replicate b 32) s ∧
    decimal ds v ∧ ds ≠ [].
Proof.
  intros Hf Hw Hp Hv. unfold format_integer.
  assert (has (flags c) GROUP = false ∧ has (flags c) POUND = false ∧ has (flags c) PLUS = false ∧
    has (flags c) SPACE = false ∧ has (flags c) ZERO = false) as (Hg&Hpo&Hpl&Hsp&Hz) by (destruct Hf as [-> | ->]; done).
  destruct (digits_loop_decimal (S buf_size) 10 v (flags c) 0 [] s) as (ds&Hr&Hd&Hl&H0);
    [unfold buf_size; lia|done|lia|lia|simpl; lia|].
  unfold bind at 1. rewrite Hr, app_nil_r. clear Hr. rewrite Hp, Hpo, Hz. cbn [andb].
  rewrite (bool_decide_true (-1 < 0)) by lia.
  set (ds' := match ds with [] => [48] | _ => ds end).
  assert (zeros_loop (S buf_size) 1 ds s = Ret (ds', s)) as Hzl.
  { destruct ds; [reflexivity|]. cbn [zeros_loop]. by rewrite bool_decide_false by (simpl length; lia). }
  assert (decimal ds' v ∧ ds' ≠ []) as [Hd' Hne'].
  { destruct ds; [|done]. split; [|done]. replace v with 0 by (symmetry; by apply H0). by apply (decimal_snoc [] 0). }
  unfold bind at 1. rewrite Hzl. unfold bind at 1, ret at 1. clearbody ds'. clear Hzl Hd Hl H0.
  unfold sign_char. rewrite Hpl, Hsp, has_lor, Hz, orb_false_r.
  match goal with |- context [output_dup output 32 ?n] => set (pad := n) end. clearbody pad.
  exists ds', (if has (flags c) MINUS then O else pad), (if has (flags c) MINUS then pad else O).
  split; [|done]. rewrite (bool_decide_false (0 ≠ 0)) by lia.
  assert (∀ l1 l2, l1 = l2 → output_all output l1 s = output_all output l2 s) as Heq by congruence.
  etransitivity; [|apply Heq].
  - repeat first [ apply emits_bind | apply emits_if | apply emits_ret | apply emits_output | apply emits_dup | apply emits_all ].
  - destruct (has (flags c) MINUS), neg; simpl; by rewrite ?app_nil_r.
Qed.

End Decimal.

Lemma s32_u32 n : is_s32 n → s32 (u32 n) = n.
Proof. intros Hn. rewrite <- (s32_small n) at 2 by done. unfold s32. unfold u32. by rewrite Z.mod_mod. Qed.

Lemma trace_output_all (m : mem) out l : output_all trace_output l (m, out) = Ret (tt, (m, out ++ l)).
Proof.
  revert out. induction l as [|c l IH]; intros out; simpl; [by rewrite app_nil_r|]. unfold bind, trace_output at 1, modify.
  cbn [fst snd]. by rewrite IH, <- app_assoc.
Qed.

(** [atoi] on a number between blanks. *)
Lemma atoi_decimal a b neg ds v :
  decimal ds v → ds ≠ [] → 0 ≤ v ≤ 2 ^ 31 → (neg = false → v < 2 ^ 31) →
  atoi (replicate a 32 ++ (if neg then [45] else []) ++ ds ++ replicate b 32) = if neg then - v else v.
Proof.
  intros [Hd Ha] Hne Hv Hneg. destruct ds as [|d ds]; [done|]. unfold atoi.
  assert (48 ≤ d ≤ 57) as Hd0.
  { apply Forall_cons in Hd as [Hd _]. unfold isdigit in Hd.
    apply andb_true_iff in Hd as [?%bool_decide_eq_true ?%bool_decide_eq_true]. lia. }
  assert (∀ l, skip_space (replicate a 32 ++ l) = skip_space l) as Hsk by (intros l; induction a; simpl; auto).
  assert (∀ l, skip_space (d :: l) = d :: l) as Hsd.
  { intros l. simpl. unfold isspace. rewrite !bool_decide_false by lia. done. }
  assert (atoi_digits ((d :: ds) ++ replicate b 32) 0 = - v) as Hval by (rewrite Ha; by destruct b).
  rewrite Hsk. destruct neg; cbn [app] in *.
  - cbn. apply Hval.
  - rewrite Hsd. cbn [peek head default from_option]. unfold peek. cbn [head default from_option].
    rewrite !bool_decide_false by (simpl; lia). cbn [orb]. rewrite Hval. rewrite s32_small by word_lia. lia.
Qed.

(** ** Properties *)
Local Transparent __vprintf.

Lemma parse_width_star w r (s : mem * list Z) :
  is_s32 w → - 2 ^ 31 < w →
  parse_width 0 [42; 100] (u32 w :: r) s = Ret ((if bool_decide (w < 0) then MINUS else 0, Z.abs w, [100], r), s).
Proof.
  intros Hw Hmin. unfold parse_width. change (bool_decide (peek [42; 100] = 42)) with true.
  unfold va_int, va_word, bind, ret. rewrite s32_u32 by done. cbn [tail]. case_bool_decide as Hneg.
  - rewrite s32_small by word_lia. rewrite Z.abs_neq by lia. reflexivity.
  - rewrite Z.abs_eq by lia. reflexivity.
Qed.

Lemma parse_star_d w r (s : mem * list Z) :
  is_s32 w → - 2 ^ 31 < w →
  parse_conversion [42; 100] (u32 w :: r) s =
    Ret ((Conversion (if bool_decide (w < 0) then MINUS else 0) (Z.abs w) (-1) INT, [100], r), s).
Proof.
  intros Hw Hmin. unfold parse_conversion. change (parse_flags [42; 100] 0) with (0, [42; 100]). cbv beta iota zeta.
  change (has 0 MINUS) with false. cbv iota. change (has 0 PLUS) with false. cbv iota.
  unfold bind at 1. rewrite parse_width_star by done. reflexivity.
Qed.

Lemma vprintf_loop_conversion {X} (output : Z → M (mem * X) unit) fuel r args s c d r' args' s' :
  peek r ≠ 37 → parse_conversion r args s = Ret ((c, d :: r', args'), s') →
  vprintf_loop output (S fuel) (37 :: r) args s =
    (args2 ← convert output (λ lit, vprintf_loop output fuel lit [d]) d c args'; vprintf_loop output fuel r' args2) s'.
Proof.
  intros Hr Hp. cbn [vprintf_loop]. rewrite (bool_decide_false (37 ≠ 37)) by lia. rewrite bool_decide_false by done.
  unfold bind at 1. by rewrite Hp.
Qed.

Lemma convert_d {X} (output : Z → M (mem * X) unit) unknown c n args s :
  type c = INT → is_s32 n →
  convert output unknown 100 c (u32 n :: args) s =
    (format_integer output (Z.abs n) true (bool_decide (n < 0)) base_d c;; ret args) s.
Proof.
  intros Ht Hn. unfold convert. change (bool_decide (100 = 100) || bool_decide (100 = 105)) with true. cbv iota.
  rewrite Ht. unfold signed_arg, va_int, va_word, bind at 1 2 3, ret at 1 2. rewrite s32_u32 by done.
  replace (u64 _) with (Z.abs n); [done|].
  case_bool_decide; rewrite ?s64_small by word_lia; rewrite u64_small by word_lia; lia.
Qed.

(** What [printf] prints for ["%*d"] is read back by [atoi]: for every
    [int] and every field width (negative ones left-justify), the output
    parses to the number printed. *)
Theorem printf_atoi (m : mem) (w n : Z) :
  is_s32 n → - 2 ^ 31 < w < 2 ^ 31 →
  ∃ out, trace_printf m (chars "%*d") [u32 w; u32 n] = Ret out ∧ atoi out = n.
Proof.
  intros Hn Hw. pose proof (parse_star_d w [u32 n] (m, []) ltac:(word_lia) ltac:(lia)) as Hp.
  set (f := if bool_decide (w < 0) then MINUS else 0) in *.
  assert (f = 0 ∨ f = MINUS) as Hf by (unfold f; case_bool_decide; auto). clearbody f.
  destruct (format_decimal trace_output (Z.abs n) (bool_decide (n < 0)) (Conversion f (Z.abs w) (-1) INT) (m, []))
    as (ds&a&b&Hr&Hd&Hne); [done|simpl; lia|done|word_lia|].
  eexists; split.
  - unfold trace_printf, __vprintf. change (chars "%*d") with [37; 42; 100]. cbn [Nat.add length].
    erewrite vprintf_loop_conversion; [|done|exact Hp]. unfold bind at 1.
    rewrite convert_d by done. unfold bind at 1. rewrite Hr, trace_output_all. reflexivity.
  - rewrite app_nil_l, (atoi_decimal _ _ _ ds (Z.abs n)); [case_bool_decide; lia|done|done|word_lia|].
    intros ?%bool_decide_eq_false. word_lia.
Qed.

Lemma printf_atoi_witness :
  ∃ out, trace_printf ∅ (chars "%*d") [u32 (-6); u32 (-2147483648)] = Ret out ∧ atoi out = -2147483648.
Proof. apply (printf_atoi ∅ (-6) (-2147483648)); [split; [discriminate|reflexivity]|split; reflexivity]. Defined.

(** ** Strings and continued output *)

(** What follows does not depend on what was output before. *)
Lemma trace_continue fuel format args (m : mem) out l :
  vprintf_loop trace_output fuel format args (m, []) = Ret (tt, (m, l)) →
  vprintf_loop trace_output fuel format args (m, out) = Ret (tt, (m, out ++ l)).
Proof.
  intros E.
  destruct (sim_vprintf_loop (λ s1 s2, s1.1 = s2.1 ∧ s2.2 = out ++ s1.2) (λ _, True) trace_output trace_output) with
    (fuel := fuel) (format := format) (args := args) (s1 := (m, @nil Z)) (a := tt) (s1' := (m, l)) as [_ Hs]; [..|done|done|].
  - intros ch [m1 o1] [] s1' [= <-] _. split; [done|]. intros [m2 o2] [E1 E2]. cbn [fst snd] in *. subst.
    eexists; split; [reflexivity|]. simpl. by rewrite app_assoc.
  - by intros s1 s2 [-> _].
  - destruct (Hs (m, out)) as ([m2 o2]&->&E1&E2); [by rewrite app_nil_r|]. cbn [fst snd] in *. by subst.
Qed.

Lemma strnlen_loop_str (m : mem) p fuel l n maxlen :
  str_at m (p + n) l → (length l < fuel)%nat → n + Z.of_nat (length l) ≤ maxlen →
  strnlen_loop fuel p maxlen n m = Ret (n + Z.of_nat (length l), m).
Proof.
  revert n fuel. induction l as [|x l IH]; intros n [|fuel] Hs Hf Hn; simpl in *; try lia; unfold bind, load, bind, get_state.
  - apply str_at_nil in Hs. rewrite Hs. simpl. by rewrite Z.add_0_r.
  - apply str_at_cons in Hs as (Hx&Hne&Hs). rewrite Hx. simpl. rewrite !bool_decide_true by (done || lia). simpl.
    rewrite (IH (n + 1)); [|by rewrite Z.add_assoc|lia|lia]. do 2 f_equal. lia.
Qed.

Lemma output_string_str (m : mem) p l i out :
  bytes_at m (p + i) l →
  output_string trace_output (length l) (λ i, on_mem (load (p + i))) i (m, out) = Ret (tt, (m, out ++ l)).
Proof.
  revert i out. induction l as [|x l IH]; intros i out; simpl; [by rewrite app_nil_r|]. intros [Hx Hl].
  unfold bind, on_mem, load, bind, get_state. cbn [fst snd]. rewrite Hx. simpl.
  rewrite IH by (by rewrite Z.add_assoc). by rewrite <- app_assoc.
Qed.

(** [%s] of a string in memory. *)
Lemma convert_s (m : mem) unknown f t p args l out :
  p ≠ NULL → str_at m p l → Z.of_nat (length l) < 2 ^ 31 →
  convert trace_output unknown 115 (Conversion f 0 (-1) t) (p :: args) (m, out) = Ret (args, (m, out ++ l)).
Proof.
  intros Hp Hs Hl. pose proof (str_at_size _ _ _ Hs) as Hsz. pose proof Hs as [Hb _]. apply bytes_at_app in Hb as [Hb _].
  change (convert trace_output unknown 115 (Conversion f 0 (-1) t) (p :: args))
    with (convert_string trace_output (p :: args) (Conversion f 0 (-1) t)).
  unfold convert_string, va_word, bind at 1, ret at 1. rewrite bool_decide_false by done. cbn [precision].
  assert (on_mem (X := list Z) (strnlen p (u32 (-1))) (m, out) = Ret (Z.of_nat (length l), (m, out))) as Hn.
  { unfold on_mem, strnlen, bytes_mapped, gets, bind. cbn [fst snd]. change (u32 (-1)) with (2 ^ 32 - 1).
    rewrite (strnlen_loop_str m p _ l); [done|by rewrite Z.add_0_r|lia|lia]. }
  unfold bind at 1. unfold bind at 1. rewrite Hn. rewrite s32_small by word_lia.
  unfold format_string. cbn [width]. rewrite bool_decide_false by lia. cbn [andb]. rewrite Nat2Z.id.
  unfold bind at 1, ret at 1. unfold bind at 1. rewrite output_string_str by (by rewrite Z.add_0_r). reflexivity.
Qed.

(** C17: [vsnprintf] implements its contract: of the output [out] it stores
    the first [buf_size - 1] characters and a terminator in the buffer (nothing
    if [buf_size] is 0), changes no other byte, and returns the length of the
    whole output.  The strings printed lie outside of the buffer. *)
Theorem vsnprintf_truncates (m strings : mem) (buffer size : Z) (format args out : list Z) :
  0 ≤ size ≤ 2 ^ 31 → mapped m buffer size → strings ⊆ m →
  (∀ a, buffer ≤ a < buffer + size → strings !! a = None) →
  trace_printf strings format args = Ret out → Z.of_nat (length out) < 2 ^ 31 →
  ∃ m', vsnprintf buffer size format args m = Ret (Z.of_nat (length out), m') ∧
    writes m buffer (snprintf_bytes size out) m'.
Proof. intros Hs Hb Hsub Hd. by apply vsnprintf_refines. Qed.

Lemma vsnprintf_truncates_witness :
  ∃ m', vsnprintf 100 4 (chars "n=%d") [42] (list_to_map ((λ i, (i, 7)) <$> seqZ 100 4)) = Ret (4, m') ∧
    writes (list_to_map ((λ i, (i, 7)) <$> seqZ 100 4)) 100 (snprintf_bytes 4 (chars "n=42")) m'.
Proof.
  apply (vsnprintf_truncates _ ∅ 100 4 (chars "n=%d") [42] (chars "n=42")).
  - lia.
  - intros a Ha. assert (a = 100 ∨ a = 101 ∨ a = 102 ∨ a = 103) as H by lia. apply elem_of_dom.
    repeat destruct H as [->|H]; [eexists; reflexivity..|]. rewrite H. eexists; reflexivity.
  - apply map_empty_subseteq.
  - intros a _. apply lookup_empty.
  - vm_compute. reflexivity.
  - reflexivity.
Defined.

(** The buffered [vhprintf] of user programs loses and reorders nothing:
    the blocks it writes to the handle, each of 1 to 64 bytes, put together
    are exactly the output, and it returns its length. *)
Theorem vhprintf_concat (m : mem) (handle : Z) (format args out : list Z) :
  trace_printf m format args = Ret out → Z.of_nat (length out) < 2 ^ 31 →
  ∃ w, UserConsole.vhprintf handle format args m = Ret ((Z.of_nat (length out), w), m) ∧
    concat (w.*2) = out ∧ Forall (λ b, b.1 = handle ∧ (0 < length b.2 ≤ 64)%nat) w.
Proof. apply UserConsoleSpec.vhprintf_refines. Qed.

Lemma vhprintf_concat_witness :
  ∃ w, UserConsole.vhprintf 1 (chars "%66d") [7] ∅ = Ret ((66, w), ∅) ∧
    concat (w.*2) = replicate 65 32 ++ [55] ∧ Forall (λ b, b.1 = 1 ∧ (0 < length b.2 ≤ 64)%nat) w.
Proof.
  apply (vhprintf_concat ∅ 1 (chars "%66d") [7] (replicate 65 32 ++ [55])); [vm_compute; reflexivity|reflexivity].
Defined.

Lemma safe_trace_output ch : safe (trace_output ch) (λ _, True).
Proof. done. Qed.

(** [printf] terminates on every format and every argument list: each
    call returns its output, or reads an argument or a character that is not
    there; nothing makes it loop, and no assertion is reached. *)
Theorem printf_terminates (m : mem) (format args : list Z) :
  (∃ out, trace_printf m format args = Ret out) ∨ trace_printf m format args = Fail BadAccess.
Proof.
  pose proof (safe_vprintf_loop trace_output safe_trace_output (32 + length format) format args ltac:(lia) (m, [])) as H.
  unfold trace_printf, __vprintf. destruct (vprintf_loop _ _ _ _ _) as [[[] [m' out]]|]; [left; by eexists|right; by subst].
Qed.

(** [format_integer] never writes behind its 64-byte buffer: for every
    64-bit value, every base, flags and precision it returns, and the text it
    outputs fills the field width and is no longer than the field or 67
    characters (unless both [-] and [0] are set, when it is padded twice). *)
Theorem format_integer_fits (b : integer_base) (c : printf_conversion) (v : Z) (is_signed negative : bool) (m : mem) :
  b ∈ [base_d; base_o; base_x; base_X] → is_u64 v → 0 ≤ width c < 2 ^ 31 →
  ∃ text, format_integer trace_output v is_signed negative b c (m, []) = Ret (tt, (m, text)) ∧
    width c ≤ Z.of_nat (length text) ∧
    (has (flags c) MINUS && has (flags c) ZERO = false → Z.of_nat (length text) ≤ Z.max (width c) 67).
Proof.
  intros Hb Hv Hw. assert (base_ok b) as Hok.
  { destruct bases_ok as (?&?&?&?). rewrite !elem_of_cons, elem_of_nil in Hb. naive_solver. }
  destruct (format_integer_emits trace_output v is_signed negative b c (m, []) Hok Hv) as (l&->&Hl).
  exists l. rewrite trace_output_all. split; [done|]. by apply Hl.
Qed.

Lemma format_integer_fits_witness :
  ∃ text, format_integer trace_output (2 ^ 64 - 1) false false base_o (Conversion (Z.lor POUND GROUP) 5 100 INT) (∅, []) =
    Ret (tt, (∅, text)) ∧ 5 ≤ Z.of_nat (length text).
Proof.
  destruct (format_integer_fits base_o (Conversion (Z.lor POUND GROUP) 5 100 INT) (2 ^ 64 - 1) false false ∅) as (t&?&?&_).
  - right. left.
  - split; [discriminate|reflexivity].
  - split; [discriminate|reflexivity].
  - exists t. split; assumption.
Defined.

Lemma lone_percent_loop fuel (m : mem) (out text args : list Z) :
  37 ∉ text → (25 + length text ≤ fuel)%nat →
  vprintf_loop trace_output fuel (text ++ [37]) args (m, out) = Fail BadAccess.
Proof.
  revert fuel out. induction text as [|c text IH]; intros [|fuel] out Ht Hf; simpl in Hf; try lia.
  - cbn [app]. destruct (safe_unknown trace_output safe_trace_output fuel 0 ltac:(lia)) as [_ H].
    specialize (H (m, out)). cbn [vprintf_loop]. rewrite (bool_decide_false (37 ≠ 37)) by lia.
    change (bool_decide (peek [] = 37)) with false. cbv iota. unfold bind at 1.
    change (parse_conversion [] args (m, out)) with (Ret ((Conversion 0 0 (-1) INT, @nil Z, args), (m, out))).
    cbv iota. change (peek []) with 0. unfold bind at 1.
    set (u := λ lit, vprintf_loop trace_output fuel lit [0]) in *.
    change (convert trace_output u 0 (Conversion 0 0 (-1) INT) args) with (u (chars "<<no %%%c conversion>>");; ret args).
    unfold bind at 1, u. destruct (vprintf_loop _ _ _ _ _) as [[[] s']|]; [done|by subst].
  - cbn [app vprintf_loop]. rewrite bool_decide_true by set_solver. apply IH; [set_solver|lia].
Qed.

(** A format that ends in a lone [%] makes [printf] step over the
    terminator: after the message for the unknown conversion, the loop goes on
    behind the end of the string. *)
Theorem printf_lone_percent (m : mem) (text args : list Z) :
  37 ∉ text → trace_printf m (text ++ [37]) args = Fail BadAccess.
Proof.
  intros Ht. unfold trace_printf, __vprintf. rewrite lone_percent_loop; [done|done|].
  rewrite length_app. simpl. lia.
Qed.

Lemma printf_lone_percent_witness : trace_printf ∅ (chars "100%") [] = Fail BadAccess.
Proof. apply (printf_lone_percent ∅ (chars "100") []). by apply (bool_decide_unpack _). Defined.

(** A negative width of [*] sets [-] after [0] was cleared for it: the number
    is padded on both sides. *)
Example printf_zero_and_minus :
  trace_printf ∅ (chars "%0*d") [u32 (-5); 42] = Ret (chars "00042   ") ∧
  trace_printf ∅ (chars "%-05d") [42] = Ret (chars "42   ").
Proof. split; vm_compute; reflexivity. Qed.
