(* ===== verification/Ustar.v ===== *)
(** * Tar archive headers (lib/ustar.c)

    Headers of archives in the "ustar" format, as 512 bytes of memory: composing a
    header for a file and parsing one.  A C string that is only read (a file
    name, a string literal) is the list of its characters. *)

From S2P Require Import Prelude Str Stdio.
Local Open Scope Z_scope.

(** [lia] with division by constants. *)
Local Ltac Zify.zify_post_hook ::= Z.to_euclidean_division_equations.

(** ** Data *)
Definition USTAR_REGULAR : Z := 48.
Definition USTAR_DIRECTORY : Z := 53.
Definition USTAR_EOF : Z := -1.
Definition USTAR_HEADER_SIZE : Z := 512.

(** Offsets and sizes of the fields of [struct ustar_header]. *)
Definition name_ofs : Z := 0.
Definition mode_ofs : Z := 100.
Definition uid_ofs : Z := 108.
Definition gid_ofs : Z := 116.
Definition size_ofs : Z := 124.
Definition mtime_ofs : Z := 136.
Definition chksum_ofs : Z := 148.
Definition typeflag_ofs : Z := 156.
Definition magic_ofs : Z := 257.
Definition version_ofs : Z := 263.
Definition uname_ofs : Z := 265.
Definition gname_ofs : Z := 297.
Definition prefix_ofs : Z := 345.

(** ** Operations *)

(** [chksum += in_chksum_field ? ' ' : header[i]], for the rest of the bytes *)
Fixpoint chksum_loop (n : nat) (h i chksum : Z) : M mem Z :=
  match n with
  | O => ret chksum
  | S n =>
      let in_chksum_field := bool_decide (i >= chksum_ofs) && bool_decide (i < chksum_ofs + 8) in
      b ← load (h + i);
      chksum_loop n h (i + 1) (u32 (chksum + (if in_chksum_field then 32 else b)))
  end.
Definition calculate_chksum (h : Z) : M mem Z := chksum_loop (Z.to_nat USTAR_HEADER_SIZE) h 0 0.

(** [!memcmp (s, lit, sizeof lit)]: the comparison ends at the first difference,
    and the terminator of a shorter string is one. *)
Fixpoint starts_with (lit s : list Z) : bool :=
  match lit, s with
  | [], _ => true
  | x :: lit, y :: s => bool_decide (x = y) && starts_with lit s
  | _, [] => false
  end.
(** [strchr (s, '/') + 1]; without a slash it would be a null pointer plus 1. *)
Fixpoint after_slash (s : list Z) : option (list Z) :=
  match s with [] => None | c :: r => if bool_decide (c = 47) then Some r else after_slash r end.
Definition antisocial (s : list Z) : bool :=
  bool_decide (peek s = 47) || starts_with (chars "./") s || starts_with (chars "../") s.
Fixpoint strip_loop (fuel : nat) (s : list Z) : option (list Z) :=
  match fuel with
  | O => None
  | S fuel => if antisocial s then match after_slash s with Some r => strip_loop fuel r | None => None end else Some s
  end.
Definition strip_antisocial_prefixes (file_name : list Z) : option (list Z) :=
  match strip_loop (S (length file_name)) file_name with
  | Some s => Some (if bool_decide (s = []) || bool_decide (s = chars "..") then chars "." else s)
  | None => None
  end.

(** [strlcpy] from a string that is given by its characters. *)
Definition strlcpy_chars (dst : Z) (src : list Z) (size : Z) : M mem Z :=
  store_list dst (take (Z.to_nat (size - 1)) src ++ [0]);; ret (Z.of_nat (length src)).

(** [ustar_make_header]; the message about a long name is not printed. *)
Definition ustar_make_header (file_name : list Z) (type size header : Z) : M mem bool :=
  ASSERT (bool_decide (type = USTAR_REGULAR) || bool_decide (type = USTAR_DIRECTORY));;
  file_name ← deref (strip_antisocial_prefixes file_name);
  if bool_decide (Z.of_nat (length file_name) > 99) then ret false
  else
    let h := header in
    _ ← memset h 0 USTAR_HEADER_SIZE;
    _ ← strlcpy_chars (h + name_ofs) file_name 100;
    _ ← snprintf (h + mode_ofs) 8 (chars "%07o") [if bool_decide (type = USTAR_REGULAR) then 420 else 493];
    _ ← strlcpy_chars (h + uid_ofs) (chars "0000000") 8;
    _ ← strlcpy_chars (h + gid_ofs) (chars "0000000") 8;
    _ ← snprintf (h + size_ofs) 12 (chars "%011o") [u32 size];
    _ ← snprintf (h + mtime_ofs) 12 (chars "%011o") [1136102400];
    store (h + typeflag_ofs) type;;
    _ ← strlcpy_chars (h + magic_ofs) (chars "ustar") 6;
    store (h + version_ofs) 48;; store (h + version_ofs + 1) 48;;
    _ ← strlcpy_chars (h + gname_ofs) (chars "root") 32;
    _ ← strlcpy_chars (h + uname_ofs) (chars "root") 32;
    chksum ← calculate_chksum h;
    _ ← snprintf (h + chksum_ofs) 8 (chars "%07o") [chksum];
    ret true.

(** The loop of [parse_octal_field] over the rest of the field; [None] stands for
    the result [false]. *)
Fixpoint octal_loop (n : nat) (s ofs value : Z) : M mem (option Z) :=
  match n with
  | O => ret None
  | S n =>
      c ← load (s + ofs);
      if bool_decide (c >= 48) && bool_decide (c <= 55) then
        if bool_decide (value > (2 ^ 32 - 1) / 8) then ret None
        else octal_loop n s (ofs + 1) (u32 (c - 48 + value * 8))
      else if bool_decide (c = 32) || bool_decide (c = 0) then
        ret (if bool_decide (ofs > 0) then Some value else None)
      else ret None
  end.
Definition parse_octal_field (s size : Z) : M mem (option Z) := octal_loop (Z.to_nat size) s 0 0.

Fixpoint zeros_from (n : nat) (block : Z) : M mem bool :=
  match n with
  | O => ret true
  | S n => b ← load block; if bool_decide (b ≠ 0) then ret false else zeros_from n (block + 1)
  end.
Definition is_all_zeros (block cnt : Z) : M mem bool := zeros_from (Z.to_nat cnt) block.

(** [!memcmp (p, lit, n)] against a literal with its terminator *)
Fixpoint memory_is (p : Z) (l : list Z) : M mem bool :=
  match l with
  | [] => ret true
  | x :: l => b ← load p; if bool_decide (b = x) then memory_is (p + 1) l else ret false
  end.
(** The characters of the string at [p], which ends before [n] more bytes. *)
Fixpoint read_string (n : nat) (p : Z) : M mem (list Z) :=
  match n with
  | O => fail OutOfFuel
  | S n => c ← load p; if bool_decide (c = 0) then ret [] else r ← read_string n (p + 1); ret (c :: r)
  end.

(** The error message, or the file name (none at the end of an archive), the type
    and the size. *)
Definition header_result : Type := string + option (list Z) * Z * Z.

Definition ustar_parse_header (header : Z) : M mem header_result :=
  let h := header in
  eof ← is_all_zeros h USTAR_HEADER_SIZE;
  if eof : bool then ret (inr (None, USTAR_EOF, 0))
  else
    magic ← memory_is (h + magic_ofs) (chars "ustar" ++ [0]);
    if negb magic then ret (inl "not a ustar archive"%string)
    else
      v0 ← load (h + version_ofs);
      v1 ← (if bool_decide (v0 ≠ 48) then ret 0 else load (h + version_ofs + 1));
      if bool_decide (v0 ≠ 48) || bool_decide (v1 ≠ 48) then ret (inl "invalid ustar version"%string)
      else
        field ← parse_octal_field (h + chksum_ofs) 8;
        match field with
        | None => ret (inl "corrupt chksum field"%string)
        | Some chksum =>
            sum ← calculate_chksum h;
            if bool_decide (chksum ≠ sum) then ret (inl "checksum mismatch"%string)
            else
              last ← load (h + name_ofs + 99);
              prefix ← (if bool_decide (last ≠ 0) then ret 0 else load (h + prefix_ofs));
              if bool_decide (last ≠ 0) || bool_decide (prefix ≠ 0) then ret (inl "file name too long"%string)
              else
                typeflag ← load (h + typeflag_ofs);
                if bool_decide (typeflag ≠ USTAR_REGULAR) && bool_decide (typeflag ≠ USTAR_DIRECTORY)
                then ret (inl "unimplemented file type"%string)
                else
                  size ← (if bool_decide (typeflag = USTAR_REGULAR) then
                            field ← parse_octal_field (h + size_ofs) 12;
                            ret (match field with
                                 | None => inl "corrupt file size field"%string
                                 | Some size => if bool_decide (size > 2 ^ 31 - 1) then inl "file too large"%string else inr size
                                 end)
                          else ret (inr 0));
                  match size with
                  | inl msg => ret (inl msg)
                  | inr size =>
                      name ← read_string 100 (h + name_ofs);
                      name ← deref (strip_antisocial_prefixes name);
                      ret (inr (Some name, typeflag, size))
                  end
        end.

(** ** Names *)
Section Names.
Implicit Types s r : list Z.

Lemma after_slash_length s r : after_slash s = Some r → (length r < length s)%nat.
Proof.
  revert r. induction s as [|c s IH]; intros r; simpl; [done|]. case_bool_decide; [intros [= ->]; lia|]. intros Hr%IH. lia.
Qed.
Lemma after_slash_sub s r c : after_slash s = Some r → c ∈ r → c ∈ s.
Proof.
  revert r. induction s as [|x s IH]; intros r; simpl; [done|]. case_bool_decide; [intros [= ->]; by right|].
  intros Hr Hc. right. by eapply IH.
Qed.
(** What starts like a dangerous name has a slash. *)
Lemma antisocial_slash s : antisocial s = true → is_Some (after_slash s).
Proof.
  assert (∀ s, peek s = 47 → is_Some (after_slash s)) as H1.
  { intros [|c r] Hp; [done|]. change (c = 47) in Hp. subst c. simpl. eauto. }
  assert (∀ s, starts_with (chars "./") s = true → is_Some (after_slash s)) as H2.
  { intros [|a [|b r]] Hs; try done; simpl in Hs; repeat case_bool_decide; try done. subst a b. simpl. eauto. }
  unfold antisocial. intros [[Hs%bool_decide_eq_true|Hs]%orb_true_iff|Hs]%orb_true_iff; [by apply H1|by apply H2|].
  destruct s as [|a s]; [done|]. change (bool_decide (46 = a) && starts_with (chars "./") s = true) in Hs.
  apply andb_true_iff in Hs as [Ha%bool_decide_eq_true Hs]. subst a. simpl. by apply H2.
Qed.

Lemma strip_loop_spec fuel s :
  (length s < fuel)%nat → ∃ r, strip_loop fuel s = Some r ∧ antisocial r = false ∧ (∀ c, c ∈ r → c ∈ s) ∧ (length r ≤ length s)%nat.
Proof.
  revert s. induction fuel as [|fuel IH]; intros s Hf; [lia|]. simpl. destruct (antisocial s) eqn:Ha; [|by exists s].
  destruct (antisocial_slash s Ha) as [r Hr]. rewrite Hr. pose proof (after_slash_length _ _ Hr).
  destruct (IH r) as (r'&Hs&?&Hsub&?); [lia|]. exists r'. split_and!; [done|done| |lia].
  intros c Hc. eapply after_slash_sub; [exact Hr|]. by apply Hsub.
Qed.

(** A name that a tar extractor can use: not empty, not the parent directory, and
    it does not start in the root or in the parent directory. *)
Definition sociable (s : list Z) : Prop := s ≠ [] ∧ s ≠ chars ".." ∧ antisocial s = false.

Lemma strip_spec s :
  ∃ r, strip_antisocial_prefixes s = Some r ∧ sociable r ∧ (0 ∉ s → 0 ∉ r) ∧ (Forall is_u8 s → Forall is_u8 r).
Proof.
  unfold strip_antisocial_prefixes. destruct (strip_loop_spec (S (length s)) s) as (r&->&Ha&Hsub&_); [lia|].
  destruct (bool_decide (r = []) || bool_decide (r = chars "..")) eqn:Hd.
  - eexists. split_and!; [done|by split_and!| |]; intros _; [|repeat constructor; by vm_compute].
    change (chars ".") with [46]. set_solver by lia.
  - apply orb_false_iff in Hd as [H1%bool_decide_eq_false H2%bool_decide_eq_false]. eexists.
    split_and!; [done|done|set_solver|]. rewrite !Forall_forall. auto.
Qed.
(** Stripping again changes nothing. *)
Lemma strip_sociable s : sociable s → strip_antisocial_prefixes s = Some s.
Proof.
  intros (H1&H2&Ha). unfold strip_antisocial_prefixes. cbn [strip_loop]. rewrite Ha. by rewrite !bool_decide_false.
Qed.

End Names.

(** ** Octal numbers *)
Fixpoint octal (k : nat) (v : Z) : list Z := match k with O => [] | S k => octal k (v / 8) ++ [48 + v mod 8] end.

Section Octal.

Lemma length_octal k v : length (octal k v) = k.
Proof. revert v. induction k as [|k IH]; intros v; [done|]. simpl. rewrite length_app, IH. simpl. lia. Qed.
Lemma octal_u8 k v : Forall is_u8 (octal k v).
Proof.
  revert v. induction k as [|k IH]; intros v; [constructor|]. simpl. apply Forall_app. split; [apply IH|].
  repeat constructor; lia.
Qed.
Lemma octal_zero k : octal k 0 = replicate k 48.
Proof. induction k as [|k IH]; [done|]. cbn [octal]. change (0 / 8) with 0. rewrite IH. by rewrite <- replicate_S_end. Qed.
Lemma octal_pad k d v : 0 ≤ v < 8 ^ Z.of_nat d → (d ≤ k)%nat → replicate (k - d) 48 ++ octal d v = octal k v.
Proof.
  revert d v. induction k as [|k IH]; intros d v Hv Hd.
  - by assert (d = 0)%nat as -> by lia.
  - destruct d as [|d].
    + replace v with 0 by (simpl in Hv; lia). rewrite !octal_zero. by rewrite app_nil_r, Nat.sub_0_r.
    + cbn [octal]. rewrite app_assoc. f_equal. replace (S k - S d)%nat with (k - d)%nat by lia. apply IH; [|lia].
      replace (Z.of_nat (S d)) with (Z.of_nat d + 1) in Hv by lia. rewrite Z.pow_add_r, Z.pow_1_r in Hv by lia. lia.
Qed.

Lemma base_o_digit d : 0 ≤ d < 8 → digits base_o !! Z.to_nat d = Some (48 + d).
Proof.
  intros Hd. assert (d = 0 ∨ d = 1 ∨ d = 2 ∨ d = 3 ∨ d = 4 ∨ d = 5 ∨ d = 6 ∨ d = 7) as H by lia.
  repeat destruct H as [->|H]; try reflexivity. by rewrite H.
Qed.
Lemma digits_loop_octal {X} fuel n v f cnt buf (s : mem * X) :
  (n < fuel)%nat → has f GROUP = false → 0 ≤ v < 8 ^ Z.of_nat n → (length buf + n ≤ 63)%nat →
  ∃ d, digits_loop fuel v base_o f cnt buf s = Ret (octal d v ++ buf, s) ∧ v < 8 ^ Z.of_nat d ∧ (d ≤ n)%nat ∧ (v = 0 ↔ d = O).
Proof.
  revert n v cnt buf. induction fuel as [|fuel IH]; intros n v cnt buf Hn Hg Hv Hb; [lia|]. simpl. rewrite Hg. simpl.
  case_bool_decide as Hpos.
  2: { replace v with 0 by lia. exists O. split_and!; [done|simpl; lia|lia|done]. }
  destruct n as [|n]; [simpl in Hv; lia|].
  replace (Z.of_nat (S n)) with (Z.of_nat n + 1) in Hv by lia. rewrite Z.pow_add_r, Z.pow_1_r in Hv by lia.
  destruct (IH n (v / 8) (cnt + 1) (48 + v mod 8 :: buf)) as (d&Hr&Hd&Hl&_); [lia|done|lia|simpl; lia|].
  exists (S d). unfold bind, ret at 1. rewrite base_o_digit by lia. simpl.
  unfold push. rewrite bool_decide_true by (unfold buf_size; lia). simpl. rewrite Hr, <- app_assoc. split_and!; [done| |lia|lia].
  replace (Z.of_nat (S d)) with (Z.of_nat d + 1) by lia. rewrite Z.pow_add_r, Z.pow_1_r by lia. lia.
Qed.

(** Printed with the flag [0] and a width that is enough. *)
Lemma format_octal {X} (output : Z → M (mem * X) unit) v k s :
  (1 ≤ k ≤ 22)%nat → 0 ≤ v < 8 ^ Z.of_nat k →
  format_integer output v false false base_o (Conversion ZERO (Z.of_nat k) (-1) INT) s = output_all output (octal k v) s.
Proof.
  intros Hk Hv. unfold format_integer. cbn [flags width precision].
  destruct (digits_loop_octal (S buf_size) k v ZERO 0 [] s) as (d&Hr&Hd&Hl&H0); [unfold buf_size; lia|done|done|simpl; lia|].
  unfold bind at 1. rewrite Hr, app_nil_r. clear Hr. rewrite (bool_decide_true (-1 < 0)) by lia.
  set (d' := Nat.max 1 d).
  assert (zeros_loop (S buf_size) 1 (octal d v) s = Ret (octal d' v, s)) as Hzl.
  { destruct d as [|d]; [replace v with 0 by (symmetry; by apply H0); reflexivity|]. cbn [zeros_loop].
    rewrite bool_decide_false by (rewrite length_octal; lia). unfold d'. by replace (Nat.max 1 (S d)) with (S d) by lia. }
  unfold bind at 1. rewrite Hzl. change (has ZERO POUND) with false. cbn [andb]. unfold bind at 1, ret at 1.
  change (bool_decide (0 ≠ 0)) with false. cbv iota. rewrite length_octal. change (sign_char false false ZERO) with 0.
  change (bool_decide (0 ≠ 0)) with false. cbv iota. rewrite s32_small by word_lia. rewrite bool_decide_false by lia.
  assert (∀ l1 l2, l1 = l2 → output_all output l1 s = output_all output l2 s) as Heq by congruence.
  etransitivity; [|apply Heq].
  - repeat first [ apply emits_bind | apply emits_if | apply emits_ret | apply emits_output | apply emits_dup | apply emits_all ].
  - simpl. rewrite app_nil_r. replace (Z.to_nat (Z.of_nat k - Z.of_nat d' - 0 - 0)) with (k - d')%nat by lia.
    apply octal_pad; [|lia]. split; [lia|]. apply Z.lt_le_trans with (8 ^ Z.of_nat d); [lia|]. apply Z.pow_le_mono_r; lia.
Qed.

Lemma printf_octal (m : mem) (k : nat) format v :
  (1 ≤ k ≤ 22)%nat → 0 ≤ v < 8 ^ Z.of_nat k → is_u32 v →
  (∀ s : mem * list Z, parse_conversion format [v] s = Ret ((Conversion ZERO (Z.of_nat k) (-1) INT, [111], [v]), s)) →
  peek format ≠ 37 → trace_printf m (37 :: format) [v] = Ret (octal k v).
Proof.
  intros Hk Hv H32 Hp Hpk. unfold trace_printf, __vprintf. cbn [Nat.add].
  erewrite vprintf_loop_conversion; [|done|apply Hp]. unfold bind at 1.
  unfold convert. change (bool_decide (111 = 100) || bool_decide (111 = 105)) with false. cbv iota.
  change (bool_decide (111 = 111) || bool_decide (111 = 117) || bool_decide (111 = 120) || bool_decide (111 = 88)) with true. cbv iota.
  change (bool_decide (111 = 111)) with true. cbv iota. cbn [type unsigned_arg]. unfold va_word, bind at 1 2 3, ret at 1 2.
  rewrite u32_small by done. rewrite format_octal by done. rewrite trace_output_all. reflexivity.
Qed.

End Octal.

(** ** Fields of a header in memory *)
Definition sizes : list nat := [100; 8; 8; 8; 12; 12; 8; 1; 100; 6; 2; 32; 32; 8; 8; 155; 12]%nat.
Definition field_ofs (i : nat) : Z := Z.of_nat (sum_list (take i sizes)).

(** The header at [h] in [m] has the fields [fs]; outside of it memory is as in [m0]. *)
Record layout (m0 m : mem) (h : Z) (fs : list (list Z)) : Prop := {
  lay_bytes : bytes_at m h (concat fs);
  lay_sizes : length <$> fs = sizes;
  lay_frame : ∀ a, a < h ∨ h + USTAR_HEADER_SIZE ≤ a → m !! a = m0 !! a
}.

Section Layout.
Implicit Types (m : mem) (fs : list (list Z)).

Lemma length_concat_sizes fs : length (concat fs) = sum_list (length <$> fs).
Proof. induction fs as [|f fs IH]; [done|]. cbn. by rewrite length_app, IH. Qed.
Lemma layout_split fs i f :
  length <$> fs = sizes → fs !! i = Some f →
  fs = take i fs ++ f :: drop (S i) fs ∧ Z.of_nat (length (concat (take i fs))) = field_ofs i ∧ (i < 17)%nat ∧
  field_ofs i + Z.of_nat (length f) ≤ USTAR_HEADER_SIZE.
Proof.
  intros Hs Hi. split; [by rewrite take_drop_middle|].
  assert (Z.of_nat (length (concat (take i fs))) = field_ofs i) as Ho.
  { rewrite length_concat_sizes. unfold field_ofs. rewrite <- Hs. by rewrite fmap_take. }
  split; [done|]. split.
  - apply lookup_lt_Some in Hi. apply (f_equal length) in Hs. rewrite length_fmap in Hs. change (length sizes) with 17%nat in Hs. lia.
  - rewrite <- Ho. assert (length (concat fs) = 512%nat) as Hc by (rewrite length_concat_sizes, Hs; reflexivity).
    rewrite <- (take_drop_middle fs i f Hi), concat_app, length_app in Hc. cbn [concat] in Hc. rewrite length_app in Hc.
    unfold USTAR_HEADER_SIZE. lia.
Qed.
Lemma layout_field m0 m h fs i f : layout m0 m h fs → fs !! i = Some f → bytes_at m (h + field_ofs i) f.
Proof.
  intros [Hb Hs _] Hi. destruct (layout_split fs i f Hs Hi) as (E&Ho&_). rewrite E, concat_app in Hb. cbn [concat] in Hb.
  apply bytes_at_app in Hb as [_ [Hb _]%bytes_at_app]. by rewrite Ho in Hb.
Qed.
Lemma layout_mapped m0 m h fs i f n :
  layout m0 m h fs → fs !! i = Some f → n ≤ Z.of_nat (length f) → mapped m (h + field_ofs i) n.
Proof.
  intros Hl Hi Hn. eapply mapped_sub; [apply bytes_at_mapped; by eapply layout_field|lia|lia].
Qed.
(** Writing at the start of a field. *)
Lemma layout_write m0 m m' h fs i f new :
  layout m0 m h fs → fs !! i = Some f → (length new ≤ length f)%nat → writes m (h + field_ofs i) new m' →
  layout m0 m' h (<[i := new ++ drop (length new) f]> fs).
Proof.
  intros [Hb Hs Hf] Hi Hn (Hnew&Hfr&_). destruct (layout_split fs i f Hs Hi) as (E&Ho&_&Hsz).
  assert (length (take i fs) = i) as Hti by (apply length_take_le; apply lookup_lt_Some in Hi; lia). split.
  - rewrite E. rewrite insert_app_r_alt by lia. rewrite Hti, Nat.sub_diag. cbn [insert list_insert].
    rewrite E, concat_app in Hb. rewrite concat_app. cbn [concat] in *.
    apply bytes_at_app in Hb as [Hb1 [Hb2 Hb3]%bytes_at_app]. rewrite Ho in *.
    assert (∀ p l, p + Z.of_nat (length l) ≤ h + field_ofs i ∨ h + field_ofs i + Z.of_nat (length new) ≤ p →
      bytes_at m p l → bytes_at m' p l) as Hkeep.
    { intros p l Hd. apply bytes_at_frame. intros a Ha. apply Hfr. lia. }
    apply bytes_at_app. split; [apply Hkeep; [lia|done]|]. rewrite Ho. apply bytes_at_app. split.
    + apply bytes_at_app. split; [done|]. rewrite <- (take_drop (length new) f) in Hb2. apply bytes_at_app in Hb2 as [_ Hb2].
      rewrite length_take_le in Hb2 by done. apply Hkeep; [lia|done].
    + rewrite length_app, length_drop. replace (length new + (length f - length new))%nat with (length f) by lia.
      apply Hkeep; [lia|done].
  - rewrite list_fmap_insert, Hs. apply list_insert_id. rewrite <- Hs, list_lookup_fmap, Hi. cbn. f_equal.
    rewrite length_app, length_drop. lia.
  - intros a Ha. rewrite Hfr; [by apply Hf|]. assert (0 ≤ field_ofs i) by (unfold field_ofs; lia). lia.
Qed.

(** *** Writing fields *)
Lemma wp_strlcpy_field m0 m h fs i f src n (Q : Z → mem → Prop) :
  layout m0 m h fs → fs !! i = Some f → n = Z.of_nat (length f) → Z.of_nat (length src) < n →
  (∀ r m', layout m0 m' h (<[i := (src ++ [0]) ++ drop (S (length src)) f]> fs) → Q r m') →
  wp (strlcpy_chars (h + field_ofs i) src n) m Q.
Proof.
  intros Hl Hi -> Hs HQ. unfold strlcpy_chars. rewrite take_ge by lia. wp_step.
  eapply wp_mono; [apply store_list_spec; eapply layout_mapped; [exact Hl|exact Hi|rewrite length_app; cbn; lia]|].
  intros [] m' Hw. wp_step. apply HQ. replace (S (length src)) with (length (src ++ [0])) by (rewrite length_app; cbn; lia).
  eapply layout_write; [exact Hl|exact Hi|rewrite length_app; cbn; lia|exact Hw].
Qed.
Lemma wp_octal_field m0 m h fs i f k format v n (Q : Z → mem → Prop) :
  layout m0 m h fs → fs !! i = Some f → length f = S k → n = Z.of_nat (S k) →
  (1 ≤ k ≤ 22)%nat → 0 ≤ v < 8 ^ Z.of_nat k → is_u32 v →
  (∀ s : mem * list Z, parse_conversion format [v] s = Ret ((Conversion ZERO (Z.of_nat k) (-1) INT, [111], [v]), s)) →
  peek format ≠ 37 →
  (∀ r m', layout m0 m' h (<[i := octal k v ++ [0]]> fs) → Q r m') →
  wp (snprintf (h + field_ofs i) n (37 :: format) [v]) m Q.
Proof.
  intros Hl Hi Hf -> Hk Hv H32 Hp Hpk HQ.
  destruct (vsnprintf_refines m ∅ (h + field_ofs i) (Z.of_nat (S k))) with (format := 37 :: format) (args := [v]) (out := octal k v)
    as (m'&Hrun&Hw); [lia|eapply layout_mapped; [exact Hl|exact Hi|lia]|apply map_empty_subseteq|done|by apply printf_octal|rewrite length_octal; lia|].
  eapply wp_run; [exact Hrun|]. apply HQ. unfold snprintf_bytes in Hw. rewrite bool_decide_true in Hw by lia.
  rewrite take_ge in Hw by (rewrite length_octal; lia).
  pose proof (layout_write m0 m m' h fs i f (octal k v ++ [0]) Hl Hi) as H. rewrite length_app, length_octal in H. cbn [length] in H.
  specialize (H ltac:(lia) Hw). by rewrite drop_ge, app_nil_r in H by (rewrite Hf; lia).
Qed.
Lemma wp_put_field m0 m h fs i j f x (Q : unit → mem → Prop) :
  layout m0 m h fs → fs !! i = Some f → (j < length f)%nat →
  (∀ m', layout m0 m' h (<[i := <[j := x]> f]> fs) → Q tt m') →
  wp (store (h + field_ofs i + Z.of_nat j) x) m Q.
Proof.
  intros Hl Hi Hj HQ. pose proof (layout_field _ _ _ _ _ _ Hl Hi) as Hb. apply wp_store.
  { apply (bytes_at_mapped _ _ _ Hb). lia. }
  apply HQ. replace (<[j := x]> f) with ((take j f ++ [x]) ++ drop (length (take j f ++ [x])) f).
  2: { rewrite length_app, length_take_le by lia. cbn [length]. rewrite insert_take_drop by done. rewrite <- app_assoc. cbn.
       by replace (j + 1)%nat with (S j) by lia. }
  eapply layout_write; [exact Hl|exact Hi|rewrite length_app, length_take_le by lia; cbn; lia|].
  assert (Hd : h + field_ofs i + Z.of_nat j ∈ dom m) by (apply (bytes_at_mapped _ _ _ Hb); lia). split_and!.
  - apply bytes_at_app. rewrite length_take_le by lia. split; [|split; [apply lookup_insert_eq|done]].
    apply (bytes_at_frame m); [|by apply bytes_at_take]. intros a Ha. rewrite length_take_le in Ha by lia. rewrite lookup_insert_ne by lia. done.
  - intros a Ha. rewrite length_app, length_take_le in Ha by lia. cbn in Ha. by rewrite lookup_insert_ne by lia.
  - by apply dom_insert_same.
Qed.

End Layout.

(** ** The checksum *)
Definition in_chksum (i : Z) : bool := bool_decide (i >= chksum_ofs) && bool_decide (i < chksum_ofs + 8).
Fixpoint sum_from (i : Z) (l : list Z) : Z :=
  match l with [] => 0 | b :: r => (if in_chksum i then 32 else b) + sum_from (i + 1) r end.

Section Checksum.
Implicit Types (m : mem) (l : list Z) (fs : list (list Z)).

Lemma sum_from_app i l1 l2 : sum_from i (l1 ++ l2) = sum_from i l1 + sum_from (i + Z.of_nat (length l1)) l2.
Proof.
  revert i. induction l1 as [|b l1 IH]; intros i; cbn [app sum_from length]; [by rewrite Z.add_0_r|].
  rewrite IH. replace (i + 1 + Z.of_nat (length l1)) with (i + Z.of_nat (S (length l1))) by lia. lia.
Qed.
Lemma sum_from_bound i l : Forall is_u8 l → 0 ≤ sum_from i l ≤ 255 * Z.of_nat (length l).
Proof.
  intros Hl. revert i. induction Hl as [|b l Hb Hl IH]; intros i; cbn [sum_from length]; [lia|].
  specialize (IH (i + 1)). case_match; word_lia.
Qed.
(** The bytes of the field itself do not count. *)
Lemma sum_from_field l : length l = 8%nat → sum_from chksum_ofs l = 256.
Proof. intros Hl. do 8 (destruct l as [|? l]; [done|]). by destruct l. Qed.
Lemma sum_from_chksum fs f f' :
  length <$> fs = sizes → fs !! 6%nat = Some f → length f' = 8%nat →
  sum_from 0 (concat (<[6%nat := f']> fs)) = sum_from 0 (concat fs).
Proof.
  intros Hs Hi Hf'. destruct (layout_split fs 6 f Hs Hi) as (E&Ho&_). change (field_ofs 6) with chksum_ofs in Ho.
  assert (length f = 8%nat) as Hf.
  { apply (f_equal (λ l : list nat, l !! 6%nat)) in Hs. rewrite list_lookup_fmap, Hi in Hs. by injection Hs. }
  rewrite E. rewrite insert_app_r_alt by (rewrite length_take; lia).
  assert (length (take 6 fs) = 6%nat) as Ht by (apply length_take_le; apply lookup_lt_Some in Hi; lia).
  rewrite Ht, Nat.sub_diag. cbn [insert list_insert]. rewrite !concat_app. cbn [concat]. rewrite !sum_from_app, Ho, Hf, Hf'.
  rewrite Z.add_0_l, (sum_from_field f), (sum_from_field f') by done. done.
Qed.

Lemma chksum_loop_spec l m h i c Q :
  bytes_at m (h + i) l → Forall is_u8 l → 0 ≤ c → c + 255 * Z.of_nat (length l) < 2 ^ 32 →
  Q (c + sum_from i l) m → wp (chksum_loop (length l) h i c) m Q.
Proof.
  revert i c. induction l as [|b l IH]; intros i c Hb Hl H0 Hc HQ; cbn [chksum_loop length sum_from] in *.
  - wp_step. by rewrite Z.add_0_r in HQ.
  - destruct Hb as [Hb Hbs]. apply Forall_cons in Hl as [Hu Hl]. wp_step. eapply wp_load_byte; [exact Hb|].
    fold (in_chksum i). set (x := if in_chksum i then 32 else b) in *. assert (0 ≤ x ≤ 255) by (unfold x; case_match; word_lia).
    rewrite u32_small by word_lia. apply IH; [by replace (h + (i + 1)) with (h + i + 1) by lia|done|lia|lia|].
    by rewrite Z.add_assoc in HQ.
Qed.
Lemma calculate_chksum_spec m h l Q :
  bytes_at m h l → Forall is_u8 l → length l = 512%nat → Q (sum_from 0 l) m → wp (calculate_chksum h) m Q.
Proof.
  intros Hb Hl Hlen HQ. unfold calculate_chksum. change (Z.to_nat USTAR_HEADER_SIZE) with 512%nat. rewrite <- Hlen.
  apply chksum_loop_spec; [by rewrite Z.add_0_r|done|lia|lia|done].
Qed.

End Checksum.

(** ** Composing a header *)
Definition zeros (n : nat) : list Z := replicate n 0.
Definition pad (n : nat) (s : list Z) : list Z := s ++ [0] ++ zeros (n - S (length s)).
Definition header_fields (name : list Z) (type size : Z) (chksum : list Z) : list (list Z) :=
  [pad 100 name; octal 7 (if bool_decide (type = USTAR_REGULAR) then 420 else 493) ++ [0];
   octal 7 0 ++ [0]; octal 7 0 ++ [0]; octal 11 size ++ [0]; octal 11 1136102400 ++ [0]; chksum; [type];
   zeros 100; chars "ustar" ++ [0]; [48; 48]; pad 32 (chars "root"); pad 32 (chars "root"); zeros 8; zeros 8; zeros 155; zeros 12].
Definition header_chksum (name : list Z) (type size : Z) : Z := sum_from 0 (concat (header_fields name type size (zeros 8))).

Section Make.

Lemma header_fields_sizes name type size chksum :
  (length name ≤ 99)%nat → length chksum = 8%nat → length <$> header_fields name type size chksum = sizes.
Proof.
  intros Hn Hc. unfold header_fields, pad, zeros. cbn [fmap list_fmap]. rewrite !length_app, !length_octal, !length_replicate, Hc.
  cbn [length]. unfold sizes. repeat f_equal; lia.
Qed.
Lemma header_fields_u8 name type size chksum :
  Forall is_u8 name → is_u8 type → Forall is_u8 chksum → Forall is_u8 (concat (header_fields name type size chksum)).
Proof.
  intros Hn Ht Hc. assert (∀ n, Forall is_u8 (zeros n)) as Hz by (intros n; apply Forall_replicate; by compute).
  unfold header_fields, pad. cbn [concat]. rewrite !Forall_app.
  assert (Forall is_u8 [0]) by (repeat constructor; by compute).
  assert (Forall is_u8 [type]) by by constructor.
  split_and!; first [done | apply octal_u8 | apply Hz | apply (bool_decide_unpack _); by vm_compute].
Qed.

Lemma pad_eq n src : (src ++ [0]) ++ drop (S (length src)) (zeros n) = pad n src.
Proof. unfold pad, zeros. by rewrite drop_replicate, <- app_assoc. Qed.
Lemma zero_fields : zeros 512 = concat (zeros <$> sizes).
Proof. reflexivity. Qed.

Lemma ustar_make_header_spec m name file_name type size h :
  type = USTAR_REGULAR ∨ type = USTAR_DIRECTORY → strip_antisocial_prefixes file_name = Some name → Forall is_u8 name →
  0 ≤ size < 2 ^ 31 → h ≠ Str.NULL → mapped m h USTAR_HEADER_SIZE →
  wp (ustar_make_header file_name type size h) m (λ ok m',
    if bool_decide (Z.of_nat (length name) > 99) then ok = false ∧ m' = m
    else ok = true ∧ layout m m' h (header_fields name type size (octal 7 (header_chksum name type size) ++ [0]))).
Proof.
  intros Ht Hstrip Hname Hsz Hh Hm. unfold ustar_make_header.
  assert (bool_decide (type = USTAR_REGULAR) || bool_decide (type = USTAR_DIRECTORY) = true) as ->.
  { destruct Ht as [-> | ->]; done. }
  wp_steps. rewrite Hstrip. wp_steps. case_bool_decide as Hlong; [by wp_step|]. wp_step.
  eapply wp_mono; [apply memset_spec; [done|done|exact Hm]|]. intros r m1 Hw.
  assert (layout m m1 h (zeros <$> sizes)) as H0.
  { destruct Hw as (Hb&Hfr&_). rewrite length_replicate in Hfr. split; [by rewrite <- zero_fields|reflexivity|].
    intros a Ha. apply Hfr. done. }
  cbn [fmap list_fmap sizes] in H0. clear Hw Hm. cbv beta.
  wp_step. eapply (wp_strlcpy_field m _ _ _ 0); [exact H0|done|done|lia|]. clear H0 m1. intros _ m1 H0. rewrite pad_eq in H0.
  wp_step. eapply (wp_octal_field m _ _ _ 1 (zeros 8) 7); [exact H0|done..|lia|case_bool_decide; lia|case_bool_decide; word_lia|intros; by case_bool_decide|done|].
  clear H0 m1. intros _ m1 H0.
  wp_step. eapply (wp_strlcpy_field m _ _ _ 2); [exact H0|done|done|done|]. clear H0 m1. intros _ m1 H0. rewrite pad_eq in H0.
  wp_step. eapply (wp_strlcpy_field m _ _ _ 3); [exact H0|done|done|done|]. clear H0 m1. intros _ m1 H0. rewrite pad_eq in H0.
  rewrite u32_small by word_lia.
  wp_step. eapply (wp_octal_field m _ _ _ 4 (zeros 12) 11); [exact H0|done..|lia|lia|word_lia|done|done|].
  clear H0 m1. intros _ m1 H0.
  wp_step. eapply (wp_octal_field m _ _ _ 5 (zeros 12) 11); [exact H0|done..|lia|lia|word_lia|done|done|].
  clear H0 m1. intros _ m1 H0.
  replace (h + typeflag_ofs) with (h + field_ofs 7 + Z.of_nat 0) by (change (field_ofs 7) with typeflag_ofs; lia).
  wp_step. eapply (wp_put_field m _ _ _ 7 0); [exact H0|done|cbn; lia|]. clear H0 m1. intros m1 H0.
  wp_step. eapply (wp_strlcpy_field m _ _ _ 9); [exact H0|done|done|done|]. clear H0 m1. intros _ m1 H0. rewrite pad_eq in H0.
  replace (h + version_ofs) with (h + field_ofs 10 + Z.of_nat 0) by (change (field_ofs 10) with version_ofs; lia).
  wp_step. eapply (wp_put_field m _ _ _ 10 0); [exact H0|done|cbn; lia|]. clear H0 m1. intros m1 H0.
  replace (h + field_ofs 10 + Z.of_nat 0 + 1) with (h + field_ofs 10 + Z.of_nat 1) by lia.
  wp_step. eapply (wp_put_field m _ _ _ 10 1); [exact H0|done|cbn; lia|]. clear H0 m1. intros m1 H0.
  wp_step. eapply (wp_strlcpy_field m _ _ _ 12); [exact H0|done|done|done|]. clear H0 m1. intros _ m1 H0. rewrite pad_eq in H0.
  wp_step. eapply (wp_strlcpy_field m _ _ _ 11); [exact H0|done|done|done|]. clear H0 m1. intros _ m1 H0. rewrite pad_eq in H0.
  change (layout m m1 h (header_fields name type size (zeros 8))) in H0.
  pose proof (header_fields_sizes name type size (zeros 8) ltac:(lia) eq_refl) as Hsizes.
  assert (Forall is_u8 (concat (header_fields name type size (zeros 8)))) as Hu8.
  { apply header_fields_u8; [done|destruct Ht as [-> | ->]; by compute|apply Forall_replicate; by compute]. }
  assert (length (concat (header_fields name type size (zeros 8))) = 512%nat) as Hlen by by rewrite length_concat_sizes, Hsizes.
  wp_step. eapply calculate_chksum_spec; [exact (lay_bytes _ _ _ _ H0)|done|done|].
  pose proof (sum_from_bound 0 _ Hu8) as Hb. rewrite Hlen in Hb. fold (header_chksum name type size) in Hb |- *.
  wp_step. eapply (wp_octal_field m _ _ _ 6 (zeros 8) 7); [exact H0|done..|lia|lia|word_lia|done|done|].
  intros _ m2 H2. wp_step. split; [done|exact H2].
Qed.

End Make.

(** ** Reading fields *)
(** [parse_octal_field] on the bytes of the field. *)
Fixpoint octal_value (l : list Z) (ofs value : Z) : option Z :=
  match l with
  | [] => None
  | c :: r =>
      if bool_decide (c >= 48) && bool_decide (c <= 55) then
        if bool_decide (value > (2 ^ 32 - 1) / 8) then None else octal_value r (ofs + 1) (u32 (c - 48 + value * 8))
      else if bool_decide (c = 32) || bool_decide (c = 0) then if bool_decide (ofs > 0) then Some value else None
      else None
  end.
Definition field (l : list Z) (ofs n : Z) : list Z := take (Z.to_nat n) (drop (Z.to_nat ofs) l).

Section Read.
Implicit Types (m : mem) (l : list Z).

Lemma bytes_at_field m h l ofs n :
  bytes_at m h l → 0 ≤ ofs → 0 ≤ n → ofs + n ≤ Z.of_nat (length l) →
  bytes_at m (h + ofs) (field l ofs n) ∧ length (field l ofs n) = Z.to_nat n.
Proof.
  intros Hb Ho Hn Hl. unfold field. rewrite <- (take_drop (Z.to_nat ofs) l) in Hb. apply bytes_at_app in Hb as [_ Hb].
  rewrite length_take_le, Z2Nat.id in Hb by lia. split; [by apply bytes_at_take|]. rewrite length_take, length_drop. lia.
Qed.
Lemma wp_load_field m h l ofs (Q : Z → mem → Prop) :
  bytes_at m h l → 0 ≤ ofs < Z.of_nat (length l) → (∀ x, l !! Z.to_nat ofs = Some x → Q x m) → wp (load (h + ofs)) m Q.
Proof.
  intros Hb Ho HQ. destruct (lookup_lt_is_Some_2 l (Z.to_nat ofs)) as [x Hx]; [lia|].
  pose proof (bytes_at_lookup _ _ _ _ _ Hb Hx) as E. rewrite Z2Nat.id in E by lia. eapply wp_load_byte; [exact E|]. by apply HQ.
Qed.

Lemma octal_loop_spec m l s ofs v Q :
  bytes_at m (s + ofs) l → Q (octal_value l ofs v) m → wp (octal_loop (length l) s ofs v) m Q.
Proof.
  revert ofs v. induction l as [|c l IH]; intros ofs v Hb HQ; cbn [octal_loop length octal_value] in *; [by wp_step|].
  destruct Hb as [Hc Hb]. wp_step. eapply wp_load_byte; [exact Hc|]. case_match; [|case_match; by wp_step].
  case_match; [by wp_step|]. apply IH; [|done]. by replace (s + (ofs + 1)) with (s + ofs + 1) by lia.
Qed.
Lemma parse_octal_field_spec m h l ofs n Q :
  bytes_at m h l → 0 ≤ ofs → 0 ≤ n → ofs + n ≤ Z.of_nat (length l) →
  Q (octal_value (field l ofs n) 0 0) m → wp (parse_octal_field (h + ofs) n) m Q.
Proof.
  intros Hb Ho Hn Hl HQ. destruct (bytes_at_field m h l ofs n Hb Ho Hn Hl) as [Hf Hlen]. unfold parse_octal_field.
  rewrite <- Hlen. apply octal_loop_spec; [by rewrite Z.add_0_r|done].
Qed.
Lemma octal_value_range l ofs v x : is_u32 v → octal_value l ofs v = Some x → is_u32 x.
Proof.
  revert ofs v. induction l as [|c l IH]; intros ofs v Hv; cbn [octal_value]; [done|].
  case_match; [case_match; [done|]; apply IH; apply u32_range|]. case_match; [|done]. case_match; [|done]. by intros [= <-].
Qed.

(** The digits that [snprintf] wrote give the number back. *)
Lemma octal_value_digits k v x ofs r :
  0 ≤ v < 8 ^ Z.of_nat k → 0 ≤ x → x * 8 ^ Z.of_nat k + v < 2 ^ 32 →
  octal_value (octal k v ++ r) ofs x = octal_value r (ofs + Z.of_nat k) (x * 8 ^ Z.of_nat k + v).
Proof.
  revert v x ofs r. induction k as [|k IH]; intros v x ofs r Hv Hx Hlt.
  - cbn [octal app]. f_equal; [lia|]. simpl in Hv |- *. lia.
  - cbn [octal]. replace (Z.of_nat (S k)) with (Z.of_nat k + 1) in * by lia. rewrite Z.pow_add_r, Z.pow_1_r in * by lia.
    rewrite <- app_assoc, IH; [|lia|done|nia]. cbn [app octal_value]. set (p := 8 ^ Z.of_nat k) in *.
    rewrite !bool_decide_true by lia. cbn [andb]. rewrite bool_decide_false by nia. f_equal; [lia|]. rewrite u32_small; [nia|word_lia].
Qed.
Lemma octal_field k v : (1 ≤ k)%nat → 0 ≤ v < 8 ^ Z.of_nat k → v < 2 ^ 32 → octal_value (octal k v ++ [0]) 0 0 = Some v.
Proof.
  intros Hk Hv Hlt. rewrite octal_value_digits by lia. cbn [octal_value]. change (bool_decide (0 >= 48)) with false. cbn [andb].
  change (bool_decide (0 = 32) || bool_decide (0 = 0)) with true. cbv iota. by rewrite bool_decide_true by lia.
Qed.

Lemma zeros_from_spec m p l Q :
  bytes_at m p l → Q (bool_decide (l = zeros (length l))) m → wp (zeros_from (length l) p) m Q.
Proof.
  revert p. induction l as [|b l IH]; intros p Hb HQ; cbn [zeros_from length] in *; [by wp_step|]. destruct Hb as [Hb Hbs].
  wp_step. eapply wp_load_byte; [exact Hb|]. destruct (decide (b = 0)) as [->|Hz].
  2: { rewrite bool_decide_true by done. wp_step. rewrite bool_decide_false in HQ; [done|]. by intros [= ?]. }
  - rewrite bool_decide_false by tauto. apply IH; [done|]. rewrite (bool_decide_ext _ (l = zeros (length l))) in HQ; [done|].
    unfold zeros. cbn [replicate]. split; [by intros [= ?]|congruence].
Qed.
Lemma memory_is_spec m p l l' Q :
  bytes_at m p l' → length l' = length l → Q (bool_decide (l' = l)) m → wp (memory_is p l) m Q.
Proof.
  revert p l'. induction l as [|x l IH]; intros p [|y l'] Hb Hl HQ; cbn [memory_is] in *; try done.
  destruct Hb as [Hb Hbs]. wp_step. eapply wp_load_byte; [exact Hb|]. destruct (decide (y = x)) as [->|Hxy].
  - rewrite (bool_decide_true (x = x)) by done. apply (IH _ l'); [done|by injection Hl|]. rewrite (bool_decide_ext _ (l' = l)) in HQ; [done|]. split; [by intros [= ?]|congruence].
  - rewrite (bool_decide_false (y = x)) by done. wp_step. rewrite bool_decide_false in HQ; [done|]. congruence.
Qed.
(** The characters before the first terminator. *)
Fixpoint until_zero (l : list Z) : list Z := match l with [] => [] | c :: r => if bool_decide (c = 0) then [] else c :: until_zero r end.
Lemma until_zero_nonzero l : 0 ∉ until_zero l.
Proof. induction l as [|c l IH]; cbn; [set_solver|]. case_bool_decide; [set_solver|]. apply not_elem_of_cons. auto. Qed.
Lemma until_zero_app l r : 0 ∉ l → until_zero (l ++ 0 :: r) = l.
Proof. induction l as [|c l IH]; cbn; [done|]. intros [Hc Hl]%not_elem_of_cons. rewrite bool_decide_false by auto. by rewrite IH. Qed.
Lemma read_string_spec m p l n Q :
  bytes_at m p l → 0 ∈ l → (length l ≤ n)%nat → Q (until_zero l) m → wp (read_string n p) m Q.
Proof.
  revert p n Q. induction l as [|c l IH]; intros p n Q Hb H0 Hn HQ; [by apply elem_of_nil in H0|].
  destruct n as [|n]; cbn [length] in Hn; [lia|]. cbn [read_string until_zero] in *. destruct Hb as [Hb Hbs].
  wp_step. eapply wp_load_byte; [exact Hb|]. case_bool_decide as Hc; [by wp_step|]. wp_step.
  apply elem_of_cons in H0 as [H0|H0]; [congruence|]. eapply IH; [done|done|lia|]. by wp_step.
Qed.

End Read.

(** ** Parsing a header *)
(** The 512 bytes are a header of a file with this name, type and size. *)
Definition header_of (l : list Z) (name : list Z) (type size : Z) : Prop :=
  field l magic_ofs 6 = chars "ustar" ++ [0] ∧ field l version_ofs 2 = [48; 48] ∧
  octal_value (field l chksum_ofs 8) 0 0 = Some (sum_from 0 l) ∧
  l !! Z.to_nat (name_ofs + 99) = Some 0 ∧ l !! Z.to_nat prefix_ofs = Some 0 ∧
  l !! Z.to_nat typeflag_ofs = Some type ∧ (type = USTAR_REGULAR ∨ type = USTAR_DIRECTORY) ∧
  (if bool_decide (type = USTAR_REGULAR) then octal_value (field l size_ofs 12) 0 0 = Some size else size = 0) ∧
  size < 2 ^ 31 ∧ strip_antisocial_prefixes (until_zero (field l name_ofs 100)) = Some name.
Definition parsed (l : list Z) (r : header_result) : Prop :=
  match r with
  | inr (Some name, type, size) => l ≠ zeros 512 ∧ header_of l name type size ∧ 0 ≤ size ∧ sociable name ∧ 0 ∉ name
  | inr (None, type, size) => l = zeros 512 ∧ type = USTAR_EOF ∧ size = 0
  | inl _ => l ≠ zeros 512 ∧ ∀ name type size, ¬ header_of l name type size
  end.

(** A check failed that the header of a file passes. *)
Ltac reject :=
  wp_steps; split; [done|]; split; [done|];
  intros ? ? ? (?&?&?&?&?&?&Htype&?&?&?); first [congruence | destruct Htype; congruence].

Section Parse.

Lemma field_two l i x y : l !! Z.to_nat i = Some x → l !! Z.to_nat (i + 1) = Some y → 0 ≤ i → field l i 2 = [x; y].
Proof.
  intros Hx Hy Hi. unfold field. replace (Z.to_nat (i + 1)) with (S (Z.to_nat i)) in Hy by lia.
  rewrite (drop_S _ _ _ Hx), (drop_S _ _ _ Hy). done.
Qed.
Lemma parse_name m h l ty size Q :
  bytes_at m h l → length l = 512%nat → l !! Z.to_nat (name_ofs + 99) = Some 0 →
  (∀ name, strip_antisocial_prefixes (until_zero (field l name_ofs 100)) = Some name → sociable name → 0 ∉ name →
     Q (inr (Some name, ty, size)) m) →
  wp (name ← read_string 100 (h + name_ofs); name ← deref (strip_antisocial_prefixes name);
      ret (inr (Some name, ty, size) : header_result)) m Q.
Proof.
  intros Hb Hl H0 HQ. destruct (bytes_at_field m h l name_ofs 100) as [Hf Hfl]; [done|done|done|by rewrite Hl|].
  wp_step. eapply read_string_spec; [exact Hf| |rewrite Hfl; lia|].
  { apply (list_elem_of_lookup_2 _ 99). unfold field. rewrite lookup_take_lt by lia. rewrite lookup_drop. done. }
  destruct (strip_spec (until_zero (field l name_ofs 100))) as (name&Hstrip&Hso&Hz&_). rewrite Hstrip. wp_steps.
  apply HQ; [done|done|]. apply Hz, until_zero_nonzero.
Qed.

Lemma regular_size l name ty size :
  header_of l name ty size → l !! Z.to_nat typeflag_ofs = Some USTAR_REGULAR →
  octal_value (field l size_ofs 12) 0 0 = Some size ∧ size < 2 ^ 31.
Proof.
  intros (_&_&_&_&_&Hty&_&Hval&Hlt&_) Hreg. assert (ty = USTAR_REGULAR) as -> by congruence. done.
Qed.

(** Everything that is checked, in the order of the checks. *)
Lemma ustar_parse_header_spec m h l :
  bytes_at m h l → length l = 512%nat → Forall is_u8 l →
  wp (ustar_parse_header h) m (λ r m', m' = m ∧ parsed l r).
Proof.
  intros Hb Hl Hu. unfold ustar_parse_header, is_all_zeros. change (Z.to_nat USTAR_HEADER_SIZE) with 512%nat. rewrite <- Hl.
  wp_step. eapply zeros_from_spec; [exact Hb|]. rewrite Hl. case_bool_decide as Hz; [wp_step; by split_and!|].
  destruct (bytes_at_field m h l magic_ofs 6) as [Hmf Hml]; [done|done|done|rewrite Hl; done|].
  wp_step. eapply memory_is_spec; [exact Hmf|exact Hml|]. case_bool_decide as Hmagic; cbn [negb]; [|reject].
  wp_step. eapply wp_load_field; [exact Hb|by rewrite Hl|]. intros v0 Hv0. wp_step.
  destruct (lookup_lt_is_Some_2 l (Z.to_nat (version_ofs + 1))) as [v1 Hv1]; [rewrite Hl; by apply Nat.ltb_lt|].
  pose proof (field_two l version_ofs v0 v1 Hv0 Hv1 ltac:(done)) as Hver.
  destruct (decide (v0 = 48)) as [->|Hne]; [|rewrite bool_decide_true by done; wp_step; cbn [orb]; reject].
  rewrite bool_decide_false by tauto. cbn [orb]. rewrite <- Z.add_assoc. eapply wp_load_field; [exact Hb|by rewrite Hl|]. intros v1' Hv1'.
  assert (v1' = v1) as -> by congruence. case_bool_decide as Hv; [reject|]. assert (v1 = 48) as -> by lia. clear Hv Hv1'.
  wp_step. eapply parse_octal_field_spec; [exact Hb|done|done|by rewrite Hl|].
  destruct (octal_value (field l chksum_ofs 8) 0 0) as [c|] eqn:Hc; [|reject].
  wp_step. eapply calculate_chksum_spec; [exact Hb|done|done|]. case_bool_decide as Hsum; [reject|]. subst c.
  wp_step. rewrite <- Z.add_assoc. eapply wp_load_field; [exact Hb|by rewrite Hl|]. intros last Hlast. wp_step.
  destruct (decide (last = 0)) as [->|Hne]; [|rewrite bool_decide_true by done; wp_step; cbn [orb]; reject].
  rewrite bool_decide_false by tauto. cbn [orb]. eapply wp_load_field; [exact Hb|by rewrite Hl|]. intros pre Hpre.
  case_bool_decide as Hp; [reject|]. assert (pre = 0) as -> by lia. clear Hp.
  wp_step. eapply wp_load_field; [exact Hb|by rewrite Hl|]. intros ty Hty.
  assert (ty = USTAR_REGULAR ∨ ty = USTAR_DIRECTORY ∨ (ty ≠ USTAR_REGULAR ∧ ty ≠ USTAR_DIRECTORY)) as Hcase by lia.
  assert (∀ size, 0 ≤ size < 2 ^ 31 → (ty = USTAR_REGULAR ∨ ty = USTAR_DIRECTORY) →
    (if bool_decide (ty = USTAR_REGULAR) then octal_value (field l size_ofs 12) 0 0 = Some size else size = 0) →
    wp (name ← read_string 100 (h + name_ofs); name ← deref (strip_antisocial_prefixes name);
        ret (inr (Some name, ty, size))) m (λ r m', m' = m ∧ parsed l r)) as Hend.
  { intros size Hsz Htype Hval. apply (parse_name m h l); [done|done|done|]. intros name Hstrip Hso H0. split; [done|]. cbn [parsed].
    split; [done|]. split; [|split_and!; [lia|done|done]]. unfold header_of. split_and!; first [done|lia|by rewrite Hc]. }
  destruct Hcase as [->|[->|[H1 H2]]].
  - change (bool_decide (USTAR_REGULAR ≠ USTAR_REGULAR)) with false. cbn [andb].
    change (bool_decide (USTAR_REGULAR = USTAR_REGULAR)) with true in *. cbv iota in Hend |- *. wp_steps.
    eapply parse_octal_field_spec; [exact Hb|done|done|by rewrite Hl|]. wp_step.
    destruct (octal_value (field l size_ofs 12) 0 0) as [size|] eqn:Hsz.
    2: { wp_steps. split; [done|]. split; [done|]. intros name ty size' Hh. apply (regular_size _ _ _ _ Hh) in Hty as [Hval _]. congruence. }
    case_bool_decide.
    { wp_steps. split; [done|]. split; [done|]. intros name ty size' Hh. apply (regular_size _ _ _ _ Hh) in Hty as [Hval Hlt].
      rewrite Hsz in Hval. injection Hval as ->. lia. }
    apply octal_value_range in Hsz as ?; [|by compute]. apply Hend; [word_lia|by left|done].
  - change (bool_decide (USTAR_DIRECTORY ≠ USTAR_REGULAR)) with true. change (bool_decide (USTAR_DIRECTORY ≠ USTAR_DIRECTORY)) with false.
    change (bool_decide (USTAR_DIRECTORY = USTAR_REGULAR)) with false in *. cbn [andb]. cbv iota in Hend |- *. wp_step. wp_step.
    apply Hend; [lia|by right|done].
  - rewrite !(bool_decide_true (ty ≠ _)) by done. cbn [andb]. reject.
Qed.

End Parse.

(** ** Claims *)
Section Fields.
Implicit Types fs : list (list Z).

Lemma field_concat fs i f n :
  length <$> fs = sizes → fs !! i = Some f → n = Z.of_nat (length f) → field (concat fs) (field_ofs i) n = f.
Proof.
  intros Hs Hi ->. destruct (layout_split fs i f Hs Hi) as (E&Ho&_). unfold field. rewrite E, concat_app at 1. cbn [concat].
  rewrite <- Ho, !Nat2Z.id, drop_app_length. apply take_app_length.
Qed.
Lemma lookup_concat fs i f ofs x :
  length <$> fs = sizes → fs !! i = Some f → field_ofs i ≤ ofs → f !! Z.to_nat (ofs - field_ofs i) = Some x →
  concat fs !! Z.to_nat ofs = Some x.
Proof.
  intros Hs Hi Ho Hx. destruct (layout_split fs i f Hs Hi) as (E&Hlen&_). rewrite E, concat_app. cbn [concat].
  rewrite lookup_app_r by lia. replace (Z.to_nat ofs - _)%nat with (Z.to_nat (ofs - field_ofs i)) by lia.
  by apply lookup_app_l_Some.
Qed.

(** The header that is composed is a header of the file. *)
Lemma composed_header name type size :
  type = USTAR_REGULAR ∨ type = USTAR_DIRECTORY → (length name ≤ 99)%nat → Forall is_u8 name → 0 ∉ name → sociable name →
  0 ≤ size < 2 ^ 31 →
  let l := concat (header_fields name type size (octal 7 (header_chksum name type size) ++ [0])) in
  header_of l name type (if bool_decide (type = USTAR_REGULAR) then size else 0) ∧ length l = 512%nat ∧ Forall is_u8 l.
Proof.
  intros Ht Hn Hu H0 Hso Hsz l. set (chk := octal 7 (header_chksum name type size) ++ [0]) in *.
  assert (length chk = 8%nat) as Hchk by (unfold chk; rewrite length_app, length_octal; done).
  pose proof (header_fields_sizes name type size chk Hn Hchk) as Hs.
  assert (is_u8 type) as Htu by (destruct Ht as [-> | ->]; by compute).
  assert (Forall is_u8 chk) as Hcu by (apply Forall_app; split; [apply octal_u8|repeat constructor; by compute]).
  assert (length l = 512%nat ∧ Forall is_u8 l) as [Hl Hlu].
  { split; [unfold l; by rewrite length_concat_sizes, Hs|]. by apply header_fields_u8. }
  assert (0 ≤ header_chksum name type size ≤ 255 * 512) as Hc.
  { assert (Forall is_u8 (zeros 8)) as Hzu by (apply Forall_replicate; by compute).
    pose proof (sum_from_bound 0 _ (header_fields_u8 name type size (zeros 8) Hu Htu Hzu)) as Hb.
    rewrite length_concat_sizes, (header_fields_sizes name type size (zeros 8) Hn eq_refl) in Hb. exact Hb. }
  split; [|done]. unfold header_of, l. split_and!.
  - by apply (field_concat _ 9).
  - by apply (field_concat _ 10).
  - change chksum_ofs with (field_ofs 6). rewrite (field_concat _ 6 chk) by (done || by rewrite Hchk). unfold chk at 1.
    rewrite octal_field by lia. f_equal. unfold header_chksum at 1.
    change (header_fields name type size chk) with (<[6%nat := chk]> (header_fields name type size (zeros 8))).
    symmetry. eapply sum_from_chksum; [by apply header_fields_sizes|done|done].
  - apply (lookup_concat _ 0 (pad 100 name)); [done|done|done|]. change (Z.to_nat (name_ofs + 99 - field_ofs 0)) with 99%nat.
    unfold pad, zeros. rewrite lookup_app_r by lia.
    destruct (decide (length name = 99)%nat) as [Heq|Hne]; [by replace (99 - length name)%nat with 0%nat by lia|]. rewrite lookup_app_r by (cbn; lia). apply lookup_replicate. cbn [length]. lia.
  - by apply (lookup_concat _ 15 (zeros 155)).
  - by apply (lookup_concat _ 7 [type]).
  - done.
  - case_bool_decide; [|done]. change size_ofs with (field_ofs 4).
    rewrite (field_concat _ 4 (octal 11 size ++ [0])) by (done || by rewrite length_app, length_octal). apply octal_field; lia.
  - case_bool_decide; lia.
  - change name_ofs with (field_ofs 0). rewrite (field_concat _ 0 (pad 100 name)); [|done|done|].
    + unfold pad. cbn [app]. rewrite until_zero_app by done. by apply strip_sociable.
    + unfold pad, zeros. rewrite !length_app, length_replicate. cbn [length]. lia.
Qed.
Lemma header_of_unique l name type size name' type' size' :
  header_of l name type size → header_of l name' type' size' → name' = name ∧ type' = type ∧ size' = size.
Proof.
  intros (_&_&_&_&_&Ht&_&Hs&_&Hn) (_&_&_&_&_&Ht'&_&Hs'&_&Hn'). assert (type' = type) as -> by congruence.
  split_and!; [congruence|done|]. case_bool_decide; congruence.
Qed.

End Fields.

(** C28: The header that [ustar_make_header] composes is read back by
    [ustar_parse_header]: for every file name without a terminator in it, both types and every size that
    an [int] can hold, either the name without its dangerous prefixes has more than 99
    characters and nothing is written, or just the 512 bytes of the header are written and
    parsing them returns this name, the type and the size (0 for a directory). *)
Theorem ustar_roundtrip (m : mem) (file_name : list Z) (type size h : Z) :
  type = USTAR_REGULAR ∨ type = USTAR_DIRECTORY → Forall is_u8 file_name → 0 ∉ file_name → 0 ≤ size < 2 ^ 31 →
  h ≠ Str.NULL → mapped m h USTAR_HEADER_SIZE →
  ∃ name, strip_antisocial_prefixes file_name = Some name ∧
    ((length name > 99)%nat ∧ ustar_make_header file_name type size h m = Ret (false, m) ∨
     (length name ≤ 99)%nat ∧ ∃ m', ustar_make_header file_name type size h m = Ret (true, m') ∧
       (∀ a, a < h ∨ h + USTAR_HEADER_SIZE ≤ a → m' !! a = m !! a) ∧
       ustar_parse_header h m' = Ret (inr (Some name, type, if bool_decide (type = USTAR_REGULAR) then size else 0), m')).
Proof.
  intros Ht Hu H0 Hsz Hh Hm. destruct (strip_spec file_name) as (name&Hstrip&Hso&Hz&Hu8). specialize (Hz H0). specialize (Hu8 Hu).
  exists name. split; [done|].
  destruct (proj1 (wp_outcome _ _ _) (ustar_make_header_spec m name file_name type size h Ht Hstrip Hu8 Hsz Hh Hm)) as (ok&m'&Hrun&Hok).
  case_bool_decide as Hlong; [left; destruct Hok as [-> ->]; split; [lia|done]|]. right. destruct Hok as [-> Hlay].
  split; [lia|]. exists m'. split_and!; [done|exact (lay_frame _ _ _ _ Hlay)|].
  destruct (composed_header name type size Ht ltac:(lia) Hu8 Hz Hso Hsz) as (Hof&Hl&Hlu).
  destruct (proj1 (wp_outcome _ _ _) (ustar_parse_header_spec m' h _ (lay_bytes _ _ _ _ Hlay) Hl Hlu)) as (r&m2&Hparse&->&Hp).
  rewrite Hparse. destruct r as [msg|[[[name'|] type'] size']]; cbn [parsed] in Hp.
  - by destruct (proj2 Hp name type (if bool_decide (type = USTAR_REGULAR) then size else 0)).
  - destruct Hp as (_&Hof'&_). destruct (header_of_unique _ _ _ _ _ _ _ Hof Hof') as (->&->&->). done.
  - destruct Hp as [Hzero _]. destruct Hof as (Hmagic&_). rewrite Hzero in Hmagic. by vm_compute in Hmagic.
Qed.

(** [ustar_parse_header] on any 512 bytes: it always returns, changes nothing and
    recognises the end of an archive (all zeros); it accepts exactly the
    headers whose magic, version, checksum, name, type and size are as the format
    demands, and rejects all others with a message; and whatever the header holds, the name it returns is
    not empty, not "..", and does not start with "/", "./" or "../". *)
Theorem ustar_parse_checks (m : mem) (h : Z) (l : list Z) :
  bytes_at m h l → length l = 512%nat → Forall is_u8 l →
  ∃ r, ustar_parse_header h m = Ret (r, m) ∧
    match r with
    | inr (Some name, type, size) => l ≠ zeros 512 ∧ header_of l name type size ∧ 0 ≤ size ∧ sociable name ∧ 0 ∉ name
    | inr (None, type, size) => l = zeros 512 ∧ type = USTAR_EOF ∧ size = 0
    | inl _ => l ≠ zeros 512 ∧ ∀ name type size, ¬ header_of l name type size
    end.
Proof.
  intros Hb Hl Hu. destruct (proj1 (wp_outcome _ _ _) (ustar_parse_header_spec m h l Hb Hl Hu)) as (r&m'&Hrun&->&Hp). eauto.
Qed.

(** A buffer for a header. *)
Definition blank_header : mem := mem_of 4096 (replicate 512 7) ∪ ∅.
Lemma blank_header_mapped : mapped blank_header 4096 USTAR_HEADER_SIZE.
Proof. pose proof (mem_of_mapped 4096 (replicate 512 7) ∅) as H. by rewrite length_replicate in H. Qed.

Lemma ustar_roundtrip_witness :
  ∃ m', ustar_make_header (chars "../bin/echo") USTAR_REGULAR 1234 4096 blank_header = Ret (true, m') ∧
    ustar_parse_header 4096 m' = Ret (inr (Some (chars "bin/echo"), USTAR_REGULAR, 1234), m').
Proof.
  destruct (ustar_roundtrip blank_header (chars "../bin/echo") USTAR_REGULAR 1234 4096) as (name&Hstrip&Hcase).
  - by left.
  - apply (bool_decide_unpack _). by vm_compute.
  - apply (bool_decide_unpack _). by vm_compute.
  - lia.
  - discriminate.
  - exact blank_header_mapped.
  - injection Hstrip as <-. destruct Hcase as [[Hlong _]|(_&m'&Hmake&_&Hparse)]; [vm_compute in Hlong; lia|].
    exists m'. split; [exact Hmake|exact Hparse].
Defined.

Lemma ustar_parse_checks_witness :
  ∃ msg, ustar_parse_header 4096 blank_header = Ret (inl msg, blank_header).
Proof.
  destruct (ustar_parse_checks blank_header 4096 (replicate 512 7)) as (r&Hrun&Hr).
  - exact (mem_of_bytes 4096 (replicate 512 7) ∅).
  - apply length_replicate.
  - apply Forall_replicate. by compute.
  - destruct r as [msg|[[[name|] type] size]]; [exists msg; exact Hrun| |].
    + destruct Hr as (_&(Hmagic&_)&_). vm_compute in Hmagic. discriminate Hmagic.
    + destruct Hr as (Hz&_). vm_compute in Hz. discriminate Hz.
Defined.
