(* ===== verification/Boot.v ===== *)
(** * The kernel command line (threads/init.c)

    How the kernel reads the words that the loader left in memory, obeys the
    options among them and runs the actions, and how it chooses block devices for
    their roles.  Messages on the console are left out; words are strings in byte
    memory, which [strtok_r] cuts into pieces, and the random number generator is
    the one of Random. *)

From S2P Require Import Prelude Vaddr Str Stdio Random Block Ustar.
Local Open Scope Z_scope.

(** ** State *)

Definition LOADER_ARGS_LEN : Z := 128.
Definition LOADER_ARGS : Z := 0x7e00 - 2 - 64 - LOADER_ARGS_LEN.
Definition LOADER_ARG_CNT : Z := LOADER_ARGS - 4.
(** The number of elements of the static array [argv] *)
Definition ARGV_LEN : Z := LOADER_ARGS_LEN / 2 + 1.

Inductive shutdown_type := SHUTDOWN_NONE | SHUTDOWN_POWER_OFF | SHUTDOWN_REBOOT.

(** The variables that options set; names are pointers. *)
Record options := Options {
  how : shutdown_type; format_filesys : bool; filesys_bdev_name : Z; scratch_bdev_name : Z; thread_mlfqs : bool; user_page_limit : Z }.
Definition default_options : options := Options SHUTDOWN_NONE false NULL NULL false (2 ^ 32 - 1).

Record kernel := Kernel { kmem : mem; opts : options; rng : rc4 }.

Definition on_kmem {A} (c : M mem A) : M kernel A :=
  λ k, match c (kmem k) with Ret (a, m) => Ret (a, Kernel m (opts k) (rng k)) | Fail e => Fail e end.
Definition on_rng {A} (c : M rc4 A) : M kernel A :=
  λ k, match c (rng k) with Ret (a, r) => Ret (a, Kernel (kmem k) (opts k) r) | Fail e => Fail e end.
Definition set_opts (f : options → options) : M kernel unit := modify (λ k, Kernel (kmem k) (f (opts k)) (rng k)).

(** ** Reading the words *)

(** [for (i = 0; i < argc; i++)]; a store behind the end of [argv] is an error. *)
Fixpoint words_loop (fuel : nat) (argc i p finish : Z) : M kernel (list Z) :=
  match fuel with
  | O => fail OutOfFuel
  | S fuel =>
      if i <? argc then
        (if finish <=? p then fail AssertFail else ret tt);;
        (if ARGV_LEN <=? i then fail BadAccess else ret tt);;
        n ← on_kmem (strnlen p (finish - p));
        r ← words_loop fuel argc (i + 1) (p + (n + 1)) finish;
        ret (p :: r)
      else if ARGV_LEN <=? argc then fail BadAccess else ret []
  end.
(** The result is [argv] up to the null pointer. *)
Definition read_command_line : M kernel (list Z) :=
  cnt ← ptov LOADER_ARG_CNT;
  argc ← on_kmem (load_word cnt);
  p ← ptov LOADER_ARGS;
  words_loop (S (Z.to_nat LOADER_ARGS_LEN)) (s32 argc) 0 p (p + LOADER_ARGS_LEN).

(** ** Options *)
Section Parse.
(** The addresses of the literals ["="] and the empty string, and what
    [rtc_get_time] returns. *)
Context (equals empty now : Z).

(** The string at a pointer that is passed to [atoi]. *)
Definition atoi_at (value : Z) : M kernel Z :=
  ASSERT (negb (value =? NULL));; s ← on_kmem (read_string 129 value); ret (atoi s).

(** The characters of the name, and the pointer to the value. *)
Definition cut_option (arg : Z) : M kernel (list Z * Z) :=
  ' (name, save_ptr) ← on_kmem (strtok_r arg equals NULL);
  ' (value, _) ← on_kmem (strtok_r NULL empty save_ptr);
  name ← on_kmem (read_string 129 name);
  ret (name, value).

(** One option; the result is false if the machine was powered off. *)
Definition parse_option (arg : Z) : M kernel bool :=
  ' (name, value) ← cut_option arg;
  if bool_decide (name = chars "-h") then ret false
  else
    (if bool_decide (name = chars "-q") then
       set_opts (λ o, Options SHUTDOWN_POWER_OFF (format_filesys o) (filesys_bdev_name o) (scratch_bdev_name o) (thread_mlfqs o) (user_page_limit o))
     else if bool_decide (name = chars "-r") then
       set_opts (λ o, Options SHUTDOWN_REBOOT (format_filesys o) (filesys_bdev_name o) (scratch_bdev_name o) (thread_mlfqs o) (user_page_limit o))
     else if bool_decide (name = chars "-f") then
       set_opts (λ o, Options (how o) true (filesys_bdev_name o) (scratch_bdev_name o) (thread_mlfqs o) (user_page_limit o))
     else if bool_decide (name = chars "-filesys") then
       set_opts (λ o, Options (how o) (format_filesys o) value (scratch_bdev_name o) (thread_mlfqs o) (user_page_limit o))
     else if bool_decide (name = chars "-scratch") then
       set_opts (λ o, Options (how o) (format_filesys o) (filesys_bdev_name o) value (thread_mlfqs o) (user_page_limit o))
     else if bool_decide (name = chars "-rs") then
       n ← atoi_at value; on_rng (random_init (u32 n))
     else if bool_decide (name = chars "-mlfqs") then
       set_opts (λ o, Options (how o) (format_filesys o) (filesys_bdev_name o) (scratch_bdev_name o) true (user_page_limit o))
     else if bool_decide (name = chars "-ul") then
       n ← atoi_at value;
       set_opts (λ o, Options (how o) (format_filesys o) (filesys_bdev_name o) (scratch_bdev_name o) (thread_mlfqs o) (u32 n))
     else fail AssertFail);;
    ret true.

(** The rest of [argv] after the options, or none if the machine was powered off. *)
Fixpoint parse_options (argv : list Z) : M kernel (option (list Z)) :=
  match argv with
  | [] => on_rng (random_init now);; ret (Some [])
  | arg :: rest =>
      c ← on_kmem (load arg);
      if c =? 45 then more ← parse_option arg; if more : bool then parse_options rest else ret None
      else on_rng (random_init now);; ret (Some argv)
  end.

End Parse.

(** ** Actions *)
Section Actions.
(** What the actions do is given: each gets the words from its name on. *)
Context {W : Type}.
Inductive action := run_task | fsutil_ls | fsutil_cat | fsutil_rm | fsutil_extract | fsutil_append.
Context (perform : action → list (list Z) → M W unit).

Definition actions : list (list Z * nat * action) :=
  [(chars "run", 2%nat, run_task); (chars "ls", 1%nat, fsutil_ls); (chars "cat", 2%nat, fsutil_cat); (chars "rm", 2%nat, fsutil_rm);
   (chars "extract", 1%nat, fsutil_extract); (chars "append", 2%nat, fsutil_append)].

Fixpoint find_action (l : list (list Z * nat * action)) (name : list Z) : M W (nat * action) :=
  match l with
  | [] => fail AssertFail
  | (n, argc, a) :: l => if bool_decide (name = n) then ret (argc, a) else find_action l name
  end.
Fixpoint run_actions (fuel : nat) (argv : list (list Z)) : M W unit :=
  match fuel, argv with
  | _, [] => ret tt
  | O, _ => fail OutOfFuel
  | S fuel, name :: _ =>
      ' (argc, a) ← find_action actions name;
      ASSERT (bool_decide (argc ≤ length argv)%nat);;
      perform a argv;;
      run_actions fuel (drop argc argv)
  end.

End Actions.

(** ** Block devices *)

Fixpoint first_of_type (fuel : nat) (role : block_type) (b : Z) : M registry Z :=
  match fuel with
  | O => fail OutOfFuel
  | S fuel =>
      if b =? 0 then ret 0
      else
        r ← get_state; d ← deref (devices r !! b);
        if bool_decide (block_type_of d = role) then ret b else n ← block_next b; first_of_type fuel role n
  end.
(** [name] is none for a null pointer. *)
Definition locate_block_device (role : block_type) (name : option string) : M registry unit :=
  b ← (match name with
       | Some name => b ← block_get_by_name name; ASSERT (negb (b =? 0));; ret b
       | None => r ← get_state; b ← block_first; first_of_type (S (length (all_blocks r))) role b
       end);
  if negb (b =? 0) then block_set_role role b else ret tt.
Definition locate_block_devices (filesys scratch : option string) : M registry unit :=
  locate_block_device BLOCK_FILESYS filesys;; locate_block_device BLOCK_SCRATCH scratch.

(** ** What a command line means *)

Record settings := Settings {
  shut : shutdown_type; format : bool; filesys : option (list Z); scratch : option (list Z); mlfqs : bool; limit : Z }.
Definition default_settings : settings := Settings SHUTDOWN_NONE false None None false (2 ^ 32 - 1).

(** [w] up to the first equals sign, and what comes after it. *)
Fixpoint split_option (w : list Z) : list Z * list Z :=
  match w with
  | [] => ([], [])
  | c :: r => if bool_decide (c = 61) then ([], r) else let '(a, b) := split_option r in (c :: a, b)
  end.
Definition nonempty (l : list Z) : option (list Z) := match l with [] => None | _ :: _ => Some l end.
(** The value; an empty one is none. *)
Definition value_of (w : list Z) : option (list Z) := nonempty (split_option w).2.
(** What an option does, if it is one and has the value it needs; the seed is not a setting. *)
Definition obey (s : settings) (name : list Z) (value : option (list Z)) : option settings :=
  if bool_decide (name = chars "-q") then Some (Settings SHUTDOWN_POWER_OFF (format s) (filesys s) (scratch s) (mlfqs s) (limit s))
  else if bool_decide (name = chars "-r") then Some (Settings SHUTDOWN_REBOOT (format s) (filesys s) (scratch s) (mlfqs s) (limit s))
  else if bool_decide (name = chars "-f") then Some (Settings (shut s) true (filesys s) (scratch s) (mlfqs s) (limit s))
  else if bool_decide (name = chars "-filesys") then Some (Settings (shut s) (format s) value (scratch s) (mlfqs s) (limit s))
  else if bool_decide (name = chars "-scratch") then Some (Settings (shut s) (format s) (filesys s) value (mlfqs s) (limit s))
  else if bool_decide (name = chars "-rs") then match value with Some _ => Some s | None => None end
  else if bool_decide (name = chars "-mlfqs") then Some (Settings (shut s) (format s) (filesys s) (scratch s) true (limit s))
  else if bool_decide (name = chars "-ul") then
    match value with Some v => Some (Settings (shut s) (format s) (filesys s) (scratch s) (mlfqs s) (u32 (atoi v))) | None => None end
  else None.

Inductive meaning := Panics | PowersOff | Parsed (s : settings) (rest : list (list Z)).
Fixpoint interpret (s : settings) (ws : list (list Z)) : meaning :=
  match ws with
  | w :: rest =>
      if bool_decide (List.hd 0 w = 45) then
        let name := (split_option w).1 in
        if bool_decide (name = chars "-h") then PowersOff
        else match obey s name (value_of w) with Some s => interpret s rest | None => Panics end
      else Parsed s ws
  | [] => Parsed s []
  end.

(** ** Words in memory *)

(** The words [ws] one after the other from [q] on, each with its terminator, and
    where they are. *)
Fixpoint words_at (m : mem) (q : Z) (ws : list (list Z)) : Prop :=
  match ws with [] => True | w :: r => str_at m q w ∧ words_at m (q + Z.of_nat (length w) + 1) r end.
Fixpoint addresses (q : Z) (ws : list (list Z)) : list Z :=
  match ws with [] => [] | w :: r => q :: addresses (q + Z.of_nat (length w) + 1) r end.
Fixpoint extent (ws : list (list Z)) : Z := match ws with [] => 0 | w :: r => Z.of_nat (length w) + 1 + extent r end.

(** A word: not empty, bytes without a terminator. *)
Definition word_ok (w : list Z) : Prop := w ≠ [] ∧ Forall is_u8 w ∧ 0 ∉ w.

Lemma extent_nonneg ws : 0 ≤ extent ws.
Proof. induction ws as [|w ws IH]; cbn [extent]; lia. Qed.
Lemma words_at_frame m m' q ws : (∀ a, q ≤ a < q + extent ws → m' !! a = m !! a) → words_at m q ws → words_at m' q ws.
Proof.
  revert q. induction ws as [|w ws IH]; intros q Hf; cbn [words_at extent] in *; [done|]. pose proof (extent_nonneg ws). intros [Hs Hw].
  split; [eapply str_at_frame; [|exact Hs]; intros a Ha; apply Hf; lia|]. apply IH; [|done]. intros a Ha. apply Hf. lia.
Qed.

(** A name in the settings and the pointer to it; the string lies below [q]. *)
Definition name_at (m : mem) (q p : Z) (n : option (list Z)) : Prop :=
  match n with Some w => 0 < p ∧ str_at m p w ∧ p + Z.of_nat (length w) < q | None => p = NULL end.
Record settings_at (m : mem) (q : Z) (o : options) (s : settings) : Prop := {
  sa_how : how o = shut s; sa_format : format_filesys o = format s; sa_filesys : name_at m q (filesys_bdev_name o) (filesys s);
  sa_scratch : name_at m q (scratch_bdev_name o) (scratch s); sa_mlfqs : thread_mlfqs o = mlfqs s; sa_limit : user_page_limit o = limit s }.

Lemma name_at_frame m m' q q' p n : (∀ a, a < q → m' !! a = m !! a) → q ≤ q' → name_at m q p n → name_at m' q' p n.
Proof.
  intros Hf Hq. destruct n as [w|]; cbn [name_at]; [|done]. intros (Hp&Hs&Hlt). split; [done|]. split; [|lia].
  eapply str_at_frame; [|exact Hs]. intros a Ha. apply Hf. lia.
Qed.
Lemma settings_at_frame m m' q q' o s : (∀ a, a < q → m' !! a = m !! a) → q ≤ q' → settings_at m q o s → settings_at m' q' o s.
Proof. intros Hf Hq [H1 H2 H3 H4 H5 H6]. split; [done|done|by eapply name_at_frame|by eapply name_at_frame|done|done]. Qed.

(** ** Cutting an option *)

Lemma split_option_app w : ∃ t, w = (split_option w).1 ++ t ∧ 61 ∉ (split_option w).1 ∧
  (t = [] ∧ (split_option w).2 = [] ∨ t = 61 :: (split_option w).2).
Proof.
  induction w as [|c w (t&Hw&Hn&Ht)]; cbn [split_option]; [exists []; split; [done|]; split; [set_solver|by left]|].
  case_bool_decide as Hc; [subst c; exists (61 :: w); split; [done|]; split; [set_solver|by right]|].
  destruct (split_option w) as [a b]. cbn [fst snd] in *. exists t. split; [cbn; by f_equal|]. split; [set_solver|done].
Qed.

(** A decomposition at the first delimiter is the only one. *)
Lemma first_delimiter (d a b a' b' : list Z) :
  a ++ b = a' ++ b' → Forall (λ x, x ∉ d) a → Forall (λ x, x ∉ d) a' → (∀ x r, b = x :: r → x ∈ d) → (∀ x r, b' = x :: r → x ∈ d) →
  a = a' ∧ b = b'.
Proof.
  revert a'. induction a as [|x a IH]; intros [|y a'] E Ha Ha' Hb Hb'; cbn [app] in E.
  - done.
  - subst b. apply Forall_cons in Ha' as [Hy _]. by destruct Hy; eapply Hb.
  - subst b'. apply Forall_cons in Ha as [Hx _]. by destruct Hx; eapply Hb'.
  - injection E as -> E. apply Forall_cons in Ha as [_ Ha], Ha' as [_ Ha']. by destruct (IH a' E Ha Ha' Hb Hb') as [-> ->].
Qed.

(** [strtok_r] on a string that starts with the token [a]. *)
Lemma strtok_cut m s save dp d a b (p := if bool_decide (s = NULL) then save else s) (Q : Z * Z → mem → Prop) :
  0 < dp → 0 < p → str_at m dp d → a ≠ [] → Forall is_u8 (a ++ b) → Forall (λ x, x ∉ d) a → (∀ x r, b = x :: r → x ∈ d) →
  str_at m p (a ++ b) →
  (b = [] → Q (p, p + Z.of_nat (length a)) m) →
  (∀ x r, b = x :: r → Q (p, p + Z.of_nat (length a) + 1) (<[p + Z.of_nat (length a) := 0]> m)) →
  wp (strtok_r s dp save) m Q.
Proof.
  intros Hdp Hp Hd Hne Hu Ha Hb Hs HQ1 HQ2. unfold strtok_r. wp_step. apply wp_assert_nonnull; [unfold NULL; lia|]. fold p. wp_step.
  apply wp_assert_nonnull; [unfold NULL; lia|]. wp_step. apply wp_bytes_mapped. wp_step. pose proof (str_at_size _ _ _ Hs) as Hsz.
  destruct a as [|x0 a0]; [done|]. pose proof Ha as [Hx0 _]%Forall_cons.
  eapply (skip_delimiters_spec m p _ dp d); [done|done|exact Hu|exact Hs|lia| |].
  { intros Hall. cbn [app] in Hall. by apply Forall_cons in Hall as [? _]. }
  intros l1 x l2 E Hl1 Hx. assert (l1 = []) as ->.
  { destruct l1 as [|y l1]; [done|]. cbn [app] in E. injection E as -> E. by apply Forall_cons in Hl1 as [? _]. }
  cbn [length]. rewrite Z.add_0_r. wp_step. eapply (skip_token_spec m p _ dp d); [done|done|exact Hu|exact Hs|lia|].
  intros l3 l4 E' Hl3 Hl4. destruct (first_delimiter d _ _ _ _ E' Ha Hl3 Hb Hl4) as [<- <-]. wp_step.
  pose proof Hs as (_&_&Hsb)%str_at_app. destruct b as [|y r].
  - apply str_at_nil in Hsb. eapply wp_load_byte; [exact Hsb|]. rewrite bool_decide_false by tauto. wp_step. by apply HQ1.
  - apply str_at_cons in Hsb as (Hy&Hyn&_). eapply wp_load_byte; [exact Hy|]. rewrite bool_decide_true by done. wp_step.
    apply wp_store; [by apply elem_of_dom_2 in Hy|]. wp_step. by eapply HQ2.
Qed.
(** [strtok_r] at the end of the string. *)
Lemma strtok_end m save dp d (Q : Z * Z → mem → Prop) :
  0 < dp → 0 < save → str_at m dp d → str_at m save [] → (∀ x, Q (NULL, x) m) → wp (strtok_r NULL dp save) m Q.
Proof.
  intros Hdp Hp Hd Hs HQ. unfold strtok_r. wp_step. apply wp_assert_nonnull; [unfold NULL; lia|]. rewrite bool_decide_true by done. wp_step.
  apply wp_assert_nonnull; [unfold NULL; lia|]. wp_step. apply wp_bytes_mapped. wp_step. pose proof (str_at_size _ _ _ Hs) as Hsz.
  eapply (skip_delimiters_spec m save [] dp d); [done|done|constructor|exact Hs|lia| |].
  - intros _. wp_step. apply HQ.
  - intros l1 x l2 E. by destruct l1.
Qed.

Lemma wp_on_kmem {A} (c : M mem A) m o r Q : wp c m (λ x m', Q x (Kernel m' o r)) → wp (on_kmem c) (Kernel m o r) Q.
Proof. unfold wp, on_kmem. cbn [kmem]. by destruct (c m) as [[x m']|]. Qed.
Lemma wp_on_rng {A} (c : M rc4 A) m o r Q : wp c r (λ x r', Q x (Kernel m o r')) → wp (on_rng c) (Kernel m o r) Q.
Proof. unfold wp, on_rng. cbn [rng]. by destruct (c r) as [[x r']|]. Qed.

Lemma read_word m p w Q : str_at m p w → (length w ≤ 128)%nat → Q w m → wp (read_string 129 p) m Q.
Proof.
  intros [Hb H0] Hl HQ. eapply (read_string_spec m p (w ++ [0])); [done|set_solver|rewrite length_app; cbn; lia|].
  by rewrite until_zero_app.
Qed.

Section Options_spec.
Context (equals empty now : Z).

(** The literals, which lie outside of the words. *)
Record literals (m : mem) (lo hi : Z) : Prop := {
  lit_equals : str_at m equals [61]; lit_empty : str_at m empty [];
  lit_pos : 0 < equals ∧ 0 < empty;
  lit_apart : (equals + 1 < lo ∨ hi ≤ equals) ∧ (empty < lo ∨ hi ≤ empty) }.

(** Nothing changes outside of the word at [arg]. *)
Definition within (arg n : Z) (m m' : mem) : Prop := ∀ a, a < arg ∨ arg + n ≤ a → m' !! a = m !! a.

Lemma literals_frame m m' lo hi arg n : literals m lo hi → within arg n m m' → lo ≤ arg → arg + n ≤ hi → literals m' lo hi.
Proof.
  intros [H1 H2 H3 H4] Hf Hlo Hhi. split; [| |done|done]; (eapply str_at_frame; [|eassumption]); cbn [length]; intros a Ha; apply Hf; lia.
Qed.

(** What follows the name. *)
Lemma read_value m o r arg name sv after :
  str_at m arg name → (length name ≤ 128)%nat → str_at m sv after → Forall is_u8 after → 0 < sv → 0 < empty → str_at m empty [] →
  wp (' (value, _) ← on_kmem (strtok_r NULL empty sv); name ← on_kmem (read_string 129 arg); ret (name, value)) (Kernel m o r)
    (λ '(n, value) k, k = Kernel m o r ∧ n = name ∧
      name_at m (sv + Z.of_nat (length after) + 1) value (nonempty after)).
Proof.
  intros Hname Hlen Hafter Hu Hsv He Hem. wp_step. apply wp_on_kmem. destruct after as [|y after'].
  { eapply strtok_end; [done|done|exact Hem|exact Hafter|]. intros x. wp_step. apply wp_on_kmem. eapply read_word; [exact Hname|lia|]. by wp_step. }
  set (after := y :: after') in *. eapply (strtok_cut m NULL sv empty [] after []).
  1-8: rewrite ?(bool_decide_true (NULL = NULL)), ?app_nil_r by done; try done.
  - apply Forall_forall. intros x _. apply not_elem_of_nil.
  - intros _. rewrite (bool_decide_true (NULL = NULL)) by done. wp_step. apply wp_on_kmem. eapply read_word; [exact Hname|lia|]. wp_step.
    split; [done|]. split; [done|]. split; [lia|]. split; [exact Hafter|lia].
  - intros x r' Hnil. discriminate.
Qed.

Lemma cut_option_spec m o r lo hi arg w :
  word_ok w → List.hd 0 w = 45 → (length w ≤ 128)%nat → str_at m arg w → 0 < arg → literals m lo hi → lo ≤ arg →
  arg + Z.of_nat (length w) < hi →
  wp (cut_option equals empty arg) (Kernel m o r) (λ '(name, value) k, ∃ m', k = Kernel m' o r ∧ name = (split_option w).1 ∧
    within arg (Z.of_nat (length w)) m m' ∧ name_at m' (arg + Z.of_nat (length w) + 1) value (value_of w)).
Proof.
  intros (Hne&Hu&H0) Hhd Hlen Hs Hpos Hlit Hlo Hhi. unfold value_of. destruct (split_option_app w) as (t&Hw&Hn&Ht).
  assert ((split_option w).1 ≠ []) as Hne1.
  { destruct w as [|c w]; [done|]. cbn in Hhd. subst c. cbn [split_option]. rewrite bool_decide_false by lia. by destruct (split_option w). }
  set (name := (split_option w).1) in *. set (after := (split_option w).2) in *. clearbody name after.
  assert (Forall (λ x, x ∉ [61]) name) as Hall by (apply Forall_forall; intros x Hx ->%list_elem_of_singleton; done).
  assert (length w = (length name + length t)%nat) as Hlw by (by rewrite Hw, length_app).
  destruct Hlit as [Heq Hem [He0 Hm0] Hap].
  unfold cut_option. wp_step. apply wp_on_kmem.
  assert (Forall is_u8 (name ++ t)) as Hut by (by rewrite <- Hw). assert (str_at m arg (name ++ t)) as Hst by (by rewrite <- Hw).
  assert (0 ∉ name) as H0n by (intros Hx; apply H0; rewrite Hw; set_solver).
  assert (bool_decide (arg = NULL) = false) as Harg by (apply bool_decide_eq_false_2; unfold NULL; lia).
  eapply (strtok_cut m arg NULL equals [61] name t); rewrite ?Harg; [done|lia|done|done|done|done| |done| |].
  { intros x l Htx. destruct Ht as [[-> _]|Ht]; [done|]. rewrite Ht in Htx. injection Htx as <- <-. set_solver. }
  - intros ->. destruct Ht as [[_ ->]|Ht]; [|done]. rewrite app_nil_r in Hst. cbn [length] in Hlw.
    assert (str_at m (arg + Z.of_nat (length name)) []) as Hend by (rewrite <- (app_nil_r name) in Hst; by apply str_at_app in Hst as (_&_&?)).
    eapply wp_mono; [apply (read_value m o r arg name _ []); [done|lia|exact Hend|constructor|lia|done|done]|].
    intros [n value] k (->&->&Hv). exists m. split; [done|]. split; [done|]. split; [done|exact Hv].
  - intros x l Htx. destruct Ht as [[-> _]|Ht]; [done|]. rewrite Ht in Htx. injection Htx as <- <-. rewrite Ht in Hst, Hlw, Hut. cbn [length] in Hlw.
    set (e := arg + Z.of_nat (length name)). set (m' := <[e := 0]> m). apply str_at_app in Hst as (Hbn&_&Hst). fold e in Hst.
    apply str_at_cons in Hst as (_&_&Hst). apply Forall_app in Hut as [_ [_ Hua]%Forall_cons].
    assert (within arg (Z.of_nat (length w)) m m') as Hwi by (intros a Ha; apply lookup_insert_ne; lia).
    assert (str_at m' arg name) as Hname.
    { split; [|done]. apply bytes_at_app. split; [|by split; [apply lookup_insert_eq|]]. eapply bytes_at_frame; [|exact Hbn].
      intros a Ha. apply lookup_insert_ne. lia. }
    assert (str_at m' (e + 1) after) as Hafter by (eapply str_at_frame; [|exact Hst]; intros a Ha; apply lookup_insert_ne; lia).
    eapply wp_mono; [apply (read_value m' o r arg name (e + 1) after); [done|lia|done|done|lia|done|]|].
    { eapply str_at_frame; [|exact Hem]. cbn [length]. intros a Ha. apply Hwi. lia. }
    intros [n value] k (->&->&Hv). exists m'. split; [done|]. split; [done|]. split; [done|].
    eapply name_at_frame; [|..|exact Hv]; [done|lia].
Qed.

(** A value that [atoi] reads. *)
Lemma atoi_at_spec m o r q p v (Q : Z → kernel → Prop) :
  name_at m q p (Some v) → (length v ≤ 128)%nat → Q (atoi v) (Kernel m o r) → wp (atoi_at p) (Kernel m o r) Q.
Proof.
  intros (Hp&Hs&_) Hl HQ. unfold atoi_at. wp_step. apply wp_ASSERT; [unfold NULL; lia|]. wp_step. apply wp_on_kmem.
  eapply read_word; [exact Hs|done|]. by wp_step.
Qed.
Lemma value_length w v : value_of w = Some v → (length v ≤ length w)%nat.
Proof.
  unfold value_of. destruct (split_option_app w) as (t&Hw&_&[[_ ->]|Ht]); [done|]. destruct (split_option w) as [a b]. cbn [fst snd] in *.
  destruct b; [done|]. intros [= <-]. apply (f_equal length) in Hw. rewrite Ht, length_app in Hw. cbn [length] in *. lia.
Qed.

(** One option does what it means. *)
Lemma parse_option_spec m o r lo hi arg w s :
  word_ok w → List.hd 0 w = 45 → (length w ≤ 128)%nat → str_at m arg w → 0 < arg → literals m lo hi → lo ≤ arg →
  arg + Z.of_nat (length w) < hi → settings_at m arg o s →
  if bool_decide ((split_option w).1 = chars "-h") then ∃ k, parse_option equals empty arg (Kernel m o r) = Ret (false, k)
  else match obey s (split_option w).1 (value_of w) with
       | Some s' => ∃ m' o' r', parse_option equals empty arg (Kernel m o r) = Ret (true, Kernel m' o' r') ∧
           within arg (Z.of_nat (length w)) m m' ∧ settings_at m' (arg + Z.of_nat (length w) + 1) o' s'
       | None => parse_option equals empty arg (Kernel m o r) = Fail AssertFail
       end.
Proof.
  intros Hok Hhd Hlen Hs Hpos Hlit Hlo Hhi Hset.
  destruct (proj1 (wp_outcome _ _ _) (cut_option_spec m o r lo hi arg w Hok Hhd Hlen Hs Hpos Hlit Hlo Hhi))
    as ([name value]&k&Hcut&m'&->&->&Hwi&Hv).
  assert (settings_at m' (arg + Z.of_nat (length w) + 1) o s) as [H1 H2 H3 H4 H5 H6].
  { eapply settings_at_frame; [|..|exact Hset]; [|lia]. intros a Ha. apply Hwi. lia. }
  assert (∀ v, value_of w = Some v → ∀ (c : Z → M kernel unit) (x : Z) (Q : unit → kernel → Prop), x = atoi v →
    wp (c x) (Kernel m' o r) Q → wp (n ← atoi_at value; c n) (Kernel m' o r) Q) as Hatoi.
  { intros v Hval c x Q -> Hc. rewrite Hval in Hv. wp_step. eapply atoi_at_spec; [exact Hv|apply value_length in Hval; lia|exact Hc]. }
  unfold parse_option. set (name := (split_option w).1) in *. clearbody name.
  assert (∀ c : list Z * Z → M kernel bool, bind (cut_option equals empty arg) c (Kernel m o r) = c (name, value) (Kernel m' o r)) as Hrun
    by (intros c; unfold bind; by rewrite Hcut).
  rewrite Hrun. unfold obey. destruct (bool_decide (name = chars "-h")); [by eexists|].
  destruct (bool_decide (name = chars "-q")); [by eexists m', _, r|]. destruct (bool_decide (name = chars "-r")); [by eexists m', _, r|].
  destruct (bool_decide (name = chars "-f")); [by eexists m', _, r|]. destruct (bool_decide (name = chars "-filesys")); [by eexists m', _, r|].
  destruct (bool_decide (name = chars "-scratch")); [by eexists m', _, r|]. destruct (bool_decide (name = chars "-rs")).
  { destruct (value_of w) as [v|] eqn:Hval; [|cbn in Hv; subst value; done].
    assert (wp (n ← atoi_at value; on_rng (random_init (u32 n))) (Kernel m' o r) (λ _ k, ∃ r', k = Kernel m' o r')) as ([]&k&Hk&r'&->)%wp_outcome.
    { eapply (Hatoi v eq_refl); [done|]. apply wp_on_rng. eapply wp_mono; [apply random_init_spec|]. intros [] r' _. by exists r'. }
    exists m', o, r'. split; [by unfold bind at 1; rewrite Hk|]. split; [done|]. by split. }
  destruct (bool_decide (name = chars "-mlfqs")); [by eexists m', _, r|]. destruct (bool_decide (name = chars "-ul")); [|done].
  destruct (value_of w) as [v|] eqn:Hval; [|cbn in Hv; subst value; done].
  assert (wp (n ← atoi_at value; set_opts (λ o, Options (how o) (format_filesys o) (filesys_bdev_name o) (scratch_bdev_name o) (thread_mlfqs o) (u32 n)))
    (Kernel m' o r) (λ _ k, k = Kernel m' (Options (how o) (format_filesys o) (filesys_bdev_name o) (scratch_bdev_name o) (thread_mlfqs o)
      (u32 (atoi v))) r)) as ([]&k&Hk&->)%wp_outcome by (eapply (Hatoi v eq_refl); [done|]; by apply wp_modify).
  eexists m', _, r. split; [by unfold bind at 1; rewrite Hk|]. split; [done|]. by split.
Qed.

Lemma parse_options_spec ws q m o r s lo hi :
  Forall word_ok ws → words_at m q ws → 0 < q → literals m lo hi → lo ≤ q → q + extent ws ≤ hi → extent ws ≤ 128 → settings_at m q o s →
  match interpret s ws with
  | Panics => parse_options equals empty now (addresses q ws) (Kernel m o r) = Fail AssertFail
  | PowersOff => ∃ k, parse_options equals empty now (addresses q ws) (Kernel m o r) = Ret (None, k)
  | Parsed s' rest => ∃ m' o' r' q', parse_options equals empty now (addresses q ws) (Kernel m o r) = Ret (Some (addresses q' rest), Kernel m' o' r') ∧
      words_at m' q' rest ∧ settings_at m' q' o' s' ∧ random_init now r = Ret (tt, r')
  end.
Proof.
  intros Hall. revert q m o r s. induction Hall as [|w ws Hok Hall IH]; intros q m o r s Hw Hq Hlit Hlo Hhi H128 Hset; cbn [interpret addresses parse_options].
  all: destruct (proj1 (wp_outcome _ _ _) (random_init_spec r now)) as ([]&r'&Hr&_).
  { exists m, o, r', q. split; [unfold bind, on_rng; cbn [rng]; by rewrite Hr|]. done. }
  cbn [words_at extent] in *. destruct Hw as [Hs Hw]. pose proof (extent_nonneg ws) as Hext.
  assert (∀ k : Z → M kernel (option (list Z)), bind (on_kmem (load q)) k (Kernel m o r) = k (List.hd 0 w) (Kernel m o r)) as Hload.
  { intros k. destruct w as [|c w]; [by destruct Hok|]. apply str_at_cons in Hs as (Hc&_&_).
    unfold bind, on_kmem, load, bind, get_state. cbn [kmem]. by rewrite Hc. }
  rewrite Hload. destruct (Z.eqb_spec (List.hd 0 w) 45) as [Hhd|Hhd]; [rewrite bool_decide_true by done|rewrite bool_decide_false by done].
  2: { exists m, o, r', q. split; [unfold bind, on_rng; cbn [rng]; by rewrite Hr|]. done. }
  pose proof (parse_option_spec m o r lo hi q w s Hok Hhd ltac:(lia) Hs Hq Hlit Hlo ltac:(lia) Hset) as Hone.
  case_bool_decide as Hh; [destruct Hone as [k Hone]; exists k; unfold bind; by rewrite Hone|].
  destruct (obey s (split_option w).1 (value_of w)) as [s'|]; [|unfold bind; by rewrite Hone].
  destruct Hone as (m'&o'&r1&Hone&Hwi&Hset'). specialize (IH (q + Z.of_nat (length w) + 1) m' o' r1 s'). unfold bind. rewrite Hone.
  rewrite (random_init_same r r1). apply IH; [|lia| |lia|lia|lia|done].
  - eapply words_at_frame; [|exact Hw]. intros a Ha. apply Hwi. lia.
  - eapply literals_frame; [exact Hlit|exact Hwi|lia|lia].
Qed.

End Options_spec.

(** ** The whole command line *)

Lemma words_extent ws : Forall word_ok ws → 2 * Z.of_nat (length ws) ≤ extent ws.
Proof. induction 1 as [|w ws [Hne _] _ IH]; cbn [extent length]; [lia|]. destruct w; [done|]. cbn [length]. lia. Qed.

Lemma words_loop_spec ws fuel m o r argc i p finish :
  Forall word_ok ws → words_at m p ws → i + Z.of_nat (length ws) = argc → argc < ARGV_LEN → p + extent ws ≤ finish → (length ws < fuel)%nat →
  wp (words_loop fuel argc i p finish) (Kernel m o r) (λ ps k, ps = addresses p ws ∧ k = Kernel m o r).
Proof.
  intros Hall. revert fuel i p. induction Hall as [|w ws Hok Hall IH]; intros fuel i p Hw Hi Hargc Hend Hf;
    (destruct fuel as [|fuel]; [cbn [length] in Hf; lia|]); cbn [words_loop addresses words_at extent length] in *.
  { assert ((i <? argc) = false) as -> by lia. assert ((ARGV_LEN <=? argc) = false) as -> by lia. by wp_step. }
  destruct Hw as [Hs Hw]. pose proof (extent_nonneg ws). assert ((i <? argc) = true) as -> by lia.
  assert ((finish <=? p) = false) as -> by lia. assert ((ARGV_LEN <=? i) = false) as -> by lia. wp_step. wp_step. wp_step. wp_step. wp_step.
  apply wp_on_kmem. unfold strnlen. wp_step. apply wp_bytes_mapped. pose proof (str_at_size _ _ _ Hs).
  eapply wp_run; [apply (strnlen_loop_str m p _ w 0); [by rewrite Z.add_0_r|lia|lia]|].
  rewrite Z.add_0_l. wp_step. replace (p + (Z.of_nat (length w) + 1)) with (p + Z.of_nat (length w) + 1) by lia.
  eapply wp_mono; [apply IH; [done|lia|done|lia|lia]|]. intros ps k [-> ->]. by wp_step.
Qed.

(** Where the kernel sees the area of the loader. *)
Definition loader_args : Z := PHYS_BASE + LOADER_ARGS.

(** C16: The command line is obeyed as documented.  For any list of words that the loader stored (not
    empty, at most 128 bytes with their terminators), reading them and parsing the options has
    exactly the result that the reference interpretation gives: an unknown option, or an option that
    needs a number and has none, panics; [-h] powers the machine off; otherwise the variables of the
    kernel have the values of the last options given, device names as strings that are still
    intact in memory, and the words from the first non-option on are returned.  The random
    number generator is always seeded with the time: the option [-rs] has no effect, although the
    comment in [parse_options] says that it takes precedence. *)
Theorem command_line_obeyed (m : mem) (r : rc4) (ws : list (list Z)) (equals empty now : Z) :
  word_at m (PHYS_BASE + LOADER_ARG_CNT) (Z.of_nat (length ws)) → Forall word_ok ws → words_at m loader_args ws →
  extent ws ≤ LOADER_ARGS_LEN → literals equals empty m loader_args (loader_args + LOADER_ARGS_LEN) →
  let run := (argv ← read_command_line; parse_options equals empty now argv) (Kernel m default_options r) in
  match interpret default_settings ws with
  | Panics => run = Fail AssertFail
  | PowersOff => ∃ k, run = Ret (None, k)
  | Parsed s rest => ∃ m' o' r' q, run = Ret (Some (addresses q rest), Kernel m' o' r') ∧
      words_at m' q rest ∧ settings_at m' q o' s ∧ random_init now r = Ret (tt, r')
  end.
Proof.
  intros Hcnt Hall Hw Hext Hlit. pose proof (words_extent ws Hall) as Hlen. unfold LOADER_ARGS_LEN in Hext.
  assert (wp read_command_line (Kernel m default_options r) (λ ps k, ps = addresses loader_args ws ∧ k = Kernel m default_options r))
    as (argv&k&Hread&->&->)%wp_outcome.
  { unfold read_command_line. wp_step. eapply (wp_run (ptov LOADER_ARG_CNT)); [reflexivity|]. wp_step. apply wp_on_kmem.
    eapply load_word_spec; [exact Hcnt|]. wp_step. eapply (wp_run (ptov LOADER_ARGS) _ loader_args); [reflexivity|]. rewrite s32_small by word_lia.
    apply words_loop_spec; [done|exact Hw|lia|change ARGV_LEN with 65; lia|unfold LOADER_ARGS_LEN; lia|].
    change (Z.to_nat LOADER_ARGS_LEN) with 128%nat. lia. }
  cbv zeta. unfold bind. rewrite Hread.
  apply (parse_options_spec equals empty now ws loader_args m default_options r default_settings loader_args (loader_args + LOADER_ARGS_LEN)); try done.
  - unfold LOADER_ARGS_LEN. lia.
Qed.

(** A command line with options, one of them a device name, and two actions. *)
Definition sample_line : list (list Z) :=
  [chars "-q"; chars "-filesys=hdb1"; chars "-rs=7"; chars "run"; chars "echo x"; chars "ls"].
Definition sample_loader : mem :=
  mem_of (PHYS_BASE + LOADER_ARG_CNT) (word_bytes 6 ++ concat ((λ w, w ++ [0]) <$> sample_line)) ∪ (mem_of 4096 [61; 0] ∪ ∅).
Lemma sample_words_there : words_at sample_loader loader_args sample_line.
Proof.
  repeat (split; [split; [vm_compute; repeat split; reflexivity|apply (bool_decide_unpack _); by vm_compute]|]). exact I.
Qed.

Lemma command_line_obeyed_witness :
  ∃ m' o' r' q, (argv ← read_command_line; parse_options 4096 4097 1000 argv) (Kernel sample_loader default_options (mk_rc4 [] 0 0 false)) =
      Ret (Some (addresses q [chars "run"; chars "echo x"; chars "ls"]), Kernel m' o' r') ∧
    how o' = SHUTDOWN_POWER_OFF ∧ str_at m' (filesys_bdev_name o') (chars "hdb1") ∧ random_init 1000 (mk_rc4 [] 0 0 false) = Ret (tt, r').
Proof.
  assert (word_at sample_loader (PHYS_BASE + LOADER_ARG_CNT) 6) as Hcnt by (split; [by compute|vm_compute; repeat split; reflexivity]).
  assert (Forall word_ok sample_line) as Hok.
  { repeat constructor; try discriminate; try (by vm_compute); apply (bool_decide_unpack _); by vm_compute. }
  assert (literals 4096 4097 sample_loader loader_args (loader_args + LOADER_ARGS_LEN)) as Hlit.
  { split; [| |lia|split; left; by compute]; (split; [vm_compute; repeat split; reflexivity|apply (bool_decide_unpack _); by vm_compute]). }
  pose proof (command_line_obeyed sample_loader (mk_rc4 [] 0 0 false) sample_line 4096 4097 1000 Hcnt Hok sample_words_there
    ltac:(vm_compute; discriminate) Hlit) as H.
  cbv zeta in H. destruct H as (m'&o'&r'&q&Hrun&_&Hset&Hr). exists m', o', r', q. split; [exact Hrun|].
  split; [exact (sa_how _ _ _ _ Hset)|]. split; [exact (proj1 (proj2 (sa_filesys _ _ _ _ Hset)))|exact Hr].
Defined.

(** ** Actions in order *)
Section Actions_spec.
Context {W : Type} (perform : action → list (list Z) → M W unit).

Definition action_name (a : action) : list Z :=
  match a with
  | run_task => chars "run" | fsutil_ls => chars "ls" | fsutil_cat => chars "cat" | fsutil_rm => chars "rm"
  | fsutil_extract => chars "extract" | fsutil_append => chars "append"
  end.
Definition arguments (a : action) : nat := match a with fsutil_ls | fsutil_extract => 0 | _ => 1 end.

(** The words of a list of calls. *)
Definition script (calls : list (action * list (list Z))) : list (list Z) := concat ((λ '(a, args), action_name a :: args) <$> calls).
(** Performing the calls one after the other and then [k]; each gets the words from its name on. *)
Fixpoint play (calls : list (action * list (list Z))) (tail : list (list Z)) (k : M W unit) : M W unit :=
  match calls with [] => k | (a, args) :: r => perform a (script ((a, args) :: r) ++ tail);; play r tail k end.

Lemma script_cons a args calls tail : script ((a, args) :: calls) ++ tail = action_name a :: args ++ script calls ++ tail.
Proof. unfold script. rewrite fmap_cons. cbn [concat app]. by rewrite <- app_assoc. Qed.
Lemma find_action_name a s : find_action (W := W) actions (action_name a) s = Ret ((S (arguments a), a), s).
Proof. by destruct a. Qed.
Lemma find_action_unknown name s : (∀ a, name ≠ action_name a) → find_action (W := W) actions name s = Fail AssertFail.
Proof.
  intros Hn. unfold actions. cbn [find_action]. rewrite (bool_decide_false (name = chars "run")) by apply (Hn run_task).
  rewrite (bool_decide_false (name = chars "ls")) by apply (Hn fsutil_ls). rewrite (bool_decide_false (name = chars "cat")) by apply (Hn fsutil_cat).
  rewrite (bool_decide_false (name = chars "rm")) by apply (Hn fsutil_rm). rewrite (bool_decide_false (name = chars "extract")) by apply (Hn fsutil_extract).
  by rewrite (bool_decide_false (name = chars "append")) by apply (Hn fsutil_append).
Qed.

(** The actions of a command line are performed in the order of the words, each
    with its arguments, whatever they are; an unknown action, or one without its
    argument, stops the kernel after the actions before it. *)
Theorem run_actions_in_order (calls : list (action * list (list Z))) (tail : list (list Z)) (fuel : nat) (s : W) :
  Forall (λ '(a, args), length args = arguments a) calls →
  run_actions perform (length calls + fuel) (script calls ++ tail) s = play calls tail (run_actions perform fuel tail) s ∧
  (∀ name rest, tail = name :: rest → (∀ a, name ≠ action_name a) ∨ (∃ a, name = action_name a ∧ length rest < arguments a)%nat →
     (0 < fuel)%nat → run_actions perform fuel tail s = Fail AssertFail).
Proof.
  intros Hall. split.
  - revert s. induction Hall as [|[a args] calls Hargs Hall IH]; intros s; [done|].
    cbn [length Nat.add play]. rewrite script_cons. cbn [run_actions]. unfold bind at 1. rewrite find_action_name.
    unfold bind at 1, ASSERT. rewrite bool_decide_true by (cbn [length]; rewrite length_app; lia). unfold ret at 1, bind.
    destruct (perform a _ s) as [[[] s']|]; [|done]. rewrite <- IH. cbn [drop]. by rewrite <- Hargs, drop_app_length.
  - intros name rest -> Hbad Hf. destruct fuel as [|fuel]; [lia|]. cbn [run_actions]. unfold bind at 1.
    destruct Hbad as [Hno|(a&->&Hlt)]; [by rewrite find_action_unknown|]. rewrite find_action_name. unfold bind at 1, ASSERT.
    by rewrite bool_decide_false by (cbn [length]; lia).
Qed.

End Actions_spec.

(** ** Devices and roles *)
Section Devices.
Context (r : registry).

Record registry_ok : Prop := {
  rg_nodup : NoDup (all_blocks r);
  rg_devices : ∀ b, b ∈ all_blocks r → b ≠ 0 ∧ is_Some (devices r !! b);
  rg_roles : length (block_by_role r) = 4%nat }.

Definition has_type (role : block_type) (b : Z) : bool :=
  match devices r !! b with Some d => bool_decide (block_ty d = role) | None => false end.
Definition has_name (name : string) (b : Z) : bool :=
  match devices r !! b with Some d => String.eqb name (block_nm d) | None => false end.
(** The registry with device [b] in a role. *)
Definition in_role (role : block_type) (b : Z) : registry :=
  mk_registry (devices r) (all_blocks r) (<[Z.to_nat (type_number role) := b]> (block_by_role r)).

Lemma after_block_app b l1 l2 : b ∉ l1 → after_block b (l1 ++ b :: l2) = Some (List.hd 0 l2).
Proof.
  induction l1 as [|a l1 IH]; intros Hb; cbn [app after_block]; [by rewrite bool_decide_true|].
  rewrite bool_decide_false by set_solver. apply IH. set_solver.
Qed.
Lemma first_of_type_find l1 l2 role fuel :
  registry_ok → all_blocks r = l1 ++ l2 → (length l2 < fuel)%nat →
  first_of_type fuel role (List.hd 0 l2) r = Ret (default 0 (List.find (has_type role) l2), r).
Proof.
  intros Hok. revert l1 fuel. induction l2 as [|b l2 IH]; intros l1 fuel Hl Hf; (destruct fuel as [|fuel]; [cbn in Hf; lia|]); [done|].
  destruct (rg_devices Hok b) as [Hb [d Hd]]; [rewrite Hl; set_solver|]. cbn [List.hd first_of_type List.find length] in *.
  assert ((b =? 0) = false) as -> by lia. unfold bind, get_state. cbn. rewrite Hd. cbn. unfold has_type at 1. rewrite Hd. unfold block_type_of.
  case_bool_decide as Ht; [done|]. pose proof (rg_nodup Hok) as Hnd. rewrite Hl in Hnd. apply NoDup_app in Hnd as (_&Hni&_).
  rewrite Hl, after_block_app by (intros Hin; apply (Hni b Hin); by left). cbn [deref].
  apply (IH (l1 ++ [b])); [by rewrite <- app_assoc|lia].
Qed.
Lemma by_name_find l name : (∀ b, b ∈ l → is_Some (devices r !! b)) → by_name_loop l name r = Ret (default 0 (List.find (has_name name) l), r).
Proof.
  induction l as [|b l IH]; intros Hl; cbn [by_name_loop List.find]; [done|]. destruct (Hl b) as [d Hd]; [by left|].
  unfold bind, get_state. cbn. rewrite Hd. cbn. unfold has_name at 1. rewrite Hd. destruct (String.eqb name (block_nm d)); [done|].
  apply IH. intros b' Hb'. apply Hl. by right.
Qed.

(** [locate_block_device]: the device that gets a role is the one with the name that was given, or
    without a name the first in probe order that has the type of the role.  A name
    that no device has stops the kernel; without a device of the type nothing changes. *)
Theorem locate_block_device_spec (role : block_type) (name : option string) :
  registry_ok → type_number role < BLOCK_ROLE_CNT →
  locate_block_device role name r =
    match name with
    | Some n => match List.find (has_name n) (all_blocks r) with Some b => Ret (tt, in_role role b) | None => Fail AssertFail end
    | None => match List.find (has_type role) (all_blocks r) with Some b => Ret (tt, in_role role b) | None => Ret (tt, r) end
    end.
Proof.
  intros Hok Hrole. assert (∀ f b, List.find f (all_blocks r) = Some b → (b =? 0) = false) as Hnz.
  { intros f b [Hin _]%find_some. apply list_elem_of_In in Hin. destruct (rg_devices Hok b Hin). lia. }
  assert (∀ b, (b =? 0) = false → (if negb (b =? 0) then block_set_role role b else ret tt) r = Ret (tt, in_role role b)) as Hset.
  { intros b ->. cbn [negb]. unfold block_set_role, bind, ASSERT. by rewrite bool_decide_true by done. }
  unfold locate_block_device. destruct name as [n|].
  - unfold block_get_by_name, bind at 1 2 3, get_state. rewrite by_name_find by (intros b Hb; by destruct (rg_devices Hok b Hb)).
    destruct (List.find _ _) as [b|] eqn:E; cbn [default from_option id]; [|done]. rewrite (Hnz _ _ E). cbn. rewrite <- (Hset b (Hnz _ _ E)). by rewrite (Hnz _ _ E).
  - assert ((r ← get_state; b ← block_first; first_of_type (S (length (all_blocks r))) role b) r =
      Ret (default 0 (List.find (has_type role) (all_blocks r)), r)) as Hfirst
      by exact (first_of_type_find [] (all_blocks r) role _ Hok eq_refl (Nat.lt_succ_diag_r _)).
    unfold bind at 1. rewrite Hfirst.
    destruct (List.find _ _) as [b|] eqn:E; cbn [default from_option id]; [|done]. rewrite <- (Hset b (Hnz _ _ E)). by rewrite (Hnz _ _ E).
Qed.

End Devices.
