(* ===== verification/Fsutil.v ===== *)
(** * File system utilities (filesys/fsutil.c)

    The actions of the kernel command line on files: copying files into a tar
    archive on the scratch device and back.  The functions of the file system
    are the operations of the class [FileSystemOps]; FsutilRun instantiates them with
    those of Directory and Inode, and runs the actions on them.  The theorems
    here are about any file system that keeps the promises of the class
    [FileSystem] while it has room (the one of Inode does so at most for files
    without indirect sectors, and no proof here says that it does).
    The scratch device is the one of Block, headers are those of Ustar, and
    the buffers that [malloc] returns are addresses in byte memory.  Messages
    on the console are left out. *)

From stdpp Require Import gmap.
From S2P Require Import Prelude Str Stdio Block Ustar.
Local Open Scope Z_scope.

(** ** The file system *)

(** [c] with [d] written at position [p]. *)
Definition overwrite (c : list Z) (p : Z) (d : list Z) : list Z :=
  take (Z.to_nat p) c ++ d ++ drop (Z.to_nat p + length d) c.

(** The functions of filesys.c and file.c that the utilities call. *)
Class FileSystemOps (F : Type) := {
  filesys_create : list Z → Z → M F bool;
  filesys_open : list Z → M F Z;
  filesys_remove : list Z → M F bool;
  file_length : Z → M F Z;
  file_read : Z → Z → M F (list Z);
  file_write : Z → list Z → M F Z;
  file_close : Z → M F unit }.

(** What they promise about the files (name and contents) and the open files
    (name and position); 0 is the null pointer.  [room s ns] holds when there is
    space for new files of the sizes [ns], and a name is legal when a directory
    can hold it. *)
Class FileSystem (F : Type) `{!FileSystemOps F} := {
  files : F → gmap (list Z) (list Z);
  opened : F → gmap Z (list Z * Z);
  room : F → list Z → Prop;
  legal : list Z → Prop;
  create_spec s name size ns : legal name → files s !! name = None → 0 ≤ size → room s (size :: ns) →
    wp (filesys_create name size) s (λ b s', b = true ∧ files s' = <[name := replicate (Z.to_nat size) 0]> (files s) ∧
      opened s' = opened s ∧ room s' ns);
  open_spec s name c ns : files s !! name = Some c → room s ns →
    wp (filesys_open name) s (λ f s', f ≠ 0 ∧ opened s !! f = None ∧ files s' = files s ∧
      opened s' = <[f := (name, 0)]> (opened s) ∧ room s' ns);
  remove_spec s name c ns : files s !! name = Some c → room s ns →
    wp (filesys_remove name) s (λ b s', b = true ∧ files s' = delete name (files s) ∧ opened s' = opened s ∧ room s' ns);
  length_spec s f name p c ns : opened s !! f = Some (name, p) → files s !! name = Some c → room s ns →
    wp (file_length f) s (λ n s', n = Z.of_nat (length c) ∧ files s' = files s ∧ opened s' = opened s ∧ room s' ns);
  read_spec s f name p c n ns : opened s !! f = Some (name, p) → files s !! name = Some c → 0 ≤ p → 0 ≤ n →
    p + n ≤ Z.of_nat (length c) → room s ns →
    wp (file_read f n) s (λ d s', d = take (Z.to_nat n) (drop (Z.to_nat p) c) ∧ files s' = files s ∧
      opened s' = <[f := (name, p + Z.of_nat (length d))]> (opened s) ∧ room s' ns);
  write_spec s f name p c d ns : opened s !! f = Some (name, p) → files s !! name = Some c → 0 ≤ p →
    p + Z.of_nat (length d) ≤ Z.of_nat (length c) → room s ns →
    wp (file_write f d) s (λ n s', n = Z.of_nat (length d) ∧ files s' = <[name := overwrite c p d]> (files s) ∧
      opened s' = <[f := (name, p + Z.of_nat (length d))]> (opened s) ∧ room s' ns);
  close_spec s f x ns : opened s !! f = Some x → room s ns →
    wp (file_close f) s (λ _ s', files s' = files s ∧ opened s' = delete f (opened s) ∧ room s' ns) }.

(** ** State *)

Section utilities.
Context {F : Type} `{!FileSystemOps F}.

(** [extract_sector] and [append_sector] are the static variables [sector] of
    the two functions. *)
Record world := World { fsys : F; scratch : block; memory : mem; extract_sector : Z; append_sector : Z }.

Definition on_fs {A} (c : M F A) : M world A :=
  λ w, match c (fsys w) with
       | Ret (a, f) => Ret (a, World f (scratch w) (memory w) (extract_sector w) (append_sector w))
       | Fail e => Fail e
       end.
Definition on_dev {A} (c : M block A) : M world A :=
  λ w, match c (scratch w) with
       | Ret (a, b) => Ret (a, World (fsys w) b (memory w) (extract_sector w) (append_sector w))
       | Fail e => Fail e
       end.
Definition on_mem {A} (c : M mem A) : M world A :=
  λ w, match c (memory w) with
       | Ret (a, m) => Ret (a, World (fsys w) (scratch w) m (extract_sector w) (append_sector w))
       | Fail e => Fail e
       end.
Definition set_extract_sector (s : Z) : M world unit := modify (λ w, World (fsys w) (scratch w) (memory w) s (append_sector w)).
Definition set_append_sector (s : Z) : M world unit := modify (λ w, World (fsys w) (scratch w) (memory w) (extract_sector w) s).

(** [block_write (dst, sector, buffer)] with the 512 bytes at [buffer] *)
Fixpoint load_bytes (n : nat) (p : Z) : M mem (list Z) :=
  match n with O => ret [] | S n => b ← load p; r ← load_bytes n (p + 1); ret (b :: r) end.
Definition write_sector (sector buffer : Z) : M world unit := d ← on_mem (load_bytes 512 buffer); on_dev (block_write sector d).
(** [block_read (src, sector, buffer)] *)
Definition read_sector (sector buffer : Z) : M world unit := d ← on_dev (block_read sector); on_mem (store_list buffer d).

(** ** fsutil_append *)

(** [block_write (dst, sector++, buffer)] *)
Definition append_next (buffer : Z) : M world unit :=
  s ← gets append_sector; set_append_sector (u32 (s + 1));; write_sector s buffer.

Fixpoint append_loop (fuel : nat) (src size buffer : Z) : M world unit :=
  match fuel with
  | O => fail OutOfFuel
  | S fuel =>
      if 0 <? size then
        let chunk_size := if BLOCK_SECTOR_SIZE <? size then BLOCK_SECTOR_SIZE else size in
        s ← gets append_sector; d ← gets scratch;
        ASSERT (negb (block_size d <=? s));;
        data ← on_fs (file_read src chunk_size);
        on_mem (store_list buffer data);;
        ASSERT (Z.of_nat (length data) =? chunk_size);;
        _ ← on_mem (memset (buffer + chunk_size) 0 (BLOCK_SECTOR_SIZE - chunk_size));
        append_next buffer;;
        append_loop fuel src (size - chunk_size) buffer
      else ret tt
  end.

(** [buffer] is what [malloc] returns. *)
Definition fsutil_append (file_name : list Z) (buffer : Z) : M world unit :=
  ASSERT (negb (buffer =? 0));;
  src ← on_fs (filesys_open file_name);
  ASSERT (negb (src =? 0));;
  size ← on_fs (file_length src);
  ok ← on_mem (ustar_make_header file_name USTAR_REGULAR size buffer);
  ASSERT ok;;
  append_next buffer;;
  append_loop (S (Z.to_nat size)) src size buffer;;
  _ ← on_mem (memset buffer 0 BLOCK_SECTOR_SIZE);
  s ← gets append_sector;
  write_sector s buffer;;
  write_sector s (buffer + 1);;
  on_fs (file_close src).

(** ** fsutil_extract *)

(** [block_read (src, sector++, buffer)] *)
Definition extract_next (buffer : Z) : M world unit :=
  s ← gets extract_sector; set_extract_sector (u32 (s + 1));; read_sector s buffer.

Fixpoint copy_loop (fuel : nat) (dst size data : Z) : M world unit :=
  match fuel with
  | O => fail OutOfFuel
  | S fuel =>
      if 0 <? size then
        let chunk_size := if BLOCK_SECTOR_SIZE <? size then BLOCK_SECTOR_SIZE else size in
        extract_next data;;
        d ← on_mem (load_bytes (Z.to_nat chunk_size) data);
        n ← on_fs (file_write dst d);
        ASSERT (n =? chunk_size);;
        copy_loop fuel dst (size - chunk_size) data
      else ret tt
  end.

Definition extract_file (name : list Z) (size data : Z) : M world unit :=
  ok ← on_fs (filesys_create name size);
  ASSERT ok;;
  dst ← on_fs (filesys_open name);
  ASSERT (negb (dst =? 0));;
  copy_loop (S (Z.to_nat size)) dst size data;;
  on_fs (file_close dst).

(** One iteration of the loop over the entries; the result is false at the end
    of the archive. *)
Definition extract_step (header data : Z) : M world bool :=
  extract_next header;;
  r ← on_mem (ustar_parse_header header);
  match r with
  | inl _ => fail AssertFail
  | inr (None, _, _) => ret false
  | inr (Some name, type, size) => (if type =? USTAR_REGULAR then extract_file name size data else ret tt);; ret true
  end.
Fixpoint extract_loop (fuel : nat) (header data : Z) : M world unit :=
  match fuel with
  | O => fail OutOfFuel
  | S fuel => more ← extract_step header data; if more : bool then extract_loop fuel header data else ret tt
  end.

Definition fsutil_extract (header data : Z) : M world unit :=
  ASSERT (negb ((header =? 0) || (data =? 0)));;
  w ← get_state;
  extract_loop (S (Z.to_nat (block_size (scratch w)))) header data;;
  _ ← on_mem (memset header 0 BLOCK_SECTOR_SIZE);
  write_sector 0 header;;
  write_sector 1 header.

Definition fsutil_rm (file_name : list Z) : M world unit := ok ← on_fs (filesys_remove file_name); ASSERT ok.

(** The "append" actions of a command line, with the buffer of each call. *)
Fixpoint append_all (l : list (list Z * Z)) : M world unit :=
  match l with [] => ret tt | (file_name, buffer) :: l => fsutil_append file_name buffer;; append_all l end.

Context `{!FileSystem F}.

(** ** Sectors *)

(** The sectors from [s] on hold [ls]. *)
Fixpoint sectors_at (d : block) (s : Z) (ls : list (list Z)) : Prop :=
  match ls with [] => True | l :: r => contents d !! s = Some l ∧ sectors_at d (s + 1) r end.

(** [d'] is [d] with [ls] written from sector [s] on. *)
Record recorded (d : block) (s : Z) (ls : list (list Z)) (d' : block) : Prop := {
  rec_at : sectors_at d' s ls;
  rec_frame : ∀ a, a < s ∨ s + Z.of_nat (length ls) ≤ a → contents d' !! a = contents d !! a;
  rec_size : block_sz d' = block_sz d;
  rec_type : block_ty d' = block_ty d }.

(** The contents of a file in whole sectors, the last one filled with zeros. *)
Fixpoint sectors_from (fuel : nat) (c : list Z) : list (list Z) :=
  match fuel, c with
  | S fuel, _ :: _ => (take 512 c ++ zeros (512 - length (take 512 c))) :: sectors_from fuel (drop 512 c)
  | _, _ => []
  end.
Definition file_sectors (c : list Z) : list (list Z) := sectors_from (length c) c.

(** The 512 bytes at [b] may have changed, nothing else has. *)
Definition scribbled (b : Z) (m m' : mem) : Prop :=
  mapped m' b 512 ∧ ∀ x, x < b ∨ b + 512 ≤ x → m' !! x = m !! x.

Lemma sectors_at_app d s l1 l2 : sectors_at d s (l1 ++ l2) ↔ sectors_at d s l1 ∧ sectors_at d (s + Z.of_nat (length l1)) l2.
Proof.
  revert s. induction l1 as [|l l1 IH]; intros s; cbn [app sectors_at length]; [change (Z.of_nat 0) with 0; rewrite Z.add_0_r; tauto|].
  rewrite IH. replace (s + 1 + Z.of_nat (length l1)) with (s + Z.of_nat (S (length l1))) by lia. tauto.
Qed.
Lemma sectors_at_frame d d' s ls :
  (∀ a, s ≤ a < s + Z.of_nat (length ls) → contents d' !! a = contents d !! a) → sectors_at d s ls → sectors_at d' s ls.
Proof.
  revert s. induction ls as [|l ls IH]; intros s Hf; cbn [sectors_at length] in *; [done|]. intros [Hl Hr].
  split; [by rewrite Hf by lia|]. apply IH; [|done]. intros a Ha. apply Hf. lia.
Qed.
Lemma recorded_nil d s : recorded d s [] d.
Proof. by split. Qed.
(** What is recorded at the end may be overwritten. *)
Lemma recorded_over d d1 d2 s l1 x l2 :
  recorded d s (l1 ++ x) d1 → recorded d1 (s + Z.of_nat (length l1)) l2 d2 → (length x ≤ length l2)%nat → recorded d s (l1 ++ l2) d2.
Proof.
  intros [Ha Hf Hs Ht] [Ha2 Hf2 Hs2 Ht2] Hx. rewrite length_app in Hf. apply sectors_at_app in Ha as [Ha _]. split; [| |congruence|congruence].
  - apply sectors_at_app. split; [|done]. eapply sectors_at_frame; [|exact Ha]. intros a Hin. apply Hf2. lia.
  - intros a Hout. rewrite length_app in Hout. rewrite Hf2 by lia. apply Hf. lia.
Qed.
Lemma recorded_app d d1 d2 s l1 l2 :
  recorded d s l1 d1 → recorded d1 (s + Z.of_nat (length l1)) l2 d2 → recorded d s (l1 ++ l2) d2.
Proof. intros H1 H2. eapply (recorded_over d d1 d2 s l1 []); [by rewrite app_nil_r|done|cbn; lia]. Qed.

Lemma sectors_from_fuel k1 k2 c : (length c ≤ k1)%nat → (length c ≤ k2)%nat → sectors_from k1 c = sectors_from k2 c.
Proof.
  revert k2 c. induction k1 as [|k1 IH]; intros k2 [|x c] H1 H2; [by destruct k2|cbn [length] in H1; lia|by destruct k2|].
  cbn [length] in H1, H2. destruct k2 as [|k2]; [lia|]. cbn [sectors_from]. f_equal. apply IH; rewrite length_drop; cbn [length]; lia.
Qed.
Lemma file_sectors_step c :
  c ≠ [] → file_sectors c = (take 512 c ++ zeros (512 - length (take 512 c))) :: file_sectors (drop 512 c).
Proof.
  intros Hc. destruct c as [|x c]; [done|]. unfold file_sectors. cbn [length sectors_from]. f_equal.
  apply sectors_from_fuel; rewrite length_drop; cbn [length]; lia.
Qed.
Lemma file_sectors_length c : Forall (λ l, length l = 512%nat) (file_sectors c).
Proof.
  unfold file_sectors. generalize (length c) at 1. intros k. revert c.
  induction k as [|k IH]; intros [|x c]; cbn [sectors_from]; constructor; [|apply IH].
  unfold zeros. rewrite length_app, length_replicate, length_take. lia.
Qed.

Lemma scribbled_refl b m : mapped m b 512 → scribbled b m m.
Proof. by split. Qed.
Lemma scribbled_trans b m m1 m2 : scribbled b m m1 → scribbled b m1 m2 → scribbled b m m2.
Proof. intros [_ H1] [Hm H2]. split; [done|]. intros x Hx. by rewrite H2, H1. Qed.
Lemma writes_scribbled b m p l m' :
  mapped m b 512 → writes m p l m' → b ≤ p → p + Z.of_nat (length l) ≤ b + 512 → scribbled b m m'.
Proof.
  intros Hm Hw H1 H2. split; [by eapply writes_mapped|]. intros x Hx. destruct Hw as (_&Hf&_). apply Hf. lia.
Qed.

(** ** Single steps *)

Lemma wp_on_fs {A} (c : M F A) f d m e a Q :
  wp c f (λ x f', Q x (World f' d m e a)) → wp (on_fs c) (World f d m e a) Q.
Proof. unfold wp, on_fs. cbn [fsys]. by destruct (c f) as [[x f']|]. Qed.
Lemma wp_on_dev {A} (c : M block A) f d m e a Q :
  wp c d (λ x d', Q x (World f d' m e a)) → wp (on_dev c) (World f d m e a) Q.
Proof. unfold wp, on_dev. cbn [scratch]. by destruct (c d) as [[x d']|]. Qed.
Lemma wp_in_memory {A} (c : M mem A) f d m e a Q :
  wp c m (λ x m', Q x (World f d m' e a)) → wp (on_mem c) (World f d m e a) Q.
Proof. unfold wp, on_mem. cbn [memory]. by destruct (c m) as [[x m']|]. Qed.

Lemma load_bytes_spec m p l : bytes_at m p l → wp (load_bytes (length l) p) m (λ r m', r = l ∧ m' = m).
Proof.
  revert p. induction l as [|x l IH]; intros p Hb; cbn [load_bytes length]; [by wp_step|]. destruct Hb as [Hx Hb].
  wp_step. eapply wp_load_byte; [exact Hx|]. wp_step. eapply wp_mono; [by apply IH|]. intros r m' [-> ->]. by wp_step.
Qed.

Lemma write_sector_spec f d m e a s b l (Q : unit → world → Prop) :
  bytes_at m b l → length l = 512%nat → s < block_sz d → block_ty d ≠ BLOCK_FOREIGN →
  (∀ d', recorded d s [l] d' → Q tt (World f d' m e a)) → wp (write_sector s b) (World f d m e a) Q.
Proof.
  intros Hb Hl Hs Ht HQ. unfold write_sector. wp_step. apply wp_in_memory. rewrite <- Hl.
  eapply wp_mono; [by apply load_bytes_spec|]. intros r m' [-> ->]. apply wp_on_dev.
  eapply wp_mono; [by apply block_write_spec|]. intros [] d' (Hsz&Hty&Hc). apply HQ. split; [|..|done|done].
  - cbn. by rewrite Hc, lookup_insert_eq.
  - cbn [length]. intros x Hx. rewrite Hc. apply lookup_insert_ne. lia.
Qed.

Lemma append_next_spec f d m e a b l (Q : unit → world → Prop) :
  bytes_at m b l → length l = 512%nat → 0 ≤ a < block_sz d → block_sz d < 2 ^ 32 → block_ty d ≠ BLOCK_FOREIGN →
  (∀ d', recorded d a [l] d' → Q tt (World f d' m e (a + 1))) → wp (append_next b) (World f d m e a) Q.
Proof.
  intros Hb Hl Ha Hsz Ht HQ. unfold append_next. wp_step. apply wp_gets. cbn [append_sector]. wp_step.
  unfold set_append_sector. apply wp_modify. cbn [fsys scratch memory extract_sector]. rewrite u32_small by word_lia.
  eapply write_sector_spec; [exact Hb|done|lia|done|done].
Qed.

(** ** Appending *)

(** A chunk of the file in the buffer, filled with zeros. *)
Lemma chunk_in_buffer m m1 m2 b l n :
  writes m b l m1 → writes m1 (b + n) (zeros (Z.to_nat (512 - n))) m2 → n = Z.of_nat (length l) → n ≤ 512 →
  bytes_at m2 b (l ++ zeros (512 - length l)).
Proof.
  intros H1 H2 -> Hn. apply bytes_at_app. split; [|replace (512 - length l)%nat with (Z.to_nat (512 - Z.of_nat (length l))) by lia; exact (writes_bytes _ _ _ _ H2)].
  eapply writes_frame; [exact H2|exact (writes_bytes _ _ _ _ H1)|lia].
Qed.

(** The chunk that is read when [size] bytes from [p] on are left. *)
Lemma chunk_facts (c : list Z) p size :
  0 ≤ p → size = Z.of_nat (length c) - p → 0 < size →
  let l := drop (Z.to_nat p) c in
  let chunk_size := if BLOCK_SECTOR_SIZE <? size then BLOCK_SECTOR_SIZE else size in
  l ≠ [] ∧ chunk_size = Z.of_nat (length (take 512 l)) ∧ 0 < chunk_size ≤ Z.min 512 size ∧
  take (Z.to_nat chunk_size) l = take 512 l ∧ drop (Z.to_nat (p + chunk_size)) c = drop 512 l.
Proof.
  intros Hp Hsz Hpos l chunk. assert (length l = Z.to_nat size) as Hlen by (unfold l; rewrite length_drop; lia).
  split; [by intros ->; cbn in Hlen; lia|]. rewrite length_take. unfold chunk, BLOCK_SECTOR_SIZE. destruct (512 <? size) eqn:E.
  - split; [lia|]. split; [lia|]. split; [done|]. unfold l. rewrite drop_drop. f_equal. lia.
  - split; [lia|]. split; [lia|]. split; [by rewrite !take_ge by lia|]. rewrite !drop_ge by lia. done.
Qed.

Lemma append_loop_spec fuel f d m e a h name p c size b ns :
  opened f !! h = Some (name, p) → files f !! name = Some c → 0 ≤ p → size = Z.of_nat (length c) - p → 0 ≤ size →
  (Z.to_nat size < fuel)%nat → 0 < b → mapped m b 512 → room f ns →
  0 ≤ a → a + Z.of_nat (length (file_sectors (drop (Z.to_nat p) c))) < block_sz d → block_sz d < 2 ^ 32 →
  block_ty d ≠ BLOCK_FOREIGN →
  wp (append_loop fuel h size b) (World f d m e a) (λ _ w, ∃ f' d' m',
    w = World f' d' m' e (a + Z.of_nat (length (file_sectors (drop (Z.to_nat p) c)))) ∧
    recorded d a (file_sectors (drop (Z.to_nat p) c)) d' ∧ scribbled b m m' ∧ files f' = files f ∧
    delete h (opened f') = delete h (opened f) ∧ is_Some (opened f' !! h) ∧ room f' ns).
Proof.
  revert f d m a p size. induction fuel as [|fuel IH]; intros f d m a p size Ho Hc Hp Hsz Hpos Hf Hb Hm Hr Ha Hroom H32 Ht; [lia|].
  cbn [append_loop]. destruct (0 <? size) eqn:E.
  2: { assert (drop (Z.to_nat p) c = []) as Hnil by (apply drop_ge; lia). rewrite Hnil. wp_step. exists f, d, m.
       change (file_sectors []) with (@nil (list Z)). cbn [length]. rewrite Z.add_0_r.
       split; [done|]. split; [apply recorded_nil|]. split; [by apply scribbled_refl|]. by rewrite Ho. }
  destruct (chunk_facts c p size Hp Hsz ltac:(lia)) as (Hl&Hck&Hck2&Htk&Hdrop).
  set (chunk := if BLOCK_SECTOR_SIZE <? size then BLOCK_SECTOR_SIZE else size) in *. set (l := drop (Z.to_nat p) c) in *.
  rewrite (file_sectors_step l Hl) in Hroom |- *. cbn [length] in Hroom |- *.
  wp_step. apply wp_gets. cbn [append_sector]. wp_step. apply wp_gets. cbn [scratch]. wp_step.
  apply wp_ASSERT; [unfold block_size; lia|]. wp_step. apply wp_on_fs.
  eapply wp_mono; [eapply (read_spec f h name p c chunk ns); [done|done|done|lia|lia|done]|].
  intros data f1 (->&Hf1&Ho1&Hr1). fold l in Ho1 |- *. rewrite Htk in Ho1 |- *. wp_step. apply wp_in_memory.
  eapply wp_mono; [apply store_list_spec; eapply mapped_sub; [exact Hm|lia|lia]|]. intros [] m1 Hw1.
  wp_step. apply wp_ASSERT; [lia|]. wp_step. apply wp_in_memory.
  pose proof (writes_scribbled b m b _ m1 Hm Hw1 ltac:(lia) ltac:(lia)) as [Hm1 Hs1].
  eapply wp_mono; [apply memset_spec; [unfold Str.NULL; lia|unfold BLOCK_SECTOR_SIZE; lia|eapply mapped_sub; [exact Hm1|lia|unfold BLOCK_SECTOR_SIZE; lia]]|].
  intros ret2 m2 Hw2. change (u8 0) with 0 in Hw2.
  wp_step. eapply append_next_spec; [eapply chunk_in_buffer; [exact Hw1|exact Hw2|exact Hck|lia]| |lia|done|done|].
  { unfold zeros. rewrite length_app, length_replicate. lia. }
  intros d1 Hd1. assert (scribbled b m m2) as Hs2.
  { eapply scribbled_trans; [by split|]. eapply (writes_scribbled b m1); [done|exact Hw2|lia|rewrite length_replicate; unfold BLOCK_SECTOR_SIZE; lia]. }
  pose proof (rec_size _ _ _ _ Hd1) as Hsz1. pose proof (rec_type _ _ _ _ Hd1) as Hty1.
  eapply wp_mono; [apply (IH f1 d1 m2 (a + 1) (p + chunk) (size - chunk));
    [rewrite Ho1, <- Hck; apply lookup_insert_eq|by rewrite Hf1|lia|lia|lia|lia|done|apply Hs2|done|lia|rewrite Hdrop; lia|lia|congruence]|].
  intros [] w (f'&d'&m'&->&Hd'&Hs'&Hf'&Ho'&Hh'&Hr'). rewrite Hdrop in Hd' |- *. exists f', d', m'. split; [f_equal; lia|].
    split; [exact (recorded_app d d1 d' a [_] _ Hd1 Hd')|]. split; [by eapply scribbled_trans|]. split; [congruence|].
    split; [|done]. rewrite Ho', Ho1. apply delete_insert_eq.
Qed.

(** A file to archive: its name in the file system, the name in the archive, the
    buffer that is used and the contents. *)
Record entry := Entry { path : list Z; name : list Z; buffer : Z; data : list Z }.

Record archivable (f : F) (en : entry) : Prop := {
  en_file : files f !! path en = Some (data en);
  en_path : Forall is_u8 (path en) ∧ 0 ∉ path en;
  en_name : strip_antisocial_prefixes (path en) = Some (name en);
  en_short : (length (name en) ≤ 99)%nat;
  en_size : Z.of_nat (length (data en)) < 2 ^ 31 }.

Definition header_sector (name : list Z) (size : Z) : list Z :=
  concat (header_fields name USTAR_REGULAR size (octal 7 (header_chksum name USTAR_REGULAR size) ++ [0])).
Definition entry_sectors (en : entry) : list (list Z) :=
  header_sector (name en) (Z.of_nat (length (data en))) :: file_sectors (data en).

Lemma entry_name f en : archivable f en → Forall is_u8 (name en) ∧ 0 ∉ name en ∧ sociable (name en).
Proof.
  intros [_ [Hu H0] Hs _ _]. destruct (strip_spec (path en)) as (r&Hr&Hso&Hz&Hb). rewrite Hs in Hr. injection Hr as <-. auto.
Qed.
Lemma entry_header f en :
  archivable f en → let l := header_sector (name en) (Z.of_nat (length (data en))) in
  header_of l (name en) USTAR_REGULAR (Z.of_nat (length (data en))) ∧ length l = 512%nat ∧ Forall is_u8 l.
Proof.
  intros He l. destruct (entry_name f en He) as (Hu&H0&Hso). destruct He as [_ _ _ Hn Hsz].
  exact (composed_header (name en) USTAR_REGULAR (Z.of_nat (length (data en))) (or_introl eq_refl) Hn Hu H0 Hso ltac:(lia)).
Qed.

(** The header in the buffer. *)
Lemma make_header_in_buffer f en m b :
  archivable f en → 0 < b → mapped m b 512 →
  wp (ustar_make_header (path en) USTAR_REGULAR (Z.of_nat (length (data en))) b) m (λ ok m', ok = true ∧
    bytes_at m' b (header_sector (name en) (Z.of_nat (length (data en)))) ∧ scribbled b m m').
Proof.
  intros He Hb Hm. destruct (entry_name f en He) as (Hu&_&_). destruct (entry_header f en He) as (_&Hl&_). destruct He as [_ _ Hs Hn Hsz].
  eapply wp_mono; [eapply ustar_make_header_spec; [by left|exact Hs|exact Hu|lia|unfold Str.NULL; lia|exact Hm]|].
  intros ok m' Hok. rewrite bool_decide_false in Hok by lia. destruct Hok as [-> [Hbytes _ Hfr]]. split; [done|]. split; [exact Hbytes|].
  split; [|exact Hfr]. apply bytes_at_mapped in Hbytes. fold (header_sector (name en) (Z.of_nat (length (data en)))) in Hbytes.
  by rewrite Hl in Hbytes.
Qed.

(** The two writes of the marker: the second one is one byte further on. *)
Lemma write_marker f d m e a s b x (Q : unit → world → Prop) :
  bytes_at m b (zeros 512) → m !! (b + 512) = Some x → s < block_sz d → block_ty d ≠ BLOCK_FOREIGN →
  (∀ d', recorded d s [zeros 511 ++ [x]] d' → Q tt (World f d' m e a)) →
  wp (write_sector s b;; write_sector s (b + 1)) (World f d m e a) Q.
Proof.
  intros Hb Hx Hs Ht HQ. wp_step. eapply write_sector_spec; [exact Hb|done|done|done|]. intros d1 Hd1.
  assert (bytes_at m (b + 1) (zeros 511 ++ [x])) as Hb1.
  { change (zeros 512) with ([0] ++ zeros 511) in Hb. apply bytes_at_app in Hb as [_ Hb]. apply bytes_at_app. split; [exact Hb|].
    split; [|done]. by replace (b + 1 + Z.of_nat (length (zeros 511))) with (b + 512) by (change (length (zeros 511)) with 511%nat; lia). }
  destruct Hd1 as [? ? Hsz1 Hty1]. eapply write_sector_spec; [exact Hb1|done|lia|congruence|]. intros d2 Hd2. apply HQ.
  apply (recorded_over d d1 d2 s [] [zeros 512] [zeros 511 ++ [x]]); [by split|by rewrite Z.add_0_r|done].
Qed.

Lemma fsutil_append_spec f d m e a en x ns :
  archivable f en → room f ns → 0 < buffer en → mapped m (buffer en) 512 → m !! (buffer en + 512) = Some x →
  0 ≤ a → a + Z.of_nat (length (entry_sectors en)) < block_sz d → block_sz d < 2 ^ 32 → block_ty d ≠ BLOCK_FOREIGN →
  wp (fsutil_append (path en) (buffer en)) (World f d m e a) (λ _ w, ∃ f' d' m',
    w = World f' d' m' e (a + Z.of_nat (length (entry_sectors en))) ∧
    recorded d a (entry_sectors en ++ [zeros 511 ++ [x]]) d' ∧ scribbled (buffer en) m m' ∧
    files f' = files f ∧ opened f' = opened f ∧ room f' ns).
Proof.
  intros He Hr Hb Hm Hx Ha Hroom H32 Ht. cbn [entry_sectors length] in Hroom |- *. set (b := buffer en) in *. unfold fsutil_append.
  wp_step. apply wp_ASSERT; [lia|]. wp_step. apply wp_on_fs.
  eapply wp_mono; [eapply open_spec; [exact (en_file _ _ He)|exact Hr]|]. intros h f1 (Hh&Hfresh&Hf1&Ho1&Hr1).
  wp_step. apply wp_ASSERT; [lia|]. wp_step. apply wp_on_fs.
  eapply wp_mono; [eapply length_spec; [rewrite Ho1; apply lookup_insert_eq|rewrite Hf1; exact (en_file _ _ He)|exact Hr1]|].
  intros n f2 (->&Hf2&Ho2&Hr2). wp_step. apply wp_in_memory.
  eapply wp_mono; [by eapply make_header_in_buffer|]. intros ok m1 (->&Hm1&Hs1). wp_step. apply wp_ASSERT; [done|].
  destruct (entry_header f en He) as (_&Hlen&_).
  wp_step. eapply append_next_spec; [exact Hm1|exact Hlen|lia|done|done|]. intros d1 Hd1.
  pose proof (rec_size _ _ _ _ Hd1) as Hsz1. pose proof (rec_type _ _ _ _ Hd1) as Hty1.
  wp_step. eapply wp_mono; [eapply (append_loop_spec _ f2 d1 m1 e (a + 1) h (path en) 0 (data en) _ b ns)|].
  { rewrite Ho2, Ho1. apply lookup_insert_eq. }
  { rewrite Hf2, Hf1. exact (en_file _ _ He). }
  1-6: first [done|lia|apply Hs1]. { exact Hr2. } { lia. } { change (drop (Z.to_nat 0) (data en)) with (data en). lia. } { lia. } { congruence. }
  change (drop (Z.to_nat 0) (data en)) with (data en). intros [] w (f3&d2&m2&->&Hd2&Hs2&Hf3&Ho3&Hh3&Hr3).
  wp_step. apply wp_in_memory. eapply wp_mono; [apply (memset_spec m2 b); [unfold Str.NULL; lia|done|apply Hs2]|].
  intros r m3 Hw3. change (replicate _ (u8 0)) with (zeros 512) in Hw3.
  assert (scribbled b m m3) as Hs3.
  { eapply scribbled_trans; [exact Hs1|]. eapply scribbled_trans; [exact Hs2|]. eapply writes_scribbled; [apply Hs2|exact Hw3|lia|].
    change (length (zeros 512)) with 512%nat. lia. }
  pose proof (recorded_app d d1 d2 a [_] _ Hd1 Hd2) as Hd12. cbn [app] in Hd12.
  pose proof (rec_size _ _ _ _ Hd12) as Hsz2. pose proof (rec_type _ _ _ _ Hd12) as Hty2.
  wp_step. apply wp_gets. cbn [append_sector]. apply wp_seq_assoc. wp_step.
  eapply write_marker; [exact (writes_bytes _ _ _ _ Hw3)|rewrite (proj2 Hs3) by lia; exact Hx|lia|congruence|].
  intros d3 Hd3. apply wp_on_fs. destruct Hh3 as [y Hy].
  eapply wp_mono; [eapply close_spec; [exact Hy|exact Hr3]|]. intros [] f4 (Hf4&Ho4&Hr4). exists f4, d3, m3.
  split; [f_equal; lia|]. split.
  { apply (recorded_app d d2 d3 a (entry_sectors en)); [exact Hd12|]. cbn [entry_sectors length].
    by replace (a + Z.of_nat (S (length (file_sectors (data en))))) with (a + 1 + Z.of_nat (length (file_sectors (data en)))) by lia. }
  split; [exact Hs3|]. split; [congruence|]. split; [|done]. rewrite Ho4, Ho3, Ho2, Ho1. by apply delete_insert_id.
Qed.

(** ** Extracting *)

(** Reading changes only the statistics of the device. *)
Record same_medium (d d' : block) : Prop := {
  med_contents : contents d' = contents d; med_size : block_sz d' = block_sz d; med_type : block_ty d' = block_ty d }.

Lemma same_medium_refl d : same_medium d d.
Proof. by split. Qed.
Lemma same_medium_trans d d1 d2 : same_medium d d1 → same_medium d1 d2 → same_medium d d2.
Proof. intros [] []. split; congruence. Qed.
Lemma sectors_at_same d d' s ls : same_medium d d' → sectors_at d s ls → sectors_at d' s ls.
Proof. intros [Hc _ _]. apply sectors_at_frame. intros. by rewrite Hc. Qed.

Lemma extract_next_spec f d m e a b l (Q : unit → world → Prop) :
  contents d !! e = Some l → length l = 512%nat → mapped m b 512 → 0 ≤ e < block_sz d → block_sz d < 2 ^ 32 →
  (∀ d' m', same_medium d d' → writes m b l m' → scribbled b m m' → Q tt (World f d' m' (e + 1) a)) →
  wp (extract_next b) (World f d m e a) Q.
Proof.
  intros Hc Hl Hm He H32 HQ. unfold extract_next, read_sector. wp_step. apply wp_gets. cbn [extract_sector]. wp_step.
  unfold set_extract_sector. apply wp_modify. cbn [fsys scratch memory append_sector]. rewrite u32_small by word_lia.
  wp_step. apply wp_on_dev. eapply wp_mono; [apply block_read_spec; lia|]. intros r d' (->&Hsz&Hty&Hct).
  unfold sector_at. rewrite Hc. change (default sector_zero (Some l)) with l. apply wp_in_memory.
  eapply wp_mono; [apply store_list_spec; by rewrite Hl|]. intros [] m' Hw. apply HQ; [by split|done|].
  eapply writes_scribbled; [done|exact Hw|lia|rewrite Hl; lia].
Qed.

(** A file whose first [p] bytes are copied. *)
Definition copied (c : list Z) (p : Z) : list Z := take (Z.to_nat p) c ++ zeros (length c - Z.to_nat p).

Lemma length_copied c p : length (copied c p) = length c.
Proof. unfold copied, zeros. rewrite length_app, length_replicate, length_take. lia. Qed.
Lemma copied_overwrite c p l n :
  0 ≤ p → l = take n (drop (Z.to_nat p) c) → overwrite (copied c p) p l = copied c (p + Z.of_nat (length l)).
Proof.
  intros Hp ->. destruct (decide (Z.to_nat p ≤ length c)%nat).
  2: { rewrite (drop_ge c) by lia. rewrite take_nil. unfold overwrite. cbn [length app]. by rewrite Nat.add_0_r, take_drop, Z.add_0_r. }
  unfold overwrite, copied, zeros. set (k := length (take n (drop (Z.to_nat p) c))).
  assert (k ≤ length c - Z.to_nat p)%nat by (unfold k; rewrite length_take, length_drop; lia).
  rewrite (take_app_le _ _ (Z.to_nat p)) by (rewrite length_take; lia). rewrite take_take, Nat.min_id.
  rewrite drop_app_ge by (rewrite length_take; lia). rewrite length_take, drop_replicate.
  replace (Z.to_nat (p + Z.of_nat k)) with (Z.to_nat p + k)%nat by lia. rewrite <- take_take_drop, <- app_assoc.
  replace (take k (drop (Z.to_nat p) c)) with (take n (drop (Z.to_nat p) c)).
  2: { unfold k. rewrite length_take. destruct (decide (n ≤ length (drop (Z.to_nat p) c))%nat); [by rewrite Nat.min_l by lia|].
       rewrite Nat.min_r by lia. by rewrite !take_ge by lia. }
  do 3 f_equal. lia.
Qed.

Lemma copy_loop_spec fuel f d m e a h name p c size b ns :
  opened f !! h = Some (name, p) → files f !! name = Some (copied c p) → 0 ≤ p → size = Z.of_nat (length c) - p → 0 ≤ size →
  (Z.to_nat size < fuel)%nat → mapped m b 512 → room f ns → 0 ≤ e →
  sectors_at d e (file_sectors (drop (Z.to_nat p) c)) →
  e + Z.of_nat (length (file_sectors (drop (Z.to_nat p) c))) ≤ block_sz d → block_sz d < 2 ^ 32 →
  wp (copy_loop fuel h size b) (World f d m e a) (λ _ w, ∃ f' d' m',
    w = World f' d' m' (e + Z.of_nat (length (file_sectors (drop (Z.to_nat p) c)))) a ∧
    same_medium d d' ∧ scribbled b m m' ∧ files f' = <[name := c]> (files f) ∧
    delete h (opened f') = delete h (opened f) ∧ is_Some (opened f' !! h) ∧ room f' ns).
Proof.
  revert f d m e p size. induction fuel as [|fuel IH]; intros f d m e p size Ho Hc Hp Hsz Hpos Hf Hm Hr He Hat Hend H32; [lia|].
  cbn [copy_loop]. destruct (0 <? size) eqn:E.
  2: { assert (drop (Z.to_nat p) c = []) as Hnil by (apply drop_ge; lia). rewrite Hnil. wp_step. exists f, d, m.
       change (file_sectors []) with (@nil (list Z)). cbn [length]. rewrite Z.add_0_r.
       split; [done|]. split; [apply same_medium_refl|]. split; [by apply scribbled_refl|]. rewrite Ho.
       split; [|done]. symmetry. apply insert_id. rewrite Hc. unfold copied, zeros. rewrite take_ge by lia.
       replace (length c - Z.to_nat p)%nat with 0%nat by lia. by rewrite app_nil_r. }
  destruct (chunk_facts c p size Hp Hsz ltac:(lia)) as (Hl&Hck&Hck2&Htk&Hdrop).
  set (chunk := if BLOCK_SECTOR_SIZE <? size then BLOCK_SECTOR_SIZE else size) in *. set (l := drop (Z.to_nat p) c) in *.
  rewrite (file_sectors_step l Hl) in Hat, Hend |- *. cbn [length sectors_at] in Hat, Hend |- *. destruct Hat as [Hsec Hat].
  wp_step. eapply extract_next_spec; [exact Hsec| |done|lia|done|].
  { unfold zeros. rewrite length_app, length_replicate. lia. }
  intros d1 m1 Hd1 Hw1 Hs1. apply writes_bytes in Hw1. apply bytes_at_app in Hw1 as [Hb1 _].
  wp_step. apply wp_in_memory. rewrite Hck at 1. rewrite Nat2Z.id. eapply wp_mono; [by apply load_bytes_spec|]. intros r m2 [-> ->].
  wp_step. apply wp_on_fs. eapply wp_mono; [eapply write_spec; [exact Ho|exact Hc|done|rewrite length_copied; lia|exact Hr]|].
  intros n f1 (->&Hf1&Ho1&Hr1). rewrite (copied_overwrite c p _ 512) in Hf1 by done. rewrite <- Hck in Ho1, Hf1.
  wp_step. apply wp_ASSERT; [lia|].
  eapply wp_mono; [apply (IH f1 d1 m1 (e + 1) (p + chunk) (size - chunk)); rewrite ?Hdrop, ?(med_size _ _ Hd1);
    [rewrite Ho1; apply lookup_insert_eq|rewrite Hf1; apply lookup_insert_eq|lia|lia|lia|lia|apply Hs1|done|lia|by eapply sectors_at_same|lia|lia]|].
  intros [] w (f'&d'&m'&->&Hd'&Hs'&Hf'&Ho'&Hh'&Hr'). rewrite Hdrop. exists f', d', m'. split; [f_equal; lia|].
    split; [by eapply same_medium_trans|]. split; [by eapply scribbled_trans|]. split; [by rewrite Hf', Hf1, insert_insert_eq|].
    split; [|done]. rewrite Ho', Ho1. apply delete_insert_eq.
Qed.

Lemma extract_file_spec f d m e a name c b ns :
  legal name → files f !! name = None → mapped m b 512 → room f (Z.of_nat (length c) :: ns) → 0 ≤ e →
  sectors_at d e (file_sectors c) → e + Z.of_nat (length (file_sectors c)) ≤ block_sz d → block_sz d < 2 ^ 32 →
  wp (extract_file name (Z.of_nat (length c)) b) (World f d m e a) (λ _ w, ∃ f' d' m',
    w = World f' d' m' (e + Z.of_nat (length (file_sectors c))) a ∧ same_medium d d' ∧ scribbled b m m' ∧
    files f' = <[name := c]> (files f) ∧ opened f' = opened f ∧ room f' ns).
Proof.
  intros Hleg Hnew Hm Hr He Hat Hend H32. unfold extract_file. wp_step. apply wp_on_fs.
  eapply wp_mono; [eapply create_spec; [done|done|lia|exact Hr]|]. intros ok f1 (->&Hf1&Ho1&Hr1).
  wp_step. apply wp_ASSERT; [done|]. wp_step. apply wp_on_fs.
  eapply wp_mono; [eapply open_spec; [rewrite Hf1; apply lookup_insert_eq|exact Hr1]|]. intros h f2 (Hh&Hfresh&Hf2&Ho2&Hr2).
  wp_step. apply wp_ASSERT; [lia|]. wp_step.
  eapply wp_mono; [apply (copy_loop_spec _ f2 d m e a h name 0 c _ b ns)|].
  { rewrite Ho2. apply lookup_insert_eq. }
  { rewrite Hf2, Hf1, lookup_insert_eq. unfold copied, zeros. change (take (Z.to_nat 0) c) with (@nil Z). cbn [app].
    do 2 f_equal. lia. }
  1-4: lia. { done. } { exact Hr2. } { done. } { exact Hat. } { exact Hend. } { done. }
  intros [] w (f3&d3&m3&->&Hd3&Hs3&Hf3&Ho3&[y Hy]&Hr3). apply wp_on_fs.
  eapply wp_mono; [eapply close_spec; [exact Hy|exact Hr3]|]. intros [] f4 (Hf4&Ho4&Hr4). exists f4, d3, m3.
  change (drop (Z.to_nat 0) c) with c. split; [done|]. split; [done|]. split; [done|]. split; [by rewrite Hf4, Hf3, Hf2, Hf1, insert_insert_eq|].
  split; [|done]. rewrite Ho4, Ho3, Ho2, <- Ho1. by apply delete_insert_id.
Qed.

Lemma scribbled_mapped b m m' q n : scribbled b m m' → mapped m q n → mapped m' q n.
Proof.
  intros [Hm Hf] Hq x Hx. destruct (decide (b ≤ x < b + 512)) as [Hin|Hout]; [by apply Hm|].
  apply elem_of_dom. rewrite Hf by lia. apply elem_of_dom. by apply Hq.
Qed.

Lemma extract_step_spec f0 f d m e a en hd dt ns :
  archivable f0 en → legal (name en) → files f !! name en = None → room f (Z.of_nat (length (data en)) :: ns) →
  mapped m hd 512 → mapped m dt 512 → 0 ≤ e → sectors_at d e (entry_sectors en) →
  e + Z.of_nat (length (entry_sectors en)) ≤ block_sz d → block_sz d < 2 ^ 32 →
  wp (extract_step hd dt) (World f d m e a) (λ more w, more = true ∧ ∃ f' d' m',
    w = World f' d' m' (e + Z.of_nat (length (entry_sectors en))) a ∧ same_medium d d' ∧ mapped m' hd 512 ∧ mapped m' dt 512 ∧
    files f' = <[name en := data en]> (files f) ∧ room f' ns).
Proof.
  intros Hen Hleg Hnew Hr Hhd Hdt He Hat Hend H32. destruct (entry_header f0 en Hen) as (Hof&Hl&Hu).
  cbn [entry_sectors sectors_at length] in Hat, Hend |- *. destruct Hat as [Hsec Hat]. unfold extract_step.
  wp_step. eapply extract_next_spec; [exact Hsec|exact Hl|done|lia|done|]. intros d1 m1 Hd1 Hw1 Hs1.
  wp_step. apply wp_in_memory. eapply wp_mono; [eapply ustar_parse_header_spec; [exact (writes_bytes _ _ _ _ Hw1)|done|done]|].
  intros r m2 [-> Hp]. destruct r as [msg|[[[name'|] type'] size']]; cbn [parsed] in Hp.
  - by destruct (proj2 Hp (name en) USTAR_REGULAR (Z.of_nat (length (data en)))).
  - destruct Hp as (_&Hof'&_). destruct (header_of_unique _ _ _ _ _ _ _ Hof Hof') as (->&->&->). rewrite Z.eqb_refl. wp_step.
    eapply wp_mono; [eapply (extract_file_spec f d1 m1 (e + 1) a (name en) (data en) dt ns)|].
    { done. } { done. } { by eapply scribbled_mapped. } { done. } { lia. } { by eapply sectors_at_same. }
    { rewrite (med_size _ _ Hd1). lia. } { by rewrite (med_size _ _ Hd1). }
    intros [] w (f'&d'&m'&->&Hd'&Hs'&Hf'&_&Hr'). wp_step. split; [done|]. exists f', d', m'. split; [f_equal; lia|].
    split; [by eapply same_medium_trans|]. split; [eapply scribbled_mapped; [exact Hs'|apply Hs1]|]. split; [apply Hs'|done].
  - destruct Hp as [Hzero _]. destruct Hof as (Hmagic&_). rewrite Hzero in Hmagic. by vm_compute in Hmagic.
Qed.

(** The files of an archive. *)
Definition archive_files (ens : list entry) : gmap (list Z) (list Z) := list_to_map ((λ en, (name en, data en)) <$> ens).
Definition archive_sectors (ens : list entry) : list (list Z) := concat (entry_sectors <$> ens).

(** Where an archive can be restored: the names are distinct, new and legal, and there is room. *)
Record restorable (f : F) (ens : list entry) : Prop := {
  res_nodup : NoDup (name <$> ens);
  res_new : ∀ en, en ∈ ens → legal (name en) ∧ files f !! name en = None;
  res_room : room f ((λ en, Z.of_nat (length (data en))) <$> ens) }.

Lemma restorable_step f f' en ens :
  restorable f (en :: ens) → files f' = <[name en := data en]> (files f) →
  room f' ((λ en, Z.of_nat (length (data en))) <$> ens) → restorable f' ens.
Proof.
  intros [Hnd Hnew _] Hf Hr. rewrite fmap_cons in Hnd. apply NoDup_cons in Hnd as [Hni Hnd]. split; [done| |done].
  intros en' Hin. destruct (Hnew en' ltac:(by right)) as [Hl Hn]. split; [done|]. rewrite Hf, lookup_insert_ne; [done|].
  intros Heq. apply Hni. apply list_elem_of_fmap. eauto.
Qed.

Lemma extract_entries f0 ens fuel f d m e a hd dt :
  Forall (archivable f0) ens → restorable f ens → mapped m hd 512 → mapped m dt 512 → 0 ≤ e →
  sectors_at d e (archive_sectors ens) → e + Z.of_nat (length (archive_sectors ens)) ≤ block_sz d → block_sz d < 2 ^ 32 →
  ∃ f' d' m', extract_loop (length ens + fuel) hd dt (World f d m e a) =
      extract_loop fuel hd dt (World f' d' m' (e + Z.of_nat (length (archive_sectors ens))) a) ∧
    same_medium d d' ∧ mapped m' hd 512 ∧ mapped m' dt 512 ∧ files f' = archive_files ens ∪ files f.
Proof.
  intros Hall. revert f d m e. induction Hall as [|en ens Hen Hall IH]; intros f d m e Hres Hhd Hdt He Hat Hend H32.
  { exists f, d, m. cbn. rewrite Z.add_0_r. unfold archive_files. cbn. rewrite (left_id_L ∅ (∪)).
    split; [done|]. split; [apply same_medium_refl|done]. }
  unfold archive_sectors in *. rewrite fmap_cons in *. cbn [concat] in *. rewrite length_app in *.
  apply sectors_at_app in Hat as [Hat1 Hat2]. destruct (res_new _ _ Hres en ltac:(by left)) as [Hleg Hnew].
  pose proof (res_room _ _ Hres) as Hroom. rewrite fmap_cons in Hroom.
  destruct (proj1 (wp_outcome _ _ _) (extract_step_spec f0 f d m e a en hd dt _ Hen Hleg Hnew Hroom Hhd Hdt He Hat1 ltac:(lia) H32))
    as (more&w&Hrun&->&f1&d1&m1&->&Hd1&Hhd1&Hdt1&Hf1&Hr1).
  destruct (IH f1 d1 m1 (e + Z.of_nat (length (entry_sectors en)))) as (f'&d'&m'&Hrun'&Hd'&Hhd'&Hdt'&Hf').
  { by eapply restorable_step. } { done. } { done. } { lia. } { by eapply sectors_at_same. }
  { rewrite (med_size _ _ Hd1). lia. } { by rewrite (med_size _ _ Hd1). }
  exists f', d', m'. cbn [length Nat.add extract_loop]. unfold bind at 1. rewrite Hrun. split; [rewrite Hrun'; do 2 f_equal; lia|].
  split; [by eapply same_medium_trans|]. split; [done|]. split; [done|]. rewrite Hf', Hf1. unfold archive_files. rewrite fmap_cons, list_to_map_cons.
  rewrite <- insert_union_l. symmetry. apply insert_union_r. apply not_elem_of_list_to_map_1. rewrite <- list_fmap_compose.
  pose proof (res_nodup _ _ Hres) as Hnd. rewrite fmap_cons in Hnd. by apply NoDup_cons in Hnd as [? _].
Qed.

(** What follows the entries: 511 zeros and one more byte. *)
Lemma marker_u8 x : is_u8 x → Forall is_u8 (zeros 511 ++ [x]).
Proof. intros Hx. apply Forall_app. split; [apply Forall_replicate; by compute|by constructor]. Qed.
Lemma extract_end f d m e a hd dt x :
  contents d !! e = Some (zeros 511 ++ [x]) → is_u8 x → mapped m hd 512 → 0 ≤ e < block_sz d → block_sz d < 2 ^ 32 →
  if x =? 0 then ∃ d' m', extract_step hd dt (World f d m e a) = Ret (false, World f d' m' (e + 1) a) ∧ same_medium d d' ∧ scribbled hd m m'
  else extract_step hd dt (World f d m e a) = Fail AssertFail.
Proof.
  intros Hsec Hx Hm He H32. assert (wp (extract_next hd) (World f d m e a) (λ _ w, ∃ d' m', w = World f d' m' (e + 1) a ∧
    same_medium d d' ∧ scribbled hd m m' ∧ bytes_at m' hd (zeros 511 ++ [x]))) as Hnext.
  { eapply extract_next_spec; [exact Hsec|done|done|lia|done|]. intros d' m' Hd' Hw Hs. exists d', m'.
    split; [done|]. split; [done|]. split; [done|]. exact (writes_bytes _ _ _ _ Hw). }
  apply wp_outcome in Hnext as ([]&w&Hrun&d'&m'&->&Hd'&Hs&Hb).
  destruct (proj1 (wp_outcome _ _ _) (ustar_parse_header_spec m' hd _ Hb eq_refl (marker_u8 x Hx))) as (r&m2&Hparse&->&Hp).
  assert (∀ k : unit → M world bool, bind (extract_next hd) k (World f d m e a) = k tt (World f d' m' (e + 1) a)) as Hnext
    by (intros k; unfold bind; by rewrite Hrun).
  assert (∀ k : header_result → M world bool, bind (on_mem (ustar_parse_header hd)) k (World f d' m' (e + 1) a) =
    k r (World f d' m' (e + 1) a)) as Hread by (intros k; unfold bind, on_mem; cbn [memory]; by rewrite Hparse).
  unfold extract_step. rewrite Hnext, Hread. destruct r as [msg|[[[name'|] type'] size']]; cbn [parsed] in Hp.
  - destruct (Z.eqb_spec x 0) as [->|_]; [by destruct (proj1 Hp); vm_compute|done].
  - destruct Hp as (_&(Hmagic&_)&_). by vm_compute in Hmagic.
  - destruct Hp as [Hz _]. assert (x = 0) as -> by (apply (f_equal (λ l, l !! 511%nat)) in Hz; vm_compute in Hz; by injection Hz).
    cbn. exists d', m'. done.
Qed.

Lemma entries_fit ens : (length ens ≤ length (archive_sectors ens))%nat.
Proof.
  unfold archive_sectors. induction ens as [|en ens IH]; [done|]. rewrite fmap_cons. cbn [concat length]. rewrite length_app.
  cbn [entry_sectors length]. lia.
Qed.

(** Erasing the start of the archive. *)
Lemma erase_spec f d m e a hd :
  0 < hd → mapped m hd 512 → 1 < block_sz d → block_ty d ≠ BLOCK_FOREIGN →
  wp (_ ← on_mem (memset hd 0 BLOCK_SECTOR_SIZE); write_sector 0 hd;; write_sector 1 hd) (World f d m e a) (λ _ w,
    fsys w = f ∧ sectors_at (scratch w) 0 [zeros 512; zeros 512]).
Proof.
  intros Hhd Hm Hsz Ht. wp_step. apply wp_in_memory.
  eapply wp_mono; [apply (memset_spec m hd); [unfold Str.NULL; lia|done|exact Hm]|]. intros r m1 Hw.
  change (replicate _ (u8 0)) with (zeros 512) in Hw. apply writes_bytes in Hw.
  wp_step. eapply write_sector_spec; [exact Hw|done|lia|done|]. intros d1 Hd1.
  pose proof (rec_size _ _ _ _ Hd1) as Hsz1. pose proof (rec_type _ _ _ _ Hd1) as Hty1.
  eapply write_sector_spec; [exact Hw|done|lia|congruence|]. intros d2 Hd2. split; [done|].
  exact (rec_at _ _ _ _ (recorded_app d d1 d2 0 [_] [_] Hd1 Hd2)).
Qed.

(** What extraction makes of an archive whose last sector ends in [x]. *)
Lemma fsutil_extract_spec f0 ens f d m a hd dt x :
  Forall (archivable f0) ens → restorable f ens → 0 < hd → 0 < dt → mapped m hd 512 → mapped m dt 512 → ens ≠ [] → is_u8 x →
  sectors_at d 0 (archive_sectors ens ++ [zeros 511 ++ [x]]) → block_ty d ≠ BLOCK_FOREIGN →
  Z.of_nat (length (archive_sectors ens)) < block_sz d → block_sz d < 2 ^ 32 →
  if x =? 0 then ∃ w, fsutil_extract hd dt (World f d m 0 a) = Ret (tt, w) ∧ files (fsys w) = archive_files ens ∪ files f ∧
      sectors_at (scratch w) 0 [zeros 512; zeros 512]
  else fsutil_extract hd dt (World f d m 0 a) = Fail AssertFail.
Proof.
  intros Hall Hres Hhd0 Hdt0 Hhd Hdt Hne Hx Hat Ht Hsz H32. apply sectors_at_app in Hat as [Hat [Hend _]].
  pose proof (entries_fit ens) as Hfit. assert (1 ≤ length ens)%nat by (destruct ens; cbn; [done|lia]).
  set (k := (Z.to_nat (block_sz d) - length ens)%nat).
  destruct (extract_entries f0 ens (S k) f d m 0 a hd dt Hall Hres Hhd Hdt ltac:(lia) Hat ltac:(lia) H32) as (f1&d1&m1&Hrun&Hd1&Hhd1&Hdt1&Hf1).
  replace (length ens + S k)%nat with (S (Z.to_nat (block_sz d))) in Hrun by lia.
  pose proof (extract_end f1 d1 m1 (0 + Z.of_nat (length (archive_sectors ens))) a hd dt x) as Hstep.
  rewrite (med_contents _ _ Hd1), (med_size _ _ Hd1) in Hstep. specialize (Hstep Hend Hx Hhd1 ltac:(lia) H32).
  assert (negb ((hd =? 0) || (dt =? 0)) = true) as Hbuf by lia.
  change (extract_loop (S k)) with (λ hd dt, more ← extract_step hd dt; if more : bool then extract_loop k hd dt else ret tt) in Hrun.
  cbv beta in Hrun. unfold bind in Hrun at 1. destruct (x =? 0).
  - destruct Hstep as (d2&m2&Hstep&Hd2&Hs2). rewrite Hstep in Hrun. pose proof (same_medium_trans _ _ _ Hd1 Hd2) as [_ Hsz2 Hty2].
    assert (wp (fsutil_extract hd dt) (World f d m 0 a) (λ _ w, files (fsys w) = archive_files ens ∪ files f ∧
      sectors_at (scratch w) 0 [zeros 512; zeros 512])) as ([]&w&Hex&Hw)%wp_outcome; [|by exists w].
    unfold fsutil_extract. wp_step. apply wp_ASSERT; [done|]. wp_step. apply wp_get_state. wp_step. eapply wp_run; [exact Hrun|].
    eapply wp_mono; [apply erase_spec; [done|apply Hs2|lia|congruence]|]. intros [] w [-> Hat']. done.
  - rewrite Hstep in Hrun. unfold fsutil_extract. rewrite Hbuf. unfold ASSERT, bind at 1, ret at 1. unfold bind at 1, get_state at 1.
    unfold bind at 1. cbn [scratch]. unfold block_size. by rewrite Hrun.
Qed.

(** ** Appending several files *)

(** The buffers of the calls, and the byte [x] after the last one, which no
    buffer contains. *)
Record buffers_for (m : mem) (ens : list entry) (x : Z) : Prop := {
  buf_mapped : ∀ en, en ∈ ens → 0 < buffer en ∧ mapped m (buffer en) 512 ∧ is_Some (m !! (buffer en + 512));
  buf_stray : ∀ en, last ens = Some en → m !! (buffer en + 512) = Some x;
  buf_apart : ∀ en en', last ens = Some en → en' ∈ ens → buffer en + 512 < buffer en' ∨ buffer en' ≤ buffer en }.

Lemma buffers_step m m' en en' ens x :
  buffers_for m (en :: en' :: ens) x → scribbled (buffer en) m m' → buffers_for m' (en' :: ens) x.
Proof.
  intros [Hm Hx Ha] Hs. split.
  - intros en1 Hin. destruct (Hm en1 ltac:(by right)) as (?&?&Hsome). split; [done|]. split; [by eapply scribbled_mapped|].
    apply elem_of_dom. eapply (scribbled_mapped _ _ _ _ 1 Hs); [|split; [reflexivity|lia]]. intros y Hy. apply elem_of_dom.
    by replace y with (buffer en1 + 512) by lia.
  - intros en1 Hl. rewrite (proj2 Hs); [by apply Hx|]. destruct (Ha en1 en Hl ltac:(by left)); lia.
  - intros en1 en2 Hl Hin. apply Ha; [done|by right].
Qed.

Lemma append_all_spec ens en f d m e a x :
  Forall (archivable f) (en :: ens) → room f [] → buffers_for m (en :: ens) x → 0 ≤ a →
  a + Z.of_nat (length (archive_sectors (en :: ens))) < block_sz d → block_sz d < 2 ^ 32 → block_ty d ≠ BLOCK_FOREIGN →
  wp (append_all ((λ en, (path en, buffer en)) <$> en :: ens)) (World f d m e a) (λ _ w, ∃ f' d' m',
    w = World f' d' m' e (a + Z.of_nat (length (archive_sectors (en :: ens)))) ∧
    recorded d a (archive_sectors (en :: ens) ++ [zeros 511 ++ [x]]) d' ∧ files f' = files f).
Proof.
  revert en f d m a. induction ens as [|en' ens IH]; intros en f d m a Hall Hr Hbuf Ha Hsz H32 Ht.
  all: apply Forall_cons in Hall as [Hen Hall]; destruct (buf_mapped _ _ _ Hbuf en ltac:(by left)) as (Hb0&Hbm&y&Hy).
  all: unfold archive_sectors in Hsz |- *; rewrite !(fmap_cons entry_sectors en) in Hsz |- *; cbn [concat] in Hsz |- *;
    rewrite !(length_app (entry_sectors en)) in Hsz |- *; rewrite (fmap_cons _ en); cbn [append_all].
  - pose proof (buf_stray _ _ _ Hbuf en eq_refl) as Hx. rewrite Hx in Hy. injection Hy as <-. cbn [fmap list_fmap concat length append_all] in Hsz |- *.
    rewrite app_nil_r. wp_step.
    eapply wp_mono; [eapply fsutil_append_spec; [exact Hen|exact Hr|done|done|exact Hx|done|lia|done|done]|].
    intros [] w (f'&d'&m'&->&Hd&_&Hf&_&_). wp_step. exists f', d', m'. split; [f_equal; lia|]. by split.
  - fold (archive_sectors (en' :: ens)) in Hsz |- *. wp_step.
    eapply wp_mono; [eapply fsutil_append_spec; [exact Hen|exact Hr|done|done|exact Hy|done|lia|done|done]|].
    intros [] w (f1&d1&m1&->&Hd1&Hs1&Hf1&_&Hr1). pose proof (rec_size _ _ _ _ Hd1) as Hsz1. pose proof (rec_type _ _ _ _ Hd1) as Hty1.
    eapply wp_mono; [apply (IH en' f1 d1 m1); [|done|by eapply buffers_step|lia|lia|lia|congruence]|].
    + eapply Forall_impl; [exact Hall|]. intros en1 [H1 H2 H3 H4 H5]. split; [by rewrite Hf1|done|done|done|done].
    + intros [] w (f2&d2&m2&->&Hd2&Hf2). exists f2, d2, m2. split; [f_equal; lia|]. split; [|congruence].
      rewrite <- app_assoc. eapply recorded_over; [exact Hd1|exact Hd2|]. rewrite length_app. cbn [length]. lia.
Qed.

(** Files that are appended to the archive on the scratch device come back when the
    archive is extracted after a restart.  For any list of files whose names fit into a
    header, with room on the device, the "append" actions end and leave the file system as
    it was; extracting the device into a file system that has room and none of these
    names then ends too if the byte of memory after the last buffer is zero, creates
    exactly these files with the same contents (under the names without their dangerous
    prefixes) and erases the start of the archive.  If that byte is not zero extraction
    panics: the second sector of the end marker is written over the first one from an
    address one byte too high.  (The file systems are ones that keep the laws of
    [FileSystem].) *)
Theorem archive_restores (f f2 : F) (d : block) (m m2 : mem) (e a hd dt x : Z) (ens : list entry) :
  ens ≠ [] → Forall (archivable f) ens → room f [] → buffers_for m ens x → is_u8 x →
  Z.of_nat (length (archive_sectors ens)) < block_sz d → block_sz d < 2 ^ 32 → block_ty d ≠ BLOCK_FOREIGN →
  restorable f2 ens → 0 < hd → 0 < dt → mapped m2 hd 512 → mapped m2 dt 512 →
  ∃ f' d' m' a', append_all ((λ en, (path en, buffer en)) <$> ens) (World f d m e 0) = Ret (tt, World f' d' m' e a') ∧
    files f' = files f ∧
    if x =? 0 then ∃ w, fsutil_extract hd dt (World f2 d' m2 0 a) = Ret (tt, w) ∧ files (fsys w) = archive_files ens ∪ files f2 ∧
      sectors_at (scratch w) 0 [zeros 512; zeros 512]
    else fsutil_extract hd dt (World f2 d' m2 0 a) = Fail AssertFail.
Proof.
  intros Hne Hall Hr Hbuf Hx Hsz H32 Ht Hres Hhd Hdt Hmh Hmd. destruct ens as [|en ens]; [done|].
  pose proof (append_all_spec ens en f d m e 0 x Hall Hr Hbuf ltac:(lia) Hsz H32 Ht) as ([]&w&Hrun&f'&d'&m'&->&[Hat Hf Hs Hty]&Hff)%wp_outcome.
  exists f', d', m', (0 + Z.of_nat (length (archive_sectors (en :: ens)))). split; [exact Hrun|]. split; [exact Hff|].
  eapply fsutil_extract_spec; try done; [congruence|lia|lia].
Qed.

End utilities.
Arguments world F : clear implicits.

(** ** A file system without limits *)

Record ideal := Ideal { ideal_files : gmap (list Z) (list Z); ideal_opened : gmap Z (list Z * Z) }.

Definition ideal_create (name : list Z) (size : Z) : M ideal bool :=
  s ← get_state;
  if bool_decide (is_Some (ideal_files s !! name)) then ret false
  else put_state (Ideal (<[name := replicate (Z.to_nat size) 0]> (ideal_files s)) (ideal_opened s));; ret true.
Definition ideal_open (name : list Z) : M ideal Z :=
  s ← get_state;
  if bool_decide (is_Some (ideal_files s !! name)) then
    let f := fresh ({[0]} ∪ dom (ideal_opened s)) in
    put_state (Ideal (ideal_files s) (<[f := (name, 0)]> (ideal_opened s)));; ret f
  else ret 0.
Definition ideal_remove (name : list Z) : M ideal bool :=
  s ← get_state;
  if bool_decide (is_Some (ideal_files s !! name)) then put_state (Ideal (delete name (ideal_files s)) (ideal_opened s));; ret true
  else ret false.
Definition ideal_length (f : Z) : M ideal Z :=
  s ← get_state; x ← deref (ideal_opened s !! f); c ← deref (ideal_files s !! x.1); ret (Z.of_nat (length c)).
Definition ideal_read (f n : Z) : M ideal (list Z) :=
  s ← get_state; x ← deref (ideal_opened s !! f); c ← deref (ideal_files s !! x.1);
  let d := take (Z.to_nat n) (drop (Z.to_nat x.2) c) in
  put_state (Ideal (ideal_files s) (<[f := (x.1, x.2 + Z.of_nat (length d))]> (ideal_opened s)));; ret d.
Definition ideal_write (f : Z) (d : list Z) : M ideal Z :=
  s ← get_state; x ← deref (ideal_opened s !! f); c ← deref (ideal_files s !! x.1);
  put_state (Ideal (<[x.1 := overwrite c x.2 d]> (ideal_files s)) (<[f := (x.1, x.2 + Z.of_nat (length d))]> (ideal_opened s)));;
  ret (Z.of_nat (length d)).
Definition ideal_close (f : Z) : M ideal unit := modify (λ s, Ideal (ideal_files s) (delete f (ideal_opened s))).

#[export] Instance ideal_ops : FileSystemOps ideal := {|
  filesys_create := ideal_create; filesys_open := ideal_open; filesys_remove := ideal_remove; file_length := ideal_length;
  file_read := ideal_read; file_write := ideal_write; file_close := ideal_close |}.
#[export] Program Instance ideal_file_system : FileSystem ideal := {|
  files := ideal_files; opened := ideal_opened; room := λ _ _, True; legal := λ _, True |}.
Next Obligation.
  intros s name size ns _ Hn _ _. unfold filesys_create, ideal_ops, ideal_create. wp_step. apply wp_get_state. rewrite Hn. rewrite bool_decide_false by (by intros []).
  wp_step. apply wp_put_state. by wp_step.
Qed.
Next Obligation.
  intros s name c ns Hc _. unfold filesys_open, ideal_ops, ideal_open. wp_step. apply wp_get_state. rewrite Hc, bool_decide_true by done.
  pose proof (is_fresh ({[0]} ∪ dom (ideal_opened s) : gset Z)) as Hf. wp_step. apply wp_put_state. wp_step.
  split; [set_solver|]. split; [apply not_elem_of_dom; set_solver|done].
Qed.
Next Obligation.
  intros s name c ns Hc _. unfold filesys_remove, ideal_ops, ideal_remove. wp_step. apply wp_get_state. rewrite Hc, bool_decide_true by done.
  wp_step. apply wp_put_state. by wp_step.
Qed.
Next Obligation.
  intros s f name p c ns Ho Hc _. unfold file_length, ideal_ops, ideal_length. wp_step. apply wp_get_state. rewrite Ho. wp_steps. cbn [fst]. rewrite Hc. by wp_steps.
Qed.
Next Obligation.
  intros s f name p c n ns Ho Hc _ _ _ _. unfold file_read, ideal_ops, ideal_read. wp_step. apply wp_get_state. rewrite Ho. wp_steps. cbn [fst snd]. rewrite Hc. by wp_steps.
Qed.
Next Obligation.
  intros s f name p c d ns Ho Hc _ _ _. unfold file_write, ideal_ops, ideal_write. wp_step. apply wp_get_state. rewrite Ho. wp_steps. cbn [fst snd]. rewrite Hc. by wp_steps.
Qed.
Next Obligation.
  intros s f x ns _ _. by apply wp_modify.
Qed.

Definition sample_entries : list entry :=
  [Entry (chars "/bin/echo") (chars "bin/echo") 4096 (replicate 600 7); Entry (chars "notes") (chars "notes") 8192 [1; 2; 3]].
Definition sample_files : ideal := Ideal (list_to_map ((λ en, (path en, data en)) <$> sample_entries)) ∅.
Definition sample_memory : mem := mem_of 4096 (replicate 513 9) ∪ (mem_of 8192 (replicate 512 9 ++ [0]) ∪ ∅).
Definition sample_disk : block := mk_block "hda3" BLOCK_SCRATCH 64 0 0 ∅.

Lemma archive_restores_witness :
  ∃ w d', append_all [(chars "/bin/echo", 4096); (chars "notes", 8192)] (World sample_files sample_disk sample_memory 0 0) = Ret (tt, w) ∧
    scratch w = d' ∧ ∃ w', fsutil_extract 4096 8192 (World (Ideal ∅ ∅) d' sample_memory 0 0) = Ret (tt, w') ∧
      ideal_files (fsys w') = archive_files sample_entries ∪ ∅.
Proof.
  assert (∀ p n, (p = 4096 ∨ p = 8192) ∧ n = 512 → mapped sample_memory p n) as Hm.
  { intros p n [Hp ->] x Hx. apply elem_of_dom. unfold sample_memory. destruct Hp as [-> | ->].
    - apply elem_of_dom. apply (mem_of_mapped 4096 (replicate 513 9)). rewrite length_replicate. lia.
    - rewrite lookup_union_is_Some. right. apply elem_of_dom. apply (mem_of_mapped 8192 (replicate 512 9 ++ [0])).
      rewrite length_app, length_replicate. cbn [length]. lia. }
  destruct (archive_restores sample_files (Ideal ∅ ∅) sample_disk sample_memory sample_memory 0 0 4096 8192 0 sample_entries)
    as (f'&d'&m'&a'&Hrun&_&w&Hex&Hf&_).
  - discriminate.
  - repeat constructor; try (by vm_compute); cbn [path name data]; apply (bool_decide_unpack _); by vm_compute.
  - exact I.
  - split.
    + intros en Hin. apply list_elem_of_In in Hin as [<-|[<-|[]]]; cbn [buffer]; (split; [lia|]); (split; [apply Hm; tauto|]); apply (bool_decide_unpack _); by vm_compute.
    + intros en [= <-]. by vm_compute.
    + intros en en' [= <-] Hin. apply list_elem_of_In in Hin as [<-|[<-|[]]]; cbn [buffer]; lia.
  - by compute.
  - apply (bool_decide_unpack _). by vm_compute.
  - by compute.
  - discriminate.
  - split; [apply (bool_decide_unpack _); by vm_compute| |exact I]. intros en _. split; [exact I|apply lookup_empty].
  - lia.
  - lia.
  - apply Hm. tauto.
  - apply Hm. tauto.
  - exists (World f' d' m' 0 a'), d'. split; [exact Hrun|]. split; [done|]. exists w. split; [exact Hex|exact Hf].
Defined.
