(* ===== verification/FsutilRun.v ===== *)
(** * The file system utilities on the modelled file system

    The operations of [FileSystemOps] are those of filesys.c and file.c as
    Directory and Inode model them, in the root directory; a file is appended to
    the archive of one file system and extracted into another one. *)

From Stdlib Require Import String.
From stdpp Require Import gmap.
From S2P Require Import Prelude Str Stdio Block Ustar Cache Inode Directory DirectorySpec Fsutil.
Local Open Scope Z_scope.

(** [filesys_remove] with a bound for its loop over the entries of a directory,
    and no directory of a thread in the way. *)
#[export] Instance fs_ops : FileSystemOps fs := {|
  filesys_create := Directory.filesys_create ROOT_DIR_SECTOR;
  filesys_open := Directory.filesys_open ROOT_DIR_SECTOR;
  filesys_remove := Directory.filesys_remove 100 false false ROOT_DIR_SECTOR;
  file_length := Inode.file_length;
  file_read := λ f n, r ← Inode.file_read f n; ret (take (Z.to_nat r.1) r.2);
  file_write := λ f d, Inode.file_write f d (Z.of_nat (length d));
  file_close := Inode.file_close |}.

(** A formatted file system with a file of 600 bytes, and one without. *)
Definition notes : list Z := map (λ k, Z.of_nat k mod 251) (seq 0 600).
Definition formatted (c : M fs unit) : fs :=
  match (format_disk;; c) blank_fs with Ret (_, s) => s | Fail _ => blank_fs end.
Definition with_notes : M fs unit :=
  _ ← filesys_create (F := fs) (chars "notes") 600;
  f ← filesys_open (F := fs) (chars "notes");
  _ ← file_write (F := fs) f notes;
  file_close (F := fs) f.

(** The two actions, with a restart in between, and the file then. *)
Definition backup_and_restore : option (list Z) :=
  match fsutil_append (chars "notes") 8192 (World (formatted with_notes) sample_disk sample_memory 0 0) with
  | Ret (_, w) =>
      match (fsutil_extract 4096 8192;;
             f ← on_fs (filesys_open (F := fs) (chars "notes")); on_fs (file_read (F := fs) f 600))
              (World (formatted (ret tt)) (scratch w) sample_memory 0 0) with
      | Ret (data, _) => Some data
      | Fail _ => None
      end
  | Fail _ => None
  end.

Example notes_restored : backup_and_restore = Some notes.
Proof. vm_compute. reflexivity. Qed.
