(* ===== verification/Interrupt.v ===== *)
(** * Descriptors, the interrupt table and exceptions
      (threads/interrupt.c, userprog/gdt.c, userprog/exception.c)

    Segment and gate descriptors as the 64-bit words the processor reads, the
    registration of handlers, and the handlers of exceptions.  The entry stubs
    are generated assembly: their addresses are a parameter. *)

From S2P Require Import Prelude.
Local Open Scope Z_scope.
Ltac Zify.zify_post_hook ::= Z.to_euclidean_division_equations.

(** ** Bit fields *)

(** Fields that do not overlap are joined by addition. *)
Lemma lor_low k a b : 0 ≤ k → a mod 2 ^ k = 0 → 0 ≤ b < 2 ^ k → Z.lor a b = a + b.
Proof.
  intros Hk Ha Hb. cut (Z.land a b = 0); [pose proof (Z.add_lor_land a b); lia|].
  apply Z.bits_inj'. intros n Hn. rewrite Z.land_spec, Z.bits_0. destruct (decide (n < k)).
  - rewrite <- (Z.mod_pow2_bits_low a k n), Ha, Z.bits_0 by lia. done.
  - rewrite <- (Z.mod_small b (2 ^ k)), Z.mod_pow2_bits_high by lia. apply andb_false_r.
Qed.
Lemma lor_high k a b : 0 ≤ k → 0 ≤ a < 2 ^ k → b mod 2 ^ k = 0 → Z.lor a b = a + b.
Proof. intros. rewrite Z.lor_comm, (lor_low k) by done. lia. Qed.

(** A mask of [w] bits at position [p]. *)
Lemma land_mask a w p : 0 ≤ w → 0 ≤ p → Z.land a (Z.shiftl (Z.ones w) p) = a / 2 ^ p mod 2 ^ w * 2 ^ p.
Proof.
  intros Hw Hp. rewrite <- Z.land_ones, <- Z.shiftr_div_pow2, <- Z.shiftl_mul_pow2 by done.
  apply Z.bits_inj'. intros n Hn. rewrite Z.land_spec, !Z.shiftl_spec, Z.land_spec by done.
  destruct (decide (n < p)); [rewrite !(Z.testbit_neg_r _ (n - p)) by lia; by rewrite !andb_false_r|].
  rewrite Z.shiftr_spec by lia. by replace (n - p + p) with n by lia.
Qed.

(** ** Segment descriptors (gdt.c) *)

Definition SEL_NULL : Z := 0x00.
Definition SEL_KCSEG : Z := 0x08.
Definition SEL_KDSEG : Z := 0x10.
Definition SEL_UCSEG : Z := 0x1B.
Definition SEL_UDSEG : Z := 0x23.
Definition SEL_TSS : Z := 0x28.
Definition SEL_CNT : nat := 6.
Definition CLS_SYSTEM : Z := 0.
Definition CLS_CODE_DATA : Z := 1.
Definition GRAN_BYTE : Z := 0.
Definition GRAN_PAGE : Z := 1.

Section Descriptors.
Context {S : Type}.

Definition make_seg_desc (base limit class type dpl granularity : Z) : M S Z :=
  ASSERT (limit <=? 0xfffff);;
  ASSERT ((class =? CLS_SYSTEM) || (class =? CLS_CODE_DATA));;
  ASSERT ((0 <=? type) && (type <=? 15));;
  ASSERT ((0 <=? dpl) && (dpl <=? 3));;
  ASSERT ((granularity =? GRAN_BYTE) || (granularity =? GRAN_PAGE));;
  let e0 := u32 (Z.lor (Z.land limit 0xffff) (Z.shiftl base 16)) in
  let e1 := u32 (Z.lor (Z.lor (Z.lor (Z.lor (Z.lor (Z.lor (Z.lor (Z.lor
    (Z.land (Z.shiftr base 16) 0xff)
    (Z.shiftl type 8)) (Z.shiftl class 12)) (Z.shiftl dpl 13)) (Z.shiftl 1 15))
    (Z.land limit 0xf0000)) (Z.shiftl 1 22)) (Z.shiftl granularity 23))
    (Z.land base 0xff000000)) in
  ret (Z.lor e0 (Z.shiftl e1 32)).

Definition make_code_desc (dpl : Z) : M S Z := make_seg_desc 0 0xfffff CLS_CODE_DATA 10 dpl GRAN_PAGE.
Definition make_data_desc (dpl : Z) : M S Z := make_seg_desc 0 0xfffff CLS_CODE_DATA 2 dpl GRAN_PAGE.
Definition make_tss_desc (laddr : Z) : M S Z := make_seg_desc (u32 laddr) 0x67 CLS_SYSTEM 9 0 GRAN_BYTE.
Definition make_gdtr_operand (limit base : Z) : Z := Z.lor limit (Z.shiftl (u32 base) 16).

(** The table, entry by entry; the index of a selector is its value over the
    size of an entry. *)
Definition gdt_init (tss : Z) : M S (list Z) :=
  kc ← make_code_desc 0;
  kd ← make_data_desc 0;
  uc ← make_code_desc 3;
  ud ← make_data_desc 3;
  ts ← make_tss_desc tss;
  let set sel v l := <[Z.to_nat (sel / 8) := v]> l in
  ret (set SEL_TSS ts (set SEL_UDSEG ud (set SEL_UCSEG uc (set SEL_KDSEG kd (set SEL_KCSEG kc
    (set SEL_NULL 0 (replicate SEL_CNT 0))))))).

End Descriptors.

(** What the processor reads in a segment descriptor. *)
Record segment := mk_segment {
  seg_base : Z; seg_limit : Z; seg_type : Z; seg_code_data : Z; seg_dpl : Z; seg_present : Z;
  seg_32bit : Z; seg_pages : Z
}.
Definition field (d pos width : Z) : Z := d / 2 ^ pos mod 2 ^ width.
Definition segment_of (d : Z) : segment :=
  mk_segment (field d 16 24 + field d 56 8 * 2 ^ 24) (field d 0 16 + field d 48 4 * 2 ^ 16)
    (field d 40 4) (field d 44 1) (field d 45 2) (field d 47 1) (field d 54 1) (field d 55 1).

(** The processor reads back what [make_seg_desc] was given: base, limit,
    class, type, privilege level and granularity are found in the descriptor's
    scattered fields, the segment is present and 32 bits wide; arguments out of
    range stop the kernel. *)
Theorem segment_descriptor_decodes {S} (s : S) base limit class type dpl granularity :
  is_u32 base → is_u32 limit →
  if (limit <=? 0xfffff) && ((class =? 0) || (class =? 1)) && ((0 <=? type) && (type <=? 15)) &&
     ((0 <=? dpl) && (dpl <=? 3)) && ((granularity =? 0) || (granularity =? 1))
  then wp (make_seg_desc base limit class type dpl granularity) s (λ d s', s' = s ∧ is_u64 d ∧
    segment_of d = mk_segment base limit type class dpl 1 1 granularity)
  else make_seg_desc base limit class type dpl granularity s = Fail AssertFail.
Proof.
  intros Hb Hl. unfold make_seg_desc, CLS_SYSTEM, CLS_CODE_DATA, GRAN_BYTE, GRAN_PAGE.
  destruct (limit <=? 0xfffff) eqn:E1; [|done]. cbn [andb].
  destruct ((class =? 0) || (class =? 1)) eqn:E2; [|done]. cbn [andb].
  destruct ((0 <=? type) && (type <=? 15)) eqn:E3; [|done]. cbn [andb].
  destruct ((0 <=? dpl) && (dpl <=? 3)) eqn:E4; [|done]. cbn [andb].
  destruct ((granularity =? 0) || (granularity =? 1)) eqn:E5; [|done].
  wp_steps. split; [done|].
  assert (0 ≤ limit < 2 ^ 20 ∧ 0 ≤ class < 2 ∧ 0 ≤ type < 16 ∧ 0 ≤ dpl < 4 ∧ 0 ≤ granularity < 2) as (Hl20&?&?&?&?) by word_lia.
  change 0xffff with (Z.shiftl (Z.ones 16) 0). change 0xff with (Z.shiftl (Z.ones 8) 0).
  change 0xf0000 with (Z.shiftl (Z.ones 4) 16). change 0xff000000 with (Z.shiftl (Z.ones 8) 24).
  rewrite !land_mask, !Z.shiftl_mul_pow2, Z.shiftr_div_pow2 by lia.
  rewrite (lor_high 16 (limit / 2 ^ 0 mod 2 ^ 16 * 2 ^ 0)) by lia.
  set (b1 := base / 2 ^ 16 / 2 ^ 0 mod 2 ^ 8 * 2 ^ 0). assert (0 ≤ b1 < 2 ^ 8) by lia.
  set (b2 := base / 2 ^ 24 mod 2 ^ 8). assert (0 ≤ b2 < 2 ^ 8) by lia.
  set (l1 := limit / 2 ^ 16 mod 2 ^ 4). assert (0 ≤ l1 < 2 ^ 4) by lia.
  rewrite (lor_high 8 b1), (lor_high 12 _ (class * _)), (lor_high 13 _ (dpl * _)), (lor_high 15 _ (1 * 2 ^ 15)),
    (lor_high 16 _ (l1 * _)), (lor_high 22 _ (1 * 2 ^ 22)), (lor_high 23 _ (granularity * _)), (lor_high 24 _ (b2 * _)) by lia.
  rewrite (u32_small (_ + b2 * _)) by word_lia. rewrite (lor_high 32) by (try apply u32_range; lia).
  set (l0 := limit / 2 ^ 0 mod 2 ^ 16 * 2 ^ 0). assert (0 ≤ l0 < 2 ^ 16 ∧ limit = l0 + l1 * 2 ^ 16) as [? El] by lia.
  set (b0 := base mod 2 ^ 16). assert (0 ≤ b0 < 2 ^ 16 ∧ base = b0 + b1 * 2 ^ 16 + b2 * 2 ^ 24) as [? Eb] by word_lia.
  assert (u32 (l0 + base * 2 ^ 16) = l0 + b0 * 2 ^ 16) as -> by (unfold u32; lia).
  clearbody l0 l1 b0 b1 b2. unfold segment_of, field.
  split; [word_lia|]. f_equal; lia.
Qed.

(** ** Gates and the interrupt table (interrupt.c) *)

(** The static variables: the descriptors, the handlers (0 is no handler), the
    names, the counters of unexpected interrupts, the bytes sent to the
    interrupt controllers, and the messages printed (vector and name). *)
Record itable := mk_itable {
  idt : list Z;
  intr_handlers : list Z;
  intr_names : list string;
  unexpected_cnt : list Z;
  pic : list (Z * Z);
  printed : list (Z * string)
}.

Definition INTR_CNT : nat := 256.
Definition PIC0_CTRL : Z := 0x20.
Definition PIC0_DATA : Z := 0x21.
Definition PIC1_CTRL : Z := 0xa0.
Definition PIC1_DATA : Z := 0xa1.

Definition outb (port data : Z) : M itable unit :=
  modify (λ t, mk_itable (idt t) (intr_handlers t) (intr_names t) (unexpected_cnt t) (pic t ++ [(port, data)]) (printed t)).

Definition pic_init : M itable unit :=
  outb PIC0_DATA 0xff;; outb PIC1_DATA 0xff;;
  outb PIC0_CTRL 0x11;; outb PIC0_DATA 0x20;; outb PIC0_DATA 0x04;; outb PIC0_DATA 0x01;;
  outb PIC1_CTRL 0x11;; outb PIC1_DATA 0x28;; outb PIC1_DATA 0x02;; outb PIC1_DATA 0x01;;
  outb PIC0_DATA 0x00;; outb PIC1_DATA 0x00.

Definition pic_end_of_interrupt (irq : Z) : M itable unit :=
  ASSERT ((0x20 <=? irq) && (irq <? 0x30));;
  outb 0x20 0x20;;
  if 0x28 <=? irq then outb 0xa0 0x20 else ret tt.

Definition make_gate {S} (function dpl type : Z) : M S Z :=
  ASSERT (negb (function =? 0));;
  ASSERT ((0 <=? dpl) && (dpl <=? 3));;
  ASSERT ((0 <=? type) && (type <=? 15));;
  let e0 := u32 (Z.lor (Z.land (u32 function) 0xffff) (Z.shiftl SEL_KCSEG 16)) in
  let e1 := u32 (Z.lor (Z.lor (Z.lor (Z.lor (Z.land (u32 function) 0xffff0000)
    (Z.shiftl 1 15)) (Z.shiftl dpl 13)) (Z.shiftl 0 12)) (Z.shiftl type 8)) in
  ret (Z.lor e0 (Z.shiftl e1 32)).
Definition make_intr_gate {S} (function dpl : Z) : M S Z := make_gate function dpl 14.
Definition make_trap_gate {S} (function dpl : Z) : M S Z := make_gate function dpl 15.
Definition make_idtr_operand (limit base : Z) : Z := Z.lor limit (Z.shiftl (u32 base) 16).

(** What the processor reads in a gate. *)
Record gate := mk_gate { g_offset : Z; g_selector : Z; g_type : Z; g_dpl : Z; g_present : Z }.
Definition gate_of (d : Z) : gate :=
  mk_gate (field d 0 16 + field d 48 16 * 2 ^ 16) (field d 16 16) (field d 40 5) (field d 45 2) (field d 47 1).

Lemma make_gate_decodes {S} (s : S) function dpl type :
  0 < function < 2 ^ 32 → 0 ≤ dpl ≤ 3 → 0 ≤ type ≤ 15 →
  wp (make_gate function dpl type) s (λ d s', s' = s ∧ gate_of d = mk_gate function SEL_KCSEG type dpl 1).
Proof.
  intros Hf Hd Ht. unfold make_gate. assert ((function =? 0) = false) as -> by lia.
  assert ((0 <=? dpl) && (dpl <=? 3) = true) as -> by lia. assert ((0 <=? type) && (type <=? 15) = true) as -> by lia.
  wp_steps. split; [done|]. rewrite (u32_small function) by word_lia.
  change 0xffff with (Z.shiftl (Z.ones 16) 0). change 0xffff0000 with (Z.shiftl (Z.ones 16) 16).
  rewrite !land_mask, !Z.shiftl_mul_pow2 by lia.
  set (f0 := function / 2 ^ 0 mod 2 ^ 16 * 2 ^ 0). set (f1 := function / 2 ^ 16 mod 2 ^ 16).
  assert (0 ≤ f0 < 2 ^ 16 ∧ 0 ≤ f1 < 2 ^ 16 ∧ function = f0 + f1 * 2 ^ 16) as (?&?&E) by lia. clearbody f0 f1. subst function.
  unfold SEL_KCSEG. rewrite (lor_high 16 f0), (lor_low 16 (f1 * _)), (lor_low 15 _ (dpl * _)), (lor_low 13 _ (0 * _)),
    (lor_low 12 _ (type * _)) by lia.
  rewrite !(u32_small) by word_lia. rewrite (lor_high 32) by lia. unfold gate_of, field. f_equal; lia.
Qed.

Section Table.
Variable intr_stubs : Z → Z.    (* the addresses of the entry points in intr-stubs.S *)

Definition set_idt (vec gate : Z) : M itable unit :=
  modify (λ t, mk_itable (<[Z.to_nat vec := gate]> (idt t)) (intr_handlers t) (intr_names t) (unexpected_cnt t) (pic t) (printed t)).
Definition set_handler (vec handler : Z) (name : string) : M itable unit :=
  modify (λ t, mk_itable (idt t) (<[Z.to_nat vec := handler]> (intr_handlers t)) (<[Z.to_nat vec := name]> (intr_names t))
    (unexpected_cnt t) (pic t) (printed t)).

Fixpoint init_gates (n : nat) (i : Z) : M itable unit :=
  match n with
  | O => ret tt
  | S n => g ← make_intr_gate (intr_stubs i) 0; set_idt i g;; init_gates n (i + 1)
  end.

(** The names of the processor's exceptions. *)
Definition exception_names : list (Z * string) :=
  [(0, "#DE Divide Error"); (1, "#DB Debug Exception"); (2, "NMI Interrupt"); (3, "#BP Breakpoint Exception");
   (4, "#OF Overflow Exception"); (5, "#BR BOUND Range Exceeded Exception"); (6, "#UD Invalid Opcode Exception");
   (7, "#NM Device Not Available Exception"); (8, "#DF Double Fault Exception"); (9, "Coprocessor Segment Overrun");
   (10, "#TS Invalid TSS Exception"); (11, "#NP Segment Not Present"); (12, "#SS Stack Fault Exception");
   (13, "#GP General Protection Exception"); (14, "#PF Page-Fault Exception"); (16, "#MF x87 FPU Floating-Point Error");
   (17, "#AC Alignment Check Exception"); (18, "#MC Machine-Check Exception"); (19, "#XF SIMD Floating-Point Exception")].

Definition intr_init : M itable unit :=
  pic_init;;
  init_gates INTR_CNT 0;;
  modify (λ t, mk_itable (idt t) (intr_handlers t)
    (foldl (λ l e, <[Z.to_nat e.1 := e.2]> l) (replicate INTR_CNT "unknown"%string) exception_names)
    (unexpected_cnt t) (pic t) (printed t)).

Definition register_handler (vec_no dpl : Z) (intr_on : bool) (handler : Z) (name : string) : M itable unit :=
  t ← get_state;
  h ← deref (intr_handlers t !! Z.to_nat vec_no);
  ASSERT (h =? 0);;
  g ← (if intr_on then make_trap_gate (intr_stubs vec_no) dpl else make_intr_gate (intr_stubs vec_no) dpl);
  set_idt vec_no g;;
  set_handler vec_no handler name.

Definition intr_register_ext (vec_no handler : Z) (name : string) : M itable unit :=
  ASSERT ((0x20 <=? vec_no) && (vec_no <=? 0x2f));;
  register_handler vec_no 0 false handler name.

Definition intr_register_int (vec_no dpl : Z) (intr_on : bool) (handler : Z) (name : string) : M itable unit :=
  ASSERT ((vec_no <? 0x20) || (0x2f <? vec_no));;
  register_handler vec_no dpl intr_on handler name.

Definition unexpected_interrupt (vec_no : Z) : M itable unit :=
  t ← get_state;
  c ← deref (unexpected_cnt t !! Z.to_nat vec_no);
  let n := u32 (c + 1) in
  put_state (mk_itable (idt t) (intr_handlers t) (intr_names t) (<[Z.to_nat vec_no := n]> (unexpected_cnt t)) (pic t) (printed t));;
  if Z.land n (u32 (n - 1)) =? 0
  then
    name ← deref (intr_names t !! Z.to_nat vec_no);
    modify (λ t, mk_itable (idt t) (intr_handlers t) (intr_names t) (unexpected_cnt t) (pic t) (printed t ++ [(vec_no, name)]))
  else ret tt.

(** The handlers of exceptions, and those the other components register. *)
Definition exception_init (kill page_fault : Z) : M itable unit :=
  intr_register_int 3 3 true kill "#BP Breakpoint Exception";;
  intr_register_int 4 3 true kill "#OF Overflow Exception";;
  intr_register_int 5 3 true kill "#BR BOUND Range Exceeded Exception";;
  intr_register_int 0 0 true kill "#DE Divide Error";;
  intr_register_int 1 0 true kill "#DB Debug Exception";;
  intr_register_int 6 0 true kill "#UD Invalid Opcode Exception";;
  intr_register_int 7 0 true kill "#NM Device Not Available Exception";;
  intr_register_int 11 0 true kill "#NP Segment Not Present";;
  intr_register_int 12 0 true kill "#SS Stack Fault Exception";;
  intr_register_int 13 0 true kill "#GP General Protection Exception";;
  intr_register_int 16 0 true kill "#MF x87 FPU Floating-Point Error";;
  intr_register_int 19 0 true kill "#XF SIMD Floating-Point Exception";;
  intr_register_int 14 0 false page_fault "#PF Page-Fault Exception".
Definition timer_init (timer_interrupt : Z) : M itable unit := intr_register_ext 0x20 timer_interrupt "8254 Timer".
Definition kbd_init (keyboard_interrupt : Z) : M itable unit := intr_register_ext 0x21 keyboard_interrupt "8042 Keyboard".
Definition syscall_init (syscall_handler : Z) : M itable unit := intr_register_int 0x30 3 true syscall_handler "syscall".

(** ** The table's invariant *)

Hypothesis stubs_ok : ∀ v, 0 ≤ v < 256 → 0 < intr_stubs v < 2 ^ 32.

(** The table holds the gates [A] (type and privilege level by vector), each
    to the stub of its vector, and the handlers [H]. *)
Definition table_rep (t : itable) (A : list (Z * Z)) (H : list Z) : Prop :=
  intr_handlers t = H ∧ length (idt t) = 256%nat ∧ length A = 256%nat ∧ length H = 256%nat ∧
  ∀ v x, A !! v = Some x → ∃ d, idt t !! v = Some d ∧ gate_of d = mk_gate (intr_stubs (Z.of_nat v)) SEL_KCSEG x.1 x.2 1.

Lemma set_gate_rep t A H v d ty dpl (h : list Z) : table_rep t A H → (v < 256)%nat →
  gate_of d = mk_gate (intr_stubs (Z.of_nat v)) SEL_KCSEG ty dpl 1 → length h = 256%nat →
  ∀ t', idt t' = <[v := d]> (idt t) → intr_handlers t' = h → table_rep t' (<[v := (ty, dpl)]> A) h.
Proof.
  intros (Hh&Hi&HA&HH&Hg) Hv Hd Hl t' Ei Eh. unfold table_rep. rewrite Ei, Eh, !length_insert.
  repeat (split; [done|]). intros w x. destruct (decide (w = v)) as [->|Hne].
  - rewrite !list_lookup_insert_eq by lia. intros [= <-]. by exists d.
  - rewrite !list_lookup_insert_ne by done. apply Hg.
Qed.

Lemma make_any_gate (t : itable) v dpl (intr_on : bool) : 0 ≤ v < 256 → 0 ≤ dpl ≤ 3 →
  wp (if intr_on then make_trap_gate (intr_stubs v) dpl else make_intr_gate (intr_stubs v) dpl) t (λ d t', t' = t ∧
    gate_of d = mk_gate (intr_stubs v) SEL_KCSEG (if intr_on then 15 else 14) dpl 1).
Proof. intros Hv Hd. destruct intr_on; apply make_gate_decodes; first [by apply stubs_ok|lia|done]. Qed.

(** [intr_init] on a table of the right size, whatever it holds. *)
Lemma init_gates_spec n : ∀ i t, length (idt t) = 256%nat → 0 ≤ i → i + Z.of_nat n ≤ 256 →
  wp (init_gates n i) t (λ _ t', length (idt t') = 256%nat ∧ intr_handlers t' = intr_handlers t ∧
    (∀ v, 0 ≤ v < 256 → ¬ (i ≤ v < i + Z.of_nat n) → idt t' !! Z.to_nat v = idt t !! Z.to_nat v) ∧
    (∀ v, i ≤ v < i + Z.of_nat n → ∃ d, idt t' !! Z.to_nat v = Some d ∧
      gate_of d = mk_gate (intr_stubs v) SEL_KCSEG 14 0 1)).
Proof.
  induction n as [|n IH]; intros i t Hl Hi Hn; [apply wp_ret; repeat split; [done|lia]|]. cbn [init_gates].
  wp_step. eapply wp_mono; [apply (make_any_gate t i 0 false); lia|]. intros d ? [-> Hd]. unfold set_idt. wp_steps.
  eapply wp_mono; [apply IH; cbn [idt]; rewrite ?length_insert; lia|]. cbn [idt intr_handlers].
  intros [] t' (Hl'&Hh&Hout&Hin). split; [done|]. split; [done|]. split.
  - intros v Hv Hnv. rewrite Hout by lia. apply list_lookup_insert_ne. lia.
  - intros v Hv. destruct (decide (v = i)) as [->|]; [|apply Hin; lia].
    exists d. split; [|done]. rewrite Hout by lia. apply list_lookup_insert_eq. lia.
Qed.

Lemma outb_frame port data t i h (Q : unit → itable → Prop) : idt t = i → intr_handlers t = h →
  (∀ t', idt t' = i → intr_handlers t' = h → Q tt t') → wp (outb port data) t Q.
Proof. intros Hi Hh HQ. unfold outb. wp_step. by apply HQ. Qed.

Lemma pic_init_frame t : wp pic_init t (λ _ t', idt t' = idt t ∧ intr_handlers t' = intr_handlers t).
Proof.
  unfold pic_init. remember (idt t) as i eqn:Hi. remember (intr_handlers t) as h eqn:Hh. symmetry in Hi, Hh.
  revert t Hi Hh. do 11 (intros t Hi Hh; apply wp_bind; eapply outb_frame; [exact Hi|exact Hh|]; clear t Hi Hh).
  intros t Hi Hh. by eapply outb_frame.
Qed.

Lemma intr_init_spec t : length (idt t) = 256%nat → length (intr_handlers t) = 256%nat →
  wp (intr_init) t (λ _ t', table_rep t' (replicate 256 (14, 0)) (intr_handlers t)).
Proof.
  intros Hl Hh. unfold intr_init. wp_step. eapply wp_mono; [apply pic_init_frame|]. intros [] t1 [Ei Eh]. cbv beta. wp_step.
  eapply wp_mono; [apply (init_gates_spec INTR_CNT 0); rewrite ?Ei; unfold INTR_CNT; lia|]. rewrite Eh.
  intros [] t' (Hl'&Hh'&_&Hin). wp_steps. unfold table_rep. cbn [idt intr_handlers]. rewrite Hh', length_replicate.
  repeat (split; [done|]). intros v x [-> Hv]%lookup_replicate. destruct (Hin (Z.of_nat v)) as (d&Hd&Hg).
  { unfold INTR_CNT. lia. }
  exists d. by rewrite Nat2Z.id in Hd.
Qed.

Lemma register_handler_spec t A H v dpl (intr_on : bool) h name : table_rep t A H → 0 ≤ v < 256 → 0 ≤ dpl ≤ 3 →
  H !! Z.to_nat v = Some 0 →
  wp (register_handler v dpl intr_on h name) t (λ _ t',
    table_rep t' (<[Z.to_nat v := (if intr_on then 15 else 14, dpl)]> A) (<[Z.to_nat v := h]> H)).
Proof.
  intros Ht Hv Hd Hz. pose proof Ht as (Hh&_&_&HH&_). unfold register_handler. wp_step. wp_step. rewrite Hh, Hz. wp_steps.
  eapply wp_mono; [by apply make_any_gate|]. intros d ? [-> Hg]. unfold set_idt, set_handler. wp_steps.
  eapply (set_gate_rep t A H _ d); [done|lia| |by rewrite length_insert|done|by rewrite <- Hh].
  by rewrite Z2Nat.id by lia.
Qed.

Lemma register_handler_twice t A H v dpl (intr_on : bool) h name h0 : table_rep t A H → H !! Z.to_nat v = Some h0 → h0 ≠ 0 →
  register_handler v dpl intr_on h name t = Fail AssertFail.
Proof.
  intros (Hh&_) Hz H0. unfold register_handler, bind, get_state. rewrite Hh, Hz. cbn.
  by assert ((h0 =? 0) = false) as -> by lia.
Qed.

(** The tables the kernel can have: initialised, then handlers registered. *)
Inductive configured : itable → Prop :=
| conf_init t t' : length (idt t) = 256%nat → length (intr_handlers t) = 256%nat → intr_init t = Ret (tt, t') → configured t'
| conf_ext t v h name t' : configured t → 0 ≤ v < 256 → h ≠ 0 → intr_register_ext v h name t = Ret (tt, t') → configured t'
| conf_int t v dpl intr_on h name t' : configured t → 0 ≤ v < 256 → h ≠ 0 →
    intr_register_int v dpl intr_on h name t = Ret (tt, t') → configured t'.

Definition gates_ok (A : list (Z * Z)) (H : list Z) : Prop :=
  ∀ v x h, A !! v = Some x → H !! v = Some h →
    (x.1 = 14 ∨ x.1 = 15) ∧ 0 ≤ x.2 ≤ 3 ∧ ((32 ≤ v ≤ 47)%nat ∨ h = 0 → x = (14, 0)).

Lemma gates_ok_insert A H v (b : bool) dpl h : gates_ok A H → 0 ≤ dpl ≤ 3 → h ≠ 0 → length A = 256%nat → length H = 256%nat →
  ((32 ≤ v ≤ 47)%nat → b = false ∧ dpl = 0) → gates_ok (<[v := (if b then 15 else 14, dpl)]> A) (<[v := h]> H).
Proof.
  intros HA Hd Hh HlA HlH Hext w x h' Hw Hh'. destruct (decide (w = v)) as [->|Hne].
  - assert (v < 256)%nat by (apply lookup_lt_Some in Hw; rewrite length_insert in Hw; lia).
    rewrite list_lookup_insert_eq in Hw by lia. rewrite list_lookup_insert_eq in Hh' by lia. injection Hw as <-. injection Hh' as <-. cbn.
    split; [destruct b; auto|]. split; [done|]. intros [Hv| ->]; [|done]. by destruct (Hext Hv) as [-> ->].
  - rewrite list_lookup_insert_ne in Hw by done. rewrite list_lookup_insert_ne in Hh' by done. by eapply HA.
Qed.

Lemma register_handler_inv t A H v dpl intr_on h name t' : table_rep t A H → 0 ≤ v < 256 →
  register_handler v dpl intr_on h name t = Ret (tt, t') → H !! Z.to_nat v = Some 0 ∧ 0 ≤ dpl ≤ 3.
Proof.
  intros (Hh&_&_&HH&_) Hv. unfold register_handler, bind at 1 2, get_state. rewrite Hh.
  destruct (lookup_lt_is_Some_2 H (Z.to_nat v)) as [h0 Hz]; [lia|]. rewrite Hz. cbn [deref]. unfold bind at 1, ret at 1, ASSERT.
  destruct (h0 =? 0) eqn:E0; [|done]. apply Z.eqb_eq in E0 as ->. intros Hr. split; [done|].
  destruct ((0 <=? dpl) && (dpl <=? 3)) eqn:Ed; [lia|]. exfalso. revert Hr.
  unfold bind, make_trap_gate, make_intr_gate, make_gate, bind, ASSERT. rewrite Ed.
  destruct intr_on; by destruct (intr_stubs v =? 0).
Qed.

Definition good (t : itable) : Prop := ∃ A H, table_rep t A H ∧ gates_ok A H.

Lemma good_init t t' : length (idt t) = 256%nat → length (intr_handlers t) = 256%nat → intr_init t = Ret (tt, t') → good t'.
Proof.
  intros Hl Hh Hi. pose proof (wp_result _ _ _ _ _ (intr_init_spec t Hl Hh) Hi) as Hw.
  exists (replicate 256 (14, 0)), (intr_handlers t). split; [exact Hw|].
  intros v x h [-> _]%lookup_replicate _. split; [by left|]. split; [cbn; lia|done].
Qed.

Lemma good_register t v dpl intr_on h name t' : good t → 0 ≤ v < 256 → h ≠ 0 →
  (0x20 ≤ v ≤ 0x2f → intr_on = false ∧ dpl = 0) → register_handler v dpl intr_on h name t = Ret (tt, t') → good t'.
Proof.
  intros (A&H&Hr&Hg) Hv Hh Hext Hs. pose proof Hr as (_&_&HA&HH&_).
  destruct (register_handler_inv _ _ _ _ _ _ _ _ _ Hr Hv Hs) as [Hz Hd].
  pose proof (wp_result _ _ _ _ _ (register_handler_spec t A H v dpl intr_on h name Hr Hv Hd Hz) Hs) as Hw.
  exists (<[Z.to_nat v := (if intr_on then 15 else 14, dpl)]> A), (<[Z.to_nat v := h]> H).
  split; [exact Hw|]. apply gates_ok_insert; [exact Hg|exact Hd|exact Hh|exact HA|exact HH|].
  intros Hx. apply Hext. clear -Hx Hv. lia.
Qed.

Lemma configured_good t : configured t → good t.
Proof.
  induction 1 as [t t' Hl Hh Hi|t v h name t' Ht IH Hv Hh Hs|t v dpl intr_on h name t' Ht IH Hv Hh Hs].
  - by eapply good_init.
  - unfold intr_register_ext, bind, ASSERT, ret in Hs. destruct ((0x20 <=? v) && (v <=? 0x2f)) eqn:E; [|done].
    cbv beta iota in Hs. eapply (good_register t v 0 false h name); [exact IH|done|done|done|exact Hs].
  - unfold intr_register_int, bind, ASSERT, ret in Hs. destruct ((v <? 0x20) || (0x2f <? v)) eqn:E; [|done].
    cbv beta iota in Hs. eapply (good_register t v dpl intr_on h name); [exact IH|done|done| |exact Hs].
    intros Hv'. apply orb_true_iff in E. lia.
Qed.

End Table.

(** C27: the interrupt table only ever holds gates to the entry stubs of their
    own vectors, in the kernel's code segment.  However handlers are
    registered after [intr_init], the gates of the external interrupts
    0x20..0x2f turn interrupts off on entry and cannot be invoked by user
    programs, as [intr_handler] assumes; a vector that user programs can invoke
    has a handler that was registered for it; and registering a handler twice
    stops the kernel. *)
Theorem interrupt_gates_invariant intr_stubs t : (∀ v, 0 ≤ v < 256 → 0 < intr_stubs v < 2 ^ 32) →
  configured intr_stubs t → ∀ v, 0 ≤ v < 256 → ∃ d h g, idt t !! Z.to_nat v = Some d ∧
    intr_handlers t !! Z.to_nat v = Some h ∧ gate_of d = g ∧
    g_offset g = intr_stubs v ∧ g_selector g = SEL_KCSEG ∧ g_present g = 1 ∧ (g_type g = 14 ∨ g_type g = 15) ∧
    (0x20 ≤ v ≤ 0x2f → g_type g = 14 ∧ g_dpl g = 0) ∧ (g_dpl g ≠ 0 → h ≠ 0) ∧
    (h ≠ 0 → ∀ dpl intr_on h' name, register_handler intr_stubs v dpl intr_on h' name t = Fail AssertFail).
Proof.
  intros Hst (A&H&Hr&Hg)%configured_good v Hv; [|done]. pose proof Hr as (Hh&_&HA&HH&Hgate).
  destruct (lookup_lt_is_Some_2 A (Z.to_nat v)) as [x Hx]; [lia|].
  destruct (lookup_lt_is_Some_2 H (Z.to_nat v)) as [h Hhv]; [lia|].
  destruct (Hgate _ _ Hx) as (d&Hd&E). destruct (Hg _ _ _ Hx Hhv) as (Hty&Hdpl&Hzero). rewrite Z2Nat.id in E by lia.
  exists d, h, (gate_of d). rewrite Hh, E. cbn. repeat (split; [done|]). split; [|split].
  - intros Hext. rewrite Hzero by lia. done.
  - intros Hn ->. rewrite Hzero in Hn by auto. done.
  - intros Hn dpl intr_on h' name. by eapply register_handler_twice.
Qed.

(** ** The kernel's own table *)

(** The registrations at start-up: timer, keyboard, exceptions, system calls,
    serial port and the two disk controllers. *)
Definition boot (intr_stubs : Z → Z) : M itable unit :=
  intr_init intr_stubs;;
  timer_init intr_stubs 1;;
  kbd_init intr_stubs 2;;
  exception_init intr_stubs 3 4;;
  syscall_init intr_stubs 5;;
  intr_register_ext intr_stubs (0x20 + 4) 6 "serial";;
  intr_register_ext intr_stubs (0x20 + 14) 7 "ide0";;
  intr_register_ext intr_stubs (0x20 + 15) 7 "ide1".

Definition empty_table : itable := mk_itable (replicate 256 0) (replicate 256 0) [] (replicate 256 0) [] [].
Definition sample_stubs (v : Z) : Z := 0xc0020000 + 16 * v.

(** User programs can invoke the breakpoint, overflow and bound exceptions and
    system calls, and nothing else. *)
Definition user_vector (d : Z) : bool := g_dpl (gate_of d) =? 3.
Example boot_user_vectors :
  match boot sample_stubs empty_table with
  | Ret (_, t) => map fst (filter (λ e, user_vector e.2 = true) (imap (λ v d, (v, d)) (idt t)))
  | Fail _ => []
  end = [3; 4; 5; 48]%nat.
Proof. by vm_compute. Qed.

Lemma interrupt_gates_invariant_witness :
  ∃ t, intr_init sample_stubs empty_table = Ret (tt, t) ∧ configured sample_stubs t ∧
    ∃ d h g, idt t !! 32%nat = Some d ∧ intr_handlers t !! 32%nat = Some h ∧ gate_of d = g ∧ g_type g = 14 ∧ g_dpl g = 0.
Proof.
  destruct (intr_init sample_stubs empty_table) as [[[] t]|] eqn:E; [|vm_compute in E; discriminate].
  assert (configured sample_stubs t) as Hc by (eapply conf_init; [| |exact E]; reflexivity).
  exists t. split; [reflexivity|]. split; [exact Hc|].
  assert (∀ v, 0 ≤ v < 256 → 0 < sample_stubs v < 2 ^ 32) as Hst by (unfold sample_stubs; lia).
  destruct (interrupt_gates_invariant sample_stubs t Hst Hc 32 ltac:(lia)) as (d&h&g&Hd&Hh&Hg&_&_&_&_&Hx&_).
  destruct (Hx ltac:(lia)) as [H1 H2]. exists d, h, g. exact (conj Hd (conj Hh (conj Hg (conj H1 H2)))).
Defined.

(** ** Exceptions (exception.c) *)

(** The members of [struct intr_frame] the handlers use. *)
Record frame := mk_frame { f_eip : Z; f_eax : Z; f_cs : Z; f_vec_no : Z; f_error_code : Z }.

Definition PF_P : Z := 0x1.
Definition PF_W : Z := 0x2.
Definition PF_U : Z := 0x4.

(** How a handler ends: back to the frame, or the thread exits ([status] is
    what was printed about it); a kernel panic is a failed assertion. *)
Inductive ending := Resume (f : frame) | Exited (known_segment : bool).

(** The state is the counter of page faults. *)
Definition kill (f : frame) : M Z ending :=
  if f_cs f =? SEL_UCSEG then ret (Exited true)
  else if f_cs f =? SEL_KCSEG then fail AssertFail
  else ret (Exited false).

(** The cause of the fault is computed and not used. *)
Definition page_fault (f : frame) : M Z ending :=
  modify (λ page_fault_cnt, s64 (page_fault_cnt + 1));;
  let not_present := Z.land (f_error_code f) PF_P =? 0 in
  let write := negb (Z.land (f_error_code f) PF_W =? 0) in
  let user := negb (Z.land (f_error_code f) PF_U =? 0) in
  ret (Resume (mk_frame (f_eax f) 0xffffffff (f_cs f) (f_vec_no f) (f_error_code f))).

(** A process whose instructions cannot be fetched faults again and again. *)
Fixpoint faults (n : nat) (f : frame) : M Z ending :=
  match n with
  | O => ret (Resume f)
  | S n =>
      e ← page_fault f;
      match e with Resume f' => faults n f' | Exited b => ret (Exited b) end
  end.

Definition spinning (f : frame) : Prop := f_eip f = 0xffffffff ∧ f_eax f = 0xffffffff.

Lemma faults_spinning n : ∀ f c, spinning f → wp (faults n f) c (λ e _, ∃ f', e = Resume f' ∧ spinning f').
Proof.
  induction n as [|n IH]; intros f c Hf; [apply wp_ret; by exists f|]. cbn [faults]. unfold page_fault. wp_steps.
  apply IH. destruct Hf as [_ He]. by split.
Qed.

(** A page fault of a user program is never fatal: the handler, made for the
    kernel's own accesses to user memory, resumes the program at the address in
    its register [eax], and from the second fault on at 0xffffffff, where the
    instruction fetch faults again, without end. *)
Theorem user_page_fault_spins f n c : f_cs f = SEL_UCSEG →
  wp (faults (2 + n) f) c (λ e _, ∃ f', e = Resume f' ∧ spinning f').
Proof.
  intros _. cbn [faults Nat.add]. unfold page_fault. wp_steps. by apply faults_spinning.
Qed.

(** The other exceptions of user programs do end the process. *)
Lemma user_exception_killed f c : f_cs f = SEL_UCSEG → kill f c = Ret (Exited true, c).
Proof. intros Hf. unfold kill. by rewrite Hf. Qed.
