(* ===== verification/Timer.v ===== *)
(** * Timer: calibration and short delays (devices/timer.c)

    The search for the number of loops per tick, and the conversion of real
    time into ticks or loops.  How long a loop takes is the hardware's: the
    answer of [too_many_loops] is a parameter.  Sleeping and the timer
    interrupt are in Thread and Synch. *)

From S2P Require Import Prelude Interrupt.
Local Open Scope Z_scope.
Ltac Zify.zify_post_hook ::= Z.to_euclidean_division_equations.

Definition TIMER_FREQ : Z := 100.

(** ** Calibration *)

Section Calibrate.
Variable too_many_loops : Z → bool.

(** The state is [loops_per_tick], 32 bits unsigned. *)
Fixpoint double_loop (fuel : nat) : M Z unit :=
  match fuel with
  | O => fail OutOfFuel
  | S fuel =>
      l ← get_state;
      if negb (too_many_loops (u32 (Z.shiftl l 1)))
      then
        put_state (u32 (Z.shiftl l 1));;
        l ← get_state;
        ASSERT (negb (l =? 0));;
        double_loop fuel
      else ret tt
  end.

Fixpoint refine_loop (fuel : nat) (test_bit stop : Z) : M Z unit :=
  match fuel with
  | O => fail OutOfFuel
  | S fuel =>
      if negb (test_bit =? stop)
      then
        l ← get_state;
        (if negb (too_many_loops (Z.lor l test_bit)) then put_state (Z.lor l test_bit) else ret tt);;
        refine_loop fuel (Z.shiftr test_bit 1) stop
      else ret tt
  end.

(** The width of the word is enough for both loops. *)
Definition timer_calibrate (intr_on : bool) : M Z unit :=
  ASSERT intr_on;;
  put_state (Z.shiftl 1 10);;
  double_loop 32;;
  high_bit ← get_state;
  refine_loop 32 (Z.shiftr high_bit 1) (Z.shiftr high_bit 10).

(** A longer loop takes longer; the shortest one tried fits in a tick, and some
    32-bit number does not. *)
Hypothesis monotone : ∀ x y, 0 ≤ x ≤ y → too_many_loops x = true → too_many_loops y = true.
Hypothesis short_fits : too_many_loops (2 ^ 10) = false.

Lemma double_spec n : ∀ m fuel, (n < fuel)%nat → 0 ≤ m → m + Z.of_nat n < 31 → too_many_loops (2 ^ m) = false →
  too_many_loops (2 ^ (m + Z.of_nat n + 1)) = true →
  wp (double_loop fuel) (2 ^ m) (λ _ l, ∃ h, m ≤ h ≤ m + Z.of_nat n ∧ l = 2 ^ h ∧
    too_many_loops (2 ^ h) = false ∧ too_many_loops (2 ^ (h + 1)) = true).
Proof.
  induction n as [|n IH]; intros m fuel Hf Hm Hn Hlo Hhi; (destruct fuel as [|fuel]; [lia|]); cbn [double_loop]; wp_steps;
    rewrite Z.shiftl_mul_pow2, <- Z.pow_add_r, u32_small by (lia || (split; [apply Z.pow_nonneg; lia|apply Z.pow_lt_mono_r; lia])).
  - replace (m + Z.of_nat 0 + 1) with (m + 1) in Hhi by lia. rewrite Hhi. wp_steps. exists m. auto with lia.
  - destruct (too_many_loops (2 ^ (m + 1))) eqn:E; cbn [negb]; wp_steps; [exists m; auto with lia|].
    assert ((2 ^ (m + 1) =? 0) = false) as -> by (apply Z.eqb_neq, Z.pow_nonzero; lia). wp_steps.
    eapply wp_mono; [apply (IH (m + 1)); try done; try lia|].
    + replace (m + 1 + Z.of_nat n + 1) with (m + Z.of_nat (S n) + 1) by lia. done.
    + intros [] l (h&Hh&Hl). exists h. split; [lia|done].
Qed.

Lemma refine_spec n : ∀ j l fuel, (n < fuel)%nat → Z.of_nat n ≤ j → j < 31 → 0 ≤ l < 2 ^ 32 →
  l mod 2 ^ j = 0 → l + 2 ^ j ≤ 2 ^ 32 → too_many_loops l = false → too_many_loops (l + 2 ^ j) = true →
  wp (refine_loop fuel (2 ^ j / 2) (2 ^ (j - Z.of_nat n) / 2)) l (λ _ r,
    l ≤ r < l + 2 ^ j ∧ too_many_loops r = false ∧ too_many_loops (r + 2 ^ (j - Z.of_nat n)) = true).
Proof.
  induction n as [|n IH]; intros j l fuel Hf Hn Hj Hl Hmod Hmax Hlo Hhi; (destruct fuel as [|fuel]; [lia|]); cbn [refine_loop].
  - replace (j - Z.of_nat 0) with j by lia. rewrite Z.eqb_refl. wp_steps. split; [|done].
    pose proof (Z.pow_pos_nonneg 2 j ltac:(lia) ltac:(lia)). lia.
  - assert (2 ^ j = 2 * 2 ^ (j - 1)) as Ej by (rewrite <- Z.pow_succ_r by lia; f_equal; lia).
    assert (2 ^ j / 2 = 2 ^ (j - 1)) as -> by (rewrite Ej; lia).
    assert (0 < 2 ^ (j - 1)) as Hp by (apply Z.pow_pos_nonneg; lia).
    assert (2 ^ (j - Z.of_nat (S n)) / 2 < 2 ^ (j - 1)) as Hlt.
    { apply Z.div_lt_upper_bound; [lia|]. rewrite <- Ej. apply Z.pow_lt_mono_r; lia. }
    assert ((2 ^ (j - 1) =? 2 ^ (j - Z.of_nat (S n)) / 2) = false) as -> by (apply Z.eqb_neq; intros Heq; rewrite <- Heq in Hlt; by apply Z.lt_irrefl in Hlt). cbn [negb]. wp_steps.
    rewrite (lor_low j) by lia. rewrite Z.shiftr_div_pow2 by lia. change (2 ^ 1) with 2.
    assert (l mod 2 ^ (j - 1) = 0 ∧ (l + 2 ^ (j - 1)) mod 2 ^ (j - 1) = 0) as [Hm1 Hm2].
    { apply Z.mod_divide in Hmod as [q Hq]; [|lia]. rewrite Hq, Ej. split; apply Z.mod_divide; try lia.
      - exists (2 * q). lia.
      - exists (2 * q + 1). lia. }
    replace (j - Z.of_nat (S n)) with (j - 1 - Z.of_nat n) by lia.
    destruct (too_many_loops (l + 2 ^ (j - 1))) eqn:E; cbn [negb]; wp_steps.
    + eapply wp_mono; [apply (IH (j - 1) l); try done; lia|]. intros [] r (Hr&Hr1&Hr2). split; [lia|done].
    + eapply wp_mono; [apply (IH (j - 1) (l + 2 ^ (j - 1))); try done; try lia|].
      * by replace (l + 2 ^ (j - 1) + 2 ^ (j - 1)) with (l + 2 ^ j) by lia.
      * intros [] r (Hr&Hr1&Hr2). split; [lia|done].
Qed.

End Calibrate.

(** [timer_calibrate] returns with the largest number of loops that fits in a
    tick, up to a relative error of one part in 512: the search refines nine
    bits below the highest (the comment says eight). *)
Theorem timer_calibrate_precise too_many_loops l0 :
  (∀ x y, 0 ≤ x ≤ y → too_many_loops x = true → too_many_loops y = true) →
  too_many_loops (2 ^ 10) = false → too_many_loops (2 ^ 31) = true →
  wp (timer_calibrate too_many_loops true) l0 (λ _ l, ∃ h, 10 ≤ h < 31 ∧ 2 ^ h ≤ l < 2 ^ (h + 1) ∧
    too_many_loops l = false ∧ too_many_loops (l + 2 ^ (h - 9)) = true).
Proof.
  intros Hmono Hlo Hhi. unfold timer_calibrate. wp_steps. change (Z.shiftl 1 10) with (2 ^ 10).
  eapply wp_mono; [apply (double_spec _ 20 10); try done; lia|].
  intros [] l (h&Hh&->&Hl&Hu). cbv beta. wp_steps. rewrite !Z.shiftr_div_pow2 by lia. change (2 ^ 1) with 2.
  assert (2 ^ h / 2 ^ 10 = 2 ^ (h - Z.of_nat 9) / 2) as ->.
  { replace (2 ^ 10) with (2 ^ 9 * 2) by done. rewrite <- Z.div_div by lia. f_equal. by rewrite <- Z.pow_sub_r by lia. }
  assert (2 ^ (h + 1) = 2 ^ h + 2 ^ h) as E by (rewrite Z.pow_add_r by lia; lia).
  assert (0 < 2 ^ h) by (apply Z.pow_pos_nonneg; lia).
  assert (2 ^ h ≤ 2 ^ 30) by (apply Z.pow_le_mono_r; lia).
  eapply wp_mono; [apply (refine_spec _ 9 h (2 ^ h)); try done; try lia|].
  - by apply Z_mod_same_full.
  - by rewrite <- E.
  - intros [] l (Hr&H1&H2). exists h. split; [lia|]. split; [lia|]. split; [done|]. exact H2.
Qed.

(** ** Real time *)

(** What the caller ends up doing: sleeping for some ticks, or looping. *)
Inductive delay := Sleep (ticks : Z) | Loop (loops : Z).

Section RealTime.
Context {S : Type}.

(** C divisions truncate; the arithmetic is on 64-bit signed numbers. *)
Definition real_time_delay (loops_per_tick num denom : Z) : M S delay :=
  ASSERT (Z.rem denom 1000 =? 0);;
  ret (Loop (Z.quot (s64 (Z.quot (s64 (loops_per_tick * num)) 1000 * TIMER_FREQ)) (Z.quot denom 1000))).

Definition real_time_sleep (intr_on : bool) (loops_per_tick num denom : Z) : M S delay :=
  let ticks := Z.quot (s64 (num * TIMER_FREQ)) denom in
  ASSERT intr_on;;
  if 0 <? ticks then ret (Sleep ticks) else real_time_delay loops_per_tick num denom.

Definition timer_msleep (on : bool) (lpt ms : Z) : M S delay := real_time_sleep on lpt ms 1000.
Definition timer_usleep (on : bool) (lpt us : Z) : M S delay := real_time_sleep on lpt us (1000 * 1000).
Definition timer_nsleep (on : bool) (lpt ns : Z) : M S delay := real_time_sleep on lpt ns (1000 * 1000 * 1000).
Definition timer_mdelay (lpt ms : Z) : M S delay := real_time_delay lpt ms 1000.
Definition timer_udelay (lpt us : Z) : M S delay := real_time_delay lpt us (1000 * 1000).
Definition timer_ndelay (lpt ns : Z) : M S delay := real_time_delay lpt ns (1000 * 1000 * 1000).

(** A sleep is the whole ticks in the time asked for; what is shorter than a
    tick is a loop that does not outlast a tick. *)
Theorem real_time_sleep_bounds (s : S) lpt num unit : is_u32 lpt → 0 ≤ num → num * TIMER_FREQ < 2 ^ 63 →
  unit = 1 ∨ unit = 1000 ∨ unit = 1000 * 1000 →
  wp (real_time_sleep true lpt num (1000 * unit)) s (λ d s', s' = s ∧
    match d with
    | Sleep ticks => 0 < ticks ∧ ticks * (1000 * unit) ≤ num * TIMER_FREQ < (ticks + 1) * (1000 * unit)
    | Loop loops => num * TIMER_FREQ < 1000 * unit ∧ 0 ≤ loops ≤ lpt ∧ loops * (1000 * unit) ≤ lpt * num * TIMER_FREQ
    end).
Proof.
  intros Hl Hn Hov Hu. unfold real_time_sleep, TIMER_FREQ in *. assert (0 < unit) by lia.
  rewrite s64_small by word_lia. wp_steps. rewrite (Z.quot_div_nonneg (num * 100)) by lia.
  set (q := num * 100 / (1000 * unit)). pose proof (Z.div_mod (num * 100) (1000 * unit) ltac:(lia)) as Hq. fold q in Hq.
  pose proof (Z.mod_pos_bound (num * 100) (1000 * unit) ltac:(lia)) as Hm. destruct (0 <? q) eqn:E.
  - wp_steps. split; [done|]. nia.
  - assert (0 ≤ q) by (apply Z.div_pos; lia). assert (q = 0) as -> by lia. assert (num * 100 < 1000 * unit) as Hlt by lia.
    clear Hq Hm. unfold real_time_delay, TIMER_FREQ.
    assert (Z.rem (1000 * unit) 1000 = 0) as -> by (rewrite Z.mul_comm; apply Z.rem_mul; lia). wp_steps. split; [done|]. split; [done|].
    assert (Z.quot (1000 * unit) 1000 = unit) as -> by (rewrite Z.mul_comm; apply Z.quot_mul; lia).
    unfold is_u32 in Hl. assert (0 ≤ lpt * num) as Hb0 by (apply Z.mul_nonneg_nonneg; lia).
    assert (lpt * num ≤ lpt * (10 * unit)) as Hb by (apply Z.mul_le_mono_nonneg_l; lia).
    assert (lpt * num ≤ 2 ^ 32 * 10000000) by (apply Z.mul_le_mono_nonneg; lia).
    rewrite (s64_small (lpt * num)) by word_lia. rewrite (Z.quot_div_nonneg (lpt * num)) by lia.
    set (x := lpt * num / 1000). assert (0 ≤ x ∧ x * 1000 ≤ lpt * num) as [Hx0 Hx].
    { subst x. split; [apply Z.div_pos; lia|]. pose proof (Z.mul_div_le (lpt * num) 1000). lia. }
    rewrite s64_small by word_lia. rewrite Z.quot_div_nonneg by lia.
    set (y := x * 100 / unit). assert (0 ≤ y ∧ y * unit ≤ x * 100) as [Hy0 Hy].
    { subst y. split; [apply Z.div_pos; lia|]. pose proof (Z.mul_div_le (x * 100) unit). lia. }
    clearbody x y. split; [|nia]. split; [done|]. nia.
Qed.

End RealTime.
