(* ===== verification/Pit.v ===== *)
(** * Programmable timer, speaker and clock (devices/pit.c, speaker.c, rtc.c)

    The bytes the drivers send to the timer's ports, the gate of the speaker,
    and the conversion of the real time clock's registers into seconds.  The
    ports are those of the hardware: what is written to the timer is kept as
    the list of bytes in order, and the clock is a stream of register reads. *)

From S2P Require Import Prelude.
Local Open Scope Z_scope.
Ltac Zify.zify_post_hook ::= Z.to_euclidean_division_equations.

(** ** Ports and the interrupt level *)
Record ports := mk_ports {
  sent : list (Z * Z);   (** bytes written to the timer's ports, oldest first *)
  gate : Z;              (** what port 0x61 reads as *)
  intr_on : bool;
  beeps : nat            (** tones of [speaker_beep] that were played to their end *)
}.

Definition PIT_PORT_CONTROL : Z := 0x43.
Definition PIT_PORT_COUNTER (channel : Z) : Z := 0x40 + channel.
Definition PIT_HZ : Z := 1193180.
Definition SPEAKER_PORT_GATE : Z := 0x61.
Definition SPEAKER_GATE_ENABLE : Z := 0x03.

Definition outb (port data : Z) : M ports unit :=
  modify (λ s, if bool_decide (port = SPEAKER_PORT_GATE) then mk_ports (sent s) (u8 data) (intr_on s) (beeps s)
               else mk_ports (sent s ++ [(port, u8 data)]) (gate s) (intr_on s) (beeps s)).

Definition intr_set_level (on : bool) : M ports bool :=
  s ← get_state;
  put_state (mk_ports (sent s) (gate s) on (beeps s));;
  ret (intr_on s).
Definition intr_disable : M ports bool := intr_set_level false.

(** ** devices/pit.c *)

(** The value of [count], a 16-bit number; a C division truncates. *)
Definition pit_count (frequency : Z) : Z :=
  if frequency <? 19 then 0
  else if PIT_HZ <? frequency then 2
  else Z.quot (PIT_HZ + Z.quot frequency 2) frequency mod 2 ^ 16.

Definition pit_configure_channel (channel mode frequency : Z) : M ports unit :=
  ASSERT (bool_decide (channel = 0 ∨ channel = 2));;
  ASSERT (bool_decide (mode = 2 ∨ mode = 3));;
  let count := pit_count frequency in
  old_level ← intr_disable;
  outb PIT_PORT_CONTROL (Z.lor (Z.lor (Z.shiftl channel 6) 0x30) (Z.shiftl mode 1));;
  outb (PIT_PORT_COUNTER channel) count;;
  outb (PIT_PORT_COUNTER channel) (Z.shiftr count 8);;
  intr_set_level old_level;;
  ret tt.

(** ** devices/speaker.c *)

Definition speaker_off : M ports unit :=
  old_level ← intr_disable;
  g ← gets gate;
  outb SPEAKER_PORT_GATE (Z.land g (Z.lnot SPEAKER_GATE_ENABLE));;
  intr_set_level old_level;;
  ret tt.

Definition speaker_on (frequency : Z) : M ports unit :=
  if bool_decide (20 ≤ frequency ∧ frequency ≤ 20000)
  then
    old_level ← intr_disable;
    pit_configure_channel 2 3 frequency;;
    g ← gets gate;
    outb SPEAKER_PORT_GATE (Z.lor g SPEAKER_GATE_ENABLE);;
    intr_set_level old_level;;
    ret tt
  else speaker_off.

(** [timer_msleep (250)] lets the tone sound: the thread sleeps, with
    interrupts on, and comes back to the same ports. *)
Definition timer_msleep : M ports unit :=
  s ← get_state;
  ASSERT (intr_on s);;
  modify (λ s, mk_ports (sent s) (gate s) (intr_on s) (S (beeps s))).

Definition speaker_beep : M ports unit :=
  s ← get_state;
  if intr_on s
  then speaker_on 440;; timer_msleep;; speaker_off
  else ret tt.

(** ** devices/rtc.c *)

Definition bcd_to_bin (x : Z) : Z := Z.land x 0x0f + Z.shiftr x 4 * 10.

Definition days_per_month : list Z := [31; 28; 31; 30; 31; 30; 31; 31; 30; 31; 30; 31].

(** The clock as [cmos_read] sees it: the byte each register gives, read after
    read. *)
Record clock := mk_clock { reads : nat; register : nat → Z → Z }.
Definition RTC_REG_SEC : Z := 0.
Definition RTC_REG_MIN : Z := 2.
Definition RTC_REG_HOUR : Z := 4.
Definition RTC_REG_MDAY : Z := 7.
Definition RTC_REG_MON : Z := 8.
Definition RTC_REG_YEAR : Z := 9.

Definition cmos_read (index : Z) : M clock Z :=
  s ← get_state;
  put_state (mk_clock (S (reads s)) (register s));;
  ret (u8 (register s (reads s) index)).

(** The [do] loop, until two reads of the seconds agree. *)
Fixpoint read_components (fuel : nat) : M clock (Z * Z * Z * Z * Z * Z) :=
  match fuel with
  | O => fail OutOfFuel
  | S fuel =>
      sec ← cmos_read RTC_REG_SEC;
      min ← cmos_read RTC_REG_MIN;
      hour ← cmos_read RTC_REG_HOUR;
      mday ← cmos_read RTC_REG_MDAY;
      mon ← cmos_read RTC_REG_MON;
      year ← cmos_read RTC_REG_YEAR;
      again ← cmos_read RTC_REG_SEC;
      if bool_decide (bcd_to_bin sec ≠ bcd_to_bin again) then read_components fuel
      else ret (bcd_to_bin sec, bcd_to_bin min, bcd_to_bin hour, bcd_to_bin mday, bcd_to_bin mon, bcd_to_bin year)
  end.

(** [for (i = 1; i <= mon; i++)]: an index past the table is an access out of
    bounds. *)
Fixpoint add_months (n i : nat) (time : Z) : M clock Z :=
  match n with
  | O => ret time
  | S n =>
      days ← deref (days_per_month !! (i - 1)%nat);
      add_months n (S i) (s32 (time + days * 24 * 60 * 60))
  end.

(** Years since 1970. *)
Definition epoch_year (year : Z) : Z := (if year <? 70 then year + 100 else year) - 70.

(** The arithmetic of [rtc_get_time], on a [time_t] of 32 bits. *)
Definition seconds_of (sec min hour mday mon year : Z) : M clock Z :=
  let year := epoch_year year in
  let time := s32 ((year * 365 + Z.quot (year - 1) 4) * 24 * 60 * 60) in
  time ← add_months (Z.to_nat mon) 1 time;
  let time := if bool_decide (2 < mon ∧ Z.rem year 4 = 0) then s32 (time + 24 * 60 * 60) else time in
  let time := s32 (time + (mday - 1) * 24 * 60 * 60) in
  let time := s32 (time + hour * 60 * 60) in
  let time := s32 (time + min * 60) in
  ret (s32 (time + sec)).

Definition rtc_get_time (fuel : nat) : M clock Z :=
  '(sec, min, hour, mday, mon, year) ← read_components fuel;
  seconds_of sec min hour mday mon year.

(** ** The timer's count *)

(** The count is the quotient rounded to the nearest integer, and fits the
    16-bit counter. *)
Lemma pit_count_nearest f : 19 ≤ f ≤ PIT_HZ →
  2 * Z.abs (pit_count f * f - PIT_HZ) ≤ f ∧ 1 ≤ pit_count f < 2 ^ 16.
Proof.
  unfold pit_count, PIT_HZ. intros Hf. assert ((f <? 19) = false) as -> by lia.
  assert ((1193180 <? f) = false) as -> by lia.
  rewrite !Z.quot_div_nonneg by (first [lia | apply Z.add_nonneg_nonneg; [lia|apply Z.quot_pos; lia]]).
  set (q := (1193180 + f / 2) / f). assert (1 ≤ q < 2 ^ 16).
  { unfold q. split; [apply Z.div_le_lower_bound; lia|apply Z.div_lt_upper_bound; lia]. }
  rewrite Z.mod_small by lia. split; [|done].
  pose proof (Z.div_mod (1193180 + f / 2) f ltac:(lia)) as Hd. fold q in Hd.
  pose proof (Z.mod_pos_bound (1193180 + f / 2) f ltac:(lia)). 
  pose proof (Z.div_mod f 2 ltac:(lia)). pose proof (Z.mod_pos_bound f 2 ltac:(lia)). nia.
Qed.

(** Near [PIT_HZ] the count is 1, which the comment calls illegal in mode 2. *)
Lemma pit_count_one f : 795454 ≤ f ≤ PIT_HZ → pit_count f = 1.
Proof.
  unfold pit_count, PIT_HZ. intros Hf. assert ((f <? 19) = false) as -> by lia.
  assert ((1193180 <? f) = false) as -> by lia.
  rewrite !Z.quot_div_nonneg by (first [lia | apply Z.add_nonneg_nonneg; [lia|apply Z.quot_pos; lia]]).
  replace ((1193180 + f / 2) / f) with 1; [done|]. apply Z.div_unique with (1193180 + f / 2 - f); lia.
Qed.

(** The two bytes sent are the count, low byte first, and nothing else
    changes: the interrupt level is restored. *)
Lemma pit_configure_spec s channel mode f : (channel = 0 ∨ channel = 2) → (mode = 2 ∨ mode = 3) →
  wp (pit_configure_channel channel mode f) s (λ _ s',
    gate s' = gate s ∧ intr_on s' = intr_on s ∧ beeps s' = beeps s ∧
    ∃ control lo hi, sent s' = sent s ++ [(PIT_PORT_CONTROL, control); (PIT_PORT_COUNTER channel, lo);
      (PIT_PORT_COUNTER channel, hi)] ∧ lo + 256 * hi = pit_count f).
Proof.
  intros Hc Hm. unfold pit_configure_channel.
  rewrite (bool_decide_true _ Hc), (bool_decide_true _ Hm). wp_steps.
  assert (0 ≤ pit_count f < 2 ^ 16) as Hr.
  { unfold pit_count. destruct (f <? 19); [lia|]. destruct (PIT_HZ <? f); [lia|]. apply Z.mod_pos_bound. lia. }
  unfold intr_disable, intr_set_level, outb. wp_steps.
  assert (∀ A (x y : A), (if bool_decide (PIT_PORT_COUNTER channel = SPEAKER_PORT_GATE) then x else y) = y) as E.
  { intros. rewrite bool_decide_false; [done|]. unfold PIT_PORT_COUNTER, SPEAKER_PORT_GATE. lia. }
  rewrite !E, (bool_decide_false (PIT_PORT_CONTROL = _)) by done. cbn. repeat (split; [done|]). do 3 eexists. split; [rewrite <- !app_assoc; reflexivity|].
  unfold u8. rewrite Z.shiftr_div_pow2 by lia. lia.
Qed.

(** ** The calendar *)

(** Decimal digits in one byte, the format of the clock's registers. *)
Definition to_bcd (n : Z) : Z := n / 10 * 16 + n mod 10.

Lemma bcd_roundtrip n : 0 ≤ n < 100 → bcd_to_bin (u8 (to_bcd n)) = n.
Proof.
  intros Hn. unfold bcd_to_bin, to_bcd, u8. rewrite Z.mod_small by lia.
  change 0x0f with (Z.ones 4). rewrite Z.land_ones, Z.shiftr_div_pow2 by lia. lia.
Qed.

(** The Gregorian calendar, as the reference. *)
Definition leap (y : Z) : bool := (y mod 4 =? 0) && (negb (y mod 100 =? 0) || (y mod 400 =? 0)).
Definition year_days (y : Z) : Z := if leap y then 366 else 365.
Definition month_days (y : Z) (m : nat) : Z :=
  nth (m - 1) days_per_month 0 + (if leap y && (m =? 2)%nat then 1 else 0).
(** Days from January 1, 1970 to day [d] of month [m] of the year 1970 + [n]. *)
Definition calendar_days (n m : nat) (d : Z) : Z :=
  foldr Z.add 0 (map (λ i, year_days (1970 + Z.of_nat i)) (seq 0 n))
  + foldr Z.add 0 (map (month_days (1970 + Z.of_nat n)) (seq 1 (m - 1))) + (d - 1).
Definition calendar_seconds (n m : nat) (d hour min sec : Z) : Z :=
  calendar_days n m d * 86400 + hour * 3600 + min * 60 + sec.

(** The days the code counts before the month it is in. *)
Definition code_days (n m : nat) : Z :=
  Z.of_nat n * 365 + Z.quot (Z.of_nat n - 1) 4 + foldr Z.add 0 (take m days_per_month)
  + (if bool_decide (2 < Z.of_nat m ∧ Z.rem (Z.of_nat n) 4 = 0) then 1 else 0).

(** In the years the 32-bit [time_t] covers the code is late by a month, give
    or take the days its leap years are off. *)
Lemma code_days_late : ∀ n m, (n < 68)%nat → (1 ≤ m ≤ 12)%nat →
  27 ≤ code_days n m - calendar_days n m 1 ≤ 32.
Proof.
  assert (∀ n, n ∈ seq 0 68 → ∀ m, m ∈ seq 1 12 →
    bool_decide (27 ≤ code_days n m - calendar_days n m 1 ≤ 32) = true) as H.
  { intros n Hn m Hm. revert n Hn m Hm. do 2 setoid_rewrite <- Forall_forall.
    apply (bool_decide_unpack _). by vm_compute. }
  intros n m Hn Hm. eapply bool_decide_eq_true_1, H; apply elem_of_seq; lia.
Qed.

Lemma s32_s32_add x y : s32 (s32 x + y) = s32 (x + y).
Proof.
  assert (u32 (s32 x + y) = u32 (x + y)) as E; [|by unfold s32 at 1 3; rewrite E].
  unfold s32, u32. destruct (_ <=? _).
  - replace (x mod 2 ^ 32 - 2 ^ 32 + y) with (x mod 2 ^ 32 + y + (-1) * 2 ^ 32) by lia.
    rewrite Z_mod_plus_full. by rewrite Zplus_mod_idemp_l.
  - by rewrite Zplus_mod_idemp_l.
Qed.

Lemma add_months_spec n : ∀ i x s, (1 ≤ i)%nat → (n + i ≤ 13)%nat →
  add_months n i (s32 x) s = Ret (s32 (x + 86400 * foldr Z.add 0 (take n (drop (i - 1) days_per_month))), s).
Proof.
  induction n as [|n IH]; intros i x s Hi Hn; [cbn [add_months take foldr]; by rewrite Z.mul_0_r, Z.add_0_r|].
  cbn [add_months]. unfold bind.
  destruct (lookup_lt_is_Some_2 days_per_month (i - 1)) as [d Hd]; [cbn; lia|].
  rewrite Hd. cbn [deref ret]. rewrite s32_s32_add, (IH (S i)) by lia.
  rewrite (drop_S _ _ _ Hd). replace (S i - 1)%nat with (S (i - 1)) by lia.
  cbn [take foldr]. do 3 f_equal. lia.
Qed.

Lemma seconds_of_spec n m d hour min sec s : (n < 67)%nat → (1 ≤ m ≤ 12)%nat → 1 ≤ d ≤ 31 →
  0 ≤ hour < 24 → 0 ≤ min < 60 → 0 ≤ sec < 60 →
  seconds_of sec min hour d (Z.of_nat m) ((70 + Z.of_nat n) mod 100) s
  = Ret ((code_days n m + (d - 1)) * 86400 + hour * 3600 + min * 60 + sec, s).
Proof.
  intros Hn Hm Hd Hh Hi Hs. unfold seconds_of.
  assert (epoch_year ((70 + Z.of_nat n) mod 100) = Z.of_nat n) as ->.
  { unfold epoch_year. destruct (_ <? _) eqn:E; lia. }
  unfold bind at 1. rewrite Nat2Z.id, add_months_spec by lia.
  change (drop (1 - 1) days_per_month) with days_per_month.
  set (D := foldr Z.add 0 (take m days_per_month)). unfold ret. f_equal. f_equal.
  assert (0 ≤ D ≤ 365) as HD.
  { assert (m ∈ seq 1 12) as Hin by (apply elem_of_seq; lia). subst D. revert m Hin Hm.
    cut (Forall (λ m, 0 ≤ foldr Z.add 0 (take m days_per_month) ≤ 365) (seq 1 12)).
    { intros H m Hin _. by eapply Forall_forall in H. }
    apply (bool_decide_unpack _). by vm_compute. }
  unfold code_days. fold D. case_bool_decide; repeat (rewrite s32_s32_add, <- ?Z.add_assoc);
    rewrite s32_small; unfold is_s32; lia.
Qed.

(** A clock that stands still while it is read, at a date of the years 1970
    to 2036. *)
Definition showing (n m : nat) (d hour min sec : Z) : clock :=
  mk_clock 0 (λ _ r, if r =? RTC_REG_SEC then to_bcd sec else if r =? RTC_REG_MIN then to_bcd min
    else if r =? RTC_REG_HOUR then to_bcd hour else if r =? RTC_REG_MDAY then to_bcd d
    else if r =? RTC_REG_MON then to_bcd (Z.of_nat m) else to_bcd ((70 + Z.of_nat n) mod 100)).

(** Whatever the date, [rtc_get_time] returns after one round, with a time
    that is 27 to 32 days later than the calendar's: the month that has not
    passed is counted, and the leap years are those of a year that started at
    0. *)
Theorem rtc_get_time_late n m d hour min sec : (n < 67)%nat → (1 ≤ m ≤ 12)%nat → 1 ≤ d ≤ 31 →
  0 ≤ hour < 24 → 0 ≤ min < 60 → 0 ≤ sec < 60 →
  wp (rtc_get_time 1) (showing n m d hour min sec) (λ t _,
    calendar_seconds n m d hour min sec + 27 * 86400 ≤ t ≤ calendar_seconds n m d hour min sec + 32 * 86400).
Proof.
  intros Hn Hm Hd Hh Hi Hs. unfold rtc_get_time, read_components, cmos_read. wp_steps. cbn [register showing reads].
  rewrite bool_decide_false by tauto. wp_steps.
  change (RTC_REG_MIN =? RTC_REG_SEC) with false. cbn [Z.eqb]. 
  eapply wp_run; [cbn -[seconds_of bcd_to_bin u8]; rewrite !bcd_roundtrip by lia; by apply seconds_of_spec|].
  cbv beta. pose proof (code_days_late n m ltac:(lia) Hm). unfold calendar_seconds, calendar_days in *. lia.
Qed.
