(* ===== verification/Vga.v ===== *)
(** * The text display (devices/vga.c)

    The frame buffer as the bytes it is, the software and the hardware cursor,
    and the handling of control characters.  The theorems relate the screen to
    a sheet of paper without a lower end: the screen always shows its last
    rows. *)

From S2P Require Import Prelude Vaddr Pit.
Local Open Scope Z_scope.
Ltac Zify.zify_post_hook ::= Z.to_euclidean_division_equations.

(** ** Data *)

Definition COL_CNT : Z := 80.
Definition ROW_CNT : Z := 25.
Definition GRAY_ON_BLACK : Z := 0x07.

(** The static variables of vga.c, the 4000 bytes [fb] points to, the cursor
    registers 0x0e (high byte) and 0x0f (low byte) of the display, and the ports of the
    speaker with the interrupt level. *)
Record vga := mk_vga {
  inited : bool;
  cx : Z;
  cy : Z;
  fb : list Z;
  hw_high : Z;
  hw_low : Z;
  io : ports
}.

Definition set_cx (v : Z) : M vga unit :=
  modify (λ s, mk_vga (inited s) v (cy s) (fb s) (hw_high s) (hw_low s) (io s)).
Definition set_cy (v : Z) : M vga unit :=
  modify (λ s, mk_vga (inited s) (cx s) v (fb s) (hw_high s) (hw_low s) (io s)).
Definition set_fb (v : list Z) : M vga unit :=
  modify (λ s, mk_vga (inited s) (cx s) (cy s) v (hw_high s) (hw_low s) (io s)).

(** [outw (0x3d4, data)]: the low byte selects a register of the display, the
    high byte is stored in it. *)
Definition outw_3d4 (data : Z) : M vga unit :=
  modify (λ s,
    let v := Z.shiftr data 8 mod 2 ^ 8 in
    if bool_decide (Z.land data 0xff = 0x0e) then mk_vga (inited s) (cx s) (cy s) (fb s) v (hw_low s) (io s)
    else if bool_decide (Z.land data 0xff = 0x0f) then mk_vga (inited s) (cx s) (cy s) (fb s) (hw_high s) v (io s)
    else s).

(** A call of the speaker or the interrupt level. *)
Definition with_io {A} (c : M ports A) : M vga A :=
  λ s, match c (io s) with
       | Ret (a, p) => Ret (a, mk_vga (inited s) (cx s) (cy s) (fb s) (hw_high s) (hw_low s) p)
       | Fail f => Fail f
       end.

(** ** Operations *)

(** [fb[y][x][k] = v] *)
Definition poke (y x k v : Z) : M vga unit :=
  s ← get_state;
  let off := (y * COL_CNT + x) * 2 + k in
  if bool_decide (0 ≤ off < Z.of_nat (length (fb s)))
  then set_fb (<[Z.to_nat off := u8 v]> (fb s))
  else fail BadAccess.

Fixpoint clear_row_loop (n : nat) (x y : Z) : M vga unit :=
  match n with
  | O => ret tt
  | S n =>
      poke y x 0 32;;
      poke y x 1 GRAY_ON_BLACK;;
      clear_row_loop n (x + 1) y
  end.
Definition clear_row (y : Z) : M vga unit := clear_row_loop (Z.to_nat COL_CNT) 0 y.

(** [cp] has 16 bits. *)
Definition move_cursor : M vga unit :=
  s ← get_state;
  let cp := u32 (cx s + COL_CNT * cy s) mod 2 ^ 16 in
  outw_3d4 (Z.lor 0x0e (Z.land cp 0xff00));;
  outw_3d4 (Z.lor 0x0f (Z.shiftl cp 8) mod 2 ^ 16).

Definition find_cursor : M vga (Z * Z) :=
  s ← get_state;
  let cp := Z.lor (Z.shiftl (hw_high s) 8) (hw_low s) in
  ret (cp mod COL_CNT, cp / COL_CNT).

Fixpoint clear_rows (n : nat) (y : Z) : M vga unit :=
  match n with
  | O => ret tt
  | S n => clear_row y;; clear_rows n (y + 1)
  end.

Definition cls : M vga unit :=
  clear_rows (Z.to_nat ROW_CNT) 0;;
  set_cy 0;;
  set_cx 0;;
  move_cursor.

(** [memmove (&fb[0], &fb[1], n)] *)
Definition scroll_up (n : nat) : M vga unit :=
  s ← get_state;
  let row := Z.to_nat (2 * COL_CNT) in
  if bool_decide (row + n ≤ length (fb s))%nat
  then set_fb (take n (drop row (fb s)) ++ drop n (fb s))
  else fail BadAccess.

Definition newline : M vga unit :=
  set_cx 0;;
  s ← get_state;
  set_cy (u32 (cy s + 1));;
  s ← get_state;
  if ROW_CNT <=? cy s
  then
    set_cy (ROW_CNT - 1);;
    scroll_up (Z.to_nat (2 * COL_CNT * (ROW_CNT - 1)));;
    clear_row (ROW_CNT - 1)
  else ret tt.

Definition init : M vga unit :=
  s ← get_state;
  if inited s then ret tt
  else
    '(x, y) ← find_cursor;
    set_cx x;;
    set_cy y;;
    modify (λ s, mk_vga true (cx s) (cy s) (fb s) (hw_high s) (hw_low s) (io s)).

(** The cases of the [switch], by the character. *)
Definition vga_char (old_level : bool) (c : Z) : M vga unit :=
  if bool_decide (c = 10) then newline
  else if bool_decide (c = 12) then cls
  else if bool_decide (c = 8) then
    s ← get_state; if 0 <? cx s then set_cx (cx s - 1) else ret tt
  else if bool_decide (c = 13) then set_cx 0
  else if bool_decide (c = 9) then
    s ← get_state;
    set_cx (ROUND_UP (u32 (cx s + 1)) 8);;
    s ← get_state;
    if COL_CNT <=? cx s then newline else ret tt
  else if bool_decide (c = 7) then
    with_io (intr_set_level old_level);;
    with_io speaker_beep;;
    with_io intr_disable;;
    ret tt
  else
    s ← get_state;
    poke (cy s) (cx s) 0 c;;
    poke (cy s) (cx s) 1 GRAY_ON_BLACK;;
    set_cx (u32 (cx s + 1));;
    s ← get_state;
    if COL_CNT <=? cx s then newline else ret tt.

Definition vga_putc (c : Z) : M vga unit :=
  old_level ← with_io intr_disable;
  init;;
  vga_char old_level c;;
  move_cursor;;
  with_io (intr_set_level old_level);;
  ret tt.

(** The text sent to the display, character by character. *)
Fixpoint vga_puts (text : list Z) : M vga unit :=
  match text with
  | [] => ret tt
  | c :: text => vga_putc c;; vga_puts text
  end.

(** ** Paper: the specification

    The rows above the cursor, its row, the rows below it that the screen
    still has, and the column of the cursor.  A row is 80 cells, each a
    character and its attribute. *)
Notation row := (list Z) (only parsing).
Definition space_cell : list Z := [32; GRAY_ON_BLACK].
Definition blank : row := concat (replicate 80 space_cell).
Record paper := mk_paper { above : list row; line : row; below : list row; col : nat }.

(** A screen cleared. *)
Definition sheet : paper := mk_paper [] blank (replicate 24 blank) 0.

(** The next row: one that is there, or a blank one at the end. *)
Definition feed (p : paper) : paper :=
  match below p with
  | [] => mk_paper (above p ++ [line p]) blank [] 0
  | r :: b => mk_paper (above p ++ [line p]) r b 0
  end.
Definition at_col (p : paper) (r : row) (c : nat) : paper :=
  let p := mk_paper (above p) r (below p) c in if (80 <=? c)%nat then feed p else p.

Definition type_char (p : paper) (c : Z) : paper :=
  if bool_decide (c = 10) then feed p
  else if bool_decide (c = 12) then sheet
  else if bool_decide (c = 8) then at_col p (line p) (col p - 1)
  else if bool_decide (c = 13) then at_col p (line p) 0
  else if bool_decide (c = 9) then at_col p (line p) ((col p / 8 + 1) * 8)
  else if bool_decide (c = 7) then p
  else at_col p (<[2 * col p + 1 := GRAY_ON_BLACK]> (<[2 * col p := u8 c]> (line p)))%nat (col p + 1).

(** The screen shows the last 25 rows. *)
Definition window (p : paper) : list row :=
  let all := above p ++ line p :: below p in drop (length all - 25) all.

(** What is on a screen with a cursor, as paper. *)
Fixpoint rows_of (n : nat) (bytes : list Z) : list row :=
  match n with
  | O => []
  | S n => take 160 bytes :: rows_of n (drop 160 bytes)
  end.
Definition hw_cursor (s : vga) : Z := hw_high s * 256 + hw_low s.
Definition paper_of (s : vga) : paper :=
  let rows := rows_of 25 (fb s) in
  let y := Z.to_nat (hw_cursor s / COL_CNT) in
  mk_paper (take y rows) (nth y rows []) (drop (S y) rows) (Z.to_nat (hw_cursor s mod COL_CNT)).

(** ** Rows in the frame buffer *)

Definition full (r : row) : Prop := length r = 160%nat.
Definition rows_wf (p : paper) : Prop :=
  Forall full (above p) ∧ full (line p) ∧ Forall full (below p) ∧
  length (below p) = (24 - length (above p))%nat.
Definition paper_wf (p : paper) : Prop := rows_wf p ∧ (col p < 80)%nat.

Lemma blank_full : full blank.
Proof. done. Qed.

Lemma full_concat rs : Forall full rs → length (concat rs) = (160 * length rs)%nat.
Proof. induction 1 as [|r rs Hr _ IH]; [done|]. cbn [concat length]. rewrite length_app, IH, Hr. lia. Qed.

Lemma concat_insert l r l' i v : Forall full l → full r → (i < 160)%nat →
  <[(160 * length l + i)%nat := v]> (concat (l ++ r :: l')) = concat (l ++ <[i := v]> r :: l').
Proof.
  intros Hl Hr Hi. rewrite !concat_app. cbn [concat]. rewrite <- full_concat by done.
  rewrite insert_app_r. f_equal. apply insert_app_l. by rewrite Hr.
Qed.

(** The rows of the screen above that of the cursor. *)
Definition shown (p : paper) : list row := drop (length (above p) - 24) (above p).

Lemma window_eq p : rows_wf p → window p = shown p ++ line p :: below p.
Proof.
  intros (_&_&_&Hb). unfold window, shown. rewrite length_app. cbn [length]. rewrite Hb.
  replace (_ - 25)%nat with (length (above p) - 24)%nat by lia. rewrite drop_app_le by lia. done.
Qed.

Lemma shown_full p : rows_wf p → Forall full (shown p).
Proof. intros (Ha&_). by apply Forall_drop. Qed.

Lemma length_shown p : length (shown p) = (24 `min` length (above p))%nat.
Proof. unfold shown. rewrite length_drop. lia. Qed.

Lemma window_rows p : rows_wf p → length (window p) = 25%nat ∧ Forall full (window p).
Proof.
  intros Hp. pose proof (shown_full p Hp). rewrite window_eq by done. destruct Hp as (Ha&Hr&Hbe&Hb).
  split; [rewrite length_app, length_shown; cbn [length]; lia|]. apply Forall_app; split; [done|by constructor].
Qed.

Lemma feed_wf p : rows_wf p → paper_wf (feed p).
Proof.
  intros (Ha&Hr&Hbe&Hb). unfold feed. destruct (below p) as [|r b] eqn:E; inversion Hbe; subst;
    (repeat split; cbn [above line below col] in *; try done; try lia; [apply Forall_app; by auto|]);
    rewrite length_app; cbn in *; lia.
Qed.

Lemma set_line_wf p r c : rows_wf p → full r → rows_wf (mk_paper (above p) r (below p) c).
Proof. by intros (Ha&_&Hbe&Hb) Hr. Qed.

Lemma at_col_wf p r c : rows_wf p → full r → paper_wf (at_col p r c).
Proof.
  intros Hp Hr. unfold at_col. destruct (80 <=? c)%nat eqn:E; [by apply feed_wf, set_line_wf|].
  split; [by apply set_line_wf|]. by apply Nat.leb_gt in E.
Qed.

(** ** The driver against the paper *)

(** The software state is that of the paper. *)
Definition inside (s : vga) (p : paper) : Prop :=
  inited s = true ∧ fb s = concat (window p) ∧ cx s = Z.of_nat (col p) ∧
  cy s = Z.of_nat (length (shown p)) ∧ rows_wf p ∧ (col p ≤ 80)%nat.

Definition with_fb (s : vga) (b : list Z) : vga :=
  mk_vga (inited s) (cx s) (cy s) b (hw_high s) (hw_low s) (io s).

Lemma poke_spec s l r l' i k v : fb s = concat (l ++ r :: l') → Forall full l → full r →
  0 ≤ i < 80 → 0 ≤ k < 2 →
  poke (Z.of_nat (length l)) i k v s
  = Ret (tt, with_fb s (concat (l ++ <[Z.to_nat (2 * i + k) := u8 v]> r :: l'))).
Proof.
  intros Hfb Hl Hr Hi Hk. unfold poke, COL_CNT, bind, get_state.
  rewrite bool_decide_true; last first.
  { rewrite Hfb, concat_app, length_app, full_concat by done. cbn [concat]. rewrite length_app, Hr. lia. }
  unfold set_fb, modify, with_fb. do 3 f_equal. rewrite Hfb.
  replace (Z.to_nat _) with (160 * length l + Z.to_nat (2 * i + k))%nat by lia.
  apply concat_insert; [done..|lia].
Qed.

Lemma clear_row_loop_spec n : ∀ k t s l l', fb s = concat (l ++ (concat (replicate k space_cell) ++ t) :: l') →
  Forall full l → length t = (2 * n)%nat → (n + k)%nat = 80%nat →
  clear_row_loop n (Z.of_nat k) (Z.of_nat (length l)) s = Ret (tt, with_fb s (concat (l ++ blank :: l'))).
Proof.
  induction n as [|n IH]; intros k t s l l' Hfb Hl Ht Hk.
  - destruct t; [|done]. assert (k = 80%nat) as -> by lia. rewrite app_nil_r in Hfb.
    change (concat (replicate 80 _)) with blank in Hfb. rewrite <- Hfb. by destruct s.
  - destruct t as [|a [|b t]]; [done|cbn in Ht; lia|]. cbn [clear_row_loop]. unfold bind.
    assert (length (concat (replicate k space_cell)) = (2 * k)%nat) as Hc.
    { clear. induction k as [|k IH]; [done|]. cbn [replicate concat]. rewrite length_app, IH. cbn. lia. }
    rewrite (poke_spec s l _ l' _ _ _ Hfb) by (unfold full; rewrite ?length_app, ?Hc; cbn in *; first [done|lia]).
    erewrite poke_spec; [|reflexivity|done| |lia|lia].
    2:{ unfold full. rewrite length_insert, length_app, Hc. cbn in *. lia. }
    assert (<[Z.to_nat (2 * Z.of_nat k + 1):=u8 GRAY_ON_BLACK]> (<[Z.to_nat (2 * Z.of_nat k + 0):=u8 32]>
      (concat (replicate k space_cell) ++ a :: b :: t))
      = concat (replicate (S k) space_cell) ++ t) as ->.
    { replace (Z.to_nat (2 * Z.of_nat k + 0)) with (length (concat (replicate k space_cell)) + 0)%nat by lia.
      rewrite insert_app_r.
      replace (Z.to_nat (2 * Z.of_nat k + 1)) with (length (concat (replicate k space_cell)) + 1)%nat by lia.
      rewrite insert_app_r. rewrite replicate_S_end, concat_app, <- app_assoc. done. }
    replace (Z.of_nat k + 1) with (Z.of_nat (S k)) by lia.
    apply (IH (S k) t (with_fb (with_fb s _) _) l l'); [done|done|cbn in Ht; lia|lia].
Qed.

Lemma clear_row_spec s l r l' : fb s = concat (l ++ r :: l') → Forall full l → full r →
  clear_row (Z.of_nat (length l)) s = Ret (tt, with_fb s (concat (l ++ blank :: l'))).
Proof. intros Hfb Hl Hr. by apply (clear_row_loop_spec 80 0 r). Qed.

Lemma clear_rows_spec n : ∀ k s l, fb s = concat (replicate k blank ++ l) → length l = n → Forall full l →
  clear_rows n (Z.of_nat k) s = Ret (tt, with_fb s (concat (replicate (k + n) blank))).
Proof.
  induction n as [|n IH]; intros k s l Hfb Hn Hl.
  - destruct l; [|done]. rewrite app_nil_r in Hfb. rewrite Nat.add_0_r, <- Hfb. by destruct s.
  - destruct l as [|r l]; [done|]. inversion Hl; subst. cbn [clear_rows]. unfold bind.
    assert (Forall full (replicate k blank)) by (by apply Forall_replicate).
    rewrite <- (length_replicate k blank) at 1. rewrite (clear_row_spec s _ r l) by done.
    replace (Z.of_nat k + 1) with (Z.of_nat (S k)) by lia.
    rewrite (IH (S k) _ l); [by rewrite Nat.add_succ_r|cbn [fb with_fb]|by injection Hn|done].
    rewrite replicate_S_end, <- app_assoc. done.
Qed.

(** Feeding a row moves the window, or scrolls it by one row. *)
Lemma feed_window p r b : below p = r :: b → window (feed p) = window p.
Proof.
  intros E. unfold feed, window. rewrite E. cbn [above line below].
  by rewrite <- (app_assoc (above p) [line p] (r :: b)).
Qed.

Lemma feed_scroll p : rows_wf p → below p = [] → window (feed p) = drop 1 (window p) ++ [blank].
Proof.
  intros Hp E. destruct (feed_wf p Hp) as [Hf _]. rewrite !window_eq by done.
  destruct Hp as (_&_&_&Hb). rewrite E in Hb. cbn [length] in Hb.
  unfold shown, feed. rewrite E. cbn [above line below]. rewrite length_app. cbn [length].
  rewrite <- (drop_app_le (above p) [line p]), drop_drop by lia. f_equal. f_equal. lia.
Qed.

Lemma length_shown_feed p : rows_wf p → length (shown (feed p)) = (24 `min` S (length (shown p)))%nat.
Proof.
  intros (_&_&_&Hb). rewrite !length_shown. unfold feed.
  destruct (below p); cbn [above]; rewrite length_app; cbn [length]; lia.
Qed.

Lemma newline_spec s p : inside s p →
  wp newline s (λ _ s', inside s' (feed p)).
Proof.
  intros (Hi&Hfb&Hx&Hy&Hp&_). pose proof (feed_wf p Hp) as [Hfp Hc]. pose proof (length_shown p) as Hs.
  unfold newline, set_cx, set_cy. wp_steps. cbn [cy inited cx fb hw_high hw_low io].
  rewrite Hy, u32_small by word_lia. unfold ROW_CNT.
  pose proof (length_shown_feed p Hp) as Hsf. destruct (below p) as [|r b] eqn:E.
  - assert (length (shown p) = 24%nat) as H24 by (destruct Hp as (_&_&_&Hb); rewrite E in Hb; cbn [length] in Hb; lia).
    rewrite H24 in *. change (25 <=? Z.of_nat 24 + 1) with true. cbv iota. wp_steps.
    destruct (window_rows p Hp) as [H25 Hw]. pose proof (feed_scroll p Hp E) as Hfs.
    destruct (window p) as [|w ws] eqn:Ew; [done|]. inversion Hw as [|?? Hw0 Hws]; subst. clear Hw.
    set (last := drop 3840 (concat (w :: ws))).
    assert (length (concat (w :: ws)) = 4000%nat) as H4 by (rewrite full_concat by (by constructor); cbn [length] in *; lia).
    eapply wp_run.
    { unfold scroll_up, bind, get_state. cbn [fb]. rewrite Hfb. rewrite bool_decide_true by (rewrite H4; unfold COL_CNT; lia).
      reflexivity. }
    cbv beta. eapply wp_run.
    { replace (25 - 1) with (Z.of_nat (length ws)) by (cbn [length] in H25; lia).
      apply (clear_row_spec _ ws last []); cbn [fb]; [|done|unfold last, full; rewrite length_drop, H4; done].
      rewrite concat_app. cbn [concat length] in *. rewrite app_nil_r. f_equal.
      - rewrite drop_app_length' by done. apply take_ge. rewrite full_concat by done. unfold COL_CNT. lia.
      - unfold last. f_equal. unfold COL_CNT. lia. }
    cbv beta. repeat split; cbn [inited fb cx cy with_fb];
      [done|by rewrite Hfs|unfold feed; by rewrite E|cbn [length] in *; lia|apply Hfp..|lia].
  - assert (length (shown p) < 24)%nat as Hlt by (destruct Hp as (_&_&_&Hb); rewrite E in Hb; cbn [length] in Hb; lia).
    assert ((25 <=? Z.of_nat (length (shown p)) + 1) = false) as -> by lia. wp_steps.
    pose proof (feed_window p r b E) as Hfw.
    repeat split; cbn [inited fb cx cy]; [done|by rewrite Hfw|unfold feed; by rewrite E|lia|apply Hfp..|lia].
Qed.

(** The cursor after a character that moves it to the right. *)
Lemma advance_spec s p r c : inside s (mk_paper (above p) r (below p) c) →
  wp (if COL_CNT <=? cx s then newline else ret tt) s (λ _ s', inside s' (at_col p r c)).
Proof.
  intros Hs. pose proof Hs as (_&_&Hx&_&_&Hc). cbn [col] in *. rewrite Hx. unfold at_col, COL_CNT.
  destruct (80 <=? c)%nat eqn:E.
  - apply Nat.leb_le in E. assert ((80 <=? Z.of_nat c) = true) as -> by lia. by apply newline_spec.
  - apply Nat.leb_gt in E. assert ((80 <=? Z.of_nat c) = false) as -> by lia. by wp_steps.
Qed.

(** The two words sent to the display carry the high and the low byte of the
    position, each to its register. *)
Definition cursor_words (cp : Z) : bool :=
  let w1 := Z.lor 0x0e (Z.land cp 0xff00) in
  let w2 := Z.lor 0x0f (Z.shiftl cp 8) mod 2 ^ 16 in
  bool_decide (Z.land w1 0xff = 0x0e) && bool_decide (Z.land w2 0xff = 0x0f) &&
  bool_decide (Z.shiftr w1 8 mod 2 ^ 8 * 256 + Z.shiftr w2 8 mod 2 ^ 8 = cp).

Lemma cursor_words_ok cp : 0 ≤ cp < 2000 → cursor_words cp = true.
Proof.
  intros Hcp. assert (cp ∈ seqZ 0 2000) as Hin by (apply elem_of_seqZ; lia). revert cp Hin Hcp.
  cut (Forall (λ cp, cursor_words cp = true) (seqZ 0 2000)).
  { intros H cp Hin _. by eapply Forall_forall in H. }
  apply (bool_decide_unpack _). by vm_compute.
Qed.

Lemma move_cursor_spec s : 0 ≤ cx s < 80 → 0 ≤ cy s < 25 →
  wp move_cursor s (λ _ s', ∃ h l,
    s' = mk_vga (inited s) (cx s) (cy s) (fb s) h l (io s) ∧
    h * 256 + l = cx s + 80 * cy s ∧ is_u8 h ∧ is_u8 l).
Proof.
  intros Hx Hy. unfold move_cursor, COL_CNT. wp_step. wp_step. cbv zeta.
  assert (0 ≤ cx s + 80 * cy s < 2000) as Hcp by lia. rewrite u32_small, Z.mod_small by word_lia.
  set (cp := cx s + 80 * cy s) in *. pose proof (cursor_words_ok cp Hcp) as Hb.
  apply andb_true_iff in Hb as [[H1 H2]%andb_true_iff H3]. unfold outw_3d4. wp_steps.
  rewrite H1. cbn [inited cx cy fb hw_high hw_low io]. rewrite H2.
  apply bool_decide_eq_true_1 in H2. rewrite (bool_decide_false (_ = 0x0e)) by (rewrite H2; done).
  do 2 eexists. split; [done|]. apply bool_decide_eq_true_1 in H3. split; [exact H3|].
  split; by apply Z.mod_pos_bound.
Qed.

Lemma with_io_spec {A} (c : M ports A) s (Q : A → vga → Prop) :
  wp c (io s) (λ a p, Q a (mk_vga (inited s) (cx s) (cy s) (fb s) (hw_high s) (hw_low s) p)) →
  wp (with_io c) s Q.
Proof. unfold wp, with_io. by destruct (c (io s)) as [[a p]|]. Qed.

Lemma speaker_beep_returns p : wp speaker_beep p (λ _ _, True).
Proof.
  unfold speaker_beep. wp_steps. destruct (intr_on p) eqn:E; [|by wp_steps].
  unfold speaker_on. rewrite bool_decide_true by lia. unfold intr_disable at 1, intr_set_level at 1. wp_steps.
  eapply wp_mono; [apply pit_configure_spec; by right|]. intros _ p' _. cbv beta.
  unfold outb, timer_msleep, speaker_off, intr_disable, intr_set_level. wp_steps.
  rewrite E. by wp_steps.
Qed.

Lemma rows_of_spec n : ∀ bs, length bs = (160 * n)%nat →
  concat (rows_of n bs) = bs ∧ Forall full (rows_of n bs) ∧ length (rows_of n bs) = n.
Proof.
  induction n as [|n IH]; intros bs Hl; [by destruct bs|]. cbn [rows_of concat length].
  destruct (IH (drop 160 bs)) as (E&Hf&Hn); [rewrite length_drop; lia|].
  rewrite E, take_drop, Hn. split; [done|]. split; [|done]. constructor; [|done].
  unfold full. rewrite length_take. lia.
Qed.

Lemma sheet_wf : paper_wf sheet.
Proof. repeat split; cbn [above line below col sheet]; [by constructor|by apply Forall_replicate|lia]. Qed.

(** Clearing needs no more than a frame buffer, wherever the cursor is. *)
Lemma cls_spec s : length (fb s) = 4000%nat → inited s = true → wp cls s (λ _ s', inside s' sheet).
Proof.
  intros Hl Hi. unfold cls. wp_step. destruct (rows_of_spec 25 (fb s) Hl) as (E&Hf&Hn).
  eapply wp_run; [apply (clear_rows_spec 25 0 _ (rows_of 25 (fb s))); [symmetry; exact E|done|done]|].
  cbv beta. unfold set_cx, set_cy. wp_steps.
  eapply wp_mono; [apply move_cursor_spec; cbn [cx cy]; lia|]. intros _ s' (h&l&->&_).
  pose proof sheet_wf as [Hs _]. split; [exact Hi|]. split; [reflexivity|]. by repeat split; cbn; try lia; apply Hs.
Qed.

Lemma inside_io s p io' : inside s p →
  inside (mk_vga (inited s) (cx s) (cy s) (fb s) (hw_high s) (hw_low s) io') p.
Proof. done. Qed.

Lemma inside_cx s p c : inside s p → (c ≤ 80)%nat →
  inside (mk_vga (inited s) (Z.of_nat c) (cy s) (fb s) (hw_high s) (hw_low s) (io s))
    (mk_paper (above p) (line p) (below p) c).
Proof. intros (?&?&?&?&?&?) Hc. refine (conj _ (conj _ (conj _ (conj _ (conj _ _))))); done. Qed.

Lemma vga_char_spec s p old c : inside s p → (col p < 80)%nat →
  wp (vga_char old c) s (λ _ s', inside s' (type_char p c)).
Proof.
  intros Hs Hc. pose proof Hs as (Hi&Hfb&Hx&Hy&Hp&_). unfold vga_char, type_char.
  case_bool_decide; [by apply newline_spec|].
  case_bool_decide.
  { apply cls_spec; [|done]. destruct (window_rows p Hp) as [Hn Hw]. by rewrite Hfb, full_concat, Hn. }
  case_bool_decide.
  { wp_steps. unfold at_col. assert ((80 <=? col p - 1)%nat = false) as -> by (apply Nat.leb_gt; lia). rewrite Hx.
    destruct (0 <? Z.of_nat (col p)) eqn:E.
    - unfold set_cx. wp_steps. replace (Z.of_nat (col p) - 1) with (Z.of_nat (col p - 1)) by lia.
      by apply inside_cx; [|lia].
    - wp_steps. replace (col p - 1)%nat with (col p) by lia. by destruct p. }
  case_bool_decide; [unfold set_cx; wp_steps; apply (inside_cx _ _ 0 Hs); lia|].
  case_bool_decide.
  { wp_step. wp_step. unfold set_cx. wp_steps.
    assert (ROUND_UP (u32 (cx s + 1)) 8 = Z.of_nat ((col p / 8 + 1) * 8)) as ->.
    { unfold ROUND_UP. rewrite Hx, (u32_small (_ + 1)) by word_lia. rewrite (u32_small (_ + (8 - 1))) by word_lia.
      rewrite u32_small, Nat2Z.inj_mul, Nat2Z.inj_add, Nat2Z.inj_div by word_lia. lia. }
    apply advance_spec. pose proof (Nat.Div0.div_lt_upper_bound (col p) 8 10 ltac:(lia)). apply inside_cx; [done|lia]. }
  case_bool_decide.
  { wp_step. apply with_io_spec. unfold intr_set_level. wp_steps. apply with_io_spec.
    eapply wp_mono; [apply speaker_beep_returns|]. intros _ io' _. cbn [inited cx cy fb hw_high hw_low].
    wp_step. apply with_io_spec. unfold intr_disable, intr_set_level. wp_steps. by apply inside_io. }
  wp_step. wp_step. rewrite Hx, Hy. rewrite window_eq in Hfb by done. pose proof Hp as (_&Hr&_&_).
  wp_step. eapply wp_run; [eapply poke_spec; [exact Hfb|by apply shown_full|done|lia|lia]|]. cbv beta.
  wp_step. eapply wp_run; [eapply poke_spec; [reflexivity|by apply shown_full| |lia|lia]|].
  { unfold full. by rewrite length_insert. }
  cbv beta. unfold set_cx. wp_steps. apply advance_spec.
  replace (Z.to_nat (2 * Z.of_nat (col p) + 1)) with (2 * col p + 1)%nat by lia.
  replace (Z.to_nat (2 * Z.of_nat (col p) + 0)) with (2 * col p)%nat by lia.
  rewrite u32_small by word_lia.
  assert (rows_wf (mk_paper (above p) (<[(2 * col p + 1)%nat:=u8 GRAY_ON_BLACK]> (<[(2 * col p)%nat:=u8 c]> (line p)))
    (below p) (col p + 1))) as Hw.
  { apply set_line_wf; [done|]. unfold full. by rewrite !length_insert. }
  split; [done|]. split; [by rewrite window_eq|]. split; [cbn; lia|]. split; [done|]. split; [done|]. cbn. lia.
Qed.

(** ** The screen *)

(** The display at rest: the frame buffer holds 25 rows, the hardware cursor is
    on the screen, and the software cursor is there too once it was read. *)
Definition display_ok (s : vga) : Prop :=
  length (fb s) = 4000%nat ∧ is_u8 (hw_high s) ∧ is_u8 (hw_low s) ∧ hw_cursor s < 2000 ∧
  (inited s = true → 0 ≤ cx s < 80 ∧ hw_cursor s = cx s + 80 * cy s).

(** A display at rest that shows the window of a sheet, cursor included. *)
Definition shows (s : vga) (p : paper) : Prop :=
  display_ok s ∧ paper_wf p ∧ fb s = concat (window p) ∧
  hw_cursor s = Z.of_nat (col p) + 80 * Z.of_nat (length (shown p)).

Lemma shows_paper_of s : display_ok s → shows s (paper_of s).
Proof.
  intros Hs. pose proof Hs as (Hl&Hh&Hlo&Hc&_). destruct (rows_of_spec 25 (fb s) Hl) as (E&Hf&Hn).
  set (y := Z.to_nat (hw_cursor s / COL_CNT)). set (rows := rows_of 25 (fb s)) in *.
  assert (y < 25)%nat as Hy by (subst y; unfold hw_cursor, COL_CNT in *; word_lia).
  destruct (lookup_lt_is_Some_2 rows y) as [r Hr]; [lia|].
  assert (nth y rows [] = r) as En by (by apply nth_lookup_Some).
  assert (above (paper_of s) = take y rows) as Ea by done.
  assert (line (paper_of s) = r) as El by exact En.
  assert (below (paper_of s) = drop (S y) rows) as Eb by done.
  assert (col (paper_of s) < 80)%nat as Hcol.
  { cbn [paper_of col]. unfold hw_cursor, COL_CNT in *. word_lia. }
  assert (rows_wf (paper_of s)) as Hp.
  { unfold rows_wf. rewrite Ea, El, Eb. split; [by apply Forall_take|]. split; [by eapply Forall_lookup_1|].
    split; [by apply Forall_drop|]. rewrite length_drop, length_take, Hn. lia. }
  split; [done|]. split; [done|]. rewrite window_eq by done.
  assert (shown (paper_of s) = take y rows) as Es.
  { unfold shown. rewrite Ea, length_take, Hn. replace (_ - 24)%nat with 0%nat by lia. done. }
  rewrite Es, El, Eb. split; [by rewrite take_drop_middle|]. rewrite length_take, Hn.
  cbn [paper_of col]. subst y. unfold hw_cursor, COL_CNT in *. word_lia.
Qed.

Lemma lor_bytes h l : 0 ≤ h → is_u8 l → Z.lor (Z.shiftl h 8) l = h * 256 + l.
Proof.
  intros Hh Hl. rewrite Z.shiftl_mul_pow2 by lia. cut (Z.land (h * 2 ^ 8) l = 0).
  { pose proof (Z.add_lor_land (h * 2 ^ 8) l). lia. }
  apply Z.bits_inj'. intros i Hi. rewrite Z.land_spec, Z.bits_0. destruct (decide (i < 8)).
  - by rewrite Z.mul_pow2_bits_low.
  - rewrite <- (u8_small l Hl). unfold u8. by rewrite (Z.mod_pow2_bits_high l 8 i), andb_false_r by lia.
Qed.

(** The first character reads the cursor the hardware has. *)
Lemma init_spec s p io' : shows s p →
  wp init (mk_vga (inited s) (cx s) (cy s) (fb s) (hw_high s) (hw_low s) io') (λ _ s1, inside s1 p ∧ io s1 = io').
Proof.
  intros ((Hl&Hh&Hlo&Hc&Hin)&[Hp Hcol]&Hfb&Hcur).
  assert (length (shown p) ≤ 24)%nat as Hs by (rewrite length_shown; lia).
  unfold init. wp_steps. cbn [inited]. destruct (inited s) eqn:Ei.
  - wp_steps. destruct (Hin eq_refl) as [Hx Hxy]. split; [|done].
    refine (conj _ (conj _ (conj _ (conj _ (conj _ _))))); try done; cbn [cx cy]; lia.
  - unfold find_cursor, set_cx, set_cy, COL_CNT. wp_steps. cbn [cx cy hw_high hw_low].
    rewrite lor_bytes by word_lia. split; [|done]. fold (hw_cursor s).
    refine (conj _ (conj _ (conj _ (conj _ (conj _ _))))); try done; cbn [cx cy]; lia.
Qed.

Lemma type_char_wf p c : paper_wf p → paper_wf (type_char p c).
Proof.
  intros [Hp Hc]. assert (full (line p)) by apply Hp. unfold type_char.
  repeat case_bool_decide; auto using feed_wf, sheet_wf, at_col_wf; [by split|].
  apply at_col_wf; [done|]. unfold full. by rewrite !length_insert.
Qed.

Lemma vga_putc_spec s p c : shows s p →
  wp (vga_putc c) s (λ _ s', shows s' (type_char p c) ∧ intr_on (io s') = intr_on (io s)).
Proof.
  intros Hs. pose proof Hs as (_&Hp&_). pose proof (type_char_wf p c Hp) as Hp'.
  unfold vga_putc. wp_step. apply with_io_spec. unfold intr_disable, intr_set_level at 1. wp_steps.
  eapply wp_mono; [by apply init_spec|]. intros _ s1 [H1 _]. cbv beta. wp_step.
  eapply wp_mono; [apply vga_char_spec; [done|apply Hp]|]. intros [] s2 H2. cbv beta. wp_step.
  destruct H2 as (Hi&Hfb&Hx&Hy&_&_). destruct Hp' as [Hr Hc].
  pose proof (length_shown (type_char p c)) as Hsh. destruct (window_rows _ Hr) as [Hn Hw].
  eapply wp_mono; [apply move_cursor_spec; lia|]. intros _ s3 (h&l&->&Hhl&Hh&Hlo). cbv beta.
  wp_step. apply with_io_spec. unfold intr_set_level. wp_steps. split; [|done].
  split; [|by split; [|split; [|unfold hw_cursor; cbn [hw_high hw_low]; lia]]].
  unfold display_ok, hw_cursor. cbn [fb hw_high hw_low inited cx cy].
  rewrite Hfb, full_concat, Hn by done. repeat split; try done; try apply Hh; try apply Hlo; lia.
Qed.

Lemma vga_puts_spec text : ∀ s p, shows s p →
  wp (vga_puts text) s (λ _ s', shows s' (foldl type_char p text) ∧ intr_on (io s') = intr_on (io s)).
Proof.
  induction text as [|c text IH]; intros s p Hs; [by apply wp_ret|]. cbn [vga_puts foldl].
  wp_step. eapply wp_mono; [by apply vga_putc_spec|]. intros _ s1 [H1 E1]. cbv beta.
  eapply wp_mono; [by apply IH|]. intros _ s2 [H2 E2]. split; [done|]. by rewrite E2.
Qed.

(** C21: the text display is the lower end of an endless sheet of paper.
    Whatever characters are sent to a display at rest (printable ones, line
    feeds, form feeds, backspaces, tabs, bells; the first call, that reads the
    cursor, included), [vga_putc] never touches memory outside the 4000 bytes
    of the frame buffer, and what the screen shows and where the hardware
    cursor stands are the last 25 rows and the cursor of the sheet on which
    the same characters were typed; the interrupt level is what it was. *)
Theorem screen_is_window_of_paper s text : display_ok s →
  wp (vga_puts text) s (λ _ s',
    let p := foldl type_char (paper_of s) text in
    display_ok s' ∧ fb s' = concat (window p) ∧ length (window p) = 25%nat ∧
    hw_cursor s' = Z.of_nat (col p) + 80 * Z.of_nat (24 `min` length (above p)) ∧
    intr_on (io s') = intr_on (io s)).
Proof.
  intros Hs. eapply wp_mono; [by apply vga_puts_spec, shows_paper_of|].
  intros _ s' [(Hd&[Hp _]&Hfb&Hc) Hi]. cbv zeta. rewrite <- length_shown.
  destruct (window_rows _ Hp) as [Hn _].
  refine (conj _ (conj _ (conj _ (conj _ _)))); done.
Qed.

(** A display with the boot loader's cursor at the start of the last row. *)
Definition booted : vga :=
  mk_vga false 0 0 (concat (replicate 2000 [46; 7])) 7 128 (mk_ports [] 0 true 0).

Lemma screen_is_window_of_paper_witness :
  display_ok booted ∧
  wp (vga_puts [72; 105; 10; 33]) booted (λ _ s',
    let p := foldl type_char (paper_of booted) [72; 105; 10; 33] in
    display_ok s' ∧ fb s' = concat (window p) ∧ length (window p) = 25%nat ∧
    hw_cursor s' = Z.of_nat (col p) + 80 * Z.of_nat (24 `min` length (above p)) ∧
    intr_on (io s') = intr_on (io booted)).
Proof.
  assert (display_ok booted) as H.
  { split; [by vm_compute|]. split; [by vm_compute|]. split; [by vm_compute|]. split; [by vm_compute|].
    intros Hf. discriminate. }
  split; [exact H|]. exact (screen_is_window_of_paper booted [72; 105; 10; 33] H).
Defined.

(** The sheet then has a row more than the screen, which scrolled. *)
Example booted_scrolled :
  let p := foldl type_char (paper_of booted) [72; 105; 10; 33] in
  length (above p) = 25%nat ∧ take 6 (nth 23 (window p) []) = [72; 7; 105; 7; 46; 7] ∧
  take 4 (line p) = [33; 7; 32; 7] ∧ col p = 1%nat.
Proof. by vm_compute. Qed.
