(* ===== verification/Intq.v ===== *)
(** * Interrupt queues (devices/intq.c, intq.h)

    Circular queues of bytes shared by kernel threads and interrupt handlers.
    The functions on the queue run with interrupts off, so that they are
    atomic up to the points where a thread is suspended: [lock_acquire] on a
    lock that is taken, [thread_block] in [wait], and [lock_release], which
    yields.  [step] is one such stretch of one thread, or one handler. *)

From S2P Require Import Prelude.
Local Open Scope Z_scope.
Ltac Zify.zify_post_hook ::= Z.to_euclidean_division_equations.

(** ** Data *)

Definition INTQ_BUFSIZE : Z := 64.

(** [struct intq]; a thread is its address, and [holder] that of the lock's
    holder (0 is no thread). *)
Record intq := mk_intq {
  holder : Z;
  not_full : Z;
  not_empty : Z;
  buf : list Z;
  head : Z;
  tail : Z
}.

(** What a thread inside [intq_getc] or [intq_putc] does. *)
Inductive op := Get | Put (byte : Z).
Inductive activity :=
| Looping (o : op)    (** at the condition of the [while] loop *)
| Locking (o : op)    (** suspended in [lock_acquire] *)
| Blocked (o : op)    (** suspended in [wait] *)
| Woken (o : op).     (** unblocked by [signal], before [lock_release] *)

(** The queue, the threads in its functions, and the bytes put and taken so
    far (the history, which the code does not keep). *)
Record world := mk_world {
  queue : intq;
  threads : gmap Z activity;
  bytes_in : list Z;
  bytes_out : list Z
}.

#[export] Instance op_eq_dec : EqDecision op.
Proof. solve_decision. Defined.
#[export] Instance activity_eq_dec : EqDecision activity.
Proof. solve_decision. Defined.

(** ** The queue *)

Definition intq_init (q : intq) : intq := mk_intq 0 0 0 (buf q) 0 0.

(** C's remainder. *)
Definition next (pos : Z) : Z := Z.rem (pos + 1) INTQ_BUFSIZE.
Definition intq_empty (q : intq) : bool := head q =? tail q.
Definition intq_full (q : intq) : bool := next (head q) =? tail q.

Definition set_queue (q : intq) : M world unit :=
  modify (λ w, mk_world q (threads w) (bytes_in w) (bytes_out w)).
Definition set_activity (t : Z) (a : activity) : M world unit :=
  modify (λ w, mk_world (queue w) (<[t := a]> (threads w)) (bytes_in w) (bytes_out w)).

(** [thread_unblock] of a thread that is blocked in [wait]; it asserts that
    the thread is blocked. *)
Definition thread_unblock (t : Z) : M world unit :=
  w ← get_state;
  match threads w !! t with
  | Some (Blocked o) => set_activity t (Woken o)
  | _ => fail AssertFail
  end.

(** [signal (q, &q->not_empty)] and [signal (q, &q->not_full)] *)
Definition signal_not_empty : M world unit :=
  w ← get_state;
  ASSERT (negb (intq_empty (queue w)));;
  if not_empty (queue w) =? 0 then ret tt
  else
    thread_unblock (not_empty (queue w));;
    let q := queue w in set_queue (mk_intq (holder q) (not_full q) 0 (buf q) (head q) (tail q)).
Definition signal_not_full : M world unit :=
  w ← get_state;
  ASSERT (negb (intq_full (queue w)));;
  if not_full (queue w) =? 0 then ret tt
  else
    thread_unblock (not_full (queue w));;
    let q := queue w in set_queue (mk_intq (holder q) 0 (not_empty q) (buf q) (head q) (tail q)).

(** The statements of [intq_getc] and [intq_putc] after the loop. *)
Definition take_byte : M world Z :=
  w ← get_state;
  let q := queue w in
  byte ← deref (buf q !! Z.to_nat (tail q));
  put_state (mk_world (mk_intq (holder q) (not_full q) (not_empty q) (buf q) (head q) (next (tail q)))
    (threads w) (bytes_in w) (bytes_out w ++ [byte]));;
  signal_not_full;;
  ret byte.
Definition put_byte (byte : Z) : M world unit :=
  w ← get_state;
  let q := queue w in
  deref (buf q !! Z.to_nat (head q));;
  put_state (mk_world (mk_intq (holder q) (not_full q) (not_empty q) (<[Z.to_nat (head q) := u8 byte]> (buf q))
      (next (head q)) (tail q))
    (threads w) (bytes_in w ++ [u8 byte]) (bytes_out w));;
  signal_not_empty.

(** The condition the loop of an operation waits on. *)
Definition must_wait (o : op) (q : intq) : bool :=
  match o with Get => intq_empty q | Put _ => intq_full q end.

(** [lock_acquire] of a free lock, then [wait] up to [thread_block]. *)
Definition lock_and_wait (t : Z) (o : op) : M world unit :=
  w ← get_state;
  let q := queue w in
  ASSERT (must_wait o q);;
  set_queue (match o with
             | Get => mk_intq t (not_full q) t (buf q) (head q) (tail q)
             | Put _ => mk_intq t t (not_empty q) (buf q) (head q) (tail q)
             end);;
  set_activity t (Blocked o).

(** The end of the call: the thread leaves the queue's functions. *)
Definition leave (t : Z) : M world unit :=
  modify (λ w, mk_world (queue w) (delete t (threads w)) (bytes_in w) (bytes_out w)).

Definition acquire_or_suspend (t : Z) (o : op) : M world unit :=
  w ← get_state;
  if holder (queue w) =? 0 then lock_and_wait t o else set_activity t (Locking o).

(** What happens when the processor runs thread [t]. *)
Definition run_thread (t : Z) : M world unit :=
  w ← get_state;
  match threads w !! t with
  | None => ret tt
  | Some (Looping o) =>
      if must_wait o (queue w) then acquire_or_suspend t o
      else
        match o with Get => take_byte;; ret tt | Put byte => put_byte byte end;;
        leave t
  | Some (Locking o) => acquire_or_suspend t o
  | Some (Blocked _) => ret tt
  | Some (Woken o) =>
      ASSERT (holder (queue w) =? t);;
      let q := queue w in
      set_queue (mk_intq 0 (not_full q) (not_empty q) (buf q) (head q) (tail q));;
      set_activity t (Looping o)
  end.

(** Handlers test the queue before they use it. *)
Definition handler_put (byte : Z) : M world unit :=
  w ← get_state; if intq_full (queue w) then ret tt else put_byte byte.
Definition handler_get : M world unit :=
  w ← get_state; if intq_empty (queue w) then ret tt else take_byte;; ret tt.

Inductive event :=
| Call (t : Z) (o : op)     (** a thread that is outside calls [intq_getc] or [intq_putc] *)
| Run (t : Z)
| Handler (o : op).

Definition step (e : event) : M world unit :=
  match e with
  | Call t o =>
      w ← get_state;
      if bool_decide (t ≠ 0 ∧ threads w !! t = None) then set_activity t (Looping o) else ret tt
  | Run t => run_thread t
  | Handler Get => handler_get
  | Handler (Put byte) => handler_put byte
  end.

(** The states of a queue that was initialised. *)
Inductive reachable : world → Prop :=
| reach_init q : length (buf q) = 64%nat → reachable (mk_world (intq_init q) ∅ [] [])
| reach_step w e w' : reachable w → step e w = Ret (tt, w') → reachable w'.

(** ** The queue as a list *)

Definition size (q : intq) : Z := (head q - tail q) mod 64.
Definition contents (q : intq) : list Z :=
  map (λ i, nth (Z.to_nat ((tail q + Z.of_nat i) mod 64)) (buf q) 0) (seq 0 (Z.to_nat (size q))).

Definition ring (q : intq) : Prop := length (buf q) = 64%nat ∧ 0 ≤ head q < 64 ∧ 0 ≤ tail q < 64.

Lemma next_mod pos : 0 ≤ pos < 64 → next pos = (pos + 1) mod 64.
Proof. intros H. unfold next, INTQ_BUFSIZE. by rewrite Z.rem_mod_nonneg by lia. Qed.

Lemma length_contents q : length (contents q) = Z.to_nat (size q).
Proof. unfold contents. by rewrite length_map, length_seq. Qed.

Lemma intq_empty_spec q : ring q → intq_empty q = true ↔ contents q = [].
Proof.
  intros (_&Hh&Ht). unfold intq_empty. rewrite Z.eqb_eq, <- (length_zero_iff_nil (contents q)), length_contents.
  unfold size. lia.
Qed.

Lemma intq_full_spec q : ring q → intq_full q = true ↔ length (contents q) = 63%nat.
Proof.
  intros (_&Hh&Ht). unfold intq_full. rewrite Z.eqb_eq, length_contents, next_mod by done. unfold size. lia.
Qed.

Lemma contents_put q byte : ring q → intq_full q = false →
  contents (mk_intq (holder q) (not_full q) (not_empty q) (<[Z.to_nat (head q) := byte]> (buf q)) (next (head q)) (tail q))
  = contents q ++ [byte].
Proof.
  intros (Hl&Hh&Ht) Hf. unfold intq_full in Hf. rewrite next_mod in * by done. apply Z.eqb_neq in Hf.
  unfold contents, size. cbn [head tail buf]. 
  replace (Z.to_nat (((head q + 1) mod 64 - tail q) mod 64)) with (S (Z.to_nat ((head q - tail q) mod 64))) by lia.
  rewrite seq_S, map_app. cbn [map]. f_equal.
  - apply map_ext_in. intros i Hi%in_seq. rewrite !(nth_lookup), list_lookup_insert_ne by lia. done.
  - f_equal. rewrite nth_lookup, Nat.add_0_l, Z2Nat.id by lia.
    replace (Z.to_nat ((tail q + (head q - tail q) mod 64) mod 64)) with (Z.to_nat (head q)) by lia.
    by rewrite list_lookup_insert_eq by lia.
Qed.

Lemma contents_take q byte : ring q → intq_empty q = false → buf q !! Z.to_nat (tail q) = Some byte →
  contents q = byte :: contents (mk_intq (holder q) (not_full q) (not_empty q) (buf q) (head q) (next (tail q))).
Proof.
  intros (Hl&Hh&Ht) He Hb. unfold intq_empty in He. apply Z.eqb_neq in He.
  unfold contents, size. cbn [head tail buf]. rewrite next_mod by done.
  replace (Z.to_nat ((head q - tail q) mod 64)) with (S (Z.to_nat ((head q - (tail q + 1) mod 64) mod 64))) by lia.
  cbn [seq map]. f_equal.
  - rewrite nth_lookup, Z.add_0_r, Z.mod_small, Hb by lia. done.
  - rewrite <- seq_shift, map_map. apply map_ext_in. intros i Hi%in_seq. f_equal. lia.
Qed.

Lemma contents_waiters q h nf ne : contents (mk_intq h nf ne (buf q) (head q) (tail q)) = contents q.
Proof. done. Qed.

(** ** The invariant *)

Definition waits (a : option activity) : Prop := ∃ o, a = Some (Blocked o) ∨ a = Some (Woken o).

Record inv (w : world) : Prop := {
  inv_ring : ring (queue w);
  inv_fifo : bytes_in w = bytes_out w ++ contents (queue w);
  inv_null : threads w !! 0 = None;
  inv_holder : ∀ t, waits (threads w !! t) → holder (queue w) = t;
  inv_held : holder (queue w) ≠ 0 → waits (threads w !! holder (queue w));
  inv_not_empty : not_empty (queue w) ≠ 0 →
    threads w !! not_empty (queue w) = Some (Blocked Get) ∧ intq_empty (queue w) = true;
  inv_not_full : not_full (queue w) ≠ 0 →
    (∃ b, threads w !! not_full (queue w) = Some (Blocked (Put b))) ∧ intq_full (queue w) = true;
  inv_blocked_get : ∀ t, threads w !! t = Some (Blocked Get) → not_empty (queue w) = t;
  inv_blocked_put : ∀ t b, threads w !! t = Some (Blocked (Put b)) → not_full (queue w) = t
}.

(** The lock keeps readers and writers from waiting at once. *)
Lemma inv_one_waiter w : inv w → not_empty (queue w) ≠ 0 → not_full (queue w) = 0.
Proof.
  intros Hw He. destruct (decide (not_full (queue w) = 0)) as [|Hf]; [done|].
  destruct (inv_not_empty _ Hw He) as [H1 _]. destruct (inv_not_full _ Hw Hf) as [[b H2] _].
  assert (holder (queue w) = not_empty (queue w)) as E1 by (apply (inv_holder _ Hw); exists Get; by left).
  assert (holder (queue w) = not_full (queue w)) as E2 by (apply (inv_holder _ Hw); exists (Put b); by left).
  congruence.
Qed.

(** A thread that neither waits nor holds the lock comes, goes, or moves. *)
Definition free_activity (a : option activity) : Prop := a = None ∨ (∃ o, a = Some (Looping o)) ∨ (∃ o, a = Some (Locking o)).

Lemma free_not_waits a : free_activity a → ¬ waits a.
Proof. intros [->|[[o ->]|[o ->]]] [o' [?|?]]; congruence. Qed.

Lemma inv_alter w t a : inv w → t ≠ 0 → free_activity (threads w !! t) → free_activity a →
  inv (mk_world (queue w) (partial_alter (λ _, a) t (threads w)) (bytes_in w) (bytes_out w)).
Proof.
  intros Hw Ht Hold Hnew. pose proof (free_not_waits _ Hold) as H1. pose proof (free_not_waits _ Hnew) as H2.
  assert (∀ t', waits (partial_alter (λ _, a) t (threads w) !! t') ↔ waits (threads w !! t')) as E.
  { intros t'. destruct (decide (t' = t)) as [->|]; [rewrite lookup_partial_alter_eq; tauto|].
    by rewrite lookup_partial_alter_ne. }
  assert (∀ t' o, partial_alter (λ _, a) t (threads w) !! t' = Some (Blocked o) ↔ threads w !! t' = Some (Blocked o)) as E2.
  { intros t' o. destruct (decide (t' = t)) as [->|]; [|by rewrite lookup_partial_alter_ne].
    rewrite lookup_partial_alter_eq. split; intros E'; [destruct H2|destruct H1]; exists o; by left. }
  destruct Hw. constructor; cbn [queue threads bytes_in bytes_out]; try done.
  - by rewrite lookup_partial_alter_ne.
  - intros t' ?%E. auto.
  - intros Hh. apply E. auto.
  - intros He. rewrite E2. auto.
  - intros Hf. setoid_rewrite E2. auto.
  - intros t' ?%E2. auto.
  - intros t' b ?%E2. eauto.
Qed.

Lemma inv_nobody w : inv w → not_empty (queue w) = 0 → not_full (queue w) = 0 →
  ∀ t o, threads w !! t ≠ Some (Blocked o).
Proof.
  intros Hw He Hf t [|b] Ht; [apply (inv_blocked_get _ Hw) in Ht as H0|apply (inv_blocked_put _ Hw) in Ht as H0];
    pose proof (inv_null _ Hw); congruence.
Qed.

(** A byte moves and nobody waits for it. *)
Lemma inv_transfer w q' i' o' : inv w → not_empty (queue w) = 0 → not_full (queue w) = 0 →
  ring q' → holder q' = holder (queue w) → not_empty q' = 0 → not_full q' = 0 → i' = o' ++ contents q' →
  inv (mk_world q' (threads w) i' o').
Proof.
  intros Hw He Hf Hq Hh He' Hf' Hc. pose proof (inv_nobody _ Hw He Hf) as Hn. destruct Hw.
  constructor; cbn [queue threads bytes_in bytes_out]; rewrite ?Hh, ?He', ?Hf'; try done; naive_solver.
Qed.

(** A byte moves and the thread that waits is woken. *)
Lemma inv_wake w q' i' o' t o : inv w → threads w !! t = Some (Blocked o) →
  ring q' → holder q' = holder (queue w) → not_empty q' = 0 → not_full q' = 0 → i' = o' ++ contents q' →
  inv (mk_world q' (<[t := Woken o]> (threads w)) i' o').
Proof.
  intros Hw Ht Hq Hh He' Hf' Hc.
  assert (t ≠ 0) as H0 by (intros ->; by rewrite (inv_null _ Hw) in Ht).
  assert (holder (queue w) = t) as Hht by (apply (inv_holder _ Hw); exists o; by left).
  assert (∀ t' o', <[t := Woken o]> (threads w) !! t' ≠ Some (Blocked o')) as Hn.
  { intros t' o2. destruct (decide (t' = t)) as [->|]; [by rewrite lookup_insert_eq|].
    rewrite lookup_insert_ne by done. intros Hb. assert (holder (queue w) = t') by (apply (inv_holder _ Hw); exists o2; by left).
    congruence. }
  constructor; cbn [queue threads bytes_in bytes_out]; rewrite ?Hh, ?He', ?Hf'; try done.
  - rewrite lookup_insert_ne by done. apply (inv_null _ Hw).
  - intros t' Hw'. destruct (decide (t' = t)) as [->|]; [done|]. rewrite lookup_insert_ne in Hw' by done.
    by apply (inv_holder _ Hw).
  - intros _. rewrite Hht, lookup_insert_eq. exists o. by right.
  - intros t' Hb. by destruct (Hn t' Get).
  - intros t' b Hb. by destruct (Hn t' (Put b)).
Qed.

(** Waking keeps the threads that loop where they are. *)
Definition loopers_kept (w w' : world) : Prop :=
  ∀ t o, threads w !! t = Some (Looping o) → threads w' !! t = Some (Looping o).

Lemma loopers_wake w t o q' i' o' : threads w !! t = Some (Blocked o) →
  loopers_kept w (mk_world q' (<[t := Woken o]> (threads w)) i' o').
Proof. intros Ht t' o2 Hl. cbn. rewrite lookup_insert_ne; [done|congruence]. Qed.

Lemma put_byte_spec w byte : inv w → intq_full (queue w) = false →
  wp (put_byte byte) w (λ _ w', inv w' ∧ loopers_kept w w' ∧ bytes_in w' = bytes_in w ++ [u8 byte] ∧
    bytes_out w' = bytes_out w).
Proof.
  intros Hw Hf. pose proof (inv_ring _ Hw) as Hr. pose proof (contents_put _ (u8 byte) Hr Hf) as Hc.
  destruct Hr as (Hl&Hh&Ht). unfold put_byte. wp_step. wp_step. cbv zeta. set (q := queue w) in *.
  destruct (lookup_lt_is_Some_2 (buf q) (Z.to_nat (head q))) as [x Hx]; [lia|]. rewrite Hx. wp_steps.
  set (q1 := mk_intq _ _ _ _ _ _) in *.
  assert (not_full q = 0) as Hnf by (destruct (decide (not_full q = 0)) as [|Hn]; [done|];
    destruct (inv_not_full _ Hw Hn) as [_ Hff]; fold q in Hff; congruence).
  assert (ring q1) as Hr1.
  { split; [cbn [buf q1]; by rewrite length_insert|]. cbn [head tail q1]. rewrite next_mod by done. lia. }
  assert (bytes_in w ++ [u8 byte] = bytes_out w ++ contents q1) as Hin
    by (by rewrite Hc, (inv_fifo _ Hw), app_assoc).
  unfold signal_not_empty. wp_steps. cbn [queue].
  assert (intq_empty q1 = false) as ->.
  { apply not_true_iff_false. rewrite (intq_empty_spec q1 Hr1), Hc. by destruct (contents q). }
  cbn [negb]. wp_steps. cbn [not_empty q1]. destruct (not_empty q =? 0) eqn:E.
  - wp_steps. apply Z.eqb_eq in E. split; [by apply inv_transfer|]. split; [by intros ? ?|done].
  - apply Z.eqb_neq in E. destruct (inv_not_empty _ Hw E) as [Hb _]. fold q in Hb.
    unfold thread_unblock. wp_steps. cbn [threads]. rewrite Hb. unfold set_activity, set_queue. wp_steps.
    cbn [threads bytes_in bytes_out]. split; [by apply (inv_wake w)|split; [by apply loopers_wake|done]].
Qed.

Lemma take_byte_spec w : inv w → intq_empty (queue w) = false →
  wp take_byte w (λ byte w', inv w' ∧ loopers_kept w w' ∧ bytes_in w' = bytes_in w ∧
    bytes_out w' = bytes_out w ++ [byte]).
Proof.
  intros Hw He. pose proof (inv_ring _ Hw) as Hr. pose proof Hr as (Hl&Hh&Ht). unfold take_byte. wp_step. wp_step. cbv zeta.
  set (q := queue w) in *. destruct (lookup_lt_is_Some_2 (buf q) (Z.to_nat (tail q))) as [x Hx]; [lia|].
  pose proof (contents_take q x Hr He Hx) as Hc. rewrite Hx. wp_steps.
  set (q1 := mk_intq _ _ _ _ _ _) in *.
  assert (not_empty q = 0) as Hne by (destruct (decide (not_empty q = 0)) as [|Hn]; [done|];
    destruct (inv_not_empty _ Hw Hn) as [_ Hee]; fold q in Hee; congruence).
  assert (ring q1) as Hr1.
  { split; [done|]. cbn [head tail q1]. rewrite next_mod by done. lia. }
  assert (bytes_in w = (bytes_out w ++ [x]) ++ contents q1) as Hin.
  { rewrite (inv_fifo _ Hw). fold q. by rewrite Hc, <- app_assoc. }
  unfold signal_not_full. wp_steps. cbn [queue].
  assert (intq_full q1 = false) as ->.
  { apply not_true_iff_false. rewrite (intq_full_spec q1 Hr1). intros H63.
    assert (length (contents q) = 64%nat) as H64 by (rewrite Hc; cbn; lia).
    rewrite length_contents in H64. unfold size in H64. lia. }
  cbn [negb]. wp_steps. cbn [not_full q1]. destruct (not_full q =? 0) eqn:E.
  - wp_steps. apply Z.eqb_eq in E. split; [by apply inv_transfer|]. split; [by intros ? ?|done].
  - apply Z.eqb_neq in E. destruct (inv_not_full _ Hw E) as [[b Hb] _]. fold q in Hb.
    unfold thread_unblock. wp_steps. cbn [threads]. rewrite Hb. unfold set_activity, set_queue. wp_steps.
    cbn [threads bytes_in bytes_out]. split; [by apply (inv_wake w)|split; [by apply loopers_wake|done]].
Qed.

(** The only assertion that can fail: a thread that had to wait for the lock
    finds the condition changed when it gets it. *)
Definition stale_wait (w : world) (e : event) : Prop :=
  ∃ t o, e = Run t ∧ threads w !! t = Some (Locking o) ∧ holder (queue w) = 0 ∧ must_wait o (queue w) = false.

Lemma inv_block w t o : inv w → t ≠ 0 → free_activity (threads w !! t) → holder (queue w) = 0 →
  must_wait o (queue w) = true →
  wp (lock_and_wait t o) w (λ _ w', inv w' ∧ bytes_in w' = bytes_in w ∧ bytes_out w' = bytes_out w).
Proof.
  intros Hw Ht Hfree Hh Hm. unfold lock_and_wait. wp_step. wp_step. cbv zeta. rewrite Hm.
  unfold set_queue, set_activity. wp_steps. split; [|done].
  assert (∀ t', ¬ waits (threads w !! t')) as Hn.
  { intros t' Hw'. pose proof (inv_holder _ Hw t' Hw') as E. rewrite Hh in E. subst t'.
    rewrite (inv_null _ Hw) in Hw'. destruct Hw' as [? [?|?]]; congruence. }
  assert (∀ t' o', threads w !! t' ≠ Some (Blocked o')) as Hnb.
  { intros t' o' E. apply (Hn t'). exists o'. by left. }
  assert (not_empty (queue w) = 0) as He0.
  { destruct (decide (not_empty (queue w) = 0)) as [|E]; [done|]. destruct (inv_not_empty _ Hw E) as [E2 _]. by apply Hnb in E2. }
  assert (not_full (queue w) = 0) as Hf0.
  { destruct (decide (not_full (queue w) = 0)) as [|E]; [done|]. destruct (inv_not_full _ Hw E) as [[b E2] _]. by apply Hnb in E2. }
  assert (∀ t' a, <[t := Blocked o]> (threads w) !! t' = Some a → t' = t ∧ a = Blocked o ∨ t' ≠ t ∧ threads w !! t' = Some a) as Hl.
  { intros t' a. destruct (decide (t' = t)) as [->|]; [rewrite lookup_insert_eq; naive_solver|].
    rewrite lookup_insert_ne by done. auto. }
  assert (∀ t', waits (<[t := Blocked o]> (threads w) !! t') → t = t') as Hw1.
  { intros t' [o' E]. assert (∃ a, <[t := Blocked o]> (threads w) !! t' = Some a ∧ waits (Some a)) as (a&Ha&Hwa)
      by (destruct E as [E|E]; eexists; (split; [exact E|]); exists o'; auto).
    destruct (Hl _ _ Ha) as [[-> _]|[_ E']]; [done|]. destruct (Hn t'). by rewrite E'. }
  destruct Hw. cbn [queue threads bytes_in bytes_out].
  constructor; destruct o as [|b]; cbn [queue threads bytes_in bytes_out holder not_empty not_full]; rewrite ?He0, ?Hf0;
    try done; try (by rewrite lookup_insert_ne); try (intros _; rewrite lookup_insert_eq; unfold waits; by eauto);
    intros t' ? + intros t'; intros E; destruct (Hl _ _ E) as [[-> ?]|[_ E']]; try congruence; by apply Hnb in E'.
Qed.

(** ** Every step *)

Lemma acquire_spec w t o : inv w → t ≠ 0 → free_activity (threads w !! t) →
  match acquire_or_suspend t o w with
  | Ret (_, w') => inv w' ∧ bytes_in w' = bytes_in w ∧ bytes_out w' = bytes_out w
  | Fail f => f = AssertFail ∧ holder (queue w) = 0 ∧ must_wait o (queue w) = false
  end.
Proof.
  intros Hw Ht Hfree. unfold acquire_or_suspend, bind at 1, get_state. destruct (holder (queue w) =? 0) eqn:E.
  - apply Z.eqb_eq in E. destruct (must_wait o (queue w)) eqn:Hm.
    + pose proof (inv_block w t o Hw Ht Hfree E Hm) as H. unfold wp in H.
      destruct (lock_and_wait t o w) as [[[] w']|]; done.
    + unfold lock_and_wait, bind, get_state. cbv zeta. rewrite Hm. done.
  - cbn. split; [|done]. apply (inv_alter w t (Some (Locking o))); [done|done|done|]. right. right. by exists o.
Qed.

Lemma inv_release w t o : inv w → threads w !! t = Some (Woken o) →
  let q := queue w in
  inv (mk_world (mk_intq 0 (not_full q) (not_empty q) (buf q) (head q) (tail q)) (<[t := Looping o]> (threads w))
    (bytes_in w) (bytes_out w)).
Proof.
  intros Hw Ht q. assert (t ≠ 0) as H0 by (intros ->; by rewrite (inv_null _ Hw) in Ht).
  assert (holder q = t) as Hh by (apply (inv_holder _ Hw); exists o; by right).
  assert (∀ t', waits (threads w !! t') → t' = t) as Hone by (intros t' ?%(inv_holder _ Hw); unfold q in Hh; congruence).
  assert (∀ t', ¬ waits (<[t := Looping o]> (threads w) !! t')) as Hn.
  { intros t' Hw'. destruct (decide (t' = t)) as [->|Hne]; [|rewrite lookup_insert_ne in Hw' by done; by apply Hone in Hw'].
    rewrite lookup_insert_eq in Hw'. destruct Hw' as [? [?|?]]; congruence. }
  assert (∀ t' o', threads w !! t' ≠ Some (Blocked o')) as Hnb.
  { intros t' o' E. assert (t' = t) as -> by (apply Hone; exists o'; by left). congruence. }
  assert (∀ t' o', <[t := Looping o]> (threads w) !! t' ≠ Some (Blocked o')) as Hnb'.
  { intros t' o' E. apply (Hn t'). exists o'. by left. }
  destruct Hw. constructor; cbn [queue threads bytes_in bytes_out holder not_full not_empty]; try done.
  - by rewrite lookup_insert_ne.
  - intros t' ?. by destruct (Hn t').
  - intros E. destruct (inv_not_empty0 E) as [E2 _]. by apply Hnb in E2.
  - intros E. destruct (inv_not_full0 E) as [[b E2] _]. by apply Hnb in E2.
  - intros t' E. by apply Hnb' in E.
  - intros t' b E. by apply Hnb' in E.
Qed.

(** The end of the loop: the byte moves and the thread leaves. *)
Lemma finish_spec w t o : inv w → threads w !! t = Some (Looping o) → must_wait o (queue w) = false →
  wp (match o with Get => take_byte;; ret tt | Put byte => put_byte byte end;; leave t) w (λ _ w', inv w').
Proof.
  intros Hw Ha Hm. assert (t ≠ 0) as Ht by (intros ->; by rewrite (inv_null _ Hw) in Ha).
  assert (∀ w', inv w' → loopers_kept w w' → wp (leave t) w' (λ _ w2, inv w2)) as Hleave.
  { intros w' Hw' Hk. unfold leave. wp_step. apply (inv_alter w' t None); [done|done| |by left].
    right. left. exists o. by apply Hk. }
  wp_step. destruct o as [|byte]; cbn [must_wait] in Hm.
  - wp_step. eapply wp_mono; [by apply take_byte_spec|]. intros x w' (Hw'&Hk&_). wp_steps. by apply Hleave.
  - eapply wp_mono; [by apply put_byte_spec|]. intros _ w' (Hw'&Hk&_). by apply Hleave.
Qed.

Lemma run_thread_spec w t : inv w →
  match run_thread t w with
  | Ret (_, w') => inv w'
  | Fail f => f = AssertFail ∧ stale_wait w (Run t)
  end.
Proof.
  intros Hw. unfold run_thread, bind at 1, get_state. destruct (threads w !! t) as [a|] eqn:Ha; [|done].
  assert (t ≠ 0) as Ht by (intros ->; by rewrite (inv_null _ Hw) in Ha).
  destruct a as [o|o|o|o]; [| |done|].
  - assert (free_activity (threads w !! t)) as Hfree by (rewrite Ha; right; left; by exists o).
    destruct (must_wait o (queue w)) eqn:Hm.
    + pose proof (acquire_spec w t o Hw Ht Hfree) as H.
      destruct (acquire_or_suspend t o w) as [[[] w']|]; [apply H|]. destruct H as (_&_&H). congruence.
    + pose proof (finish_spec w t o Hw Ha Hm) as H. unfold wp in H. by destruct (bind _ _ w) as [[[] w']|].
  - assert (free_activity (threads w !! t)) as Hfree by (rewrite Ha; right; right; by exists o).
    pose proof (acquire_spec w t o Hw Ht Hfree) as H.
    destruct (acquire_or_suspend t o w) as [[[] w']|]; [apply H|]. destruct H as (Hf&Hh&Hm). split; [done|].
    by exists t, o.
  - assert (holder (queue w) = t) as Hh by (apply (inv_holder _ Hw); rewrite Ha; exists o; by right).
    unfold bind, ASSERT. rewrite Hh, Z.eqb_refl. cbn. by apply inv_release.
Qed.

Lemma step_spec w e : inv w →
  match step e w with
  | Ret (_, w') => inv w'
  | Fail f => f = AssertFail ∧ stale_wait w e
  end.
Proof.
  intros Hw. destruct e as [t o|t|[|byte]]; cbn [step].
  - unfold bind, get_state. case_bool_decide as Hc; [|done]. destruct Hc as [Ht Hn].
    apply (inv_alter w t (Some (Looping o))); [done|done|by left|]. right. left. by exists o.
  - by apply run_thread_spec.
  - unfold handler_get, bind at 1, get_state. destruct (intq_empty (queue w)) eqn:E; [done|].
    pose proof (take_byte_spec w Hw E) as H. unfold wp, bind in *. destruct (take_byte w) as [[x w']|]; [apply H|done].
  - unfold handler_put, bind at 1, get_state. destruct (intq_full (queue w)) eqn:E; [done|].
    pose proof (put_byte_spec w byte Hw E) as H. unfold wp in H. destruct (put_byte byte w) as [[x w']|]; [apply H|done].
Qed.

Lemma reachable_inv w : reachable w → inv w.
Proof.
  induction 1 as [q Hq|w e w' _ IH Hs].
  - assert (∀ t, ¬ waits ((∅ : gmap Z activity) !! t)) as Hn by (intros t [? [?|?]]; by rewrite lookup_empty in *).
    constructor; cbn; try done; try (intros; by rewrite lookup_empty in *).
    intros t ?. by destruct (Hn t).
  - pose proof (step_spec w e IH) as H. by rewrite Hs in H.
Qed.

(** C7: an interrupt queue is a first-in first-out buffer without lost
    wakeups, however threads and interrupt handlers interleave.  In every
    reachable state the bytes taken so far, followed by those in the queue,
    are exactly the bytes put, in order; at most 63 are queued; a reader that
    is suspended waits for an empty queue and a writer for a full one, so that
    none sleeps on a condition that has come true; at most one thread waits or
    has been woken; and a step fails on no other assertion than that of [wait]
    in a thread that had to queue for the lock. *)
Theorem intq_fifo_no_lost_wakeup w : reachable w →
  bytes_in w = bytes_out w ++ contents (queue w) ∧ (length (contents (queue w)) ≤ 63)%nat ∧
  (∀ t, threads w !! t = Some (Blocked Get) → contents (queue w) = []) ∧
  (∀ t b, threads w !! t = Some (Blocked (Put b)) → length (contents (queue w)) = 63%nat) ∧
  (∀ t t', waits (threads w !! t) → waits (threads w !! t') → t = t') ∧
  (∀ e f, step e w = Fail f → f = AssertFail ∧ stale_wait w e).
Proof.
  intros Hw%reachable_inv. pose proof (inv_ring _ Hw) as Hr. pose proof (inv_null _ Hw) as H0.
  split; [apply (inv_fifo _ Hw)|]. split; [rewrite length_contents; unfold size; lia|]. split; [|split; [|split]].
  - intros t Ht. pose proof (inv_blocked_get _ Hw t Ht) as E. apply (intq_empty_spec _ Hr), (inv_not_empty _ Hw). congruence.
  - intros t b Ht. pose proof (inv_blocked_put _ Hw t b Ht) as E. apply (intq_full_spec _ Hr), (inv_not_full _ Hw). congruence.
  - intros t t' H1%(inv_holder _ Hw) H2%(inv_holder _ Hw). congruence.
  - intros e f Hs. pose proof (step_spec w e Hw) as H. by rewrite Hs in H.
Qed.

(** With one thread at a time, and handlers, no assertion fails. *)
Definition alone (t : Z) (e : event) : Prop := match e with Call t' _ => t' = t | _ => True end.

Inductive reachable_alone (t : Z) : world → Prop :=
| alone_init q : length (buf q) = 64%nat → reachable_alone t (mk_world (intq_init q) ∅ [] [])
| alone_step w e w' : reachable_alone t w → alone t e → step e w = Ret (tt, w') → reachable_alone t w'.

Lemma reachable_alone_reachable t w : reachable_alone t w → reachable w.
Proof. induction 1; by econstructor. Qed.

Definition only (t : Z) (w : world) : Prop :=
  ∀ t' a, threads w !! t' = Some a → t' = t ∧ ∀ o, a ≠ Locking o.

Lemma only_insert t w t' a q i o : only t w → t' = t → (∀ o', a ≠ Locking o') →
  only t (mk_world q (<[t' := a]> (threads w)) i o).
Proof.
  intros Ho -> Ha t2 a2. cbn. destruct (decide (t2 = t)) as [->|Hne]; [rewrite lookup_insert_eq; naive_solver|].
  rewrite lookup_insert_ne by done. apply Ho.
Qed.

Lemma thread_unblock_only t w t' : only t w → pwp (thread_unblock t') w (λ _ w', only t w').
Proof.
  intros Ho. unfold thread_unblock. pwp_step. pwp_step. destruct (threads w !! t') as [[| |o|]|] eqn:E; try done.
  unfold set_activity. pwp_steps. destruct (Ho _ _ E) as [-> _]. by apply only_insert.
Qed.

Lemma take_byte_only t w : only t w → pwp take_byte w (λ _ w', only t w').
Proof.
  intros Ho. unfold take_byte, signal_not_full. pwp_steps. destruct (_ =? 0); pwp_steps; [done|].
  eapply pwp_mono; [by apply thread_unblock_only|]. intros [] w' Ho'. unfold set_queue. by pwp_steps.
Qed.

Lemma put_byte_only t w byte : only t w → pwp (put_byte byte) w (λ _ w', only t w').
Proof.
  intros Ho. unfold put_byte, signal_not_empty. pwp_steps. destruct (_ =? 0); pwp_steps; [done|].
  eapply pwp_mono; [by apply thread_unblock_only|]. intros [] w' Ho'. unfold set_queue. by pwp_steps.
Qed.

(** Nobody but the thread itself could hold the lock. *)
Lemma only_lock_free t w o : inv w → only t w → threads w !! t = Some (Looping o) → holder (queue w) = 0.
Proof.
  intros Hw Ho Ht. destruct (decide (holder (queue w) = 0)) as [|Hh]; [done|].
  destruct (inv_held _ Hw Hh) as [o' [E|E]]; destruct (Ho _ _ E) as [E2 _]; congruence.
Qed.

Lemma step_only t w e : inv w → only t w → alone t e → pwp (step e) w (λ _ w', only t w').
Proof.
  intros Hw Ho Ha. destruct e as [t' o|t'|[|byte]]; cbn [step alone] in *.
  - pwp_steps. case_bool_decide; [|by pwp_steps]. unfold set_activity. pwp_steps. by apply only_insert.
  - unfold run_thread. pwp_step. pwp_step. destruct (threads w !! t') as [[o|o|o|o]|] eqn:E; try (by pwp_steps).
    + destruct (Ho _ _ E) as [-> _]. destruct (must_wait o (queue w)).
      * unfold acquire_or_suspend. pwp_steps. rewrite (only_lock_free t w o) by done. cbn [Z.eqb].
        unfold lock_and_wait, set_queue, set_activity. pwp_steps. by apply only_insert.
      * pwp_step. assert (∀ w', only t w' → pwp (leave t) w' (λ _ w2, only t w2)) as Hl.
        { intros w' Ho'. unfold leave. pwp_steps. intros t2 a2; cbn [threads]; intros [_ ?]%lookup_delete_Some. by apply Ho'. }
        destruct o; [pwp_step; eapply pwp_mono; [by apply take_byte_only|]; intros; pwp_steps; by apply Hl|].
        eapply pwp_mono; [by apply put_byte_only|]. intros; by apply Hl.
    + destruct (Ho _ _ E) as [_ Hn]. by destruct (Hn o).
    + destruct (Ho _ _ E) as [-> _]. unfold set_queue, set_activity. pwp_steps. by apply only_insert.
  - unfold handler_get. pwp_steps. destruct (intq_empty _); pwp_steps; [done|].
    eapply pwp_mono; [by apply take_byte_only|]. intros. by pwp_steps.
  - unfold handler_put. pwp_steps. destruct (intq_full _); pwp_steps; [done|]. by apply put_byte_only.
Qed.

Theorem alone_never_fails t w e : reachable_alone t w → alone t e → ∃ w', step e w = Ret (tt, w').
Proof.
  intros Hr He. assert (inv w ∧ only t w) as [Hw Ho].
  { split; [by eapply reachable_inv, reachable_alone_reachable|].
    induction Hr as [q Hq|w e1 w' Hr IH He1 Hs]; [intros t' a; cbn; by rewrite lookup_empty|].
    pose proof (step_only t w e1 (reachable_inv _ (reachable_alone_reachable _ _ Hr)) IH He1) as H.
    unfold pwp in H. by rewrite Hs in H. }
  pose proof (step_spec w e Hw) as H. destruct (step e w) as [[[] w']|f]; [by exists w'|].
  destruct H as [_ (t'&o&_&E&_)]. destruct (Ho _ _ E) as [_ Hn]. by destruct (Hn o).
Qed.

(** ** Two readers *)

Fixpoint steps (es : list event) : M world unit :=
  match es with
  | [] => ret tt
  | e :: es => step e;; steps es
  end.

Lemma steps_reachable es : ∀ w w', reachable w → steps es w = Ret (tt, w') → reachable w'.
Proof.
  induction es as [|e es IH]; cbn [steps]; intros w w' Hw E; [by injection E as <-|].
  unfold bind in E. destruct (step e w) as [[[] w1]|] eqn:E1; [|done]. eapply IH; [|done]. by eapply reach_step.
Qed.

(** A queue before anything happened. *)
Definition fresh : world := mk_world (intq_init (mk_intq 0 0 0 (replicate 64 0) 0 0)) ∅ [] [].

Lemma fresh_reachable : reachable fresh.
Proof. by apply reach_init. Qed.

(** Thread 1 waits for a key and holds the lock, thread 2 queues for the lock,
    a key arrives, and thread 1 releases the lock and yields. *)
Definition two_readers : list event :=
  [Call 1 Get; Run 1; Call 2 Get; Run 2; Handler (Put 65); Run 1].

Lemma intq_fifo_no_lost_wakeup_witness :
  ∃ w, reachable w ∧ steps two_readers fresh = Ret (tt, w) ∧
    bytes_in w = bytes_out w ++ contents (queue w) ∧ (length (contents (queue w)) ≤ 63)%nat.
Proof.
  destruct (steps two_readers fresh) as [[[] w]|] eqn:E; [|by vm_compute in E].
  exists w. assert (reachable w) as Hw by (eapply steps_reachable; [apply fresh_reachable|exact E]).
  split; [exact Hw|]. split; [reflexivity|].
  destruct (intq_fifo_no_lost_wakeup w Hw) as (H1&H2&_). exact (conj H1 H2).
Defined.

(** Two threads that read the same queue can stop the kernel.  From the
    initial state the queue reaches a state in which the reader that queued
    for the lock is scheduled before the woken one has taken the byte: it
    calls [wait] although the queue is not empty, and the assertion fails. *)
Theorem two_readers_panic :
  ∃ w, reachable w ∧ steps two_readers fresh = Ret (tt, w) ∧ stale_wait w (Run 2) ∧
    contents (queue w) = [65] ∧ step (Run 2) w = Fail AssertFail.
Proof.
  destruct (steps two_readers fresh) as [[[] w]|] eqn:E; [|by vm_compute in E].
  exists w. split; [by eapply steps_reachable; [apply fresh_reachable|]|]. split; [done|].
  vm_compute in E. injection E as <-. split; [by exists 2, Get|]. by vm_compute.
Qed.
