(* ===== verification/Serial.v ===== *)
(** * The serial port (devices/serial.c, devices/input.c)

    The driver of the serial port: bytes are sent by polling until interrupts
    work, and through an interrupt queue afterwards; received bytes go to the
    input buffer, which the keyboard shares.  Both queues are those of Intq, with
    the threads that wait in them.  The port is a record of its registers:
    [status] and [incoming] are what the line status and receiver registers will
    deliver, [sent] is what was transmitted. *)

From S2P Require Import Prelude Intq.
Local Open Scope Z_scope.

(** ** The port *)

Definition IO_BASE : Z := 0x3f8.
Definition RBR_REG : Z := IO_BASE + 0.
Definition THR_REG : Z := IO_BASE + 0.
Definition IER_REG : Z := IO_BASE + 1.
Definition LS_REG : Z := IO_BASE + 0.
Definition MS_REG : Z := IO_BASE + 1.
Definition IIR_REG : Z := IO_BASE + 2.
Definition FCR_REG : Z := IO_BASE + 2.
Definition LCR_REG : Z := IO_BASE + 3.
Definition MCR_REG : Z := IO_BASE + 4.
Definition LSR_REG : Z := IO_BASE + 5.
Definition IER_RECV : Z := 0x01.
Definition IER_XMIT : Z := 0x02.
Definition LCR_N81 : Z := 0x03.
Definition LCR_DLAB : Z := 0x80.
Definition MCR_OUT2 : Z := 0x08.
Definition LSR_DR : Z := 0x01.
Definition LSR_THRE : Z := 0x20.

(** The registers of a 16550A; the divisor latch is at the first two addresses
    while [DLAB] is set in the line control register. *)
Record uart := mk_uart {
  ier : Z; fcr : Z; lcr : Z; mcr : Z; divisor_low : Z; divisor_high : Z; sent : list Z; status : list Z; incoming : list Z }.
Definition dlab (u : uart) : bool := negb (Z.land (lcr u) LCR_DLAB =? 0).

Definition uart_write (port v : Z) (u : uart) : uart :=
  if port =? THR_REG then
    if dlab u then mk_uart (ier u) (fcr u) (lcr u) (mcr u) v (divisor_high u) (sent u) (status u) (incoming u)
    else mk_uart (ier u) (fcr u) (lcr u) (mcr u) (divisor_low u) (divisor_high u) (sent u ++ [v]) (status u) (incoming u)
  else if port =? IER_REG then
    if dlab u then mk_uart (ier u) (fcr u) (lcr u) (mcr u) (divisor_low u) v (sent u) (status u) (incoming u)
    else mk_uart v (fcr u) (lcr u) (mcr u) (divisor_low u) (divisor_high u) (sent u) (status u) (incoming u)
  else if port =? FCR_REG then mk_uart (ier u) v (lcr u) (mcr u) (divisor_low u) (divisor_high u) (sent u) (status u) (incoming u)
  else if port =? LCR_REG then mk_uart (ier u) (fcr u) v (mcr u) (divisor_low u) (divisor_high u) (sent u) (status u) (incoming u)
  else if port =? MCR_REG then mk_uart (ier u) (fcr u) (lcr u) v (divisor_low u) (divisor_high u) (sent u) (status u) (incoming u)
  else u.

Definition set_status (u : uart) (r : list Z) : uart :=
  mk_uart (ier u) (fcr u) (lcr u) (mcr u) (divisor_low u) (divisor_high u) (sent u) r (incoming u).
Definition set_incoming (u : uart) (r : list Z) : uart :=
  mk_uart (ier u) (fcr u) (lcr u) (mcr u) (divisor_low u) (divisor_high u) (sent u) (status u) r.

(** ** State *)

Inductive serial_mode := UNINIT | POLL | QUEUE.
#[export] Instance serial_mode_eq_dec : EqDecision serial_mode.
Proof. solve_decision. Defined.

(** [polled] are the bytes that were sent before there was a queue (the history,
    which the code does not keep). *)
Record serial := mk_serial { mode : serial_mode; txq : world; buffer : world; port : uart; polled : list Z }.

Definition on_txq {A} (c : M world A) : M serial A :=
  λ s, match c (txq s) with Ret (a, w) => Ret (a, mk_serial (mode s) w (buffer s) (port s) (polled s)) | Fail f => Fail f end.
Definition on_buffer {A} (c : M world A) : M serial A :=
  λ s, match c (buffer s) with Ret (a, w) => Ret (a, mk_serial (mode s) (txq s) w (port s) (polled s)) | Fail f => Fail f end.
Definition set_port (u : uart) : M serial unit := modify (λ s, mk_serial (mode s) (txq s) (buffer s) u (polled s)).
Definition set_mode (m : serial_mode) : M serial unit := modify (λ s, mk_serial m (txq s) (buffer s) (port s) (polled s)).

Definition outb (p v : Z) : M serial unit := s ← get_state; set_port (uart_write p v (port s)).
(** The next value of the line status, and the next received byte. *)
Definition inb_LSR : M serial Z :=
  s ← get_state;
  match status (port s) with [] => fail OutOfFuel | x :: r => set_port (set_status (port s) r);; ret x end.
Definition inb_RBR : M serial Z :=
  s ← get_state;
  match incoming (port s) with [] => fail OutOfFuel | x :: r => set_port (set_incoming (port s) r);; ret x end.

(** ** The driver, with interrupts off *)

Definition set_serial (bps : Z) : M serial unit :=
  let base_rate := Z.quot 1843200 16 in
  let divisor := Z.quot base_rate bps in
  ASSERT ((300 <=? bps) && (bps <=? 115200));;
  outb LCR_REG (Z.lor LCR_N81 LCR_DLAB);;
  outb LS_REG (Z.land divisor 0xff);;
  outb MS_REG (Z.shiftr divisor 8);;
  outb LCR_REG LCR_N81.

Definition write_ier : M serial unit :=
  s ← get_state;
  let ier := if negb (intq_empty (queue (txq s))) then IER_XMIT else 0 in
  let ier := if negb (intq_full (queue (buffer s))) then Z.lor ier IER_RECV else ier in
  outb IER_REG ier.

(** [while ((inb (LSR_REG) & LSR_THRE) == 0)], as long as the device answers *)
Fixpoint wait_ready (fuel : nat) : M serial unit :=
  match fuel with
  | O => fail OutOfFuel
  | S fuel => x ← inb_LSR; if Z.land x LSR_THRE =? 0 then wait_ready fuel else ret tt
  end.
Definition putc_poll (byte : Z) : M serial unit :=
  s ← get_state; wait_ready (S (length (status (port s))));; outb THR_REG byte.

Definition init_poll : M serial unit :=
  s ← get_state;
  ASSERT (match mode s with UNINIT => true | _ => false end);;
  outb IER_REG 0;;
  outb FCR_REG 0;;
  set_serial 9600;;
  outb MCR_REG MCR_OUT2;;
  on_txq (modify (λ w, mk_world (intq_init (queue w)) ∅ [] []));;
  set_mode POLL.

(** [intr_register_ext] is left to Interrupt. *)
Definition serial_init_queue : M serial unit :=
  s ← get_state;
  (match mode s with UNINIT => init_poll | _ => ret tt end);;
  s ← get_state;
  ASSERT (match mode s with POLL => true | _ => false end);;
  set_mode QUEUE;;
  write_ier.

Definition serial_notify : M serial unit :=
  s ← get_state; match mode s with QUEUE => write_ier | _ => ret tt end.

(** A byte sent without the queue. *)
Definition send_polled (byte : Z) : M serial unit :=
  putc_poll byte;; modify (λ s, mk_serial (mode s) (txq s) (buffer s) (port s) (polled s ++ [byte])).

(** [serial_putc] of thread [t]; [off] says whether interrupts were off before the
    call.  If they were on and the queue is full the thread is suspended inside of
    [intq_putc], and the rest of the call is [resume]. *)
Definition putc_done (t : Z) : M serial unit :=
  s ← get_state; match threads (txq s) !! t with None => write_ier | Some _ => ret tt end.
Definition serial_putc (t byte : Z) (off : bool) : M serial unit :=
  let byte := u8 byte in
  s ← get_state;
  match mode s with
  | QUEUE =>
      if off then
        (if intq_full (queue (txq s)) then old ← on_txq take_byte; putc_poll old else ret tt);;
        on_txq (put_byte byte);;
        write_ier
      else
        on_txq (step (Call t (Put byte)));; on_txq (step (Run t));; putc_done t
  | UNINIT => init_poll;; send_polled byte
  | POLL => send_polled byte
  end.
Definition resume (t : Z) : M serial unit := on_txq (step (Run t));; putc_done t.

(** [while (!intq_empty (&txq)) putc_poll (intq_getc (&txq));] *)
Fixpoint flush_loop (fuel : nat) : M serial unit :=
  match fuel with
  | O => fail OutOfFuel
  | S fuel =>
      s ← get_state;
      if intq_empty (queue (txq s)) then ret tt else old ← on_txq take_byte; putc_poll old;; flush_loop fuel
  end.
Definition serial_flush : M serial unit := flush_loop (S (Z.to_nat INTQ_BUFSIZE)).

(** The two loops of the handler. *)
Definition input_putc (key : Z) : M serial unit :=
  s ← get_state; ASSERT (negb (intq_full (queue (buffer s))));; on_buffer (put_byte key);; serial_notify.
Fixpoint receive_loop (fuel : nat) : M serial unit :=
  match fuel with
  | O => fail OutOfFuel
  | S fuel =>
      s ← get_state;
      if intq_full (queue (buffer s)) then ret tt
      else x ← inb_LSR; if Z.land x LSR_DR =? 0 then ret tt else b ← inb_RBR; input_putc b;; receive_loop fuel
  end.
Fixpoint transmit_loop (fuel : nat) : M serial unit :=
  match fuel with
  | O => fail OutOfFuel
  | S fuel =>
      s ← get_state;
      if intq_empty (queue (txq s)) then ret tt
      else x ← inb_LSR; if Z.land x LSR_THRE =? 0 then ret tt else b ← on_txq take_byte; outb THR_REG b;; transmit_loop fuel
  end.
(** Reading [IIR_REG] changes nothing here. *)
Definition serial_interrupt : M serial unit :=
  receive_loop (S (Z.to_nat INTQ_BUFSIZE));; transmit_loop (S (Z.to_nat INTQ_BUFSIZE));; write_ier.

(** [input_getc] of thread [t], which may be suspended inside of [intq_getc]. *)
Definition getc_done (t : Z) : M serial unit :=
  s ← get_state; match threads (buffer s) !! t with None => serial_notify | Some _ => ret tt end.
Definition input_getc (t : Z) : M serial unit :=
  on_buffer (step (Call t Get));; on_buffer (step (Run t));; getc_done t.
Definition resume_getc (t : Z) : M serial unit := on_buffer (step (Run t));; getc_done t.
(** The keyboard handler tests the buffer before it stores a key. *)
Definition key_pressed (key : Z) : M serial unit :=
  s ← get_state; if intq_full (queue (buffer s)) then ret tt else input_putc key.

Inductive call :=
| Putc (t byte : Z) (off : bool) | Resume (t : Z) | Flush | InitQueue | Interrupt
| Getc (t : Z) | ResumeGetc (t : Z) | Key (key : Z).
Definition do (c : call) : M serial unit :=
  match c with
  | Putc t byte off => serial_putc t byte off | Resume t => resume t | Flush => serial_flush | InitQueue => serial_init_queue
  | Interrupt => serial_interrupt | Getc t => input_getc t | ResumeGetc t => resume_getc t | Key key => key_pressed key
  end.

(** The states of a machine: the handler is only called once it is registered. *)
Definition enabled (c : call) (s : serial) : Prop := match c with Interrupt => mode s = QUEUE | _ => True end.
Inductive runs : serial → Prop :=
| runs_start q b u : length (buf q) = 64%nat → length (buf b) = 64%nat → dlab u = false → sent u = [] →
    runs (mk_serial UNINIT (mk_world (intq_init q) ∅ [] []) (mk_world (intq_init b) ∅ [] []) u [])
| runs_call s c s' : runs s → enabled c s → do c s = Ret (tt, s') → runs s'.

(** ** The invariant *)

(** All bytes that were accepted, in order. *)
Definition given (s : serial) : list Z := polled s ++ bytes_in (txq s).

Definition puts_only (w : world) : Prop :=
  ∀ t a, threads w !! t = Some a → match a with Looping o | Locking o | Blocked o | Woken o => o ≠ Get end.

Record driver_ok (s : serial) : Prop := {
  dr_txq : inv (txq s);
  dr_buffer : inv (buffer s);
  dr_sent : sent (port s) = polled s ++ bytes_out (txq s);
  dr_dlab : dlab (port s) = false;
  dr_puts : puts_only (txq s);
  dr_poll : mode s ≠ QUEUE → bytes_in (txq s) = [] ∧ bytes_out (txq s) = [] ∧ threads (txq s) = ∅ }.

(** The interrupts that are enabled. *)
Record ier_ok (s : serial) : Prop := {
  ie_xmit : mode s = QUEUE → intq_empty (queue (txq s)) = false → Z.land (ier (port s)) IER_XMIT ≠ 0;
  ie_recv : mode s = QUEUE → (Z.land (ier (port s)) IER_RECV ≠ 0 ↔ intq_full (queue (buffer s)) = false) }.

(** ** The port *)

Implicit Types (w b : world) (u : uart) (p : list Z).

Definition transmit (u : uart) (x : Z) : uart :=
  mk_uart (ier u) (fcr u) (lcr u) (mcr u) (divisor_low u) (divisor_high u) (sent u ++ [x]) (status u) (incoming u).
Definition set_ier (u : uart) (x : Z) : uart :=
  mk_uart x (fcr u) (lcr u) (mcr u) (divisor_low u) (divisor_high u) (sent u) (status u) (incoming u).
Lemma write_THR u x : dlab u = false → uart_write THR_REG x u = transmit u x.
Proof. intros Hd. unfold uart_write. by rewrite Z.eqb_refl, Hd. Qed.
Lemma write_IER u x : dlab u = false → uart_write IER_REG x u = set_ier u x.
Proof. intros Hd. unfold uart_write. change (IER_REG =? THR_REG) with false. by rewrite Z.eqb_refl, Hd. Qed.

(** The driver with another port that has sent the same and is set up in the same way. *)
Lemma port_ok m w b u u' p :
  driver_ok (mk_serial m w b u p) → sent u' = sent u → lcr u' = lcr u → driver_ok (mk_serial m w b u' p).
Proof. intros [H1 H2 H3 H4 H5 H6] Hs Hl. cbn in *. split; cbn; [done|done|congruence|unfold dlab in *; congruence|done|done]. Qed.

Lemma wait_ready_spec fuel m w b u p :
  pwp (wait_ready fuel) (mk_serial m w b u p) (λ _ s', ∃ r, s' = mk_serial m w b (set_status u r) p).
Proof.
  revert u. induction fuel as [|fuel IH]; intros u; cbn [wait_ready]; [done|]. pwp_step. unfold inb_LSR. pwp_steps. cbn [port].
  destruct (status u) as [|x r]; [done|]. unfold set_port. pwp_steps. cbn [port mode txq buffer polled]. destruct (Z.land x LSR_THRE =? 0).
  - eapply pwp_mono; [apply IH|]. intros [] s' [r' ->]. by exists r'.
  - pwp_step. by exists r.
Qed.
(** The device gets ready. *)
Definition ready (u : uart) : Prop := ∃ r1 x r2, status u = r1 ++ x :: r2 ∧ Z.land x LSR_THRE ≠ 0.
Lemma wait_ready_returns m w b u p : ready u → wp (wait_ready (S (length (status u)))) (mk_serial m w b u p) (λ _ _, True).
Proof.
  intros (r1&x&r2&Hs&Hx). assert (∀ fuel u r1, status u = r1 ++ x :: r2 → (length (status u) < fuel)%nat →
    wp (wait_ready fuel) (mk_serial m w b u p) (λ _ _, True)) as H; [|by apply (H _ u r1 Hs); lia].
  clear u r1 Hs. induction fuel as [|fuel IH]; intros u r1 Hs Hf; [lia|]. cbn [wait_ready]. wp_step. unfold inb_LSR. wp_steps. cbn [port].
  rewrite Hs in Hf |- *. destruct r1 as [|y r1]; cbn [app length] in Hf |- *; unfold set_port; wp_steps; cbn [port mode txq buffer polled].
  - assert ((Z.land x LSR_THRE =? 0) = false) as -> by lia. by wp_step.
  - destruct (Z.land y LSR_THRE =? 0); [|by wp_step]. apply (IH _ r1); [done|]. cbn [set_status status]. lia.
Qed.

(** Sending a byte: only the port changes. *)
Lemma putc_poll_spec m w b u p x :
  dlab u = false → pwp (putc_poll x) (mk_serial m w b u p) (λ _ s', ∃ r, s' = mk_serial m w b (transmit (set_status u r) x) p).
Proof.
  intros Hd. unfold putc_poll. pwp_step. pwp_step. pwp_step. eapply pwp_mono; [apply wait_ready_spec|]. intros [] s' [r ->].
  unfold outb, set_port. pwp_steps. cbn [port mode txq buffer polled]. exists r. by rewrite write_THR.
Qed.
Lemma putc_poll_returns m w b u p x : ready u → wp (putc_poll x) (mk_serial m w b u p) (λ _ _, True).
Proof.
  intros Hr. unfold putc_poll. wp_step. wp_step. wp_step. eapply wp_mono; [by apply wait_ready_returns|]. intros [] s' _.
  unfold outb, set_port. by wp_steps.
Qed.

Lemma write_ier_spec m w b u p :
  driver_ok (mk_serial m w b u p) → wp write_ier (mk_serial m w b u p) (λ _ s', driver_ok s' ∧ ier_ok s' ∧
    ∃ x, s' = mk_serial m w b (set_ier u x) p).
Proof.
  intros Hok. unfold write_ier, outb, set_port. wp_steps. cbn [port mode txq buffer polled].
  rewrite write_IER by apply Hok. split; [by apply (port_ok m w b u)|]. split; [|by eexists].
  split; cbn [port txq buffer queue set_ier ier]; intros _.
  - intros ->. cbn [negb]. by destruct (negb (intq_full _)).
  - destruct (intq_full (queue b)), (intq_empty (queue w)); cbn; split; congruence || (intros H; by destruct H).
Qed.

(** ** The queues *)

Definition op_of (a : activity) : op := match a with Looping o | Locking o | Blocked o | Woken o => o end.
Lemma puts_only_insert w t a q i o : puts_only w → op_of a ≠ Get → puts_only (mk_world q (<[t := a]> (threads w)) i o).
Proof.
  intros Hp Ha t' a'. cbn [threads]. intros [[<- <-]|[_ Hl]]%lookup_insert_Some; [by destruct a|by apply (Hp t')].
Qed.
Lemma thread_unblock_puts w t : pwp (thread_unblock t) w (λ _ w', puts_only w → puts_only w').
Proof.
  unfold thread_unblock. pwp_step. pwp_step. destruct (threads w !! t) as [[o|o|o|o]|] eqn:E; try done.
  unfold set_activity. pwp_steps. intros Hp. apply puts_only_insert; [done|]. exact (Hp _ _ E).
Qed.
Lemma take_byte_puts w : pwp take_byte w (λ _ w', puts_only w → puts_only w').
Proof.
  unfold take_byte, signal_not_full. pwp_steps. case_match; pwp_steps; [done|].
  eapply pwp_mono; [by apply thread_unblock_puts|]. intros [] w' Hp'. unfold set_queue. by pwp_steps.
Qed.
Lemma put_byte_puts w x : pwp (put_byte x) w (λ _ w', puts_only w → puts_only w').
Proof.
  unfold put_byte, signal_not_empty. pwp_steps. case_match; pwp_steps; [done|].
  eapply pwp_mono; [by apply thread_unblock_puts|]. intros [] w' Hp'. unfold set_queue. by pwp_steps.
Qed.
Lemma wp_pwp {S A} (c : M S A) s Q : wp c s Q → pwp c s Q.
Proof. unfold wp, pwp. by destruct (c s) as [[a s']|]. Qed.

(** A thread that is still inside after it ran has moved no byte; a queue that
    threads only fill loses none to them. *)
Lemma run_history w t :
  inv w → pwp (step (Run t)) w (λ _ w', inv w' ∧ (is_Some (threads w' !! t) → bytes_in w' = bytes_in w ∧ bytes_out w' = bytes_out w) ∧
    (threads w !! t = None → w' = w) ∧ (∃ l, bytes_in w' = bytes_in w ++ l) ∧ (puts_only w → puts_only w' ∧ bytes_out w' = bytes_out w)).
Proof.
  intros Hw. apply pwp_and.
  { pose proof (run_thread_spec w t Hw) as H. unfold pwp. cbn [step]. by destruct (run_thread t w) as [[[] w']|]. }
  assert (∃ l, bytes_in w = bytes_in w ++ l) as Hnil by (exists []; by rewrite app_nil_r).
  cbn [step]. unfold run_thread. pwp_step. pwp_step. destruct (threads w !! t) as [a|] eqn:Ha; [|by pwp_step].
  assert (∀ o, op_of a = o → pwp (acquire_or_suspend t o) w (λ _ w', (is_Some (threads w' !! t) → bytes_in w' = bytes_in w ∧ bytes_out w' = bytes_out w) ∧
    (Some a = None → w' = w) ∧ (∃ l, bytes_in w' = bytes_in w ++ l) ∧ (puts_only w → puts_only w' ∧ bytes_out w' = bytes_out w))) as Hacq.
  { intros o Ho. assert (puts_only w → o ≠ Get) as Hput by (intros Hp; pose proof (Hp _ _ Ha) as H; destruct a; cbn in Ho; congruence).
    unfold acquire_or_suspend, lock_and_wait, set_queue, set_activity. pwp_steps. case_match; pwp_steps; cbn [bytes_in bytes_out]; (split; [done|]);
      (split; [done|]); (split; [done|]); intros Hp; (split; [|done]); apply (puts_only_insert w); auto. }
  destruct a as [o|o|o|o]; [|by apply Hacq|by pwp_step|].
  - destruct (must_wait o (queue w)) eqn:Hm; [by apply Hacq|]. pwp_step.
    assert (∀ w', pwp (leave t) w' (λ _ w2, threads w2 !! t = None ∧ (puts_only w' → puts_only w2) ∧ bytes_in w2 = bytes_in w' ∧ bytes_out w2 = bytes_out w')) as Hleave.
    { intros w'. unfold leave. pwp_step. cbn [threads]. split; [apply lookup_delete_eq|]. split; [|done].
      intros Hp t' a'. cbn [threads]. intros [_ Hl]%lookup_delete_Some. by apply (Hp t'). }
    destruct o as [|x].
    + pwp_step. eapply pwp_mono; [apply wp_pwp, take_byte_spec; [done|exact Hm]|]. intros x w' (_&_&Hin&_). pwp_step.
      eapply pwp_mono; [apply Hleave|]. intros [] w2 (Hn&_&Hin2&_). split; [intros [? ?]; congruence|]. split; [done|].
      split; [by rewrite Hin2, Hin|]. intros Hp. by destruct (Hp _ _ Ha).
    + eapply pwp_mono; [apply pwp_and; [apply wp_pwp, put_byte_spec; [done|exact Hm]|apply put_byte_puts]|].
      intros [] w' [(_&_&Hin&Hout) Hp']. eapply pwp_mono; [apply Hleave|]. intros [] w2 (Hn&Hp2&Hin2&Hout2).
      split; [intros [? ?]; congruence|]. split; [done|]. split; [eexists; by rewrite Hin2|]. intros Hp. split; [by auto|congruence].
  - unfold set_queue, set_activity. pwp_steps. cbn [bytes_in bytes_out]. split; [done|]. split; [done|]. split; [done|]. intros Hp. split; [|done].
    apply (puts_only_insert w); [done|]. exact (Hp _ _ Ha).
Qed.
(** The queue holds the same if the histories are the same. *)
Lemma same_history w w' : inv w → inv w' → bytes_in w' = bytes_in w → bytes_out w' = bytes_out w →
  intq_empty (queue w') = intq_empty (queue w) ∧ intq_full (queue w') = intq_full (queue w).
Proof.
  intros Hw Hw' Hi Ho. assert (contents (queue w') = contents (queue w)) as Hc.
  { apply (app_inv_head (bytes_out w)). rewrite <- Ho at 1. by rewrite <- (inv_fifo _ Hw), <- (inv_fifo _ Hw'). }
  split; apply eq_true_iff_eq; [rewrite !intq_empty_spec|rewrite !intq_full_spec]; by rewrite ?Hc; try apply inv_ring.
Qed.

(** ** Operations of the driver *)

Lemma pwp_on_txq {A} (c : M world A) m w b u p Q : pwp c w (λ x w', Q x (mk_serial m w' b u p)) → pwp (on_txq c) (mk_serial m w b u p) Q.
Proof. unfold pwp, on_txq. cbn [txq]. by destruct (c w) as [[x w']|]. Qed.
Lemma pwp_on_buffer {A} (c : M world A) m w b u p Q : pwp c b (λ x b', Q x (mk_serial m w b' u p)) → pwp (on_buffer c) (mk_serial m w b u p) Q.
Proof. unfold pwp, on_buffer. cbn [buffer]. by destruct (c b) as [[x b']|]. Qed.

Lemma queued_mode m w b u p : driver_ok (mk_serial m w b u p) → intq_empty (queue w) = false → m = QUEUE.
Proof.
  intros Hok He. pose proof (dr_txq _ Hok) as Hw. pose proof (dr_poll _ Hok) as Hp. cbn in *. destruct m; [| |done];
    destruct Hp as (Hi&_&_); try done; pose proof (inv_fifo _ Hw) as Hf; rewrite Hi in Hf; symmetry in Hf; apply app_nil in Hf as [_ Hc];
    apply (intq_empty_spec _ (inv_ring _ Hw)) in Hc; congruence.
Qed.

(** The oldest byte leaves the queue and is sent. *)
Lemma take_and_send m w b u p (send : Z → M serial unit) :
  driver_ok (mk_serial m w b u p) → intq_empty (queue w) = false →
  (∀ w' x, pwp (send x) (mk_serial m w' b u p) (λ _ s', ∃ r, s' = mk_serial m w' b (transmit (set_status u r) x) p)) →
  pwp (x ← on_txq take_byte; send x) (mk_serial m w b u p) (λ _ s', ∃ w' u', s' = mk_serial m w' b u' p ∧ driver_ok s' ∧
    bytes_in w' = bytes_in w ∧ ier u' = ier u).
Proof.
  intros Hok He Hsend. pose proof (queued_mode _ _ _ _ _ Hok He) as ->. destruct Hok as [H1 H2 H3 H4 H5 H6]. cbn in *. pwp_step. apply pwp_on_txq.
  eapply pwp_mono; [apply pwp_and; [apply wp_pwp, take_byte_spec; done|apply take_byte_puts]|]. intros x w' [(Hw'&_&Hin&Hout) Hp'].
  eapply pwp_mono; [apply Hsend|]. intros [] s' [r ->]. exists w', (transmit (set_status u r) x). split; [done|]. split; [|done].
  split; cbn; [done|done| |done|by auto|done]. by rewrite H3, Hout, app_assoc.
Qed.

Lemma putc_done_spec m w b u p t :
  driver_ok (mk_serial m w b u p) → (is_Some (threads w !! t) → ier_ok (mk_serial m w b u p)) →
  pwp (putc_done t) (mk_serial m w b u p) (λ _ s', driver_ok s' ∧ ier_ok s' ∧ ∃ x, s' = mk_serial m w b x p).
Proof.
  intros Hok Hier. unfold putc_done. pwp_step. pwp_step. cbn [txq]. destruct (threads w !! t) eqn:E.
  - pwp_step. split; [done|]. split; [by apply Hier|by exists u].
  - apply wp_pwp. eapply wp_mono; [by apply write_ier_spec|]. intros [] s' (?&?&x&->). split; [done|]. split; [done|]. by eexists.
Qed.

Definition ok (s : serial) : Prop := driver_ok s ∧ ier_ok s.
Definition grows (s s' : serial) : Prop := ∃ l, given s' = given s ++ l.
Lemma given_grows_refl s : grows s s.
Proof. exists []. by rewrite app_nil_r. Qed.

Lemma resume_spec s t : ok s → pwp (resume t) s (λ _ s', ok s' ∧ grows s s').
Proof.
  destruct s as [m w b u p]. intros [Hok Hier]. unfold resume. pwp_step. apply pwp_on_txq.
  eapply pwp_mono; [apply run_history, (dr_txq _ Hok)|]. intros [] w' (Hw'&Hsame&Hnone&[l Hl]&Hputs).
  destruct (Hputs (dr_puts _ Hok)) as [Hp' Hout]. cbn in *.
  assert (driver_ok (mk_serial m w' b u p)) as Hok'.
  { pose proof Hok as [H1 H2 H3 H4 H5 H6]. cbn in *. split; cbn; [done|done|by rewrite Hout|done|done|]. intros Hm. destruct (H6 Hm) as (Hi&Ho&Ht).
    rewrite Hnone; [done|]. by rewrite Ht, lookup_empty. }
  eapply pwp_mono; [apply putc_done_spec; [done|]|].
  - intros Hin. destruct (Hsame Hin) as [Hi Ho]. destruct (same_history w w' (dr_txq _ Hok) Hw' Hi Ho) as [He _]. destruct Hier as [Hx Hr]. cbn in *.
    split; cbn; [by rewrite He|done].
  - intros [] s' (H1&H2&x&->). split; [done|]. exists l. unfold given. cbn. by rewrite Hl, app_assoc.
Qed.

Lemma pwp_assoc {S A B C} (c : M S A) (k : A → M S B) (k' : B → M S C) s Q :
  pwp (bind (bind c k) k') s Q → pwp (bind c (λ a, bind (k a) k')) s Q.
Proof. unfold pwp, bind. by destruct (c s) as [[a s']|]. Qed.

(** What leaves queue, port and mode alone except for the interrupts. *)
Lemma serial_notify_spec m w b u p :
  driver_ok (mk_serial m w b u p) → wp serial_notify (mk_serial m w b u p) (λ _ s', ok s' ∧ ∃ u', s' = mk_serial m w b u' p).
Proof.
  intros Hok. unfold serial_notify. wp_steps. cbn [mode]. destruct m.
  1,2: wp_step; split; [split; [done|split; done]|by exists u].
  eapply wp_mono; [by apply write_ier_spec|]. intros [] s' (H1&H2&x&->). split; [by split|]. by eexists.
Qed.

(** A byte is accepted by the queue. *)
Lemma put_spec w b u p x :
  driver_ok (mk_serial QUEUE w b u p) → intq_full (queue w) = false →
  wp (on_txq (put_byte x);; write_ier) (mk_serial QUEUE w b u p) (λ _ s', ok s' ∧ given s' = given (mk_serial QUEUE w b u p) ++ [u8 x]).
Proof.
  intros [H1 H2 H3 H4 H5 H6] Hf. cbn in *. pose proof (put_byte_spec w x H1 Hf) as Hput. apply wp_outcome in Hput as ([]&w'&Hrun&Hw'&_&Hin&Hout).
  pose proof (put_byte_puts w x) as Hp. unfold pwp in Hp. rewrite Hrun in Hp. wp_step.
  eapply (wp_run (on_txq (put_byte x))); [unfold on_txq; cbn [txq]; by rewrite Hrun|].
  eapply wp_mono; [apply write_ier_spec; split; cbn; [done|done|by rewrite Hout|done|by auto|done]|].
  intros [] s' (Ha&Hb&y&->). split; [by split|]. unfold given. cbn. by rewrite Hin, app_assoc.
Qed.
Lemma full_nonempty w : inv w → intq_full (queue w) = true → intq_empty (queue w) = false.
Proof.
  intros Hw Hf%(intq_full_spec _ (inv_ring _ Hw)). apply not_true_iff_false. intros He%(intq_empty_spec _ (inv_ring _ Hw)). by rewrite He in Hf.
Qed.
Lemma taken_room w w' x : inv w → inv w' → bytes_in w' = bytes_in w → bytes_out w' = bytes_out w ++ [x] → intq_full (queue w') = false.
Proof.
  intros Hw Hw' Hi Ho. apply not_true_iff_false. intros Hf%(intq_full_spec _ (inv_ring _ Hw')).
  pose proof (f_equal length (inv_fifo _ Hw)) as E1. pose proof (f_equal length (inv_fifo _ Hw')) as E2.
  rewrite Hi, Ho in E2. rewrite !length_app in *. cbn [length] in *. rewrite E1 in E2. pose proof (length_contents (queue w)) as Hl.
  unfold size in Hl. lia.
Qed.

(** [serial_putc] with interrupts off. *)
Lemma putc_off_spec w b u p t x :
  ok (mk_serial QUEUE w b u p) → pwp (serial_putc t x true) (mk_serial QUEUE w b u p) (λ _ s', ok s' ∧ given s' = given (mk_serial QUEUE w b u p) ++ [u8 x]).
Proof.
  intros [Hok Hier]. unfold serial_putc. cbv zeta. pwp_step. pwp_step. cbn [mode]. cbn [txq]. pwp_step.
  assert (u8 (u8 x) = u8 x) as Hu by (unfold u8; by rewrite Z.mod_mod).
  destruct (intq_full (queue w)) eqn:Hf.
  - pose proof (dr_txq _ Hok) as Hw. cbn in Hw. pwp_step. apply pwp_on_txq.
    eapply pwp_mono; [apply pwp_and; [apply wp_pwp, take_byte_spec; [done|by apply full_nonempty]|apply take_byte_puts]|].
    intros y w' [(Hw'&_&Hin&Hout) Hp']. destruct Hok as [_ H2 H3 H4 H5 H6]. cbn in *.
    eapply pwp_mono; [by apply putc_poll_spec|]. intros [] s' [r ->].
    apply wp_pwp. eapply wp_mono; [apply put_spec; [|by eapply (taken_room w)]|].
    + split; cbn; [done|done|by rewrite H3, Hout, app_assoc|done|by auto|done].
    + intros [] s' [? Hg]. split; [done|]. rewrite Hg, Hu. unfold given. cbn. by rewrite Hin.
  - pwp_step. apply wp_pwp. eapply wp_mono; [by apply put_spec|]. intros [] s' [? Hg]. by rewrite Hu in Hg.
Qed.
(** It returns when the device gets ready. *)
Lemma putc_off_returns w b u p t x :
  ok (mk_serial QUEUE w b u p) → ready u → wp (serial_putc t x true) (mk_serial QUEUE w b u p) (λ _ _, True).
Proof.
  intros [Hok Hier] Hr. unfold serial_putc. cbv zeta. wp_step. wp_step. cbn [mode]. cbn [txq]. wp_step.
  destruct (intq_full (queue w)) eqn:Hf; [|wp_step; eapply wp_mono; [by apply put_spec|done]].
  pose proof (dr_txq _ Hok) as Hw. cbn in Hw.
  destruct (proj1 (wp_outcome _ _ _) (take_byte_spec w Hw (full_nonempty w Hw Hf))) as (y&w'&Hrun&Hw'&_&Hin&Hout).
  pose proof (take_byte_puts w) as Hp. unfold pwp in Hp. rewrite Hrun in Hp. destruct Hok as [_ H2 H3 H4 H5 H6]. cbn in H2, H3, H4, H5, H6.
  wp_step. eapply (wp_run (on_txq take_byte)); [unfold on_txq; cbn [txq]; by rewrite Hrun|].
  pose proof (putc_poll_returns QUEUE w' b u p y Hr) as ([]&s'&Hpoll&_)%wp_outcome. pose proof (putc_poll_spec QUEUE w' b u p y H4) as Hs.
  unfold pwp in Hs. cbn [mode buffer port polled]. rewrite Hpoll in Hs. destruct Hs as [r ->]. eapply wp_run; [exact Hpoll|].
  eapply wp_mono; [apply put_spec; [|by eapply (taken_room w)]|done].
  split; cbn; [done|done|by rewrite H3, Hout, app_assoc|done|by auto|done].
Qed.

(** [serial_putc] with interrupts on. *)
Lemma putc_on_spec w b u p t x :
  ok (mk_serial QUEUE w b u p) → pwp (serial_putc t x false) (mk_serial QUEUE w b u p) (λ _ s', ok s' ∧ grows (mk_serial QUEUE w b u p) s').
Proof.
  intros [Hok Hier]. unfold serial_putc. cbv zeta. pwp_step. pwp_step. cbn [mode]. pwp_step. apply pwp_on_txq.
  assert (pwp (step (Call t (Put (u8 x)))) w (λ _ w', inv w' ∧ puts_only w' ∧ queue w' = queue w ∧ bytes_in w' = bytes_in w ∧ bytes_out w' = bytes_out w)) as Hcall.
  { pose proof (step_spec w (Call t (Put (u8 x))) (dr_txq _ Hok)) as Hst. pose proof (dr_puts _ Hok) as Hp. cbn in Hp. revert Hst.
    cbn [step]. unfold pwp, bind, get_state. case_bool_decide; cbn; [|done]. intros Hst. split; [done|]. split; [by apply (puts_only_insert w)|done]. }
  eapply pwp_mono; [exact Hcall|]. intros [] w' (Hw'&Hp'&Hq&Hi&Ho). cbn.
  eapply pwp_mono; [apply (resume_spec (mk_serial QUEUE w' b u p))|].
  - destruct Hok as [H1 H2 H3 H4 H5 H6], Hier as [Hx Hr]. cbn in *. split; (split; cbn); [done|done|by rewrite Ho|done|done|done|by rewrite Hq|done].
  - intros [] s' [Hs' [l Hl]]. split; [done|]. exists l. rewrite Hl. unfold given. cbn. by rewrite Hi.
Qed.

(** *** Setting up *)
Lemma fresh_inv (q : intq) : length (buf q) = 64%nat → inv (mk_world (intq_init q) ∅ [] []).
Proof. intros Hq. by apply reachable_inv, reach_init. Qed.
Lemma no_puts q i o : puts_only (mk_world q ∅ i o).
Proof. intros t a. cbn [threads]. by rewrite lookup_empty. Qed.

(** 9600 bits per second, 8 data bits, no parity, one stop bit. *)
Definition set_up (u : uart) : Prop := divisor_low u + 256 * divisor_high u = 12 ∧ lcr u = LCR_N81 ∧ mcr u = MCR_OUT2.
Lemma set_up_port u :
  dlab u = false →
  uart_write MCR_REG MCR_OUT2 (uart_write LCR_REG LCR_N81 (uart_write MS_REG (Z.shiftr (Z.quot (Z.quot 1843200 16) 9600) 8)
    (uart_write LS_REG (Z.land (Z.quot (Z.quot 1843200 16) 9600) 0xff) (uart_write LCR_REG (Z.lor LCR_N81 LCR_DLAB)
      (uart_write FCR_REG 0 (uart_write IER_REG 0 u)))))) =
  mk_uart 0 0 LCR_N81 MCR_OUT2 12 0 (sent u) (status u) (incoming u).
Proof. intros Hd. rewrite (write_IER u 0 Hd). by destruct u. Qed.
Lemma init_poll_spec w b u p :
  driver_ok (mk_serial UNINIT w b u p) → wp init_poll (mk_serial UNINIT w b u p) (λ _ s', driver_ok s' ∧ mode s' = POLL ∧
    given s' = p ∧ set_up (port s') ∧ buffer s' = b ∧ status (port s') = status u).
Proof.
  intros Hok. pose proof (dr_dlab _ Hok : dlab u = false) as Hd. destruct Hok as [H1 H2 H3 _ H5 H6]. cbn in H1, H2, H3, H5, H6.
  destruct (H6 ltac:(done)) as (_&Ho&_). unfold init_poll, set_serial, outb, set_port, set_mode. wp_steps. cbn [port mode txq buffer polled].
  rewrite (set_up_port u Hd). eapply (wp_run (on_txq _)); [reflexivity|]. wp_steps. split; [|split; [done|split; [apply app_nil_r|done]]].
  split; cbn; [apply fresh_inv, (inv_ring _ H1)|done|by rewrite H3, Ho|done|apply no_puts|done].
Qed.

Lemma send_polled_spec m w b u p x :
  driver_ok (mk_serial m w b u p) → m ≠ QUEUE → pwp (send_polled x) (mk_serial m w b u p) (λ _ s', ok s' ∧ given s' = p ++ [x]).
Proof.
  intros [H1 H2 H3 H4 H5 H6] Hm. cbn in *. destruct (H6 Hm) as (Hi&Ho&Ht). unfold send_polled. pwp_step.
  eapply pwp_mono; [by apply putc_poll_spec|]. intros [] s' [r ->]. pwp_step. cbn. unfold given. cbn. rewrite Hi, app_nil_r. split; [|done].
  split; (split; cbn); [done|done|by rewrite H3, Ho, !app_nil_r|done|done|done|done|done].
Qed.

Lemma serial_putc_spec s t x off :
  ok s → pwp (serial_putc t x off) s (λ _ s', ok s' ∧ grows s s' ∧ (off = true ∨ mode s ≠ QUEUE → given s' = given s ++ [u8 x])).
Proof.
  destruct s as [m w b u p]. intros [Hok Hier]. destruct (decide (m = QUEUE)) as [->|Hm].
  - destruct off.
    + eapply pwp_mono; [by apply putc_off_spec|]. intros [] s' [? Hg]. split; [done|]. split; [by eexists|done].
    + eapply pwp_mono; [by apply putc_on_spec|]. intros [] s' [? Hg]. split; [done|]. split; [done|]. cbn. intros [?|?]; done.
  - assert (given (mk_serial m w b u p) = p) as Hgiven.
    { unfold given. cbn. destruct (dr_poll _ Hok Hm) as [Hi _]. cbn in Hi. by rewrite Hi, app_nil_r. }
    rewrite Hgiven. unfold serial_putc, grows. rewrite Hgiven. cbv zeta. pwp_step. pwp_step. cbn [mode]. destruct m; [| |done].
    + pwp_step. eapply pwp_mono; [by apply wp_pwp, init_poll_spec|]. intros [] [m w' b' u' p'] (Hok'&Hmode&Hg&_). cbn in Hmode. subst m.
      assert (p' = p) as ->.
      { unfold given in Hg. cbn in Hg. destruct (dr_poll _ Hok' ltac:(done)) as [Hi _]. cbn in Hi. by rewrite Hi, app_nil_r in Hg. }
      eapply pwp_mono; [by apply send_polled_spec|]. intros [] s' [? Hg']. split; [done|]. split; [by eexists|done].
    + eapply pwp_mono; [by apply send_polled_spec|]. intros [] s' [? Hg]. split; [done|]. split; [by eexists|done].
Qed.

Lemma serial_init_queue_spec s : ok s → pwp serial_init_queue s (λ _ s', ok s' ∧ given s' = given s ∧ mode s' = QUEUE).
Proof.
  intros [Hok Hier]. unfold serial_init_queue. pwp_step. pwp_step. pwp_step.
  assert (pwp (match mode s with UNINIT => init_poll | _ => ret tt end) s (λ _ s', driver_ok s' ∧ given s' = given s)) as Hinit.
  { destruct s as [m w b u p]. cbn [mode]. destruct m; [|by pwp_step..].
    eapply pwp_mono; [by apply wp_pwp, init_poll_spec|]. intros [] s' (?&_&Hg&_). split; [done|]. rewrite Hg. unfold given. cbn.
    destruct (dr_poll _ Hok ltac:(done)) as [Hi _]. cbn in Hi. by rewrite Hi, app_nil_r. }
  eapply pwp_mono; [exact Hinit|]. intros [] [m w b u p] [Hok' Hg]. pwp_step. pwp_step. pwp_step. pwp_step. unfold set_mode. pwp_step. pwp_step.
  cbn [mode txq buffer port polled]. apply wp_pwp. eapply wp_mono; [apply write_ier_spec; by destruct Hok'|]. intros [] s' (?&?&x&->). split; [by split|]. split; [exact Hg|done].
Qed.

(** *** Sending what is queued *)
Lemma serial_flush_loop_spec fuel m w b u p :
  ok (mk_serial m w b u p) → pwp (flush_loop fuel) (mk_serial m w b u p) (λ _ s', ok s' ∧ given s' = given (mk_serial m w b u p) ∧
    intq_empty (queue (txq s')) = true).
Proof.
  revert w u. induction fuel as [|fuel IH]; intros w u [Hok Hier]; cbn [flush_loop]; [done|]. pwp_step. pwp_step. cbn [txq].
  destruct (intq_empty (queue w)) eqn:He; [by pwp_step|]. apply pwp_assoc. pwp_step.
  eapply pwp_mono; [apply take_and_send; [done|done|intros w' x; apply putc_poll_spec, (dr_dlab _ Hok)]|].
  intros [] s' (w'&u'&->&Hok'&Hin&Hi). pose proof (queued_mode _ _ _ _ _ Hok He) as ->.
  eapply pwp_mono; [apply IH; split; [done|]|].
  - destruct Hier as [Hx Hr]. cbn in *. split; cbn; rewrite ?Hi; [intros _ _; by apply Hx|done].
  - intros [] s' (?&Hg&?). split; [done|]. split; [|done]. rewrite Hg. unfold given. cbn. by rewrite Hin.
Qed.

Lemma transmit_loop_spec fuel w b u p :
  driver_ok (mk_serial QUEUE w b u p) → pwp (transmit_loop fuel) (mk_serial QUEUE w b u p) (λ _ s', ∃ w' u', s' = mk_serial QUEUE w' b u' p ∧
    driver_ok s' ∧ bytes_in w' = bytes_in w).
Proof.
  revert w u. induction fuel as [|fuel IH]; intros w u Hok; cbn [transmit_loop]; [done|]. pwp_step. pwp_step. cbn [txq].
  destruct (intq_empty (queue w)) eqn:He; [pwp_step; by exists w, u|]. pwp_step. unfold inb_LSR. pwp_steps. cbn [port].
  destruct (status u) as [|x r]; [done|]. unfold set_port. pwp_steps. cbn [port mode txq buffer polled].
  assert (driver_ok (mk_serial QUEUE w b (set_status u r) p)) as Hok1 by (by eapply port_ok).
  destruct (Z.land x LSR_THRE =? 0); [pwp_step; by exists w, (set_status u r)|]. apply pwp_assoc. pwp_step.
  eapply pwp_mono; [apply take_and_send; [done|done|]|].
  - intros w' y. unfold outb, set_port. pwp_steps. cbn [port mode txq buffer polled]. exists r. by rewrite write_THR by apply (dr_dlab _ Hok1).
  - intros [] s' (w'&u'&->&Hok'&Hin&_). eapply pwp_mono; [by apply IH|]. intros [] s' (w2&u2&->&?&?). exists w2, u2. split; [done|]. split; [done|congruence].
Qed.

(** *** The input buffer *)
Lemma input_putc_spec m w b u p x :
  driver_ok (mk_serial m w b u p) → pwp (input_putc x) (mk_serial m w b u p) (λ _ s', ok s' ∧ ∃ b' u', s' = mk_serial m w b' u' p).
Proof.
  intros Hok. unfold input_putc. pwp_step. pwp_step. pwp_step. pwp_step. cbn [buffer] in *. pwp_step. apply pwp_on_buffer.
  eapply pwp_mono; [apply wp_pwp, put_byte_spec; [apply (dr_buffer _ Hok)|by apply negb_true_iff]|]. intros [] b' (Hb'&_). apply wp_pwp.
  eapply wp_mono; [apply serial_notify_spec; destruct Hok; by split|]. intros [] s' [? [u' ->]]. split; [done|]. by exists b', u'.
Qed.
Lemma receive_loop_spec fuel m w b u p :
  driver_ok (mk_serial m w b u p) → pwp (receive_loop fuel) (mk_serial m w b u p) (λ _ s', driver_ok s' ∧ ∃ b' u', s' = mk_serial m w b' u' p).
Proof.
  revert b u. induction fuel as [|fuel IH]; intros b u Hok; cbn [receive_loop]; [done|]. pwp_step. pwp_step. cbn [buffer].
  destruct (intq_full (queue b)) eqn:Hf; [pwp_step; eauto|]. pwp_step. unfold inb_LSR. pwp_steps. cbn [port].
  destruct (status u) as [|x r]; [done|]. unfold set_port. pwp_steps. cbn [port mode txq buffer polled].
  assert (driver_ok (mk_serial m w b (set_status u r) p)) as Hok1 by (by eapply port_ok).
  destruct (Z.land x LSR_DR =? 0); [pwp_step; eauto|]. pwp_step. unfold inb_RBR. pwp_steps. cbn [port incoming set_status].
  destruct (incoming u) as [|y r']; [done|]. unfold set_port. pwp_steps. cbn [port mode txq buffer polled].
  eapply pwp_mono; [apply input_putc_spec; by eapply port_ok|]. intros [] s' [[Hok' _] (b'&u'&->)].
  eapply pwp_mono; [by apply IH|]. intros [] s' [? (b2&u2&->)]. eauto.
Qed.

Lemma serial_interrupt_spec s : ok s → mode s = QUEUE → pwp serial_interrupt s (λ _ s', ok s' ∧ given s' = given s).
Proof.
  destruct s as [m w b u p]. intros [Hok Hier] Hm. cbn in Hm. subst m. unfold serial_interrupt. pwp_step.
  eapply pwp_mono; [by apply receive_loop_spec|]. intros [] s' [Hok1 (b'&u'&->)]. pwp_step.
  eapply pwp_mono; [by apply transmit_loop_spec|]. intros [] s' (w2&u2&->&Hok2&Hin). apply wp_pwp.
  eapply wp_mono; [by apply write_ier_spec|]. intros [] s' (?&?&x&->). split; [by split|]. unfold given. cbn. by rewrite Hin.
Qed.

Lemma getc_done_spec m w b u p t :
  driver_ok (mk_serial m w b u p) → (is_Some (threads b !! t) → ier_ok (mk_serial m w b u p)) →
  pwp (getc_done t) (mk_serial m w b u p) (λ _ s', ok s' ∧ given s' = given (mk_serial m w b u p)).
Proof.
  intros Hok Hier. unfold getc_done. pwp_step. pwp_step. cbn [buffer]. destruct (threads b !! t) eqn:E.
  - pwp_step. split; [split; [done|by apply Hier]|done].
  - apply wp_pwp. eapply wp_mono; [by apply serial_notify_spec|]. intros [] s' [? [u' ->]]. done.
Qed.
Lemma resume_getc_spec s t : ok s → pwp (resume_getc t) s (λ _ s', ok s' ∧ given s' = given s).
Proof.
  destruct s as [m w b u p]. intros [Hok Hier]. unfold resume_getc. pwp_step. apply pwp_on_buffer.
  eapply pwp_mono; [apply run_history, (dr_buffer _ Hok)|]. intros [] b' (Hb'&Hsame&_).
  eapply pwp_mono; [apply getc_done_spec; [destruct Hok; by split|]|done].
  intros Hin. destruct (Hsame Hin) as [Hi Ho]. destruct (same_history b b' (dr_buffer _ Hok) Hb' Hi Ho) as [_ Hf]. destruct Hier as [Hx Hr]. cbn in *.
  split; cbn; [done|by rewrite Hf].
Qed.
Lemma input_getc_spec s t : ok s → pwp (input_getc t) s (λ _ s', ok s' ∧ given s' = given s).
Proof.
  destruct s as [m w b u p]. intros [Hok Hier]. unfold input_getc. pwp_step. apply pwp_on_buffer.
  assert (pwp (step (Call t Get)) b (λ _ b', inv b' ∧ queue b' = queue b)) as Hcall.
  { pose proof (step_spec b (Call t Get) (dr_buffer _ Hok)) as Hst. revert Hst. cbn [step]. unfold pwp, bind, get_state.
    case_bool_decide; cbn; [|done]. by intros Hst. }
  eapply pwp_mono; [exact Hcall|]. intros [] b' [Hb' Hq].
  apply (resume_getc_spec (mk_serial m w b' u p)). destruct Hok as [H1 H2 H3 H4 H5 H6], Hier as [Hx Hr]. cbn in *.
  split; (split; cbn); [done|done|done|done|done|done|done|by rewrite Hq].
Qed.

(** ** Every call *)
Lemma grows_same s s' : given s' = given s → grows s s'.
Proof. intros E. exists []. by rewrite E, app_nil_r. Qed.
Lemma do_spec s c : ok s → enabled c s → pwp (do c) s (λ _ s', ok s' ∧ grows s s').
Proof.
  intros Hok He. destruct c as [t x off|t| | | |t|t|key]; cbn [do].
  - eapply pwp_mono; [by apply serial_putc_spec|]. intros [] s' (?&?&_). done.
  - by apply resume_spec.
  - destruct s as [m w b u p]. eapply pwp_mono; [by apply serial_flush_loop_spec|]. intros [] s' (?&?&_). split; [done|by apply grows_same].
  - eapply pwp_mono; [by apply serial_init_queue_spec|]. intros [] s' (?&?&_). split; [done|by apply grows_same].
  - eapply pwp_mono; [by apply serial_interrupt_spec|]. intros [] s' [? ?]. split; [done|by apply grows_same].
  - eapply pwp_mono; [by apply input_getc_spec|]. intros [] s' [? ?]. split; [done|by apply grows_same].
  - eapply pwp_mono; [by apply resume_getc_spec|]. intros [] s' [? ?]. split; [done|by apply grows_same].
  - destruct s as [m w b u p]. unfold key_pressed. pwp_step. pwp_step. cbn [buffer]. destruct (intq_full (queue b)).
    + pwp_step. split; [done|apply given_grows_refl].
    + eapply pwp_mono; [apply input_putc_spec, Hok|]. intros [] s' [? (b'&u'&->)]. split; [done|by apply grows_same].
Qed.
Lemma runs_ok s : runs s → ok s.
Proof.
  induction 1 as [q b u Hq Hb Hd Hs|s c s' _ IH He Hdo].
  - split; (split; cbn); [by apply fresh_inv|by apply fresh_inv|done|done|apply no_puts|done|done|done].
  - pose proof (do_spec s c IH He) as H. unfold pwp in H. rewrite Hdo in H. apply H.
Qed.
Lemma putc_returns s t x : ok s → ready (port s) → wp (serial_putc t x true) s (λ _ _, True).
Proof.
  destruct s as [m w b u p]. intros [Hok Hier] Hr. destruct m; [| |by apply putc_off_returns]; unfold serial_putc; cbv zeta; wp_step; wp_step; cbn [mode].
  - wp_step. eapply wp_mono; [by apply init_poll_spec|]. intros [] [m w' b' u' p'] (_&_&_&_&_&Hst). unfold send_polled. wp_step.
    cbn in Hst. eapply wp_mono; [apply putc_poll_returns; unfold ready; rewrite Hst; exact Hr|]. intros [] s' _. by wp_step.
  - unfold send_polled. wp_step. eapply wp_mono; [by apply putc_poll_returns|]. intros [] s' _. by wp_step.
Qed.

(** C24: The serial line transmits bytes in the order in which they were given to [serial_putc], however
    threads, interrupts and the start of interrupt-driven output interleave, and drops none: in
    every state, what was sent followed by what is queued is what was accepted so far.  Once
    output is interrupt-driven, the transmit interrupt is enabled whenever a byte is
    queued, so no byte is stuck, and the receive interrupt is enabled exactly while the input buffer has
    room; before that nothing is queued.  No call takes back a byte.  With interrupts off,
    [serial_putc] always returns once the device gets ready, even if the queue is full, and accepts its byte. *)
Theorem serial_line_in_order (s : serial) :
  runs s →
  sent (port s) ++ contents (queue (txq s)) = given s ∧
  (mode s = QUEUE → (contents (queue (txq s)) ≠ [] → Z.land (ier (port s)) IER_XMIT ≠ 0) ∧
     (Z.land (ier (port s)) IER_RECV ≠ 0 ↔ length (contents (queue (buffer s))) ≠ 63%nat)) ∧
  (mode s ≠ QUEUE → contents (queue (txq s)) = []) ∧
  (∀ c s', enabled c s → do c s = Ret (tt, s') → ∃ l, given s' = given s ++ l) ∧
  (∀ t x, ready (port s) → ∃ s', serial_putc t x true s = Ret (tt, s') ∧ given s' = given s ++ [u8 x]).
Proof.
  intros [Hok Hier]%runs_ok. pose proof (dr_txq _ Hok) as Hw. pose proof (dr_buffer _ Hok) as Hb.
  assert (∀ w, inv w → intq_empty (queue w) = false ↔ contents (queue w) ≠ []) as He.
  { intros w Hw'. rewrite <- not_true_iff_false. by rewrite (intq_empty_spec _ (inv_ring _ Hw')). }
  assert (∀ w, inv w → intq_full (queue w) = false ↔ length (contents (queue w)) ≠ 63%nat) as Hf.
  { intros w Hw'. rewrite <- not_true_iff_false. by rewrite (intq_full_spec _ (inv_ring _ Hw')). }
  split; [rewrite (dr_sent _ Hok), <- app_assoc; unfold given; by rewrite <- (inv_fifo _ Hw)|]. split; [|split; [|split]].
  - intros Hm. split; [intros Hc; apply (ie_xmit _ Hier); [done|by apply He]|]. rewrite <- (Hf _ Hb). by apply (ie_recv _ Hier).
  - intros Hm. destruct (dr_poll _ Hok Hm) as (Hi&_). pose proof (inv_fifo _ Hw) as Hc. rewrite Hi in Hc. symmetry in Hc. by apply app_nil in Hc as [_ ?].
  - intros c s' Hen Hdo. pose proof (do_spec s c (conj Hok Hier) Hen) as H. unfold pwp in H. rewrite Hdo in H. apply H.
  - intros t x Hr. destruct (proj1 (wp_outcome _ _ _) (putc_returns s t x (conj Hok Hier) Hr)) as ([]&s'&Hrun&_). exists s'. split; [done|].
    pose proof (serial_putc_spec s t x true (conj Hok Hier)) as H. unfold pwp in H. rewrite Hrun in H. apply H. by left.
Qed.

(** A port that is ready at its second answer. *)
Definition sample_queue : intq := mk_intq 0 0 0 (replicate 64 0) 0 0.
Definition sample_serial : serial :=
  mk_serial UNINIT (mk_world (intq_init sample_queue) ∅ [] []) (mk_world (intq_init sample_queue) ∅ [] []) (mk_uart 0 0 0 0 0 0 [] [0; 0x20] []) [].
Lemma serial_line_in_order_witness :
  ∃ s', serial_putc 1 65 true sample_serial = Ret (tt, s') ∧ given s' = [65] ∧ sent (port s') = [65].
Proof.
  destruct (serial_line_in_order sample_serial) as (_&_&_&_&Hput); [by apply runs_start|].
  destruct (Hput 1 65) as (s'&Hrun&Hg); [exists [0], 0x20, []; by split|]. exists s'. split; [exact Hrun|]. split; [exact Hg|].
  vm_compute in Hrun. by injection Hrun as <-.
Defined.
