(* ===== verification/Kbd.v ===== *)
(** * Keyboard (devices/kbd.c) and the input buffer (devices/input.c)

    The keyboard's interrupt handler: scancodes to characters, with the state
    of the shift keys, into the input buffer.  What the handler needs of the
    buffer is the interface [InputBuffer]; the interrupt queue implements it. *)

From S2P Require Import Prelude Stdio Intq.
Local Open Scope Z_scope.

(** ** The input buffer

    Interrupts are off in a handler and in the functions of the buffer. *)
Class InputBuffer (Q : Type) := {
  buffer_ok : Q → Prop;
  keys : Q → list Z;
  input_full : Q → bool;
  input_putc : Z → M Q unit;
  input_full_law q : buffer_ok q → input_full q = bool_decide (length (keys q) = 63%nat);
  input_room_law q : buffer_ok q → (length (keys q) ≤ 63)%nat;
  input_putc_law q c : buffer_ok q → input_full q = false →
    wp (input_putc c) q (λ _ q', buffer_ok q' ∧ keys q' = keys q ++ [u8 c])
}.

(** ** Data *)

Record kbd (Q : Type) := mk_kbd {
  left_shift : bool; right_shift : bool;
  left_alt : bool; right_alt : bool;
  left_ctrl : bool; right_ctrl : bool;
  caps_lock : bool;
  key_cnt : Z;
  buffer : Q;
  data : list Z;        (** the bytes port 0x60 will deliver *)
  rebooted : bool       (** [shutdown_reboot] was called: it does not return *)
}.
Arguments mk_kbd {Q}.
Arguments left_shift {Q}. Arguments right_shift {Q}. Arguments left_alt {Q}. Arguments right_alt {Q}.
Arguments left_ctrl {Q}. Arguments right_ctrl {Q}. Arguments caps_lock {Q}. Arguments key_cnt {Q}.
Arguments buffer {Q}. Arguments data {Q}. Arguments rebooted {Q}.

(** [struct keymap]: the first scancode and the characters from it on. *)
Definition keymap : Type := list (Z * list Z).
Definition codes (s : string) : list Z := map (λ a, Z.of_N (Ascii.N_of_ascii a)) (String.list_ascii_of_string s).

Definition invariant_keymap : keymap :=
  [(0x01, [27]); (0x0e, [8]); (0x0f, 9 :: codes "QWERTYUIOP"); (0x1c, [13]); (0x1e, codes "ASDFGHJKL");
   (0x2c, codes "ZXCVBNM"); (0x37, codes "*"); (0x39, codes " "); (0x53, [127])].
Definition unshifted_keymap : keymap :=
  [(0x02, codes "1234567890-="); (0x1a, codes "[]"); (0x27, codes ";'`"); (0x2b, codes "\"); (0x33, codes ",./")].
Definition shifted_keymap : keymap :=
  [(0x02, codes "!@#$%^&*()_+"); (0x1a, codes "{}"); (0x27, [58; 34; 126]); (0x2b, codes "|"); (0x33, codes "<>?")].

Fixpoint map_key (k : keymap) (scancode : Z) : option Z :=
  match k with
  | [] => None
  | (first_scancode, chars) :: k =>
      if (first_scancode <=? scancode) && (scancode <? first_scancode + Z.of_nat (length chars))
      then chars !! Z.to_nat (scancode - first_scancode)
      else map_key k scancode
  end.

(** ** The handler *)

Section Handler.
Context {Q : Type} `{InputBuffer Q}.

Definition inb_data : M (kbd Q) Z :=
  s ← get_state;
  put_state (mk_kbd (left_shift s) (right_shift s) (left_alt s) (right_alt s) (left_ctrl s) (right_ctrl s) (caps_lock s)
    (key_cnt s) (buffer s) (tl (data s)) (rebooted s));;
  ret (u8 (hd 0 (data s))).

Definition toggle_caps : M (kbd Q) unit :=
  modify (λ s, mk_kbd (left_shift s) (right_shift s) (left_alt s) (right_alt s) (left_ctrl s) (right_ctrl s)
    (negb (caps_lock s)) (key_cnt s) (buffer s) (data s) (rebooted s)).

Definition shutdown_reboot : M (kbd Q) unit :=
  modify (λ s, mk_kbd (left_shift s) (right_shift s) (left_alt s) (right_alt s) (left_ctrl s) (right_ctrl s)
    (caps_lock s) (key_cnt s) (buffer s) (data s) true).

(** The body of [if (!input_full ())]. *)
Definition append_key (c : Z) : M (kbd Q) unit :=
  λ s, match input_putc c (buffer s) with
       | Ret (_, q) =>
           Ret (tt, mk_kbd (left_shift s) (right_shift s) (left_alt s) (right_alt s) (left_ctrl s) (right_ctrl s)
             (caps_lock s) (s64 (key_cnt s + 1)) q (data s) (rebooted s))
       | Fail f => Fail f
       end.

(** The table of shift keys: sets the variable of the key. *)
Definition set_shift_key (code : Z) (v : bool) : M (kbd Q) unit :=
  modify (λ s,
    let mk ls rs la ra lc rc := mk_kbd ls rs la ra lc rc (caps_lock s) (key_cnt s) (buffer s) (data s) (rebooted s) in
    if code =? 0x2a then mk v (right_shift s) (left_alt s) (right_alt s) (left_ctrl s) (right_ctrl s)
    else if code =? 0x36 then mk (left_shift s) v (left_alt s) (right_alt s) (left_ctrl s) (right_ctrl s)
    else if code =? 0x38 then mk (left_shift s) (right_shift s) v (right_alt s) (left_ctrl s) (right_ctrl s)
    else if code =? 0xe038 then mk (left_shift s) (right_shift s) (left_alt s) v (left_ctrl s) (right_ctrl s)
    else if code =? 0x1d then mk (left_shift s) (right_shift s) (left_alt s) (right_alt s) v (right_ctrl s)
    else if code =? 0xe01d then mk (left_shift s) (right_shift s) (left_alt s) (right_alt s) (left_ctrl s) v
    else s).

(** [map_key] on the table of invariant keys, then on one of the other two. *)
Definition key_char (shift : bool) (code : Z) : option Z :=
  match map_key invariant_keymap code with
  | Some c => Some c
  | None => if shift then map_key shifted_keymap code else map_key unshifted_keymap code
  end.

(** Ctrl, Shift, Caps Lock and Alt. *)
Definition modified (shift alt ctrl caps : bool) (c : Z) : Z :=
  let c := if ctrl && (0x40 <=? c) && (c <? 0x60) then c - 0x40
           else if Bool.eqb shift caps then tolower c else c in
  if alt then u8 (c + 0x80) else c.

Definition keyboard_interrupt : M (kbd Q) unit :=
  s ← get_state;
  let shift := left_shift s || right_shift s in
  let alt := left_alt s || right_alt s in
  let ctrl := left_ctrl s || right_ctrl s in
  code ← inb_data;
  code ← if code =? 0xe0 then code' ← inb_data; ret (Z.lor (Z.shiftl code 8) code') else ret code;
  let release := negb (Z.land code 0x80 =? 0) in
  let code := Z.land code (u32 (Z.lnot 0x80)) in
  if code =? 0x3a then (if release then ret tt else toggle_caps)
  else
    match key_char shift code with
    | Some c =>
        if release then ret tt
        else if (c =? 127) && ctrl && alt then shutdown_reboot
        else
          let c := modified shift alt ctrl (caps_lock s) c in
          s ← get_state;
          if input_full (buffer s) then ret tt else append_key c
    | None => set_shift_key code (negb release)
    end.

End Handler.

(** ** The input buffer of the kernel *)

(** [input_putc] in a handler: the queue is not full; [intq_putc] goes
    straight to the byte.  [serial_notify], called last, does not touch the
    queue: it sets a register of the serial port, see Serial. *)
Definition intq_input_putc (c : Z) : M world unit :=
  w ← get_state;
  ASSERT (negb (intq_full (queue w)));;
  put_byte c.

Definition intq_input_full (w : world) : bool := intq_full (queue w).

#[export] Program Instance intq_input : InputBuffer world := {|
  buffer_ok := inv;
  keys w := contents (queue w);
  input_full := intq_input_full;
  input_putc := intq_input_putc
|}.
Next Obligation.
  intros w Hw. unfold intq_input_full. destruct (intq_full (queue w)) eqn:E; symmetry.
  - apply bool_decide_eq_true. by apply (intq_full_spec _ (inv_ring _ Hw)).
  - apply bool_decide_eq_false. rewrite <- (intq_full_spec _ (inv_ring _ Hw)). congruence.
Qed.
Next Obligation.
  intros w Hw. cbn. rewrite length_contents. unfold size.
  pose proof (Z.mod_pos_bound (Intq.head (queue w) - tail (queue w)) 64). lia.
Qed.
Next Obligation.
  intros w c Hw Hf. cbn in *. unfold intq_input_full in Hf. unfold intq_input_putc. wp_step. wp_step. rewrite Hf. wp_steps.
  eapply wp_mono; [by apply put_byte_spec|]. intros _ w' (Hw'&_&Hin&Hout). split; [done|].
  pose proof (inv_fifo _ Hw') as E. rewrite Hin, Hout, (inv_fifo _ Hw) in E. rewrite <- app_assoc in E. by apply app_inv_head in E.
Qed.

(** ** Typing *)

(** A US keyboard, as it is printed on the keys: the scancode of the first key
    of a row, and the characters without and with Shift. *)
Definition us_keyboard : list (Z * list Z * list Z) :=
  [(0x01, [27], []); (0x02, codes "1234567890-=", codes "!@#$%^&*()_+"); (0x0e, [8], []); (0x0f, [9], []);
   (0x10, codes "qwertyuiop[]", codes "QWERTYUIOP{}"); (0x1c, [13], []);
   (0x1e, codes "asdfghjkl;'`", codes "ASDFGHJKL:" ++ [34; 126]); (0x2b, codes "\zxcvbnm,./", codes "|ZXCVBNM<>?");
   (0x39, codes " ", codes " ")].

(** The position of a character in a row, and the key that gives it. *)
Fixpoint position (c : Z) (row : list Z) : option Z :=
  match row with
  | [] => None
  | x :: row => if x =? c then Some 0 else Z.succ <$> position c row
  end.
Fixpoint find_in (rows : list (Z * list Z * list Z)) (shift : bool) (c : Z) : option Z :=
  match rows with
  | [] => None
  | (first, plain, shifted) :: rows =>
      match position c (if shift then shifted else plain) with
      | Some i => Some (first + i)
      | None => find_in rows shift c
      end
  end.
Definition find_key (shift : bool) (c : Z) : option Z := find_in us_keyboard shift c.

(** The bytes a keyboard sends when [c] is typed: the key goes down and up,
    between those of the left Shift key if it is needed. *)
Definition strokes (c : Z) : list Z :=
  match find_key false c with
  | Some k => [k; k + 0x80]
  | None => match find_key true c with Some k => [0x2a; k; k + 0x80; 0xaa] | None => [] end
  end.

(** One interrupt per byte. *)
Section Typing.
Context {Q : Type} `{InputBuffer Q}.

Fixpoint interrupts (n : nat) : M (kbd Q) unit :=
  match n with O => ret tt | S n => keyboard_interrupt;; interrupts n end.

(** No key is down but perhaps the left Shift key. *)
Definition holding (shift : bool) (s : kbd Q) : Prop :=
  left_shift s = shift ∧ right_shift s = false ∧ left_alt s = false ∧ right_alt s = false ∧
  left_ctrl s = false ∧ right_ctrl s = false ∧ caps_lock s = false ∧ rebooted s = false.

(** What the handler computes from the byte. *)
Definition key_of (b : Z) : Z := Z.land b (u32 (Z.lnot 0x80)).
Definition is_release (b : Z) : bool := negb (Z.land b 0x80 =? 0).

(** A byte of an ordinary key, without a prefix. *)
Definition plain_key (k : Z) : Prop :=
  key_of k = k ∧ key_of (k + 0x80) = k ∧ is_release k = false ∧
  is_release (k + 0x80) = true ∧ k ≠ 0x3a ∧ 0 ≤ k < 0x60.

Definition plain_key_b (shift : bool) (k : Z) : bool :=
  match key_char shift k with
  | Some _ => bool_decide (plain_key k)
  | None => true
  end.

Lemma plain_keys shift k c : k ∈ seqZ 1 0x57 → key_char shift k = Some c → plain_key k.
Proof.
  intros Hk Hc. assert (Forall (λ sh, Forall (λ k, plain_key_b sh k = true) (seqZ 1 0x57)) [true; false]) as Hall.
  { apply (bool_decide_unpack _). by vm_compute. }
  rewrite Forall_forall in Hall. specialize (Hall shift ltac:(destruct shift; set_solver)). rewrite Forall_forall in Hall.
  specialize (Hall k Hk). unfold plain_key_b in Hall. rewrite Hc in Hall. by apply bool_decide_eq_true_1 in Hall.
Qed.

Definition with_data (s : kbd Q) (d : list Z) : kbd Q :=
  mk_kbd (left_shift s) (right_shift s) (left_alt s) (right_alt s) (left_ctrl s) (right_ctrl s) (caps_lock s)
    (key_cnt s) (buffer s) d (rebooted s).

(** The first byte of an interrupt that is not a prefix. *)
Lemma interrupt_byte s b d Q' : data s = b :: d → is_u8 b → b ≠ 0xe0 →
  (let shift := left_shift s || right_shift s in
   let alt := left_alt s || right_alt s in
   let ctrl := left_ctrl s || right_ctrl s in
   wp (if key_of b =? 0x3a then (if is_release b then ret tt else toggle_caps)
       else match key_char shift (key_of b) with
       | Some c =>
           if is_release b then ret tt
           else if (c =? 127) && ctrl && alt then shutdown_reboot
           else s' ← get_state; if input_full (buffer s') then ret tt
                else append_key (modified shift alt ctrl (caps_lock s) c)
       | None => set_shift_key (key_of b) (negb (is_release b))
       end) (with_data s d) Q') →
  wp keyboard_interrupt s Q'.
Proof.
  intros Hd Hb Hne Hwp. unfold keyboard_interrupt. wp_step. wp_step. cbv zeta. unfold inb_data at 1. wp_steps.
  rewrite Hd. cbn [hd tl]. rewrite u8_small by done. assert ((b =? 0xe0) = false) as -> by lia. wp_steps. exact Hwp.
Qed.

(** A key goes down: the character is appended, or dropped if there is no room. *)
Lemma key_down shift s k c d : holding shift s → buffer_ok (buffer s) → data s = k :: d → plain_key k →
  key_char shift k = Some c →
  wp keyboard_interrupt s (λ _ s', holding shift s' ∧ buffer_ok (buffer s') ∧ data s' = d ∧
    keys (buffer s') = take 63 (keys (buffer s) ++ [u8 (modified shift false false false c)])).
Proof.
  intros (Hls&Hrs&Hla&Hra&Hlc&Hrc&Hcl&Hrb) Hq Hd (K1&K2&K3&K4&K5&K6) Hc.
  eapply interrupt_byte; [done|word_lia|lia|]. cbv zeta. rewrite Hls, Hrs, Hla, Hra, Hlc, Hrc, Hcl, K1, K3, orb_false_r.
  cbn [orb]. assert ((k =? 0x3a) = false) as -> by lia. rewrite Hc, !andb_false_r. wp_steps.
  pose proof (input_full_law (buffer s) Hq) as Hf. pose proof (input_room_law (buffer s) Hq) as Hl. cbn [buffer with_data].
  destruct (input_full (buffer s)) eqn:E.
  - symmetry in Hf. apply bool_decide_eq_true in Hf. wp_steps. cbn [buffer data with_data].
    split; [done|]. split; [done|]. split; [done|]. by rewrite take_app_le, take_ge by lia.
  - symmetry in Hf. apply bool_decide_eq_false in Hf. unfold wp, append_key. cbn [buffer with_data].
    pose proof (input_putc_law (buffer s) (modified shift false false false c) Hq E) as Hp. unfold wp in Hp.
    destruct (input_putc _ _) as [[[] q']|]; [|done]. destruct Hp as [Hq' Hk]. split; [done|].
    cbn [buffer data]. split; [done|]. split; [done|]. rewrite Hk, take_ge; [done|]. rewrite length_app. cbn. lia.
Qed.

Lemma key_up shift s k c d : holding shift s → data s = k + 0x80 :: d → plain_key k → key_char shift k = Some c →
  wp keyboard_interrupt s (λ _ s', s' = with_data s d).
Proof.
  intros (Hls&Hrs&Hla&Hra&Hlc&Hrc&Hcl&Hrb) Hd (K1&K2&K3&K4&K5&K6) Hc.
  eapply interrupt_byte; [done|word_lia|lia|]. cbv zeta. rewrite Hls, Hrs, K2, K4, orb_false_r.
  assert ((k =? 0x3a) = false) as -> by lia. rewrite Hc. by wp_steps.
Qed.

Lemma shift_key shift s d : holding (negb shift) s → data s = (if shift then 0x2a else 0xaa) :: d →
  wp keyboard_interrupt s (λ _ s', holding shift s' ∧ buffer s' = buffer s ∧ data s' = d).
Proof.
  intros (Hls&Hrs&Hla&Hra&Hlc&Hrc&Hcl&Hrb) Hd.
  eapply interrupt_byte; [done|destruct shift; word_lia|by destruct shift|]. cbv zeta.
  rewrite Hls, Hrs, orb_false_r. destruct shift; cbn [negb].
  - change (key_of 0x2a) with 0x2a. change (key_char false 0x2a) with (None : option Z). cbn [Z.eqb Pos.eqb].
    unfold set_shift_key. wp_steps. by repeat split.
  - change (key_of 0xaa) with 0x2a. change (key_char true 0x2a) with (None : option Z). cbn [Z.eqb Pos.eqb].
    unfold set_shift_key. wp_steps. by repeat split.
Qed.

Lemma interrupts_app n m s P : wp (interrupts n) s (λ _ s', wp (interrupts m) s' P) → wp (interrupts (n + m)) s P.
Proof.
  revert s. induction n as [|n IH]; intros s Hwp; [done|]. cbn [interrupts Nat.add] in *.
  wp_step. apply wp_bind_inv in Hwp. eapply wp_mono; [exact Hwp|]. intros [] s'. apply IH.
Qed.

(** The keymaps of the driver agree with the keyboard. *)
Definition key_agrees (shift : bool) (c : Z) : bool :=
  match find_key shift c with
  | Some k => bool_decide (k ∈ seqZ 1 0x57) &&
      bool_decide (modified shift false false false <$> key_char shift k = Some c)
  | None => true
  end.

Lemma find_key_spec shift c k : is_u8 c → find_key shift c = Some k →
  k ∈ seqZ 1 0x57 ∧ ∃ c0, key_char shift k = Some c0 ∧ modified shift false false false c0 = c.
Proof.
  intros Hc Hk. assert (Forall (λ sh, Forall (λ c, key_agrees sh c = true) (seqZ 0 256)) [true; false]) as Hall.
  { apply (bool_decide_unpack _). by vm_compute. }
  rewrite Forall_forall in Hall. specialize (Hall shift ltac:(destruct shift; set_solver)). rewrite Forall_forall in Hall.
  specialize (Hall c ltac:(apply elem_of_seqZ; word_lia)). unfold key_agrees in Hall. rewrite Hk in Hall.
  apply andb_true_iff in Hall as [Hin Hg]. apply bool_decide_eq_true_1 in Hin, Hg. split; [done|].
  destruct (key_char shift k) as [c0|]; [|done]. injection Hg as Hg. by exists c0.
Qed.

(** The key alone, in the shift state it needs. *)
Lemma press_and_release shift s k c d : holding shift s → buffer_ok (buffer s) → find_key shift c = Some k →
  data s = k :: k + 0x80 :: d → is_u8 c →
  wp (interrupts 2) s (λ _ s', holding shift s' ∧ buffer_ok (buffer s') ∧ data s' = d ∧
    keys (buffer s') = take 63 (keys (buffer s) ++ [c])).
Proof.
  intros Hs Hq Hf Hd Hc. destruct (find_key_spec _ _ _ Hc Hf) as (Hin&c0&Hk&Hm). pose proof (plain_keys _ _ _ Hin Hk) as Hp.
  cbn [interrupts]. wp_step. eapply wp_mono; [by eapply key_down|]. rewrite Hm, u8_small by done.
  intros [] s1 (H1&Hq1&Hd1&Hk1). cbv beta. wp_step. eapply wp_mono; [by eapply key_up|].
  intros [] s2 ->. by apply wp_ret.
Qed.

Definition typeable (c : Z) : Prop := 32 ≤ c < 127 ∨ c = 8 ∨ c = 9 ∨ c = 13 ∨ c = 27.

Lemma typeable_key c : typeable c → (∃ k, find_key false c = Some k) ∨ find_key false c = None ∧ ∃ k, find_key true c = Some k.
Proof.
  intros Hc. assert (c ∈ seqZ 0 128) as Hin by (apply elem_of_seqZ; unfold typeable in Hc; lia).
  assert (Forall (λ c, typeable c → is_Some (find_key false c) ∨ is_Some (find_key true c)) (seqZ 0 128)) as Hall.
  { apply (bool_decide_unpack _). by vm_compute. }
  rewrite Forall_forall in Hall. destruct (find_key false c) as [k|] eqn:E; [by left; exists k|].
  right. split; [done|]. destruct (Hall c Hin Hc) as [[k Hk]|[k Hk]]; [congruence|by exists k].
Qed.

Lemma type_one s c d : holding false s → buffer_ok (buffer s) → data s = strokes c ++ d → typeable c →
  wp (interrupts (length (strokes c))) s (λ _ s', holding false s' ∧ buffer_ok (buffer s') ∧ data s' = d ∧
    keys (buffer s') = take 63 (keys (buffer s) ++ [c])).
Proof.
  intros Hs Hq Hd Hc. assert (is_u8 c) as Hc8 by (unfold typeable in Hc; word_lia). unfold strokes in *.
  destruct (typeable_key c Hc) as [[k Hk]|[Hn [k Hk]]]; [rewrite Hk in *; by eapply press_and_release|].
  rewrite Hn, Hk in *. cbn [length app] in *. change 4%nat with (1 + (2 + 1))%nat.
  apply interrupts_app. cbn [interrupts]. wp_step. eapply wp_mono; [by eapply (shift_key true)|].
  intros [] s1 (H1&Hb1&Hd1). cbv beta. apply wp_ret, (interrupts_app 2 1).
  eapply wp_mono; [eapply (press_and_release true s1); [done|by rewrite Hb1|done|done|done]|].
  intros [] s2 (H2&Hq2&Hd2&Hk2). cbn [interrupts]. wp_step. eapply wp_mono; [by eapply (shift_key false)|].
  intros [] s3 (H3&Hb3&Hd3). cbv beta. apply wp_ret. by rewrite Hb3, Hk2, Hb1.
Qed.

Lemma take_take_app {A} n (l m : list A) : take n (take n l ++ m) = take n (l ++ m).
Proof.
  destruct (decide (length l ≤ n)%nat); [by rewrite (take_ge l)|].
  rewrite !take_app_le by (rewrite ?length_take; lia). by rewrite take_take, Nat.min_id.
Qed.

(** C26: what is typed arrives.  Whatever text of printable characters, tabs,
    returns, backspaces and escapes is typed on a US keyboard (no modifier
    held and Caps Lock off at the start, each key down and up, with Shift where the
    keyboard needs it), the interrupt handler
    appends exactly this text to the input buffer, in order and without
    duplicates, as long as there is room for it; further keys are dropped, and
    the shift state is what it was.  This holds for every buffer that keeps the
    promises of [InputBuffer]. *)
Theorem typed_text_arrives s text d : holding false s → buffer_ok (buffer s) →
  data s = concat (map strokes text) ++ d → Forall typeable text →
  wp (interrupts (length (concat (map strokes text)))) s (λ _ s',
    holding false s' ∧ buffer_ok (buffer s') ∧ data s' = d ∧
    keys (buffer s') = take 63 (keys (buffer s) ++ text)).
Proof.
  intros Hs Hq Hd Ht. revert s Hs Hq Hd. induction Ht as [|c text Hc _ IH]; intros s Hs Hq Hd.
  { apply wp_ret. rewrite app_nil_r, take_ge; [done|]. by apply input_room_law. }
  cbn [map concat] in *. rewrite length_app. apply interrupts_app. rewrite <- app_assoc in Hd.
  eapply wp_mono; [by eapply type_one|]. intros [] s1 (H1&Hq1&Hd1&Hk1). cbv beta.
  eapply wp_mono; [by apply IH|]. intros [] s2 (H2&Hq2&Hd2&Hk2). repeat (split; [done|]).
  by rewrite Hk2, Hk1, take_take_app, <- app_assoc.
Qed.

End Typing.

(** The kernel's keyboard after start-up, and a line typed on it. *)
Definition booted_kbd (d : list Z) : kbd world := mk_kbd false false false false false false false 0 fresh d false.

Definition hello : list Z := codes "Hello, ~x~" ++ [13].

Lemma typed_text_arrives_witness :
  Forall typeable hello ∧
  wp (interrupts (length (concat (map strokes hello)))) (booted_kbd (concat (map strokes hello) ++ []))
    (λ _ s', keys (buffer s') = take 63 (keys fresh ++ hello)).
Proof.
  assert (Forall typeable hello) as Ht by (apply (bool_decide_unpack _); by vm_compute).
  split; [exact Ht|].
  eapply wp_mono; [apply (typed_text_arrives (booted_kbd (concat (map strokes hello) ++ [])) hello [])|].
  - by repeat split.
  - apply reachable_inv, fresh_reachable.
  - reflexivity.
  - exact Ht.
  - intros [] s' (_&_&_&Hk). exact Hk.
Defined.
