(* ===== verification/Console.v ===== *)
(** * The kernel console (lib/kernel/console.c)

    Threads that print under the console lock, one character at a time, and
    may be preempted between any two of them; the recursive use of the lock;
    interrupt handlers, which print without it; and the panic mode, in which
    nobody takes it.  The lock is its holder and the depth of its use; that
    [lock_acquire] gives it to one thread at a time is what Scheduler proves of
    Synch.  The theorem says that the output of threads is never
    mixed. *)

From S2P Require Import Prelude.
Local Open Scope Z_scope.

(** ** State *)

(** The static variables, the holder of [console_lock] (0 is nobody), and the
    bytes given to both devices, each with the thread that wrote it (0 is an
    interrupt handler). *)
Record console := mk_console {
  holder : Z;
  use_console_lock : bool;
  console_lock_depth : Z;
  write_cnt : Z;
  out : list (Z * Z)
}.

(** A thread: the calls it is in, innermost first, with what each has left to
    print; or it is suspended in the [lock_acquire] of a call.  [since] is what
    it printed since its outermost call began, [first] the text of that call,
    and [plain] whether no other call was nested in it. *)
Inductive activity :=
| Calls (stack : list (list Z)) (since first : list Z) (plain : bool)
| Acquiring (text : list Z).

(** The finished outermost calls: thread, what it printed, what it was asked to
    print, and whether the call was plain. *)
Record world := mk_world {
  con : console;
  threads : gmap Z activity;
  finished : list (Z * list Z * list Z * bool)
}.

Definition set_con (c : console) : M world unit := modify (λ w, mk_world c (threads w) (finished w)).
Definition set_thread (t : Z) (a : activity) : M world unit :=
  modify (λ w, mk_world (con w) (<[t := a]> (threads w)) (finished w)).

(** ** Operations *)

Definition console_init (c : console) : console := mk_console 0 true (console_lock_depth c) (write_cnt c) (out c).
Definition console_panic : M world unit :=
  w ← get_state; let c := con w in
  set_con (mk_console (holder c) false (console_lock_depth c) (write_cnt c) (out c)).

(** Outside of an interrupt handler. *)
Definition console_locked_by (t : Z) (c : console) : bool := negb (use_console_lock c) || (holder c =? t).

Definition putchar_have_lock (t : Z) (intr_context : bool) (c : Z) : M world unit :=
  w ← get_state; let k := con w in
  ASSERT (intr_context || console_locked_by t k);;
  set_con (mk_console (holder k) (use_console_lock k) (console_lock_depth k) (s64 (write_cnt k + 1))
    (out k ++ [(if intr_context then 0 else t, u8 c)])).

(** [acquire_console] at the start of a call that prints [text]; [stack] are
    the calls the thread is in already. *)
Definition acquire_console (t : Z) (text : list Z) (stack : list (list Z)) (since first : list Z) (plain : bool) : M world unit :=
  w ← get_state; let k := con w in
  let enter := set_thread t (match stack with
    | [] => Calls [text] [] text true
    | _ => Calls (text :: stack) since first false
    end) in
  if use_console_lock k
  then
    if holder k =? t
    then set_con (mk_console (holder k) (use_console_lock k) (console_lock_depth k + 1) (write_cnt k) (out k));; enter
    else if holder k =? 0
    then set_con (mk_console t (use_console_lock k) (console_lock_depth k) (write_cnt k) (out k));; enter
    else set_thread t (Acquiring text)
  else enter.

(** [release_console] at the end of a call; the outermost call is noted. *)
Definition release_console (t : Z) (stack : list (list Z)) (since first : list Z) (plain : bool) : M world unit :=
  w ← get_state; let k := con w in
  (if use_console_lock k
   then
     if 0 <? console_lock_depth k
     then set_con (mk_console (holder k) (use_console_lock k) (console_lock_depth k - 1) (write_cnt k) (out k))
     else
       ASSERT (holder k =? t);;
       set_con (mk_console 0 (use_console_lock k) (console_lock_depth k) (write_cnt k) (out k))
   else ret tt);;
  match stack with
  | [] => modify (λ w, mk_world (con w) (delete t (threads w)) (finished w ++ [(t, since, first, plain)]))
  | _ => set_thread t (Calls stack since first plain)
  end.

(** What happens when the processor runs a thread that is printing: the next
    character of the innermost call, or the end of the call. *)
Definition run_thread (t : Z) : M world unit :=
  w ← get_state;
  match threads w !! t with
  | None => ret tt
  | Some (Acquiring text) =>
      if (holder (con w) =? 0) || negb (use_console_lock (con w)) then acquire_console t text [] [] text true else ret tt
  | Some (Calls [] _ _ _) => ret tt
  | Some (Calls ((c :: text) :: stack) since first plain) =>
      putchar_have_lock t false c;;
      set_thread t (Calls (text :: stack) (since ++ [u8 c]) first plain)
  | Some (Calls ([] :: stack) since first plain) => release_console t stack since first plain
  end.

Fixpoint handler_print (text : list Z) : M world unit :=
  match text with
  | [] => ret tt
  | c :: text => putchar_have_lock 0 true c;; handler_print text
  end.

(** [puts], [putbuf], [putchar] and [vprintf] all print a text between
    [acquire_console] and [release_console]. *)
Inductive event :=
| Print (t : Z) (text : list Z)
| Run (t : Z)
| Handler (text : list Z)
| Panic.

Definition step (e : event) : M world unit :=
  match e with
  | Print t text =>
      w ← get_state;
      if t =? 0 then ret tt
      else
        match threads w !! t with
        | None => acquire_console t text [] [] text true
        | Some (Calls stack since first plain) => acquire_console t text stack since first plain
        | Some (Acquiring _) => ret tt
        end
  | Run t => run_thread t
  | Handler text => handler_print text
  | Panic => console_panic
  end.

Inductive reachable : world → Prop :=
| reach_init c : console_lock_depth c = 0 → out c = [] → reachable (mk_world (console_init c) ∅ [])
| reach_step w e w' : reachable w → step e w = Ret (tt, w') → reachable w'.

(** ** The invariant *)

(** The bytes threads wrote. *)
Definition by_threads (l : list (Z * Z)) : list (Z * Z) := filter (λ e, e.1 ≠ 0) l.
Definition tagged (t : Z) (l : list Z) : list (Z * Z) := map (λ c, (t, c)) l.

(** What the holder of the lock has printed of its outermost call. *)
Definition current (w : world) : list (Z * Z) :=
  match threads w !! holder (con w) with
  | Some (Calls _ since _ _) => tagged (holder (con w)) since
  | _ => []
  end.

Definition calls_ok (stack : list (list Z)) (since first : list Z) (plain : bool) : Prop :=
  stack ≠ [] ∧ (plain = true → ∃ rest, stack = [rest] ∧ map u8 first = since ++ map u8 rest).

Record inv (w : world) : Prop := {
  inv_zero : threads w !! 0 = None;
  inv_calls : ∀ t stack since first plain, threads w !! t = Some (Calls stack since first plain) →
    holder (con w) = t ∧ calls_ok stack since first plain ∧ console_lock_depth (con w) = Z.of_nat (length stack) - 1;
  inv_holder : holder (con w) ≠ 0 → ∃ stack since first plain,
    threads w !! holder (con w) = Some (Calls stack since first plain);
  inv_depth : holder (con w) = 0 → console_lock_depth (con w) = 0;
  inv_out : by_threads (out (con w)) = concat (map (λ f, tagged f.1.1.1 f.1.1.2) (finished w)) ++ current w;
  inv_finished : Forall (λ f, f.1.1.1 ≠ 0 ∧ (f.2 = true → f.1.1.2 = map u8 f.1.2)) (finished w)
}.

Lemma by_threads_app l l' : by_threads (l ++ l') = by_threads l ++ by_threads l'.
Proof. apply filter_app. Qed.

(** Only the holder of the lock is in a call. *)
Lemma inv_alone w t stack since first plain : inv w → threads w !! t = Some (Calls stack since first plain) →
  t ≠ 0 ∧ holder (con w) = t ∧ current w = tagged t since.
Proof.
  intros Hw Ht. destruct (inv_calls _ Hw _ _ _ _ _ Ht) as (Hh&_). split.
  - intros ->. by rewrite (inv_zero _ Hw) in Ht.
  - split; [done|]. unfold current. by rewrite Hh, Ht.
Qed.

(** The thread that holds the lock moves on: [since'] extends what it printed. *)
Lemma inv_move w t stack since first plain stack' since' first' plain' c' :
  inv w → threads w !! t = Some (Calls stack since first plain) → calls_ok stack' since' first' plain' →
  holder c' = t → console_lock_depth c' = Z.of_nat (length stack') - 1 →
  by_threads (out c') = concat (map (λ f, tagged f.1.1.1 f.1.1.2) (finished w)) ++ tagged t since' →
  inv (mk_world c' (<[t := Calls stack' since' first' plain']> (threads w)) (finished w)).
Proof.
  intros Hw Ht Hok Hh Hd Hout. destruct (inv_alone _ _ _ _ _ _ Hw Ht) as (H0&Hht&_). constructor; cbn [con threads finished].
  - rewrite lookup_insert_ne by done. apply (inv_zero _ Hw).
  - intros t' st si fi pl. destruct (decide (t' = t)) as [->|Hne].
    + rewrite lookup_insert_eq. by intros [= <- <- <- <-].
    + rewrite lookup_insert_ne by done. intros E. destruct (inv_calls _ Hw _ _ _ _ _ E) as (E'&_). congruence.
  - intros _. rewrite Hh, lookup_insert_eq. by do 4 eexists.
  - congruence.
  - unfold current. cbn. by rewrite Hh, lookup_insert_eq.
  - apply (inv_finished _ Hw).
Qed.

(** A thread outside takes the free lock. *)
Lemma inv_enter w t text c' : inv w → t ≠ 0 → holder (con w) = 0 → holder c' = t →
  console_lock_depth c' = console_lock_depth (con w) → out c' = out (con w) →
  inv (mk_world c' (<[t := Calls [text] [] text true]> (threads w)) (finished w)).
Proof.
  intros Hw H0 Hfree Hh Hd Hout.
  assert (∀ t' st si fi pl, threads w !! t' ≠ Some (Calls st si fi pl)) as Hn.
  { intros t' st si fi pl E. destruct (inv_alone _ _ _ _ _ _ Hw E) as (?&?&_). congruence. }
  constructor; cbn [con threads finished].
  - rewrite lookup_insert_ne by done. apply (inv_zero _ Hw).
  - intros t' st si fi pl. destruct (decide (t' = t)) as [->|Hne].
    + rewrite lookup_insert_eq. intros [= <- <- <- <-]. split; [done|]. rewrite Hd, (inv_depth _ Hw Hfree). split; [|done].
      split; [done|]. intros _. by exists text.
    + rewrite lookup_insert_ne by done. intros E. by apply Hn in E.
  - intros _. rewrite Hh, lookup_insert_eq. by do 4 eexists.
  - congruence.
  - unfold current. cbn. rewrite Hh, lookup_insert_eq, Hout, (inv_out _ Hw). unfold current. rewrite Hfree, (inv_zero _ Hw). done.
  - apply (inv_finished _ Hw).
Qed.

(** A thread queues for the lock. *)
Lemma inv_queue w t text : inv w → t ≠ 0 → (∀ st si fi pl, threads w !! t ≠ Some (Calls st si fi pl)) →
  inv (mk_world (con w) (<[t := Acquiring text]> (threads w)) (finished w)).
Proof.
  intros Hw H0 Ht. constructor; cbn [con threads finished].
  - rewrite lookup_insert_ne by done. apply (inv_zero _ Hw).
  - intros t' st si fi pl. destruct (decide (t' = t)) as [->|Hne]; [by rewrite lookup_insert_eq|].
    rewrite lookup_insert_ne by done. apply (inv_calls _ Hw).
  - intros Hh. destruct (inv_holder _ Hw Hh) as (st&si&fi&pl&E). rewrite lookup_insert_ne by congruence. by do 4 eexists.
  - apply (inv_depth _ Hw).
  - rewrite (inv_out _ Hw). f_equal. unfold current. cbn. destruct (decide (holder (con w) = t)) as [Hht|].
    + rewrite Hht, lookup_insert_eq. destruct (threads w !! t) as [[]|] eqn:E; try done. by destruct (Ht _ _ _ _ eq_refl).
    + by rewrite lookup_insert_ne.
  - apply (inv_finished _ Hw).
Qed.

(** The outermost call ends. *)
Lemma inv_leave w t since first plain c' : inv w → threads w !! t = Some (Calls [[]] since first plain) →
  holder c' = 0 → console_lock_depth c' = console_lock_depth (con w) → out c' = out (con w) →
  inv (mk_world c' (delete t (threads w)) (finished w ++ [(t, since, first, plain)])).
Proof.
  intros Hw Ht Hh Hd Hout. destruct (inv_alone _ _ _ _ _ _ Hw Ht) as (H0&Hht&Hc).
  destruct (inv_calls _ Hw _ _ _ _ _ Ht) as (_&[_ Hp]&Hdep). cbn in Hdep.
  constructor; cbn [con threads finished].
  - rewrite lookup_delete_ne by done. apply (inv_zero _ Hw).
  - intros t' st si fi pl [Hne E]%lookup_delete_Some. destruct (inv_calls _ Hw _ _ _ _ _ E) as (E'&_). congruence.
  - congruence.
  - intros _. by rewrite Hd, Hdep.
  - rewrite Hout, (inv_out _ Hw), map_app, concat_app. cbn [map concat]. rewrite Hc, !app_nil_r.
    unfold current. cbn [con threads]. rewrite Hh, lookup_delete_ne by done. rewrite (inv_zero _ Hw). by rewrite app_nil_r.
  - apply Forall_app. split; [apply (inv_finished _ Hw)|]. constructor; [|done]. cbn. split; [done|].
    intros Hpl. destruct (Hp Hpl) as (rest&[= <-]&E). by rewrite app_nil_r in E.
Qed.

(** ** Every step *)

(** Printing from a handler changes neither the lock nor what threads wrote. *)
Lemma handler_print_spec text : ∀ w, inv w →
  wp (handler_print text) w (λ _ w', use_console_lock (con w') = use_console_lock (con w) ∧ inv w').
Proof.
  induction text as [|c text IH]; intros w Hw; [done|]. cbn [handler_print]. unfold putchar_have_lock, set_con. wp_steps.
  eapply wp_mono; [apply IH|]; [|by intros [] w' Hw'].
  destruct Hw. constructor; cbn [con threads finished holder console_lock_depth out]; try done.
  by rewrite by_threads_app, app_nil_r.
Qed.

Lemma console_acquire_spec w t text stack since first plain : inv w → use_console_lock (con w) = true → t ≠ 0 →
  (stack = [] ∧ (∀ st si fi pl, threads w !! t ≠ Some (Calls st si fi pl)) ∨
   threads w !! t = Some (Calls stack since first plain)) →
  wp (acquire_console t text stack since first plain) w (λ _ w', inv w').
Proof.
  intros Hw Hu H0 Ht. unfold acquire_console, set_con, set_thread. wp_step. wp_step. cbv zeta. rewrite Hu.
  destruct Ht as [[-> Ht]|Ht].
  - assert (holder (con w) ≠ t) as Hne.
    { intros E. destruct (inv_holder _ Hw) as (st&si&fi&pl&E'); [congruence|]. rewrite E in E'. by apply Ht in E'. }
    assert ((holder (con w) =? t) = false) as -> by lia. destruct (holder (con w) =? 0) eqn:E; wp_steps.
    + apply (inv_enter w); try done. by apply Z.eqb_eq.
    + by apply inv_queue.
  - destruct (inv_alone _ _ _ _ _ _ Hw Ht) as (_&Hh&Hc). destruct (inv_calls _ Hw _ _ _ _ _ Ht) as (_&[Hs _]&Hd).
    rewrite Hh, Z.eqb_refl. wp_steps. destruct stack as [|s0 stack]; [done|].
    eapply (inv_move w); [done|exact Ht|done|done|cbn in *; lia|]. cbn [out con]. by rewrite (inv_out _ Hw), Hc.
Qed.

Lemma console_release_spec w t stack since first plain : inv w → use_console_lock (con w) = true →
  threads w !! t = Some (Calls ([] :: stack) since first plain) →
  wp (release_console t stack since first plain) w (λ _ w', inv w').
Proof.
  intros Hw Hu Ht. destruct (inv_alone _ _ _ _ _ _ Hw Ht) as (H0&Hh&Hc). destruct (inv_calls _ Hw _ _ _ _ _ Ht) as (_&[_ Hp]&Hd).
  unfold release_console, set_con, set_thread. wp_step. wp_step. cbv zeta. rewrite Hu. cbn [length] in Hd.
  destruct stack as [|s0 stack].
  - assert ((0 <? console_lock_depth (con w)) = false) as -> by (cbn in Hd; lia). rewrite Hh, Z.eqb_refl. wp_steps.
    by apply (inv_leave w).
  - assert ((0 <? console_lock_depth (con w)) = true) as -> by (cbn in Hd; lia). wp_steps.
    eapply (inv_move w); [done|exact Ht| |done|cbn in *; lia|cbn [out con]; by rewrite (inv_out _ Hw), Hc].
    split; [done|]. intros Hpl. by destruct (Hp Hpl) as (?&?&_).
Qed.

Lemma console_run_spec w t : inv w → use_console_lock (con w) = true → wp (run_thread t) w (λ _ w', inv w').
Proof.
  intros Hw Hu. unfold run_thread. wp_step. wp_step. destruct (threads w !! t) as [[stack since first plain|text]|] eqn:Ht; [| |done].
  - destruct (inv_alone _ _ _ _ _ _ Hw Ht) as (H0&Hh&Hc). destruct stack as [|[|c text] stack]; [done|by apply console_release_spec|].
    destruct (inv_calls _ Hw _ _ _ _ _ Ht) as (_&[_ Hp]&Hd).
    unfold putchar_have_lock, set_con, set_thread, console_locked_by. wp_step. wp_step. wp_step. cbv zeta. rewrite Hh, Z.eqb_refl, orb_true_r.
    wp_steps. eapply (inv_move w); [done|exact Ht| |done|done|].
    + split; [done|]. intros Hpl. destruct (Hp Hpl) as (rest&[= <- ->]&E). exists text. split; [done|].
      by rewrite E, <- app_assoc.
    + cbn [out con]. rewrite by_threads_app, (inv_out _ Hw), Hc, <- app_assoc. f_equal. unfold tagged. rewrite map_app. f_equal.
      unfold by_threads. rewrite filter_cons_True by done. done.
  - destruct (holder (con w) =? 0) eqn:E; cbn [orb].
    + apply console_acquire_spec; [done|done| |left; split; [done|congruence]]. intros ->. by rewrite (inv_zero _ Hw) in Ht.
    + rewrite Hu. by wp_steps.
Qed.

Lemma console_step_spec w e : inv w → use_console_lock (con w) = true →
  wp (step e) w (λ _ w', use_console_lock (con w') = true → inv w').
Proof.
  intros Hw Hu. destruct e as [t text|t|text|]; cbn [step].
  - wp_step. wp_step. destruct (t =? 0) eqn:E0; [by wp_steps|]. apply Z.eqb_neq in E0.
    destruct (threads w !! t) as [[stack since first plain|text']|] eqn:Ht; [| by wp_steps|].
    + eapply wp_mono; [apply console_acquire_spec; by auto|]. by intros [] w' Hw' _.
    + eapply wp_mono; [apply console_acquire_spec; try done; left; split; [done|congruence]|]. by intros [] w' Hw' _.
  - eapply wp_mono; [by apply console_run_spec|]. by intros [] w' Hw' _.
  - eapply wp_mono; [by apply handler_print_spec|]. by intros [] w' [_ Hw'] _.
  - unfold console_panic, set_con. by wp_steps.
Qed.

(** Nothing turns the lock on again after a panic. *)
Lemma step_off w e : use_console_lock (con w) = false → pwp (step e) w (λ _ w', use_console_lock (con w') = false).
Proof.
  intros Hu. assert (∀ t text stack since first plain,
    pwp (acquire_console t text stack since first plain) w (λ _ w', use_console_lock (con w') = false)) as Ha.
  { intros. unfold acquire_console, set_thread. pwp_step. pwp_step. cbv zeta. rewrite Hu. by pwp_steps. }
  destruct e as [t text|t|text|]; cbn [step].
  - pwp_step. pwp_step. destruct (t =? 0); [by pwp_steps|].
    destruct (threads w !! t) as [[stack since first plain|text']|]; [apply Ha|by pwp_steps|apply Ha].
  - unfold run_thread. pwp_step. pwp_step. destruct (threads w !! t) as [[stack since first plain|text]|]; [| |by pwp_steps].
    + destruct stack as [|[|c text] stack]; [by pwp_steps| |unfold putchar_have_lock, set_con, set_thread; by pwp_steps].
      unfold release_console, set_thread. pwp_step. pwp_step. cbv zeta. rewrite Hu. pwp_steps. by destruct stack; pwp_steps.
    + rewrite Hu, orb_true_r. apply Ha.
  - clear Ha. revert w Hu. induction text as [|c text IH]; intros w Hu; [by pwp_steps|]. cbn [handler_print].
    unfold putchar_have_lock, set_con. pwp_steps. by apply IH.
  - unfold console_panic, set_con. by pwp_steps.
Qed.

Lemma console_reachable_inv w : reachable w → use_console_lock (con w) = true → inv w.
Proof.
  induction 1 as [c Hd Ho|w e w' Hr IH Hs].
  - intros _. constructor; cbn; try done; try (intros; by rewrite lookup_empty in * ).
    rewrite Ho. unfold current. cbn. by rewrite lookup_empty.
  - intros Hu'. destruct (use_console_lock (con w)) eqn:Hu.
    + pose proof (console_step_spec w e (IH eq_refl) Hu) as Hw. unfold wp in Hw. rewrite Hs in Hw. by apply Hw.
    + pose proof (step_off w e Hu) as Hw. unfold pwp in Hw. rewrite Hs in Hw. congruence.
Qed.

(** C25: the output of threads is never mixed.  Until the kernel panics,
    whatever threads print, however they are preempted, whatever calls nest in
    others and whatever interrupt handlers print in between, the bytes written
    by threads are the outputs of the finished outermost calls one after the
    other, each whole, followed by what the thread that holds the lock has
    printed so far; a call without nested ones has printed exactly its text;
    and no step fails, in particular the assertion of [putchar_have_lock] and
    the release of the lock. *)
Theorem console_output_not_mixed w : reachable w → use_console_lock (con w) = true →
  by_threads (out (con w)) = concat (map (λ f, tagged f.1.1.1 f.1.1.2) (finished w)) ++ current w ∧
  Forall (λ f, f.2 = true → f.1.1.2 = map u8 f.1.2) (finished w) ∧
  (∀ e, ∃ w', step e w = Ret (tt, w')).
Proof.
  intros Hr Hu. pose proof (console_reachable_inv w Hr Hu) as Hw. split; [apply (inv_out _ Hw)|]. split.
  - eapply Forall_impl; [apply (inv_finished _ Hw)|]. by intros f [_ ?].
  - intros e. pose proof (console_step_spec w e Hw Hu) as Hs. unfold wp in Hs. destruct (step e w) as [[[] w']|]; [by exists w'|done].
Qed.

(** Two threads print while a handler interrupts. *)
Fixpoint steps (es : list event) : M world unit :=
  match es with
  | [] => ret tt
  | e :: es => step e;; steps es
  end.

Lemma console_steps_reachable es : ∀ w w', reachable w → steps es w = Ret (tt, w') → reachable w'.
Proof.
  induction es as [|e es IH]; cbn [steps]; intros w w' Hw E; [by injection E as <-|].
  unfold bind in E. destruct (step e w) as [[[] w1]|] eqn:E1; [|done]. eapply IH; [|done]. by eapply reach_step.
Qed.

Definition fresh : world := mk_world (console_init (mk_console 0 false 0 0 [])) ∅ [].
Definition two_printers : list event :=
  [Print 1 [104; 105]; Run 1; Print 2 [33]; Run 2; Handler [42]; Print 1 [45]; Run 1; Run 1; Run 1; Run 1; Run 2; Run 2].

Lemma console_output_not_mixed_witness :
  ∃ w, steps two_printers fresh = Ret (tt, w) ∧ reachable w ∧
    by_threads (out (con w)) = [(1, 104); (1, 45); (1, 105); (2, 33)] ∧
    by_threads (out (con w)) = concat (map (λ f, tagged f.1.1.1 f.1.1.2) (finished w)) ++ current w.
Proof.
  destruct (steps two_printers fresh) as [[[] w]|] eqn:E; [|vm_compute in E; discriminate].
  assert (reachable w) as Hw by (eapply console_steps_reachable; [|exact E]; by apply reach_init).
  exists w. split; [reflexivity|]. split; [exact Hw|].
  assert (use_console_lock (con w) = true) as Hu by (vm_compute in E; injection E as <-; reflexivity).
  split; [vm_compute in E; injection E as <-; reflexivity|]. apply (console_output_not_mixed w Hw Hu).
Defined.
