(* ===== verification/Syscall.v ===== *)
(** * System calls (userprog/syscall.c, [free_file_list] of userprog/process.c, threads/vaddr.h)

    The handler of interrupt 0x30 over the state of the calling process: its
    address space as the kernel sees it (user pages and the kernel's own
    memory), the file table, the current directory, what is printed, and the
    file system.  [thread_exit] does not come back: a handler returns, ends
    the process or halts the machine.  A kernel access to memory that is not
    mapped is [BadAccess]: the page fault handler continues at the address in
    [eax], which only [get_user] and [put_user] prepare for. *)

From Stdlib Require Import String.
From S2P Require Import Prelude Vaddr Str Stdio Inode Directory.
Local Open Scope Z_scope.

(** ** State *)
Record fnode := mk_fnode {
  fd : Z;
  file_ptr : Z;
  file_name : Z;
  file_locked : bool      (* [file_lock] is held by this thread *)
}.

Record proc := mk_proc {
  memory : mem;
  eax : Z;                (* of the interrupt frame *)
  file_list : list fnode;
  next_fd : Z;
  cwd : Z;
  exit_status : Z;        (* of [pn] *)
  thread_name : Z;        (* the address of [name] *)
  console : list Z;
  filesys : fs
}.
Definition set_memory v s := mk_proc v (eax s) (file_list s) (next_fd s) (cwd s) (exit_status s) (thread_name s) (console s) (filesys s).
Definition set_eax v s := mk_proc (memory s) v (file_list s) (next_fd s) (cwd s) (exit_status s) (thread_name s) (console s) (filesys s).
Definition set_file_list v s := mk_proc (memory s) (eax s) v (next_fd s) (cwd s) (exit_status s) (thread_name s) (console s) (filesys s).
Definition set_next_fd v s := mk_proc (memory s) (eax s) (file_list s) v (cwd s) (exit_status s) (thread_name s) (console s) (filesys s).
Definition set_cwd v s := mk_proc (memory s) (eax s) (file_list s) (next_fd s) v (exit_status s) (thread_name s) (console s) (filesys s).
Definition set_exit_status v s := mk_proc (memory s) (eax s) (file_list s) (next_fd s) (cwd s) v (thread_name s) (console s) (filesys s).
Definition set_console v s := mk_proc (memory s) (eax s) (file_list s) (next_fd s) (cwd s) (exit_status s) (thread_name s) v (filesys s).
Definition set_filesys v s := mk_proc (memory s) (eax s) (file_list s) (next_fd s) (cwd s) (exit_status s) (thread_name s) (console s) v.

(** How a handler ends. *)
Inductive flow (A : Type) := Done (a : A) | Exited | Halted.
Arguments Done {A}.
Arguments Exited {A}.
Arguments Halted {A}.

Definition SC (A : Type) : Type := M proc (flow A).
Definition sret {A} (a : A) : SC A := ret (Done a).
Definition sbind {A B} (c : SC A) (k : A → SC B) : SC B :=
  r ← c; match r with Done a => k a | Exited => ret Exited | Halted => ret Halted end.
(** A step that always returns. *)
Definition lift {A} (c : M proc A) : SC A := a ← c; sret a.
Notation "x ⇐ c ; k" := (sbind c (λ x, k)) (at level 20, c at level 100, k at level 200, only parsing) : m_scope.
Notation "c ;⇐ k" := (sbind c (λ _, k)) (at level 100, k at level 200, only parsing, right associativity) : m_scope.

Definition on_mem {A} (c : M mem A) : M proc A :=
  λ s, match c (memory s) with Ret (a, m) => Ret (a, set_memory m s) | Fail f => Fail f end.
Definition on_fs {A} (c : M fs A) : M proc A :=
  λ s, match c (filesys s) with Ret (a, f) => Ret (a, set_filesys f s) | Fail f => Fail f end.
Definition bool_int (b : bool) : Z := if b then 1 else 0.
Definition ret_eax (v : Z) : SC unit := lift (modify (set_eax v)).

(** ** Blocks of the address space *)
Fixpoint load_bytes (n : nat) (p : Z) : M mem (list Z) :=
  match n with O => ret [] | S n => b ← load p; r ← load_bytes n (u32 (p + 1)); ret (b :: r) end.
Fixpoint store_bytes (p : Z) (l : list Z) : M mem unit :=
  match l with [] => ret tt | b :: r => store p b;; store_bytes (u32 (p + 1)) r end.
(** A string that callees read until its terminator. *)
Fixpoint read_string (fuel : nat) (p : Z) : M mem (list Z) :=
  match fuel with
  | O => fail OutOfFuel
  | S fuel =>
      b ← load p;
      if bool_decide (b = 0) then ret [] else r ← read_string fuel (u32 (p + 1)); ret (b :: r)
  end.
Definition user_string (p : Z) : M proc (list Z) := on_mem (n ← bytes_mapped; read_string n p).

(** ** Ending the process *)

(** [printf] of the kernel. *)
Definition printf (format args : list Z) : M proc unit :=
  s ← get_state;
  match trace_printf (memory s) format args with
  | Ret out => put_state (set_console (console s ++ out) s)
  | Fail f => fail f
  end.

(** [while (!list_empty (list_f))]: a lock still held is released. *)
Fixpoint free_files (l : list fnode) : M fs unit :=
  match l with
  | [] => ret tt
  | fn :: r => file_close (file_ptr fn);; free_obj;; free_obj;; free_files r
  end.
Definition free_file_list : M proc unit :=
  l ← gets file_list; modify (set_file_list []);; on_fs (free_files l).

(** [thread_exit] of a user process, as far as its own state goes. *)
Definition thread_exit {A} : SC A := free_file_list;; ret Exited.

Definition exit_message : list Z := chars "%s: exit(%d)" ++ [10].
Definition error {A} : SC A :=
  modify (set_eax (u32 (-1)));;
  modify (set_exit_status (-1));;
  s ← get_state;
  printf exit_message [thread_name s; eax s];;
  thread_exit.

(** ** Access to user memory *)

(** [get_user]: a byte, or -1 after a page fault. *)
Definition get_user (uaddr : Z) : M proc Z := s ← get_state; ret (default (-1) (memory s !! uaddr)).
Definition put_user (udst byte : Z) : M proc bool :=
  s ← get_state;
  if bool_decide (is_Some (memory s !! udst)) then put_state (set_memory (<[udst := byte]> (memory s)) s);; ret true
  else ret false.

Definition get_user_byte (uaddr : Z) : SC Z :=
  if is_kernel_vaddr uaddr then error
  else
    result ← get_user uaddr;
    if bool_decide (result = -1) then error else sret result.

Definition put_user_byte (udst byte : Z) : SC unit :=
  if is_kernel_vaddr udst then error
  else ok ← put_user udst byte; if ok : bool then sret tt else error.

Fixpoint pow16 (n : nat) : Z := match n with O => 1 | S n => s32 (pow16 n * 16) end.

(** [for (; idx != 4; ++idx)], with [n] turns left. *)
Fixpoint user_word_loop (n : nat) (uaddr idx res : Z) : SC Z :=
  match n with
  | O => sret res
  | S n =>
      b ⇐ get_user_byte (u32 (uaddr + idx));
      user_word_loop n uaddr (idx + 1) (s32 (res + s32 (b * pow16 (Z.to_nat (idx * 2)))))
  end.
Definition get_user_int (uaddr : Z) : SC Z := user_word_loop 4 uaddr 0 0.
Definition get_user_ptr (uaddr : Z) : SC Z :=
  ptr ⇐ user_word_loop 4 uaddr 0 0;
  if bool_decide (ptr = 0) then error
  else get_user_byte (u32 ptr);⇐ sret (u32 ptr).

(** The arguments: [args + i] of type [uint32_t *]. *)
Definition arg (args i : Z) : Z := u32 (args + 4 * i).

(** ** The file table *)
Definition get_fn_from_fd (n : Z) : M proc (option fnode) :=
  s ← get_state; ret (find (λ fn, bool_decide (fd fn = n)) (file_list s)).
(** [if (fn == NULL) error (f);] *)
Definition get_fn (n : Z) : SC fnode :=
  fn ← get_fn_from_fd n; match fn with Some fn => sret fn | None => error end.

(** The lock of the node with the descriptor. *)
Definition set_locked (n : Z) (b : bool) : M proc unit :=
  modify (λ s, set_file_list ((λ fn, if bool_decide (fd fn = n)
    then mk_fnode (fd fn) (file_ptr fn) (file_name fn) b else fn) <$> file_list s) s).
Definition acquire_file (fn : fnode) : M proc unit := ASSERT (negb (file_locked fn));; set_locked (fd fn) true.
Definition release_file (fn : fnode) : M proc unit := set_locked (fd fn) false.

Fixpoint remove_fd (n : Z) (l : list fnode) : list fnode :=
  match l with
  | [] => []
  | fn :: r => if bool_decide (fd fn = n) then r else fn :: remove_fd n r
  end.

(** ** The calls *)
Section Calls.
(** Started and awaited through the threads of the kernel. *)
Context (process_execute process_wait : Z → M proc Z) (input_getc : M proc Z).
(** [fuel] for [dir_readdir]; [junk] and [contain] as in [filesys_remove]. *)
Context (fuel : nat) (junk contain : bool).

Definition sys_chdir (args : Z) : SC unit :=
  p ⇐ get_user_ptr (arg args 1);
  path ⇐ lift (user_string p);
  s ⇐ lift get_state;
  r ⇐ lift (on_fs (parse_path (cwd s) path));
  match r with
  | None => lift (fail BadAccess)        (* [dir] is not set *)
  | Some (d, name) =>
      node ⇐ lift (on_fs (dir_lookup d name));
      lift (on_fs (dir_close d));⇐
      isdir ⇐ lift (on_fs (inode_isdir node));
      n ⇐ lift (on_fs (inode_get_inumber node));
      lift (modify (set_cwd n));⇐
      ret_eax (bool_int (isdir && bool_decide (node ≠ Str.NULL)))
  end.

Definition sys_mkdir (args : Z) : SC unit :=
  p ⇐ get_user_ptr (arg args 1);
  path ⇐ lift (user_string p);
  s ⇐ lift get_state;
  r ⇐ lift (on_fs (parse_path (cwd s) path));
  match r with
  | None => lift (fail BadAccess)        (* [dir] is not set *)
  | Some (d, name) =>
      parent ⇐ lift (on_fs (dir_get_inode d));
      parent_n ⇐ lift (on_fs (inode_get_inumber parent));
      lift (on_fs (dir_close d));⇐
      sec ⇐ lift (on_fs (free_map_allocate inode_write_at 1));
      match sec with
      | None => lift (fail BadAccess)    (* [dir_sector] is not set *)
      | Some dir_sector =>
          ok ⇐ lift (on_fs (dir_create dir_sector 1 parent_n));
          ret_eax (bool_int ok)
      end
  end.

Definition sys_readdir (args : Z) : SC unit :=
  n ⇐ get_user_byte (arg args 1);
  name ⇐ get_user_ptr (arg args 2);
  fn ⇐ get_fn n;
  node ⇐ lift (on_fs (file_get_inode (file_ptr fn)));
  isdir ⇐ lift (on_fs (inode_isdir node));
  if isdir : bool then
    d ⇐ lift (on_fs (dir_open node));
    r ⇐ lift (on_fs (dir_readdir fuel d));
    (if fst r then lift (on_mem (store_bytes name (snd r ++ [0]))) else sret tt);⇐
    ret_eax (bool_int (fst r))
  else error.

Definition sys_isdir (args : Z) : SC unit :=
  n ⇐ get_user_byte (arg args 1);
  fn ⇐ get_fn n;
  node ⇐ lift (on_fs (file_get_inode (file_ptr fn)));
  isdir ⇐ lift (on_fs (inode_isdir node));
  ret_eax (bool_int isdir).

Definition sys_inumber (args : Z) : SC unit :=
  n ⇐ get_user_byte (arg args 1);
  fn ⇐ get_fn n;
  node ⇐ lift (on_fs (file_get_inode (file_ptr fn)));
  i ⇐ lift (on_fs (inode_get_inumber node));
  ret_eax i.

Definition sys_halt : SC unit := ret Halted.

Definition sys_create (args : Z) : SC unit :=
  p ⇐ get_user_ptr (arg args 1);
  initial_size ⇐ get_user_byte (arg args 2);
  name ⇐ lift (user_string p);
  s ⇐ lift get_state;
  ok ⇐ lift (on_fs (filesys_create (cwd s) name initial_size));
  ret_eax (bool_int ok).

Definition sys_remove (args : Z) : SC unit :=
  p ⇐ get_user_ptr (arg args 1);
  name ⇐ lift (user_string p);
  s ⇐ lift get_state;
  ok ⇐ lift (on_fs (filesys_remove fuel junk contain (cwd s) name));
  ret_eax (bool_int ok).

Definition sys_open (args : Z) : SC unit :=
  p ⇐ get_user_ptr (arg args 1);
  name ⇐ lift (user_string p);
  s ⇐ lift get_state;
  fp ⇐ lift (on_fs (filesys_open (cwd s) name));
  if bool_decide (fp = Str.NULL) then ret_eax (u32 (-1))
  else
    fn ⇐ lift (on_fs alloc_obj);
    if bool_decide (fn = Str.NULL) then lift (fail BadAccess)
    else
      n ⇐ lift (gets next_fd);
      lift (modify (set_next_fd (s32 (n + 1))));⇐
      lock ⇐ lift (on_fs alloc_obj);
      lift (ASSERT (bool_decide (lock ≠ Str.NULL)));⇐      (* in [lock_init] *)
      lift (modify (λ s, set_file_list (file_list s ++ [mk_fnode n fp p false]) s));⇐
      ret_eax (u32 n).

Definition sys_close (args : Z) : SC unit :=
  n ⇐ get_user_byte (arg args 1);
  fn ⇐ lift (get_fn_from_fd n);
  match fn with
  | Some fn =>
      lift (on_fs (file_close (file_ptr fn)));⇐
      lift (modify (λ s, set_file_list (remove_fd n (file_list s)) s));⇐
      lift (on_fs (free_obj;; free_obj))
  | None => sret tt
  end.

Definition sys_filesize (args : Z) : SC unit :=
  n ⇐ get_user_byte (arg args 1);
  fn ⇐ get_fn n;
  len ⇐ lift (on_fs (file_length (file_ptr fn)));
  ret_eax (u32 len).

(** [if (inode_isdir (file_get_inode (fp))) error (f);] *)
Definition check_not_dir (fn : fnode) : SC unit :=
  node ⇐ lift (on_fs (file_get_inode (file_ptr fn)));
  isdir ⇐ lift (on_fs (inode_isdir node));
  if isdir : bool then error else sret tt.

Definition sys_read (args : Z) : SC unit :=
  n ⇐ get_user_byte (arg args 1);
  buffer ⇐ get_user_ptr (arg args 2);
  size ⇐ get_user_byte (arg args 3);
  if bool_decide (n = 0) then c ⇐ lift input_getc; ret_eax c
  else if bool_decide (n < 0) || bool_decide (n = 1) then error
  else
    fn ⇐ get_fn n;
    check_not_dir fn;⇐
    r ⇐ lift (on_fs (file_read (file_ptr fn) size));
    lift (on_mem (store_bytes buffer (snd r)));⇐
    ret_eax (u32 (fst r)).

(** [putbuf] of lib/kernel/console.c. *)
Definition putbuf (buffer n : Z) : M proc unit :=
  l ← on_mem (load_bytes (Z.to_nat n) buffer); modify (λ s, set_console (console s ++ l) s).

(** The buffer given to [file_write] is read as a whole. *)
Definition sys_write (args : Z) : SC unit :=
  n ⇐ get_user_byte (arg args 1);
  buffer ⇐ get_user_ptr (arg args 2);
  size ⇐ get_user_int (arg args 3);
  if bool_decide (n = 1) then lift (putbuf buffer (u32 size));⇐ ret_eax (u32 size)
  else if bool_decide (n ≤ 0) then error
  else
    fn ⇐ get_fn n;
    check_not_dir fn;⇐
    lift (acquire_file fn);⇐
    data ⇐ lift (on_mem (load_bytes (Z.to_nat size) buffer));
    r ⇐ lift (on_fs (file_write (file_ptr fn) data size));
    ret_eax (u32 r);⇐
    lift (release_file fn).

Definition sys_seek (args : Z) : SC unit :=
  n ⇐ get_user_byte (arg args 1);
  position ⇐ get_user_byte (arg args 2);
  fn ⇐ get_fn n;
  lift (acquire_file fn);⇐
  lift (on_fs (file_seek (file_ptr fn) position));⇐
  lift (release_file fn).

Definition sys_tell (args : Z) : SC unit :=
  n ⇐ get_user_byte (arg args 1);
  fn ⇐ get_fn n;
  p ⇐ lift (on_fs (file_tell (file_ptr fn)));
  ret_eax (u32 p).

Definition sys_exit (args : Z) : SC unit :=
  status ⇐ get_user_byte (arg args 1);
  ret_eax status;⇐
  lift (modify (set_exit_status status));⇐
  s ⇐ lift get_state;
  lift (printf exit_message [thread_name s; eax s]);⇐
  thread_exit.

Definition sys_practice (args : Z) : SC unit :=
  v ⇐ get_user_byte (arg args 1); ret_eax (v + 1).

(** [while (get_user_byte (filename + idx++, f) != '\0') {}] *)
Fixpoint check_string (fuel : nat) (p : Z) : SC unit :=
  match fuel with
  | O => lift (fail OutOfFuel)
  | S fuel => b ⇐ get_user_byte p; if bool_decide (b = 0) then sret tt else check_string fuel (u32 (p + 1))
  end.

(** [strcspn (filename, " ")] *)
Fixpoint until_blank (l : list Z) : list Z :=
  match l with c :: r => if bool_decide (c = 32) then [] else c :: until_blank r | [] => [] end.

Definition sys_exec (args : Z) : SC unit :=
  filename ⇐ get_user_ptr (arg args 1);
  n ⇐ lift (on_mem bytes_mapped);
  check_string n filename;⇐
  name ⇐ lift (user_string filename);
  s ⇐ lift get_state;
  fp ⇐ lift (on_fs (filesys_open (cwd s) (until_blank name)));
  if bool_decide (fp = Str.NULL) then ret_eax (u32 (-1))
  else
    lift (on_fs (file_close fp));⇐
    pid ⇐ lift (process_execute filename);
    ret_eax (u32 pid).

Definition sys_wait (args : Z) : SC unit :=
  pid ⇐ get_user_byte (arg args 1);
  status ⇐ lift (process_wait pid);
  ret_eax (u32 status).

(** The numbers of lib/syscall-nr.h. *)
Definition syscall_handler (esp : Z) : SC unit :=
  let args := esp in
  cmd ⇐ get_user_byte args;
  if bool_decide (cmd = 1) then sys_exit args
  else if bool_decide (cmd = 2) then sys_exec args
  else if bool_decide (cmd = 3) then sys_wait args
  else if bool_decide (cmd = 13) then sys_practice args
  else if bool_decide (cmd = 4) then sys_create args
  else if bool_decide (cmd = 5) then sys_remove args
  else if bool_decide (cmd = 6) then sys_open args
  else if bool_decide (cmd = 12) then sys_close args
  else if bool_decide (cmd = 7) then sys_filesize args
  else if bool_decide (cmd = 8) then sys_read args
  else if bool_decide (cmd = 9) then sys_write args
  else if bool_decide (cmd = 10) then sys_seek args
  else if bool_decide (cmd = 11) then sys_tell args
  else if bool_decide (cmd = 16) then sys_chdir args
  else if bool_decide (cmd = 17) then sys_mkdir args
  else if bool_decide (cmd = 18) then sys_readdir args
  else if bool_decide (cmd = 19) then sys_isdir args
  else if bool_decide (cmd = 20) then sys_inumber args
  else if bool_decide (cmd = 0) then sys_halt
  else error.

End Calls.

(** ** The file table as an invariant *)
Definition fds (s : proc) : list Z := fd <$> file_list s.

(** Descriptors are handed out in increasing order from 2 on. *)
Record fd_table (s : proc) : Prop := FdTable {
  ft_sorted : StronglySorted Z.lt (fds s);
  ft_range : Forall (λ n, 2 ≤ n < next_fd s) (fds s);
  ft_next : 2 ≤ next_fd s < 2 ^ 31
}.

(** The descriptors are as before, or the process has closed all of them. *)
Definition same_fds (s s' : proc) : Prop := next_fd s' = next_fd s ∧ (fds s' = fds s ∨ fds s' = []).

#[export] Instance same_fds_preorder : PreOrder same_fds.
Proof.
  split.
  - intros s. split; [done|by left].
  - intros s1 s2 s3 [E1 H1] [E2 H2]. split; [congruence|]. destruct H1, H2; (left; congruence) || (right; congruence).
Qed.

Lemma same_fds_table s s' : same_fds s s' → fd_table s → fd_table s'.
Proof.
  intros [En [Ef|Ef]] [H1 H2 H3]; split; rewrite ?Ef, ?En; try done; constructor.
Qed.

(** Steps that leave the descriptors alone. *)
Definition stable {A} (c : M proc A) : Prop := ∀ s, pwp c s (λ _ s', same_fds s s').

Lemma stable_ret {A} (a : A) : stable (ret a).
Proof. intros s. unfold pwp. simpl. reflexivity. Qed.
Lemma stable_fail {A} f : stable (A := A) (fail f).
Proof. done. Qed.
Lemma stable_bind {A B} (c : M proc A) (k : A → M proc B) : stable c → (∀ a, stable (k a)) → stable (bind c k).
Proof.
  intros Hc Hk s. apply pwp_bind. eapply pwp_mono; [apply Hc|]. intros a s1 H1.
  eapply pwp_mono; [apply Hk|]. intros b s2 H2. exact (transitivity H1 H2).
Qed.
Lemma stable_sbind {A B} (c : SC A) (k : A → SC B) : stable c → (∀ a, stable (k a)) → stable (sbind c k).
Proof. intros Hc Hk. apply stable_bind; [done|]. intros []; [apply Hk|apply stable_ret|apply stable_ret]. Qed.
Lemma stable_lift {A} (c : M proc A) : stable c → stable (lift c).
Proof. intros Hc. apply stable_bind; [done|]. intros a. apply stable_ret. Qed.
Lemma stable_modify f : (∀ s, same_fds s (f s)) → stable (modify f).
Proof. intros Hf s. apply pwp_modify, Hf. Qed.
Lemma stable_get_state : stable get_state.
Proof. intros s. by apply pwp_get_state. Qed.
Lemma stable_gets {A} (f : proc → A) : stable (gets f).
Proof. intros s. by apply pwp_gets. Qed.
Lemma stable_ASSERT b : stable (ASSERT b).
Proof. intros s. by apply pwp_ASSERT. Qed.
Lemma stable_on_fs {A} (c : M fs A) : stable (on_fs c).
Proof. intros s. unfold pwp, on_fs. destruct (c (filesys s)) as [[]|]; [|done]. split; [done|by left]. Qed.
Lemma stable_on_mem {A} (c : M mem A) : stable (on_mem c).
Proof. intros s. unfold pwp, on_mem. destruct (c (memory s)) as [[]|]; [|done]. split; [done|by left]. Qed.

Create HintDb stable.
#[local] Hint Resolve stable_ret stable_fail stable_lift stable_modify stable_get_state stable_gets stable_ASSERT
  stable_on_fs stable_on_mem : stable.
#[local] Hint Extern 1 (same_fds _ _) => (split; [reflexivity|by left]) : stable.

Local Ltac stable_step :=
  lazymatch goal with
  | |- stable (bind _ _) => apply stable_bind; [|intros ?]
  | |- stable (sbind _ _) => apply stable_sbind; [|intros ?]
  | |- stable (lift _) => apply stable_lift
  | |- stable (match ?e with _ => _ end) => destruct e
  | |- stable (let _ := _ in _) => cbv zeta
  end.
Local Ltac stable_auto := repeat (stable_step || (progress eauto with stable)).

Lemma stable_printf format args : stable (printf format args).
Proof.
  intros s. apply pwp_bind, pwp_get_state. destruct (trace_printf _ _ _); [|done]. apply pwp_put_state. split; [done|by left].
Qed.
#[local] Hint Resolve stable_printf : stable.
Lemma stable_free_file_list : stable free_file_list.
Proof. unfold free_file_list. stable_auto. apply stable_modify. intros s. split; [done|by right]. Qed.
#[local] Hint Resolve stable_free_file_list : stable.
Lemma stable_thread_exit {A} : stable (thread_exit (A := A)).
Proof. unfold thread_exit. stable_auto. Qed.
#[local] Hint Resolve stable_thread_exit : stable.
Lemma stable_error {A} : stable (error (A := A)).
Proof. unfold error. stable_auto. Qed.
#[local] Hint Resolve stable_error : stable.
Lemma stable_get_user_byte a : stable (get_user_byte a).
Proof. unfold get_user_byte, get_user. stable_auto. Qed.
#[local] Hint Resolve stable_get_user_byte : stable.
Lemma stable_user_word_loop n a i r : stable (user_word_loop n a i r).
Proof. revert i r. induction n; intros i r; simpl; unfold sret; stable_auto. Qed.
#[local] Hint Resolve stable_user_word_loop : stable.
Lemma stable_get_user_ptr a : stable (get_user_ptr a).
Proof. unfold get_user_ptr, sret. stable_auto. Qed.
Lemma stable_get_user_int a : stable (get_user_int a).
Proof. apply stable_user_word_loop. Qed.
Lemma stable_get_fn n : stable (get_fn n).
Proof. unfold get_fn, get_fn_from_fd, sret. stable_auto. Qed.
Lemma stable_set_locked n b : stable (set_locked n b).
Proof.
  apply stable_modify. intros s. split; [done|]. left. unfold fds. simpl. rewrite <- list_fmap_compose.
  apply list_fmap_ext. intros i fn _. unfold compose. by case_bool_decide.
Qed.
Lemma stable_check_string n p : stable (check_string n p).
Proof. revert p. induction n; intros p; simpl; unfold sret; stable_auto. Qed.
Lemma stable_ret_eax v : stable (ret_eax v).
Proof. unfold ret_eax. stable_auto. Qed.
#[local] Hint Resolve stable_get_user_ptr stable_get_user_int stable_get_fn stable_set_locked stable_check_string
  stable_ret_eax : stable.

Section StableCalls.
Context (process_execute process_wait : Z → M proc Z) (input_getc : M proc Z) (fuel : nat) (junk contain : bool).
Context (Hexec : ∀ p, stable (process_execute p)) (Hwait : ∀ p, stable (process_wait p)) (Hgetc : stable input_getc).

(** Every call but [open] and [close]. *)
Lemma stable_calls args :
  stable (sys_chdir args) ∧ stable (sys_mkdir args) ∧ stable (sys_readdir fuel args) ∧ stable (sys_isdir args) ∧
  stable (sys_inumber args) ∧ stable (sys_create args) ∧ stable (sys_remove fuel junk contain args) ∧
  stable (sys_filesize args) ∧ stable (sys_read input_getc args) ∧ stable (sys_write args) ∧ stable (sys_seek args) ∧
  stable (sys_tell args) ∧ stable (sys_exit args) ∧ stable (sys_practice args) ∧ stable (sys_exec process_execute args) ∧
  stable (sys_wait process_wait args).
Proof.
  repeat split;
    unfold sys_chdir, sys_mkdir, sys_readdir, sys_isdir, sys_inumber, sys_create, sys_remove, sys_filesize, sys_read,
      sys_write, sys_seek, sys_tell, sys_exit, sys_practice, sys_exec, sys_wait, check_not_dir, acquire_file,
      release_file, putbuf, user_string, sret; stable_auto.
Qed.

End StableCalls.

(** *** Opening and closing *)
Lemma remove_fd_sub n l fn : fn ∈ remove_fd n l → fn ∈ l.
Proof. induction l as [|x l IH]; simpl; [done|]. case_bool_decide; set_solver. Qed.

Lemma remove_fd_sublist n l : sublist (remove_fd n l) l.
Proof. induction l as [|x l IH]; simpl; [constructor|]. case_bool_decide; by constructor. Qed.

Lemma remove_fd_sorted n l : StronglySorted Z.lt (fd <$> l) → StronglySorted Z.lt (fd <$> remove_fd n l).
Proof.
  induction l as [|x l IH]; simpl; [done|]. intros Hs. apply StronglySorted_inv in Hs as [Hs Hx].
  case_bool_decide; [done|]. csimpl. constructor; [by apply IH|].
  apply Forall_fmap, Forall_forall. intros y Hy%remove_fd_sub. rewrite Forall_fmap, Forall_forall in Hx. by apply Hx.
Qed.

(** After the removal the descriptor is gone, and only it. *)
Lemma remove_fd_elem n l : StronglySorted Z.lt (fd <$> l) → ∀ k, k ∈ fd <$> remove_fd n l ↔ k ∈ fd <$> l ∧ k ≠ n.
Proof.
  induction l as [|x l IH]; intros Hs k; simpl; [set_solver|]. csimpl in Hs.
  apply StronglySorted_inv in Hs as [Hs Hx]. rewrite Forall_forall in Hx. case_bool_decide as Hn; csimpl.
  - rewrite elem_of_cons. split; [|intros [[->|?] ?]; [done|done]]. intros Hk. split; [by right|].
    specialize (Hx k Hk). lia.
  - rewrite !elem_of_cons, IH by done. split; [|tauto]. intros [->|[? ?]]; tauto.
Qed.

Lemma table_close n s : fd_table s → fd_table (set_file_list (remove_fd n (file_list s)) s).
Proof.
  intros [Hs Hr Hn]. split; [by apply remove_fd_sorted| |done].
  apply Forall_fmap, Forall_forall. intros fn Hfn%remove_fd_sub. unfold fds in Hr.
  rewrite Forall_fmap, Forall_forall in Hr. by apply Hr.
Qed.

Lemma table_open s s' fn :
  fd_table s → fd fn = next_fd s → fds s' = fds s ++ [fd fn] → next_fd s' = next_fd s + 1 → next_fd s + 1 < 2 ^ 31 →
  fd_table s'.
Proof.
  intros [Hs Hr Hn] Hfd Hl Hnx Hlt. split; rewrite ?Hl, ?Hnx; [| |lia].
  - rewrite Forall_forall in Hr. apply StronglySorted_app. split_and!; [|done|by repeat constructor].
    intros x y Hx ->%list_elem_of_singleton. specialize (Hr x Hx). lia.
  - apply Forall_app. split; [|apply Forall_singleton; lia]. eapply Forall_impl; [done|]. simpl. lia.
Qed.

Lemma pwp_sbind {A B} (c : SC A) (k : A → SC B) s (Q : flow B → proc → Prop) :
  pwp c s (λ r s', match r with Done a => pwp (k a) s' Q | Exited => Q Exited s' | Halted => Q Halted s' end) →
  pwp (sbind c k) s Q.
Proof. intros H. apply pwp_bind. eapply pwp_mono; [exact H|]. intros [] s' Hr; exact Hr. Qed.
Lemma pwp_lift {A} (c : M proc A) s (Q : flow A → proc → Prop) : pwp c s (λ a s', Q (Done a) s') → pwp (lift c) s Q.
Proof. intros H. apply pwp_bind. eapply pwp_mono; [exact H|]. done. Qed.
(** A stable step, then one that keeps the table. *)
Lemma table_stable_sbind {A B} (c : SC A) (k : A → SC B) s :
  stable c → fd_table s →
  (∀ a s', fd_table s' → next_fd s' = next_fd s → pwp (k a) s' (λ _ s', fd_table s')) →
  pwp (sbind c k) s (λ _ s', fd_table s').
Proof.
  intros Hc Hs Hk. apply pwp_sbind. eapply pwp_mono; [apply Hc|]. intros r s' Hs'.
  pose proof (same_fds_table _ _ Hs' Hs). destruct r; [|done..]. apply Hk; [done|apply Hs'].
Qed.

Lemma close_table args s : fd_table s → pwp (sys_close args) s (λ _ s', fd_table s').
Proof.
  intros Hs. unfold sys_close. apply table_stable_sbind; [eauto with stable|done|]. intros n s1 H1 _.
  apply table_stable_sbind; [unfold get_fn_from_fd; stable_auto|done|]. intros [fn|] s2 H2 _; [|done].
  apply table_stable_sbind; [eauto with stable|done|]. intros _ s3 H3 _. apply pwp_sbind, pwp_lift, pwp_modify.
  pose proof (table_close n s3 H3) as H4. eapply pwp_mono; [apply stable_lift, stable_on_fs|].
  intros a s4 H. exact (same_fds_table _ _ H H4).
Qed.

Lemma open_table args s : fd_table s → next_fd s + 1 < 2 ^ 31 → pwp (sys_open args) s (λ _ s', fd_table s').
Proof.
  intros Hs Hlt. unfold sys_open. apply table_stable_sbind; [eauto with stable|done|]. intros p s1 H1 E1.
  apply table_stable_sbind; [unfold user_string; stable_auto|done|]. intros name s2 H2 E2.
  apply table_stable_sbind; [stable_auto|done|]. intros s2' s3 H3 E3.
  apply table_stable_sbind; [stable_auto|done|]. intros fp s4 H4 E4. case_bool_decide.
  { eapply pwp_mono; [apply stable_ret_eax|]. intros a s5 H5. exact (same_fds_table _ _ H5 H4). }
  apply table_stable_sbind; [stable_auto|done|]. intros fn s5 H5 E5. case_bool_decide; [done|].
  apply pwp_sbind, pwp_lift, pwp_gets, pwp_sbind, pwp_lift, pwp_modify.
  apply pwp_sbind, pwp_lift. unfold pwp at 1, on_fs. destruct (alloc_obj _) as [[lock f]|]; [|done].
  apply pwp_sbind, pwp_lift, pwp_ASSERT. intros _. apply pwp_sbind, pwp_lift, pwp_modify.
  match goal with |- pwp _ ?st _ => set (s6 := st) end.
  assert (fd_table s6) as H6.
  { eapply (table_open s5 s6 (mk_fnode (next_fd s5) fp p false)); [done|done| | |lia].
    - unfold s6, fds. simpl. by rewrite fmap_app.
    - unfold s6. simpl. apply s32_small. destruct H5 as [_ _ ?]. word_lia. }
  eapply pwp_mono; [apply stable_ret_eax|]. intros a s7 H7. exact (same_fds_table _ _ H7 H6).
Qed.

(** ** Ending a process *)
Lemma parse_conversion_s r args (s : mem * list Z) :
  parse_conversion (115 :: r) args s = Ret ((Conversion 0 0 (-1) INT, 115 :: r, args), s).
Proof. reflexivity. Qed.

(** The message for a status whose decimal digits are known. *)
Lemma exit_message_printed (m : mem) p name w digits :
  p ≠ Str.NULL → str_at m p name → Z.of_nat (length name) < 2 ^ 31 →
  vprintf_loop trace_output 44 (chars ": exit(%d)" ++ [10]) [w] (m, []) = Ret (tt, (m, digits)) →
  trace_printf m exit_message [p; w] = Ret (name ++ digits).
Proof.
  intros Hp Hs Hl Hd. unfold trace_printf, __vprintf.
  change exit_message with (37 :: 115 :: (chars ": exit(%d)" ++ [10])).
  match goal with |- context [vprintf_loop _ ?n] => change n with (S 44) end.
  erewrite vprintf_loop_conversion; [|done|apply parse_conversion_s]. unfold bind at 1.
  rewrite (convert_s m _ _ _ p [w] name []) by done. by rewrite (trace_continue _ _ _ _ _ _ Hd).
Qed.

(** The state a process that is killed leaves behind. *)
Definition killed (s : proc) (name : list Z) (f : fs) : proc :=
  mk_proc (memory s) (u32 (-1)) [] (next_fd s) (cwd s) (-1) (thread_name s)
    (console s ++ name ++ chars ": exit(-1)" ++ [10]) f.

Lemma error_kills {A} s name :
  thread_name s ≠ Str.NULL → str_at (memory s) (thread_name s) name → Z.of_nat (length name) < 2 ^ 31 →
  error (A := A) s =
    match free_files (file_list s) (filesys s) with Ret (_, f) => Ret (Exited, killed s name f) | Fail e => Fail e end.
Proof.
  intros Hp Hs Hl. unfold error, thread_exit, free_file_list, printf, bind, modify, get_state, gets, put_state, on_fs.
  cbn [memory eax file_list next_fd cwd exit_status thread_name console filesys set_eax set_exit_status set_console
       set_file_list set_filesys].
  rewrite (exit_message_printed _ _ name _ (chars ": exit(-1)" ++ [10]) Hp Hs Hl); [|vm_compute; reflexivity].
  cbn [memory eax file_list next_fd cwd exit_status thread_name console filesys set_eax set_exit_status set_console
       set_file_list set_filesys]. by destruct (free_files (file_list s) (filesys s)) as [[[] f]|].
Qed.

(** ** Reading user memory *)

(** A byte that is in a user page, and a little-endian word of such bytes. *)
Definition user_byte (s : proc) (a : Z) : option Z := if is_kernel_vaddr a then None else memory s !! a.
Definition user_word (s : proc) (a : Z) : option Z :=
  match user_byte s (u32 a), user_byte s (u32 (a + 1)), user_byte s (u32 (a + 2)), user_byte s (u32 (a + 3)) with
  | Some b0, Some b1, Some b2, Some b3 => Some (b0 + 2 ^ 8 * b1 + 2 ^ 16 * b2 + 2 ^ 24 * b3)
  | _, _, _, _ => None
  end.
Definition bytes_ok (s : proc) : Prop := ∀ a b, memory s !! a = Some b → is_u8 b.

Lemma get_user_byte_eq s a :
  bytes_ok s → get_user_byte a s = match user_byte s a with Some b => Ret (Done b, s) | None => error s end.
Proof.
  intros Hb. unfold get_user_byte, user_byte. destruct (is_kernel_vaddr a); [done|]. unfold get_user, bind, get_state.
  simpl. destruct (memory s !! a) as [b|] eqn:E; simpl; [|done]. rewrite bool_decide_false; [done|].
  specialize (Hb _ _ E). word_lia.
Qed.

Lemma sbind_Done {A B} (c : SC A) (k : A → SC B) s a s' : c s = Ret (Done a, s') → sbind c k s = k a s'.
Proof. intros H. unfold sbind, bind. by rewrite H. Qed.
(** A computation that kills the process kills the rest, too. *)
Lemma sbind_error {A B} (k : A → SC B) s : sbind error k s = error s.
Proof.
  unfold sbind, error, thread_exit, bind. destruct (modify _ s) as [[[] s1]|]; [|done].
  destruct (modify _ s1) as [[[] s2]|]; [|done]. destruct (get_state s2) as [[s3 s4]|]; [|done].
  destruct (printf _ _ s4) as [[[] s5]|]; [|done]. by destruct (free_file_list s5) as [[[] s6]|].
Qed.

Lemma error_never_done {A} s (Q : flow A → proc → Prop) : (∀ s', Q Exited s') → pwp error s Q.
Proof.
  intros HQ. unfold error, thread_exit, pwp, bind. destruct (modify _ s) as [[[] s1]|]; [|done].
  destruct (modify _ s1) as [[[] s2]|]; [|done]. destruct (get_state s2) as [[s3 s4]|]; [|done].
  destruct (printf _ _ s4) as [[[] s5]|]; [|done]. destruct (free_file_list s5) as [[[] s6]|]; [|done]. apply HQ.
Qed.
Lemma sbind_killed {A B} (c : SC A) (k : A → SC B) s : c s = error s → sbind c k s = error s.
Proof. intros H. rewrite <- (sbind_error k s). unfold sbind, bind. by rewrite H. Qed.
Local Opaque error.

Lemma s32_idem_add a b : s32 (a + s32 b) = s32 (a + b).
Proof.
  assert (u32 (a + s32 b) = u32 (a + b)) as H; [|unfold s32 at 1 3; by rewrite H].
  unfold s32. destruct (_ <=? _).
  - unfold u32 at 1 2. replace (a + (b mod 2 ^ 32 - 2 ^ 32)) with (a + b mod 2 ^ 32 + (-1) * 2 ^ 32) by lia.
    rewrite Z_mod_plus_full. by rewrite Zplus_mod_idemp_r.
  - unfold u32. by rewrite Zplus_mod_idemp_r.
Qed.

Lemma s32_idem_add_l a b : s32 (s32 a + b) = s32 (a + b).
Proof. rewrite Z.add_comm, s32_idem_add. f_equal. lia. Qed.
Lemma u32_s32 x : u32 (s32 x) = u32 x.
Proof.
  unfold s32. destruct (_ <=? _); [|unfold u32; by rewrite Z.mod_mod].
  unfold u32. rewrite <- (Z_mod_plus_full _ 1). replace (x mod 2 ^ 32 - 2 ^ 32 + 1 * 2 ^ 32) with (x mod 2 ^ 32) by lia.
  by rewrite Z.mod_mod.
Qed.

Lemma user_word_loop_S n a i r s :
  bytes_ok s →
  user_word_loop (S n) a i r s =
    match user_byte s (u32 (a + i)) with
    | Some b => user_word_loop n a (i + 1) (s32 (r + s32 (b * pow16 (Z.to_nat (i * 2))))) s
    | None => error s
    end.
Proof.
  intros Hb. cbn [user_word_loop]. pose proof (get_user_byte_eq s (u32 (a + i)) Hb) as H.
  destruct (user_byte s (u32 (a + i))) as [b|]; [by rewrite (sbind_Done _ _ _ _ _ H)|].
  by apply sbind_killed.
Qed.

Lemma user_word_eq s a :
  bytes_ok s →
  user_word_loop 4 a 0 0 s = match user_word s a with Some w => Ret (Done (s32 w), s) | None => error s end.
Proof.
  intros Hb. unfold user_word. rewrite user_word_loop_S by done. rewrite Z.add_0_r.
  destruct (user_byte s (u32 a)) as [b0|]; [|done]. rewrite user_word_loop_S by done. change (0 + 1) with 1.
  destruct (user_byte s (u32 (a + 1))) as [b1|]; [|done]. rewrite user_word_loop_S by done. change (1 + 1) with 2.
  destruct (user_byte s (u32 (a + 2))) as [b2|]; [|done]. rewrite user_word_loop_S by done. change (2 + 1) with 3.
  destruct (user_byte s (u32 (a + 3))) as [b3|]; [|done]. cbn [user_word_loop]. unfold sret, ret. do 3 f_equal.
  change (pow16 (Z.to_nat (0 * 2))) with 1. change (pow16 (Z.to_nat (1 * 2))) with (2 ^ 8).
  change (pow16 (Z.to_nat (2 * 2))) with (2 ^ 16). change (pow16 (Z.to_nat (3 * 2))) with (2 ^ 24).
  rewrite !s32_idem_add, !s32_idem_add_l, <- (Z.add_assoc (s32 _)), s32_idem_add_l. f_equal. lia.
Qed.

Lemma get_user_ptr_eq s a :
  bytes_ok s →
  get_user_ptr a s =
    match user_word s a with
    | Some w => if bool_decide (w = 0) then error s
                else match user_byte s w with Some _ => Ret (Done w, s) | None => error s end
    | None => error s
    end.
Proof.
  intros Hb. unfold get_user_ptr. pose proof (user_word_eq s a Hb) as H.
  destruct (user_word s a) as [w|] eqn:Hw; [|by apply sbind_killed]. rewrite (sbind_Done _ _ _ _ _ H).
  assert (is_u32 w) as Hr.
  { unfold user_word, user_byte in Hw. repeat case_match; try done. simplify_eq.
    repeat match goal with E : memory s !! _ = Some _ |- _ => apply Hb in E end. word_lia. }
  assert (u32 (s32 w) = w) as Hu by (rewrite u32_s32; by apply u32_small). rewrite Hu.
  destruct (decide (w = 0)) as [->|Hne]; [done|]. rewrite (bool_decide_false (w = 0)) by done.
  rewrite bool_decide_false by (intros E; rewrite E in Hu; by subst).
  pose proof (get_user_byte_eq s w Hb) as H2. destruct (user_byte s w); [by rewrite (sbind_Done _ _ _ _ _ H2)|].
  by apply sbind_killed.
Qed.
