(* ===== verification/SyscallSpec.v ===== *)
(** * Properties of the system calls

    User pointers, descriptors, the end of a process, and the defects of the
    handlers, with runs on a small file system. *)

From Stdlib Require Import String.
From S2P Require Import Prelude Vaddr Str Stdio Inode Directory DirectorySpec Syscall.
Local Open Scope Z_scope.

(** [lia] with division by constants. *)
Local Ltac Zify.zify_post_hook ::= Z.to_euclidean_division_equations.
Local Opaque error.

(** ** Pointers *)

(** The pointer at a user address, if it can be read, is not null and points
    into a user page. *)
Definition user_ptr (s : proc) (a : Z) : option Z :=
  match user_word s a with
  | Some w => if bool_decide (w = 0) then None else match user_byte s w with Some _ => Some w | None => None end
  | None => None
  end.

Lemma get_user_ptr_ptr s a :
  bytes_ok s → get_user_ptr a s = match user_ptr s a with Some w => Ret (Done w, s) | None => error s end.
Proof.
  intros Hb. rewrite get_user_ptr_eq by done. unfold user_ptr. destruct (user_word s a) as [w|]; [|done].
  case_bool_decide; [done|]. by destruct (user_byte s w).
Qed.

(** ** Strings and descriptors *)

Lemma user_string_eq p name s :
  str_at (memory s) p name → 0 ≤ p → p + Z.of_nat (length name) < 2 ^ 32 →
  user_string p s = Ret (name, set_memory (memory s) s).
Proof.
  intros Hs Hp Hl. unfold user_string, on_mem, bytes_mapped, gets, bind, get_state, ret.
  cut (∀ n, (length name < n)%nat → read_string n p (memory s) = Ret (name, memory s)).
  { intros H. rewrite H; [done|]. apply str_at_size in Hs. lia. }
  revert p Hs Hp Hl. induction name as [|x l IH]; intros p Hs Hp Hl [|n] Hn; simpl in Hn; [lia| |lia|].
  - apply str_at_nil in Hs. cbn [read_string]. unfold bind, load, bind, get_state. by rewrite Hs.
  - apply str_at_cons in Hs as (Hx&Hne&Hs). cbn [read_string]. unfold bind, load, bind, get_state. rewrite Hx.
    cbn [deref]. unfold ret. rewrite bool_decide_false by done. simpl in Hl. rewrite u32_small by word_lia.
    rewrite (IH (p + 1)); [done|done|lia|lia|lia].
Qed.

(** The heap has room for two more structures. *)
Definition room_for_two (f : fs) : Prop := (2 ≤ room f)%nat ∧ 0 < next_obj f.

Lemma alloc_obj_eq f r : room f = S r → alloc_obj f = Ret (next_obj f, set_alloc (next_obj f + 64) r f).
Proof. intros H. unfold alloc_obj, bind, get_state. by rewrite H. Qed.

Lemma on_fs_eq {A} (c : M fs A) s a f : c (filesys s) = Ret (a, f) → lift (on_fs c) s = Ret (Done a, set_filesys f s).
Proof. intros H. unfold lift, bind, on_fs. by rewrite H. Qed.

Lemma sys_open_eq args s p name fp f :
  bytes_ok s → user_ptr s (arg args 1) = Some p → str_at (memory s) p name → 0 ≤ p → p + Z.of_nat (length name) < 2 ^ 32 →
  filesys_open (cwd s) name (filesys s) = Ret (fp, f) → room_for_two f → 0 ≤ next_fd s → next_fd s + 1 < 2 ^ 31 →
  ∃ s', sys_open args s = Ret (Done tt, s') ∧
    if bool_decide (fp = Str.NULL) then eax s' = u32 (-1) ∧ file_list s' = file_list s ∧ next_fd s' = next_fd s
    else eax s' = next_fd s ∧ next_fd s' = next_fd s + 1 ∧ file_list s' = file_list s ++ [mk_fnode (next_fd s) fp p false].
Proof.
  intros Hb Hu Hs Hp Hl Hf [Hr Ho] Hn Hn'. unfold sys_open.
  erewrite sbind_Done; [|rewrite get_user_ptr_ptr, Hu by done; reflexivity].
  erewrite sbind_Done; [|unfold lift, bind; rewrite user_string_eq with (name := name) by done; reflexivity].
  erewrite sbind_Done; [|reflexivity].
  erewrite sbind_Done; [|by apply on_fs_eq].
  case_bool_decide; [by eexists|].
  destruct (room f) as [|[|r]] eqn:Er; [lia|lia|].
  erewrite sbind_Done; [|by apply on_fs_eq, (alloc_obj_eq f (S r))].
  rewrite bool_decide_false by (unfold Str.NULL; lia).
  erewrite sbind_Done; [|reflexivity]. erewrite sbind_Done; [|reflexivity].
  erewrite sbind_Done; [|by apply on_fs_eq, alloc_obj_eq].
  erewrite sbind_Done; [|cbn [next_obj set_alloc filesys set_filesys set_next_fd];
    unfold lift, bind, ASSERT; rewrite bool_decide_true by (unfold Str.NULL; lia); reflexivity].
  erewrite sbind_Done; [|reflexivity]. eexists. split; [reflexivity|]. split_and!; [| |reflexivity].
  - cbn. apply u32_small. word_lia.
  - cbn. apply s32_small. word_lia.
Qed.

Lemma sys_close_eq args s n :
  bytes_ok s → user_byte s (arg args 1) = Some n →
  (∀ fn, fn ∈ file_list s → fd fn = n → ∃ f, file_close (file_ptr fn) (filesys s) = Ret (tt, f)) →
  ∃ s', sys_close args s = Ret (Done tt, s') ∧ file_list s' = remove_fd n (file_list s).
Proof.
  intros Hb Hu Hc. unfold sys_close.
  erewrite sbind_Done; [|rewrite get_user_byte_eq, Hu by done; reflexivity].
  erewrite sbind_Done; [|reflexivity]. destruct (find _ (file_list s)) as [fn|] eqn:Hf.
  - apply find_some in Hf as [Hin%list_elem_of_In Hfd%bool_decide_eq_true_1].
    destruct (Hc fn Hin Hfd) as [f Hcl]. erewrite sbind_Done; [|by apply on_fs_eq].
    erewrite sbind_Done; [|reflexivity]. by eexists.
  - exists s. split; [done|]. clear Hc. induction (file_list s) as [|x l IH]; [done|]. simpl in Hf |- *.
    case_bool_decide; [done|]. f_equal. by apply IH.
Qed.

(** ** Closing the files of a process *)






(** ** The exit message *)
Lemma trace_loop_char fuel c r args (m : mem) out :
  c ≠ 37 →
  vprintf_loop trace_output (S fuel) (c :: r) args (m, out) = vprintf_loop trace_output fuel r args (m, out ++ [c]).
Proof. intros Hc. cbn [vprintf_loop]. by rewrite bool_decide_true. Qed.

Lemma parse_conversion_d r args (s : mem * list Z) :
  parse_conversion (100 :: r) args s = Ret ((Conversion 0 0 (-1) INT, 100 :: r, args), s).
Proof. reflexivity. Qed.

Lemma exit_message_digits (m : mem) v :
  is_s32 v →
  ∃ text, atoi text = v ∧
    vprintf_loop trace_output 44 (chars ": exit(%d)" ++ [10]) [u32 v] (m, []) =
      Ret (tt, (m, chars ": exit(" ++ text ++ chars ")" ++ [10])).
Proof.
  intros Hv. change (chars ": exit(%d)" ++ [10]) with [58; 32; 101; 120; 105; 116; 40; 37; 100; 41; 10].
  rewrite !trace_loop_char by done. cbn [app].
  destruct (format_decimal trace_output (Z.abs v) (bool_decide (v < 0)) (Conversion 0 0 (-1) INT)
    (m, [58; 32; 101; 120; 105; 116; 40])) as (ds&a&b&Hr&Hd&Hne); [by left|simpl; lia|done|word_lia|].
  rewrite trace_output_all in Hr. set (text := replicate a 32 ++ _) in Hr.
  assert (atoi text = v) as Ht.
  { unfold text. rewrite (atoi_decimal a b _ ds (Z.abs v)); [case_bool_decide; lia|done|done|word_lia|].
    intros ?%bool_decide_eq_false. word_lia. }
  clearbody text. exists text. split; [done|]. erewrite vprintf_loop_conversion; [|done|apply parse_conversion_d].
  unfold bind at 1. rewrite convert_d by done. unfold bind at 1. rewrite Hr. unfold ret at 1.
  rewrite !trace_loop_char by done. cbn [vprintf_loop]. unfold ret. do 3 f_equal. rewrite <- !app_assoc. reflexivity.
Qed.

(** ** Runs *)
Definition bytes_map (p : Z) (l : list Z) : mem := list_to_map (zip (seqZ p (Z.of_nat (length l))) l).
(** A formatted file system with the file [a] of 100 bytes. *)
Definition file_fs : fs :=
  match (format_disk;; filesys_create 1 [97] 100) blank_fs with Ret (_, f) => f | Fail _ => blank_fs end.
(** The process [init], with the stack at 0x1000 and a string at 0x2000. *)
Definition process (stack string : list Z) : proc :=
  mk_proc (bytes_map 0x1000 stack ∪ (bytes_map 0x2000 (string ++ [0]) ∪ bytes_map 0xc0001000 (chars "init" ++ [0])))
    0 [] 2 1 0 0xc0001000 [] file_fs.
Definition call (s : proc) : outcome (flow unit * proc) :=
  syscall_handler (λ _, ret 3) (λ _, ret 0) (ret 97) 10 true true 0x1000 s.
(** What a run shows: how it ends, the result, the descriptors, the output. *)
Definition observe (r : outcome (flow unit * proc)) : option (flow unit * Z * list Z * list Z) :=
  match r with Ret (f, s) => Some (f, eax s, fds s, console s) | Fail _ => None end.

(** [open ("a")] returns 2, [open ("b")] fails with -1, and a null pointer
    ends the process. *)
Example open_runs :
  observe (call (process [6; 0; 0; 0; 0; 32; 0; 0] [97])) = Some (Done tt, 2, [2], []) ∧
  observe (call (process [6; 0; 0; 0; 0; 32; 0; 0] [98])) = Some (Done tt, 2 ^ 32 - 1, [], []) ∧
  observe (call (process [6; 0; 0; 0; 0; 0; 0; 0] [98])) =
    Some (Exited, 2 ^ 32 - 1, [], chars "init: exit(-1)" ++ [10]).
Proof. split_and!; vm_compute; reflexivity. Qed.

(** ** Properties *)

(** C12: The file table stays well formed under every system call: the
    descriptors are distinct, in increasing order, at least 2 and below
    [next_fd], whatever the arguments are and however the call ends (as long
    as starting and awaiting processes and reading a key leave it alone and
    [next_fd] does not overflow). *)
Theorem syscall_keeps_fd_table (process_execute process_wait : Z → M proc Z) (input_getc : M proc Z) fuel junk contain esp s :
  (∀ p, stable (process_execute p)) → (∀ p, stable (process_wait p)) → stable input_getc →
  fd_table s → next_fd s + 1 < 2 ^ 31 →
  ∀ r s', syscall_handler process_execute process_wait input_getc fuel junk contain esp s = Ret (r, s') → fd_table s'.
Proof.
  intros He Hw Hg Hs Hn r s' Hrun.
  cut (pwp (syscall_handler process_execute process_wait input_getc fuel junk contain esp) s (λ _ s', fd_table s')).
  { unfold pwp. by rewrite Hrun. }
  unfold syscall_handler. apply table_stable_sbind; [apply stable_get_user_byte|done|]. intros cmd s1 H1 E1.
  assert (∀ c : SC unit, stable c → pwp c s1 (λ _ s', fd_table s')) as Hst.
  { intros c Hc. eapply pwp_mono; [apply Hc|]. intros a s2 H2. exact (same_fds_table _ _ H2 H1). }
  destruct (stable_calls process_execute process_wait input_getc fuel junk contain He Hw Hg esp)
    as (?&?&?&?&?&?&?&?&?&?&?&?&?&?&?&?).
  repeat case_bool_decide; try (apply Hst; done).
  - apply open_table; [done|lia].
  - by apply close_table.
  - apply Hst, stable_ret.
  - apply Hst, stable_error.
Qed.

Lemma syscall_keeps_fd_table_witness :
  fd_table (process [6; 0; 0; 0; 0; 32; 0; 0] [97]) ∧
  ∀ r s', call (process [6; 0; 0; 0; 0; 32; 0; 0] [97]) = Ret (r, s') → fd_table s'.
Proof.
  assert (fd_table (process [6; 0; 0; 0; 0; 32; 0; 0] [97])) as H by (split; cbn; [constructor|constructor|lia]).
  split; [exact H|].
  apply (syscall_keeps_fd_table (λ _, ret 3) (λ _, ret 0) (ret 97) 10 true true 0x1000);
    [intros p; apply stable_ret|intros p; apply stable_ret|apply stable_ret|exact H|reflexivity].
Defined.


(** A concrete list of bytes. *)
Local Ltac bytes := repeat first [apply Forall_nil_2 | apply Forall_cons_2; [unfold is_u8; lia|]].

Lemma process_bytes_ok stack string : Forall is_u8 stack → Forall is_u8 string → bytes_ok (process stack string).
Proof.
  intros H1 H2 a b Hab. assert (∀ p l, Forall is_u8 l → bytes_map p l !! a = Some b → is_u8 b) as Hm.
  { intros p l Hl Hlk. apply elem_of_list_to_map_2, elem_of_zip_r in Hlk. by eapply Forall_forall in Hl. }
  cbn [memory process] in Hab. apply lookup_union_Some_raw in Hab as [Hab|[_ Hab]]; [exact (Hm _ _ H1 Hab)|].
  apply lookup_union_Some_raw in Hab as [Hab|[_ Hab]]; eapply Hm, Hab.
  - apply Forall_app. split; [done|bytes].
  - cbn. bytes.
Qed.



(** Descriptors: [open] of a string in user memory always returns when the
    file system answers and the heap has room for the node.  If the file is
    there, the result is a descriptor that was not in use and the table gains
    exactly that one; if not, the result is -1 and no descriptor changes.
    [close] always returns, and removes exactly the descriptor given (its low
    byte), if it is there; the other open files keep their nodes. *)
Theorem open_and_close_descriptors (s : proc) (args p : Z) (name : list Z) (fp : Z) (f : fs) :
  bytes_ok s → fd_table s → next_fd s + 1 < 2 ^ 31 → user_ptr s (arg args 1) = Some p →
  str_at (memory s) p name → 0 ≤ p → p + Z.of_nat (length name) < 2 ^ 32 →
  filesys_open (cwd s) name (filesys s) = Ret (fp, f) → room_for_two f →
  (∃ s', sys_open args s = Ret (Done tt, s') ∧
     if bool_decide (fp = Str.NULL) then eax s' = u32 (-1) ∧ file_list s' = file_list s
     else eax s' = next_fd s ∧ next_fd s ∉ fds s ∧ file_list s' = file_list s ++ [mk_fnode (next_fd s) fp p false]) ∧
  (∀ args n, user_byte s (arg args 1) = Some n →
     (∀ fn, fn ∈ file_list s → fd fn = n → ∃ f, file_close (file_ptr fn) (filesys s) = Ret (tt, f)) →
     ∃ s', sys_close args s = Ret (Done tt, s') ∧
       (∀ k, k ∈ fds s' ↔ k ∈ fds s ∧ k ≠ n) ∧ sublist (file_list s') (file_list s)).
Proof.
  intros Hb [Hso Hr Hn0] Hn Hu Hstr Hp Hl Hf Hroom. split.
  - destruct (sys_open_eq args s p name fp f) as (s'&Hrun&Hs'); [done..|lia|lia|]. exists s'. split; [done|].
    case_bool_decide; [by destruct Hs' as (?&?&_)|]. destruct Hs' as (?&_&?). split_and!; [done| |done].
    rewrite Forall_forall in Hr. intros Hin. specialize (Hr _ Hin). lia.
  - intros args' n Hun Hc. destruct (sys_close_eq args' s n Hb Hun Hc) as (s'&Hrun&Hs'). exists s'.
    unfold fds. rewrite Hs'. split_and!; [done|by apply remove_fd_elem|apply remove_fd_sublist].
Qed.

Lemma file_fs_open : ∃ fp f, filesys_open 1 [97] file_fs = Ret (fp, f) ∧ fp ≠ 0 ∧ room_for_two f.
Proof.
  assert (match filesys_open 1 [97] file_fs with
    Ret (fp, f) => negb (fp =? 0) && (2 <=? room f)%nat && (0 <? next_obj f) | _ => false end = true) as H
    by (vm_compute; reflexivity).
  revert H. generalize (filesys_open 1 [97] file_fs) as r. intros [[fp f]|] H; [|discriminate H].
  exists fp, f. split; [reflexivity|]. apply andb_prop in H as [[H1 H2]%andb_prop H3]. split; [|split].
  - intros ->. discriminate H1.
  - by apply Nat.leb_le.
  - by apply Z.ltb_lt.
Qed.

Lemma open_and_close_descriptors_witness :
  ∃ s', sys_open 0x1000 (process [6; 0; 0; 0; 0; 32; 0; 0] [97]) = Ret (Done tt, s') ∧ eax s' = 2 ∧ fds s' = [2].
Proof.
  assert (bytes_ok (process [6; 0; 0; 0; 0; 32; 0; 0] [97])) as Hb by (apply process_bytes_ok; bytes).
  destruct file_fs_open as (fp&f&Hf&Hfp&Hroom).
  destruct (open_and_close_descriptors (process [6; 0; 0; 0; 0; 32; 0; 0] [97]) 0x1000 0x2000 [97] fp f) as [(s'&Hrun&Hs') _].
  - exact Hb.
  - split; cbn; [constructor|constructor|lia].
  - reflexivity.
  - reflexivity.
  - split; [repeat split; reflexivity|by apply (bool_decide_unpack _)].
  - lia.
  - reflexivity.
  - exact Hf.
  - exact Hroom.
  - exists s'. split; [exact Hrun|]. rewrite bool_decide_false in Hs' by done. destruct Hs' as (He&_&Hl).
    split; [exact He|]. unfold fds. by rewrite Hl.
Defined.

Lemma load_bytes_at (m : mem) p l :
  bytes_at m p l → 0 ≤ p → p + Z.of_nat (length l) ≤ 2 ^ 32 → load_bytes (length l) p m = Ret (l, m).
Proof.
  revert p. induction l as [|x l IH]; intros p Hb Hp Hl; [done|]. destruct Hb as [Hx Hb]. cbn [length load_bytes].
  unfold bind at 1, load, bind at 1, get_state. rewrite Hx. simpl in Hl. unfold deref, ret. cbv iota.
  destruct l as [|y l']; [done|]. rewrite u32_small by (simpl in Hl; word_lia).
  unfold bind. rewrite IH; [done|done|lia|simpl in *; lia].
Qed.

(** C40: [write] leaks kernel memory: only the first byte of a buffer is
    checked.  With a buffer that starts in the last byte of user memory, the
    call prints the bytes [secret] that the kernel has from [PHYS_BASE] on, and
    returns as if nothing was wrong. *)
Theorem write_prints_kernel_memory (s : proc) (args c : Z) (secret : list Z) :
  bytes_ok s → user_byte s (arg args 1) = Some 1 → user_word s (arg args 2) = Some (PHYS_BASE - 1) →
  user_word s (arg args 3) = Some (1 + Z.of_nat (length secret)) → Z.of_nat (length secret) < 2 ^ 30 →
  memory s !! (PHYS_BASE - 1) = Some c → bytes_at (memory s) PHYS_BASE secret →
  sys_write args s = Ret (Done tt,
    set_eax (1 + Z.of_nat (length secret)) (set_console (console s ++ c :: secret) s)).
Proof.
  intros Hb H1 H2 H3 Hl Hc Hsec. unfold sys_write.
  erewrite sbind_Done; [|rewrite get_user_byte_eq by done; by rewrite H1].
  erewrite sbind_Done.
  2:{ rewrite get_user_ptr_eq by done. rewrite H2. rewrite bool_decide_false by done. unfold user_byte.
      change (is_kernel_vaddr (PHYS_BASE - 1)) with false. cbv iota. by rewrite Hc. }
  erewrite sbind_Done.
  2:{ unfold get_user_int. rewrite user_word_eq by done. by rewrite H3. }
  rewrite bool_decide_true by done. rewrite s32_small by word_lia. rewrite u32_small by word_lia.
  replace (Z.to_nat (1 + Z.of_nat (length secret))) with (length (c :: secret)) by (simpl; lia).
  assert (load_bytes (length (c :: secret)) (PHYS_BASE - 1) (memory s) = Ret (c :: secret, memory s)) as Hld.
  { apply load_bytes_at; [split; [done|]; by rewrite Z.sub_add|unfold PHYS_BASE; lia|].
    unfold PHYS_BASE. cbn [length]. lia. }
  erewrite sbind_Done; [reflexivity|]. unfold lift, putbuf, bind, on_mem.
  replace (Z.to_nat (1 + Z.of_nat (length secret))) with (length (c :: secret)) by (simpl; lia).
  rewrite Hld. unfold modify. cbn. by destruct s.
Qed.

(** The same process, with the last user page and kernel data behind it. *)
Definition spy : proc :=
  let s := process ([9; 0; 0; 0; 1; 0; 0; 0] ++ [255; 255; 255; 191] ++ [3; 0; 0; 0]) [97] in
  set_memory (bytes_map (PHYS_BASE - 1) [120; 77; 88] ∪ memory s) s.

Lemma write_prints_kernel_memory_witness :
  sys_write 0x1000 spy = Ret (Done tt, set_eax 3 (set_console [120; 77; 88] spy)).
Proof.
  apply (write_prints_kernel_memory spy 0x1000 120 [77; 88]); try (vm_compute; reflexivity).
  - intros a b Hab. unfold spy in Hab. cbn [memory set_memory] in Hab.
    apply lookup_union_Some_raw in Hab as [Hab|[_ Hab]].
    + apply elem_of_list_to_map_2, elem_of_zip_r in Hab. revert b Hab. apply Forall_forall. bytes.
    + assert (bytes_ok (process ([9; 0; 0; 0; 1; 0; 0; 0] ++ [255; 255; 255; 191] ++ [3; 0; 0; 0]) [97])) as H
        by (apply process_bytes_ok; [cbn|]; bytes). exact (H _ _ Hab).
  - repeat split; reflexivity.
Defined.

(** The exit status is cut to a byte: [exit] reads only the low byte of its
    argument, so that a process that calls [exit (w)] ends with the status
    [w mod 256], which is also what its exit message shows ([exit (-1)] becomes
    255, and cannot be told from [exit (255)]). *)
Theorem exit_status_is_a_byte (s : proc) (args w : Z) (name : list Z) (f : fs) :
  bytes_ok s → user_word s (arg args 1) = Some w →
  thread_name s ≠ Str.NULL → str_at (memory s) (thread_name s) name → Z.of_nat (length name) < 2 ^ 31 →
  free_files (file_list s) (filesys s) = Ret (tt, f) →
  ∃ s' text, sys_exit args s = Ret (Exited, s') ∧ exit_status s' = w mod 256 ∧ file_list s' = [] ∧
    console s' = console s ++ name ++ chars ": exit(" ++ text ++ chars ")" ++ [10] ∧ atoi text = w mod 256.
Proof.
  intros Hb Hw Hp Hn Hl Hf. assert (∃ b, user_byte s (arg args 1) = Some b ∧ b = w mod 256 ∧ is_u8 b) as (b&Hub&Hbw&Hb8).
  { unfold user_word in Hw. rewrite (u32_small (arg args 1)) in Hw by apply u32_range.
    destruct (user_byte s (arg args 1)) as [b|] eqn:E; [|done]. repeat case_match; try done. simplify_eq. exists b.
    assert (is_u8 b) as H8 by (unfold user_byte in E; case_match; [done|]; by eapply Hb). split; [done|].
    split; [|done]. word_lia. }
  destruct (exit_message_digits (memory s) b) as (text&Ht&Hd); [word_lia|]. rewrite u32_small in Hd by word_lia.
  unfold sys_exit. erewrite sbind_Done; [|rewrite get_user_byte_eq by done; by rewrite Hub].
  eexists _, text. rewrite <- Hbw. split; [|split_and!; [..|done]].
  - unfold sbind, ret_eax, lift, thread_exit, free_file_list, printf, bind, modify, get_state, gets, put_state, on_fs, sret, ret.
    cbn [memory eax file_list next_fd cwd exit_status thread_name console filesys set_eax set_exit_status set_console
         set_file_list set_filesys].
    rewrite (exit_message_printed _ _ name _ _ Hp Hn Hl Hd).
    cbn [memory eax file_list next_fd cwd exit_status thread_name console filesys set_eax set_exit_status set_console
         set_file_list set_filesys]. rewrite Hf. reflexivity.
  - done.
  - done.
  - done.
Qed.

Lemma exit_status_is_a_byte_witness :
  ∃ s' text, sys_exit 0x1000 (process [1; 0; 0; 0; 255; 255; 255; 255] []) = Ret (Exited, s') ∧ exit_status s' = 255 ∧
    file_list s' = [] ∧ console s' = chars "init" ++ chars ": exit(" ++ text ++ chars ")" ++ [10] ∧ atoi text = 255.
Proof.
  assert (bytes_ok (process [1; 0; 0; 0; 255; 255; 255; 255] [])) as Hb by (apply process_bytes_ok; bytes).
  apply (exit_status_is_a_byte (process [1; 0; 0; 0; 255; 255; 255; 255] []) 0x1000 (2 ^ 32 - 1) (chars "init") file_fs Hb);
    [vm_compute; reflexivity|cbn; discriminate| |reflexivity|reflexivity].
  split; [repeat split; reflexivity|set_solver by lia].
Defined.

(** The stack of a call with one pointer argument, to the string. *)
Definition path_call (nr : Z) (path : list Z) : outcome (flow unit * proc) :=
  call (process [nr; 0; 0; 0; 0; 32; 0; 0] path).

(** Directory calls bring the kernel down.  [mkdir ("d")] creates a
    directory for one entry, adds [..] and then [.]; as files do not grow, the
    second one does not fit and an assertion of [dir_create] fails.  [chdir] to
    a name that does not exist dereferences a null pointer, and [chdir] to the
    plain file [a] returns false but makes the file the current directory. *)
Theorem directory_calls_defects :
  path_call 17 [100] = Fail AssertFail ∧
  path_call 16 [120] = Fail BadAccess ∧
  (∃ s', path_call 16 [97] = Ret (Done tt, s') ∧ eax s' = 0 ∧ cwd s' ≠ 1).
Proof.
  split_and!; [vm_compute; reflexivity..|].
  assert (match path_call 16 [97] with Ret (Done tt, s') => eax s' = 0 ∧ cwd s' ≠ 1 | _ => False end) as H
    by (vm_compute; done).
  destruct (path_call 16 [97]) as [[[[]| |] s']|]; [|done..]. by exists s'.
Qed.
