(* ===== verification/Process.v ===== *)
(** * Starting a process (userprog/process.c)

    [start_process]: the words of the command line and the layout of the
    initial stack, over the memory of the kernel and the new process; and the
    checks and the arithmetic that place the segments of an executable.
    [load], which maps pages, is an argument of [start_process]: it returns
    its result and the stack pointer it stores. *)

From S2P Require Import Prelude Vaddr Str Inode Directory Syscall.
Local Open Scope Z_scope.

(** [lia] with division by constants. *)
Local Ltac Zify.zify_post_hook ::= Z.to_euclidean_division_equations.

(** ** The stack of a new process *)

Section StartProcess.
Context (load : Z → M mem (bool * Z)).
(** The address of the literal for a blank. *)
Context (blank : Z).

(** The loop over [strtok_r]; [argv] has 128 elements. *)
Fixpoint token_loop (fuel : nat) (s save offset : Z) (argv : list Z) : M mem (list Z) :=
  match fuel with
  | O => fail OutOfFuel
  | S fuel =>
      ' (token, save) ← strtok_r s blank save;
      if bool_decide (token = Str.NULL) then ret argv
      else
        (if bool_decide (length argv < 128)%nat then ret tt else fail BadAccess);;
        token_loop fuel Str.NULL save offset (argv ++ [u32 (token - offset)])
  end.

(** [palloc_free_page] fills the page. *)
Definition palloc_free_page (page : Z) : M mem unit := _ ← memset page 0xcc PGSIZE; ret tt.

(** The stack pointer the process starts with, or nothing when the thread
    exits. *)
Definition start_process (file_name : Z) : M mem (option Z) :=
  n ← strlen file_name;
  let fn_sz := n + 1 in
  let offset := s32 (file_name - PHYS_BASE + fn_sz) in
  fuel ← bytes_mapped;
  argv ← token_loop fuel file_name Str.NULL offset [];
  let argc := Z.of_nat (length argv) in
  (if bool_decide (argc < 128) then ret tt else fail BadAccess);;     (* [argv[argc] = NULL] *)
  ' (success, esp) ← load file_name;
  let esp := u32 (esp - fn_sz) in
  _ ← memcpy esp file_name fn_sz;
  palloc_free_page file_name;;
  if success : bool then
    let ep_sz := 16 - (fn_sz + (argc + 3) * 4) mod 16 in
    let esp := u32 (esp - ep_sz) in
    _ ← memset esp 0 ep_sz;
    let esp := u32 (esp - (argc + 1) * 4) in
    store_words esp (argv ++ [0]);;
    let esp := u32 (esp - 4) in
    store_word esp (u32 (esp + 4));;
    let esp := u32 (esp - 4) in
    store_word esp argc;;
    let esp := u32 (esp - 4) in
    _ ← memset esp 0 4;
    ret (Some esp)
  else ret None.
End StartProcess.

(** ** Segments of an executable *)
Record Elf32_Phdr := mk_Phdr {
  p_type : Z;
  p_offset : Z;
  p_vaddr : Z;
  p_filesz : Z;
  p_memsz : Z;
  p_flags : Z
}.

(** [length] is the length of the file, an [off_t]. *)
Definition validate_segment (phdr : Elf32_Phdr) (length : Z) : bool :=
  if negb (bool_decide (Z.land (p_offset phdr) PGMASK = Z.land (p_vaddr phdr) PGMASK)) then false
  else if bool_decide (p_offset phdr > u32 length) then false
  else if bool_decide (p_memsz phdr < p_filesz phdr) then false
  else if bool_decide (p_memsz phdr = 0) then false
  else if negb (is_user_vaddr (p_vaddr phdr)) then false
  else if negb (is_user_vaddr (u32 (p_vaddr phdr + p_memsz phdr))) then false
  else if bool_decide (u32 (p_vaddr phdr + p_memsz phdr) < p_vaddr phdr) then false
  else if bool_decide (p_vaddr phdr < PGSIZE) then false
  else true.

(** The arguments [load] gives to [load_segment]: the offset in the file, the
    first page, and the numbers of bytes to read and to clear. *)
Definition segment_layout (phdr : Elf32_Phdr) : Z * Z * Z * Z :=
  let file_page := Z.ldiff (p_offset phdr) PGMASK in
  let mem_page := Z.ldiff (p_vaddr phdr) PGMASK in
  let page_offset := Z.land (p_vaddr phdr) PGMASK in
  if bool_decide (p_filesz phdr > 0) then
    let read_bytes := u32 (page_offset + p_filesz phdr) in
    (file_page, mem_page, read_bytes, u32 (ROUND_UP (u32 (page_offset + p_memsz phdr)) PGSIZE - read_bytes))
  else (file_page, mem_page, 0, ROUND_UP (u32 (page_offset + p_memsz phdr)) PGSIZE).

(** [while (read_bytes > 0 || zero_bytes > 0)]; [fill] gets a page, reads into
    it, clears the rest and maps it, and tells whether all of this succeeded. *)
Section LoadSegment.
Context {S : Type} (fill : Z → Z → Z → M S bool).

Fixpoint segment_loop (fuel : nat) (upage read_bytes zero_bytes : Z) : M S bool :=
  match fuel with
  | O => fail OutOfFuel
  | Datatypes.S fuel =>
      if bool_decide (read_bytes > 0) || bool_decide (zero_bytes > 0) then
        let page_read_bytes := if bool_decide (read_bytes < PGSIZE) then read_bytes else PGSIZE in
        let page_zero_bytes := PGSIZE - page_read_bytes in
        ok ← fill upage page_read_bytes page_zero_bytes;
        if ok : bool then
          segment_loop fuel (u32 (upage + PGSIZE)) (u32 (read_bytes - page_read_bytes))
            (u32 (zero_bytes - page_zero_bytes))
        else ret false
      else ret true
  end.
End LoadSegment.

(** ** The image of a process

    The pages mapped for the user with their contents and whether they are
    writable, the page tables in use, and what is left in the page pools. *)
Record image := mk_image {
  im_fs : fs;
  im_pages : gmap Z (list Z * bool);
  im_tables : gset Z;
  im_user : nat;
  im_kernel : nat
}.
Definition set_im_fs v s := mk_image v (im_pages s) (im_tables s) (im_user s) (im_kernel s).
Definition set_im_user v s := mk_image (im_fs s) (im_pages s) (im_tables s) v (im_kernel s).
Definition im_on_fs {A} (c : M fs A) : M image A :=
  λ s, match c (im_fs s) with Ret (a, f) => Ret (a, set_im_fs f s) | Fail f => Fail f end.

(** [palloc_get_page (PAL_USER)] *)
Definition get_user_page : M image bool :=
  s ← get_state; match im_user s with O => ret false | Datatypes.S n => put_state (set_im_user n s);; ret true end.
Definition free_user_page : M image unit := modify (λ s, set_im_user (Datatypes.S (im_user s)) s).

(** [install_page]: fails if the page is mapped, or if there is no memory for
    its page table. *)
Definition install_page (upage : Z) (contents : list Z) (writable : bool) : M image bool :=
  s ← get_state;
  match im_pages s !! upage with
  | Some _ => ret false
  | None =>
      let table := Z.shiftr upage 22 in
      if bool_decide (table ∈ im_tables s) then
        put_state (mk_image (im_fs s) (<[upage := (contents, writable)]> (im_pages s)) (im_tables s) (im_user s) (im_kernel s));;
        ret true
      else
        match im_kernel s with
        | O => ret false
        | Datatypes.S n =>
            put_state (mk_image (im_fs s) (<[upage := (contents, writable)]> (im_pages s)) ({[table]} ∪ im_tables s)
              (im_user s) n);;
            ret true
        end
  end.

Definition fill_page (file : Z) (writable : bool) (upage page_read_bytes page_zero_bytes : Z) : M image bool :=
  kpage ← get_user_page;
  if kpage : bool then
    ' (n, bytes) ← im_on_fs (file_read file page_read_bytes);
    if bool_decide (n ≠ page_read_bytes) then free_user_page;; ret false
    else
      ok ← install_page upage (bytes ++ replicate (Z.to_nat page_zero_bytes) 0) writable;
      if ok : bool then ret true else free_user_page;; ret false
  else ret false.

Definition load_segment (file ofs upage read_bytes zero_bytes : Z) (writable : bool) : M image bool :=
  ASSERT (bool_decide (u32 (read_bytes + zero_bytes) mod PGSIZE = 0));;
  ASSERT (bool_decide (Z.land upage PGMASK = 0));;
  ASSERT (bool_decide (Z.rem ofs PGSIZE = 0));;
  im_on_fs (file_seek file ofs);;
  segment_loop (fill_page file writable) (Datatypes.S (Z.to_nat ((read_bytes + zero_bytes) / PGSIZE)))
    upage read_bytes zero_bytes.

Definition setup_stack : M image (option Z) :=
  kpage ← get_user_page;
  if kpage : bool then
    ok ← install_page (PHYS_BASE - PGSIZE) (replicate (Z.to_nat PGSIZE) 0) true;
    if ok : bool then ret (Some PHYS_BASE) else free_user_page;; ret None
  else ret None.

(** *** [load] *)
Definition half (l : list Z) (off : Z) : Z := le (take 2 (drop (Z.to_nat off) l)).
Definition phdr_of (l : list Z) : Elf32_Phdr :=
  mk_Phdr (get_word l 0) (get_word l 4) (get_word l 8) (get_word l 16) (get_word l 20) (get_word l 24).

(** The checks of the header of 52 bytes: the magic number, [e_type],
    [e_machine], [e_version], [e_phentsize] and [e_phnum]. *)
Definition ehdr_ok (h : list Z) : bool :=
  bool_decide (take 7 h = [127; 69; 76; 70; 1; 1; 1]) && bool_decide (half h 16 = 2) && bool_decide (half h 18 = 3) &&
  bool_decide (get_word h 20 = 1) && bool_decide (half h 42 = 32) && bool_decide (half h 44 ≤ 1024).

Definition PT_LOAD : Z := 1.
(** [PT_DYNAMIC], [PT_INTERP] and [PT_SHLIB] *)
Definition refused_type (t : Z) : bool := bool_decide (t = 2) || bool_decide (t = 3) || bool_decide (t = 5).

Definition load_phdr (file : Z) (phdr : Elf32_Phdr) : M image bool :=
  if refused_type (p_type phdr) then ret false
  else if bool_decide (p_type phdr = PT_LOAD) then
    len ← im_on_fs (file_length file);
    if validate_segment phdr len then
      let writable := bool_decide (Z.land (p_flags phdr) 2 ≠ 0) in
      let '(file_page, mem_page, read_bytes, zero_bytes) := segment_layout phdr in
      load_segment file (s32 file_page) mem_page read_bytes zero_bytes writable
    else ret false
  else ret true.

(** [for (i = 0; i < ehdr.e_phnum; i++)] *)
Fixpoint phdr_loop (n : nat) (file file_ofs : Z) : M image bool :=
  match n with
  | O => ret true
  | Datatypes.S n =>
      len ← im_on_fs (file_length file);
      if bool_decide (file_ofs < 0) || bool_decide (file_ofs > len) then ret false
      else
        im_on_fs (file_seek file file_ofs);;
        ' (k, bytes) ← im_on_fs (file_read file 32);
        if bool_decide (k ≠ 32) then ret false
        else
          ok ← load_phdr file (phdr_of bytes);
          if ok : bool then phdr_loop n file (s32 (file_ofs + 32)) else ret false
  end.

(** The entry point and the stack pointer, or failure. *)
Definition load_file (file : Z) : M image (option (Z * Z)) :=
  ' (k, ehdr) ← im_on_fs (file_read file 52);
  if bool_decide (k ≠ 52) || negb (ehdr_ok ehdr) then ret None
  else
    ok ← phdr_loop (Z.to_nat (half ehdr 44)) file (s32 (get_word ehdr 28));
    if ok : bool then
      esp ← setup_stack;
      ret (match esp with Some esp => Some (get_word ehdr 24, esp) | None => None end)
    else ret None.

Definition load (cwd : Z) (file_name : list Z) : M image (option (Z * Z)) :=
  s ← get_state;
  match im_kernel s with
  | O => ret None                        (* [pagedir_create] *)
  | Datatypes.S n =>
      put_state (mk_image (im_fs s) ∅ ∅ (im_user s) n);;
      file ← im_on_fs (filesys_open cwd file_name);
      r ← (if bool_decide (file = Str.NULL) then ret None else load_file file);
      im_on_fs (file_close file);;
      ret r
  end.

(** ** Writing the stack *)
Section Stack.
Implicit Types (m : mem) (l : list Z).

(** The loop over the tokens is the one of [strtok_r], as long as [argv] has
    room. *)
Lemma token_loop_strtok blank fuel s save offset argv m ts m' :
  strtok_loop fuel s blank save m = Ret (ts, m') → (length argv + length ts ≤ 128)%nat →
  token_loop blank fuel s save offset argv m = Ret (argv ++ ((λ t, u32 (t - offset)) <$> ts), m').
Proof.
  revert s save argv m ts. induction fuel as [|fuel IH]; intros s save argv m ts; [done|].
  cbn [strtok_loop token_loop]. unfold bind at 1. intros Hrun Hl. unfold bind at 1.
  destruct (strtok_r s blank save m) as [[[token save'] m1]|]; [|done].
  case_bool_decide; [injection Hrun as <- <-; cbn [fmap list_fmap]; by rewrite app_nil_r|].
  unfold bind at 1 in Hrun. destruct (strtok_loop fuel Str.NULL blank save' m1) as [[ts' m2]|] eqn:E; [|done].
  injection Hrun as <- <-. cbn [length] in Hl. rewrite bool_decide_true by lia. unfold bind at 1, ret at 1.
  rewrite (IH _ _ _ _ ts'); [|done|rewrite length_app; cbn [length]; lia]. csimpl. by rewrite <- app_assoc.
Qed.

End Stack.

(** ** The arguments of a new process *)
Section Arguments.
Context (load : Z → M mem (bool * Z)) (blank file_name : Z) (m : mem) (l : list Z).
(** The command line is in a page of the kernel; [load] succeeds, maps the
    stack page and leaves the kernel's memory alone. *)
Context (Hpage : PHYS_BASE ≤ file_name ∧ file_name + PGSIZE ≤ 2 ^ 32) (Hmap : mapped m file_name PGSIZE).
Context (Hstr : str_at m file_name l) (Hbytes : Forall is_u8 l) (Hlen : Z.of_nat (length l) < PGSIZE).
Context (Hblank : PHYS_BASE < blank) (Hbs : str_at m blank [32])
  (Hbd : blank + 1 < file_name ∨ file_name + PGSIZE ≤ blank).
Context (Hload : ∀ m1, dom m1 = dom m → ∃ m2, load file_name m1 = Ret ((true, PHYS_BASE), m2) ∧
  mapped m2 (PHYS_BASE - PGSIZE) PGSIZE ∧ ∀ a, PHYS_BASE ≤ a → m2 !! a = m1 !! a).

Let ws := words [32] [] l.
Let fn_sz := Z.of_nat (length l) + 1.
Context (Hargs : (length ws ≤ 127)%nat) (Hfit : fn_sz + 16 + 4 * (Z.of_nat (length ws) + 4) ≤ PGSIZE).

(** The tokens, and the pointers to them in the copy on the stack. *)
Let moved (t : Z) : Z := PHYS_BASE - fn_sz + (t - file_name).

Lemma tokens_run :
  ∃ ts m1, token_loop blank (Datatypes.S (size m)) file_name Str.NULL (s32 (file_name - PHYS_BASE + fn_sz)) [] m =
      Ret (moved <$> ts, m1) ∧
    Forall2 (str_at m1) ts ws ∧ dom m1 = dom m ∧
    Forall2 (λ t w, file_name ≤ t ∧ t + Z.of_nat (length w) ≤ file_name + Z.of_nat (length l)) ts ws ∧
    (∀ a, ¬ (file_name ≤ a < file_name + Z.of_nat (length l)) → m1 !! a = m !! a).
Proof.
  clear Hfit. unfold PHYS_BASE, PGSIZE in *. pose proof (strtok_loop_spec m file_name Str.NULL l blank [32] (Datatypes.S (size m))) as HL.
  cbv zeta in HL. rewrite (bool_decide_false (file_name = Str.NULL)) in HL by (unfold Str.NULL; lia).
  pose proof (str_at_size _ _ _ Hstr) as Hsz.
  apply wp_outcome in HL as (ts & m1 & Hrun & HF & Hb & Hr & Hdom); [|lia|lia|done|done|done|cbn [length]; lia|lia].
  exists ts, m1. split_and!; [|done|done|done|intros a Ha; apply Hb; lia].
  rewrite (token_loop_strtok _ _ _ _ _ [] _ _ _ Hrun).
  2:{ apply Forall2_length in HF. cbn [length]. fold ws in HF. lia. }
  cbn [app]. do 2 f_equal. apply list_fmap_ext. intros i t Ht. unfold moved.
  apply Forall2_length in HF as Hlen2. destruct (lookup_lt_is_Some_2 (words [32] [] l) i) as [w Hw].
  { rewrite <- Hlen2. by apply lookup_lt_Some in Ht. }
  pose proof (Forall2_lookup_lr _ _ _ _ _ _ Hr Ht Hw) as [Ht1 Ht2]. unfold fn_sz.
  rewrite s32_small by (unfold is_s32; lia). unfold PHYS_BASE. rewrite u32_small by (unfold is_u32; lia). lia.
Qed.

(** The copied string has the tokens at the moved places. *)
Lemma moved_str m1 m2 m3 t w :
  (∀ a, PHYS_BASE ≤ a → m2 !! a = m1 !! a) → str_at m1 t w → file_name ≤ t →
  t + Z.of_nat (length w) ≤ file_name + Z.of_nat (length l) →
  ∀ bytes, bytes_at m2 file_name bytes → length bytes = Z.to_nat fn_sz →
  bytes_at m3 (PHYS_BASE - fn_sz) bytes → str_at m3 (moved t) w.
Proof.
  intros Hk [Hw Hn] Ht1 Ht2 bytes Hb2 Hlb Hb3. split; [|done]. unfold fn_sz in *.
  set (k := Z.to_nat (t - file_name)).
  assert (bytes = take k bytes ++ take (length (w ++ [0])) (drop k bytes) ++ drop (length (w ++ [0])) (drop k bytes)) as E
    by (by rewrite !take_drop).
  assert (length (take k bytes) = k) as Hlk by (rewrite length_take; unfold k; lia).
  rewrite E in Hb2, Hb3. apply bytes_at_app in Hb2 as [_ Hb2], Hb3 as [_ Hb3].
  apply bytes_at_app in Hb2 as [Hb2 _], Hb3 as [Hb3 _]. rewrite Hlk in Hb2, Hb3.
  assert (take (length (w ++ [0])) (drop k bytes) = w ++ [0]) as Ew.
  { eapply bytes_at_inj; [exact Hb2| |].
    - eapply bytes_at_frame; [|replace (file_name + Z.of_nat k) with t by (unfold k; lia); exact Hw].
      intros a Ha. apply Hk. lia.
    - rewrite length_take, length_drop, length_app in *. cbn [length] in *. unfold k. lia. }
  rewrite Ew in Hb3. replace (moved t) with (PHYS_BASE - (Z.of_nat (length l) + 1) + Z.of_nat k); [done|].
  unfold moved, fn_sz, k. lia.
Qed.

(** The rest of [start_process], from the copy of the string on: [e1] is where
    it is, and everything from there up stays. *)
Lemma stack_frame_spec m3 e1 argv :
  e1 = PHYS_BASE - fn_sz → length argv = length ws → mapped m3 (PHYS_BASE - PGSIZE) PGSIZE →
  let argc := Z.of_nat (length argv) in
  wp (let ep_sz := 16 - (fn_sz + (argc + 3) * 4) mod 16 in
      let esp := u32 (e1 - ep_sz) in
      _ ← memset esp 0 ep_sz;
      let esp := u32 (esp - (argc + 1) * 4) in
      store_words esp (argv ++ [0]);;
      let esp := u32 (esp - 4) in
      store_word esp (u32 (esp + 4));;
      let esp := u32 (esp - 4) in
      store_word esp argc;;
      let esp := u32 (esp - 4) in
      _ ← memset esp 0 4;
      ret (Some esp)) m3 (λ r m', ∃ esp, r = Some esp ∧ (esp + 4) mod 16 = 0 ∧ PHYS_BASE - PGSIZE ≤ esp < e1 ∧
        bytes_at m' esp (word_bytes 0 ++ word_bytes argc ++ word_bytes (esp + 12) ++
                         concat (word_bytes <$> (argv ++ [0]))) ∧
        ∀ a, e1 ≤ a → m' !! a = m3 !! a).
Proof.
  intros He1 Hal Hm argc. set (ep := 16 - (fn_sz + (argc + 3) * 4) mod 16). cbv zeta.
  assert (1 ≤ ep ≤ 16) as Hep by (unfold ep; lia).
  assert (fn_sz + ep + 4 * (argc + 4) ≤ PGSIZE) as Hroom by (unfold argc; lia).
  assert ((fn_sz + (argc + 3) * 4 + ep) mod 16 = 0) as Halign by (unfold ep; lia). clearbody ep.
  assert (0 ≤ fn_sz) by (unfold fn_sz; lia). assert (0 ≤ argc) by (unfold argc; lia).
  assert (length (concat (word_bytes <$> (argv ++ [0]))) = Z.to_nat (4 * (argc + 1))) as Hwl.
  { rewrite length_words, length_app. cbn [length]. unfold argc. lia. }
  assert (PHYS_BASE = 3221225472) as EP by done. assert (PGSIZE = 4096) as EG by done.
  rewrite (u32_small (e1 - ep)) by word_lia. rewrite (u32_small (e1 - ep - (argc + 1) * 4)) by word_lia.
  set (e3 := e1 - ep - (argc + 1) * 4) in *. rewrite (u32_small (e3 - 4)) by (unfold e3; word_lia).
  rewrite (u32_small (e3 - 4 + 4)) by (unfold e3; word_lia). rewrite (u32_small (e3 - 4 - 4)) by (unfold e3; word_lia).
  rewrite (u32_small (e3 - 4 - 4 - 4)) by (unfold e3; word_lia).
  eapply wp_memset_in; [exact Hm|lia|lia|lia|lia|]. intros _ m4 W4 Hm4.
  eapply wp_store_list_in; [exact Hm4|unfold e3; lia|rewrite Hwl; unfold e3; lia|]. intros m5 W5 Hm5.
  eapply wp_store_list_in; [exact Hm5|unfold e3; lia|rewrite length_word_bytes; unfold e3; lia|]. intros m6 W6 Hm6.
  eapply wp_store_list_in; [exact Hm6|unfold e3; lia|rewrite length_word_bytes; unfold e3; lia|]. intros m7 W7 Hm7.
  eapply wp_memset_in; [exact Hm7|lia|lia|unfold e3; lia|unfold e3; lia|]. intros _ m8 W8 _. apply wp_ret.
  exists (e3 - 4 - 4 - 4).
  assert (length (replicate (Z.to_nat ep) (u8 0)) = Z.to_nat ep) as L4 by apply length_replicate.
  assert (length (replicate (Z.to_nat 4) (u8 0)) = 4%nat) as L8 by done.
  split_and!; [done|unfold e3; lia|unfold e3; lia|unfold e3; lia| |].
  - replace (e3 - 4 - 4 - 4 + 12) with e3 by lia. rewrite !bytes_at_app, !length_word_bytes. split_and!.
    + apply (writes_bytes _ _ _ _ W8).
    + eapply writes_frame; [exact W8| |rewrite L8; cbn [length word_bytes]; lia].
      replace (e3 - 4 - 4 - 4 + Z.of_nat 4) with (e3 - 4 - 4) by lia. apply (writes_bytes _ _ _ _ W7).
    + replace (e3 - 4 - 4 - 4 + Z.of_nat 4 + Z.of_nat 4) with (e3 - 4) by lia.
      eapply writes_frame; [exact W8| |rewrite L8; cbn [length word_bytes]; lia].
      eapply writes_frame; [exact W7| |cbn [length word_bytes]; lia].
      replace e3 with (e3 - 4 + 4) at 2 by lia. apply (writes_bytes _ _ _ _ W6).
    + replace (e3 - 4 - 4 - 4 + Z.of_nat 4 + Z.of_nat 4 + Z.of_nat 4) with e3 by lia.
      eapply writes_frame; [exact W8| |rewrite L8; lia]. eapply writes_frame; [exact W7| |cbn [length word_bytes]; lia].
      eapply writes_frame; [exact W6| |cbn [length word_bytes]; lia]. apply (writes_bytes _ _ _ _ W5).
  - intros a Ha. destruct W4 as (_&F4&_), W5 as (_&F5&_), W6 as (_&F6&_), W7 as (_&F7&_), W8 as (_&F8&_).
    rewrite F8, F7, F6, F5, F4; [done|..]; rewrite ?L4, ?L8, ?Hwl; cbn [length word_bytes]; unfold e3; lia.
Qed.

Lemma start_process_spec :
  wp (start_process load blank file_name) m (λ r m', ∃ esp argv, r = Some esp ∧ (esp + 4) mod 16 = 0 ∧
    PHYS_BASE - PGSIZE ≤ esp ∧
    bytes_at m' esp (word_bytes 0 ++ word_bytes (Z.of_nat (length ws)) ++ word_bytes (esp + 12) ++
                     concat (word_bytes <$> (argv ++ [0]))) ∧
    Forall2 (str_at m') argv ws).
Proof.
  assert (PHYS_BASE = 3221225472) as EP by done. assert (PGSIZE = 4096) as EG by done.
  assert (0 < fn_sz ≤ PGSIZE) as Hfs by (unfold fn_sz; lia).
  unfold start_process. wp_step. eapply strlen_spec; [unfold Str.NULL; lia|exact Hstr|]. fold fn_sz. wp_step.
  apply wp_bytes_mapped. wp_step. destruct tokens_run as (ts&m1&Hrun&HF&Hdom&Hrange&Hout).
  eapply wp_run; [exact Hrun|]. clear Hrun. pose proof (Forall2_length _ _ _ HF) as Hts. rewrite length_fmap.
  rewrite bool_decide_true by lia. wp_step. wp_step. wp_step. destruct (Hload m1 Hdom) as (m2&Hld&Hstack&Hker).
  eapply wp_run; [exact Hld|]. cbv beta iota.
  rewrite (u32_small (PHYS_BASE - fn_sz)) by word_lia.
  assert (mapped m2 file_name PGSIZE) as Hmap2.
  { intros a Ha. apply elem_of_dom. rewrite Hker by lia. apply elem_of_dom. rewrite Hdom. by apply Hmap. }
  destruct (mapped_bytes m2 file_name (Z.to_nat fn_sz)) as (bytes&Hb&Hbl); [eapply mapped_sub; [exact Hmap2|lia|lia]|].
  wp_step. eapply wp_mono; [apply (memcpy_spec m2 _ file_name bytes)|].
  - lia.
  - left. unfold Str.NULL. lia.
  - left. unfold Str.NULL. lia.
  - done.
  - eapply mapped_sub; [exact Hstack|lia|lia].
  - left. lia.
  - intros r m3 [_ W3]. wp_step. unfold palloc_free_page.
    eapply (wp_memset_in m3 file_name PGSIZE); [by eapply writes_mapped|lia|lia|lia|lia|]. intros _ m4 W4 _. wp_step.
    pose proof (stack_frame_spec m4 (PHYS_BASE - fn_sz) (moved <$> ts) eq_refl) as Hsf. cbv zeta in Hsf.
    rewrite length_fmap in Hsf. eapply wp_mono; [apply Hsf; [done|]|].
    { eapply writes_mapped; [exact W4|]. by eapply writes_mapped. }
    intros res m' (esp&->&Hal&Hesp&Hbytes'&Hkeep). exists esp, (moved <$> ts). rewrite Hts in Hbytes'.
    split_and!; [done|done|lia|done|]. apply Forall2_fmap_l.
    apply Forall2_same_length_lookup. split; [done|]. intros i t w Hti Hwi.
    pose proof (Forall2_lookup_lr _ _ _ _ _ _ HF Hti Hwi) as Hw.
    pose proof (Forall2_lookup_lr _ _ _ _ _ _ Hrange Hti Hwi) as [Ht1 Ht2].
    apply (moved_str m1 m2 m' t w Hker Hw Ht1 Ht2 bytes Hb Hbl).
    eapply bytes_at_frame; [intros a Ha; apply Hkeep; lia|].
    eapply writes_frame; [exact W4|apply (writes_bytes _ _ _ _ W3)|]. rewrite Hbl. left. lia.
Qed.

End Arguments.

(** ** Placing a segment *)
(** The pages of a segment and the bytes read into each. *)
Fixpoint segment_pages (n : nat) (upage read_bytes : Z) : list (Z * Z) :=
  match n with
  | O => []
  | Datatypes.S n => (upage, Z.min read_bytes PGSIZE) :: segment_pages n (upage + PGSIZE) (read_bytes - Z.min read_bytes PGSIZE)
  end.
Fixpoint run_pages {S} (fill : Z → Z → Z → M S bool) (l : list (Z * Z)) : M S bool :=
  match l with
  | [] => ret true
  | (upage, n) :: r => ok ← fill upage n (PGSIZE - n); if ok : bool then run_pages fill r else ret false
  end.

Lemma segment_loop_pages {S} (fill : Z → Z → Z → M S bool) n fuel upage rb zb s :
  0 ≤ rb → 0 ≤ zb → rb + zb = PGSIZE * Z.of_nat n → 0 ≤ upage → upage + PGSIZE * Z.of_nat n ≤ PHYS_BASE → (n < fuel)%nat →
  segment_loop fill fuel upage rb zb s = run_pages fill (segment_pages n upage rb) s.
Proof.
  assert (PHYS_BASE = 3221225472) as EP by done. assert (PGSIZE = 4096) as EG by done.
  revert n upage rb zb s. induction fuel as [|fuel IH]; intros n upage rb zb s Hr Hz Hn Hu Hp Hf; [lia|].
  destruct n as [|n]; cbn [segment_loop segment_pages run_pages].
  { rewrite !bool_decide_false by lia. done. }
  assert (bool_decide (rb > 0) || bool_decide (zb > 0) = true) as ->.
  { destruct (decide (rb > 0)); [by rewrite bool_decide_true|]. rewrite (bool_decide_true (zb > 0)) by lia. apply orb_true_r. }
  assert ((if bool_decide (rb < PGSIZE) then rb else PGSIZE) = Z.min rb PGSIZE) as -> by (case_bool_decide; lia).
  unfold bind. destruct (fill upage _ _ s) as [[[] s']|]; [|done|done].
  rewrite (u32_small (upage + PGSIZE)) by word_lia. rewrite (u32_small (rb - _)) by word_lia.
  rewrite (u32_small (zb - _)) by word_lia. apply IH; lia.
Qed.

Definition phdr_ok (phdr : Elf32_Phdr) : Prop :=
  is_u32 (p_offset phdr) ∧ is_u32 (p_vaddr phdr) ∧ is_u32 (p_filesz phdr) ∧ is_u32 (p_memsz phdr).

(** What the checks establish. *)
Lemma validate_segment_true phdr len :
  phdr_ok phdr → validate_segment phdr len = true →
  p_offset phdr mod PGSIZE = p_vaddr phdr mod PGSIZE ∧ 0 < p_memsz phdr ∧ p_filesz phdr ≤ p_memsz phdr ∧
  PGSIZE ≤ p_vaddr phdr ∧ p_vaddr phdr + p_memsz phdr < PHYS_BASE.
Proof.
  intros (Ho&Hv&Hf&Hm). unfold validate_segment, is_user_vaddr. rewrite !land_PGMASK. intros H.
  repeat match type of H with (if ?b then _ else _) = true => destruct b eqn:?; [discriminate H|] end.
  repeat match goal with
  | E : negb _ = false |- _ => apply negb_false_iff in E
  | E : bool_decide _ = true |- _ => apply bool_decide_eq_true in E
  | E : bool_decide _ = false |- _ => apply bool_decide_eq_false in E
  end.
  assert (PHYS_BASE = 3221225472) as EP by done. assert (PGSIZE = 4096) as EG by done. unfold u32 in *.
  split_and!; [done|word_lia|lia|lia|word_lia].
Qed.

Lemma segment_layout_spec phdr len :
  phdr_ok phdr → validate_segment phdr len = true →
  ∃ n mem_page, (0 < n)%nat ∧ segment_layout phdr =
      (p_offset phdr - p_offset phdr mod PGSIZE, mem_page,
       if bool_decide (p_filesz phdr > 0) then p_vaddr phdr mod PGSIZE + p_filesz phdr else 0,
       PGSIZE * Z.of_nat n - (if bool_decide (p_filesz phdr > 0) then p_vaddr phdr mod PGSIZE + p_filesz phdr else 0)) ∧
    mem_page mod PGSIZE = 0 ∧ PGSIZE ≤ mem_page ∧ mem_page ≤ p_vaddr phdr < mem_page + PGSIZE ∧
    p_vaddr phdr + p_memsz phdr ≤ mem_page + PGSIZE * Z.of_nat n ≤ PHYS_BASE ∧
    p_vaddr phdr mod PGSIZE + p_filesz phdr ≤ PGSIZE * Z.of_nat n.
Proof.
  intros Hok Hv. destruct (validate_segment_true phdr len Hok Hv) as (Heq&Hm&Hfm&Hlo&Hhi). destruct Hok as (Ho&Hva&Hf&Hms).
  assert (PHYS_BASE = 3221225472) as EP by done. assert (PGSIZE = 4096) as EG by done.
  unfold segment_layout. rewrite !ldiff_PGMASK, land_PGMASK.
  set (po := p_vaddr phdr mod PGSIZE) in *. assert (0 ≤ po < PGSIZE ∧ po ≤ p_vaddr phdr) as Hpo by (unfold po; lia).
  set (total := (po + p_memsz phdr + 4095) / PGSIZE).
  assert (1 ≤ total ∧ po + p_memsz phdr ≤ PGSIZE * total < po + p_memsz phdr + PGSIZE) as Ht by (unfold total; lia).
  assert (ROUND_UP (u32 (po + p_memsz phdr)) PGSIZE = PGSIZE * total) as ->.
  { unfold ROUND_UP. rewrite (u32_small (po + _)) by word_lia. rewrite EG. rewrite (u32_small (_ + (4096 - 1))) by word_lia.
    replace (po + p_memsz phdr + (4096 - 1)) with (po + p_memsz phdr + 4095) by lia. rewrite <- EG. fold total.
    rewrite u32_small by word_lia. lia. }
  exists (Z.to_nat total), (p_vaddr phdr - po). rewrite Z2Nat.id by lia.
  split_and!; [lia| |unfold po; lia|unfold po; lia|lia|lia|lia| |lia].
  - rewrite (u32_small (po + p_filesz phdr)) by word_lia.
    rewrite (u32_small (PGSIZE * total - (po + p_filesz phdr))) by word_lia. case_bool_decide; [done|]. by rewrite Z.sub_0_r.
  - unfold po. lia.
Qed.

(** ** Properties *)

(** C15: A new process finds its arguments.  For a command line [l] in a kernel
    page, with at most 127 words that fit on the stack page, and a [load] that
    succeeds, [start_process] ends with a stack pointer in the stack page such
    that [esp + 4] is a multiple of 16 and the stack has a null return address,
    [argc], a pointer to [argv] right behind it, and [argv], whose entries point
    to the words of the command line in their order, with a null pointer at its
    end. *)
Theorem start_process_arguments (load : Z → M mem (bool * Z)) (blank file_name : Z) (m : mem) (l : list Z) :
  PHYS_BASE ≤ file_name ∧ file_name + PGSIZE ≤ 2 ^ 32 → mapped m file_name PGSIZE →
  str_at m file_name l → Forall is_u8 l → Z.of_nat (length l) < PGSIZE →
  PHYS_BASE < blank → str_at m blank [32] → blank + 1 < file_name ∨ file_name + PGSIZE ≤ blank →
  (∀ m1, dom m1 = dom m → ∃ m2, load file_name m1 = Ret ((true, PHYS_BASE), m2) ∧
     mapped m2 (PHYS_BASE - PGSIZE) PGSIZE ∧ ∀ a, PHYS_BASE ≤ a → m2 !! a = m1 !! a) →
  (length (words [32%Z] [] l) ≤ 127)%nat →
  Z.of_nat (length l) + 1 + 16 + 4 * (Z.of_nat (length (words [32] [] l)) + 4) ≤ PGSIZE →
  ∃ esp argv m', start_process load blank file_name m = Ret (Some esp, m') ∧
    (esp + 4) mod 16 = 0 ∧ PHYS_BASE - PGSIZE ≤ esp ∧
    bytes_at m' esp (word_bytes 0 ++ word_bytes (Z.of_nat (length (words [32] [] l))) ++ word_bytes (esp + 12) ++
                     concat (word_bytes <$> (argv ++ [0]))) ∧
    Forall2 (str_at m') argv (words [32] [] l).
Proof.
  intros Hp Hm Hs Hu Hl Hb Hbs Hbd Hld Ha Hf.
  pose proof (start_process_spec load blank file_name m l Hp Hm Hs Hu Hl Hb Hbs Hbd Hld Ha Hf) as H.
  apply wp_outcome in H as (r&m'&Hrun&esp&argv&->&?&?&?&?). by exists esp, argv, m'.
Qed.

(** The command line ["ls -l"], and a loader that maps an empty stack. *)
Definition ls_mem : mem := mem_of 0xc0002000 ([108; 115; 32; 45; 108; 0] ++ replicate 4090 0) ∪ mem_of 0xc0001000 [32; 0].
Definition ls_load (file_name : Z) : M mem (bool * Z) :=
  λ m, Ret ((true, PHYS_BASE), mem_of (PHYS_BASE - PGSIZE) (replicate 4096 0) ∪ m).

Lemma ls_mem_page : mapped ls_mem 0xc0002000 PGSIZE.
Proof. apply (mem_of_mapped _ ([108; 115; 32; 45; 108; 0] ++ replicate 4090 0)). Qed.
Lemma ls_mem_line : str_at ls_mem 0xc0002000 [108; 115; 32; 45; 108].
Proof.
  split; [|set_solver by lia]. unfold ls_mem.
  pose proof (mem_of_bytes 0xc0002000 ([108; 115; 32; 45; 108; 0] ++ replicate 4090 0) (mem_of 0xc0001000 [32; 0])) as H.
  by apply bytes_at_app in H as [H _].
Qed.
Lemma ls_mem_blank : str_at ls_mem 0xc0001000 [32].
Proof.
  split; [|set_solver by lia]. unfold ls_mem.
  split; [|split; [|done]]; (rewrite lookup_union_r; [done|apply mem_of_below; left; lia]).
Qed.

Lemma start_process_arguments_witness :
  ∃ esp argv m', start_process ls_load 0xc0001000 0xc0002000 ls_mem = Ret (Some esp, m') ∧ (esp + 4) mod 16 = 0 ∧
    Forall2 (str_at m') argv [[108; 115]; [45; 108]].
Proof.
  destruct (start_process_arguments ls_load 0xc0001000 0xc0002000 ls_mem [108; 115; 32; 45; 108])
    as (esp&argv&m'&H1&H2&_&_&H3).
  - unfold PHYS_BASE, PGSIZE. lia.
  - exact ls_mem_page.
  - exact ls_mem_line.
  - repeat first [apply Forall_nil_2 | apply Forall_cons_2; [unfold is_u8; lia|]].
  - reflexivity.
  - reflexivity.
  - exact ls_mem_blank.
  - left. reflexivity.
  - intros m1 _. eexists; split; [reflexivity|]. split; [apply (mem_of_mapped _ (replicate 4096 0))|].
    intros a Ha. apply lookup_union_r, mem_of_below. rewrite length_replicate. unfold PGSIZE. lia.
  - vm_compute. lia.
  - vm_compute. discriminate.
  - exists esp, argv, m'. split; [exact H1|]. split; [exact H2|exact H3].
Defined.

(** When [load] fails, [start_process] does not get to its check: the stack
    pointer is still 0, and the command line is copied to the top of the
    address space, where nothing is mapped, before [success] is looked at.  The
    kernel faults instead of ending the thread. *)
Theorem failed_load_faults (load : Z → M mem (bool * Z)) (blank file_name : Z) (m : mem) (l : list Z) :
  PHYS_BASE ≤ file_name ∧ file_name + PGSIZE ≤ 2 ^ 32 → str_at m file_name l → Forall is_u8 l →
  Z.of_nat (length l) < PGSIZE → PHYS_BASE < blank → str_at m blank [32] →
  blank + 1 < file_name ∨ file_name + PGSIZE ≤ blank → (length (words [32%Z] [] l) ≤ 127)%nat →
  (∀ m1, load file_name m1 = Ret ((false, 0), m1)) → m !! (2 ^ 32 - (Z.of_nat (length l) + 1)) = None →
  start_process load blank file_name m = Fail BadAccess.
Proof.
  intros Hp Hs Hu Hl Hb Hbs Hbd Ha Hld Htop. assert (PHYS_BASE = 3221225472) as EP by done.
  assert (PGSIZE = 4096) as EG by done.
  destruct (tokens_run blank file_name m l Hp Hs Hu Hl Hb Hbs Hbd Ha) as (ts&m1&Hrun&HF&Hdom&_&_).
  assert (strlen file_name m = Ret (Z.of_nat (length l), m)) as Hsl.
  { pose proof (strlen_spec m file_name l (λ r m', r = Z.of_nat (length l) ∧ m' = m)) as H.
    apply wp_outcome in H as (?&?&->&->&->); [done|unfold Str.NULL; lia|done|done]. }
  unfold start_process, bind. rewrite Hsl. unfold bytes_mapped, gets. rewrite Hrun.
  rewrite length_fmap. apply Forall2_length in HF. rewrite HF.
  rewrite bool_decide_true by lia. unfold ret at 1. rewrite Hld.
  assert (u32 (0 - (Z.of_nat (length l) + 1)) = 2 ^ 32 - (Z.of_nat (length l) + 1)) as -> by (unfold u32; lia).
  assert (m1 !! (2 ^ 32 - (Z.of_nat (length l) + 1)) = None) as Htop1.
  { apply not_elem_of_dom. rewrite Hdom. by apply not_elem_of_dom. }
  assert (is_Some (m1 !! file_name)) as [v Hv].
  { apply elem_of_dom. rewrite Hdom. apply elem_of_dom. destruct Hs as [Hs _].
    destruct l as [|x l]; destruct Hs as [Hx _]; by eexists. }
  assert (memcpy (2 ^ 32 - (Z.of_nat (length l) + 1)) file_name (Z.of_nat (length l) + 1) m1 = Fail BadAccess) as ->; [|done].
  unfold memcpy, assert_block. rewrite !(bool_decide_true (_ ≠ Str.NULL)) by (unfold Str.NULL; lia).
  cbn [orb]. unfold ASSERT, bind, ret. replace (Z.to_nat (Z.of_nat (length l) + 1)) with (Datatypes.S (length l)) by lia.
  cbn [copy_forward]. unfold bind at 1, Str.load, bind at 1, get_state. rewrite Hv. unfold deref, ret.
  unfold bind at 1, store, bind at 1, get_state. by rewrite Htop1.
Qed.

Lemma failed_load_faults_witness : start_process (λ _, ret (false, 0)) 0xc0001000 0xc0002000 ls_mem = Fail BadAccess.
Proof.
  apply (failed_load_faults (λ _, ret (false, 0)) 0xc0001000 0xc0002000 ls_mem [108; 115; 32; 45; 108]).
  - unfold PHYS_BASE, PGSIZE. lia.
  - exact ls_mem_line.
  - repeat first [apply Forall_nil_2 | apply Forall_cons_2; [unfold is_u8; lia|]].
  - reflexivity.
  - reflexivity.
  - exact ls_mem_blank.
  - left. reflexivity.
  - vm_compute. lia.
  - reflexivity.
  - apply lookup_union_None. split; apply mem_of_below; right; vm_compute; discriminate.
Defined.

(** C31: A segment that passes [validate_segment] is loaded inside of user
    memory: for every header with 32-bit fields, the assertions of
    [load_segment] hold for the arguments [load] computes, the loop ends after
    [n] pages for any way [fill] of filling a page, it fills exactly the
    consecutive pages from the one of [p_vaddr] on until one fails, these lie
    above page 0 and below [PHYS_BASE] and cover the whole segment, and no
    32-bit computation on the way wraps. *)
Theorem segment_within_user_space (phdr : Elf32_Phdr) (length : Z) :
  phdr_ok phdr → validate_segment phdr length = true →
  ∃ n file_page mem_page read_bytes zero_bytes,
    segment_layout phdr = (file_page, mem_page, read_bytes, zero_bytes) ∧
    u32 (read_bytes + zero_bytes) mod PGSIZE = 0 ∧ Z.land mem_page PGMASK = 0 ∧ Z.rem (s32 file_page) PGSIZE = 0 ∧
    PGSIZE ≤ mem_page ∧ mem_page ≤ p_vaddr phdr ∧
    p_vaddr phdr + p_memsz phdr ≤ mem_page + PGSIZE * Z.of_nat n ≤ PHYS_BASE ∧
    Z.to_nat ((read_bytes + zero_bytes) / PGSIZE) = n ∧
    ∀ S (fill : Z → Z → Z → M S bool) s,
      segment_loop fill (Datatypes.S n) mem_page read_bytes zero_bytes s =
      run_pages fill (segment_pages n mem_page read_bytes) s.
Proof.
  intros Hok Hv. destruct (segment_layout_spec phdr length Hok Hv) as (n&mem_page&Hn&Hlay&Ha&Hlo&Hva&Hhi&Hfit).
  destruct Hok as (Ho&Hvaddr&Hf&_). assert (PHYS_BASE = 3221225472) as EP by done. assert (PGSIZE = 4096) as EG by done.
  set (rb := if bool_decide (p_filesz phdr > 0) then p_vaddr phdr mod PGSIZE + p_filesz phdr else 0) in *.
  assert (0 ≤ rb ≤ PGSIZE * Z.of_nat n) as Hrb.
  { unfold rb. pose proof (Z.mod_pos_bound (p_vaddr phdr) PGSIZE). case_bool_decide; word_lia. }
  eexists n, _, mem_page, rb, _. split; [exact Hlay|]. rewrite land_PGMASK. clearbody rb. clear Hlay Hfit.
  replace (rb + (PGSIZE * Z.of_nat n - rb)) with (PGSIZE * Z.of_nat n) by lia.
  split_and!; [rewrite u32_small by word_lia; lia|done| |done|lia|lia|lia|lia|].
  - unfold s32. rewrite u32_small by (pose proof (Z.mod_pos_bound (p_offset phdr) PGSIZE); word_lia). rewrite EG.
    case_match; lia.
  - intros S fill s. apply segment_loop_pages; lia.
Qed.

Lemma segment_within_user_space_witness :
  ∃ n file_page mem_page read_bytes zero_bytes,
    segment_layout (mk_Phdr 1 0x1234 0x8048234 0x2000 0x3000 5) = (file_page, mem_page, read_bytes, zero_bytes) ∧
    0x8048234 + 0x3000 ≤ mem_page + PGSIZE * Z.of_nat n.
Proof.
  destruct (segment_within_user_space (mk_Phdr 1 0x1234 0x8048234 0x2000 0x3000 5) 100000)
    as (n&fp&mp&rb&zb&H1&_&_&_&_&_&[H2 _]&_).
  - repeat split; discriminate || reflexivity.
  - reflexivity.
  - exists n, fp, mp, rb, zb. split; [exact H1|exact H2].
Defined.

(** The example: four pages, 0x2234 bytes of the file. *)
Example segment_example :
  segment_layout (mk_Phdr 1 0x1234 0x8048234 0x2000 0x3000 5) = (0x1000, 0x8048000, 0x2234, 0x1dcc) ∧
  segment_pages 4 0x8048000 0x2234 = [(0x8048000, 4096); (0x8049000, 4096); (0x804a000, 0x234); (0x804b000, 0)].
Proof. split; reflexivity. Qed.
