(* ===== verification/Tokenizer.v ===== *)
(** * The tokenizer of the shell homework (src/personal/hw3/tokenizer.c)

    The scan of a command line with quotes and backslashes, in the static
    buffer [token] of 4096 characters.  [line] holds the characters of the C
    string (not a null pointer).  The words are kept as a list; a
    memory allocation that fails is not handled by the code. *)

From S2P Require Import Prelude Stdio.
Local Open Scope Z_scope.

(** ** State and operations *)

Inductive mode := MODE_NORMAL | MODE_SQUOTE | MODE_DQUOTE.

Definition n_max : Z := 4096.

(** The buffer of the current token (what was written to it), and the words
    found so far. *)
Record tokens := mk_tokens { token : list Z; words : list (list Z) }.

(** [token[n++] = c]; the buffer has [n_max] characters. *)
Definition push_char (c : Z) : M tokens unit :=
  t ← get_state;
  if bool_decide (Z.of_nat (length (token t)) < n_max)
  then put_state (mk_tokens (token t ++ [c]) (words t)) else fail BadAccess.

(** [copy_word] and [vector_push], then [n = 0]: the terminator is written
    behind the token, and [strncpy] stops at the first one. *)
Fixpoint copy_word (w : list Z) : list Z :=
  match w with
  | [] => []
  | c :: w => if c =? 0 then [] else c :: copy_word w
  end.
Definition push_word : M tokens unit :=
  t ← get_state;
  if bool_decide (Z.of_nat (length (token t)) < n_max)
  then put_state (mk_tokens [] (words t ++ [copy_word (token t)])) else fail BadAccess.

(** [if (n + 1 >= n_max) abort ();] *)
Definition check_length : M tokens unit :=
  t ← get_state;
  ASSERT (negb (n_max <=? Z.of_nat (length (token t)) + 1)).

(** The loop over the line; a backslash takes the next character with it. *)
Fixpoint scan (m : mode) (line : list Z) : M tokens unit :=
  match line with
  | [] => ret tt
  | c :: line =>
      let escape :=
        match line with
        | [] => check_length
        | c' :: line' => push_char c';; check_length;; scan m line'
        end in
      let plain := push_char c;; check_length;; scan m line in
      match m with
      | MODE_NORMAL =>
          if c =? 39 then check_length;; scan MODE_SQUOTE line
          else if c =? 34 then check_length;; scan MODE_DQUOTE line
          else if c =? 92 then escape
          else if isspace c
          then (t ← get_state; if (0 <? length (token t))%nat then push_word else ret tt);; check_length;; scan MODE_NORMAL line
          else plain
      | MODE_SQUOTE =>
          if c =? 39 then check_length;; scan MODE_NORMAL line else if c =? 92 then escape else plain
      | MODE_DQUOTE =>
          if c =? 34 then check_length;; scan MODE_NORMAL line else if c =? 92 then escape else plain
      end
  end.

Definition tokenize (line : list Z) : M tokens (list (list Z)) :=
  put_state (mk_tokens [] []);;
  scan MODE_NORMAL line;;
  t ← get_state;
  (if (0 <? length (token t))%nat then push_word else ret tt);;
  gets words.

Definition tokens_get_length (ws : list (list Z)) : nat := length ws.
Definition tokens_get_token (ws : list (list Z)) (n : nat) : option (list Z) := ws !! n.

(** ** Quoting *)

(** A word as it can be typed: every character behind a backslash. *)
Definition quoted (w : list Z) : list Z := concat (map (λ c, [92; c]) w).
(** A character between quotes [q]. *)
Definition protect (q c : Z) : list Z := if (c =? q) || (c =? 92) then [92; c] else [c].
(** Or in quotes, with the quote and the backslash behind a backslash. *)
Definition in_quotes (q : Z) (w : list Z) : list Z :=
  q :: concat (map (protect q) w) ++ [q].

(** A word that fits in the buffer; 0 ends a C string. *)
Definition word_ok (w : list Z) : Prop := w ≠ [] ∧ Forall (λ c, c ≠ 0) w ∧ Z.of_nat (length w) + 1 < n_max.

Lemma copy_word_id w : Forall (λ c, c ≠ 0) w → copy_word w = w.
Proof.
  induction 1 as [|c w Hc _ IH]; [done|]. cbn. assert ((c =? 0) = false) as -> by lia. by rewrite IH.
Qed.

(** One character lands in the token. *)
Lemma push_ok t ws c (Q : unit → tokens → Prop) : Z.of_nat (length t) + 2 < n_max → 
  Q tt (mk_tokens (t ++ [c]) ws) → wp (push_char c;; check_length) (mk_tokens t ws) Q.
Proof.
  intros Hl HQ. unfold push_char, check_length. wp_step. wp_step. wp_step. cbn [token words].
  rewrite bool_decide_true by lia. wp_steps. cbn [token]. rewrite length_app. cbn [length].
  apply wp_ASSERT; [|done]. apply negb_true_iff, Z.leb_gt. lia.
Qed.

Lemma check_ok t ws (Q : unit → tokens → Prop) : Z.of_nat (length t) + 1 < n_max →
  Q tt (mk_tokens t ws) → wp check_length (mk_tokens t ws) Q.
Proof.
  intros Hl HQ. unfold check_length. wp_steps. apply wp_ASSERT; [|done]. apply negb_true_iff, Z.leb_gt. cbn. lia.
Qed.

(** A quoted stretch in any mode. *)
Lemma scan_quoted m w rest : ∀ t ws Q, Z.of_nat (length t + length w) + 1 < n_max →
  wp (scan m rest) (mk_tokens (t ++ w) ws) Q → wp (scan m (quoted w ++ rest)) (mk_tokens t ws) Q.
Proof.
  induction w as [|c w IH]; intros t ws Q Hl Hr; [by rewrite app_nil_r in Hr|].
  assert (wp (push_char c;; check_length;; scan m (quoted w ++ rest)) (mk_tokens t ws) Q) as H.
  { apply wp_seq_assoc, wp_bind, push_ok; [cbn in Hl; lia|]. apply IH; [rewrite length_app; cbn in *; lia|].
    by rewrite <- app_assoc. }
  cbn [quoted map concat app scan]. by destruct m.
Qed.

(** A stretch between quotes. *)
Lemma scan_in_quotes q m w rest : (q = 39 ∧ m = MODE_SQUOTE ∨ q = 34 ∧ m = MODE_DQUOTE) → ∀ t ws Q,
  Z.of_nat (length t + length w) + 1 < n_max →
  wp (scan MODE_NORMAL rest) (mk_tokens (t ++ w) ws) Q →
  wp (scan m (concat (map (protect q) w) ++ q :: rest)) (mk_tokens t ws) Q.
Proof.
  intros Hq. induction w as [|c w IH]; intros t ws Q Hl Hr.
  - rewrite app_nil_r in Hr. cbn [map concat app]. rewrite Nat.add_0_r in Hl.
    assert (wp (check_length;; scan MODE_NORMAL rest) (mk_tokens t ws) Q) as H by (wp_step; by apply check_ok).
    destruct Hq as [[-> ->]|[-> ->]]; exact H.
  - set (body := concat (map (protect q) w) ++ q :: rest).
    assert (wp (push_char c;; check_length;; scan m body) (mk_tokens t ws) Q) as H.
    { apply wp_seq_assoc, wp_bind, push_ok; [cbn in Hl; lia|]. apply IH; [rewrite length_app; cbn in *; lia|].
      by rewrite <- app_assoc. }
    cbn [map concat]. rewrite <- app_assoc. fold body. unfold protect.
    destruct ((c =? q) || (c =? 92)) eqn:E; cbn [app].
    + destruct Hq as [[-> ->]|[-> ->]]; exact H.
    + apply orb_false_iff in E as [E1 E2].
      destruct Hq as [[-> ->]|[-> ->]]; cbn [scan]; rewrite E1, E2; exact H.
Qed.

Lemma scan_plain w rest : Forall (λ c, c ≠ 39 ∧ c ≠ 34 ∧ c ≠ 92 ∧ isspace c = false) w → ∀ t ws Q,
  Z.of_nat (length t + length w) + 1 < n_max →
  wp (scan MODE_NORMAL rest) (mk_tokens (t ++ w) ws) Q → wp (scan MODE_NORMAL (w ++ rest)) (mk_tokens t ws) Q.
Proof.
  induction 1 as [|c w (H1&H2&H3&H4) _ IH]; intros t ws Q Hl Hr; cbn [app length] in *.
  - by rewrite app_nil_r in Hr.
  - cbn [scan]. apply Z.eqb_neq in H1 as ->, H2 as ->, H3 as ->. rewrite H4.
    apply wp_seq_assoc. wp_step. apply push_ok; [lia|]. apply IH; [rewrite length_app; cbn; lia|]. by rewrite <- app_assoc.
Qed.

(** The ways to write a word on a command line. *)
Inductive writes (w : list Z) : list Z → Prop :=
| write_plain : Forall (λ c, c ≠ 39 ∧ c ≠ 34 ∧ c ≠ 92 ∧ isspace c = false) w → writes w w
| write_escaped : writes w (quoted w)
| write_single : writes w (in_quotes 39 w)
| write_double : writes w (in_quotes 34 w).

Lemma scan_word w s rest ws Q : writes w s → Z.of_nat (length w) + 1 < n_max →
  wp (scan MODE_NORMAL rest) (mk_tokens w ws) Q → wp (scan MODE_NORMAL (s ++ rest)) (mk_tokens [] ws) Q.
Proof.
  intros Hs Hl Hr. destruct Hs.
  - by apply (scan_plain w).
  - by apply scan_quoted.
  - unfold in_quotes. cbn [app scan Z.eqb Pos.eqb]. wp_step. apply check_ok; [done|]. rewrite <- app_assoc.
    apply (scan_in_quotes 39 MODE_SQUOTE); auto.
  - unfold in_quotes. cbn [app scan Z.eqb Pos.eqb]. wp_step. apply check_ok; [done|]. rewrite <- app_assoc.
    apply (scan_in_quotes 34 MODE_DQUOTE); auto.
Qed.

(** A command line: words as they were written, each followed by blanks or the
    end of the line. *)
Inductive command_line : list (list Z) → list Z → Prop :=
| line_end blanks : Forall (λ c, isspace c = true) blanks → command_line [] blanks
| line_last blanks w s : Forall (λ c, isspace c = true) blanks → word_ok w → writes w s → command_line [w] (blanks ++ s)
| line_word blanks w s b ws line : Forall (λ c, isspace c = true) blanks → word_ok w → writes w s → isspace b = true →
    command_line ws line → command_line (w :: ws) (blanks ++ s ++ b :: line).

Lemma scan_blanks blanks rest ws Q : Forall (λ c, isspace c = true) blanks →
  wp (scan MODE_NORMAL rest) (mk_tokens [] ws) Q → wp (scan MODE_NORMAL (blanks ++ rest)) (mk_tokens [] ws) Q.
Proof.
  induction 1 as [|c blanks Hc _ IH]; intros Hr; [done|]. cbn [app scan].
  assert (c ≠ 39 ∧ c ≠ 34 ∧ c ≠ 92) as (H1&H2&H3) by (repeat split; intros ->; by vm_compute in Hc).
  apply Z.eqb_neq in H1 as ->, H2 as ->, H3 as ->. rewrite Hc. wp_steps. cbn [token length Nat.ltb Nat.leb]. wp_steps.
  apply check_ok; [done|]. by apply IH.
Qed.

(** A blank behind a word ends it. *)
Lemma scan_separator w b rest ws Q : isspace b = true → word_ok w →
  wp (scan MODE_NORMAL rest) (mk_tokens [] (ws ++ [w])) Q → wp (scan MODE_NORMAL (b :: rest)) (mk_tokens w ws) Q.
Proof.
  intros Hb (Hne&Hz&Hl) Hr. cbn [scan].
  assert (b ≠ 39 ∧ b ≠ 34 ∧ b ≠ 92) as (H1&H2&H3) by (repeat split; intros ->; by vm_compute in Hb).
  apply Z.eqb_neq in H1 as ->, H2 as ->, H3 as ->. rewrite Hb. wp_step. wp_step. wp_step. cbn [token].
  destruct w as [|x w]; [done|]. cbn [length Nat.ltb Nat.leb]. unfold push_word. wp_step. wp_step. cbn [token words].
  rewrite bool_decide_true by (cbn in *; lia). wp_steps. rewrite copy_word_id by done. by apply check_ok.
Qed.

(** C38: the tokenizer gives back the words that were quoted.  Whatever words
    (not empty, without the character 0, short enough for the buffer) are
    written on a command line, each as it is when it has no quote, backslash or
    blank, or with a backslash before every character or
    between single or double quotes with quotes and backslashes escaped, and
    separated by blanks, [tokenize] returns exactly these words; quotes, blanks
    and backslashes in them included. *)
Theorem tokenize_quoted ws line t0 : command_line ws line →
  wp (tokenize line) t0 (λ r _, r = ws ∧ tokens_get_length r = length ws ∧ ∀ i, tokens_get_token r i = ws !! i).
Proof.
  intros Hl. unfold tokenize. wp_step. wp_step. wp_step.
  cut (∀ done, wp (scan MODE_NORMAL line) (mk_tokens [] done) (λ _ t,
    (token t = [] ∧ words t = done ++ ws) ∨ (word_ok (token t) ∧ words t ++ [token t] = done ++ ws))).
  { intros H. eapply wp_mono; [apply (H [])|]. intros [] [tk wds] [[E1 E2]|[Hw E2]]; cbn [token words app] in *; wp_steps; cbn [token].
    - rewrite E1. cbn [length Nat.ltb Nat.leb]. wp_steps. cbn. by rewrite E2.
    - destruct Hw as (Hne&Hz&Hlen). destruct tk as [|x tk]; [done|]. cbn [length Nat.ltb Nat.leb]. unfold push_word.
      wp_step. wp_step. cbn [token words]. rewrite bool_decide_true by (cbn in *; lia). wp_steps. cbn [words].
      rewrite copy_word_id by done. by rewrite E2. }
  induction Hl as [blanks Hb|blanks w s Hb Hw Hs|blanks w s b ws line Hb Hw Hs Hsp Hl IH]; intros done.
  - rewrite <- (app_nil_r blanks). apply scan_blanks; [done|]. apply wp_ret. left. by rewrite app_nil_r.
  - apply scan_blanks; [done|]. rewrite <- (app_nil_r s). eapply scan_word; [done|apply Hw|]. apply wp_ret. by right.
  - apply scan_blanks; [done|]. eapply scan_word; [done|apply Hw|]. apply scan_separator; [done|done|].
    eapply wp_mono; [apply IH|]. intros [] t [[E1 E2]|[Hw' E2]]; [left|right]; by rewrite E2, <- app_assoc.
Qed.

Definition sample_words : list (list Z) := [[97; 32; 98]; [105; 116; 39; 115]; [108; 115]].
Definition sample_line : list Z := [32] ++ in_quotes 34 [97; 32; 98] ++ 9 :: [] ++ quoted [105; 116; 39; 115] ++ 32 :: [] ++ [108; 115].

Lemma tokenize_quoted_witness :
  command_line sample_words sample_line ∧
  wp (tokenize sample_line) (mk_tokens [] []) (λ r _, r = sample_words ∧ tokens_get_length r = length sample_words ∧
    ∀ i, tokens_get_token r i = sample_words !! i).
Proof.
  assert (command_line sample_words sample_line) as H.
  { apply line_word; [by repeat constructor|by apply (bool_decide_unpack _); vm_compute|by constructor|done|].
    apply line_word; [constructor|by apply (bool_decide_unpack _); vm_compute|by constructor|done|].
    apply line_last; [constructor|by apply (bool_decide_unpack _); vm_compute|constructor; by apply (bool_decide_unpack _); vm_compute]. }
  split; [exact H|]. exact (tokenize_quoted sample_words sample_line (mk_tokens [] []) H).
Defined.

(** A word that does not fit in the buffer stops the program. *)
Example tokenize_too_long : tokenize (replicate 4095 97) (mk_tokens [] []) = Fail AssertFail.
Proof. by vm_compute. Qed.
