(* ===== verification/WordCount.v ===== *)
(** * The word count homework (src/personal/hw1: words.c, word_count.c,
    word_helpers.c)

    The program [words]: it reads files, counts their words in a singly linked
    list of nodes, sorts the list by insertion and prints it.  The nodes are on
    a heap; a list variable [word_count_list_t] is the address of its first
    node, and a function that changes the variable returns its new value.  The
    strings are values: a word is written once, before it is shared.  The
    outcomes of the calls of [malloc] and [realloc] to come are part of the
    state, so that the error paths run; when they are used up, memory is
    there. *)

From stdpp Require Import gmap sorting.
From S2P Require Import Prelude Stdio.
Local Open Scope Z_scope.

(** ** State *)

Record word_count_t := WordCount { word : list Z; count : Z; next : Z }.

Record wstate := WState {
  nodes : gmap Z word_count_t; next_node : Z; mallocs : list bool; infile : list Z; outfile : list Z }.

Definition NULL : Z := 0.
Definition EOF : Z := -1.

(** The outcome of the next [malloc] or [realloc]. *)
Definition memory_there : M wstate bool :=
  s ← get_state;
  match mallocs s with
  | [] => ret true
  | b :: ms => put_state (WState (nodes s) (next_node s) ms (infile s) (outfile s));; ret b
  end.

Definition node_at (p : Z) : M wstate word_count_t := s ← get_state; deref (nodes s !! p).

Definition put_node (p : Z) (n : word_count_t) : M wstate unit :=
  modify (λ s, WState (<[p := n]> (nodes s)) (next_node s) (mallocs s) (infile s) (outfile s)).

Definition set_next (p q : Z) : M wstate unit := n ← node_at p; put_node p (WordCount (word n) (count n) q).

(** [malloc (sizeof (word_count_t))]: a new address or [NULL]. *)
Definition malloc_node : M wstate Z :=
  ok ← memory_there;
  if ok : bool then
    p ← gets next_node;
    modify (λ s, WState (<[p := WordCount [] 0 0]> (nodes s)) (p + 1) (mallocs s) (infile s) (outfile s));; ret p
  else ret NULL.

Definition fgetc : M wstate Z :=
  s ← get_state;
  match infile s with
  | [] => ret EOF
  | c :: r => put_state (WState (nodes s) (next_node s) (mallocs s) r (outfile s));; ret c
  end.

(** [strcmp] of two strings. *)
Fixpoint strcmp (a b : list Z) : Z :=
  match a, b with
  | [], [] => 0
  | [], _ => -1
  | _, [] => 1
  | x :: a, y :: b => if x =? y then strcmp a b else if x <? y then -1 else 1
  end.

(** Enough fuel for a walk over the nodes. *)
Definition node_fuel : M wstate nat := gets (λ s, S (size (nodes s))).

(** ** word_count.c *)

Definition init_words : Z := NULL.

Fixpoint len_loop (fuel : nat) (cur len : Z) : M wstate Z :=
  match fuel with
  | O => fail OutOfFuel
  | S fuel => if cur =? NULL then ret len else n ← node_at cur; len_loop fuel (next n) (u64 (len + 1))
  end.
Definition len_words (wclist : Z) : M wstate Z := fuel ← node_fuel; len_loop fuel wclist 0.

Fixpoint find_loop (fuel : nat) (wc : Z) (w : list Z) : M wstate Z :=
  match fuel with
  | O => fail OutOfFuel
  | S fuel =>
      if wc =? NULL then ret wc
      else n ← node_at wc; if strcmp w (word n) =? 0 then ret wc else find_loop fuel (next n) w
  end.
Definition find_word (wclist : Z) (w : list Z) : M wstate Z := fuel ← node_fuel; find_loop fuel wclist w.

(** The new value of [*wclist], and the result. *)
Definition add_word (wclist : Z) (w : list Z) : M wstate (Z * Z) :=
  wc ← find_word wclist w;
  if negb (wc =? NULL) then
    n ← node_at wc;
    put_node wc (WordCount (word n) (s32 (count n + 1)) (next n));; ret (wclist, wc)
  else
    wc ← malloc_node;
    if negb (wc =? NULL) then put_node wc (WordCount w 1 wclist);; ret (wc, wc)
    else ret (wclist, wc).

(** [fprintf (outfile, "%8d\t%s\n", count, word)] *)
Fixpoint digits (fuel : nat) (n : Z) : list Z :=
  match fuel with
  | O => []
  | S fuel => if n <? 10 then [48 + n] else digits fuel (n / 10) ++ [48 + n mod 10]
  end.
Definition decimal (n : Z) : list Z := if n <? 0 then 45 :: digits 10 (- n) else digits 10 n.
Definition count_line (w : list Z) (n : Z) : list Z :=
  replicate (8 - length (decimal n)) 32 ++ decimal n ++ [9] ++ w ++ [10].

Fixpoint fprint_loop (fuel : nat) (wc : Z) : M wstate unit :=
  match fuel with
  | O => fail OutOfFuel
  | S fuel =>
      if wc =? NULL then ret tt
      else
        n ← node_at wc;
        modify (λ s, WState (nodes s) (next_node s) (mallocs s) (infile s) (outfile s ++ count_line (word n) (count n)));;
        fprint_loop fuel (next n)
  end.
Definition fprint_words (wclist : Z) : M wstate unit := fuel ← node_fuel; fprint_loop fuel wclist.

(** The walk of [wordcount_insert_ordered]: the last [prev] and [cur]. *)
Fixpoint insert_loop (fuel : nat) (prev cur elem : Z) (less : word_count_t → word_count_t → bool) : M wstate (Z * Z) :=
  match fuel with
  | O => fail OutOfFuel
  | S fuel =>
      if cur =? NULL then ret (prev, cur)
      else
        c ← node_at cur; e ← node_at elem;
        if less c e then insert_loop fuel cur (next c) elem less else ret (prev, cur)
  end.
Definition wordcount_insert_ordered (wclist elem : Z) (less : word_count_t → word_count_t → bool) : M wstate Z :=
  let prev := wclist in
  first ← (if prev =? NULL then ret true else e ← node_at elem; p ← node_at prev; ret (less e p));
  if first : bool then set_next elem prev;; ret elem
  else
    p ← node_at prev;
    fuel ← node_fuel;
    ' (prev, cur) ← insert_loop fuel prev (next p) elem less;
    set_next prev elem;; set_next elem cur;; ret wclist.

Fixpoint sort_loop (fuel : nat) (head sorted : Z) (less : word_count_t → word_count_t → bool) : M wstate Z :=
  match fuel with
  | O => fail OutOfFuel
  | S fuel =>
      if head =? NULL then ret sorted
      else
        h ← node_at head;
        set_next head NULL;;
        sorted ← wordcount_insert_ordered sorted head less;
        sort_loop fuel (next h) sorted less
  end.
Definition wordcount_sort (wclist : Z) (less : word_count_t → word_count_t → bool) : M wstate Z :=
  fuel ← node_fuel; sort_loop fuel wclist init_words less.

(** ** word_helpers.c *)

(** The first letter, or [None] at the end of the file. *)
Fixpoint skip_loop (fuel : nat) : M wstate (option Z) :=
  match fuel with
  | O => fail OutOfFuel
  | S fuel => ch ← fgetc; if isalpha ch then ret (Some ch) else if ch =? EOF then ret None else skip_loop fuel
  end.

(** The loop over the letters, and the terminator; the result is the length
    and the word, 0 when the buffer cannot grow. *)
Fixpoint word_loop (fuel : nat) (ch cap : Z) (buffer : list Z) : M wstate (Z * list Z) :=
  match fuel with
  | O => fail OutOfFuel
  | S fuel =>
      if negb (Z.of_nat (length buffer) <? cap) then fail BadAccess
      else
        let buffer := buffer ++ [tolower ch] in
        let index := Z.of_nat (length buffer) in
        cap' ← (if index =? cap then ok ← memory_there; ret (if ok : bool then Some (u64 (cap * 2)) else None)
                else ret (Some cap));
        match cap' with
        | None => ret (0, [])
        | Some cap =>
            ch ← fgetc;
            if isalpha ch then word_loop fuel ch cap buffer
            else if index <? cap then ret (index, buffer) else fail BadAccess
        end
  end.

Definition stream_fuel : M wstate nat := gets (λ s, S (length (infile s))).

Definition get_word : M wstate (Z * list Z) :=
  fuel ← stream_fuel;
  first ← skip_loop fuel;
  match first with
  | None => ret (0, [])
  | Some ch =>
      ok ← memory_there;
      if ok : bool then fuel ← stream_fuel; word_loop fuel ch 16 [] else ret (0, [])
  end.

Fixpoint count_loop (fuel : nat) (wclist : Z) : M wstate Z :=
  match fuel with
  | O => fail OutOfFuel
  | S fuel =>
      ' (len, w) ← get_word;
      if len =? 0 then ret wclist
      else if len =? 1 then count_loop fuel wclist
      else
        ' (wclist, wc) ← add_word wclist w;
        if wc =? NULL then ret wclist else count_loop fuel wclist
  end.
Definition count_words (wclist : Z) : M wstate Z := fuel ← stream_fuel; count_loop fuel wclist.

Definition less_count (wc1 wc2 : word_count_t) : bool :=
  (count wc1 <? count wc2) || ((count wc1 =? count wc2) && (strcmp (word wc1) (word wc2) <? 0)).
Definition less_word (wc1 wc2 : word_count_t) : bool := strcmp (word wc1) (word wc2) <? 0.

(** ** words.c *)

Definition open_file (text : list Z) : M wstate unit :=
  modify (λ s, WState (nodes s) (next_node s) (mallocs s) text (outfile s)).

(** The loop over the arguments: [None] when a file cannot be opened. *)
Fixpoint files_loop (files : list (option (list Z))) (wclist : Z) : M wstate (option Z) :=
  match files with
  | [] => ret (Some wclist)
  | None :: _ => ret None
  | Some text :: files => open_file text;; wclist ← count_words wclist; files_loop files wclist
  end.

(** [main]: the arguments are given by the contents of the files they name. *)
Definition main (files : list (option (list Z))) (stdin : list Z) : M wstate Z :=
  counted ← (match files with
             | [] => open_file stdin;; wclist ← count_words init_words; ret (Some wclist)
             | _ => files_loop files init_words
             end);
  match counted with
  | None => ret 1
  | Some wclist => wclist ← wordcount_sort wclist less_count; fprint_words wclist;; ret 0
  end.

Definition start : wstate := WState ∅ 1 [] [] [].

Example count_to_be : (match main [Some (chars "To be, or not to be: that is the question of a be")] [] start with
  | Ret (r, s) => Some (r, outfile s) | Fail _ => None end) =
  Some (0, concat (map (λ '(w, n), count_line (chars w) n)
    [("is", 1); ("not", 1); ("of", 1); ("or", 1); ("question", 1); ("that", 1); ("the", 1); ("to", 2); ("be", 3)]%string)).
Proof. by vm_compute. Qed.

(** ** Reference definitions *)

(** The words of a text: its runs of letters in lower case, cut at every other
    character, those of two letters or more. *)
Fixpoint runs (cur text : list Z) : list (list Z) :=
  match text with
  | [] => [cur]
  | c :: text => if isalpha c then runs (cur ++ [tolower c]) text else cur :: runs [] text
  end.
Definition words_of (text : list Z) : list (list Z) := filter (λ w, 1 < length w)%nat (runs [] text).

(** The number of occurrences of a word. *)
Definition occurrences (w : list Z) (ws : list (list Z)) : Z := Z.of_nat (length (filter (λ x, x = w) ws)).

(** Dictionary order, and the order of the lines: by count, then by word. *)
Inductive dict_lt : list Z → list Z → Prop :=
| dict_nil y b : dict_lt [] (y :: b)
| dict_head x y a b : x < y → dict_lt (x :: a) (y :: b)
| dict_tail x a b : dict_lt a b → dict_lt (x :: a) (x :: b).

Definition line_before (l1 l2 : list Z * Z) : Prop := l1.2 < l2.2 ∨ (l1.2 = l2.2 ∧ dict_lt l1.1 l2.1).

Lemma strcmp_refl a : strcmp a a = 0.
Proof. induction a as [|x a IH]; cbn; [done|]. by rewrite Z.eqb_refl. Qed.

Lemma strcmp_eq a : ∀ b, strcmp a b = 0 → a = b.
Proof.
  induction a as [|x a IH]; intros [|y b] H; cbn in H; [done..|]. destruct (Z.eqb_spec x y) as [->|]; [by rewrite (IH b)|].
  by destruct (x <? y).
Qed.

Lemma strcmp_lt a : ∀ b, strcmp a b < 0 ↔ dict_lt a b.
Proof.
  induction a as [|x a IH]; intros [|y b]; cbn.
  - split; [lia|by inversion 1].
  - split; [constructor|lia].
  - split; [lia|by inversion 1].
  - destruct (Z.eqb_spec x y) as [->|Hne].
    + rewrite IH. split; [by constructor|]. inversion 1; [lia|done].
    + destruct (Z.ltb_spec x y).
      * split; [intros; by constructor|lia].
      * split; [lia|]. inversion 1; lia.
Qed.

Lemma strcmp_total a : ∀ b, ¬ dict_lt a b → a ≠ b → dict_lt b a.
Proof.
  induction a as [|x a IH]; intros [|y b] H Hne; [done|by destruct H; constructor|constructor|].
  destruct (Ztrichotomy_inf x y) as [[Hxy| ->]|Hxy]; [by destruct H; constructor| |constructor; lia].
  apply dict_tail, IH; [by intros ?; apply H; constructor|congruence].
Qed.

#[export] Instance dict_lt_trans : Transitive dict_lt.
Proof.
  intros a b c H. revert c. induction H as [y b|x y a b Hxy|x a b H IH]; intros c Hc.
  - inversion Hc; constructor.
  - inversion Hc; subst; constructor; lia.
  - inversion Hc; subst; [by constructor|]. by apply dict_tail, IH.
Qed.

#[export] Instance line_before_trans : Transitive line_before.
Proof.
  intros [] [] [] [H1|[H1 H1']] [H2|[H2 H2']]; cbn in *; unfold line_before; cbn; [left; lia..|].
  right. split; [lia|]. by etrans.
Qed.

(** [less_count] is the order of the lines. *)
Definition line_of (n : word_count_t) : list Z * Z := (word n, count n).

Lemma less_count_spec m n : less_count m n = true ↔ line_before (line_of m) (line_of n).
Proof.
  unfold less_count, line_before. cbn. rewrite orb_true_iff, andb_true_iff, Z.ltb_lt, Z.eqb_eq, Z.ltb_lt, strcmp_lt. done.
Qed.

Lemma line_before_total l1 l2 : ¬ line_before l1 l2 → l1.1 ≠ l2.1 → line_before l2 l1.
Proof.
  unfold line_before. intros H Hne. destruct (decide (l1.2 = l2.2)) as [E|]; [|left; lia].
  right. split; [done|]. apply strcmp_total; [|done]. intros ?. apply H. by right.
Qed.

(** ** Reading words *)

Definition no_failure (s : wstate) : Prop := Forall (λ b, b = true) (mallocs s).

(** The step only read the input and took outcomes of allocations. *)
Record reads (s s' : wstate) : Prop := Reads {
  reads_nodes : nodes s' = nodes s; reads_next : next_node s' = next_node s; reads_out : outfile s' = outfile s;
  reads_failure : no_failure s → no_failure s' }.

#[export] Instance reads_refl : Reflexive reads.
Proof. by intros s. Qed.
#[export] Instance reads_trans : Transitive reads.
Proof. intros s1 s2 s3 [] []. constructor; [congruence..|auto]. Qed.

Definition tokens (text : list Z) : list (list Z) := filter (λ w, w ≠ []) (runs [] text).

Lemma tokens_skip c text : isalpha c = false → tokens (c :: text) = tokens text.
Proof. intros Hc. unfold tokens. cbn [runs]. by rewrite Hc, filter_cons_False by auto. Qed.

Lemma words_of_tokens text : words_of text = filter (λ w, 1 < length w)%nat (tokens text).
Proof.
  unfold words_of, tokens. rewrite list_filter_filter. apply list_filter_iff. intros w. destruct w; cbn; [lia|].
  split; [by intros|by intros []].
Qed.

Lemma wp_memory_there s (Q : bool → wstate → Prop) :
  (∀ b s', reads s s' → infile s' = infile s → (b = false → ¬ no_failure s) → Q b s') → wp memory_there s Q.
Proof.
  intros H. unfold memory_there. wp_step. wp_step. destruct (mallocs s) as [|b ms] eqn:E.
  - wp_step. by apply H.
  - wp_steps. apply H; cbn; [|done|].
    + constructor; [done..|]. unfold no_failure. cbn. rewrite E. by inversion 1.
    + intros ->. unfold no_failure. rewrite E. by inversion 1.
Qed.

Lemma wp_fgetc s (Q : Z → wstate → Prop) :
  (infile s = [] → Q EOF s) →
  (∀ c r s', infile s = c :: r → reads s s' → infile s' = r → Q c s') → wp fgetc s Q.
Proof.
  intros H0 H1. unfold fgetc. wp_step. wp_step. destruct (infile s) as [|c r] eqn:E; wp_steps; [by apply H0|].
  by apply (H1 c r).
Qed.

Lemma skip_loop_ok fuel : ∀ s, (length (infile s) < fuel)%nat → Forall is_u8 (infile s) →
  wp (skip_loop fuel) s (λ o s', reads s s' ∧ Forall is_u8 (infile s') ∧ (length (infile s') ≤ length (infile s))%nat ∧
    match o with
    | None => tokens (infile s) = []
    | Some ch => isalpha ch = true ∧ tokens (infile s) = tokens (ch :: infile s') ∧ (length (infile s') < length (infile s))%nat
    end).
Proof.
  induction fuel as [|fuel IH]; intros s Hf Hu; [lia|]. cbn [skip_loop]. wp_step. apply wp_fgetc.
  - intros E. change (isalpha EOF) with false. rewrite Z.eqb_refl. apply wp_ret. rewrite !E. split_and!; [reflexivity|constructor|done|done].
  - intros c r s' E Hr Er. rewrite E in Hu. inversion Hu as [|? ? Hc Hu']; subst. destruct (isalpha c) eqn:Ea.
    + wp_step. rewrite E. cbn. split_and!; auto.
    + destruct (Z.eqb_spec c EOF) as [->|_]; [exfalso; unfold EOF in Hc; word_lia|].
      eapply wp_mono; [apply IH; [rewrite E in Hf; cbn in Hf; lia|done]|]. cbn. intros o s'' (H1&H2&H3&H4).
      rewrite E. rewrite tokens_skip by done. split_and!; [by etrans|done|cbn; lia|].
      destruct o; [|done]. destruct H4 as (?&?&?). split_and!; [done..|cbn; lia].
Qed.

Lemma word_loop_ok fuel : ∀ s ch cap buffer, (length (infile s) < fuel)%nat → Forall is_u8 (infile s) →
  isalpha ch = true → Z.of_nat (length buffer) < cap → Z.of_nat (length buffer + length (infile s)) < 2 ^ 62 →
  wp (word_loop fuel ch cap buffer) s (λ r s', reads s s' ∧
    ((r.1 = Z.of_nat (length r.2) ∧ r.2 ≠ [] ∧ Forall is_u8 (infile s') ∧ (length (infile s') ≤ length (infile s))%nat ∧
      filter (λ w, w ≠ []) (runs buffer (ch :: infile s)) = r.2 :: tokens (infile s'))
     ∨ (r.1 = 0 ∧ ¬ no_failure s))).
Proof.
  induction fuel as [|fuel IH]; intros s ch cap buffer Hf Hu Ha Hcap Hlen; [lia|]. cbn [word_loop].
  rewrite (proj2 (Z.ltb_lt _ _)) by done. cbn [negb]. set (buffer' := buffer ++ [tolower ch]).
  assert (length buffer' = S (length buffer)) as Hl by (unfold buffer'; rewrite length_app; cbn; lia).
  assert (buffer' ≠ []) as Hne by (destruct buffer'; [done|done]). wp_step.
  apply (wp_mono _ _ (λ o s', reads s s' ∧ infile s' = infile s ∧
    match o with None => ¬ no_failure s | Some cap => Z.of_nat (length buffer') < cap end)).
  { destruct (Z.eqb_spec (Z.of_nat (length buffer')) cap) as [E|E].
    - wp_step. apply wp_memory_there. intros b s' Hr Ei Hb. wp_step. split_and!; [done..|]. destruct b; [|auto].
      rewrite u64_small by word_lia. lia.
    - wp_step. split_and!; [done..|lia]. }
  intros [cap'|] s1 (Hr1&Ei&Hc); [|wp_step; auto]. cbn [runs]. rewrite Ha. fold buffer'. wp_step. apply wp_fgetc.
  - intros E. cbn [isalpha]. change (isalpha EOF) with false. cbn. rewrite (proj2 (Z.ltb_lt _ _)) by done. wp_step.
    split; [done|]. left. rewrite <- Ei, E. cbn [runs]. rewrite filter_cons_True by done. done.
  - intros c r s2 E Hr2 Er. rewrite <- Ei in *. rewrite E in Hu, Hf, Hlen. inversion Hu as [|? ? Hcu Hu']; subst r.
    cbn [length] in *. rewrite E. destruct (isalpha c) eqn:Ec.
    + eapply wp_mono; [apply IH; [lia|done..|rewrite Hl; lia]|]. cbn beta. intros p s3 (H1&H2). split; [by repeat (etrans; [done|])|].
      destruct H2 as [(?&?&?&?&?)|[? Hf']]; [left|right; split; [done|]]; [split_and!; auto; cbn; lia|].
      intros Hn. apply Hf'. apply Hr2, Hr1, Hn.
    + rewrite (proj2 (Z.ltb_lt _ _)) by done. wp_step. cbn [fst snd]. split; [by etrans|]. left.
      cbn [runs]. rewrite Ec, filter_cons_True by done. split_and!; auto; cbn; lia.
Qed.

Lemma get_word_ok s : Forall is_u8 (infile s) → Z.of_nat (length (infile s)) < 2 ^ 62 →
  wp get_word s (λ r s', reads s s' ∧
    ((r.1 = Z.of_nat (length r.2) ∧ r.2 ≠ [] ∧ Forall is_u8 (infile s') ∧ (length (infile s') < length (infile s))%nat ∧
      tokens (infile s) = r.2 :: tokens (infile s'))
     ∨ (r.1 = 0 ∧ (no_failure s → tokens (infile s) = [])))).
Proof.
  intros Hu Hl. unfold get_word, stream_fuel. wp_step. wp_step. wp_step.
  eapply wp_mono; [apply skip_loop_ok; [lia|done]|]. cbn beta. intros [ch|] s1 (Hr1&Hu1&Hl1&H1).
  - destruct H1 as (Ha&Et&Hlt). wp_step. apply wp_memory_there. intros b s2 Hr2 Ei Hb. destruct b.
    + wp_step. wp_step. rewrite <- Ei in *. eapply wp_mono; [apply word_loop_ok; [lia|done|done|done|cbn [length]; lia]|].
      cbn beta. intros r s3 (Hr3&H). assert (reads s s3) as Hr by (by repeat (etrans; [done|])). split; [done|].
      destruct H as [(?&?&?&?&E)|[? Hf]]; [left|right].
      * rewrite Et. unfold tokens at 1. rewrite E. split_and!; [done..|lia|done].
      * split; [done|]. intros Hn. destruct Hf. apply Hr2, Hr1, Hn.
    + wp_step. split; [by etrans|]. right. split; [done|]. intros Hn. destruct Hb; [done|]. apply Hr1, Hn.
  - wp_step. auto.
Qed.

(** ** The list *)

(** The nodes from [p] on: their addresses, words and counts. *)
Fixpoint chain (h : gmap Z word_count_t) (p : Z) (l : list (Z * (list Z * Z))) : Prop :=
  match l with
  | [] => p = NULL
  | (a, (w, c)) :: l => p = a ∧ a ≠ NULL ∧ ∃ q, h !! a = Some (WordCount w c q) ∧ chain h q l
  end.

Lemma chain_frame h a n l : ∀ p, a ∉ l.*1 → chain h p l → chain (<[a := n]> h) p l.
Proof.
  induction l as [|[b [w c]] l IH]; cbn; [done|]. intros p Ha (->&Hb&q&Hq&Hc). apply not_elem_of_cons in Ha as [Hne Ha].
  split_and!; [done..|]. exists q. rewrite lookup_insert_ne by done. auto.
Qed.

Lemma chain_ext h h' l : ∀ p, (∀ a, a ∈ l.*1 → h' !! a = h !! a) → chain h p l → chain h' p l.
Proof.
  induction l as [|[b [w c]] l IH]; cbn; [done|]. intros p He (->&Hb&q&Hq&Hc). split_and!; [done..|]. exists q.
  rewrite He by set_solver. split; [done|]. apply IH; [set_solver|done].
Qed.

Lemma chain_dom h l : ∀ p, chain h p l → ∀ a, a ∈ l.*1 → is_Some (h !! a).
Proof.
  induction l as [|[b [w c]] l IH]; intros p H a Ha; [by apply elem_of_nil in Ha|]. destruct H as (->&Hb&q&Hq&Hc).
  cbn in Ha. apply elem_of_cons in Ha as [->|Ha]; [by eexists|by eapply IH].
Qed.

Lemma chain_size h p l : NoDup l.*1 → chain h p l → (length l ≤ size h)%nat.
Proof.
  intros Hn Hc. rewrite <- size_dom, <- (length_fmap fst l), <- (size_list_to_set (C := gset Z) (l.*1)) by done.
  apply subseteq_size. intros a Ha. apply elem_of_list_to_set in Ha. apply elem_of_dom. by eapply chain_dom.
Qed.

(** The node in the middle of a chain, and a chain with this node changed and
    linked to another one. *)
Lemma chain_middle h l1 a w c l2 : ∀ p, chain h p (l1 ++ (a, (w, c)) :: l2) →
  a ≠ NULL ∧ ∃ q, h !! a = Some (WordCount w c q) ∧ chain h q l2.
Proof. induction l1 as [|[b [v d]] l1 IH]; intros p; cbn; [by intros (->&?&?)|]. intros (->&_&q&_&H). by apply (IH q). Qed.

Lemma chain_relink h l1 a w c l2 w' c' q l3 : NoDup ((l1 ++ (a, (w, c)) :: l2).*1) → a ∉ l3.*1 → chain h q l3 →
  ∀ p, chain h p (l1 ++ (a, (w, c)) :: l2) → chain (<[a := WordCount w' c' q]> h) p (l1 ++ (a, (w', c')) :: l3).
Proof.
  intros Hn Ha Hq. induction l1 as [|[b [v d]] l1 IH]; cbn in *; intros p; apply NoDup_cons in Hn as [Hb Hn].
  - intros (->&Hne&r&Hr&Hc). split_and!; [done..|]. exists q. rewrite lookup_insert_eq. split; [done|]. by apply chain_frame.
  - intros (->&Hne&r&Hr&Hc). split_and!; [done..|]. exists r. rewrite lookup_insert_ne; [by auto|].
    intros <-. apply Hb. rewrite fmap_app. cbn. set_solver.
Qed.

(** A node linked in behind another one. *)
Lemma chain_link h l0 a w c l2 e w' c' q p : chain h p (l0 ++ (a, (w, c)) :: l2) → chain h q l2 →
  NoDup (e :: (l0 ++ (a, (w, c)) :: l2).*1) → e ≠ NULL →
  chain (<[e := WordCount w' c' q]> (<[a := WordCount w c e]> h)) p (l0 ++ (a, (w, c)) :: (e, (w', c')) :: l2).
Proof.
  intros Hc Hq [He Hn]%NoDup_cons He0. pose proof He as He'. rewrite fmap_app in He'. cbn in He'.
  rewrite insert_insert_ne by set_solver. eapply (chain_relink _ l0 a w c l2); [done| | |by apply chain_frame].
  - rewrite fmap_app in Hn. apply NoDup_app in Hn as (_&_&Hn). apply NoDup_cons in Hn as [? _]. cbn. set_solver.
  - cbn. split_and!; [done..|]. exists q. rewrite lookup_insert_eq. split; [done|]. apply chain_frame; [set_solver|done].
Qed.

Lemma wp_node_at p n s (Q : word_count_t → wstate → Prop) : nodes s !! p = Some n → Q n s → wp (node_at p) s Q.
Proof. intros H HQ. unfold node_at. wp_steps. by eapply wp_deref. Qed.

Definition with_nodes (h : gmap Z word_count_t) (s : wstate) : wstate :=
  WState h (next_node s) (mallocs s) (infile s) (outfile s).

Lemma wp_link_node p q n s (Q : unit → wstate → Prop) : nodes s !! p = Some n →
  Q tt (with_nodes (<[p := WordCount (word n) (count n) q]> (nodes s)) s) → wp (set_next p q) s Q.
Proof. intros H HQ. unfold set_next, put_node. wp_step. eapply wp_node_at; [done|]. by wp_steps. Qed.

(** [find_word] finds the node of the word. *)
Lemma find_loop_ok s w : ∀ fuel l p, chain (nodes s) p l → (length l < fuel)%nat →
  wp (find_loop fuel p w) s (λ r s', s' = s ∧
    ((r = NULL ∧ w ∉ (l.*2).*1) ∨ (r ≠ NULL ∧ ∃ c, (r, (w, c)) ∈ l))).
Proof.
  induction fuel as [|fuel IH]; intros l p Hc Hf; [lia|]. cbn [find_loop]. destruct l as [|[a [v c]] l]; cbn [chain] in Hc.
  - subst p. rewrite Z.eqb_refl. wp_step. split; [done|]. left. split; [done|]. apply not_elem_of_nil.
  - destruct Hc as (->&Ha&q&Hq&Hc). rewrite (proj2 (Z.eqb_neq _ _) Ha). wp_step. eapply wp_node_at; [done|]. cbn [word next].
    destruct (Z.eqb_spec (strcmp w v) 0) as [E|E].
    + wp_step. apply strcmp_eq in E as ->. split; [done|]. right. split; [done|]. exists c. by left.
    + eapply wp_mono; [apply (IH l q); [done|cbn in Hf; lia]|]. cbn beta. intros r s' (->&H). split; [done|].
      destruct H as [[-> H]|[Hr [d H]]]; [left|right]; cbn.
      * split; [done|]. apply not_elem_of_cons. split; [|done]. intros ->. by rewrite strcmp_refl in E.
      * split; [done|]. exists d. by right.
Qed.

(** What the list has to hold after the words [ws]. *)
Definition tally (l : list (list Z * Z)) (ws : list (list Z)) : Prop :=
  NoDup l.*1 ∧ ∀ w c, (w, c) ∈ l ↔ c = occurrences w ws ∧ 0 < c.

Lemma occurrences_snoc w v ws : occurrences w (ws ++ [v]) = occurrences w ws + (if decide (v = w) then 1 else 0).
Proof.
  unfold occurrences. rewrite filter_app, length_app. destruct (decide (v = w)) as [->|Hne].
  - rewrite filter_cons_True by done. cbn. lia.
  - rewrite filter_cons_False by done. cbn. lia.
Qed.

Lemma occurrences_le w ws : 0 ≤ occurrences w ws ≤ Z.of_nat (length ws).
Proof. unfold occurrences. pose proof (length_filter (λ x, x = w) ws). lia. Qed.

Lemma tally_new l ws w : tally l ws → w ∉ l.*1 → tally ((w, 1) :: l) (ws ++ [w]).
Proof.
  intros [Hn Ht] Hw. assert (occurrences w ws = 0) as H0.
  { pose proof (occurrences_le w ws). destruct (decide (occurrences w ws = 0)); [done|]. destruct Hw.
    apply list_elem_of_fmap. exists (w, occurrences w ws). split; [done|]. apply Ht. lia. }
  split; [by constructor|]. intros v d. rewrite elem_of_cons, Ht, occurrences_snoc. destruct (decide (w = v)) as [<-|Hv].
  - rewrite H0. split; [intros [[= ->]|[-> ?]]; lia|]. intros [-> _]. by left.
  - rewrite Z.add_0_r. split; [intros [[= -> ->]|?]; [done|done]|by right].
Qed.

Lemma tally_again l1 w c l2 ws : tally (l1 ++ (w, c) :: l2) ws → tally (l1 ++ (w, c + 1) :: l2) (ws ++ [w]).
Proof.
  intros [Hn Ht]. assert (c = occurrences w ws ∧ 0 < c) as [Hc Hpos] by (apply Ht; set_solver).
  rewrite fmap_app in Hn. cbn in Hn. split; [by rewrite fmap_app|]. intros v d. rewrite occurrences_snoc.
  apply NoDup_app in Hn as (H1&H2&H3). apply NoDup_cons in H3 as [H3 H4].
  rewrite elem_of_app, elem_of_cons. specialize (Ht v d). rewrite elem_of_app, elem_of_cons in Ht.
  destruct (decide (w = v)) as [<-|Hv].
  - assert (∀ e, (w, e) ∉ l1 ∧ (w, e) ∉ l2) as Hno.
    { intros e. split; intros He; [apply (H2 w)|apply H3]; [|set_solver|]; apply list_elem_of_fmap; by exists (w, e). }
    destruct (Hno d) as [Hd1 Hd2]. rewrite <- Hc. split.
    + intros [?|[[= ->]|?]]; [done|lia|done].
    + intros [-> ?]. auto.
  - rewrite Z.add_0_r, <- Ht. split; intros [?|[[= -> ->]|?]]; auto; done.
Qed.

(** The list from [p] on holds the counts of the words [ws]. *)
Definition heap_ok (s : wstate) : Prop := 0 < next_node s ∧ ∀ a, is_Some (nodes s !! a) → a < next_node s.

Definition counted (s : wstate) (p : Z) (ws : list (list Z)) : Prop :=
  heap_ok s ∧ ∃ l, chain (nodes s) p l ∧ NoDup l.*1 ∧ tally l.*2 ws.

Lemma heap_ok_update s p n q : heap_ok s → nodes s !! p = Some q → heap_ok (with_nodes (<[p := n]> (nodes s)) s).
Proof.
  intros [H0 H] Hp. split; [done|]. intros a. cbn. destruct (decide (a = p)) as [->|Hne]; [intros _; apply H; by eexists|].
  rewrite lookup_insert_ne by done. apply H.
Qed.

Lemma add_word_ok s p w ws : counted s p ws → Z.of_nat (length ws) + 1 < 2 ^ 31 →
  wp (add_word p w) s (λ r s', infile s' = infile s ∧ outfile s' = outfile s ∧ (no_failure s → no_failure s') ∧
    ((r.2 ≠ NULL ∧ counted s' r.1 (ws ++ [w])) ∨ (r.2 = NULL ∧ counted s' r.1 ws ∧ ¬ no_failure s))).
Proof.
  intros (Hh&l&Hc&Hn&Ht) Hlen. unfold add_word, find_word, node_fuel. wp_step. wp_step. wp_step.
  eapply wp_mono; [apply (find_loop_ok s w _ l p Hc); pose proof (chain_size _ _ _ Hn Hc); lia|].
  cbn beta. intros r s' (->&[[-> Hw]|[Hr [c Hin]]]).
  - rewrite Z.eqb_refl. cbn [negb]. unfold malloc_node, put_node. wp_step. wp_step. apply wp_memory_there.
    intros b s1 [E1 E2 E3 E4] Ei Hb. destruct b.
    + do 5 wp_step. cbn [nodes next_node mallocs infile outfile]. rewrite E2. destruct Hh as [Hp0 Hlt].
      rewrite (proj2 (Z.eqb_neq (next_node s) NULL)) by (unfold NULL; lia). cbn [negb]. wp_steps. cbn [fst snd nodes next_node mallocs infile outfile].
      split_and!; [done..|]. left. split; [unfold NULL; lia|]. rewrite E1, insert_insert_eq.
      assert (next_node s ∉ l.*1) as Hfr by (intros Hin; eapply chain_dom, Hlt in Hin; [lia|done]).
      split; [|exists ((next_node s, (w, 1)) :: l)].
      * split; cbn; [lia|]. intros a. destruct (decide (a = next_node s)) as [->|Hne]; [lia|].
        rewrite lookup_insert_ne by done. intros ?%Hlt. lia.
      * cbn. split_and!; [done|unfold NULL; lia| |by constructor|by apply tally_new].
        exists p. rewrite lookup_insert_eq. split; [done|]. by apply chain_frame.
    + wp_steps. cbn [fst snd]. split_and!; [done..|]. right. split_and!; [done| |auto].
      split; [by unfold heap_ok; rewrite E1, E2|]. exists l. by rewrite E1.
  - rewrite (proj2 (Z.eqb_neq _ _) Hr). cbn [negb]. apply list_elem_of_split in Hin as (l1&l2&->).
    destruct (chain_middle _ _ _ _ _ _ _ Hc) as (_&q&Hq&Hc2). wp_step. eapply wp_node_at; [done|]. unfold put_node. wp_steps.
    cbn [fst snd word count next]. split_and!; [done..|]. left. split; [done|]. split; [by eapply heap_ok_update|].
    exists (l1 ++ (r, (w, s32 (c + 1))) :: l2). cbn [nodes]. rewrite !fmap_app in *. cbn in *. split_and!; [|done|].
    + eapply (chain_relink _ l1 r w c l2); [by rewrite fmap_app| |done|done].
      apply NoDup_app in Hn as (_&_&Hn). by apply NoDup_cons in Hn as [? _].
    + assert (c = occurrences w ws ∧ 0 < c) as [Hoc Hpos] by (apply Ht; set_solver).
      pose proof (occurrences_le w ws). rewrite s32_small by word_lia. by apply tally_again.
Qed.

Lemma count_loop_ok fuel : ∀ s p ws, counted s p ws → Forall is_u8 (infile s) →
  Z.of_nat (length ws + length (infile s)) < 2 ^ 31 → (length (infile s) < fuel)%nat →
  wp (count_loop fuel p) s (λ p' s', outfile s' = outfile s ∧ (no_failure s → no_failure s') ∧
    ∃ n, counted s' p' (ws ++ take n (words_of (infile s))) ∧ (no_failure s → length (words_of (infile s)) ≤ n)%nat).
Proof.
  induction fuel as [|fuel IH]; intros s p ws Hc Hu Hl Hf; [lia|]. cbn [count_loop]. wp_step.
  eapply wp_mono; [apply get_word_ok; [done|lia]|]. cbn beta. intros [len w] s1 ([E1 E2 E3 E4]&H). cbn [fst snd] in H.
  assert (counted s1 p ws) as Hc1 by (unfold counted, heap_ok; rewrite E1, E2; exact Hc).
  destruct H as [(->&Hne&Hu1&Hlt&Et)|[-> Ht]].
  - rewrite (proj2 (Z.eqb_neq _ 0)) by (destruct w; [done|cbn; lia]). rewrite (words_of_tokens (infile s)), Et.
    destruct (Z.eqb_spec (Z.of_nat (length w)) 1) as [E|E].
    + rewrite filter_cons_False by lia. rewrite <- words_of_tokens.
      eapply wp_mono; [apply (IH s1 p ws); [done|done|lia|lia]|]. cbn beta. intros p' s' (H1&H2&n&H3&H4).
      split_and!; [congruence|auto|]. exists n. auto.
    + assert (1 < length w)%nat by (destruct w as [|? []]; cbn in *; [done|lia|lia]).
      rewrite filter_cons_True by done. rewrite <- words_of_tokens. wp_step.
      eapply wp_mono; [apply (add_word_ok s1 p w ws); [done|lia]|]. cbn beta. intros [p2 wc] s2 (Ei&Eo&Hf2&H2). cbn [fst snd] in H2.
      destruct H2 as [[Hwc Hc2]|(->&Hc2&Hfail)].
      * rewrite (proj2 (Z.eqb_neq _ _) Hwc). eapply wp_mono; [apply (IH s2 p2 (ws ++ [w])); [done|by rewrite Ei| |rewrite Ei; lia]|].
        { rewrite Ei, length_app. cbn. lia. }
        cbn beta. intros p' s' (H1&H2&n&H3&H4). rewrite Ei in *. split_and!; [congruence|auto|]. exists (S n). cbn [take].
        rewrite <- app_assoc in H3. cbn in *. split; [done|]. intros ?%E4%Hf2%H4. lia.
      * rewrite Z.eqb_refl. wp_step. split_and!; [congruence|auto|]. exists 0%nat. cbn [take]. rewrite app_nil_r.
        split; [done|]. intros ?%E4. done.
  - rewrite Z.eqb_refl. wp_step. split_and!; [done..|]. exists 0%nat. cbn [take]. rewrite app_nil_r. split; [done|].
    intros Hn. rewrite words_of_tokens, Ht by done. cbn. lia.
Qed.

(** ** Sorting *)

Section sorting.
Context (less : word_count_t → word_count_t → bool) (R : relation (list Z * Z)) `{!Transitive R}.
Context (less_R : ∀ m n, less m n = true ↔ R (line_of m) (line_of n)).
Context (R_total : ∀ l1 l2 : list Z * Z, ¬ R l1 l2 → l1.1 ≠ l2.1 → R l2 l1).

Lemma insert_loop_ok s elem e : nodes s !! elem = Some e → ∀ fuel l prev cur,
  chain (nodes s) cur l → (length l < fuel)%nat →
  wp (insert_loop fuel prev cur elem less) s (λ r s', s' = s ∧ ∃ l1 l2, l = l1 ++ l2 ∧ chain (nodes s) r.2 l2 ∧
    r.1 = default prev (last l1.*1) ∧ Forall (λ x, R x (line_of e)) l1.*2 ∧
    match l2 with [] => True | (_, x) :: _ => ¬ R x (line_of e) end).
Proof.
  intros He. induction fuel as [|fuel IH]; intros l prev cur Hc Hf; [lia|]. cbn [insert_loop].
  destruct l as [|[a [w c]] l]; cbn [chain] in Hc.
  - subst cur. rewrite Z.eqb_refl. wp_step. split; [done|]. by exists [], [].
  - destruct Hc as (->&Ha&q&Hq&Hc). rewrite (proj2 (Z.eqb_neq _ _) Ha). wp_step. eapply wp_node_at; [done|].
    wp_step. eapply wp_node_at; [done|]. cbn [next]. destruct (less _ e) eqn:E.
    + eapply wp_mono; [apply (IH l a q); [done|cbn in Hf; lia]|]. cbn beta. intros [p' c'] s' (->&l1&l2&->&H1&H2&H3&H4).
      split; [done|]. exists ((a, (w, c)) :: l1), l2. cbn in *. split_and!; [done..| | |done].
      * rewrite H2, last_cons. by destruct (last l1.*1).
      * constructor; [|done]. by apply less_R in E.
    + wp_step. split; [done|]. exists [], ((a, (w, c)) :: l). split; [done|]. split; [cbn; eauto|]. split_and!; [done|constructor|].
      intros HR. apply (less_R (WordCount w c q) e) in HR. congruence.
Qed.

(** The place of a new line in a sorted list. *)
Lemma insert_sorted_middle (l1 l2 : list (list Z * Z)) x : StronglySorted R (l1 ++ l2) → Forall (λ y, R y x) l1 →
  match l2 with [] => True | y :: _ => R x y end → StronglySorted R (l1 ++ x :: l2).
Proof.
  intros (H1&H2&H3)%StronglySorted_app H4 H5. rewrite Forall_forall in H4.
  assert (∀ y, y ∈ l2 → R x y) as H6.
  { destruct l2 as [|z l2]; [set_solver|]. apply StronglySorted_cons in H3 as [H3 _]. rewrite Forall_forall in H3.
    intros y [->|Hy]%elem_of_cons; [done|]. etrans; [done|auto]. }
  apply StronglySorted_app. split_and!; [|done|apply StronglySorted_cons; by rewrite Forall_forall].
  intros y z Hy [->|Hz]%elem_of_cons; auto.
Qed.

(** Insertion relinks the nodes of the list and the new one only. *)
Lemma insert_ordered_ok s p m elem e : chain (nodes s) p m → NoDup (elem :: m.*1) → nodes s !! elem = Some e → elem ≠ NULL →
  StronglySorted R m.*2 → word e ∉ (m.*2).*1 →
  wp (wordcount_insert_ordered p elem less) s (λ r s', ∃ h m', s' = with_nodes h s ∧ dom h = dom (nodes s) ∧
    (∀ a, a ∉ elem :: m.*1 → h !! a = nodes s !! a) ∧ chain h r m' ∧ m' ≡ₚ (elem, line_of e) :: m ∧ StronglySorted R m'.*2).
Proof.
  intros Hc [Hel Hn]%NoDup_cons He He0 Hs Hw. unfold wordcount_insert_ordered, node_fuel. wp_step.
  apply (wp_mono _ _ (λ b s', s' = s ∧ match m with
    | [] => b = true
    | (_, x) :: _ => if b : bool then R (line_of e) x else ¬ R (line_of e) x end)).
  { destruct m as [|[a [w c]] m]; cbn [chain] in Hc.
    - subst p. rewrite Z.eqb_refl. by wp_step.
    - destruct Hc as (->&Ha&q&Hq&_). rewrite (proj2 (Z.eqb_neq _ _) Ha). wp_step. eapply wp_node_at; [done|].
      wp_step. eapply wp_node_at; [done|]. wp_step. split; [done|]. destruct (less _ _) eqn:E; [by apply less_R in E|].
      intros HR. apply (less_R e (WordCount w c q)) in HR. congruence. }
  intros b s' (->&Hb). destruct b.
  - wp_step. eapply wp_link_node; [done|]. wp_step. exists (<[elem := WordCount (word e) (count e) p]> (nodes s)), ((elem, line_of e) :: m).
    split_and!; [done| | | |done|].
    + apply dom_insert_lookup_L. by eexists.
    + intros a Ha. apply not_elem_of_cons in Ha as [? _]. by rewrite lookup_insert_ne.
    + cbn. split_and!; [done..|]. exists p. rewrite lookup_insert_eq. split; [done|]. by apply chain_frame.
    + cbn. apply (insert_sorted_middle [] m.*2); [done|constructor|]. by destruct m as [|[a x] m].
  - destruct m as [|[a [w c]] m]; [done|]. pose proof Hc as Hc0. destruct Hc as (->&Ha&q&Hq&Hc). wp_step. eapply wp_node_at; [done|].
    do 3 wp_step. eapply wp_mono; [apply (insert_loop_ok s elem e He _ m a q Hc)|].
    { pose proof (chain_size (nodes s) a ((a, (w, c)) :: m) Hn Hc0). cbn in *. lia. }
    cbn beta. intros [prev cur] s' (->&l1&l2&->&Hc2&Hp&Hl1&Hl2). cbn [fst snd] in *.
    assert (Forall (λ x, R x (line_of e)) (((a, (w, c)) :: l1).*2)) as Hl1'.
    { constructor; [|done]. apply R_total; [done|]. cbn in *. set_solver. }
    assert (∃ l0 w' c', (a, (w, c)) :: l1 = l0 ++ [(prev, (w', c'))]) as (l0&w'&c'&E0).
    { destruct l1 as [|[b [v d]] l1 _] using rev_ind; cbn in Hp; [subst; by exists [], w, c|].
      rewrite fmap_app in Hp. cbn in Hp. rewrite last_snoc in Hp. cbn in Hp. subst. by exists ((a, (w, c)) :: l1), v, d. }
    rewrite app_comm_cons, E0, <- app_assoc in *. cbn [app] in *.
    destruct (chain_middle _ _ _ _ _ _ _ Hc0) as (Hp0&q'&Hq'&_).
    assert (elem ≠ prev) as Hne by (rewrite fmap_app in Hel; cbn in Hel; set_solver).
    wp_step. eapply wp_link_node; [done|]. wp_step. eapply wp_link_node; [cbn; by rewrite lookup_insert_ne|]. wp_step.
    cbn [word count nodes with_nodes]. eexists _, (l0 ++ (prev, (w', c')) :: (elem, line_of e) :: l2).
    split; [reflexivity|]. split_and!.
    + rewrite !dom_insert_lookup_L; [done|by eexists|rewrite lookup_insert_ne by done; by eexists].
    + intros b Hb'. rewrite fmap_app in Hb'. cbn in Hb'. rewrite !lookup_insert_ne by set_solver. done.
    + apply chain_link; [done..|by constructor|done].
    + rewrite (perm_swap (elem, _)). symmetry. apply Permutation_middle.
    + rewrite !fmap_app in *. cbn in *.
      replace (l0.*2 ++ (w', c') :: line_of e :: l2.*2) with ((l0.*2 ++ [(w', c')]) ++ line_of e :: l2.*2) by (by rewrite <- app_assoc).
      apply insert_sorted_middle; [by rewrite <- app_assoc|done|]. destruct l2 as [|[b x] l2]; [done|]. cbn in *. apply R_total; [done|].
      set_solver.
Qed.

(** The sort takes the nodes one by one from the list to the sorted one. *)
Lemma sort_loop_ok fuel : ∀ s head sorted l m, chain (nodes s) head l → chain (nodes s) sorted m →
  NoDup (l.*1 ++ m.*1) → NoDup ((l.*2).*1 ++ (m.*2).*1) → StronglySorted R m.*2 → (length l < fuel)%nat →
  wp (sort_loop fuel head sorted less) s (λ r s', ∃ h m', s' = with_nodes h s ∧ dom h = dom (nodes s) ∧
    chain h r m' ∧ m' ≡ₚ l ++ m ∧ StronglySorted R m'.*2).
Proof.
  induction fuel as [|fuel IH]; intros s head sorted l m Hl Hm Hn Hw Hs Hf; [lia|]. cbn [sort_loop].
  destruct l as [|[a [w c]] l]; cbn [chain] in Hl.
  - subst head. rewrite Z.eqb_refl. wp_step. exists (nodes s), m. split_and!; [by destruct s|done..].
  - destruct Hl as (->&Ha&q&Hq&Hl). rewrite (proj2 (Z.eqb_neq _ _) Ha). cbn in Hn, Hw.
    apply NoDup_cons in Hn as [Ha1 Hn]. apply NoDup_cons in Hw as [Hw1 Hw].
    apply not_elem_of_app in Ha1 as [Ha1 Ha2]. apply not_elem_of_app in Hw1 as [Hw1 Hw2].
    wp_step. eapply wp_node_at; [done|]. wp_step. eapply wp_link_node; [done|]. wp_step. cbn [word count next].
    set (s1 := with_nodes _ s). eapply wp_mono; [apply (insert_ordered_ok s1 sorted m a (WordCount w c NULL))|].
    + by apply chain_frame.
    + constructor; [done|]. by apply NoDup_app in Hn as (_&_&?).
    + apply lookup_insert_eq.
    + done.
    + done.
    + done.
    + cbn beta. intros r s' (h&m1&->&Hd&Hfr&Hc&Hp&Hs1). eapply wp_mono; [apply (IH (with_nodes h s1) q r l m1)|].
      * cbn [nodes with_nodes]. eapply chain_ext, Hl. intros b Hb.
        assert (b ≠ a) as Hba by (by intros ->). apply NoDup_app in Hn as (_&Hn&_).
        rewrite Hfr by (apply not_elem_of_cons; auto). by apply lookup_insert_ne.
      * done.
      * assert (l.*1 ++ m1.*1 ≡ₚ a :: l.*1 ++ m.*1) as -> by (rewrite Hp; symmetry; apply Permutation_middle).
        apply NoDup_cons. rewrite not_elem_of_app. done.
      * assert (l.*2.*1 ++ m1.*2.*1 ≡ₚ w :: l.*2.*1 ++ m.*2.*1) as -> by (rewrite Hp; symmetry; apply Permutation_middle).
        apply NoDup_cons. rewrite not_elem_of_app. done.
      * done.
      * cbn in Hf. lia.
      * cbn beta. intros r' s' (h'&m'&->&Hd'&Hc'&Hp'&Hs'). exists h', m'. split_and!; [done| |done| |done].
        -- rewrite Hd'. cbn. rewrite Hd. cbn. apply dom_insert_lookup_L. by eexists.
        -- rewrite Hp', Hp. cbn. symmetry. apply Permutation_middle.
Qed.
End sorting.

(** ** The program *)

Lemma fprint_loop_ok fuel : ∀ s p l, chain (nodes s) p l → (length l < fuel)%nat →
  wp (fprint_loop fuel p) s (λ _ s', outfile s' = outfile s ++ concat (map (λ x, count_line x.1 x.2) l.*2)).
Proof.
  induction fuel as [|fuel IH]; intros s p l Hc Hf; [lia|]. cbn [fprint_loop]. destruct l as [|[a [w c]] l]; cbn [chain] in Hc.
  - subst p. rewrite Z.eqb_refl. wp_step. cbn. by rewrite app_nil_r.
  - destruct Hc as (->&Ha&q&Hq&Hc). rewrite (proj2 (Z.eqb_neq _ _) Ha). wp_step. eapply wp_node_at; [done|]. wp_step. wp_step.
    eapply wp_mono; [apply (IH _ q l); [exact Hc|cbn in Hf; lia]|]. cbn. intros _ s' ->. by rewrite <- app_assoc.
Qed.

Lemma count_words_ok s p ws : counted s p ws → Forall is_u8 (infile s) → Z.of_nat (length ws + length (infile s)) < 2 ^ 31 →
  no_failure s → wp (count_words p) s (λ p' s', outfile s' = outfile s ∧ no_failure s' ∧ counted s' p' (ws ++ words_of (infile s))).
Proof.
  intros Hc Hu Hl Hn. unfold count_words, stream_fuel. wp_step. wp_step.
  eapply wp_mono; [apply count_loop_ok; [done..|lia]|]. cbn beta. intros p' s' (H1&H2&n&H3&H4). split_and!; [done|auto|].
  by rewrite take_ge in H3 by auto.
Qed.

Lemma words_of_length text : (length (words_of text) ≤ length text)%nat.
Proof.
  cut (∀ cur, length (filter (λ w, 1 < length w) (runs cur text)) ≤ length text + min 1 (length cur))%nat.
  { intros H. specialize (H []). unfold words_of. cbn [length Nat.min] in H. lia. }
  induction text as [|c text IH]; intros cur; cbn [runs].
  - destruct (decide (1 < length cur)%nat); [rewrite filter_cons_True by done|rewrite filter_cons_False by done]; rewrite ?filter_nil; cbn [length]; lia.
  - destruct (isalpha c).
    + specialize (IH (cur ++ [tolower c])). rewrite length_app in IH. cbn [length] in *. lia.
    + specialize (IH []). destruct (decide (1 < length cur)%nat); [rewrite filter_cons_True by done|rewrite filter_cons_False by done];
        cbn [length] in *; lia.
Qed.

Lemma files_loop_ok texts : ∀ s p ws, counted s p ws → Forall (Forall is_u8) texts →
  Z.of_nat (length ws + length (concat texts)) < 2 ^ 31 → no_failure s →
  wp (files_loop (map Some texts) p) s (λ r s', outfile s' = outfile s ∧
    ∃ p', r = Some p' ∧ counted s' p' (ws ++ concat (map words_of texts))).
Proof.
  induction texts as [|text texts IH]; intros s p ws Hc Hu Hl Hn; cbn [map files_loop concat] in *.
  - wp_step. split; [done|]. exists p. by rewrite app_nil_r.
  - inversion Hu as [|? ? Hu1 Hu2]; subst. rewrite length_app in Hl. unfold open_file. wp_step. wp_step. wp_step.
    eapply wp_mono; [apply (count_words_ok _ p ws); [done|done|cbn; lia|done]|]. cbn [infile outfile].
    intros p1 s1 (E1&Hn1&Hc1). pose proof (words_of_length text).
    eapply wp_mono; [apply (IH s1 p1 (ws ++ words_of text)); [done|done|rewrite length_app; lia|done]|]. cbn beta.
    intros r s' (E2&p'&->&Hc'). rewrite <- app_assoc in Hc'. split; [congruence|eauto].
Qed.

Lemma print_sorted_ok s p ws : counted s p ws → outfile s = [] →
  wp (wclist ← wordcount_sort p less_count; fprint_words wclist;; ret 0) s (λ r s', r = 0 ∧
    ∃ lines, outfile s' = concat (map (λ x, count_line x.1 x.2) lines) ∧ StronglySorted line_before lines ∧
      ∀ w c, (w, c) ∈ lines ↔ c = occurrences w ws ∧ 0 < c).
Proof.
  intros (Hh&l&Hc&Hn&Hw&Ht) Ho. unfold wordcount_sort, fprint_words, node_fuel. wp_step. wp_step. wp_step.
  eapply wp_mono; [apply (sort_loop_ok less_count line_before less_count_spec line_before_total _ s p NULL l [])|].
  1,2: done.
  1,2: by rewrite app_nil_r.
  1: constructor.
  { pose proof (chain_size _ _ _ Hn Hc). lia. }
  cbn beta. intros r s' (h&m&->&Hd&Hc'&Hp&Hs). rewrite app_nil_r in Hp. do 3 wp_step.
  eapply wp_mono; [apply (fprint_loop_ok _ _ _ m); [done|]|].
  { assert (length m ≤ size h)%nat; [|cbn; lia]. apply (chain_size h r); [by rewrite Hp|done]. }
  cbn beta. intros [] s' E. wp_step. split; [done|]. exists m.*2. rewrite E. cbn. rewrite Ho. split_and!; [done..|].
  intros w c. by rewrite <- Ht, Hp.
Qed.

(** C35: the program [words] counts words.  For any files with fewer than
    2{^31} bytes together, and memory that suffices, [main] returns 0 and
    prints one line for every word of two letters or more in the files, letters
    taken in lower case, with the exact number of its occurrences in all files;
    the lines are in strictly increasing order of count, and of the word where
    the counts are the same.  With no file given, the words are those of the
    standard input. *)
Theorem words_counts_words texts stdin (used := if texts is [] then [stdin] else texts) :
  Forall (Forall is_u8) used → Z.of_nat (length (concat used)) < 2 ^ 31 →
  wp (main (map Some texts) stdin) start (λ r s', r = 0 ∧
    ∃ lines, outfile s' = concat (map (λ x, count_line x.1 x.2) lines) ∧ StronglySorted line_before lines ∧
      ∀ w c, (w, c) ∈ lines ↔ c = occurrences w (concat (map words_of used)) ∧ 0 < c).
Proof.
  intros Hu Hl.
  assert (counted start NULL []) as Hc.
  { split; [split; [done|]; cbn; intros a [? ?]; done|]. exists []. split_and!; [done|apply NoDup_nil_2|]. split; [apply NoDup_nil_2|].
    intros w c. unfold occurrences. cbn. split; [set_solver|lia]. }
  cut (∀ files, files = map Some used → wp (files_loop files init_words) start
    (λ r s', outfile s' = [] ∧ ∃ p', r = Some p' ∧ counted s' p' (concat (map words_of used)))).
  { intros H. unfold main. wp_step. destruct texts as [|text texts]; cbn [map].
    - specialize (H [Some stdin] eq_refl). cbn [files_loop] in H. apply wp_bind_inv in H. wp_step.
      eapply wp_mono; [exact H|]. intros [] s1 H1. apply wp_bind_inv in H1. wp_step. eapply wp_mono; [exact H1|]. cbn beta.
      intros p s2 H2. unfold wp, ret in H2. destruct H2 as (Ho&p'&[= <-]&H2). wp_step. by apply print_sorted_ok.
    - eapply wp_mono; [apply H; reflexivity|]. cbn beta. intros r s2 (Ho&p'&->&H2). by apply print_sorted_ok. }
  intros files ->. apply (files_loop_ok used start NULL []); [done|done|cbn; lia|constructor].
Qed.

Definition sample_text : list Z := chars "It is what it is".

Lemma words_counts_words_witness :
  Forall (Forall is_u8) [sample_text] ∧ ∃ out, outfile out = concat (map (λ x, count_line x.1 x.2) [(chars "what", 1); (chars "is", 2); (chars "it", 2)]) ∧
  main [Some sample_text] [] start = Ret (0, out) ∧
  wp (main (map Some [sample_text]) []) start (λ r s', r = 0 ∧
    ∃ lines, outfile s' = concat (map (λ x, count_line x.1 x.2) lines) ∧ StronglySorted line_before lines ∧
      ∀ w c, (w, c) ∈ lines ↔ c = occurrences w (concat (map words_of [sample_text])) ∧ 0 < c).
Proof.
  assert (Forall (Forall is_u8) [sample_text]) as Hu by (apply (bool_decide_unpack _); by vm_compute).
  split; [exact Hu|]. eexists. split; [|split; [vm_compute; reflexivity|]]; [by vm_compute|].
  apply (words_counts_words [sample_text] []); [exact Hu|by vm_compute].
Defined.
