(* ===== verification/WordCountP.v ===== *)
(** * The parallel word count homework (src/personal/hw1: word_count_p.c,
    pwords.c)

    The program [pwords]: one thread per file counts the words of its file in a
    list that all threads share.  [step] is one access of one thread to the
    shared list or its lock: a look at one element in [find_word], which runs
    without the lock, taking the lock, the update, and giving the lock back.
    Elements are only ever appended to the list, so that an element is named by
    its position.  The accesses of the threads are interleaved in any order
    (sequential consistency). *)

From stdpp Require Import gmap sorting.
From S2P Require Import Prelude Stdio WordCount.
Local Open Scope Z_scope.

(** ** State and operations *)

(** Where a thread is in [count_words] and [add_word]. *)
Inductive place :=
| Counting                              (** before the next word *)
| Finding (w : list Z) (i : nat)        (** in the loop of [find_word] *)
| Acquiring (w : list Z) (wc : option nat)
| Updating (w : list Z) (wc : option nat)
| Releasing.

(** A thread: the words of its file that are left, and its place. *)
Record pthread := PThread { todo : list (list Z); at_place : place }.

#[export] Instance place_eq_dec : EqDecision place.
Proof. solve_decision. Defined.
#[export] Instance pthread_eq_dec : EqDecision pthread.
Proof. solve_decision. Defined.

(** The list and its lock, the threads, and, for the record, the words whose
    [add_word] did its update and the words given up when memory was short. *)
Record pworld := PWorld {
  lst : list (list Z * Z); lock : option nat; pthreads : list pthread;
  added : list (list Z); given_up : list (list Z) }.

Definition set_pthread (t : nat) (th : pthread) : M pworld unit :=
  modify (λ s, PWorld (lst s) (lock s) (<[t := th]> (pthreads s)) (added s) (given_up s)).

Definition set_lock (o : option nat) : M pworld unit :=
  modify (λ s, PWorld (lst s) o (pthreads s) (added s) (given_up s)).

(** One turn of the loop of [find_word]. *)
Definition find_step (t : nat) (ws : list (list Z)) (w : list Z) (i : nat) : M pworld unit :=
  s ← get_state;
  match lst s !! i with
  | Some (v, _) =>
      if strcmp v w =? 0 then set_pthread t (PThread ws (Acquiring w (Some i))) else set_pthread t (PThread ws (Finding w (S i)))
  | None => set_pthread t (PThread ws (Acquiring w None))
  end.

(** The statements of [add_word] between the lock operations.  When memory is
    short, [add_word] returns [NULL] and [count_words] gives up its file. *)
Definition update_step (t : nat) (ws : list (list Z)) (w : list Z) (wc : option nat) (memory : bool) : M pworld unit :=
  s ← get_state;
  match wc with
  | Some i =>
      ' (v, c) ← deref (lst s !! i);
      put_state (PWorld (<[i := (v, s32 (c + 1))]> (lst s)) (lock s) (pthreads s) (added s ++ [w]) (given_up s));;
      set_pthread t (PThread ws Releasing)
  | None =>
      if memory then
        put_state (PWorld (lst s ++ [(w, 1)]) (lock s) (pthreads s) (added s ++ [w]) (given_up s));;
        set_pthread t (PThread ws Releasing)
      else
        put_state (PWorld (lst s) (lock s) (pthreads s) (added s) (given_up s ++ w :: ws));;
        set_pthread t (PThread [] Releasing)
  end.

(** A step of thread [t]; false when it has finished or waits for the lock.
    [memory] is the outcome of [malloc]. *)
Definition step (t : nat) (memory : bool) : M pworld bool :=
  s ← get_state;
  match pthreads s !! t with
  | None => ret false
  | Some (PThread ws Counting) =>
      match ws with
      | [] => ret false
      | w :: ws => set_pthread t (PThread ws (Finding w 0));; ret true
      end
  | Some (PThread ws (Finding w i)) => find_step t ws w i;; ret true
  | Some (PThread ws (Acquiring w wc)) =>
      match lock s with
      | None => set_lock (Some t);; set_pthread t (PThread ws (Updating w wc));; ret true
      | Some _ => ret false
      end
  | Some (PThread ws (Updating w wc)) => update_step t ws w wc memory;; ret true
  | Some (PThread ws Releasing) => set_lock None;; set_pthread t (PThread ws Counting);; ret true
  end.

(** [main]: an empty list, a thread for each file. *)
Definition pstart (texts : list (list Z)) : pworld :=
  PWorld [] None (map (λ text, PThread (words_of text) Counting) texts) [] [].

(** The states after [n] steps of any threads in any order. *)
Inductive preachable (texts : list (list Z)) : nat → pworld → Prop :=
| preach_start : preachable texts 0 (pstart texts)
| preach_step n s t memory s' : preachable texts n s → step t memory s = Ret (true, s') → preachable texts (S n) s'.

Definition finished (s : pworld) : Prop := Forall (λ th, th = PThread [] Counting) (pthreads s).

(** [less_list], the order of the output: it does not call [less]. *)
Definition less_list (wc1 wc2 : list Z * Z) : bool :=
  if negb (wc1.2 =? wc2.2) then wc1.2 <? wc2.2 else strcmp wc1.1 wc2.1 <? 0.

(** ** The invariant *)

(** The words a thread has still to add. *)
Definition pending (th : pthread) : list (list Z) :=
  match at_place th with
  | Finding w _ | Acquiring w _ | Updating w _ => w :: todo th
  | _ => todo th
  end.

(** What the elements for a word count together. *)
Definition total (w : list Z) (l : list (list Z * Z)) : Z := foldr Z.add 0 (map snd (filter (λ x, x.1 = w) l)).

(** The element a thread has found is one for its word. *)
Definition found_ok (l : list (list Z * Z)) (th : pthread) : Prop :=
  match at_place th with
  | Acquiring w (Some i) | Updating w (Some i) => ∃ c, l !! i = Some (w, c)
  | Finding w i => (i ≤ length l)%nat
  | _ => True
  end.

Definition in_section (th : pthread) : Prop :=
  match at_place th with Updating _ _ | Releasing => True | _ => False end.

Record pinv (texts : list (list Z)) (s : pworld) : Prop := PInv {
  pinv_total : ∀ w, total w (lst s) = occurrences w (added s);
  pinv_counts : Forall (λ x, 0 < x.2) (lst s);
  pinv_length : (length (lst s) ≤ length (added s))%nat;
  pinv_found : Forall (found_ok (lst s)) (pthreads s);
  pinv_words : added s ++ given_up s ++ concat (map pending (pthreads s)) ≡ₚ concat (map words_of texts);
  pinv_lock : ∀ t th, pthreads s !! t = Some th → (lock s = Some t ↔ in_section th);
  pinv_holder : ∀ t, lock s = Some t → is_Some (pthreads s !! t) }.

Lemma total_app w l1 l2 : total w (l1 ++ l2) = total w l1 + total w l2.
Proof.
  unfold total. induction l1 as [|x l1 IH]; [done|]. cbn [app].
  destruct (decide (x.1 = w)); [rewrite !filter_cons_True by done|rewrite !filter_cons_False by done]; cbn in *; lia.
Qed.

Lemma total_single w v c : total w [(v, c)] = if decide (v = w) then c else 0.
Proof.
  unfold total. destruct (decide (v = w)); [rewrite filter_cons_True by done|rewrite filter_cons_False by done]; cbn; lia.
Qed.

Lemma total_nonneg w l : Forall (λ x, 0 < x.2) l → 0 ≤ total w l.
Proof.
  intros H. unfold total. induction H as [|x l Hx _ IH]; [done|].
  destruct (decide (x.1 = w)); [rewrite filter_cons_True by done|rewrite filter_cons_False by done]; cbn in *; lia.
Qed.

Lemma total_lookup w l i v c : l !! i = Some (v, c) →
  total w l = total w (take i l) + (if decide (v = w) then c else 0) + total w (drop (S i) l).
Proof.
  intros H. rewrite <- (take_drop_middle l i (v, c)) at 1 by done. rewrite cons_middle, !total_app, total_single. lia.
Qed.

Lemma total_insert w l i v c c' : l !! i = Some (v, c) →
  total w (<[i := (v, c')]> l) = total w l + (if decide (v = w) then c' - c else 0).
Proof.
  intros H. pose proof (lookup_lt_Some _ _ _ H). rewrite (total_lookup w l i v c H).
  rewrite (total_lookup w (<[i := (v, c')]> l) i v c') by (by apply list_lookup_insert_eq).
  rewrite take_insert_ge, drop_insert_lt by lia. destruct (decide (v = w)); lia.
Qed.

(** Elements stay where they are and keep their words. *)
Definition grows (l l' : list (list Z * Z)) : Prop :=
  (length l ≤ length l')%nat ∧ ∀ i w c, l !! i = Some (w, c) → ∃ c', l' !! i = Some (w, c').

Lemma grows_refl l : grows l l.
Proof. split; eauto. Qed.

Lemma grows_app l x : grows l (l ++ [x]).
Proof. split; [rewrite length_app; lia|]. intros i w c H. exists c. by apply lookup_app_l_Some. Qed.

Lemma grows_insert l i v c c' : l !! i = Some (v, c) → grows l (<[i := (v, c')]> l).
Proof.
  intros H. split; [by rewrite length_insert|]. intros j w d Hj. destruct (decide (i = j)) as [<-|Hne].
  - rewrite H in Hj. injection Hj as <- <-. exists c'. apply list_lookup_insert_eq. by eapply lookup_lt_Some.
  - exists d. by rewrite list_lookup_insert_ne.
Qed.

Lemma found_ok_grows l l' th : grows l l' → found_ok l th → found_ok l' th.
Proof. intros [H1 H2]. unfold found_ok. destruct (at_place th) as [| |? [] |? []|]; auto; [lia|intros [c ?]; eauto..]. Qed.

Lemma pending_insert ths t th th' : ths !! t = Some th → ∃ rest,
  concat (map pending ths) ≡ₚ pending th ++ rest ∧ concat (map pending (<[t := th']> ths)) ≡ₚ pending th' ++ rest.
Proof.
  intros H. pose proof (lookup_lt_Some _ _ _ H) as Hl. exists (concat (map pending (take t ths)) ++ concat (map pending (drop (S t) ths))). split.
  - rewrite <- (take_drop_middle ths t th) at 1 by done. rewrite map_app, concat_app. cbn [map concat].
    rewrite !app_assoc. by rewrite (Permutation_app_comm (pending th)).
  - rewrite insert_take_drop by done. rewrite map_app, concat_app. cbn [map concat].
    rewrite !app_assoc. by rewrite (Permutation_app_comm (pending th')).
Qed.

(** A step of one thread keeps the invariant when it does its part. *)
Lemma pinv_advance texts s t th l' lock' th' added' given' : pinv texts s → pthreads s !! t = Some th →
  (∀ w, total w l' = occurrences w added') → Forall (λ x, 0 < x.2) l' → (length l' ≤ length added')%nat →
  grows (lst s) l' → found_ok l' th' → added' ++ given' ++ pending th' ≡ₚ added s ++ given_up s ++ pending th →
  (lock' = Some t ↔ in_section th') → (∀ t', t' ≠ t → lock' = Some t' ↔ lock s = Some t') →
  pinv texts (PWorld l' lock' (<[t := th']> (pthreads s)) added' given').
Proof.
  intros [H1 H2 H3 H4 H5 H6 H7] Ht Htot Hc Hl Hg Hf Hp Hlk Hlk'. pose proof (lookup_lt_Some _ _ _ Ht) as Hlt.
  split; cbn; [done..| | | |].
  - apply Forall_insert; [|done]. eapply Forall_impl; [done|]. intros x. by apply found_ok_grows.
  - destruct (pending_insert (pthreads s) t th th' Ht) as (rest&Hr1&Hr2). rewrite Hr2. rewrite Hr1 in H5. rewrite <- H5.
    apply (Permutation_app_tail rest) in Hp. by rewrite <- !app_assoc in Hp.
  - intros t' x. destruct (decide (t' = t)) as [->|Hne].
    + rewrite list_lookup_insert_eq by done. by intros [= <-].
    + rewrite list_lookup_insert_ne by done. rewrite Hlk' by done. apply H6.
  - intros t'. destruct (decide (t' = t)) as [->|Hne]; [intros _; rewrite list_lookup_insert_eq by done; by eexists|].
    rewrite list_lookup_insert_ne by done. rewrite Hlk' by done. apply H7.
Qed.

Ltac advance := eapply pinv_advance; cbn; try done; try apply grows_refl.

(** What a step does keeps the invariant, and no step goes wrong. *)
Definition few_words (texts : list (list Z)) : Prop := Z.of_nat (length (concat (map words_of texts))) < 2 ^ 31.

(** A count has room for the word of a thread that still has one. *)
Lemma count_bound texts s i w c t th : few_words texts → pinv texts s → lst s !! i = Some (w, c) →
  pthreads s !! t = Some th → pending th ≠ [] → 0 < c ∧ c + 1 < 2 ^ 31.
Proof.
  intros Hfew [H1 H2 H3 H4 H5 H6 H7] Hi Ht Hp. destruct (pending_insert (pthreads s) t th th Ht) as (rest&Hr&_).
  rewrite Hr in H5. apply Permutation_length in H5. rewrite !length_app in H5.
  assert (0 < length (pending th))%nat by (destruct (pending th); [done|cbn; lia]).
  specialize (H1 w). pose proof (occurrences_le w (added s)).
  assert (0 < c) by (eapply (proj1 (Forall_lookup _ _) H2 i (w, c)); exact Hi).
  assert (c ≤ total w (lst s)).
  { rewrite (total_lookup w _ i w c Hi), decide_True by done.
    pose proof (total_nonneg w (take i (lst s)) (Forall_take _ _ _ H2)).
    pose proof (total_nonneg w (drop (S i) (lst s)) (Forall_drop _ _ _ H2)). lia. }
  unfold few_words in Hfew. lia.
Qed.

Lemma step_inv texts s t memory : few_words texts → pinv texts s →
  wp (step t memory) s (λ b s', if b then pinv texts s' else s' = s).
Proof.
  intros Hfew Hi. pose proof Hi as [H1 H2 H3 H4 H5 H6 H7]. unfold step. wp_step. wp_step.
  destruct (pthreads s !! t) as [[ws pl]|] eqn:Ht; [|by wp_step]. pose proof (H6 t _ Ht) as Hlk.
  assert (found_ok (lst s) (PThread ws pl)) as Hf by (by eapply (proj1 (Forall_lookup _ _) H4)).
  destruct pl as [|w i|w wc|w wc|]; cbn in Hlk.
  - destruct ws as [|w ws]; [by wp_step|]. unfold set_pthread. wp_steps. cbn.
    advance. lia.
  - unfold find_step, set_pthread. wp_step. wp_step. wp_step. destruct (lst s !! i) as [[v c]|] eqn:Ei.
    + destruct (Z.eqb_spec (strcmp v w) 0) as [E|E]; wp_steps; cbn.
      * apply strcmp_eq in E as ->. advance. by exists c.
      * advance. apply lookup_lt_Some in Ei. lia.
    + wp_steps. cbn. advance.
  - destruct (lock s) as [h|] eqn:El; [by wp_step|]. unfold set_lock, set_pthread. wp_steps. cbn.
    advance. intros t' Hne. split; [by intros [= ->]|congruence].
  - assert (lock s = Some t) as El by (by apply Hlk). unfold update_step, set_pthread. wp_step. wp_step. wp_step. destruct wc as [i|].
    + destruct Hf as [c Hc]. wp_step. eapply wp_deref; [done|]. wp_steps. cbn.
      destruct (count_bound texts s i w c t _ Hfew Hi Hc Ht) as [Hc0 Hc1]; [done|]. rewrite s32_small by word_lia. advance.
      * intros v. rewrite (total_insert v _ i w c) by done. rewrite H1, occurrences_snoc. destruct (decide (w = v)); lia.
      * apply Forall_insert; [done|cbn; lia].
      * rewrite length_insert, length_app. lia.
      * by eapply grows_insert.
      * rewrite <- app_assoc. apply Permutation_app_head. cbn. apply Permutation_middle.
    + destruct memory; wp_steps; cbn; advance.
      * intros v. rewrite total_app, total_single, H1, occurrences_snoc. done.
      * apply Forall_app. split; [done|]. by constructor.
      * rewrite !length_app. cbn. lia.
      * apply grows_app.
      * rewrite <- app_assoc. apply Permutation_app_head. cbn. apply Permutation_middle.
      * by rewrite app_nil_r.
  - unfold set_lock, set_pthread. wp_steps. cbn. advance.
    intros t' Hne. destruct Hlk as [_ Hlk]. rewrite Hlk by done. split; [done|by intros [= ->]].
Qed.

Lemma pstart_inv texts : pinv texts (pstart texts).
Proof.
  split; cbn; [done|constructor|done| | | |done].
  - apply Forall_forall. intros th (text&->&_)%list_elem_of_fmap. done.
  - rewrite map_map. done.
  - intros t th H. apply list_lookup_fmap_Some in H as (text&->&_). done.
Qed.

Lemma preachable_inv texts n s : few_words texts → preachable texts n s → pinv texts s.
Proof.
  intros Hfew. induction 1 as [|n s t memory s' _ IH Hs]; [apply pstart_inv|].
  pose proof (step_inv texts s t memory Hfew IH) as H. unfold wp in H. rewrite Hs in H. exact H.
Qed.

(** ** Termination *)

Section measure.
Context (N : nat).

(** The steps a thread can still take when no list has more than [N] elements. *)
Definition thread_measure (th : pthread) : nat :=
  length (todo th) * (N + 5) +
  match at_place th with Counting => 0 | Finding _ i => N + 4 - i | Acquiring _ _ => 3 | Updating _ _ => 2 | Releasing => 1 end.

Definition measure (s : pworld) : nat := sum_list (map thread_measure (pthreads s)).

Lemma measure_insert s t th th' l lk a g : pthreads s !! t = Some th → (thread_measure th' < thread_measure th)%nat →
  (measure (PWorld l lk (<[t := th']> (pthreads s)) a g) < measure s)%nat.
Proof.
  intros H Hm. unfold measure. cbn [pthreads]. rewrite insert_take_drop by (by eapply lookup_lt_Some).
  rewrite <- (take_drop_middle (pthreads s) t th) at 3 by done. rewrite !map_app, !sum_list_with_app. cbn. lia.
Qed.
End measure.

Ltac decrease := cbn [lst lock pthreads added given_up]; eapply measure_insert; [done|unfold thread_measure; cbn; lia].

Lemma step_measure texts s t memory s' (N := length (concat (map words_of texts))) : pinv texts s →
  step t memory s = Ret (true, s') → (measure N s' < measure N s)%nat.
Proof.
  intros [H1 H2 H3 H4 H5 H6 H7] Hs.
  assert (pwp (step t memory) s (λ b s', b = true → measure N s' < measure N s)%nat) as H;
    [|unfold pwp in H; rewrite Hs in H; by apply H]. clear Hs s'.
  assert (length (added s) ≤ N)%nat as Ha by (unfold N; rewrite <- H5, length_app; lia).
  unfold step. pwp_step. pwp_step. destruct (pthreads s !! t) as [[ws pl]|] eqn:Ht; [|by pwp_step].
  assert (found_ok (lst s) (PThread ws pl)) as Hf by (by eapply (proj1 (Forall_lookup _ _) H4)).
  destruct pl as [|w i|w wc|w wc|]; cbn in Hf.
  - destruct ws as [|w ws]; [by pwp_step|]. unfold set_pthread. pwp_steps. intros _. decrease.
  - unfold find_step, set_pthread. pwp_step. pwp_step. pwp_step. destruct (lst s !! i) as [[v c]|] eqn:Ei.
    + apply lookup_lt_Some in Ei. destruct (strcmp v w =? 0); pwp_steps; intros _; decrease.
    + pwp_steps. intros _. decrease.
  - destruct (lock s) as [h|]; [by pwp_step|]. unfold set_lock, set_pthread. pwp_steps. intros _. decrease.
  - unfold update_step, set_pthread. pwp_step. pwp_step. pwp_step. destruct wc as [i|].
    + pwp_step. apply pwp_deref. intros [v c] _. pwp_steps. intros _. decrease.
    + destruct memory; pwp_steps; intros _; decrease.
  - unfold set_lock, set_pthread. pwp_steps. intros _. decrease.
Qed.

Lemma preachable_bound texts n s (N := length (concat (map words_of texts))) : few_words texts → preachable texts n s →
  (n + measure N s ≤ N * (N + 5))%nat.
Proof.
  intros Hfew. induction 1 as [|n s t memory s' Hr IH Hs].
  - assert (∀ ths, sum_list (map (thread_measure N) (map (λ text, PThread (words_of text) Counting) ths)) =
      length (concat (map words_of ths)) * (N + 5))%nat as E; [|unfold measure; cbn [pstart pthreads]; rewrite E; unfold N; lia].
    induction ths as [|text ths IH]; [done|]. cbn [map concat]. rewrite length_app. unfold thread_measure in *. cbn in *. lia.
  - pose proof (step_measure texts s t memory s' (preachable_inv _ _ _ Hfew Hr) Hs). cbn in *. fold N in H. lia.
Qed.

(** While a thread has not finished, one can go on: the holder of the lock, or
    any other when it is free. *)
Lemma unfinished_moves texts s : few_words texts → pinv texts s → ¬ finished s → ∃ t s', step t true s = Ret (true, s').
Proof.
  intros Hfew Hi Hn. cut (∃ t, wp (step t true) s (λ b _, b = true)).
  { intros [t H]. exists t. apply wp_outcome in H as (b&s'&E&->). by exists s'. }
  pose proof Hi as [H1 H2 H3 H4 H5 H6 H7]. destruct (lock s) as [h|] eqn:El.
  - destruct (H7 h eq_refl) as [th Hth]. exists h. pose proof (proj1 (H6 h th Hth) eq_refl) as Hs.
    destruct th as [ws pl]. destruct pl as [| | |w wc|]; cbn in Hs; try done; unfold step; wp_step; wp_step; rewrite Hth.
    + unfold update_step, set_pthread. wp_step. wp_step. wp_step. destruct wc as [i|]; [|by wp_steps].
      destruct (proj1 (Forall_lookup _ _) H4 h _ Hth) as [c Hc]. wp_step. eapply wp_deref; [done|]. by wp_steps.
    + unfold set_lock, set_pthread. by wp_steps.
  - assert (∃ t th, pthreads s !! t = Some th ∧ th ≠ PThread [] Counting) as (t&th&Ht&Hne).
    { apply not_Forall_Exists in Hn; [|intros ?; apply _]. apply Exists_exists in Hn as (th&Hin&Hth).
      apply list_elem_of_lookup in Hin as [t Ht]. by exists t, th. }
    exists t. assert (¬ in_section th) as Hns by (intros Hs; apply (H6 t th Ht) in Hs; done).
    unfold step. wp_step. wp_step. rewrite Ht, El. destruct th as [ws [|w i|w wc|w wc|]]; cbn in Hns; try done.
    + destruct ws; [done|]. unfold set_pthread. by wp_steps.
    + unfold find_step, set_pthread. wp_step. wp_step. wp_step.
      destruct (lst s !! i) as [[v c]|]; [destruct (strcmp v w =? 0)|]; by wp_steps.
Qed.

(** ** Theorems *)

(** C34: no count is lost, however the threads of [pwords] are interleaved.  For
    files with fewer than 2{^31} words, in every reachable state: no thread
    follows a wild pointer; at most one thread is between lock and unlock; the
    elements of a word count together exactly the calls of [add_word] for it
    that have done their update; a state in which no thread can move is one
    where all have finished, and then, unless memory was short, the elements of
    each word count together its occurrences in all files.  Every run ends
    within [N * (N + 5)] steps for [N] words. *)
Theorem pwords_loses_no_count texts n s (N := length (concat (map words_of texts))) :
  few_words texts → preachable texts n s →
  (∀ t memory, ∃ b s', step t memory s = Ret (b, s')) ∧
  (∀ t1 t2 th1 th2, pthreads s !! t1 = Some th1 → pthreads s !! t2 = Some th2 → in_section th1 → in_section th2 → t1 = t2) ∧
  (∀ w, total w (lst s) = occurrences w (added s)) ∧
  (n ≤ N * (N + 5))%nat ∧
  (finished s ∨ ∃ t s', step t true s = Ret (true, s')) ∧
  (finished s → given_up s = [] → ∀ w, total w (lst s) = occurrences w (concat (map words_of texts))).
Proof.
  intros Hfew Hr. pose proof (preachable_inv texts n s Hfew Hr) as Hi. pose proof (preachable_bound texts n s Hfew Hr) as Hb.
  pose proof Hi as [H1 H2 H3 H4 H5 H6 H7]. split_and!.
  - intros t memory. pose proof (step_inv texts s t memory Hfew Hi) as H. apply wp_outcome in H as (b&s'&E&_). eauto.
  - intros t1 t2 th1 th2 E1 E2 Hs1 Hs2. apply (H6 _ _ E1) in Hs1. apply (H6 _ _ E2) in Hs2. congruence.
  - done.
  - fold N in Hb. lia.
  - destruct (decide (Forall (λ th, th = PThread [] Counting) (pthreads s))); [by left|right]. by apply (unfinished_moves texts).
  - intros Hf Hg w. rewrite H1. unfold occurrences. f_equal. apply Permutation_length. rewrite <- H5, Hg.
    assert (concat (map pending (pthreads s)) = []) as ->; [|by rewrite app_nil_r].
    clear -Hf. unfold finished in Hf. induction Hf as [|th ths -> _ IH]; [done|exact IH].
Qed.

(** Runs of the threads in a given order. *)
Fixpoint steps (ts : list nat) : M pworld bool :=
  match ts with
  | [] => ret true
  | t :: ts => b ← step t true; if b : bool then steps ts else ret false
  end.

Lemma psteps_reachable texts ts : ∀ n s s', preachable texts n s → steps ts s = Ret (true, s') → preachable texts (length ts + n) s'.
Proof.
  induction ts as [|t ts IH]; intros n s s' Hr H; cbn [steps length] in *; [by injection H as <-|].
  unfold bind in H. destruct (step t true s) as [[[] s1]|] eqn:E; [|done..]. replace (S (length ts) + n)%nat with (length ts + S n)%nat by lia.
  eapply IH; [|exact H]. by econstructor.
Qed.

Definition two_files : list (list Z) := [chars "the"; chars "the"].
Definition both_find_first : list nat := [0; 0; 1; 1; 0; 0; 0; 1; 1; 1]%nat.
Definition listed_twice : pworld :=
  PWorld [(chars "the", 1); (chars "the", 1)] None [PThread [] Counting; PThread [] Counting] [chars "the"; chars "the"] [].

(** Steps of any threads from a state on. *)
Definition psteps : pworld → pworld → Prop := rtc (λ s s', ∃ t memory, step t memory s = Ret (true, s')).

(** A thread that has looked for the word in vain and has not added it yet. *)
Definition missed (w : list Z) (th : pthread) : Prop := at_place th = Acquiring w None ∨ at_place th = Updating w None.
#[export] Instance missed_dec w th : Decision (missed w th).
Proof. unfold missed. apply _. Defined.

Definition elements_for (w : list Z) (l : list (list Z * Z)) : nat := length (filter (λ x, x.1 = w) l).
Definition missing (w : list Z) (ths : list pthread) : nat := length (filter (missed w) ths).

Lemma filter_replace {A} (P : A → Prop) `{!∀ x, Decision (P x)} (l : list A) i x y : l !! i = Some x →
  (length (filter P (<[i := y]> l)) + (if decide (P x) then 1 else 0) = length (filter P l) + (if decide (P y) then 1 else 0))%nat.
Proof.
  intros Hx. pose proof (lookup_lt_Some _ _ _ Hx). rewrite insert_take_drop by done.
  rewrite <- (take_drop_middle l i x) at 3 by done. rewrite !filter_app, !filter_cons, !length_app.
  repeat case_decide; cbn [length]; lia.
Qed.

(** Every element for the word and every thread that will append one stays. *)
Lemma step_missing w t memory s s' :
  step t memory s = Ret (true, s') →
  ∃ x, given_up s' = given_up s ++ x ∧ (x = [] →
   elements_for w (lst s) + missing w (pthreads s) ≤ elements_for w (lst s') + missing w (pthreads s'))%nat.
Proof.
  unfold step, bind, get_state. destruct (pthreads s !! t) as [[ws [|v i|v wc|v wc|]]|] eqn:Ht; [..|done].
  - destruct ws as [|v ws]; [done|]. intros [= <-]. cbn [lst pthreads given_up]. exists []. rewrite app_nil_r. split; [done|]. intros _.
    pose proof (filter_replace (missed w) _ t _ (PThread ws (Finding v 0)) Ht) as E. unfold missing.
    rewrite (decide_False (P := missed w (PThread (v :: ws) _))) in E by (by intros [?|?]). lia.
  - unfold find_step, bind, get_state. destruct (lst s !! i) as [[u c]|]; [destruct (strcmp u v =? 0)|];
      intros [= <-]; cbn [lst pthreads given_up]; exists []; rewrite app_nil_r; (split; [done|]); intros _; unfold missing;
      [pose proof (filter_replace (missed w) _ t _ (PThread ws (Acquiring v (Some i))) Ht) as E
      |pose proof (filter_replace (missed w) _ t _ (PThread ws (Finding v (S i))) Ht) as E
      |pose proof (filter_replace (missed w) _ t _ (PThread ws (Acquiring v None)) Ht) as E];
      rewrite (decide_False (P := missed w (PThread ws (Finding v i)))) in E by (by intros [?|?]); lia.
  - destruct (lock s); [done|]. intros [= <-]. cbn [lst pthreads given_up]. exists []. rewrite app_nil_r. split; [done|]. intros _. unfold missing.
    pose proof (filter_replace (missed w) _ t _ (PThread ws (Updating v wc)) Ht) as E.
    destruct (decide (missed w (PThread ws (Acquiring v wc)))) as [Hm|Hm]; [|lia].
    rewrite (decide_True (P := missed w (PThread ws (Updating v wc)))) in E; [lia|].
    destruct Hm as [[= -> ->]|?]; [by right|done].
  - unfold update_step, bind, get_state. pose proof (filter_replace (missed w) _ t _ (PThread ws Releasing) Ht) as E.
    rewrite (decide_False (P := missed w (PThread ws Releasing))) in E by (by intros [?|?]). destruct wc as [i|].
    + destruct (lst s !! i) as [[u c]|] eqn:Hi; [|done]. intros [= <-]. cbn [lst pthreads given_up]. exists []. rewrite app_nil_r. split; [done|]. intros _. unfold missing, elements_for.
      rewrite (decide_False (P := missed w (PThread ws (Updating v (Some i))))) in E by (by intros [?|?]).
      pose proof (filter_replace (λ x, x.1 = w) _ i _ (u, s32 (c + 1)) Hi) as E'. cbn in E'. lia.
    + destruct memory; intros [= <-]; cbn [lst pthreads given_up].
      * exists []. rewrite app_nil_r. split; [done|]. intros _. unfold missing, elements_for. rewrite filter_app, length_app, filter_cons. cbn [fst].
        destruct (decide (v = w)) as [->|Hne]; [cbn; case_decide; lia|].
        rewrite (decide_False (P := missed w (PThread ws (Updating v None)))) in E by (by intros [?|[= ?]]). lia.
      * by eexists.
  - intros [= <-]. cbn [lst pthreads given_up]. exists []. rewrite app_nil_r. split; [done|]. intros _. unfold missing.
    pose proof (filter_replace (missed w) _ t _ (PThread ws Counting) Ht) as E.
    rewrite (decide_False (P := missed w (PThread ws Releasing))) in E by (by intros [?|?]). lia.
Qed.

Lemma psteps_missing w s s' : psteps s s' →
  ∃ x, given_up s' = given_up s ++ x ∧ (x = [] →
   elements_for w (lst s) + missing w (pthreads s) ≤ elements_for w (lst s') + missing w (pthreads s'))%nat.
Proof.
  induction 1 as [s|s s1 s2 (t&memory&H) _ (x2&E2&IH)]; [exists []; by rewrite app_nil_r|].
  destruct (step_missing w t memory s s1 H) as (x1&E1&H1). exists (x1 ++ x2). split; [by rewrite E2, E1, app_assoc|].
  intros [-> ->]%app_nil. specialize (H1 eq_refl). specialize (IH eq_refl). lia.
Qed.

Lemma missing_two w ths t t' th th' : t ≠ t' → ths !! t = Some th → ths !! t' = Some th' → missed w th → missed w th' →
  (2 ≤ missing w ths)%nat.
Proof.
  intros Hne Ht Ht' Hm Hm'. unfold missing.
  pose proof (filter_replace (missed w) ths t th (PThread [] Counting) Ht) as E.
  pose proof (filter_replace (missed w) (<[t := PThread [] Counting]> ths) t' th' (PThread [] Counting)) as E'.
  rewrite list_lookup_insert_ne in E' by done. specialize (E' Ht').
  rewrite (decide_True (P := missed w th)) in E by done. rewrite (decide_True (P := missed w th')) in E' by done.
  rewrite (decide_False (P := missed w (PThread [] Counting))) in E, E' by (by intros [?|?]). lia.
Qed.

(** C39: [pwords] lists a word twice when two threads miss it.  [add_word] looks
    for the word before it takes the lock and does not look again.  Take any
    state of any number of threads in which two threads have looked for the same word in
    vain and neither has added it yet ([missed]), and any run of the threads
    from there to the end in which memory sufficed: the list then has at least
    two elements for the word. *)
Theorem pwords_lists_word_twice s s' t t' th th' w :
  t ≠ t' → pthreads s !! t = Some th → pthreads s !! t' = Some th' →
  missed w th → missed w th' → psteps s s' → finished s' → given_up s' = [] →
  (2 ≤ elements_for w (lst s'))%nat.
Proof.
  intros Hne Ht Ht' Hm Hm' Hs Hf Hg. pose proof (missing_two w _ _ _ _ _ Hne Ht Ht' Hm Hm') as H2.
  destruct (psteps_missing w s s' Hs) as (x&Hx&H4).
  rewrite Hg in Hx. symmetry in Hx. apply app_nil in Hx as [_ Hx]. specialize (H4 Hx).
  enough (missing w (pthreads s') = 0%nat) by lia. unfold missing, finished in *.
  clear -Hf. induction Hf as [|x l -> _ IH]; [done|]. rewrite filter_cons_False; [done|]. by intros [?|?].
Qed.

(** Two threads with the word "the" each, which look for it one after the
    other; then both go on to the end. *)
Definition both_missed : pworld :=
  PWorld [] None [PThread [] (Acquiring (chars "the") None); PThread [] (Acquiring (chars "the") None)] [] [].

Lemma steps_psteps ts : ∀ s s', steps ts s = Ret (true, s') → psteps s s'.
Proof.
  induction ts as [|t ts IH]; intros s s' H; cbn [steps] in H; [injection H as <-; apply rtc_refl|].
  unfold bind in H. destruct (step t true s) as [[[] s1]|] eqn:E; [|done..]. eapply rtc_l; [by exists t, true|by apply IH].
Qed.

Lemma pwords_lists_word_twice_witness :
  preachable two_files 4 both_missed ∧ psteps both_missed listed_twice ∧ finished listed_twice ∧
  (2 ≤ elements_for (chars "the") (lst listed_twice))%nat ∧ occurrences (chars "the") (concat (map words_of two_files)) = 2.
Proof.
  assert (preachable two_files 4 both_missed) as Hr.
  { apply (psteps_reachable two_files (take 4 both_find_first) 0 (pstart two_files)); [constructor|]. by vm_compute. }
  assert (psteps both_missed listed_twice) as Hs by (apply (steps_psteps (drop 4 both_find_first)); by vm_compute).
  assert (finished listed_twice) as Hf by (by repeat constructor).
  split; [exact Hr|]. split; [exact Hs|]. split; [exact Hf|]. split; [|by vm_compute].
  eapply (pwords_lists_word_twice both_missed listed_twice 0 1); [done|reflexivity|reflexivity|by left|by left|exact Hs|exact Hf|reflexivity].
Defined.

Lemma pwords_loses_no_count_witness :
  few_words two_files ∧ preachable two_files 10 listed_twice ∧
  total (chars "the") (lst listed_twice) = occurrences (chars "the") (concat (map words_of two_files)).
Proof.
  assert (few_words two_files) as Hfew by (by vm_compute).
  assert (preachable two_files 10 listed_twice) as Hr.
  { apply (psteps_reachable two_files both_find_first 0 (pstart two_files)); [constructor|]. by vm_compute. }
  split_and!; [exact Hfew|exact Hr|].
  apply (pwords_loses_no_count two_files 10 listed_twice Hfew Hr); [by repeat constructor|done].
Defined.
