(* ===== verification/WorkQueue.v ===== *)
(** * The work queue of the web server homework (src/personal/hw4: wq.c, wq.h,
    the macros [DL_APPEND] and [DL_DELETE] of utlist.h)

    A queue of client sockets, shared by the thread that accepts connections
    ([wq_push]) and the threads of the pool ([wq_pop]): a doubly linked list of
    items on the heap, a mutex and a condition variable.  What a thread does
    while it holds the mutex is one step; the steps of the threads are
    interleaved in any order, and a wait may end without a broadcast, as POSIX
    allows. *)

From stdpp Require Import gmap.
From S2P Require Import Prelude.
Local Open Scope Z_scope.

(** ** Data *)

Record wq_item_t := WqItem { client_socket_fd : Z; next : Z; prev : Z }.

(** Where a thread is in [wq_pop] or [wq_push]. *)
Inductive place :=
| Popping                      (** before [pthread_mutex_lock], or woken in [pthread_cond_wait] *)
| PopLocked                    (** at the condition of the loop *)
| PopWaiting                   (** in [pthread_cond_wait] *)
| PopUnlock (item fd : Z)
| PopFree (item fd : Z)
| Pushing (fd : Z)
| PushLocked (fd : Z)
| PushUnlock.

#[export] Instance place_eq_dec : EqDecision place.
Proof. solve_decision. Defined.

(** The fields of the queue (the mutex by its holder), the items on the heap,
    the threads that are in a call, and for the record the sockets pushed and
    popped. *)
Record wq_t := Wq {
  size : Z; head : Z; mutex : option nat; items : gmap Z wq_item_t; next_item : Z;
  calls : gmap nat place; pushed : list Z; popped : list Z }.

Definition NULL : Z := 0.

Definition item_at (p : Z) : M wq_t wq_item_t := s ← get_state; deref (items s !! p).
Definition put_item (p : Z) (i : wq_item_t) : M wq_t unit :=
  modify (λ s, Wq (size s) (head s) (mutex s) (<[p := i]> (items s)) (next_item s) (calls s) (pushed s) (popped s)).
Definition set_item_next (p q : Z) : M wq_t unit :=
  i ← item_at p; put_item p (WqItem (client_socket_fd i) q (prev i)).
Definition set_item_prev (p q : Z) : M wq_t unit :=
  i ← item_at p; put_item p (WqItem (client_socket_fd i) (next i) q).
Definition set_head (p : Z) : M wq_t unit :=
  modify (λ s, Wq (size s) p (mutex s) (items s) (next_item s) (calls s) (pushed s) (popped s)).
Definition set_size (n : Z) : M wq_t unit :=
  modify (λ s, Wq n (head s) (mutex s) (items s) (next_item s) (calls s) (pushed s) (popped s)).
Definition set_mutex (o : option nat) : M wq_t unit :=
  modify (λ s, Wq (size s) (head s) o (items s) (next_item s) (calls s) (pushed s) (popped s)).
Definition set_calls (c : gmap nat place) : M wq_t unit :=
  modify (λ s, Wq (size s) (head s) (mutex s) (items s) (next_item s) c (pushed s) (popped s)).
Definition set_place (t : nat) (p : place) : M wq_t unit := s ← get_state; set_calls (<[t := p]> (calls s)).
Definition record_pushed (fd : Z) : M wq_t unit :=
  modify (λ s, Wq (size s) (head s) (mutex s) (items s) (next_item s) (calls s) (pushed s ++ [fd]) (popped s)).
Definition record_popped (fd : Z) : M wq_t unit :=
  modify (λ s, Wq (size s) (head s) (mutex s) (items s) (next_item s) (calls s) (pushed s) (popped s ++ [fd])).

(** ** The list macros *)

Definition DL_APPEND (add : Z) : M wq_t unit :=
  h ← gets head;
  if negb (h =? NULL) then
    i ← item_at h; set_item_prev add (prev i);;
    i ← item_at h; set_item_next (prev i) add;;
    set_item_prev h add;;
    set_item_next add NULL
  else
    set_head add;;
    set_item_prev add add;;
    set_item_next add NULL.

(** [DL_DELETE (wq->head, wq->head)]: the item deleted is the head, so that
    the last branch of the macro is not taken. *)
Definition DL_DELETE_head : M wq_t unit :=
  del ← gets head;
  i ← item_at del;
  ASSERT (negb (prev i =? NULL));;
  if prev i =? del then set_head NULL
  else
    set_item_prev (next i) (prev i);;
    i ← item_at del; set_head (next i).

(** ** wq.c *)

Definition wq_init (s : wq_t) : wq_t := Wq 0 NULL None (items s) (next_item s) (calls s) (pushed s) (popped s).

(** [calloc (1, sizeof (wq_item_t))] *)
Definition calloc_item (memory : bool) : M wq_t Z :=
  if memory then
    p ← gets next_item;
    modify (λ s, Wq (size s) (head s) (mutex s) (<[p := WqItem 0 0 0]> (items s)) (p + 1) (calls s) (pushed s) (popped s));; ret p
  else ret NULL.

(** [pthread_cond_broadcast]: every thread that waits goes on to take the
    mutex. *)
Definition wake (p : place) : place := match p with PopWaiting => Popping | p => p end.
Definition broadcast : M wq_t unit := s ← get_state; set_calls (wake <$> calls s).

(** [wq_push] between lock and unlock. *)
Definition push_body (fd : Z) (memory : bool) : M wq_t unit :=
  wq_item ← calloc_item memory;
  i ← item_at wq_item; put_item wq_item (WqItem fd (next i) (prev i));;
  DL_APPEND wq_item;;
  n ← gets size; set_size (s32 (n + 1));;
  record_pushed fd;;
  broadcast.

(** [wq_pop] after the loop, up to the unlock: the item and its socket. *)
Definition pop_body : M wq_t (Z * Z) :=
  wq_item ← gets head;
  i ← item_at wq_item;
  n ← gets size; set_size (s32 (n - 1));;
  DL_DELETE_head;;
  record_popped (client_socket_fd i);;
  ret (wq_item, client_socket_fd i).

Definition free_item (p : Z) : M wq_t unit :=
  item_at p;;
  modify (λ s, Wq (size s) (head s) (mutex s) (delete p (items s)) (next_item s) (calls s) (pushed s) (popped s)).

Definition take_mutex (t : nat) (p : place) : M wq_t bool :=
  s ← get_state;
  match mutex s with None => set_mutex (Some t);; set_place t p;; ret true | Some _ => ret false end.

(** What happens when thread [t] runs; false when it cannot.  [memory] is the
    outcome of [calloc]. *)
Definition run_thread (t : nat) (memory : bool) : M wq_t bool :=
  s ← get_state;
  match calls s !! t with
  | None | Some PopWaiting => ret false
  | Some Popping => take_mutex t PopLocked
  | Some PopLocked =>
      n ← gets size;
      if n =? 0 then set_mutex None;; set_place t PopWaiting;; ret true
      else ' (item, fd) ← pop_body; set_place t (PopUnlock item fd);; ret true
  | Some (PopUnlock item fd) => set_mutex None;; set_place t (PopFree item fd);; ret true
  | Some (PopFree item fd) => free_item item;; set_calls (delete t (calls s));; ret true
  | Some (Pushing fd) => take_mutex t (PushLocked fd)
  | Some (PushLocked fd) => push_body fd memory;; set_place t PushUnlock;; ret true
  | Some PushUnlock => set_mutex None;; set_calls (delete t (calls s));; ret true
  end.

(** Steps: a thread calls [wq_pop] or [wq_push], runs, or stops waiting for no
    reason. *)
Inductive event := CallPop (t : nat) | CallPush (t : nat) (fd : Z) | Run (t : nat) (memory : bool) | Spurious (t : nat).

Definition step (e : event) : M wq_t bool :=
  s ← get_state;
  match e with
  | CallPop t => if decide (calls s !! t = None) then set_place t Popping;; ret true else ret false
  | CallPush t fd => if decide (calls s !! t = None) then set_place t (Pushing fd);; ret true else ret false
  | Run t memory => run_thread t memory
  | Spurious t => match calls s !! t with Some PopWaiting => set_place t Popping;; ret true | _ => ret false end
  end.

Definition wq_start : wq_t := wq_init (Wq 0 0 None ∅ 1 ∅ [] []).

(** The states of all runs, as long as fewer than 2{^31} sockets were pushed
    ([size] is an [int]). *)
Definition few (s : wq_t) : Prop := Z.of_nat (length (pushed s)) < 2 ^ 31.

Inductive reachable : wq_t → Prop :=
| reach_start : reachable wq_start
| reach_step s e s' : reachable s → step e s = Ret (true, s') → few s' → reachable s'.

Example push_two_pop_two : ∃ s,
  (step (CallPop 1);; step (Run 1 true);; step (Run 1 true);; step (CallPush 0 7);; step (Run 0 true);; step (Run 0 true);; step (Run 0 true);;
   step (CallPush 0 8);; step (Run 0 true);; step (Run 0 true);; step (Run 0 true);; step (Run 1 true);; step (Run 1 true);; step (Run 1 true);;
   step (Run 1 true);; step (CallPop 1);; step (Run 1 true);; step (Run 1 true);; step (Run 1 true);; step (Run 1 true)) wq_start = Ret (true, s) ∧
  popped s = [7; 8] ∧ size s = 0 ∧ items s = ∅.
Proof. eexists. by vm_compute. Qed.

(** ** The list *)

(** The items from [p] on, with the [prev] pointer of the first. *)
Fixpoint dchain (h : gmap Z wq_item_t) (p prv : Z) (l : list (Z * Z)) : Prop :=
  match l with
  | [] => p = NULL
  | (a, fd) :: l => p = a ∧ a ≠ NULL ∧ ∃ q, h !! a = Some (WqItem fd q prv) ∧ dchain h q a l
  end.

(** The list of the macros: the [prev] pointer of the first item points to the
    last one. *)
Definition dlist (h : gmap Z wq_item_t) (p : Z) (l : list (Z * Z)) : Prop :=
  match last l with None => p = NULL | Some (b, _) => dchain h p b l end.

Lemma dchain_frame h a i l : ∀ p prv, a ∉ l.*1 → dchain h p prv l → dchain (<[a := i]> h) p prv l.
Proof.
  induction l as [|[b fd] l IH]; intros p prv; cbn; [done|]. intros [Hab Ha]%not_elem_of_cons (->&Hb&q&Hq&Hc).
  split_and!; [done..|]. exists q. rewrite lookup_insert_ne by done. auto.
Qed.

Lemma dchain_delete h a l : ∀ p prv, a ∉ l.*1 → dchain h p prv l → dchain (delete a h) p prv l.
Proof.
  induction l as [|[b fd] l IH]; intros p prv; cbn; [done|]. intros [Hab Ha]%not_elem_of_cons (->&Hb&q&Hq&Hc).
  split_and!; [done..|]. exists q. rewrite lookup_delete_ne by done. auto.
Qed.

Lemma dlist_frame h a i l p : a ∉ l.*1 → dlist h p l → dlist (<[a := i]> h) p l.
Proof. unfold dlist. destruct (last l) as [[]|]; [apply dchain_frame|done]. Qed.
Lemma dlist_delete h a l p : a ∉ l.*1 → dlist h p l → dlist (delete a h) p l.
Proof. unfold dlist. destruct (last l) as [[]|]; [apply dchain_delete|done]. Qed.

Lemma dchain_dom h l : ∀ p prv a, dchain h p prv l → a ∈ l.*1 → a ≠ NULL ∧ is_Some (h !! a).
Proof.
  induction l as [|[b fd] l IH]; intros p prv a; cbn; [by intros _ ?%elem_of_nil|].
  intros (->&Hb&q&Hq&Hc) [->|Ha]%elem_of_cons; [by split; [|eexists]|by eapply IH].
Qed.

Lemma dlist_dom h p l a : dlist h p l → a ∈ l.*1 → a ≠ NULL ∧ is_Some (h !! a).
Proof. unfold dlist. destruct l as [|x l] using rev_ind; [by intros _ ?%elem_of_nil|]. rewrite last_snoc. destruct x. apply dchain_dom. Qed.

Lemma dchain_set_prev h p prv prv' a fd q l : dchain h p prv ((a, fd) :: l) → h !! a = Some (WqItem fd q prv) → a ∉ l.*1 →
  dchain (<[a := WqItem fd q prv']> h) p prv' ((a, fd) :: l).
Proof.
  cbn. intros (->&Ha&q'&Hq'&Hc) Hq Hn. rewrite Hq in Hq'. injection Hq' as <-. split_and!; [done..|]. exists q.
  rewrite lookup_insert_eq. split; [done|]. by apply dchain_frame.
Qed.

(** The last item has no successor; one can be linked to it. *)
Lemma dchain_last h b fb l : ∀ p prv, dchain h p prv (l ++ [(b, fb)]) → ∃ pb, h !! b = Some (WqItem fb NULL pb).
Proof. induction l as [|[a fd] l IH]; intros p prv; cbn; [by intros (_&_&q&Hq&->); eexists|]. intros (->&_&q&_&Hc). by eapply IH. Qed.

Lemma dchain_append h b fb pb e fd l : h !! b = Some (WqItem fb NULL pb) → e ≠ NULL → ∀ p prv,
  NoDup (e :: (l ++ [(b, fb)]).*1) → dchain h p prv (l ++ [(b, fb)]) →
  dchain (<[e := WqItem fd NULL b]> (<[b := WqItem fb e pb]> h)) p prv ((l ++ [(b, fb)]) ++ [(e, fd)]).
Proof.
  intros Hb He. induction l as [|[a fa] l IH]; intros p prv [Hel Hn]%NoDup_cons; cbn in *; apply not_elem_of_cons in Hel as [Hea Hel].
  - intros (->&Hb0&q&Hq&->). rewrite Hb in Hq. injection Hq as ->. split_and!; [done..|]. exists e.
    rewrite lookup_insert_ne by done. rewrite lookup_insert_eq. split_and!; [done..|]. exists NULL. by rewrite lookup_insert_eq.
  - apply NoDup_cons in Hn as [Ha Hn]. intros (->&Ha0&q&Hq&Hc). split_and!; [done..|]. exists q.
    assert (a ≠ b) by (intros ->; apply Ha; rewrite fmap_app; set_solver). rewrite !lookup_insert_ne by done. split; [done|].
    apply IH; [by constructor|done].
Qed.

(** ** The macros on the list *)

Definition with_list (h : gmap Z wq_item_t) (hd : Z) (s : wq_t) : wq_t :=
  Wq (size s) hd (mutex s) h (next_item s) (calls s) (pushed s) (popped s).

Lemma wp_item_at p i s (Q : wq_item_t → wq_t → Prop) : items s !! p = Some i → Q i s → wp (item_at p) s Q.
Proof. intros H HQ. unfold item_at. wp_steps. by eapply wp_deref. Qed.
Lemma wp_put_item p i s (Q : unit → wq_t → Prop) : Q tt (with_list (<[p := i]> (items s)) (head s) s) → wp (put_item p i) s Q.
Proof. intros H. unfold put_item. by wp_step. Qed.
Lemma wp_set_item_next p q i s (Q : unit → wq_t → Prop) : items s !! p = Some i →
  Q tt (with_list (<[p := WqItem (client_socket_fd i) q (prev i)]> (items s)) (head s) s) → wp (set_item_next p q) s Q.
Proof. intros H HQ. unfold set_item_next. wp_step. eapply wp_item_at; [done|]. by apply wp_put_item. Qed.
Lemma wp_set_item_prev p q i s (Q : unit → wq_t → Prop) : items s !! p = Some i →
  Q tt (with_list (<[p := WqItem (client_socket_fd i) (next i) q]> (items s)) (head s) s) → wp (set_item_prev p q) s Q.
Proof. intros H HQ. unfold set_item_prev. wp_step. eapply wp_item_at; [done|]. by apply wp_put_item. Qed.

(** The heap [DL_APPEND] leaves. *)
Lemma append_heap h p b l fb pb a fa l' add fd x q' (h2 := <[b := WqItem fb add pb]> (<[add := WqItem fd x b]> h)) :
  l ++ [(b, fb)] = (a, fa) :: l' → NoDup (add :: (l ++ [(b, fb)]).*1) → add ≠ NULL → dchain h p b (l ++ [(b, fb)]) →
  h !! b = Some (WqItem fb NULL pb) → h2 !! a = Some (WqItem fa q' b) →
  dlist (<[add := WqItem fd NULL b]> (<[a := WqItem fa q' add]> h2)) p ((l ++ [(b, fb)]) ++ [(add, fd)]).
Proof.
  intros El Hn Hadd Hd Hb Ha. pose proof (dchain_append h b fb pb add fd l Hb Hadd p b Hn Hd) as Hc.
  apply NoDup_cons in Hn as [Hnin Hn].
  assert (add ≠ b) as Hbe by (intros ->; apply Hnin; rewrite fmap_app; set_solver).
  unfold dlist. rewrite last_snoc. rewrite El in *. cbn in Hnin, Hn. apply not_elem_of_cons in Hnin as [Hae Hnin].
  apply NoDup_cons in Hn as [Han Hn].
  rewrite insert_insert_ne by done. unfold h2 in *. rewrite (insert_insert_ne _ add b), insert_insert_eq by done.
  rewrite (insert_insert_ne _ b add) by done. cbn [app] in *.
  eapply dchain_set_prev; [exact Hc| |rewrite fmap_app; set_solver]. rewrite lookup_insert_ne by done.
  destruct (decide (a = b)) as [->|Hab].
  - by rewrite lookup_insert_eq in *.
  - rewrite lookup_insert_ne in * by done. by rewrite lookup_insert_ne in Ha.
Qed.

Lemma DL_APPEND_ok s l add i : dlist (items s) (head s) l → NoDup (add :: l.*1) → add ≠ NULL → items s !! add = Some i →
  wp (DL_APPEND add) s (λ _ s', ∃ h hd, s' = with_list h hd s ∧ dlist h hd (l ++ [(add, client_socket_fd i)]) ∧
    (∀ a, is_Some (h !! a) ↔ is_Some (items s !! a)) ∧ (∀ a, a ∉ add :: l.*1 → h !! a = items s !! a)).
Proof.
  intros Hd Hn Hadd Hi. unfold DL_APPEND. wp_step. wp_step. unfold dlist in Hd. destruct l as [|[b fb] l _] using rev_ind.
  - cbn in Hd. rewrite Hd. cbn [Z.eqb NULL negb]. unfold set_head. wp_step. wp_step. wp_step. eapply wp_set_item_prev; [done|].
    eapply wp_set_item_next; [cbn; by rewrite lookup_insert_eq|]. cbn.
    eexists _, _. split; [reflexivity|]. rewrite insert_insert_eq. split; [|split].
    + unfold dlist. cbn. split_and!; [done..|]. exists NULL. by rewrite lookup_insert_eq.
    + intros a. destruct (decide (a = add)) as [->|]; [rewrite lookup_insert_eq, Hi; split; by eexists|by rewrite lookup_insert_ne].
    + intros a [? _]%not_elem_of_cons. by rewrite lookup_insert_ne.
  - rewrite last_snoc in Hd. destruct (dchain_last _ _ _ _ _ _ Hd) as [pb Hb].
    assert (∃ a fa l', l ++ [(b, fb)] = (a, fa) :: l') as (a&fa&l'&El) by (destruct l as [|[a fa] l]; cbn; eauto).
    pose proof Hd as Hd0. rewrite El in Hd0. destruct Hd0 as (Ea&Ha&q&Hq&_). rewrite Ea, (proj2 (Z.eqb_neq _ _) Ha). cbn [negb].
    apply NoDup_cons in Hn as [Hnin Hn]. pose proof Hnin as Hnin'. rewrite El in Hnin'. apply not_elem_of_cons in Hnin' as [Hae _].
    assert (add ≠ b) as Hbe by (intros ->; apply Hnin; rewrite fmap_app; set_solver).
    wp_step. eapply wp_item_at; [done|]. wp_step. eapply wp_set_item_prev; [done|].
    wp_step. eapply wp_item_at; [cbn; by rewrite lookup_insert_ne|]. cbn [prev]. wp_step.
    eapply wp_set_item_next; [cbn; rewrite lookup_insert_ne by done; exact Hb|]. wp_step.
    cbn [items head with_list client_socket_fd prev].
    set (h2 := <[b := _]> _).
    assert (∃ q', h2 !! a = Some (WqItem fa q' b)) as [q' Hq'].
    { unfold h2. destruct (decide (a = b)) as [->|Hab].
      - rewrite Hq in Hb. injection Hb as -> -> ->. rewrite lookup_insert_eq. eauto.
      - rewrite !lookup_insert_ne by done. eauto. }
    eapply wp_set_item_prev; [exact Hq'|]. cbn [items head with_list client_socket_fd next].
    eapply wp_set_item_next.
    { cbn. rewrite lookup_insert_ne by done. unfold h2. rewrite lookup_insert_ne by done. by rewrite lookup_insert_eq. }
    cbn. eexists _, _. split; [unfold with_list; cbn; reflexivity|]. split; [|split].
    + rewrite <- Ea in *. eapply append_heap; [done|by constructor|done..].
    + intros c. rewrite <- !elem_of_dom. unfold h2. rewrite !dom_insert.
      apply elem_of_dom_2 in Hi, Hb, Hq. set_solver.
    + intros c [Hca Hc]%not_elem_of_cons. assert (c ≠ b) by (rewrite fmap_app in Hc; set_solver).
      assert (c ≠ a) by (rewrite El in Hc; set_solver).
      unfold h2. by rewrite !lookup_insert_ne.
Qed.

Lemma DL_DELETE_head_ok s a fd l : dlist (items s) (head s) ((a, fd) :: l) → NoDup (a :: l.*1) →
  wp DL_DELETE_head s (λ _ s', ∃ h hd, s' = with_list h hd s ∧ dlist h hd l ∧
    (∀ a, is_Some (h !! a) ↔ is_Some (items s !! a))).
Proof.
  unfold dlist. rewrite last_cons. intros Hd [Ha Hn]%NoDup_cons. unfold DL_DELETE_head. wp_step. wp_step. wp_step.
  destruct l as [|[b fb] l].
  - cbn [last] in Hd. destruct Hd as (->&Ha0&q&Hq&->). eapply wp_item_at; [done|]. cbn [prev]. rewrite (proj2 (Z.eqb_neq _ _) Ha0), Z.eqb_refl. wp_step.
    apply wp_ASSERT; [done|]. unfold set_head. wp_steps. exists (items s), NULL. split_and!; done.
  - destruct (last ((b, fb) :: l)) as [[c fc]|] eqn:El; [|by apply last_None in El].
    assert (c ∈ ((b, fb) :: l).*1) as Hc by (apply last_Some in El as [l' ->]; rewrite fmap_app; set_solver).
    destruct Hd as (->&Ha0&q&Hq&Hd). eapply wp_item_at; [done|]. cbn [prev next].
    rewrite (proj2 (Z.eqb_neq c NULL)) by (by eapply dchain_dom). wp_step. apply wp_ASSERT; [done|].
    rewrite (proj2 (Z.eqb_neq c a)) by (by intros ->). pose proof Hd as (->&Hb0&q&Hqb&Hd').
    assert (b ≠ a) by (intros ->; apply Ha; left). wp_step. eapply wp_set_item_prev; [done|]. wp_step.
    eapply wp_item_at; [cbn; by rewrite lookup_insert_ne|]. unfold set_head. wp_step. eexists _, _.
    split; [unfold with_list; cbn; reflexivity|]. split.
    + eapply dchain_set_prev; [done|done|]. by apply NoDup_cons in Hn as [? _].
    + intros d. rewrite <- !elem_of_dom, dom_insert. apply elem_of_dom_2 in Hqb. set_solver.
Qed.

(** ** The invariant *)

(** The item a thread has taken out of the queue, and the places with the
    mutex. *)
Definition carries (p : place) : option Z := match p with PopUnlock i _ | PopFree i _ => Some i | _ => None end.
Definition holds (p : place) : Prop :=
  match p with PopLocked | PopUnlock _ _ | PushLocked _ | PushUnlock => True | _ => False end.
Definition carried (c : gmap nat place) (a : Z) : Prop := ∃ t p, c !! t = Some p ∧ carries p = Some a.

(** [l] is the queue: the addresses of its items and their sockets. *)
Record inv (s : wq_t) (l : list (Z * Z)) : Prop := Inv {
  i_list : dlist (items s) (head s) l;
  i_nodup : NoDup l.*1;
  i_fifo : pushed s = popped s ++ l.*2;
  i_size : size s = Z.of_nat (length l);
  i_fresh : 0 < next_item s ∧ ∀ a, is_Some (items s !! a) → 0 < a < next_item s;
  i_memory : ∀ a, is_Some (items s !! a) ↔ a ∈ l.*1 ∨ carried (calls s) a;
  i_own : ∀ t p a, calls s !! t = Some p → carries p = Some a →
    a ∉ l.*1 ∧ ∀ t' p', calls s !! t' = Some p' → carries p' = Some a → t' = t;
  i_mutex : ∀ t p, calls s !! t = Some p → (mutex s = Some t ↔ holds p);
  i_holder : ∀ t, mutex s = Some t → is_Some (calls s !! t);
  i_waits : ∀ t, calls s !! t = Some PopWaiting → l = [] }.

Lemma carried_insert c t p a : c !! t ≫= carries = carries p → carried (<[t := p]> c) a ↔ carried c a.
Proof.
  intros Hc. split; intros (t'&p'&Ht&Hp); destruct (decide (t' = t)) as [->|Hne].
  - rewrite lookup_insert_eq in Ht. injection Ht as <-. rewrite Hp in Hc. destruct (c !! t) as [p'|] eqn:E; [|done]. by exists t, p'.
  - rewrite lookup_insert_ne in Ht by done. by exists t', p'.
  - exists t, p. rewrite lookup_insert_eq, <- Hc, Ht. done.
  - exists t', p'. by rewrite lookup_insert_ne.
Qed.

(** A thread changes its place and perhaps takes or releases the mutex. *)
Lemma inv_place s l t p mx : inv s l → calls s !! t ≫= carries = carries p → (p = PopWaiting → l = []) →
  (mx = Some t ↔ holds p) → (∀ t', t' ≠ t → mx = Some t' ↔ mutex s = Some t') →
  inv (Wq (size s) (head s) mx (items s) (next_item s) (<[t := p]> (calls s)) (pushed s) (popped s)) l.
Proof.
  intros [H1 H2 H3 H4 H5 H6 H7 H8 H9 H10] Hc Hw Hmx Hmx'. split; cbn; [done..| | | | |].
  - intros a. by rewrite carried_insert.
  - assert (∀ t' p' a, <[t := p]> (calls s) !! t' = Some p' → carries p' = Some a → ∃ p0, calls s !! t' = Some p0 ∧ carries p0 = Some a) as Hold.
    { intros t' p' a Ht Hp. destruct (decide (t' = t)) as [->|Hne]; [|rewrite lookup_insert_ne in Ht by done; eauto].
      rewrite lookup_insert_eq in Ht. injection Ht as <-. rewrite Hp in Hc. destruct (calls s !! t) as [p0|]; [|done]. eauto. }
    intros t' p' a Ht Hp. destruct (Hold _ _ _ Ht Hp) as (p0&Ht0&Hp0). destruct (H7 _ _ _ Ht0 Hp0) as [Hl Hu]. split; [done|].
    intros t2 p2 Ht2 Hp2. destruct (Hold _ _ _ Ht2 Hp2) as (p3&Ht3&Hp3). by eapply Hu.
  - intros t' p'. destruct (decide (t' = t)) as [->|Hne]; [rewrite lookup_insert_eq; by intros [= <-]|].
    rewrite lookup_insert_ne, Hmx' by done. apply H8.
  - intros t'. destruct (decide (t' = t)) as [->|Hne]; [rewrite lookup_insert_eq; by eexists|].
    rewrite lookup_insert_ne, Hmx' by done. apply H9.
  - intros t'. destruct (decide (t' = t)) as [->|Hne]; [rewrite lookup_insert_eq; intros [= ->]; auto|].
    rewrite lookup_insert_ne by done. apply H10.
Qed.

(** A thread leaves, with its item freed. *)
Lemma wq_inv_leave s l t p mx h : inv s l → calls s !! t = Some p → h = match carries p with Some a => delete a (items s) | None => items s end →
  mx ≠ Some t → (∀ t', t' ≠ t → mx = Some t' ↔ mutex s = Some t') →
  inv (Wq (size s) (head s) mx h (next_item s) (delete t (calls s)) (pushed s) (popped s)) l.
Proof.
  intros [H1 H2 H3 H4 H5 H6 H7 H8 H9 H10] Ht -> Hmx Hmx'.
  assert (∀ t' p', delete t (calls s) !! t' = Some p' → t' ≠ t ∧ calls s !! t' = Some p') as Hold.
  { intros t' p' H. by apply lookup_delete_Some in H as [? ?]. }
  split; cbn; [|done..| | | | | |].
  - destruct (carries p) as [a|] eqn:Ec; [|done]. apply dlist_delete; [|done]. by eapply H7.
  - destruct H5 as [H0 H5]. split; [done|]. intros a. destruct (carries p) as [b|]; [|apply H5].
    intros [i Hi]. apply lookup_delete_Some in Hi as [_ Hi]. apply H5. by eexists.
  - intros a. transitivity (is_Some (items s !! a) ∧ carries p ≠ Some a).
    { destruct (carries p) as [b|] eqn:Ec; [|split; [by split|by intros []]].
      destruct (decide (a = b)) as [->|Hne]; [rewrite lookup_delete_eq|rewrite lookup_delete_ne by done].
      - split; [by intros [? ?]|by intros [_ ?]].
      - split; [intros ?; split; [done|congruence]|by intros []]. }
    rewrite H6. split.
    + intros [[Ha|(t'&p'&Ht'&Hp')] Hne]; [by left|right]. exists t', p'. rewrite lookup_delete_ne; [done|]. intros <-. congruence.
    + intros [Ha|(t'&p'&Ht'&Hp')].
      * split; [by left|]. intros Ec. by destruct (H7 _ _ _ Ht Ec).
      * apply Hold in Ht' as [Hne Ht']. split; [right; by exists t', p'|]. intros Ec.
        destruct (H7 _ _ _ Ht Ec) as [_ Hu]. by destruct Hne; eapply Hu.
  - intros t' p' a Ht' Hp'. apply Hold in Ht' as [_ Ht']. destruct (H7 _ _ _ Ht' Hp') as [Hl Hu]. split; [done|].
    intros t2 p2 Ht2 Hp2. apply Hold in Ht2 as [_ Ht2]. by eapply Hu.
  - intros t' p' Ht'. apply Hold in Ht' as [Hne Ht']. rewrite Hmx' by done. by apply H8.
  - intros t' Hm. destruct (decide (t' = t)) as [->|Hne]; [done|]. rewrite lookup_delete_ne by done. apply H9. by apply Hmx'.
  - intros t' Ht'. apply Hold in Ht' as [_ Ht']. by eapply H10.
Qed.

(** *** A pop *)

Lemma inv_pop s t a fd l h hd : inv s ((a, fd) :: l) → calls s !! t = Some PopLocked → dlist h hd l →
  (∀ x, is_Some (h !! x) ↔ is_Some (items s !! x)) →
  inv (Wq (Z.of_nat (length l)) hd (mutex s) h (next_item s) (<[t := PopUnlock a fd]> (calls s)) (pushed s) (popped s ++ [fd])) l.
Proof.
  intros [H1 H2 H3 H4 H5 H6 H7 H8 H9 H10] Ht Hl Hh. cbn in H2, H3, H6. apply NoDup_cons in H2 as [Ha H2].
  assert (∀ t' p' x, <[t := PopUnlock a fd]> (calls s) !! t' = Some p' → carries p' = Some x →
    (t' = t ∧ x = a) ∨ (t' ≠ t ∧ x ≠ a ∧ calls s !! t' = Some p')) as Hold.
  { intros t' p' x H Hx. destruct (decide (t' = t)) as [->|Hne].
    - rewrite lookup_insert_eq in H. injection H as <-. injection Hx as <-. by left.
    - rewrite lookup_insert_ne in H by done. right. split_and!; [done| |done]. intros ->. destruct (H7 _ _ _ H Hx) as [Hn _].
      apply Hn. left. }
  split; cbn; [done|done| |done| | | | | |].
  - by rewrite H3, <- app_assoc.
  - destruct H5 as [H0 H5]. split; [done|]. intros x Hx. by apply H5, Hh.
  - intros x. rewrite Hh, H6, elem_of_cons. split.
    + intros [[->|Hx]|(t'&p'&Ht'&Hp')]; [right; exists t, (PopUnlock a fd); by rewrite lookup_insert_eq|by left|right].
      exists t', p'. rewrite lookup_insert_ne; [done|]. intros <-. rewrite Ht in Ht'. by injection Ht' as <-.
    + intros [Hx|(t'&p'&Ht'&Hp')]; [auto|]. destruct (Hold _ _ _ Ht' Hp') as [[_ ->]|(_&_&Ht0)]; [auto|]. right. by exists t', p'.
  - intros t' p' x Ht' Hp'. destruct (Hold _ _ _ Ht' Hp') as [[-> ->]|(Hne&Hxa&Ht0)].
    + split; [done|]. intros t2 p2 Ht2 Hp2. by destruct (Hold _ _ _ Ht2 Hp2) as [[? _]|(_&?&_)].
    + destruct (H7 _ _ _ Ht0 Hp') as [Hn Hu]. split; [by apply not_elem_of_cons in Hn as [_ ?]|].
      intros t2 p2 Ht2 Hp2. destruct (Hold _ _ _ Ht2 Hp2) as [[_ ?]|(_&_&?)]; [done|by eapply Hu].
  - intros t' p'. destruct (decide (t' = t)) as [->|Hne]; [|rewrite lookup_insert_ne by done; apply H8].
    rewrite lookup_insert_eq. intros [= <-]. by rewrite (H8 _ _ Ht).
  - intros t'. destruct (decide (t' = t)) as [->|Hne]; [rewrite lookup_insert_eq; by eexists|].
    rewrite lookup_insert_ne by done. apply H9.
  - intros t'. destruct (decide (t' = t)) as [->|Hne]; [by rewrite lookup_insert_eq|].
    rewrite lookup_insert_ne by done. intros ?%H10. done.
Qed.

(** *** A push *)

Lemma carries_wake p : carries (wake p) = carries p.
Proof. by destruct p. Qed.
Lemma holds_wake p : holds (wake p) ↔ holds p.
Proof. by destruct p. Qed.

Lemma inv_push s t fd l h hd : inv s l → calls s !! t = Some (PushLocked fd) → dlist h hd (l ++ [(next_item s, fd)]) →
  (∀ x, is_Some (h !! x) ↔ x = next_item s ∨ is_Some (items s !! x)) →
  inv (Wq (Z.of_nat (length l) + 1) hd (mutex s) h (next_item s + 1) (<[t := PushUnlock]> (wake <$> calls s)) (pushed s ++ [fd]) (popped s))
    (l ++ [(next_item s, fd)]).
Proof.
  intros [H1 H2 H3 H4 [H0 H5] H6 H7 H8 H9 H10] Ht Hl Hh. set (a := next_item s) in *.
  assert (¬ is_Some (items s !! a)) as Hfr by (intros Hx; apply H5 in Hx; unfold a in Hx; lia).
  assert (∀ t' p', <[t := PushUnlock]> (wake <$> calls s) !! t' = Some p' →
    (t' = t ∧ p' = PushUnlock) ∨ (t' ≠ t ∧ ∃ p0, calls s !! t' = Some p0 ∧ p' = wake p0)) as Hold.
  { intros t' p' H. destruct (decide (t' = t)) as [->|Hne].
    - rewrite lookup_insert_eq in H. injection H as <-. by left.
    - rewrite lookup_insert_ne, lookup_fmap in H by done. right. split; [done|].
      destruct (calls s !! t') as [p0|]; [|done]. injection H as <-. eauto. }
  assert (∀ x, carried (<[t := PushUnlock]> (wake <$> calls s)) x ↔ carried (calls s) x) as Hca.
  { intros x. rewrite carried_insert by (by rewrite lookup_fmap, Ht). unfold carried. setoid_rewrite lookup_fmap. split.
    - intros (t'&p'&Ht'&Hp'). destruct (calls s !! t') as [p0|] eqn:E; [|done]. injection Ht' as <-. rewrite carries_wake in Hp'. eauto.
    - intros (t'&p'&Ht'&Hp'). exists t', (wake p'). by rewrite Ht', carries_wake. }
  split; cbn; [done| | | | | | | | |].
  - rewrite fmap_app. apply NoDup_app. split_and!; [done| |apply NoDup_singleton]. intros x Hx [= ->]%list_elem_of_singleton.
    by eapply dlist_dom in Hx as [_ ?].
  - by rewrite H3, fmap_app, app_assoc.
  - rewrite length_app. cbn. lia.
  - split; [lia|]. intros x [->|Hx]%Hh; [lia|]. apply H5 in Hx. fold a in Hx. lia.
  - intros x. rewrite Hh, Hca, H6, fmap_app, elem_of_app. cbn. rewrite list_elem_of_singleton. tauto.
  - assert (∀ t' p' x, <[t := PushUnlock]> (wake <$> calls s) !! t' = Some p' → carries p' = Some x →
      ∃ p0, calls s !! t' = Some p0 ∧ carries p0 = Some x) as Hc.
    { intros t' p' x [[-> ->]|(_&p0&E&->)]%Hold Hx; [done|]. rewrite carries_wake in Hx. eauto. }
    intros t' p' x Ht' Hp'. destruct (Hc _ _ _ Ht' Hp') as (p0&Ht0&Hp0). destruct (H7 _ _ _ Ht0 Hp0) as [Hn Hu]. split.
    + rewrite fmap_app, elem_of_app. cbn. rewrite list_elem_of_singleton. intros [?| ->]; [done|]. apply Hfr, H6. right. by exists t', p0.
    + intros t2 p2 Ht2 Hp2. destruct (Hc _ _ _ Ht2 Hp2) as (p3&Ht3&Hp3). by eapply Hu.
  - intros t' p' [[-> ->]|(_&p0&E&->)]%Hold; [by rewrite (H8 _ _ Ht)|]. rewrite holds_wake. by apply H8.
  - intros t' Hm. destruct (decide (t' = t)) as [->|Hne]; [rewrite lookup_insert_eq; by eexists|].
    rewrite lookup_insert_ne, lookup_fmap by done. apply fmap_is_Some. by apply H9.
  - intros t' [[_ ?]|(_&p0&_&?)]%Hold; [done|]. by destruct p0.
Qed.

(** *** Every step *)

Lemma pop_body_ok s a fd l : inv s ((a, fd) :: l) → few s →
  wp pop_body s (λ r s', r = (a, fd) ∧ ∃ h hd, dlist h hd l ∧ (∀ x, is_Some (h !! x) ↔ is_Some (items s !! x)) ∧
    s' = Wq (Z.of_nat (length l)) hd (mutex s) h (next_item s) (calls s) (pushed s) (popped s ++ [fd])).
Proof.
  intros Hi Hf. pose proof Hi as [H1 H2 H3 H4 H5 H6 H7 H8 H9 H10]. unfold few in Hf. rewrite H3, length_app, length_fmap in Hf.
  cbn [length] in *. assert (∃ q pr, items s !! a = Some (WqItem fd q pr) ∧ head s = a) as (q&pr&Ha&Eh).
  { unfold dlist in H1. destruct (last ((a, fd) :: l)) as [[]|] eqn:El; [|by apply last_None in El].
    destruct H1 as (?&_&q&Hq&_). eauto. }
  unfold pop_body. wp_step. wp_step. rewrite Eh. wp_step. eapply wp_item_at; [done|]. unfold set_size, record_popped.
  do 5 wp_step. eapply wp_mono; [apply (DL_DELETE_head_ok _ a fd l); [done|exact H2]|]. cbn beta. intros [] s' (h&hd&->&Hl&Hh). wp_steps.
  cbn. split; [done|]. exists h, hd. split_and!; [done|exact Hh|]. rewrite H4, s32_small by word_lia. unfold with_list. cbn. f_equal. lia.
Qed.

Lemma push_body_ok s t fd l : inv s l → calls s !! t = Some (PushLocked fd) →
  wp (push_body fd true;; set_place t PushUnlock) s (λ _ s', few s' → inv s' (l ++ [(next_item s, fd)])).
Proof.
  intros Hi Ht. pose proof Hi as [H1 H2 H3 H4 [H0 H5] H6 H7 H8 H9 H10]. unfold push_body, calloc_item, set_place, set_calls.
  assert (next_item s ∉ l.*1) as Hn by (intros Hx; eapply dlist_dom in Hx as [_ Hx%H5]; [lia|done]).
  do 8 wp_step. eapply wp_item_at; [apply lookup_insert_eq|]. wp_step. apply wp_put_item. cbn [items head with_list next prev size next_item].
  rewrite insert_insert_eq. wp_step. eapply wp_mono; [apply (DL_APPEND_ok _ l (next_item s)); cbn|].
  { by apply dlist_frame. }
  { by constructor. }
  { unfold NULL. lia. }
  { apply lookup_insert_eq. }
  cbn beta. intros [] s' (h&hd&->&Hl&Hh&_). unfold set_size, record_pushed, broadcast, set_calls. wp_steps. cbn in *. intros Hf.
  unfold few in Hf. cbn in Hf. rewrite H3, !length_app, length_fmap in Hf. cbn in Hf. rewrite H4, s32_small by word_lia.
  apply inv_push; [done..|]. intros x. rewrite Hh. destruct (decide (x = next_item s)) as [->|Hne].
  - rewrite lookup_insert_eq. split; [by left|by eexists].
  - rewrite lookup_insert_ne by done. split; [by right|by intros [?|?]].
Qed.

Definition memory_there (e : event) : Prop := match e with Run _ memory => memory = true | _ => True end.

(** Taking the free mutex on the way into a call. *)
Lemma take_mutex_ok s l t p p' : inv s l → calls s !! t = Some p → carries p = None → carries p' = None → p' ≠ PopWaiting → holds p' →
  wp (take_mutex t p') s (λ b s', if b then few s' → ∃ l', inv s' l' else s' = s).
Proof.
  intros Hi Et Hp Hc Hw Hh. unfold take_mutex. wp_step. wp_step. destruct (mutex s) as [h|] eqn:Em; [by wp_step|].
  unfold set_mutex, set_place, set_calls. wp_steps. intros _. exists l. cbn.
  apply (inv_place s l t p' (Some t)); [done|by rewrite Et, Hc|done|done|]. rewrite Em. intros t' Hne. split; [congruence|done].
Qed.

Lemma run_thread_inv s l t : inv s l → few s → wp (run_thread t true) s (λ b s', if b then few s' → ∃ l', inv s' l' else s' = s).
Proof.
  intros Hi Hf. pose proof Hi as [H1 H2 H3 H4 H5 H6 H7 H8 H9 H10]. unfold run_thread. wp_step. wp_step.
  destruct (calls s !! t) as [p|] eqn:Et; [|by wp_step]. pose proof (H8 t p Et) as Hmt.
  assert (holds p → ∀ t', t' ≠ t → None = Some t' ↔ mutex s = Some t') as Hrel.
  { intros Hh t' Hne. rewrite (proj2 Hmt Hh). split; [done|congruence]. }
  destruct p as [| | |item fd|item fd|fd|fd|]; cbn in Hmt.
  - by eapply take_mutex_ok.
  - wp_step. wp_step. destruct (Z.eqb_spec (size s) 0) as [E|E].
    + unfold set_mutex, set_place, set_calls. wp_steps. intros _. exists l. cbn.
      apply (inv_place s l t PopWaiting None); [done|by rewrite Et| |done|by apply Hrel].
      intros _. rewrite H4 in E. by destruct l.
    + destruct l as [|[a fd] l]; [done|]. wp_step. eapply wp_mono; [by apply pop_body_ok|]. cbn beta.
      intros r s' (->&h&hd&Hl&Hh&->). unfold set_place, set_calls. wp_steps. intros _. exists l. cbn. by apply inv_pop.
  - by wp_step.
  - unfold set_mutex, set_place, set_calls. wp_steps. intros _. exists l. cbn.
    apply (inv_place s l t (PopFree item fd) None); [done|by rewrite Et|done|done|by apply Hrel].
  - unfold free_item, set_calls. assert (is_Some (items s !! item)) as [i Hit].
    { apply H6. right. by exists t, (PopFree item fd). }
    wp_step. wp_step. eapply wp_item_at; [done|]. wp_steps. intros _. exists l. cbn.
    eapply (wq_inv_leave s l t _ (mutex s)); [done|exact Et|done| |done]. intros Hx. by apply Hmt in Hx.
  - by eapply take_mutex_ok.
  - apply wp_seq_assoc. wp_step. eapply wp_mono; [by apply push_body_ok|]. cbn beta. intros [] s' H. wp_step. eauto.
  - unfold set_mutex, set_calls. wp_steps. intros _. exists l. cbn.
    eapply (wq_inv_leave s l t _ None); [done|exact Et|done|done|by apply Hrel].
Qed.

Lemma wq_step_inv s l e : inv s l → few s → memory_there e →
  wp (step e) s (λ b s', if b then few s' → ∃ l', inv s' l' else s' = s).
Proof.
  intros Hi Hf Hm. pose proof Hi as [H1 H2 H3 H4 H5 H6 H7 H8 H9 H10]. unfold step. wp_step. wp_step.
  destruct e as [t|t fd|t memory|t].
  - destruct (decide (calls s !! t = None)) as [E|E]; [|by wp_step]. unfold set_place, set_calls. wp_steps. intros _. exists l.
    apply (inv_place s l t Popping (mutex s)); [done|by rewrite E|done| |done]. split; [intros [p Hp]%H9; congruence|done].
  - destruct (decide (calls s !! t = None)) as [E|E]; [|by wp_step]. unfold set_place, set_calls. wp_steps. intros _. exists l.
    apply (inv_place s l t (Pushing fd) (mutex s)); [done|by rewrite E|done| |done]. split; [intros [p Hp]%H9; congruence|done].
  - cbn in Hm. subst memory. by apply run_thread_inv with l.
  - destruct (calls s !! t) as [[]|] eqn:E; try (by wp_step). unfold set_place, set_calls. wp_steps. intros _. exists l.
    apply (inv_place s l t Popping (mutex s)); [done|by rewrite E|done| |done]. by rewrite (H8 _ _ E).
Qed.

(** Without memory a push stops the program; every other step is as before. *)
Lemma run_without_memory s l t b s' : inv s l → run_thread t false s = Ret (b, s') → run_thread t true s = Ret (b, s').
Proof.
  intros Hi H. unfold run_thread, bind, get_state in *. destruct (calls s !! t) as [[]|] eqn:Et; try exact H.
  exfalso. unfold push_body, bind, calloc_item, ret, item_at, get_state in H.
  destruct (items s !! NULL) as [i|] eqn:E; [|cbn in H; rewrite E in H; discriminate]. destruct (i_fresh _ _ Hi) as [_ Hfr]. specialize (Hfr NULL).
  rewrite E in Hfr. destruct Hfr; [by eexists|]. unfold NULL in *. lia.
Qed.

Lemma wq_start_inv : inv wq_start [].
Proof.
  split; cbn; [done|apply NoDup_nil_2|done|done| | | | |done|].
  - split; [lia|]. intros a. rewrite lookup_empty. by intros [? ?].
  - intros a. rewrite lookup_empty. split; [by intros [? ?]|]. intros [[]%elem_of_nil|(t&p&Ht&_)]. by rewrite lookup_empty in Ht.
  - intros t p a H. by rewrite lookup_empty in H.
  - intros t p H. by rewrite lookup_empty in H.
  - intros t H. by rewrite lookup_empty in H.
Qed.

Lemma wq_reachable_inv s : reachable s → few s ∧ ∃ l, inv s l.
Proof.
  induction 1 as [|s e s' _ [Hf [l Hi]] Hs Hf']; [split; [done|exists []; apply wq_start_inv]|]. split; [done|].
  assert (∃ e', memory_there e' ∧ step e' s = Ret (true, s')) as (e'&Hm&He).
  { destruct e as [t|t fd|t [|]|t]; [by exists (CallPop t)|by exists (CallPush t fd)|by exists (Run t true)| |by exists (Spurious t)].
    exists (Run t true). split; [done|]. by apply (run_without_memory s l t). }
  pose proof (wq_step_inv s l e' Hi Hf Hm) as Hw. unfold wp in Hw. rewrite He in Hw. by apply Hw.
Qed.

Lemma mutex_free_moves s l t p : inv s l → few s → calls s !! t = Some p → p ≠ PopWaiting → mutex s = None ∨ mutex s = Some t →
  wp (run_thread t true) s (λ b _, b = true).
Proof.
  intros Hi Hf Et Hp Hm. pose proof Hi as [H1 H2 H3 H4 H5 H6 H7 H8 H9 H10]. pose proof (H8 t p Et) as Hmt.
  assert (¬ holds p → mutex s = None) as Hfree by (intros Hh; destruct Hm as [?|E]; [done|]; by apply Hmt in E).
  unfold run_thread. wp_step. wp_step. rewrite Et. destruct p as [| | |item fd|item fd|fd|fd|]; try done;
    unfold take_mutex, set_mutex, set_place, set_calls; try (wp_step; wp_step; rewrite Hfree by (cbn; auto); by wp_steps); try by wp_steps.
  - wp_step. wp_step. destruct (Z.eqb_spec (size s) 0) as [E|E]; [by wp_steps|]. destruct l as [|[a fd] l]; [done|].
    wp_step. eapply wp_mono; [by apply pop_body_ok|]. cbn beta. intros [item fd'] s' _. by wp_steps.
  - assert (is_Some (items s !! item)) as [i Hit] by (apply H6; right; by exists t, (PopFree item fd)).
    unfold free_item. wp_step. wp_step. eapply wp_item_at; [done|]. by wp_steps.
  - apply wp_seq_assoc. wp_step. eapply wp_mono; [by apply push_body_ok|]. cbn beta. intros [] s' _. by wp_step.
Qed.

(** ** Theorems *)

(** C32: the work queue is a FIFO queue that loses no socket and no wake-up.
    For any interleaving of calls of [wq_push] and [wq_pop], with threads that
    may stop waiting at any time: the sockets pushed are those popped, in the
    same order, followed by those in the queue; no step follows a wild or
    freed pointer as long as [calloc] succeeds; one thread at most holds the
    mutex; a thread waits only while the queue is empty; as long as some call
    is not waiting, a thread can go on; and an item is on the heap only while
    it is in the queue or its pop is not finished. *)
Theorem work_queue_fifo s : reachable s → ∃ l : list (Z * Z),
  pushed s = popped s ++ l.*2 ∧ size s = Z.of_nat (length l) ∧
  (∀ e, memory_there e → ∃ b s', step e s = Ret (b, s')) ∧
  (∀ t1 t2 p1 p2, calls s !! t1 = Some p1 → calls s !! t2 = Some p2 → holds p1 → holds p2 → t1 = t2) ∧
  (∀ t, calls s !! t = Some PopWaiting → l = []) ∧
  ((∀ t p, calls s !! t = Some p → p = PopWaiting) ∨ ∃ t s', step (Run t true) s = Ret (true, s')) ∧
  (∀ a, is_Some (items s !! a) ↔ a ∈ l.*1 ∨ carried (calls s) a).
Proof.
  intros Hr. destruct (wq_reachable_inv s Hr) as [Hf [l Hi]]. exists l. pose proof Hi as [H1 H2 H3 H4 H5 H6 H7 H8 H9 H10]. split_and!; try done.
  - intros e Hm. pose proof (wq_step_inv s l e Hi Hf Hm) as H. apply wp_outcome in H as (b&s'&E&_). eauto.
  - intros t1 t2 p1 p2 E1 E2 Hh1 Hh2. apply (H8 _ _ E1) in Hh1. apply (H8 _ _ E2) in Hh2. congruence.
  - assert (∀ t p, calls s !! t = Some p → p ≠ PopWaiting → mutex s = None ∨ mutex s = Some t → ∃ t s', step (Run t true) s = Ret (true, s')) as Hgo.
    { intros t p Et Hp Hm. pose proof (mutex_free_moves s l t p Hi Hf Et Hp Hm) as H. apply wp_outcome in H as (b&s'&E&->). by exists t, s'. }
    destruct (mutex s) as [h|] eqn:Em.
    + right. destruct (H9 h eq_refl) as [p Ep]. apply (Hgo h p Ep); [|by right]. intros ->. by apply (H8 _ _ Ep).
    + destruct (decide (map_Forall (λ _ p, p = PopWaiting) (calls s))) as [Ha|Ha]; [by left|right].
      apply map_not_Forall in Ha as (t&p&Ep&Hp); [|apply _]. apply (Hgo t p Ep Hp). by left.
Qed.

(** [calloc] is not checked: without memory [wq_push] writes through a null
    pointer, with the mutex taken. *)
Theorem push_without_memory s t fd : reachable s → calls s !! t = Some (PushLocked fd) →
  step (Run t false) s = Fail BadAccess.
Proof.
  intros Hr Et. destruct (wq_reachable_inv s Hr) as [_ [l Hi]]. unfold step, run_thread, bind, get_state. rewrite Et.
  unfold push_body, bind, calloc_item, ret, item_at, get_state, deref.
  destruct (items s !! NULL) as [i|] eqn:E; [|cbn; by rewrite ?E]. destruct (i_fresh _ _ Hi) as [_ Hfr]. specialize (Hfr NULL).
  rewrite E in Hfr. destruct Hfr; [by eexists|]. unfold NULL in *. lia.
Qed.

(** A worker waits, a socket is pushed, and the worker is woken. *)
Definition sample_events : list event :=
  [CallPop 1; Run 1 true; Run 1 true; CallPush 0 7; Run 0 true; Run 0 true; Run 0 true; Run 1 true; Run 1 true].

Fixpoint run_events (es : list event) : M wq_t bool :=
  match es with
  | [] => ret true
  | e :: es =>
      b ← step e; n ← gets (λ s, length (pushed s));
      if b && bool_decide (Z.of_nat n < 2 ^ 31) then run_events es else ret false
  end.

Lemma events_reachable es : ∀ s s', reachable s → run_events es s = Ret (true, s') → reachable s'.
Proof.
  induction es as [|e es IH]; intros s s' Hr H; cbn [run_events] in H; [by injection H as <-|].
  unfold bind, gets in H. destruct (step e s) as [[[] s1]|] eqn:E; [|done..]. cbn [andb] in H.
  destruct (bool_decide_reflect (Z.of_nat (length (pushed s1)) < 2 ^ 31)); [|done]. apply (IH s1); [|done]. by eapply reach_step.
Qed.

Definition after_sample : wq_t := match run_events sample_events wq_start with Ret (_, s) => s | Fail _ => wq_start end.

Lemma work_queue_fifo_witness : reachable after_sample ∧ popped after_sample = [7] ∧ calls after_sample !! 1%nat = Some (PopUnlock 1 7) ∧
  ∃ l : list (Z * Z), pushed after_sample = popped after_sample ++ l.*2.
Proof.
  assert (reachable after_sample) as Hr.
  { apply (events_reachable sample_events wq_start); [constructor|]. by vm_compute. }
  split_and!; [exact Hr|by vm_compute|by vm_compute|].
  destruct (work_queue_fifo after_sample Hr) as (l&Hl&_). exists l. exact Hl.
Defined.
