(* ===== verification/MmAlloc.v ===== *)
(** * The memory allocator homework (src/personal/hw5: mm_alloc.c, mm_alloc.h)

    An allocator that grows the data segment with [sbrk].  The headers
    [struct block] are records by their address, the bytes behind them are
    byte memory ([memset] and [memcpy] are those of Str).  [sbrk] moves the
    break between [bottom] and [limit] and returns [(void * ) -1] when it
    cannot; an access at or above the break faults. *)

From stdpp Require Import gmap.
From S2P Require Import Prelude Str.
Local Open Scope Z_scope.

(** ** State *)

Record block := Block { bsize : Z; bfree : Z; bprev : Z; bnext : Z }.
Definition sizeof_block : Z := 32.

Record heap := Heap {
  base_block : Z; start_heap : Z; bottom : Z; brk : Z; limit : Z; headers : gmap Z block; content : mem }.

Definition block_at (p : Z) : M heap block := s ← get_state; deref (headers s !! p).

(** A header is written to memory below the break. *)
Definition put_block (p : Z) (b : block) : M heap unit :=
  s ← get_state;
  if bool_decide (bottom s ≤ p) && bool_decide (p + sizeof_block ≤ brk s)
  then put_state (Heap (base_block s) (start_heap s) (bottom s) (brk s) (limit s) (<[p := b]> (headers s)) (content s))
  else fail BadAccess.

Definition on_content {A} (c : M mem A) : M heap A :=
  λ s, match c (content s) with
       | Ret (a, m) => Ret (a, Heap (base_block s) (start_heap s) (bottom s) (brk s) (limit s) (headers s) m)
       | Fail f => Fail f
       end.

(** [sbrk (increment)] *)
Definition sbrk (increment : Z) : M heap Z :=
  s ← get_state;
  let old := brk s in
  let new := old + s64 increment in
  if bool_decide (bottom s ≤ new) && bool_decide (new ≤ limit s) then
    let m := if old <=? new then mem_of old (replicate (Z.to_nat (new - old)) 0) ∪ content s
             else filter (λ x, x.1 < new) (content s) in
    put_state (Heap (base_block s) (start_heap s) (bottom s) new (limit s) (headers s) m);; ret old
  else ret (u64 (-1)).

(** ** Helpers *)

Definition zero_block (p : Z) : M heap unit :=
  b ← block_at p; on_content (memset (p + sizeof_block) 0 (bsize b));; ret tt.

Definition insert_block (prev_block insert : Z) : M heap unit :=
  p ← block_at prev_block;
  let next_block := bnext p in
  put_block prev_block (Block (bsize p) (bfree p) (bprev p) insert);;
  i ← block_at insert;
  put_block insert (Block (bsize i) (bfree i) prev_block (if next_block =? NULL then NULL else next_block)).

Definition merge_block (down up : Z) : M heap Z :=
  u ← block_at up;
  d ← block_at down;
  put_block down (Block (u64 ((up + sizeof_block) - (down + sizeof_block) + bsize u)) 1 (bprev d) (bnext u));;
  zero_block down;;
  ret down.

(** ** mm_malloc *)

(** A new block at the old break. *)
Definition new_block (p size prev : Z) : M heap Z :=
  put_block p (Block size 0 prev NULL);;
  zero_block p;;
  ret (p + sizeof_block).

(** The block that was found, split when the rest has room for a header. *)
Definition use_block (cur size : Z) : M heap Z :=
  c ← block_at cur;
  (if sizeof_block <=? u64 (bsize c - size) then
     let additional := cur + sizeof_block + size in
     put_block additional (Block (u64 (u64 (bsize c - size) - sizeof_block)) 1 0 0);;
     zero_block additional;;
     put_block cur (Block size 0 (bprev c) (bnext c));;
     zero_block cur;;
     insert_block cur additional
   else
     put_block cur (Block size 0 (bprev c) (bnext c));;
     zero_block cur);;
  ret (cur + sizeof_block).

(** The loop over the list: a block that was found, or the last one. *)
Fixpoint find_free (fuel : nat) (cur size : Z) : M heap (Z + Z) :=
  match fuel with
  | O => fail OutOfFuel
  | S fuel =>
      c ← block_at cur;
      if (bfree c =? 1) && (size <=? bsize c) then ret (inl cur)
      else if bnext c =? NULL then ret (inr cur) else find_free fuel (bnext c) size
  end.

Definition mm_malloc (size : Z) : M heap Z :=
  if size =? 0 then ret NULL
  else
    s ← get_state;
    if base_block s =? NULL then
      start ← sbrk 0;
      _ ← sbrk (u64 (sizeof_block + size));
      modify (λ s, Heap start start (bottom s) (brk s) (limit s) (headers s) (content s));;
      new_block start size NULL
    else
      found ← find_free (S (base.size (headers s))) (base_block s) size;
      match found with
      | inl cur => use_block cur size
      | inr pre =>
          p ← sbrk 0;
          _ ← sbrk (u64 (sizeof_block + size));
          new_block p size pre
      end.

(** ** mm_free and mm_realloc *)

Definition mm_free (ptr : Z) : M heap unit :=
  if ptr =? NULL then ret tt
  else
    let curr := ptr - sizeof_block in
    c ← block_at curr;
    let prev_block := bprev c in
    let next_block := bnext c in
    curr ← (if negb (prev_block =? NULL) then
              p ← block_at prev_block; if bfree p =? 1 then merge_block prev_block curr else ret curr
            else ret curr);
    (if negb (next_block =? NULL) then
       n ← block_at next_block; if bfree n =? 1 then _ ← merge_block curr next_block; ret tt else ret tt
     else ret tt).

Definition mm_realloc (ptr size : Z) : M heap Z :=
  if ptr =? NULL then (if size =? 0 then mm_malloc 0 else mm_malloc size)
  else if size =? 0 then mm_free ptr;; ret NULL
  else
    let curr := ptr - sizeof_block in
    c ← block_at curr;
    if size <=? bsize c then put_block curr (Block size (bfree c) (bprev c) (bnext c));; ret ptr
    else
      n_ptr ← mm_malloc size;
      let n_block := n_ptr - sizeof_block in
      c ← block_at curr;
      _ ← on_content (memcpy (n_block + sizeof_block) (curr + sizeof_block) (bsize c));
      mm_free ptr;;
      ret n_ptr.

Definition heap_start (bot lim : Z) : heap := Heap NULL 0 bot bot lim ∅ ∅.

Example malloc_twice : match (p ← mm_malloc 10; mm_free p;; q ← mm_malloc 10; ret (p, q)) (heap_start 4096 8192) with
  | Ret (r, s) => Some (r, brk s) | Fail _ => None end = Some ((4128, 4170), 4180).
Proof. by vm_compute. Qed.

(** ** The invariant *)

(** The heap holds the blocks [live] of the client: their addresses and
    contents.  No block is ever free, and none has a successor. *)
Record hinv (s : heap) (live : gmap Z (list Z)) : Prop := HInv {
  h_range : 0 < bottom s ≤ brk s ∧ brk s ≤ limit s < 2 ^ 62;
  h_bytes : ∀ a, bottom s ≤ a < brk s → a ∈ dom (content s);
  h_base : (base_block s = NULL ∧ headers s = ∅) ∨ (base_block s ≠ NULL ∧ is_Some (headers s !! base_block s));
  h_blocks : ∀ p b, headers s !! p = Some b → bfree b = 0 ∧ bnext b = NULL ∧ (bprev b = NULL ∨ is_Some (headers s !! bprev b)) ∧
    bottom s ≤ p ∧ 0 ≤ bsize b ∧ p + sizeof_block + bsize b ≤ brk s;
  h_apart : ∀ p q b c, headers s !! p = Some b → headers s !! q = Some c → p < q → p + sizeof_block + bsize b ≤ q;
  h_live : ∀ p l, live !! p = Some l → ∃ b, headers s !! (p - sizeof_block) = Some b ∧ bsize b = Z.of_nat (length l) ∧
    l ≠ [] ∧ bytes_at (content s) p l }.

Lemma wp_block_at p b s (Q : block → heap → Prop) : headers s !! p = Some b → Q b s → wp (block_at p) s Q.
Proof. intros H HQ. unfold block_at. wp_steps. by eapply wp_deref. Qed.

Lemma wp_put_block p b s (Q : unit → heap → Prop) : bottom s ≤ p → p + sizeof_block ≤ brk s →
  Q tt (Heap (base_block s) (start_heap s) (bottom s) (brk s) (limit s) (<[p := b]> (headers s)) (content s)) → wp (put_block p b) s Q.
Proof. intros H1 H2 HQ. unfold put_block. wp_steps. rewrite !bool_decide_true by done. by wp_steps. Qed.

Lemma wp_on_content {A} (c : M mem A) s (Q : A → heap → Prop) :
  wp c (content s) (λ a m, Q a (Heap (base_block s) (start_heap s) (bottom s) (brk s) (limit s) (headers s) m)) →
  wp (on_content c) s Q.
Proof. unfold wp, on_content. by destruct (c (content s)) as [[a m]|]. Qed.

(** The state after a successful [sbrk] of a block with [n] bytes. *)
Definition grown (s : heap) (base start n : Z) : heap :=
  Heap base start (bottom s) (brk s + (sizeof_block + n)) (limit s) (headers s)
    (mem_of (brk s) (replicate (Z.to_nat (sizeof_block + n)) 0) ∪ content s).

Lemma wp_sbrk_zero s (Q : Z → heap → Prop) : bottom s ≤ brk s ≤ limit s → Q (brk s) s → wp (sbrk 0) s Q.
Proof.
  intros Hr HQ. unfold sbrk. wp_step. wp_step. change (s64 0) with 0. rewrite Z.add_0_r, !bool_decide_true by lia. cbn [andb].
  rewrite Z.leb_refl, Z.sub_diag. change (mem_of (brk s) (replicate (Z.to_nat 0) 0)) with (∅ : gmap Z Z). rewrite map_empty_union. wp_steps. by destruct s.
Qed.

Lemma wp_sbrk_grow s n (Q : Z → heap → Prop) : 0 < bottom s ≤ brk s → 0 < n → brk s + sizeof_block + n ≤ limit s < 2 ^ 62 →
  Q (brk s) (grown s (base_block s) (start_heap s) n) → wp (sbrk (u64 (sizeof_block + n))) s Q.
Proof.
  intros Hb Hn Hr HQ. unfold sbrk, sizeof_block in *. wp_step. wp_step. rewrite u64_small by word_lia. rewrite s64_small by word_lia.
  rewrite !bool_decide_true by lia. cbn [andb]. rewrite (proj2 (Z.leb_le _ _)) by lia.
  replace (brk s + (32 + n) - brk s) with (32 + n) by lia. wp_steps. exact HQ.
Qed.

(** A block at the old break keeps the invariant. *)
Lemma hinv_new s live base start n pr m l : hinv s live → 0 < n → brk s + 32 + n ≤ limit s →
  (base = brk s ∨ (base ≠ NULL ∧ is_Some (headers s !! base))) → (pr = NULL ∨ is_Some (headers s !! pr)) →
  (∀ a, a < brk s → m !! a = content s !! a) → (∀ a, brk s ≤ a < brk s + (32 + n) → a ∈ dom m) →
  Z.of_nat (length l) = n → bytes_at m (brk s + 32) l →
  hinv (Heap base start (bottom s) (brk s + (32 + n)) (limit s) (<[brk s := Block n 0 pr NULL]> (headers s)) m)
    (<[brk s + 32 := l]> live).
Proof.
  intros [H1 H2 H3 H4 H5 H6] Hn Hroom Hbase Hpr Hold Hnew Hl Hb. unfold sizeof_block in *.
  assert (∀ p b, headers s !! p = Some b → p < brk s) as Hlt by (intros p b Hp; destruct (H4 p b Hp) as (_&_&_&?&?&?); lia).
  assert (∀ p, is_Some (headers s !! p) → is_Some (<[brk s := Block n 0 pr NULL]> (headers s) !! p)) as Hsub.
  { intros p [b Hp]. rewrite lookup_insert_ne by (apply Hlt in Hp; lia). by eexists. }
  split; unfold sizeof_block; cbn [base_block start_heap bottom brk limit headers content].
  - lia.
  - intros a Ha. destruct (decide (a < brk s)) as [Hab|Hab]; [|apply Hnew; lia]. apply elem_of_dom. rewrite Hold by done.
    apply elem_of_dom, H2. lia.
  - right. destruct Hbase as [->|[? ?]]; [split; [unfold NULL; lia|rewrite lookup_insert_eq; by eexists]|split; auto].
  - intros p b. destruct (decide (p = brk s)) as [->|Hne].
    + rewrite lookup_insert_eq. intros [= <-]. cbn. split_and!; [done|done| |lia|lia|lia]. destruct Hpr; auto.
    + rewrite lookup_insert_ne by done. intros Hp. destruct (H4 p b Hp) as (?&?&Hpv&?&?&?). split_and!; [done|done| |lia|lia|lia].
      destruct Hpv; auto.
  - intros p q b c. destruct (decide (p = brk s)) as [->|Hp], (decide (q = brk s)) as [->|Hq];
      rewrite ?lookup_insert_eq, ?lookup_insert_ne by done; try lia.
    + intros _ Hc%Hlt. lia.
    + intros Hpb _ _. destruct (H4 p b Hpb) as (_&_&_&?&?&?). lia.
    + apply H5.
  - intros p l'. destruct (decide (p = brk s + 32)) as [->|Hp].
    + rewrite lookup_insert_eq. intros [= <-]. exists (Block n 0 pr NULL). replace (brk s + 32 - 32) with (brk s) by lia.
      rewrite lookup_insert_eq. cbn. split_and!; [done|done| |done]. intros ->. cbn in Hl. lia.
    + rewrite lookup_insert_ne by done. intros Hp'. destruct (H6 p l' Hp') as (b&Hb'&Hs&Hne&Hby). exists b.
      rewrite lookup_insert_ne by lia. split_and!; [done..|]. eapply bytes_at_frame; [|exact Hby].
      intros a Ha. apply Hold. destruct (H4 _ b Hb') as (_&_&_&?&?&?). lia.
Qed.

Lemma new_block_ok s live base start n pr : hinv s live → 0 < n → brk s + sizeof_block + n ≤ limit s →
  (base = brk s ∨ (base ≠ NULL ∧ is_Some (headers s !! base))) → (pr = NULL ∨ is_Some (headers s !! pr)) →
  wp (new_block (brk s) n pr) (grown s base start n) (λ p s', p = brk s + sizeof_block ∧ live !! p = None ∧
    hinv s' (<[p := replicate (Z.to_nat n) 0]> live) ∧ brk s' = brk s + sizeof_block + n ∧ bottom s' = bottom s ∧ limit s' = limit s ∧
    headers s' = <[brk s := Block n 0 pr NULL]> (headers s)).
Proof.
  intros [H1 H2 H3 H4 H5 H6] Hn Hroom Hbase Hpr. unfold new_block, sizeof_block in *.
  wp_step. apply wp_put_block; cbn; [lia|unfold sizeof_block; lia|]. wp_step.
  unfold zero_block. wp_step. eapply wp_block_at; [apply lookup_insert_eq|]. cbn [bsize]. wp_step. apply wp_on_content. cbn [content].
  assert (∀ p b, headers s !! p = Some b → p ≠ brk s) as Hne by (intros p b Hp; destruct (H4 p b Hp) as (_&_&_&?&?&?); unfold sizeof_block in *; lia).
  assert (mapped (mem_of (brk s) (replicate (Z.to_nat (32 + n)) 0) ∪ content s) (brk s + 32) n) as Hm.
  { eapply (mapped_sub _ (brk s) (32 + n)); [|lia|lia]. pose proof (mem_of_mapped (brk s) (replicate (Z.to_nat (32 + n)) 0) (content s)) as Hm.
    by rewrite length_replicate, Z2Nat.id in Hm by lia. }
  eapply wp_mono; [apply memset_spec; [unfold Str.NULL; unfold sizeof_block; lia|lia|exact Hm]|]. cbn beta. intros r m (Hb&Hf&Hd).
  rewrite length_replicate, Z2Nat.id in Hf by lia. wp_steps. unfold sizeof_block in *. cbn [brk bottom limit headers].
  split_and!; [done| | |lia|done|done|done].
  - destruct (live !! (brk s + 32)) as [l|] eqn:El; [|done]. destruct (H6 _ _ El) as (b&Hb'&_).
    replace (brk s + 32 - 32) with (brk s) in Hb' by lia. by apply Hne in Hb'.
  - apply hinv_new; [by split|lia|lia|done|done| | | |done].
    + intros a Ha. rewrite Hf by lia. apply lookup_union_r, mem_of_below. lia.
    + intros a Ha. rewrite Hd. pose proof (mem_of_mapped (brk s) (replicate (Z.to_nat (32 + n)) 0) (content s)) as Hmm.
      apply Hmm. rewrite length_replicate, Z2Nat.id by lia. lia.
    + rewrite length_replicate. lia.
Qed.

(** ** The functions *)

Definition with_content (s : heap) (m : mem) : heap :=
  Heap (base_block s) (start_heap s) (bottom s) (brk s) (limit s) (headers s) m.

(** Writing to the front of a live block changes this block only. *)
Lemma hinv_write s live p l l' m : hinv s live → live !! p = Some l → (length l' ≤ length l)%nat → writes (content s) p l' m →
  hinv (with_content s m) (<[p := l' ++ drop (length l') l]> live).
Proof.
  intros [H1 H2 H3 H4 H5 H6] Hp Hlen (Hb&Hf&Hd). split; cbn [with_content base_block start_heap bottom brk limit headers content]; [done| |done..|].
  - intros a Ha. rewrite Hd. auto.
  - destruct (H6 _ _ Hp) as (b&Hhb&Hsb&Hne&Hby). unfold sizeof_block in *. intros q k.
    destruct (decide (q = p)) as [->|Hq].
    + rewrite lookup_insert_eq. intros [= <-]. exists b. rewrite length_app, length_drop. split_and!; [done|lia| |].
      * intros [-> E]%app_eq_nil. cbn in E. by rewrite drop_0 in E.
      * apply bytes_at_app. split; [done|]. rewrite <- (take_drop (length l') l) in Hby. apply bytes_at_app in Hby as [_ Hby].
        rewrite length_take, Nat.min_l in Hby by done. eapply bytes_at_frame; [|exact Hby]. intros a Ha. apply Hf. lia.
    + rewrite lookup_insert_ne by done. intros Hk. destruct (H6 _ _ Hk) as (c&Hhc&Hsc&Hnk&Hbk). exists c. split_and!; [done..|].
      eapply bytes_at_frame; [|exact Hbk]. intros a Ha. apply Hf.
      destruct (decide (p < q)) as [Hpq|Hpq].
      * pose proof (H5 (p - 32) (q - 32) b c Hhb Hhc). lia.
      * pose proof (H5 (q - 32) (p - 32) c b Hhc Hhb). lia.
Qed.

Lemma find_free_ok s live n fuel : hinv s live → is_Some (headers s !! base_block s) →
  wp (find_free (S fuel) (base_block s) n) s (λ r s', s' = s ∧ r = inr (base_block s)).
Proof.
  intros [H1 H2 H3 H4 H5 H6] [b Hb]. cbn [find_free]. wp_step. eapply wp_block_at; [done|].
  destruct (H4 _ _ Hb) as (->&->&_). cbn [Z.eqb andb]. rewrite Z.eqb_refl. by wp_step.
Qed.

(** What [mm_malloc] does: the new block is at the old break. *)
Definition allocated (s : heap) (live : gmap Z (list Z)) (n p : Z) (s' : heap) : Prop :=
  p = brk s + sizeof_block ∧ live !! p = None ∧ hinv s' (<[p := replicate (Z.to_nat n) 0]> live) ∧
  brk s' = brk s + sizeof_block + n ∧ bottom s' = bottom s ∧ limit s' = limit s ∧
  ∃ pr, headers s' = <[brk s := Block n 0 pr NULL]> (headers s).

Lemma mm_malloc_ok s live n : hinv s live → 0 < n → brk s + sizeof_block + n ≤ limit s →
  wp (mm_malloc n) s (allocated s live n).
Proof.
  intros Hi Hn Hroom. pose proof Hi as [H1 H2 H3 H4 H5 H6]. unfold mm_malloc. rewrite (proj2 (Z.eqb_neq n 0)) by lia. wp_step. wp_step.
  destruct H3 as [[E Eh]|[E Hb]].
  - rewrite E, Z.eqb_refl. wp_step. apply wp_sbrk_zero; [lia|]. wp_step. apply wp_sbrk_grow; [lia|done|lia|]. wp_step. wp_step.
    eapply wp_mono; [apply (new_block_ok s live (brk s) (brk s) n NULL); [done|done|done|by left|by left]|].
    intros p s' (?&?&?&?&?&?&?). unfold allocated. eauto 10.
  - rewrite (proj2 (Z.eqb_neq _ _) E). wp_step. eapply wp_mono; [by apply (find_free_ok s live)|]. cbn beta. intros r s1 (->&->).
    wp_step. apply wp_sbrk_zero; [lia|]. wp_step. apply wp_sbrk_grow; [lia|done|lia|].
    eapply wp_mono; [apply (new_block_ok s live (base_block s) (start_heap s) n (base_block s)); [done|done|done|by right|by right]|].
    intros p s' (?&?&?&?&?&?&?). unfold allocated. eauto 10.
Qed.

Lemma live_address s live p l : hinv s live → live !! p = Some l → 0 < p ∧ p ≠ NULL ∧ p + Z.of_nat (length l) ≤ brk s.
Proof.
  intros [H1 H2 H3 H4 H5 H6] Hp. destruct (H6 _ _ Hp) as (b&Hb&Hs&_). destruct (H4 _ _ Hb) as (_&_&_&?&?&?).
  unfold sizeof_block, NULL in *. lia.
Qed.

(** [mm_free] does nothing. *)
Lemma mm_free_ok s live p l : hinv s live → live !! p = Some l → wp (mm_free p) s (λ _ s', s' = s).
Proof.
  intros Hi Hp. destruct (live_address _ _ _ _ Hi Hp) as (_&Hn&_). pose proof Hi as [H1 H2 H3 H4 H5 H6].
  destruct (H6 _ _ Hp) as (b&Hb&_). unfold mm_free. rewrite (proj2 (Z.eqb_neq _ _) Hn). wp_step. eapply wp_block_at; [done|].
  destruct (H4 _ _ Hb) as (_&En&Hpv&_). rewrite En, Z.eqb_refl. cbn [negb]. wp_step. destruct (Z.eqb_spec (bprev b) NULL) as [E|E]; cbn [negb].
  - by wp_steps.
  - destruct Hpv as [?|[c Hc]]; [done|]. wp_step. eapply wp_block_at; [done|]. destruct (H4 _ _ Hc) as (->&_). cbn [Z.eqb]. by wp_steps.
Qed.

Lemma hinv_delete s live p : hinv s live → hinv s (delete p live).
Proof. intros [H1 H2 H3 H4 H5 H6]. split; try done. intros q l [_ Hq]%lookup_delete_Some. auto. Qed.

(** [mm_realloc] to a smaller size cuts the block in place. *)
Lemma realloc_shrink_ok s live p l n : hinv s live → live !! p = Some l → 0 < n ≤ Z.of_nat (length l) →
  wp (mm_realloc p n) s (λ r s', r = p ∧ hinv s' (<[p := take (Z.to_nat n) l]> live) ∧ brk s' = brk s ∧ bottom s' = bottom s ∧ limit s' = limit s).
Proof.
  intros Hi Hp Hn. destruct (live_address _ _ _ _ Hi Hp) as (_&Hpn&_). pose proof Hi as [H1 H2 H3 H4 H5 H6].
  destruct (H6 _ _ Hp) as (b&Hb&Hs&Hne&Hby). unfold mm_realloc. rewrite (proj2 (Z.eqb_neq _ _) Hpn), (proj2 (Z.eqb_neq n 0)) by lia.
  wp_step. eapply wp_block_at; [done|]. rewrite (proj2 (Z.leb_le _ _)) by lia. destruct (H4 _ _ Hb) as (Hf&Hnx&Hpv&Hlo&_&Hhi).
  wp_step. apply wp_put_block; [done|lia|]. wp_step. split_and!; [done| |done..].
  set (h := <[p - sizeof_block := _]> (headers s)).
  assert (∀ q c, h !! q = Some c → ∃ c', headers s !! q = Some c' ∧ bfree c = bfree c' ∧ bnext c = bnext c' ∧ bprev c = bprev c' ∧
    0 ≤ bsize c ≤ bsize c') as Hh.
  { intros q c. unfold h. destruct (decide (q = p - sizeof_block)) as [->|Hq]; [rewrite lookup_insert_eq; intros [= <-]|rewrite lookup_insert_ne by done].
    - exists b. cbn. split_and!; [done..|lia|lia].
    - intros Hc. exists c. destruct (H4 _ _ Hc) as (_&_&_&_&?&_). split_and!; [done..|lia|lia]. }
  assert (∀ q, is_Some (headers s !! q) → is_Some (h !! q)) as Hk.
  { intros q Hq. unfold h. destruct (decide (q = p - sizeof_block)) as [->|]; [rewrite lookup_insert_eq; by eexists|by rewrite lookup_insert_ne]. }
  split; cbn [base_block start_heap bottom brk limit headers content]; [done|done| | | |].
  - destruct H3 as [[_ E]|[? ?]]; [rewrite E in Hb; by rewrite lookup_empty in Hb|right; auto].
  - intros q c (c'&Hc'&->&->&->&Hsz)%Hh. destruct (H4 _ _ Hc') as (?&?&Hpv'&?&?&?). split_and!; [done|done| |done|lia|lia]. destruct Hpv'; auto.
  - intros q r c d (c'&Hc'&_&_&_&Hsz)%Hh (d'&Hd'&_)%Hh Hqr. pose proof (H5 q r c' d' Hc' Hd' Hqr). lia.
  - intros q k. destruct (decide (q = p)) as [->|Hq].
    + rewrite lookup_insert_eq. intros [= <-]. exists (Block n (bfree b) (bprev b) (bnext b)). unfold h. rewrite lookup_insert_eq.
      cbn [bsize]. rewrite length_take. split_and!; [done|lia| |].
      * intros E%(f_equal length). rewrite length_take in E. cbn in E. lia.
      * rewrite <- (take_drop (Z.to_nat n) l) in Hby. by apply bytes_at_app in Hby as [Hby _].
    + rewrite lookup_insert_ne by done. intros Hk'. destruct (H6 _ _ Hk') as (c&Hc&?&?&?). exists c. unfold h. rewrite lookup_insert_ne by lia. done.
Qed.

(** [mm_realloc] to a larger size moves the contents to a new block. *)
Lemma realloc_grow_ok s live p l n : hinv s live → live !! p = Some l → Z.of_nat (length l) < n → brk s + sizeof_block + n ≤ limit s →
  wp (mm_realloc p n) s (λ r s', r = brk s + sizeof_block ∧ live !! r = None ∧
    hinv s' (delete p (<[r := l ++ replicate (Z.to_nat n - length l) 0]> live)) ∧
    brk s' = brk s + sizeof_block + n ∧ bottom s' = bottom s ∧ limit s' = limit s).
Proof.
  intros Hi Hp Hn Hroom. destruct (live_address _ _ _ _ Hi Hp) as (Hp0&Hpn&Hpb). pose proof Hi as [H1 H2 H3 H4 H5 H6].
  destruct (H6 _ _ Hp) as (b&Hb&Hs&Hne&Hby). unfold mm_realloc. rewrite (proj2 (Z.eqb_neq _ _) Hpn), (proj2 (Z.eqb_neq n 0)) by lia.
  wp_step. eapply wp_block_at; [done|]. rewrite (proj2 (Z.leb_gt _ _)) by lia. wp_step.
  eapply wp_mono; [apply (mm_malloc_ok s live n); [done|lia|done]|]. intros r s1 (->&Hr&Hi1&E1&E2&E3&pr&Eh).
  assert (p - sizeof_block ≠ brk s) as Hnb by (unfold sizeof_block; lia).
  wp_step. eapply wp_block_at; [rewrite Eh, lookup_insert_ne by done; exact Hb|]. wp_step. apply wp_on_content.
  replace (brk s + sizeof_block - sizeof_block + sizeof_block) with (brk s + sizeof_block) by lia.
  replace (p - sizeof_block + sizeof_block) with p by lia.
  assert (p ≠ brk s + sizeof_block) as Hpr by (intros ->; congruence).
  assert (live1p : <[brk s + sizeof_block := replicate (Z.to_nat n) 0]> live !! p = Some l) by (by rewrite lookup_insert_ne).
  destruct (h_live _ _ Hi1 p l live1p) as (_&_&_&_&Hby1).
  destruct (h_live _ _ Hi1 (brk s + sizeof_block) (replicate (Z.to_nat n) 0) ltac:(apply lookup_insert_eq)) as (_&_&_&_&Hby2).
  apply bytes_at_mapped in Hby2. rewrite length_replicate, Z2Nat.id in Hby2 by lia.
  eapply wp_mono; [apply (memcpy_spec _ _ _ l)|]; [done|unfold Str.NULL, sizeof_block; lia|left; unfold Str.NULL; lia|done|..].
  { eapply mapped_sub; [exact Hby2|lia|lia]. }
  { unfold sizeof_block in *. lia. }
  cbn beta. intros r m [-> Hw].
  pose proof (hinv_write s1 _ (brk s + sizeof_block) _ l m Hi1 ltac:(apply lookup_insert_eq) ltac:(rewrite length_replicate; lia) Hw) as Hi2.
  rewrite insert_insert_eq, drop_replicate in Hi2.
  wp_step. eapply wp_mono; [apply (mm_free_ok (with_content s1 m) _ p l Hi2); by rewrite lookup_insert_ne|]. intros [] s' ->. wp_step.
  split_and!; [done|done|by apply hinv_delete|done..].
Qed.

(** ** Clients *)

(** The states a client can reach with its blocks [live], and the bytes asked
    for so far, headers included; the client writes to its own blocks only. *)
Inductive client : heap → gmap Z (list Z) → Z → Prop :=
| cl_start bot lim : 0 < bot ≤ lim → lim < 2 ^ 62 → client (heap_start bot lim) ∅ 0
| cl_malloc s live asked n p s' : client s live asked → 0 < n → brk s + sizeof_block + n ≤ limit s → mm_malloc n s = Ret (p, s') →
    client s' (<[p := replicate (Z.to_nat n) 0]> live) (asked + sizeof_block + n)
| cl_free s live asked p l s' : client s live asked → live !! p = Some l → mm_free p s = Ret (tt, s') → client s' (delete p live) asked
| cl_shrink s live asked p l n r s' : client s live asked → live !! p = Some l → 0 < n ≤ Z.of_nat (length l) →
    mm_realloc p n s = Ret (r, s') → client s' (<[r := take (Z.to_nat n) l]> live) asked
| cl_grow s live asked p l n r s' : client s live asked → live !! p = Some l → Z.of_nat (length l) < n →
    brk s + sizeof_block + n ≤ limit s → mm_realloc p n s = Ret (r, s') →
    client s' (delete p (<[r := l ++ replicate (Z.to_nat n - length l) 0]> live)) (asked + sizeof_block + n)
| cl_write s live asked p l i x s' : client s live asked → live !! p = Some l → (i < length l)%nat →
    on_content (store (p + Z.of_nat i) x) s = Ret (tt, s') → client s' (<[p := <[i := x]> l]> live) asked.

Lemma store_ok s live p l i x : hinv s live → live !! p = Some l → (i < length l)%nat →
  wp (on_content (store (p + Z.of_nat i) x)) s (λ _ s', hinv s' (<[p := <[i := x]> l]> live) ∧
    brk s' = brk s ∧ bottom s' = bottom s ∧ limit s' = limit s).
Proof.
  intros Hi Hp Hl. destruct (h_live _ _ Hi p l Hp) as (b&Hb&Hs&Hne&Hby). apply wp_on_content.
  assert (p + Z.of_nat i ∈ dom (content s)) as Hd by (apply bytes_at_mapped in Hby; apply Hby; lia).
  apply wp_store; [done|]. split_and!; [|done..].
  replace (<[i := x]> l) with ((take i l ++ [x]) ++ drop (length (take i l ++ [x])) l).
  - apply (hinv_write s live p l); [done|done|rewrite length_app, length_take; cbn; lia|].
    apply writes_snoc; rewrite length_take, Nat.min_l by lia; [done|]. split_and!; [|done|done].
    eapply bytes_at_frame; [|rewrite <- (take_drop i l) in Hby; by apply bytes_at_app in Hby as [Hby _]].
    intros a Ha. rewrite length_take in Ha. rewrite lookup_insert_ne by lia. done.
  - rewrite length_app, length_take, Nat.min_l by lia. cbn [length]. rewrite Nat.add_comm. cbn [Nat.add].
    rewrite <- app_assoc. by rewrite insert_take_drop.
Qed.

Lemma client_inv s live asked : client s live asked → hinv s live ∧ brk s = bottom s + asked.
Proof.
  induction 1 as [bot lim ? ?|s live asked n p s' _ [Hi Hb] Hn Hr Hm|s live asked p l s' _ [Hi Hb] Hp Hf|
    s live asked p l n r s' _ [Hi Hb] Hp Hn Hre|s live asked p l n r s' _ [Hi Hb] Hp Hn Hr Hre|s live asked p l i x s' _ [Hi Hb] Hp Hl Hw].
  - split; [|cbn; lia]. split; cbn; [lia|lia|by left|intros p b Hp; by rewrite lookup_empty in Hp..| |];
      [intros p q b c Hp|intros p l Hp]; by rewrite lookup_empty in Hp.
  - pose proof (wp_result _ _ _ _ _ (mm_malloc_ok s live n Hi Hn Hr) Hm) as (_&_&H1&H2&H3&_). split; [done|lia].
  - pose proof (wp_result _ _ _ _ _ (mm_free_ok s live p l Hi Hp) Hf) as ->. split; [by apply hinv_delete|done].
  - pose proof (wp_result _ _ _ _ _ (realloc_shrink_ok s live p l n Hi Hp Hn) Hre) as (->&H1&H2&H3&_). split; [done|lia].
  - pose proof (wp_result _ _ _ _ _ (realloc_grow_ok s live p l n Hi Hp Hn Hr) Hre) as (->&_&H1&H2&H3&_). split; [done|lia].
  - pose proof (wp_result _ _ _ _ _ (store_ok s live p l i x Hi Hp Hl) Hw) as (H1&H2&H3&_). split; [done|lia].
Qed.

(** ** Theorems *)

(** C33: what the homework allocator promises its client, and that it never
    reuses memory.  In every state a client can reach: its blocks do not
    overlap and hold what was written to them; while there is room,
    [mm_malloc] returns a block of zeros that overlaps no live block;
    [mm_realloc] returns a block with the old contents, cut or followed by
    zeros; freeing a block changes nothing at all.  So the break is at the sum
    of all requests ever made, each with its header: no byte is used twice. *)
Theorem mm_alloc_never_reuses s live asked : client s live asked →
  brk s = bottom s + asked ∧
  (∀ p l, live !! p = Some l → bytes_at (content s) p l) ∧
  (∀ p q l k, live !! p = Some l → live !! q = Some k → p < q → p + Z.of_nat (length l) ≤ q) ∧
  (∀ n, 0 < n → brk s + sizeof_block + n ≤ limit s → ∃ p s', mm_malloc n s = Ret (p, s') ∧ p = brk s + sizeof_block ∧
    bytes_at (content s') p (replicate (Z.to_nat n) 0) ∧ client s' (<[p := replicate (Z.to_nat n) 0]> live) (asked + sizeof_block + n)) ∧
  (∀ p l, live !! p = Some l → mm_free p s = Ret (tt, s)) ∧
  (∀ p l n, live !! p = Some l → 0 < n → brk s + sizeof_block + n ≤ limit s → ∃ r s', mm_realloc p n s = Ret (r, s') ∧
    bytes_at (content s') r (take (Z.to_nat n) l ++ replicate (Z.to_nat n - length l) 0)).
Proof.
  intros Hc. destruct (client_inv _ _ _ Hc) as [Hi Hb]. split_and!; [done| | | | |].
  - intros p l Hp. by destruct (h_live _ _ Hi p l Hp) as (_&_&_&_&?).
  - intros p q l k Hp Hq Hpq. destruct (h_live _ _ Hi p l Hp) as (b&Hbp&Hsb&_), (h_live _ _ Hi q k Hq) as (c&Hcq&_).
    pose proof (h_apart _ _ Hi _ _ b c Hbp Hcq). unfold sizeof_block in *. lia.
  - intros n Hn Hroom. pose proof (mm_malloc_ok s live n Hi Hn Hroom) as H. apply wp_outcome in H as (p&s'&E&(->&_&Hi'&_)).
    exists (brk s + sizeof_block), s'. split_and!; [done|done| |by eapply cl_malloc].
    by destruct (h_live _ _ Hi' _ _ (lookup_insert_eq _ _ _)) as (_&_&_&_&?).
  - intros p l Hp. pose proof (mm_free_ok s live p l Hi Hp) as H. by apply wp_outcome in H as ([]&s'&E&->).
  - intros p l n Hp Hn Hroom. destruct (decide (n ≤ Z.of_nat (length l))) as [Hle|Hle].
    + pose proof (realloc_shrink_ok s live p l n Hi Hp ltac:(lia)) as H. apply wp_outcome in H as (r&s'&E&(->&Hi'&_)).
      exists p, s'. split; [done|]. replace (Z.to_nat n - length l)%nat with 0%nat by lia. rewrite app_nil_r.
      by destruct (h_live _ _ Hi' _ _ (lookup_insert_eq _ _ _)) as (_&_&_&_&?).
    + pose proof (realloc_grow_ok s live p l n Hi Hp ltac:(lia) Hroom) as H. apply wp_outcome in H as (r&s'&E&(->&Hr&Hi'&_)).
      exists (brk s + sizeof_block), s'. split; [done|]. rewrite take_ge by lia.
      destruct (h_live _ _ Hi' (brk s + sizeof_block) (l ++ replicate (Z.to_nat n - length l) 0)) as (_&_&_&_&?); [|done].
      rewrite lookup_delete_ne by congruence. apply lookup_insert_eq.
Qed.

(** When the break cannot be moved, [mm_malloc] does not return [NULL]: the
    result of [sbrk] is not checked, and the header is written above the
    break. *)
Theorem mm_malloc_out_of_memory s live asked n : client s live asked → 0 < n < 2 ^ 62 → limit s < brk s + sizeof_block + n →
  mm_malloc n s = Fail BadAccess.
Proof.
  intros Hc Hn Hfull. destruct (client_inv _ _ _ Hc) as [Hi _]. pose proof (h_range _ _ Hi) as Hr.
  assert (sbrk 0 s = Ret (brk s, s)) as E0.
  { assert (wp (sbrk 0) s (λ a s', a = brk s ∧ s' = s)) as H by (apply wp_sbrk_zero; [lia|done]). by apply wp_outcome in H as (a&s'&E&->&->). }
  assert (sbrk (u64 (sizeof_block + n)) s = Ret (u64 (-1), s)) as E1.
  { unfold sbrk, bind, get_state, sizeof_block in *. rewrite u64_small, s64_small by word_lia.
    rewrite (bool_decide_false (_ ≤ limit s)) by lia. by rewrite andb_false_r. }
  assert (∀ base start pr, new_block (brk s) n pr (Heap base start (bottom s) (brk s) (limit s) (headers s) (content s)) = Fail BadAccess) as E2.
  { intros base start pr. unfold new_block, put_block, bind, get_state, sizeof_block. cbn [bottom brk].
    by rewrite (bool_decide_false (brk s + 32 ≤ brk s)), andb_false_r by lia. }
  unfold mm_malloc. rewrite (proj2 (Z.eqb_neq n 0)) by lia. unfold bind at 1, get_state. destruct (h_base _ _ Hi) as [[E _]|[E Hb]].
  - rewrite E, Z.eqb_refl. unfold bind. rewrite E0, E1. cbn [modify]. unfold modify. by rewrite E2.
  - rewrite (proj2 (Z.eqb_neq _ _) E). pose proof (find_free_ok s live n (base.size (headers s)) Hi Hb) as H.
    apply wp_outcome in H as (r&s'&Ef&->&->). unfold bind. rewrite Ef, E0, E1. rewrite <- (E2 (base_block s) (start_heap s) (base_block s)). by destruct s.
Qed.

(** A client that asks for a block, writes to it and moves it. *)
Definition state_after {A} (c : M heap A) (s : heap) : heap := match c s with Ret (_, s') => s' | Fail _ => s end.
Definition sample1 : heap := state_after (mm_malloc 3) (heap_start 4096 8192).
Definition sample2 : heap := state_after (on_content (store (4128 + Z.of_nat 1) 7)) sample1.
Definition sample3 : heap := state_after (mm_realloc 4128 5) sample2.
Definition live1 : gmap Z (list Z) := <[4128 := replicate (Z.to_nat 3) 0]> ∅.
Definition live2 : gmap Z (list Z) := <[4128 := <[1%nat := 7]> [0; 0; 0]]> live1.
Definition live3 : gmap Z (list Z) :=
  delete 4128 (<[4163 := [0; 7; 0] ++ replicate (Z.to_nat 5 - length [0; 7; 0]) 0]> live2).

Lemma mm_alloc_never_reuses_witness :
  client sample3 live3 (0 + 32 + 3 + 32 + 5) ∧ live3 !! 4163 = Some [0; 7; 0; 0; 0] ∧ brk sample3 = 4096 + 72 ∧
  mm_free 4163 sample3 = Ret (tt, sample3).
Proof.
  assert (client sample1 live1 (0 + 32 + 3)) as H1.
  { eapply (cl_malloc (heap_start 4096 8192) ∅ 0 3 4128); [apply (cl_start 4096 8192); lia|lia|vm_compute; discriminate|vm_compute; reflexivity]. }
  assert (client sample2 live2 (0 + 32 + 3)) as H2.
  { eapply (cl_write sample1 live1 _ 4128 [0; 0; 0] 1 7); [exact H1|vm_compute; reflexivity|cbn; lia|vm_compute; reflexivity]. }
  assert (client sample3 live3 (0 + 32 + 3 + 32 + 5)) as H3.
  { eapply (cl_grow sample2 live2 _ 4128 [0; 7; 0] 5 4163);
      [exact H2|vm_compute; reflexivity|cbn; lia|vm_compute; discriminate|vm_compute; reflexivity]. }
  split; [exact H3|]. destruct (mm_alloc_never_reuses sample3 live3 _ H3) as (Hb&_&_&_&Hf&_).
  split_and!; [vm_compute; reflexivity|rewrite Hb; vm_compute; reflexivity|].
  apply (Hf 4163 [0; 7; 0; 0; 0]). vm_compute. reflexivity.
Defined.
