(* ===== verification/Http.v ===== *)
(** * The web server homework (src/personal/hw4: libhttp.c, httpserver.c)

    Parsing of a request and the files handler of the server.  The file system
    and the socket are the host's: [os] holds what its calls return, and is an
    argument of the handler; a [write] takes as many bytes as the next outcome
    of the socket says, or fails.  What was sent is kept as a list of bytes.
    C strings are lists of characters without the terminator; a string in a
    buffer is followed by it.  Memory for the request suffices (when it does
    not, the server exits). *)

From Stdlib Require Import String.
From stdpp Require Import gmap.
From S2P Require Import Prelude Stdio.
Local Open Scope Z_scope.

(** ** The host *)

Inductive kind := S_REG | S_DIR | S_OTHER.

(** [stat], the contents of a file that [fopen] opens, and the entries that
    [readdir] returns, with their [d_type]. *)
Record os := OS {
  os_stat : list Z → option kind; os_file : list Z → option (list Z); os_dir : list Z → option (list (list Z * Z)) }.

(** The socket: what was sent, whether it was closed, and the outcomes of the
    calls of [write] to come (bytes taken, or -1); when they are used up, all
    is taken.  The paths that were looked up are kept for the record. *)
Record socket := Socket { sent : list Z; closed : bool; accepts : list Z; touched : list (list Z) }.

Definition LIBHTTP_REQUEST_MAX_SIZE : nat := 8192.

Definition dprintf (text : list Z) : M socket unit :=
  modify (λ s, Socket (sent s ++ text) (closed s) (accepts s) (touched s)).
Definition close : M socket unit := modify (λ s, Socket (sent s) true (accepts s) (touched s)).
Definition touch (path : list Z) : M socket unit :=
  modify (λ s, Socket (sent s) (closed s) (accepts s) (touched s ++ [path])).

(** [write (fd, data, length)] *)
Definition write (data : list Z) : M socket Z :=
  s ← get_state;
  match accepts s with
  | [] => put_state (Socket (sent s ++ data) (closed s) [] (touched s));; ret (Z.of_nat (length data))
  | k :: ks =>
      if k <? 0 then put_state (Socket (sent s) (closed s) ks (touched s));; ret (-1)
      else
        let n := Nat.min (Z.to_nat k) (length data) in
        put_state (Socket (sent s ++ take n data) (closed s) ks (touched s));; ret (Z.of_nat n)
  end.

(** ** libhttp.c *)

Record http_request := HttpRequest { method : list Z; path : list Z }.

(** The characters of the buffer from the pointer on that satisfy the
    condition, and the pointer behind them; the pointer must stay in the
    buffer. *)
Fixpoint read_while (cond : Z → bool) (p : list Z) : outcome (list Z * list Z) :=
  match p with
  | [] => Fail BadAccess
  | c :: r =>
      if cond c then match read_while cond r with Ret (a, q) => Ret (c :: a, q) | Fail f => Fail f end
      else Ret ([], p)
  end.

Definition is_upper (c : Z) : bool := (65 <=? c) && (c <=? 90).
Definition in_path (c : Z) : bool := negb (c =? 0) && negb (c =? 32) && negb (c =? 10).
Definition in_line (c : Z) : bool := negb (c =? 0) && negb (c =? 10).

(** The [do ... while (0)] block: [None] is a [break]. *)
Definition parse_buffer (read_buffer : list Z) : outcome (option http_request) :=
  match read_while is_upper read_buffer with
  | Fail f => Fail f
  | Ret (m, read_end) =>
      if bool_decide (length m = 0%nat) then Ret None
      else if negb (peek read_end =? 32) then Ret None
      else
        match read_while in_path (tail read_end) with
        | Fail f => Fail f
        | Ret (p, read_end) =>
            if bool_decide (length p = 0%nat) then Ret None
            else
              match read_while in_line read_end with
              | Fail f => Fail f
              | Ret (_, read_end) => if negb (peek read_end =? 10) then Ret None else Ret (Some (HttpRequest m p))
              end
        end
  end.

(** [http_request_parse]: [bytes] is what [read] returns, at most
    [LIBHTTP_REQUEST_MAX_SIZE] bytes, or [None] for -1; [old] is what malloc
    left in the buffer.  [read_buffer[bytes_read] = 0] is a write before the
    buffer when [read] fails. *)
Definition http_request_parse (bytes : option (list Z)) (old : list Z) : outcome (option http_request) :=
  match bytes with
  | None => Fail BadAccess
  | Some bs => parse_buffer (bs ++ 0 :: drop (S (length bs)) (take (S LIBHTTP_REQUEST_MAX_SIZE) old))
  end.

Definition http_get_response_message (status_code : Z) : string :=
  if status_code =? 100 then "Continue"
  else if status_code =? 200 then "OK"
  else if status_code =? 301 then "Moved Permanently"
  else if status_code =? 302 then "Found"
  else if status_code =? 304 then "Not Modified"
  else if status_code =? 400 then "Bad Request"
  else if status_code =? 401 then "Unauthorized"
  else if status_code =? 403 then "Forbidden"
  else if status_code =? 404 then "Not Found"
  else if status_code =? 405 then "Method Not Allowed"
  else "Internal Server Error".

(** [%d] and [%ld] of a number that is not negative. *)
Fixpoint digits (fuel : nat) (n : Z) : list Z :=
  match fuel with
  | O => []
  | S fuel => if n <? 10 then [48 + n] else digits fuel (n / 10) ++ [48 + n mod 10]
  end.
Definition decimal (n : Z) : list Z := digits 20 n.

Definition crlf : list Z := [13; 10].
Definition http_start_response (status_code : Z) : M socket unit :=
  dprintf (chars "HTTP/1.0 " ++ decimal status_code ++ [32] ++ chars (http_get_response_message status_code) ++ crlf).
Definition http_send_header (key value : list Z) : M socket unit := dprintf (key ++ chars ": " ++ value ++ crlf).
Definition http_end_headers : M socket unit := dprintf crlf.

(** [strrchr (file_name, '.')] *)
Fixpoint from_last_dot (s : list Z) : option (list Z) :=
  match s with
  | [] => None
  | c :: r => match from_last_dot r with Some e => Some e | None => if c =? 46 then Some s else None end
  end.
Definition http_get_mime_type (file_name : list Z) : string :=
  match from_last_dot file_name with
  | None => "text/plain"
  | Some e =>
      if bool_decide (e = chars ".html") || bool_decide (e = chars ".htm") then "text/html"
      else if bool_decide (e = chars ".jpg") || bool_decide (e = chars ".jpeg") then "image/jpeg"
      else if bool_decide (e = chars ".png") then "image/png"
      else if bool_decide (e = chars ".css") then "text/css"
      else if bool_decide (e = chars ".js") then "application/javascript"
      else if bool_decide (e = chars ".pdf") then "application/pdf"
      else "text/plain"
  end.

(** ** httpserver.c *)

(** The inner loop of [serve_file] and the loop of [serve_directory]: the
    result of [write] is a [size_t], so that -1 counts as progress. *)
Fixpoint write_loop (fuel : nat) (buffer : list Z) (nwrite nread : Z) : M socket unit :=
  match fuel with
  | O => fail OutOfFuel
  | S fuel =>
      if negb (nwrite <=? nread) then fail BadAccess
      else
        fdwrite ← write (take (Z.to_nat (nread - nwrite)) (drop (Z.to_nat nwrite) buffer));
        if 0 <? u64 fdwrite then write_loop fuel buffer (u64 (nwrite + u64 fdwrite)) nread else ret tt
  end.

(** [fread] in pieces of 1024 bytes, each written before the next is read. *)
Fixpoint copy_loop (fuel : nat) (content : list Z) : M socket unit :=
  match fuel with
  | O => fail OutOfFuel
  | S fuel =>
      let buffer := take 1024 content in
      if bool_decide (length buffer = 0%nat) then ret tt
      else
        s ← get_state;
        write_loop (S (S (length buffer + length (accepts s)))) buffer 0 (Z.of_nat (length buffer));;
        copy_loop fuel (drop 1024 content)
  end.

(** [fread] from the null pointer that a failed [fopen] returns faults. *)
Definition serve_file (o : os) (path : list Z) : M socket unit :=
  let size := Z.of_nat (length (default [] (os_file o path))) in
  http_start_response 200;;
  http_send_header (chars "Content-Type") (chars (http_get_mime_type path));;
  http_send_header (chars "Content-Length") (decimal size);;
  http_end_headers;;
  touch path;;
  content ← deref (os_file o path);
  copy_loop (S (length content)) content.

(** [sprintf] into a buffer of [n] characters. *)
Definition sprintf (n : nat) (text : list Z) : M socket (list Z) := if (length text <? n)%nat then ret text else fail BadAccess.

Definition link (path name : list Z) : list Z :=
  chars "<a href=" ++ [34] ++ chars "http://192.168.162.162:8000" ++ drop 2 path ++ name ++ [34] ++ chars ">" ++ name ++ chars "</a><br>".

(** The loop over the entries: the list of links, or [None] when index.html
    was served. *)
Fixpoint entries_loop (o : os) (path : list Z) (entries : list (list Z * Z)) (filelist : list Z) : M socket (option (list Z)) :=
  match entries with
  | [] => ret (Some filelist)
  | (d_name, d_type) :: entries =>
      if d_type =? 8 then
        if bool_decide (d_name = chars "index.html") then
          filepath ← sprintf 1024 (path ++ chars "index.html");
          serve_file o filepath;; ret None
        else
          filepath ← sprintf 1024 (link path d_name);
          filelist ← sprintf 10240 (filelist ++ filepath);
          entries_loop o path entries filelist
      else entries_loop o path entries filelist
  end.

Definition serve_directory (o : os) (path : list Z) : M socket unit :=
  http_start_response 200;;
  http_send_header (chars "Content-Type") (chars (http_get_mime_type (chars ".html")));;
  http_end_headers;;
  touch path;;
  entries ← deref (os_dir o path);
  r ← entries_loop o path entries [];
  match r with
  | None => ret tt
  | Some filelist => s ← get_state; write_loop (S (S (length filelist + length (accepts s)))) filelist 0 (Z.of_nat (length filelist))
  end.

(** [strstr (path, "..") != NULL] *)
Fixpoint has_dotdot (s : list Z) : bool :=
  match s with
  | c :: ((d :: _) as r) => ((c =? 46) && (d =? 46)) || has_dotdot r
  | _ => false
  end.

Definition error_response (status : Z) : M socket unit :=
  http_start_response status;; http_send_header (chars "Content-Type") (chars "text/html");; http_end_headers.

Definition handle_request (o : os) (request : option http_request) : M socket unit :=
  match request with
  | None => error_response 400;; close
  | Some r =>
      if negb (bool_decide (head (path r) = Some 47)) then error_response 400;; close
      else if has_dotdot (path r) then error_response 403;; close
      else
        let p := chars "./" ++ path r in
        touch p;;
        match os_stat o p with
        | Some S_REG => serve_file o p
        | Some S_DIR => serve_directory o p
        | Some S_OTHER => ret tt
        | None => error_response 404
        end;;
        close
  end.
Definition handle_files_request (o : os) (bytes : option (list Z)) (old : list Z) : M socket unit :=
  request ← (λ s, match http_request_parse bytes old with Ret r => Ret (r, s) | Fail f => Fail f end);
  handle_request o request.

(** ** Parsing *)

Lemma read_while_ret cond p a q : read_while cond p = Ret (a, q) ↔
  p = a ++ q ∧ Forall (λ c, cond c = true) a ∧ ∃ c r, q = c :: r ∧ cond c = false.
Proof.
  revert a q. induction p as [|c p IH]; intros a q; cbn.
  - split; [done|]. intros (E&_&c&r&->&_). by destruct a.
  - destruct (cond c) eqn:Ec.
    + destruct (read_while cond p) as [[a' q']|f] eqn:Er.
      * split.
        -- intros [= <- <-]. destruct (proj1 (IH a' q') eq_refl) as (->&Ha&Hq). split_and!; [done|by constructor|done].
        -- intros (E&Ha&x&r&->&Hx). destruct a as [|y a]; cbn in E; injection E as -> E; [congruence|].
           inversion Ha; subst. assert (Ret (a', q') = Ret (a, x :: r)) as [= -> ->]; [|done].
           apply IH. split_and!; [done|done|eauto].
      * split; [done|]. intros (E&Ha&x&r&->&Hx). destruct a as [|y a]; cbn in E; injection E as -> E; [congruence|].
        inversion Ha; subst. assert (Fail f = Ret (a, x :: r)); [|done]. apply IH. split_and!; [done|done|eauto].
    + split.
      * intros [= <- <-]. split_and!; [done|constructor|eauto].
      * intros (E&Ha&x&r&->&Hx). destruct a as [|y a]; cbn in E; injection E as -> E; [by subst|]. inversion Ha; congruence.
Qed.

(** Reading stops at the terminator at the latest. *)
Lemma read_while_stops cond l r : cond 0 = false → ∃ a l', read_while cond (l ++ 0 :: r) = Ret (a, l' ++ 0 :: r).
Proof.
  intros H0. induction l as [|c l IH]; cbn.
  - rewrite H0. by exists [], [].
  - destruct (cond c); [|by exists [], (c :: l)]. destruct IH as (a&l'&->). by exists (c :: a), l'.
Qed.

Lemma parse_returns l r : ∃ o, parse_buffer (l ++ 0 :: r) = Ret o.
Proof.
  unfold parse_buffer. destruct (read_while_stops is_upper l r eq_refl) as (m&l1&->). case_bool_decide; [eauto|].
  destruct l1 as [|d l1]; [cbn; eauto|]. destruct (peek _ =? 32); cbn [negb app tail]; [|eauto].
  destruct (read_while_stops in_path l1 r eq_refl) as (p&l2&->). case_bool_decide; [eauto|].
  destruct (read_while_stops in_line l2 r eq_refl) as (v&l3&->). destruct (negb _); eauto.
Qed.

(** A part of a string in a buffer that has no terminator ends before it. *)
Lemma prefix_before_zero l t bs j : l ++ t = bs ++ 0 :: j → 0 ∉ l → ∃ t', bs = l ++ t'.
Proof.
  revert bs. induction l as [|c l IH]; intros bs E H0; [by exists bs|]. apply not_elem_of_cons in H0 as [Hc H0].
  destruct bs as [|b bs]; cbn in E; injection E as -> E; [done|]. destruct (IH _ E H0) as [t' ->]. by exists t'.
Qed.

(** The requests that [http_request_parse] accepts: an upper-case method, a
    space, a path, the rest of the line, and its end. *)
Inductive request_line : list Z → list Z → list Z → Prop :=
| request_line_intro m p rest tail : m ≠ [] → Forall (λ c, is_upper c = true) m → p ≠ [] → Forall (λ c, in_path c = true) p →
    Forall (λ c, in_line c = true) rest → head (rest ++ [10]) = Some 32 ∨ rest = [] → request_line m p (m ++ 32 :: p ++ rest ++ 10 :: tail).

Lemma parse_buffer_some b m p : parse_buffer b = Ret (Some (HttpRequest m p)) ↔ request_line m p b.
Proof.
  unfold parse_buffer. split.
  - destruct (read_while is_upper b) as [[m' q]|] eqn:E1; [|done]. apply read_while_ret in E1 as (->&Hm&c&q1&->&Hc).
    case_bool_decide as Hm0; [done|]. change (peek (c :: q1)) with c. cbn [tail]. destruct (Z.eqb_spec c 32) as [->|]; [|done]. cbn [negb].
    destruct (read_while in_path q1) as [[p' q]|] eqn:E2; [|done]. apply read_while_ret in E2 as (->&Hp&d&q2&->&Hd).
    case_bool_decide as Hp0; [done|]. destruct (read_while in_line (d :: q2)) as [[v q]|] eqn:E3; [|done].
    apply read_while_ret in E3 as (E3&Hv&e&q3&->&He). change (peek (e :: q3)) with e. destruct (Z.eqb_spec e 10) as [->|]; [|done]. cbn [negb].
    intros [= <- <-]. rewrite E3. constructor; [by intros ->|done|by intros ->|done|done|].
    destruct v as [|x v]; [by right|left]. cbn in *. injection E3 as -> _. inversion Hv as [|? ? Hx]; subst.
    unfold in_path, in_line in *. f_equal. destruct (Z.eqb_spec x 0), (Z.eqb_spec x 32), (Z.eqb_spec x 10); cbn in *; congruence.
  - intros [m' p' rest last Hm0 Hm Hp0 Hp Hv Hs].
    assert (read_while is_upper (m' ++ 32 :: p' ++ rest ++ 10 :: last) = Ret (m', 32 :: p' ++ rest ++ 10 :: last)) as ->.
    { apply read_while_ret. split_and!; [done|done|eauto]. }
    rewrite bool_decide_false by (by destruct m'). change (peek (32 :: _)) with 32. cbn [tail Z.eqb Pos.eqb negb].
    assert (read_while in_path (p' ++ rest ++ 10 :: last) = Ret (p', rest ++ 10 :: last)) as ->.
    { apply read_while_ret. split_and!; [done|done|]. destruct rest as [|x rest]; cbn in *; [eauto|].
      destruct Hs as [[= ->]|?]; [eauto|done]. }
    rewrite bool_decide_false by (by destruct p').
    assert (read_while in_line (rest ++ 10 :: last) = Ret (rest, 10 :: last)) as ->; [|done].
    apply read_while_ret. split_and!; [done|done|eauto].
Qed.

(** ** Responses *)

Definition accepting (s : socket) : Prop := Forall (λ k, 0 < k) (accepts s).

(** The step only sent [text]. *)
Record sends (s : socket) (text : list Z) (s' : socket) : Prop := Sends {
  sends_sent : sent s' = sent s ++ text; sends_closed : closed s' = closed s; sends_touched : touched s' = touched s;
  sends_accepting : accepting s → accepting s' }.

Lemma sends_nil s : sends s [] s.
Proof. split; [by rewrite app_nil_r|done..]. Qed.
Lemma sends_app s s1 s2 t1 t2 : sends s t1 s1 → sends s1 t2 s2 → sends s (t1 ++ t2) s2.
Proof. intros [A1 A2 A3 A4] [B1 B2 B3 B4]. split; [by rewrite B1, A1, app_assoc|congruence|congruence|auto]. Qed.

Lemma wp_dprintf s text (Q : unit → socket → Prop) : (∀ s', sends s text s' → Q tt s') → wp (dprintf text) s Q.
Proof. intros H. unfold dprintf. wp_step. by apply H. Qed.

(** A socket that takes bytes takes some of what is left. *)
Lemma write_ok s data : accepting s → data ≠ [] →
  wp (write data) s (λ n s', ∃ k, n = Z.of_nat k ∧ (0 < k ≤ length data)%nat ∧ sends s (take k data) s').
Proof.
  intros Ha Hd. assert (0 < length data)%nat by (destruct data; [done|cbn; lia]). unfold write. wp_step. wp_step.
  unfold accepting in Ha. destruct (accepts s) as [|k ks] eqn:E.
  - wp_steps. exists (length data). rewrite take_ge by done. split_and!; [done|lia|lia|]. split; cbn; [done..|constructor].
  - inversion Ha as [|? ? Hk Hks]; subst. rewrite (proj2 (Z.ltb_ge k 0)) by lia. wp_steps. eexists. split_and!; [reflexivity|lia|lia|].
    split; cbn; done.
Qed.

Lemma write_loop_ok fuel : ∀ s buffer nwrite, accepting s → (nwrite ≤ length buffer)%nat → Z.of_nat (length buffer) < 2 ^ 62 →
  (length buffer - nwrite + 1 < fuel)%nat →
  wp (write_loop fuel buffer (Z.of_nat nwrite) (Z.of_nat (length buffer))) s (λ _ s', sends s (drop nwrite buffer) s').
Proof.
  induction fuel as [|fuel IH]; intros s buffer nwrite Ha Hn Hb Hf; [lia|]. cbn [write_loop].
  rewrite (proj2 (Z.leb_le _ _)) by lia. cbn [negb]. rewrite Nat2Z.id, <- Nat2Z.inj_sub, Nat2Z.id by lia.
  rewrite (take_ge (drop _ _)) by (rewrite length_drop; lia). wp_step.
  destruct (decide (nwrite = length buffer)) as [->|Hne].
  - rewrite drop_all. unfold write. wp_step. wp_step. destruct (accepts s) as [|k ks] eqn:E.
    + wp_step. wp_step. wp_step. replace (0 <? u64 (Z.of_nat (length []))) with false by done. wp_step.
      split; cbn; [by rewrite app_nil_r|done..|constructor].
    + unfold accepting in Ha. rewrite E in Ha. inversion Ha; subst. rewrite (proj2 (Z.ltb_ge k 0)) by lia. cbn [length]. rewrite Nat.min_0_r.
      wp_step. wp_step. wp_step. replace (0 <? u64 (Z.of_nat 0)) with false by done. wp_step. split; cbn; [by rewrite app_nil_r|done..].
  - eapply wp_mono; [apply write_ok; [done|]|].
    { intros E%(f_equal length). rewrite length_drop in E. cbn in E. lia. }
    cbn beta. intros n s1 (k&->&Hk&Hs). rewrite length_drop in Hk. rewrite (u64_small (Z.of_nat k)) by word_lia.
    rewrite (proj2 (Z.ltb_lt _ _)) by lia. rewrite u64_small by word_lia. rewrite <- Nat2Z.inj_add.
    eapply wp_mono; [apply (IH s1 buffer (nwrite + k)%nat); [by apply Hs|lia|done|lia]|]. cbn beta. intros [] s2 Hs2.
    rewrite <- (take_drop k (drop nwrite buffer)), drop_drop. by eapply sends_app.
Qed.

Lemma copy_loop_ok fuel : ∀ s content, accepting s → (length content < fuel)%nat →
  wp (copy_loop fuel content) s (λ _ s', sends s content s').
Proof.
  induction fuel as [|fuel IH]; intros s content Ha Hf; [lia|]. cbn [copy_loop]. case_bool_decide as Hl.
  - wp_step. destruct content; [apply sends_nil|]. cbn in Hl. lia.
  - wp_step. wp_step. wp_step. rewrite length_take in Hl.
    assert (length (take 1024 content) ≤ 1024)%nat as Hb by (rewrite length_take; lia).
    eapply wp_mono; [apply (write_loop_ok _ s (take 1024 content) 0); [done|lia|lia|lia]|].
    cbn beta. rewrite drop_0. intros [] s1 Hs. eapply wp_mono; [apply (IH s1 (drop 1024 content)); [by apply Hs|rewrite length_drop; lia]|].
    cbn beta. intros [] s2 Hs2. rewrite <- (take_drop 1024 content). by eapply sends_app.
Qed.

(** What a client should receive. *)
Definition status_line (status : Z) : list Z :=
  chars "HTTP/1.0 " ++ decimal status ++ [32] ++ chars (http_get_response_message status) ++ crlf.
Definition header (key : string) (value : list Z) : list Z := chars key ++ chars ": " ++ value ++ crlf.
Definition error_text (status : Z) : list Z := status_line status ++ header "Content-Type" (chars "text/html") ++ crlf.
Definition file_text (p content : list Z) : list Z :=
  status_line 200 ++ header "Content-Type" (chars (http_get_mime_type p)) ++
  header "Content-Length" (decimal (Z.of_nat (length content))) ++ crlf ++ content.

Definition directory_head : list Z := status_line 200 ++ header "Content-Type" (chars "text/html") ++ crlf.
Definition after (text : list Z) (a : outcome (list Z)) : outcome (list Z) :=
  match a with Ret rest => Ret (text ++ rest) | Fail f => Fail f end.

(** A file, or the fault of reading from a file that could not be opened. *)
Definition file_answer (o : os) (p : list Z) : outcome (list Z) :=
  match os_file o p with Some content => Ret (file_text p content) | None => Fail BadAccess end.

(** What follows the head of the response for a directory: a response for
    "index.html", if it comes among the entries, or else the links to the regular
    files; a fault if a link does not fit into 1024 characters or the links so
    far do not fit into 10240. *)
Fixpoint directory_answer (o : os) (p : list Z) (entries : list (list Z * Z)) (links : list Z) : outcome (list Z) :=
  match entries with
  | [] => Ret links
  | (d_name, d_type) :: entries =>
      if negb (d_type =? 8) then directory_answer o p entries links
      else if bool_decide (d_name = chars "index.html") then
        if (length p <? 1014)%nat then file_answer o (p ++ chars "index.html") else Fail BadAccess
      else if (length (link p d_name) <? 1024)%nat && (length links + length (link p d_name) <? 10240)%nat then
        directory_answer o p entries (links ++ link p d_name)
      else Fail BadAccess
  end.

(** The answer to a request: the text the client receives, or a fault. *)
Definition answer (o : os) (r : option http_request) : outcome (list Z) :=
  match r with
  | None => Ret (error_text 400)
  | Some r =>
      let p := chars "./" ++ path r in
      if negb (bool_decide (head (path r) = Some 47)) then Ret (error_text 400)
      else if has_dotdot (path r) then Ret (error_text 403)
      else
        match os_stat o p with
        | Some S_REG => file_answer o p
        | Some S_DIR =>
            match os_dir o p with
            | Some entries => after directory_head (directory_answer o p entries [])
            | None => Fail BadAccess
            end
        | Some S_OTHER => Ret []
        | None => Ret (error_text 404)
        end
  end.

Lemma error_response_ok s status : wp (error_response status) s (λ _ s', sends s (error_text status) s').
Proof.
  unfold error_response, http_start_response, http_send_header, http_end_headers. wp_step. apply wp_dprintf. intros s1 H1.
  wp_step. apply wp_dprintf. intros s2 H2. apply wp_dprintf. intros s3 H3. unfold error_text. by repeat (eapply sends_app; [done|]).
Qed.

Lemma serve_file_ok s o p content : accepting s → os_file o p = Some content →
  wp (serve_file o p) s (λ _ s', sent s' = sent s ++ file_text p content ∧ closed s' = closed s).
Proof.
  intros Ha Ho. unfold serve_file, http_start_response, http_send_header, http_end_headers, touch. rewrite Ho. cbn [default].
  wp_step. apply wp_dprintf. intros s1 H1. wp_step. apply wp_dprintf. intros s2 H2. wp_step. apply wp_dprintf. intros s3 H3.
  wp_step. apply wp_dprintf. intros s4 H4. wp_step. wp_step. wp_step. eapply wp_deref; [done|].
  pose proof (sends_app _ _ _ _ _ H1 (sends_app _ _ _ _ _ H2 (sends_app _ _ _ _ _ H3 H4))) as H.
  eapply wp_mono; [apply copy_loop_ok; [by apply H|lia]|]. cbn beta. intros [] s5 [E1 E2 _ _]. cbn in E1, E2.
  destruct H as [E3 E4 _ _]. rewrite E1, E3, E2, E4. split; [|done]. unfold file_text, status_line, header. by rewrite <- !app_assoc.
Qed.

(** A computation sends the text, or faults. *)
Definition delivers (c : M socket unit) (s : socket) (a : outcome (list Z)) : Prop :=
  match a with
  | Ret text => wp c s (λ _ s', sent s' = sent s ++ text ∧ closed s' = closed s)
  | Fail f => c s = Fail f
  end.

Lemma delivers_dprintf s text (k : M socket unit) a :
  (∀ s', sent s' = sent s ++ text → closed s' = closed s → accepts s' = accepts s → delivers k s' a) →
  delivers (dprintf text;; k) s (after text a).
Proof.
  intros H. unfold dprintf, delivers in *. set (s1 := Socket (sent s ++ text) (closed s) (accepts s) (touched s)).
  specialize (H s1 eq_refl eq_refl eq_refl). destruct a as [rest|f]; cbn [after]; [|exact H].
  wp_step. wp_step. eapply wp_mono; [exact H|]. intros [] s' [-> ->]. split; [|done]. cbn. by rewrite <- app_assoc.
Qed.
Lemma delivers_touch s p (k : M socket unit) a :
  delivers k (Socket (sent s) (closed s) (accepts s) (touched s ++ [p])) a → delivers (touch p;; k) s a.
Proof. by destruct a. Qed.

Lemma serve_file_delivers o p s : accepting s → delivers (serve_file o p) s (file_answer o p).
Proof.
  intros Ha. unfold file_answer. destruct (os_file o p) as [content|] eqn:E; [by apply serve_file_ok|].
  unfold serve_file, delivers. rewrite E. reflexivity.
Qed.

(** The end of [serve_directory]. *)
Definition send_links (r : option (list Z)) : M socket unit :=
  match r with
  | None => ret tt
  | Some filelist => s ← get_state; write_loop (S (S (length filelist + length (accepts s)))) filelist 0 (Z.of_nat (length filelist))
  end.

Lemma entries_loop_delivers o p es : ∀ links s, accepting s → Z.of_nat (length links) < 10240 →
  delivers (r ← entries_loop o p es links; send_links r) s (directory_answer o p es links).
Proof.
  induction es as [|[d t] es IH]; intros links s Ha Hl; cbn [entries_loop directory_answer].
  - cbn [delivers]. wp_step. wp_step. cbn [send_links]. wp_step. wp_step.
    eapply wp_mono; [apply (write_loop_ok _ s links 0); [done|lia|lia|lia]|]. intros [] s' [E1 E2 _ _]. by rewrite drop_0 in E1.
  - destruct (t =? 8); cbn [negb]; [|by apply IH]. case_bool_decide as Hd.
    + unfold sprintf. rewrite length_app. change (length (chars "index.html")) with 10%nat.
      destruct (length p <? 1014)%nat eqn:Hp; [apply Nat.ltb_lt in Hp|apply Nat.ltb_ge in Hp].
      * rewrite (proj2 (Nat.ltb_lt _ _)) by lia. pose proof (serve_file_delivers o (p ++ chars "index.html") s Ha) as H.
        unfold delivers in *. destruct (file_answer _ _) as [text|f].
        -- wp_step. wp_step. wp_step. wp_step. eapply wp_mono; [exact H|]. intros [] s' Hs'. wp_step. cbn [send_links]. by wp_step.
        -- unfold bind, ret. by rewrite H.
      * rewrite (proj2 (Nat.ltb_ge _ _)) by lia. done.
    + unfold sprintf at 1. destruct (length (link p d) <? 1024)%nat; cbn [andb]; [|done].
      change (delivers (r ← (filelist ← sprintf 10240 (links ++ link p d); entries_loop o p es filelist); send_links r) s
        (if (length links + length (link p d) <? 10240)%nat then directory_answer o p es (links ++ link p d) else Fail BadAccess)).
      unfold sprintf. rewrite length_app. destruct (length links + length (link p d) <? 10240)%nat eqn:E2; [|done].
      apply Nat.ltb_lt in E2. change 10240%nat with (Z.to_nat 10240) in E2.
      apply (IH (links ++ link p d) s Ha). rewrite length_app. lia.
Qed.

Lemma after_app t1 t2 a : after t1 (after t2 a) = after (t1 ++ t2) a.
Proof. destruct a; cbn; [by rewrite app_assoc|done]. Qed.

Lemma serve_directory_delivers o p s : accepting s →
  delivers (serve_directory o p) s
    (match os_dir o p with Some entries => after directory_head (directory_answer o p entries []) | None => Fail BadAccess end).
Proof.
  intros Ha. destruct (os_dir o p) as [entries|] eqn:E; [|unfold serve_directory, delivers; by rewrite E].
  unfold serve_directory, http_start_response, http_send_header, http_end_headers, directory_head. rewrite E, <- !after_app.
  apply delivers_dprintf. intros s1 _ _ A1. apply (delivers_dprintf s1). intros s2 _ _ A2. apply (delivers_dprintf s2).
  intros s3 _ _ A3. apply delivers_touch. unfold bind at 1, deref.
  apply (entries_loop_delivers o p entries [] (Socket (sent s3) (closed s3) (accepts s3) (touched s3 ++ [p]))); [|cbn; lia].
  unfold accepting in *. cbn. by rewrite A3, A2, A1.
Qed.

(** A request that was parsed. *)
Lemma handled o r s : accepting s →
  match answer o r with
  | Ret text => wp (handle_request o r) s (λ _ s', sent s' = sent s ++ text ∧ closed s' = true)
  | Fail f => handle_request o r s = Fail f
  end.
Proof.
  intros Ha. assert (∀ c a, delivers c s a → match a with
    Ret text => wp (c;; close) s (λ _ s', sent s' = sent s ++ text ∧ closed s' = true) | Fail f => (c;; close) s = Fail f end) as Hclose.
  { intros c [text|f]; cbn [delivers]; intros H; [|unfold bind; by rewrite H].
    wp_step. eapply wp_mono; [exact H|]. intros [] s' [E _]. unfold close. by wp_step. }
  assert (∀ st, delivers (error_response st) s (Ret (error_text st))) as Herr.
  { intros st. cbn [delivers]. eapply wp_mono; [apply error_response_ok|]. by intros [] s' [E1 E2 _ _]. }
  unfold answer, handle_request. destruct r as [r|]; [|apply (Hclose _ _ (Herr 400))].
  destruct (negb _); [apply (Hclose _ _ (Herr 400))|]. destruct (has_dotdot (path r)); [apply (Hclose _ _ (Herr 403))|].
  set (p := chars "./" ++ path r).
  apply (Hclose (touch p;; match os_stat o p with
    | Some S_REG => serve_file o p | Some S_DIR => serve_directory o p | Some S_OTHER => ret tt | None => error_response 404 end)).
  apply delivers_touch. destruct (os_stat o p) as [[]|].
  - by apply serve_file_delivers.
  - by apply serve_directory_delivers.
  - cbn [delivers]. wp_step. by rewrite app_nil_r.
  - cbn [delivers]. eapply wp_mono; [apply error_response_ok|]. by intros [] s' [E1 E2 _ _].
Qed.

(** ** What the handler may read *)

Definition safe_path (p : list Z) : Prop := ∃ q, p = chars "./" ++ q ∧ head q = Some 47 ∧ has_dotdot q = false.

Definition confined (s s' : socket) : Prop := ∀ p, p ∈ touched s' → p ∈ touched s ∨ safe_path p.

Lemma has_dotdot_app q c r : c ≠ 46 → has_dotdot (q ++ c :: r) = has_dotdot q || has_dotdot (c :: r).
Proof.
  intros Hc. induction q as [|a q IH]; [done|]. destruct q as [|b q].
  - cbn [app has_dotdot]. rewrite (proj2 (Z.eqb_neq c 46) Hc), andb_false_r. done.
  - cbn [app has_dotdot] in *. rewrite IH. by rewrite orb_assoc.
Qed.

Lemma safe_index p : safe_path p → safe_path (p ++ chars "index.html").
Proof.
  intros (q&->&Hh&Hd). exists (q ++ chars "index.html"). split_and!; [by rewrite app_assoc|by destruct q|].
  change (chars "index.html") with (105 :: chars "ndex.html"). rewrite has_dotdot_app by done. by rewrite Hd.
Qed.

(** Computations that look up safe paths only; closed under sequencing. *)
Definition confines {A} (c : M socket A) : Prop := ∀ s, pwp c s (λ _ s', confined s s').

Lemma confines_keeps {A} (c : M socket A) : (∀ s, pwp c s (λ _ s', touched s' = touched s)) → confines c.
Proof. intros H s. eapply pwp_mono; [apply H|]. intros a s' E p. rewrite E. by left. Qed.
Lemma confines_ret {A} (a : A) : confines (ret a).
Proof. intros s. by apply pwp_ret; left. Qed.
Lemma confines_fail {A} f : confines (A := A) (fail f).
Proof. intros s. apply pwp_fail. Qed.
Lemma confines_bind {A B} (c : M socket A) (k : A → M socket B) : confines c → (∀ a, confines (k a)) → confines (bind c k).
Proof.
  intros Hc Hk s. apply pwp_bind. eapply pwp_mono; [apply Hc|]. intros a s1 H1. eapply pwp_mono; [apply Hk|].
  intros b s2 H2 p Hp. destruct (H2 p Hp) as [Hp1|?]; [by apply H1|by right].
Qed.
Lemma confines_dprintf t : confines (dprintf t).
Proof. apply confines_keeps. intros s. unfold dprintf. by pwp_step. Qed.
Lemma confines_get : confines get_state.
Proof. apply confines_keeps. intros s. by pwp_step. Qed.
Lemma confines_deref {A} (x : option A) : confines (deref x).
Proof. apply confines_keeps. intros s. apply pwp_deref. done. Qed.
Lemma confines_write d : confines (write d).
Proof. apply confines_keeps. intros s. unfold write. pwp_step. pwp_step. destruct (accepts s) as [|k ks]; [by pwp_steps|]. destruct (k <? 0); by pwp_steps. Qed.
Lemma confines_touch p : safe_path p → confines (touch p).
Proof. intros Hp s. unfold touch. pwp_step. intros q. cbn. rewrite elem_of_app, list_elem_of_singleton. intros [?| ->]; auto. Qed.

Create HintDb confine.
#[local] Hint Resolve confines_ret confines_fail confines_bind confines_dprintf confines_get confines_deref confines_write confines_touch : confine.

Lemma confines_write_loop fuel : ∀ b n m, confines (write_loop fuel b n m).
Proof.
  induction fuel as [|fuel IH]; intros b n m; cbn [write_loop]; [auto with confine|]. destruct (negb _); [auto with confine|].
  apply confines_bind; [auto with confine|]. intros k. destruct (0 <? u64 k); auto with confine.
Qed.
Lemma confines_copy_loop fuel : ∀ content, confines (copy_loop fuel content).
Proof.
  induction fuel as [|fuel IH]; intros content; cbn [copy_loop]; [auto with confine|]. case_bool_decide; [auto with confine|].
  apply confines_bind; [auto with confine|]. intros s. apply confines_bind; [apply confines_write_loop|auto].
Qed.
#[local] Hint Resolve confines_write_loop confines_copy_loop : confine.

Lemma confines_serve_file o p : safe_path p → confines (serve_file o p).
Proof. intros Hp. unfold serve_file, http_start_response, http_send_header, http_end_headers. auto 10 with confine. Qed.
Lemma confines_sprintf n t : confines (sprintf n t).
Proof. unfold sprintf. destruct (length t <? n)%nat; auto with confine. Qed.
Lemma sprintf_text n t s : pwp (sprintf n t) s (λ r s', r = t ∧ s' = s).
Proof. unfold sprintf. destruct (length t <? n)%nat; [by pwp_step|apply pwp_fail]. Qed.
#[local] Hint Resolve confines_serve_file confines_sprintf : confine.

Lemma confines_entries_loop o p es : safe_path p → ∀ l, confines (entries_loop o p es l).
Proof.
  intros Hp. induction es as [|[d t] es IH]; intros l; cbn [entries_loop]; [auto with confine|]. destruct (t =? 8); [|auto].
  case_bool_decide; [|auto 6 with confine]. intros s. apply pwp_bind. eapply pwp_mono; [apply sprintf_text|]. intros r s' [-> ->].
  apply confines_bind; [|auto with confine]. apply confines_serve_file. by apply safe_index.
Qed.

Lemma confines_serve_directory o p : safe_path p → confines (serve_directory o p).
Proof.
  intros Hp. pose proof (confines_entries_loop o p). unfold serve_directory, http_start_response, http_send_header, http_end_headers.
  do 5 (apply confines_bind; [auto with confine|intros ?]). apply confines_bind; [auto|]. intros [l|]; auto with confine.
Qed.

Lemma confines_error_response st : confines (error_response st).
Proof. unfold error_response, http_start_response, http_send_header, http_end_headers. auto 10 with confine. Qed.
Lemma confines_close : confines close.
Proof. apply confines_keeps. intros s. unfold close. by pwp_step. Qed.

(** Two hosts that differ only outside the directory of the server. *)
Definition agree (o o' : os) : Prop :=
  ∀ p, safe_path p → os_stat o p = os_stat o' p ∧ os_file o p = os_file o' p ∧ os_dir o p = os_dir o' p.

Lemma serve_file_agree o o' p : agree o o' → safe_path p → serve_file o p = serve_file o' p.
Proof. intros H Hp. unfold serve_file. destruct (H p Hp) as (_&->&_). done. Qed.

Lemma entries_loop_agree o o' p es : agree o o' → safe_path p → ∀ l, entries_loop o p es l = entries_loop o' p es l.
Proof.
  intros H Hp. induction es as [|[d t] es IH]; intros l; cbn [entries_loop]; [done|]. destruct (t =? 8); [|done].
  case_bool_decide; unfold sprintf; case_match; [|done| |done].
  - change ((serve_file o (p ++ chars "index.html");; ret (None (A := list Z))) = (serve_file o' (p ++ chars "index.html");; ret None)).
    by rewrite (serve_file_agree o o' _ H (safe_index p Hp)).
  - change ((filelist ← sprintf 10240 (l ++ link p d); entries_loop o p es filelist) =
      (filelist ← sprintf 10240 (l ++ link p d); entries_loop o' p es filelist)).
    unfold sprintf. case_match; [|done]. exact (IH (l ++ link p d)).
Qed.

Lemma handle_files_request_agree o o' bs old s : agree o o' → handle_files_request o bs old s = handle_files_request o' bs old s.
Proof.
  intros H. unfold handle_files_request, bind at 1. unfold bind at 1. destruct (http_request_parse bs old) as [[r|]|]; [|done..].
  unfold handle_request. destruct (negb _) eqn:E1; [done|]. destruct (has_dotdot (path r)) eqn:E2; [done|].
  apply negb_false_iff, bool_decide_eq_true in E1. assert (safe_path (chars "./" ++ path r)) as Hsafe by (by exists (path r)).
  destruct (H _ Hsafe) as (<-&_&Hdir). rewrite (serve_file_agree o o' _ H Hsafe).
  assert (serve_directory o (chars "./" ++ path r) = serve_directory o' (chars "./" ++ path r)) as ->; [|done].
  unfold serve_directory. rewrite Hdir. destruct (os_dir o' _) as [es|]; [|done].
  change (deref (Some es)) with (ret (S := socket) es). unfold bind, ret. by rewrite (entries_loop_agree o o' _ es H Hsafe).
Qed.

(** ** Theorems *)

(** C36: the requests the server accepts.  For any bytes that [read] delivers and
    any old contents of the buffer, [http_request_parse] returns without
    reading past the buffer, and returns a request exactly when the bytes are a
    method of upper-case letters, one space, a path without spaces, the rest of
    the line (empty, or from a space on) and the end of the line, in front of
    the first zero byte; the request has this method and path. *)
Theorem http_request_parse_grammar bs old :
  (∃ r, http_request_parse (Some bs) old = Ret r) ∧
  ∀ m p, http_request_parse (Some bs) old = Ret (Some (HttpRequest m p)) ↔ request_line m p bs.
Proof.
  unfold http_request_parse. split; [apply parse_returns|]. intros m p. rewrite parse_buffer_some. split.
  - set (b := bs ++ _). intros H. remember b as b' eqn:E. destruct H as [m p rest last Hm0 Hm Hp0 Hp Hv Hs].
    assert (0 ∉ m ++ 32 :: p ++ rest ++ [10]) as H0.
    { rewrite Forall_forall in Hm, Hp, Hv. rewrite !elem_of_app, elem_of_cons, !elem_of_app, list_elem_of_singleton.
      intros [H|[H|[H|[H|H]]]]; [by apply Hm in H|done|by apply Hp in H|by apply Hv in H|done]. }
    unfold b in E. replace (m ++ 32 :: p ++ rest ++ 10 :: last) with ((m ++ 32 :: p ++ rest ++ [10]) ++ last) in E
      by (cbn; by rewrite <- !app_assoc; cbn; rewrite <- !app_assoc).
    destruct (prefix_before_zero _ _ _ _ E H0) as [t ->].
    replace ((m ++ 32 :: p ++ rest ++ [10]) ++ t) with (m ++ 32 :: p ++ rest ++ 10 :: t)
      by (cbn; by rewrite <- !app_assoc; cbn; rewrite <- !app_assoc).
    by constructor.
  - intros [m' p' rest last Hm0 Hm Hp0 Hp Hv Hs]. rewrite <- !app_assoc. cbn. rewrite <- !app_assoc. cbn. by constructor.
Qed.

(** C37: what the files handler answers.  For any host file system and any
    bytes of a request: every path it looks up or opens starts with "./" and has
    no ".." in it, so that it stays below the directory of the server, and what it
    does (a fault included) does not depend on anything the file system has at other
    paths.  A client whose socket takes bytes, in pieces of any size, receives
    exactly the text of [answer], and the socket is closed: an error response for
    a request that is not well formed, tries to leave the directory or has no file;
    for a regular file its type, its length and its contents; for a directory the
    index, after the head of another response, or the links to its files; and
    nothing at all for a path that is neither a file nor a directory.  The handler
    faults, instead, exactly where [answer] says so: a file or directory
    that exists but cannot be opened, and links too long for their buffers.
    ([dprintf] is taken to send its whole text, and [sprintf] from a buffer into
    itself to append.) *)
Theorem files_handler_answers o bs old s :
  pwp (handle_files_request o (Some bs) old) s (λ _ s', confined s s') ∧
  (∀ o', agree o o' → handle_files_request o (Some bs) old s = handle_files_request o' (Some bs) old s) ∧
  ∃ r, http_request_parse (Some bs) old = Ret r ∧ (accepting s →
    match answer o r with
    | Ret text => wp (handle_files_request o (Some bs) old) s (λ _ s', sent s' = sent s ++ text ∧ closed s' = true)
    | Fail f => handle_files_request o (Some bs) old s = Fail f
    end).
Proof.
  split_and!.
  - unfold handle_files_request, handle_request. apply confines_bind.
    { apply confines_keeps. intros s1. unfold pwp. by destruct (http_request_parse (Some bs) old). }
    pose proof confines_error_response as He. pose proof confines_close as Hcl. intros [r|]; [|by apply confines_bind; auto].
    destruct (negb _) eqn:E1; [by apply confines_bind; auto|]. destruct (has_dotdot (path r)) eqn:E2; [by apply confines_bind; auto|].
    apply negb_false_iff, bool_decide_eq_true in E1. assert (safe_path (chars "./" ++ path r)) as Hsafe by (by exists (path r)).
    apply confines_bind; [by apply confines_touch|]. intros _. apply confines_bind; [|auto].
    destruct (os_stat o _) as [[]|]; [by apply confines_serve_file|by apply confines_serve_directory|apply confines_ret|auto].
  - intros o' H. by apply handle_files_request_agree.
  - destruct (parse_returns bs (drop (S (length bs)) (take (S LIBHTTP_REQUEST_MAX_SIZE) old))) as [r Hr].
    exists r. split; [exact Hr|]. intros Ha. change (http_request_parse (Some bs) old = Ret r) in Hr.
    pose proof (handled o r s Ha) as H.
    assert (handle_files_request o (Some bs) old s = handle_request o r s) as E
      by (unfold handle_files_request, bind; by rewrite Hr).
    unfold wp in *. by rewrite E.
Qed.

(** A host with a page, a directory with an index and one without. *)
Definition sample_os : os := OS
  (λ p, if bool_decide (p = chars ".//a.html") then Some S_REG
        else if bool_decide (p = chars ".//d/") || bool_decide (p = chars ".//d") then Some S_DIR else None)
  (λ p, if bool_decide (p = chars ".//a.html") then Some (chars "<p>hello</p>")
        else if bool_decide (p = chars ".//d/index.html") then Some (chars "<p>index</p>") else None)
  (λ p, if bool_decide (p = chars ".//d/") || bool_decide (p = chars ".//d") then Some [(chars "index.html", 8)] else None).

Definition get (p : string) : list Z := chars "GET " ++ chars p ++ chars " HTTP/1.0" ++ [13; 10].
Definition slow : socket := Socket [] false [1; 2; 3] [].

Lemma files_handler_answers_witness :
  wp (handle_files_request sample_os (Some (get "/a.html")) []) slow (λ _ s',
    sent s' = sent slow ++ file_text (chars ".//a.html") (chars "<p>hello</p>") ∧ closed s' = true) ∧
  handle_files_request sample_os (Some (get "/d")) [] slow = Fail BadAccess.
Proof.
  assert (accepting slow) as Ha by (by repeat constructor). split.
  - destruct (files_handler_answers sample_os (get "/a.html") [] slow) as (_&_&r&Hr&H). specialize (H Ha).
    assert (r = Some (HttpRequest (chars "GET") (chars "/a.html"))) as -> by (vm_compute in Hr; by injection Hr as <-).
    assert (answer sample_os (Some (HttpRequest (chars "GET") (chars "/a.html"))) =
      Ret (file_text (chars ".//a.html") (chars "<p>hello</p>"))) as Ea by (vm_compute; reflexivity).
    rewrite Ea in H. exact H.
  - destruct (files_handler_answers sample_os (get "/d") [] slow) as (_&_&r&Hr&H). specialize (H Ha).
    assert (r = Some (HttpRequest (chars "GET") (chars "/d"))) as -> by (vm_compute in Hr; by injection Hr as <-).
    exact H.
Defined.

(** [serve_directory] has already sent the head of a response when it serves
    the index, so that the client receives two of them; and without a slash
    at the end of the path, the name of the index is wrong, [fopen] fails and
    the server faults. *)
Theorem directory_index_responses :
  (∃ s, handle_files_request sample_os (Some (get "/d/")) [] (Socket [] false [] []) = Ret (tt, s) ∧
    sent s = status_line 200 ++ header "Content-Type" (chars "text/html") ++ crlf ++ file_text (chars ".//d/index.html") (chars "<p>index</p>")) ∧
  handle_files_request sample_os (Some (get "/d")) [] (Socket [] false [] []) = Fail BadAccess.
Proof. split; [eexists; split; [vm_compute; reflexivity|vm_compute; reflexivity]|vm_compute; reflexivity]. Qed.

(** A [write] that fails is taken for progress: the pointer goes back, and a
    byte is sent twice, or it leaves the buffer. *)
Theorem failed_write_taken_for_progress :
  (∃ s, write_loop 10 [1; 2; 3] 0 3 (Socket [] false [2; -1] []) = Ret (tt, s) ∧ sent s = [1; 2; 2; 3]) ∧
  write_loop 10 [1; 2; 3] 0 3 (Socket [] false [-1] []) = Fail BadAccess.
Proof. split; [eexists; split; vm_compute; reflexivity|vm_compute; reflexivity]. Qed.
